(* ===== verification/_CoqProject ===== *)
-Q . S2P
Prelude.v
GoLib.v
Storage.v
Block.v
Sparse.v
Overlay.v
BlockCache.v
MemoryStore.v
Channel.v
AddressSpace.v
PhysMem.v
Lifecycle.v
Lznt1.v
Lzvn.v
Szdd.v
Hpet.v
Serial.v
RingChannel.v
Ethernet.v
PrimeCell.v
GdbWire.v
GoCodec.v
Image.v
Gpt.v
BitStream.v
Deflate.v
DeflateFormat.v
Xpress.v
XpressFormat.v
WinContainer.v
GoPath.v
FatNames.v
ExtAttr.v
Directory.v
DirectoryCaches.v
DirectoryLinks.v
DirectorySpec.v
DirectoryTree.v
Nbd.v
NbdSpec.v
NbdSession.v
NbdOverlay.v
SqliteRecord.v
SqliteBuild.v
SqliteRead.v
SqliteTree.v
SqliteWrite.v
SqliteFile.v
SqliteWal.v
SqliteTotal.v
SqliteFits.v
