(* ===== verification/Prelude.v ===== *)
(** * trex: verification of the storage, memory and device layers

    trex inspects, transforms and runs disk images, archives and machines from
    Starlark scripts. Its Go packages meet at a few small interfaces: files
    are random-access readers ([storage.Reader]), disks are block devices
    ([block.Device]), streams are byte channels ([channel.ByteChannel]), and a
    machine is a processor, its memory and devices that a driver polls. This
    library translates the packages below those interfaces, function by
    function, into executable definitions and proves what each promises.

    ** Files and the code they model

    - [Prelude]: this header; machine integers, errors, results, byte lists
      and the lemmas on them that every component uses.
    - [GoLib]: [sort.Search], [sort.Slice] and little-endian integers of the
      Go standard library.
    - [Storage]: src/storage/storage.go and composite.go, readers under the
      contract of [io.ReaderAt] and files composed of ranges of others.
    - [Block]: src/block/device.go, geometry, [ReadFullAt], [FileDevice].
    - [Sparse]: src/block/sparse.go, the sparse overlay on a backing file with
      its index and extents.
    - [Overlay]: src/block/star/overlay.go, the copy-on-write overlay: chunks,
      leases, commits, snapshots, extents and the operation trace.
    - [BlockCache]: src/block/star/cache.go, the shared chunk cache; its
      critical sections are steps that any number of callers interleave.
    - [MemoryStore]: src/storage/memory_store.go, the paged store whose
      snapshots share its pages through a heap.
    - [Channel]: src/channel/memory.go, ready.go and channel.go, the memory
      stream, its checkpoints and the buffering adapter with its goroutine.
    - [AddressSpace]: src/emulator/cpu/memory.go, guest memory with
      permissions, a permission cache and write tracking.
    - [PhysMem]: src/memory/image.go and x86.go, captures and i386 paging.
    - [Lifecycle]: src/lifecycle/registry.go, the registry of resources.
    - [Lznt1], [Lzvn], [Szdd]: src/compression/lznt1, src/compression/lzvn and
      src/archive/szdd, decompressors.
    - [BitStream]: bit sequences and canonical prefix codes, which the two
      Huffman decoders share.
    - [Deflate], [DeflateFormat]: src/compression/mszip, the inflater and the
      format it reads.
    - [Xpress], [XpressFormat]: src/compression/xpress, the Huffman decoder
      and its format; [WinContainer]: src/compression/internal/wincontainer,
      the container around any codec.
    - [Hpet], [Serial], [RingChannel]: src/vmm/cc/hpet.go, serial.go and
      channel.go, the timer block, the 16550 UART and the shared-memory
      channel of the PC.
    - [Ethernet]: src/vmm/ethernet/switch.go, the learning switch.
    - [PrimeCell]: src/vmm/pl011/uart.go and src/vmm/cc/pl031.go.
    - [GdbWire]: src/debug/gdb_wire.go, packets and target descriptions.
    - [GoCodec]: CRC-32, UTF-16 and [io.ReadFull] of the standard library.
    - [Image]: src/filesystem/image.go, sparse images generated from extents.
    - [Gpt]: src/filesystem/gpt/gpt.go, the builder and the reader of GUID
      partition tables, over generated images.
    - [GoPath]: strings, sorting and package path of the standard library,
      and [CleanPath] of src/storage/storage.go.
    - [FatNames], [ExtAttr]: src/filesystem/directory.go (8.3 aliases) and
      extended_attributes.go.
    - [Directory]: src/filesystem/directory.go and its companions, the
      in-memory tree with its index of hard links and its caches;
      [DirectoryCaches], [DirectoryLinks]: the invariants of the two;
      [DirectorySpec]: the tree without them and the refinement.
    - [DirectoryTree]: src/filesystem/tree.go, the project view of a tree.
    - [Nbd]: src/block/nbd/server.go, the NBD server: its wire, negotiation
      and commands, and the goroutines of a connection as a step relation;
      [NbdSpec]: the protocol over a flat disk and the proof that every
      interleaving serves it; [NbdSession]: encoders and decoders of a client;
      [NbdOverlay]: the server composed with [Overlay].
    - [SqliteRecord], [SqliteBuild], [SqliteRead]: src/database/sqlite, the
      records of both of its files, the database writer build.go and the
      reader sqlite.go with the write-ahead log; [SqliteTree]: what a b-tree
      on pages is, and that the reader walks it; [SqliteWrite], [SqliteFile]:
      that the writer makes such trees and a file the reader opens;
      [SqliteWal]: the format of a log and recovery from it; [SqliteTotal]:
      both end on every input; [SqliteFits]: the writer succeeds.

    ** How the code is translated

    A byte is a [Z]; integers carry the wrap-around of their width ([u8] to
    [u64], [i64]) wherever the code can reach it. A struct is a [Record] and a
    method is a function on it that returns the new state. The body of a loop
    or of a branch may be a definition of its own, next to the function that
    uses it ([ReadFullAt_loop] and [ReadFullAt]). A function that may
    fail returns [res] or an [option error]; an index out of range or another
    run-time panic is the error [Panic], and theorems show it does not occur.
    Slices that the code shares between owners live in a heap and are reached
    by identifier (pages of the memory store, mappings of the address space,
    cache entries, switch ports). What the code reaches through an interface
    or a callback (base devices, backing files, channels, interrupt
    controllers, clocks) is a parameter with the documented contract as a
    class or a section hypothesis, and each witness instantiates it. Calls
    that hold a mutex throughout are single steps; where code releases it, the
    critical sections are separate steps and theorems range over all
    interleavings. Time is an argument.

    ** Fuel

    A loop that is not structural takes fuel, and running out is the error
    [OutOfFuel]. The definitions give enough: a loop over a buffer gets one
    round per byte, a binary search one per element, a decoder one per input
    byte; the walk of a b-tree has the depth limit of the code, and the height
    of an index is at most 64, which 2^64 records do not reach. Theorems that
    state results include that the error does not occur ([returns], the
    totality theorems of the decoders). Only the GDB packet layer waits for a
    peer: there the fuel is an argument, and one unit per byte of input is
    proved to suffice.

    ** What is proved

    - Disks and files (C1 to C11): composed files read as the concatenation of
      their ranges; [FileDevice] and the sparse overlay meet the device
      contract and refine a flat array of bytes, writes and zeroing included;
      the overlay refines a disk with leases and frozen snapshots, accounts
      its memory exactly and reports exact extents; the cache is coherent,
      bounded, free of duplicate loads, live and transparent; a client of an
      NBD server over an overlay talks to a flat disk, from its first byte to
      the last reply; the memory store refines a resizable file with frozen
      copies.
    - Directory trees (C12, C38 to C40): a tree with reference counts, alias
      lists and five caches answers every program as the plain tree does; 8.3
      aliases are distinct and the first free ones; the project view finds
      what the tree has; chains of extended attributes round-trip.
    - Streams (C13, C14, C26): nothing is lost, repeated or reordered,
      capacity is exact, a reader or writer that waits is always woken, a
      checkpoint replays; the shared-memory rings carry two streams through
      wrapping counters.
    - Guest memory (C15 to C17): accesses succeed exactly where permitted,
      whatever the cache holds; mapping changes have exactly their effect;
      writes to tracked pages are always noticed; captures and paging agree
      with reading byte by byte.
    - Resources (C18): each is closed exactly once, latest first.
    - Decoders (C19 to C23): each inverts an encoder that can express the
      whole format, or equals a reference decoder, and returns on every input.
    - Devices (C24, C25, C27 to C29): interrupt lines are high exactly when
      something is pending, comparators and alarms fire at their exact time,
      FIFOs are queues, registers keep their width, and the switch delivers
      to exactly the right ports within its bounds.
    - Protocols (C30 to C32): GDB packets round-trip and only framed packets
      with a matching checksum are accepted, and every exchange returns; the
      requests, options and replies of NBD come out of their streams as they
      were written.
    - Images (C33, C34): a generated image reads as its extents with zeros
      between them and reports exact extents; the partition tables the
      builder writes are read back, with the contents of the partitions.
    - Databases (C35 to C37): whatever SQLite can hold is written, cells and
      pages of every size fitting, and read back in order, over any number of
      pages, b-tree levels and overflow chains; a database with a write-ahead
      log is that of its last commit; the package returns on every input, with
      no more rows than asked for.

    ** What is not modelled

    The instruction interpreters, the emulated operating systems, the readers
    of archives, most filesystems, installers, the ESE database and Windows
    formats (a large set of file formats over the modelled readers), network
    clients, host files and processes, user interfaces and the Starlark
    bindings.
    Formatted error messages are kept without their arguments. Goroutine
    scheduling is modelled only where a theorem needs it ([BlockCache],
    [Channel], [Nbd]); elsewhere an operation is one step because it runs under a
    lock or on one goroutine. *)

From stdpp Require Import base numbers list gmap sorting strings.
From Stdlib Require Import ZArith Lia.

Open Scope Z_scope.

(** ** Scopes, notations and tactics *)

Declare Scope trex_scope.
Delimit Scope trex_scope with trex.
Open Scope trex_scope.

Create HintDb trex.

(** Bytes are 8-bit integers kept as [Z]. *)
Abbreviation byte := Z (only parsing).
Abbreviation bytes := (list Z) (only parsing).

(** ** Machine integers *)

Definition MaxInt64 : Z := 9223372036854775807.
Definition MaxUint64 : Z := 18446744073709551615.
Definition MaxUint32 : Z := 4294967295.

(** Wrap-around of the fixed-width types. *)
Definition u8 (z : Z) : Z := z mod 256.
Definition u16 (z : Z) : Z := z mod 65536.
Definition u32 (z : Z) : Z := z mod 4294967296.
Definition u64 (z : Z) : Z := z mod 18446744073709551616.
Definition i64 (z : Z) : Z :=
  (z + 9223372036854775808) mod 18446744073709551616 - 9223372036854775808.

Lemma u8_id z : 0 <= z < 256 -> u8 z = z.
Proof. apply Z.mod_small. Qed.
Lemma u16_id z : 0 <= z < 65536 -> u16 z = z.
Proof. apply Z.mod_small. Qed.
Lemma u32_id z : 0 <= z < 4294967296 -> u32 z = z.
Proof. apply Z.mod_small. Qed.
Lemma u64_id z : 0 <= z < 18446744073709551616 -> u64 z = z.
Proof. apply Z.mod_small. Qed.
Lemma i64_id z : - 9223372036854775808 <= z <= MaxInt64 -> i64 z = z.
Proof. unfold i64, MaxInt64. intros H. rewrite Z.mod_small; lia. Qed.

(** ** Errors

    The sentinel errors of the Go packages, formatted errors (without their
    arguments), and two constructors that are not Go errors: [Panic] is a
    run-time panic (index out of range, division by zero) and [OutOfFuel]
    marks a loop of the model that ran out of fuel.  Both are shown to be
    unreachable where they matter. *)
Inductive error : Type :=
  | EOF
  | ErrUnexpectedEOF
  | ErrShortWrite
  | ErrNoProgress
  | ErrClosedPipe
  | ErrWouldBlock
  | ErrOutOfRange
  | ErrReadOnly
  | ErrUnsupported
  | ErrStoreLimit
  | ErrStoreClosed
  | Canceled
  | BlockCapacityError (Limit Allocated Requested : Z)
  | Errorf (message : string)
  | Wrapf (message : string) (cause : error)
  | Panic
  | OutOfFuel.

(** [err == io.EOF]. *)
Definition is_EOF (e : error) : bool :=
  match e with EOF => true | _ => false end.

(** ** Results: the [(value, error)] returns that carry one or the other *)

Inductive res (A : Type) : Type :=
  | Ok (a : A)
  | Err (e : error).
Arguments Ok {A} a.
Arguments Err {A} e.

Definition res_bind {A B} (r : res A) (k : A -> res B) : res B :=
  match r with Ok a => k a | Err e => Err e end.

Notation "'let!' x := c 'in' k" := (res_bind c (fun x => k))
  (at level 10, x pattern, c at level 100, k at level 200) : trex_scope.

(** [if cond { return nil, e }; k]. *)
Notation "'guard!' e 'when' b 'in' k" := (if (b : bool) then Err e else k)
  (at level 10, e at level 9, b at level 100, k at level 200) : trex_scope.

Definition is_ok {A} (r : res A) : bool :=
  match r with Ok _ => true | Err _ => false end.

(** The code returns: a value with [P], or one of its own errors, never a
    run-time panic. *)
Definition returns {A} (P : A -> Prop) (r : res A) : Prop :=
  match r with Ok a => P a | Err e => e <> Panic /\ e <> OutOfFuel end.

(** ** Lengths and indexing in [Z] *)

Definition zlen {A} (l : list A) : Z := Z.of_nat (length l).

Lemma zlen_nil {A} : zlen (@nil A) = 0.
Proof. done. Qed.
Lemma zlen_cons {A} (x : A) l : zlen (x :: l) = 1 + zlen l.
Proof. unfold zlen. simpl. lia. Qed.
Lemma zlen_app {A} (l k : list A) : zlen (l ++ k) = zlen l + zlen k.
Proof. unfold zlen. rewrite length_app. lia. Qed.
Lemma zlen_nonneg {A} (l : list A) : 0 <= zlen l.
Proof. unfold zlen. lia. Qed.
Lemma zlen_replicate {A} n (x : A) : 0 <= n -> zlen (replicate (Z.to_nat n) x) = n.
Proof. unfold zlen. rewrite length_replicate. lia. Qed.
Lemma zlen_fmap {A B} (f : A -> B) l : zlen (f <$> l) = zlen l.
Proof. unfold zlen. by rewrite length_fmap. Qed.
Lemma zlen_0_nil {A} (l : list A) : zlen l = 0 -> l = [].
Proof. destruct l; [done|]. unfold zlen. simpl. lia. Qed.

#[export] Hint Resolve zlen_nonneg : trex.

(** The byte at index [i], 0 outside the list. *)
Definition nthb (l : bytes) (i : Z) : byte :=
  if i <? 0 then 0 else nth (Z.to_nat i) l 0.

(** [l[i]] as Go evaluates it. *)
Definition index {A} (l : list A) (i : Z) : res A :=
  if i <? 0 then Err Panic
  else match l !! Z.to_nat i with Some x => Ok x | None => Err Panic end.

(** [l[off:off+n]], clipped to the list. *)
Definition slice {A} (off n : Z) (l : list A) : list A :=
  take (Z.to_nat n) (drop (Z.to_nat off) l).

(** [copy(l[off:], d)] for [d] that fits. *)
Definition splice {A} (l : list A) (off : Z) (d : list A) : list A :=
  take (Z.to_nat off) l ++ d ++ drop (Z.to_nat (off + zlen d)) l.

Notation "l .[ off +: n ]" := (slice off n l)
  (at level 1, off at level 50, n at level 50, left associativity,
   format "l .[ off  +:  n ]") : trex_scope.

Definition zeros (n : Z) : bytes := replicate (Z.to_nat n) 0.

(** ** Byte contents as functions of the offset

    The abstract content of a reader, a disk or an address space is a
    function from offsets to bytes; [range f off n] is its segment. *)
Definition range (f : Z -> byte) (off n : Z) : bytes := f <$> seqZ off n.

(** The content after [d] has been written at [off]. *)
Definition upd (f : Z -> byte) (off : Z) (d : bytes) : Z -> byte :=
  fun i => if (off <=? i) && (i <? off + zlen d) then nthb d (i - off) else f i.

(** The content after [n] zero bytes have been written at [off]. *)
Definition upd_zero (f : Z -> byte) (off n : Z) : Z -> byte :=
  fun i => if (off <=? i) && (i <? off + n) then 0 else f i.

(** ** Lemmas on ranges, slices and updates *)

Lemma nthb_lookup l i : 0 <= i < zlen l -> l !! Z.to_nat i = Some (nthb l i).
Proof.
  unfold nthb, zlen. intros Hi.
  destruct (Z.ltb_spec i 0); [lia|].
  destruct (lookup_lt_is_Some_2 l (Z.to_nat i)) as [x Hx]; [lia|].
  rewrite Hx. f_equal. by rewrite (nth_lookup_Some _ _ 0 _ Hx).
Qed.

Lemma lookup_nthb l (i : nat) x : l !! i = Some x -> nthb l (Z.of_nat i) = x.
Proof.
  intros H. pose proof (lookup_lt_Some _ _ _ H).
  assert (Some (nthb l (Z.of_nat i)) = Some x) as [= ->]; [|done].
  rewrite <- (nthb_lookup l), Nat2Z.id; [done|]. unfold zlen. lia.
Qed.

Lemma nthb_out l i : i < 0 \/ zlen l <= i -> nthb l i = 0.
Proof.
  unfold nthb, zlen. intros Hi. destruct (Z.ltb_spec i 0); [done|].
  rewrite nth_overflow; [done|]. lia.
Qed.

Lemma index_ok {l i} : 0 <= i < zlen l -> index l i = Ok (nthb l i).
Proof.
  intros Hi. unfold index. destruct (Z.ltb_spec i 0); [lia|]. by rewrite nthb_lookup.
Qed.

Lemma zlen_range f off n : 0 <= n -> zlen (range f off n) = n.
Proof. unfold zlen, range. rewrite length_fmap, length_seqZ. lia. Qed.

Lemma zlen_range' f off n : zlen (range f off n) = Z.max 0 n.
Proof. unfold zlen, range. rewrite length_fmap, length_seqZ. lia. Qed.

Lemma range_nil f off n : n <= 0 -> range f off n = [].
Proof. intros. unfold range. by rewrite seqZ_nil. Qed.

Lemma range_add f off a b :
  0 <= a -> 0 <= b -> range f off (a + b) = range f off a ++ range f (off + a) b.
Proof. intros. unfold range. by rewrite seqZ_app, fmap_app. Qed.

Lemma range_cons f off n : 0 < n -> range f off n = f off :: range f (off + 1) (n - 1).
Proof. intros. unfold range. rewrite seqZ_cons by lia. done. Qed.

Lemma range_ext f g off n :
  (forall i, off <= i < off + n -> f i = g i) -> range f off n = range g off n.
Proof.
  intros H. apply list_eq. intros i. unfold range. rewrite !list_lookup_fmap.
  destruct (seqZ off n !! i) eqn:E; [|done]. simpl. f_equal.
  apply lookup_seqZ in E. apply H. lia.
Qed.

(** Two segments at different places with the same bytes. *)
Lemma range_shift f g off off' n :
  (forall i, 0 <= i < n -> f (off + i) = g (off' + i)) -> range f off n = range g off' n.
Proof.
  intros H. apply list_eq. intros i. unfold range. rewrite !list_lookup_fmap.
  destruct (decide (Z.of_nat i < n)).
  - rewrite !lookup_seqZ_lt by done. simpl. f_equal. apply H. lia.
  - by rewrite !lookup_seqZ_ge by lia.
Qed.

Lemma nthb_range f off n i : 0 <= i < n -> nthb (range f off n) i = f (off + i).
Proof.
  intros Hi.
  assert (Some (nthb (range f off n) i) = Some (f (off + i))) as [= ->]; [|done].
  rewrite <- nthb_lookup by (rewrite zlen_range; lia).
  unfold range. rewrite list_lookup_fmap, lookup_seqZ_lt by lia. simpl.
  do 2 f_equal. lia.
Qed.

Lemma range_nthb l : range (nthb l) 0 (zlen l) = l.
Proof.
  apply list_eq. intros i. unfold range. rewrite list_lookup_fmap.
  destruct (l !! i) as [x|] eqn:E.
  - pose proof (lookup_lt_Some _ _ _ E).
    rewrite lookup_seqZ_lt by (unfold zlen; lia). simpl. f_equal.
    rewrite <- (lookup_nthb l i x E). f_equal; lia.
  - apply lookup_ge_None in E. rewrite lookup_seqZ_ge; [done|]. unfold zlen. lia.
Qed.

(** Lists are determined by their length and their bytes. *)
Lemma bytes_ext l k :
  zlen l = zlen k -> (forall i, 0 <= i < zlen l -> nthb l i = nthb k i) -> l = k.
Proof.
  intros Hl H. rewrite <- (range_nthb l), <- (range_nthb k), <- Hl.
  apply range_ext. intros i Hi. apply H. lia.
Qed.

Lemma slice_range l off n :
  0 <= off -> 0 <= n -> off + n <= zlen l -> slice off n l = range (nthb l) off n.
Proof.
  intros H1 H2 H3. apply list_eq. intros i. unfold slice, range.
  rewrite list_lookup_fmap. destruct (decide (Z.of_nat i < n)).
  - rewrite lookup_take_lt, lookup_drop, lookup_seqZ_lt by lia. simpl.
    replace (Z.to_nat off + i)%nat with (Z.to_nat (off + Z.of_nat i)) by lia.
    apply nthb_lookup. lia.
  - rewrite lookup_take_ge by lia. by rewrite lookup_seqZ_ge by lia.
Qed.

Lemma zlen_slice {A} (l : list A) off n :
  0 <= off -> 0 <= n -> off + n <= zlen l -> zlen (slice off n l) = n.
Proof. unfold zlen, slice. intros. rewrite length_take, length_drop. lia. Qed.

Lemma zlen_slice_le {A} (l : list A) off n : zlen (slice off n l) <= Z.max 0 n.
Proof. unfold zlen, slice. rewrite length_take. lia. Qed.

Lemma nthb_slice l off n i :
  0 <= off -> off + n <= zlen l -> 0 <= i < n -> nthb (slice off n l) i = nthb l (off + i).
Proof. intros. rewrite slice_range, nthb_range; lia. Qed.

Lemma slice_all {A} (l : list A) n : zlen l <= n -> slice 0 n l = l.
Proof. unfold zlen, slice. intros. rewrite drop_0, take_ge; [done|lia]. Qed.

(** A slice is clipped at the end of the list. *)
Lemma slice_min {A} off n (l : list A) :
  0 <= off -> slice off n l = slice off (Z.min n (zlen l - off)) l.
Proof.
  intros Ho. destruct (Z.min_spec n (zlen l - off)) as [[_ ->]|[H ->]]; [done|].
  unfold slice, zlen in *. by rewrite !take_ge by (rewrite length_drop; lia).
Qed.

Lemma nthb_app l k i :
  nthb (l ++ k) i = if i <? zlen l then nthb l i else nthb k (i - zlen l).
Proof.
  destruct (Z.ltb_spec i 0) as [Hneg|Hpos].
  { pose proof (zlen_nonneg l).
    destruct (Z.ltb_spec i (zlen l)); [|lia]. by rewrite !nthb_out by lia. }
  unfold nthb, zlen in *. destruct (Z.ltb_spec i 0); [lia|].
  destruct (Z.ltb_spec i (Z.of_nat (length l))).
  - apply app_nth1. lia.
  - destruct (Z.ltb_spec (i - Z.of_nat (length l)) 0); [lia|].
    rewrite app_nth2 by lia. f_equal. lia.
Qed.

Lemma nthb_zeros n i : nthb (zeros n) i = 0.
Proof.
  unfold nthb, zeros. destruct (i <? 0); [done|].
  destruct (decide (Z.to_nat i < Z.to_nat n)%nat).
  - erewrite nth_lookup_Some; [done|]. by apply lookup_replicate.
  - apply nth_overflow. rewrite length_replicate. lia.
Qed.

Lemma zlen_zeros n : 0 <= n -> zlen (zeros n) = n.
Proof. apply zlen_replicate. Qed.

Lemma zeros_range off n : 0 <= n -> zeros n = range (fun _ => 0) off n.
Proof.
  intros. apply bytes_ext; rewrite zlen_zeros by done; [by rewrite zlen_range|].
  intros i Hi. by rewrite nthb_zeros, nthb_range.
Qed.

Lemma zlen_splice {A} (l : list A) off d :
  0 <= off -> off + zlen d <= zlen l -> zlen (splice l off d) = zlen l.
Proof.
  unfold zlen, splice. intros. rewrite !length_app, length_take, length_drop.
  unfold zlen. lia.
Qed.

Lemma nthb_take l n i : i < Z.of_nat n -> nthb (take n l) i = nthb l i.
Proof.
  intros Hi. unfold nthb. destruct (Z.ltb_spec i 0); [done|].
  rewrite !nth_lookup, lookup_take_lt by lia. done.
Qed.

Lemma nthb_drop l n i : 0 <= i -> nthb (drop n l) i = nthb l (Z.of_nat n + i).
Proof.
  intros Hi. unfold nthb. destruct (Z.ltb_spec i 0); [lia|].
  destruct (Z.ltb_spec (Z.of_nat n + i) 0); [lia|].
  rewrite !nth_lookup, lookup_drop. do 2 f_equal. lia.
Qed.

Lemma nthb_splice l off d i :
  0 <= off -> off + zlen d <= zlen l -> nthb (splice l off d) i = upd (nthb l) off d i.
Proof.
  intros H1 H2. pose proof (zlen_nonneg d). unfold splice, upd.
  assert (Hz : zlen (take (Z.to_nat off) l) = off).
  { unfold zlen in *. rewrite length_take. lia. }
  rewrite !nthb_app, Hz.
  destruct (Z.leb_spec off i), (Z.ltb_spec i off); simpl; try lia.
  - destruct (Z.ltb_spec (i - off) (zlen d)), (Z.ltb_spec i (off + zlen d)); try lia.
    rewrite nthb_drop by lia. f_equal. lia.
  - rewrite nthb_take; [done|lia].
Qed.

Lemma upd_nil f off i : upd f off [] i = f i.
Proof. unfold upd. rewrite zlen_nil. destruct (Z.leb_spec off i), (Z.ltb_spec i (off + 0)); simpl; lia || done. Qed.

Lemma upd_app f off d e i :
  upd f off (d ++ e) i = upd (upd f off d) (off + zlen d) e i.
Proof.
  pose proof (zlen_nonneg d). pose proof (zlen_nonneg e).
  unfold upd. rewrite zlen_app, nthb_app.
  destruct (Z.leb_spec off i), (Z.ltb_spec i (off + (zlen d + zlen e))),
    (Z.leb_spec (off + zlen d) i), (Z.ltb_spec i (off + zlen d + zlen e)),
    (Z.ltb_spec i (off + zlen d)), (Z.ltb_spec (i - off) (zlen d));
    simpl; try lia; try done.
  f_equal; lia.
Qed.

Lemma upd_in f off d i : off <= i < off + zlen d -> upd f off d i = nthb d (i - off).
Proof. intros. unfold upd. destruct (Z.leb_spec off i), (Z.ltb_spec i (off + zlen d)); simpl; lia || done. Qed.

Lemma upd_out f off d i : i < off \/ off + zlen d <= i -> upd f off d i = f i.
Proof. intros. unfold upd. destruct (Z.leb_spec off i), (Z.ltb_spec i (off + zlen d)); simpl; lia || done. Qed.

Lemma upd_ext f g off d i : f i = g i -> upd f off d i = upd g off d i.
Proof. intros. unfold upd. by destruct (_ && _). Qed.

(** Reading back what was written. *)
Lemma range_upd_same f off d : range (upd f off d) off (zlen d) = d.
Proof.
  pose proof (zlen_nonneg d).
  transitivity (range (nthb d) 0 (zlen d)); [|apply range_nthb].
  apply range_shift. intros i Hi. rewrite upd_in by lia. f_equal. lia.
Qed.

Lemma upd_zeros f off n i : 0 <= n -> upd f off (zeros n) i = upd_zero f off n i.
Proof.
  intros. unfold upd, upd_zero. rewrite zlen_zeros, nthb_zeros by done. done.
Qed.

(** Assigning one element. *)
Lemma nthb_insert l i j v :
  0 <= i < zlen l -> 0 <= j -> nthb (<[Z.to_nat i := v]> l) j = if decide (i = j) then v else nthb l j.
Proof.
  intros Hi Hj. case_decide as E.
  - subst. rewrite <- (Z2Nat.id j) at 2 by lia. apply lookup_nthb.
    rewrite list_lookup_insert_eq by (unfold zlen in *; lia). done.
  - destruct (decide (j < zlen l)).
    + rewrite <- (Z2Nat.id j) at 1 by lia. apply lookup_nthb.
      rewrite list_lookup_insert_ne by lia. apply nthb_lookup. lia.
    + rewrite !nthb_out; [done|lia|]. right. unfold zlen in *. rewrite length_insert. lia.
Qed.

(** ** Bits *)

Lemma land_pow2 w k : 0 <= k -> negb (Z.land w (Z.shiftl 1 k) =? 0) = Z.testbit w k.
Proof.
  intros Hk. destruct (Z.testbit w k) eqn:E.
  - apply negb_true_iff, Z.eqb_neq. intros H.
    assert (F : Z.testbit (Z.land w (Z.shiftl 1 k)) k = true).
    { rewrite Z.land_spec, E, Z.shiftl_spec, Z.sub_diag by lia. done. }
    rewrite H, Z.bits_0 in F. done.
  - apply negb_false_iff, Z.eqb_eq. apply Z.bits_inj'. intros j Hj.
    rewrite Z.land_spec, Z.bits_0, Z.shiftl_spec by lia.
    destruct (decide (j = k)) as [->|Hjk]; [by rewrite E|].
    destruct (decide (j < k)); [rewrite (Z.testbit_neg_r 1) by lia; by rewrite andb_false_r|].
    replace (Z.testbit 1 (j - k)) with false; [by rewrite andb_false_r|].
    symmetry. apply (Z.bits_above_log2 1); simpl; lia.
Qed.

Lemma land_low a k : 0 <= k -> Z.land a (2 ^ k - 1) = a mod 2 ^ k.
Proof. intros Hk. replace (2 ^ k - 1) with (Z.ones k) by (rewrite Z.ones_equiv; lia). by apply Z.land_ones. Qed.

Lemma land_mask_nonneg a m : 0 <= m -> 0 <= Z.land a m.
Proof. intros. apply Z.land_nonneg. by right. Qed.

Lemma land_bound a m k : 0 <= k -> Z.land m (2 ^ k - 1) = m -> 0 <= Z.land a m < 2 ^ k.
Proof.
  intros Hk Hm. rewrite <- Hm, Z.land_assoc, land_low by done. apply Z.mod_pos_bound, Z.pow_pos_nonneg; lia.
Qed.

(** A mask of high bits. *)
Lemma land_shiftl a m k : 0 <= k -> Z.land a (Z.shiftl m k) = Z.shiftl (Z.land (Z.shiftr a k) m) k.
Proof.
  intros Hk. apply Z.bits_inj'. intros n Hn. rewrite Z.land_spec, !Z.shiftl_spec by done.
  destruct (decide (n < k)) as [Hlt|Hge].
  - rewrite !(Z.testbit_neg_r _ (n - k)) by lia. apply andb_false_r.
  - rewrite Z.land_spec, Z.shiftr_spec by lia. f_equal. f_equal. lia.
Qed.

(** Joining disjoint bit fields is addition. *)
Lemma lor_low a b k : 0 <= k -> 0 <= b < 2 ^ k -> Z.lor (Z.shiftl a k) b = a * 2 ^ k + b.
Proof.
  intros Hk Hb. rewrite <- Z.add_nocarry_lor; [by rewrite Z.shiftl_mul_pow2|].
  apply Z.bits_inj'. intros n Hn. rewrite Z.land_spec, Z.bits_0, Z.shiftl_spec by done.
  destruct (decide (n < k)) as [Hlt|Hge]; [by rewrite Z.testbit_neg_r by lia|].
  replace (Z.testbit b n) with false; [by rewrite andb_false_r|]. symmetry.
  apply Z.testbit_false; [done|]. rewrite Z.div_small; [done|].
  split; [lia|]. eapply Z.lt_le_trans; [apply Hb|]. apply Z.pow_le_mono_r; lia.
Qed.
