(* ===== verification/GoLib.v ===== *)
(** The parts of Go's standard library the modelled packages call:
    [sort.Search], [sort.Slice] and the little-endian codecs of
    [encoding/binary], with the lemmas about them. *)

From S2P Require Import Prelude.
From stdpp Require Import base numbers list gmap sorting strings.

Open Scope Z_scope.
Open Scope trex_scope.

(** ** [sort.Search] *)

(** The loop of [sort.Search]: [i] and [j] bracket the answer. *)
Fixpoint search_loop (fuel : nat) (f : Z -> bool) (i j : Z) : Z :=
  match fuel with
  | O => i
  | S fuel =>
      if i <? j then
        let h := (i + j) / 2 in
        if f h then search_loop fuel f i h else search_loop fuel f (h + 1) j
      else i
  end.

(** [sort.Search(n, f)]; the bracket shrinks in every iteration, so [n]
    iterations are enough. *)
Definition sort_Search (n : Z) (f : Z -> bool) : Z := search_loop (Z.to_nat n) f 0 n.

(** [f] is false up to some point and true from there on. *)
Definition monotone_pred (n : Z) (f : Z -> bool) : Prop :=
  forall a b, 0 <= a -> a <= b -> b < n -> f a = true -> f b = true.

Lemma search_loop_spec fuel f n i j :
  monotone_pred n f -> 0 <= i <= j -> j <= n -> j - i <= Z.of_nat fuel ->
  (forall k, 0 <= k < i -> f k = false) -> (forall k, j <= k < n -> f k = true) ->
  let r := search_loop fuel f i j in
  0 <= r <= n /\ (forall k, 0 <= k < r -> f k = false) /\ (forall k, r <= k < n -> f k = true).
Proof.
  intros Hmono. revert i j. induction fuel as [|fuel IH]; simpl; intros i j Hij Hjn Hfuel Hlo Hhi.
  { replace j with i in * by lia. split_and!; auto; lia. }
  destruct (Z.ltb_spec i j).
  - assert (Hh : i <= (i + j) / 2 < j).
    { split; [apply Z.div_le_lower_bound|apply Z.div_lt_upper_bound]; lia. }
    destruct (f ((i + j) / 2)) eqn:Ef.
    + apply IH; auto; try lia. intros k Hk.
      apply Hmono with ((i + j) / 2); auto; lia.
    + apply IH; auto; try lia. intros k Hk.
      destruct (f k) eqn:Ek; [|done].
      enough (f ((i + j) / 2) = true) by congruence.
      apply Hmono with k; auto; lia.
  - replace j with i in * by lia. split_and!; auto; lia.
Qed.

(** [sort.Search] returns the least index where a monotone predicate holds. *)
Lemma sort_Search_spec n f :
  0 <= n -> monotone_pred n f ->
  let r := sort_Search n f in
  0 <= r <= n /\ (forall k, 0 <= k < r -> f k = false) /\ (forall k, r <= k < n -> f k = true).
Proof. intros Hn Hm. apply search_loop_spec; auto; try lia. Qed.

(** The answer is the only index with these properties. *)
Lemma sort_Search_unique n f r :
  0 <= r <= n -> (forall k, 0 <= k < r -> f k = false) ->
  (forall k, r <= k < n -> f k = true) -> sort_Search n f = r.
Proof.
  intros Hr Hlo Hhi.
  assert (Hm : monotone_pred n f).
  { intros a b Ha Hab Hb Hf. apply Hhi. destruct (decide (a < r)); [|lia].
    rewrite Hlo in Hf by lia. done. }
  destruct (sort_Search_spec n f) as (H1 & H2 & H3); [lia|done|].
  set (r' := sort_Search n f) in *.
  destruct (Z.lt_trichotomy r' r) as [H|[H|H]]; [|done|].
  - specialize (H3 r' ltac:(lia)). rewrite Hlo in H3 by lia. done.
  - specialize (H2 r ltac:(lia)). rewrite Hhi in H2 by lia. done.
Qed.

(** ** [sort.Slice] with an integer key

    [sort.Slice] promises a permutation of the slice ordered by the key; the
    packages modelled here call it on distinct keys, or reject equal keys
    right after, so the order of equal keys does not matter. *)
Section sort_by.
Context {A : Type} (key : A -> Z).

Definition key_le (a b : A) : Prop := key a <= key b.

#[export] Instance key_le_dec a b : Decision (key_le a b).
Proof. unfold key_le. apply _. Defined.
#[export] Instance key_le_total : Total key_le.
Proof. intros a b. unfold key_le. lia. Qed.
#[export] Instance key_le_trans : Transitive key_le.
Proof. intros a b c. unfold key_le. lia. Qed.

Definition sort_by (l : list A) : list A := merge_sort key_le l.

Lemma sort_by_perm l : sort_by l ≡ₚ l.
Proof. apply merge_sort_Permutation. Qed.

Lemma sort_by_sorted l : StronglySorted key_le (sort_by l).
Proof. apply (StronglySorted_merge_sort key_le). Qed.

Lemma zlen_sort_by l : zlen (sort_by l) = zlen l.
Proof. unfold zlen. by rewrite sort_by_perm. Qed.

Lemma sort_by_sorted_id l : StronglySorted key_le l -> NoDup (key <$> l) -> sort_by l = l.
Proof.
  intros Hs Hnd.
  assert (Hperm := sort_by_perm l). assert (Hs' := sort_by_sorted l).
  revert Hs Hnd Hs' Hperm. generalize (sort_by l). intros k.
  revert k. induction l as [|x l IH]; intros k Hs Hnd Hs' Hperm.
  { by apply Permutation_nil_r in Hperm. }
  destruct k as [|y k]; [by apply Permutation_nil_l in Hperm|].
  apply StronglySorted_inv in Hs as [Hs Hx]. apply StronglySorted_inv in Hs' as [Hs' Hy].
  rewrite fmap_cons in Hnd. apply NoDup_cons in Hnd as [Hnin Hnd].
  assert (x = y) as ->.
  { assert (Hyin : y ∈ x :: l) by (rewrite <- Hperm; left).
    assert (Hxin : x ∈ y :: k) by (rewrite Hperm; left).
    apply elem_of_cons in Hyin as [->|Hyin]; [done|].
    apply elem_of_cons in Hxin as [->|Hxin]; [done|].
    rewrite Forall_forall in Hx. rewrite Forall_forall in Hy.
    specialize (Hx _ Hyin). specialize (Hy _ Hxin). unfold key_le in *.
    exfalso. apply Hnin. assert (key x = key y) as -> by lia.
    by apply list_elem_of_fmap_2. }
  f_equal. apply IH; auto. by apply Permutation_cons_inv in Hperm.
Qed.
End sort_by.

(** ** Little-endian integers ([encoding/binary.LittleEndian]) *)

(** [PutUint16/32/64]: the [n] low bytes of [v]. *)
Fixpoint le_bytes (n : nat) (v : Z) : bytes :=
  match n with
  | O => []
  | S n => v mod 256 :: le_bytes n (v / 256)
  end.

(** [Uint16/32/64] of the bytes of [l]. *)
Fixpoint le_val (l : bytes) : Z :=
  match l with
  | [] => 0
  | b :: l => b + 256 * le_val l
  end.

Lemma zlen_le_bytes n v : zlen (le_bytes n v) = Z.of_nat n.
Proof.
  revert v. induction n as [|n IH]; intros v; [done|].
  simpl. rewrite zlen_cons, IH. lia.
Qed.

Lemma le_val_le_bytes n v : le_val (le_bytes n v) = v mod 256 ^ Z.of_nat n.
Proof.
  revert v. induction n as [|n IH]; intros v; simpl le_val; simpl le_bytes.
  { by rewrite Z.mod_1_r. }
  simpl. rewrite IH.
  replace (Z.of_nat (S n)) with (1 + Z.of_nat n) by lia.
  rewrite Z.pow_add_r, Z.pow_1_r, Z.rem_mul_r by lia. lia.
Qed.

Lemma le_roundtrip n v : 0 <= v < 256 ^ Z.of_nat n -> le_val (le_bytes n v) = v.
Proof. intros. rewrite le_val_le_bytes. by apply Z.mod_small. Qed.

Definition byte_ok (b : byte) : Prop := 0 <= b < 256.
Definition bytes_ok (l : bytes) : Prop := Forall byte_ok l.

Lemma le_bytes_ok n v : bytes_ok (le_bytes n v).
Proof.
  revert v. induction n as [|n IH]; intros v; constructor; [|apply IH].
  apply Z.mod_pos_bound. lia.
Qed.

Lemma le_val_bound l : bytes_ok l -> 0 <= le_val l < 256 ^ zlen l.
Proof.
  induction 1 as [|b l Hb Hl IH]; [done|].
  rewrite zlen_cons, Z.pow_add_r by (auto with trex; lia). simpl. unfold byte_ok in Hb. lia.
Qed.

#[export] Hint Resolve le_bytes_ok : trex.

(** ** Big-endian integers ([encoding/binary.BigEndian]) *)

Definition be_bytes (n : nat) (v : Z) : bytes := reverse (le_bytes n v).
Definition be_val (l : bytes) : Z := le_val (reverse l).

Lemma zlen_be_bytes n v : zlen (be_bytes n v) = Z.of_nat n.
Proof. unfold be_bytes, zlen. rewrite length_reverse. apply zlen_le_bytes. Qed.

Lemma be_bytes_ok n v : bytes_ok (be_bytes n v).
Proof. apply Forall_reverse, le_bytes_ok. Qed.

Lemma be_val_bytes n v : 0 <= v < 256 ^ Z.of_nat n -> be_val (be_bytes n v) = v.
Proof. intros. unfold be_val, be_bytes. rewrite reverse_involutive. by apply le_roundtrip. Qed.

Lemma be_val_bound b : bytes_ok b -> 0 <= be_val b < 256 ^ zlen b.
Proof.
  intros Hb. unfold be_val. replace (zlen b) with (zlen (reverse b)) by (unfold zlen; by rewrite length_reverse).
  apply le_val_bound. by apply Forall_reverse.
Qed.

#[export] Hint Resolve be_bytes_ok : trex.
