(* ===== verification/Storage.v ===== *)
(** Package [storage]: the random-access [Reader] interface, the alignment
    helpers, and [Composite], a reader made of ranges of other readers
    (src/storage/storage.go, src/storage/composite.go). *)

From S2P Require Import Prelude GoLib.
From stdpp Require Import base numbers list gmap sorting strings.

Open Scope Z_scope.
Open Scope trex_scope.

(** ** The [Reader] interface

    [rd_ReadAt n off] is [ReadAt(p, off)] with [len(p) = n]: the bytes stored
    in [p[:count]] and the error.  A reader's content does not change during
    its lifetime, so reading is a function. *)
Record Reader := MkReader {
  rd_Size : Z;
  rd_ReadAt : Z -> Z -> bytes * option error;
}.

(** What a [Reader] promises its clients: [f] is its content.  This is the
    [io.ReaderAt] contract: a read inside the file is complete, and may or
    may not report [io.EOF] when it ends at the end of the file; a read past
    the end returns what there is with [io.EOF]. *)
Class ReaderOK (r : Reader) (f : Z -> byte) : Prop := {
  rd_size_ok : 0 <= rd_Size r <= MaxInt64;
  rd_full : forall n off, 0 <= off -> 0 <= n -> off + n <= rd_Size r ->
    exists e, rd_ReadAt r n off = (range f off n, e) /\
              (e = None \/ (e = Some EOF /\ off + n = rd_Size r));
  rd_short : forall n off, 0 <= off -> 0 < n -> rd_Size r < off + n ->
    rd_ReadAt r n off = (range f off (Z.max 0 (rd_Size r - off)), Some EOF);
}.

(** A file held in memory ([bytes.Reader]). *)
Definition bytes_reader (data : bytes) : Reader :=
  {| rd_Size := zlen data;
     rd_ReadAt := fun n off =>
       if off <? 0 then ([], Some (Errorf "negative offset"))
       else if n =? 0 then ([], None)
       else if zlen data <=? off then ([], Some EOF)
       else (slice off n data, if zlen data <? off + n then Some EOF else None) |}.

#[export] Instance bytes_reader_ok data :
  zlen data <= MaxInt64 -> ReaderOK (bytes_reader data) (nthb data).
Proof.
  intros Hmax. split; simpl.
  - split; [apply zlen_nonneg|done].
  - intros n off Ho Hn Hs. destruct (Z.ltb_spec off 0); [lia|].
    destruct (Z.eqb_spec n 0) as [->|]; [exists None; rewrite range_nil by lia; auto|].
    destruct (Z.leb_spec (zlen data) off); [lia|].
    destruct (Z.ltb_spec (zlen data) (off + n)); [lia|].
    exists None. rewrite slice_range by lia. auto.
  - intros n off Ho Hn Hs. destruct (Z.ltb_spec off 0); [lia|].
    destruct (Z.eqb_spec n 0); [lia|].
    destruct (Z.leb_spec (zlen data) off).
    { rewrite range_nil by lia. done. }
    destruct (Z.ltb_spec (zlen data) (off + n)); [|lia]. f_equal.
    rewrite Z.max_r, <- slice_range by lia.
    unfold slice, zlen in *. rewrite !take_ge; rewrite ?length_drop; lia || done.
Qed.

(** ** Alignment helpers *)

Definition Align (value alignment : Z) : Z :=
  if alignment <=? 0 then value
  else i64 (Z.quot (i64 (i64 (value + alignment) - 1)) alignment * alignment).

Definition CeilDiv (value divisor : Z) : Z :=
  Z.quot (i64 (i64 (value + divisor) - 1)) divisor.

Lemma CeilDiv_spec value divisor :
  0 <= value -> 0 < divisor -> value + divisor <= MaxInt64 ->
  let q := CeilDiv value divisor in
  0 <= q /\ q * divisor < value + divisor /\ value <= q * divisor.
Proof.
  intros Hv Hd Hmax. unfold CeilDiv. unfold MaxInt64 in *.
  rewrite (i64_id (value + divisor)), i64_id by (unfold MaxInt64; lia).
  rewrite Z.quot_div_nonneg by lia.
  pose proof (Z.div_mod (value + divisor - 1) divisor ltac:(lia)).
  pose proof (Z.mod_pos_bound (value + divisor - 1) divisor ltac:(lia)).
  set (q := (value + divisor - 1) / divisor) in *.
  assert (0 <= q) by (apply Z.div_pos; lia). simpl. lia.
Qed.

Lemma Align_CeilDiv value alignment :
  0 <= value -> 0 < alignment -> value + alignment <= MaxInt64 ->
  Align value alignment = CeilDiv value alignment * alignment.
Proof.
  intros Hv Hd Hmax. pose proof (CeilDiv_spec value alignment Hv Hd Hmax) as Hc.
  simpl in Hc. unfold Align. destruct (Z.leb_spec alignment 0); [lia|].
  unfold CeilDiv in *. apply i64_id. unfold MaxInt64 in *. lia.
Qed.

(** ** [Composite] *)


(** A range borrows bytes from a source; [None] is a nil source. *)
Record storage_Range := MkRange { r_Source : option Reader; r_Offset : Z; r_Length : Z }.

Record Composite := MkComposite { c_ranges : list storage_Range; c_ends : list Z; c_size : Z }.

Definition Composite_empty : Composite := {| c_ranges := []; c_ends := []; c_size := 0 |}.

(** The guard of [Compose] for one range. *)
Definition Compose_valid (c : Composite) (r : storage_Range) : bool :=
  match r_Source r with
  | None => false
  | Some s =>
      negb ((r_Offset r <? 0) || (r_Length r <? 0) || (rd_Size s <? 0)
            || (rd_Size s <? r_Offset r) || (rd_Size s - r_Offset r <? r_Length r)
            || (MaxInt64 - c_size c <? r_Length r))
  end.

Fixpoint Compose_loop (c : Composite) (rs : list storage_Range) : res Composite :=
  match rs with
  | [] => Ok c
  | r :: rs =>
      if negb (Compose_valid c r) then Err (Errorf "invalid composed file range")
      else if r_Length r =? 0 then Compose_loop c rs
      else
        let size' := c_size c + r_Length r in
        Compose_loop {| c_ranges := c_ranges c ++ [r]; c_ends := c_ends c ++ [size']; c_size := size' |} rs
  end.

Definition Compose (rs : list storage_Range) : res Composite := Compose_loop Composite_empty rs.

(** [r.Source.ReadAt]; a nil source is never stored in a composite. *)
Definition source_ReadAt (r : storage_Range) (n off : Z) : bytes * option error :=
  match r_Source r with Some s => rd_ReadAt s n off | None => ([], Some Panic) end.

(** The loop of [ReadAt]: [acc] is [p[:done]].  Every iteration advances
    [index], so the number of ranges bounds the iterations. *)
Fixpoint Composite_ReadAt_loop (fuel : nat) (c : Composite) (n : Z) (acc : bytes) (off index : Z)
    : bytes * option error :=
  if (zlen acc <? n) && (index <? zlen (c_ranges c)) then
    match fuel with
    | O => (acc, Some OutOfFuel)
    | S fuel =>
        match c_ranges c !! Z.to_nat index with
        | None => (acc, Some Panic)
        | Some r =>
            let start := if 0 <? index then nth (Z.to_nat (index - 1)) (c_ends c) 0 else 0 in
            let within := off - start in
            let count := Z.min (n - zlen acc) (r_Length r - within) in
            let '(got, e) := source_ReadAt r count (r_Offset r + within) in
            let acc' := acc ++ got in
            let off' := off + zlen got in
            match e with
            | Some err =>
                if is_EOF err && (zlen got =? count) then
                  Composite_ReadAt_loop fuel c n acc' off' (index + 1)
                else (acc', Some err)
            | None =>
                if negb (zlen got =? count) then (acc', Some ErrUnexpectedEOF)
                else Composite_ReadAt_loop fuel c n acc' off' (index + 1)
            end
        end
    end
  else if zlen acc <? n then (acc, Some EOF)
  else (acc, None).

Definition Composite_ReadAt (c : Composite) (n off : Z) : bytes * option error :=
  if off <? 0 then ([], Some (Errorf "negative read offset"))
  else if n =? 0 then ([], None)
  else if c_size c <=? off then ([], Some EOF)
  else
    let index := sort_Search (zlen (c_ends c)) (fun i => off <? nth (Z.to_nat i) (c_ends c) 0) in
    Composite_ReadAt_loop (length (c_ranges c)) c n [] off index.

(** A composite is itself a [Reader]. *)
Definition Composite_reader (c : Composite) : Reader := {| rd_Size := c_size c; rd_ReadAt := Composite_ReadAt c |}.

(** *** The composite is the concatenation of its ranges *)

Definition total_length (rs : list storage_Range) : Z := foldr (fun r acc => r_Length r + acc) 0 rs.

(** The bytes of the ranges [rs], whose sources have the contents [fs], in
    order. *)
Definition segments (rs : list storage_Range) (fs : list (Z -> byte)) : bytes :=
  concat (zip_with (fun r f => range f (r_Offset r) (r_Length r)) rs fs).

(** The source of a range is there and has the content [f]. *)
Definition sourced (r : storage_Range) (f : Z -> byte) : Prop :=
  exists s, r_Source r = Some s /\ ReaderOK s f.

(** The range is non-empty and inside its source. *)
Definition range_wf (r : storage_Range) (f : Z -> byte) : Prop :=
  exists s, r_Source r = Some s /\ ReaderOK s f /\
            0 <= r_Offset r /\ 0 < r_Length r /\ r_Offset r + r_Length r <= rd_Size s.

(** The invariant [Compose] establishes. *)
Record composite_wf (c : Composite) (fs : list (Z -> byte)) : Prop := {
  composite_wf_ranges : Forall2 range_wf (c_ranges c) fs;
  composite_wf_length : length (c_ends c) = length (c_ranges c);
  composite_wf_ends : forall i, (i < length (c_ranges c))%nat ->
    nth i (c_ends c) 0 = total_length (take (S i) (c_ranges c));
  composite_wf_size : c_size c = total_length (c_ranges c);
  composite_wf_max : c_size c <= MaxInt64;
}.

Lemma total_app rs rs' : total_length (rs ++ rs') = total_length rs + total_length rs'.
Proof. induction rs as [|r rs IH]; simpl; [done|]. rewrite IH. lia. Qed.

Lemma total_take_S rs i r :
  rs !! i = Some r -> total_length (take (S i) rs) = total_length (take i rs) + r_Length r.
Proof.
  intros Hr. rewrite (take_S_r _ _ r) by done. rewrite total_app. simpl. lia.
Qed.

Lemma range_wf_length rs fs : Forall2 range_wf rs fs -> Forall (fun r => 0 < r_Length r) rs.
Proof. induction 1 as [|r f rs fs (s & ?) ? IH]; constructor; [naive_solver|done]. Qed.

Lemma total_nonneg rs : Forall (fun r => 0 < r_Length r) rs -> 0 <= total_length rs.
Proof. induction 1; simpl; lia. Qed.

Lemma total_take_mono rs i j :
  Forall (fun r => 0 < r_Length r) rs -> (i <= j)%nat -> total_length (take i rs) <= total_length (take j rs).
Proof.
  intros Hrs Hij. replace j with (i + (j - i))%nat by lia.
  rewrite <- take_take_drop, total_app.
  pose proof (total_nonneg (take (j - i) (drop i rs)) ltac:(by apply Forall_take, Forall_drop)). lia.
Qed.

Lemma zlen_segments rs fs : Forall2 range_wf rs fs -> zlen (segments rs fs) = total_length rs.
Proof.
  unfold segments.
  induction 1 as [|r f rs fs (s & ?) ? IH]; simpl; [done|].
  rewrite zlen_app, IH, zlen_range by naive_solver lia. done.
Qed.

Lemma nthb_segments rs fs k r f w :
  Forall2 range_wf rs fs -> rs !! k = Some r -> fs !! k = Some f -> 0 <= w < r_Length r ->
  nthb (segments rs fs) (total_length (take k rs) + w) = f (r_Offset r + w).
Proof.
  intros Hwf. revert k. unfold segments.
  induction Hwf as [|r' f' rs fs (s & _ & _ & _ & Hlen & _) Hwf IH]; intros k Hr Hf Hw; [done|].
  simpl. rewrite nthb_app, zlen_range by lia.
  destruct k as [|k]; simpl in *; simplify_eq.
  - destruct (Z.ltb_spec (0 + w) (r_Length r)); [|lia]. by rewrite nthb_range by lia.
  - pose proof (total_nonneg (take k rs) ltac:(by eapply Forall_take, range_wf_length)).
    destruct (Z.ltb_spec (r_Length r' + total_length (take k rs) + w) (r_Length r')); [lia|].
    rewrite <- (IH k) by done. f_equal. lia.
Qed.

Lemma range_segments rs fs k r f w m :
  Forall2 range_wf rs fs -> rs !! k = Some r -> fs !! k = Some f ->
  0 <= w -> w + m <= r_Length r ->
  range f (r_Offset r + w) m = range (nthb (segments rs fs)) (total_length (take k rs) + w) m.
Proof.
  intros Hwf Hr Hf Hw Hm. apply range_shift. intros i Hi. rewrite <- !Z.add_assoc.
  by rewrite (nthb_segments rs fs k r f) by (done || lia).
Qed.

(** [start] as the loop computes it. *)
Lemma range_start c fs k :
  composite_wf c fs -> (k < length (c_ranges c))%nat ->
  (if 0 <? Z.of_nat k then nth (Z.to_nat (Z.of_nat k - 1)) (c_ends c) 0 else 0)
  = total_length (take k (c_ranges c)).
Proof.
  intros Hwf Hk. destruct k as [|k]; [done|].
  destruct (Z.ltb_spec 0 (Z.of_nat (S k))); [|lia].
  replace (Z.to_nat (Z.of_nat (S k) - 1)) with k by lia.
  rewrite (composite_wf_ends _ _ Hwf); [done|lia].
Qed.

(** Reading from the source of a well-formed range. *)
Lemma source_ReadAt_wf r f n w :
  range_wf r f -> 0 <= w -> 0 <= n -> w + n <= r_Length r ->
  exists e, source_ReadAt r n (r_Offset r + w) = (range f (r_Offset r + w) n, e) /\
            (e = None \/ e = Some EOF).
Proof.
  intros (s & Hs & Hok & Ho & Hl & Hb) Hw Hn Hwn. unfold source_ReadAt. rewrite Hs.
  destruct (rd_full n (r_Offset r + w)) as (e & -> & He); [lia..|]. exists e. naive_solver.
Qed.

(** The loop at the end of the ranges. *)
Lemma Composite_ReadAt_loop_end fuel c fs n acc f :
  composite_wf c fs -> zlen acc <= n ->
  let off := total_length (take (length (c_ranges c)) (c_ranges c)) + 0 in
  let count := Z.min (n - zlen acc) (c_size c - off) in
  Composite_ReadAt_loop fuel c n acc off (Z.of_nat (length (c_ranges c))) =
    (acc ++ range f off count, if zlen acc + count <? n then Some EOF else None).
Proof.
  intros Hwf Hn. cbn zeta. rewrite firstn_all, <- (composite_wf_size _ _ Hwf).
  rewrite range_nil, app_nil_r by lia.
  destruct fuel; simpl; fold (zlen (c_ranges c)); rewrite Z.ltb_irrefl, andb_false_r;
    repeat case_match; done || lia.
Qed.

Lemma Composite_ReadAt_loop_spec fuel c fs n acc k w :
  composite_wf c fs -> (length (c_ranges c) - k <= fuel)%nat -> (k <= length (c_ranges c))%nat ->
  (w = 0 \/ exists r, c_ranges c !! k = Some r /\ 0 <= w < r_Length r) ->
  zlen acc <= n ->
  let off := total_length (take k (c_ranges c)) + w in
  let count := Z.min (n - zlen acc) (c_size c - off) in
  Composite_ReadAt_loop fuel c n acc off (Z.of_nat k) =
    (acc ++ range (nthb (segments (c_ranges c) fs)) off count,
     if zlen acc + count <? n then Some EOF else None).
Proof.
  intros Hwf. pose proof (range_wf_length _ _ (composite_wf_ranges _ _ Hwf)) as Hpos.
  revert acc k w. induction fuel as [|fuel IH]; intros acc k w Hfuel Hk Hw Hn;
    (destruct (decide (k = length (c_ranges c))) as [->|Hne];
      [assert (w = 0) as -> by (destruct Hw as [|(r & Hr%lookup_lt_Some & _)]; lia);
       by eapply Composite_ReadAt_loop_end|]); [lia|].
  destruct (lookup_lt_is_Some_2 (c_ranges c) k) as [r Hr]; [lia|].
  destruct (Forall2_lookup_l _ _ _ _ _ (composite_wf_ranges _ _ Hwf) Hr) as (f & Hf & Hrf).
  assert (0 < r_Length r) by (destruct Hrf as (s & ?); naive_solver).
  assert (Hw' : 0 <= w < r_Length r) by (destruct Hw as [->|(r' & ? & ?)]; [lia|by simplify_eq]).
  pose proof (total_take_S _ _ _ Hr) as HS.
  pose proof (total_take_mono (c_ranges c) (S k) (length (c_ranges c)) Hpos ltac:(lia)) as Hle.
  rewrite firstn_all, <- (composite_wf_size _ _ Hwf) in Hle.
  cbn zeta. set (off := total_length (take k (c_ranges c)) + w).
  cbn [Composite_ReadAt_loop]. destruct (Z.ltb_spec (zlen acc) n) as [Hlt|]; cycle 1.
  { rewrite range_nil, app_nil_r by lia. repeat case_match; done || lia. }
  destruct (Z.ltb_spec (Z.of_nat k) (zlen (c_ranges c))); [|unfold zlen in *; lia].
  cbn [andb]. rewrite Nat2Z.id, Hr.
  rewrite (range_start _ _ _ Hwf) by lia.
  replace (off - total_length (take k (c_ranges c))) with w by lia.
  set (m := Z.min (n - zlen acc) (r_Length r - w)).
  destruct (source_ReadAt_wf r f m w) as (e & -> & He); [done|lia..|].
  rewrite zlen_range by lia.
  pose proof (range_segments _ fs k r f w m (composite_wf_ranges _ _ Hwf) Hr Hf ltac:(lia) ltac:(lia)) as Hseg.
  fold off in Hseg.
  assert (Hnext : Composite_ReadAt_loop fuel c n (acc ++ range f (r_Offset r + w) m) (off + m) (Z.of_nat k + 1)
    = (acc ++ range (nthb (segments (c_ranges c) fs)) off (Z.min (n - zlen acc) (c_size c - off)),
       if zlen acc + Z.min (n - zlen acc) (c_size c - off) <? n then Some EOF else None)).
  { rewrite Hseg. set (F := nthb _). set (acc' := acc ++ range F off m).
    assert (Hacc' : zlen acc' = zlen acc + m) by (unfold acc'; rewrite zlen_app, zlen_range; lia).
    destruct (decide (m = r_Length r - w)) as [Hm|Hm].
    - replace (off + m) with (total_length (take (S k) (c_ranges c)) + 0) by lia.
      replace (Z.of_nat k + 1) with (Z.of_nat (S k)) by lia.
      rewrite IH by (lia || by left). unfold acc' at 1. rewrite <- app_assoc.
      replace (total_length (take (S k) (c_ranges c)) + 0) with (off + m) by lia.
      rewrite <- range_add, Hacc' by lia. f_equal; [do 2 f_equal; lia|].
      repeat case_match; done || lia.
    - assert (zlen acc' = n) by lia.
      replace (Z.min (n - zlen acc) (c_size c - off)) with m by lia.
      destruct fuel; simpl; rewrite (proj2 (Z.ltb_ge (zlen acc') n)) by lia; simpl;
        fold acc'; f_equal; repeat case_match; done || lia. }
  destruct He as [-> | ->]; simpl; rewrite Z.eqb_refl; simpl; apply Hnext.
Qed.

(** The ranges lie inside their sources. *)
Definition ranges_in_bounds (rs : list storage_Range) : Prop :=
  Forall (fun r => exists s, r_Source r = Some s /\ 0 <= r_Offset r /\ 0 <= r_Length r /\
                             r_Offset r + r_Length r <= rd_Size s) rs.

Lemma composite_empty_wf : composite_wf Composite_empty [].
Proof. split; simpl; done || lia. Qed.

Lemma segments_snoc rs fs r f :
  length rs = length fs ->
  segments (rs ++ [r]) (fs ++ [f]) = segments rs fs ++ range f (r_Offset r) (r_Length r).
Proof.
  intros. unfold segments. rewrite zip_with_app, concat_app by done. simpl. by rewrite app_nil_r.
Qed.

(** Appending a non-empty range keeps the invariant. *)
Lemma composite_wf_snoc c fs r f :
  composite_wf c fs -> range_wf r f -> r_Length r <= MaxInt64 - c_size c ->
  composite_wf {| c_ranges := c_ranges c ++ [r]; c_ends := c_ends c ++ [c_size c + r_Length r];
        c_size := c_size c + r_Length r |} (fs ++ [f]).
Proof.
  intros Hwf Hr Hmax. destruct Hwf as [H1 H2 H3 H4 H5]. split; simpl.
  - apply Forall2_app; auto.
  - rewrite !length_app. simpl. lia.
  - intros i Hi. rewrite length_app in Hi. simpl in Hi.
    destruct (decide (i < length (c_ranges c))%nat).
    + rewrite app_nth1, take_app_le by lia. by apply H3.
    + assert (i = length (c_ranges c)) as -> by lia.
      rewrite app_nth2 by lia. rewrite H2, Nat.sub_diag. simpl.
      rewrite take_ge by (rewrite length_app; simpl; lia).
      rewrite total_app, <- H4. simpl. lia.
  - rewrite total_app, <- H4. simpl. lia.
  - lia.
Qed.

Lemma Compose_valid_spec c r :
  Compose_valid c r = true <->
  exists s, r_Source r = Some s /\ 0 <= r_Offset r /\ 0 <= r_Length r /\ 0 <= rd_Size s /\
            r_Offset r + r_Length r <= rd_Size s /\ c_size c + r_Length r <= MaxInt64.
Proof.
  unfold Compose_valid. destruct (r_Source r) as [s|]; [|naive_solver].
  split; [intros; exists s; split_and!; done || lia|intros (s' & [= <-] & ?); lia].
Qed.

Lemma Compose_loop_spec rs fs c fs0 :
  composite_wf c fs0 -> Forall2 sourced rs fs ->
  match Compose_loop c rs with
  | Ok c' => ranges_in_bounds rs /\ c_size c + total_length rs <= MaxInt64 /\
             exists fs', composite_wf c' fs' /\
               segments (c_ranges c') fs' = segments (c_ranges c) fs0 ++ segments rs fs
  | Err e => e = Errorf "invalid composed file range" /\
             ~ (ranges_in_bounds rs /\ c_size c + total_length rs <= MaxInt64)
  end.
Proof.
  intros Hwf Hrs. revert c fs0 Hwf.
  induction Hrs as [|r f rs fs (s & Hs & Hok) Hrs IH]; intros c fs0 Hwf; simpl.
  { split_and!; [constructor|destruct Hwf; lia|]. exists fs0. by rewrite app_nil_r. }
  assert (Hnn : ranges_in_bounds rs -> 0 <= total_length rs).
  { intros Hb. clear -Hb. induction Hb as [|?? (? & ?) ? ?]; simpl; [done|]. naive_solver lia. }
  destruct (Compose_valid c r) eqn:Hv; simpl.
  - apply Compose_valid_spec in Hv as (s' & Hs' & Hv).
    assert (s' = s) as -> by congruence.
    assert (Hcons : ranges_in_bounds (r :: rs) <-> ranges_in_bounds rs).
    { unfold ranges_in_bounds. rewrite Forall_cons. naive_solver. }
    destruct (Z.eqb_spec (r_Length r) 0) as [H0|H0].
    + specialize (IH c fs0 Hwf).
      replace (c_size c + (r_Length r + total_length rs)) with (c_size c + total_length rs) by lia.
      replace (segments (r :: rs) (f :: fs)) with (segments rs fs); cycle 1.
      { unfold segments. simpl. by rewrite H0, range_nil. }
      destruct (Compose_loop c rs); naive_solver.
    + assert (Hrf : range_wf r f) by (exists s; naive_solver lia).
      specialize (IH _ _ (composite_wf_snoc c fs0 r f Hwf Hrf ltac:(lia))). simpl in IH.
      replace (c_size c + (r_Length r + total_length rs)) with (c_size c + r_Length r + total_length rs) by lia.
      rewrite segments_snoc in IH by (eapply Forall2_length, composite_wf_ranges, Hwf).
      destruct (Compose_loop _ rs); [|naive_solver].
      destruct IH as (? & ? & fs' & ? & Hseg). split_and!; [naive_solver|lia|].
      exists fs'. split; [done|]. rewrite Hseg. unfold segments. simpl. by rewrite app_assoc.
  - split; [done|]. intros [Hb Hmax]. apply Forall_cons in Hb as [(s' & Hs' & ?) Hb].
    assert (s' = s) as -> by congruence. assert (Compose_valid c r = true); [|congruence]. apply Compose_valid_spec.
    specialize (Hnn Hb). exists s. destruct (rd_size_ok (r := s)). split_and!; done || lia.
Qed.

(** The search for the first range that ends past [off]. *)
Lemma search_index c fs off :
  composite_wf c fs -> 0 <= off < c_size c ->
  exists k r, sort_Search (zlen (c_ends c)) (fun i => off <? nth (Z.to_nat i) (c_ends c) 0) = Z.of_nat k /\
    c_ranges c !! k = Some r /\ 0 <= off - total_length (take k (c_ranges c)) < r_Length r.
Proof.
  intros Hwf Hoff. pose proof (range_wf_length _ _ (composite_wf_ranges _ _ Hwf)) as Hpos.
  assert (Hend : forall i, 0 <= i < zlen (c_ends c) ->
    nth (Z.to_nat i) (c_ends c) 0 = total_length (take (S (Z.to_nat i)) (c_ranges c))).
  { intros i Hi. apply (composite_wf_ends _ _ Hwf). rewrite <- (composite_wf_length _ _ Hwf). unfold zlen in Hi. lia. }
  destruct (sort_Search_spec (zlen (c_ends c)) (fun i => off <? nth (Z.to_nat i) (c_ends c) 0))
    as (H1 & H2 & H3); [apply zlen_nonneg|..].
  { intros a b Ha Hab Hb. rewrite !Hend by lia.
    pose proof (total_take_mono (c_ranges c) (S (Z.to_nat a)) (S (Z.to_nat b)) Hpos ltac:(lia)). lia. }
  set (k := sort_Search _ _) in *.
  assert (Hlen : zlen (c_ends c) = zlen (c_ranges c)) by (unfold zlen; by rewrite (composite_wf_length _ _ Hwf)).
  assert (Hk : k < zlen (c_ends c)).
  { destruct (decide (k = zlen (c_ends c))) as [Hk|]; [|lia]. exfalso.
    destruct (decide (zlen (c_ranges c) = 0)) as [Hz|Hz].
    { apply zlen_0_nil in Hz. rewrite (composite_wf_size _ _ Hwf), Hz in Hoff. simpl in Hoff. lia. }
    pose proof (zlen_nonneg (c_ranges c)). specialize (H2 (zlen (c_ends c) - 1) ltac:(lia)).
    rewrite Hend in H2 by lia. rewrite take_ge in H2 by (unfold zlen in *; lia).
    rewrite <- (composite_wf_size _ _ Hwf) in H2. lia. }
  destruct (lookup_lt_is_Some_2 (c_ranges c) (Z.to_nat k)) as [r Hr]; [unfold zlen in *; lia|].
  exists (Z.to_nat k), r. split_and!; [lia|done|..].
  - destruct (decide (k = 0)) as [->|]; [simpl; lia|].
    specialize (H2 (k - 1) ltac:(lia)). rewrite Hend in H2 by lia.
    replace (S (Z.to_nat (k - 1))) with (Z.to_nat k) in H2 by lia. lia.
  - specialize (H3 k ltac:(lia)). rewrite Hend, (total_take_S _ _ r) in H3 by (done || lia). lia.
Qed.

Lemma Composite_ReadAt_spec c fs n off :
  composite_wf c fs -> 0 <= off -> 0 < n ->
  let count := Z.max 0 (Z.min n (c_size c - off)) in
  Composite_ReadAt c n off = (range (nthb (segments (c_ranges c) fs)) off count,
                    if count <? n then Some EOF else None).
Proof.
  intros Hwf Hoff Hn. cbn zeta. unfold Composite_ReadAt.
  destruct (Z.ltb_spec off 0); [lia|]. destruct (Z.eqb_spec n 0); [lia|].
  destruct (Z.leb_spec (c_size c) off).
  { rewrite range_nil by lia. case_match; done || lia. }
  destruct (search_index c fs off) as (k & r & -> & Hr & Hw); [done|lia|].
  pose proof (Composite_ReadAt_loop_spec (length (c_ranges c)) c fs n [] k (off - total_length (take k (c_ranges c))) Hwf) as Hl.
  cbn zeta in Hl. replace (total_length (take k (c_ranges c)) + (off - total_length (take k (c_ranges c)))) with off in Hl by lia.
  rewrite Hl; [|lia|apply lookup_lt_Some in Hr; lia|right; eauto|rewrite zlen_nil; lia].
  rewrite zlen_nil, Z.sub_0_r, Z.max_r by lia. done.
Qed.

Lemma Composite_reader_ok c fs : composite_wf c fs -> ReaderOK (Composite_reader c) (nthb (segments (c_ranges c) fs)).
Proof.
  intros Hwf. pose proof (range_wf_length _ _ (composite_wf_ranges _ _ Hwf)) as Hpos.
  split; simpl.
  - pose proof (total_nonneg _ Hpos). destruct Hwf. lia.
  - intros n off Ho Hn Hs. destruct (decide (n = 0)) as [->|].
    { exists None. unfold Composite_ReadAt. rewrite range_nil by lia. repeat case_match; auto; lia. }
    rewrite (Composite_ReadAt_spec c fs) by (done || lia). exists None.
    rewrite Z.min_l, Z.max_r, Z.ltb_irrefl by lia. auto.
  - intros n off Ho Hn Hs. rewrite (Composite_ReadAt_spec c fs) by (done || lia).
    f_equal; [f_equal; lia|]. case_match; done || lia.
Qed.



