(* ===== verification/Block.v ===== *)
(** Package [block]: block-device geometry, capabilities and extents, the
    [Device] interface, [ReadFullAt], and [FileDevice], a device over a
    random-access file (src/block/device.go). *)

From S2P Require Import Prelude GoLib Storage.
From stdpp Require Import base numbers list gmap sorting strings.

Open Scope Z_scope.
Open Scope trex_scope.

Definition DefaultBlockSize : Z := 512.
Definition DefaultTransferSize : Z := 65536.
Definition DefaultMaxTransferSize : Z := 8388608.

Record Geometry := MkGeometry {
  g_Size : Z;
  g_LogicalBlockSize : Z;
  g_PhysicalBlockSize : Z;
  g_MinimumTransfer : Z;
  g_PreferredTransfer : Z;
  g_MaximumTransfer : Z;
}.

Record Capabilities := MkCapabilities {
  cap_Writable : bool;
  cap_Flush : bool;
  cap_Zero : bool;
  cap_Trim : bool;
  cap_Extents : bool;
  cap_Concurrent : bool;
  cap_Durable : bool;
  cap_Prefetch : bool;
}.

Record Extent := MkExtent { x_Offset : Z; x_Length : Z; x_Allocated : bool }.

(** A device whose content does not change, as the base of an overlay or of
    a cache must be.  [dev_Extents] is there when the device implements
    [Extenter]. *)
Record Device := MkDevice {
  dev_Geometry : Geometry;
  dev_Capabilities : Capabilities;
  dev_ReadAt : Z -> Z -> bytes * option error;
  dev_Extents : option (Z -> Z -> res (list Extent));
}.

Definition dev_Size (d : Device) : Z := g_Size (dev_Geometry d).

(** What a [Device] promises: reads inside the device are complete, reads
    outside it are refused. *)
Class DeviceOK (d : Device) (f : Z -> byte) : Prop := {
  dev_size_ok : 0 <= dev_Size d <= MaxInt64;
  dev_read : forall n off, 0 <= off -> 0 <= n -> off + n <= dev_Size d ->
    dev_ReadAt d n off = (range f off n, None);
  dev_refuse : forall n off, 0 <= n -> off < 0 \/ dev_Size d < off + n ->
    dev_ReadAt d n off = ([], Some ErrOutOfRange);
}.

(** ** [ValidateRange] *)

Definition ValidateRange (size off length : Z) : option error :=
  if (size <? 0) || (off <? 0) || (length <? 0) || (size <? off) || (size - off <? length)
  then Some ErrOutOfRange else None.

Lemma ValidateRange_None size off length :
  ValidateRange size off length = None <->
  0 <= off /\ 0 <= length /\ off + length <= size.
Proof. unfold ValidateRange. case_match; split; intros; try done; try split_and!; lia. Qed.

Lemma ValidateRange_Some size off length e :
  ValidateRange size off length = Some e -> e = ErrOutOfRange.
Proof. unfold ValidateRange. case_match; naive_solver. Qed.

Lemma ValidateRange_dec size off n :
  0 <= n ->
  ValidateRange size off n = if (0 <=? off) && (off + n <=? size) then None else Some ErrOutOfRange.
Proof.
  intros Hn. destruct (ValidateRange size off n) eqn:E.
  - pose proof (ValidateRange_Some _ _ _ _ E) as ->. case_match; [|done].
    assert (ValidateRange size off n = None) by (apply ValidateRange_None; lia). congruence.
  - apply ValidateRange_None in E. case_match; [done|lia].
Qed.

(** ** [ReadFullAt] *)

(** The loop: [acc] is [p[:done]].  An iteration that does not return reads
    at least one byte, so [n] iterations are enough. *)
Fixpoint ReadFullAt_loop (fuel : nat) (ra : Z -> Z -> bytes * option error) (n off : Z)
    (acc : bytes) : bytes * option error :=
  if zlen acc <? n then
    match fuel with
    | O => (acc, Some OutOfFuel)
    | S fuel =>
        let '(got, e) := ra (n - zlen acc) (off + zlen acc) in
        let acc' := acc ++ got in
        match e with
        | Some err =>
            if is_EOF err && (zlen acc' =? n) then (acc', None) else (acc', Some err)
        | None =>
            if zlen got =? 0 then (acc', Some ErrUnexpectedEOF)
            else ReadFullAt_loop fuel ra n off acc'
        end
    end
  else (acc, None).

Definition ReadFullAt (ra : Z -> Z -> bytes * option error) (n off : Z) : bytes * option error :=
  ReadFullAt_loop (Z.to_nat n) ra n off [].

(** Whatever the reader does, the loop comes to an end, and it reports
    success only with a full buffer. *)
Lemma ReadFullAt_loop_total fuel ra n off acc :
  (forall m o, zlen (fst (ra m o)) <= Z.max 0 m) ->
  (forall m o, snd (ra m o) <> Some OutOfFuel) ->
  n - zlen acc <= Z.of_nat fuel -> zlen acc <= n ->
  let '(out, e) := ReadFullAt_loop fuel ra n off acc in
  zlen acc <= zlen out <= n /\ e <> Some OutOfFuel /\ (e = None -> zlen out = n).
Proof.
  intros Hcap Hfuel. revert acc. induction fuel as [|fuel IH]; intros acc Hf Hn; simpl.
  { destruct (Z.ltb_spec (zlen acc) n); [lia|]. split_and!; done || lia. }
  destruct (Z.ltb_spec (zlen acc) n); [|split_and!; done || lia].
  specialize (Hcap (n - zlen acc) (off + zlen acc)).
  specialize (Hfuel (n - zlen acc) (off + zlen acc)).
  destruct (ra _ _) as [got e]. simpl in *. pose proof (zlen_nonneg got).
  destruct e as [err|].
  - destruct (is_EOF err && (zlen (acc ++ got) =? n)) eqn:E; rewrite zlen_app in *;
      split_and!; done || lia.
  - destruct (Z.eqb_spec (zlen got) 0); [rewrite zlen_app; split_and!; done || lia|].
    specialize (IH (acc ++ got)). rewrite zlen_app in IH.
    destruct (ReadFullAt_loop _ _ _ _ _). naive_solver lia.
Qed.

(** One complete read is all [ReadFullAt] needs. *)
Lemma ReadFullAt_one ra n off out e :
  0 < n -> ra n off = (out, e) -> zlen out = n -> e = None \/ e = Some EOF ->
  ReadFullAt ra n off = (out, None).
Proof.
  intros Hn Hra Hout He. unfold ReadFullAt.
  destruct (Z.to_nat n) as [|fuel] eqn:En; [lia|]. simpl. rewrite zlen_nil.
  destruct (Z.ltb_spec 0 n); [|lia]. rewrite Z.sub_0_r, Z.add_0_r, Hra. simpl. rewrite Hout.
  destruct He as [-> | ->]; simpl; [|by rewrite Z.eqb_refl].
  destruct (Z.eqb_spec n 0); [lia|].
  destruct fuel; simpl; rewrite Hout, Z.ltb_irrefl by lia; done.
Qed.

Lemma ReadFullAt_0 ra off : ReadFullAt ra 0 off = ([], None).
Proof. done. Qed.

(** On a reader or device that keeps its contract, [ReadFullAt] returns the
    bytes. *)
Lemma ReadFullAt_reader r f n off :
  ReaderOK r f -> 0 <= off -> 0 <= n -> off + n <= rd_Size r ->
  ReadFullAt (rd_ReadAt r) n off = (range f off n, None).
Proof.
  intros Hok Ho Hn Hs. destruct (decide (n = 0)) as [->|]; [by rewrite range_nil|].
  destruct (rd_full n off) as (e & Hr & He); [lia..|].
  eapply ReadFullAt_one; [lia|done|by rewrite zlen_range|naive_solver].
Qed.

Lemma ReadFullAt_device d f n off :
  DeviceOK d f -> 0 <= off -> 0 <= n -> off + n <= dev_Size d ->
  ReadFullAt (dev_ReadAt d) n off = (range f off n, None).
Proof.
  intros Hok Ho Hn Hs. destruct (decide (n = 0)) as [->|]; [by rewrite range_nil|].
  eapply ReadFullAt_one; [lia|by apply dev_read|by rewrite zlen_range|by left].
Qed.

(** ** Files

    The operations of a file behind a device or an overlay, over the file's
    state [S].  [WriteAt], [Sync] and [Extents] are optional interfaces.
    [f_WriteAt s d off] is the new state, the count and the error. *)
Record FileOps (S : Type) := MkFileOps {
  f_Size : S -> Z;
  f_ReadAt : S -> Z -> Z -> bytes * option error;
  f_WriteAt : option (S -> bytes -> Z -> S * Z * option error);
  f_Sync : option (S -> S * option error);
  f_Extents : option (S -> Z -> Z -> res (list Extent));
}.
Arguments f_Size {S}.
Arguments f_ReadAt {S}.
Arguments f_WriteAt {S}.
Arguments f_Sync {S}.
Arguments f_Extents {S}.

(** The [Reader] a file is in state [s]. *)
Definition file_reader {S} (ops : FileOps S) (s : S) : Reader :=
  {| rd_Size := f_Size ops s; rd_ReadAt := f_ReadAt ops s |}.

(** A file of fixed size that does what it is told: in every state that
    satisfies [I], reading returns the content [C s] and writing inside the
    file changes exactly the written bytes. *)
Class FileOK {S} (ops : FileOps S) (size : Z) (I : S -> Prop) (C : S -> Z -> byte) : Prop := {
  file_size : forall s, I s -> f_Size ops s = size;
  file_read : forall s, I s -> ReaderOK (file_reader ops s) (C s);
  file_write : forall w s d off, f_WriteAt ops = Some w -> I s ->
    0 <= off -> off + zlen d <= size ->
    exists s', w s d off = (s', zlen d, None) /\ I s' /\
               forall i, 0 <= i < size -> C s' i = upd (C s) off d i;
  file_sync : forall y s, f_Sync ops = Some y -> I s ->
    exists s', y s = (s', None) /\ I s' /\ forall i, 0 <= i < size -> C s' i = C s i;
}.

(** ** [FileDevice] *)

Record FileDeviceOptions := MkFileDeviceOptions {
  o_LogicalBlockSize : Z;
  o_PhysicalBlockSize : Z;
  o_Writable : bool;
}.

Record FileDevice := MkFileDevice {
  fd_geometry : Geometry;
  fd_writable : bool;
  fd_flushable : bool;
}.

Definition validateBlockSize (size : Z) : option error :=
  if (size =? 0) || negb (Z.land size (u32 (size - 1)) =? 0)
  then Some (Errorf "block: block size must be a non-zero power of two") else None.

Section FileDevice.
Context {S : Type} (ops : FileOps S).

(** [file] is [None] for a nil file. *)
Definition NewFileDevice (file : option S) (options : FileDeviceOptions) : res FileDevice :=
  match file with
  | None => Err (Errorf "block: nil file")
  | Some s =>
      let logical := if o_LogicalBlockSize options =? 0 then DefaultBlockSize
                     else o_LogicalBlockSize options in
      let physical := if o_PhysicalBlockSize options =? 0 then logical
                      else o_PhysicalBlockSize options in
      match validateBlockSize logical with Some e => Err e | None =>
      match validateBlockSize physical with Some e => Err e | None =>
        guard! (Errorf "block: physical block size must be a multiple of logical block size")
          when (physical <? logical) || negb (physical mod logical =? 0) in
        guard! (Errorf "block: file has negative size") when f_Size ops s <? 0 in
        guard! (Errorf "block: writable file does not implement io.WriterAt")
          when o_Writable options && negb (bool_decide (is_Some (f_WriteAt ops))) in
        Ok {| fd_writable := o_Writable options;
              fd_flushable := bool_decide (is_Some (f_Sync ops));
              fd_geometry :=
                {| g_Size := f_Size ops s; g_LogicalBlockSize := logical;
                   g_PhysicalBlockSize := physical; g_MinimumTransfer := DefaultBlockSize;
                   g_PreferredTransfer := DefaultTransferSize;
                   g_MaximumTransfer := DefaultMaxTransferSize |} |}
      end end
  end.

Definition FileDevice_ReadAt (d : FileDevice) (s : S) (n off : Z) : bytes * option error :=
  match ValidateRange (g_Size (fd_geometry d)) off n with
  | Some e => ([], Some e)
  | None => ReadFullAt (f_ReadAt ops s) n off
  end.

(** The device type-asserts [io.WriterAt] without checking it: writing to a
    file without it would panic. *)
Definition FileDevice_WriteAt (d : FileDevice) (s : S) (p : bytes) (off : Z)
    : S * Z * option error :=
  if negb (fd_writable d) then (s, 0, Some ErrReadOnly)
  else match ValidateRange (g_Size (fd_geometry d)) off (zlen p) with
  | Some e => (s, 0, Some e)
  | None =>
      match f_WriteAt ops with
      | None => (s, 0, Some Panic)
      | Some w =>
          let '(s', n, e) := w s p off in
          match e with
          | None => (s', n, if n =? zlen p then None else Some ErrShortWrite)
          | Some e => (s', n, Some e)
          end
      end
  end.

Definition FileDevice_Flush (d : FileDevice) (s : S) : S * option error :=
  if negb (fd_writable d) then (s, Some ErrReadOnly)
  else match f_Sync ops with
  | None => (s, Some ErrUnsupported)
  | Some sync => sync s
  end.

Definition zero_buffer : Z := 131072.

(** The loop of [ZeroAt]; every iteration writes at least one byte. *)
Fixpoint FileDevice_ZeroAt_loop (fuel : nat) (d : FileDevice) (s : S) (off length : Z)
    : S * option error :=
  if 0 <? length then
    match fuel with
    | O => (s, Some OutOfFuel)
    | Datatypes.S fuel =>
        let chunk := Z.min zero_buffer length in
        let '(s', n, e) := FileDevice_WriteAt d s (zeros chunk) off in
        match e with
        | Some e => (s', Some e)
        | None =>
            if negb (n =? chunk) then (s', Some ErrShortWrite)
            else FileDevice_ZeroAt_loop fuel d s' (off + chunk) (length - chunk)
        end
    end
  else (s, None).

Definition FileDevice_ZeroAt (d : FileDevice) (s : S) (off length : Z) : S * option error :=
  if negb (fd_writable d) then (s, Some ErrReadOnly)
  else match ValidateRange (g_Size (fd_geometry d)) off length with
  | Some e => (s, Some e)
  | None => FileDevice_ZeroAt_loop (Z.to_nat length) d s off length
  end.

Definition FileDevice_Extents (d : FileDevice) (s : S) (off length : Z) : res (list Extent) :=
  match ValidateRange (g_Size (fd_geometry d)) off length with
  | Some e => Err e
  | None =>
      match f_Extents ops with
      | Some provider => provider s off length
      | None => Ok [{| x_Offset := off; x_Length := length; x_Allocated := true |}]
      end
  end.

Definition FileDevice_Capabilities (d : FileDevice) : Capabilities :=
  {| cap_Writable := fd_writable d;
     cap_Flush := fd_writable d && fd_flushable d;
     cap_Zero := fd_writable d;
     cap_Trim := false;
     cap_Extents := bool_decide (is_Some (f_Extents ops));
     cap_Concurrent := true;
     cap_Durable := fd_writable d && fd_flushable d;
     cap_Prefetch := false |}.

(** The read-only device over the file in state [s]. *)
Definition FileDevice_device (d : FileDevice) (s : S) : Device :=
  {| dev_Geometry := fd_geometry d;
     dev_Capabilities := FileDevice_Capabilities d;
     dev_ReadAt := FileDevice_ReadAt d s;
     dev_Extents := Some (FileDevice_Extents d s) |}.
End FileDevice.

(** ** Block sizes *)

Lemma land_pred_pow2 k : 0 <= k -> Z.land (2 ^ k) (2 ^ k - 1) = 0.
Proof.
  intros Hk. replace (2 ^ k - 1) with (Z.ones k) by (rewrite Z.ones_equiv; lia).
  rewrite Z.land_ones by done. by rewrite Z_mod_same_full.
Qed.

Lemma land_pred_zero z : 0 < z -> Z.land z (z - 1) = 0 -> z = 2 ^ Z.log2 z.
Proof.
  intros Hz Hl. destruct (Z.log2_spec z Hz) as [Hlo Hhi]. pose proof (Z.log2_nonneg z).
  destruct (decide (z = 2 ^ Z.log2 z)) as [|Hne]; [done|exfalso].
  assert (Hlog : Z.log2 (z - 1) = Z.log2 z) by (apply Z.log2_unique; lia).
  assert (0 < 2 ^ Z.log2 z) by (apply Z.pow_pos_nonneg; lia).
  assert (Hb : Z.testbit (Z.land z (z - 1)) (Z.log2 z) = true).
  { rewrite Z.land_spec, Z.bit_log2 by done. rewrite <- Hlog at 1. by apply Z.bit_log2; lia. }
  rewrite Hl, Z.bits_0 in Hb. done.
Qed.

Lemma validateBlockSize_spec size :
  0 <= size < 2 ^ 32 ->
  validateBlockSize size = None <-> exists k, 0 <= k /\ size = 2 ^ k.
Proof.
  intros Hs. unfold validateBlockSize. destruct (Z.eqb_spec size 0) as [->|Hne]; simpl.
  { split; [done|]. intros (k & Hk & E). pose proof (Z.pow_pos_nonneg 2 k). lia. }
  rewrite u32_id by lia. split.
  - intros H. exists (Z.log2 size). split; [apply Z.log2_nonneg|].
    apply land_pred_zero; [lia|]. destruct (Z.eqb_spec (Z.land size (size - 1)) 0); done.
  - intros (k & Hk & ->). by rewrite land_pred_pow2.
Qed.

Lemma validateBlockSize_pow2 size :
  0 <= size < 2 ^ 32 -> validateBlockSize size = None -> exists k, 0 <= k /\ size = 2 ^ k.
Proof. intros H1 H2. by apply validateBlockSize_spec. Qed.

(** A valid device: power-of-two block sizes, the physical one a multiple of
    the logical one, and the file's size. *)
Definition geometry_ok (g : Geometry) : Prop :=
  0 <= g_Size g /\ (exists k, 0 <= k /\ g_LogicalBlockSize g = 2 ^ k) /\
  (exists k, 0 <= k /\ g_PhysicalBlockSize g = 2 ^ k) /\
  g_PhysicalBlockSize g mod g_LogicalBlockSize g = 0.

Section FileDevice_correct.
Context {S : Type} (ops : FileOps S) (size : Z) (I : S -> Prop) (C : S -> Z -> byte).
Context {Hfile : FileOK ops size I C}.

Lemma NewFileDevice_inv s options d :
  0 <= o_LogicalBlockSize options < 2 ^ 32 -> 0 <= o_PhysicalBlockSize options < 2 ^ 32 ->
  NewFileDevice ops (Some s) options = Ok d ->
  geometry_ok (fd_geometry d) /\ g_Size (fd_geometry d) = f_Size ops s /\
  fd_writable d = o_Writable options /\
  (fd_writable d = true -> is_Some (f_WriteAt ops)).
Proof.
  intros Hl Hp. unfold NewFileDevice.
  set (logical := if o_LogicalBlockSize options =? 0 then _ else _).
  set (physical := if o_PhysicalBlockSize options =? 0 then _ else _).
  assert (0 <= logical < 2 ^ 32) by (unfold logical, DefaultBlockSize; case_match; lia).
  assert (0 <= physical < 2 ^ 32) by (unfold physical; case_match; lia).
  destruct (validateBlockSize logical) eqn:E1; [done|].
  destruct (validateBlockSize physical) eqn:E2; [done|].
  destruct (_ || _) eqn:E3; [done|]. destruct (f_Size ops s <? 0) eqn:E4; [done|].
  destruct (o_Writable options && _) eqn:E5; [done|]. intros [= <-]. simpl.
  unfold geometry_ok. simpl.
  split_and!; eauto using validateBlockSize_pow2; try lia.
  intros Hw. rewrite Hw in E5. simpl in E5. apply negb_false_iff in E5. by case_bool_decide.
Qed.

Variables (d : FileDevice) (s : S).
Hypothesis Hd : g_Size (fd_geometry d) = size.
Hypothesis Hs : I s.

Lemma FileDevice_read n off :
  0 <= off -> 0 <= n -> off + n <= size ->
  FileDevice_ReadAt ops d s n off = (range (C s) off n, None).
Proof.
  intros Ho Hn Hb. unfold FileDevice_ReadAt. rewrite Hd.
  rewrite (proj2 (ValidateRange_None size off n)) by lia.
  apply (ReadFullAt_reader (file_reader ops s)); [by apply file_read|lia|lia|].
  simpl. by rewrite (file_size s Hs).
Qed.

Lemma FileDevice_refuse n off :
  0 <= n -> off < 0 \/ size < off + n -> FileDevice_ReadAt ops d s n off = ([], Some ErrOutOfRange).
Proof.
  intros Hn Hb. unfold FileDevice_ReadAt. rewrite Hd.
  destruct (ValidateRange size off n) eqn:E.
  - by apply ValidateRange_Some in E as ->.
  - apply ValidateRange_None in E. lia.
Qed.

#[export] Instance FileDevice_device_ok : DeviceOK (FileDevice_device ops d s) (C s).
Proof.
  split; unfold dev_Size; simpl; rewrite Hd.
  - pose proof (file_read s Hs) as Hr. destruct (rd_size_ok (r := file_reader ops s)).
    simpl in *. rewrite (file_size s Hs) in *. lia.
  - intros. by apply FileDevice_read.
  - intros. by apply FileDevice_refuse.
Qed.

Lemma FileDevice_write p off :
  fd_writable d = true -> is_Some (f_WriteAt ops) -> 0 <= off -> off + zlen p <= size ->
  exists s', FileDevice_WriteAt ops d s p off = (s', zlen p, None) /\ I s' /\
             forall i, 0 <= i < size -> C s' i = upd (C s) off p i.
Proof.
  intros Hw [w Ew] Ho Hb. unfold FileDevice_WriteAt. rewrite Hw, Hd, Ew. simpl.
  rewrite (proj2 (ValidateRange_None size off (zlen p))) by (pose proof (zlen_nonneg p); lia).
  destruct (file_write w s p off) as (s' & -> & HI & HC); [done..|].
  exists s'. by rewrite Z.eqb_refl.
Qed.
End FileDevice_correct.

(** Zeroing a range piece by piece. *)
Lemma upd_zero_split f off a b i :
  0 <= a -> 0 <= b -> upd_zero (upd_zero f off a) (off + a) b i = upd_zero f off (a + b) i.
Proof.
  intros. unfold upd_zero.
  destruct (Z.leb_spec off i), (Z.leb_spec (off + a) i), (Z.ltb_spec i (off + a)),
    (Z.ltb_spec i (off + a + b)), (Z.ltb_spec i (off + (a + b))); simpl; lia || done.
Qed.

Lemma upd_zero_ext f g off n i : f i = g i -> upd_zero f off n i = upd_zero g off n i.
Proof. intros. unfold upd_zero. by destruct (_ && _). Qed.

Section FileDevice_zero.
Context {S : Type} (ops : FileOps S) (size : Z) (I : S -> Prop) (C : S -> Z -> byte).
Context {Hfile : FileOK ops size I C}.
Variable d : FileDevice.
Hypothesis Hd : g_Size (fd_geometry d) = size.
Hypothesis Hwritable : fd_writable d = true.
Hypothesis Hops : is_Some (f_WriteAt ops).

Lemma FileDevice_zero_loop fuel s off length :
  I s -> 0 <= off -> 0 <= length <= Z.of_nat fuel -> off + length <= size ->
  exists s', FileDevice_ZeroAt_loop ops fuel d s off length = (s', None) /\ I s' /\
             forall i, 0 <= i < size -> C s' i = upd_zero (C s) off length i.
Proof.
  revert s off length. induction fuel as [|fuel IH]; intros s off length Hs Ho Hl Hb; simpl.
  { replace length with 0 by lia. exists s. split_and!; [done..|]. intros i Hi.
    unfold upd_zero. destruct (_ && _) eqn:E; [lia|done]. }
  destruct (Z.ltb_spec 0 length); cycle 1.
  { exists s. split_and!; [done..|]. intros i Hi.
    unfold upd_zero. destruct (_ && _) eqn:E; [lia|done]. }
  set (chunk := Z.min zero_buffer length).
  assert (0 < chunk <= length) by (unfold chunk, zero_buffer; lia).
  destruct (FileDevice_write ops size I C d s Hd Hs (zeros chunk) off) as (s1 & -> & HI1 & HC1);
    [done|done|done|rewrite zlen_zeros; lia|].
  rewrite zlen_zeros by lia. rewrite Z.eqb_refl. simpl.
  destruct (IH s1 (off + chunk) (length - chunk)) as (s2 & E2 & HI2 & HC2); [done|lia..|].
  exists s2. split_and!; [done..|]. intros i Hi. rewrite HC2 by done.
  rewrite (upd_zero_ext _ (upd_zero (C s) off chunk)) by (rewrite HC1, upd_zeros; done || lia).
  rewrite upd_zero_split by lia. f_equal. lia.
Qed.
End FileDevice_zero.

(** ** A file in memory, the reference implementation of [FileOK] *)
Definition mem_file : FileOps bytes :=
  {| f_Size := zlen;
     f_ReadAt := fun s => rd_ReadAt (bytes_reader s);
     f_WriteAt := Some (fun s d off => (splice s off d, zlen d, None));
     f_Sync := Some (fun s => (s, None));
     f_Extents := None |}.

#[export] Instance mem_file_ok size :
  size <= MaxInt64 -> FileOK mem_file size (fun s => zlen s = size) nthb.
Proof.
  intros Hmax. split.
  - done.
  - intros s Hs. apply bytes_reader_ok. by rewrite Hs.
  - intros w s d off [= <-] Hs Ho Hb. exists (splice s off d). split_and!; [done|..].
    + rewrite zlen_splice; lia.
    + intros i Hi. apply nthb_splice; lia.
  - intros y s [= <-] Hs. eauto.
Qed.

(** C2.  [FileDevice] is its file seen through bounds and permission checks.
    A device [NewFileDevice] accepts has power-of-two block sizes, the
    physical one a multiple of the logical one; reads return the file's bytes
    and are refused outside it; a write inside a writable device changes
    exactly the written bytes and reports their number; [ZeroAt], which
    writes in pieces of 128 KiB, zeroes exactly the requested range; writes
    and zeroing that are refused leave the file alone. *)
Theorem FileDevice_refines {S} (ops : FileOps S) size I C (s : S) options d :
  FileOK ops size I C -> I s ->
  0 <= o_LogicalBlockSize options < 2 ^ 32 -> 0 <= o_PhysicalBlockSize options < 2 ^ 32 ->
  NewFileDevice ops (Some s) options = Ok d ->
  geometry_ok (fd_geometry d) /\
  DeviceOK (FileDevice_device ops d s) (C s) /\
  (forall p off, let '(s', n, e) := FileDevice_WriteAt ops d s p off in
     if negb (o_Writable options) then s' = s /\ n = 0 /\ e = Some ErrReadOnly
     else if (0 <=? off) && (off + zlen p <=? size) then
       e = None /\ n = zlen p /\ I s' /\ forall i, 0 <= i < size -> C s' i = upd (C s) off p i
     else s' = s /\ n = 0 /\ e = Some ErrOutOfRange) /\
  (forall off len, let '(s', e) := FileDevice_ZeroAt ops d s off len in
     if negb (o_Writable options) then s' = s /\ e = Some ErrReadOnly
     else if (0 <=? off) && (0 <=? len) && (off + len <=? size) then
       e = None /\ I s' /\ forall i, 0 <= i < size -> C s' i = upd_zero (C s) off len i
     else s' = s /\ e = Some ErrOutOfRange).
Proof.
  intros Hfile Hs Hl Hp Hnew.
  destruct (NewFileDevice_inv ops s options d Hl Hp Hnew) as (Hg & Hsize & Hw & Hops).
  rewrite (file_size s Hs) in Hsize. split_and!; [done|by eapply FileDevice_device_ok|..].
  - intros p off. pose proof (zlen_nonneg p). destruct (o_Writable options) eqn:Ew; simpl; cycle 1.
    { unfold FileDevice_WriteAt. by rewrite Hw. }
    destruct ((0 <=? off) && _) eqn:E.
    + edestruct (FileDevice_write ops size I C d s Hsize Hs p off) as (s' & -> & ? & ?); eauto; lia.
    + unfold FileDevice_WriteAt. rewrite Hw, Hsize. simpl.
      destruct (ValidateRange size off (zlen p)) eqn:Ev.
      * by apply ValidateRange_Some in Ev as ->.
      * apply ValidateRange_None in Ev. lia.
  - intros off len. unfold FileDevice_ZeroAt. rewrite Hw, Hsize.
    destruct (o_Writable options) eqn:Ew; simpl; [|done].
    destruct (ValidateRange size off len) eqn:Ev.
    + destruct (_ && _) eqn:E; [|by apply ValidateRange_Some in Ev as ->].
      assert (ValidateRange size off len = None) by (apply ValidateRange_None; lia). congruence.
    + apply ValidateRange_None in Ev. destruct (_ && _) eqn:E; [|lia].
      edestruct (FileDevice_zero_loop ops size I C d Hsize) as (s' & -> & ? & ?);
        [by rewrite Hw|by apply Hops, Hw|done| | | |by eauto]; lia.
Qed.

Lemma FileDevice_refines_witness :
  let options := MkFileDeviceOptions 2 4 true in
  exists d, NewFileDevice mem_file (Some [1; 2; 3; 4]) options = Ok d /\
    geometry_ok (fd_geometry d) /\
    FileDevice_WriteAt mem_file d [1; 2; 3; 4] [7; 8] 1 = ([1; 7; 8; 4], 2, None) /\
    FileDevice_ZeroAt mem_file d [1; 2; 3; 4] 2 2 = ([1; 2; 0; 0], None).
Proof.
  intros options. eexists. split; [reflexivity|].
  pose proof (FileDevice_refines mem_file 4 (fun s => zlen s = 4) nthb [1; 2; 3; 4] options _
    (mem_file_ok 4 ltac:(vm_compute; discriminate)) eq_refl
    ltac:(simpl; lia) ltac:(simpl; lia) eq_refl) as [Hg _].
  split; [exact Hg|]. split; reflexivity.
Defined.
