(* ===== verification/Sparse.v ===== *)
(** Package [block]: [SparseOverlay], a disposable copy-on-write device that
    keeps changed 4 KiB chunks in a backing file at their original offsets
    (src/block/sparse.go).

    The methods hold the overlay's mutex from beginning to end, so an
    execution is a sequence of whole calls. *)

From S2P Require Import Prelude GoLib Storage Block.
From stdpp Require Import base numbers list gmap sorting strings.

Open Scope Z_scope.
Open Scope trex_scope.

Definition SparseChunkSize : Z := 4096.

(** The caller-owned storage the overlay writes to, over its state [S]. *)
Record SparseBacking (S : Type) := MkSparseBacking {
  bk_ReadAt : S -> Z -> Z -> bytes * option error;
  bk_WriteAt : S -> bytes -> Z -> S * Z * option error;
  bk_Sync : S -> S * option error;
}.
Arguments bk_ReadAt {S}.
Arguments bk_WriteAt {S}.
Arguments bk_Sync {S}.

(** A backing that works: [C] is its content and [W] the set of offsets that
    have been written.  Nothing is promised about reading other offsets. *)
Class BackingOK {S} (bk : SparseBacking S) (C : S -> Z -> byte) (W : S -> Z -> Prop) : Prop := {
  bk_read : forall s n off, 0 <= off -> 0 <= n -> (forall i, off <= i < off + n -> W s i) ->
    exists e, bk_ReadAt bk s n off = (range (C s) off n, e) /\ (e = None \/ e = Some EOF);
  bk_write : forall s d off, 0 <= off ->
    exists s', bk_WriteAt bk s d off = (s', zlen d, None) /\
               (forall i, C s' i = upd (C s) off d i) /\
               (forall i, W s' i <-> W s i \/ off <= i < off + zlen d);
  bk_sync : forall s, exists s', bk_Sync bk s = (s', None) /\
               (forall i, C s' i = C s i) /\ (forall i, W s' i <-> W s i);
}.

(** The overlay; [so_done] tells whether the [Done] channel is closed.  The
    scratch chunk is only used inside one iteration of [WriteAt] and is a
    local value there. *)
Record SparseOverlay (S : Type) := MkSparseOverlay {
  so_base : Device;
  so_backing : S;
  so_geometry : Geometry;
  so_dirty : gset Z;
  so_failure : option error;
  so_done : bool;
}.
Arguments MkSparseOverlay {S}.
Arguments so_base {S}.
Arguments so_backing {S}.
Arguments so_geometry {S}.
Arguments so_dirty {S}.
Arguments so_failure {S}.
Arguments so_done {S}.

Section Sparse.
Context {S : Type} (bk : SparseBacking S).
Implicit Types d : SparseOverlay S.

Definition NewSparseOverlay (base : option Device) (backing : option S) : res (SparseOverlay S) :=
  match base, backing with
  | Some base, Some backing =>
      let g := dev_Geometry base in
      guard! (Errorf "sparse overlay: incompatible geometry")
        when (g_Size g <? 0) || (g_LogicalBlockSize g =? 0)
             || negb (SparseChunkSize mod g_LogicalBlockSize g =? 0) in
      Ok {| so_base := base; so_backing := backing; so_geometry := g; so_dirty := ∅;
            so_failure := None; so_done := false |}
  | _, _ => Err (Errorf "sparse overlay: base and backing required")
  end.

Definition SparseOverlay_DirtyBytes d : Z := Z.of_nat (size (so_dirty d)) * SparseChunkSize.

Definition set_backing d (s : S) : SparseOverlay S :=
  {| so_base := so_base d; so_backing := s; so_geometry := so_geometry d;
     so_dirty := so_dirty d; so_failure := so_failure d; so_done := so_done d |}.

Definition mark_dirty d (index : Z) : SparseOverlay S :=
  {| so_base := so_base d; so_backing := so_backing d; so_geometry := so_geometry d;
     so_dirty := {[index]} ∪ so_dirty d; so_failure := so_failure d; so_done := so_done d |}.

(** [fail] records the first error, closes [Done] and returns the recorded
    error. *)
Definition SparseOverlay_fail d (e : error) : SparseOverlay S * error :=
  match so_failure d with
  | Some f => (d, f)
  | None =>
      let f := Wrapf "sparse overlay" e in
      ({| so_base := so_base d; so_backing := so_backing d; so_geometry := so_geometry d;
          so_dirty := so_dirty d; so_failure := Some f; so_done := true |}, f)
  end.

Definition is_dirty d (index : Z) : bool := bool_decide (index ∈ so_dirty d).

(** The inner loop of [ReadAt]: extend the piece at [pos] over the following
    chunks that are as dirty as the first; [rem] is [len(p)-done]. *)
Fixpoint read_extend (fuel : nat) d (pos rem size : Z) (dirty : bool) : Z :=
  if size <? rem then
    match fuel with
    | O => size
    | Datatypes.S fuel =>
        if negb (Bool.eqb (is_dirty d ((pos + size) / SparseChunkSize)) dirty) then size
        else read_extend fuel d pos rem (size + Z.min (rem - size) SparseChunkSize) dirty
    end
  else size.

(** The outer loop of [ReadAt]: [acc] is [p[:done]]; every iteration that
    does not return reads at least one byte. *)
Fixpoint SparseOverlay_ReadAt_loop (fuel : nat) d (n off : Z) (acc : bytes)
    : SparseOverlay S * bytes * option error :=
  if zlen acc <? n then
    match fuel with
    | O => (d, acc, Some OutOfFuel)
    | Datatypes.S fuel =>
        let pos := off + zlen acc in
        let rem := n - zlen acc in
        let size0 := Z.min rem (SparseChunkSize - pos mod SparseChunkSize) in
        let dirty := is_dirty d (pos / SparseChunkSize) in
        let size := read_extend (Z.to_nat rem) d pos rem size0 dirty in
        let source := if dirty then bk_ReadAt bk (so_backing d) else dev_ReadAt (so_base d) in
        let '(got, e) := ReadFullAt source size pos in
        let acc' := acc ++ got in
        match e with
        | Some e => let '(d', f) := SparseOverlay_fail d e in (d', acc', Some f)
        | None => SparseOverlay_ReadAt_loop fuel d n off acc'
        end
    end
  else (d, acc, None).

Definition SparseOverlay_ReadAt d (n off : Z) : SparseOverlay S * bytes * option error :=
  match so_failure d with
  | Some f => (d, [], Some f)
  | None =>
      match ValidateRange (g_Size (so_geometry d)) off n with
      | Some e => (d, [], Some e)
      | None => SparseOverlay_ReadAt_loop (Z.to_nat n) d n off []
      end
  end.

(** [changed] reads the clean chunk of [off] into the scratch buffer and
    compares it with [p]; it returns the filled part of the buffer too. *)
Definition SparseOverlay_changed d (p : bytes) (off : Z)
    : SparseOverlay S * (bool * bytes + error) :=
  let start := off - off mod SparseChunkSize in
  let size := Z.min SparseChunkSize (g_Size (so_geometry d) - start) in
  let '(scratch, e) := ReadFullAt (dev_ReadAt (so_base d)) size start in
  match e with
  | Some e => let '(d', f) := SparseOverlay_fail d e in (d', inr f)
  | None => (d, inl (negb (bool_decide (slice (off - start) (zlen p) scratch = p)), scratch))
  end.

(** Write [data] at [at_] to the backing, then mark [index] dirty. *)
Definition backing_write d (data : bytes) (at_ index : Z) : SparseOverlay S * option error :=
  let '(s', n, e) := bk_WriteAt bk (so_backing d) data at_ in
  let d' := set_backing d s' in
  let e := match e with
           | Some e => Some e
           | None => if n =? zlen data then None else Some ErrShortWrite
           end in
  match e with
  | Some e => let '(d'', f) := SparseOverlay_fail d' e in (d'', Some f)
  | None => (mark_dirty d' index, None)
  end.

(** The body of the loop of [WriteAt] for [data], which lies in the chunk of
    [pos]: a dirty chunk is overwritten in place, a clean one is copied with
    the change, unless nothing changes. *)
Definition write_piece d (data : bytes) (pos : Z) : SparseOverlay S * option error :=
  let index := pos / SparseChunkSize in
  if is_dirty d index then backing_write d data pos index
  else
    match SparseOverlay_changed d data pos with
    | (d', inr f) => (d', Some f)
    | (d', inl (changed, scratch)) =>
        if negb changed then (d', None)
        else
          let start := index * SparseChunkSize in
          backing_write d' (splice scratch (pos - start) data) start index
    end.

(** The loop of [WriteAt]: [done] bytes of [p] have been dealt with. *)
Fixpoint SparseOverlay_WriteAt_loop (fuel : nat) d (p : bytes) (off done : Z)
    : SparseOverlay S * Z * option error :=
  if done <? zlen p then
    match fuel with
    | O => (d, done, Some OutOfFuel)
    | Datatypes.S fuel =>
        let pos := off + done in
        let size := Z.min (zlen p - done) (SparseChunkSize - pos mod SparseChunkSize) in
        match write_piece d (slice done size p) pos with
        | (d', Some f) => (d', done, Some f)
        | (d', None) => SparseOverlay_WriteAt_loop fuel d' p off (done + size)
        end
    end
  else (d, done, None).

Definition SparseOverlay_WriteAt d (p : bytes) (off : Z) : SparseOverlay S * Z * option error :=
  match so_failure d with
  | Some f => (d, 0, Some f)
  | None =>
      match ValidateRange (g_Size (so_geometry d)) off (zlen p) with
      | Some e => (d, 0, Some e)
      | None => SparseOverlay_WriteAt_loop (length p) d p off 0
      end
  end.

Definition SparseOverlay_Flush d : SparseOverlay S * option error :=
  match so_failure d with
  | Some f => (d, Some f)
  | None =>
      let '(s', e) := bk_Sync bk (so_backing d) in
      let d' := set_backing d s' in
      match e with
      | Some e => let '(d'', f) := SparseOverlay_fail d' e in (d'', Some f)
      | None => (d', None)
      end
  end.
End Sparse.

(** ** Correctness over a working backing *)

#[local] Ltac Zify.zify_post_hook ::= Z.to_euclidean_division_equations.

Section Sparse_correct.
Context {S : Type} (bk : SparseBacking S) (C : S -> Z -> byte) (W : S -> Z -> Prop).
Context {Hbk : BackingOK bk C W} (f : Z -> byte).
Implicit Types d : SparseOverlay S.

Definition so_size d : Z := g_Size (so_geometry d).

(** The disk the overlay presents: dirty chunks from the backing, the others
    from the base. *)
Definition so_view d (i : Z) : byte :=
  if is_dirty d (i / SparseChunkSize) then C (so_backing d) i else f i.

(** No failure so far, and every byte of a dirty chunk is in the backing. *)
Record sparse_inv d : Prop := {
  si_failure : so_failure d = None;
  si_done : so_done d = false;
  si_geometry : so_geometry d = dev_Geometry (so_base d);
  si_base : DeviceOK (so_base d) f;
  si_dirty : forall index, index ∈ so_dirty d -> 0 <= index /\ index * SparseChunkSize < so_size d;
  si_written : forall i, 0 <= i < so_size d -> i / SparseChunkSize ∈ so_dirty d ->
    W (so_backing d) i;
}.

Lemma si_size d : sparse_inv d -> so_size d = dev_Size (so_base d).
Proof. intros H. unfold so_size, dev_Size. by rewrite si_geometry. Qed.

Lemma is_dirty_spec d index : is_dirty d index = true <-> index ∈ so_dirty d.
Proof. unfold is_dirty. apply bool_decide_eq_true. Qed.

(** The extended piece stays inside chunks that are as dirty as the first. *)
Lemma read_extend_spec fuel d pos rem size dirty :
  0 <= pos -> 0 < size <= rem -> (size = rem \/ (pos + size) mod SparseChunkSize = 0) ->
  (forall i, pos <= i < pos + size -> is_dirty d (i / SparseChunkSize) = dirty) ->
  let size' := read_extend fuel d pos rem size dirty in
  size <= size' <= rem /\
  forall i, pos <= i < pos + size' -> is_dirty d (i / SparseChunkSize) = dirty.
Proof.
  intros Hpos. unfold SparseChunkSize in *. revert size.
  induction fuel as [|fuel IH]; intros size Hsize Hal Hun; simpl.
  { case_match; split; auto; lia. }
  destruct (Z.ltb_spec size rem); [|split; auto; lia].
  destruct (Bool.eqb _ dirty) eqn:E; simpl; [|split; auto; lia].
  apply Bool.eqb_prop in E. unfold SparseChunkSize in *.
  destruct (IH (size + Z.min (rem - size) 4096)) as [H1 H2]; [lia|lia| |split; [lia|done]].
  intros i Hi. destruct (decide (i < pos + size)); [apply Hun; lia|].
  rewrite <- E. f_equal. lia.
Qed.

Lemma ReadFullAt_backing s n off :
  0 <= off -> 0 <= n -> (forall i, off <= i < off + n -> W s i) ->
  ReadFullAt (bk_ReadAt bk s) n off = (range (C s) off n, None).
Proof.
  intros Ho Hn Hw. destruct (decide (n = 0)) as [->|]; [by rewrite range_nil|].
  destruct (bk_read s n off) as (e & Hr & He); [done..|].
  eapply ReadFullAt_one; [lia|done|by rewrite zlen_range|done].
Qed.

(** A piece of uniform dirtiness reads as the presented disk. *)
Lemma read_piece d n pos :
  sparse_inv d -> 0 <= pos -> 0 < n -> pos + n <= so_size d ->
  (forall i, pos <= i < pos + n ->
     is_dirty d (i / SparseChunkSize) = is_dirty d (pos / SparseChunkSize)) ->
  ReadFullAt (if is_dirty d (pos / SparseChunkSize) then bk_ReadAt bk (so_backing d)
              else dev_ReadAt (so_base d)) n pos = (range (so_view d) pos n, None).
Proof.
  intros Hinv Hp Hn Hs Hun. destruct (is_dirty d (pos / SparseChunkSize)) eqn:E.
  - rewrite ReadFullAt_backing; [|lia|lia|].
    + f_equal. apply range_ext. intros i Hi. unfold so_view. by rewrite Hun.
    + intros i Hi. apply si_written; [done|lia|]. apply is_dirty_spec. by apply Hun.
  - pose proof (si_base _ Hinv). rewrite (ReadFullAt_device _ f); [|done|lia|lia|].
    + f_equal. apply range_ext. intros i Hi. unfold so_view. by rewrite Hun.
    + rewrite <- si_size by done. lia.
Qed.

Lemma SparseOverlay_ReadAt_loop_spec fuel d n off acc :
  sparse_inv d -> 0 <= off -> off + n <= so_size d -> zlen acc <= n ->
  n - zlen acc <= Z.of_nat fuel ->
  SparseOverlay_ReadAt_loop bk fuel d n off acc =
    (d, acc ++ range (so_view d) (off + zlen acc) (n - zlen acc), None).
Proof.
  intros Hinv Ho Hs. revert acc. induction fuel as [|fuel IH]; intros acc Hacc Hf; simpl.
  { destruct (Z.ltb_spec (zlen acc) n); [lia|]. by rewrite range_nil, app_nil_r by lia. }
  pose proof (zlen_nonneg acc).
  destruct (Z.ltb_spec (zlen acc) n); [|by rewrite range_nil, app_nil_r by lia].
  set (pos := off + zlen acc). set (rem := n - zlen acc).
  destruct (read_extend_spec (Z.to_nat rem) d pos rem
    (Z.min rem (SparseChunkSize - pos mod SparseChunkSize)) (is_dirty d (pos / SparseChunkSize)))
    as [Hsz Hun]; [lia|unfold SparseChunkSize; lia|unfold SparseChunkSize; lia|..].
  { intros i Hi. f_equal. unfold SparseChunkSize in *. lia. }
  set (size := read_extend _ _ _ _ _ _) in *.
  assert (0 < size) by (unfold SparseChunkSize in *; lia).
  rewrite read_piece by (done || lia).
  rewrite IH; rewrite zlen_app, zlen_range by lia; [|lia|lia].
  rewrite <- app_assoc. do 3 f_equal.
  replace (off + (zlen acc + size)) with (pos + size) by lia.
  replace rem with (size + (n - (zlen acc + size))) by lia. by rewrite <- range_add by lia.
Qed.

(** What a successful write to the backing does. *)
Lemma backing_write_spec d data at_ index :
  0 <= at_ ->
  exists s', backing_write bk d data at_ index = (mark_dirty (set_backing d s') index, None) /\
             (forall i, C s' i = upd (C (so_backing d)) at_ data i) /\
             (forall i, W s' i <-> W (so_backing d) i \/ at_ <= i < at_ + zlen data).
Proof.
  intros Hat. unfold backing_write.
  destruct (bk_write (so_backing d) data at_ Hat) as (s' & -> & HC & HW).
  rewrite Z.eqb_refl. by exists s'.
Qed.

Lemma is_dirty_mark d s' index i :
  is_dirty (mark_dirty (set_backing d s') index) i = (i =? index) || is_dirty d i.
Proof.
  unfold is_dirty. simpl. apply eq_true_iff_eq. rewrite orb_true_iff, !bool_decide_eq_true, Z.eqb_eq.
  set_solver.
Qed.

Lemma changed_spec d data pos :
  sparse_inv d -> 0 <= pos -> pos mod SparseChunkSize + zlen data <= SparseChunkSize ->
  pos + zlen data <= so_size d ->
  let start := pos / SparseChunkSize * SparseChunkSize in
  let scratch := range f start (Z.min SparseChunkSize (so_size d - start)) in
  SparseOverlay_changed d data pos =
    (d, inl (negb (bool_decide (range f pos (zlen data) = data)), scratch)).
Proof.
  intros Hinv Hp Hc Hs. cbn zeta. unfold SparseOverlay_changed. pose proof (zlen_nonneg data).
  pose proof (si_base _ Hinv). rewrite si_size in * by done.
  replace (pos - pos mod SparseChunkSize) with (pos / SparseChunkSize * SparseChunkSize)
    by (unfold SparseChunkSize; lia).
  fold (so_size d). rewrite si_size by done.
  set (start := pos / SparseChunkSize * SparseChunkSize).
  assert (0 <= start <= pos) by (unfold start, SparseChunkSize in *; lia).
  assert (pos + zlen data <= start + SparseChunkSize) by (unfold start, SparseChunkSize in *; lia).
  rewrite (ReadFullAt_device _ f) by (done || unfold SparseChunkSize in *; lia).
  do 5 f_equal. rewrite slice_range by (rewrite ?zlen_range; unfold SparseChunkSize in *; lia).
  apply bool_decide_ext. f_equiv. apply range_shift. intros i Hi. rewrite nthb_range by lia. f_equal. lia.
Qed.

(** [d'] presents the disk of [d] with [data] written at [pos]. *)
Record sparse_write d data pos d' : Prop := {
  sw_inv : sparse_inv d';
  sw_size : so_size d' = so_size d;
  sw_view : forall i, 0 <= i < so_size d -> so_view d' i = upd (so_view d) pos data i;
  sw_mono : so_dirty d ⊆ so_dirty d';
}.

(** Writing inside a chunk that is already dirty. *)
Lemma write_dirty d data pos :
  sparse_inv d -> 0 <= pos -> pos mod SparseChunkSize + zlen data <= SparseChunkSize ->
  pos + zlen data <= so_size d -> is_dirty d (pos / SparseChunkSize) = true ->
  exists d', backing_write bk d data pos (pos / SparseChunkSize) = (d', None) /\
             sparse_write d data pos d' /\ so_dirty d' = so_dirty d.
Proof.
  intros Hinv Hp Hc Hs Hd. pose proof (proj1 (is_dirty_spec _ _) Hd) as Hin.
  destruct (backing_write_spec d data pos (pos / SparseChunkSize) Hp) as (s' & -> & HC & HW).
  assert (Heq : so_dirty (mark_dirty (set_backing d s') (pos / SparseChunkSize)) = so_dirty d)
    by (simpl; set_solver).
  eexists. split; [done|]. split; [|done]. split; [|done| |by rewrite Heq].
  - destruct Hinv as [H1 H2 H3 H4 H5 H6]. split; try done; rewrite Heq; [done|].
    simpl. intros i Hi Hi'. apply HW. left. by apply H6.
  - intros i Hi. unfold so_view. rewrite is_dirty_mark. simpl. unfold upd at 1.
    destruct (Z.eqb_spec (i / SparseChunkSize) (pos / SparseChunkSize)) as [E|E]; simpl.
    + rewrite HC, E, Hd. done.
    + destruct (is_dirty d (i / SparseChunkSize)) eqn:Ei; [by rewrite HC|].
      destruct (_ && _) eqn:Er; [|done]. exfalso. apply E. unfold SparseChunkSize in *. lia.
Qed.

(** Copying a clean chunk with a change. *)
Lemma write_clean d data pos :
  sparse_inv d -> 0 <= pos -> 0 < zlen data ->
  pos mod SparseChunkSize + zlen data <= SparseChunkSize -> pos + zlen data <= so_size d ->
  is_dirty d (pos / SparseChunkSize) = false ->
  let start := pos / SparseChunkSize * SparseChunkSize in
  let scratch := range f start (Z.min SparseChunkSize (so_size d - start)) in
  exists d', backing_write bk d (splice scratch (pos - start) data) start (pos / SparseChunkSize)
               = (d', None) /\ sparse_write d data pos d' /\
             so_dirty d' = {[pos / SparseChunkSize]} ∪ so_dirty d.
Proof.
  intros Hinv Hp Hl Hc Hs Hd start scratch.
  assert (Hst : 0 <= start <= pos) by (unfold start, SparseChunkSize in *; lia).
  assert (Hend : pos + zlen data <= start + SparseChunkSize) by (unfold start, SparseChunkSize in *; lia).
  set (sz := Z.min SparseChunkSize (so_size d - start)).
  assert (Hsz : zlen scratch = sz) by (apply zlen_range; unfold sz, SparseChunkSize; lia).
  assert (Hlen : zlen (splice scratch (pos - start) data) = sz) by (rewrite zlen_splice; lia).
  destruct (backing_write_spec d (splice scratch (pos - start) data) start (pos / SparseChunkSize))
    as (s' & -> & HC & HW); [lia|]. rewrite Hlen in HW.
  assert (Hin : forall i, i / SparseChunkSize = pos / SparseChunkSize -> 0 <= i < so_size d ->
    start <= i < start + sz) by (unfold start, sz, SparseChunkSize in *; lia).
  eexists. split; [done|]. split; [|done]. split; [|done| |set_solver].
  - destruct Hinv as [H1 H2 H3 H4 H5 H6]. split; try done; simpl.
    + intros index [->%elem_of_singleton|Hi]%elem_of_union; [|by apply H5].
      unfold so_size in *. simpl. unfold start, SparseChunkSize in *. lia.
    + intros i Hi [E%elem_of_singleton|Hi']%elem_of_union; apply HW; [right; by apply Hin|left; by apply H6].
  - intros i Hi. unfold so_view. rewrite is_dirty_mark. simpl.
    destruct (Z.eqb_spec (i / SparseChunkSize) (pos / SparseChunkSize)) as [E|E]; simpl.
    + specialize (Hin i E Hi). rewrite HC, upd_in by lia. rewrite nthb_splice by lia.
      unfold upd. rewrite E, Hd. unfold scratch. rewrite nthb_range by lia.
      replace (start + (i - start)) with i by lia.
      destruct (Z.leb_spec (pos - start) (i - start)), (Z.leb_spec pos i); simpl; try lia.
      destruct (Z.ltb_spec (i - start) (pos - start + zlen data)), (Z.ltb_spec i (pos + zlen data));
        lia || (f_equal; lia).
    + assert (Ho : i < start \/ start + SparseChunkSize <= i)
        by (unfold start, SparseChunkSize in *; lia).
      rewrite HC, upd_out, upd_out by (unfold sz in *; lia). done.
Qed.

Lemma write_piece_spec d data pos :
  sparse_inv d -> 0 <= pos -> 0 < zlen data ->
  pos mod SparseChunkSize + zlen data <= SparseChunkSize -> pos + zlen data <= so_size d ->
  exists d', write_piece bk d data pos = (d', None) /\ sparse_write d data pos d'.
Proof.
  intros Hinv Hp Hl Hc Hs. unfold write_piece.
  destruct (is_dirty d (pos / SparseChunkSize)) eqn:Hd.
  { destruct (write_dirty d data pos) as (d' & ? & ? & _); eauto. }
  rewrite changed_spec by done. rewrite negb_involutive.
  case_bool_decide as Heq; cycle 1.
  { destruct (write_clean d data pos) as (d' & ? & ? & _); eauto. }
  exists d. split; [done|]. split; [done..| |done]. intros i Hi. unfold upd.
  destruct (_ && _) eqn:E; [|done]. unfold so_view.
  replace (i / SparseChunkSize) with (pos / SparseChunkSize) by (unfold SparseChunkSize in *; lia).
  rewrite Hd, <- Heq, nthb_range by lia. f_equal. lia.
Qed.

Lemma SparseOverlay_WriteAt_loop_spec fuel d p off done :
  sparse_inv d -> 0 <= off -> 0 <= done <= zlen p -> off + zlen p <= so_size d ->
  zlen p - done <= Z.of_nat fuel ->
  exists d', SparseOverlay_WriteAt_loop bk fuel d p off done = (d', zlen p, None) /\
             sparse_write d (slice done (zlen p - done) p) (off + done) d'.
Proof.
  intros Hinv Ho. revert d done Hinv.
  induction fuel as [|fuel IH]; intros d done Hinv Hdone Hs Hf.
  all: cbn [SparseOverlay_WriteAt_loop]; destruct (Z.ltb_spec done (zlen p)).
  1: lia.
  1,3: replace done with (zlen p) by lia; exists d; split; [done|]; split; [done..| |done];
    intros i Hi; rewrite upd_out; [done|]; rewrite slice_range, zlen_range; lia.
  set (size := Z.min (zlen p - done) (SparseChunkSize - (off + done) mod SparseChunkSize)).
  assert (Hsz : 0 < size <= zlen p - done) by (unfold size, SparseChunkSize; lia).
  assert (Hlen : zlen (slice done size p) = size) by (apply zlen_slice; lia).
  destruct (write_piece_spec d (slice done size p) (off + done)) as (d1 & -> & Hw1);
    rewrite ?Hlen; [done|lia..| |lia|]; [unfold size; lia|].
  destruct Hw1 as [Hi1 Hz1 Hv1 Hm1].
  destruct (IH d1 (done + size)) as (d2 & -> & [Hi2 Hz2 Hv2 Hm2]); [done|lia|lia|lia|].
  exists d2. split; [done|]. split; [done|congruence| |set_solver].
  intros i Hi. rewrite Hv2 by lia.
  assert (Happ : slice done (zlen p - done) p
    = slice done size p ++ slice (done + size) (zlen p - (done + size)) p).
  { rewrite !slice_range, <- range_add by lia. f_equal. lia. }
  rewrite Happ, upd_app, Hlen, Z.add_assoc. apply upd_ext. by apply Hv1.
Qed.
End Sparse_correct.

(** ** Executions *)

Inductive sparse_op : Type :=
  | OpRead (n : nat) (off : Z)
  | OpWrite (p : bytes) (off : Z)
  | OpFlush.

(** The bytes or count and the error a call returns. *)
Inductive sparse_out : Type :=
  | OutRead (b : bytes) (e : option error)
  | OutWrite (n : Z) (e : option error)
  | OutFlush (e : option error).

Definition out_error (o : sparse_out) : option error :=
  match o with OutRead _ e | OutWrite _ e | OutFlush e => e end.

Definition sparse_step {S} (bk : SparseBacking S) (d : SparseOverlay S) (op : sparse_op)
    : SparseOverlay S * sparse_out :=
  match op with
  | OpRead n off => let '(d', b, e) := SparseOverlay_ReadAt bk d (Z.of_nat n) off in (d', OutRead b e)
  | OpWrite p off => let '(d', n, e) := SparseOverlay_WriteAt bk d p off in (d', OutWrite n e)
  | OpFlush => let '(d', e) := SparseOverlay_Flush bk d in (d', OutFlush e)
  end.

Fixpoint sparse_run {S} (bk : SparseBacking S) (d : SparseOverlay S) (ops : list sparse_op)
    : SparseOverlay S * list sparse_out :=
  match ops with
  | [] => (d, [])
  | op :: ops =>
      let '(d', o) := sparse_step bk d op in
      let '(d'', os) := sparse_run bk d' ops in (d'', o :: os)
  end.

(** The specification: one flat array of [size] bytes. *)
Definition flat_step (size : Z) (g : Z -> byte) (op : sparse_op) : (Z -> byte) * sparse_out :=
  match op with
  | OpRead n off =>
      if (0 <=? off) && (off + Z.of_nat n <=? size)
      then (g, OutRead (range g off (Z.of_nat n)) None) else (g, OutRead [] (Some ErrOutOfRange))
  | OpWrite p off =>
      if (0 <=? off) && (off + zlen p <=? size)
      then (upd g off p, OutWrite (zlen p) None) else (g, OutWrite 0 (Some ErrOutOfRange))
  | OpFlush => (g, OutFlush None)
  end.

Fixpoint flat_run (size : Z) (g : Z -> byte) (ops : list sparse_op)
    : (Z -> byte) * list sparse_out :=
  match ops with
  | [] => (g, [])
  | op :: ops =>
      let '(g', o) := flat_step size g op in
      let '(g'', os) := flat_run size g' ops in (g'', o :: os)
  end.

Section Sparse_runs.
Context {S : Type} (bk : SparseBacking S) (C : S -> Z -> byte) (W : S -> Z -> Prop).
Context {Hbk : BackingOK bk C W} (f : Z -> byte).

(** The simulation relation: [g] is the presented disk. *)
Definition sparse_sim (size : Z) (d : SparseOverlay S) (g : Z -> byte) : Prop :=
  sparse_inv W f d /\ so_size d = size /\ forall i, 0 <= i < size -> so_view C f d i = g i.

Lemma sparse_step_sim size d g op :
  sparse_sim size d g ->
  let '(d', o) := sparse_step bk d op in
  let '(g', o') := flat_step size g op in
  o = o' /\ sparse_sim size d' g'.
Proof.
  intros (Hinv & Hsz & Hv). pose proof Hinv as Hinv0. destruct Hinv0 as [Hf _ _ _ _ _].
  unfold so_size in Hsz. destruct op as [n off|p off|]; simpl.
  - unfold SparseOverlay_ReadAt. rewrite Hf, Hsz, ValidateRange_dec by lia.
    destruct (_ && _) eqn:E; [|by split_and!].
    rewrite (SparseOverlay_ReadAt_loop_spec bk C W f) by (done || unfold so_size; rewrite ?zlen_nil; lia).
    rewrite zlen_nil, Z.add_0_r, Z.sub_0_r. simpl. split; [|by split_and!]. f_equal.
    apply range_ext. intros i Hi. apply Hv. lia.
  - unfold SparseOverlay_WriteAt. pose proof (zlen_nonneg p).
    rewrite Hf, Hsz, ValidateRange_dec by lia. destruct (_ && _) eqn:E; [|by split_and!].
    destruct (SparseOverlay_WriteAt_loop_spec bk C W f (length p) d p off 0) as (d' & -> & [H1 H2 H3 H4]);
      [done|lia..|unfold so_size; lia|unfold zlen; lia|].
    rewrite Z.sub_0_r, Z.add_0_r, slice_all in H3 by lia. unfold so_size in *.
    split; [done|]. split; [done|]. split; [unfold so_size; lia|].
    intros i Hi. rewrite H3 by lia. apply upd_ext, Hv. lia.
  - unfold SparseOverlay_Flush. rewrite Hf.
    destruct (bk_sync (so_backing d)) as (s' & -> & HC & HW). simpl.
    split; [done|]. split; [|split; [done|]].
    + destruct Hinv as [H1 H2 H3 H4 H5 H6]. split; try done. simpl. intros. apply HW. by apply H6.
    + intros i Hi. rewrite <- Hv by done. unfold so_view. simpl. rewrite HC. done.
Qed.

Lemma sparse_run_sim size ops : forall d g,
  sparse_sim size d g ->
  let '(d', os) := sparse_run bk d ops in
  let '(g', os') := flat_run size g ops in
  os = os' /\ sparse_sim size d' g'.
Proof.
  induction ops as [|op ops IH]; intros d g Hsim; simpl; [done|].
  pose proof (sparse_step_sim size d g op Hsim) as Hs.
  destruct (sparse_step bk d op) as [d1 o1], (flat_step size g op) as [g1 o1'].
  destruct Hs as [-> Hs]. specialize (IH d1 g1 Hs).
  destruct (sparse_run bk d1 ops), (flat_run size g1 ops). naive_solver.
Qed.

Lemma NewSparseOverlay_sim base s0 d :
  DeviceOK base f -> NewSparseOverlay (Some base) (Some s0) = Ok d ->
  sparse_sim (dev_Size base) d f.
Proof.
  intros Hb. unfold NewSparseOverlay. destruct (_ || _); [done|]. intros [= <-].
  split; [split; simpl; done || set_solver|]. split; [done|].
  intros i Hi. unfold so_view, is_dirty. simpl. case_bool_decide; [set_solver|done].
Qed.
End Sparse_runs.

(** ** A reference backing: a partial map from offsets to bytes *)
Definition map_backing : SparseBacking (Z -> option byte) :=
  {| bk_ReadAt := fun s n off => (range (fun i => default 0 (s i)) off n, None);
     bk_WriteAt := fun s d off =>
       (fun i => if (off <=? i) && (i <? off + zlen d) then Some (nthb d (i - off)) else s i,
        zlen d, None);
     bk_Sync := fun s => (s, None) |}.

#[export] Instance map_backing_ok :
  BackingOK map_backing (fun s i => default 0 (s i)) (fun s i => is_Some (s i)).
Proof.
  split.
  - intros s n off _ _ _. exists None. auto.
  - intros s d off Ho. eexists. split; [done|]. split; intros i; unfold upd; case_match; try done.
    + split; [intros _; right; lia|done].
    + split; [by left|intros [?|?]; [done|lia]].
  - intros s. exists s. auto.
Qed.

(** C3.  [SparseOverlay] refines a flat disk.  Over a base with content [f]
    and a backing that works, whatever the backing held before, every
    sequence of [ReadAt], [WriteAt] and [Flush] calls returns what the same
    calls return on one array of the base's size initialised with [f]: the
    bytes read, the counts and the range errors.  In particular no byte of the
    backing that the overlay has not written is ever seen, and the base is
    never changed. *)
Theorem SparseOverlay_refines_flat {S} (bk : SparseBacking S) C W f base s0 d ops :
  BackingOK bk C W -> DeviceOK base f ->
  NewSparseOverlay (Some base) (Some s0) = Ok d ->
  snd (sparse_run bk d ops) = snd (flat_run (dev_Size base) f ops).
Proof.
  intros Hbk Hb Hnew.
  pose proof (sparse_run_sim bk C W f (dev_Size base) ops d f
    (NewSparseOverlay_sim bk C W f base s0 d Hb Hnew)) as H.
  destruct (sparse_run bk d ops), (flat_run _ f ops). naive_solver.
Qed.

Definition small_device (data : bytes) : Device :=
  FileDevice_device mem_file
    {| fd_geometry := MkGeometry (zlen data) 512 512 512 512 512;
       fd_writable := false; fd_flushable := false |} data.

Lemma small_device_ok data : zlen data <= MaxInt64 -> DeviceOK (small_device data) (nthb data).
Proof.
  intros H. by apply (FileDevice_device_ok mem_file (zlen data) (fun s => zlen s = zlen data) nthb
    (Hfile := mem_file_ok (zlen data) H)).
Qed.

Lemma SparseOverlay_refines_flat_witness :
  exists d, NewSparseOverlay (Some (small_device [1; 2; 3; 4; 5])) (Some (fun _ : Z => Some 99)) = Ok d /\
    snd (sparse_run map_backing d [OpWrite [8; 9] 1; OpFlush; OpRead 5 0; OpRead 2 4])
    = [OutWrite 2 None; OutFlush None; OutRead [1; 8; 9; 4; 5] None; OutRead [] (Some ErrOutOfRange)].
Proof.
  destruct (NewSparseOverlay _ _) as [d|] eqn:Hnew; [|discriminate Hnew].
  exists d. split; [reflexivity|].
  assert (Hmax : zlen [1; 2; 3; 4; 5] <= MaxInt64) by (vm_compute; discriminate).
  pose proof (SparseOverlay_refines_flat map_backing (fun s i => default 0 (s i))
    (fun s i => is_Some (s i)) (nthb [1; 2; 3; 4; 5]) (small_device [1; 2; 3; 4; 5])
    (fun _ : Z => Some 99) d [OpWrite [8; 9] 1; OpFlush; OpRead 5 0; OpRead 2 4]
    map_backing_ok (small_device_ok _ Hmax) Hnew) as H.
  rewrite H. vm_compute. reflexivity.
Defined.

(** ** Failures are terminal *)

Section Sparse_failure.
Context {S : Type} (bk : SparseBacking S).
Implicit Types d : SparseOverlay S.

(** A Go reader stores at most [len(p)] bytes; the model's own fuel error is
    not one of its errors. *)
Definition reads_bounded (ra : Z -> Z -> bytes * option error) : Prop :=
  forall n off, zlen (fst (ra n off)) <= Z.max 0 n /\ snd (ra n off) <> Some OutOfFuel.

Definition sparse_bounded (base : Device) : Prop :=
  reads_bounded (dev_ReadAt base) /\ forall s, reads_bounded (bk_ReadAt bk s).

(** How a call may end when the overlay had not failed before it. *)
Definition fail_spec d d' (e : option error) : Prop :=
  so_base d' = so_base d /\ so_geometry d' = so_geometry d /\
  match e with
  | None => so_failure d' = None /\ so_done d' = so_done d
  | Some e => so_failure d' = Some e /\ so_done d' = true /\
              exists cause, e = Wrapf "sparse overlay" cause
  end.

Lemma fail_spec_fail d e :
  so_failure d = None -> let '(d', f) := SparseOverlay_fail d e in fail_spec d d' (Some f).
Proof. intros H. unfold SparseOverlay_fail. rewrite H. repeat split; eauto. Qed.

Lemma fail_spec_trans d d1 d2 e : fail_spec d d1 None -> fail_spec d1 d2 e -> fail_spec d d2 e.
Proof.
  intros (H1 & H2 & H3 & H4) (H5 & H6 & H7). split; [congruence|]. split; [congruence|].
  destruct e; [done|]. destruct H7. split; congruence.
Qed.

Lemma backing_write_fail d data at_ index :
  so_failure d = None -> let '(d', e) := backing_write bk d data at_ index in fail_spec d d' e.
Proof.
  intros H. unfold backing_write. destruct (bk_WriteAt bk (so_backing d) data at_) as [[s' n] e].
  set (e' := match e with Some e => Some e | None => _ end).
  destruct e' as [e'|]; [|by repeat split].
  pose proof (fail_spec_fail (set_backing d s') e' H) as Hf.
  destruct (SparseOverlay_fail _ e'). exact Hf.
Qed.

Lemma write_piece_fail d data pos :
  so_failure d = None -> let '(d', e) := write_piece bk d data pos in fail_spec d d' e.
Proof.
  intros H. unfold write_piece. destruct (is_dirty d _); [by apply backing_write_fail|].
  unfold SparseOverlay_changed. destruct (ReadFullAt _ _ _) as [scratch [e|]].
  - pose proof (fail_spec_fail d e H) as Hf. by destruct (SparseOverlay_fail d e).
  - destruct (negb (negb _)); [by repeat split|by apply backing_write_fail].
Qed.

Lemma WriteAt_loop_fail fuel d p off done :
  so_failure d = None -> 0 <= done <= zlen p -> zlen p - done <= Z.of_nat fuel ->
  let '(d', n, e) := SparseOverlay_WriteAt_loop bk fuel d p off done in
  0 <= n <= zlen p /\ (e = None -> n = zlen p) /\ fail_spec d d' e.
Proof.
  revert d done. induction fuel as [|fuel IH]; intros d done Hf Hd Hfuel.
  all: cbn [SparseOverlay_WriteAt_loop]; destruct (Z.ltb_spec done (zlen p)).
  1: lia.
  1,3: repeat split; lia || done.
  set (sz := Z.min _ _). assert (0 < sz <= zlen p - done) by (unfold sz, SparseChunkSize; lia).
  pose proof (write_piece_fail d (slice done sz p) (off + done) Hf) as Hw.
  destruct (write_piece bk d _ _) as [d1 [e|]]; [split_and!; done || lia|].
  pose proof Hw as (_ & _ & Hf1 & _).
  specialize (IH d1 (done + sz) Hf1 ltac:(lia) ltac:(lia)).
  destruct (SparseOverlay_WriteAt_loop _ _ _ _ _ _) as [[d2 n] e].
  destruct IH as (? & ? & ?). split; [done|]. split; [done|]. by eapply fail_spec_trans.
Qed.

Lemma ReadAt_loop_fail fuel d n off acc :
  sparse_bounded (so_base d) -> so_failure d = None -> zlen acc <= n ->
  n - zlen acc <= Z.of_nat fuel ->
  let '(d', b, e) := SparseOverlay_ReadAt_loop bk fuel d n off acc in
  (e = None -> zlen b = n) /\ fail_spec d d' e.
Proof.
  intros Hb Hf. revert acc. induction fuel as [|fuel IH]; intros acc Hacc Hfuel.
  all: cbn [SparseOverlay_ReadAt_loop]; destruct (Z.ltb_spec (zlen acc) n).
  1: lia.
  1,3: repeat split; lia || done.
  set (rem := n - zlen acc). set (pos := off + zlen acc).
  set (size0 := Z.min rem _). set (dirty := is_dirty d _). set (size := read_extend _ _ _ _ _ _).
  assert (Hsz0 : 0 < size0 <= rem) by (unfold size0, SparseChunkSize; lia).
  assert (Hsz : size0 <= size <= rem).
  { unfold size. clearbody size0. clear -Hsz0. revert size0 Hsz0.
    induction (Z.to_nat rem) as [|k IHk]; intros z Hz; simpl; case_match; try lia.
    case_match; [lia|].
    specialize (IHk (z + Z.min (rem - z) SparseChunkSize)). unfold SparseChunkSize in *. lia. }
  set (source := if dirty then _ else _).
  assert (Hs : reads_bounded source) by (unfold source; destruct Hb; by case_match).
  pose proof (ReadFullAt_loop_total (Z.to_nat size) source size pos [] (fun m o => proj1 (Hs m o))
    (fun m o => proj2 (Hs m o)) ltac:(rewrite zlen_nil; lia) ltac:(rewrite zlen_nil; lia)) as Ht.
  fold (ReadFullAt source size pos) in Ht.
  destruct (ReadFullAt source size pos) as [got [e|]].
  - pose proof (fail_spec_fail d e Hf) as Hfs. destruct (SparseOverlay_fail d e). by split.
  - destruct Ht as (_ & _ & Hlen). specialize (Hlen eq_refl).
    apply IH; rewrite zlen_app; lia.
Qed.
End Sparse_failure.

(** C4.  Failures are terminal.  Over any base and any backing, however they
    misbehave, a call on an overlay that has not failed either succeeds
    completely and leaves it working, or is refused with [ErrOutOfRange] and
    changes nothing, or fails; it then reports the error it has recorded, and
    closes [Done].  From then on every call returns that recorded error and
    touches neither the backing nor the set of dirty chunks, so no partially
    written chunk is exposed and no change is lost silently. *)
Theorem SparseOverlay_failure_terminal {S} (bk : SparseBacking S) (d : SparseOverlay S) op :
  sparse_bounded bk (so_base d) ->
  let '(d', o) := sparse_step bk d op in
  match so_failure d with
  | Some e => d' = d /\ out_error o = Some e
  | None =>
      (out_error o = Some ErrOutOfRange /\ d' = d) \/
      (fail_spec d d' (out_error o) /\
       (out_error o = None ->
        match op, o with
        | OpRead n _, OutRead b _ => zlen b = Z.of_nat n
        | OpWrite p _, OutWrite n _ => n = zlen p
        | OpFlush, OutFlush _ => True
        | _, _ => False
        end))
  end.
Proof.
  intros Hb. destruct op as [n off|p off|]; simpl.
  - unfold SparseOverlay_ReadAt. destruct (so_failure d) eqn:Hf; [done|].
    destruct (ValidateRange _ _ _) eqn:E; simpl; [left; by apply ValidateRange_Some in E as ->|].
    pose proof (ReadAt_loop_fail bk (Z.to_nat (Z.of_nat n)) d (Z.of_nat n) off [] Hb Hf) as H.
    destruct (SparseOverlay_ReadAt_loop _ _ _ _ _ _) as [[d' b] e].
    destruct H as [H1 H2]; [rewrite zlen_nil; lia..|]. by right.
  - unfold SparseOverlay_WriteAt. destruct (so_failure d) eqn:Hf; [done|].
    destruct (ValidateRange _ _ _) eqn:E; simpl; [left; by apply ValidateRange_Some in E as ->|].
    pose proof (WriteAt_loop_fail bk (length p) d p off 0 Hf) as H.
    destruct (SparseOverlay_WriteAt_loop _ _ _ _ _ _) as [[d' n] e].
    pose proof (zlen_nonneg p). destruct H as (H1 & H2 & H3); [lia|unfold zlen; lia|]. by right.
  - unfold SparseOverlay_Flush. destruct (so_failure d) eqn:Hf; [done|].
    destruct (bk_Sync bk (so_backing d)) as [s' [e|]]; [|by right; repeat split].
    pose proof (fail_spec_fail (set_backing d s') e Hf) as H.
    destruct (SparseOverlay_fail _ e). by right.
Qed.

(** A constant base and a backing whose writes fail. *)
Definition constant_device : Device :=
  {| dev_Geometry := MkGeometry 8192 512 512 512 512 512;
     dev_Capabilities := MkCapabilities false false false false false true false false;
     dev_ReadAt := fun n off => (range (fun _ => 7) off n, None);
     dev_Extents := None |}.

Definition full_backing : SparseBacking unit :=
  {| bk_ReadAt := fun _ _ _ => ([], Some EOF);
     bk_WriteAt := fun s _ _ => (s, 0, None);
     bk_Sync := fun s => (s, None) |}.

Lemma SparseOverlay_failure_terminal_witness :
  let d := MkSparseOverlay constant_device tt (dev_Geometry constant_device) ∅ None false in
  let '(d', o) := sparse_step full_backing d (OpWrite [1; 2] 4095) in
  o = OutWrite 0 (Some (Wrapf "sparse overlay" ErrShortWrite)) /\ fail_spec d d' (out_error o).
Proof.
  intros d.
  assert (Hb : sparse_bounded full_backing (so_base d)).
  { split; [intros n off|intros s n off]; split; try done; simpl.
    - rewrite zlen_range'. lia.
    - rewrite zlen_nil. lia. }
  pose proof (SparseOverlay_failure_terminal full_backing d (OpWrite [1; 2] 4095) Hb) as H.
  vm_compute in H |- *. split; [reflexivity|]. destruct H as [[H _]|[H _]]; [discriminate|exact H].
Defined.

(** ** How much the backing holds *)

Lemma dirty_bound (D : gset Z) n :
  0 <= n -> (forall i, i ∈ D -> 0 <= i < n) -> Z.of_nat (size D) <= n.
Proof.
  intros Hn HD.
  assert (D ⊆ list_to_set (seqZ 0 n)) as Hsub%subseteq_size.
  { intros i Hi. apply elem_of_list_to_set, elem_of_seqZ. specialize (HD i Hi). lia. }
  rewrite size_list_to_set in Hsub by apply NoDup_seqZ. rewrite length_seqZ in Hsub. lia.
Qed.

Section Sparse_space.
Context {S : Type} (bk : SparseBacking S) (C : S -> Z -> byte) (W : S -> Z -> Prop).
Context {Hbk : BackingOK bk C W} (f : Z -> byte).
Implicit Types d : SparseOverlay S.

(** Writing the bytes that are already there makes no chunk dirty. *)
Lemma write_piece_same d data pos :
  sparse_inv W f d -> 0 <= pos -> 0 < zlen data ->
  pos mod SparseChunkSize + zlen data <= SparseChunkSize -> pos + zlen data <= so_size d ->
  range (so_view C f d) pos (zlen data) = data ->
  exists d', write_piece bk d data pos = (d', None) /\ so_dirty d' = so_dirty d.
Proof.
  intros Hinv Hp Hl Hc Hs Hsame. unfold write_piece.
  destruct (is_dirty d (pos / SparseChunkSize)) eqn:Hd.
  { destruct (write_dirty bk C W f d data pos) as (d' & ? & _ & ?); eauto. }
  rewrite (changed_spec W f) by done. rewrite bool_decide_eq_true_2; [by eauto|].
  rewrite <- Hsame at 2. apply range_ext. intros i Hi. unfold so_view.
  replace (i / SparseChunkSize) with (pos / SparseChunkSize) by (unfold SparseChunkSize in *; lia).
  by rewrite Hd.
Qed.

Lemma WriteAt_loop_same fuel d p off done :
  sparse_inv W f d -> 0 <= off -> 0 <= done <= zlen p -> off + zlen p <= so_size d ->
  zlen p - done <= Z.of_nat fuel ->
  (forall i, off <= i < off + zlen p -> so_view C f d i = nthb p (i - off)) ->
  exists d', SparseOverlay_WriteAt_loop bk fuel d p off done = (d', zlen p, None) /\
             so_dirty d' = so_dirty d.
Proof.
  intros Hinv Ho. revert d done Hinv.
  induction fuel as [|fuel IH]; intros d done Hinv Hdone Hs Hf Hsame.
  all: cbn [SparseOverlay_WriteAt_loop]; destruct (Z.ltb_spec done (zlen p)).
  1: lia.
  1,3: replace done with (zlen p) by lia; eauto.
  set (sz := Z.min (zlen p - done) (SparseChunkSize - (off + done) mod SparseChunkSize)).
  assert (Hsz : 0 < sz <= zlen p - done) by (unfold sz, SparseChunkSize; lia).
  assert (Hlen : zlen (slice done sz p) = sz) by (apply zlen_slice; lia).
  assert (Hrange : range (so_view C f d) (off + done) (zlen (slice done sz p)) = slice done sz p).
  { rewrite Hlen, slice_range by lia. apply range_shift. intros i Hi. rewrite Hsame by lia. f_equal. lia. }
  destruct (write_piece_spec bk C W f d (slice done sz p) (off + done)) as (d1 & E1 & [Hi1 Hz1 Hv1 Hm1]);
    rewrite ?Hlen; [done|lia..|unfold sz; lia|lia|].
  destruct (write_piece_same d (slice done sz p) (off + done)) as (d1' & E1' & Hdirty);
    rewrite ?Hlen; [done|lia..|unfold sz; lia|lia|by rewrite <- Hlen at 1|].
  rewrite E1 in E1'. injection E1' as <-. rewrite E1.
  destruct (IH d1 (done + sz)) as (d2 & -> & Hd2); [done|lia|lia|lia| |by exists d2; rewrite Hd2].
  intros i Hi. pose proof (zlen_nonneg p). rewrite Hv1 by lia. unfold upd. rewrite Hlen.
  destruct (_ && _) eqn:E; [|by apply Hsame]. rewrite nthb_slice by lia. f_equal. lia.
Qed.
End Sparse_space.

(** C5.  The space an overlay takes.  After any sequence of calls its dirty
    chunks cover at most the disk rounded up to whole chunks, and a [WriteAt]
    of the bytes that are already there (a rewrite of an unchanged sector)
    makes no chunk dirty. *)
Theorem SparseOverlay_space {S} (bk : SparseBacking S) C W f base s0 d ops :
  BackingOK bk C W -> DeviceOK base f -> NewSparseOverlay (Some base) (Some s0) = Ok d ->
  let '(d', _) := sparse_run bk d ops in
  SparseOverlay_DirtyBytes d' < dev_Size base + SparseChunkSize /\
  forall p off, 0 <= off -> off + zlen p <= dev_Size base ->
    range (so_view C f d') off (zlen p) = p ->
    SparseOverlay_DirtyBytes (fst (fst (SparseOverlay_WriteAt bk d' p off)))
    = SparseOverlay_DirtyBytes d'.
Proof.
  intros Hbk Hb Hnew.
  pose proof (sparse_run_sim bk C W f (dev_Size base) ops d f
    (NewSparseOverlay_sim bk C W f base s0 d Hb Hnew)) as H.
  destruct (sparse_run bk d ops) as [d' os], (flat_run _ f ops) as [g os'].
  destruct H as [_ (Hinv & Hsz & _)]. unfold SparseOverlay_DirtyBytes.
  pose proof (dev_size_ok (d := base)). split.
  - pose proof (dirty_bound (so_dirty d') ((dev_Size base + 4095) / 4096) ltac:(lia)) as Hd.
    unfold SparseChunkSize. enough (Z.of_nat (size (so_dirty d')) <= (dev_Size base + 4095) / 4096) by lia.
    apply Hd. intros i Hi. apply (si_dirty W f d' Hinv) in Hi. unfold SparseChunkSize in Hi. lia.
  - intros p off Ho Hp Hsame. unfold SparseOverlay_WriteAt. rewrite (si_failure W f d' Hinv).
    pose proof (zlen_nonneg p). fold (so_size d'). rewrite Hsz.
    rewrite (proj2 (ValidateRange_None (dev_Size base) off (zlen p))) by lia.
    destruct (WriteAt_loop_same bk C W f (length p) d' p off 0) as (d2 & -> & Hd2);
      [done|lia|lia|lia|unfold zlen; lia| |simpl; by rewrite Hd2].
    intros i Hi. rewrite <- Hsame at 1. rewrite nthb_range by lia. f_equal. lia.
Qed.

Lemma SparseOverlay_space_witness :
  exists d, NewSparseOverlay (Some (small_device [1; 2; 3; 4; 5])) (Some (fun _ : Z => Some 99)) = Ok d /\
    let '(d', _) := sparse_run map_backing d [OpWrite [2; 3] 1; OpWrite [9] 4] in
    SparseOverlay_DirtyBytes d' = 4096 /\ SparseOverlay_DirtyBytes d' < 5 + SparseChunkSize.
Proof.
  destruct (NewSparseOverlay _ _) as [d|] eqn:Hnew; [|discriminate Hnew].
  exists d. split; [reflexivity|].
  assert (Hmax : zlen [1; 2; 3; 4; 5] <= MaxInt64) by (vm_compute; discriminate).
  pose proof (SparseOverlay_space map_backing (fun s i => default 0 (s i))
    (fun s i => is_Some (s i)) (nthb [1; 2; 3; 4; 5]) (small_device [1; 2; 3; 4; 5])
    (fun _ : Z => Some 99) d [OpWrite [2; 3] 1; OpWrite [9] 4]
    map_backing_ok (small_device_ok _ Hmax) Hnew) as H.
  destruct (sparse_run _ _ _) as [d' os] eqn:E. destruct H as [H _]. split; [|exact H].
  assert (d' = fst (sparse_run map_backing d [OpWrite [2; 3] 1; OpWrite [9] 4])) as ->
    by (rewrite E; reflexivity).
  injection Hnew as <-. vm_compute. reflexivity.
Defined.
