(* ===== verification/Overlay.v ===== *)
(** Package [block/star]: the copy-on-write overlay with a bounded set of
    dirty chunks, its immutable snapshots, leases and extent maps
    (src/block/star/overlay.go).

    Reads hold the overlay's lock shared, all other calls hold it
    exclusively, so an execution is a sequence of whole calls.  A chunk's
    byte slice is filled before it is published and never written again, so
    chunks are values here. *)

From S2P Require Import Prelude GoLib Storage Block.
From stdpp Require Import base numbers list gmap sorting strings.

Open Scope Z_scope.
Open Scope trex_scope.

Record overlayChunk := MkChunk { ch_data : bytes; ch_generation : Z }.

Record blockOverlayOperation := MkOperation {
  op_sequence : Z;
  op_kind : string;
  op_offset : Z;
  op_length : Z;
}.

Record overlayBlockDevice := MkOverlay {
  ov_base : Device;
  ov_maxDirty : Z;
  ov_chunkSize : Z;
  ov_chunks : gmap Z overlayChunk;
  ov_dirtyBytes : Z;
  ov_generation : Z;
  ov_sealed : bool;
  ov_leases : Z;
  ov_reads : Z;
  ov_writes : Z;
  ov_readBytes : Z;
  ov_writeBytes : Z;
  ov_snapshots : Z;
  ov_cowBytes : Z;
  ov_traceLimit : Z;
  ov_traceNext : Z;
  ov_trace : list blockOverlayOperation;
}.

Implicit Types d : overlayBlockDevice.

Definition ov_size d : Z := dev_Size (ov_base d).

(** The remainder by a zero block size is Go's division panic. *)
Definition newOverlayBlockDevice (base : Device) (maxDirty chunkSize : Z) : res overlayBlockDevice :=
  guard! (Errorf "block.overlay: max_dirty_bytes and chunk_size must be positive")
    when (maxDirty <=? 0) || (chunkSize <=? 0) in
  guard! (Errorf "block.overlay: chunk_size exceeds max_dirty_bytes") when maxDirty <? chunkSize in
  let logical := g_LogicalBlockSize (dev_Geometry base) in
  guard! Panic when logical =? 0 in
  guard! (Errorf "block.overlay: chunk_size must be a multiple of the logical block size")
    when negb (chunkSize mod logical =? 0) in
  Ok {| ov_base := base; ov_maxDirty := maxDirty; ov_chunkSize := chunkSize;
        ov_chunks := ∅; ov_dirtyBytes := 0; ov_generation := 1; ov_sealed := false;
        ov_leases := 0; ov_reads := 0; ov_writes := 0; ov_readBytes := 0; ov_writeBytes := 0;
        ov_snapshots := 0; ov_cowBytes := 0; ov_traceLimit := 0; ov_traceNext := 0;
        ov_trace := [] |}.

Definition overlay_Capabilities d : Capabilities :=
  {| cap_Writable := true; cap_Flush := true; cap_Zero := true; cap_Trim := false;
     cap_Extents := true; cap_Concurrent := true; cap_Durable := false;
     cap_Prefetch := cap_Prefetch (dev_Capabilities (ov_base d)) |}.

Definition chunkLength d (index : Z) : Z :=
  let off := index * ov_chunkSize d in
  let remaining := ov_size d - off in
  if remaining <? ov_chunkSize d then remaining else ov_chunkSize d.

(** ** Tracing *)

Definition recordOperation d (kind : string) (offset length : Z) : overlayBlockDevice :=
  if ov_traceLimit d =? 0 then d
  else
    let next := u64 (ov_traceNext d + 1) in
    let operation := MkOperation next kind offset length in
    let trace := if zlen (ov_trace d) <? ov_traceLimit d then ov_trace d ++ [operation]
                 else drop 1 (ov_trace d) ++ [operation] in
    {| ov_base := ov_base d; ov_maxDirty := ov_maxDirty d; ov_chunkSize := ov_chunkSize d;
       ov_chunks := ov_chunks d; ov_dirtyBytes := ov_dirtyBytes d;
       ov_generation := ov_generation d; ov_sealed := ov_sealed d; ov_leases := ov_leases d;
       ov_reads := ov_reads d; ov_writes := ov_writes d; ov_readBytes := ov_readBytes d;
       ov_writeBytes := ov_writeBytes d; ov_snapshots := ov_snapshots d;
       ov_cowBytes := ov_cowBytes d; ov_traceLimit := ov_traceLimit d;
       ov_traceNext := next; ov_trace := trace |}.

Definition add_read d (n : Z) : overlayBlockDevice :=
  {| ov_base := ov_base d; ov_maxDirty := ov_maxDirty d; ov_chunkSize := ov_chunkSize d;
     ov_chunks := ov_chunks d; ov_dirtyBytes := ov_dirtyBytes d;
     ov_generation := ov_generation d; ov_sealed := ov_sealed d; ov_leases := ov_leases d;
     ov_reads := u64 (ov_reads d + 1); ov_writes := ov_writes d;
     ov_readBytes := u64 (ov_readBytes d + n); ov_writeBytes := ov_writeBytes d;
     ov_snapshots := ov_snapshots d; ov_cowBytes := ov_cowBytes d;
     ov_traceLimit := ov_traceLimit d; ov_traceNext := ov_traceNext d; ov_trace := ov_trace d |}.

Definition add_write d (n : Z) : overlayBlockDevice :=
  {| ov_base := ov_base d; ov_maxDirty := ov_maxDirty d; ov_chunkSize := ov_chunkSize d;
     ov_chunks := ov_chunks d; ov_dirtyBytes := ov_dirtyBytes d;
     ov_generation := ov_generation d; ov_sealed := ov_sealed d; ov_leases := ov_leases d;
     ov_reads := ov_reads d; ov_writes := u64 (ov_writes d + 1);
     ov_readBytes := ov_readBytes d; ov_writeBytes := u64 (ov_writeBytes d + n);
     ov_snapshots := ov_snapshots d; ov_cowBytes := ov_cowBytes d;
     ov_traceLimit := ov_traceLimit d; ov_traceNext := ov_traceNext d; ov_trace := ov_trace d |}.

(** ** Reading *)

(** The loop shared by the two [ReadAt] methods of the file: [len_of] is the
    length of a chunk, [lookup] its dirty data; [guarded] is the check of the
    overlay's own method that the piece is not empty. *)
Fixpoint chunk_read_loop (fuel : nat) (base : Device) (chunkSize : Z) (len_of : Z -> Z)
    (lookup : Z -> option bytes) (guarded : bool) (n off : Z) (acc : bytes)
    : bytes * option error :=
  if zlen acc <? n then
    match fuel with
    | O => (acc, Some OutOfFuel)
    | S fuel =>
        let absolute := off + zlen acc in
        let index := absolute / chunkSize in
        let within := absolute mod chunkSize in
        let available := len_of index - within in
        let count := if available <? n - zlen acc then available else n - zlen acc in
        if guarded && (count <=? 0) then (acc, Some ErrUnexpectedEOF)
        else match lookup index with
        | Some data =>
            chunk_read_loop fuel base chunkSize len_of lookup guarded n off
              (acc ++ slice within count data)
        | None =>
            let '(got, e) := ReadFullAt (dev_ReadAt base) count absolute in
            match e with
            | Some e => (acc, Some e)
            | None =>
                chunk_read_loop fuel base chunkSize len_of lookup guarded n off (acc ++ got)
            end
        end
    end
  else (acc, None).

Definition overlay_ReadAt d (n off : Z) : overlayBlockDevice * bytes * option error :=
  match ValidateRange (ov_size d) off n with
  | Some e => (d, [], Some e)
  | None =>
      if n =? 0 then (d, [], None)
      else
        let '(out, e) :=
          chunk_read_loop (Z.to_nat n) (ov_base d) (ov_chunkSize d) (chunkLength d)
            (fun index => ch_data <$> ov_chunks d !! index) true n off [] in
        match e with
        | Some e => (d, out, Some e)
        | None => (recordOperation (add_read d (zlen out)) "read" off (zlen out), out, None)
        end
  end.

(** ** Updating *)

(** A staged chunk: its new content, or [None] when it equals the base again,
    and whether an older generation's chunk was replaced. *)
Record update := MkUpdate { up_chunk : option overlayChunk; up_cloned : bool }.

(** [make([]byte, n)] followed by [copy(_, src)]. *)
Definition make_copy (n : Z) (src : bytes) : bytes :=
  slice 0 n src ++ zeros (n - zlen src).

(** One iteration of [updateLocked] for the chunk [index]; [data] is [None]
    for zeroing.  The result is the staged update and the change of the
    number of dirty bytes. *)
Definition stage_chunk d (off length : Z) (data : option bytes) (index : Z) : res (update * Z) :=
  let chunkStart := index * ov_chunkSize d in
  let chunkLen := chunkLength d index in
  let end_ := off + length in
  let read_base :=
    let '(b, e) := ReadFullAt (dev_ReadAt (ov_base d)) chunkLen chunkStart in
    match e with Some e => Err e | None => Ok b end in
  let current := ov_chunks d !! index in
  let! base0 := match current with Some _ => Ok None | None => let! b := read_base in Ok (Some b) end in
  let candidate0 := match current, base0 with
                    | Some c, _ => make_copy chunkLen (ch_data c)
                    | None, Some b => b
                    | None, None => [] end in
  let cloned := match current with
                | Some c => negb (ch_generation c =? ov_generation d) | None => false end in
  let start := Z.max off chunkStart in
  let finish := Z.min end_ (chunkStart + chunkLen) in
  let within := start - chunkStart in
  let count := finish - start in
  let candidate := splice candidate0 within
                     match data with
                     | None => zeros count
                     | Some data => slice (start - off) count data
                     end in
  let existed := bool_decide (is_Some current) in
  let! same :=
    if negb existed || (count =? chunkLen) then
      let! base := match base0 with Some b => Ok b | None => read_base end in
      Ok (bool_decide (candidate = base))
    else Ok false in
  if same then Ok (MkUpdate None false, if existed then - chunkLen else 0)
  else Ok (MkUpdate (Some (MkChunk candidate (ov_generation d))) cloned,
           if existed then 0 else chunkLen).

(** The loop over the touched chunks. *)
Fixpoint stage_chunks d (off length : Z) (data : option bytes) (indices : list Z)
    (updates : list (Z * update)) (dirtyBytes : Z) : res (list (Z * update) * Z) :=
  match indices with
  | [] => Ok (updates, dirtyBytes)
  | index :: indices =>
      let! (u, delta) := stage_chunk d off length data index in
      stage_chunks d off length data indices (updates ++ [(index, u)]) (dirtyBytes + delta)
  end.

(** Publishing one staged chunk: the chunk map and the copy-on-write count. *)
Definition apply_update (st : gmap Z overlayChunk * Z) (iu : Z * update)
    : gmap Z overlayChunk * Z :=
  let '(chunks, cow) := st in
  let '(index, u) := iu in
  match up_chunk u with
  | None => (delete index chunks, cow)
  | Some c => (<[index := c]> chunks, if up_cloned u then u64 (cow + zlen (ch_data c)) else cow)
  end.

Definition updateLocked d (off length : Z) (data : option bytes) : overlayBlockDevice * option error :=
  let first := off / ov_chunkSize d in
  let last := (off + length - 1) / ov_chunkSize d in
  match stage_chunks d off length data (seqZ first (last - first + 1)) [] (ov_dirtyBytes d) with
  | Err e => (d, Some e)
  | Ok (updates, dirtyBytes) =>
      if ov_maxDirty d <? dirtyBytes then
        (d, Some (BlockCapacityError (ov_maxDirty d) (ov_dirtyBytes d) (dirtyBytes - ov_dirtyBytes d)))
      else
        let '(chunks, cow) := foldl apply_update (ov_chunks d, ov_cowBytes d) updates in
        ({| ov_base := ov_base d; ov_maxDirty := ov_maxDirty d; ov_chunkSize := ov_chunkSize d;
            ov_chunks := chunks; ov_dirtyBytes := dirtyBytes; ov_generation := ov_generation d;
            ov_sealed := ov_sealed d; ov_leases := ov_leases d; ov_reads := ov_reads d;
            ov_writes := ov_writes d; ov_readBytes := ov_readBytes d;
            ov_writeBytes := ov_writeBytes d; ov_snapshots := ov_snapshots d;
            ov_cowBytes := cow; ov_traceLimit := ov_traceLimit d;
            ov_traceNext := ov_traceNext d; ov_trace := ov_trace d |}, None)
  end.

Definition overlay_WriteAt d (p : bytes) (off : Z) : overlayBlockDevice * Z * option error :=
  match ValidateRange (ov_size d) off (zlen p) with
  | Some e => (d, 0, Some e)
  | None =>
      if zlen p =? 0 then (d, 0, None)
      else if ov_sealed d then (d, 0, Some ErrReadOnly)
      else match updateLocked d off (zlen p) (Some p) with
      | (d', Some e) => (d', 0, Some e)
      | (d', None) => (recordOperation (add_write d' (zlen p)) "write" off (zlen p), zlen p, None)
      end
  end.

Definition overlay_ZeroAt d (off length : Z) : overlayBlockDevice * option error :=
  match ValidateRange (ov_size d) off length with
  | Some e => (d, Some e)
  | None =>
      if length =? 0 then (d, None)
      else if ov_sealed d then (d, Some ErrReadOnly)
      else match updateLocked d off length None with
      | (d', Some e) => (d', Some e)
      | (d', None) => (recordOperation (add_write d' length) "zero" off length, None)
      end
  end.

Definition overlay_Flush d : overlayBlockDevice * option error := (d, None).

(** ** Leases, sealing and snapshots *)

Definition set_leases d (leases : Z) (sealed : bool) : overlayBlockDevice :=
  {| ov_base := ov_base d; ov_maxDirty := ov_maxDirty d; ov_chunkSize := ov_chunkSize d;
     ov_chunks := ov_chunks d; ov_dirtyBytes := ov_dirtyBytes d;
     ov_generation := ov_generation d; ov_sealed := sealed; ov_leases := leases;
     ov_reads := ov_reads d; ov_writes := ov_writes d; ov_readBytes := ov_readBytes d;
     ov_writeBytes := ov_writeBytes d; ov_snapshots := ov_snapshots d;
     ov_cowBytes := ov_cowBytes d; ov_traceLimit := ov_traceLimit d;
     ov_traceNext := ov_traceNext d; ov_trace := ov_trace d |}.

(** The state of a lease, the [sync.Once] inside the closure [Acquire]
    returns: [false] until the first call. *)
Definition overlay_Acquire d : overlayBlockDevice * res bool :=
  if ov_sealed d then (d, Err (Errorf "block overlay is sealed"))
  else (set_leases d (ov_leases d + 1) (ov_sealed d), Ok false).

(** Calling the closure. *)
Definition overlay_release d (released : bool) : overlayBlockDevice * bool :=
  if released then (d, true) else (set_leases d (ov_leases d - 1) (ov_sealed d), true).

Definition overlay_Commit d : overlayBlockDevice * option error :=
  if negb (ov_leases d =? 0) then (d, Some (Errorf "block overlay has %d active lease(s)"))
  else (set_leases d (ov_leases d) true, None).

Record overlaySnapshotBlockDevice := MkSnapshot {
  sn_base : Device;
  sn_chunkSize : Z;
  sn_chunks : gmap Z bytes;
}.

Definition overlay_Snapshot d : overlayBlockDevice * res overlaySnapshotBlockDevice :=
  if ov_sealed d then (d, Err (Errorf "block overlay is sealed"))
  else
    ({| ov_base := ov_base d; ov_maxDirty := ov_maxDirty d; ov_chunkSize := ov_chunkSize d;
        ov_chunks := ov_chunks d; ov_dirtyBytes := ov_dirtyBytes d;
        ov_generation := u64 (ov_generation d + 1); ov_sealed := ov_sealed d;
        ov_leases := ov_leases d; ov_reads := ov_reads d; ov_writes := ov_writes d;
        ov_readBytes := ov_readBytes d; ov_writeBytes := ov_writeBytes d;
        ov_snapshots := u64 (ov_snapshots d + 1); ov_cowBytes := ov_cowBytes d;
        ov_traceLimit := ov_traceLimit d; ov_traceNext := ov_traceNext d;
        ov_trace := ov_trace d |},
     Ok {| sn_base := ov_base d; sn_chunkSize := ov_chunkSize d;
           sn_chunks := ch_data <$> ov_chunks d |}).

Definition snapshot_Capabilities : Capabilities :=
  {| cap_Writable := false; cap_Flush := false; cap_Zero := false; cap_Trim := false;
     cap_Extents := true; cap_Concurrent := true; cap_Durable := false; cap_Prefetch := false |}.

Definition snapshot_ReadAt (s : overlaySnapshotBlockDevice) (n off : Z) : bytes * option error :=
  let size := dev_Size (sn_base s) in
  match ValidateRange size off n with
  | Some e => ([], Some e)
  | None =>
      chunk_read_loop (Z.to_nat n) (sn_base s) (sn_chunkSize s)
        (fun index => let remaining := size - index * sn_chunkSize s in
                      if remaining <? sn_chunkSize s then remaining else sn_chunkSize s)
        (fun index => sn_chunks s !! index) false n off []
  end.

(** ** Extent maps *)

(** [appendExtent]: merge with the last extent where possible. *)
Definition appendExtent (out : list Extent) (x : Extent) : list Extent :=
  if x_Length x <=? 0 then out
  else match last out with
  | Some l =>
      if (x_Offset l + x_Length l =? x_Offset x) && Bool.eqb (x_Allocated l) (x_Allocated x)
      then take (length out - 1) out ++ [MkExtent (x_Offset l) (x_Length l + x_Length x) (x_Allocated l)]
      else out ++ [x]
  | None => [x]
  end.

Definition extent_error : error :=
  Errorf "block overlay: base extent map does not cover requested range".

(** The loop of [appendBase] over the extents the base reports. *)
Fixpoint appendBase_loop (extents : list Extent) (end_ expected : Z) (out : list Extent)
    : res (list Extent) :=
  match extents with
  | [] => guard! extent_error when negb (expected =? end_) in Ok out
  | x :: extents =>
      guard! extent_error
        when negb (x_Offset x =? expected) || (x_Length x <=? 0) || (end_ - expected <? x_Length x) in
      appendBase_loop extents end_ (expected + x_Length x) (appendExtent out x)
  end.

Definition appendBase (base : Device) (start size : Z) (out : list Extent) : res (list Extent) :=
  if size <=? 0 then Ok out
  else match dev_Extents base with
  | Some provider =>
      if cap_Extents (dev_Capabilities base) then
        let! extents := provider start size in
        appendBase_loop extents (start + size) start out
      else Ok (appendExtent out (MkExtent start size true))
  | None => Ok (appendExtent out (MkExtent start size true))
  end.

(** The loop over the dirty chunks in the range. *)
Fixpoint extent_loop (base : Device) (chunkSize end_ : Z) (indices : list Z) (position : Z)
    (out : list Extent) : res (list Extent * Z) :=
  match indices with
  | [] => Ok (out, position)
  | index :: indices =>
      let chunkStart := index * chunkSize in
      let chunkEnd := Z.min end_ (i64 (chunkStart + chunkSize)) in
      let! (out, position) :=
        if position <? chunkStart then
          let! out := appendBase base position (chunkStart - position) out in Ok (out, chunkStart)
        else Ok (out, position) in
      let '(out, position) :=
        if position <? chunkEnd
        then (appendExtent out (MkExtent position (chunkEnd - position) true), chunkEnd)
        else (out, position) in
      extent_loop base chunkSize end_ indices position out
  end.

(** [dirty] is the set of keys, in any order. *)
Definition overlayExtentMap (base : Device) (dirty : list Z) (chunkSize off length : Z)
    : res (list Extent) :=
  if length =? 0 then Ok []
  else
    let end_ := off + length in
    let indices := sort_by id
      (filter (fun index => index * chunkSize < end_ /\ off < i64 (index * chunkSize + chunkSize)) dirty) in
    let! (out, position) := extent_loop base chunkSize end_ indices off [] in
    if position <? end_ then appendBase base position (end_ - position) out else Ok out.

Definition chunk_keys {A} (m : gmap Z A) : list Z := (map_to_list m).*1.

Definition overlay_Extents d (off length : Z) : res (list Extent) :=
  match ValidateRange (ov_size d) off length with
  | Some e => Err e
  | None => overlayExtentMap (ov_base d) (chunk_keys (ov_chunks d)) (ov_chunkSize d) off length
  end.

Definition snapshot_Extents (s : overlaySnapshotBlockDevice) (off length : Z) : res (list Extent) :=
  match ValidateRange (dev_Size (sn_base s)) off length with
  | Some e => Err e
  | None => overlayExtentMap (sn_base s) (chunk_keys (sn_chunks s)) (sn_chunkSize s) off length
  end.

(** The snapshot as a device. *)
Definition snapshot_device (s : overlaySnapshotBlockDevice) : Device :=
  {| dev_Geometry := dev_Geometry (sn_base s);
     dev_Capabilities := snapshot_Capabilities;
     dev_ReadAt := snapshot_ReadAt s;
     dev_Extents := Some (snapshot_Extents s) |}.

(** ** [Stats] *)

(** The inner loop: the number of consecutive indices after [prev]. *)
Fixpoint run_length (prev : Z) (indices : list Z) : nat :=
  match indices with
  | [] => O
  | i :: indices => if i =? prev + 1 then S (run_length i indices) else O
  end.

(** The dirty extents, as offsets and lengths; every round takes at least one
    index. *)
Fixpoint dirty_extents (fuel : nat) (chunkSize size : Z) (indices : list Z) : list (Z * Z) :=
  match indices, fuel with
  | [], _ | _, O => []
  | first :: rest, S fuel =>
      let run := run_length first rest in
      let offset := first * chunkSize in
      let length := i64 ((1 + Z.of_nat run) * chunkSize) in
      let length := if size <? i64 (offset + length) then size - offset else length in
      (offset, length) :: dirty_extents fuel chunkSize size (drop run rest)
  end.

Record overlay_stats := MkOverlayStats {
  st_chunks : Z;
  st_copy_on_write_bytes : Z;
  st_dirty_bytes : Z;
  st_dirty_extents : list (Z * Z);
  st_leases : Z;
  st_max_dirty_bytes : Z;
  st_read_bytes : Z;
  st_reads : Z;
  st_recent_operations : list blockOverlayOperation;
  st_sealed : bool;
  st_snapshots : Z;
  st_write_bytes : Z;
  st_writes : Z;
}.

Definition overlay_Stats d : overlay_stats :=
  let indices := sort_by id (chunk_keys (ov_chunks d)) in
  {| st_chunks := zlen indices;
     st_copy_on_write_bytes := ov_cowBytes d;
     st_dirty_bytes := ov_dirtyBytes d;
     st_dirty_extents := dirty_extents (length indices) (ov_chunkSize d) (ov_size d) indices;
     st_leases := ov_leases d;
     st_max_dirty_bytes := ov_maxDirty d;
     st_read_bytes := ov_readBytes d;
     st_reads := ov_reads d;
     st_recent_operations := ov_trace d;
     st_sealed := ov_sealed d;
     st_snapshots := ov_snapshots d;
     st_write_bytes := ov_writeBytes d;
     st_writes := ov_writes d |}.

(** The checks of [blockOverlayBuiltin] after [newOverlayBlockDevice]. *)
Definition set_trace d (limit : Z) : overlayBlockDevice :=
  {| ov_base := ov_base d; ov_maxDirty := ov_maxDirty d; ov_chunkSize := ov_chunkSize d;
     ov_chunks := ov_chunks d; ov_dirtyBytes := ov_dirtyBytes d;
     ov_generation := ov_generation d; ov_sealed := ov_sealed d; ov_leases := ov_leases d;
     ov_reads := ov_reads d; ov_writes := ov_writes d; ov_readBytes := ov_readBytes d;
     ov_writeBytes := ov_writeBytes d; ov_snapshots := ov_snapshots d;
     ov_cowBytes := ov_cowBytes d; ov_traceLimit := limit;
     ov_traceNext := ov_traceNext d; ov_trace := ov_trace d |}.

Definition defaultBlockOverlayLimit : Z := 134217728.
Definition defaultBlockOverlayChunk : Z := 65536.

Definition blockOverlayBuiltin (base : Device) (max_dirty_bytes chunk_size trace_operations : option Z)
    : res overlayBlockDevice :=
  let maxDirty := default defaultBlockOverlayLimit max_dirty_bytes in
  let chunkSize := default defaultBlockOverlayChunk chunk_size in
  let traceOperations := default 0 trace_operations in
  let! overlay := newOverlayBlockDevice base maxDirty chunkSize in
  guard! (Errorf "overlay: trace_operations must be between 0 and 65536")
    when (traceOperations <? 0) || (65536 <? traceOperations) in
  Ok (set_trace overlay traceOperations).

(** ** Contents and invariant *)

#[local] Ltac Zify.zify_post_hook ::= Z.to_euclidean_division_equations.

(** The length of chunk [index] of a device of [size] bytes. *)
Definition clen (chunkSize size index : Z) : Z := Z.min chunkSize (size - index * chunkSize).

Lemma chunkLength_clen d index : chunkLength d index = clen (ov_chunkSize d) (ov_size d) index.
Proof. unfold chunkLength, clen. case_match; lia. Qed.

(** The disk a base with content [f] and the dirty chunks [lookup] present. *)
Definition chunk_view (f : Z -> byte) (chunkSize : Z) (lookup : Z -> option bytes) (i : Z) : byte :=
  match lookup (i / chunkSize) with
  | Some data => nthb data (i mod chunkSize)
  | None => f i
  end.

Definition ov_lookup d (index : Z) : option bytes := ch_data <$> ov_chunks d !! index.
Definition ov_view (f : Z -> byte) d : Z -> byte := chunk_view f (ov_chunkSize d) (ov_lookup d).

Lemma div_same_chunk cs i index : 0 < cs -> index * cs <= i < index * cs + cs -> i / cs = index.
Proof. intros. nia. Qed.

Lemma clen_pos cs size off :
  0 < cs -> 0 <= off < size -> off mod cs < clen cs size (off / cs) <= cs.
Proof. intros. unfold clen. nia. Qed.

Lemma chunk_read_loop_spec fuel base f cs len_of lookup guarded n off acc :
  DeviceOK base f -> 0 < cs ->
  (forall index, len_of index = clen cs (dev_Size base) index) ->
  (forall index data, lookup index = Some data -> zlen data = clen cs (dev_Size base) index) ->
  0 <= off -> off + n <= dev_Size base -> zlen acc <= n -> n - zlen acc <= Z.of_nat fuel ->
  chunk_read_loop fuel base cs len_of lookup guarded n off acc =
    (acc ++ range (chunk_view f cs lookup) (off + zlen acc) (n - zlen acc), None).
Proof.
  intros Hb Hcs Hlen Hdata Ho Hs. revert acc. induction fuel as [|fuel IH]; intros acc Hacc Hf.
  all: cbn [chunk_read_loop]; destruct (Z.ltb_spec (zlen acc) n).
  1: lia.
  1,3: by rewrite range_nil, app_nil_r by lia.
  pose proof (zlen_nonneg acc). set (pos := off + zlen acc).
  pose proof (clen_pos cs (dev_Size base) pos Hcs ltac:(lia)) as Hc.
  rewrite Hlen. set (len := clen cs (dev_Size base) (pos / cs)) in *.
  set (count := if _ <? _ then _ else _).
  assert (Hcount : 0 < count <= n - zlen acc /\ pos mod cs + count <= len)
    by (unfold count; case_match; lia).
  replace (guarded && (count <=? 0)) with false by (destruct guarded; simpl; lia).
  assert (Hdiv : forall i, pos <= i < pos + count -> i / cs = pos / cs)
    by (intros; apply div_same_chunk; [done|nia]).
  assert (Hgoal : forall piece, piece = range (chunk_view f cs lookup) pos count ->
    chunk_read_loop fuel base cs len_of lookup guarded n off (acc ++ piece)
    = (acc ++ range (chunk_view f cs lookup) pos (n - zlen acc), None)).
  { intros piece ->. rewrite IH; rewrite zlen_app, zlen_range by lia; [|lia|lia].
    rewrite <- app_assoc. do 2 f_equal.
    replace (off + (zlen acc + count)) with (pos + count) by lia.
    rewrite <- range_add by lia. f_equal. lia. }
  destruct (lookup (pos / cs)) as [data|] eqn:El.
  - apply Hgoal. rewrite slice_range by (rewrite ?(Hdata _ _ El); fold len; nia).
    apply range_shift. intros i Hi. unfold chunk_view. rewrite Hdiv, El by lia. f_equal.
    pose proof (Hdiv (pos + i) ltac:(lia)). nia.
  - rewrite (ReadFullAt_device base f) by (done || lia). apply Hgoal.
    apply range_ext. intros i Hi. unfold chunk_view. by rewrite Hdiv, El.
Qed.

(** The number of bytes the chunks hold. *)
Definition chunk_bytes (m : gmap Z overlayChunk) : Z :=
  map_fold (fun _ c acc => zlen (ch_data c) + acc) 0 m.

Definition chunk_at (m : gmap Z overlayChunk) (index : Z) : Z :=
  match m !! index with Some c => zlen (ch_data c) | None => 0 end.

Lemma chunk_bytes_delete m index :
  chunk_bytes m = chunk_at m index + chunk_bytes (delete index m).
Proof.
  unfold chunk_at. destruct (m !! index) as [c|] eqn:E.
  - unfold chunk_bytes. rewrite <- (insert_delete_id m index c E) at 1.
    rewrite map_fold_insert_L; [done| |apply lookup_delete_eq]. intros. lia.
  - by rewrite delete_id.
Qed.

Lemma chunk_bytes_insert m index c :
  chunk_bytes (<[index := c]> m) = zlen (ch_data c) - chunk_at m index + chunk_bytes m.
Proof.
  rewrite (chunk_bytes_delete (<[index:=c]> m) index), (chunk_bytes_delete m index).
  rewrite delete_insert_eq. unfold chunk_at at 1. rewrite lookup_insert_eq. lia.
Qed.

Lemma chunk_bytes_empty : chunk_bytes ∅ = 0.
Proof. apply map_fold_empty. Qed.

(** A well-formed overlay over a base with content [f]. *)
Record overlay_inv (f : Z -> byte) d : Prop := {
  oi_base : DeviceOK (ov_base d) f;
  oi_chunk : 0 < ov_chunkSize d <= ov_maxDirty d;
  oi_keys : forall index c, ov_chunks d !! index = Some c ->
    0 <= index /\ index * ov_chunkSize d < ov_size d /\
    zlen (ch_data c) = clen (ov_chunkSize d) (ov_size d) index;
  oi_dirty : ov_dirtyBytes d = chunk_bytes (ov_chunks d);
  oi_max : ov_dirtyBytes d <= ov_maxDirty d;
  oi_trace : 0 <= ov_traceLimit d /\ zlen (ov_trace d) <= ov_traceLimit d;
}.

(** ** Staging an update *)

Lemma make_copy_id n src : zlen src = n -> make_copy n src = src.
Proof.
  intros <-. unfold make_copy. rewrite slice_all by lia. unfold zeros.
  replace (zlen src - zlen src) with 0 by lia. simpl. apply app_nil_r.
Qed.

Lemma slice_zeros off n len :
  0 <= off -> 0 <= n -> off + n <= len -> slice off n (zeros len) = zeros n.
Proof.
  intros. apply bytes_ext; rewrite zlen_slice by (rewrite ?zlen_zeros; lia).
  - by rewrite zlen_zeros.
  - intros i Hi. rewrite nthb_slice by (rewrite ?zlen_zeros; lia). by rewrite !nthb_zeros.
Qed.

Section Stage.
Context (f : Z -> byte) d (off : Z) (p : bytes).
Hypothesis Hinv : overlay_inv f d.
Hypothesis Hoff : 0 <= off.
Hypothesis Hlen : 0 < zlen p.
Hypothesis Hend : off + zlen p <= ov_size d.

Let cs := ov_chunkSize d.
Let g := ov_view f d.

(** [index] is one of the chunks the update touches. *)
Definition touched (index : Z) : Prop := off / cs <= index <= (off + zlen p - 1) / cs.

Lemma touched_bounds index :
  touched index ->
  0 <= index /\ index * cs < off + zlen p /\ off < index * cs + cs /\
  0 < clen cs (ov_size d) index <= cs.
Proof.
  unfold touched. intros Ht. pose proof (oi_chunk _ _ Hinv) as Hcs. fold cs in Hcs. unfold clen.
  assert (0 <= index) by nia. assert (index * cs < off + zlen p) by nia.
  split_and!; try done; nia.
Qed.

(** What a staged update of chunk [index] must be. *)
Definition staged (index : Z) (u : update) (delta : Z) : Prop :=
  delta = match up_chunk u with Some c => zlen (ch_data c) | None => 0 end
          - chunk_at (ov_chunks d) index /\
  (forall c, up_chunk u = Some c -> zlen (ch_data c) = clen cs (ov_size d) index) /\
  (forall i, index * cs <= i < index * cs + clen cs (ov_size d) index ->
     upd g off p i = match up_chunk u with
                     | Some c => nthb (ch_data c) (i mod cs)
                     | None => f i
                     end).

(** The chunk before the change. *)
Definition old_chunk (index : Z) : bytes := range g (index * cs) (clen cs (ov_size d) index).

Lemma old_chunk_dirty index c :
  touched index -> ov_chunks d !! index = Some c -> ch_data c = old_chunk index.
Proof.
  intros Ht Hc. pose proof (touched_bounds _ Ht) as (H1 & H2 & H3 & H4).
  destruct (oi_keys _ _ Hinv _ _ Hc) as (_ & _ & Hl). fold cs in Hl.
  apply bytes_ext; unfold old_chunk; rewrite Hl; [by rewrite zlen_range by lia|].
  intros i Hi. rewrite nthb_range by lia. unfold g, ov_view, chunk_view. fold cs.
  assert (E : (index * cs + i) / cs = index) by (apply div_same_chunk; lia).
  rewrite E. unfold ov_lookup. rewrite Hc. simpl. f_equal. nia.
Qed.

Lemma read_base_chunk index :
  touched index ->
  ReadFullAt (dev_ReadAt (ov_base d)) (clen cs (ov_size d) index) (index * cs)
  = (range f (index * cs) (clen cs (ov_size d) index), None).
Proof.
  intros Ht. pose proof (touched_bounds _ Ht) as (H1 & H2 & H3 & H4).
  apply ReadFullAt_device; [apply (oi_base _ _ Hinv)|nia|lia|].
  fold (ov_size d). unfold clen. lia.
Qed.

Lemma old_chunk_clean index :
  touched index -> ov_chunks d !! index = None ->
  range f (index * cs) (clen cs (ov_size d) index) = old_chunk index.
Proof.
  intros Ht Hc. pose proof (touched_bounds _ Ht) as (H1 & H2 & H3 & H4).
  apply range_ext. intros i Hi. unfold g, ov_view, chunk_view. fold cs.
  rewrite (div_same_chunk cs i index) by lia. unfold ov_lookup. by rewrite Hc.
Qed.

(** The changed chunk holds the changed disk. *)
Lemma new_chunk index :
  touched index ->
  let start := Z.max off (index * cs) in
  let finish := Z.min (off + zlen p) (index * cs + clen cs (ov_size d) index) in
  let new := splice (old_chunk index) (start - index * cs) (slice (start - off) (finish - start) p) in
  new = range (upd g off p) (index * cs) (clen cs (ov_size d) index).
Proof.
  intros Ht start finish new. pose proof (touched_bounds _ Ht) as (H1 & H2 & H3 & H4).
  set (len := clen cs (ov_size d) index) in *.
  assert (Hsf : start <= finish) by (unfold start, finish, len, clen; lia).
  assert (Hold : zlen (old_chunk index) = len) by (apply zlen_range; lia).
  assert (Hpl : zlen (slice (start - off) (finish - start) p) = finish - start)
    by (apply zlen_slice; lia).
  assert (Hnew : zlen new = len) by (unfold new; rewrite zlen_splice; lia).
  apply bytes_ext; rewrite Hnew; [by rewrite zlen_range by lia|].
  intros i Hi. rewrite nthb_range by lia. unfold new. rewrite nthb_splice by lia.
  unfold upd. rewrite Hpl. unfold old_chunk. rewrite nthb_range by (fold len; lia).
  destruct (_ && _) eqn:E1, (_ && _) eqn:E2 in |- *; try lia.
  rewrite nthb_slice by lia. f_equal. lia.
Qed.

Lemma stage_chunk_spec index :
  touched index ->
  exists u delta, stage_chunk d off (zlen p) (Some p) index = Ok (u, delta) /\ staged index u delta.
Proof.
  intros Ht. pose proof (touched_bounds _ Ht) as (H1 & H2 & H3 & H4).
  unfold stage_chunk. rewrite chunkLength_clen. fold cs.
  rewrite (read_base_chunk _ Ht). cbn [res_bind].
  pose proof (new_chunk _ Ht) as Hn. cbn zeta in Hn. pose proof (old_chunk_clean _ Ht) as Hclean.
  set (len := clen cs (ov_size d) index) in *.
  set (new := range (upd g off p) (index * cs) len).
  assert (Hnl : zlen new = len) by (apply zlen_range; lia).
  assert (Hnew : forall i, index * cs <= i < index * cs + len -> nthb new (i mod cs) = upd g off p i).
  { intros i Hi. unfold new. pose proof (div_same_chunk cs i index).
    rewrite nthb_range by nia. f_equal. nia. }
  assert (Hsame : forall i, index * cs <= i < index * cs + len ->
    new = range f (index * cs) len -> upd g off p i = f i).
  { intros i Hi E. rewrite <- Hnew, E, nthb_range by (pose proof (div_same_chunk cs i index); nia).
    f_equal. pose proof (div_same_chunk cs i index). nia. }
  destruct (ov_chunks d !! index) as [c|] eqn:Hc; cbn [res_bind].
  - assert (Hca : chunk_at (ov_chunks d) index = len).
    { unfold chunk_at. rewrite Hc. by destruct (oi_keys _ _ Hinv _ _ Hc) as (_ & _ & ->). }
    rewrite make_copy_id by (by destruct (oi_keys _ _ Hinv _ _ Hc) as (_ & _ & ->)).
    rewrite (old_chunk_dirty _ _ Ht Hc), Hn. fold new.
    rewrite bool_decide_eq_true_2 by eauto. simpl negb. cbn [orb].
    destruct (_ =? len); cbn [res_bind]; [case_bool_decide as E|]; eexists _, _; (split; [done|]);
      (split; [simpl; lia|]); split; simpl; try done; intros; try (naive_solver lia); by apply Hsame.
  - assert (Hca : chunk_at (ov_chunks d) index = 0) by (unfold chunk_at; by rewrite Hc).
    rewrite Hclean, Hn, <- Hclean by done. fold new.
    rewrite bool_decide_eq_false_2 by (intros [? ?]; done). simpl negb. cbn [orb res_bind].
    case_bool_decide as E; eexists _, _; (split; [done|]);
      (split; [simpl; lia|]); split; simpl; try done; intros; try (naive_solver lia); by apply Hsame.
Qed.
End Stage.

Definition staged_update f d off p (iu : Z * update) : Prop :=
  exists delta, staged f d off p (fst iu) (snd iu) delta.

Definition update_bytes (u : update) : Z :=
  match up_chunk u with Some c => zlen (ch_data c) | None => 0 end.

Definition updates_delta (m : gmap Z overlayChunk) (ups : list (Z * update)) : Z :=
  foldr (fun iu acc => update_bytes (snd iu) - chunk_at m (fst iu) + acc) 0 ups.

(** All chunks are staged, in order. *)
Lemma stage_chunks_spec f d off p indices acc dirty :
  overlay_inv f d -> 0 <= off -> 0 < zlen p -> off + zlen p <= ov_size d ->
  Forall (touched d off p) indices ->
  exists ups, stage_chunks d off (zlen p) (Some p) indices acc dirty
              = Ok (acc ++ ups, dirty + updates_delta (ov_chunks d) ups) /\
              ups.*1 = indices /\ Forall (staged_update f d off p) ups.
Proof.
  intros Hinv Ho Hl He Ht. revert acc dirty.
  induction Ht as [|index indices Hi _ IH]; intros acc dirty; simpl.
  { exists []. rewrite app_nil_r, Z.add_0_r. auto. }
  destruct (stage_chunk_spec f d off p Hinv Ho Hl He index Hi) as (u & delta & -> & Hs).
  simpl. destruct (IH (acc ++ [(index, u)]) (dirty + delta)) as (ups & -> & Hk & Hups).
  exists ((index, u) :: ups). rewrite <- app_assoc. simpl.
  destruct Hs as [Hd Hs]. unfold update_bytes. simpl. rewrite <- Hd.
  split; [do 2 f_equal; lia|]. split; [by f_equal|]. constructor; [|done].
  exists delta. by split.
Qed.

Lemma apply_update_lookup m cow index u j :
  fst (apply_update (m, cow) (index, u)) !! j = if decide (j = index) then up_chunk u else m !! j.
Proof.
  unfold apply_update. destruct (up_chunk u); simpl; case_decide; simplify_map_eq; done.
Qed.

Lemma apply_update_bytes m cow index u :
  chunk_bytes (fst (apply_update (m, cow) (index, u)))
  = chunk_bytes m + (update_bytes u - chunk_at m index).
Proof.
  unfold apply_update, update_bytes. destruct (up_chunk u); simpl.
  - rewrite chunk_bytes_insert. lia.
  - rewrite (chunk_bytes_delete m index). lia.
Qed.

Lemma updates_delta_ext m m' ups :
  (forall index, index ∈ ups.*1 -> m !! index = m' !! index) ->
  updates_delta m ups = updates_delta m' ups.
Proof.
  induction ups as [|[index u] ups IH]; intros H; [done|]. rewrite fmap_cons in H. simpl.
  rewrite IH by (intros; apply H; set_solver).
  unfold chunk_at. simpl. rewrite H by set_solver. done.
Qed.

(** Publishing distinct chunks: those change, the others stay. *)
Lemma apply_updates_spec ups m cow :
  NoDup ups.*1 ->
  let m' := fst (foldl apply_update (m, cow) ups) in
  (forall index u, (index, u) ∈ ups -> m' !! index = up_chunk u) /\
  (forall index, index ∉ ups.*1 -> m' !! index = m !! index) /\
  chunk_bytes m' = chunk_bytes m + updates_delta m ups.
Proof.
  revert m cow. induction ups as [|[index u] ups IH]; intros m cow Hnd.
  { split_and!; simpl; try lia; set_solver. }
  rewrite fmap_cons in *. cbn [foldl foldr updates_delta fst snd] in *. apply NoDup_cons in Hnd as [Hnin Hnd].
  pose proof (apply_update_lookup m cow index u) as Hl.
  pose proof (apply_update_bytes m cow index u) as Hb.
  destruct (apply_update (m, cow) (index, u)) as [m1 cow1]. simpl in Hl, Hb.
  destruct (IH m1 cow1 Hnd) as (H1 & H2 & H3). split_and!.
  - intros j v [[= -> ->]|Hin]%elem_of_cons; [|by apply H1].
    rewrite H2, Hl by done. by rewrite decide_True.
  - intros j Hj. apply not_elem_of_cons in Hj as [Hj1 Hj2]. rewrite H2, Hl by done.
    by rewrite decide_False.
  - fold (updates_delta m ups). rewrite H3, Hb, (updates_delta_ext m1 m).
    + lia.
    + intros j Hj. rewrite Hl, decide_False; [done|]. intros ->. done.
Qed.

(** [d'] differs from [d] in its chunks only, and presents the disk of [d]
    with [p] written at [off]. *)
Record overlay_update f d off p d' : Prop := {
  ou_inv : overlay_inv f d';
  ou_base : ov_base d' = ov_base d;
  ou_chunkSize : ov_chunkSize d' = ov_chunkSize d;
  ou_maxDirty : ov_maxDirty d' = ov_maxDirty d;
  ou_sealed : ov_sealed d' = ov_sealed d;
  ou_leases : ov_leases d' = ov_leases d;
  ou_view : forall i, 0 <= i < ov_size d -> ov_view f d' i = upd (ov_view f d) off p i;
}.

Lemma touched_indices d off p :
  Forall (touched d off p)
    (seqZ (off / ov_chunkSize d)
       ((off + zlen p - 1) / ov_chunkSize d - off / ov_chunkSize d + 1)).
Proof. apply Forall_forall. intros i Hi%elem_of_seqZ. unfold touched. lia. Qed.

(** Distinct chunks of a disk hold no more bytes than the disk. *)
Lemma chunk_bytes_bound cs size n m :
  0 < cs -> 0 <= size ->
  (forall index c, m !! index = Some c ->
     0 <= index < Z.of_nat n /\ index * cs < size /\ zlen (ch_data c) = clen cs size index) ->
  chunk_bytes m <= Z.min size (Z.of_nat n * cs).
Proof.
  intros Hcs Hsz. revert m. induction n as [|n IH]; intros m Hm.
  { assert (m = ∅) as ->; [|rewrite chunk_bytes_empty; lia].
    apply map_empty. intros index. destruct (m !! index) eqn:E; [|done].
    destruct (Hm _ _ E). lia. }
  rewrite (chunk_bytes_delete m (Z.of_nat n)).
  assert (chunk_bytes (delete (Z.of_nat n) m) <= Z.min size (Z.of_nat n * cs)).
  { apply IH. intros index c [Hne E]%lookup_delete_Some. destruct (Hm _ _ E) as (? & ? & ?).
    split_and!; try done; lia. }
  unfold chunk_at. destruct (m !! Z.of_nat n) as [c|] eqn:E; [|nia].
  destruct (Hm _ _ E) as (_ & ? & ->). unfold clen. nia.
Qed.

Lemma overlay_bytes_bound f d : overlay_inv f d -> chunk_bytes (ov_chunks d) <= ov_size d.
Proof.
  intros [Hb Hc Hk _ _ _]. pose proof (dev_size_ok (DeviceOK := Hb)) as Hs. fold (ov_size d) in Hs.
  transitivity (Z.min (ov_size d) (Z.of_nat (Z.to_nat (ov_size d)) * ov_chunkSize d)); [|lia].
  apply chunk_bytes_bound; [lia|lia|]. intros index c E. destruct (Hk _ _ E) as (? & ? & ->).
  split_and!; try done; nia.
Qed.

(** The chunks after an update. *)
Lemma updated_chunks f d off p ups (m : gmap Z overlayChunk) :
  overlay_inv f d -> 0 <= off -> 0 < zlen p -> off + zlen p <= ov_size d ->
  Forall (touched d off p) ups.*1 -> Forall (staged_update f d off p) ups ->
  (forall index u, (index, u) ∈ ups -> m !! index = up_chunk u) ->
  (forall index, index ∉ ups.*1 -> m !! index = ov_chunks d !! index) ->
  forall index c, m !! index = Some c ->
    0 <= index /\ index * ov_chunkSize d < ov_size d /\
    zlen (ch_data c) = clen (ov_chunkSize d) (ov_size d) index.
Proof.
  intros Hinv Ho Hl He Ht Hst Hin Hout index c Hc.
  destruct (decide (index ∈ ups.*1)) as [Hi|Hi]; cycle 1.
  { rewrite Hout in Hc by done. by apply (oi_keys _ _ Hinv). }
  apply list_elem_of_fmap in Hi as ([j u] & -> & Hi). simpl in *.
  rewrite Forall_forall in Ht. rewrite Forall_forall in Hst.
  destruct (Hst _ Hi) as (delta & _ & Hlen & _). simpl in *.
  pose proof (touched_bounds f d off p Hinv Ho Hl He j
    (Ht j (list_elem_of_fmap_2 fst _ _ Hi))) as (? & ? & _ & _).
  rewrite (Hin _ _ Hi) in Hc. split_and!; [done|lia|by apply Hlen].
Qed.

Lemma updated_view f d d' off p ups :
  overlay_inv f d -> 0 <= off -> 0 < zlen p -> off + zlen p <= ov_size d ->
  ups.*1 = seqZ (off / ov_chunkSize d)
             ((off + zlen p - 1) / ov_chunkSize d - off / ov_chunkSize d + 1) ->
  Forall (staged_update f d off p) ups -> ov_chunkSize d' = ov_chunkSize d ->
  (forall index u, (index, u) ∈ ups -> ov_chunks d' !! index = up_chunk u) ->
  (forall index, index ∉ ups.*1 -> ov_chunks d' !! index = ov_chunks d !! index) ->
  forall i, 0 <= i < ov_size d -> ov_view f d' i = upd (ov_view f d) off p i.
Proof.
  intros Hinv Ho Hl He Hk Hst Hcs Hin Hout i Hi. pose proof (oi_chunk _ _ Hinv) as Hc.
  set (index := i / ov_chunkSize d).
  unfold ov_view at 1, chunk_view, ov_lookup. rewrite Hcs. fold index.
  destruct (decide (index ∈ ups.*1)) as [Hx|Hx].
  - apply list_elem_of_fmap in Hx as ([j u] & Ej & Hx). simpl in Ej. subst j.
    rewrite Forall_forall in Hst. destruct (Hst _ Hx) as (delta & _ & _ & Hv). simpl in Hv.
    rewrite (Hin _ _ Hx), (Hv i) by (unfold clen, index; nia). by destruct (up_chunk u).
  - rewrite Hout by done. rewrite upd_out; [done|].
    rewrite Hk, elem_of_seqZ in Hx. unfold index in *. nia.
Qed.

(** [updateLocked] changes exactly the range, or nothing when the overlay
    would outgrow its limit. *)
Lemma updateLocked_spec f d off p :
  overlay_inv f d -> 0 <= off -> 0 < zlen p -> off + zlen p <= ov_size d ->
  (exists d', updateLocked d off (zlen p) (Some p) = (d', None) /\ overlay_update f d off p d') \/
  (exists r, updateLocked d off (zlen p) (Some p)
             = (d, Some (BlockCapacityError (ov_maxDirty d) (ov_dirtyBytes d) r)) /\
             ov_maxDirty d < ov_dirtyBytes d + r /\ ov_maxDirty d < ov_size d).
Proof.
  intros Hinv Ho Hl He. unfold updateLocked.
  destruct (stage_chunks_spec f d off p _ [] (ov_dirtyBytes d) Hinv Ho Hl He (touched_indices d off p))
    as (ups & -> & Hk & Hst). simpl app.
  assert (Hnd : NoDup ups.*1) by (rewrite Hk; apply NoDup_seqZ).
  destruct (apply_updates_spec ups (ov_chunks d) (ov_cowBytes d) Hnd) as (H1 & H2 & H3).
  assert (Ht : Forall (touched d off p) ups.*1) by (rewrite Hk; apply touched_indices).
  pose proof (updated_chunks f d off p ups _ Hinv Ho Hl He Ht Hst H1 H2) as Hkeys.
  set (dirty := ov_dirtyBytes d + updates_delta (ov_chunks d) ups) in *.
  destruct (foldl apply_update (ov_chunks d, ov_cowBytes d) ups) as [m cow]. simpl in *.
  destruct Hinv as [Hb Hc Hk0 Hd Hm Htr] eqn:Einv. rewrite <- Hd in H3. fold dirty in H3.
  destruct (Z.ltb_spec (ov_maxDirty d) dirty).
  - right. exists (updates_delta (ov_chunks d) ups). split; [do 3 f_equal; unfold dirty; lia|].
    split; [unfold dirty in *; lia|].
    pose proof (dev_size_ok (DeviceOK := Hb)) as Hs. fold (ov_size d) in Hs.
    enough (chunk_bytes m <= Z.min (ov_size d) (Z.of_nat (Z.to_nat (ov_size d)) * ov_chunkSize d)) by lia.
    apply chunk_bytes_bound; [lia|lia|]. intros index c E.
    destruct (Hkeys _ _ E) as (? & ? & ->). split_and!; try done; nia.
  - left. eexists. split; [done|]. split; try done.
    by apply (updated_view f d _ off p ups).
Qed.

(** Zeroing is writing zeros. *)
Lemma stage_chunk_zero f d off len index :
  overlay_inv f d -> 0 <= off -> 0 < len -> off + len <= ov_size d -> touched d off (zeros len) index ->
  stage_chunk d off len None index = stage_chunk d off len (Some (zeros len)) index.
Proof.
  intros Hinv Ho Hl He Ht. assert (Hz : zlen (zeros len) = len) by (apply zlen_zeros; lia).
  destruct (touched_bounds f d off (zeros len) Hinv Ho ltac:(lia) ltac:(lia) index Ht)
    as (? & ? & ? & ?). rewrite Hz in *. unfold stage_chunk. rewrite slice_zeros; [done|lia..| |].
  all: rewrite chunkLength_clen; unfold clen in *; lia.
Qed.

Lemma updateLocked_zero f d off len :
  overlay_inv f d -> 0 <= off -> 0 < len -> off + len <= ov_size d ->
  updateLocked d off len None = updateLocked d off len (Some (zeros len)).
Proof.
  intros Hinv Ho Hl He. unfold updateLocked.
  assert (Ht := touched_indices d off (zeros len)). rewrite zlen_zeros in Ht by lia.
  match goal with |- context [stage_chunks d off len None ?l [] ?b] =>
    assert (Heq : forall acc dirty, stage_chunks d off len None l acc dirty
                  = stage_chunks d off len (Some (zeros len)) l acc dirty) end.
  { induction Ht as [|index indices Hi _ IH]; intros acc dirty; simpl; [done|].
    rewrite (stage_chunk_zero f) by done.
    destruct (stage_chunk _ _ _ _ _) as [[u delta]|e]; simpl; [apply IH|done]. }
  by rewrite Heq.
Qed.

(** Bookkeeping does not change the disk. *)
Record same_disk d d' : Prop := {
  sd_base : ov_base d' = ov_base d;
  sd_max : ov_maxDirty d' = ov_maxDirty d;
  sd_chunkSize : ov_chunkSize d' = ov_chunkSize d;
  sd_chunks : ov_chunks d' = ov_chunks d;
  sd_dirty : ov_dirtyBytes d' = ov_dirtyBytes d;
  sd_trace : zlen (ov_trace d) <= ov_traceLimit d -> zlen (ov_trace d') <= ov_traceLimit d';
  sd_limit : ov_traceLimit d' = ov_traceLimit d;
}.

Lemma same_disk_inv f d d' : same_disk d d' -> overlay_inv f d -> overlay_inv f d'.
Proof.
  intros [H1 H2 H3 H4 H5 H6 H7] [I1 I2 I3 I4 I5 [I6 I7]].
  split; unfold ov_size; rewrite ?H1, ?H2, ?H3, ?H4, ?H5; try done.
  split; [by rewrite H7|by apply H6].
Qed.

Lemma same_disk_view f d d' : same_disk d d' -> ov_view f d' = ov_view f d.
Proof. intros H. unfold ov_view, ov_lookup. by destruct H as [_ _ -> -> _ _]. Qed.

Lemma same_disk_record d kind off len :
  0 <= ov_traceLimit d -> same_disk d (recordOperation d kind off len).
Proof.
  intros Hl. unfold recordOperation. destruct (Z.eqb_spec (ov_traceLimit d) 0); [by split|].
  split; simpl; try done. intros Ht. destruct (Z.ltb_spec (zlen (ov_trace d)) (ov_traceLimit d)).
  - rewrite zlen_app, zlen_cons, zlen_nil. lia.
  - rewrite zlen_app, zlen_cons, zlen_nil. unfold zlen in *. rewrite length_drop. lia.
Qed.

Lemma same_disk_trans d1 d2 d3 : same_disk d1 d2 -> same_disk d2 d3 -> same_disk d1 d3.
Proof. intros [] []. split; try congruence. auto. Qed.

Lemma same_disk_add_read d n : same_disk d (add_read d n).
Proof. by split. Qed.
Lemma same_disk_add_write d n : same_disk d (add_write d n).
Proof. by split. Qed.
Lemma same_disk_leases d leases sealed : same_disk d (set_leases d leases sealed).
Proof. by split. Qed.

Lemma recordOperation_control d kind off len :
  ov_sealed (recordOperation d kind off len) = ov_sealed d /\
  ov_leases (recordOperation d kind off len) = ov_leases d.
Proof. unfold recordOperation. by case_match. Qed.

#[export] Hint Resolve same_disk_add_read same_disk_add_write same_disk_leases : trex.

(** ** Executions *)

Inductive overlay_op : Type :=
  | VRead (n : nat) (off : Z)
  | VWrite (p : bytes) (off : Z)
  | VZero (off len : Z)
  | VFlush
  | VAcquire
  | VRelease (k : nat)
  | VCommit
  | VSnapshot
  | VReadSnapshot (k n : nat) (off : Z).

Inductive overlay_out : Type :=
  | VBytes (b : bytes) (e : option error)
  | VCount (n : Z) (e : option error)
  | VDone (e : option error).

(** An overlay with the leases and the snapshots it has handed out. *)
Record overlay_sys := MkSys {
  sys_dev : overlayBlockDevice;
  sys_leases : list bool;
  sys_snaps : list overlaySnapshotBlockDevice;
}.

(** A lease or a snapshot that was never handed out cannot be used. *)
Definition overlay_step (s : overlay_sys) (op : overlay_op) : overlay_sys * overlay_out :=
  let d := sys_dev s in
  let with_dev d := MkSys d (sys_leases s) (sys_snaps s) in
  match op with
  | VRead n off => let '(d', b, e) := overlay_ReadAt d (Z.of_nat n) off in (with_dev d', VBytes b e)
  | VWrite p off => let '(d', n, e) := overlay_WriteAt d p off in (with_dev d', VCount n e)
  | VZero off len => let '(d', e) := overlay_ZeroAt d off len in (with_dev d', VDone e)
  | VFlush => let '(d', e) := overlay_Flush d in (with_dev d', VDone e)
  | VAcquire =>
      match overlay_Acquire d with
      | (d', Ok once) => (MkSys d' (sys_leases s ++ [once]) (sys_snaps s), VDone None)
      | (d', Err e) => (with_dev d', VDone (Some e))
      end
  | VRelease k =>
      match sys_leases s !! k with
      | Some once =>
          let '(d', once') := overlay_release d once in
          (MkSys d' (<[k := once']> (sys_leases s)) (sys_snaps s), VDone None)
      | None => (s, VDone None)
      end
  | VCommit => let '(d', e) := overlay_Commit d in (with_dev d', VDone e)
  | VSnapshot =>
      match overlay_Snapshot d with
      | (d', Ok sn) => (MkSys d' (sys_leases s) (sys_snaps s ++ [sn]), VDone None)
      | (d', Err e) => (with_dev d', VDone (Some e))
      end
  | VReadSnapshot k n off =>
      match sys_snaps s !! k with
      | Some sn => let '(b, e) := snapshot_ReadAt sn (Z.of_nat n) off in (s, VBytes b e)
      | None => (s, VDone None)
      end
  end.

Fixpoint overlay_run (s : overlay_sys) (ops : list overlay_op) : overlay_sys * list overlay_out :=
  match ops with
  | [] => (s, [])
  | op :: ops =>
      let '(s', o) := overlay_step s op in
      let '(s'', os) := overlay_run s' ops in (s'', o :: os)
  end.

(** ** The specification: a flat disk with leases and frozen copies *)

Record disk_spec := MkSpec {
  sp_disk : Z -> byte;
  sp_sealed : bool;
  sp_leases : list bool;
  sp_snaps : list (Z -> byte);
}.

Definition read_spec (size : Z) (g : Z -> byte) (n : nat) (off : Z) : overlay_out :=
  if (0 <=? off) && (off + Z.of_nat n <=? size) then VBytes (range g off (Z.of_nat n)) None
  else VBytes [] (Some ErrOutOfRange).

Definition sealed_error : error := Errorf "block overlay is sealed".

(** A lease is held until it is released for the first time. *)
Definition held (leases : list bool) : Z := zlen (filter (fun released => released = false) leases).

Definition spec_step (size : Z) (s : disk_spec) (op : overlay_op) : disk_spec * overlay_out :=
  let with_disk g := MkSpec g (sp_sealed s) (sp_leases s) (sp_snaps s) in
  match op with
  | VRead n off => (s, read_spec size (sp_disk s) n off)
  | VWrite p off =>
      if negb ((0 <=? off) && (off + zlen p <=? size)) then (s, VCount 0 (Some ErrOutOfRange))
      else if zlen p =? 0 then (s, VCount 0 None)
      else if sp_sealed s then (s, VCount 0 (Some ErrReadOnly))
      else (with_disk (upd (sp_disk s) off p), VCount (zlen p) None)
  | VZero off len =>
      if negb ((0 <=? off) && (0 <=? len) && (off + len <=? size))
      then (s, VDone (Some ErrOutOfRange))
      else if len =? 0 then (s, VDone None)
      else if sp_sealed s then (s, VDone (Some ErrReadOnly))
      else (with_disk (upd_zero (sp_disk s) off len), VDone None)
  | VFlush => (s, VDone None)
  | VAcquire =>
      if sp_sealed s then (s, VDone (Some sealed_error))
      else (MkSpec (sp_disk s) (sp_sealed s) (sp_leases s ++ [false]) (sp_snaps s), VDone None)
  | VRelease k => (MkSpec (sp_disk s) (sp_sealed s) (<[k := true]> (sp_leases s)) (sp_snaps s), VDone None)
  | VCommit =>
      if negb (held (sp_leases s) =? 0)
      then (s, VDone (Some (Errorf "block overlay has %d active lease(s)")))
      else (MkSpec (sp_disk s) true (sp_leases s) (sp_snaps s), VDone None)
  | VSnapshot =>
      if sp_sealed s then (s, VDone (Some sealed_error))
      else (MkSpec (sp_disk s) (sp_sealed s) (sp_leases s) (sp_snaps s ++ [sp_disk s]), VDone None)
  | VReadSnapshot k n off =>
      match sp_snaps s !! k with
      | Some g => (s, read_spec size g n off)
      | None => (s, VDone None)
      end
  end.

(** The calls that may be refused for lack of room: those that would change
    the disk. *)
Definition refused (op : overlay_op) (e : error) : option overlay_out :=
  match op with
  | VWrite _ _ => Some (VCount 0 (Some e))
  | VZero _ _ => Some (VDone (Some e))
  | _ => None
  end.

Definition out_ok (o : overlay_out) : bool :=
  match o with VBytes _ None | VCount _ None | VDone None => true | _ => false end.

(** The executions the specification allows: a call that would succeed may be
    refused; that leaves everything as it is, and is impossible when the limit
    covers the whole disk. *)
Inductive spec_runs (size max : Z) : disk_spec -> list overlay_op -> list overlay_out -> Prop :=
  | runs_nil s : spec_runs size max s [] []
  | runs_step s op s' o ops os :
      spec_step size s op = (s', o) -> spec_runs size max s' ops os ->
      spec_runs size max s (op :: ops) (o :: os)
  | runs_refused s op a r o ops os :
      max < size -> 0 <= a <= max -> max < a + r -> out_ok (snd (spec_step size s op)) = true ->
      refused op (BlockCapacityError max a r) = Some o -> spec_runs size max s ops os ->
      spec_runs size max s (op :: ops) (o :: os).

Section Overlay_runs.
Context (f : Z -> byte).

(** A snapshot that holds the disk [g]. *)
Definition snapshot_sim (size : Z) (sn : overlaySnapshotBlockDevice) (g : Z -> byte) : Prop :=
  DeviceOK (sn_base sn) f /\ dev_Size (sn_base sn) = size /\ 0 < sn_chunkSize sn /\
  (forall index data, sn_chunks sn !! index = Some data ->
     zlen data = clen (sn_chunkSize sn) size index) /\
  forall i, 0 <= i < size ->
    chunk_view f (sn_chunkSize sn) (fun index => sn_chunks sn !! index) i = g i.

Record overlay_sim (size max : Z) (s : overlay_sys) (t : disk_spec) : Prop := {
  os_inv : overlay_inv f (sys_dev s);
  os_size : ov_size (sys_dev s) = size;
  os_max : ov_maxDirty (sys_dev s) = max;
  os_disk : forall i, 0 <= i < size -> ov_view f (sys_dev s) i = sp_disk t i;
  os_sealed : ov_sealed (sys_dev s) = sp_sealed t;
  os_leases : sys_leases s = sp_leases t;
  os_held : ov_leases (sys_dev s) = held (sp_leases t);
  os_snaps : Forall2 (snapshot_sim size) (sys_snaps s) (sp_snaps t);
}.

Lemma snapshot_read_sim size sn g n off :
  snapshot_sim size sn g ->
  (let '(b, e) := snapshot_ReadAt sn (Z.of_nat n) off in VBytes b e) = read_spec size g n off.
Proof.
  intros (Hb & Hs & Hc & Hd & Hv). unfold snapshot_ReadAt, read_spec.
  rewrite Hs, ValidateRange_dec by lia. destruct (_ && _) eqn:E; [|done].
  rewrite (chunk_read_loop_spec _ _ f).
  - rewrite zlen_nil. simpl. f_equal. rewrite Z.add_0_r, Z.sub_0_r.
    apply range_ext. intros i Hi. apply Hv. lia.
  - done.
  - done.
  - intros index. rewrite Hs. unfold clen. case_match; lia.
  - intros index data Hl. rewrite Hs. by apply Hd.
  - lia.
  - lia.
  - rewrite zlen_nil. lia.
  - rewrite zlen_nil. lia.
Qed.

Lemma overlay_read_spec size d g n off :
  overlay_inv f d -> ov_size d = size -> (forall i, 0 <= i < size -> ov_view f d i = g i) ->
  exists d', overlay_ReadAt d (Z.of_nat n) off
             = (d', fst (match read_spec size g n off with VBytes b e => (b, e) | _ => ([], None) end),
                snd (match read_spec size g n off with VBytes b e => (b, e) | _ => ([], None) end)) /\
             same_disk d d' /\ ov_sealed d' = ov_sealed d /\ ov_leases d' = ov_leases d.
Proof.
  intros Hinv Hs Hv. unfold overlay_ReadAt, read_spec.
  rewrite Hs, ValidateRange_dec by lia. destruct (_ && _) eqn:E; [|by exists d].
  destruct (Z.eqb_spec (Z.of_nat n) 0) as [->|Hn]; [by exists d; rewrite range_nil|].
  destruct Hinv as [Hb Hc Hk Hd Hm [Ht1 Ht2]]. unfold ov_size in Hs.
  rewrite (chunk_read_loop_spec _ _ f);
    [|done|lia|intros; apply chunkLength_clen| |lia|lia|rewrite zlen_nil; lia..].
  - rewrite zlen_nil. simpl app. rewrite Z.add_0_r, Z.sub_0_r. fold (ov_lookup d).
    rewrite (range_ext _ g) by (intros i Hi; apply Hv; lia).
    eexists. split; [done|].
    split; [|apply (recordOperation_control (add_read _ _))].
    eapply same_disk_trans; [apply same_disk_add_read|by apply same_disk_record].
  - intros index data Hl. apply fmap_Some in Hl as (c & Hl & ->).
    by destruct (Hk _ _ Hl) as (_ & _ & ->).
Qed.

(** The simulation survives bookkeeping. *)
Lemma overlay_sim_same size max s t d' :
  overlay_sim size max s t -> same_disk (sys_dev s) d' ->
  ov_sealed d' = ov_sealed (sys_dev s) -> ov_leases d' = ov_leases (sys_dev s) ->
  overlay_sim size max (MkSys d' (sys_leases s) (sys_snaps s)) t.
Proof.
  intros [H1 H2 H3 H4 H5 H6 H7 H8] Hd Hs Hl. split; simpl; try congruence; try done.
  - by eapply same_disk_inv.
  - unfold ov_size in *. by rewrite (sd_base _ _ Hd).
  - by rewrite (sd_max _ _ Hd).
  - intros i Hi. rewrite (same_disk_view f _ _ Hd). by apply H4.
Qed.

(** The simulation after a change of the disk. *)
Lemma overlay_sim_update size max s t off p d1 d' g b :
  overlay_sim size max s t -> b = sp_sealed t -> overlay_update f (sys_dev s) off p d1 ->
  same_disk d1 d' -> ov_sealed d' = ov_sealed d1 -> ov_leases d' = ov_leases d1 ->
  (forall i, 0 <= i < size -> upd (sp_disk t) off p i = g i) ->
  overlay_sim size max (MkSys d' (sys_leases s) (sys_snaps s))
    (MkSpec g b (sp_leases t) (sp_snaps t)).
Proof.
  intros [H1 H2 H3 H4 H5 H6 H7 H8] -> [U1 U2 U3 U4 U5 U6 U7] Hd Hs Hl Hg.
  split; simpl; try congruence; try done.
  - by eapply same_disk_inv.
  - unfold ov_size in *. by rewrite (sd_base _ _ Hd), U2.
  - by rewrite (sd_max _ _ Hd), U4.
  - intros i Hi. rewrite (same_disk_view f _ _ Hd), U7, <- Hg by lia. by apply upd_ext, H4.
Qed.

Lemma held_app leases : held (leases ++ [false]) = held leases + 1.
Proof. unfold held. rewrite filter_app, zlen_app. done. Qed.

Lemma held_release leases (k : nat) (once : bool) :
  leases !! k = Some once ->
  held (<[k := true]> leases) = if once then held leases else held leases - 1.
Proof.
  intros Hk. rewrite insert_take_drop by (by eapply lookup_lt_Some).
  assert (E : held leases = held (take k leases ++ once :: drop (S k) leases))
    by (by rewrite take_drop_middle). rewrite E. unfold held.
  rewrite !filter_app, !filter_cons, !zlen_app.
  destruct once; simpl; rewrite ?zlen_cons; lia.
Qed.

Lemma chunk_bytes_nonneg m : 0 <= chunk_bytes m.
Proof.
  induction m as [|index c m Hm IH] using map_ind; [by rewrite chunk_bytes_empty|].
  rewrite chunk_bytes_insert. unfold chunk_at. rewrite Hm. pose proof (zlen_nonneg (ch_data c)). lia.
Qed.

(** How a step of the overlay matches the specification. *)
Definition step_matches (size max : Z) (t : disk_spec) (op : overlay_op) (s' : overlay_sys)
    (o : overlay_out) : Prop :=
  (exists t', spec_step size t op = (t', o) /\ overlay_sim size max s' t') \/
  (overlay_sim size max s' t /\
   exists a r, max < size /\ 0 <= a <= max /\ max < a + r /\
     out_ok (snd (spec_step size t op)) = true /\ refused op (BlockCapacityError max a r) = Some o).

Lemma overlay_sim_eta size max s t :
  overlay_sim size max s t -> overlay_sim size max (MkSys (sys_dev s) (sys_leases s) (sys_snaps s)) t.
Proof. by destruct s. Qed.

Lemma write_matches size max s t p off :
  overlay_sim size max s t ->
  let '(s', o) := overlay_step s (VWrite p off) in step_matches size max t (VWrite p off) s' o.
Proof.
  intros Hsim. pose proof Hsim as [H1 H2 H3 H4 H5 H6 H7 H8]. pose proof (zlen_nonneg p).
  pose proof (overlay_sim_eta _ _ _ _ Hsim) as Heta.
  unfold overlay_step, overlay_WriteAt, step_matches, spec_step.
  rewrite H2, ValidateRange_dec, <- H5 by lia. destruct (_ && _) eqn:E; simpl; [|by eauto].
  destruct (Z.eqb_spec (zlen p) 0); [by eauto|]. destruct (ov_sealed (sys_dev s)) eqn:Es; [by eauto|].
  destruct (updateLocked_spec f (sys_dev s) off p H1) as [(d1 & -> & Hu)|(r & -> & Hr & Hsz)];
    [lia..| |].
  - left. eexists. split; [done|].
    eapply (overlay_sim_update _ _ s t off p d1); [done|done|done| | | |done];
      [|apply (recordOperation_control (add_write _ _))..].
    eapply same_disk_trans; [apply same_disk_add_write|].
    apply (same_disk_record (add_write _ _)). simpl. apply (oi_trace _ _ (ou_inv _ _ _ _ _ Hu)).
  - right. split; [done|]. exists (ov_dirtyBytes (sys_dev s)), r.
    pose proof (oi_max _ _ H1). pose proof (oi_dirty _ _ H1).
    pose proof (chunk_bytes_nonneg (ov_chunks (sys_dev s))).
    split_and!; try done; try lia. by rewrite H3.
Qed.

Lemma zero_matches size max s t off len :
  overlay_sim size max s t ->
  let '(s', o) := overlay_step s (VZero off len) in step_matches size max t (VZero off len) s' o.
Proof.
  intros Hsim. pose proof Hsim as [H1 H2 H3 H4 H5 H6 H7 H8].
  pose proof (overlay_sim_eta _ _ _ _ Hsim) as Heta.
  unfold overlay_step, overlay_ZeroAt, step_matches, spec_step. rewrite H2, <- H5.
  destruct (_ && _ && _) eqn:E; simpl; cycle 1.
  { destruct (ValidateRange size off len) eqn:Ev; [apply ValidateRange_Some in Ev as ->; by eauto|].
    apply ValidateRange_None in Ev. lia. }
  rewrite (proj2 (ValidateRange_None size off len)) by lia.
  destruct (Z.eqb_spec len 0); [by eauto|]. destruct (ov_sealed (sys_dev s)) eqn:Es; [by eauto|].
  assert (Hz : zlen (zeros len) = len) by (apply zlen_zeros; lia).
  rewrite (updateLocked_zero f) by (done || lia).
  pose proof (updateLocked_spec f (sys_dev s) off (zeros len) H1) as Hup. rewrite Hz in Hup.
  destruct Hup as [(d1 & -> & Hu)|(r & -> & Hr & Hsz)]; [lia..| |].
  - left. eexists. split; [done|].
    eapply (overlay_sim_update _ _ s t off (zeros len) d1); [done|done|done| | | |];
      [|apply (recordOperation_control (add_write _ _))..|intros i Hi; apply upd_zeros; lia].
    eapply same_disk_trans; [apply same_disk_add_write|].
    apply (same_disk_record (add_write _ _)). simpl. apply (oi_trace _ _ (ou_inv _ _ _ _ _ Hu)).
  - right. split; [done|]. exists (ov_dirtyBytes (sys_dev s)), r.
    pose proof (oi_max _ _ H1). pose proof (oi_dirty _ _ H1).
    pose proof (chunk_bytes_nonneg (ov_chunks (sys_dev s))).
    split_and!; try done; try lia. by rewrite H3.
Qed.

Lemma snapshot_matches size max s t :
  overlay_sim size max s t ->
  let '(s', o) := overlay_step s VSnapshot in step_matches size max t VSnapshot s' o.
Proof.
  intros Hsim. pose proof Hsim as [H1 H2 H3 H4 H5 H6 H7 H8].
  pose proof (overlay_sim_eta _ _ _ _ Hsim) as Heta.
  unfold overlay_step, overlay_Snapshot, step_matches, spec_step.
  destruct (ov_sealed (sys_dev s)) eqn:Es; rewrite <- H5; left; [by eauto|].
  eexists. split; [done|]. split; simpl; try congruence; try done.
  - destruct H1 as [I1 I2 I3 I4 I5 I6]. by split.
  - apply Forall2_app; [done|]. constructor; [|done]. destruct H1 as [I1 I2 I3 I4 I5 I6].
    split_and!; simpl; [done|done|lia| |].
    + intros index data. rewrite lookup_fmap. intros (c & Hc & ->)%fmap_Some.
      destruct (I3 _ _ Hc) as (_ & _ & ->). by rewrite H2.
    + intros i Hi. rewrite <- H4 by done. unfold ov_view, chunk_view, ov_lookup. by rewrite lookup_fmap.
Qed.

Lemma control_matches size max s t op :
  overlay_sim size max s t ->
  match op with VFlush | VAcquire | VRelease _ | VCommit => True | _ => False end ->
  let '(s', o) := overlay_step s op in step_matches size max t op s' o.
Proof.
  intros Hsim Hop. pose proof Hsim as [H1 H2 H3 H4 H5 H6 H7 H8].
  pose proof (overlay_sim_eta _ _ _ _ Hsim) as Heta. destruct op; try done; unfold step_matches.
  - left. by exists t.
  - unfold overlay_step, overlay_Acquire, spec_step.
    destruct (ov_sealed (sys_dev s)) eqn:Es; rewrite <- H5; left; [by eauto|].
    eexists. split; [done|]. split; simpl; try done; [by apply (same_disk_inv f (sys_dev s)); auto with trex| |].
    + by rewrite H6.
    + by rewrite held_app, H7.
  - unfold overlay_step, spec_step. destruct (sys_leases s !! k) as [once|] eqn:Ek.
    + assert (Hk : sp_leases t !! k = Some once) by congruence.
      unfold overlay_release. destruct once; left; eexists; (split; [done|]); split; simpl; try done;
        try (by rewrite H6); rewrite ?(held_release _ _ _ Hk); try done.
      * by apply (same_disk_inv f (sys_dev s)); auto with trex.
      * by rewrite H7.
    + left. eexists. split; [done|]. rewrite list_insert_ge; [by destruct t|].
      apply lookup_ge_None. congruence.
  - unfold overlay_step, overlay_Commit, spec_step. rewrite H7. destruct (_ =? 0) eqn:E; simpl; left; eauto.
    eexists. split; [done|]. split; simpl; try done.
    by apply (same_disk_inv f (sys_dev s)); auto with trex.
Qed.

Lemma overlay_step_matches size max s t op :
  overlay_sim size max s t ->
  let '(s', o) := overlay_step s op in step_matches size max t op s' o.
Proof.
  intros Hsim. destruct op as [n off|p off|off len| | |k| | |k n off]; try (by apply control_matches).
  - unfold overlay_step. pose proof Hsim as [H1 H2 H3 H4 H5 H6 H7 H8].
    destruct (overlay_read_spec size (sys_dev s) (sp_disk t) n off) as (d' & -> & Hd & Hs & Hl); [done..|].
    left. exists t. split; [|by apply overlay_sim_same].
    unfold spec_step. f_equal. unfold read_spec. by case_match.
  - by apply write_matches.
  - by apply zero_matches.
  - by apply snapshot_matches.
  - unfold overlay_step, step_matches, spec_step. pose proof (os_snaps _ _ _ _ Hsim) as H8.
    destruct (sys_snaps s !! k) as [sn|] eqn:Ek.
    + destruct (Forall2_lookup_l _ _ _ _ _ H8 Ek) as (g & -> & Hg).
      pose proof (snapshot_read_sim size sn g n off Hg) as Hr.
      destruct (snapshot_ReadAt sn (Z.of_nat n) off) as [b e]. left. exists t. by rewrite Hr.
    + apply lookup_ge_None in Ek. rewrite (Forall2_length _ _ _ H8) in Ek.
      rewrite (proj2 (lookup_ge_None (sp_snaps t) k)) by done. left. by exists t.
Qed.

Lemma overlay_run_matches size max ops : forall s t,
  overlay_sim size max s t ->
  let '(s', os) := overlay_run s ops in
  spec_runs size max t ops os /\ exists t', overlay_sim size max s' t'.
Proof.
  induction ops as [|op ops IH]; intros s t Hsim; simpl; [split; [constructor|eauto]|].
  pose proof (overlay_step_matches size max s t op Hsim) as Hm.
  destruct (overlay_step s op) as [s1 o].
  destruct Hm as [(t' & Ht & Hs)|(Hs & a & r & H1 & H2 & H3 & H4 & H5)].
  - specialize (IH s1 t' Hs). destruct (overlay_run s1 ops) as [s2 os].
    destruct IH as [IH ?]. split; [by econstructor|done].
  - specialize (IH s1 t Hs). destruct (overlay_run s1 ops) as [s2 os].
    destruct IH as [IH ?]. split; [by eapply runs_refused|done].
Qed.

Definition spec_init : disk_spec := MkSpec f false [] [].

Lemma blockOverlayBuiltin_sim base md cs tr d :
  DeviceOK base f -> blockOverlayBuiltin base md cs tr = Ok d ->
  overlay_sim (dev_Size base) (default defaultBlockOverlayLimit md) (MkSys d [] []) spec_init.
Proof.
  intros Hb. unfold blockOverlayBuiltin, newOverlayBlockDevice.
  destruct ((default _ md <=? 0) || _) eqn:E1; [done|].
  destruct (default _ md <? default _ cs) eqn:E2; [done|].
  destruct (_ =? 0) eqn:E3; [done|]. destruct (negb _) eqn:E4; [done|]. simpl.
  destruct ((default 0 tr <? 0) || _) eqn:E5; [done|]. intros [= <-].
  split; simpl; try done. split; simpl; try done.
  all: unfold zlen; simpl; lia.
Qed.
End Overlay_runs.

(** What an overlay keeps: after any sequence of calls the dirty bytes
    it accounts for are the bytes its chunks hold, and are bounded by the
    limit and by the disk; every chunk lies on the disk and has the length of
    its part of the disk; the lease count is the number of leases not yet
    released; the trace holds at most the requested number of operations. *)
Lemma overlay_invariant f base md cs tr d ops :
  DeviceOK base f -> blockOverlayBuiltin base md cs tr = Ok d ->
  let s := fst (overlay_run (MkSys d [] []) ops) in
  ov_dirtyBytes (sys_dev s) = chunk_bytes (ov_chunks (sys_dev s)) /\
  ov_dirtyBytes (sys_dev s) <= Z.min (default defaultBlockOverlayLimit md) (dev_Size base) /\
  (forall index c, ov_chunks (sys_dev s) !! index = Some c ->
     0 <= index /\ 0 < zlen (ch_data c) <= ov_chunkSize (sys_dev s) /\
     index * ov_chunkSize (sys_dev s) + zlen (ch_data c) <= dev_Size base) /\
  ov_leases (sys_dev s) = held (sys_leases s) /\
  zlen (ov_trace (sys_dev s)) <= ov_traceLimit (sys_dev s).
Proof.
  intros Hb Hnew s.
  pose proof (overlay_run_matches f _ _ ops _ _ (blockOverlayBuiltin_sim f base md cs tr d Hb Hnew)) as H.
  unfold s. clear s. destruct (overlay_run _ ops) as [s os]. simpl.
  destruct H as (_ & t & [H1 H2 H3 H4 H5 H6 H7 H8]). pose proof (overlay_bytes_bound _ _ H1).
  destruct H1 as [I1 I2 I3 I4 I5 [I6 I7]]. rewrite <- H2.
  split_and!; try done; try lia; [|congruence].
  intros index c Hc. destruct (I3 _ _ Hc) as (? & ? & ->). unfold clen. lia.
Qed.

(** C6.  The overlay refines a flat disk with leases and frozen copies.  Over
    a base with content [f], the results of any sequence of calls on an
    overlay, its leases and its snapshots are those of a flat array
    initialised with [f]: reads see the latest writes and zeroings; a
    snapshot keeps returning the disk of the moment it was taken, whatever is
    written later; [Commit] succeeds exactly when every lease has been
    released, releasing twice counts once, and from then on every change,
    lease and snapshot is refused.  The only other outcome is that a change is
    refused for lack of room, with nothing changed, and only when the limit is
    smaller than the disk.  Through all of it the dirty bytes accounted for
    are the bytes the chunks hold, bounded by the limit and by the disk; every
    chunk lies on the disk; the lease count is the number of leases not yet
    released; and the trace holds at most the requested number of
    operations. *)
Theorem overlay_refines_disk f base md cs tr d ops :
  DeviceOK base f -> blockOverlayBuiltin base md cs tr = Ok d ->
  let s := fst (overlay_run (MkSys d [] []) ops) in
  spec_runs (dev_Size base) (default defaultBlockOverlayLimit md) (spec_init f) ops
    (snd (overlay_run (MkSys d [] []) ops)) /\
  ov_dirtyBytes (sys_dev s) = chunk_bytes (ov_chunks (sys_dev s)) /\
  ov_dirtyBytes (sys_dev s) <= Z.min (default defaultBlockOverlayLimit md) (dev_Size base) /\
  (forall index c, ov_chunks (sys_dev s) !! index = Some c ->
     0 <= index /\ 0 < zlen (ch_data c) <= ov_chunkSize (sys_dev s) /\
     index * ov_chunkSize (sys_dev s) + zlen (ch_data c) <= dev_Size base) /\
  ov_leases (sys_dev s) = held (sys_leases s) /\
  zlen (ov_trace (sys_dev s)) <= ov_traceLimit (sys_dev s).
Proof.
  intros Hb Hnew s. split; [|by apply (overlay_invariant f base md cs tr)].
  pose proof (overlay_run_matches f _ _ ops _ _ (blockOverlayBuiltin_sim f base md cs tr d Hb Hnew)) as H.
  destruct (overlay_run _ ops) as [s' os]. apply H.
Qed.

(** A run over a small disk: two chunks of two bytes fit, a third does not. *)
Definition demo_device : Device :=
  FileDevice_device mem_file
    {| fd_geometry := MkGeometry 6 2 2 2 2 2; fd_writable := false; fd_flushable := false |}
    [10; 11; 12; 13; 14; 15].

Lemma demo_device_ok : DeviceOK demo_device (nthb [10; 11; 12; 13; 14; 15]).
Proof.
  assert (Hmax : 6 <= MaxInt64) by (vm_compute; discriminate).
  exact (FileDevice_device_ok mem_file 6 (fun s => zlen s = 6) nthb (Hfile := mem_file_ok 6 Hmax)
    {| fd_geometry := MkGeometry 6 2 2 2 2 2; fd_writable := false; fd_flushable := false |}
    [10; 11; 12; 13; 14; 15] eq_refl eq_refl).
Qed.

Definition demo_ops : list overlay_op :=
  [VWrite [1; 2; 3] 1; VSnapshot; VZero 0 2; VWrite [9] 5; VRead 6 0; VReadSnapshot 0 6 0;
   VAcquire; VCommit; VRelease 0; VRelease 0; VCommit; VWrite [7] 0].

Definition demo_outs : list overlay_out :=
  [VCount 3 None; VDone None; VDone None; VCount 0 (Some (BlockCapacityError 4 4 2));
   VBytes [0; 0; 2; 3; 14; 15] None; VBytes [10; 1; 2; 3; 14; 15] None;
   VDone None; VDone (Some (Errorf "block overlay has %d active lease(s)"));
   VDone None; VDone None; VDone None; VCount 0 (Some ErrReadOnly)].

Lemma overlay_refines_disk_witness :
  exists d, blockOverlayBuiltin demo_device (Some 4) (Some 2) (Some 3) = Ok d /\
    snd (overlay_run (MkSys d [] []) demo_ops) = demo_outs /\
    spec_runs 6 4 (spec_init (nthb [10; 11; 12; 13; 14; 15])) demo_ops demo_outs /\
    ov_dirtyBytes (sys_dev (fst (overlay_run (MkSys d [] []) demo_ops))) <= 4.
Proof.
  destruct (blockOverlayBuiltin demo_device (Some 4) (Some 2) (Some 3)) as [d|] eqn:Hnew;
    [|discriminate Hnew].
  exists d. split; [reflexivity|].
  pose proof (overlay_refines_disk (nthb [10; 11; 12; 13; 14; 15]) demo_device
    (Some 4) (Some 2) (Some 3) d demo_ops demo_device_ok Hnew) as (H & _ & Hb & _).
  assert (E : snd (overlay_run (MkSys d [] []) demo_ops) = demo_outs).
  { injection Hnew as <-. vm_compute. reflexivity. }
  rewrite E in H. split; [exact E|]. split; [exact H|exact Hb].
Defined.

(** ** Extent maps are exact *)

(** The extents follow each other from [pos] to [end_]. *)
Fixpoint tiles (pos end_ : Z) (xs : list Extent) : Prop :=
  match xs with
  | [] => pos = end_
  | x :: xs => x_Offset x = pos /\ 0 < x_Length x /\ tiles (pos + x_Length x) end_ xs
  end.

(** No two neighbours could be merged. *)
Fixpoint coalesced (xs : list Extent) : Prop :=
  match xs with
  | x :: ((y :: _) as ys) => x_Allocated x <> x_Allocated y /\ coalesced ys
  | _ => True
  end.

(** Every extent reports the allocation [A] of its bytes. *)
Definition covers (A : Z -> bool) (xs : list Extent) : Prop :=
  Forall (fun x => forall i, x_Offset x <= i < x_Offset x + x_Length x -> A i = x_Allocated x) xs.

Record extent_map (A : Z -> bool) (off end_ : Z) (xs : list Extent) : Prop := {
  em_tiles : tiles off end_ xs;
  em_coalesced : coalesced xs;
  em_covers : covers A xs;
}.

(** What the base's own extent map says: allocation [A], or everything
    allocated when the base reports none. *)
Definition base_extents (base : Device) (A : Z -> bool) : Prop :=
  match dev_Extents base with
  | Some provider =>
      if cap_Extents (dev_Capabilities base) then
        forall off len, 0 <= off -> 0 < len -> off + len <= dev_Size base ->
          exists xs, provider off len = Ok xs /\ tiles off (off + len) xs /\ covers A xs
      else forall i, A i = true
  | None => forall i, A i = true
  end.

Lemma tiles_app a b xs ys : tiles a b (xs ++ ys) <-> exists m, tiles a m xs /\ tiles m b ys.
Proof.
  revert a. induction xs as [|x xs IH]; intros a; simpl; [naive_solver|].
  rewrite IH. naive_solver.
Qed.

Lemma tiles_le a b xs : tiles a b xs -> a <= b.
Proof. revert a. induction xs as [|x xs IH]; simpl; intros a H; [lia|]. destruct H as (? & ? & ?%IH). lia. Qed.

Lemma coalesced_snoc xs l x :
  coalesced (xs ++ [l]) -> x_Allocated l <> x_Allocated x -> coalesced ((xs ++ [l]) ++ [x]).
Proof.
  intros H1 H2. induction xs as [|y xs IH]; simpl in *; [done|].
  destruct xs as [|z xs]; simpl in *; naive_solver.
Qed.

Lemma coalesced_replace xs l x :
  coalesced (xs ++ [l]) -> x_Allocated l = x_Allocated x -> coalesced (xs ++ [x]).
Proof.
  intros H1 H2. induction xs as [|y xs IH]; simpl in *; [done|].
  destruct xs as [|z xs]; simpl in *; [by rewrite <- H2|naive_solver].
Qed.

(** Appending the next extent keeps an exact map. *)
Lemma appendExtent_map A off out x :
  extent_map A off (x_Offset x) out -> 0 < x_Length x ->
  (forall i, x_Offset x <= i < x_Offset x + x_Length x -> A i = x_Allocated x) ->
  extent_map A off (x_Offset x + x_Length x) (appendExtent out x).
Proof.
  intros [Ht Hc Hv] Hl Hx. unfold appendExtent. destruct (Z.leb_spec (x_Length x) 0); [lia|].
  destruct out as [|l out _] using rev_ind.
  { simpl in *. split; [simpl; split_and!; done || lia|done|constructor; [done|constructor]]. }
  rewrite last_snoc. apply tiles_app in Ht as (m & Ht & Hm & Hlp & He). simpl in He.
  apply Forall_app in Hv as [Hv1 Hv2]. inversion Hv2 as [|? ? Hv2' _]; subst.
  destruct (_ && _) eqn:E.
  - apply andb_true_iff in E as [_ E%Bool.eqb_prop].
    rewrite length_app. simpl. rewrite Nat.add_sub, take_app_length. split.
    + apply tiles_app. exists (x_Offset l). simpl. split_and!; try done; lia.
    + by eapply coalesced_replace.
    + apply Forall_app. split; [done|]. constructor; [|done]. simpl. intros i Hi.
      destruct (decide (i < x_Offset l + x_Length l)); [apply Hv2'; lia|].
      rewrite E. apply Hx. lia.
  - rewrite <- He, Z.eqb_refl in E. simpl in E. apply eqb_false_iff in E. split.
    + apply tiles_app. exists (x_Offset x). split; [|simpl; split_and!; done || lia].
      apply tiles_app. exists (x_Offset l). simpl. split_and!; done || lia.
    + by apply coalesced_snoc.
    + apply Forall_app. split; [by apply Forall_app|by constructor; [|constructor]].
Qed.

Section Extents.
Context (base : Device) (A : Z -> bool) (dirty : list Z) (cs off len : Z).
Hypothesis Hbase : base_extents base A.
Hypothesis Hcs : 0 < cs.
Hypothesis Hoff : 0 <= off.
Hypothesis Hlen : 0 < len.
Hypothesis Hend : off + len <= dev_Size base.
Hypothesis Hkeys : forall index, index ∈ dirty -> 0 <= index /\ index * cs < dev_Size base.
Hypothesis Hmax : dev_Size base + cs <= MaxInt64.
Hypothesis Hnd : NoDup dirty.

Let B (i : Z) : bool := bool_decide (i / cs ∈ dirty) || A i.

Lemma appendBase_loop_map xs expected end_ out :
  extent_map B off expected out -> tiles expected end_ xs -> covers A xs ->
  (forall i, expected <= i < end_ -> B i = A i) ->
  exists out', appendBase_loop xs end_ expected out = Ok out' /\ extent_map B off end_ out'.
Proof.
  revert expected out. induction xs as [|x xs IH]; simpl; intros expected out Ho Ht Hv HB.
  { subst. rewrite Z.eqb_refl. by exists out. }
  destruct Ht as (<- & Hl & Ht). pose proof (tiles_le _ _ _ Ht).
  inversion Hv as [|? ? Hx Hv']; subst. rewrite Z.eqb_refl. simpl.
  destruct (Z.leb_spec (x_Length x) 0); [lia|].
  destruct (Z.ltb_spec (end_ - x_Offset x) (x_Length x)); [lia|]. simpl.
  apply IH; [|done|done|intros; apply HB; lia].
  apply appendExtent_map; [done|done|]. intros i Hi. rewrite HB by lia. by apply Hx.
Qed.

Lemma appendBase_map start size out :
  extent_map B off start out -> off <= start -> 0 < size -> start + size <= off + len ->
  (forall i, start <= i < start + size -> i / cs ∉ dirty) ->
  exists out', appendBase base start size out = Ok out' /\ extent_map B off (start + size) out'.
Proof.
  intros Ho Hs Hz He Hclean.
  assert (HB : forall i, start <= i < start + size -> B i = A i).
  { intros i Hi. unfold B. by rewrite bool_decide_eq_false_2 by auto. }
  unfold appendBase. destruct (Z.leb_spec size 0); [lia|].
  assert (Hall : (forall i, A i = true) -> exists out',
    Ok (appendExtent out (MkExtent start size true)) = Ok out' /\ extent_map B off (start + size) out').
  { intros HA. eexists. split; [done|].
    apply (appendExtent_map B off out (MkExtent start size true)); [done|done|]. simpl.
    intros i Hi. by rewrite HB. }
  unfold base_extents in Hbase. destruct (dev_Extents base) as [provider|]; [|by apply Hall].
  destruct (cap_Extents _); [|by apply Hall].
  destruct (Hbase start size) as (xs & -> & Ht & Hv); [lia..|]. simpl.
  by apply appendBase_loop_map.
Qed.

Lemma extent_loop_map indices position out :
  extent_map B off position out -> off <= position <= off + len ->
  StronglySorted (key_le id) indices -> NoDup indices -> (forall j, j ∈ indices -> j ∈ dirty /\ j * cs < off + len) ->
  (forall i, position <= i < off + len -> i / cs ∈ dirty -> i / cs ∈ indices) ->
  exists out' position', extent_loop base cs (off + len) indices position out = Ok (out', position') /\
    extent_map B off position' out' /\ position <= position' <= off + len /\
    (forall i, position' <= i < off + len -> i / cs ∉ dirty).
Proof.
  revert position out. induction indices as [|index indices IH]; intros position out Ho Hp Hso Hni Hin Hall; simpl.
  { exists out, position. split_and!; try done; try lia. intros i Hi Hd. by eapply not_elem_of_nil, Hall. }
  apply StronglySorted_inv in Hso as [Hso Hmin]. apply NoDup_cons in Hni as [Hnin Hni].
  destruct (Hin index) as [Hd He]; [left|]. destruct (Hkeys _ Hd) as [Hi0 Hisz].
  rewrite i64_id by (unfold MaxInt64 in *; nia).
  set (chunkStart := index * cs) in *. set (chunkEnd := Z.min (off + len) (chunkStart + cs)).
  assert (Hgap : exists out1 p1,
    (if position <? chunkStart
     then let! out := appendBase base position (chunkStart - position) out in Ok (out, chunkStart)
     else Ok (out, position)) = Ok (out1, p1) /\
    extent_map B off p1 out1 /\ p1 = Z.max position chunkStart).
  { destruct (Z.ltb_spec position chunkStart); cycle 1.
    { exists out, position. split_and!; try done; lia. }
    destruct (appendBase_map position (chunkStart - position) out) as (out1 & -> & Ho1); try done; try lia.
    - intros i Hi Hdi. specialize (Hall i ltac:(lia) Hdi).
      assert (i / cs < index) by (unfold chunkStart in *; nia).
      apply elem_of_cons in Hall as [Hx|Hx]; [lia|].
      rewrite Forall_forall in Hmin. specialize (Hmin _ Hx). unfold key_le, id in Hmin. lia.
    - exists out1, chunkStart. split_and!; [done| |lia].
      by replace chunkStart with (position + (chunkStart - position)) by lia. }
  destruct Hgap as (out1 & p1 & -> & Ho1 & ->). cbn [res_bind].
  set (p1 := Z.max position chunkStart) in *.
  assert (Hnext : forall out2 p2, extent_map B off p2 out2 -> p2 = Z.max p1 chunkEnd ->
    exists out' position', extent_loop base cs (off + len) indices p2 out2 = Ok (out', position') /\
      extent_map B off position' out' /\ position <= position' <= off + len /\
      (forall i, position' <= i < off + len -> i / cs ∉ dirty)).
  { intros out2 p2 Ho2 Hp2. destruct (IH p2 out2) as (out' & p' & H1 & H2 & H3 & H4);
      [done|unfold chunkEnd in *; lia|done|done|intros; apply Hin; by right| |].
    - intros i Hi Hdi. specialize (Hall i ltac:(lia) Hdi).
      apply elem_of_cons in Hall as [Hx|Hx]; [|done]. exfalso.
      assert (i < chunkStart + cs) by (unfold chunkStart; nia). unfold chunkEnd in *. lia.
    - exists out', p'. split_and!; try done; lia. }
  destruct (Z.ltb_spec p1 chunkEnd); [|apply Hnext; [done|lia]].
  apply Hnext; [|lia].
  assert (Hx := appendExtent_map B off out1 (MkExtent p1 (chunkEnd - p1) true)). simpl in Hx.
  replace (p1 + (chunkEnd - p1)) with chunkEnd in Hx by lia. apply Hx; [done|lia|].
  intros i Hi. unfold B. rewrite bool_decide_eq_true_2; [done|].
  rewrite (div_same_chunk cs i index); [done|done|unfold chunkEnd in *; fold chunkStart; lia].
Qed.

Lemma overlayExtentMap_map :
  exists xs, overlayExtentMap base dirty cs off len = Ok xs /\ extent_map B off (off + len) xs.
Proof.
  unfold overlayExtentMap. destruct (Z.eqb_spec len 0); [lia|].
  set (inside := filter _ dirty).
  destruct (extent_loop_map (sort_by id inside) off []) as (out & p & -> & Ho & Hp & Hrest).
  - split; simpl; [done|done|by constructor].
  - lia.
  - apply sort_by_sorted.
  - rewrite sort_by_perm. by apply NoDup_filter.
  - intros j. rewrite sort_by_perm. unfold inside. rewrite list_elem_of_filter. naive_solver.
  - intros i Hi Hd. rewrite sort_by_perm. apply list_elem_of_filter. split; [|done].
    destruct (Hkeys _ Hd). rewrite i64_id by (unfold MaxInt64 in *; nia). nia.
  - cbn [res_bind]. destruct (Z.ltb_spec p (off + len)); cycle 1.
    { exists out. split; [done|]. by replace (off + len) with p by lia. }
    destruct (appendBase_map p (off + len - p) out) as (out' & -> & Ho'); try done; try lia.
    + intros i Hi. apply Hrest. lia.
    + exists out'. split; [done|]. by replace (off + len) with (p + (off + len - p)) by lia.
Qed.
End Extents.

(** The allocation an overlay reports: its dirty chunks, and what the base
    reports for the rest. *)
Definition overlay_allocated (A : Z -> bool) d (i : Z) : bool :=
  bool_decide (is_Some (ov_chunks d !! (i / ov_chunkSize d))) || A i.

Lemma elem_of_chunk_keys {T} (m : gmap Z T) index : index ∈ chunk_keys m <-> is_Some (m !! index).
Proof.
  unfold chunk_keys. rewrite list_elem_of_fmap. split.
  - intros ([k v] & -> & H%elem_of_map_to_list). simpl. eauto.
  - intros [v H]. exists (index, v). split; [done|]. by apply elem_of_map_to_list.
Qed.

(** The extent map of any set of chunks, with the allocation spelled out. *)
Lemma chunks_extent_map {T} base A (m : gmap Z T) cs off len :
  base_extents base A -> 0 < cs -> 0 <= off -> 0 < len -> off + len <= dev_Size base ->
  (forall index, is_Some (m !! index) -> 0 <= index /\ index * cs < dev_Size base) ->
  dev_Size base + cs <= MaxInt64 ->
  exists xs, overlayExtentMap base (chunk_keys m) cs off len = Ok xs /\
    extent_map (fun i => bool_decide (is_Some (m !! (i / cs))) || A i) off (off + len) xs.
Proof.
  intros Hb Hcs Ho Hl He Hk Hmax.
  destruct (overlayExtentMap_map base A (chunk_keys m) cs off len) as (xs & Hx & [H1 H2 H3]); try done.
  - intros index. rewrite elem_of_chunk_keys. apply Hk.
  - apply NoDup_fst_map_to_list.
  - exists xs. split; [done|]. split; [done|done|]. eapply Forall_impl; [exact H3|].
    simpl. intros x Hi i Hr. rewrite <- (Hi i Hr). f_equal.
    apply bool_decide_ext. by rewrite elem_of_chunk_keys.
Qed.

(** No call changes the base or the chunk size. *)
Definition same_static d d' : Prop := ov_base d' = ov_base d /\ ov_chunkSize d' = ov_chunkSize d.

Lemma recordOperation_static d kind off len : same_static d (recordOperation d kind off len).
Proof. unfold recordOperation. by case_match. Qed.

Lemma updateLocked_static d off len data : same_static d (fst (updateLocked d off len data)).
Proof.
  unfold updateLocked. destruct (stage_chunks _ _ _ _ _ _ _) as [[ups dirty]|e]; [|done].
  case_match; [done|]. by destruct (foldl _ _ _).
Qed.

Lemma overlay_step_static s op : same_static (sys_dev s) (sys_dev (fst (overlay_step s op))).
Proof.
  destruct op as [n off|p off|off len| | |k| | |k n off]; simpl.
  - unfold overlay_ReadAt. repeat case_match; simplify_eq; try done; apply (recordOperation_static (add_read _ _)).
  - unfold overlay_WriteAt. destruct (ValidateRange _ _ _); [done|].
    destruct (_ =? 0); [done|]. destruct (ov_sealed _); [done|].
    pose proof (updateLocked_static (sys_dev s) off (zlen p) (Some p)) as [H1 H2].
    destruct (updateLocked _ _ _ _) as [d' [e|]]; [done|]. unfold same_static. simpl in *.
    rewrite <- H1, <- H2. apply (recordOperation_static (add_write _ _)).
  - unfold overlay_ZeroAt. destruct (ValidateRange _ _ _); [done|].
    destruct (_ =? 0); [done|]. destruct (ov_sealed _); [done|].
    pose proof (updateLocked_static (sys_dev s) off len None) as [H1 H2].
    destruct (updateLocked _ _ _ _) as [d' [e|]]; [done|]. unfold same_static. simpl in *.
    rewrite <- H1, <- H2. apply (recordOperation_static (add_write _ _)).
  - done.
  - unfold overlay_Acquire. by destruct (ov_sealed _).
  - unfold overlay_release. destruct (sys_leases s !! k) as [[]|]; done.
  - unfold overlay_Commit. by destruct (negb _).
  - unfold overlay_Snapshot. by destruct (ov_sealed _).
  - destruct (sys_snaps s !! k); [|done]. by destruct (snapshot_ReadAt _ _ _).
Qed.

Lemma overlay_run_static ops s : same_static (sys_dev s) (sys_dev (fst (overlay_run s ops))).
Proof.
  revert s. induction ops as [|op ops IH]; intros s; simpl; [done|].
  pose proof (overlay_step_static s op) as [H1 H2]. destruct (overlay_step s op) as [s1 o].
  specialize (IH s1). destruct (overlay_run s1 ops) as [s2 os]. simpl in *.
  destruct IH. split; congruence.
Qed.

Lemma blockOverlayBuiltin_base base md cs tr d :
  blockOverlayBuiltin base md cs tr = Ok d -> ov_base (sys_dev (MkSys d [] [])) = base.
Proof.
  unfold blockOverlayBuiltin, newOverlayBlockDevice. simpl.
  repeat (case_match; simpl; try done). by intros [= <-].
Qed.

(** C7.  Extent maps are exact.  In every state an overlay can reach, if the
    disk ends a chunk before the end of the 64-bit range, the extents it
    reports for a range follow each other without gap or overlap from the
    beginning of the range to its end, no two neighbours could be merged, and
    a byte is reported allocated exactly when its chunk is dirty or the base
    reports it allocated.  The same holds of a snapshot taken in that state. *)
Theorem overlay_extents_exact f base A md cs tr d ops off len :
  DeviceOK base f -> base_extents base A -> blockOverlayBuiltin base md cs tr = Ok d ->
  dev_Size base + ov_chunkSize d <= MaxInt64 ->
  0 <= off -> 0 < len -> off + len <= dev_Size base ->
  let d' := sys_dev (fst (overlay_run (MkSys d [] []) ops)) in
  (exists xs, overlay_Extents d' off len = Ok xs /\
     extent_map (overlay_allocated A d') off (off + len) xs) /\
  (forall sn, snd (overlay_Snapshot d') = Ok sn ->
     exists xs, snapshot_Extents sn off len = Ok xs /\
       extent_map (overlay_allocated A d') off (off + len) xs).
Proof.
  intros Hb HA Hnew Hmax Ho Hl He d'.
  destruct (overlay_run_static ops (MkSys d [] [])) as [Hbase Hcs].
  rewrite (blockOverlayBuiltin_base base md cs tr d Hnew) in Hbase.
  pose proof (overlay_run_matches f _ _ ops _ _ (blockOverlayBuiltin_sim f base md cs tr d Hb Hnew)) as H.
  unfold d' in *. clear d'.
  destruct (overlay_run _ ops) as [s os]. simpl in *. destruct H as (_ & t & [H1 _ _ _ _ _ _ _]).
  destruct H1 as [I1 I2 I3 _ _ _]. unfold ov_size in *. rewrite Hbase in *.
  assert (Hv : ValidateRange (dev_Size base) off len = None) by (apply ValidateRange_None; lia).
  split.
  - unfold overlay_Extents, ov_size. rewrite Hbase, Hv.
    apply chunks_extent_map; [done|lia..| |lia]. intros index [c Hc]. by destruct (I3 _ _ Hc) as (? & ? & _).
  - unfold overlay_Snapshot. destruct (ov_sealed _); [done|]. intros sn [= <-].
    unfold snapshot_Extents. cbn [sn_base sn_chunks sn_chunkSize]. rewrite Hbase, Hv.
    destruct (chunks_extent_map base A (ch_data <$> ov_chunks (sys_dev s)) (ov_chunkSize (sys_dev s)) off len)
      as (xs & Hx & [M1 M2 M3]); [done|lia..| |lia|].
    + intros index. rewrite lookup_fmap, fmap_is_Some. intros [c Hc]. by destruct (I3 _ _ Hc) as (? & ? & _).
    + exists xs. split; [done|]. split; [done|done|]. eapply Forall_impl; [exact M3|].
      simpl. intros x Hi i Hr. rewrite <- (Hi i Hr). unfold overlay_allocated. f_equal.
      apply bool_decide_ext. by rewrite lookup_fmap, fmap_is_Some.
Qed.

(** A base that is one hole. *)
Definition hole_device (size block : Z) : Device :=
  {| dev_Geometry := MkGeometry size block block block block block;
     dev_Capabilities := MkCapabilities false false false false true true false false;
     dev_ReadAt := fun n off => match ValidateRange size off n with
                                | Some e => ([], Some e) | None => (zeros n, None) end;
     dev_Extents := Some (fun off len => Ok [MkExtent off len false]) |}.

Lemma hole_device_ok size block : 0 <= size <= MaxInt64 -> DeviceOK (hole_device size block) (fun _ => 0).
Proof.
  intros Hs. split; unfold dev_Size; simpl.
  - done.
  - intros n off Ho Hn He. rewrite (proj2 (ValidateRange_None size off n)) by lia.
    f_equal. by apply zeros_range.
  - intros n off Hn Hout. rewrite ValidateRange_dec by done. destruct (_ && _) eqn:E; [lia|done].
Qed.

Lemma hole_device_extents size block : base_extents (hole_device size block) (fun _ => false).
Proof.
  intros off len Ho Hl He. eexists. split; [done|]. split; [simpl; split_and!; done || lia|].
  by constructor; [|constructor].
Qed.

Lemma overlay_extents_exact_witness :
  exists d, blockOverlayBuiltin (hole_device 6 2) (Some 4) (Some 2) None = Ok d /\
    let d' := sys_dev (fst (overlay_run (MkSys d [] []) [VWrite [1] 3])) in
    (exists xs, overlay_Extents d' 1 5 = Ok xs /\
       extent_map (overlay_allocated (fun _ => false) d') 1 6 xs) /\
    overlay_Extents d' 1 5 = Ok [MkExtent 1 1 false; MkExtent 2 2 true; MkExtent 4 2 false].
Proof.
  destruct (blockOverlayBuiltin (hole_device 6 2) (Some 4) (Some 2) None) as [d|] eqn:Hnew;
    [|discriminate Hnew].
  exists d. split; [reflexivity|].
  assert (H6 : 0 <= 6 <= MaxInt64) by (split; vm_compute; discriminate).
  assert (Hmax : dev_Size (hole_device 6 2) + ov_chunkSize d <= MaxInt64)
    by (injection Hnew as <-; vm_compute; discriminate).
  pose proof (overlay_extents_exact (fun _ => 0) (hole_device 6 2) (fun _ => false)
    (Some 4) (Some 2) None d [VWrite [1] 3] 1 5 (hole_device_ok 6 2 H6) (hole_device_extents 6 2)
    Hnew Hmax ltac:(lia) ltac:(lia) ltac:(vm_compute; discriminate)) as [H _].
  split; [exact H|]. injection Hnew as <-. vm_compute. reflexivity.
Defined.

(** At the very end of the 64-bit range the bound of the last chunk overflows
    and the extent map misses it: the written byte is reported as the hole of
    the base. *)
Example overlay_extents_overflow :
  exists d, blockOverlayBuiltin (hole_device MaxInt64 1) (Some 512) (Some 512) None = Ok d /\
    let d' := sys_dev (fst (overlay_run (MkSys d [] []) [VWrite [1] (MaxInt64 - 1)])) in
    snd (fst (overlay_ReadAt d' 1 (MaxInt64 - 1))) = [1] /\
    overlay_Extents d' (MaxInt64 - 1) 1 = Ok [MkExtent (MaxInt64 - 1) 1 false].
Proof. eexists. split; [reflexivity|]. split; vm_compute; reflexivity. Qed.
