(* ===== verification/BlockCache.v ===== *)
(** Package [block/star]: the shared read cache with single-flight chunk
    loads and least-recently-used eviction (src/block/star/cache.go).

    [chunk] releases the cache's lock while it reads the base and while it
    waits for another caller's read, so its critical sections are separate
    operations here: [chunk_enter], [chunk_load] and [chunk_wake].  Any
    number of callers interleave them ([cache_step]). *)

From S2P Require Import Prelude GoLib Storage Block Overlay.
From stdpp Require Import base numbers list gmap sorting strings relations.

Open Scope Z_scope.
Open Scope trex_scope.

(** A cache entry; [ce_ready] tells whether the [ready] channel is still
    open, that is, the entry is being loaded. *)
Record blockCacheEntry := MkEntry {
  ce_index : Z;
  ce_data : bytes;
  ce_err : option error;
  ce_ready : bool;
}.

(** The cache.  Entries are shared between the map, the list and the callers
    that hold a pointer to one, so they live in a heap; [cd_lru] is the list
    from front to back. *)
Record cachedBlockDevice := MkCache {
  cd_base : Device;
  cd_maxBytes : Z;
  cd_chunkSize : Z;
  cd_geometry : Geometry;
  cd_baseCapabilities : Capabilities;
  cd_heap : gmap nat blockCacheEntry;
  cd_next : nat;
  cd_entries : gmap Z nat;
  cd_lru : list nat;
  cd_bytes : Z;
  cd_hits : Z;
  cd_misses : Z;
  cd_waits : Z;
  cd_evicts : Z;
}.

Implicit Types d : cachedBlockDevice.

Definition newCachedBlockDevice (base : option Device) (maxBytes chunkSize : Z)
    : res cachedBlockDevice :=
  match base with
  | None => Err (Errorf "block.cache: nil base")
  | Some base =>
      let capabilities := dev_Capabilities base in
      let geometry := dev_Geometry base in
      guard! (Errorf "block.cache: base must be read-only; place the cache below a writable overlay")
        when cap_Writable capabilities in
      guard! (Errorf "block.cache: max_bytes and chunk_size must be positive")
        when (maxBytes <=? 0) || (chunkSize <=? 0) in
      guard! (Errorf "block.cache: chunk_size exceeds max_bytes") when maxBytes <? chunkSize in
      guard! (Errorf "block.cache: invalid base geometry")
        when (g_Size geometry <? 0) || (g_LogicalBlockSize geometry =? 0) in
      guard! (Errorf "block.cache: chunk_size must be a multiple of the logical block size")
        when negb (chunkSize mod g_LogicalBlockSize geometry =? 0) in
      Ok {| cd_base := base; cd_maxBytes := maxBytes; cd_chunkSize := chunkSize;
            cd_geometry := geometry; cd_baseCapabilities := capabilities;
            cd_heap := ∅; cd_next := O; cd_entries := ∅; cd_lru := []; cd_bytes := 0;
            cd_hits := 0; cd_misses := 0; cd_waits := 0; cd_evicts := 0 |}
  end.

Definition cached_Capabilities d : Capabilities :=
  {| cap_Writable := false; cap_Flush := false; cap_Zero := false; cap_Trim := false;
     cap_Extents := match dev_Extents (cd_base d) with
                    | Some _ => cap_Extents (cd_baseCapabilities d) | None => false end;
     cap_Concurrent := true; cap_Durable := false; cap_Prefetch := true |}.

Definition cached_Extents d (off length : Z) : res (list Extent) :=
  match dev_Extents (cd_base d) with
  | None => Err ErrUnsupported
  | Some extenter =>
      guard! ErrUnsupported when negb (cap_Extents (cd_baseCapabilities d)) in
      match ValidateRange (g_Size (cd_geometry d)) off length with
      | Some e => Err e
      | None => extenter off length
      end
  end.

Definition with_cache d heap next entries lru bytes hits misses waits evicts : cachedBlockDevice :=
  {| cd_base := cd_base d; cd_maxBytes := cd_maxBytes d; cd_chunkSize := cd_chunkSize d;
     cd_geometry := cd_geometry d; cd_baseCapabilities := cd_baseCapabilities d;
     cd_heap := heap; cd_next := next; cd_entries := entries; cd_lru := lru; cd_bytes := bytes;
     cd_hits := hits; cd_misses := misses; cd_waits := waits; cd_evicts := evicts |}.

(** [list.MoveToFront]; an element that has been removed stays removed. *)
Definition moveToFront (lru : list nat) (eid : nat) : list nat :=
  if bool_decide (eid ∈ lru) then eid :: filter (fun x => x <> eid) lru else lru.

(** The loop of [evictLocked]; every round removes an element, so the length
    of the list is enough fuel. *)
Fixpoint evictLocked_loop (fuel : nat) d : cachedBlockDevice :=
  match fuel with
  | O => d
  | S fuel =>
      if cd_maxBytes d <? cd_bytes d then
        match last (cd_lru d) with
        | None => d
        | Some eid =>
            match cd_heap d !! eid with
            | None => d
            | Some entry =>
                evictLocked_loop fuel
                  (with_cache d (cd_heap d) (cd_next d) (delete (ce_index entry) (cd_entries d))
                     (take (length (cd_lru d) - 1) (cd_lru d)) (cd_bytes d - zlen (ce_data entry))
                     (cd_hits d) (cd_misses d) (cd_waits d) (u64 (cd_evicts d + 1)))
            end
        end
      else d
  end.

Definition evictLocked d : cachedBlockDevice := evictLocked_loop (length (cd_lru d)) d.

(** What the first critical section of [chunk] finds. *)
Inductive chunk_entry : Type :=
  | Hit (data : bytes) (e : option error)
  | Wait (eid : nat)
  | Miss (eid : nat).

(** Touching a loaded entry: the end of the hit path. *)
Definition chunk_touch d (eid : nat) (entry : blockCacheEntry)
    : cachedBlockDevice * (bytes * option error) :=
  (with_cache d (cd_heap d) (cd_next d) (cd_entries d) (moveToFront (cd_lru d) eid) (cd_bytes d)
     (u64 (cd_hits d + 1)) (cd_misses d) (cd_waits d) (cd_evicts d),
   (ce_data entry, ce_err entry)).

Definition chunk_enter d (index : Z) : cachedBlockDevice * chunk_entry :=
  match cd_entries d !! index with
  | Some eid =>
      match cd_heap d !! eid with
      | Some entry =>
          if ce_ready entry
          then (with_cache d (cd_heap d) (cd_next d) (cd_entries d) (cd_lru d) (cd_bytes d)
                  (cd_hits d) (cd_misses d) (u64 (cd_waits d + 1)) (cd_evicts d), Wait eid)
          else let '(d', (data, e)) := chunk_touch d eid entry in (d', Hit data e)
      | None => (d, Hit [] (Some Panic))
      end
  | None =>
      let eid := cd_next d in
      (with_cache d (<[eid := MkEntry index [] None true]> (cd_heap d)) (S eid)
         (<[index := eid]> (cd_entries d)) (cd_lru d) (cd_bytes d)
         (cd_hits d) (u64 (cd_misses d + 1)) (cd_waits d) (cd_evicts d), Miss eid)
  end.

(** After [ready] has been closed. *)
Definition chunk_wake d (eid : nat) : cachedBlockDevice * (bytes * option error) :=
  match cd_heap d !! eid with
  | Some entry => chunk_touch d eid entry
  | None => (d, ([], Some Panic))
  end.

Definition chunk_length d (index : Z) : Z :=
  let off := index * cd_chunkSize d in
  let remaining := g_Size (cd_geometry d) - off in
  if remaining <? cd_chunkSize d then remaining else cd_chunkSize d.

(** What reading the chunk from the base gives. *)
Definition chunk_fetch d (index : Z) : bytes * option error :=
  let length := chunk_length d index in
  if length <=? 0 then ([], Some EOF)
  else
    let '(got, e) := ReadFullAt (dev_ReadAt (cd_base d)) length (index * cd_chunkSize d) in
    (make_copy length got, e).

(** The last critical section: publish what was fetched. *)
Definition chunk_load d (eid : nat) (fetched : bytes * option error)
    : cachedBlockDevice * (bytes * option error) :=
  match cd_heap d !! eid with
  | None => (d, ([], Some Panic))
  | Some entry =>
      let '(data, e) := fetched in
      let heap := <[eid := MkEntry (ce_index entry) data e false]> (cd_heap d) in
      match e with
      | None =>
          (evictLocked
             (with_cache d heap (cd_next d) (cd_entries d) (eid :: cd_lru d)
                (cd_bytes d + zlen data) (cd_hits d) (cd_misses d) (cd_waits d) (cd_evicts d)),
           (data, None))
      | Some e =>
          (with_cache d heap (cd_next d) (delete (ce_index entry) (cd_entries d)) (cd_lru d)
             (cd_bytes d) (cd_hits d) (cd_misses d) (cd_waits d) (cd_evicts d),
           (data, Some e))
      end
  end.

(** [chunk] when no other call is in progress. *)
Definition cached_chunk d (index : Z) : cachedBlockDevice * (bytes * option error) :=
  match chunk_enter d index with
  | (d', Hit data e) => (d', (data, e))
  | (d', Wait eid) => chunk_wake d' eid
  | (d', Miss eid) => chunk_load d' eid (chunk_fetch d' index)
  end.

Fixpoint cached_ReadAt_loop (fuel : nat) d (n off : Z) (acc : bytes)
    : cachedBlockDevice * bytes * option error :=
  if zlen acc <? n then
    match fuel with
    | O => (d, acc, Some OutOfFuel)
    | S fuel =>
        let absolute := off + zlen acc in
        let index := absolute / cd_chunkSize d in
        let within := absolute mod cd_chunkSize d in
        let '(d', (data, e)) := cached_chunk d index in
        match e with
        | Some e => (d', acc, Some e)
        | None =>
            let available := zlen data - within in
            if available <=? 0 then (d', acc, Some ErrUnexpectedEOF)
            else
              let count := if available <? n - zlen acc then available else n - zlen acc in
              cached_ReadAt_loop fuel d' n off (acc ++ slice within count data)
        end
    end
  else (d, acc, None).

Definition cached_ReadAt d (n off : Z) : cachedBlockDevice * bytes * option error :=
  match ValidateRange (g_Size (cd_geometry d)) off n with
  | Some e => (d, [], Some e)
  | None => if n =? 0 then (d, [], None) else cached_ReadAt_loop (Z.to_nat n) d n off []
  end.

Fixpoint cached_Prefetch_loop d (indices : list Z) : cachedBlockDevice * option error :=
  match indices with
  | [] => (d, None)
  | index :: indices =>
      let '(d', (_, e)) := cached_chunk d index in
      match e with Some e => (d', Some e) | None => cached_Prefetch_loop d' indices end
  end.

Definition cached_Prefetch d (off length : Z) : cachedBlockDevice * option error :=
  match ValidateRange (g_Size (cd_geometry d)) off length with
  | Some e => (d, Some e)
  | None =>
      if length =? 0 then (d, None)
      else
        let first := off / cd_chunkSize d in
        let last := (off + length - 1) / cd_chunkSize d in
        cached_Prefetch_loop d (seqZ first (last - first + 1))
  end.

(** ** Interleaved callers *)

(** Where a call [chunk(index)] is. *)
Inductive caller : Type :=
  | CStart (index : Z)
  | CWait (index : Z) (eid : nat)
  | CLoad (index : Z) (eid : nat)
  | CDone (index : Z) (r : bytes * option error).

Definition cd_size d : Z := g_Size (cd_geometry d).

Definition chunk_content (f : Z -> byte) d (index : Z) : bytes :=
  range f (index * cd_chunkSize d) (clen (cd_chunkSize d) (cd_size d) index).

(** A read of the base either fails, now or always, or returns the bytes of
    the base's content [f]. *)
Definition fetched_ok (f : Z -> byte) d (index : Z) (r : bytes * option error) : Prop :=
  snd r = None -> fst r = chunk_content f d index.

Inductive cache_step (f : Z -> byte)
    : cachedBlockDevice * list caller -> cachedBlockDevice * list caller -> Prop :=
  | step_enter d cs k index d' r :
      cs !! k = Some (CStart index) -> chunk_enter d index = (d', r) ->
      cache_step f (d, cs)
        (d', <[k := match r with
                    | Hit data e => CDone index (data, e)
                    | Wait eid => CWait index eid
                    | Miss eid => CLoad index eid
                    end]> cs)
  | step_wake d cs k index eid entry d' r :
      cs !! k = Some (CWait index eid) -> cd_heap d !! eid = Some entry -> ce_ready entry = false ->
      chunk_wake d eid = (d', r) ->
      cache_step f (d, cs) (d', <[k := CDone index r]> cs)
  | step_load d cs k index eid fetched d' r :
      cs !! k = Some (CLoad index eid) -> fetched_ok f d index fetched ->
      chunk_load d eid fetched = (d', r) ->
      cache_step f (d, cs) (d', <[k := CDone index r]> cs).

(** ** The invariant *)

Definition lru_bytes (heap : gmap nat blockCacheEntry) (lru : list nat) : Z :=
  foldr (fun eid acc => match heap !! eid with Some e => zlen (ce_data e) | None => 0 end + acc) 0 lru.

(** The cache without its size bound: map, list, heap and byte count agree. *)
Record cache_wf (f : Z -> byte) d : Prop := {
  kw_fresh : forall eid e, cd_heap d !! eid = Some e -> (eid < cd_next d)%nat;
  kw_heap : forall eid e, cd_heap d !! eid = Some e -> ce_ready e = false -> ce_err e = None ->
    ce_data e = chunk_content f d (ce_index e);
  kw_entries : forall index eid, cd_entries d !! index = Some eid ->
    exists e, cd_heap d !! eid = Some e /\ ce_index e = index /\
              (ce_ready e = false -> eid ∈ cd_lru d);
  kw_lru : forall eid, eid ∈ cd_lru d ->
    exists e, cd_heap d !! eid = Some e /\ ce_ready e = false /\ ce_err e = None /\
              cd_entries d !! ce_index e = Some eid;
  kw_nodup : NoDup (cd_lru d);
  kw_bytes : cd_bytes d = lru_bytes (cd_heap d) (cd_lru d);
}.

Record callers_ok (f : Z -> byte) d (cs : list caller) : Prop := {
  kc_load : forall (k : nat) index eid, cs !! k = Some (CLoad index eid) ->
    exists e, cd_heap d !! eid = Some e /\ ce_ready e = true /\ ce_index e = index /\
              cd_entries d !! index = Some eid;
  kc_single : forall (k k' : nat) index index' eid,
    cs !! k = Some (CLoad index eid) -> cs !! k' = Some (CLoad index' eid) -> k = k';
  kc_wait : forall (k : nat) index eid, cs !! k = Some (CWait index eid) ->
    exists e, cd_heap d !! eid = Some e /\ ce_index e = index;
  kc_loader : forall eid e, cd_heap d !! eid = Some e -> ce_ready e = true ->
    exists k : nat, cs !! k = Some (CLoad (ce_index e) eid);
  kc_done : forall (k : nat) index data, cs !! k = Some (CDone index (data, None)) ->
    data = chunk_content f d index;
}.

(** The parts that do not change. *)
Definition same_setup d d' : Prop :=
  cd_base d' = cd_base d /\ cd_maxBytes d' = cd_maxBytes d /\
  cd_chunkSize d' = cd_chunkSize d /\ cd_geometry d' = cd_geometry d.

Lemma chunk_content_setup f d d' index :
  same_setup d d' -> chunk_content f d' index = chunk_content f d index.
Proof. intros (_ & _ & H3 & H4). unfold chunk_content, cd_size. by rewrite H3, H4. Qed.

Lemma lru_bytes_app heap l k : lru_bytes heap (l ++ k) = lru_bytes heap l + lru_bytes heap k.
Proof. unfold lru_bytes. induction l as [|x l IH]; simpl; [done|]. rewrite IH. lia. Qed.

Lemma lru_bytes_perm heap l k : l ≡ₚ k -> lru_bytes heap l = lru_bytes heap k.
Proof. unfold lru_bytes. induction 1; simpl; lia. Qed.

Lemma lru_bytes_insert heap eid e l :
  eid ∉ l -> lru_bytes (<[eid := e]> heap) l = lru_bytes heap l.
Proof.
  unfold lru_bytes. induction l as [|x l IH]; intros H; simpl; [done|].
  apply not_elem_of_cons in H as [H1 H2]. rewrite IH by done. by rewrite lookup_insert_ne.
Qed.

Lemma moveToFront_perm lru eid : NoDup lru -> moveToFront lru eid ≡ₚ lru.
Proof.
  intros Hnd. unfold moveToFront. case_bool_decide as Hin; [|done].
  apply NoDup_Permutation; [|done|].
  - apply NoDup_cons. split; [rewrite list_elem_of_filter; naive_solver|by apply NoDup_filter].
  - intros x. rewrite elem_of_cons, list_elem_of_filter. destruct (decide (x = eid)); naive_solver.
Qed.

(** Moving an entry to the front keeps the invariant. *)
Lemma chunk_touch_wf f d eid e :
  cache_wf f d -> let '(d', r) := chunk_touch d eid e in
  cache_wf f d' /\ same_setup d d' /\ cd_heap d' = cd_heap d /\ cd_entries d' = cd_entries d /\
  cd_bytes d' = cd_bytes d /\ r = (ce_data e, ce_err e).
Proof.
  intros [H1 H2 H3 H4 H5 H6]. pose proof (moveToFront_perm (cd_lru d) eid H5) as Hp.
  simpl. split_and!; try done. split; simpl; try done.
  - intros index eid' He. destruct (H3 _ _ He) as (e' & ? & ? & Hl). exists e'.
    split_and!; try done. by rewrite Hp.
  - intros eid'. rewrite Hp. apply H4.
  - by rewrite Hp.
  - by rewrite (lru_bytes_perm _ _ _ Hp).
Qed.

(** Eviction: [d'] lost some loaded entries and nothing else. *)
Record evicted d d' : Prop := {
  ev_setup : same_setup d d';
  ev_heap : cd_heap d' = cd_heap d;
  ev_next : cd_next d' = cd_next d;
  ev_loading : forall index eid e, cd_entries d !! index = Some eid -> cd_heap d !! eid = Some e ->
    ce_ready e = true -> cd_entries d' !! index = Some eid;
}.

Lemma evict_one f d eid e lru :
  cache_wf f d -> cd_lru d = lru ++ [eid] -> cd_heap d !! eid = Some e ->
  let d' := with_cache d (cd_heap d) (cd_next d) (delete (ce_index e) (cd_entries d)) lru
              (cd_bytes d - zlen (ce_data e)) (cd_hits d) (cd_misses d) (cd_waits d)
              (u64 (cd_evicts d + 1)) in
  cache_wf f d' /\ evicted d d'.
Proof.
  intros [H1 H2 H3 H4 H5 H6] Hl He.
  destruct (H4 eid) as (e' & He' & Hr & Herr & Hent); [rewrite Hl; set_solver|].
  rewrite He in He'. injection He' as <-.
  rewrite Hl in H5. apply NoDup_app in H5 as (Hn1 & Hn2 & _).
  split; [split; simpl; try done|split; simpl; try done].
  - intros index eid' [Hne Hx]%lookup_delete_Some. destruct (H3 _ _ Hx) as (e1 & E1 & E2 & E3).
    exists e1. split_and!; try done. intros Hr1. specialize (E3 Hr1).
    rewrite Hl, elem_of_app, list_elem_of_singleton in E3. destruct E3 as [?| ->]; [done|].
    exfalso. apply Hne. congruence.
  - intros eid' Hin. destruct (H4 eid') as (e1 & E1 & E2 & E3 & E4); [rewrite Hl; set_solver|].
    exists e1. split_and!; try done. apply lookup_delete_Some. split; [|done].
    intros Heq. rewrite <- Heq, Hent in E4. injection E4 as ->. by apply (Hn2 eid'); [|set_solver].
  - rewrite H6, Hl, lru_bytes_app. unfold lru_bytes at 2. simpl. rewrite He. lia.
  - intros index eid' e1 Hx Hh Hr1. apply lookup_delete_Some. split; [|done].
    intros <-. rewrite Hent in Hx. injection Hx as ->. congruence.
Qed.

Lemma evicted_refl d : evicted d d.
Proof. by split. Qed.

Lemma evicted_trans d1 d2 d3 : evicted d1 d2 -> evicted d2 d3 -> evicted d1 d3.
Proof.
  intros [(A1 & A2 & A3 & A4) B1 C1 D1] [(A1' & A2' & A3' & A4') B2 C2 D2].
  split; [split_and!; congruence|congruence|congruence|].
  intros index eid e Hx Hh Hr. eapply D2; [by eapply D1|by rewrite B1|done].
Qed.

Lemma evictLocked_loop_spec f fuel d :
  cache_wf f d -> (length (cd_lru d) <= fuel)%nat -> 0 <= cd_maxBytes d ->
  let d' := evictLocked_loop fuel d in
  cache_wf f d' /\ evicted d d' /\ cd_bytes d' <= cd_maxBytes d'.
Proof.
  revert d. induction fuel as [|fuel IH]; intros d Hwf Hlen Hmax; simpl.
  { split_and!; [done|apply evicted_refl|]. destruct (cd_lru d) eqn:E; [|simpl in Hlen; lia].
    rewrite (kw_bytes _ _ Hwf), E. simpl. lia. }
  destruct (Z.ltb_spec (cd_maxBytes d) (cd_bytes d)); [|split_and!; [done|apply evicted_refl|lia]].
  destruct (cd_lru d) as [|eid lru _] eqn:E using rev_ind.
  { rewrite (kw_bytes _ _ Hwf), E in H. simpl in H. lia. }
  rewrite last_snoc. destruct (kw_lru _ _ Hwf eid) as (e & He & _); [rewrite E; set_solver|].
  rewrite He, length_app. simpl. rewrite Nat.add_sub, take_app_length.
  destruct (evict_one f d eid e lru Hwf E He) as [Hwf1 Hev1].
  set (d1 := with_cache _ _ _ _ _ _ _ _ _ _) in *.
  destruct (IH d1) as (Hwf2 & Hev2 & Hb2); [done|simpl; rewrite length_app in Hlen; simpl in Hlen; lia|done|].
  split_and!; [done|by eapply evicted_trans|done].
Qed.

Lemma evictLocked_spec f d :
  cache_wf f d -> 0 <= cd_maxBytes d ->
  cache_wf f (evictLocked d) /\ evicted d (evictLocked d) /\
  cd_bytes (evictLocked d) <= cd_maxBytes (evictLocked d).
Proof. intros. by apply evictLocked_loop_spec. Qed.

(** ** The critical sections keep the invariant *)

Record cache_inv f d (cs : list caller) : Prop := {
  ki_wf : cache_wf f d;
  ki_max : 0 <= cd_maxBytes d /\ cd_bytes d <= cd_maxBytes d;
  ki_callers : callers_ok f d cs;
}.

(** A change of the cache that leaves the entries being loaded alone. *)
Lemma callers_ok_change f d d' cs :
  same_setup d d' -> cd_heap d' = cd_heap d ->
  (forall index eid e, cd_entries d !! index = Some eid -> cd_heap d !! eid = Some e ->
     ce_ready e = true -> cd_entries d' !! index = Some eid) ->
  callers_ok f d cs -> callers_ok f d' cs.
Proof.
  intros Hs Hh He [H1 H2 H3 H4 H5]. split; rewrite ?Hh; try done.
  - intros k index eid Hk. destruct (H1 _ _ _ Hk) as (e & ? & ? & ? & ?). exists e.
    split_and!; try done. by eapply He.
  - intros k index data Hk. rewrite (chunk_content_setup f d d' index Hs). by eapply H5.
Qed.

(** A caller that was not loading is done. *)
Lemma callers_ok_done f d cs (k : nat) c index r :
  cs !! k = Some c -> (forall i eid, c <> CLoad i eid) ->
  (snd r = None -> fst r = chunk_content f d index) ->
  callers_ok f d cs -> callers_ok f d (<[k := CDone index r]> cs).
Proof.
  intros Hk Hc Hr [H1 H2 H3 H4 H5].
  assert (Hl : forall (k' : nat) c', <[k := CDone index r]> cs !! k' = Some c' ->
    (k' = k /\ c' = CDone index r) \/ (k' <> k /\ cs !! k' = Some c')).
  { intros k' c' H. apply list_lookup_insert_Some in H. naive_solver. }
  split.
  - intros k' i eid [[_ ?]|[_ H]]%Hl; [done|by apply H1 in H].
  - intros k1 k2 i1 i2 eid [[_ ?]|[_ Ha]]%Hl [[_ ?]|[_ Hb]]%Hl; try done. by eapply H2.
  - intros k' i eid [[_ ?]|[_ H]]%Hl; [done|by apply H3 in H].
  - intros eid e Hh He. destruct (H4 _ _ Hh He) as [k' Hk']. exists k'.
    rewrite list_lookup_insert_ne; [done|]. intros ->. rewrite Hk in Hk'. injection Hk' as ->. by eapply Hc.
  - intros k' i data [[-> [= -> <-]]|[_ H]]%Hl; [by apply Hr|by apply H5 in H].
Qed.

(** A caller starts waiting. *)
Lemma callers_ok_wait f d cs (k : nat) index eid e :
  cs !! k = Some (CStart index) -> cd_heap d !! eid = Some e -> ce_index e = index ->
  callers_ok f d cs -> callers_ok f d (<[k := CWait index eid]> cs).
Proof.
  intros Hk Hh Hi [H1 H2 H3 H4 H5].
  assert (Hl : forall (k' : nat) c', <[k := CWait index eid]> cs !! k' = Some c' ->
    (k' = k /\ c' = CWait index eid) \/ (k' <> k /\ cs !! k' = Some c')).
  { intros k' c' H. apply list_lookup_insert_Some in H. naive_solver. }
  split.
  - intros k' i eid' [[_ ?]|[_ H]]%Hl; [done|by apply H1 in H].
  - intros k1 k2 i1 i2 eid' [[_ ?]|[_ Ha]]%Hl [[_ ?]|[_ Hb]]%Hl; try done. by eapply H2.
  - intros k' i eid' [[_ [= -> ->]]|[_ H]]%Hl; [by eauto|by apply H3 in H].
  - intros eid' e' Hh' He'. destruct (H4 _ _ Hh' He') as [k' Hk']. exists k'.
    rewrite list_lookup_insert_ne; [done|]. intros ->. rewrite Hk in Hk'. done.
  - intros k' i data [[_ ?]|[_ H]]%Hl; [done|by apply H5 in H].
Qed.

(** A miss allocates the entry the caller will load. *)
Lemma miss_inv f d cs (k : nat) index :
  cs !! k = Some (CStart index) -> cd_entries d !! index = None -> cache_inv f d cs ->
  cache_inv f
    (with_cache d (<[cd_next d := MkEntry index [] None true]> (cd_heap d)) (S (cd_next d))
       (<[index := cd_next d]> (cd_entries d)) (cd_lru d) (cd_bytes d)
       (cd_hits d) (u64 (cd_misses d + 1)) (cd_waits d) (cd_evicts d))
    (<[k := CLoad index (cd_next d)]> cs).
Proof.
  intros Hk Hnone [Hwf Hm Hc].
  assert (Hfresh : cd_heap d !! cd_next d = None).
  { destruct (cd_heap d !! cd_next d) eqn:E; [|done]. apply (kw_fresh _ _ Hwf) in E. lia. }
  assert (Hne : forall eid e, cd_heap d !! eid = Some e -> cd_next d <> eid) by congruence.
  split; [|done|].
  - destruct Hwf as [H1 H2 H3 H4 H5 H6]. split; simpl; try done.
    + intros eid e [[<- _]|[_ H]]%lookup_insert_Some; [lia|]. apply H1 in H. lia.
    + intros eid e [[_ <-]|[_ H]]%lookup_insert_Some; [done|]. exact (H2 _ _ H).
    + intros i eid [[<- <-]|[Hi H]]%lookup_insert_Some.
      * rewrite lookup_insert_eq. by eexists.
      * destruct (H3 _ _ H) as (e & He & ? & ?). exists e.
        rewrite lookup_insert_ne by eauto. done.
    + intros eid Hin. destruct (H4 _ Hin) as (e & He & ? & ? & Hen). exists e.
      rewrite lookup_insert_ne by eauto. split_and!; try done.
      apply lookup_insert_Some. right. split; [congruence|done].
    + rewrite H6, lru_bytes_insert; [done|]. intros Hin. destruct (H4 _ Hin) as (e & He & _). by eapply Hne.
  - destruct Hc as [H1 H2 H3 H4 H5].
    assert (Hl : forall (k' : nat) c', <[k := CLoad index (cd_next d)]> cs !! k' = Some c' ->
      (k' = k /\ c' = CLoad index (cd_next d)) \/ (k' <> k /\ cs !! k' = Some c')).
    { intros k' c' H. apply list_lookup_insert_Some in H. naive_solver. }
    split; simpl.
    + intros k' i eid [[_ [= -> ->]]|[_ H]]%Hl; [rewrite !lookup_insert_eq; by eexists|].
      destruct (H1 _ _ _ H) as (e & He & ? & ? & Hen). exists e.
      rewrite lookup_insert_ne by eauto. split_and!; try done.
      apply lookup_insert_Some. right. split; [congruence|done].
    + intros k1 k2 i1 i2 eid [[-> [= -> ->]]|[_ Ha]]%Hl [[-> Hb]|[_ Hb]]%Hl; try done.
      * destruct (H1 _ _ _ Hb) as (e & He & _). by apply Hne in He.
      * injection Hb as -> ->. destruct (H1 _ _ _ Ha) as (e & He & _). by apply Hne in He.
      * by eapply H2.
    + intros k' i eid [[_ ?]|[_ H]]%Hl; [done|]. destruct (H3 _ _ _ H) as (e & He & ?).
      exists e. by rewrite lookup_insert_ne by eauto.
    + intros eid e [[<- <-]|[_ H]]%lookup_insert_Some Hr; simpl.
      * exists k. apply list_lookup_insert_eq. by eapply lookup_lt_Some.
      * destruct (H4 _ _ H Hr) as [k' Hk']. exists k'. rewrite list_lookup_insert_ne; [done|].
        intros ->. rewrite Hk in Hk'. done.
    + intros k' i data [[_ ?]|[_ H]]%Hl; [done|]. by apply H5 in H.
Qed.

Section Publish.
Context (f : Z -> byte) d (eid : nat) (e : blockCacheEntry) (data : bytes).
Hypothesis Hwf : cache_wf f d.
Hypothesis He : cd_heap d !! eid = Some e.
Hypothesis Hready : ce_ready e = true.
Hypothesis Hentry : cd_entries d !! ce_index e = Some eid.
Hypothesis Hnl : eid ∉ cd_lru d.

Lemma load_failed_wf err :
  cache_wf f
    (with_cache d (<[eid := MkEntry (ce_index e) data (Some err) false]> (cd_heap d)) (cd_next d)
       (delete (ce_index e) (cd_entries d)) (cd_lru d) (cd_bytes d) (cd_hits d) (cd_misses d)
       (cd_waits d) (cd_evicts d)).
Proof.
  destruct Hwf as [H1 H2 H3 H4 H5 H6]. split; simpl; try done.
  - intros eid' e' [[<- _]|[_ H]]%lookup_insert_Some; by eapply H1.
  - intros eid' e' [[_ <-]|[_ H]]%lookup_insert_Some; [done|by eapply H2].
  - intros i eid' [Hi H]%lookup_delete_Some. destruct (H3 _ _ H) as (e' & He' & ? & ?).
    exists e'. rewrite lookup_insert_ne; [done|]. intros ->. congruence.
  - intros eid' Hin. destruct (H4 _ Hin) as (e' & He' & ? & ? & Hen). exists e'.
    rewrite lookup_insert_ne by (intros ->; done). split_and!; try done.
    apply lookup_delete_Some. split; [congruence|done].
  - by rewrite H6, lru_bytes_insert.
Qed.

Lemma load_ok_wf :
  data = chunk_content f d (ce_index e) ->
  cache_wf f
    (with_cache d (<[eid := MkEntry (ce_index e) data None false]> (cd_heap d)) (cd_next d)
       (cd_entries d) (eid :: cd_lru d) (cd_bytes d + zlen data) (cd_hits d) (cd_misses d)
       (cd_waits d) (cd_evicts d)).
Proof.
  intros Hdata. destruct Hwf as [H1 H2 H3 H4 H5 H6]. split; simpl.
  - intros eid' e' [[<- _]|[_ H]]%lookup_insert_Some; by eapply H1.
  - intros eid' e' [[_ <-]|[_ H]]%lookup_insert_Some; [done|by eapply H2].
  - intros i eid' H. destruct (H3 _ _ H) as (e' & He' & ? & ?). destruct (decide (eid = eid')) as [->|].
    + rewrite lookup_insert_eq. eexists. split; [done|]. simpl. split; [congruence|]. intros _. left.
    + exists e'. rewrite lookup_insert_ne by done. split_and!; try done. intros. right. auto.
  - intros eid' [->|Hin]%elem_of_cons; [rewrite lookup_insert_eq; by eexists|].
    destruct (H4 _ Hin) as (e' & He' & ? & ? & Hen). exists e'.
    by rewrite lookup_insert_ne by (intros ->; done).
  - by apply NoDup_cons.
  - rewrite lru_bytes_insert, lookup_insert_eq by done. simpl. rewrite H6. unfold lru_bytes. lia.
Qed.
End Publish.

Lemma enter_inv f d cs (k : nat) index d' r :
  cs !! k = Some (CStart index) -> chunk_enter d index = (d', r) -> cache_inv f d cs ->
  cache_inv f d' (<[k := match r with
                         | Hit data e => CDone index (data, e)
                         | Wait eid => CWait index eid
                         | Miss eid => CLoad index eid
                         end]> cs) /\ same_setup d d'.
Proof.
  intros Hk Hent [Hwf [Hm1 Hm2] Hc]. unfold chunk_enter in Hent.
  destruct (cd_entries d !! index) as [eid|] eqn:Ee; cycle 1.
  { injection Hent as <- <-. split; [|done]. by apply miss_inv. }
  destruct (kw_entries _ _ Hwf _ _ Ee) as (e & He & Hi & Hlru). rewrite He in Hent.
  destruct (ce_ready e) eqn:Er.
  - injection Hent as <- <-. split; [|done]. split; [|done|].
    + destruct Hwf. by split.
    + eapply callers_ok_wait; [done|done|done|]. by eapply callers_ok_change; [..|exact Hc].
  - pose proof (chunk_touch_wf f d eid e Hwf) as Ht.
    destruct (chunk_touch d eid e) as [d1 [data err]] eqn:Et. injection Hent as <- <-.
    destruct Ht as (Hwf1 & Hs & Hh & Hen & Hb & [= -> ->]). split; [|done]. split; [done| |].
    + destruct Hs as (_ & -> & _). rewrite Hb. done.
    + eapply callers_ok_done; [done|done| |].
      * simpl. intros Herr. rewrite (chunk_content_setup f d d1 index Hs), <- Hi.
        by apply (kw_heap _ _ Hwf eid).
      * eapply callers_ok_change; [exact Hs|exact Hh| |exact Hc]. intros. by rewrite Hen.
Qed.

Lemma wake_inv f d cs (k : nat) index eid entry d' r :
  cs !! k = Some (CWait index eid) -> cd_heap d !! eid = Some entry -> ce_ready entry = false ->
  chunk_wake d eid = (d', r) -> cache_inv f d cs ->
  cache_inv f d' (<[k := CDone index r]> cs) /\ same_setup d d'.
Proof.
  intros Hk He Hr Hw [Hwf [Hm1 Hm2] Hc]. unfold chunk_wake in Hw. rewrite He in Hw.
  pose proof (chunk_touch_wf f d eid entry Hwf) as Ht. rewrite Hw in Ht.
  destruct Ht as (Hwf1 & Hs & Hh & Hen & Hb & ->). split; [|done]. split; [done| |].
  - destruct Hs as (_ & -> & _). rewrite Hb. done.
  - eapply callers_ok_done; [done|done| |].
    + simpl. intros Herr. destruct (kc_wait _ _ _ Hc _ _ _ Hk) as (e & He' & <-).
      rewrite He in He'. injection He' as <-. rewrite (chunk_content_setup f d d' _ Hs).
      by apply (kw_heap _ _ Hwf eid).
    + eapply callers_ok_change; [exact Hs|exact Hh| |exact Hc]. intros. by rewrite Hen.
Qed.

(** The loader publishes its entry. *)
Lemma callers_ok_load f d d' cs (k : nat) index eid data err :
  cs !! k = Some (CLoad index eid) -> same_setup d d' ->
  cd_heap d' = <[eid := MkEntry index data err false]> (cd_heap d) ->
  (forall i eid' e, cd_entries d !! i = Some eid' -> cd_heap d !! eid' = Some e ->
     ce_ready e = true -> eid' <> eid -> cd_entries d' !! i = Some eid') ->
  (err = None -> data = chunk_content f d index) ->
  callers_ok f d cs -> callers_ok f d' (<[k := CDone index (data, err)]> cs).
Proof.
  intros Hk Hs Hh He Hd [H1 H2 H3 H4 H5].
  assert (Hl : forall (k' : nat) c', <[k := CDone index (data, err)]> cs !! k' = Some c' ->
    (k' = k /\ c' = CDone index (data, err)) \/ (k' <> k /\ cs !! k' = Some c')).
  { intros k' c' H. apply list_lookup_insert_Some in H. naive_solver. }
  split.
  - intros k' i eid' [[_ ?]|[Hne H]]%Hl; [done|].
    assert (eid' <> eid) by (intros ->; apply Hne; by eapply H2).
    destruct (H1 _ _ _ H) as (e & ? & ? & ? & ?). exists e.
    rewrite Hh, lookup_insert_ne by done. split_and!; try done. by eapply He.
  - intros k1 k2 i1 i2 eid' [[_ ?]|[_ Ha]]%Hl [[_ ?]|[_ Hb]]%Hl; try done. by eapply H2.
  - intros k' i eid' [[_ ?]|[_ H]]%Hl; [done|]. rewrite Hh.
    destruct (H3 _ _ _ H) as (e & ? & ?). destruct (decide (eid' = eid)) as [->|].
    + rewrite lookup_insert_eq. eexists. split; [done|]. simpl.
      destruct (H1 _ _ _ Hk) as (e' & ? & _ & ? & _). congruence.
    + rewrite lookup_insert_ne by done. eauto.
  - intros eid' e. rewrite Hh. intros [[<- <-]|[Hne Hx]]%lookup_insert_Some Hr; [done|].
    destruct (H4 _ _ Hx Hr) as [k' Hk']. exists k'. rewrite list_lookup_insert_ne; [done|].
    intros ->. rewrite Hk in Hk'. injection Hk' as _ ?. done.
  - intros k' i data' [[-> [= -> -> Herr]]|[_ H]]%Hl; rewrite (chunk_content_setup f d d' _ Hs);
      [by apply Hd|by apply H5 in H].
Qed.

Lemma load_inv f d cs (k : nat) index eid fetched d' r :
  cs !! k = Some (CLoad index eid) -> fetched_ok f d index fetched ->
  chunk_load d eid fetched = (d', r) -> cache_inv f d cs ->
  cache_inv f d' (<[k := CDone index r]> cs) /\ same_setup d d'.
Proof.
  intros Hk Hf Hl [Hwf [Hm1 Hm2] Hc]. unfold chunk_load in Hl.
  destruct (kc_load _ _ _ Hc _ _ _ Hk) as (e & He & Hr & <- & Hen). rewrite He in Hl.
  assert (Hnl : eid ∉ cd_lru d).
  { intros Hin. destruct (kw_lru _ _ Hwf _ Hin) as (e' & ? & ? & _). congruence. }
  destruct fetched as [data [err|]].
  - injection Hl as <- <-. split; [|done]. split; [by apply load_failed_wf|done|].
    eapply callers_ok_load; [exact Hk| | | | |exact Hc]; try done.
    simpl. intros i eid' e' Hx Hh Hr' Hne. apply lookup_delete_Some. split; [|done]. congruence.
  - set (d1 := with_cache d (<[eid := MkEntry (ce_index e) data None false]> (cd_heap d)) (cd_next d)
      (cd_entries d) (eid :: cd_lru d) (cd_bytes d + zlen data) (cd_hits d) (cd_misses d)
      (cd_waits d) (cd_evicts d)) in *. injection Hl as <- <-.
    assert (Hwf1 : cache_wf f d1) by (apply load_ok_wf; try done; by apply Hf).
    destruct (evictLocked_spec f d1 Hwf1) as (Hwf2 & [Hs2 Hh2 Hn2 He2] & Hb2); [done|].
    assert (Hsetup : same_setup d (evictLocked d1)) by exact Hs2.
    split; [|done]. split; [done| |].
    + destruct Hs2 as (_ & Hx & _). rewrite Hx in *. split; done.
    + eapply callers_ok_load; [exact Hk|done|by rewrite Hh2| |by apply Hf|exact Hc].
      intros i eid' e' Hx Hh Hr' Hne. eapply He2; [done| |exact Hr'].
      simpl. by rewrite lookup_insert_ne.
Qed.

Lemma same_setup_trans d1 d2 d3 : same_setup d1 d2 -> same_setup d2 d3 -> same_setup d1 d3.
Proof. unfold same_setup. intros (?&?&?&?) (?&?&?&?). split_and!; congruence. Qed.

Lemma cache_step_inv f s s' :
  cache_step f s s' -> cache_inv f s.1 s.2 -> cache_inv f s'.1 s'.2 /\ same_setup s.1 s'.1.
Proof.
  intros Hstep Hinv. destruct Hstep; simpl in *.
  - by eapply enter_inv.
  - by eapply wake_inv.
  - by eapply load_inv.
Qed.

Lemma cache_reachable_inv f s s' :
  rtc (cache_step f) s s' -> cache_inv f s.1 s.2 -> cache_inv f s'.1 s'.2 /\ same_setup s.1 s'.1.
Proof.
  induction 1 as [s|s1 s2 s3 H1 _ IH]; intros Hinv; [done|].
  destruct (cache_step_inv f _ _ H1 Hinv) as [Hi Hs]. destruct (IH Hi) as [Hi' Hs'].
  split; [done|]. by eapply same_setup_trans.
Qed.

Definition starting (indices : list Z) : list caller := CStart <$> indices.

Lemma new_cache_inv f base maxBytes chunkSize d indices :
  newCachedBlockDevice (Some base) maxBytes chunkSize = Ok d ->
  cache_inv f d (starting indices) /\ 0 < cd_chunkSize d <= cd_maxBytes d /\
  cd_base d = base /\ cd_geometry d = dev_Geometry base /\ cd_maxBytes d = maxBytes /\
  cd_chunkSize d = chunkSize.
Proof.
  unfold newCachedBlockDevice. destruct (cap_Writable _); [done|].
  destruct ((maxBytes <=? 0) || _) eqn:E1; [done|].
  destruct (maxBytes <? chunkSize) eqn:E2; [done|].
  destruct ((g_Size _ <? 0) || _) eqn:E3; [done|]. destruct (negb _); [done|]. intros [= <-]. simpl.
  split; [|split_and!; done || lia].
  assert (Hno : forall (k : nat) c, starting indices !! k = Some c -> exists index, c = CStart index).
  { intros k c. unfold starting. rewrite list_lookup_fmap. destruct (indices !! k); naive_solver. }
  split; simpl.
  - split; simpl; try done; [intros; set_solver|constructor].
  - lia.
  - split; simpl; try done; intros k; intros; naive_solver.
Qed.

Lemma cache_safe f base maxBytes chunkSize d0 indices d cs :
  newCachedBlockDevice (Some base) maxBytes chunkSize = Ok d0 ->
  rtc (cache_step f) (d0, starting indices) (d, cs) ->
  (forall (k : nat) index data, cs !! k = Some (CDone index (data, None)) ->
     data = range f (index * chunkSize) (clen chunkSize (dev_Size base) index)) /\
  cd_bytes d = lru_bytes (cd_heap d) (cd_lru d) /\ cd_bytes d <= maxBytes /\
  (forall (k k' : nat) index eid eid', cs !! k = Some (CLoad index eid) ->
     cs !! k' = Some (CLoad index eid') -> k = k').
Proof.
  intros Hnew Hrun.
  destruct (new_cache_inv f base maxBytes chunkSize d0 indices Hnew) as (Hinv & _ & Hb & Hg & Hm & Hc).
  destruct (cache_reachable_inv f _ _ Hrun Hinv) as [[Hwf [Hm1 Hm2] [K1 K2 K3 K4 K5]] (S1 & S2 & S3 & S4)].
  simpl in *. split_and!.
  - intros k index data Hk. rewrite (K5 _ _ _ Hk). unfold chunk_content, cd_size.
    by rewrite S3, S4, Hg, Hc.
  - by destruct Hwf.
  - rewrite <- Hm, <- S2. done.
  - intros k k' index eid eid' Hk Hk'. destruct (K1 _ _ _ Hk) as (? & _ & _ & _ & E1).
    destruct (K1 _ _ _ Hk') as (? & _ & _ & _ & E2). rewrite E1 in E2. injection E2 as ->. by eapply K2.
Qed.

(** The sections a caller still has to go through. *)
Definition remaining (c : caller) : nat :=
  match c with CStart _ => 2 | CWait _ _ | CLoad _ _ => 1 | CDone _ _ => 0 end.

Definition total_remaining (cs : list caller) : nat := foldr (fun c n => remaining c + n)%nat O cs.

Lemma total_remaining_insert cs (k : nat) c c' :
  cs !! k = Some c ->
  (total_remaining (<[k := c']> cs) + remaining c = total_remaining cs + remaining c')%nat.
Proof.
  unfold total_remaining. revert k. induction cs as [|x cs IH]; intros [|k] H; simpl in *; try done.
  - injection H as ->. lia.
  - specialize (IH k H). lia.
Qed.

Lemma cache_step_decreases f s s' :
  cache_step f s s' -> (total_remaining s'.2 < total_remaining s.2)%nat.
Proof.
  destruct 1 as [d cs k index d' r Hk _|d cs k index eid entry d' r Hk _ _ _|d cs k index eid fetched d' r Hk _ _];
    simpl.
  - pose proof (total_remaining_insert cs k _ (match r with Hit data e => CDone index (data, e)
      | Wait eid => CWait index eid | Miss eid => CLoad index eid end) Hk) as H.
    destruct r; simpl in *; lia.
  - pose proof (total_remaining_insert cs k _ (CDone index r) Hk) as H. simpl in *. lia.
  - pose proof (total_remaining_insert cs k _ (CDone index r) Hk) as H. simpl in *. lia.
Qed.

Lemma nsteps_bound f n s s' :
  nsteps (cache_step f) n s s' -> (n + total_remaining s'.2 <= total_remaining s.2)%nat.
Proof.
  induction 1 as [s|n s1 s2 s3 H1 _ IH]; [lia|]. apply cache_step_decreases in H1. lia.
Qed.

Lemma total_starting indices : total_remaining (starting indices) = (2 * length indices)%nat.
Proof.
  unfold total_remaining, starting. induction indices as [|i l IH]; [done|].
  rewrite fmap_cons. cbn [foldr remaining length]. rewrite IH. lia.
Qed.

Lemma cache_progress f base maxBytes chunkSize d0 indices n s :
  newCachedBlockDevice (Some base) maxBytes chunkSize = Ok d0 ->
  nsteps (cache_step f) n (d0, starting indices) s ->
  (n <= 2 * length indices)%nat /\
  ((exists s', cache_step f s s') \/ Forall (fun c => exists index r, c = CDone index r) (snd s)).
Proof.
  intros Hnew Hrun. destruct s as [d cs].
  destruct (new_cache_inv f base maxBytes chunkSize d0 indices Hnew) as (Hinv & _).
  pose proof (nsteps_bound f n _ _ Hrun) as Hn. simpl in Hn. rewrite total_starting in Hn.
  split; [lia|].
  apply rtc_nsteps_2 in Hrun. destruct (cache_reachable_inv f _ _ Hrun Hinv) as [[_ _ Hc] _].
  simpl in *.
  assert (Hload : forall (k : nat) index eid, cs !! k = Some (CLoad index eid) ->
    exists s', cache_step f (d, cs) s').
  { intros k index eid Hk. destruct (chunk_load d eid ([], Some EOF)) as [d' r] eqn:El.
    eexists. by eapply step_load; [| |exact El]. }
  destruct (decide (Exists (fun c => remaining c <> O) cs)) as [Hex|Hno]; cycle 1.
  { right. apply not_Exists_Forall in Hno; [|apply _]. eapply Forall_impl; [exact Hno|].
    intros [] H; try (exfalso; apply H; simpl; done). eauto. }
  left. apply Exists_exists in Hex as (c & Hin & Hr). apply list_elem_of_lookup in Hin as [k Hk].
  destruct c as [index|index eid|index eid|]; [..|done].
  - destruct (chunk_enter d index) as [d' r] eqn:E. eexists. by eapply step_enter.
  - destruct (kc_wait _ _ _ Hc _ _ _ Hk) as (e & He & <-). destruct (ce_ready e) eqn:Er.
    + destruct (kc_loader _ _ _ Hc _ _ He Er) as [k' Hk']. by eapply Hload.
    + destruct (chunk_wake d eid) as [d' r] eqn:E. eexists. by eapply step_wake.
  - by eapply Hload.
Qed.

(** C8.  The cache is coherent under concurrency, and no caller waits forever.
    Any number of callers ask for chunks and interleave at every point where
    the cache's lock is free, and reads of the base may fail at any time.  Then
    every call that has returned without an error returned exactly the bytes
    of its chunk of the base, even when its entry has been evicted meanwhile;
    the cached bytes are those of the listed entries and never exceed the
    limit; and no two callers read the same chunk from the base at the same
    time.  While a call is unfinished some call can make a step -- one that
    waits for an entry has a loader that will close it, whether its read of
    the base succeeds or fails -- and [k] concurrent calls are all finished
    after at most [2 k] steps. *)
Theorem cache_coherent f base maxBytes chunkSize d0 indices n d cs :
  newCachedBlockDevice (Some base) maxBytes chunkSize = Ok d0 ->
  nsteps (cache_step f) n (d0, starting indices) (d, cs) ->
  (forall (k : nat) index data, cs !! k = Some (CDone index (data, None)) ->
     data = range f (index * chunkSize) (clen chunkSize (dev_Size base) index)) /\
  cd_bytes d = lru_bytes (cd_heap d) (cd_lru d) /\ cd_bytes d <= maxBytes /\
  (forall (k k' : nat) index eid eid', cs !! k = Some (CLoad index eid) ->
     cs !! k' = Some (CLoad index eid') -> k = k') /\
  (n <= 2 * length indices)%nat /\
  ((exists s', cache_step f (d, cs) s') \/ Forall (fun c => exists index r, c = CDone index r) cs).
Proof.
  intros Hnew Hrun. pose proof (rtc_nsteps_2 _ _ _ Hrun) as Hr.
  destruct (cache_safe f base maxBytes chunkSize d0 indices d cs Hnew Hr) as (? & ? & ? & ?).
  destruct (cache_progress f base maxBytes chunkSize d0 indices n (d, cs) Hnew Hrun) as [? ?]. by split_and!.
Qed.

(** ** Running callers on a schedule *)

(** The step of caller [k], with the base read as the code reads it. *)
Definition sched_step (s : cachedBlockDevice * list caller) (k : nat)
    : option (cachedBlockDevice * list caller) :=
  let '(d, cs) := s in
  match cs !! k with
  | Some (CStart index) =>
      let '(d', r) := chunk_enter d index in
      Some (d', <[k := match r with
                       | Hit data e => CDone index (data, e)
                       | Wait eid => CWait index eid
                       | Miss eid => CLoad index eid
                       end]> cs)
  | Some (CWait index eid) =>
      match cd_heap d !! eid with
      | Some entry =>
          if ce_ready entry then None
          else let '(d', r) := chunk_wake d eid in Some (d', <[k := CDone index r]> cs)
      | None => None
      end
  | Some (CLoad index eid) =>
      let '(d', r) := chunk_load d eid (chunk_fetch d index) in Some (d', <[k := CDone index r]> cs)
  | _ => None
  end.

Fixpoint sched_run (s : cachedBlockDevice * list caller) (ks : list nat)
    : option (cachedBlockDevice * list caller) :=
  match ks with
  | [] => Some s
  | k :: ks => s' ← sched_step s k; sched_run s' ks
  end.

Lemma chunk_fetch_full f d index :
  DeviceOK (cd_base d) f -> cd_geometry d = dev_Geometry (cd_base d) -> 0 < cd_chunkSize d ->
  0 <= index -> index * cd_chunkSize d < cd_size d ->
  chunk_fetch d index = (chunk_content f d index, None).
Proof.
  intros Hb Hg Hcs Hi Hs. unfold chunk_fetch, chunk_content.
  assert (Hl : chunk_length d index = clen (cd_chunkSize d) (cd_size d) index).
  { unfold chunk_length, clen, cd_size. case_match; lia. }
  rewrite Hl. set (len := clen _ _ _) in *. assert (0 < len) by (unfold len, clen; lia).
  destruct (Z.leb_spec len 0); [lia|].
  assert (Hsz : cd_size d = dev_Size (cd_base d)) by (unfold cd_size, dev_Size; by rewrite Hg).
  rewrite (ReadFullAt_device _ f); [|done|nia|lia|unfold len, clen in *; lia].
  rewrite make_copy_id; [done|by apply zlen_range; lia].
Qed.

Lemma chunk_fetch_ok f d index :
  DeviceOK (cd_base d) f -> cd_geometry d = dev_Geometry (cd_base d) -> 0 < cd_chunkSize d ->
  fetched_ok f d index (chunk_fetch d index).
Proof.
  intros Hb Hg Hcs. unfold fetched_ok.
  destruct (decide (0 <= index /\ index * cd_chunkSize d < cd_size d)) as [[Hi Hs]|Hno].
  { by rewrite (chunk_fetch_full f). }
  unfold chunk_fetch. set (len := chunk_length d index). destruct (Z.leb_spec len 0); [done|].
  assert (Hsz : cd_size d = dev_Size (cd_base d)) by (unfold cd_size, dev_Size; by rewrite Hg).
  unfold ReadFullAt. destruct (Z.to_nat len) eqn:E; [lia|]. simpl. rewrite zlen_nil.
  destruct (Z.ltb_spec 0 len); [|lia].
  rewrite (dev_refuse (DeviceOK := Hb)); [done|lia|].
  assert (chunk_length d index <= cd_size d - index * cd_chunkSize d)
    by (unfold chunk_length, cd_size; case_match; lia).
  unfold len in *. left. nia.
Qed.

Lemma sched_run_sound f s ks s' :
  DeviceOK (cd_base s.1) f -> cd_geometry s.1 = dev_Geometry (cd_base s.1) -> 0 < cd_chunkSize s.1 ->
  cache_inv f s.1 s.2 -> sched_run s ks = Some s' -> rtc (cache_step f) s s'.
Proof.
  revert s. induction ks as [|k ks IH]; intros [d cs] Hb Hg Hcs Hinv Hrun; simpl in *.
  { by injection Hrun as ->. }
  assert (Hs : forall s1, cache_step f (d, cs) s1 -> sched_run s1 ks = Some s' ->
    rtc (cache_step f) (d, cs) s').
  { intros s1 H1 H2. eapply rtc_l; [exact H1|]. destruct (cache_step_inv f _ _ H1 Hinv) as [Hi (E1 & E2 & E3 & E4)].
    apply IH; rewrite ?E1, ?E3, ?E4; done. }
  destruct (cs !! k) as [[index|index eid|index eid|]|] eqn:Hk; try done.
  - destruct (chunk_enter d index) as [d' r] eqn:E. eapply Hs; [by eapply step_enter|done].
  - destruct (cd_heap d !! eid) as [entry|] eqn:He; [|done]. destruct (ce_ready entry) eqn:Hr; [done|].
    destruct (chunk_wake d eid) as [d' r] eqn:E. eapply Hs; [by eapply step_wake|done].
  - destruct (chunk_load d eid _) as [d' r] eqn:E. eapply Hs; [|done].
    eapply step_load; [exact Hk| |exact E]. by apply chunk_fetch_ok.
Qed.

(** Two callers ask for the same chunk, a third for one that evicts it. *)
Lemma cache_coherent_witness :
  exists d0 d cs, newCachedBlockDevice (Some demo_device) 2 2 = Ok d0 /\
    sched_run (d0, starting [1; 1; 2]) [0; 1; 2; 0; 2; 1]%nat = Some (d, cs) /\
    cs = [CDone 1 ([12; 13], None); CDone 1 ([12; 13], None); CDone 2 ([14; 15], None)] /\
    cd_bytes d <= 2.
Proof.
  destruct (newCachedBlockDevice (Some demo_device) 2 2) as [d0|] eqn:Hnew; [|discriminate Hnew].
  destruct (sched_run (d0, starting [1; 1; 2]) [0; 1; 2; 0; 2; 1]%nat) as [[d cs]|] eqn:Hrun;
    [|injection Hnew as <-; vm_compute in Hrun; discriminate Hrun].
  exists d0, d, cs. split; [reflexivity|]. split; [exact Hrun|].
  destruct (new_cache_inv (nthb [10; 11; 12; 13; 14; 15]) demo_device 2 2 d0 [1; 1; 2] Hnew)
    as (Hinv & Hc & Hb & Hg & _).
  assert (Hr : rtc (cache_step (nthb [10; 11; 12; 13; 14; 15])) (d0, starting [1; 1; 2]) (d, cs)).
  { apply (sched_run_sound _ _ [0; 1; 2; 0; 2; 1]%nat); simpl; rewrite ?Hb; try done;
      [apply demo_device_ok|apply Hc]. }
  apply rtc_nsteps_1 in Hr as [n Hr].
  destruct (cache_coherent _ _ _ _ _ _ _ _ _ Hnew Hr) as (_ & _ & Hmax & _).
  split; [|exact Hmax]. injection Hnew as <-. vm_compute in Hrun. by injection Hrun as _ <-.
Defined.

(** ** Reading *)

Lemma cache_inv_quiet f d index r : cache_inv f d [CDone index r] -> cache_inv f d [].
Proof.
  intros [Hwf Hm [K1 K2 K3 K4 K5]]. split; [done|done|]. split; try done.
  intros eid e He Hr. destruct (K4 _ _ He Hr) as [[|k] Hk]; done.
Qed.

Lemma cache_inv_start f d index : cache_inv f d [] -> cache_inv f d [CStart index].
Proof.
  intros [Hwf Hm [K1 K2 K3 K4 K5]]. split; [done|done|]. split.
  - intros [|k]; done.
  - intros [|k]; done.
  - intros [|k]; done.
  - intros eid e He Hr. destruct (K4 _ _ He Hr) as [k Hk]. done.
  - intros [|k]; done.
Qed.

(** With no call in progress there is nothing to wait for, and hits carry no
    error. *)
Lemma enter_hit_ok f d index d' data e :
  cache_inv f d [] -> chunk_enter d index = (d', Hit data e) -> e = None.
Proof.
  intros [Hwf _ _] H. unfold chunk_enter in H.
  destruct (cd_entries d !! index) as [eid|] eqn:Ee; [|done].
  destruct (kw_entries _ _ Hwf _ _ Ee) as (en & He & _ & Hl). rewrite He in H.
  destruct (ce_ready en) eqn:Er; [done|]. simpl in H. injection H as _ _ <-.
  destruct (kw_lru _ _ Hwf eid (Hl eq_refl)) as (en' & He' & _ & Herr & _). congruence.
Qed.

Lemma enter_no_wait f d index d' eid :
  cache_inv f d [] -> chunk_enter d index <> (d', Wait eid).
Proof.
  intros [Hwf _ Hc] H. unfold chunk_enter in H.
  destruct (cd_entries d !! index) as [eid'|] eqn:Ee; [|done].
  destruct (cd_heap d !! eid') as [en|] eqn:He; [|done].
  destruct (ce_ready en) eqn:Er; [|done].
  destruct (kc_loader _ _ _ Hc _ _ He Er) as [k Hk]. done.
Qed.

Section Cached_read.
Context (f : Z -> byte).

(** The cache at rest. *)
Record cached_ok d : Prop := {
  co_inv : cache_inv f d [];
  co_base : DeviceOK (cd_base d) f;
  co_geometry : cd_geometry d = dev_Geometry (cd_base d);
  co_chunk : 0 < cd_chunkSize d;
}.

Lemma cached_chunk_spec d index :
  cached_ok d -> 0 <= index -> index * cd_chunkSize d < cd_size d ->
  exists d', cached_chunk d index = (d', (chunk_content f d index, None)) /\
             cached_ok d' /\ same_setup d d'.
Proof.
  intros [Hinv Hb Hg Hcs] Hi Hs. unfold cached_chunk.
  destruct (chunk_enter d index) as [d1 r1] eqn:E1.
  destruct (enter_inv f d [CStart index] 0 index d1 r1 eq_refl E1 (cache_inv_start _ _ _ Hinv))
    as [Hinv1 Hs1]. pose proof Hs1 as (S1 & S2 & S3 & S4).
  assert (Hok : forall d2, same_setup d d2 -> cache_inv f d2 [] -> cached_ok d2).
  { intros d2 (T1 & T2 & T3 & T4) Hi2. split; rewrite ?T1, ?T3, ?T4; done. }
  destruct r1 as [data e|eid|eid]; simpl in Hinv1.
  - exists d1. pose proof (enter_hit_ok f d index d1 data e Hinv E1) as ->.
    pose proof (kc_done _ _ _ (ki_callers _ _ _ Hinv1) 0 index data eq_refl) as Hd.
    rewrite Hd, (chunk_content_setup f d d1 index Hs1). split_and!; try done.
    apply Hok; [done|]. by eapply cache_inv_quiet.
  - exfalso. by eapply (enter_no_wait f d index d1 eid).
  - destruct (chunk_load d1 eid (chunk_fetch d1 index)) as [d2 r2] eqn:E2.
    assert (Hf : chunk_fetch d1 index = (chunk_content f d index, None)).
    { rewrite <- (chunk_content_setup f d d1 index Hs1).
      apply chunk_fetch_full; unfold cd_size; rewrite ?S1, ?S3, ?S4; done. }
    destruct (load_inv f d1 [CLoad index eid] 0 index eid (chunk_fetch d1 index) d2 r2 eq_refl) as [Hinv2 Hs2];
      [rewrite Hf; intros _; by rewrite (chunk_content_setup f d d1)|done|done|].
    assert (Hr2 : r2 = (chunk_content f d index, None)).
    { destruct (kc_load _ _ _ (ki_callers _ _ _ Hinv1) 0 index eid eq_refl) as (e & He & _).
      unfold chunk_load in E2. rewrite He, Hf in E2. by injection E2. }
    exists d2. rewrite Hr2. pose proof (same_setup_trans _ _ _ Hs1 Hs2). split_and!; try done.
    apply Hok; [done|]. by eapply cache_inv_quiet.
Qed.

Lemma cached_ReadAt_loop_spec fuel d n off acc :
  cached_ok d -> 0 <= off -> off + n <= cd_size d -> zlen acc <= n -> n - zlen acc <= Z.of_nat fuel ->
  exists d', cached_ReadAt_loop fuel d n off acc
             = (d', acc ++ range f (off + zlen acc) (n - zlen acc), None) /\
             cached_ok d' /\ same_setup d d'.
Proof.
  revert d acc. induction fuel as [|fuel IH]; intros d acc Hok Ho Hs Hacc Hf.
  all: cbn [cached_ReadAt_loop]; destruct (Z.ltb_spec (zlen acc) n).
  1: lia.
  1,3: exists d; by rewrite range_nil, app_nil_r by lia.
  pose proof (zlen_nonneg acc). pose proof (co_chunk _ Hok) as Hcs.
  set (pos := off + zlen acc). set (cs := cd_chunkSize d) in *.
  pose proof (clen_pos cs (cd_size d) pos Hcs ltac:(lia)) as Hc. pose proof (Z.mod_pos_bound pos cs Hcs).
  destruct (cached_chunk_spec d (pos / cs) Hok) as (d1 & -> & Hok1 & Hs1);
    [apply Z.div_pos; lia|pose proof (Z.mul_div_le pos cs Hcs); fold cs; lia|].
  unfold chunk_content. fold cs. set (len := clen cs (cd_size d) (pos / cs)) in *.
  rewrite zlen_range by lia. destruct (Z.leb_spec (len - pos mod cs) 0); [lia|].
  set (count := if _ <? _ then _ else _).
  assert (Hcount : 0 < count <= n - zlen acc /\ pos mod cs + count <= len)
    by (unfold count; case_match; lia).
  assert (Hp : slice (pos mod cs) count (range f (pos / cs * cs) len) = range f pos count).
  { rewrite slice_range by (rewrite ?zlen_range; lia).
    apply range_shift. intros i Hi. rewrite nthb_range by lia. f_equal.
    rewrite (Z.div_mod pos cs) at 3 by lia. lia. }
  rewrite Hp. pose proof Hs1 as (T1 & T2 & T3 & T4).
  destruct (IH d1 (acc ++ range f pos count)) as (d2 & -> & Hok2 & Hs2);
    rewrite ?zlen_app, ?zlen_range by lia; [done|done|unfold cd_size in *; rewrite T4; lia|lia|lia|].
  exists d2. split_and!; [|done|by eapply same_setup_trans]. rewrite <- app_assoc. do 3 f_equal.
  replace (off + (zlen acc + count)) with (pos + count) by lia.
  rewrite <- range_add by lia. f_equal. lia.
Qed.

Lemma cached_ReadAt_spec d n off :
  cached_ok d -> 0 <= n ->
  exists d', cached_ReadAt d n off
             = (d', if (0 <=? off) && (off + n <=? cd_size d) then range f off n else [],
                if (0 <=? off) && (off + n <=? cd_size d) then None else Some ErrOutOfRange) /\
             cached_ok d' /\ same_setup d d'.
Proof.
  intros Hok Hn. unfold cached_ReadAt. fold (cd_size d). rewrite ValidateRange_dec by done.
  destruct (_ && _) eqn:E; [|by exists d].
  destruct (Z.eqb_spec n 0) as [->|]; [by exists d|].
  destruct (cached_ReadAt_loop_spec (Z.to_nat n) d n off []) as (d' & -> & ? & ?);
    rewrite ?zlen_nil; [done|lia..|]. exists d'. by rewrite Z.add_0_r, Z.sub_0_r.
Qed.

Lemma cached_Prefetch_loop_spec d indices :
  cached_ok d -> Forall (fun index => 0 <= index /\ index * cd_chunkSize d < cd_size d) indices ->
  exists d', cached_Prefetch_loop d indices = (d', None) /\ cached_ok d' /\ same_setup d d'.
Proof.
  revert d. induction indices as [|index indices IH]; intros d Hok Hall; simpl; [by exists d|].
  inversion Hall as [|? ? [Hi Hs] Hall']; subst.
  destruct (cached_chunk_spec d index Hok Hi Hs) as (d1 & -> & Hok1 & Hs1).
  pose proof Hs1 as (T1 & T2 & T3 & T4).
  destruct (IH d1 Hok1) as (d2 & -> & Hok2 & Hs2); [by unfold cd_size; rewrite T3, T4|].
  exists d2. split_and!; [done|done|by eapply same_setup_trans].
Qed.

Lemma cached_Prefetch_spec d off len :
  cached_ok d ->
  exists d', cached_Prefetch d off len = (d', ValidateRange (cd_size d) off len) /\
             cached_ok d' /\ same_setup d d'.
Proof.
  intros Hok. unfold cached_Prefetch. fold (cd_size d).
  destruct (ValidateRange _ _ _) eqn:E; [by exists d|]. apply ValidateRange_None in E.
  destruct (Z.eqb_spec len 0); [by exists d|]. pose proof (co_chunk _ Hok) as Hcs.
  apply cached_Prefetch_loop_spec; [done|]. apply Forall_forall. intros i Hi%elem_of_seqZ.
  set (cs := cd_chunkSize d) in *. pose proof (Z.div_pos off cs).
  pose proof (Z.mul_div_le (off + len - 1) cs Hcs). nia.
Qed.
End Cached_read.

Inductive cached_op : Type :=
  | KRead (n : nat) (off : Z)
  | KPrefetch (off len : Z).

Definition cached_step d (op : cached_op) : cachedBlockDevice * (bytes * option error) :=
  match op with
  | KRead n off => let '(d', b, e) := cached_ReadAt d (Z.of_nat n) off in (d', (b, e))
  | KPrefetch off len => let '(d', e) := cached_Prefetch d off len in (d', ([], e))
  end.

Fixpoint cached_run d (ops : list cached_op) : cachedBlockDevice * list (bytes * option error) :=
  match ops with
  | [] => (d, [])
  | op :: ops =>
      let '(d', r) := cached_step d op in
      let '(d'', rs) := cached_run d' ops in (d'', r :: rs)
  end.

(** What the calls return on the base itself. *)
Definition direct (f : Z -> byte) (size : Z) (op : cached_op) : bytes * option error :=
  match op with
  | KRead n off =>
      if (0 <=? off) && (off + Z.of_nat n <=? size) then (range f off (Z.of_nat n), None)
      else ([], Some ErrOutOfRange)
  | KPrefetch off len => ([], ValidateRange size off len)
  end.

Lemma cached_run_spec f ops : forall d,
  cached_ok f d ->
  exists d', cached_run d ops = (d', direct f (cd_size d) <$> ops) /\ cached_ok f d' /\ same_setup d d'.
Proof.
  induction ops as [|op ops IH]; intros d Hok; [by exists d|]. rewrite fmap_cons. cbn [cached_run].
  assert (Hstep : exists d1, cached_step d op = (d1, direct f (cd_size d) op) /\
    cached_ok f d1 /\ same_setup d d1).
  { destruct op as [n off|off len]; simpl.
    - destruct (cached_ReadAt_spec f d (Z.of_nat n) off) as (d1 & -> & ? & ?); [done|lia|].
      exists d1. by destruct (_ && _).
    - destruct (cached_Prefetch_spec f d off len Hok) as (d1 & -> & ? & ?). by exists d1. }
  destruct Hstep as (d1 & -> & Hok1 & Hs1). pose proof Hs1 as (T1 & T2 & T3 & T4).
  destruct (IH d1 Hok1) as (d2 & -> & Hok2 & Hs2).
  assert (E : cd_size d1 = cd_size d) by (unfold cd_size; by rewrite T4). rewrite E.
  exists d2. split_and!; [done|done|by eapply same_setup_trans].
Qed.

(** C9.  The cache is transparent and bounded.  Any sequence of [ReadAt] and
    [Prefetch] calls on a cache returns what reading the base directly would
    return, whatever has been cached or evicted before, and leaves at most
    [maxBytes] bytes cached. *)
Theorem cache_transparent f base maxBytes chunkSize d ops :
  DeviceOK base f -> newCachedBlockDevice (Some base) maxBytes chunkSize = Ok d ->
  let '(d', outs) := cached_run d ops in
  outs = direct f (dev_Size base) <$> ops /\ cd_bytes d' <= maxBytes /\
  cd_bytes d' = lru_bytes (cd_heap d') (cd_lru d').
Proof.
  intros Hb Hnew.
  destruct (new_cache_inv f base maxBytes chunkSize d [] Hnew) as (Hinv & Hc & Eb & Eg & Em & Ec).
  assert (Hok : cached_ok f d) by (split; rewrite ?Eb; done || lia).
  destruct (cached_run_spec f ops d Hok) as (d' & -> & [[Hwf [Hm1 Hm2] _] _ _ _] & (T1 & T2 & T3 & T4)).
  split_and!.
  - unfold cd_size. by rewrite Eg.
  - rewrite <- Em, <- T2. done.
  - by destruct Hwf.
Qed.

Lemma cache_transparent_witness :
  exists d, newCachedBlockDevice (Some demo_device) 4 2 = Ok d /\
    snd (cached_run d [KRead 3 1; KPrefetch 0 6; KRead 6 0; KRead 1 6])
    = [([11; 12; 13], None); ([], None); ([10; 11; 12; 13; 14; 15], None); ([], Some ErrOutOfRange)].
Proof.
  destruct (newCachedBlockDevice (Some demo_device) 4 2) as [d|] eqn:Hnew; [|discriminate Hnew].
  exists d. split; [reflexivity|].
  pose proof (cache_transparent (nthb [10; 11; 12; 13; 14; 15]) demo_device 4 2 d
    [KRead 3 1; KPrefetch 0 6; KRead 6 0; KRead 1 6] demo_device_ok Hnew) as H.
  destruct (cached_run d _) as [d' outs]. destruct H as [-> _]. vm_compute. reflexivity.
Defined.
