(* ===== verification/MemoryStore.v ===== *)
(** Package [storage]: [MemoryStore], a bounded, paged, resizable file in
    memory whose snapshots share its pages (src/storage/memory_store.go).

    Pages are shared between the store and its snapshots, so they live in a
    heap and the page tables hold pointers.  Every method of the store holds
    its mutex from beginning to end; snapshots are read without it, which is
    sound because the pages they point to are never written again (C12). *)

From S2P Require Import Prelude GoLib Storage.
From stdpp Require Import base numbers list gmap sorting strings.

Open Scope Z_scope.
Open Scope trex_scope.

Definition memoryPageBytes : Z := 65536.

Record memoryPage := MkPage { mp_data : bytes; mp_shared : bool }.

Record MemoryStore := MkStore {
  ms_pages : gmap Z nat;
  ms_size : Z;
  ms_limit : Z;
  ms_closed : bool;
}.

Record memorySnapshot := MkMemSnapshot { sp_pages : gmap Z nat; sp_size : Z }.

(** The heap of pages and the next free address. *)
Record page_heap := MkHeap { h_pages : gmap nat memoryPage; h_next : nat }.

Implicit Types h : page_heap.
Implicit Types m : MemoryStore.

Definition alloc h (page : memoryPage) : page_heap * nat :=
  (MkHeap (<[h_next h := page]> (h_pages h)) (S (h_next h)), h_next h).

Definition set_page h (pid : nat) (page : memoryPage) : page_heap :=
  MkHeap (<[pid := page]> (h_pages h)) (h_next h).

Definition NewMemoryStore (limit : Z) : MemoryStore :=
  {| ms_pages := ∅; ms_size := 0; ms_limit := limit; ms_closed := false |}.

Definition MemoryStore_Length m : res Z :=
  if ms_closed m then Err ErrStoreClosed else Ok (ms_size m).

Definition MemoryStore_Sync m : option error :=
  if ms_closed m then Some ErrStoreClosed else None.

Definition MemoryStore_Close m : MemoryStore :=
  {| ms_pages := ∅; ms_size := ms_size m; ms_limit := ms_limit m; ms_closed := true |}.

(** The page of [index], made writable: missing pages are allocated, shared
    ones copied. *)
Definition writable_page h (pages : gmap Z nat) (index : Z) : page_heap * gmap Z nat * nat :=
  match pages !! index with
  | None =>
      let '(h', pid) := alloc h (MkPage (zeros memoryPageBytes) false) in
      (h', <[index := pid]> pages, pid)
  | Some pid =>
      match h_pages h !! pid with
      | Some page =>
          if mp_shared page then
            let '(h', pid') := alloc h (MkPage (mp_data page) false) in
            (h', <[index := pid']> pages, pid')
          else (h, pages, pid)
      | None => (h, pages, pid)
      end
  end.

Definition page_data h (pid : nat) : bytes :=
  match h_pages h !! pid with Some page => mp_data page | None => [] end.

(** The loop of [WriteAt]; every round writes at least one byte. *)
Fixpoint WriteAt_loop (fuel : nat) h (pages : gmap Z nat) (p : bytes) (off : Z)
    : page_heap * gmap Z nat :=
  match fuel with
  | O => (h, pages)
  | S fuel =>
      if 0 <? zlen p then
        let index := off / memoryPageBytes in
        let '(h', pages', pid) := writable_page h pages index in
        let within := off mod memoryPageBytes in
        let data := page_data h' pid in
        let count := Z.min (zlen p) (zlen data - within) in
        let h'' := set_page h' pid (MkPage (splice data within (slice 0 count p)) false) in
        WriteAt_loop fuel h'' pages' (drop (Z.to_nat count) p) (off + count)
      else (h, pages)
  end.

Definition MemoryStore_WriteAt h m (p : bytes) (off : Z)
    : page_heap * MemoryStore * Z * option error :=
  if ms_closed m then (h, m, 0, Some ErrStoreClosed)
  else if (off <? 0) || (MaxInt64 - off <? zlen p)
  then (h, m, 0, Some (Errorf "invalid write range"))
  else if zlen p =? 0 then (h, m, 0, None)
  else
    let end_ := off + zlen p in
    if (ms_limit m <? 0) || (ms_limit m <? end_) then (h, m, 0, Some ErrStoreLimit)
    else
      let '(h', pages) := WriteAt_loop (length p) h (ms_pages m) p off in
      (h', {| ms_pages := pages; ms_size := Z.max (ms_size m) end_; ms_limit := ms_limit m;
              ms_closed := ms_closed m |}, zlen p, None).

(** The loop of [readMemory]; [acc] is [p[:done]]. *)
Fixpoint readMemory_loop (fuel : nat) h (pages : gmap Z nat) (count off : Z) (acc : bytes) : bytes :=
  match fuel with
  | O => acc
  | S fuel =>
      if zlen acc <? count then
        let within := off mod memoryPageBytes in
        let n := Z.min (count - zlen acc) (memoryPageBytes - within) in
        let piece := match pages !! (off / memoryPageBytes) with
                     | Some pid => slice within n (page_data h pid)
                     | None => zeros n
                     end in
        readMemory_loop fuel h pages count (off + n) (acc ++ piece)
      else acc
  end.

Definition readMemory h (pages : gmap Z nat) (size n off : Z) : bytes * option error :=
  if off <? 0 then ([], Some (Errorf "negative read offset"))
  else if n =? 0 then ([], None)
  else if size <=? off then ([], Some EOF)
  else
    let count := Z.min n (size - off) in
    let out := readMemory_loop (Z.to_nat count) h pages count off [] in
    (out, if zlen out <? n then Some EOF else None).

Definition MemoryStore_ReadAt h m (n off : Z) : bytes * option error :=
  if ms_closed m then ([], Some ErrStoreClosed)
  else readMemory h (ms_pages m) (ms_size m) n off.

Definition memorySnapshot_ReadAt h (s : memorySnapshot) (n off : Z) : bytes * option error :=
  readMemory h (sp_pages s) (sp_size s) n off.

(** [clear(data[k:])]. *)
Definition clear_from (data : bytes) (k : Z) : bytes :=
  take (Z.to_nat k) data ++ zeros (zlen data - k).

(** The body of the loop of [Truncate] for one page. *)
Definition truncate_page (size : Z) (st : page_heap * gmap Z nat) (ip : Z * nat)
    : page_heap * gmap Z nat :=
  let '(h, pages) := st in
  let '(index, pid) := ip in
  if size <=? index * memoryPageBytes then (h, delete index pages)
  else if size - index * memoryPageBytes <? memoryPageBytes then
    let '(h', pages', pid') := writable_page h pages index in
    (set_page h' pid' (MkPage (clear_from (page_data h' pid') (size mod memoryPageBytes)) false), pages')
  else (h, pages).

Definition MemoryStore_Truncate h m (size : Z) : page_heap * MemoryStore * option error :=
  if ms_closed m then (h, m, Some ErrStoreClosed)
  else if size <? 0 then (h, m, Some (Errorf "negative store length"))
  else if (ms_limit m <? 0) || (ms_limit m <? size) then (h, m, Some ErrStoreLimit)
  else
    let '(h', pages) :=
      if size <? ms_size m
      then foldl (truncate_page size) (h, ms_pages m) (map_to_list (ms_pages m))
      else (h, ms_pages m) in
    (h', {| ms_pages := pages; ms_size := size; ms_limit := ms_limit m; ms_closed := ms_closed m |}, None).

(** [page.shared = true] for the pages of the table. *)
Definition share_page h (ip : Z * nat) : page_heap :=
  match h_pages h !! snd ip with
  | Some page => set_page h (snd ip) (MkPage (mp_data page) true)
  | None => h
  end.

Definition MemoryStore_Snapshot h m : page_heap * res memorySnapshot :=
  if ms_closed m then (h, Err ErrStoreClosed)
  else (foldl share_page h (map_to_list (ms_pages m)),
        Ok {| sp_pages := ms_pages m; sp_size := ms_size m |}).

(** ** Page tables *)

#[local] Ltac Zify.zify_post_hook ::= Z.to_euclidean_division_equations.

(** The bytes a page table shows. *)
Definition table_view h (pages : gmap Z nat) (i : Z) : byte :=
  match pages !! (i / memoryPageBytes) with
  | Some pid => nthb (page_data h pid) (i mod memoryPageBytes)
  | None => 0
  end.

(** A store's page table: full pages, none of them used twice. *)
Record table_wf h (pages : gmap Z nat) : Prop := {
  tw_fresh : forall pid page, h_pages h !! pid = Some page -> (pid < h_next h)%nat;
  tw_key : forall index pid, pages !! index = Some pid -> 0 <= index;
  tw_page : forall index pid, pages !! index = Some pid ->
    exists page, h_pages h !! pid = Some page /\ zlen (mp_data page) = memoryPageBytes;
  tw_inj : forall i j pid, pages !! i = Some pid -> pages !! j = Some pid -> i = j;
}.

(** Shared pages are never touched. *)
Definition shared_keep h h' : Prop :=
  forall pid page, h_pages h !! pid = Some page -> mp_shared page = true ->
    h_pages h' !! pid = Some page.

Lemma shared_keep_refl h : shared_keep h h.
Proof. by intros pid page. Qed.

Lemma shared_keep_trans h1 h2 h3 : shared_keep h1 h2 -> shared_keep h2 h3 -> shared_keep h1 h3.
Proof. intros H1 H2 pid page Hp Hs. apply H2; [by apply H1|done]. Qed.

#[export] Hint Resolve shared_keep_refl : trex.

Lemma page_data_eq h pid page : h_pages h !! pid = Some page -> page_data h pid = mp_data page.
Proof. intros H. unfold page_data. by rewrite H. Qed.

(** Using a fresh page for [index]. *)
Lemma alloc_page h pages index data :
  table_wf h pages -> 0 <= index -> zlen data = memoryPageBytes ->
  (forall i, i / memoryPageBytes = index -> nthb data (i mod memoryPageBytes) = table_view h pages i) ->
  let '(h', pid) := alloc h (MkPage data false) in
  table_wf h' (<[index := pid]> pages) /\ shared_keep h h' /\
  h_pages h' !! pid = Some (MkPage data false) /\
  forall i, table_view h' (<[index := pid]> pages) i = table_view h pages i.
Proof.
  intros [H1 H2 H3 H4] Hi Hl Hv. simpl.
  assert (Hne : forall pid page, h_pages h !! pid = Some page -> h_next h <> pid)
    by (intros pid page Hp%H1; lia).
  split_and!.
  - split; simpl.
    + intros pid page [[<- _]|[_ H]]%lookup_insert_Some; [lia|]. apply H1 in H. lia.
    + intros i pid [[<- _]|[_ H]]%lookup_insert_Some; [done|]. by eapply H2.
    + intros i pid [[<- <-]|[_ H]]%lookup_insert_Some; [rewrite lookup_insert_eq; by eexists|].
      destruct (H3 _ _ H) as (page & Hp & ?). exists page. by rewrite lookup_insert_ne by eauto.
    + intros i j pid [[<- <-]|[Hx Hi']]%lookup_insert_Some [[<- Hj]|[Hy Hj]]%lookup_insert_Some; try done.
      * destruct (H3 _ _ Hj) as (page & Hp & _). by apply Hne in Hp.
      * subst pid. destruct (H3 _ _ Hi') as (page & Hp & _). by apply Hne in Hp.
      * by eapply H4.
  - intros pid page Hp _. simpl. by rewrite lookup_insert_ne by eauto.
  - apply lookup_insert_eq.
  - intros i. unfold table_view at 1. destruct (decide (i / memoryPageBytes = index)) as [E|E].
    + rewrite E, lookup_insert_eq. unfold page_data. simpl. rewrite lookup_insert_eq. by apply Hv.
    + rewrite lookup_insert_ne by done. unfold table_view.
      destruct (pages !! (i / memoryPageBytes)) as [pid|] eqn:Ep; [|done].
      destruct (H3 _ _ Ep) as (page & Hp & _). unfold page_data. simpl.
      by rewrite lookup_insert_ne by eauto.
Qed.

Lemma writable_page_spec h pages index :
  table_wf h pages -> 0 <= index ->
  let '(h', pages', pid) := writable_page h pages index in
  table_wf h' pages' /\ shared_keep h h' /\ pages' !! index = Some pid /\
  (exists page, h_pages h' !! pid = Some page /\ mp_shared page = false /\
                zlen (mp_data page) = memoryPageBytes) /\
  (forall i, table_view h' pages' i = table_view h pages i) /\
  (forall j, j <> index -> pages' !! j = pages !! j).
Proof.
  intros Hwf Hi. unfold writable_page. destruct (pages !! index) as [pid|] eqn:Ep.
  - destruct (tw_page _ _ Hwf _ _ Ep) as (page & Hp & Hl). rewrite Hp.
    destruct (mp_shared page) eqn:Es; [|by split_and!; eauto with trex].
    pose proof (alloc_page h pages index (mp_data page) Hwf Hi Hl) as Ha.
    destruct (alloc h _) as [h' pid']. destruct Ha as (A1 & A2 & A3 & A4).
    { intros i E. unfold table_view. by rewrite E, Ep, (page_data_eq _ _ _ Hp). }
    split_and!; try done; [apply lookup_insert_eq|by eauto|].
    intros j Hj. by rewrite lookup_insert_ne.
  - pose proof (alloc_page h pages index (zeros memoryPageBytes) Hwf Hi) as Ha.
    destruct (alloc h _) as [h' pid']. destruct Ha as (A1 & A2 & A3 & A4).
    { by apply zlen_zeros. }
    { intros i E. unfold table_view. by rewrite E, Ep, nthb_zeros. }
    split_and!; try done; [apply lookup_insert_eq| |].
    + eexists. split_and!; [done|done|]. by apply zlen_zeros.
    + intros j Hj. by rewrite lookup_insert_ne.
Qed.

(** Overwriting an unshared page. *)
Lemma set_page_spec h pages index pid page data :
  table_wf h pages -> pages !! index = Some pid -> h_pages h !! pid = Some page ->
  mp_shared page = false -> zlen data = memoryPageBytes ->
  let h' := set_page h pid (MkPage data false) in
  table_wf h' pages /\ shared_keep h h' /\
  forall i, table_view h' pages i
    = if decide (i / memoryPageBytes = index) then nthb data (i mod memoryPageBytes)
      else table_view h pages i.
Proof.
  intros [H1 H2 H3 H4] Hpid Hp Hs Hl. simpl. split_and!.
  - split; simpl; try done.
    + intros pid' page' [[<- _]|[_ H]]%lookup_insert_Some; by eapply H1.
    + intros i pid' H. destruct (decide (pid = pid')) as [<-|].
      * rewrite lookup_insert_eq. by eexists.
      * destruct (H3 _ _ H) as (page' & Hp' & ?). exists page'. by rewrite lookup_insert_ne.
  - intros pid' page' Hp' Hs'. simpl. rewrite lookup_insert_ne; [done|]. intros ->. congruence.
  - intros i. unfold table_view. case_decide as E.
    + rewrite E, Hpid. unfold page_data. simpl. by rewrite lookup_insert_eq.
    + destruct (pages !! (i / memoryPageBytes)) as [pid'|] eqn:Ep; [|done].
      unfold page_data. simpl. rewrite lookup_insert_ne; [done|]. intros ->. by eapply E, H4.
Qed.

(** ** Writing *)

Lemma write_page h pages p off :
  table_wf h pages -> 0 <= off -> 0 < zlen p ->
  let '(h', pages', pid) := writable_page h pages (off / memoryPageBytes) in
  let within := off mod memoryPageBytes in
  let data := page_data h' pid in
  let count := Z.min (zlen p) (zlen data - within) in
  let h'' := set_page h' pid (MkPage (splice data within (slice 0 count p)) false) in
  table_wf h'' pages' /\ shared_keep h h'' /\
  count = Z.min (zlen p) (memoryPageBytes - within) /\
  forall i, 0 <= i -> table_view h'' pages' i = upd (table_view h pages) off (slice 0 count p) i.
Proof.
  intros Hwf Ho Hp.
  pose proof (writable_page_spec h pages (off / memoryPageBytes) Hwf ltac:(unfold memoryPageBytes; lia)) as Hw.
  destruct (writable_page h pages _) as [[h' pages'] pid].
  destruct Hw as (Hwf' & Hk & Hpid & (page & Hpg & Hs & Hl) & Hv & _).
  cbn zeta. rewrite (page_data_eq _ _ _ Hpg), Hl.
  set (within := off mod memoryPageBytes). set (count := Z.min _ _).
  assert (Hw : 0 <= within < memoryPageBytes) by (unfold within, memoryPageBytes; lia).
  assert (Hsl : zlen (slice 0 count p) = count) by (apply zlen_slice; lia).
  assert (Hsp : zlen (splice (mp_data page) within (slice 0 count p)) = memoryPageBytes)
    by (rewrite zlen_splice; lia).
  destruct (set_page_spec h' pages' _ pid page _ Hwf' Hpid Hpg Hs Hsp) as (W1 & W2 & W3).
  split_and!; [done|by eapply shared_keep_trans|done|].
  intros i Hi. rewrite W3. case_decide as E.
  - rewrite nthb_splice by lia. unfold upd. rewrite Hsl.
    assert (Hold : nthb (mp_data page) (i mod memoryPageBytes) = table_view h pages i).
    { rewrite <- Hv. unfold table_view. by rewrite E, Hpid, (page_data_eq _ _ _ Hpg). }
    rewrite Hold. unfold within, memoryPageBytes in *.
    destruct (_ && _) eqn:E1, (_ && _) eqn:E2 in |- *; try lia. f_equal. lia.
  - rewrite upd_out; [apply Hv|]. rewrite Hsl. unfold count, within, memoryPageBytes in *. lia.
Qed.

Lemma WriteAt_loop_spec fuel h pages p off :
  table_wf h pages -> 0 <= off -> zlen p <= Z.of_nat fuel ->
  let '(h', pages') := WriteAt_loop fuel h pages p off in
  table_wf h' pages' /\ shared_keep h h' /\
  forall i, 0 <= i -> table_view h' pages' i = upd (table_view h pages) off p i.
Proof.
  revert h pages p off. induction fuel as [|fuel IH]; intros h pages p off Hwf Ho Hf.
  { assert (p = []) as -> by (apply zlen_0_nil; pose proof (zlen_nonneg p); lia). simpl.
    split_and!; [done|auto with trex|]. intros i Hi. by rewrite upd_nil. }
  cbn [WriteAt_loop]. destruct (Z.ltb_spec 0 (zlen p)) as [Hp|Hp]; cycle 1.
  { assert (p = []) as -> by (apply zlen_0_nil; pose proof (zlen_nonneg p); lia).
    split_and!; [done|auto with trex|]. intros i Hi. by rewrite upd_nil. }
  pose proof (write_page h pages p off Hwf Ho Hp) as Hw.
  destruct (writable_page h pages _) as [[h1 pages1] pid]. cbn zeta in *.
  set (count := Z.min _ _) in *. destruct Hw as (W1 & W2 & W3 & W4).
  set (h2 := set_page h1 pid _) in *.
  assert (Hc : 0 < count <= zlen p) by (rewrite W3; unfold memoryPageBytes; lia).
  assert (Hd : zlen (drop (Z.to_nat count) p) = zlen p - count)
    by (unfold zlen in *; rewrite length_drop; lia).
  specialize (IH h2 pages1 (drop (Z.to_nat count) p) (off + count) W1 ltac:(lia) ltac:(lia)).
  destruct (WriteAt_loop fuel h2 pages1 _ _) as [h3 pages3]. destruct IH as (I1 & I2 & I3).
  split_and!; [done|by eapply shared_keep_trans|].
  intros i Hi. rewrite I3 by done.
  assert (Hsplit : p = slice 0 count p ++ drop (Z.to_nat count) p)
    by (unfold slice; rewrite drop_0; by rewrite take_drop).
  rewrite Hsplit at 2. rewrite upd_app.
  assert (Hsl : zlen (slice 0 count p) = count) by (apply zlen_slice; lia).
  rewrite Hsl. apply upd_ext. by apply W4.
Qed.

(** ** Reading *)

(** The pages of a table are full. *)
Definition table_full h (pages : gmap Z nat) : Prop :=
  forall index pid, pages !! index = Some pid ->
    exists page, h_pages h !! pid = Some page /\ zlen (mp_data page) = memoryPageBytes.

Lemma readMemory_loop_spec fuel h pages count off acc :
  table_full h pages -> 0 <= off -> zlen acc <= count -> count - zlen acc <= Z.of_nat fuel ->
  readMemory_loop fuel h pages count off acc
  = acc ++ range (table_view h pages) off (count - zlen acc).
Proof.
  intros Hfull. revert off acc. induction fuel as [|fuel IH]; intros off acc Ho Hacc Hf; simpl.
  { by rewrite range_nil, app_nil_r by lia. }
  destruct (Z.ltb_spec (zlen acc) count); [|by rewrite range_nil, app_nil_r by lia].
  set (within := off mod memoryPageBytes).
  set (n := Z.min (count - zlen acc) (memoryPageBytes - within)).
  assert (Hn : 0 < n <= count - zlen acc /\ 0 <= within /\ within + n <= memoryPageBytes)
    by (unfold n, within, memoryPageBytes; lia).
  assert (Hdiv : forall i, 0 <= i < n -> (off + i) / memoryPageBytes = off / memoryPageBytes)
    by (unfold within, memoryPageBytes in *; lia).
  assert (Hpiece : match pages !! (off / memoryPageBytes) with
                   | Some pid => slice within n (page_data h pid) | None => zeros n end
                   = range (table_view h pages) off n).
  { destruct (pages !! (off / memoryPageBytes)) as [pid|] eqn:E.
    - destruct (Hfull _ _ E) as (page & Hp & Hl). rewrite (page_data_eq _ _ _ Hp).
      rewrite slice_range by lia. apply range_shift. intros i Hi. unfold table_view.
      rewrite Hdiv, E, (page_data_eq _ _ _ Hp) by done. f_equal.
      unfold within, memoryPageBytes in *. lia.
    - rewrite (zeros_range off) by lia. apply range_shift. intros i Hi. unfold table_view.
      by rewrite Hdiv, E. }
  rewrite Hpiece, IH; rewrite ?zlen_app, ?zlen_range by lia; [|lia..].
  rewrite <- app_assoc. f_equal. rewrite <- range_add by lia. f_equal. lia.
Qed.

(** What [io.ReaderAt] promises, with the store's own refusals. *)
Definition read_result (f : Z -> byte) (size n off : Z) : bytes * option error :=
  if off <? 0 then ([], Some (Errorf "negative read offset"))
  else if n =? 0 then ([], None)
  else if size <=? off then ([], Some EOF)
  else (range f off (Z.min n (size - off)), if size - off <? n then Some EOF else None).

Lemma readMemory_spec h pages size n off :
  table_full h pages -> 0 <= n ->
  readMemory h pages size n off = read_result (table_view h pages) size n off.
Proof.
  intros Hfull Hn. unfold readMemory, read_result.
  destruct (Z.ltb_spec off 0); [done|]. destruct (Z.eqb_spec n 0); [done|].
  destruct (Z.leb_spec size off); [done|].
  rewrite readMemory_loop_spec; rewrite ?zlen_nil; [|done|lia..].
  rewrite Z.sub_0_r. simpl app. rewrite zlen_range by lia. f_equal.
  destruct (Z.ltb_spec (Z.min n (size - off)) n), (Z.ltb_spec (size - off) n); lia || done.
Qed.

Lemma read_result_ext f g size n off :
  (forall i, 0 <= i -> f i = g i) -> read_result f size n off = read_result g size n off.
Proof.
  intros H. unfold read_result. destruct (Z.ltb_spec off 0); [done|].
  destruct (n =? 0); [done|]. destruct (size <=? off); [done|]. f_equal.
  apply range_ext. intros i Hi. apply H. lia.
Qed.

(** ** Truncating *)

Lemma nthb_clear_from data k i :
  0 <= k <= zlen data -> nthb (clear_from data k) i = if i <? k then nthb data i else 0.
Proof.
  intros Hk. unfold clear_from. rewrite nthb_app.
  assert (Hz : zlen (take (Z.to_nat k) data) = k) by (unfold zlen in *; rewrite length_take; lia).
  rewrite Hz. destruct (Z.ltb_spec i k); [|apply nthb_zeros]. apply nthb_take. lia.
Qed.

Lemma zlen_clear_from data k : 0 <= k <= zlen data -> zlen (clear_from data k) = zlen data.
Proof.
  intros Hk. unfold clear_from. rewrite zlen_app, zlen_zeros by lia.
  unfold zlen in *. rewrite length_take. lia.
Qed.

(** What truncating one page does to the bytes of that page. *)
Lemma truncate_page_spec size h pages index pid :
  table_wf h pages -> 0 <= size -> pages !! index = Some pid ->
  let '(h', pages') := truncate_page size (h, pages) (index, pid) in
  table_wf h' pages' /\ shared_keep h h' /\ (forall j, j <> index -> pages' !! j = pages !! j) /\
  forall i, table_view h' pages' i
    = if decide (i / memoryPageBytes = index /\ size <= i) then 0 else table_view h pages i.
Proof.
  intros Hwf Hs Hpid. unfold truncate_page. pose proof (tw_key _ _ Hwf _ _ Hpid) as Hi.
  destruct (Z.leb_spec size (index * memoryPageBytes)) as [Hall|Hpart].
  { split_and!; [|auto with trex|intros j Hj; by rewrite lookup_delete_ne|].
    - destruct Hwf as [H1 H2 H3 H4]. split; try done.
      + intros j pid' [_ H]%lookup_delete_Some. by eapply H2.
      + intros j pid' [_ H]%lookup_delete_Some. by eapply H3.
      + intros j k pid' [_ Ha]%lookup_delete_Some [_ Hb]%lookup_delete_Some. by eapply H4.
    - intros i. unfold table_view at 1. destruct (decide (i / memoryPageBytes = index)) as [E|E].
      + rewrite E, lookup_delete_eq, decide_True; [done|]. unfold memoryPageBytes in *. lia.
      + rewrite lookup_delete_ne, decide_False by naive_solver. done. }
  destruct (Z.ltb_spec (size - index * memoryPageBytes) memoryPageBytes) as [Hin|Hno]; cycle 1.
  { split_and!; [done|auto with trex|done|]. intros i. rewrite decide_False; [done|].
    intros [E Hsz]. unfold memoryPageBytes in *. lia. }
  pose proof (writable_page_spec h pages index Hwf Hi) as Hw.
  destruct (writable_page h pages index) as [[h' pages'] pid'].
  destruct Hw as (Hwf' & Hk & Hpid' & (page & Hpg & Hsh & Hl) & Hv & Hrest).
  rewrite (page_data_eq _ _ _ Hpg).
  assert (Hmod : 0 <= size mod memoryPageBytes <= zlen (mp_data page))
    by (rewrite Hl; unfold memoryPageBytes; lia).
  destruct (set_page_spec h' pages' index pid' page (clear_from (mp_data page) (size mod memoryPageBytes))
    Hwf' Hpid' Hpg Hsh) as (W1 & W2 & W3); [by rewrite zlen_clear_from|].
  split_and!; [done|by eapply shared_keep_trans|done|].
  intros i. rewrite W3. destruct (decide (i / memoryPageBytes = index)) as [E|E]; cycle 1.
  { rewrite decide_False by naive_solver. apply Hv. }
  rewrite nthb_clear_from by done.
  assert (Hold : nthb (mp_data page) (i mod memoryPageBytes) = table_view h pages i).
  { rewrite <- Hv. unfold table_view. by rewrite E, Hpid', (page_data_eq _ _ _ Hpg). }
  rewrite Hold. unfold memoryPageBytes in *.
  destruct (Z.ltb_spec (i mod 65536) (size mod 65536)).
  - rewrite decide_False; [done|]. intros [_ ?]. lia.
  - rewrite decide_True; [done|]. split; [done|lia].
Qed.

Lemma truncate_pages_spec size l h pages :
  table_wf h pages -> 0 <= size -> NoDup l.*1 ->
  (forall index pid, (index, pid) ∈ l -> pages !! index = Some pid) ->
  let '(h', pages') := foldl (truncate_page size) (h, pages) l in
  table_wf h' pages' /\ shared_keep h h' /\
  forall i, table_view h' pages' i
    = if decide (i / memoryPageBytes ∈ l.*1 /\ size <= i) then 0 else table_view h pages i.
Proof.
  intros Hwf Hs. revert h pages Hwf. induction l as [|[index pid] l IH]; intros h pages Hwf Hnd Hl.
  { cbn [foldl]. split_and!; [done|auto with trex|]. intros i. rewrite decide_False; [done|].
    intros [H _]. by apply not_elem_of_nil in H. }
  rewrite fmap_cons in *. apply NoDup_cons in Hnd as [Hnin Hnd]. cbn [foldl fst] in *.
  pose proof (truncate_page_spec size h pages index pid Hwf Hs (Hl _ _ ltac:(left))) as Ht.
  destruct (truncate_page size (h, pages) (index, pid)) as [h1 pages1].
  destruct Ht as (T1 & T2 & T3 & T4).
  specialize (IH h1 pages1 T1 Hnd). destruct (foldl _ (h1, pages1) l) as [h2 pages2].
  destruct IH as (I1 & I2 & I3).
  { intros j pid' Hj. rewrite T3; [apply Hl; by right|]. intros ->. apply Hnin.
    by apply (list_elem_of_fmap_2 fst l (index, pid')). }
  split_and!; [done|by eapply shared_keep_trans|].
  intros i. rewrite I3, T4. repeat case_decide; set_solver.
Qed.

(** ** Sharing *)

Lemma share_pages_spec l h :
  let h' := foldl share_page h l in
  h_next h' = h_next h /\
  (forall pid page', h_pages h' !! pid = Some page' -> is_Some (h_pages h !! pid)) /\
  (forall pid page, h_pages h !! pid = Some page ->
     exists page', h_pages h' !! pid = Some page' /\ mp_data page' = mp_data page /\
       (mp_shared page = true -> page' = page) /\ (pid ∈ l.*2 -> mp_shared page' = true)).
Proof.
  revert h. induction l as [|[index pid0] l IH]; intros h.
  { simpl. split_and!; [done|by eauto|]. intros pid page Hp. exists page. split_and!; try done.
    intros H. by apply not_elem_of_nil in H. }
  rewrite fmap_cons. cbn [foldl snd]. set (h1 := share_page h (index, pid0)).
  destruct (IH h1) as (I1 & I2 & I3).
  assert (Hn : h_next h1 = h_next h) by (unfold h1, share_page; simpl; by case_match).
  assert (Hstep : forall pid page, h_pages h !! pid = Some page ->
    exists page1, h_pages h1 !! pid = Some page1 /\ mp_data page1 = mp_data page /\
      (mp_shared page = true -> page1 = page) /\ (pid = pid0 -> mp_shared page1 = true)).
  { intros pid page Hp. unfold h1, share_page. simpl. destruct (decide (pid0 = pid)) as [<-|Hne].
    - rewrite Hp. simpl. rewrite lookup_insert_eq. eexists. split_and!; try done.
      destruct page; simpl. by intros ->.
    - destruct (h_pages h !! pid0); simpl; rewrite ?lookup_insert_ne by done; exists page; by split_and!. }
  split_and!.
  - by rewrite I1.
  - intros pid page' Hp. apply I2 in Hp as [page1 Hp]. unfold h1, share_page in Hp. simpl in Hp.
    destruct (h_pages h !! pid0) eqn:E; [|by eauto]. simpl in Hp.
    apply lookup_insert_Some in Hp as [[<- _]|[_ Hp]]; eauto.
  - intros pid page Hp. destruct (Hstep pid page Hp) as (p1 & Hp1 & D1 & S1 & T1).
    destruct (I3 pid p1 Hp1) as (p2 & Hp2 & D2 & S2 & T2). exists p2. split_and!; [done|congruence|..].
    + intros Hs. rewrite (S1 Hs) in *. by apply S2.
    + intros [->|Hin]%elem_of_cons; [|by apply T2]. rewrite (S2 (T1 eq_refl)). by apply T1.
Qed.

(** A snapshot's pages are full and shared. *)
Definition snap_ok h (sn : memorySnapshot) : Prop :=
  forall index pid, sp_pages sn !! index = Some pid ->
    exists page, h_pages h !! pid = Some page /\ mp_shared page = true /\
                 zlen (mp_data page) = memoryPageBytes.

(** Nothing that keeps shared pages changes a snapshot. *)
Lemma snap_keep h h' sn :
  shared_keep h h' -> snap_ok h sn ->
  snap_ok h' sn /\ forall i, table_view h' (sp_pages sn) i = table_view h (sp_pages sn) i.
Proof.
  intros Hk Hok. split.
  - intros index pid Hp. destruct (Hok _ _ Hp) as (page & H1 & H2 & H3). exists page. eauto.
  - intros i. unfold table_view. destruct (sp_pages sn !! _) as [pid|] eqn:E; [|done].
    destruct (Hok _ _ E) as (page & H1 & H2 & H3).
    by rewrite (page_data_eq _ _ _ H1), (page_data_eq _ _ _ (Hk _ _ H1 H2)).
Qed.

Lemma share_keep l h : shared_keep h (foldl share_page h l).
Proof.
  intros pid page Hp Hs. destruct (share_pages_spec l h) as (_ & _ & H).
  destruct (H _ _ Hp) as (page' & H1 & _ & H2 & _). by rewrite <- (H2 Hs).
Qed.

Lemma snapshot_pages h pages :
  table_wf h pages ->
  let h' := foldl share_page h (map_to_list pages) in
  table_wf h' pages /\ (forall i, table_view h' pages i = table_view h pages i) /\
  forall size, snap_ok h' (MkMemSnapshot pages size).
Proof.
  intros [H1 H2 H3 H4]. destruct (share_pages_spec (map_to_list pages) h) as (S1 & S2 & S3).
  cbn zeta. set (h' := foldl share_page h (map_to_list pages)) in *. split_and!.
  - split; try done.
    + intros pid page' Hp. rewrite S1. apply S2 in Hp as [page Hp]. by eapply H1.
    + intros index pid Hp. destruct (H3 _ _ Hp) as (page & Hpg & Hl).
      destruct (S3 _ _ Hpg) as (page' & ? & E & _). exists page'. by rewrite E.
  - intros i. unfold table_view. destruct (pages !! _) as [pid|] eqn:E; [|done].
    destruct (H3 _ _ E) as (page & Hpg & Hl). destruct (S3 _ _ Hpg) as (page' & Hpg' & Ed & _).
    by rewrite (page_data_eq _ _ _ Hpg), (page_data_eq _ _ _ Hpg'), Ed.
  - intros size index pid Hp. simpl in Hp. destruct (H3 _ _ Hp) as (page & Hpg & Hl).
    destruct (S3 _ _ Hpg) as (page' & Hpg' & Ed & _ & Hsh). exists page'. split_and!; [done| |by rewrite Ed].
    apply Hsh. by apply (list_elem_of_fmap_2 snd _ (index, pid)), elem_of_map_to_list.
Qed.

(** ** Executions *)

Inductive store_op : Type :=
  | SWrite (p : bytes) (off : Z)
  | SRead (n : nat) (off : Z)
  | STruncate (size : Z)
  | SLength
  | SSync
  | SClose
  | SSnapshot
  | SReadSnapshot (k n : nat) (off : Z).

Inductive store_out : Type :=
  | SBytes (b : bytes) (e : option error)
  | SCount (n : Z) (e : option error)
  | SLen (r : res Z)
  | SDone (e : option error).

Record store_sys := MkStoreSys {
  ss_heap : page_heap;
  ss_store : MemoryStore;
  ss_snaps : list memorySnapshot;
}.

Definition store_step (s : store_sys) (op : store_op) : store_sys * store_out :=
  let h := ss_heap s in
  let m := ss_store s in
  match op with
  | SWrite p off =>
      let '(h', m', n, e) := MemoryStore_WriteAt h m p off in
      (MkStoreSys h' m' (ss_snaps s), SCount n e)
  | SRead n off => let '(b, e) := MemoryStore_ReadAt h m (Z.of_nat n) off in (s, SBytes b e)
  | STruncate size =>
      let '(h', m', e) := MemoryStore_Truncate h m size in (MkStoreSys h' m' (ss_snaps s), SDone e)
  | SLength => (s, SLen (MemoryStore_Length m))
  | SSync => (s, SDone (MemoryStore_Sync m))
  | SClose => (MkStoreSys h (MemoryStore_Close m) (ss_snaps s), SDone None)
  | SSnapshot =>
      match MemoryStore_Snapshot h m with
      | (h', Ok sn) => (MkStoreSys h' m (ss_snaps s ++ [sn]), SDone None)
      | (h', Err e) => (MkStoreSys h' m (ss_snaps s), SDone (Some e))
      end
  | SReadSnapshot k n off =>
      match ss_snaps s !! k with
      | Some sn => let '(b, e) := memorySnapshot_ReadAt h sn (Z.of_nat n) off in (s, SBytes b e)
      | None => (s, SDone None)
      end
  end.

Fixpoint store_run (s : store_sys) (ops : list store_op) : store_sys * list store_out :=
  match ops with
  | [] => (s, [])
  | op :: ops =>
      let '(s', o) := store_step s op in
      let '(s'', os) := store_run s' ops in (s'', o :: os)
  end.

(** ** The specification: a resizable file and frozen copies *)

Record file_spec := MkFileSpec {
  fz_data : Z -> byte;
  fz_size : Z;
  fz_closed : bool;
  fz_snaps : list (Z * (Z -> byte));
}.

Definition file_step (limit : Z) (s : file_spec) (op : store_op) : file_spec * store_out :=
  match op with
  | SWrite p off =>
      if fz_closed s then (s, SCount 0 (Some ErrStoreClosed))
      else if (off <? 0) || (MaxInt64 - off <? zlen p)
      then (s, SCount 0 (Some (Errorf "invalid write range")))
      else if zlen p =? 0 then (s, SCount 0 None)
      else if (limit <? 0) || (limit <? off + zlen p) then (s, SCount 0 (Some ErrStoreLimit))
      else (MkFileSpec (upd (fz_data s) off p) (Z.max (fz_size s) (off + zlen p)) false (fz_snaps s),
            SCount (zlen p) None)
  | SRead n off =>
      if fz_closed s then (s, SBytes [] (Some ErrStoreClosed))
      else let '(b, e) := read_result (fz_data s) (fz_size s) (Z.of_nat n) off in (s, SBytes b e)
  | STruncate size =>
      if fz_closed s then (s, SDone (Some ErrStoreClosed))
      else if size <? 0 then (s, SDone (Some (Errorf "negative store length")))
      else if (limit <? 0) || (limit <? size) then (s, SDone (Some ErrStoreLimit))
      else (MkFileSpec (fun i => if i <? size then fz_data s i else 0) size false (fz_snaps s),
            SDone None)
  | SLength => (s, SLen (if fz_closed s then Err ErrStoreClosed else Ok (fz_size s)))
  | SSync => (s, SDone (if fz_closed s then Some ErrStoreClosed else None))
  | SClose => (MkFileSpec (fz_data s) (fz_size s) true (fz_snaps s), SDone None)
  | SSnapshot =>
      if fz_closed s then (s, SDone (Some ErrStoreClosed))
      else (MkFileSpec (fz_data s) (fz_size s) false (fz_snaps s ++ [(fz_size s, fz_data s)]), SDone None)
  | SReadSnapshot k n off =>
      match fz_snaps s !! k with
      | Some (size, g) => let '(b, e) := read_result g size (Z.of_nat n) off in (s, SBytes b e)
      | None => (s, SDone None)
      end
  end.

Fixpoint file_run (limit : Z) (s : file_spec) (ops : list store_op) : file_spec * list store_out :=
  match ops with
  | [] => (s, [])
  | op :: ops =>
      let '(s', o) := file_step limit s op in
      let '(s'', os) := file_run limit s' ops in (s'', o :: os)
  end.

(** ** Refinement *)

Definition snap_sim h (sn : memorySnapshot) (t : Z * (Z -> byte)) : Prop :=
  snap_ok h sn /\ sp_size sn = fst t /\ forall i, 0 <= i -> table_view h (sp_pages sn) i = snd t i.

Record store_sim (limit : Z) (s : store_sys) (t : file_spec) : Prop := {
  sm_closed : ms_closed (ss_store s) = fz_closed t;
  sm_limit : ms_limit (ss_store s) = limit;
  sm_open : fz_closed t = false ->
    table_wf (ss_heap s) (ms_pages (ss_store s)) /\ ms_size (ss_store s) = fz_size t /\
    (forall i, 0 <= i -> table_view (ss_heap s) (ms_pages (ss_store s)) i = fz_data t i) /\
    (forall i, fz_size t <= i -> fz_data t i = 0) /\ 0 <= fz_size t;
  sm_snaps : Forall2 (snap_sim (ss_heap s)) (ss_snaps s) (fz_snaps t);
}.

Lemma snaps_keep h h' sns ts :
  shared_keep h h' -> Forall2 (snap_sim h) sns ts -> Forall2 (snap_sim h') sns ts.
Proof.
  intros Hk Hall. eapply Forall2_impl; [exact Hall|]. intros sn t (H1 & H2 & H3).
  destruct (snap_keep h h' sn Hk H1) as [H4 H5]. split_and!; [done|done|].
  intros i Hi. rewrite H5. by apply H3.
Qed.

Lemma table_wf_full h pages : table_wf h pages -> table_full h pages.
Proof. intros [_ _ H _]. exact H. Qed.

(** A step that matches the specification. *)
Definition step_ok (limit : Z) (t : file_spec) (op : store_op) (s' : store_sys) (o : store_out) : Prop :=
  snd (file_step limit t op) = o /\ store_sim limit s' (fst (file_step limit t op)).

Lemma sim_write limit s t p off :
  store_sim limit s t ->
  let '(s', o) := store_step s (SWrite p off) in step_ok limit t (SWrite p off) s' o.
Proof.
  intros Hsim. pose proof Hsim as [Hc Hl Ho Hsn]. unfold step_ok, store_step, MemoryStore_WriteAt, file_step.
  assert (Heta : MkStoreSys (ss_heap s) (ss_store s) (ss_snaps s) = s) by (by destruct s).
  rewrite Hc, Hl. destruct (fz_closed t) eqn:Ec; [by rewrite Heta|].
  destruct ((off <? 0) || _) eqn:E1; [by rewrite Heta|].
  destruct (Z.eqb_spec (zlen p) 0); [by rewrite Heta|].
  destruct ((limit <? 0) || _) eqn:E2; [by rewrite Heta|].
  destruct Ho as (Hwf & Hsz & Hv & Hz & Hpos); [done|]. pose proof (zlen_nonneg p).
  pose proof (WriteAt_loop_spec (length p) (ss_heap s) (ms_pages (ss_store s)) p off Hwf
    ltac:(lia) ltac:(unfold zlen; lia)) as Hw.
  destruct (WriteAt_loop _ _ _ _ _) as [h' pages]. destruct Hw as (W1 & W2 & W3). simpl.
  split; [done|]. split; simpl; try done.
  - intros _. split_and!; [done|by rewrite Hsz| | |lia].
    + intros i Hi. rewrite W3 by done. by apply upd_ext, Hv.
    + intros i Hi. rewrite upd_out by lia. apply Hz. lia.
  - by eapply snaps_keep.
Qed.

Lemma sim_truncate limit s t size :
  store_sim limit s t ->
  let '(s', o) := store_step s (STruncate size) in step_ok limit t (STruncate size) s' o.
Proof.
  intros Hsim. pose proof Hsim as [Hc Hl Ho Hsn]. unfold step_ok, store_step, MemoryStore_Truncate, file_step.
  assert (Heta : MkStoreSys (ss_heap s) (ss_store s) (ss_snaps s) = s) by (by destruct s).
  rewrite Hc, Hl. destruct (fz_closed t) eqn:Ec; [by rewrite Heta|].
  destruct (Z.ltb_spec size 0); [by rewrite Heta|].
  destruct ((limit <? 0) || _) eqn:E2; [by rewrite Heta|].
  destruct Ho as (Hwf & Hsz & Hv & Hz & Hpos); [done|].
  destruct (Z.ltb_spec size (ms_size (ss_store s))).
  - pose proof (truncate_pages_spec size (map_to_list (ms_pages (ss_store s))) (ss_heap s)
      (ms_pages (ss_store s)) Hwf ltac:(done) (NoDup_fst_map_to_list _)) as Ht.
    destruct (foldl _ _ _) as [h' pages]. destruct Ht as (T1 & T2 & T3).
    { intros index pid. by rewrite elem_of_map_to_list. }
    simpl. split; [done|]. split; simpl; try done; [|by eapply snaps_keep].
    intros _. split_and!; [done|done| |intros i Hi; destruct (Z.ltb_spec i size); lia || done|done].
    intros i Hi. rewrite T3. destruct (Z.ltb_spec i size).
    + rewrite decide_False by lia. by apply Hv.
    + case_decide as E; [done|]. unfold table_view.
      destruct (ms_pages (ss_store s) !! _) as [pid|] eqn:Ep; [|done]. exfalso. apply E. split; [|done].
      by apply (list_elem_of_fmap_2 fst _ (_, pid)), elem_of_map_to_list.
  - simpl. split; [done|]. split; simpl; try done. intros _.
    split_and!; [done|done| |intros i Hi; destruct (Z.ltb_spec i size); lia || done|done].
    intros i Hi. rewrite Hv by done. destruct (Z.ltb_spec i size); [done|]. apply Hz. lia.
Qed.

Lemma sim_snapshot limit s t :
  store_sim limit s t ->
  let '(s', o) := store_step s SSnapshot in step_ok limit t SSnapshot s' o.
Proof.
  intros Hsim. pose proof Hsim as [Hc Hl Ho Hsn]. unfold step_ok, store_step, MemoryStore_Snapshot, file_step.
  rewrite Hc. destruct (fz_closed t) eqn:Ec; [by destruct s|].
  destruct Ho as (Hwf & Hsz & Hv & Hz & Hpos); [done|].
  destruct (snapshot_pages _ _ Hwf) as (S1 & S2 & S3). simpl.
  split; [done|]. split; simpl; try done.
  - intros _. split_and!; try done. intros i Hi. rewrite S2. by apply Hv.
  - apply Forall2_app; [by eapply snaps_keep; [apply share_keep|]|]. constructor; [|done].
    split_and!; [apply S3|done|]. simpl. intros i Hi. rewrite S2. by apply Hv.
Qed.

Lemma store_step_ok limit s t op :
  store_sim limit s t -> let '(s', o) := store_step s op in step_ok limit t op s' o.
Proof.
  intros Hsim. pose proof Hsim as [Hc Hl Ho Hsn].
  destruct op as [p off|n off|size| | | | |k n off];
    [by apply sim_write| |by apply sim_truncate| | | |by apply sim_snapshot|]; unfold step_ok; simpl.
  - unfold MemoryStore_ReadAt. rewrite Hc. destruct (fz_closed t) eqn:Ec; [done|].
    destruct Ho as (Hwf & Hsz & Hv & Hz & Hpos); [done|].
    rewrite readMemory_spec, Hsz by (apply table_wf_full || lia; done).
    rewrite (read_result_ext _ (fz_data t)) by done. by destruct (read_result _ _ _ _).
  - unfold MemoryStore_Length. rewrite Hc. destruct (fz_closed t); [done|].
    destruct Ho as (_ & -> & _); [done|]. done.
  - unfold MemoryStore_Sync. by rewrite Hc.
  - split; [done|]. by split.
  - destruct (ss_snaps s !! k) as [sn|] eqn:Ek.
    + destruct (Forall2_lookup_l _ _ _ _ _ Hsn Ek) as ([size g] & -> & (S1 & S2 & S3)).
      unfold memorySnapshot_ReadAt. rewrite readMemory_spec, S2; [|intros i pid Hp|lia].
      * rewrite (read_result_ext _ g) by done. simpl. by destruct (read_result _ _ _ _).
      * destruct (S1 _ _ Hp) as (page & ? & _ & ?). by exists page.
    + apply lookup_ge_None in Ek. rewrite (Forall2_length _ _ _ Hsn) in Ek.
      by rewrite (proj2 (lookup_ge_None (fz_snaps t) k)).
Qed.

Definition store_init (limit : Z) : store_sys := MkStoreSys (MkHeap ∅ 0) (NewMemoryStore limit) [].
Definition file_init : file_spec := MkFileSpec (fun _ => 0) 0 false [].

Lemma store_init_sim limit : store_sim limit (store_init limit) file_init.
Proof. split; simpl; try done. Qed.

Lemma store_run_ok limit ops : forall s t,
  store_sim limit s t -> snd (store_run s ops) = snd (file_run limit t ops) /\
  store_sim limit (fst (store_run s ops)) (fst (file_run limit t ops)).
Proof.
  induction ops as [|op ops IH]; intros s t Hsim; simpl; [done|].
  pose proof (store_step_ok limit s t op Hsim) as Hs. unfold step_ok in Hs.
  destruct (store_step s op) as [s1 o], (file_step limit t op) as [t1 o']. simpl in Hs.
  destruct Hs as [-> Hs]. destruct (IH s1 t1 Hs) as [I1 I2].
  destruct (store_run s1 ops), (file_run limit t1 ops). simpl in *. by rewrite I1.
Qed.

(** C11.  [MemoryStore] refines a resizable file with frozen copies.  Any
    sequence of calls on a store and on the snapshots taken from it returns
    what the same calls return on one file: bytes that were never written, or
    were cut off and uncovered again, read as zero; a short read ends with
    EOF; writes and truncations beyond the limit are refused and change
    nothing; a snapshot keeps returning the content and the length of the
    moment it was taken although it shares its pages with the store, also
    after the store has been closed; a closed store refuses everything. *)
Theorem MemoryStore_refines limit ops :
  snd (store_run (store_init limit) ops) = snd (file_run limit file_init ops).
Proof. apply store_run_ok, store_init_sim. Qed.

(** Writing past the end, sharing a page with a snapshot, truncating and
    growing again. *)
Example MemoryStore_example :
  snd (store_run (store_init 70000)
    [SWrite [1; 2; 3] 65535; SSnapshot; SWrite [9] 65536; STruncate 65537; STruncate 65540;
     SRead 4 65535; SReadSnapshot 0 4 65535; SWrite [7] 70000; SClose; SLength; SReadSnapshot 0 2 65536])
  = [SCount 3 None; SDone None; SCount 1 None; SDone None; SDone None;
     SBytes [1; 9; 0; 0] None; SBytes [1; 2; 3] (Some EOF); SCount 0 (Some ErrStoreLimit);
     SDone None; SLen (Err ErrStoreClosed); SBytes [2; 3] None].
Proof. vm_compute. reflexivity. Qed.
