(* ===== verification/Channel.v ===== *)
(** Package [channel]: the bounded in-memory duplex stream with readiness
    notifications and checkpoints (src/channel/memory.go), [WriteAll]
    (src/channel/channel.go), and the adapter that buffers a backend stream
    for readers that poll (src/channel/ready.go).

    A notification is a Go channel that is closed once and replaced; it is
    modelled by its position in the sequence of replacements, so it is closed
    exactly when a later one has taken its place. *)

From S2P Require Import Prelude GoLib.
From stdpp Require Import base numbers list gmap sorting strings relations.

Open Scope Z_scope.
Open Scope trex_scope.

(** ** [WriteAll] *)

(** [write] is the writer over its state; a count beyond the data makes
    [data[count:]] panic. *)
Fixpoint WriteAll {S} (write : S -> bytes -> S * Z * option error) (fuel : nat) (s : S) (data : bytes)
    : S * option error :=
  if zlen data =? 0 then (s, None)
  else match fuel with
  | O => (s, Some OutOfFuel)
  | Datatypes.S fuel =>
      let '(s', count, e) := write s data in
      match e with
      | Some e => (s', Some e)
      | None =>
          if count =? 0 then (s', Some ErrShortWrite)
          else if (count <? 0) || (zlen data <? count) then (s', Some Panic)
          else WriteAll write fuel s' (drop (Z.to_nat count) data)
      end
  end.

(** ** The memory pair *)

(** Two-element arrays indexed by the side. *)
Definition get {A} (side : bool) (x : A * A) : A := if side then snd x else fst x.
Definition put {A} (side : bool) (a : A) (x : A * A) : A * A :=
  if side then (fst x, a) else (a, snd x).

Record memoryState := MkMemState {
  st_data : bytes * bytes;
  st_closed : bool * bool;
}.

(** [pr_changed] counts the notification channels made so far per side. *)
Record memoryPair := MkPair {
  pr_maximum : Z;
  pr_state : memoryState;
  pr_changed : Z * Z;
}.

Implicit Types p : memoryPair.
Implicit Types side : bool.

Definition pr_data p side : bytes := get side (st_data (pr_state p)).
Definition pr_closed p side : bool := get side (st_closed (pr_state p)).

Inductive notification : Type :=
  | memoryReady
  | Changed (side : bool) (epoch : Z).

(** Whether a receive from the notification returns. *)
Definition notified p (n : notification) : bool :=
  match n with memoryReady => true | Changed side epoch => epoch <? get side (pr_changed p) end.

Definition notifyLocked p side : memoryPair :=
  {| pr_maximum := pr_maximum p; pr_state := pr_state p;
     pr_changed := put side (get side (pr_changed p) + 1) (pr_changed p) |}.

Definition NewMemoryPair (maximum : Z) : res memoryPair :=
  guard! (Errorf "memory channel requires a positive capacity") when maximum <=? 0 in
  Ok {| pr_maximum := maximum;
        pr_state := {| st_data := ([], []); st_closed := (false, false) |};
        pr_changed := (0, 0) |}.

Definition set_data p side (data : bytes) : memoryPair :=
  {| pr_maximum := pr_maximum p;
     pr_state := {| st_data := put side data (st_data (pr_state p));
                    st_closed := st_closed (pr_state p) |};
     pr_changed := pr_changed p |}.

Definition Memory_ReadReady p side : notification :=
  if negb (zlen (pr_data p side) =? 0) || pr_closed p side || pr_closed p (negb side)
  then memoryReady else Changed side (get side (pr_changed p)).

Definition Memory_WriteCapacity p side : res (Z * notification) :=
  let peer := negb side in
  guard! ErrClosedPipe when pr_closed p side || pr_closed p peer in
  Ok (pr_maximum p - zlen (pr_data p peer), Changed peer (get peer (pr_changed p))).

Definition Memory_Read p side (n : Z) : memoryPair * bytes * option error :=
  if n =? 0 then (p, [], None)
  else if pr_closed p side then (p, [], Some ErrClosedPipe)
  else
    let data := pr_data p side in
    if zlen data =? 0 then
      if pr_closed p (negb side) then (p, [], Some EOF) else (p, [], Some ErrWouldBlock)
    else
      let got := slice 0 n data in
      (notifyLocked (set_data p side (drop (length got) data)) side, got, None).

Definition Memory_Write p side (data : bytes) : memoryPair * Z * option error :=
  let peer := negb side in
  if pr_closed p side || pr_closed p peer then (p, 0, Some ErrClosedPipe)
  else if pr_maximum p - zlen (pr_data p peer) <? zlen data then (p, 0, Some ErrWouldBlock)
  else
    let p' := set_data p peer (pr_data p peer ++ data) in
    (if negb (zlen data =? 0) then notifyLocked p' peer else p', zlen data, None).

Definition Memory_Close p side : memoryPair :=
  if pr_closed p side then p
  else
    notifyLocked (notifyLocked
      {| pr_maximum := pr_maximum p;
         pr_state := {| st_data := st_data (pr_state p);
                        st_closed := put side true (st_closed (pr_state p)) |};
         pr_changed := pr_changed p |} false) true.

(** [CaptureCheckpoint] and the function it returns. *)
Definition Memory_CaptureCheckpoint p : memoryState := pr_state p.

Definition Memory_restore p (saved : memoryState) : memoryPair :=
  notifyLocked (notifyLocked
    {| pr_maximum := pr_maximum p; pr_state := saved; pr_changed := pr_changed p |} false) true.

(** ** Executions *)

Inductive pair_op : Type :=
  | PRead (side : bool) (n : nat)
  | PWrite (side : bool) (data : bytes)
  | PClose (side : bool)
  | PCapture
  | PRestore (k : nat).

Inductive pair_out : Type :=
  | PBytes (b : bytes) (e : option error)
  | PCount (n : Z) (e : option error)
  | PDone.

(** The pair and the checkpoints taken. *)
Definition pair_sys : Type := memoryPair * list memoryState.

Definition pair_step (s : pair_sys) (op : pair_op) : pair_sys * pair_out :=
  let '(p, saved) := s in
  match op with
  | PRead side n => let '(p', b, e) := Memory_Read p side (Z.of_nat n) in ((p', saved), PBytes b e)
  | PWrite side data => let '(p', n, e) := Memory_Write p side data in ((p', saved), PCount n e)
  | PClose side => ((Memory_Close p side, saved), PDone)
  | PCapture => ((p, saved ++ [Memory_CaptureCheckpoint p]), PDone)
  | PRestore k =>
      match saved !! k with
      | Some st => ((Memory_restore p st, saved), PDone)
      | None => ((p, saved), PDone)
      end
  end.

Fixpoint pair_run (s : pair_sys) (ops : list pair_op) : pair_sys * list pair_out :=
  match ops with
  | [] => (s, [])
  | op :: ops =>
      let '(s', o) := pair_step s op in
      let '(s'', os) := pair_run s' ops in (s'', o :: os)
  end.

(** The bytes a call delivers to the reader of [side], and the bytes it
    accepts for that reader. *)
Definition bytes_read side (op : pair_op) (o : pair_out) : bytes :=
  match op, o with
  | PRead s _, PBytes b _ => if Bool.eqb s side then b else []
  | _, _ => []
  end.

Definition bytes_written side (op : pair_op) (o : pair_out) : bytes :=
  match op, o with
  | PWrite s data, PCount _ None => if Bool.eqb s (negb side) then data else []
  | _, _ => []
  end.

Fixpoint total (count : pair_op -> pair_out -> bytes) (ops : list pair_op) (os : list pair_out) : bytes :=
  match ops, os with
  | op :: ops, o :: os => count op o ++ total count ops os
  | _, _ => []
  end.

Definition no_restore (op : pair_op) : bool := match op with PRestore _ => false | _ => true end.

(** ** The stream is first in, first out *)

Lemma get_put_eq {A} side (a : A) x : get side (put side a x) = a.
Proof. by destruct side. Qed.
Lemma get_put_ne {A} side (a : A) x : get (negb side) (put side a x) = get (negb side) x.
Proof. by destruct side. Qed.
Lemma get_put_ne' {A} side (a : A) x : get side (put (negb side) a x) = get side x.
Proof. by destruct side. Qed.

#[export] Hint Rewrite @get_put_eq @get_put_ne @get_put_ne' : trex.

(** A new pair, and what holds of it from then on. *)
Record pair_inv (maximum : Z) p : Prop := {
  pi_max : pr_maximum p = maximum;
  pi_bound : forall side, zlen (pr_data p side) <= maximum;
}.

Lemma slice_0_drop {A} n (l : list A) : slice 0 n l ++ drop (length (slice 0 n l)) l = l.
Proof.
  unfold slice. rewrite drop_0, length_take.
  destruct (decide (Z.to_nat n <= length l)%nat).
  - rewrite Nat.min_l by done. apply take_drop.
  - rewrite Nat.min_r, take_ge, drop_all, app_nil_r by lia. done.
Qed.

Lemma pair_step_fifo maximum p saved op side :
  pair_inv maximum p -> no_restore op = true ->
  let '((p', saved'), o) := pair_step (p, saved) op in
  pair_inv maximum p' /\
  bytes_read side op o ++ pr_data p' side = pr_data p side ++ bytes_written side op o.
Proof.
  intros [Hm Hb] Hop. destruct op as [s n|s data|s| |]; try done; simpl.
  - unfold Memory_Read. destruct (Z.of_nat n =? 0); [by rewrite app_nil_r; destruct (Bool.eqb _ _)|].
    destruct (pr_closed p s); [by rewrite app_nil_r; destruct (Bool.eqb _ _)|].
    destruct (zlen (pr_data p s) =? 0).
    { destruct (pr_closed p (negb s)); by rewrite app_nil_r; destruct (Bool.eqb _ _). }
    set (got := slice 0 (Z.of_nat n) (pr_data p s)). rewrite app_nil_r. split.
    + split; [done|]. intros t. specialize (Hb t). unfold pr_data in *. simpl.
      destruct (decide (t = s)) as [->|Ht].
      * rewrite get_put_eq. unfold zlen in *. rewrite length_drop. lia.
      * destruct t, s; try done.
    + pose proof (slice_0_drop (Z.of_nat n) (pr_data p s)) as Hd. fold got in Hd.
      unfold pr_data at 1. simpl. destruct (Bool.eqb s side) eqn:E.
      * apply Bool.eqb_prop in E as ->. by rewrite get_put_eq.
      * unfold pr_data. by destruct s, side.
  - unfold Memory_Write. destruct (pr_closed p s || pr_closed p (negb s)); [by rewrite app_nil_r|].
    destruct (Z.ltb_spec (pr_maximum p - zlen (pr_data p (negb s))) (zlen data)); [by rewrite app_nil_r|].
    set (p1 := set_data p (negb s) (pr_data p (negb s) ++ data)).
    assert (Hp1 : forall q, q = (if negb (zlen data =? 0) then notifyLocked p1 (negb s) else p1) ->
      pr_maximum q = pr_maximum p /\ forall t, pr_data q t = get t (put (negb s) (pr_data p (negb s) ++ data) (st_data (pr_state p)))).
    { intros q ->. by destruct (negb (zlen data =? 0)). }
    destruct (Hp1 _ eq_refl) as [E1 E2]. split.
    + split; [congruence|]. intros t. rewrite E2. specialize (Hb t). destruct (decide (t = negb s)) as [->|Ht].
      * rewrite get_put_eq, zlen_app. lia.
      * unfold pr_data in *. destruct t, s; simpl in *; try done.
    + rewrite E2. destruct s, side; simpl; rewrite ?app_nil_r; done.
  - unfold Memory_Close. rewrite app_nil_r. by destruct (pr_closed p s).
  - by rewrite app_nil_r.
Qed.

Lemma pair_run_fifo maximum ops : forall s side,
  pair_inv maximum (fst s) -> forallb no_restore ops = true ->
  let '(s', os) := pair_run s ops in
  pair_inv maximum (fst s') /\
  total (bytes_read side) ops os ++ pr_data (fst s') side
  = pr_data (fst s) side ++ total (bytes_written side) ops os.
Proof.
  induction ops as [|op ops IH]; intros [p saved] side Hinv Hops; simpl in *.
  { by rewrite app_nil_r. }
  apply andb_true_iff in Hops as [Hop Hops].
  pose proof (pair_step_fifo maximum p saved op side Hinv Hop) as Hs. simpl in Hs.
  destruct (pair_step (p, saved) op) as [[p1 saved1] o] eqn:E1.
  unfold pair_step in E1. rewrite E1 in Hs. destruct Hs as [Hinv1 Hs].
  specialize (IH (p1, saved1) side Hinv1 Hops). rewrite E1.
  destruct (pair_run (p1, saved1) ops) as [s2 os]. destruct IH as [I1 I2]. split; [done|].
  simpl in *. rewrite <- app_assoc, I2, !app_assoc. by rewrite Hs.
Qed.

(** The memory channel is a bounded, loss-free stream.  In every state
    two fresh endpoints can reach (without restoring a checkpoint), what the
    reader of a side has received followed by what is queued for it is exactly
    what has been accepted for it, in order, and at most [maximum] bytes are
    queued.  A reader sees EOF only after it has received everything and its
    peer has closed; while bytes are queued and its own side is open a read
    returns some of them, even after the peer has closed. *)
Lemma Memory_stream maximum p0 ops side :
  NewMemoryPair maximum = Ok p0 -> forallb no_restore ops = true ->
  let '((p, _), os) := pair_run (p0, []) ops in
  total (bytes_read side) ops os ++ pr_data p side = total (bytes_written side) ops os /\
  zlen (pr_data p side) <= maximum /\
  (forall n, 0 < n ->
     let '(_, b, e) := Memory_Read p side n in
     (e = Some EOF -> total (bytes_read side) ops os = total (bytes_written side) ops os /\
                      pr_closed p (negb side) = true) /\
     (pr_closed p side = false -> pr_data p side <> [] -> e = None /\ b <> [])).
Proof.
  unfold NewMemoryPair. destruct (maximum <=? 0) eqn:Em; [done|]. intros [= <-] Hops.
  set (p0 := {| pr_maximum := maximum |}).
  assert (Hinv : pair_inv maximum p0).
  { split; [done|]. intros []; unfold zlen; simpl; lia. }
  pose proof (pair_run_fifo maximum ops (p0, []) side Hinv Hops) as H.
  destruct (pair_run (p0, []) ops) as [[p saved] os]. simpl in H. destruct H as [[H1 H2] H3].
  assert (E0 : pr_data p0 side = []) by (by destruct side). rewrite E0 in H3. simpl in H3.
  split_and!; [done|apply H2|]. intros n Hn. unfold Memory_Read.
  destruct (Z.eqb_spec n 0); [lia|]. destruct (pr_closed p side); [done|].
  destruct (Z.eqb_spec (zlen (pr_data p side)) 0) as [Ez|Ez].
  - apply zlen_0_nil in Ez. rewrite Ez, app_nil_r in H3.
    destruct (pr_closed p (negb side)) eqn:Ec; split; try done.
  - split; [done|]. intros _ Hne. split; [done|]. unfold slice. rewrite drop_0.
    destruct (pr_data p side) as [|x l]; [done|]. destruct (Z.to_nat n) eqn:En; [lia|]. done.
Qed.


(** ** Notifications *)

(** [p'] comes after [p]: the notifications only move forward, and a side
    whose notification has not moved is unchanged. *)
Definition later p p' : Prop :=
  pr_maximum p' = pr_maximum p /\
  forall side, get side (pr_changed p) <= get side (pr_changed p') /\
    (get side (pr_changed p') = get side (pr_changed p) ->
     pr_data p' side = pr_data p side /\ forall s, pr_closed p' s = pr_closed p s).

Lemma later_refl p : later p p.
Proof. split; [done|]. intros side. split; [lia|done]. Qed.

Lemma later_trans p1 p2 p3 : later p1 p2 -> later p2 p3 -> later p1 p3.
Proof.
  intros [Hm1 H1] [Hm2 H2]. split; [congruence|]. intros side.
  destruct (H1 side) as [L1 E1], (H2 side) as [L2 E2]. split; [lia|]. intros E.
  destruct E1 as [D1 C1]; [lia|]. destruct E2 as [D2 C2]; [lia|].
  split; [congruence|]. intros s. by rewrite C2, C1.
Qed.

(** After both sides have been notified anything may have changed. *)
Lemma later_both p st :
  later p (notifyLocked (notifyLocked (MkPair (pr_maximum p) st (pr_changed p)) false) true).
Proof. split; [done|]. intros []; simpl; split; lia. Qed.

Lemma pair_step_later p saved op : later p (fst (fst (pair_step (p, saved) op))).
Proof.
  destruct op as [s n|s data|s| |k]; simpl.
  - unfold Memory_Read. destruct (Z.of_nat n =? 0); [apply later_refl|].
    destruct (pr_closed p s); [apply later_refl|]. destruct (zlen (pr_data p s) =? 0).
    { destruct (pr_closed p (negb s)); apply later_refl. }
    split; [done|]. intros []; destruct s; simpl; split; try lia; done.
  - unfold Memory_Write. destruct (pr_closed p s || pr_closed p (negb s)); [apply later_refl|].
    destruct (pr_maximum p - zlen (pr_data p (negb s)) <? zlen data); [apply later_refl|].
    destruct (Z.eqb_spec (zlen data) 0) as [E%zlen_0_nil|E]; simpl.
    + subst. split; [done|]. intros []; destruct s; simpl; (split; [lia|]); intros _;
        unfold pr_data, pr_closed; simpl; rewrite ?app_nil_r; done.
    + split; [done|]. intros []; destruct s; simpl; split; try lia; done.
  - unfold Memory_Close. destruct (pr_closed p s); [apply later_refl|]. apply later_both.
  - apply later_refl.
  - destruct (saved !! k) as [st|]; [apply later_both|apply later_refl].
Qed.

Lemma pair_run_later ops : forall s, later (fst s) (fst (fst (pair_run s ops))).
Proof.
  induction ops as [|op ops IH]; intros [p saved]; [apply later_refl|]. cbn [pair_run].
  pose proof (pair_step_later p saved op) as H1. destruct (pair_step (p, saved) op) as [s1 o].
  specialize (IH s1). destruct (pair_run s1 ops) as [s2 os]. simpl in *. by eapply later_trans.
Qed.

(** No wake-up is lost.  Take a notification from [ReadReady] and let
    both endpoints, and restored checkpoints, do anything: if a read would
    then return anything but [ErrWouldBlock], the notification has fired.
    Likewise for [WriteCapacity]: unless its notification has fired, the
    stream is still open and exactly the reported capacity is available. *)
Lemma Memory_no_lost_wakeup p saved ops side :
  let p' := fst (fst (pair_run (p, saved) ops)) in
  (forall n, 0 < n -> snd (Memory_Read p' side n) <> Some ErrWouldBlock ->
     notified p' (Memory_ReadReady p side) = true) /\
  (forall available n, Memory_WriteCapacity p side = Ok (available, n) -> notified p' n = false ->
     Memory_WriteCapacity p' side = Ok (available, n)).
Proof.
  intros p'. pose proof (pair_run_later ops (p, saved)) as [Hm H]. simpl in *. fold p' in Hm, H.
  split.
  - intros n Hn Hr. unfold Memory_ReadReady.
    destruct (negb (zlen (pr_data p side) =? 0) || pr_closed p side || pr_closed p (negb side)) eqn:E; [done|].
    destruct (H side) as [Hle Heq]. simpl. apply Z.ltb_lt.
    destruct (Z.eq_dec (get side (pr_changed p')) (get side (pr_changed p))) as [Ee|]; [|lia].
    exfalso. apply Hr. destruct (Heq Ee) as [Hd Hc]. unfold Memory_Read. rewrite Hd, !Hc.
    apply orb_false_iff in E as [E E3]. apply orb_false_iff in E as [E1 E2].
    apply negb_false_iff in E1. rewrite E1, E2, E3. destruct (Z.eqb_spec n 0); [lia|done].
  - intros available n Hw Hn. unfold Memory_WriteCapacity in *.
    destruct (pr_closed p side || pr_closed p (negb side)) eqn:E; [done|]. injection Hw as <- <-.
    simpl in Hn. destruct (H (negb side)) as [Hle Heq].
    assert (Ee : get (negb side) (pr_changed p') = get (negb side) (pr_changed p)) by lia.
    destruct (Heq Ee) as [Hd Hc]. by rewrite Hd, !Hc, E, Hm, Ee.
Qed.

(** ** Checkpoints *)

Definition same_stream p p' : Prop := pr_maximum p' = pr_maximum p /\ pr_state p' = pr_state p.

Lemma pair_step_same p p' saved op :
  same_stream p p' ->
  let '((q, saved1), o) := pair_step (p, saved) op in
  let '((q', saved1'), o') := pair_step (p', saved) op in
  o = o' /\ saved1 = saved1' /\ same_stream q q'.
Proof.
  intros [Hm Hs].
  assert (Hd : forall s, pr_data p' s = pr_data p s) by (intros; unfold pr_data; by rewrite Hs).
  assert (Hc : forall s, pr_closed p' s = pr_closed p s) by (intros; unfold pr_closed; by rewrite Hs).
  destruct op as [s n|s data|s| |k]; simpl.
  - unfold Memory_Read. rewrite Hd, !Hc. destruct (Z.of_nat n =? 0); [by split_and!|].
    destruct (pr_closed p s); [by split_and!|]. destruct (zlen (pr_data p s) =? 0).
    { destruct (pr_closed p (negb s)); by split_and!. }
    split_and!; [done|done|]. split; [done|]. simpl. by rewrite Hs.
  - unfold Memory_Write. rewrite Hd, !Hc, Hm. destruct (_ || _); [by split_and!|].
    destruct (_ <? _); [by split_and!|]. split_and!; [done|done|].
    destruct (negb _); (split; [done|]); simpl; by rewrite Hs.
  - unfold Memory_Close. rewrite Hc. destruct (pr_closed p s); [by split_and!|].
    split_and!; [done|done|]. split; [done|]. simpl. by rewrite Hs.
  - unfold Memory_CaptureCheckpoint. by rewrite Hs.
  - destruct (saved !! k); by split_and!.
Qed.

Lemma pair_run_same ops : forall p p' saved,
  same_stream p p' -> snd (pair_run (p, saved) ops) = snd (pair_run (p', saved) ops).
Proof.
  induction ops as [|op ops IH]; intros p p' saved Hs; [done|]. cbn [pair_run].
  pose proof (pair_step_same p p' saved op Hs) as H1.
  destruct (pair_step (p, saved) op) as [[q saved1] o], (pair_step (p', saved) op) as [[q' saved1'] o'].
  destruct H1 as (-> & -> & Hq). specialize (IH q q' saved1' Hq).
  destruct (pair_run (q, saved1') ops), (pair_run (q', saved1') ops). simpl in *. by rewrite IH.
Qed.

(** Checkpoints can be replayed: whatever is done to the stream after a
    checkpoint, restoring it makes every later sequence of calls behave as it
    would have right after the capture, any number of times. *)
Lemma Memory_checkpoint_replay p saved ops1 ops2 :
  let st := Memory_CaptureCheckpoint p in
  let p1 := fst (fst (pair_run (p, saved) ops1)) in
  snd (pair_run (Memory_restore p1 st, saved) ops2) = snd (pair_run (p, saved) ops2).
Proof.
  intros st p1. symmetry. apply pair_run_same.
  pose proof (pair_run_later ops1 (p, saved)) as [Hm _]. by split.
Qed.

(** C13.  The memory channel is a bounded, loss-free stream that loses no
    wake-up.  In every state two fresh endpoints can reach (without restoring
    a checkpoint), what the reader of a side has received followed by what is
    queued for it is exactly what has been accepted for it, in order, and at
    most [maximum] bytes are queued.  A reader sees EOF only after it has
    received everything and its peer has closed; while bytes are queued and
    its own side is open a read returns some of them, even after the peer has
    closed.  And from any state, whatever both endpoints and restored
    checkpoints do after a notification was taken from [ReadReady]: if a read
    would then return anything but [ErrWouldBlock], it has fired; likewise
    for [WriteCapacity]: unless its notification has fired, the stream is
    still open and exactly the reported capacity is available.  Whatever is
    done to the stream after a checkpoint, restoring it makes every later
    sequence of calls behave as it would have right after the capture. *)
Theorem Memory_stream_wakes :
  (forall maximum p0 ops side,
     NewMemoryPair maximum = Ok p0 -> forallb no_restore ops = true ->
     let '((p, _), os) := pair_run (p0, []) ops in
     total (bytes_read side) ops os ++ pr_data p side = total (bytes_written side) ops os /\
     zlen (pr_data p side) <= maximum /\
     (forall n, 0 < n ->
        let '(_, b, e) := Memory_Read p side n in
        (e = Some EOF -> total (bytes_read side) ops os = total (bytes_written side) ops os /\
                         pr_closed p (negb side) = true) /\
        (pr_closed p side = false -> pr_data p side <> [] -> e = None /\ b <> []))) /\
  (forall p saved ops side,
     let p' := fst (fst (pair_run (p, saved) ops)) in
     (forall n, 0 < n -> snd (Memory_Read p' side n) <> Some ErrWouldBlock ->
        notified p' (Memory_ReadReady p side) = true) /\
     (forall available n, Memory_WriteCapacity p side = Ok (available, n) -> notified p' n = false ->
        Memory_WriteCapacity p' side = Ok (available, n))) /\
  (forall p saved ops1 ops2,
     let p1 := fst (fst (pair_run (p, saved) ops1)) in
     snd (pair_run (Memory_restore p1 (Memory_CaptureCheckpoint p), saved) ops2) = snd (pair_run (p, saved) ops2)).
Proof. split; [exact Memory_stream|]. split; [exact Memory_no_lost_wakeup|exact Memory_checkpoint_replay]. Qed.

Lemma Memory_stream_wakes_witness :
  exists p0, NewMemoryPair 4 = Ok p0 /\
    let ops := [PWrite false [1; 2; 3]; PWrite false [4; 5]; PRead true 2; PWrite false [4; 5];
                PClose false; PRead true 9; PRead true 9] in
    let '((p, _), os) := pair_run (p0, []) ops in
    os = [PCount 3 None; PCount 0 (Some ErrWouldBlock); PBytes [1; 2] None; PCount 2 None;
          PDone; PBytes [3; 4; 5] None; PBytes [] (Some EOF)] /\
    total (bytes_read true) ops os ++ pr_data p true = [1; 2; 3; 4; 5].
Proof.
  destruct (NewMemoryPair 4) as [p0|] eqn:Hnew; [|discriminate Hnew]. exists p0. split; [reflexivity|].
  set (ops := [PWrite false [1; 2; 3]; PWrite false [4; 5]; PRead true 2; PWrite false [4; 5];
               PClose false; PRead true 9; PRead true 9]).
  pose proof (proj1 Memory_stream_wakes 4 p0 ops true Hnew eq_refl) as H.
  injection Hnew as <-. vm_compute in H |- *. split; [reflexivity|apply H].
Defined.

(** ** [WriteAll] writes everything or fails *)

(** A writer whose successful calls accept a prefix of their data: [out s] is
    what it has accepted so far. *)
Definition writer_ok {S} (write : S -> bytes -> S * Z * option error) (out : S -> bytes) : Prop :=
  forall s data s' count e, write s data = (s', count, e) ->
    0 <= count <= zlen data /\ out s' = out s ++ slice 0 count data /\ e <> Some OutOfFuel /\ e <> Some Panic.

Lemma WriteAll_spec {S} (write : S -> bytes -> S * Z * option error) out fuel s data :
  writer_ok write out -> zlen data <= Z.of_nat fuel ->
  let '(s', e) := WriteAll write fuel s data in
  e <> Some OutOfFuel /\ e <> Some Panic /\
  exists n, 0 <= n <= zlen data /\ out s' = out s ++ slice 0 n data /\ (e = None -> n = zlen data).
Proof.
  intros Hw. revert s data. induction fuel as [|fuel IH]; intros s data Hf; simpl.
  all: destruct (Z.eqb_spec (zlen data) 0) as [E|E].
  1, 3: split_and!; try done; exists 0; unfold slice; simpl; rewrite app_nil_r; split_and!; done || lia.
  { pose proof (zlen_nonneg data). lia. }
  destruct (write s data) as [[s1 count] e] eqn:E1.
  destruct (Hw _ _ _ _ _ E1) as (H1 & H2 & H3 & H4). destruct e as [e|].
  { split_and!; try done. exists count. split_and!; try done; lia. }
  destruct (Z.eqb_spec count 0) as [->|]; [split_and!; try done; exists 0; split_and!; done || lia|].
  destruct (Z.ltb_spec count 0); [lia|]. destruct (Z.ltb_spec (zlen data) count); [lia|]. simpl.
  assert (Hd : zlen (drop (Z.to_nat count) data) = zlen data - count)
    by (unfold zlen in *; rewrite length_drop; lia).
  specialize (IH s1 (drop (Z.to_nat count) data) ltac:(lia)).
  destruct (WriteAll write fuel s1 _) as [s2 e2]. destruct IH as (I1 & I2 & m & I3 & I4 & I5).
  split_and!; try done. exists (count + m). split_and!; [lia|lia| |intros He; specialize (I5 He); lia].
  rewrite I4, H2, <- app_assoc. f_equal. unfold slice. rewrite !drop_0, take_take_drop. f_equal. lia.
Qed.

(** ** [ReadyByteChannel] *)

Definition defaultReadyChannelBuffer : Z := 8388608.

(** [rc_cap] is the capacity of the slice [buffer]; [rc_ready] tells whether
    the one-element channel [ready] holds a token; [rc_changed] counts the
    replacements of [changed]. *)
Record ReadyByteChannel := MkReady {
  rc_maximum : Z;
  rc_buffer : bytes;
  rc_offset : Z;
  rc_cap : Z;
  rc_terminal : option error;
  rc_changed : Z;
  rc_ready : bool;
  rc_close : bool;
}.

Implicit Types c : ReadyByteChannel.

Definition NewReadyByteChannel (maximum : Z) : ReadyByteChannel :=
  {| rc_maximum := if maximum <=? 0 then defaultReadyChannelBuffer else maximum;
     rc_buffer := []; rc_offset := 0; rc_cap := 0; rc_terminal := None;
     rc_changed := 0; rc_ready := false; rc_close := false |}.

Definition bufferedLocked c : Z := zlen (rc_buffer c) - rc_offset c.

Definition with_ready c buffer offset cap terminal changed ready close : ReadyByteChannel :=
  {| rc_maximum := rc_maximum c; rc_buffer := buffer; rc_offset := offset; rc_cap := cap;
     rc_terminal := terminal; rc_changed := changed; rc_ready := ready; rc_close := close |}.

Definition ready_notifyLocked c : ReadyByteChannel :=
  with_ready c (rc_buffer c) (rc_offset c) (rc_cap c) (rc_terminal c) (rc_changed c + 1) true (rc_close c).

(** The first critical section of the loop: wait for [changed], return, or
    read at most so many bytes from the backend. *)
Inductive loop_next : Type :=
  | LoopWait (epoch : Z)
  | LoopReturn
  | LoopRead (available : Z).

Definition readLoop_check c : loop_next :=
  match rc_terminal c with
  | Some _ => LoopReturn
  | None =>
      if rc_maximum c <=? bufferedLocked c then LoopWait (rc_changed c)
      else LoopRead (Z.min (rc_maximum c - bufferedLocked c) (Z.min (rc_maximum c) 65536))
  end.

(** Making room for [read] more bytes: move the unread bytes to the front,
    then grow. *)
Definition ready_reserve c (read : Z) : ReadyByteChannel :=
  let c := if (rc_cap c - zlen (rc_buffer c) <? read) && (0 <? rc_offset c)
           then with_ready c (drop (Z.to_nat (rc_offset c)) (rc_buffer c)) 0 (rc_cap c)
                  (rc_terminal c) (rc_changed c) (rc_ready c) (rc_close c)
           else c in
  let needed := zlen (rc_buffer c) + read in
  if rc_cap c <? needed
  then with_ready c (rc_buffer c) (rc_offset c)
         (Z.max needed (rc_cap c + Z.min (rc_cap c / 2) (rc_maximum c - rc_cap c)))
         (rc_terminal c) (rc_changed c) (rc_ready c) (rc_close c)
  else c.

(** The second critical section, after the backend returned [data] and [err];
    the result tells whether the loop returns. *)
Definition readLoop_append c (data : bytes) (err : option error) : ReadyByteChannel * bool :=
  let c := if 0 <? zlen data then
             let c := ready_reserve c (zlen data) in
             ready_notifyLocked
               (with_ready c (rc_buffer c ++ data) (rc_offset c) (rc_cap c) (rc_terminal c)
                  (rc_changed c) (rc_ready c) (rc_close c))
           else c in
  match err with
  | Some e =>
      (ready_notifyLocked
         (with_ready c (rc_buffer c) (rc_offset c) (rc_cap c) (Some e) (rc_changed c)
            (rc_ready c) (rc_close c)), true)
  | None => (c, false)
  end.

Definition Ready_ReadReady c : ReadyByteChannel :=
  if (0 <? bufferedLocked c) || bool_decide (is_Some (rc_terminal c))
  then with_ready c (rc_buffer c) (rc_offset c) (rc_cap c) (rc_terminal c) (rc_changed c) true (rc_close c)
  else c.

(** One round of [Read]: bytes, an error, or wait for [changed] (or the
    deadline). *)
Inductive read_round : Type :=
  | RoundBytes (b : bytes)
  | RoundError (e : error)
  | RoundWait (epoch : Z).

Definition Ready_Read c (n : Z) : ReadyByteChannel * read_round :=
  if n =? 0 then (c, RoundBytes [])
  else if 0 <? bufferedLocked c then
    let available := Z.min (bufferedLocked c) n in
    let got := slice (rc_offset c) available (rc_buffer c) in
    let offset := rc_offset c + available in
    (if offset =? zlen (rc_buffer c)
     then with_ready c [] 0 (rc_cap c) (rc_terminal c) (rc_changed c + 1) false (rc_close c)
     else with_ready c (rc_buffer c) offset (rc_cap c) (rc_terminal c) (rc_changed c + 1) true (rc_close c),
     RoundBytes got)
  else match rc_terminal c with
  | Some e => (c, RoundError e)
  | None => (c, RoundWait (rc_changed c))
  end.

Definition Ready_SetDeadline c : ReadyByteChannel :=
  with_ready c (rc_buffer c) (rc_offset c) (rc_cap c) (rc_terminal c) (rc_changed c + 1)
    (rc_ready c) (rc_close c).

(** [Close] runs its body once. *)
Definition Ready_Close c : ReadyByteChannel :=
  if rc_close c then c
  else
    ready_notifyLocked
      (with_ready c (rc_buffer c) (rc_offset c) (rc_cap c)
         (match rc_terminal c with None => Some ErrClosedPipe | t => t end)
         (rc_changed c) (rc_ready c) true).

(** ** The backend loop and its consumers *)

Inductive loop_state : Type :=
  | AtCheck
  | AtRead (available : Z)
  | Returned.

(** The channel, its loop, and two observations: what the backend has
    delivered and what consumers have read. *)
Record ready_sys := MkReadySys {
  rs_chan : ReadyByteChannel;
  rs_loop : loop_state;
  rs_delivered : bytes;
  rs_consumed : bytes;
}.

Inductive ready_step : ready_sys -> ready_sys -> Prop :=
  | step_check c dl cn next :
      readLoop_check c = next ->
      ready_step (MkReadySys c AtCheck dl cn)
        (MkReadySys c (match next with
                       | LoopWait _ => AtCheck | LoopReturn => Returned | LoopRead a => AtRead a
                       end) dl cn)
  | step_deliver c a dl cn data err c' return_ :
      zlen data <= a -> readLoop_append c data err = (c', return_) ->
      ready_step (MkReadySys c (AtRead a) dl cn)
        (MkReadySys c' (if return_ : bool then Returned else AtCheck) (dl ++ data) cn)
  | step_read c l dl cn n c' r :
      0 <= n -> Ready_Read c n = (c', r) ->
      ready_step (MkReadySys c l dl cn)
        (MkReadySys c' l dl (cn ++ match r with RoundBytes b => b | _ => [] end))
  | step_readready c l dl cn :
      ready_step (MkReadySys c l dl cn) (MkReadySys (Ready_ReadReady c) l dl cn)
  | step_receive c l dl cn :
      rc_ready c = true ->
      ready_step (MkReadySys c l dl cn)
        (MkReadySys (with_ready c (rc_buffer c) (rc_offset c) (rc_cap c) (rc_terminal c)
                       (rc_changed c) false (rc_close c)) l dl cn)
  | step_deadline c l dl cn :
      ready_step (MkReadySys c l dl cn) (MkReadySys (Ready_SetDeadline c) l dl cn)
  | step_close c l dl cn :
      ready_step (MkReadySys c l dl cn) (MkReadySys (Ready_Close c) l dl cn).

(** The bytes waiting for a consumer. *)
Definition pending c : bytes := drop (Z.to_nat (rc_offset c)) (rc_buffer c).

Record ready_wf c : Prop := {
  rw_offset : 0 <= rc_offset c <= zlen (rc_buffer c);
  rw_cap : zlen (rc_buffer c) <= rc_cap c <= rc_maximum c;
  rw_max : 0 < rc_maximum c;
}.

Lemma zlen_pending c : ready_wf c -> zlen (pending c) = bufferedLocked c.
Proof.
  intros [H1 _ _]. unfold pending, bufferedLocked, zlen in *. rewrite length_drop. lia.
Qed.

Lemma ready_reserve_wf c n :
  ready_wf c -> 0 < n -> bufferedLocked c + n <= rc_maximum c ->
  let c' := ready_reserve c n in
  ready_wf c' /\ pending c' = pending c /\ zlen (rc_buffer c') + n <= rc_cap c' /\
  rc_terminal c' = rc_terminal c /\ rc_maximum c' = rc_maximum c /\ rc_changed c' = rc_changed c.
Proof.
  intros Hwf Hn Hb. pose proof (zlen_pending c Hwf) as Hp. pose proof Hwf as [H1 H2 H3].
  unfold ready_reserve. set (c1 := if _ && _ then _ else c).
  assert (Hc1 : ready_wf c1 /\ pending c1 = pending c /\ rc_cap c1 = rc_cap c /\
    rc_maximum c1 = rc_maximum c /\ rc_terminal c1 = rc_terminal c /\ rc_changed c1 = rc_changed c /\
    (rc_cap c - zlen (rc_buffer c1) < n -> zlen (rc_buffer c1) = bufferedLocked c)).
  { unfold c1. destruct (_ && _) eqn:E; simpl.
    - fold (pending c). split_and!; try done. pose proof (zlen_nonneg (pending c)).
      unfold bufferedLocked in Hp. split; simpl; [lia|lia|done].
    - split_and!; try done. intros Hlt. unfold bufferedLocked.
      destruct (Z.ltb_spec 0 (rc_offset c)); [|lia].
      destruct (Z.ltb_spec (rc_cap c - zlen (rc_buffer c)) n); [done|lia]. }
  clearbody c1. destruct Hc1 as ([W1 W2 W3] & Hpe & Hca & Hma & Hte & Hch & Hlen).
  destruct (Z.ltb_spec (rc_cap c1) (zlen (rc_buffer c1) + n)); simpl.
  - rewrite Hca, Hma in *. specialize (Hlen ltac:(lia)). split_and!; try done; [|lia].
    split; simpl; [done| |lia].
    assert (rc_cap c / 2 <= rc_cap c) by (apply Z.div_le_upper_bound; lia). lia.
  - split_and!; done || lia.
Qed.

Record ready_inv (s : ready_sys) : Prop := {
  ri_wf : ready_wf (rs_chan s);
  ri_read : forall a, rs_loop s = AtRead a ->
    0 < a /\ bufferedLocked (rs_chan s) + a <= rc_maximum (rs_chan s);
  ri_fifo : rs_consumed s ++ pending (rs_chan s) = rs_delivered s;
}.

Lemma append_wf c data err a :
  ready_wf c -> bufferedLocked c + a <= rc_maximum c -> zlen data <= a ->
  let '(c', _) := readLoop_append c data err in
  ready_wf c' /\ pending c' = pending c ++ data /\ rc_maximum c' = rc_maximum c /\
  rc_changed c <= rc_changed c' /\
  (rc_changed c' = rc_changed c -> c' = c).
Proof.
  intros Hwf Hb Hd. unfold readLoop_append. pose proof (zlen_nonneg data).
  set (c1 := if 0 <? zlen data then _ else c).
  assert (Hc1 : ready_wf c1 /\ pending c1 = pending c ++ data /\ rc_maximum c1 = rc_maximum c /\
    rc_changed c <= rc_changed c1 /\ (rc_changed c1 = rc_changed c -> c1 = c)).
  { unfold c1. destruct (Z.ltb_spec 0 (zlen data)) as [Hpos|Hz]; cycle 1.
    { assert (data = []) as -> by (apply zlen_0_nil; lia). rewrite app_nil_r. split_and!; done || lia. }
    destruct (ready_reserve_wf c (zlen data) Hwf Hpos ltac:(lia)) as ([W1 W2 W3] & Hpe & Hca & Hte & Hma & Hch).
    set (c2 := ready_reserve c (zlen data)) in *. simpl. split_and!; try done; try lia.
    - split; simpl; rewrite ?zlen_app; try done; lia.
    - unfold pending in *. simpl. rewrite drop_app_le, Hpe; [done|]. unfold zlen in *. lia. }
  clearbody c1. destruct Hc1 as ([W1 W2 W3] & Hpe & Hma & Hle & Heq).
  destruct err; simpl; split_and!; try done; try lia.
Qed.

Lemma read_wf c n c' r :
  ready_wf c -> 0 <= n -> Ready_Read c n = (c', r) ->
  ready_wf c' /\ rc_maximum c' = rc_maximum c /\
  match r with RoundBytes b => b | _ => [] end ++ pending c' = pending c /\
  bufferedLocked c' <= bufferedLocked c /\
  match r with
  | RoundBytes b => n = 0 \/ b <> []
  | RoundError e => pending c = [] /\ rc_terminal c = Some e
  | RoundWait _ => pending c = [] /\ rc_terminal c = None
  end.
Proof.
  intros Hwf Hn. pose proof (zlen_pending c Hwf) as Hp. pose proof Hwf as [H1 H2 H3]. unfold Ready_Read.
  destruct (Z.eqb_spec n 0) as [->|Hn0]; [intros [= <- <-]; split_and!; try done; lia || by left|].
  destruct (Z.ltb_spec 0 (bufferedLocked c)) as [Hb|Hb]; cycle 1.
  { assert (pending c = []) by (apply zlen_0_nil; unfold bufferedLocked in *; lia).
    destruct (rc_terminal c) eqn:Et; intros [= <- <-]; split_and!; try done; lia. }
  set (available := Z.min (bufferedLocked c) n).
  set (got := slice (rc_offset c) available (rc_buffer c)).
  assert (Ha : 0 < available <= bufferedLocked c) by (unfold available; lia).
  assert (Hg : got ++ drop (Z.to_nat (rc_offset c + available)) (rc_buffer c) = pending c).
  { unfold got, slice, pending. rewrite Z2Nat.inj_add, <- drop_drop by lia. apply take_drop. }
  assert (Hne : got <> []).
  { intros E. assert (zlen got = available) as Hz by (apply zlen_slice; unfold bufferedLocked in *; lia).
    rewrite E, zlen_nil in Hz. lia. }
  intros [= <- <-]. destruct (Z.eqb_spec (rc_offset c + available) (zlen (rc_buffer c))) as [E|E]; simpl.
  - rewrite E in Hg. unfold zlen in Hg at 1. rewrite Nat2Z.id, drop_all in Hg.
    unfold bufferedLocked in *. unfold pending at 1. simpl.
    split_and!; [split; unfold zlen in *; simpl in *; lia|done|done|unfold zlen in *; simpl in *; lia|by right].
  - unfold bufferedLocked in *. unfold pending at 1. simpl.
    split_and!; [split; simpl; lia|done|done|lia|by right].
Qed.

Lemma ready_step_inv s s' : ready_step s s' -> ready_inv s -> ready_inv s'.
Proof.
  intros Hstep [Hwf Hread Hfifo]. destruct Hstep as
    [c dl cn next E|c a dl cn data err c' ret Hd E|c l dl cn n c' r Hn E|c l dl cn|c l dl cn Hr|c l dl cn|c l dl cn];
    simpl in *.
  - split; simpl; try done. intros a. subst next. unfold readLoop_check.
    destruct (rc_terminal c); [done|]. destruct (Z.leb_spec (rc_maximum c) (bufferedLocked c)); [done|].
    intros [= <-]. pose proof (rw_max _ Hwf). lia.
  - pose proof (Hread a eq_refl) as [Ha Hb]. pose proof (append_wf c data err a Hwf Hb Hd) as H.
    rewrite E in H. destruct H as (W & P & M & _ & _). split; simpl; [done|by destruct ret|].
    by rewrite P, app_assoc, Hfifo.
  - destruct (read_wf c n c' r Hwf Hn E) as (W & M & P & B & _). split; simpl; [done| |].
    + intros a Ha. specialize (Hread a Ha). lia.
    + by rewrite <- app_assoc, P.
  - unfold Ready_ReadReady. destruct (_ || _); split; simpl; try done. by destruct Hwf.
  - split; simpl; try done. by destruct Hwf.
  - split; simpl; try done. by destruct Hwf.
  - unfold Ready_Close. destruct (rc_close c); split; simpl; try done. by destruct Hwf.
Qed.

Definition ready_init (maximum : Z) : ready_sys := MkReadySys (NewReadyByteChannel maximum) AtCheck [] [].

Lemma ready_steps_inv s s' : rtc ready_step s s' -> ready_inv s -> ready_inv s'.
Proof. induction 1 as [|s1 s2 s3 H1 _ IH]; intros Hinv; [done|]. by eapply IH, ready_step_inv. Qed.

Lemma ready_init_inv maximum : ready_inv (ready_init maximum).
Proof.
  assert (0 < rc_maximum (NewReadyByteChannel maximum)).
  { simpl. unfold defaultReadyChannelBuffer. destruct (Z.leb_spec maximum 0); lia. }
  split; simpl; [|done|done]. split; unfold zlen; simpl in *; lia.
Qed.

(** The adapter is a bounded, loss-free queue.  However its backend
    loop, its consumers, [Close] and [SetDeadline] interleave, and however the
    backend cuts up its data, what consumers have read followed by what is
    queued is exactly what the backend has delivered; the queued bytes and
    also the storage allocated for them never exceed the maximum, although
    consumed bytes are reclaimed lazily; and a consumer sees the terminal error
    only when the queue is empty. *)
Lemma Ready_bounded_queue maximum s :
  rtc ready_step (ready_init maximum) s ->
  rs_consumed s ++ pending (rs_chan s) = rs_delivered s /\
  zlen (pending (rs_chan s)) <= rc_cap (rs_chan s) <= rc_maximum (rs_chan s) /\
  forall n c' e, 0 <= n -> Ready_Read (rs_chan s) n = (c', RoundError e) ->
    rs_consumed s = rs_delivered s /\ rc_terminal (rs_chan s) = Some e.
Proof.
  intros Hr. destruct (ready_steps_inv _ _ Hr (ready_init_inv maximum)) as [Hwf _ Hfifo].
  pose proof (zlen_pending _ Hwf) as Hp. pose proof Hwf as [H1 H2 H3]. unfold bufferedLocked in Hp.
  split_and!; [done|lia|lia|]. intros n c' e Hn E.
  destruct (read_wf _ _ _ _ Hwf Hn E) as (_ & _ & _ & _ & Hpe & Ht). rewrite Hpe, app_nil_r in Hfifo. done.
Qed.


(** ** Wake-ups *)

(** [s'] comes after [s]: [changed] only moves forward, and while it has not
    moved neither the queue nor the terminal state has changed. *)
Definition ready_later (s s' : ready_sys) : Prop :=
  rc_maximum (rs_chan s') = rc_maximum (rs_chan s) /\
  rc_changed (rs_chan s) <= rc_changed (rs_chan s') /\
  (rc_changed (rs_chan s') = rc_changed (rs_chan s) ->
   rc_buffer (rs_chan s') = rc_buffer (rs_chan s) /\ rc_offset (rs_chan s') = rc_offset (rs_chan s) /\
   rc_terminal (rs_chan s') = rc_terminal (rs_chan s)).

Lemma ready_step_later s s' : ready_inv s -> ready_step s s' -> ready_later s s'.
Proof.
  intros [Hwf Hread Hfifo] Hstep. destruct Hstep as
    [c dl cn next E|c a dl cn data err c' ret Hd E|c l dl cn n c' r Hn E|c l dl cn|c l dl cn Hr|c l dl cn|c l dl cn];
    unfold ready_later; simpl in *; try (split_and!; done || lia).
  - pose proof (Hread a eq_refl) as [Ha Hb]. pose proof (append_wf c data err a Hwf Hb Hd) as H.
    rewrite E in H. destruct H as (_ & _ & M & L & Q). split_and!; [done|done|]. intros Hq. by rewrite (Q Hq).
  - destruct (read_wf c n c' r Hwf Hn E) as (_ & M & _). split; [done|]. unfold Ready_Read in E.
    destruct (n =? 0); [by injection E as <- _|].
    destruct (0 <? bufferedLocked c); [|destruct (rc_terminal c) eqn:Et; injection E as <- _; by rewrite ?Et].
    injection E as <- _. destruct (_ =? _); simpl; split; lia.
  - unfold Ready_ReadReady. destruct (_ || _); split_and!; done || (simpl; lia).
  - unfold Ready_Close. destruct (rc_close c); simpl; split_and!; done || lia.
Qed.

Lemma ready_steps_later s s' : rtc ready_step s s' -> ready_inv s -> ready_later s s'.
Proof.
  induction 1 as [s|s1 s2 s3 H1 _ IH]; intros Hinv; [split_and!; done || lia|].
  pose proof (ready_step_later _ _ Hinv H1) as (M1 & L1 & Q1).
  destruct (IH (ready_step_inv _ _ H1 Hinv)) as (M2 & L2 & Q2).
  split_and!; [congruence|lia|]. intros Hq. destruct Q1 as (A1 & A2 & A3); [lia|].
  destruct Q2 as (B1 & B2 & B3); [lia|]. split_and!; congruence.
Qed.

(** Nobody sleeps through a change.  A consumer that found nothing to
    read waits for the current [changed]; the backend loop that found the
    queue full does too.  If after any further steps the consumer's read would
    no longer wait, or the loop could go on, then that channel has been closed
    in between, so the waiter has been woken. *)
Lemma Ready_no_lost_wakeup maximum s s' :
  rtc ready_step (ready_init maximum) s -> rtc ready_step s s' ->
  (forall n epoch, 0 < n -> snd (Ready_Read (rs_chan s) n) = RoundWait epoch ->
     (forall e, snd (Ready_Read (rs_chan s') n) <> RoundWait e) -> epoch < rc_changed (rs_chan s')) /\
  (forall epoch, readLoop_check (rs_chan s) = LoopWait epoch ->
     (forall e, readLoop_check (rs_chan s') <> LoopWait e) -> epoch < rc_changed (rs_chan s')).
Proof.
  intros Hs Hs'. pose proof (ready_steps_inv _ _ Hs (ready_init_inv maximum)) as Hinv.
  destruct (ready_steps_later _ _ Hs' Hinv) as (M & L & Q).
  destruct (Z.eq_dec (rc_changed (rs_chan s')) (rc_changed (rs_chan s))) as [E|E].
  - destruct (Q E) as (B & O & T). split.
    + intros n epoch Hn Hw Hno. exfalso. apply (Hno (rc_changed (rs_chan s'))). revert Hw.
      unfold Ready_Read, bufferedLocked. rewrite B, O, T. destruct (Z.eqb_spec n 0); [lia|].
      destruct (0 <? _); [done|]. by destruct (rc_terminal (rs_chan s)).
    + intros epoch Hw Hno. exfalso. apply (Hno (rc_changed (rs_chan s'))). revert Hw.
      unfold readLoop_check, bufferedLocked. rewrite B, O, T, M. destruct (rc_terminal (rs_chan s)); [done|].
      by destruct (_ <=? _).
  - split.
    + intros n epoch Hn Hw _. unfold Ready_Read in Hw. destruct (n =? 0); [done|].
      destruct (0 <? _); [done|]. destruct (rc_terminal (rs_chan s)); [done|]. injection Hw as <-. lia.
    + intros epoch Hw _. unfold readLoop_check in Hw. destruct (rc_terminal (rs_chan s)); [done|].
      destruct (_ <=? _); [|done]. injection Hw as <-. lia.
Qed.



