(* ===== verification/AddressSpace.v ===== *)
(** Package [emulator/cpu]: the sparse guest address space of the portable
    processors, with its permission cache and write tracking
    (src/emulator/cpu/memory.go; the access bits are in cpu.go).

    The cache keeps slices of the mappings' own bytes, so the bytes of a
    mapping live in a heap and both the mapping and the cache point there. *)

From S2P Require Import Prelude GoLib.
From stdpp Require Import base numbers list gmap sorting strings.

Open Scope Z_scope.
Open Scope trex_scope.

(** ** Data *)

Definition AccRead : Z := 1.
Definition AccWrite : Z := 2.
Definition AccExecute : Z := 4.

(** [access & ^(Read|Write|Execute) != 0] for an 8-bit access. *)
Definition bad_access (access : Z) : bool := negb (Z.land access 248 =? 0).

(** [permissions & access == access]. *)
Definition allows (permissions access : Z) : bool := Z.land permissions access =? access.

(** [rg_data] points to the bytes. *)
Record region := MkRegion { rg_start : Z; rg_data : nat; rg_access : Z }.

Record Protection := MkProtection { pt_Start : Z; pt_Size : Z; pt_Access : Z }.

Record Mapping := MkMapping { mp_Start : Z; mp_Size : Z; mp_Base : Z; mp_Access : Z }.

(** A cache entry: [ps_len] bytes of [ps_data] from [ps_off]; the zero entry
    has length 0. *)
Record permissionSpan := MkSpan {
  ps_start : Z; ps_data : nat; ps_off : Z; ps_len : Z; ps_access : Z;
}.

Definition zeroSpan : permissionSpan := MkSpan 0 0 0 0 0.

Record AddressSpace := MkAddressSpace {
  as_regions : list region;
  as_heap : gmap nat bytes;
  as_next : nat;
  as_limit : Z;
  as_used : Z;
  as_protections : list Protection;
  as_readCache : gmap Z permissionSpan;
  as_trackedPages : gset Z;
  as_trackedFilter : gmap Z Z;
  as_trackedVersion : Z;
}.

Implicit Types m : AddressSpace.
Implicit Types r : region.

Definition NewAddressSpace (limit : Z) : AddressSpace :=
  {| as_regions := []; as_heap := ∅; as_next := O; as_limit := limit; as_used := 0;
     as_protections := []; as_readCache := ∅; as_trackedPages := ∅; as_trackedFilter := ∅;
     as_trackedVersion := 0 |}.

Definition data_of m (id : nat) : bytes := default [] (as_heap m !! id).
Definition region_data m r : bytes := data_of m (rg_data r).
Definition region_len m r : Z := zlen (region_data m r).

(** ** Write tracking *)

Definition filter_bit (page : Z) : Z := Z.land (Z.lxor page (Z.shiftr page 12)) 4095.

Definition filter_word m (bit : Z) : Z := default 0 (as_trackedFilter m !! Z.shiftr bit 6).

Definition TrackPageWrites m (address : Z) : AddressSpace :=
  let page := Z.shiftr address 12 in
  let bit := filter_bit page in
  {| as_regions := as_regions m; as_heap := as_heap m; as_next := as_next m;
     as_limit := as_limit m; as_used := as_used m; as_protections := as_protections m;
     as_readCache := as_readCache m;
     as_trackedPages := {[page]} ∪ as_trackedPages m;
     as_trackedFilter := <[Z.shiftr bit 6 := Z.lor (filter_word m bit) (Z.shiftl 1 (Z.land bit 63))]>
                           (as_trackedFilter m);
     as_trackedVersion := as_trackedVersion m |}.

Definition bump_version m : AddressSpace :=
  {| as_regions := as_regions m; as_heap := as_heap m; as_next := as_next m;
     as_limit := as_limit m; as_used := as_used m; as_protections := as_protections m;
     as_readCache := as_readCache m; as_trackedPages := as_trackedPages m;
     as_trackedFilter := as_trackedFilter m; as_trackedVersion := u64 (as_trackedVersion m + 1) |}.

(** The test of the loop of [trackWrite]: the filter first, then the set. *)
Definition page_tracked m (page : Z) : bool :=
  let bit := filter_bit page in
  negb (Z.land (filter_word m bit) (Z.shiftl 1 (Z.land bit 63)) =? 0)
  && bool_decide (page ∈ as_trackedPages m).

Definition trackWrite m (address size : Z) : AddressSpace :=
  if (size =? 0) || bool_decide (as_trackedPages m = ∅) then m
  else
    let first := Z.shiftr address 12 in
    let last := Z.shiftr (address + size - 1) 12 in
    if existsb (page_tracked m) (seqZ first (last - first + 1)) then bump_version m else m.

(** ** Permissions *)

(** One protection seen from [address]: the access and the number of bytes
    known to have it. *)
Definition accessAt_step (address : Z) (st : Z * Z) (p : Protection) : Z * Z :=
  let '(access, available) := st in
  if (pt_Start p <=? address) && (address - pt_Start p <? pt_Size p)
  then (pt_Access p, Z.min available (pt_Size p - (address - pt_Start p)))
  else if (address <? pt_Start p) && (pt_Start p - address <? available)
  then (access, pt_Start p - address)
  else (access, available).

Definition accessAt m (address : Z) r : Z * Z :=
  foldl (accessAt_step address) (rg_access r, region_len m r - (address - rg_start r)) (as_protections m).

(** ** The cache *)

Definition cache_index (address : Z) : Z := Z.shiftr address 12 mod 64.

Definition cache_entry m (address : Z) : permissionSpan :=
  default zeroSpan (as_readCache m !! cache_index address).

Definition span_bytes m (e : permissionSpan) : bytes := slice (ps_off e) (ps_len e) (data_of m (ps_data e)).

(** A slice of the nil slice is nil. *)
Definition cachedSpan m (address size access : Z) : option bytes :=
  let entry := cache_entry m address in
  if (address <? ps_start entry) || (size <? 0) || negb (allows (ps_access entry) access) then None
  else
    let offset := address - ps_start entry in
    if (ps_len entry <? offset) || (ps_len entry - offset <? size) then None
    else if ps_len entry =? 0 then None
    else Some (slice offset size (span_bytes m entry)).

Definition cacheSpan_start (address : Z) (start : Z) (p : Protection) : Z :=
  if pt_Start p <=? address then
    let start := Z.max start (pt_Start p) in
    if pt_Size p <=? address - pt_Start p then Z.max start (pt_Start p + pt_Size p) else start
  else start.

(** [address &^ 4095]. *)
Definition page_start (address : Z) : Z := address - Z.land address 4095.

Definition set_cache m (cache : gmap Z permissionSpan) : AddressSpace :=
  {| as_regions := as_regions m; as_heap := as_heap m; as_next := as_next m;
     as_limit := as_limit m; as_used := as_used m; as_protections := as_protections m;
     as_readCache := cache; as_trackedPages := as_trackedPages m;
     as_trackedFilter := as_trackedFilter m; as_trackedVersion := as_trackedVersion m |}.

Definition cacheSpan m (address : Z) r : AddressSpace :=
  let start := foldl (cacheSpan_start address) (Z.max (rg_start r) (page_start address)) (as_protections m) in
  let '(access, available) := accessAt m start r in
  let available := Z.min available (4096 - Z.land start 4095) in
  set_cache m (<[cache_index address := MkSpan start (rg_data r) (start - rg_start r) available access]>
                 (as_readCache m)).

(** ** Mapping and finding *)

Definition validRange (address size : Z) : bool :=
  (0 <=? size) && ((size =? 0) || (size - 1 <=? MaxUint64 - address)).

Definition overlaps m (address last : Z) (r : region) : bool :=
  (address <=? rg_start r + (region_len m r - 1)) && (rg_start r <=? last).

Definition as_Map m (address : Z) (data : bytes) (access : Z) : AddressSpace * option error :=
  if (zlen data =? 0) || negb (validRange address (zlen data)) || (access =? 0) || bad_access access
  then (m, Some (Errorf "memory: invalid mapping at %#x"))
  else if as_limit m - as_used m <? zlen data
  then (m, Some (Errorf "memory: mapping exceeds %d-byte budget"))
  else if existsb (overlaps m address (address + (zlen data - 1))) (as_regions m)
  then (m, Some (Errorf "memory: overlapping mapping at %#x"))
  else
    let id := as_next m in
    ({| as_regions := sort_by rg_start (as_regions m ++ [MkRegion address id access]);
        as_heap := <[id := data]> (as_heap m); as_next := S id;
        as_limit := as_limit m; as_used := as_used m + zlen data;
        as_protections := as_protections m; as_readCache := ∅;
        as_trackedPages := as_trackedPages m; as_trackedFilter := as_trackedFilter m;
        as_trackedVersion := u64 (as_trackedVersion m + 1) |}, None).

Definition as_find m (address : Z) : option region :=
  let i := sort_Search (zlen (as_regions m))
             (fun i => match as_regions m !! Z.to_nat i with
                       | Some r => address <? rg_start r | None => true end) - 1 in
  if i <? 0 then None
  else match as_regions m !! Z.to_nat i with
  | Some r => if region_len m r <=? address - rg_start r then None else Some r
  | None => None
  end.

(** ** Accesses *)

Definition denied : error := Errorf "memory: access %d denied at %#x".

(** The loop of [check]; a round covers at least one byte. *)
Fixpoint check_loop (fuel : nat) m (address remaining access : Z) : option error :=
  if remaining <=? 0 then None
  else match fuel with
  | O => Some OutOfFuel
  | S fuel =>
      match as_find m address with
      | None => Some denied
      | Some r =>
          let '(permissions, available) := accessAt m address r in
          if negb (allows permissions access) then Some denied
          else
            let n := Z.min remaining available in
            check_loop fuel m (if remaining - n =? 0 then address else address + n) (remaining - n) access
      end
  end.

Definition as_check m (address size access : Z) : option error :=
  if negb (validRange address size) then Some (Errorf "memory: range overflows at %#x")
  else match cachedSpan m address size access with
  | Some _ => None
  | None => check_loop (Z.to_nat size) m address size access
  end.

Definition CheckMemory m (address size access : Z) : option error :=
  if (access =? 0) || bad_access access then Some (Errorf "memory: invalid access %d")
  else as_check m address size access.

(** The copying loop of [ReadMemory]; a missing region would be a nil
    dereference. *)
Fixpoint read_loop (fuel : nat) m (address size : Z) (acc : bytes) : res bytes :=
  if size <=? 0 then Ok acc
  else match fuel with
  | O => Err OutOfFuel
  | S fuel =>
      match as_find m address with
      | None => Err Panic
      | Some r =>
          let got := slice (address - rg_start r) size (region_data m r) in
          let n := zlen got in
          read_loop fuel m (if size - n =? 0 then address else address + n) (size - n) (acc ++ got)
      end
  end.

Definition ReadMemory m (address size access : Z) : AddressSpace * res bytes :=
  if negb (access =? AccRead) && negb (access =? AccExecute)
  then (m, Err (Errorf "memory: invalid read access %d"))
  else match cachedSpan m address size access with
  | Some source => (m, Ok source)
  | None =>
      let m := match (if validRange address size then as_find m address else None) with
               | Some r => cacheSpan m address r
               | None => m
               end in
      let slow :=
        match as_check m address size access with
        | Some e => Err e
        | None => read_loop (Z.to_nat size) m address size []
        end in
      match (if validRange address size then as_find m address else None) with
      | Some r =>
          match cachedSpan m address size access with
          | Some source => (m, Ok source)
          | None => (m, slow)
          end
      | None => (m, slow)
      end
  end.

Definition set_data_of m (id : nat) (data : bytes) : AddressSpace :=
  {| as_regions := as_regions m; as_heap := <[id := data]> (as_heap m); as_next := as_next m;
     as_limit := as_limit m; as_used := as_used m; as_protections := as_protections m;
     as_readCache := as_readCache m; as_trackedPages := as_trackedPages m;
     as_trackedFilter := as_trackedFilter m; as_trackedVersion := as_trackedVersion m |}.

Fixpoint write_loop (fuel : nat) m (address : Z) (source : bytes) : AddressSpace * option error :=
  if zlen source <=? 0 then (m, None)
  else match fuel with
  | O => (m, Some OutOfFuel)
  | S fuel =>
      match as_find m address with
      | None => (m, Some Panic)
      | Some r =>
          let within := address - rg_start r in
          let n := Z.min (region_len m r - within) (zlen source) in
          let m' := set_data_of m (rg_data r) (splice (region_data m r) within (slice 0 n source)) in
          let rest := drop (Z.to_nat n) source in
          write_loop fuel m' (if zlen rest =? 0 then address else address + n) rest
      end
  end.

Definition WriteMemory m (address : Z) (source : bytes) : AddressSpace * option error :=
  match as_check m address (zlen source) AccWrite with
  | Some e => (m, Some e)
  | None => write_loop (length source) (trackWrite m address (zlen source)) address source
  end.

Definition as_Clone m : AddressSpace :=
  {| as_regions := as_regions m; as_heap := as_heap m; as_next := as_next m;
     as_limit := as_limit m; as_used := as_used m; as_protections := as_protections m;
     as_readCache := ∅; as_trackedPages := ∅; as_trackedFilter := ∅; as_trackedVersion := 0 |}.

(** What is left of a protection when [address..last] is unmapped. *)
Definition trim_protection (address last : Z) (p : Protection) : list Protection :=
  let pLast := pt_Start p + pt_Size p - 1 in
  if (pLast <? address) || (last <? pt_Start p) then [p]
  else
    (if pt_Start p <? address then [MkProtection (pt_Start p) (address - pt_Start p) (pt_Access p)] else [])
    ++ (if last <? pLast then [MkProtection (last + 1) (pLast - last) (pt_Access p)] else []).

(** The first region that starts at [address], and the others. *)
Fixpoint take_region (address : Z) (rs : list region) : option (region * list region) :=
  match rs with
  | [] => None
  | r :: rs =>
      if rg_start r =? address then Some (r, rs)
      else match take_region address rs with
           | Some (r', rs') => Some (r', r :: rs')
           | None => None
           end
  end.

Definition as_Unmap m (address : Z) : AddressSpace * option error :=
  match take_region address (as_regions m) with
  | None => (m, Some (Errorf "memory: no mapping starts at %#x"))
  | Some (r, rs) =>
      let last := address + (region_len m r - 1) in
      ({| as_regions := rs; as_heap := as_heap m; as_next := as_next m;
          as_limit := as_limit m; as_used := as_used m - region_len m r;
          as_protections := mjoin (trim_protection address last <$> as_protections m);
          as_readCache := ∅; as_trackedPages := as_trackedPages m;
          as_trackedFilter := as_trackedFilter m;
          as_trackedVersion := u64 (as_trackedVersion m + 1) |}, None)
  end.

(** The loop of [Protect] that collects the previous permissions. *)
Fixpoint protect_loop (fuel : nat) m (location remaining : Z) (previous : list Protection)
    : res (list Protection) :=
  if remaining <=? 0 then Ok previous
  else match fuel with
  | O => Err OutOfFuel
  | S fuel =>
      match as_find m location with
      | None => Err Panic
      | Some r =>
          let '(permissions, available) := accessAt m location r in
          let n := Z.min remaining available in
          protect_loop fuel m (if remaining - n =? 0 then location else location + n) (remaining - n)
            (previous ++ [MkProtection location n permissions])
      end
  end.

Definition as_Protect m (address size access : Z) : AddressSpace * res (list Protection) :=
  if (size <=? 0) || bad_access access then (m, Err (Errorf "memory: invalid protection"))
  else match as_check m address size 0 with
  | Some e => (m, Err e)
  | None =>
      match protect_loop (Z.to_nat size) m address size [] with
      | Err e => (m, Err e)
      | Ok previous =>
          ({| as_regions := as_regions m; as_heap := as_heap m; as_next := as_next m;
              as_limit := as_limit m; as_used := as_used m;
              as_protections := as_protections m ++ [MkProtection address size access];
              as_readCache := ∅; as_trackedPages := as_trackedPages m;
              as_trackedFilter := as_trackedFilter m;
              as_trackedVersion := u64 (as_trackedVersion m + 1) |}, Ok previous)
      end
  end.

(** The inner loop of [Mappings]; a round covers at least one byte. *)
Fixpoint mappings_loop (fuel : nat) m r (offset : Z) : list Mapping :=
  match fuel with
  | O => []
  | S fuel =>
      if offset <? region_len m r then
        let address := rg_start r + offset in
        let '(access, available) := accessAt m address r in
        MkMapping address available (rg_start r) access :: mappings_loop fuel m r (offset + available)
      else []
  end.

Definition as_Mappings m : list Mapping :=
  mjoin ((fun r => mappings_loop (Z.to_nat (region_len m r)) m r 0) <$> as_regions m).

(** ** What an address space means *)

(** The access the protections give [address] in a region of access [a]. *)
Definition effective (ps : list Protection) (a : Z) (address : Z) : Z :=
  foldl (fun acc p => if (pt_Start p <=? address) && (address <? pt_Start p + pt_Size p)
                      then pt_Access p else acc) a ps.

Definition in_region m r (address : Z) : Prop := rg_start r <= address < rg_start r + region_len m r.

#[export] Instance in_region_dec m r address : Decision (in_region m r address).
Proof. unfold in_region. apply _. Defined.

Definition region_of m (address : Z) : option region :=
  snd <$> list_find (fun r => in_region m r address) (as_regions m).

(** The permissions of an address, if it is mapped, and its byte. *)
Definition perm m (address : Z) : option Z :=
  match region_of m address with
  | Some r => Some (effective (as_protections m) (rg_access r) address)
  | None => None
  end.

Definition content m (address : Z) : byte :=
  match region_of m address with
  | Some r => nthb (region_data m r) (address - rg_start r)
  | None => 0
  end.

(** Every byte of the range is mapped and allows the access. *)
Definition permitted m (address size access : Z) : Prop :=
  forall i, address <= i < address + size ->
    exists p, perm m i = Some p /\ allows p access = true.

Definition mapped m (address : Z) : Prop := is_Some (perm m address).

(** ** The invariant *)

Record regions_ok m : Prop := {
  ro_sorted : StronglySorted (fun r r' => rg_start r + region_len m r <= rg_start r') (as_regions m);
  ro_pos : forall r, r ∈ as_regions m -> 0 < region_len m r;
}.

Record space_wf m : Prop := {
  aw_sorted : StronglySorted (fun r r' => rg_start r + region_len m r <= rg_start r') (as_regions m);
  aw_region : forall r, r ∈ as_regions m ->
    0 <= rg_start r /\ 0 < region_len m r /\ rg_start r + region_len m r <= MaxUint64 + 1 /\
    (rg_data r < as_next m)%nat;
  aw_distinct : NoDup (rg_data <$> as_regions m);
  aw_protected : forall p, p ∈ as_protections m ->
    0 < pt_Size p /\ forall i, pt_Start p <= i < pt_Start p + pt_Size p -> is_Some (region_of m i);
  aw_used : as_used m = foldr (fun r acc => region_len m r + acc) 0 (as_regions m);
  aw_limit : 0 <= as_used m <= as_limit m;
}.

(** A cache entry lies in one region, on one page and under one permission. *)
Definition span_ok m (e : permissionSpan) : Prop :=
  ps_len e = 0 \/
  exists r, r ∈ as_regions m /\ rg_data r = ps_data e /\ ps_off e = ps_start e - rg_start r /\
    rg_start r <= ps_start e /\ 0 < ps_len e /\ ps_start e + ps_len e <= rg_start r + region_len m r /\
    forall i, ps_start e <= i < ps_start e + ps_len e ->
      effective (as_protections m) (rg_access r) i = ps_access e.

Record space_inv m : Prop := {
  ai_wf : space_wf m;
  ai_cache : forall i e, as_readCache m !! i = Some e -> span_ok m e;
}.

(** ** Finding regions *)

Lemma sorted_lookup {A} (R : A -> A -> Prop) l (i j : nat) x y :
  StronglySorted R l -> l !! i = Some x -> l !! j = Some y -> (i < j)%nat -> R x y.
Proof.
  intros Hs. revert i j. induction Hs as [|z l _ IH Hz]; intros i j Hi Hj Hij; [done|].
  destruct i as [|i], j as [|j]; simpl in *; try lia.
  - injection Hi as <-. rewrite Forall_forall in Hz. apply Hz. by eapply list_elem_of_lookup_2.
  - apply (IH i j); auto. lia.
Qed.

Lemma wf_regions m : space_wf m -> regions_ok m.
Proof. intros [H1 H2 _ _ _ _]. split; [done|]. by intros r (_ & ? & _)%H2. Qed.

#[export] Hint Resolve wf_regions : trex.

Section Find.
Context m (Hwf : regions_ok m).

Lemma region_order (i j : nat) r r' :
  as_regions m !! i = Some r -> as_regions m !! j = Some r' -> (i < j)%nat ->
  rg_start r + region_len m r <= rg_start r'.
Proof. apply (sorted_lookup (fun r r' => rg_start r + region_len m r <= rg_start r')), ro_sorted, Hwf. Qed.

Lemma region_pos (i : nat) r : as_regions m !! i = Some r -> 0 < region_len m r.
Proof. intros H. apply list_elem_of_lookup_2 in H. by apply (ro_pos _ Hwf). Qed.

(** Regions do not overlap. *)
Lemma region_unique (i j : nat) r r' address :
  as_regions m !! i = Some r -> as_regions m !! j = Some r' ->
  in_region m r address -> in_region m r' address -> i = j.
Proof.
  unfold in_region. intros Hi Hj H1 H2. destruct (Nat.lt_trichotomy i j) as [H|[H|H]]; [|done|].
  - pose proof (region_order _ _ _ _ Hi Hj H). lia.
  - pose proof (region_order _ _ _ _ Hj Hi H). lia.
Qed.

Lemma region_of_Some address r :
  region_of m address = Some r <-> r ∈ as_regions m /\ in_region m r address.
Proof.
  unfold region_of. rewrite fmap_Some. split.
  - intros ([i r'] & Hf & ->). apply list_find_Some in Hf as (Hi & Hr & _). simpl.
    split; [by eapply list_elem_of_lookup_2|done].
  - intros [[i Hi]%list_elem_of_lookup Hr].
    destruct (list_find (fun r => in_region m r address) (as_regions m)) as [[j r']|] eqn:Ef.
    + exists (j, r'). split; [done|]. apply list_find_Some in Ef as (Hj & Hr' & _).
      assert (i = j) as -> by (by eapply region_unique). simpl. congruence.
    + exfalso. apply list_find_None in Ef. rewrite Forall_forall in Ef.
      eapply Ef; [by eapply list_elem_of_lookup_2|done].
Qed.

Lemma region_of_None address :
  region_of m address = None <-> forall r, r ∈ as_regions m -> ~ in_region m r address.
Proof.
  split.
  - intros H r Hr Hin. assert (region_of m address = Some r) by (by apply region_of_Some). congruence.
  - intros H. destruct (region_of m address) as [r|] eqn:E; [|done].
    apply region_of_Some in E as [H1 H2]. by destruct (H r H1).
Qed.

(** The binary search of [find] finds the region of the address. *)
Lemma as_find_spec address : as_find m address = region_of m address.
Proof.
  unfold as_find. set (f := fun i => match as_regions m !! Z.to_nat i with
    | Some r => address <? rg_start r | None => true end).
  assert (Hmono : monotone_pred (zlen (as_regions m)) f).
  { intros a b Ha Hab Hb Hf. unfold f in *. destruct (decide (a = b)) as [->|]; [done|].
    destruct (as_regions m !! Z.to_nat b) as [rb|] eqn:Eb; [|done].
    destruct (as_regions m !! Z.to_nat a) as [ra|] eqn:Ea; cycle 1.
    { apply lookup_ge_None in Ea. unfold zlen in Hb. lia. }
    pose proof (region_order _ _ _ _ Ea Eb ltac:(lia)). pose proof (region_pos _ _ Ea). lia. }
  destruct (sort_Search_spec (zlen (as_regions m)) f (zlen_nonneg _) Hmono) as (Hr & Hlo & Hhi).
  set (k := sort_Search _ _) in *.
  destruct (Z.ltb_spec (k - 1) 0) as [Hk|Hk].
  { symmetry. apply region_of_None. intros r [i Hi]%list_elem_of_lookup Hin.
    specialize (Hhi (Z.of_nat i)). unfold f in Hhi. rewrite Nat2Z.id, Hi in Hhi.
    apply lookup_lt_Some in Hi. unfold zlen, in_region in *. lia. }
  specialize (Hlo (k - 1) ltac:(lia)). unfold f in Hlo.
  destruct (as_regions m !! Z.to_nat (k - 1)) as [r|] eqn:Er; [|done].
  destruct (Z.leb_spec (region_len m r) (address - rg_start r)) as [Hout|Hin].
  - symmetry. apply region_of_None. intros r' [i Hi]%list_elem_of_lookup Hr'. unfold in_region in Hr'.
    destruct (decide (Z.of_nat i <= k - 1)).
    + destruct (decide (i = Z.to_nat (k - 1))) as [->|]; [rewrite Hi in Er; injection Er as ->; lia|].
      pose proof (region_order _ _ _ _ Hi Er ltac:(lia)). lia.
    + specialize (Hhi (Z.of_nat i)). unfold f in Hhi. rewrite Nat2Z.id, Hi in Hhi.
      apply lookup_lt_Some in Hi. unfold zlen in *. lia.
  - symmetry. apply region_of_Some. split; [by eapply list_elem_of_lookup_2|]. unfold in_region. lia.
Qed.
End Find.

(** ** Permissions *)

Lemma effective_snoc ps p a i :
  effective (ps ++ [p]) a i
  = if (pt_Start p <=? i) && (i <? pt_Start p + pt_Size p) then pt_Access p else effective ps a i.
Proof. unfold effective. by rewrite foldl_app. Qed.

(** [accessAt] gives the effective access and a run of bytes that share it. *)
Lemma accessAt_steps ps a address available :
  0 < available -> (forall p, p ∈ ps -> 0 < pt_Size p) ->
  let '(access, run) := foldl (accessAt_step address) (a, available) ps in
  access = effective ps a address /\ 0 < run <= available /\
  forall i, address <= i < address + run -> effective ps a i = access.
Proof.
  intros Hav. induction ps as [|p ps IH] using rev_ind; intros Hps; [simpl; split_and!; done || lia|].
  rewrite foldl_app. cbn [foldl].
  specialize (IH ltac:(intros; apply Hps; set_solver)). pose proof (Hps p ltac:(set_solver)) as Hp.
  destruct (foldl (accessAt_step address) (a, available) ps) as [access run]. destruct IH as (-> & Hrun & Hall).
  unfold accessAt_step.
  destruct ((pt_Start p <=? address) && (address - pt_Start p <? pt_Size p)) eqn:E1.
  - split_and!; [|lia|lia|intros i Hi]; rewrite effective_snoc;
      match goal with |- context [if ?b then _ else _] => replace b with true by lia end; done.
  - destruct ((address <? pt_Start p) && (pt_Start p - address <? run)) eqn:E2;
      (split_and!; [|lia|lia|intros i Hi]); rewrite effective_snoc;
      match goal with |- context [if ?b then _ else _] => replace b with false by lia end;
      try done; apply Hall; lia.
Qed.

Lemma accessAt_spec m r address :
  space_wf m -> r ∈ as_regions m -> in_region m r address ->
  let '(access, run) := accessAt m address r in
  access = effective (as_protections m) (rg_access r) address /\
  0 < run /\ address + run <= rg_start r + region_len m r /\
  forall i, address <= i < address + run -> effective (as_protections m) (rg_access r) i = access.
Proof.
  intros Hwf Hr Hin. unfold accessAt, in_region in *.
  pose proof (accessAt_steps (as_protections m) (rg_access r) address
    (region_len m r - (address - rg_start r)) ltac:(lia)) as H.
  destruct (foldl _ _ _) as [access run].
  destruct H as (-> & Hrun & Hall); [by intros p [Hp _]%(aw_protected _ Hwf)|]. split_and!; done || lia.
Qed.

Lemma perm_region m r address :
  space_wf m -> r ∈ as_regions m -> in_region m r address ->
  perm m address = Some (effective (as_protections m) (rg_access r) address).
Proof.
  intros Hwf Hr Hin. unfold perm. by rewrite (proj2 (region_of_Some m (wf_regions _ Hwf) address r)) by done.
Qed.

Lemma content_region m r address :
  space_wf m -> r ∈ as_regions m -> in_region m r address ->
  content m address = nthb (region_data m r) (address - rg_start r).
Proof.
  intros Hwf Hr Hin. unfold content. by rewrite (proj2 (region_of_Some m (wf_regions _ Hwf) address r)) by done.
Qed.

Lemma perm_None m address : region_of m address = None -> perm m address = None.
Proof. intros H. unfold perm. by rewrite H. Qed.

(** ** Checking *)

(** Walking a range region by region: what holds of each run holds of all. *)
Lemma check_loop_spec fuel m address remaining access :
  space_wf m -> remaining <= Z.of_nat fuel ->
  (check_loop fuel m address remaining access = None /\ permitted m address remaining access) \/
  (check_loop fuel m address remaining access = Some denied /\ ~ permitted m address remaining access).
Proof.
  intros Hwf. revert address remaining. induction fuel as [|fuel IH]; intros address remaining Hf.
  all: cbn [check_loop]; destruct (Z.leb_spec remaining 0).
  1, 3: left; split; [done|]; intros i Hi; lia.
  1: lia.
  rewrite as_find_spec by auto with trex. destruct (region_of m address) as [r|] eqn:Er; cycle 1.
  { right. split; [done|]. intros Hp. destruct (Hp address ltac:(lia)) as (p & Hp' & _).
    by rewrite (perm_None _ _ Er) in Hp'. }
  apply region_of_Some in Er as [Hr Hin]; [|auto with trex].
  pose proof (accessAt_spec m r address Hwf Hr Hin) as Ha.
  destruct (accessAt m address r) as [permissions available]. destruct Ha as (-> & Hav & Hend & Hrun).
  set (permissions := effective _ _ _) in *.
  destruct (allows permissions access) eqn:Eal; simpl; cycle 1.
  { right. split; [done|]. intros Hp. destruct (Hp address ltac:(lia)) as (p & Hp' & Hal).
    rewrite (perm_region m r) in Hp' by done. injection Hp' as <-. unfold permissions in Eal. congruence. }
  set (n := Z.min remaining available).
  assert (Hhead : permitted m address n access).
  { intros i Hi. exists permissions. split; [|done]. rewrite (perm_region m r); [|done|done|unfold in_region in *; lia].
    f_equal. apply Hrun. lia. }
  destruct (Z.eqb_spec (remaining - n) 0) as [E|E].
  - rewrite E. left. split; [by destruct fuel|]. by replace remaining with n by lia.
  - destruct (IH (address + n) (remaining - n)) as [[-> Hp]|[-> Hp]]; [lia|left|right]; (split; [done|]).
    + intros i Hi. destruct (decide (i < address + n)); [apply Hhead; lia|apply Hp; lia].
    + intros Hall. apply Hp. intros i Hi. apply Hall. lia.
Qed.

Lemma cache_entry_ok m address : space_inv m -> span_ok m (cache_entry m address).
Proof.
  intros [_ Hc]. unfold cache_entry. destruct (as_readCache m !! _) as [e|] eqn:E; [by eapply Hc|by left].
Qed.

(** A cache hit is permitted and shows the current bytes. *)
Lemma cachedSpan_spec m address size access b :
  space_inv m -> cachedSpan m address size access = Some b ->
  0 <= size /\ permitted m address size access /\ b = range (content m) address size.
Proof.
  intros Hinv Hc. pose proof (cache_entry_ok m address Hinv) as He. pose proof (ai_wf _ Hinv) as Hwf.
  unfold cachedSpan in Hc. set (e := cache_entry m address) in *.
  destruct ((address <? ps_start e) || (size <? 0) || negb (allows (ps_access e) access)) eqn:E1; [done|].
  destruct ((ps_len e <? address - ps_start e) || _) eqn:E2; [done|].
  destruct (Z.eqb_spec (ps_len e) 0) as [|Hl]; [done|]. injection Hc as <-.
  destruct He as [?|(r & Hr & Hd & Ho & H1 & H2 & H3 & H4)]; [done|].
  assert (Hal : allows (ps_access e) access = true)
    by (destruct (allows (ps_access e) access); [done|rewrite orb_true_r in E1; done]).
  assert (Hs : 0 <= size /\ ps_start e <= address /\ address + size <= ps_start e + ps_len e).
  { apply orb_false_iff in E1 as [E1 _]. lia. }
  assert (Hin : forall i, address <= i < address + size -> in_region m r i)
    by (intros; unfold in_region; lia).
  split_and!; [lia| |].
  - intros i Hi. exists (ps_access e). split; [|done]. rewrite (perm_region m r) by auto.
    f_equal. apply H4. lia.
  - unfold span_bytes. rewrite <- Hd. fold (region_data m r). unfold region_len in *.
    rewrite (slice_range (slice _ _ _)) by (rewrite ?zlen_slice; lia).
    apply range_shift. intros i Hi. rewrite nthb_slice by lia.
    rewrite (content_region m r) by (auto; apply Hin; lia). f_equal. lia.
Qed.

Lemma as_check_spec m address size access :
  space_inv m ->
  (validRange address size = true /\ permitted m address size access /\ as_check m address size access = None) \/
  (validRange address size = true /\ ~ permitted m address size access /\
   as_check m address size access = Some denied) \/
  (validRange address size = false /\
   as_check m address size access = Some (Errorf "memory: range overflows at %#x")).
Proof.
  intros Hinv. unfold as_check. destruct (validRange address size) eqn:Ev; simpl; [|by right; right].
  destruct (cachedSpan m address size access) as [b|] eqn:Ec.
  { destruct (cachedSpan_spec _ _ _ _ _ Hinv Ec) as (_ & ? & _). by left. }
  destruct (check_loop_spec (Z.to_nat size) m address size access (ai_wf _ Hinv)) as [[? ?]|[? ?]];
    [unfold validRange in Ev; lia|by left|by right; left].
Qed.

(** ** Reading *)

Lemma read_loop_spec fuel m address size acc :
  space_wf m -> (forall i, address <= i < address + size -> mapped m i) -> size <= Z.of_nat fuel ->
  read_loop fuel m address size acc = Ok (acc ++ range (content m) address size).
Proof.
  intros Hwf. revert address size acc. induction fuel as [|fuel IH]; intros address size acc Hmap Hf.
  all: cbn [read_loop]; destruct (Z.leb_spec size 0).
  1, 3: by rewrite range_nil, app_nil_r by lia.
  1: lia.
  destruct (Hmap address ltac:(lia)) as [p Hp]. rewrite as_find_spec by auto with trex. unfold perm in Hp.
  destruct (region_of m address) as [r|] eqn:Er; [|done]. apply region_of_Some in Er as [Hr Hin]; [|auto with trex].
  set (got := slice (address - rg_start r) size (region_data m r)).
  set (n := Z.min size (rg_start r + region_len m r - address)).
  unfold in_region, region_len in Hin.
  assert (Hgot : got = range (content m) address n).
  { unfold got. rewrite slice_min by lia.
    replace (Z.min size (zlen (region_data m r) - (address - rg_start r))) with n
      by (unfold n, region_len; lia).
    rewrite slice_range by (unfold n, region_len; lia). apply range_shift. intros i Hi.
    rewrite (content_region m r); [f_equal; lia|done|done|].
    unfold in_region, n, region_len in *. lia. }
  assert (Hn : zlen got = n) by (rewrite Hgot; apply zlen_range; unfold n, region_len; lia).
  rewrite Hn, Hgot. destruct (Z.eqb_spec (size - n) 0) as [E|E].
  - rewrite E. destruct fuel; simpl; do 3 f_equal; lia.
  - rewrite IH; [|intros; apply Hmap; unfold n, region_len in *; lia|unfold n, region_len in *; lia].
    rewrite <- app_assoc, <- range_add by (unfold n, region_len in *; lia). do 3 f_equal. lia.
Qed.

Lemma permitted_mapped m address size access i :
  permitted m address size access -> address <= i < address + size -> mapped m i.
Proof. intros Hp Hi. destruct (Hp i Hi) as (p & ? & _). by exists p. Qed.

(** Same mappings and permissions, other bytes, cache or tracking. *)
Record same_shape m m' : Prop := {
  sh_regions : as_regions m' = as_regions m;
  sh_len : forall r, r ∈ as_regions m -> region_len m' r = region_len m r;
  sh_protections : as_protections m' = as_protections m;
  sh_next : as_next m' = as_next m;
  sh_used : as_used m' = as_used m;
  sh_limit : as_limit m' = as_limit m;
}.

Lemma same_shape_refl m : same_shape m m.
Proof. by split. Qed.

Lemma same_shape_trans m1 m2 m3 : same_shape m1 m2 -> same_shape m2 m3 -> same_shape m1 m3.
Proof.
  intros [A1 A2 A3 A4 A5 A6] [B1 B2 B3 B4 B5 B6]. split; try congruence.
  intros r Hr. rewrite B2 by (by rewrite A1). by apply A2.
Qed.

Lemma same_shape_region m m' r address :
  same_shape m m' -> r ∈ as_regions m -> (in_region m' r address <-> in_region m r address).
Proof. intros H Hr. unfold in_region. by rewrite (sh_len _ _ H). Qed.

Lemma sorted_shape m m' l :
  (forall r, r ∈ l -> region_len m' r = region_len m r) ->
  StronglySorted (fun r r' => rg_start r + region_len m r <= rg_start r') l ->
  StronglySorted (fun r r' => rg_start r + region_len m' r <= rg_start r') l.
Proof.
  induction l as [|x l IH]; intros Hl Hs; [constructor|].
  apply StronglySorted_inv in Hs as [Hs Hx]. constructor; [apply IH; [intros; apply Hl; by right|done]|].
  eapply Forall_impl; [exact Hx|]. intros y Hy. simpl. rewrite Hl; [done|left].
Qed.

Definition total_len m (l : list region) : Z := foldr (fun r acc => region_len m r + acc) 0 l.

Lemma total_len_shape m m' l :
  (forall r, r ∈ l -> region_len m' r = region_len m r) -> total_len m' l = total_len m l.
Proof.
  unfold total_len. induction l as [|x l IH]; intros Hl; simpl; [done|].
  rewrite IH by (intros; apply Hl; by right). by rewrite Hl by left.
Qed.

Lemma total_len_perm m l k : l ≡ₚ k -> total_len m l = total_len m k.
Proof. unfold total_len. induction 1; simpl; lia. Qed.

Lemma regions_ok_shape m m' : same_shape m m' -> regions_ok m -> regions_ok m'.
Proof.
  intros [A1 A2 A3 A4 A5 A6] [H1 H2]. split; rewrite A1.
  - by eapply sorted_shape.
  - intros r Hr. rewrite A2 by done. by apply H2.
Qed.

Lemma region_of_shape m m' address :
  same_shape m m' -> regions_ok m -> region_of m' address = region_of m address.
Proof.
  intros Hsh Hok. pose proof (regions_ok_shape _ _ Hsh Hok) as Hok'.
  destruct (region_of m address) as [r|] eqn:E.
  - apply region_of_Some in E as [Hr Hin]; [|done]. apply region_of_Some; [done|].
    rewrite (sh_regions _ _ Hsh). split; [done|]. by apply (same_shape_region m m').
  - apply region_of_None; [done|]. intros r. rewrite (sh_regions _ _ Hsh). intros Hr.
    rewrite (same_shape_region m m') by done. by apply region_of_None.
Qed.

Lemma space_wf_shape m m' : same_shape m m' -> space_wf m -> space_wf m'.
Proof.
  intros Hsh Hwf. pose proof Hwf as [H1 H2 H3 H4 H5 H6]. pose proof Hsh as [A1 A2 A3 A4 A5 A6].
  split; rewrite ?A1, ?A3, ?A5, ?A6; try done.
  - by eapply sorted_shape.
  - intros r Hr. rewrite A2, A4 by done. by apply H2.
  - intros p Hp. destruct (H4 p Hp) as [Hs Hm]. split; [done|]. intros i Hi.
    rewrite (region_of_shape m m') by auto with trex. by apply Hm.
  - rewrite H5. symmetry. by apply total_len_shape.
Qed.

Lemma perm_shape m m' address : same_shape m m' -> regions_ok m -> perm m' address = perm m address.
Proof.
  intros Hsh Hok. unfold perm. by rewrite (region_of_shape m m'), (sh_protections _ _ Hsh).
Qed.

Lemma span_ok_shape m m' e : same_shape m m' -> span_ok m e -> span_ok m' e.
Proof.
  intros Hsh [H|(r & H1 & H2 & H3 & H4 & H5 & H6 & H7)]; [by left|right]. exists r.
  rewrite (sh_regions _ _ Hsh), (sh_len _ _ Hsh r H1), (sh_protections _ _ Hsh). by split_and!.
Qed.

(** ** Filling the cache *)

Lemma land_4095 z : Z.land z 4095 = z mod 4096.
Proof. change 4095 with (Z.ones 12). by rewrite Z.land_ones. Qed.

Lemma cacheSpan_start_bounds ps address start :
  start <= address -> start <= foldl (cacheSpan_start address) start ps <= address.
Proof.
  revert start. induction ps as [|p ps IH]; intros start Hs; simpl; [lia|].
  assert (start <= cacheSpan_start address start p <= address)
    by (unfold cacheSpan_start; repeat case_match; lia).
  specialize (IH (cacheSpan_start address start p)). lia.
Qed.

Lemma cacheSpan_inv m r address :
  space_inv m -> 0 <= address -> r ∈ as_regions m -> in_region m r address ->
  space_inv (cacheSpan m address r) /\ same_shape m (cacheSpan m address r) /\
  as_heap (cacheSpan m address r) = as_heap m.
Proof.
  intros [Hwf Hc] Ha Hr Hin. unfold cacheSpan. unfold in_region in Hin.
  assert (Hps : page_start address <= address)
    by (unfold page_start; rewrite land_4095; pose proof (Z.mod_pos_bound address 4096); lia).
  pose proof (cacheSpan_start_bounds (as_protections m) address
    (Z.max (rg_start r) (page_start address)) ltac:(lia)) as Hst.
  set (start := foldl _ _ _) in *.
  pose proof (accessAt_spec m r start Hwf Hr ltac:(unfold in_region; lia)) as Hacc.
  destruct (accessAt m start r) as [access available]. destruct Hacc as (-> & H1 & H2 & H3).
  pose proof (Z.mod_pos_bound start 4096 ltac:(lia)). rewrite land_4095.
  split_and!; [|by split|done]. split; [by eapply space_wf_shape; [|done]; split|]. simpl.
  intros i e [[_ <-]|[_ He]]%lookup_insert_Some;
    (eapply span_ok_shape; [split; simpl; try done|]); [|by eapply Hc].
  right. exists r. simpl. split_and!; try done; try lia. intros j Hj. apply H3. lia.
Qed.

Lemma content_same m m' address :
  same_shape m m' -> regions_ok m -> as_heap m' = as_heap m -> content m' address = content m address.
Proof.
  intros Hsh Hok Hh. unfold content. rewrite (region_of_shape m m') by done.
  destruct (region_of m address); [|done]. unfold region_data, data_of. by rewrite Hh.
Qed.

Lemma permitted_shape m m' address size access :
  same_shape m m' -> regions_ok m ->
  (permitted m' address size access <-> permitted m address size access).
Proof.
  intros Hsh Hok. unfold permitted.
  assert (E : forall i, perm m' i = perm m i) by (intros; by apply perm_shape).
  split; intros H i Hi; specialize (H i Hi); by rewrite E in *.
Qed.

(** What a read returns when nothing is cached. *)
Definition read_spec m (address size access : Z) (r : res bytes) : Prop :=
  (validRange address size = true -> permitted m address size access ->
   r = Ok (range (content m) address size)) /\
  (forall b, r = Ok b -> b = range (content m) address size /\ permitted m address size access).

Lemma slow_read m address size access :
  space_inv m ->
  read_spec m address size access
    (match as_check m address size access with
     | Some e => Err e
     | None => read_loop (Z.to_nat size) m address size []
     end).
Proof.
  intros Hinv. pose proof (ai_wf _ Hinv) as Hwf.
  destruct (as_check_spec m address size access Hinv) as [(Hv & Hp & ->)|[(Hv & Hp & ->)|[Hv ->]]].
  - rewrite read_loop_spec; [|done|intros; by eapply permitted_mapped|unfold validRange in Hv; lia].
    split; [done|]. intros b [= <-]. done.
  - split; [done|]. by intros b.
  - split; [congruence|]. by intros b.
Qed.

Lemma read_spec_same m m' address size access (out : res bytes) :
  same_shape m m' -> regions_ok m -> as_heap m' = as_heap m ->
  read_spec m' address size access out -> read_spec m address size access out.
Proof.
  intros Hsh Hok Hh [H1 H2].
  assert (E : range (content m') address size = range (content m) address size)
    by (apply range_ext; intros; by apply content_same).
  assert (P : permitted m' address size access <-> permitted m address size access)
    by (by apply permitted_shape).
  split; [intros Hv Hp; rewrite <- E; apply H1; tauto|].
  intros b Hb. rewrite <- E, <- P. by apply H2.
Qed.

Lemma cached_read m address size access b :
  space_inv m -> cachedSpan m address size access = Some b -> read_spec m address size access (Ok b).
Proof.
  intros Hinv Hc. destruct (cachedSpan_spec _ _ _ _ _ Hinv Hc) as (_ & Hp & ->).
  split; [done|]. by intros b [= <-].
Qed.

Lemma ReadMemory_spec m address size access :
  space_inv m -> 0 <= address -> access = AccRead \/ access = AccExecute ->
  let '(m', r) := ReadMemory m address size access in
  space_inv m' /\ same_shape m m' /\ as_heap m' = as_heap m /\ read_spec m address size access r /\
  as_trackedPages m' = as_trackedPages m /\ as_trackedFilter m' = as_trackedFilter m /\
  as_trackedVersion m' = as_trackedVersion m.
Proof.
  intros Hinv Ha Hacc. unfold ReadMemory.
  replace (negb (access =? AccRead) && negb (access =? AccExecute)) with false
    by (destruct Hacc as [-> | ->]; done).
  destruct (cachedSpan m address size access) as [b|] eqn:Ec.
  { split_and!; try done. by apply cached_read. }
  pose proof (wf_regions _ (ai_wf _ Hinv)) as Hok.
  destruct (if validRange address size then as_find m address else None) as [r|] eqn:Ef; cycle 1.
  { rewrite Ef. split_and!; try done. by apply slow_read. }
  destruct (validRange address size) eqn:Ev; [|done].
  rewrite as_find_spec in Ef by done. apply region_of_Some in Ef as [Hr Hin]; [|done].
  destruct (cacheSpan_inv m r address Hinv Ha Hr Hin) as (Hinv' & Hsh & Hh).
  assert (Htr : as_trackedPages (cacheSpan m address r) = as_trackedPages m /\
    as_trackedFilter (cacheSpan m address r) = as_trackedFilter m /\
    as_trackedVersion (cacheSpan m address r) = as_trackedVersion m)
    by (unfold cacheSpan; by destruct (accessAt _ _ _)).
  set (m' := cacheSpan m address r) in *. destruct Htr as (T1 & T2 & T3).
  destruct (as_find m' address); [destruct (cachedSpan m' address size access) as [b|] eqn:Ec'|];
    split_and!; try done; (eapply read_spec_same; [done..|]);
    [by apply cached_read|by apply slow_read..].
Qed.

(** ** Writing *)

Lemma trackWrite_same m address size :
  same_shape m (trackWrite m address size) /\ as_heap (trackWrite m address size) = as_heap m /\
  as_readCache (trackWrite m address size) = as_readCache m.
Proof. unfold trackWrite. destruct (_ || _); [done|]. by destruct (existsb _ _). Qed.

(** Overwriting part of a region. *)
Lemma write_region m r address data :
  space_wf m -> r ∈ as_regions m -> rg_start r <= address ->
  address + zlen data <= rg_start r + region_len m r ->
  let m' := set_data_of m (rg_data r) (splice (region_data m r) (address - rg_start r) data) in
  same_shape m m' /\ forall i, content m' i = upd (content m) address data i.
Proof.
  intros Hwf Hr Ha He m'.
  assert (Hlen : zlen (splice (region_data m r) (address - rg_start r) data) = region_len m r)
    by (apply zlen_splice; unfold region_len in *; lia).
  assert (Hdata : forall r', r' ∈ as_regions m -> region_data m' r' =
    if decide (rg_data r' = rg_data r) then splice (region_data m r) (address - rg_start r) data
    else region_data m r').
  { intros r' Hr'. unfold region_data at 1, data_of. simpl. case_decide as E.
    - by rewrite E, lookup_insert_eq.
    - by rewrite lookup_insert_ne. }
  assert (Hinj : forall r', r' ∈ as_regions m -> rg_data r' = rg_data r -> r' = r).
  { intros r' Hr' E. pose proof (aw_distinct _ Hwf) as Hnd.
    apply list_elem_of_lookup in Hr' as [i Hi]. apply list_elem_of_lookup in Hr as [j Hj].
    assert (i = j) as ->; [|congruence].
    apply (NoDup_lookup _ i j (rg_data r) Hnd); rewrite list_lookup_fmap, ?Hi, ?Hj; simpl; congruence. }
  assert (Hsh : same_shape m m').
  { split; try done. intros r' Hr'. unfold region_len at 1. rewrite Hdata by done. case_decide as E; [|done].
    by rewrite (Hinj r' Hr' E). }
  split; [done|]. intros i. unfold content at 1. rewrite (region_of_shape m m') by auto with trex.
  destruct (region_of m i) as [r'|] eqn:E.
  - apply region_of_Some in E as [Hr' Hin]; [|auto with trex]. rewrite Hdata by done. case_decide as Ed.
    + rewrite (Hinj r' Hr' Ed) in *. rewrite nthb_splice by (unfold region_len in *; lia).
      unfold upd. rewrite (content_region m r) by done.
      destruct (_ && _) eqn:E1, (_ && _) eqn:E2 in |- *; try lia. f_equal; lia.
    + rewrite upd_out; [by rewrite (content_region m r')|].
      destruct (decide (address <= i < address + zlen data)); [|lia]. exfalso. apply Ed. f_equal.
      assert (Some r' = Some r) as [= ->]; [|done].
      transitivity (region_of m i); [symmetry|]; apply region_of_Some; auto with trex.
      split; [done|]. unfold in_region. lia.
  - rewrite upd_out; [by unfold content; rewrite E|].
    destruct (decide (address <= i < address + zlen data)); [|lia]. exfalso.
    pose proof (proj1 (region_of_None m (wf_regions _ Hwf) i) E r Hr) as Hno. apply Hno. unfold in_region. lia.
Qed.

Lemma write_loop_spec fuel m address source :
  space_wf m -> (forall i, address <= i < address + zlen source -> mapped m i) ->
  zlen source <= Z.of_nat fuel ->
  exists m', write_loop fuel m address source = (m', None) /\ same_shape m m' /\
    as_readCache m' = as_readCache m /\ as_trackedPages m' = as_trackedPages m /\
    as_trackedFilter m' = as_trackedFilter m /\ as_trackedVersion m' = as_trackedVersion m /\
    forall i, content m' i = upd (content m) address source i.
Proof.
  revert m address source. induction fuel as [|fuel IH]; intros m address source Hwf Hmap Hf.
  all: cbn [write_loop]; destruct (Z.leb_spec (zlen source) 0) as [Hz|Hz].
  1, 3: exists m; assert (source = []) as -> by (apply zlen_0_nil; pose proof (zlen_nonneg source); lia);
    split_and!; try done; intros i; by rewrite upd_nil.
  1: lia.
  destruct (Hmap address ltac:(lia)) as [p Hp]. rewrite as_find_spec by auto with trex. unfold perm in Hp.
  destruct (region_of m address) as [r|] eqn:Er; [|done].
  apply region_of_Some in Er as [Hr Hin]; [|auto with trex]. unfold in_region in Hin.
  set (n := Z.min (region_len m r - (address - rg_start r)) (zlen source)).
  assert (Hn : 0 < n <= zlen source) by lia.
  assert (Hsl : zlen (slice 0 n source) = n) by (apply zlen_slice; lia).
  destruct (write_region m r address (slice 0 n source) Hwf Hr) as [Hsh Hc]; [lia|lia|].
  set (m1 := set_data_of m _ _) in *. set (rest := drop (Z.to_nat n) source).
  assert (Hrest : zlen rest = zlen source - n) by (unfold rest, zlen in *; rewrite length_drop; lia).
  assert (Hsplit : source = slice 0 n source ++ rest)
    by (unfold rest, slice; rewrite drop_0; by rewrite take_drop).
  pose proof (space_wf_shape _ _ Hsh Hwf) as Hwf1.
  assert (Hadd : forall i, upd (upd (content m) address (slice 0 n source)) (address + n) rest i
    = upd (content m) address source i).
  { intros i. transitivity (upd (content m) address (slice 0 n source ++ rest) i);
      [by rewrite upd_app, Hsl|by rewrite <- Hsplit]. }
  destruct (Z.eqb_spec (zlen rest) 0) as [E|E].
  - apply zlen_0_nil in E. exists m1. rewrite E. destruct fuel; cbn [write_loop];
      (split_and!; try done; intros i; by rewrite Hc, <- Hadd, E, upd_nil).
  - destruct (IH m1 (address + n) rest Hwf1) as (m2 & -> & S2 & C2 & T1 & T2 & T3 & V2); [|lia|].
    + intros i Hi. unfold mapped. rewrite (perm_shape m m1) by auto with trex. apply Hmap. lia.
    + exists m2. split_and!; try done; [by eapply same_shape_trans|].
      intros i. rewrite V2, <- Hadd. by apply upd_ext, Hc.
Qed.

Lemma WriteMemory_spec m address source :
  space_inv m ->
  let '(m', e) := WriteMemory m address source in
  space_inv m' /\ same_shape m m' /\
  match e with
  | None => permitted m address (zlen source) AccWrite /\
            (forall i, content m' i = upd (content m) address source i) /\
            as_trackedVersion m' = as_trackedVersion (trackWrite m address (zlen source)) /\
            as_trackedPages m' = as_trackedPages m /\ as_trackedFilter m' = as_trackedFilter m
  | Some _ => m' = m /\ (validRange address (zlen source) = true -> ~ permitted m address (zlen source) AccWrite)
  end.
Proof.
  intros Hinv. unfold WriteMemory. pose proof (ai_wf _ Hinv) as Hwf.
  destruct (as_check_spec m address (zlen source) AccWrite Hinv) as [(Hv & Hp & ->)|[(Hv & Hp & ->)|[Hv ->]]];
    [|by split_and!|split_and!; try done; congruence].
  destruct (trackWrite_same m address (zlen source)) as (Hsh & Hh & Hcache).
  assert (Htr : as_trackedPages (trackWrite m address (zlen source)) = as_trackedPages m /\
    as_trackedFilter (trackWrite m address (zlen source)) = as_trackedFilter m)
    by (unfold trackWrite; destruct (_ || _); [done|]; by destruct (existsb _ _)).
  set (m1 := trackWrite m address (zlen source)) in *. destruct Htr as [Ht1 Ht2].
  pose proof (space_wf_shape _ _ Hsh Hwf) as Hwf1.
  destruct (write_loop_spec (length source) m1 address source Hwf1) as (m2 & -> & S2 & C2 & T1 & T2 & T3 & V2).
  { intros i Hi. unfold mapped. rewrite (perm_shape m m1) by auto with trex. by eapply permitted_mapped. }
  { unfold zlen. lia. }
  pose proof (same_shape_trans _ _ _ Hsh S2) as Hsh2. split_and!; try done; try congruence.
  - split; [by eapply space_wf_shape|]. intros i e He. rewrite C2, Hcache in He.
    eapply span_ok_shape; [done|]. by eapply (ai_cache _ Hinv).
  - intros i. rewrite V2. apply upd_ext. apply content_same; auto with trex.
Qed.

(** ** Mapping *)

Lemma disjoint_sorted m l :
  StronglySorted (key_le rg_start) l -> NoDup l -> (forall x, x ∈ l -> 0 < region_len m x) ->
  (forall x y, x ∈ l -> y ∈ l -> x <> y ->
     rg_start x + region_len m x <= rg_start y \/ rg_start y + region_len m y <= rg_start x) ->
  StronglySorted (fun r r' => rg_start r + region_len m r <= rg_start r') l.
Proof.
  induction l as [|x l IH]; intros Hs Hnd Hpos Hdis; [constructor|].
  apply StronglySorted_inv in Hs as [Hs Hx]. apply NoDup_cons in Hnd as [Hnin Hnd].
  constructor.
  - apply IH; try done; intros; [apply Hpos; by right|apply Hdis; by try right].
  - apply Forall_forall. intros y Hy. rewrite Forall_forall in Hx. specialize (Hx y Hy). unfold key_le in Hx.
    specialize (Hpos y ltac:(by right)).
    destruct (Hdis x y ltac:(left) ltac:(by right)) as [?|?]; [by intros ->|lia|lia].
Qed.

Lemma sorted_disjoint m x y :
  regions_ok m -> x ∈ as_regions m -> y ∈ as_regions m -> x <> y ->
  rg_start x + region_len m x <= rg_start y \/ rg_start y + region_len m y <= rg_start x.
Proof.
  intros Hok [i Hi]%list_elem_of_lookup [j Hj]%list_elem_of_lookup Hne.
  destruct (Nat.lt_trichotomy i j) as [H|[H|H]].
  - left. by eapply (region_order m Hok).
  - subst. congruence.
  - right. by eapply (region_order m Hok).
Qed.

Lemma effective_outside ps a i :
  (forall p, p ∈ ps -> ~ (pt_Start p <= i < pt_Start p + pt_Size p)) -> effective ps a i = a.
Proof.
  induction ps as [|p ps IH] using rev_ind; intros H; [done|]. rewrite effective_snoc.
  destruct (_ && _) eqn:E; [|apply IH; set_solver]. exfalso. apply (H p); [set_solver|lia].
Qed.

Section Map.
Context m (address : Z) (data : bytes) (access : Z).
Hypothesis Hinv : space_inv m.
Hypothesis Haddr : 0 <= address.
Hypothesis Hlen : 0 < zlen data.
Hypothesis Hend : address + zlen data <= MaxUint64 + 1.
Hypothesis Hbudget : zlen data <= as_limit m - as_used m.
Hypothesis Hfree : forall r, r ∈ as_regions m ->
  ~ (address <= rg_start r + (region_len m r - 1) /\ rg_start r <= address + (zlen data - 1)).

Let id := as_next m.
Let new := MkRegion address id access.
Let m' := {| as_regions := sort_by rg_start (as_regions m ++ [new]);
             as_heap := <[id := data]> (as_heap m); as_next := S id;
             as_limit := as_limit m; as_used := as_used m + zlen data;
             as_protections := as_protections m; as_readCache := ∅;
             as_trackedPages := as_trackedPages m; as_trackedFilter := as_trackedFilter m;
             as_trackedVersion := u64 (as_trackedVersion m + 1) |}.

Lemma map_old_data r : r ∈ as_regions m -> region_data m' r = region_data m r.
Proof.
  intros Hr. unfold region_data, data_of. simpl. rewrite lookup_insert_ne; [done|].
  pose proof (aw_region _ (ai_wf _ Hinv) r Hr) as (_ & _ & _ & ?). unfold id. lia.
Qed.

Lemma map_old_len r : r ∈ as_regions m -> region_len m' r = region_len m r.
Proof. intros Hr. unfold region_len. by rewrite map_old_data. Qed.

Lemma map_new_data : region_data m' new = data.
Proof. unfold region_data, data_of. simpl. by rewrite lookup_insert_eq. Qed.

Lemma map_new_len : region_len m' new = zlen data.
Proof. unfold region_len. by rewrite map_new_data. Qed.

Lemma map_elem r : r ∈ as_regions m' <-> r ∈ as_regions m \/ r = new.
Proof. simpl. rewrite sort_by_perm, elem_of_app, list_elem_of_singleton. done. Qed.

Lemma map_new_fresh : new ∉ as_regions m.
Proof. intros H. pose proof (aw_region _ (ai_wf _ Hinv) _ H) as (_ & _ & _ & ?). simpl in *. unfold id in *. lia. Qed.

Lemma map_regions_ok : regions_ok m'.
Proof.
  pose proof (wf_regions _ (ai_wf _ Hinv)) as Hok.
  assert (Hpos : forall x, x ∈ as_regions m' -> 0 < region_len m' x).
  { intros x [Hx| ->]%map_elem; [rewrite map_old_len by done; by apply (ro_pos _ Hok)|by rewrite map_new_len]. }
  split; [|done]. apply disjoint_sorted; [apply sort_by_sorted| |done|].
  - simpl. rewrite sort_by_perm. apply NoDup_app. split_and!.
    + apply (NoDup_fmap_1 rg_data), (aw_distinct _ (ai_wf _ Hinv)).
    + intros x Hx Hn. apply list_elem_of_singleton in Hn as ->. by apply map_new_fresh.
    + apply NoDup_singleton.
  - intros x y [Hx| ->]%map_elem [Hy| ->]%map_elem Hne; [| | |done].
    + rewrite !map_old_len by done. by apply sorted_disjoint.
    + rewrite (map_old_len x), map_new_len by done. specialize (Hfree x Hx). simpl. lia.
    + rewrite (map_old_len y), map_new_len by done. specialize (Hfree y Hy). simpl. lia.
Qed.

Lemma map_region_of i :
  region_of m' i = if decide (address <= i < address + zlen data) then Some new else region_of m i.
Proof.
  pose proof (wf_regions _ (ai_wf _ Hinv)) as Hok. case_decide as Hi.
  - apply region_of_Some; [apply map_regions_ok|]. split; [apply map_elem; by right|].
    unfold in_region. rewrite map_new_len. simpl. lia.
  - destruct (region_of m i) as [r|] eqn:E.
    + apply region_of_Some in E as [Hr Hin]; [|done]. apply region_of_Some; [apply map_regions_ok|].
      split; [apply map_elem; by left|]. unfold in_region in *. by rewrite map_old_len.
    + apply region_of_None; [apply map_regions_ok|]. intros r [Hr| ->]%map_elem; unfold in_region.
      * rewrite map_old_len by done. by apply (proj1 (region_of_None m Hok i) E).
      * rewrite map_new_len. simpl. lia.
Qed.

(** Free addresses carry no protection. *)
Lemma map_unprotected i p :
  address <= i < address + zlen data -> p ∈ as_protections m -> ~ (pt_Start p <= i < pt_Start p + pt_Size p).
Proof.
  intros Hi Hp Hin. destruct (aw_protected _ (ai_wf _ Hinv) p Hp) as [_ Hm].
  destruct (Hm i Hin) as [r Hr]. apply region_of_Some in Hr as [Hr Hri]; [|apply wf_regions, (ai_wf _ Hinv)].
  unfold in_region in Hri. specialize (Hfree r Hr). lia.
Qed.

Lemma map_spec :
  space_inv m' /\
  (forall i, perm m' i = if decide (address <= i < address + zlen data) then Some access else perm m i) /\
  (forall i, content m' i = if decide (address <= i < address + zlen data) then nthb data (i - address)
                            else content m i).
Proof.
  pose proof (ai_wf _ Hinv) as Hwf. pose proof map_regions_ok as Hok. split_and!.
  - split; [|simpl; by intros i e ?%lookup_empty_Some]. pose proof Hwf as [H1 H2 H3 H4 H5 H6]. split.
    + apply Hok.
    + intros r [Hr| ->]%map_elem.
      * rewrite map_old_len by done. simpl. destruct (H2 r Hr) as (? & ? & ? & ?).
        split_and!; try done. unfold id. lia.
      * rewrite map_new_len. simpl. split_and!; try done. lia.
    + simpl. rewrite (sort_by_perm rg_start), fmap_app. apply NoDup_app. split_and!; [done| |apply NoDup_singleton].
      intros x (r & -> & Hr)%list_elem_of_fmap Hx. apply list_elem_of_singleton in Hx. simpl in Hx.
      destruct (H2 r Hr) as (_ & _ & _ & ?). unfold id in Hx. lia.
    + simpl. intros p Hp. destruct (H4 p Hp) as [Hs Hm]. split; [done|]. intros i Hi.
      rewrite map_region_of. case_decide; [done|by apply Hm].
    + fold (total_len m' (as_regions m')). simpl. rewrite H5.
      assert (Hperm : total_len m' (sort_by rg_start (as_regions m ++ [new])) = total_len m' (as_regions m ++ [new])).
      { apply total_len_perm, sort_by_perm. }
      rewrite Hperm. unfold total_len. rewrite foldr_app. simpl. rewrite map_new_len.
      assert (Hacc : forall l b, (forall r, r ∈ l -> r ∈ as_regions m) ->
        foldr (fun r acc => region_len m' r + acc) b l = foldr (fun r acc => region_len m r + acc) 0 l + b).
      { induction l as [|x l IH]; intros b Hl; simpl; [lia|].
        rewrite IH by (intros; apply Hl; by right). rewrite map_old_len by (apply Hl; left). lia. }
      rewrite Hacc by done. lia.
    + simpl. lia.
  - intros i. unfold perm. rewrite map_region_of. case_decide as Hi; [|done]. simpl. f_equal.
    apply effective_outside. intros p Hp. by apply map_unprotected.
  - intros i. unfold content. rewrite map_region_of. case_decide as Hi; [by rewrite map_new_data|].
    destruct (region_of m i) as [r|] eqn:E; [|done].
    apply region_of_Some in E as [Hr _]; [|by apply wf_regions]. by rewrite map_old_data.
Qed.
End Map.

(** ** Unmapping *)

Lemma take_region_Some address rs r rs' :
  take_region address rs = Some (r, rs') ->
  rg_start r = address /\ exists l1 l2, rs = l1 ++ r :: l2 /\ rs' = l1 ++ l2.
Proof.
  revert rs'. induction rs as [|x rs IH]; intros rs' H; simpl in H; [done|].
  destruct (Z.eqb_spec (rg_start x) address) as [E|E].
  - injection H as <- <-. split; [done|]. by exists [], rs.
  - destruct (take_region address rs) as [[r0 rs0]|]; [|done]. injection H as -> <-.
    destruct (IH rs0 eq_refl) as (Hs & l1 & l2 & -> & ->). split; [done|]. by exists (x :: l1), l2.
Qed.

Lemma sorted_remove {A} (R : A -> A -> Prop) l1 x l2 :
  StronglySorted R (l1 ++ x :: l2) -> StronglySorted R (l1 ++ l2).
Proof.
  induction l1 as [|y l1 IH]; simpl; intros H; apply StronglySorted_inv in H as [H Hy]; [done|].
  constructor; [by apply IH|]. apply Forall_app in Hy as [Hy1 Hy2]. apply Forall_app.
  split; [done|]. by inversion Hy2.
Qed.

(** The effective access of an address outside the unmapped range does not
    change. *)
Lemma effective_app ps qs a i : effective (ps ++ qs) a i = effective qs (effective ps a i) i.
Proof. unfold effective. by rewrite foldl_app. Qed.

Lemma effective_trim_one address last p a i :
  i < address \/ last < i -> address <= last -> 0 < pt_Size p ->
  effective (trim_protection address last p) a i = effective [p] a i.
Proof.
  intros Hi Hal Hs. unfold trim_protection. destruct (_ || _) eqn:E; [done|].
  destruct (Z.ltb_spec (pt_Start p) address), (Z.ltb_spec last (pt_Start p + pt_Size p - 1));
    unfold effective; simpl;
    repeat match goal with |- context [(?a <=? ?b)] => destruct (Z.leb_spec a b) end;
    repeat match goal with |- context [(?a <? ?b)] => destruct (Z.ltb_spec a b) end;
    simpl; done || lia.
Qed.

Lemma effective_trim address last ps a i :
  i < address \/ last < i -> address <= last -> (forall p, p ∈ ps -> 0 < pt_Size p) ->
  effective (mjoin (trim_protection address last <$> ps)) a i = effective ps a i.
Proof.
  intros Hi Hal. revert a. induction ps as [|p ps IH]; intros a Hps; [done|].
  rewrite fmap_cons. change (mjoin (trim_protection address last p :: (trim_protection address last <$> ps)))
    with (trim_protection address last p ++ mjoin (trim_protection address last <$> ps)).
  rewrite effective_app, IH by (intros; apply Hps; by right).
  rewrite effective_trim_one by (done || apply Hps; left).
  change (p :: ps) with ([p] ++ ps). by rewrite effective_app.
Qed.

(** What is left of a protection lies inside it and outside the range. *)
Lemma trim_inside address last p q i :
  address <= last -> q ∈ trim_protection address last p -> 0 < pt_Size p ->
  0 < pt_Size q /\ (pt_Start q <= i < pt_Start q + pt_Size q ->
    pt_Start p <= i < pt_Start p + pt_Size p /\ (i < address \/ last < i)).
Proof.
  intros Hal Hq Hp. unfold trim_protection in Hq. destruct (_ || _) eqn:E.
  { apply list_elem_of_singleton in Hq as ->. lia. }
  apply elem_of_app in Hq as [Hq|Hq].
  - destruct (Z.ltb_spec (pt_Start p) address); [|by apply not_elem_of_nil in Hq].
    apply list_elem_of_singleton in Hq as ->. simpl. lia.
  - destruct (Z.ltb_spec last (pt_Start p + pt_Size p - 1)); [|by apply not_elem_of_nil in Hq].
    apply list_elem_of_singleton in Hq as ->. simpl. lia.
Qed.

Lemma total_len_middle m l1 r l2 : total_len m (l1 ++ r :: l2) = region_len m r + total_len m (l1 ++ l2).
Proof. rewrite (total_len_perm m _ (r :: l1 ++ l2)); [done|]. by rewrite Permutation_middle. Qed.

Lemma total_len_nonneg m l : (forall x, x ∈ l -> 0 < region_len m x) -> 0 <= total_len m l.
Proof.
  induction l as [|x l IH]; intros Hx; [done|]. specialize (IH ltac:(intros; apply Hx; by right)). specialize (Hx x ltac:(left)).
  unfold total_len in *. simpl. lia.
Qed.

(** Without one of them, the other regions are as they were. *)
Lemma region_of_removed m m' r l1 l2 i :
  space_wf m -> as_regions m = l1 ++ r :: l2 -> regions_ok m' -> as_regions m' = l1 ++ l2 ->
  (forall x, region_len m' x = region_len m x) -> (forall x, x ∈ l1 ++ l2 <-> x ∈ as_regions m /\ x <> r) ->
  region_of m' i = if decide (in_region m r i) then None else region_of m i.
Proof.
  intros Hwf Hl Hok' Hl' Hlen Helem. assert (Hr : r ∈ as_regions m) by (rewrite Hl; set_solver). case_decide as Hi.
  - apply region_of_None; [done|]. rewrite Hl'. intros x [Hx Hne]%Helem Hin.
    destruct (sorted_disjoint m x r (wf_regions _ Hwf) Hx Hr Hne); unfold in_region in *; rewrite ?Hlen in *; lia.
  - destruct (region_of m i) as [x|] eqn:E.
    + apply region_of_Some in E as [Hx Hin]; [|by apply wf_regions]. apply region_of_Some; [done|]. rewrite Hl'.
      split; [|unfold in_region in *; by rewrite Hlen]. apply Helem. split; [done|]. intros ->. done.
    + apply region_of_None; [done|]. rewrite Hl'. intros x [Hx _]%Helem Hin.
      apply (proj1 (region_of_None m (wf_regions _ Hwf) i) E x Hx). unfold in_region in *. by rewrite Hlen in Hin.
Qed.

Lemma Unmap_spec m address m' :
  space_inv m -> as_Unmap m address = (m', None) ->
  exists r, r ∈ as_regions m /\ rg_start r = address /\ space_inv m' /\
    as_used m' = as_used m - region_len m r /\
    (forall i, perm m' i = if decide (in_region m r i) then None else perm m i) /\
    (forall i, ~ in_region m r i -> content m' i = content m i).
Proof.
  intros Hinv. unfold as_Unmap. pose proof (ai_wf _ Hinv) as Hwf. pose proof Hwf as [H1 H2 H3 H4 H5 H6].
  destruct (take_region address (as_regions m)) as [[r rs]|] eqn:Et; [|done].
  apply take_region_Some in Et as (Hs & l1 & l2 & Hl & ->). intros Hm. injection Hm as <-.
  set (m' := {| as_regions := l1 ++ l2 |}).
  assert (Hr : r ∈ as_regions m) by (rewrite Hl; set_solver).
  destruct (H2 r Hr) as (Hr0 & Hrl & Hre & _).
  assert (Hlen : forall x, region_len m' x = region_len m x) by done.
  assert (Helem : forall x, x ∈ l1 ++ l2 <-> x ∈ as_regions m /\ x <> r).
  { intros x. assert (Hnd : NoDup (as_regions m)) by (by apply (NoDup_fmap_1 rg_data)).
    rewrite Hl in Hnd |- *. apply NoDup_app in Hnd as (_ & Hn1 & Hn2%NoDup_cons). set_solver. }
  assert (Hok' : regions_ok m').
  { split; [simpl; apply (sorted_remove _ l1 r l2); by rewrite <- Hl|].
    simpl. intros x [Hx _]%Helem. by destruct (H2 x Hx) as (_ & ? & _). }
  assert (Hro : forall i, region_of m' i = if decide (in_region m r i) then None else region_of m i).
  { intros i. by apply (region_of_removed m m' r l1 l2). }
  exists r. split_and!; try done.
  - split; [|simpl; by intros i e ?%lookup_empty_Some]. split; simpl.
    + apply Hok'.
    + intros x [Hx _]%Helem. by apply H2.
    + rewrite Hl, fmap_app, fmap_cons in H3. rewrite fmap_app.
      apply NoDup_app in H3 as (Hn0 & Hn1 & Hn2%NoDup_cons). apply NoDup_app. split_and!; [done| |by apply Hn2].
      intros x Hx Hx2. apply (Hn1 x Hx). by right.
    + intros q Hq. apply list_elem_of_join in Hq as (qs & Hq & Hqs).
      apply list_elem_of_fmap in Hqs as (p & -> & Hp). destruct (H4 p Hp) as [Hps Hpm].
      split; [by apply (trim_inside address (address + (region_len m r - 1)) p q 0); [lia|..]|].
      intros i Hi. destruct (trim_inside address (address + (region_len m r - 1)) p q i) as [_ Hin]; [lia|done..|].
      destruct (Hin Hi) as [Hip Hout]. rewrite Hro. rewrite decide_False by (unfold in_region; lia). by apply Hpm.
    + rewrite H5, Hl. fold (total_len m (l1 ++ r :: l2)) (total_len m' (l1 ++ l2)).
      rewrite (total_len_shape m m'), total_len_middle by done. simpl. lia.
    + assert (Hle : region_len m r <= as_used m); [|lia]. rewrite H5, Hl. fold (total_len m (l1 ++ r :: l2)). rewrite total_len_middle.
      pose proof (total_len_nonneg m (l1 ++ l2) ltac:(intros x [Hx _]%Helem; by destruct (H2 x Hx) as (_ & ? & _))). lia.
  - intros i. unfold perm. rewrite Hro. case_decide as Hi; [done|].
    destruct (region_of m i) as [x|] eqn:E; [|done]. f_equal. simpl. apply effective_trim; [|lia|].
    + unfold in_region in Hi. lia.
    + intros p Hp. by apply H4.
  - intros i Hi. unfold content. rewrite Hro, decide_False by done. done.
Qed.

(** ** Protecting *)

(** The pieces follow each other and carry the permissions of their bytes. *)
Fixpoint pieces_ok m (location end_ : Z) (ps : list Protection) : Prop :=
  match ps with
  | [] => location = end_
  | p :: ps => pt_Start p = location /\ 0 < pt_Size p /\
      (forall i, location <= i < location + pt_Size p -> perm m i = Some (pt_Access p)) /\
      pieces_ok m (location + pt_Size p) end_ ps
  end.

Lemma pieces_ok_snoc m a b ps p :
  pieces_ok m a b ps -> pt_Start p = b -> 0 < pt_Size p ->
  (forall i, b <= i < b + pt_Size p -> perm m i = Some (pt_Access p)) ->
  pieces_ok m a (b + pt_Size p) (ps ++ [p]).
Proof.
  revert a. induction ps as [|q ps IH]; simpl; intros a H1 H2 H3 H4; [subst; auto|].
  destruct H1 as (? & ? & ? & ?). split_and!; auto.
Qed.

Lemma protect_loop_spec fuel m address location remaining previous :
  space_wf m -> (forall i, location <= i < location + remaining -> mapped m i) ->
  0 <= remaining <= Z.of_nat fuel -> pieces_ok m address location previous ->
  exists ps, protect_loop fuel m location remaining previous = Ok ps /\
             pieces_ok m address (location + remaining) ps.
Proof.
  intros Hwf. revert location remaining previous.
  induction fuel as [|fuel IH]; intros location remaining previous Hmap Hf Hp.
  all: cbn [protect_loop]; destruct (Z.leb_spec remaining 0).
  1, 3: exists previous; split; [done|]; by replace (location + remaining) with location by lia.
  1: lia.
  destruct (Hmap location ltac:(lia)) as [q Hq]. rewrite as_find_spec by auto with trex. unfold perm in Hq.
  destruct (region_of m location) as [r|] eqn:Er; [|done].
  apply region_of_Some in Er as [Hr Hin]; [|auto with trex].
  pose proof (accessAt_spec m r location Hwf Hr Hin) as Ha.
  destruct (accessAt m location r) as [permissions available]. destruct Ha as (-> & Hav & Hend & Hrun).
  set (n := Z.min remaining available).
  assert (Hn : pieces_ok m address (location + n) (previous ++
    [MkProtection location n (effective (as_protections m) (rg_access r) location)])).
  { apply (pieces_ok_snoc m address location previous (MkProtection location n _)); simpl; try done; [lia|].
    intros i Hi. rewrite (perm_region m r); [|done|done|unfold in_region in *; lia]. f_equal. apply Hrun. lia. }
  destruct (Z.eqb_spec (remaining - n) 0) as [E|E].
  - eexists. rewrite E. split; [by destruct fuel|]. by replace (location + remaining) with (location + n) by lia.
  - destruct (IH (location + n) (remaining - n) (previous ++
      [MkProtection location n (effective (as_protections m) (rg_access r) location)]))
      as (ps & -> & Hps); [intros; apply Hmap; lia|lia|done|].
    exists ps. split; [done|]. by replace (location + remaining) with (location + n + (remaining - n)) by lia.
Qed.

Lemma allows_0 p : allows p 0 = true.
Proof. unfold allows. by rewrite Z.land_0_r. Qed.

Lemma Protect_spec m address size access :
  space_inv m ->
  let '(m', out) := as_Protect m address size access in
  match out with
  | Err _ => m' = m
  | Ok previous =>
      0 < size /\ bad_access access = false /\ (forall i, address <= i < address + size -> mapped m i) /\
      space_inv m' /\ pieces_ok m address (address + size) previous /\
      (forall i, perm m' i = if decide (address <= i < address + size) then Some access else perm m i) /\
      (forall i, content m' i = content m i)
  end.
Proof.
  intros Hinv. unfold as_Protect. pose proof (ai_wf _ Hinv) as Hwf.
  destruct (_ || _) eqn:E; [done|]. apply orb_false_iff in E as [E1 E2].
  destruct (as_check_spec m address size 0 Hinv) as [(Hv & Hp & ->)|[(Hv & Hp & ->)|[Hv ->]]]; [|done..].
  assert (Hmap : forall i, address <= i < address + size -> mapped m i)
    by (intros i Hi; by eapply permitted_mapped).
  destruct (protect_loop_spec (Z.to_nat size) m address address size [] Hwf Hmap) as (ps & -> & Hps); [lia|done|].
  set (m' := {| as_regions := as_regions m |}).
  assert (Hro : forall i, region_of m' i = region_of m i) by done.
  split_and!; try done; try lia.
  - split; [|simpl; by intros i e ?%lookup_empty_Some]. pose proof Hwf as [H1 H2 H3 H4 H5 H6].
    split; try done. simpl. intros p [Hp'|Hp']%elem_of_app.
    + destruct (H4 p Hp') as [? Hm]. split; [done|]. intros i Hi. rewrite Hro. by apply Hm.
    + apply list_elem_of_singleton in Hp' as ->. simpl. split; [lia|]. intros i Hi. rewrite Hro.
      destruct (Hmap i Hi) as [q Hq]. unfold perm in Hq. destruct (region_of m i); [done|discriminate].
  - intros i. unfold perm. rewrite Hro. destruct (region_of m i) as [r|] eqn:Er.
    + simpl. rewrite effective_snoc. simpl. case_decide as Hi.
      * by replace ((address <=? i) && (i <? address + size)) with true by lia.
      * by replace ((address <=? i) && (i <? address + size)) with false by lia.
    + case_decide as Hi; [|done]. destruct (Hmap i Hi) as [q Hq]. unfold perm in Hq. by rewrite Er in Hq.
Qed.

(** ** Listing *)

Definition mapping_covers (x : Mapping) (i p : Z) : Prop :=
  mp_Start x <= i < mp_Start x + mp_Size x /\ mp_Access x = p.

Lemma mappings_loop_spec fuel m r offset i p :
  space_wf m -> r ∈ as_regions m -> 0 <= offset -> region_len m r - offset <= Z.of_nat fuel ->
  (Exists (fun x => mapping_covers x i p) (mappings_loop fuel m r offset) <->
   rg_start r + offset <= i < rg_start r + region_len m r /\ perm m i = Some p).
Proof.
  intros Hwf Hr. revert offset. induction fuel as [|fuel IH]; intros offset Ho Hf; simpl.
  { rewrite Exists_nil. split; [done|lia]. }
  destruct (Z.ltb_spec offset (region_len m r)) as [Hlt|Hge]; cycle 1.
  { rewrite Exists_nil. split; [done|lia]. }
  pose proof (accessAt_spec m r (rg_start r + offset) Hwf Hr ltac:(unfold in_region; lia)) as Ha.
  destruct (accessAt m (rg_start r + offset) r) as [access available].
  destruct Ha as (-> & Hav & Hend & Hrun). rewrite Exists_cons, IH by lia.
  unfold mapping_covers. simpl. split.
  - intros [[Hi <-]|[Hi Hp]]; [|split; [lia|done]]. split; [lia|].
    rewrite (perm_region m r); [|done|done|unfold in_region; lia]. f_equal. apply Hrun. lia.
  - intros [Hi Hp]. destruct (decide (i < rg_start r + offset + available)); [left|right; split; [lia|done]].
    split; [lia|]. rewrite (perm_region m r) in Hp; [|done|done|unfold in_region; lia]. injection Hp as <-.
    symmetry. apply Hrun. lia.
Qed.

(** [Mappings] lists every mapped byte once with its permission. *)
Lemma Mappings_spec m i p :
  space_wf m -> (Exists (fun x => mapping_covers x i p) (as_Mappings m) <-> perm m i = Some p).
Proof.
  intros Hwf. unfold as_Mappings. rewrite Exists_exists. split.
  - intros (x & Hx & Hc). apply list_elem_of_join in Hx as (l & Hx & Hl).
    apply list_elem_of_fmap in Hl as (r & -> & Hr).
    apply (mappings_loop_spec (Z.to_nat (region_len m r)) m r 0 i p Hwf Hr); [lia|lia|].
    apply Exists_exists. eauto.
  - intros Hp. pose proof Hp as Hp'. unfold perm in Hp'. destruct (region_of m i) as [r|] eqn:Er; [|done].
    apply region_of_Some in Er as [Hr Hin]; [|auto with trex]. unfold in_region in Hin.
    pose proof (proj2 (mappings_loop_spec (Z.to_nat (region_len m r)) m r 0 i p Hwf Hr ltac:(lia) ltac:(lia))
      ltac:(split; [lia|done])) as Hx.
    apply Exists_exists in Hx as (x & Hx & Hc). exists x. split; [|done].
    apply list_elem_of_join. eexists. split; [done|]. apply list_elem_of_fmap. eauto.
Qed.

(** [Map] succeeds on a valid range with no mapped byte, within the budget. *)
Definition map_ok m (address : Z) (data : bytes) (access : Z) : Prop :=
  0 < zlen data /\ address + zlen data <= MaxUint64 + 1 /\ access <> 0 /\ bad_access access = false /\
  as_used m + zlen data <= as_limit m /\
  forall i, address <= i < address + zlen data -> perm m i = None.

Lemma perm_is_None m i : space_wf m -> perm m i = None <-> forall r, r ∈ as_regions m -> ~ in_region m r i.
Proof.
  intros Hwf. rewrite <- region_of_None by auto with trex. unfold perm. by destruct (region_of m i).
Qed.

Lemma overlaps_mapped m address n :
  space_wf m -> 0 < n ->
  existsb (overlaps m address (address + (n - 1))) (as_regions m) = false <->
  forall i, address <= i < address + n -> perm m i = None.
Proof.
  intros Hwf Hn. split.
  - intros He i Hi. apply perm_is_None; [done|]. intros r Hr Hin.
    rewrite <- not_true_iff_false in He. apply He, existsb_exists. exists r.
    split; [by apply list_elem_of_In|]. unfold overlaps, in_region in *. lia.
  - intros Hi. apply not_true_iff_false. intros (r & Hr & Ho)%existsb_exists.
    apply list_elem_of_In in Hr. unfold overlaps in Ho.
    destruct (aw_region _ Hwf r Hr) as (_ & ? & _).
    assert (Hx : perm m (Z.max address (rg_start r)) = None) by (apply Hi; lia).
    eapply perm_is_None in Hx; [|done|done]. apply Hx. unfold in_region. lia.
Qed.

Lemma Map_spec m address data access :
  space_inv m -> 0 <= address ->
  let '(m', e) := as_Map m address data access in
  (e = None <-> map_ok m address data access) /\
  match e with
  | Some _ => m' = m
  | None => space_inv m' /\ as_used m' = as_used m + zlen data /\
      (forall i, perm m' i = if decide (address <= i < address + zlen data) then Some access else perm m i) /\
      (forall i, content m' i = if decide (address <= i < address + zlen data) then nthb data (i - address)
                                else content m i)
  end.
Proof.
  intros Hinv Ha. unfold as_Map, map_ok. pose proof (ai_wf _ Hinv) as Hwf.
  pose proof (zlen_nonneg data) as Hl.
  destruct (Z.eqb_spec (zlen data) 0); simpl; [split; [|done]; split; [done|lia]|].
  destruct (validRange address (zlen data)) eqn:Ev; unfold validRange in Ev; simpl;
    [|split; [|done]; split; [done|lia]].
  destruct (Z.eqb_spec access 0); simpl; [split; [|done]; split; [done|]; by intros (_ & _ & ? & _)|].
  destruct (bad_access access) eqn:Eb; [split; [|done]; split; [done|]; by intros (_ & _ & _ & ? & _)|].
  destruct (Z.ltb_spec (as_limit m - as_used m) (zlen data)); [split; [|done]; split; [done|lia]|].
  pose proof (overlaps_mapped m address (zlen data) Hwf ltac:(lia)) as Hov.
  destruct (existsb _ _) eqn:Ee.
  { split; [|done]. split; [done|]. intros (_ & _ & _ & _ & _ & Hn). by apply Hov in Hn. }
  destruct (map_spec m address data access Hinv Ha) as (H1 & H2 & H3); [lia|lia|lia|..].
  { intros r Hr [? ?]. rewrite <- not_true_iff_false in Ee. apply Ee, existsb_exists. exists r.
    split; [by apply list_elem_of_In|]. unfold overlaps. lia. }
  split; [|done]. split; [|done]. intros _. split_and!; try done; try lia. by apply Hov.
Qed.

(** ** Tracking *)

Lemma bit_nonneg bit : 0 <= Z.land bit 63.
Proof. apply Z.land_nonneg. right. lia. Qed.

(** The filter has a bit for every tracked page. *)
Definition filter_complete m : Prop :=
  forall page, page ∈ as_trackedPages m ->
    Z.testbit (filter_word m (filter_bit page)) (Z.land (filter_bit page) 63) = true.

Lemma page_tracked_exact m page :
  filter_complete m -> page_tracked m page = bool_decide (page ∈ as_trackedPages m).
Proof.
  intros Hf. unfold page_tracked. rewrite land_pow2 by apply bit_nonneg.
  case_bool_decide as Hp; [|by rewrite andb_false_r]. by rewrite Hf.
Qed.

Lemma TrackPageWrites_filter m address : filter_complete m -> filter_complete (TrackPageWrites m address).
Proof.
  intros Hf page Hp. cbn [as_trackedPages TrackPageWrites] in Hp. unfold filter_word.
  cbn [as_trackedFilter TrackPageWrites].
  set (new := Z.shiftr address 12) in *.
  assert (Hsing : page = new \/ page ∈ as_trackedPages m) by set_solver.
  destruct (decide (Z.shiftr (filter_bit new) 6 = Z.shiftr (filter_bit page) 6)) as [E|E].
  - rewrite <- E, lookup_insert_eq. cbn [from_option id]. rewrite Z.lor_spec. apply orb_true_iff.
    destruct Hsing as [->|Hp'].
    + right. rewrite Z.shiftl_spec, Z.sub_diag by apply bit_nonneg. done.
    + left. unfold filter_word. rewrite E. by apply (Hf page).
  - rewrite lookup_insert_ne by done. destruct Hsing as [->|Hp']; [done|]. by apply Hf.
Qed.

Lemma trackWrite_version m address size :
  filter_complete m -> 0 <= address -> 0 <= size ->
  as_trackedVersion (trackWrite m address size) =
    if bool_decide (Exists (fun page => page * 4096 < address + size /\ address < page * 4096 + 4096 /\ 0 < size)
                           (elements (as_trackedPages m)))
    then u64 (as_trackedVersion m + 1) else as_trackedVersion m.
Proof.
  intros Hf Ha Hs. unfold trackWrite.
  destruct (Z.eqb_spec size 0) as [->|Hs0]; cbn [orb].
  { rewrite bool_decide_eq_false_2; [done|]. rewrite Exists_exists. intros (p & _ & _ & _ & ?). lia. }
  case_bool_decide as He.
  { rewrite He, elements_empty, bool_decide_eq_false_2; [done|]. intros H. inversion H. }
  destruct (existsb _ _) eqn:E.
  - apply existsb_exists in E as (p & Hp & Ht). rewrite page_tracked_exact in Ht by done.
    apply bool_decide_eq_true in Ht. rewrite bool_decide_eq_true_2; [done|].
    apply list_elem_of_In, elem_of_seqZ in Hp. rewrite !Z.shiftr_div_pow2 in Hp by lia.
    change (2 ^ 12) with 4096 in Hp. apply Exists_exists. exists p. split; [by apply elem_of_elements|].
    split_and!; [|..]; Z.to_euclidean_division_equations; lia.
  - rewrite bool_decide_eq_false_2; [done|]. rewrite Exists_exists. intros (p & Hp & H1 & H2 & _).
    apply elem_of_elements in Hp. rewrite <- not_true_iff_false in E. apply E, existsb_exists.
    exists p. split.
    + apply list_elem_of_In, elem_of_seqZ. rewrite !Z.shiftr_div_pow2 by lia.
      change (2 ^ 12) with 4096. Z.to_euclidean_division_equations; lia.
    + rewrite page_tracked_exact by done. by apply bool_decide_eq_true.
Qed.

(** ** Executions *)

Inductive space_op :=
  | OpMap (address : Z) (data : bytes) (access : Z)
  | OpUnmap (address : Z)
  | OpProtect (address size access : Z)
  | OpRead (address size access : Z)
  | OpWrite (address : Z) (source : bytes)
  | OpTrack (address : Z)
  | OpClone.

(** Addresses are unsigned. *)
Definition op_address (o : space_op) : Z :=
  match o with
  | OpMap a _ _ | OpUnmap a | OpProtect a _ _ | OpRead a _ _ | OpWrite a _ | OpTrack a => a
  | OpClone => 0
  end.

(** [OpClone] continues with the clone. *)
Definition space_apply m (o : space_op) : AddressSpace :=
  match o with
  | OpMap address data access => fst (as_Map m address data access)
  | OpUnmap address => fst (as_Unmap m address)
  | OpProtect address size access => fst (as_Protect m address size access)
  | OpRead address size access => fst (ReadMemory m address size access)
  | OpWrite address source => fst (WriteMemory m address source)
  | OpTrack address => TrackPageWrites m address
  | OpClone => as_Clone m
  end.

Definition space_run (limit : Z) (ops : list space_op) : AddressSpace :=
  foldl space_apply (NewAddressSpace limit) ops.

Lemma space_inv_new limit : 0 <= limit -> space_inv (NewAddressSpace limit).
Proof.
  intros H. split; [split|]; simpl; try (intros ? ?%elem_of_nil; done); try lia; [constructor..|].
  by intros i e ?%lookup_empty_Some.
Qed.

Lemma space_inv_ext m m' :
  space_inv m -> as_regions m' = as_regions m -> as_heap m' = as_heap m -> as_next m' = as_next m ->
  as_limit m' = as_limit m -> as_used m' = as_used m -> as_protections m' = as_protections m ->
  as_readCache m' = as_readCache m \/ as_readCache m' = ∅ -> space_inv m'.
Proof.
  destruct m, m'; simpl. intros [[H1 H2 H3 H4 H5 H6] H7] -> -> -> -> -> -> [-> | ->].
  - split; [split; done|done].
  - split; [split; done|]. simpl. by intros i e ?%lookup_empty_Some.
Qed.

Lemma ReadMemory_state m address size access :
  space_inv m -> 0 <= address ->
  space_inv (fst (ReadMemory m address size access)) /\
  same_shape m (fst (ReadMemory m address size access)) /\
  as_heap (fst (ReadMemory m address size access)) = as_heap m /\
  as_trackedPages (fst (ReadMemory m address size access)) = as_trackedPages m /\
  as_trackedFilter (fst (ReadMemory m address size access)) = as_trackedFilter m /\
  as_trackedVersion (fst (ReadMemory m address size access)) = as_trackedVersion m.
Proof.
  intros Hinv Ha.
  destruct (decide (access = AccRead \/ access = AccExecute)) as [Hacc|Hacc].
  - pose proof (ReadMemory_spec m address size access Hinv Ha Hacc) as H.
    destruct (ReadMemory m address size access) as [m' r]. naive_solver.
  - unfold ReadMemory. replace (negb (access =? AccRead) && negb (access =? AccExecute)) with true by lia.
    by split_and!.
Qed.

Lemma Unmap_error m address m' e : as_Unmap m address = (m', Some e) -> m' = m.
Proof. unfold as_Unmap. destruct (take_region _ _) as [[? ?]|]; naive_solver. Qed.

Lemma space_apply_inv m o : space_inv m -> 0 <= op_address o -> space_inv (space_apply m o).
Proof.
  intros Hinv Ha. destruct o; simpl in *.
  - pose proof (Map_spec m address data access Hinv Ha) as H.
    destruct (as_Map m address data access) as [m' [e|]]; simpl; [|tauto]. by destruct H as [_ ->].
  - destruct (as_Unmap m address) as [m' [e|]] eqn:E; simpl.
    + by apply Unmap_error in E as ->.
    + apply Unmap_spec in E; [|done]. naive_solver.
  - pose proof (Protect_spec m address size access Hinv) as H.
    destruct (as_Protect m address size access) as [m' [ps|e]]; simpl; [tauto|by subst].
  - by apply ReadMemory_state.
  - pose proof (WriteMemory_spec m address source Hinv) as H.
    destruct (WriteMemory m address source) as [m' e]. tauto.
  - eapply space_inv_ext; [done|try done..]. by left.
  - eapply space_inv_ext; [done|try done..]. by right.
Qed.

Lemma space_apply_filter m o :
  space_inv m -> 0 <= op_address o -> filter_complete m -> filter_complete (space_apply m o).
Proof.
  intros Hinv Ha Hf.
  assert (Hsame : forall m', as_trackedPages m' = as_trackedPages m ->
    as_trackedFilter m' = as_trackedFilter m -> filter_complete m').
  { intros m' E1 E2 p Hp. rewrite E1 in Hp. unfold filter_word. rewrite E2. by apply Hf. }
  destruct o; simpl in *.
  - unfold as_Map. repeat case_match; by apply Hsame.
  - unfold as_Unmap. repeat case_match; by apply Hsame.
  - unfold as_Protect. repeat case_match; by apply Hsame.
  - destruct (ReadMemory_state m address size access Hinv Ha) as (_ & _ & _ & ? & ? & _). by apply Hsame.
  - pose proof (WriteMemory_spec m address source Hinv) as H.
    destruct (WriteMemory m address source) as [m' [e|]]; simpl; apply Hsame; naive_solver.
  - by apply TrackPageWrites_filter.
  - intros p Hp. simpl in Hp. set_solver.
Qed.

Lemma space_run_inv limit ops :
  0 <= limit -> Forall (fun o => 0 <= op_address o) ops ->
  space_inv (space_run limit ops) /\ filter_complete (space_run limit ops).
Proof.
  intros Hl Hops. unfold space_run.
  assert (H : space_inv (NewAddressSpace limit) /\ filter_complete (NewAddressSpace limit)).
  { split; [by apply space_inv_new|]. intros p Hp. simpl in Hp. set_solver. }
  revert H. generalize (NewAddressSpace limit) as m. induction Hops as [|o ops Ho _ IH]; intros m [H1 H2]; simpl; [done|].
  apply IH. split; [by apply space_apply_inv|by apply space_apply_filter].
Qed.

(** C15. In every address space the operations can produce, with whatever the
    permission cache holds: [CheckMemory] succeeds exactly when the range does
    not wrap and every byte of it is mapped with the access; [ReadMemory]
    returns the bytes of the range under the same condition and fails
    otherwise, leaving permissions and bytes alone; [WriteMemory] needs the
    write permission on every byte, then changes exactly the range, and a
    write that fails changes nothing. *)
Theorem AddressSpace_accesses limit ops address size access source :
  0 <= limit -> Forall (fun o => 0 <= op_address o) ops -> 0 <= address ->
  access <> 0 -> bad_access access = false ->
  let m := space_run limit ops in
  (CheckMemory m address size access = None <->
     validRange address size = true /\ permitted m address size access) /\
  (forall kind, kind = AccRead \/ kind = AccExecute ->
     let '(m', out) := ReadMemory m address size kind in
     (validRange address size = true -> permitted m address size kind ->
      out = Ok (range (content m) address size)) /\
     (forall b, out = Ok b -> permitted m address size kind /\ b = range (content m) address size) /\
     (forall i, perm m' i = perm m i /\ content m' i = content m i)) /\
  (let '(m', e) := WriteMemory m address source in
   (forall i, perm m' i = perm m i) /\
   match e with
   | None => permitted m address (zlen source) AccWrite /\
             forall i, content m' i = upd (content m) address source i
   | Some _ => m' = m /\ (validRange address (zlen source) = true ->
                          ~ permitted m address (zlen source) AccWrite)
   end).
Proof.
  intros Hl Hops Ha H0 Hb m. destruct (space_run_inv limit ops Hl Hops) as [Hinv _]. fold m in Hinv.
  pose proof (wf_regions _ (ai_wf _ Hinv)) as Hok. split_and!.
  - unfold CheckMemory. rewrite (proj2 (Z.eqb_neq access 0) H0), Hb. simpl.
    destruct (as_check_spec m address size access Hinv) as [(? & ? & ->)|[(? & ? & ->)|[Hv ->]]];
      [done|naive_solver|]. rewrite Hv. naive_solver.
  - intros kind Hk. pose proof (ReadMemory_spec m address size kind Hinv Ha Hk) as H.
    destruct (ReadMemory m address size kind) as [m' out].
    destruct H as (_ & Hsh & Hh & [R1 R2] & _). split_and!; [done|naive_solver|].
    intros i. split; [by apply perm_shape|by apply content_same].
  - pose proof (WriteMemory_spec m address source Hinv) as H.
    destruct (WriteMemory m address source) as [m' e]. destruct H as (_ & Hsh & H).
    split; [intros i; by apply perm_shape|]. destruct e; [done|naive_solver].
Qed.

Definition demo_space_ops : list space_op :=
  [OpMap 4096 (zeros 16) 3; OpMap 4112 (zeros 8) 1; OpProtect 4100 4 1; OpRead 4096 4 AccRead; OpTrack 4096].

Lemma AddressSpace_accesses_witness :
  CheckMemory (space_run 100 demo_space_ops) 4104 12 AccRead = None /\
  snd (WriteMemory (space_run 100 demo_space_ops) 4096 [1; 2; 3; 4; 5]) <> None.
Proof.
  destruct (AddressSpace_accesses 100 demo_space_ops 4104 12 AccRead [1; 2; 3; 4; 5]) as (Hc & Hr & Hw).
  - lia.
  - repeat constructor; vm_compute; discriminate.
  - lia.
  - discriminate.
  - reflexivity.
  - split; [vm_compute; reflexivity|]. vm_compute. discriminate.
Defined.

(** What moves the version that watchers of a page compare. *)
Definition version_moves (m : AddressSpace) (address : Z) (source : bytes) : Prop :=
  let moved m' := as_trackedVersion m' = u64 (as_trackedVersion m + 1) in
  let touches page := page * 4096 < address + zlen source /\ address < page * 4096 + 4096 /\ 0 < zlen source in
  (let '(m', e) := WriteMemory m address source in
   as_trackedPages m' = as_trackedPages m /\
   ((e = None /\ exists page, page ∈ as_trackedPages m /\ touches page) -> moved m') /\
   (~ (e = None /\ exists page, page ∈ as_trackedPages m /\ touches page) ->
    as_trackedVersion m' = as_trackedVersion m)) /\
  (forall data access m', as_Map m address data access = (m', None) -> moved m') /\
  (forall m', as_Unmap m address = (m', None) -> moved m') /\
  (forall size access m' ps, as_Protect m address size access = (m', Ok ps) -> moved m') /\
  (forall size access, as_trackedVersion (fst (ReadMemory m address size access)) = as_trackedVersion m).

Lemma version_moves_ok m address source :
  space_inv m -> filter_complete m -> 0 <= address -> version_moves m address source.
Proof.
  intros Hinv Hf Ha. unfold version_moves. split_and!.
  - pose proof (WriteMemory_spec m address source Hinv) as H.
    destruct (WriteMemory m address source) as [m' [e|]].
    { destruct H as (_ & _ & -> & _). split_and!; naive_solver. }
    destruct H as (_ & _ & _ & _ & Hv & Hp & _). split; [done|].
    rewrite trackWrite_version in Hv by (try apply zlen_nonneg; done). rewrite Hv.
    case_bool_decide as E; rewrite Exists_exists in E; setoid_rewrite elem_of_elements in E.
    + split; [done|]. intros Hn. destruct Hn. by split.
    + split; [|done]. by intros [_ H].
  - intros data access m'. unfold as_Map. repeat case_match; naive_solver.
  - intros m'. unfold as_Unmap. repeat case_match; naive_solver.
  - intros size access m' ps. unfold as_Protect. repeat case_match; naive_solver.
  - intros size access. by apply ReadMemory_state.
Qed.

(** C16. The mapping operations have exactly their effect.  [Map] succeeds
    when the range is valid, no byte of it is mapped and the budget allows it,
    and then gives the range its bytes and permission; [Unmap] removes the
    mapping that starts at the address, its permissions and its charge;
    [Protect] succeeds only on a fully mapped range, sets the permission of
    exactly the range and returns consecutive pieces that carry the former
    permissions; a failed operation changes nothing.  [Mappings] covers a byte
    with a permission exactly when the byte has it, and the bytes mapped never
    exceed the limit.  A cache of derived data stays coherent by watching the
    version: a successful write moves it exactly when it touches a subscribed
    page (the 4096-bit filter never hides one), every successful [Map],
    [Unmap] and [Protect] moves it, and reads and failed operations leave it
    alone. *)
Theorem AddressSpace_mappings limit ops address data size access :
  0 <= limit -> Forall (fun o => 0 <= op_address o) ops -> 0 <= address ->
  let m := space_run limit ops in
  (let '(m', e) := as_Map m address data access in
   (e = None <-> map_ok m address data access) /\
   (e <> None -> m' = m) /\
   (e = None -> as_used m' = as_used m + zlen data /\ forall i,
      perm m' i = (if decide (address <= i < address + zlen data) then Some access else perm m i) /\
      content m' i = (if decide (address <= i < address + zlen data) then nthb data (i - address)
                      else content m i))) /\
  (let '(m', e) := as_Unmap m address in
   (e <> None -> m' = m) /\
   (e = None -> exists n, 0 < n /\ as_used m' = as_used m - n /\ forall i,
      perm m' i = (if decide (address <= i < address + n) then None else perm m i) /\
      (~ address <= i < address + n -> content m' i = content m i))) /\
  (let '(m', out) := as_Protect m address size access in
   match out with
   | Err _ => m' = m
   | Ok previous =>
       0 < size /\ bad_access access = false /\ (forall i, address <= i < address + size -> mapped m i) /\
       pieces_ok m address (address + size) previous /\
       forall i, perm m' i = (if decide (address <= i < address + size) then Some access else perm m i) /\
                 content m' i = content m i
   end) /\
  (forall i p, Exists (fun x => mapping_covers x i p) (as_Mappings m) <-> perm m i = Some p) /\
  as_used m = total_len m (as_regions m) /\ 0 <= as_used m <= as_limit m /\
  version_moves m address data.
Proof.
  intros Hl Hops Ha m. destruct (space_run_inv limit ops Hl Hops) as [Hinv Hf]. fold m in Hinv, Hf. split_and!.
  - pose proof (Map_spec m address data access Hinv Ha) as H.
    destruct (as_Map m address data access) as [m' [e|]]; naive_solver.
  - destruct (as_Unmap m address) as [m' [e|]] eqn:E.
    + split; [|done]. intros _. by eapply Unmap_error.
    + split; [done|]. intros _. apply Unmap_spec in E as (r & Hr & Hs & _ & Hu & Hp & Hc); [|done].
      exists (region_len m r). destruct (aw_region _ (ai_wf _ Hinv) r Hr) as (_ & ? & _).
      subst address. split_and!; try done. intros i. split; [apply Hp|]. apply Hc.
  - pose proof (Protect_spec m address size access Hinv) as H.
    destruct (as_Protect m address size access) as [m' [ps|e]]; [|done].
    destruct H as (? & ? & ? & _ & ? & ? & ?). by split_and!.
  - intros i p. apply Mappings_spec, Hinv.
  - apply (aw_used _ (ai_wf _ Hinv)).
  - apply (aw_limit _ (ai_wf _ Hinv)).
  - apply (aw_limit _ (ai_wf _ Hinv)).
  - by apply version_moves_ok.
Qed.

Lemma AddressSpace_mappings_witness :
  snd (as_Map (space_run 100 demo_space_ops) 4110 [7; 8] 1) <> None /\
  (exists previous, snd (as_Protect (space_run 100 demo_space_ops) 4098 4 7) = Ok previous /\ length previous = 2%nat) /\
  as_trackedVersion (fst (WriteMemory (space_run 100 demo_space_ops) 4096 [9])) =
  u64 (as_trackedVersion (space_run 100 demo_space_ops) + 1).
Proof.
  destruct (AddressSpace_mappings 100 demo_space_ops 4096 [9] 4 7) as (_ & _ & _ & _ & _ & _ & Hw & _).
  - lia.
  - repeat constructor; vm_compute; discriminate.
  - lia.
  - split; [vm_compute; discriminate|]. split; [eexists; split; [vm_compute; reflexivity|reflexivity]|].
    destruct (WriteMemory (space_run 100 demo_space_ops) 4096 [9]) as [m' e] eqn:E.
    destruct Hw as (_ & Hmoved & _). apply Hmoved. vm_compute in E. injection E as <- <-.
    split; [reflexivity|]. exists 1. split; [|vm_compute; repeat split].
    apply (bool_decide_unpack _). vm_compute. exact I.
Defined.
