(* ===== verification/PhysMem.v ===== *)
(** Package [memory]: physical memory captures and i386 address spaces over
    them (src/memory/image.go, src/memory/x86.go). *)

From S2P Require Import Prelude GoLib Storage.
From stdpp Require Import base numbers list gmap sorting strings.

Open Scope Z_scope.
Open Scope trex_scope.

#[local] Ltac Zify.zify_post_hook ::= Z.to_euclidean_division_equations.

(** ** Data *)

Record phys_Range := MkPhysRange { pr_Start : Z; pr_Offset : Z; pr_Size : Z }.

#[export] Instance phys_Range_eq_dec : EqDecision phys_Range.
Proof. solve_decision. Defined.

(** Errors: a [*Fault], with its cause, or an error of the source. *)
Inductive fault :=
  | FaultOther (e : error)
  | Fault (kind : string) (address physical : Z) (level : string) (cause : option fault).

Record Physical := MkPhysical { ph_source : Reader; ph_ranges : list phys_Range; ph_size : Z }.

Implicit Types p : Physical.
Implicit Types r : phys_Range.

(** ** Captures *)

Definition range_invalid (source : Reader) (end_ : Z) r : bool :=
  (pr_Size r =? 0) || (MaxInt64 <? pr_Start r) || (MaxInt64 - pr_Start r <? pr_Size r)
  || (rd_Size source <? pr_Offset r) || (rd_Size source - pr_Offset r <? pr_Size r) || (pr_Start r <? end_).

Fixpoint ranges_end (source : Reader) (end_ : Z) (ranges : list phys_Range) : res Z :=
  match ranges with
  | [] => Ok end_
  | r :: ranges =>
      if range_invalid source end_ r
      then Err (Errorf "invalid, overlapping, or out-of-source physical range")
      else ranges_end source (pr_Start r + pr_Size r) ranges
  end.

(** [None] is a nil mapping. *)
Definition NewPhysical (source : Reader) (ranges : option (list phys_Range)) : res Physical :=
  guard! (Errorf "invalid memory source") when (rd_Size source <? 0) in
  let ranges :=
    match ranges with
    | None => if rd_Size source =? 0 then [] else [MkPhysRange 0 0 (rd_Size source)]
    | Some ranges => ranges
    end in
  guard! (Errorf "too many physical ranges") when (1048576 <? zlen ranges) in
  let ranges := sort_by pr_Start ranges in
  let! end_ := ranges_end source 0 ranges in
  Ok (MkPhysical source ranges end_).

Definition Physical_find p (address : Z) : Z :=
  sort_Search (zlen (ph_ranges p))
    (fun i => match ph_ranges p !! Z.to_nat i with
              | Some r => address <? pr_Start r + pr_Size r | None => true end).

(** A round reads at least one byte or ends the loop. *)
Fixpoint Physical_ReadAt_loop (fuel : nat) p (n offset : Z) (out : bytes) : bytes * option fault :=
  if n <=? zlen out then (out, None)
  else match fuel with
  | O => (out, Some (FaultOther OutOfFuel))
  | S fuel =>
      let address := offset + zlen out in
      match ph_ranges p !! Z.to_nat (Physical_find p address) with
      | None => (out, Some (Fault "not-captured" address address "physical" None))
      | Some r =>
          if address <? pr_Start r then (out, Some (Fault "not-captured" address address "physical" None))
          else
            let count := Z.min (n - zlen out) (pr_Start r + pr_Size r - address) in
            let '(data, err) := rd_ReadAt (ph_source p) count (pr_Offset r + address - pr_Start r) in
            let out := out ++ data in
            if negb (zlen data =? count) || match err with Some e => negb (is_EOF e) | None => false end then
              let at_ := address + zlen data in
              (out, Some (Fault "source-error" at_ at_ "physical"
                            (Some (FaultOther (default ErrUnexpectedEOF err)))))
            else Physical_ReadAt_loop fuel p n offset out
      end
  end.

Definition Physical_ReadAt p (n offset : Z) : bytes * option fault :=
  if offset <? 0 then ([], Some (Fault "invalid-address" 0 0 "physical" None))
  else if n =? 0 then ([], None)
  else Physical_ReadAt_loop (Z.to_nat n) p n offset [].

(** [memory.Read] of a capture. *)
Definition memory_Read (ReadAt : Z -> Z -> bytes * option fault) (address size : Z) : bytes * option fault :=
  if (size <? 0) || (67108864 <? size) || (MaxInt64 <? address) || (MaxInt64 - address <? size)
  then ([], Some (FaultOther (Errorf "invalid or oversized memory read")))
  else
    let '(data, err) := ReadAt size address in
    (data, match err with
           | None => if zlen data =? size then None else Some (FaultOther ErrUnexpectedEOF)
           | Some _ => err
           end).

(** ** i386 address spaces *)

Record PageEntry := MkPageEntry { pe_Level : string; pe_Address : Z; pe_Value : Z }.

Record Translation := MkTranslation {
  tr_Virtual : Z; tr_Physical : Z; tr_PageSize : Z; tr_Entries : list PageEntry;
}.

Record X86 := MkX86 { x_physical : Physical; x_dtb : Z; x_pae : bool }.

Definition NewX86 (physical : Physical) (dtb : Z) (pae : bool) : res X86 :=
  if 4294967295 <? dtb then Err (Errorf "invalid x86 directory-table base")
  else Ok (MkX86 physical dtb pae).

(** [errors.As] finds the fault itself; a plain error has none. *)
Definition contextualFault (err : fault) (address physical : Z) (level : string) : fault :=
  let kind := match err with Fault kind _ _ _ _ => kind | FaultOther _ => "source-error" end in
  Fault kind address physical level (Some err).

(** The closure [entry] of [Translate]: the entries read so far are kept with
    the fault. *)
Definition x86_entry (x : X86) (va : Z) (entries : list PageEntry) (level : string) (address width : Z)
    : list PageEntry * (fault + Z) :=
  match Physical_ReadAt (x_physical x) width address with
  | (_, Some err) => (entries, inl (contextualFault err va address level))
  | (data, None) =>
      let v := le_val data in
      let entries := entries ++ [MkPageEntry level address v] in
      if Z.land v 1 =? 0 then (entries, inl (Fault "not-present" va address level None))
      else (entries, inr v)
  end.

Definition t_fault (va : Z) (entries : list PageEntry) (e : fault) : Translation * option fault :=
  (MkTranslation va 0 0 entries, Some e).

Definition t_page (va : Z) (entries : list PageEntry) (physical size : Z) : Translation * option fault :=
  (MkTranslation va physical size entries, None).

Definition frame_mask : Z := 0x000ffffffffff000.

Definition Translate_pae (x : X86) (va : Z) : Translation * option fault :=
  match x86_entry x va [] "pdpte" (Z.land (x_dtb x) (-32) + Z.land (Z.shiftr va 30) 3 * 8) 8 with
  | (es, inl e) => t_fault va es e
  | (es, inr pdpte) =>
      match x86_entry x va es "pde" (Z.land pdpte frame_mask + Z.land (Z.shiftr va 21) 511 * 8) 8 with
      | (es, inl e) => t_fault va es e
      | (es, inr pde) =>
          if negb (Z.land pde 0x80 =? 0)
          then t_page va es (Z.land pde 0x000fffffffe00000 + Z.land va 0x1fffff) 2097152
          else
            match x86_entry x va es "pte" (Z.land pde frame_mask + Z.land (Z.shiftr va 12) 511 * 8) 8 with
            | (es, inl e) => t_fault va es e
            | (es, inr pte) => t_page va es (Z.land pte frame_mask + Z.land va 4095) 4096
            end
      end
  end.

Definition Translate_32 (x : X86) (va : Z) : Translation * option fault :=
  match x86_entry x va [] "pde" (Z.land (x_dtb x) (-4096) + Z.shiftr va 22 * 4) 4 with
  | (es, inl e) => t_fault va es e
  | (es, inr pde) =>
      if negb (Z.land pde 0x80 =? 0) then
        if negb (Z.land pde 0x003fe000 =? 0)
        then t_fault va es (Fault "unsupported" va 0 "pse-36" None)
        else t_page va es (Z.land pde 0xffc00000 + Z.land va 0x3fffff) 4194304
      else
        match x86_entry x va es "pte" (Z.land pde 0xfffff000 + Z.land (Z.shiftr va 12) 1023 * 4) 4 with
        | (es, inl e) => t_fault va es e
        | (es, inr pte) => t_page va es (Z.land pte 0xfffff000 + Z.land va 4095) 4096
        end
  end.

Definition Translate (x : X86) (va : Z) : Translation * option fault :=
  if 4294967296 <=? va then t_fault va [] (Fault "invalid-address" va 0 "virtual" None)
  else if x_pae x then Translate_pae x va else Translate_32 x va.

Fixpoint X86_ReadAt_loop (fuel : nat) (x : X86) (n offset : Z) (out : bytes) : bytes * option fault :=
  if n <=? zlen out then (out, None)
  else match fuel with
  | O => (out, Some (FaultOther OutOfFuel))
  | S fuel =>
      let va := offset + zlen out in
      match Translate x va with
      | (_, Some err) => (out, Some err)
      | (t, None) =>
          let count := Z.min (n - zlen out) (tr_PageSize t - Z.land va (tr_PageSize t - 1)) in
          let '(data, err) := Physical_ReadAt (x_physical x) count (tr_Physical t) in
          let out := out ++ data in
          match err with
          | Some err => (out, Some (contextualFault err (va + zlen data) (tr_Physical t + zlen data) "data"))
          | None => X86_ReadAt_loop fuel x n offset out
          end
      end
  end.

Definition X86_ReadAt (x : X86) (n offset : Z) : bytes * option fault :=
  if (offset <? 0) || (4294967296 <? offset) || (4294967296 - offset <? n)
  then ([], Some (Fault "invalid-address" (u64 offset) 0 "virtual" None))
  else X86_ReadAt_loop (Z.to_nat n) x n offset [].

(** ** Reading byte by byte

    The reference: read each byte on its own and stop at the first fault. *)
Fixpoint read_bytes (get : Z -> fault + byte) (n : nat) (a : Z) : bytes * option fault :=
  match n with
  | O => ([], None)
  | S n =>
      match get a with
      | inl e => ([], Some e)
      | inr b => let '(l, e) := read_bytes get n (a + 1) in (b :: l, e)
      end
  end.

(** The byte at a physical address, given the mapping and the source's
    content. *)
Definition phys_get (f : Z -> byte) (ranges : list phys_Range) (a : Z) : fault + byte :=
  match list_find (fun r => pr_Start r <= a < pr_Start r + pr_Size r) ranges with
  | Some (_, r) => inr (f (pr_Offset r + a - pr_Start r))
  | None => inl (Fault "not-captured" a a "physical" None)
  end.

(** The byte at a virtual address: translate it, read one physical byte. *)
Definition virt_get (get : Z -> fault + byte) (x : X86) (va : Z) : fault + byte :=
  match Translate x va with
  | (_, Some e) => inl e
  | (t, None) =>
      match get (tr_Physical t) with
      | inl e => inl (contextualFault e va (tr_Physical t) "data")
      | inr b => inr b
      end
  end.

(** ** Bytewise reading in runs *)

(** Reading [k] bytes that are all there, then the rest. *)
Lemma read_bytes_run get f (k n : nat) a :
  (forall i, a <= i < a + Z.of_nat k -> get i = inr (f i)) -> (k <= n)%nat ->
  read_bytes get n a =
    let '(l, e) := read_bytes get (n - k) (a + Z.of_nat k) in (range f a (Z.of_nat k) ++ l, e).
Proof.
  revert n a. induction k as [|k IH]; intros n a Hget Hk.
  - rewrite range_nil, Nat.sub_0_r, Z.add_0_r by lia. by destruct (read_bytes get n a).
  - destruct n as [|n]; [lia|]. simpl read_bytes at 1. rewrite Hget by lia.
    rewrite (IH n (a + 1)) by (intros; try apply Hget; lia).
    replace (a + 1 + Z.of_nat k) with (a + Z.of_nat (S k)) by lia.
    replace (S n - S k)%nat with (n - k)%nat by lia.
    rewrite (range_cons f a) by lia. replace (Z.of_nat (S k) - 1) with (Z.of_nat k) by lia.
    by destruct (read_bytes get (n - k) (a + Z.of_nat (S k))).
Qed.

(** Two getters that agree, up to the fault, read the same bytes. *)
Lemma read_bytes_shift get get' h (n : nat) a b :
  (forall i, 0 <= i < Z.of_nat n -> get' (b + i) = match get (a + i) with inl e => inl (h e (b + i)) | inr x => inr x end) ->
  read_bytes get' n b =
    let '(l, e) := read_bytes get n a in
    (l, match e with Some e => Some (h e (b + zlen l)) | None => None end).
Proof.
  revert a b. induction n as [|n IH]; intros a b H; [done|]. simpl.
  pose proof (H 0 ltac:(lia)) as H0. rewrite !Z.add_0_r in H0. rewrite H0.
  destruct (get a) as [e|x]; simpl; [by rewrite Z.add_0_r|].
  rewrite (IH (a + 1) (b + 1)).
  - destruct (read_bytes get n (a + 1)) as [l [e|]]; [|done]. rewrite zlen_cons. do 3 f_equal. lia.
  - intros i Hi. replace (a + 1 + i) with (a + (1 + i)) by lia. replace (b + 1 + i) with (b + (1 + i)) by lia.
    apply H. lia.
Qed.

Lemma read_bytes_ok get (n : nat) a l :
  read_bytes get n a = (l, None) -> zlen l = Z.of_nat n.
Proof.
  revert a l. induction n as [|n IH]; simpl; intros a l H; [by injection H as <-|].
  destruct (get a); [done|]. destruct (read_bytes get n (a + 1)) as [l' e] eqn:E.
  injection H as <- ->. rewrite zlen_cons, (IH _ _ E). lia.
Qed.

(** ** The mapping of a capture *)

Definition before r r' : Prop := pr_Start r + pr_Size r <= pr_Start r'.

(** The fields are unsigned. *)
Definition range_unsigned r : Prop := 0 <= pr_Start r /\ 0 <= pr_Offset r /\ 0 <= pr_Size r.

Definition range_valid (source : Reader) r : Prop :=
  0 < pr_Size r /\ pr_Start r + pr_Size r <= MaxInt64 /\ pr_Offset r + pr_Size r <= rd_Size source.

Definition mapping_valid (source : Reader) (ranges : list phys_Range) : Prop :=
  Forall (range_valid source) ranges /\ NoDup ranges /\
  forall r r', r ∈ ranges -> r' ∈ ranges -> r <> r' -> before r r' \/ before r' r.

Lemma StronglySorted_pair {A} (R : A -> A -> Prop) l x y :
  StronglySorted R l -> x ∈ l -> y ∈ l -> x <> y -> R x y \/ R y x.
Proof.
  induction 1 as [|z l _ IH Hz]; intros Hx Hy Hne; [by apply elem_of_nil in Hx|].
  rewrite Forall_forall in Hz. apply elem_of_cons in Hx, Hy.
  destruct Hx as [->|Hx], Hy as [->|Hy]; [done|left; by apply Hz|right; by apply Hz|auto].
Qed.

Lemma ranges_end_spec source e l :
  Forall range_unsigned l ->
  ((exists e', ranges_end source e l = Ok e') <->
   Forall (range_valid source) l /\ StronglySorted before l /\ Forall (fun r => e <= pr_Start r) l).
Proof.
  intros Hu. revert e. induction Hu as [|r l (Hs & Ho & Hz) _ IH]; intros e; simpl.
  { split; [intros _; split_and!; constructor|]. intros _. eauto. }
  unfold range_invalid. destruct (_ || _) eqn:E.
  - split; [intros [? ?]; done|]. intros (Hv & _ & Hf).
    apply Forall_cons in Hv as [(? & ? & ?) _], Hf as [? _]. lia.
  - rewrite IH. split.
    + intros (Hv & Hss & Hf).
      assert (Hr : range_valid source r) by (unfold range_valid; lia). split_and!.
      * by constructor.
      * by constructor.
      * constructor; [lia|]. eapply Forall_impl; [done|]. simpl. lia.
    + intros (Hv & Hss & _). apply Forall_cons in Hv as [_ Hv]. by inversion Hss; subst.
Qed.

Lemma sorted_before source l :
  Forall (range_valid source) l -> StronglySorted (key_le pr_Start) l -> NoDup l ->
  (forall r r', r ∈ l -> r' ∈ l -> r <> r' -> before r r' \/ before r' r) -> StronglySorted before l.
Proof.
  intros Hv Hs. induction Hs as [|x l Hs IH Hx]; intros Hnd Hd; [constructor|].
  apply NoDup_cons in Hnd as [Hn Hnd]. apply Forall_cons in Hv as [Hvx Hv]. constructor.
  - apply IH; auto. intros. apply Hd; set_solver.
  - rewrite Forall_forall in Hx, Hv |- *. intros y Hy. specialize (Hx y Hy). destruct (Hv y Hy) as [? _].
    destruct Hvx as [? _]. destruct (Hd x y) as [Hb|Hb]; [set_solver..|congruence|done|].
    unfold before, key_le in *. lia.
Qed.

Lemma before_nodup source l :
  Forall (range_valid source) l -> StronglySorted before l -> NoDup l.
Proof.
  intros Hv Hs. induction Hs as [|x l Hs IH Hx]; [constructor|].
  apply Forall_cons in Hv as [[Hx0 _] Hv]. constructor; [|auto].
  intros Hin. rewrite Forall_forall in Hx. specialize (Hx x Hin). unfold before in Hx. lia.
Qed.

(** What [NewPhysical] accepts. *)
Lemma NewPhysical_accepts source ranges :
  0 <= rd_Size source -> Forall range_unsigned ranges -> zlen ranges <= 1048576 ->
  ((exists p, NewPhysical source (Some ranges) = Ok p) <-> mapping_valid source ranges).
Proof.
  intros Hsz Hu Hlen. unfold NewPhysical.
  destruct (Z.ltb_spec (rd_Size source) 0); [lia|]. destruct (Z.ltb_spec 1048576 (zlen ranges)); [lia|].
  pose proof (sort_by_perm pr_Start ranges) as Hp.
  assert (Hfa : forall P : phys_Range -> Prop, Forall P (sort_by pr_Start ranges) <-> Forall P ranges)
    by (intros P; by rewrite Hp).
  transitivity (exists e', ranges_end source 0 (sort_by pr_Start ranges) = Ok e').
  { destruct (ranges_end _ _ _); simpl; split; intros [? ?]; naive_solver. }
  rewrite ranges_end_spec, !Hfa by (by apply Hfa). unfold mapping_valid. split.
  - intros (Hv & Hs & _). split_and!; [done| |].
    + rewrite <- Hp. apply (before_nodup source); [by apply Hfa|done].
    + intros r r' Hr Hr' Hne. eapply (StronglySorted_pair _ (sort_by pr_Start ranges)); [done|by rewrite Hp..|done].
  - intros (Hv & Hnd & Hd). split_and!; [done| |].
    + apply (sorted_before source); [by apply Hfa|by apply sort_by_sorted|by rewrite Hp|].
      intros r r'. rewrite Hp. apply Hd.
    + apply (Forall_impl range_unsigned); [done|]. by intros r (? & _).
Qed.

(** An address lies in at most one range. *)
Lemma phys_get_in f l a r :
  StronglySorted before l \/ (forall x y, x ∈ l -> y ∈ l -> x <> y -> before x y \/ before y x) ->
  r ∈ l -> pr_Start r <= a < pr_Start r + pr_Size r ->
  phys_get f l a = inr (f (pr_Offset r + a - pr_Start r)).
Proof.
  intros Hd Hr Ha. unfold phys_get.
  assert (Hd' : forall x y, x ∈ l -> y ∈ l -> x <> y -> before x y \/ before y x).
  { destruct Hd as [Hs|Hd]; [|done]. intros. by apply (StronglySorted_pair _ l). }
  destruct (list_find _ l) as [[i r']|] eqn:E.
  - apply list_find_Some in E as (E & Ha' & _). apply list_elem_of_lookup_2 in E.
    destruct (decide (r = r')) as [->|Hne]; [done|].
    destruct (Hd' r r' Hr E Hne) as [H|H]; unfold before in H; lia.
  - apply list_find_None in E. rewrite Forall_forall in E. by destruct (E r Hr).
Qed.

Lemma phys_get_out f l a :
  (forall r, r ∈ l -> ~ pr_Start r <= a < pr_Start r + pr_Size r) ->
  phys_get f l a = inl (Fault "not-captured" a a "physical" None).
Proof.
  intros H. unfold phys_get. replace (list_find _ l) with (@None (nat * phys_Range)); [done|].
  symmetry. apply list_find_None. by rewrite Forall_forall.
Qed.

Lemma phys_get_perm f source l k a :
  mapping_valid source l -> l ≡ₚ k -> phys_get f l a = phys_get f k a.
Proof.
  intros (_ & _ & Hd) Hp. unfold phys_get at 1. destruct (list_find _ l) as [[i r]|] eqn:E.
  - apply list_find_Some in E as (E & Ha & _). apply list_elem_of_lookup_2 in E.
    symmetry. apply phys_get_in; [right|by rewrite <- Hp|done]. intros x y. rewrite <- Hp. apply Hd.
  - symmetry. apply phys_get_out. intros r. rewrite <- Hp. apply list_find_None in E.
    rewrite Forall_forall in E. apply E.
Qed.

(** ** Reading a capture *)

Record phys_wf (f : Z -> byte) p : Prop := {
  pw_reader : ReaderOK (ph_source p) f;
  pw_unsigned : Forall range_unsigned (ph_ranges p);
  pw_valid : Forall (range_valid (ph_source p)) (ph_ranges p);
  pw_sorted : StronglySorted before (ph_ranges p);
}.

Lemma before_lookup l (i j : nat) r r' :
  StronglySorted before l -> l !! i = Some r -> l !! j = Some r' -> (i < j)%nat -> before r r'.
Proof.
  intros Hs. revert i j. induction Hs as [|x l _ IH Hx]; intros i j Hi Hj Hij; [done|].
  destruct i as [|i], j as [|j]; simpl in *; try lia.
  - injection Hi as <-. rewrite Forall_forall in Hx. apply Hx. by eapply list_elem_of_lookup_2.
  - apply (IH i j); auto. lia.
Qed.

(** The search finds the range of a captured address. *)
Lemma Physical_find_spec f p a :
  phys_wf f p ->
  match ph_ranges p !! Z.to_nat (Physical_find p a) with
  | Some r => r ∈ ph_ranges p /\ a < pr_Start r + pr_Size r /\
              (a < pr_Start r -> phys_get f (ph_ranges p) a = inl (Fault "not-captured" a a "physical" None))
  | None => phys_get f (ph_ranges p) a = inl (Fault "not-captured" a a "physical" None)
  end.
Proof.
  intros Hwf. unfold Physical_find. set (l := ph_ranges p). set (g := fun i => _).
  destruct (sort_Search_spec (zlen l) g) as (Hr & Hlo & Hhi); [apply zlen_nonneg|..].
  { intros x y Hx Hxy Hy. unfold g.
    destruct (l !! Z.to_nat x) as [rx|] eqn:Ex; [|apply lookup_ge_None in Ex; unfold zlen in *; lia].
    destruct (l !! Z.to_nat y) as [ry|] eqn:Ey; [|done].
    destruct (decide (x = y)) as [->|]; [naive_solver|].
    pose proof (before_lookup l (Z.to_nat x) (Z.to_nat y) rx ry (pw_sorted _ _ Hwf) Ex Ey ltac:(lia)) as Hb.
    pose proof (pw_valid _ _ Hwf) as Hv. fold l in Hv. rewrite Forall_forall in Hv.
    destruct (Hv ry) as [? _]; [by eapply list_elem_of_lookup_2|]. unfold before in Hb. lia. }
  set (i := sort_Search (zlen l) g) in *.
  assert (Hbelow : forall r, r ∈ l -> (forall j : nat, l !! j = Some r -> Z.of_nat j < i) ->
    ~ pr_Start r <= a < pr_Start r + pr_Size r).
  { intros r [j Hj]%list_elem_of_lookup Hall Hin. specialize (Hall j Hj).
    specialize (Hlo (Z.of_nat j) ltac:(lia)). unfold g in Hlo. rewrite Nat2Z.id, Hj in Hlo. lia. }
  destruct (l !! Z.to_nat i) as [r|] eqn:E.
  - assert (Hg : g i = true).
    { apply Hhi. apply lookup_lt_Some in E. unfold zlen in *. lia. }
    unfold g in Hg. rewrite E in Hg. split_and!; [by eapply list_elem_of_lookup_2|lia|].
    intros Ha. apply phys_get_out. intros r' [j Hj]%list_elem_of_lookup Hin.
    destruct (decide (Z.of_nat j < i)).
    + specialize (Hlo (Z.of_nat j) ltac:(lia)). unfold g in Hlo. rewrite Nat2Z.id, Hj in Hlo. lia.
    + destruct (decide (j = Z.to_nat i)) as [->|]; [rewrite E in Hj; injection Hj as <-; lia|].
      pose proof (before_lookup l (Z.to_nat i) j r r' (pw_sorted _ _ Hwf) E Hj ltac:(lia)) as Hb.
      pose proof (pw_valid _ _ Hwf) as Hv. fold l in Hv. rewrite Forall_forall in Hv.
      destruct (Hv r) as [? _]; [by eapply list_elem_of_lookup_2|]. unfold before in Hb. lia.
  - apply phys_get_out. intros r Hr'. apply Hbelow; [done|]. intros j Hj.
    apply lookup_ge_None in E. apply lookup_lt_Some in Hj. unfold zlen in *. lia.
Qed.

Lemma Physical_ReadAt_loop_spec fuel f p n offset out :
  phys_wf f p -> 0 <= offset -> n - zlen out <= Z.of_nat fuel -> zlen out <= n ->
  Physical_ReadAt_loop fuel p n offset out =
    let '(l, e) := read_bytes (phys_get f (ph_ranges p)) (Z.to_nat (n - zlen out)) (offset + zlen out) in
    (out ++ l, e).
Proof.
  intros Hwf Hoff. revert out. induction fuel as [|fuel IH]; intros out Hf Hn.
  all: cbn [Physical_ReadAt_loop]; destruct (Z.leb_spec n (zlen out)); try lia.
  1, 2: replace (Z.to_nat (n - zlen out)) with O by lia; simpl; by rewrite app_nil_r.
  set (a := offset + zlen out). pose proof (Physical_find_spec f p a Hwf) as Hfind.
  destruct (Z.to_nat (n - zlen out)) as [|m] eqn:Em; [lia|].
  destruct (ph_ranges p !! Z.to_nat (Physical_find p a)) as [r|]; cycle 1.
  { simpl. rewrite Hfind. simpl. by rewrite app_nil_r. }
  destruct Hfind as (Hr & Hend & Hout). destruct (Z.ltb_spec a (pr_Start r)).
  { simpl. rewrite Hout by done. simpl. by rewrite app_nil_r. }
  pose proof (pw_valid _ _ Hwf) as Hv. rewrite Forall_forall in Hv. destruct (Hv r Hr) as (? & ? & ?).
  pose proof (pw_unsigned _ _ Hwf) as Hu. rewrite Forall_forall in Hu. destruct (Hu r Hr) as (? & ? & ?).
  set (count := Z.min (n - zlen out) (pr_Start r + pr_Size r - a)).
  destruct (@rd_full _ _ (pw_reader _ _ Hwf) count (pr_Offset r + a - pr_Start r)) as (e & -> & He); [lia..|].
  rewrite zlen_range by lia. rewrite Z.eqb_refl. cbn [negb orb].
  replace (match e with Some e => negb (is_EOF e) | None => false end) with false
    by (destruct He as [->|[-> _]]; done).
  rewrite IH; rewrite zlen_app, zlen_range by lia; try lia.
  rewrite (read_bytes_run _ (fun i => f (pr_Offset r + i - pr_Start r)) (Z.to_nat count) (S m) a).
  - rewrite (Z2Nat.id count) by lia. replace (Z.to_nat (n - (zlen out + count))) with (S m - Z.to_nat count)%nat by lia.
    rewrite (Z.add_assoc offset). fold a.
    rewrite (range_shift f (fun i => f (pr_Offset r + i - pr_Start r)) (pr_Offset r + a - pr_Start r) a)
      by (intros; f_equal; lia).
    destruct (read_bytes _ _ _) as [l e']. by rewrite app_assoc.
  - intros i Hi. apply phys_get_in; [left; apply Hwf|done|lia].
  - lia.
Qed.

Lemma Physical_ReadAt_spec f p n offset :
  phys_wf f p -> 0 <= offset -> 0 <= n ->
  Physical_ReadAt p n offset = read_bytes (phys_get f (ph_ranges p)) (Z.to_nat n) offset.
Proof.
  intros Hwf Ho Hn. unfold Physical_ReadAt. destruct (Z.ltb_spec offset 0); [lia|].
  destruct (Z.eqb_spec n 0) as [->|]; [done|].
  rewrite (Physical_ReadAt_loop_spec _ f) by (rewrite ?zlen_nil; done || lia).
  rewrite zlen_nil, Z.sub_0_r, Z.add_0_r. by destruct (read_bytes _ _ _).
Qed.

Lemma NewPhysical_wf f source ranges p :
  ReaderOK source f -> Forall range_unsigned (default [] ranges) ->
  NewPhysical source ranges = Ok p -> phys_wf f p /\ ph_source p = source.
Proof.
  intros Hok Hu. unfold NewPhysical. pose proof (@rd_size_ok _ _ Hok) as Hsz.
  destruct (Z.ltb_spec (rd_Size source) 0); [lia|].
  set (l := match ranges with None => _ | Some ranges => _ end).
  assert (Hl : Forall range_unsigned l).
  { destruct ranges as [rs|]; [done|]. unfold l. destruct (Z.eqb_spec (rd_Size source) 0); repeat constructor; simpl; lia. }
  destruct (1048576 <? zlen l); [done|].
  assert (Hls : Forall range_unsigned (sort_by pr_Start l)) by (by rewrite sort_by_perm).
  destruct (ranges_end source 0 (sort_by pr_Start l)) as [e|] eqn:E; [|done]. simpl. intros Hp. injection Hp as <-.
  destruct (proj1 (ranges_end_spec source 0 _ Hls) (ex_intro _ e E)) as (Hv & Hs & _).
  split; [|done]. by split.
Qed.

(** ** Translation *)

Lemma same_page_shift va va' k s :
  0 <= s <= k -> va' / 2 ^ s = va / 2 ^ s -> Z.shiftr va' k = Z.shiftr va k.
Proof.
  intros Hs H. rewrite !Z.shiftr_div_pow2 by lia. replace k with (s + (k - s)) by lia.
  by rewrite Z.pow_add_r, <- !Z.div_div, H by lia.
Qed.

Lemma same_page_offset va va' s :
  0 <= s -> va' / 2 ^ s = va / 2 ^ s -> va' mod 2 ^ s = va mod 2 ^ s + (va' - va).
Proof.
  intros Hs H. pose proof (Z.div_mod va (2 ^ s) ltac:(lia)). pose proof (Z.div_mod va' (2 ^ s) ltac:(lia)).
  rewrite H in *. lia.
Qed.

(** The virtual address only labels the faults of an entry. *)
Lemma x86_entry_va x va va' es level address width es' v :
  x86_entry x va es level address width = (es', inr v) ->
  x86_entry x va' es level address width = (es', inr v).
Proof.
  unfold x86_entry. destruct (Physical_ReadAt _ _ _) as [data [e|]]; [done|]. by destruct (Z.land _ 1 =? 0).
Qed.

(** [t] is a translation of [va] in a page of size [2 ^ s] that translates
    the rest of the page alike. *)
Definition page_of x va (t : Translation) (s : Z) : Prop :=
  tr_PageSize t = 2 ^ s /\ 12 <= s <= 22 /\ 0 <= tr_Physical t /\
  forall va', va' / 2 ^ s = va / 2 ^ s ->
    exists t', Translate x va' = (t', None) /\ tr_Physical t' = tr_Physical t + (va' - va).

Lemma same_page_below va va' s :
  0 <= s <= 32 -> va' / 2 ^ s = va / 2 ^ s -> (4294967296 <=? va') = (4294967296 <=? va).
Proof.
  intros Hs H. assert (Hx : forall v, (4294967296 <=? v) = (2 ^ (32 - s) <=? v / 2 ^ s)).
  { intros v. change 4294967296 with (2 ^ 32). replace (2 ^ 32) with (2 ^ (32 - s) * 2 ^ s)
      by (rewrite <- Z.pow_add_r by lia; f_equal; lia).
    pose proof (Z.pow_pos_nonneg 2 s). apply eq_true_iff_eq. rewrite !Z.leb_le. split; intros.
    - apply Z.div_le_lower_bound; lia.
    - pose proof (Z.mul_div_le v (2 ^ s)). nia. }
  by rewrite !Hx, H.
Qed.

Ltac same_entry H :=
  match goal with
  | E : x86_entry ?x ?va ?es ?l ?a ?w = (?es', inr ?v) |- context [x86_entry ?x ?va' ?es ?l ?a' ?w] =>
      lazymatch type of H with _ / 2 ^ ?s = _ =>
        replace a' with a by (by rewrite (same_page_shift va va' _ s) by (lia || exact H))
      end;
      rewrite (x86_entry_va x va va' es l a w es' v E); clear E; cbn iota beta
  end.

Lemma page_intro x va es phys base s :
  12 <= s <= 22 -> 0 <= base -> phys = base + va mod 2 ^ s ->
  (forall va', va' / 2 ^ s = va / 2 ^ s -> Translate x va' = t_page va' es (base + va' mod 2 ^ s) (2 ^ s)) ->
  page_of x va (MkTranslation va phys (2 ^ s) es) s.
Proof.
  intros Hs Hb -> H. unfold page_of. cbn [tr_PageSize tr_Physical]. split; [done|]. split; [lia|]. split.
  - apply Z.add_nonneg_nonneg; [done|]. apply Z.mod_pos_bound, Z.pow_pos_nonneg; lia.
  - intros va' Hva. eexists. split; [by apply H|]. simpl.
    rewrite (same_page_offset va va' s) by (lia || done). lia.
Qed.

Lemma Translate_page x va t :
  Translate x va = (t, None) -> exists s, page_of x va t s.
Proof.
  unfold Translate. destruct (4294967296 <=? va) eqn:Eva; [done|].
  destruct (x_pae x) eqn:Epae.
  - unfold Translate_pae. destruct (x86_entry _ _ _ "pdpte" _ _) as [es1 [e|pdpte]] eqn:E1; [done|].
    destruct (x86_entry _ _ _ "pde" _ _) as [es2 [e|pde]] eqn:E2; [done|].
    destruct (negb (Z.land pde 128 =? 0)) eqn:Ebig.
    + intros [= <-]. exists 21. change 2097151 with (2 ^ 21 - 1). rewrite land_low by lia.
      apply (page_intro x va es2 _ (Z.land pde 0x000fffffffe00000) 21); [lia|by apply land_mask_nonneg|done|].
      intros va' H. unfold Translate. rewrite (same_page_below va va' 21), Eva, Epae by (lia || done).
      unfold Translate_pae. same_entry H. same_entry H. rewrite Ebig.
      change 2097151 with (2 ^ 21 - 1). by rewrite land_low by lia.
    + destruct (x86_entry _ _ _ "pte" _ _) as [es3 [e|pte]] eqn:E3; [done|].
      intros [= <-]. exists 12. change 4095 with (2 ^ 12 - 1). rewrite land_low by lia.
      apply (page_intro x va es3 _ (Z.land pte frame_mask) 12); [lia|by apply land_mask_nonneg|done|].
      intros va' H. unfold Translate. rewrite (same_page_below va va' 12), Eva, Epae by (lia || done).
      unfold Translate_pae. same_entry H. same_entry H. rewrite Ebig. same_entry H.
      change 4095 with (2 ^ 12 - 1). by rewrite land_low by lia.
  - unfold Translate_32. destruct (x86_entry _ _ _ "pde" _ _) as [es2 [e|pde]] eqn:E2; [done|].
    destruct (negb (Z.land pde 128 =? 0)) eqn:Ebig.
    + destruct (negb (Z.land pde 0x003fe000 =? 0)) eqn:Epse; [done|].
      intros [= <-]. exists 22. change 4194303 with (2 ^ 22 - 1). rewrite land_low by lia.
      apply (page_intro x va es2 _ (Z.land pde 0xffc00000) 22); [lia|by apply land_mask_nonneg|done|].
      intros va' H. unfold Translate. rewrite (same_page_below va va' 22), Eva, Epae by (lia || done).
      unfold Translate_32. same_entry H. rewrite Ebig, Epse.
      change 4194303 with (2 ^ 22 - 1). by rewrite land_low by lia.
    + destruct (x86_entry _ _ _ "pte" _ _) as [es3 [e|pte]] eqn:E3; [done|].
      intros [= <-]. exists 12. change 4095 with (2 ^ 12 - 1). rewrite land_low by lia.
      apply (page_intro x va es3 _ (Z.land pte 0xfffff000) 12); [lia|by apply land_mask_nonneg|done|].
      intros va' H. unfold Translate. rewrite (same_page_below va va' 12), Eva, Epae by (lia || done).
      unfold Translate_32. same_entry H. rewrite Ebig. same_entry H.
      change 4095 with (2 ^ 12 - 1). by rewrite land_low by lia.
Qed.

Lemma read_bytes_split get (k n : nat) a :
  (k <= n)%nat ->
  read_bytes get n a =
    let '(l, e) := read_bytes get k a in
    match e with
    | Some e => (l, Some e)
    | None => let '(l2, e2) := read_bytes get (n - k) (a + Z.of_nat k) in (l ++ l2, e2)
    end.
Proof.
  revert n a. induction k as [|k IH]; intros n a Hk.
  - simpl. rewrite Nat.sub_0_r, Z.add_0_r. by destruct (read_bytes get n a).
  - destruct n as [|n]; [lia|]. simpl. destruct (get a); [done|]. rewrite (IH n) by lia.
    replace (a + 1 + Z.of_nat k) with (a + Z.of_nat (S k)) by lia.
    change (S n - S k)%nat with (n - k)%nat.
    destruct (read_bytes get k (a + 1)) as [l [e|]]; [done|]. by destruct (read_bytes get (n - k) _).
Qed.

Lemma X86_ReadAt_loop_spec fuel f x n offset out :
  phys_wf f (x_physical x) -> n - zlen out <= Z.of_nat fuel -> zlen out <= n ->
  X86_ReadAt_loop fuel x n offset out =
    let '(l, e) := read_bytes (virt_get (phys_get f (ph_ranges (x_physical x))) x)
                     (Z.to_nat (n - zlen out)) (offset + zlen out) in
    (out ++ l, e).
Proof.
  intros Hwf. revert out. induction fuel as [|fuel IH]; intros out Hf Hn.
  all: cbn [X86_ReadAt_loop]; destruct (Z.leb_spec n (zlen out)); try lia.
  1, 2: replace (Z.to_nat (n - zlen out)) with O by lia; simpl; by rewrite app_nil_r.
  set (va := offset + zlen out). set (get := phys_get f (ph_ranges (x_physical x))).
  destruct (Translate x va) as [t [err|]] eqn:Et.
  { destruct (Z.to_nat (n - zlen out)) as [|m] eqn:Em; [lia|].
    simpl. unfold virt_get. rewrite Et. by rewrite app_nil_r. }
  destruct (Translate_page x va t Et) as (s & Hps & Hs & Hphys & Hpage).
  rewrite Hps, land_low by lia. pose proof (Z.pow_pos_nonneg 2 s ltac:(lia) ltac:(lia)) as Hpow.
  pose proof (Z.mod_pos_bound va (2 ^ s) Hpow) as Hmod.
  set (count := Z.min (n - zlen out) (2 ^ s - va mod 2 ^ s)).
  rewrite (Physical_ReadAt_spec f) by (done || lia). fold get.
  rewrite (read_bytes_split (virt_get get x) (Z.to_nat count)) by lia.
  set (h := fun e b => contextualFault e b (tr_Physical t + (b - va)) "data").
  rewrite (read_bytes_shift get (virt_get get x) h (Z.to_nat count) (tr_Physical t) va).
  - destruct (read_bytes get (Z.to_nat count) (tr_Physical t)) as [data [err|]] eqn:Er.
    + unfold h. do 4 f_equal. lia.
    + apply read_bytes_ok in Er. rewrite IH; rewrite zlen_app, Er; [|lia..].
      replace (Z.to_nat (n - (zlen out + Z.of_nat (Z.to_nat count))))
        with (Z.to_nat (n - zlen out) - Z.to_nat count)%nat by lia.
      rewrite (Z.add_assoc offset). fold va. destruct (read_bytes _ _ _). by rewrite app_assoc.
  - intros i Hi. destruct (Hpage (va + i)) as (t' & Ht' & Hp').
    { symmetry. apply (Z.div_unique_pos _ _ _ (va mod 2 ^ s + i)); [lia|].
      pose proof (Z.div_mod va (2 ^ s) ltac:(lia)). lia. }
    unfold virt_get. rewrite Ht', Hp'. replace (va + i - va) with i by lia.
    destruct (get (tr_Physical t + i)); [|done]. unfold h. do 3 f_equal. lia.
Qed.

Lemma read_bytes_ext get get' (n : nat) a :
  (forall i, get i = get' i) -> read_bytes get n a = read_bytes get' n a.
Proof.
  intros H. revert a. induction n as [|n IH]; intros a; [done|]. simpl. by rewrite H, IH.
Qed.

Lemma virt_get_ext get get' x va :
  (forall i, get i = get' i) -> virt_get get x va = virt_get get' x va.
Proof. intros H. unfold virt_get. destruct (Translate x va) as [t [e|]]; [done|]. by rewrite H. Qed.

(** The bytes of an accepted capture, in terms of the mapping it was given. *)
Lemma NewPhysical_get f source ranges p :
  ReaderOK source f -> Forall range_unsigned ranges -> NewPhysical source (Some ranges) = Ok p ->
  phys_wf f p /\ forall a, phys_get f (ph_ranges p) a = phys_get f ranges a.
Proof.
  intros Hok Hu Hp. destruct (NewPhysical_wf f source (Some ranges) p Hok Hu Hp) as [Hwf Hsrc].
  split; [done|]. intros a.
  assert (Hperm : ph_ranges p ≡ₚ ranges).
  { unfold NewPhysical in Hp. destruct (rd_Size source <? 0), (1048576 <? zlen ranges); try done.
    destruct (ranges_end _ _ _); [|done]. injection Hp as <-. apply sort_by_perm. }
  apply (phys_get_perm f source); [|done]. pose proof Hwf as [_ _ Hv Hs]. rewrite Hsrc in Hv.
  split_and!; [done|by eapply before_nodup|]. intros. by apply (StronglySorted_pair _ (ph_ranges p)).
Qed.

Lemma X86_reads f source ranges physical dtb pae x n offset :
  ReaderOK source f -> Forall range_unsigned ranges ->
  NewPhysical source (Some ranges) = Ok physical -> NewX86 physical dtb pae = Ok x -> 0 <= n ->
  (0 <= offset /\ offset + n <= 4294967296 ->
   X86_ReadAt x n offset = read_bytes (virt_get (phys_get f ranges) x) (Z.to_nat n) offset) /\
  (~ (0 <= offset /\ offset + n <= 4294967296) ->
   X86_ReadAt x n offset = ([], Some (Fault "invalid-address" (u64 offset) 0 "virtual" None))).
Proof.
  intros Hok Hu Hp Hx Hn. unfold NewX86 in Hx. destruct (4294967295 <? dtb); [done|]. injection Hx as <-.
  destruct (NewPhysical_get f source ranges physical Hok Hu Hp) as [Hwf Hget].
  unfold X86_ReadAt. split; intros Ho.
  - replace ((offset <? 0) || (4294967296 <? offset) || (4294967296 - offset <? n)) with false by lia.
    rewrite (X86_ReadAt_loop_spec _ f) by (rewrite ?zlen_nil; done || lia).
    rewrite zlen_nil, Z.sub_0_r, Z.add_0_r.
    rewrite (read_bytes_ext _ (virt_get (phys_get f ranges) (MkX86 physical dtb pae)))
      by (intros; by apply virt_get_ext). by destruct (read_bytes _ _ _).
  - by replace ((offset <? 0) || (4294967296 <? offset) || (4294967296 - offset <? n)) with true by lia.
Qed.

(** C17.  A capture is its mapping.  [NewPhysical] accepts exactly the
    mappings whose ranges are nonempty, lie in the source and in the signed
    address range and do not overlap, in whatever order they are given; and a
    read, although it locates ranges by binary search and copies whole runs,
    returns what reading byte by byte returns: the captured bytes up to the
    first address that was not captured, with a fault that names it.  An i386
    address space over the capture reads through its page tables: a read of
    any length, although it translates once per page, 4 KiB or large, returns
    what translating and reading each byte on its own returns, up to the first
    byte that is not mapped or not captured and with that byte's fault; a
    range outside the 4 GiB is refused. *)
Theorem Physical_capture f source ranges :
  ReaderOK source f -> Forall range_unsigned ranges -> zlen ranges <= 1048576 ->
  ((exists p, NewPhysical source (Some ranges) = Ok p) <-> mapping_valid source ranges) /\
  (forall p n offset, NewPhysical source (Some ranges) = Ok p -> 0 <= offset -> 0 <= n ->
     Physical_ReadAt p n offset = read_bytes (phys_get f ranges) (Z.to_nat n) offset) /\
  (forall p dtb pae x n offset, NewPhysical source (Some ranges) = Ok p -> NewX86 p dtb pae = Ok x -> 0 <= n ->
     X86_ReadAt x n offset =
       if decide (0 <= offset /\ offset + n <= 4294967296)
       then read_bytes (virt_get (phys_get f ranges) x) (Z.to_nat n) offset
       else ([], Some (Fault "invalid-address" (u64 offset) 0 "virtual" None))).
Proof.
  intros Hok Hu Hl. split_and!.
  - apply NewPhysical_accepts; [apply Hok|done|done].
  - intros p n offset Hp Ho Hn. destruct (NewPhysical_get f source ranges p Hok Hu Hp) as [Hwf Hget].
    rewrite (Physical_ReadAt_spec f) by done. by apply read_bytes_ext.
  - intros p dtb pae x n offset Hp Hx Hn. destruct (X86_reads f source ranges p dtb pae x n offset Hok Hu Hp Hx Hn).
    case_decide; auto.
Qed.

(** A page directory, a page table and two pieces of data, packed. *)
Definition demo_capture : bytes :=
  le_bytes 4 4097 ++ le_bytes 4 8193 ++ le_bytes 4 16387 ++ [1; 2] ++ [3; 4; 5].

Definition demo_ranges : list phys_Range :=
  [MkPhysRange 16384 14 3; MkPhysRange 0 0 4; MkPhysRange 4096 4 8; MkPhysRange 12286 12 2].

Lemma demo_ranges_unsigned : Forall range_unsigned demo_ranges.
Proof. repeat constructor; simpl; lia. Qed.

Lemma Physical_capture_witness :
  exists p x, NewPhysical (bytes_reader demo_capture) (Some demo_ranges) = Ok p /\
    Physical_ReadAt p 4 12286 = ([1; 2], Some (Fault "not-captured" 12288 12288 "physical" None)) /\
    NewX86 p 0 false = Ok x /\ X86_ReadAt x 4 4094 = ([1; 2; 3; 4], None).
Proof.
  destruct (Physical_capture (nthb demo_capture) (bytes_reader demo_capture) demo_ranges) as (_ & Hread & Hx).
  - apply bytes_reader_ok. vm_compute. discriminate.
  - exact demo_ranges_unsigned.
  - vm_compute. discriminate.
  - destruct (NewPhysical (bytes_reader demo_capture) (Some demo_ranges)) as [p|] eqn:Hnew; [|discriminate Hnew].
    exists p, (MkX86 p 0 false). split; [reflexivity|]. split; [|split; [reflexivity|]].
    + rewrite (Hread p 4 12286 eq_refl) by lia. vm_compute. reflexivity.
    + rewrite (Hx p 0 false (MkX86 p 0 false) 4 4094 eq_refl eq_refl) by lia. vm_compute in Hnew. injection Hnew as <-. vm_compute. reflexivity.
Defined.
