(* ===== verification/Lifecycle.v ===== *)
(** Package [lifecycle]: the registry that owns the long-lived resources of a
    script execution (src/lifecycle/registry.go). *)

From S2P Require Import Prelude.
From stdpp Require Import base numbers list gmap sorting strings.

Open Scope Z_scope.
Open Scope trex_scope.

Section Registry.

(** A resource, and the error its [Close] returns. *)
Context {A : Type} (close : A -> option error).

(** The context is cancelled exactly when [rs_closed] is set; [rs_next] counts
    registrations. *)
Record Resources := MkResources {
  rs_next : Z;
  rs_resources : gmap Z A;
  rs_order : list Z;
  rs_closed : bool;
}.

Implicit Types r : Resources.

Definition lifecycle_New : Resources :=
  {| rs_next := 0; rs_resources := ∅; rs_order := []; rs_closed := false |}.

(** The handle is the identity the returned function captures. *)
Definition Resources_Add r (resource : A) : Resources * res Z :=
  if rs_closed r then (r, Err Canceled)
  else
    let id := rs_next r + 1 in
    ({| rs_next := id; rs_resources := <[id := resource]> (rs_resources r);
        rs_order := rs_order r ++ [id]; rs_closed := rs_closed r |}, Ok id).

(** The function [Add] returns; [once] tells whether it has been called. *)
Definition Resources_release r (id : Z) (once : bool) : Resources * bool :=
  if once then (r, true)
  else ({| rs_next := rs_next r; rs_resources := delete id (rs_resources r);
           rs_order := rs_order r; rs_closed := rs_closed r |}, true).

(** The resources closed, in order, and the errors joined. *)
Definition Resources_Close r : Resources * list A * list error :=
  if rs_closed r then (r, [], [])
  else
    let resources := omap (fun id => rs_resources r !! id) (reverse (rs_order r)) in
    ({| rs_next := rs_next r; rs_resources := ∅; rs_order := []; rs_closed := true |},
     resources, omap close resources).

(** ** Executions *)

Inductive life_op :=
  | LAdd (a : A)
  | LRelease (handle : nat)
  | LClose.

Inductive life_out :=
  | LAdded (accepted : bool)
  | LReleased
  | LClosed (closed : list A) (errs : list error).

(** The functions handed out, with their [sync.Once]. *)
Record life_sys := MkLife { ls_registry : Resources; ls_handles : list (Z * bool) }.

Definition life_step (s : life_sys) (op : life_op) : life_sys * life_out :=
  match op with
  | LAdd a =>
      match Resources_Add (ls_registry s) a with
      | (r, Ok id) => (MkLife r (ls_handles s ++ [(id, false)]), LAdded true)
      | (r, Err _) => (MkLife r (ls_handles s), LAdded false)
      end
  | LRelease i =>
      match ls_handles s !! i with
      | Some (id, once) =>
          let '(r, once) := Resources_release (ls_registry s) id once in
          (MkLife r (<[i := (id, once)]> (ls_handles s)), LReleased)
      | None => (s, LReleased)
      end
  | LClose =>
      let '(r, closed, errs) := Resources_Close (ls_registry s) in
      (MkLife r (ls_handles s), LClosed closed errs)
  end.

Fixpoint life_run (s : life_sys) (ops : list life_op) : list life_out :=
  match ops with
  | [] => []
  | op :: ops => let '(s, o) := life_step s op in o :: life_run s ops
  end.

(** ** What it promises: a stack of live resources *)

Record life_spec := MkLifeSpec { sp_live : list (nat * A); sp_count : nat; sp_closed : bool }.

Definition life_spec_step (t : life_spec) (op : life_op) : life_spec * life_out :=
  match op with
  | LAdd a =>
      if sp_closed t then (t, LAdded false)
      else (MkLifeSpec ((sp_count t, a) :: sp_live t) (S (sp_count t)) false, LAdded true)
  | LRelease i => (MkLifeSpec (filter (fun x => x.1 <> i) (sp_live t)) (sp_count t) (sp_closed t), LReleased)
  | LClose =>
      (MkLifeSpec [] (sp_count t) true, LClosed (sp_live t).*2 (omap close (sp_live t).*2))
  end.

Fixpoint life_spec_run (t : life_spec) (ops : list life_op) : list life_out :=
  match ops with
  | [] => []
  | op :: ops => let '(t, o) := life_spec_step t op in o :: life_spec_run t ops
  end.

(** ** The simulation *)

(** The live resource of an identity, with its handle. *)
Definition live_at (m : gmap Z A) (id : Z) : option (nat * A) := pair (Z.to_nat (id - 1)) <$> m !! id.

Record life_sim (s : life_sys) (t : life_spec) : Prop := {
  lf_live : sp_live t = omap (live_at (rs_resources (ls_registry s))) (reverse (rs_order (ls_registry s)));
  lf_next : rs_next (ls_registry s) = Z.of_nat (length (ls_handles s));
  lf_count : sp_count t = length (ls_handles s);
  lf_closed : sp_closed t = rs_closed (ls_registry s);
  lf_handles : forall i id once, ls_handles s !! i = Some (id, once) ->
    id = Z.of_nat i + 1 /\ (once = true -> rs_resources (ls_registry s) !! id = None);
  lf_order : forall id, id ∈ rs_order (ls_registry s) -> 1 <= id <= rs_next (ls_registry s);
  lf_resources : forall id, is_Some (rs_resources (ls_registry s) !! id) -> 1 <= id <= rs_next (ls_registry s);
  lf_done : rs_closed (ls_registry s) = true -> rs_order (ls_registry s) = [];
}.

Lemma omap_cons_eq {X Y} (f : X -> option Y) x (l : list X) :
  omap f (x :: l) = match f x with Some y => y :: omap f l | None => omap f l end.
Proof. done. Qed.

Lemma omap_ext_in {X Y} (f g : X -> option Y) (l : list X) :
  (forall x, x ∈ l -> f x = g x) -> omap f l = omap g l.
Proof.
  induction l as [|x l IH]; intros H; [done|]. simpl. rewrite (H x) by set_solver.
  destruct (g x); [f_equal|]; apply IH; set_solver.
Qed.

Lemma live_snd (m : gmap Z A) (l : list Z) : (omap (live_at m) l).*2 = omap (fun id => m !! id) l.
Proof.
  induction l as [|id l IH]; [done|]. simpl. unfold live_at at 1.
  destruct (m !! id); simpl; [by f_equal|done].
Qed.

Lemma live_delete (m : gmap Z A) (i : nat) (l : list Z) :
  (forall id, id ∈ l -> 1 <= id) ->
  omap (live_at (delete (Z.of_nat i + 1) m)) l = filter (fun x => x.1 <> i) (omap (live_at m) l).
Proof.
  induction l as [|id l IH]; intros Hl; [done|]. rewrite !omap_cons_eq.
  assert (1 <= id) by (apply Hl; set_solver). rewrite IH by (intros; apply Hl; set_solver).
  assert (Hfst : forall x, live_at m id = Some x -> x.1 = Z.to_nat (id - 1)).
  { unfold live_at. destruct (m !! id); [|done]. by intros x [= <-]. }
  destruct (decide (id = Z.of_nat i + 1)) as [->|Hne].
  - replace (live_at (delete (Z.of_nat i + 1) m) (Z.of_nat i + 1)) with (@None (nat * A))
      by (unfold live_at; by rewrite lookup_delete_eq).
    destruct (live_at m (Z.of_nat i + 1)) as [x|]; [|done]. rewrite filter_cons_False; [done|].
    rewrite (Hfst x) by done. lia.
  - replace (live_at (delete (Z.of_nat i + 1) m) id) with (live_at m id)
      by (unfold live_at; by rewrite lookup_delete_ne by done).
    destruct (live_at m id) as [x|]; [|done]. rewrite filter_cons_True; [done|].
    rewrite (Hfst x) by done. lia.
Qed.

Lemma life_add s t a :
  life_sim s t ->
  let '(s', o) := life_step s (LAdd a) in
  let '(t', o') := life_spec_step t (LAdd a) in o = o' /\ life_sim s' t'.
Proof.
  intros [H1 H2 H3 H4 H5 H6 H7 H8]. simpl. unfold Resources_Add. rewrite H4.
  destruct (rs_closed (ls_registry s)) eqn:Ec; [split; [done|]; split; simpl; try done; [congruence|auto]|].
  set (id := rs_next (ls_registry s) + 1). split; [done|]. split; simpl.
  - rewrite reverse_app. simpl. unfold live_at at 1. rewrite lookup_insert_eq. simpl.
    rewrite H1, H3. f_equal; [f_equal; lia|]. apply omap_ext_in. intros x Hx.
    rewrite elem_of_reverse in Hx. specialize (H6 x Hx). unfold live_at. by rewrite lookup_insert_ne by lia.
  - rewrite length_app. simpl. lia.
  - rewrite length_app. simpl. lia.
  - done.
  - intros i id' once [Hi|[Hi Hx]]%lookup_app_Some.
    + destruct (H5 _ _ _ Hi) as [-> Ho]. split; [done|]. intros Honce.
      apply lookup_lt_Some in Hi. rewrite lookup_insert_ne by lia. auto.
    + apply list_lookup_singleton_Some in Hx as [Hi' [= <- <-]]. split; [lia|done].
  - intros x [Hx%H6|Hx%list_elem_of_singleton]%elem_of_app; lia.
  - intros x. destruct (decide (x = id)) as [->|]; [lia|]. rewrite lookup_insert_ne by done. intros ?%H7. lia.
  - congruence.
Qed.

Lemma life_release s t i :
  life_sim s t ->
  let '(s', o) := life_step s (LRelease i) in
  let '(t', o') := life_spec_step t (LRelease i) in o = o' /\ life_sim s' t'.
Proof.
  intros [H1 H2 H3 H4 H5 H6 H7 H8]. simpl.
  assert (Hpos : forall id, id ∈ reverse (rs_order (ls_registry s)) -> 1 <= id).
  { intros id Hid. rewrite elem_of_reverse in Hid. apply H6 in Hid. lia. }
  assert (Hnone : rs_resources (ls_registry s) !! (Z.of_nat i + 1) = None ->
    filter (fun x => x.1 <> i) (sp_live t) = sp_live t).
  { intros Hn. rewrite H1. rewrite <- (live_delete (rs_resources (ls_registry s)) i) by done.
    by rewrite delete_id. }
  destruct (ls_handles s !! i) as [[id once]|] eqn:Ei.
  - destruct (H5 _ _ _ Ei) as [-> Honce]. unfold Resources_release. destruct once; (split; [done|]).
    + split; simpl; rewrite ?length_insert; try done; [rewrite Hnone; auto|].
      intros j id' once' Hj. destruct (decide (i = j)) as [->|].
      * rewrite list_lookup_insert_eq in Hj by (by eapply lookup_lt_Some). injection Hj as <- <-. auto.
      * rewrite list_lookup_insert_ne in Hj by done. eauto.
    + split; simpl; rewrite ?length_insert; try done.
      * rewrite H1. symmetry. by apply live_delete.
      * intros j id' once' Hj. destruct (decide (i = j)) as [->|].
        -- rewrite list_lookup_insert_eq in Hj by (by eapply lookup_lt_Some). injection Hj as <- <-.
           split; [done|]. intros _. apply lookup_delete_eq.
        -- rewrite list_lookup_insert_ne in Hj by done. destruct (H5 _ _ _ Hj) as [-> Ho].
           split; [done|]. intros E%Ho. by apply lookup_delete_None; right.
      * intros x [y Hy]. apply lookup_delete_Some in Hy as [_ Hy]. apply H7. eauto.
  - split; [done|]. split; simpl; try done. rewrite Hnone; [done|].
    destruct (_ !! _) eqn:E; [|done]. specialize (H7 (Z.of_nat i + 1) ltac:(eauto)).
    apply lookup_ge_None in Ei. lia.
Qed.

Lemma life_close s t :
  life_sim s t ->
  let '(s', o) := life_step s LClose in
  let '(t', o') := life_spec_step t LClose in o = o' /\ life_sim s' t'.
Proof.
  intros [H1 H2 H3 H4 H5 H6 H7 H8]. simpl. unfold Resources_Close.
  destruct (rs_closed (ls_registry s)) eqn:Ec.
  - rewrite (H8 eq_refl) in H1. simpl in H1. rewrite H1. split; [done|].
    split; simpl; try done; try congruence; by rewrite ?(H8 eq_refl).
  - split; [by rewrite H1, live_snd|]. split; simpl; try done.
    + intros i id once Hi. destruct (H5 _ _ _ Hi) as [-> _]. done.
    + by intros id ?%elem_of_nil.
    + by intros id [x ?%lookup_empty_Some].
Qed.

(** C18.  A registry is a stack of live resources.  Whatever is registered,
    released and closed in whatever order, the calls answer as a stack does:
    [Close] closes every resource that was registered and not released, each
    exactly once and the latest first, whether or not the others fail, and
    joins their errors; releasing twice counts once and after [Close] does
    nothing; later registrations are refused and later [Close]s close
    nothing. *)
Theorem Resources_refine_stack ops :
  life_run (MkLife lifecycle_New []) ops = life_spec_run (MkLifeSpec [] 0 false) ops.
Proof.
  assert (Hgen : forall s t, life_sim s t -> life_run s ops = life_spec_run t ops).
  { induction ops as [|op ops IH]; intros s t Hs; [done|]. simpl.
    assert (Hstep : let '(s', o) := life_step s op in
      let '(t', o') := life_spec_step t op in o = o' /\ life_sim s' t').
    { destruct op; [by apply life_add|by apply life_release|by apply life_close]. }
    destruct (life_step s op) as [s' o], (life_spec_step t op) as [t' o'].
    destruct Hstep as [-> Hs']. f_equal. by apply IH. }
  apply Hgen. split; simpl; try done.
  - by intros id ?%elem_of_nil.
  - by intros id [x ?%lookup_empty_Some].
Qed.

End Registry.
