(* ===== verification/Lznt1.v ===== *)
(** Package [compression/lznt1]: the decoder of NTFS compression
    (src/compression/lznt1/lznt1.go).

    The format is specified by an encoder of token lists; the decoder is
    proved to invert it. *)

From S2P Require Import Prelude GoLib.
From stdpp Require Import base numbers list gmap sorting strings.

Open Scope Z_scope.
Open Scope trex_scope.

#[local] Ltac Zify.zify_post_hook ::= Z.to_euclidean_division_equations.

(** ** The decoder *)

Definition lznt1_chunkSize : Z := 4096.

(** The loop that splits a token: the mask of the length and the shift of the
    displacement. *)
Fixpoint split_loop (fuel : nat) (position mask shift : Z) : Z * Z :=
  match fuel with
  | O => (mask, shift)
  | S fuel =>
      if 16 <=? position then split_loop fuel (Z.shiftr position 1) (Z.shiftr mask 1) (shift - 1)
      else (mask, shift)
  end.

(** Positions are below 4096, so eight halvings reach the bound. *)
Definition token_split (produced : Z) : Z * Z := split_loop 64 (produced - 1) 0x0fff 12.

(** Copying a phrase byte by byte; it may overlap its own output. *)
Fixpoint copy_phrase (length : nat) (displacement : Z) (output : bytes) : bytes :=
  match length with
  | O => output
  | S length => copy_phrase length displacement (output ++ [nthb output (zlen output - displacement)])
  end.

(** The loop over the bits of a flag byte: [input] is what is left of the
    chunk. *)
Fixpoint decode_group (bits : nat) (flags bit : Z) (input output : bytes) (maximum : Z)
    : res (bytes * bytes) :=
  match bits with
  | O => Ok (input, output)
  | S bits =>
      match input with
      | [] => Ok ([], output)
      | b :: rest =>
          if Z.land flags (Z.shiftl 1 bit) =? 0 then
            if zlen output =? maximum then Err (Errorf "lznt1: chunk output exceeds %d bytes")
            else decode_group bits flags (bit + 1) rest (output ++ [b]) maximum
          else
            match rest with
            | [] => Err (Errorf "lznt1: truncated phrase token")
            | b' :: rest =>
                let token := le_val [b; b'] in
                let '(lengthMask, displacementShift) := token_split (zlen output) in
                let length := Z.land token lengthMask + 3 in
                let displacement := Z.shiftr token displacementShift + 1 in
                if zlen output <? displacement
                then Err (Errorf "lznt1: phrase displacement %d exceeds chunk output %d")
                else if maximum - zlen output <? length
                then Err (Errorf "lznt1: phrase output exceeds %d bytes")
                else decode_group bits flags (bit + 1) rest
                       (copy_phrase (Z.to_nat length) displacement output) maximum
            end
      end
  end.

(** A round consumes at least the flag byte. *)
Fixpoint decodeChunk_loop (fuel : nat) (input output : bytes) (maximum : Z) : res bytes :=
  match input with
  | [] => Ok output
  | flags :: rest =>
      match fuel with
      | O => Err OutOfFuel
      | S fuel =>
          let! st := decode_group 8 flags 0 rest output maximum in
          decodeChunk_loop fuel (fst st) (snd st) maximum
      end
  end.

Definition decodeChunk (input : bytes) (maximum : Z) : res bytes :=
  decodeChunk_loop (length input) input [] maximum.

(** A round consumes at least three bytes. *)
Fixpoint lznt1_Decode_loop (fuel : nat) (input : bytes) (expected : Z) (output : bytes) : res bytes :=
  if expected <=? zlen output then Ok output
  else match fuel with
  | O => Err OutOfFuel
  | S fuel =>
      match input with
      | b :: b' :: input =>
          let header := le_val [b; b'] in
          if header =? 0 then Err (Errorf "lznt1: zero padding before expected output (%d of %d bytes)")
          else if negb (Z.land header 0x7000 =? 0x3000) then Err (Errorf "lznt1: invalid chunk signature %#x")
          else
            let encodedSize := Z.land header 0x0fff + 1 in
            if zlen input <? encodedSize then Err (Errorf "lznt1: truncated chunk payload at %#x")
            else
              let encoded := slice 0 encodedSize input in
              let input := drop (Z.to_nat encodedSize) input in
              let remaining := expected - zlen output in
              if Z.land header 0x8000 =? 0
              then lznt1_Decode_loop fuel input expected (output ++ slice 0 remaining encoded)
              else
                let! chunk := decodeChunk encoded lznt1_chunkSize in
                if zlen chunk =? 0 then Err (Errorf "lznt1: compressed chunk produced no output")
                else lznt1_Decode_loop fuel input expected (output ++ slice 0 remaining chunk)
      | _ => Err (Errorf "lznt1: truncated chunk header at %#x")
      end
  end.

Definition lznt1_Decode (input : bytes) (expected : Z) : res bytes :=
  if expected <? 0 then Err (Errorf "lznt1: negative output size")
  else lznt1_Decode_loop (S (length input)) input expected [].

(** ** The format *)

Inductive lz_token :=
  | Literal (b : byte)
  | Phrase (displacement length : Z).

#[export] Instance lz_token_eq_dec : EqDecision lz_token.
Proof. solve_decision. Defined.

Definition token_length (t : lz_token) : Z :=
  match t with Literal _ => 1 | Phrase _ length => length end.

Definition is_phrase (t : lz_token) : bool :=
  match t with Literal _ => false | Phrase _ _ => true end.

(** The bytes of a token when [produced] bytes precede it. *)
Definition encode_token (produced : Z) (t : lz_token) : bytes :=
  match t with
  | Literal b => [b]
  | Phrase displacement length =>
      le_bytes 2 ((displacement - 1) * 2 ^ (snd (token_split produced)) + (length - 3))
  end.

Fixpoint encode_tokens (produced : Z) (ts : list lz_token) : bytes :=
  match ts with
  | [] => []
  | t :: ts => encode_token produced t ++ encode_tokens (produced + token_length t) ts
  end.

Fixpoint flags_of (ts : list lz_token) : Z :=
  match ts with
  | [] => 0
  | t :: ts => 2 * flags_of ts + Z.b2z (is_phrase t)
  end.

Definition apply_token (output : bytes) (t : lz_token) : bytes :=
  match t with
  | Literal b => output ++ [b]
  | Phrase displacement length => copy_phrase (Z.to_nat length) displacement output
  end.

Definition expand (output : bytes) (ts : list lz_token) : bytes := foldl apply_token output ts.

(** A token the format can express after [produced] bytes. *)
Definition token_ok (produced : Z) (t : lz_token) : Prop :=
  match t with
  | Literal b => 0 <= b < 256 /\ produced < lznt1_chunkSize
  | Phrase displacement length =>
      1 <= displacement <= produced /\ 3 <= length <= fst (token_split produced) + 3 /\
      produced + length <= lznt1_chunkSize
  end.

Fixpoint tokens_ok (produced : Z) (ts : list lz_token) : Prop :=
  match ts with
  | [] => True
  | t :: ts => token_ok produced t /\ tokens_ok (produced + token_length t) ts
  end.

(** The groups of eight tokens of a chunk. *)
Fixpoint encode_groups (fuel : nat) (produced : Z) (ts : list lz_token) : bytes :=
  match fuel, ts with
  | S fuel, _ :: _ =>
      let group := take 8 ts in
      flags_of group :: encode_tokens produced group
        ++ encode_groups fuel (produced + foldr (fun t n => token_length t + n) 0 group) (drop 8 ts)
  | _, _ => []
  end.

Definition encode_chunk (ts : list lz_token) : bytes := encode_groups (length ts) 0 ts.

Inductive lz_chunk :=
  | RawChunk (data : bytes)
  | TokenChunk (ts : list lz_token).

Definition chunk_payload (c : lz_chunk) : bytes :=
  match c with RawChunk data => data | TokenChunk ts => encode_chunk ts end.

Definition chunk_data (c : lz_chunk) : bytes :=
  match c with RawChunk data => data | TokenChunk ts => expand [] ts end.

Definition chunk_header (c : lz_chunk) : Z :=
  0x3000 + (zlen (chunk_payload c) - 1) + match c with RawChunk _ => 0 | TokenChunk _ => 0x8000 end.

Definition encode_chunks (cs : list lz_chunk) : bytes :=
  mjoin ((fun c => le_bytes 2 (chunk_header c) ++ chunk_payload c) <$> cs).

Definition chunk_ok (c : lz_chunk) : Prop :=
  0 < zlen (chunk_payload c) <= 4096 /\
  match c with RawChunk _ => True | TokenChunk ts => tokens_ok 0 ts end.

(** ** Tokens *)

Lemma zlen_copy_phrase n d output : zlen (copy_phrase n d output) = zlen output + Z.of_nat n.
Proof.
  revert output. induction n as [|n IH]; intros output; simpl; [lia|].
  rewrite IH, zlen_app. unfold zlen. simpl. lia.
Qed.

Lemma zlen_apply_token output t : token_ok (zlen output) t -> zlen (apply_token output t) = zlen output + token_length t.
Proof.
  destruct t; simpl; intros H; [by rewrite zlen_app|]. rewrite zlen_copy_phrase. lia.
Qed.

Lemma split_loop_spec (n fuel : nat) (p j : Z) :
  p < 16 * 2 ^ Z.of_nat n -> (n <= fuel)%nat -> 0 <= j -> j + Z.of_nat n <= 12 ->
  exists k, j <= k <= j + Z.of_nat n /\
    split_loop fuel p (2 ^ (12 - j) - 1) (12 - j) = (2 ^ (12 - k) - 1, 12 - k) /\ p < 2 ^ (4 + (k - j)).
Proof.
  revert fuel p j. induction n as [|n IH]; intros fuel p j Hp Hf Hj Hn.
  - exists j. rewrite Z.sub_diag. change (2 ^ (4 + 0)) with 16. change (2 ^ Z.of_nat 0) with 1 in Hp.
    split_and!; try lia. destruct fuel; simpl; [done|]. by replace (16 <=? p) with false by lia.
  - destruct fuel as [|fuel]; [lia|]. simpl. destruct (Z.leb_spec 16 p); cycle 1.
    { exists j. rewrite Z.sub_diag. change (2 ^ (4 + 0)) with 16. split_and!; try lia. done. }
    assert (Hm : Z.shiftr (2 ^ (12 - j) - 1) 1 = 2 ^ (12 - (j + 1)) - 1).
    { rewrite Z.shiftr_div_pow2 by lia. replace (12 - j) with (1 + (12 - (j + 1))) by lia.
      rewrite (Z.pow_add_r 2 1) by lia. change (2 ^ 1) with 2. lia. }
    rewrite Hm. replace (12 - j - 1) with (12 - (j + 1)) by lia.
    rewrite Nat2Z.inj_succ, Z.pow_succ_r in Hp by lia.
    destruct (IH fuel (Z.shiftr p 1) (j + 1)) as (k & Hk & -> & Hlt); [|lia..|].
    { rewrite Z.shiftr_div_pow2 by lia. change (2 ^ 1) with 2. lia. }
    exists k. split_and!; [lia..|done|]. rewrite Z.shiftr_div_pow2 in Hlt by lia. change (2 ^ 1) with 2 in Hlt.
    replace (4 + (k - j)) with (1 + (4 + (k - (j + 1)))) by lia. rewrite (Z.pow_add_r 2 1) by lia.
    change (2 ^ 1) with 2. lia.
Qed.

(** The split after [produced] bytes: every displacement has a code. *)
Lemma token_split_spec produced :
  produced <= 4096 ->
  exists s, 4 <= s <= 12 /\ token_split produced = (2 ^ s - 1, s) /\ produced - 1 < 2 ^ (16 - s).
Proof.
  intros Hp. destruct (split_loop_spec 8 64 (produced - 1) 0) as (k & Hk & E & Hlt); [simpl; lia|lia..|].
  exists (12 - k). split_and!; [lia..|exact E|]. by replace (16 - (12 - k)) with (4 + (k - 0)) by lia.
Qed.

Lemma decode_group_spec ts k flags bit rest output :
  (length ts <= k)%nat -> ((length ts < k)%nat -> rest = []) -> 0 <= bit ->
  (forall i t, ts !! i = Some t -> Z.testbit flags (bit + Z.of_nat i) = is_phrase t) ->
  tokens_ok (zlen output) ts ->
  decode_group k flags bit (encode_tokens (zlen output) ts ++ rest) output lznt1_chunkSize
    = Ok (rest, expand output ts).
Proof.
  revert k bit output. induction ts as [|t ts IH]; intros k bit output Hk Hrest Hbit Hflags Hok; simpl in *.
  { destruct k; simpl; [done|]. by rewrite Hrest by lia. }
  destruct Hok as [Ht Hok]. destruct k as [|k]; [lia|].
  assert (Hb : negb (Z.land flags (Z.shiftl 1 bit) =? 0) = is_phrase t).
  { rewrite land_pow2 by done. rewrite <- (Hflags 0%nat t) by done. by rewrite Z.add_0_r. }
  assert (IH' : decode_group k flags (bit + 1)
      (encode_tokens (zlen output + token_length t) ts ++ rest) (apply_token output t) lznt1_chunkSize
    = Ok (rest, expand (apply_token output t) ts)).
  { rewrite <- (zlen_apply_token output t Ht). apply IH; try lia.
    - intros. apply Hrest. lia.
    - intros i t' Hi. rewrite <- (Hflags (S i) t') by done. f_equal. lia.
    - by rewrite zlen_apply_token. }
  destruct t as [b|d l]; simpl in Hb, Ht, IH' |- *.
  - destruct (_ =? 0); [|done]. destruct (Z.eqb_spec (zlen output) lznt1_chunkSize); [lia|]. exact IH'.
  - destruct (Z.land flags (Z.shiftl 1 bit) =? 0); [done|]. unfold lznt1_chunkSize in *.
    destruct (token_split_spec (zlen output)) as (s & Hs & E & Hlt); [lia|]. rewrite E in Ht |- *. simpl in Ht.
    simpl snd. set (token := (d - 1) * 2 ^ s + (l - 3)).
    assert (Hpow : 2 ^ (16 - s) * 2 ^ s = 65536) by (rewrite <- Z.pow_add_r by lia; by replace (16 - s + s) with 16 by lia).
    assert (Hpos : 0 < 2 ^ s) by (apply Z.pow_pos_nonneg; lia).
    assert (Htok : 0 <= token < 65536) by (unfold token; nia).
    assert (Hv : le_val [token mod 256; token / 256 mod 256] = token).
    { change [token mod 256; token / 256 mod 256] with (le_bytes 2 token). by apply le_roundtrip. }
    cbn [le_val] in Hv. rewrite Hv, land_low, Z.shiftr_div_pow2 by lia.
    assert (Hmod : token mod 2 ^ s = l - 3) by (symmetry; apply (Z.mod_unique_pos _ _ (d - 1)); unfold token; lia).
    assert (Hdiv : token / 2 ^ s = d - 1) by (symmetry; apply (Z.div_unique_pos _ _ _ (l - 3)); unfold token; lia).
    rewrite Hmod, Hdiv. replace (l - 3 + 3) with l by lia. replace (d - 1 + 1) with d by lia.
    destruct (Z.ltb_spec (zlen output) d); [lia|]. destruct (Z.ltb_spec (4096 - zlen output) l); [lia|]. exact IH'.
Qed.

(** ** Chunks *)

Lemma flags_of_bit ts (i : nat) t : ts !! i = Some t -> Z.testbit (flags_of ts) (Z.of_nat i) = is_phrase t.
Proof.
  revert i. induction ts as [|t' ts IH]; intros i Hi; [done|]. cbn [flags_of]. destruct i as [|i].
  - injection Hi as <-. by rewrite Z.testbit_0_r.
  - rewrite Nat2Z.inj_succ, Z.testbit_succ_r by lia. by apply IH.
Qed.

Definition tokens_length (ts : list lz_token) : Z := foldr (fun t n => token_length t + n) 0 ts.

Lemma zlen_expand output ts :
  tokens_ok (zlen output) ts -> zlen (expand output ts) = zlen output + tokens_length ts.
Proof.
  revert output. induction ts as [|t ts IH]; intros output; simpl; [lia|]. intros [Ht Hts].
  fold (expand (apply_token output t) ts). rewrite IH; rewrite zlen_apply_token by done; [lia|done].
Qed.

Lemma tokens_ok_app produced ts ts' :
  tokens_ok produced (ts ++ ts') <-> tokens_ok produced ts /\ tokens_ok (produced + tokens_length ts) ts'.
Proof.
  revert produced. induction ts as [|t ts IH]; intros produced; simpl; [by rewrite Z.add_0_r; tauto|].
  rewrite IH, Z.add_assoc. tauto.
Qed.

Lemma encode_groups_S n produced ts :
  ts <> [] ->
  encode_groups (S n) produced ts =
    flags_of (take 8 ts) :: encode_tokens produced (take 8 ts)
      ++ encode_groups n (produced + tokens_length (take 8 ts)) (drop 8 ts).
Proof. by destruct ts. Qed.

Lemma decodeChunk_loop_spec n fuel ts output :
  (length ts <= n)%nat -> (length (encode_groups n (zlen output) ts) <= fuel)%nat ->
  tokens_ok (zlen output) ts ->
  decodeChunk_loop fuel (encode_groups n (zlen output) ts) output lznt1_chunkSize = Ok (expand output ts).
Proof.
  revert fuel ts output. induction n as [|n IH]; intros fuel ts output Hn Hf Hok.
  { destruct ts; [|simpl in Hn; lia]. by destruct fuel. }
  destruct (decide (ts = [])) as [->|Hne]; [by destruct fuel|]. rewrite encode_groups_S in Hf |- * by done.
  set (g := take 8 ts) in *. set (rest := encode_groups n _ _) in *.
  destruct fuel as [|fuel]; [simpl in Hf; lia|]. cbn [decodeChunk_loop].
  rewrite <- (take_drop 8 ts) in Hok. apply tokens_ok_app in Hok as [Hg Hr]. fold g in Hg, Hr.
  rewrite (decode_group_spec g 8 (flags_of g) 0 rest output).
  - simpl res_bind. cbn [fst snd]. unfold rest. rewrite <- zlen_expand by done. rewrite IH.
    + unfold expand. rewrite <- foldl_app. unfold g. by rewrite take_drop.
    + rewrite length_drop. destruct ts; [done|]. simpl in *. lia.
    + rewrite zlen_expand by done. fold rest. simpl in Hf. rewrite length_app in Hf. lia.
    + by rewrite zlen_expand by done.
  - unfold g. rewrite length_take. lia.
  - intros Hlt. unfold g in Hlt. rewrite length_take in Hlt. unfold rest.
    rewrite (drop_ge ts) by lia. by destruct n.
  - lia.
  - intros i t Hi. by apply flags_of_bit.
  - done.
Qed.

Lemma decodeChunk_spec ts :
  tokens_ok 0 ts -> decodeChunk (encode_chunk ts) lznt1_chunkSize = Ok (expand [] ts).
Proof. intros Hok. unfold decodeChunk, encode_chunk. by apply (decodeChunk_loop_spec _ _ ts []). Qed.

Lemma chunk_header_fields c :
  chunk_ok c ->
  0 < chunk_header c < 65536 /\ Z.land (chunk_header c) 0x7000 = 0x3000 /\
  Z.land (chunk_header c) 0x0fff + 1 = zlen (chunk_payload c) /\
  (Z.land (chunk_header c) 0x8000 =? 0) = match c with RawChunk _ => true | TokenChunk _ => false end.
Proof.
  intros [Hlen _]. unfold chunk_header. set (k := zlen (chunk_payload c)) in *.
  set (h := 0x3000 + (k - 1) + _).
  pose proof (land_shiftl h 7 12 ltac:(lia)) as H7. pose proof (land_shiftl h 1 15 ltac:(lia)) as H1.
  pose proof (land_low h 12 ltac:(lia)) as Hl. rewrite Z.shiftr_div_pow2 in H7, H1 by lia.
  change (Z.shiftl 7 12) with 0x7000 in H7. change (Z.shiftl 1 15) with 0x8000 in H1.
  change (2 ^ 12 - 1) with 0x0fff in Hl. change (2 ^ 12) with 4096 in *. change (2 ^ 15) with 32768 in H1.
  rewrite H7, H1, Hl. destruct c.
  - replace (h / 4096) with 3 by lia. replace (h / 32768) with 0 by lia. split_and!; try lia; reflexivity.
  - replace (h / 4096) with 11 by lia. replace (h / 32768) with 1 by lia. split_and!; try lia; reflexivity.
Qed.

Lemma take_append_step {A} (e : Z) (out data rest : list A) :
  zlen out < e ->
  out ++ take (Z.to_nat (e - zlen out)) (data ++ rest) =
  (out ++ slice 0 (e - zlen out) data)
    ++ take (Z.to_nat (e - zlen (out ++ slice 0 (e - zlen out) data))) rest.
Proof.
  intros He. unfold slice. rewrite drop_0, <- app_assoc, take_app. do 3 f_equal.
  unfold zlen in *. rewrite length_app, length_take. lia.
Qed.

(** The bytes of a chunk, whatever its form, and none is empty. *)
Lemma chunk_data_pos c : chunk_ok c -> 0 < zlen (chunk_data c).
Proof.
  intros [Hlen Hok]. destruct c as [data|ts]; simpl in *; [lia|]. rewrite zlen_expand by done. change (zlen (@nil byte)) with 0.
  destruct ts as [|t ts]; [unfold encode_chunk, zlen in Hlen; simpl in Hlen; lia|].
  destruct Hok as [Ht Hts]. simpl.
  assert (Hge : forall l p, tokens_ok p l -> 0 <= tokens_length l).
  { induction l as [|t' l IH]; intros p; simpl; [lia|]. intros [H1 H2%IH]. destruct t'; simpl in *; lia. }
  specialize (Hge _ _ Hts). destruct t; simpl in *; lia.
Qed.

Lemma encode_chunks_cons c cs :
  encode_chunks (c :: cs) = le_bytes 2 (chunk_header c) ++ chunk_payload c ++ encode_chunks cs.
Proof. unfold encode_chunks. rewrite fmap_cons. cbn [mjoin list_join]. by rewrite <- app_assoc. Qed.

Lemma lznt1_Decode_loop_spec fuel cs padding expected output :
  Forall chunk_ok cs -> (length cs <= fuel)%nat ->
  expected <= zlen output + zlen (mjoin (chunk_data <$> cs)) ->
  lznt1_Decode_loop fuel (encode_chunks cs ++ padding) expected output =
    Ok (output ++ take (Z.to_nat (expected - zlen output)) (mjoin (chunk_data <$> cs))).
Proof.
  intros Hcs. revert fuel output. induction Hcs as [|c cs Hc _ IH]; intros fuel output Hf He.
  all: destruct fuel as [|fuel]; simpl in Hf; try lia; cbn [lznt1_Decode_loop].
  1, 2: change (mjoin (chunk_data <$> [])) with (@nil byte) in *; change (zlen (@nil byte)) with 0 in He;
    destruct (Z.leb_spec expected (zlen output)); [|lia]; by rewrite take_nil, app_nil_r.
  destruct (Z.leb_spec expected (zlen output)).
  { replace (Z.to_nat (expected - zlen output)) with O by lia. by rewrite app_nil_r. }
  destruct (chunk_header_fields c Hc) as (Hh & H1 & H2 & H3).
  change (mjoin (chunk_data <$> c :: cs)) with (chunk_data c ++ mjoin (chunk_data <$> cs)) in *.
  rewrite encode_chunks_cons, <- !app_assoc. set (tail := encode_chunks cs ++ padding).
  change (le_bytes 2 (chunk_header c) ++ chunk_payload c ++ tail) with
    (chunk_header c mod 256 :: chunk_header c / 256 mod 256 :: chunk_payload c ++ tail).
  assert (Hv : le_val [chunk_header c mod 256; chunk_header c / 256 mod 256] = chunk_header c)
    by (apply (le_roundtrip 2); simpl; lia).
  cbn iota beta. rewrite Hv. destruct (Z.eqb_spec (chunk_header c) 0); [lia|].
  rewrite H1, H2, H3. cbn [negb Z.eqb Pos.eqb]. rewrite zlen_app.
  destruct (Z.ltb_spec (zlen (chunk_payload c) + zlen tail) (zlen (chunk_payload c)));
    [pose proof (zlen_nonneg tail); lia|].
  assert (Hsl : slice 0 (zlen (chunk_payload c)) (chunk_payload c ++ tail) = chunk_payload c)
    by (unfold slice, zlen; by rewrite drop_0, Nat2Z.id, take_app_length).
  assert (Hdr : drop (Z.to_nat (zlen (chunk_payload c))) (chunk_payload c ++ tail) = tail)
    by (unfold zlen; by rewrite Nat2Z.id, drop_app_length).
  assert (Hrec : lznt1_Decode_loop fuel tail expected (output ++ slice 0 (expected - zlen output) (chunk_data c))
    = Ok (output ++ take (Z.to_nat (expected - zlen output)) (chunk_data c ++ mjoin (chunk_data <$> cs)))).
  { rewrite take_append_step by done. unfold tail. apply IH; [lia|].
    rewrite zlen_app in He |- *.
    pose proof (zlen_nonneg (mjoin (chunk_data <$> cs))).
    unfold slice. rewrite drop_0. unfold zlen in *. rewrite length_take. lia. }
  rewrite Hsl, Hdr. pose proof (chunk_data_pos c Hc) as Hpos. destruct c as [data|ts]; [exact Hrec|].
  destruct Hc as [_ Hts]. simpl chunk_payload. rewrite decodeChunk_spec by done. simpl res_bind.
  simpl in Hpos. destruct (Z.eqb_spec (zlen (expand [] ts)) 0); [lia|]. exact Hrec.
Qed.

Lemma length_encode_chunks cs : (length cs <= length (encode_chunks cs))%nat.
Proof.
  induction cs as [|c cs IH]; [simpl; lia|]. rewrite encode_chunks_cons, !length_app. simpl. lia.
Qed.

(** LZNT1 streams decode to what they encode.  For every list of chunks
    the format can express, raw or made of literals and back references that
    may overlap their own output, the decoder returns exactly the first
    [expected] bytes of their content, whatever follows the chunks it
    needs. *)
Lemma lznt1_roundtrip cs padding expected :
  Forall chunk_ok cs -> 0 <= expected <= zlen (mjoin (chunk_data <$> cs)) ->
  lznt1_Decode (encode_chunks cs ++ padding) expected =
    Ok (take (Z.to_nat expected) (mjoin (chunk_data <$> cs))).
Proof.
  intros Hcs He. unfold lznt1_Decode. destruct (Z.ltb_spec expected 0); [lia|].
  rewrite lznt1_Decode_loop_spec; [by rewrite Z.sub_0_r|done| |rewrite zlen_nil; lia].
  rewrite length_app. pose proof (length_encode_chunks cs). lia.
Qed.


(** ** Arbitrary input *)

Lemma decode_group_total bits flags bit input output :
  zlen output <= lznt1_chunkSize ->
  returns (fun st => (length (fst st) <= length input)%nat /\ zlen (snd st) <= lznt1_chunkSize)
    (decode_group bits flags bit input output lznt1_chunkSize).
Proof.
  unfold lznt1_chunkSize. revert bit input output. induction bits as [|bits IH]; intros bit input output Ho; [done|].
  destruct input as [|b rest]; [done|]. cbn [decode_group].
  destruct (_ =? 0).
  - destruct (Z.eqb_spec (zlen output) 4096); [done|].
    specialize (IH (bit + 1) rest (output ++ [b])). destruct (decode_group _ _ _ _ _ _) as [[i o]|e]; simpl in *.
    + rewrite zlen_app, zlen_cons, zlen_nil in IH. destruct IH; [lia|]. lia.
    + apply IH. rewrite zlen_app, zlen_cons, zlen_nil. lia.
  - destruct rest as [|b' rest]; [done|].
    destruct (token_split_spec (zlen output)) as (s & Hs & -> & _); [lia|].
    set (token := le_val [b; b']). set (l := Z.land token (2 ^ s - 1) + 3). set (d := Z.shiftr token s + 1).
    destruct (Z.ltb_spec (zlen output) d); [done|]. destruct (Z.ltb_spec (4096 - zlen output) l); [done|].
    assert (Hl : 0 <= l).
    { pose proof (Z.pow_pos_nonneg 2 s ltac:(lia) ltac:(lia)).
      pose proof (land_mask_nonneg token (2 ^ s - 1) ltac:(lia)). lia. }
    specialize (IH (bit + 1) rest (copy_phrase (Z.to_nat l) d output)). rewrite zlen_copy_phrase in IH.
    destruct (decode_group _ _ _ _ _ _) as [[i o]|e]; simpl in *; [|apply IH; lia].
    destruct IH; [lia|]. lia.
Qed.

Lemma decodeChunk_loop_total fuel input output :
  (length input <= fuel)%nat -> zlen output <= lznt1_chunkSize ->
  returns (fun o => zlen o <= lznt1_chunkSize) (decodeChunk_loop fuel input output lznt1_chunkSize).
Proof.
  revert input output. induction fuel as [|fuel IH]; intros [|flags rest] output Hf Ho; simpl in Hf; try lia; try done.
  cbn [decodeChunk_loop]. pose proof (decode_group_total 8 flags 0 rest output Ho) as Hg.
  destruct (decode_group _ _ _ _ _ _) as [[i o]|e]; simpl in *; [|done]. apply IH; [lia|tauto].
Qed.

Lemma lznt1_Decode_loop_total fuel input expected output :
  (length input < fuel)%nat -> zlen output <= expected ->
  returns (fun o => zlen o = expected) (lznt1_Decode_loop fuel input expected output).
Proof.
  revert input output. induction fuel as [|fuel IH]; intros input output Hf Ho; [lia|]. cbn [lznt1_Decode_loop].
  destruct (Z.leb_spec expected (zlen output)); [simpl; lia|].
  destruct input as [|b [|b' input]]; [done..|].
  destruct (_ =? 0); [done|]. destruct (negb _); [done|].
  set (n := Z.land _ 4095 + 1). destruct (Z.ltb_spec (zlen input) n); [done|].
  assert (Hrec : forall data, returns (fun o => zlen o = expected)
    (lznt1_Decode_loop fuel (drop (Z.to_nat n) input) expected (output ++ slice 0 (expected - zlen output) data))).
  { intros data. apply IH; [rewrite length_drop; simpl in Hf; lia|].
    pose proof (zlen_slice_le data 0 (expected - zlen output)). rewrite zlen_app. lia. }
  destruct (_ =? 0); [apply Hrec|].
  pose proof (decodeChunk_loop_total (length (slice 0 n input)) (slice 0 n input) []) as Hc.
  fold (decodeChunk (slice 0 n input) lznt1_chunkSize) in Hc.
  destruct (decodeChunk _ _) as [chunk|e]; simpl; [|by apply Hc].
  destruct (_ =? 0); [done|apply Hrec].
Qed.

(** Decoding is total and exact.  On every input the decoder returns;
    when it succeeds it returns exactly [expected] bytes. *)
Lemma lznt1_total input expected :
  returns (fun output => zlen output = expected) (lznt1_Decode input expected).
Proof.
  unfold lznt1_Decode. destruct (Z.ltb_spec expected 0); [done|].
  apply lznt1_Decode_loop_total; [lia|]. by rewrite zlen_nil.
Qed.


