(* ===== verification/Lzvn.v ===== *)
(** Package [compression/lzvn]: the decoder of Apple LZVN token streams
    (src/compression/lzvn/lzvn.go), proved to invert an encoder of operation
    lists. *)

From S2P Require Import Prelude GoLib.
From stdpp Require Import base numbers list gmap sorting strings.

Open Scope Z_scope.
Open Scope trex_scope.

#[local] Ltac Zify.zify_post_hook ::= Z.to_euclidean_division_equations.

(** ** The decoder *)

(** Copying a match byte by byte, from the history or from the output. *)
Fixpoint copy_match (m : nat) (distance : Z) (history out : bytes) : bytes :=
  match m with
  | O => out
  | S m =>
      let index := zlen out - distance in
      copy_match m distance history
        (out ++ [if index <? 0 then nthb history (zlen history + index) else nthb out index])
  end.

Definition lzvn_truncated : error := Errorf "lzvn: truncated LZVN token".

(** The switch on the opcode, except for the end and no-op tokens: the token's
    size, its literal and match lengths and the distance.  [src] starts at
    the token. *)
Definition lzvn_token (src : bytes) (distance : Z) : res (Z * Z * Z * Z) :=
  let op := nthb src 0 in
  let u16at1 := le_val [nthb src 1; nthb src 2] in
  if (0xe0 <=? op) && (op <=? 0xef) then
    if op =? 0xe0 then
      if zlen src <? 2 then Err lzvn_truncated else Ok (2, nthb src 1 + 16, 0, distance)
    else Ok (1, Z.land op 15, 0, distance)
  else if 0xf0 <=? op then
    if op =? 0xf0 then
      if zlen src <? 2 then Err lzvn_truncated else Ok (2, 0, nthb src 1 + 16, distance)
    else Ok (1, 0, Z.land op 15, distance)
  else if (0xa0 <=? op) && (op <=? 0xbf) then
    if zlen src <? 3 then Err lzvn_truncated
    else Ok (3, Z.land (Z.shiftr op 3) 3, Z.lor (Z.shiftl (Z.land op 7) 2) (Z.land u16at1 3) + 3,
             Z.shiftr u16at1 2)
  else if ((0x70 <=? op) && (op <=? 0x7f)) || ((0xd0 <=? op) && (op <=? 0xdf))
          || ((Z.land op 7 =? 6) && (op <? 0x40))
  then Err (Errorf "lzvn: undefined LZVN opcode")
  else
    let l := Z.shiftr op 6 in
    let m := Z.land (Z.shiftr op 3) 7 + 3 in
    if Z.land op 7 =? 7 then
      if zlen src <? 3 then Err lzvn_truncated else Ok (3, l, m, u16at1)
    else if negb (Z.land op 7 =? 6) then
      if zlen src <? 2 then Err lzvn_truncated
      else Ok (2, l, m, Z.lor (Z.shiftl (Z.land op 7) 8) (nthb src 1))
    else Ok (1, l, m, distance).

(** [src] is what is left of the stream; a round consumes at least a byte. *)
Fixpoint lzvn_Decode_loop (fuel : nat) (src : bytes) (size : Z) (history out : bytes) (distance : Z)
    : res bytes :=
  match src with
  | [] => Err (Errorf "lzvn: missing LZVN end")
  | op :: rest =>
      match fuel with
      | O => Err OutOfFuel
      | S fuel =>
          if op =? 6 then
            if negb (zlen src =? 8) || negb (zlen out =? size)
            then Err (Errorf "lzvn: LZVN end/size mismatch") else Ok out
          else if (op =? 14) || (op =? 22) then lzvn_Decode_loop fuel rest size history out distance
          else
            let! token := lzvn_token src distance in
            let '(n, l, m, distance) := token in
            let src := drop (Z.to_nat n) src in
            if (zlen src <? l) || (size - zlen out <? l + m)
            then Err (Errorf "lzvn: LZVN literal/output overflow")
            else
              let out := out ++ slice 0 l src in
              let src := drop (Z.to_nat l) src in
              if (0 <? m) && ((distance <=? 0) || (zlen history + zlen out <? distance))
              then Err (Errorf "lzvn: invalid LZVN distance")
              else lzvn_Decode_loop fuel src size history (copy_match (Z.to_nat m) distance history out) distance
      end
  end.

Definition lzvn_Decode (src : bytes) (size : Z) (history : bytes) : res bytes :=
  if size <? 0 then Err (Errorf "lzvn: negative decoded size")
  else lzvn_Decode_loop (length src) src size history [] 0.

(** ** The format *)

(** A literal run, a match at the previous distance, or both with a distance
    in one of the encodings. *)
Inductive vn_op :=
  | VLiteral (lit : bytes)
  | VMatch (m : Z)
  | VMedium (lit : bytes) (m d : Z)
  | VSmall (lit : bytes) (m d : Z)
  | VLarge (lit : bytes) (m d : Z)
  | VPrevious (lit : bytes) (m : Z)
  | VNop (long : bool).

Definition vn_literal (o : vn_op) : bytes :=
  match o with
  | VLiteral lit | VMedium lit _ _ | VSmall lit _ _ | VLarge lit _ _ | VPrevious lit _ => lit
  | VMatch _ | VNop _ => []
  end.

Definition vn_match (o : vn_op) : Z :=
  match o with
  | VMatch m | VMedium _ m _ | VSmall _ m _ | VLarge _ m _ | VPrevious _ m => m
  | VLiteral _ | VNop _ => 0
  end.

Definition vn_distance (o : vn_op) (distance : Z) : Z :=
  match o with
  | VMedium _ _ d | VSmall _ _ d | VLarge _ _ d => d
  | _ => distance
  end.

(** The opcode of a combined token with field [x] in its low bits. *)
Definition vn_opcode (lit : bytes) (m x : Z) : Z := zlen lit * 64 + (m - 3) * 8 + x.

Definition encode_op (o : vn_op) : bytes :=
  match o with
  | VLiteral lit => if zlen lit <? 16 then 0xe0 + zlen lit :: lit else 0xe0 :: (zlen lit - 16) :: lit
  | VMatch m => if m <? 16 then [0xf0 + m] else [0xf0; m - 16]
  | VMedium lit m d =>
      (0xa0 + zlen lit * 8 + (m - 3) / 4) :: le_bytes 2 (d * 4 + (m - 3) mod 4) ++ lit
  | VSmall lit m d => vn_opcode lit m (d / 256) :: d mod 256 :: lit
  | VLarge lit m d => vn_opcode lit m 7 :: le_bytes 2 d ++ lit
  | VPrevious lit m => vn_opcode lit m 6 :: lit
  | VNop long => [if long then 22 else 14]
  end.

(** The combined opcodes that are not taken by other tokens. *)
Definition opcode_free (op : Z) : Prop :=
  ~ 0x70 <= op <= 0x7f /\ ~ 0xa0 <= op <= 0xbf /\ op < 0xd0.

(** What the format can express. *)
Definition op_ok (o : vn_op) : Prop :=
  match o with
  | VLiteral lit => 1 <= zlen lit <= 271
  | VMatch m => 1 <= m <= 271
  | VMedium lit m d => zlen lit <= 3 /\ 3 <= m <= 34 /\ 0 <= d < 16384
  | VSmall lit m d => zlen lit <= 3 /\ 3 <= m <= 10 /\ 0 <= d < 1536 /\ opcode_free (vn_opcode lit m (d / 256))
  | VLarge lit m d => zlen lit <= 3 /\ 3 <= m <= 10 /\ 0 <= d < 65536 /\ opcode_free (vn_opcode lit m 7)
  | VPrevious lit m => 1 <= zlen lit <= 3 /\ 3 <= m <= 10 /\ opcode_free (vn_opcode lit m 6)
  | VNop _ => True
  end.

(** What an operation does to the output and the distance. *)
Definition vn_step (history : bytes) (st : bytes * Z) (o : vn_op) : bytes * Z :=
  let out := fst st ++ vn_literal o in
  let distance := vn_distance o (snd st) in
  (copy_match (Z.to_nat (vn_match o)) distance history out, distance).

(** The distance of a match reaches back into what there is. *)
Fixpoint ops_ok (history out : bytes) (distance : Z) (os : list vn_op) : Prop :=
  match os with
  | [] => True
  | o :: os =>
      op_ok o /\
      (0 < vn_match o ->
       1 <= vn_distance o distance <= zlen history + zlen out + zlen (vn_literal o)) /\
      let st := vn_step history (out, distance) o in ops_ok history (fst st) (snd st) os
  end.

(** ** Decoding one operation *)

Lemma zlen_copy_match m d history out : zlen (copy_match m d history out) = zlen out + Z.of_nat m.
Proof.
  revert out. induction m as [|m IH]; intros out; simpl; [lia|].
  rewrite IH, zlen_app. unfold zlen. simpl. lia.
Qed.

Lemma zlen_vn_step history out distance o :
  op_ok o -> zlen (fst (vn_step history (out, distance) o)) = zlen out + zlen (vn_literal o) + vn_match o.
Proof.
  intros Hok. simpl. rewrite zlen_copy_match, zlen_app. destruct o; simpl in *; lia.
Qed.

(** A token followed by its literals, seen by the decoder. *)
Definition parses (o : vn_op) (tail : bytes) (distance : Z) : Prop :=
  exists n op rest,
    encode_op o ++ tail = op :: rest /\ op <> 6 /\ op <> 14 /\ op <> 22 /\
    lzvn_token (op :: rest) distance =
      Ok (Z.of_nat n, zlen (vn_literal o), vn_match o, vn_distance o distance) /\
    drop n (op :: rest) = vn_literal o ++ tail.

Lemma nthb_0 b l : nthb (b :: l) 0 = b.
Proof. done. Qed.
Lemma nthb_1 b c l : nthb (b :: c :: l) 1 = c.
Proof. done. Qed.
Lemma nthb_2 b c d l : nthb (b :: c :: d :: l) 2 = d.
Proof. done. Qed.

Lemma opcode_fields op :
  Z.land op 7 = op mod 8 /\ Z.shiftr op 6 = op / 64 /\ Z.land (Z.shiftr op 3) 7 = op / 8 mod 8 /\
  Z.land (Z.shiftr op 3) 3 = op / 8 mod 4 /\ Z.land op 15 = op mod 16.
Proof.
  rewrite !Z.shiftr_div_pow2 by lia.
  pose proof (land_low op 3 ltac:(lia)). pose proof (land_low (op / 2 ^ 3) 3 ltac:(lia)).
  pose proof (land_low (op / 2 ^ 3) 2 ltac:(lia)). pose proof (land_low op 4 ltac:(lia)). done.
Qed.

Lemma le2 v : 0 <= v < 65536 -> le_val [v mod 256; v / 256 mod 256] = v.
Proof. intros Hv. by apply (le_roundtrip 2). Qed.

Ltac test_false b := replace b with false by lia.
Ltac test_true b := replace b with true by lia.

Lemma parse_literal lit tail distance : op_ok (VLiteral lit) -> parses (VLiteral lit) tail distance.
Proof.
  simpl. intros Hl. unfold parses. simpl. destruct (Z.ltb_spec (zlen lit) 16).
  - exists 1%nat, (0xe0 + zlen lit), (lit ++ tail). split_and!; try done; try lia. unfold lzvn_token.
    rewrite nthb_0. destruct (opcode_fields (0xe0 + zlen lit)) as (_ & _ & _ & _ & ->).
    test_true ((0xe0 <=? 0xe0 + zlen lit) && (0xe0 + zlen lit <=? 0xef)). test_false (0xe0 + zlen lit =? 0xe0).
    by replace ((0xe0 + zlen lit) mod 16) with (zlen lit) by lia.
  - exists 2%nat, 0xe0, (zlen lit - 16 :: lit ++ tail). split_and!; try done; try lia. unfold lzvn_token.
    rewrite nthb_0, nthb_1. simpl. rewrite !zlen_cons.
    pose proof (zlen_nonneg (lit ++ tail)). destruct (Z.ltb_spec (1 + (1 + zlen (lit ++ tail))) 2); [lia|].
    by replace (zlen lit - 16 + 16) with (zlen lit) by lia.
Qed.

Lemma parse_match m tail distance : op_ok (VMatch m) -> parses (VMatch m) tail distance.
Proof.
  simpl. intros Hl. unfold parses. simpl. destruct (Z.ltb_spec m 16).
  - exists 1%nat, (0xf0 + m), tail. split_and!; try done; try lia. unfold lzvn_token.
    rewrite nthb_0. destruct (opcode_fields (0xf0 + m)) as (_ & _ & _ & _ & ->).
    test_false ((0xe0 <=? 0xf0 + m) && (0xf0 + m <=? 0xef)). test_true (0xf0 <=? 0xf0 + m).
    test_false (0xf0 + m =? 0xf0). by replace ((0xf0 + m) mod 16) with m by lia.
  - exists 2%nat, 0xf0, (m - 16 :: tail). split_and!; try done; try lia. unfold lzvn_token.
    rewrite nthb_0, nthb_1. simpl. rewrite !zlen_cons.
    pose proof (zlen_nonneg tail). destruct (Z.ltb_spec (1 + (1 + zlen tail)) 2); [lia|].
    by replace (m - 16 + 16) with m by lia.
Qed.

Lemma parse_medium lit m d tail distance : op_ok (VMedium lit m d) -> parses (VMedium lit m d) tail distance.
Proof.
  simpl. intros (Hl & Hm & Hd). pose proof (zlen_nonneg lit). unfold parses.
  set (op := 0xa0 + zlen lit * 8 + (m - 3) / 4). set (v := d * 4 + (m - 3) mod 4).
  exists 3%nat, op, (v mod 256 :: v / 256 mod 256 :: lit ++ tail).
  assert (Hop : 0xa0 <= op <= 0xbf) by lia. split_and!; try done; try lia.
  unfold lzvn_token. rewrite nthb_0, nthb_1, nthb_2, le2 by lia.
  test_false ((0xe0 <=? op) && (op <=? 0xef)). test_false (0xf0 <=? op). test_true ((0xa0 <=? op) && (op <=? 0xbf)).
  rewrite !zlen_cons. pose proof (zlen_nonneg (lit ++ tail)).
  destruct (Z.ltb_spec (1 + (1 + (1 + zlen (lit ++ tail)))) 3); [lia|].
  destruct (opcode_fields op) as (-> & _ & _ & -> & _).
  pose proof (land_low v 2 ltac:(lia)) as Hv. change (2 ^ 2 - 1) with 3 in Hv. change (2 ^ 2) with 4 in Hv.
  rewrite Hv, lor_low, Z.shiftr_div_pow2 by lia. change (2 ^ 2) with 4.
  replace (op / 8 mod 4) with (zlen lit) by lia. replace (op mod 8 * 4 + v mod 4 + 3) with m by lia.
  by replace (v / 4) with d by lia.
Qed.

Lemma combined_fields lit m x :
  zlen lit <= 3 -> 3 <= m <= 10 -> 0 <= x <= 7 -> opcode_free (vn_opcode lit m x) ->
  let op := vn_opcode lit m x in
  (0xe0 <=? op) && (op <=? 0xef) = false /\ (0xf0 <=? op) = false /\ (0xa0 <=? op) && (op <=? 0xbf) = false /\
  ((0x70 <=? op) && (op <=? 0x7f)) || ((0xd0 <=? op) && (op <=? 0xdf)) = false /\
  Z.land op 7 = x /\ Z.shiftr op 6 = zlen lit /\ Z.land (Z.shiftr op 3) 7 + 3 = m.
Proof.
  intros Hl Hm Hx (Hf1 & Hf2 & Hf3) op. pose proof (zlen_nonneg lit).
  destruct (opcode_fields op) as (-> & -> & -> & _). unfold op, vn_opcode in *. split_and!; lia.
Qed.

Ltac combined lit m x :=
  unfold lzvn_token; rewrite ?nthb_0, ?nthb_1, ?nthb_2;
  let H := fresh in
  pose proof (combined_fields lit m x) as H; cbv zeta in H;
  destruct H as (-> & -> & -> & -> & -> & -> & ->); [lia|lia|lia|done|]; rewrite ?zlen_cons.

Lemma parse_small lit m d tail distance : op_ok (VSmall lit m d) -> parses (VSmall lit m d) tail distance.
Proof.
  simpl. intros (Hl & Hm & Hd & Hf). pose proof (zlen_nonneg lit). unfold parses.
  exists 2%nat, (vn_opcode lit m (d / 256)), (d mod 256 :: lit ++ tail).
  split_and!; try done; try (unfold vn_opcode; lia).
  combined lit m (d / 256). pose proof (zlen_nonneg (lit ++ tail)).
  test_false ((d / 256 =? 6) && (vn_opcode lit m (d / 256) <? 64)). simpl orb.
  test_false (d / 256 =? 7). test_false (d / 256 =? 6). simpl negb.
  destruct (Z.ltb_spec (1 + (1 + zlen (lit ++ tail))) 2); [lia|].
  rewrite lor_low by lia. change (2 ^ 8) with 256. by replace (d / 256 * 256 + d mod 256) with d by lia.
Qed.

Lemma parse_large lit m d tail distance : op_ok (VLarge lit m d) -> parses (VLarge lit m d) tail distance.
Proof.
  simpl. intros (Hl & Hm & Hd & Hf). pose proof (zlen_nonneg lit). unfold parses.
  exists 3%nat, (vn_opcode lit m 7), (d mod 256 :: d / 256 mod 256 :: lit ++ tail).
  split_and!; try done; try (unfold vn_opcode; lia).
  combined lit m 7. rewrite le2 by lia. pose proof (zlen_nonneg (lit ++ tail)). simpl orb. simpl Z.eqb. cbn iota.
  by destruct (Z.ltb_spec (1 + (1 + (1 + zlen (lit ++ tail)))) 3); [lia|].
Qed.

Lemma parse_previous lit m tail distance : op_ok (VPrevious lit m) -> parses (VPrevious lit m) tail distance.
Proof.
  simpl. intros (Hl & Hm & Hf). unfold parses.
  exists 1%nat, (vn_opcode lit m 6), (lit ++ tail). split_and!; try done; try (unfold vn_opcode; lia).
  combined lit m 6. by replace (vn_opcode lit m 6 <? 64) with false by (unfold vn_opcode; lia).
Qed.

Lemma parse_op o tail distance :
  op_ok o -> match o with VNop _ => True | _ => parses o tail distance end.
Proof.
  destruct o; intros Hok; auto using parse_literal, parse_match, parse_medium, parse_small, parse_large, parse_previous.
Qed.

(** ** Decoding a stream *)

Lemma lzvn_Decode_loop_op fuel o tail size history out distance :
  op_ok o -> zlen (fst (vn_step history (out, distance) o)) <= size ->
  (0 < vn_match o -> 1 <= vn_distance o distance <= zlen history + zlen out + zlen (vn_literal o)) ->
  lzvn_Decode_loop (S fuel) (encode_op o ++ tail) size history out distance =
  lzvn_Decode_loop fuel tail size history (fst (vn_step history (out, distance) o))
    (snd (vn_step history (out, distance) o)).
Proof.
  intros Hok Hsize Hd. pose proof (parse_op o tail distance Hok) as Hp.
  assert (Hnop : (exists long, o = VNop long) \/ parses o tail distance) by (destruct o; eauto).
  clear Hp. destruct Hnop as [[long ->]|(n & op & rest & Heq & H6 & H14 & H22 & Htok & Hdrop)].
  { simpl. rewrite app_nil_r. by destruct long. }
  rewrite Heq. cbn [lzvn_Decode_loop]. test_false (op =? 6). test_false ((op =? 14) || (op =? 22)).
  rewrite Htok. cbn [res_bind]. rewrite Nat2Z.id, Hdrop.
  pose proof (zlen_nonneg tail). rewrite zlen_app. rewrite zlen_vn_step in Hsize by done.
  test_false ((zlen (vn_literal o) + zlen tail <? zlen (vn_literal o))
              || (size - zlen out <? zlen (vn_literal o) + vn_match o)).
  assert (Hs : slice 0 (zlen (vn_literal o)) (vn_literal o ++ tail) = vn_literal o)
    by (unfold slice, zlen; by rewrite drop_0, Nat2Z.id, take_app_length).
  assert (Hr : drop (Z.to_nat (zlen (vn_literal o))) (vn_literal o ++ tail) = tail)
    by (unfold zlen; by rewrite Nat2Z.id, drop_app_length).
  rewrite Hs, Hr, zlen_app.
  test_false ((0 <? vn_match o) && ((vn_distance o distance <=? 0)
              || (zlen history + (zlen out + zlen (vn_literal o)) <? vn_distance o distance))). done.
Qed.

(** The end token, padded to eight bytes. *)
Definition lzvn_end : bytes := 6 :: zeros 7.

Definition encode_ops (os : list vn_op) : bytes := mjoin (encode_op <$> os) ++ lzvn_end.

Definition vn_run (history : bytes) (os : list vn_op) : bytes := fst (foldl (vn_step history) ([], 0) os).

Lemma op_nonempty o : (1 <= length (encode_op o))%nat.
Proof. destruct o; simpl; repeat case_match; simpl; lia. Qed.

Lemma encode_ops_cons o os : encode_ops (o :: os) = encode_op o ++ encode_ops os.
Proof. unfold encode_ops. rewrite fmap_cons. cbn [mjoin list_join]. by rewrite app_assoc. Qed.

(** Operations only add output. *)
Lemma zlen_vn_run history os out distance :
  ops_ok history out distance os -> zlen out <= zlen (fst (foldl (vn_step history) (out, distance) os)).
Proof.
  revert out distance. induction os as [|o os IH]; intros out distance; [simpl; lia|].
  cbn [ops_ok foldl]. intros (Hok & _ & Hos). rewrite (surjective_pairing (vn_step history (out, distance) o)).
  pose proof (IH _ _ Hos) as Hle. pose proof (zlen_vn_step history out distance o Hok).
  pose proof (zlen_nonneg (vn_literal o)).
  assert (0 <= vn_match o) by (destruct o; simpl in *; lia). lia.
Qed.

Lemma lzvn_Decode_loop_spec fuel os size history out distance :
  (length (encode_ops os) <= fuel)%nat -> ops_ok history out distance os ->
  size = zlen (fst (foldl (vn_step history) (out, distance) os)) ->
  lzvn_Decode_loop fuel (encode_ops os) size history out distance
    = Ok (fst (foldl (vn_step history) (out, distance) os)).
Proof.
  revert fuel out distance. induction os as [|o os IH]; intros fuel out distance Hf Hok Hsize.
  - destruct fuel as [|fuel]; [simpl in Hf; lia|]. simpl in Hsize |- *. by rewrite Hsize, Z.eqb_refl.
  - rewrite encode_ops_cons in Hf |- *. rewrite length_app in Hf. pose proof (op_nonempty o).
    destruct fuel as [|fuel]; [lia|]. cbn [ops_ok foldl] in *. destruct Hok as (Hok & Hd & Hos).
    rewrite (surjective_pairing (vn_step history (out, distance) o)) in Hsize |- *.
    rewrite lzvn_Decode_loop_op; [|done| |done].
    + by apply IH; [lia| |].
    + rewrite Hsize. by apply zlen_vn_run.
Qed.

(** LZVN streams decode to what they encode.  Every list of operations
    the format can express, with literals, matches in each of the distance
    encodings that may reach into the preceding history or overlap their own
    output, is decoded to its result when the caller asks for exactly the
    size of the result. *)
Lemma lzvn_roundtrip history os :
  ops_ok history [] 0 os ->
  lzvn_Decode (encode_ops os) (zlen (vn_run history os)) history = Ok (vn_run history os).
Proof.
  intros Hok. unfold lzvn_Decode. pose proof (zlen_nonneg (vn_run history os)).
  destruct (Z.ltb_spec (zlen (vn_run history os)) 0); [lia|]. by apply lzvn_Decode_loop_spec.
Qed.


(** ** Arbitrary input *)

Lemma lzvn_token_total src distance :
  bytes_ok src -> src <> [] ->
  returns (fun t => let '(n, l, m, d) := t in 1 <= n <= zlen src /\ 0 <= l /\ 0 <= m) (lzvn_token src distance).
Proof.
  intros Hb Hne. unfold lzvn_token. assert (1 <= zlen src).
  { destruct src; [done|]. rewrite zlen_cons. pose proof (zlen_nonneg src). lia. }
  set (op := nthb src 0). set (v := le_val _). destruct (opcode_fields op) as (-> & -> & -> & -> & ->).
  assert (0 <= op < 256) by (destruct src; [done|]; by apply Forall_cons in Hb as [? _]).
  assert (0 <= nthb src 1).
  { destruct src as [|? [|? ?]]; [done..|]. apply Forall_cons in Hb as [_ [? _]%Forall_cons]. unfold byte_ok in *. rewrite nthb_1. lia. }
  pose proof (land_mask_nonneg v 3 ltac:(lia)).
  assert (0 <= Z.lor (Z.shiftl (op mod 8) 2) (Z.land v 3)).
  { apply Z.lor_nonneg. split; [apply Z.shiftl_nonneg; lia|done]. }
  repeat match goal with |- context [if ?b then _ else _] => destruct b eqn:? end; simpl; try done; lia.
Qed.

Lemma lzvn_Decode_loop_total fuel src size history out distance :
  bytes_ok src -> (length src <= fuel)%nat ->
  returns (fun o => zlen o = size) (lzvn_Decode_loop fuel src size history out distance).
Proof.
  revert src out distance. induction fuel as [|fuel IH]; intros [|op rest] out distance Hb Hf; simpl in Hf; try lia; try done.
  cbn [lzvn_Decode_loop]. destruct (op =? 6).
  { destruct (Z.eqb_spec (zlen out) size); [|by rewrite orb_true_r]. by destruct (_ || _). }
  destruct (_ || _); [apply IH; [by apply Forall_cons in Hb as [_ ?]|lia]|].
  pose proof (lzvn_token_total (op :: rest) distance Hb ltac:(done)) as Ht.
  destruct (lzvn_token _ _) as [[[[n l] m] d]|e]; simpl in Ht |- *; [|done].
  destruct (_ || _); [done|]. destruct (_ && _); [done|]. destruct Ht as (Hn & Hl & Hm).
  rewrite zlen_cons in Hn. unfold zlen in Hn. apply IH.
  - by apply Forall_drop, Forall_drop.
  - rewrite !length_drop. simpl. lia.
Qed.

(** LZVN decoding is total and exact: on every input the decoder
    returns, and when it succeeds it returns exactly [size] bytes. *)
Lemma lzvn_total src size history :
  bytes_ok src -> returns (fun out => zlen out = size) (lzvn_Decode src size history).
Proof.
  intros Hb. unfold lzvn_Decode. destruct (Z.ltb_spec size 0); [done|]. by apply lzvn_Decode_loop_total.
Qed.



