(* ===== verification/Szdd.v ===== *)
(** Package [archive/szdd]: the LZSS decompressor of SZDD and SZ files
    (src/archive/szdd/szdd.go), proved equal to a decoder without a window. *)

From S2P Require Import Prelude GoLib.
From stdpp Require Import base numbers list gmap sorting strings.

Open Scope Z_scope.
Open Scope trex_scope.

#[local] Ltac Zify.zify_post_hook ::= Z.to_euclidean_division_equations.

(** ** The decompressor *)

(** The ring of 4096 bytes, the position of the next byte in it, and the
    output. *)
Record szdd_state := MkSzdd { sz_window : bytes; sz_position : Z; sz_out : bytes }.

Implicit Types st : szdd_state.

Definition szdd_init (position : Z) : szdd_state := MkSzdd (replicate 4096 32) position [].

Definition appendByte st (value : byte) : szdd_state :=
  MkSzdd (<[Z.to_nat (sz_position st) := value]> (sz_window st))
         (Z.land (sz_position st + 1) 4095) (sz_out st ++ [value]).

Definition szdd_short : error := Wrapf "szdd: decoded %d bytes, want %d: %w" ErrUnexpectedEOF.

(** The loop that copies a match. *)
Fixpoint szdd_copy (count : nat) (match_ : Z) (expected : Z) st : szdd_state :=
  match count with
  | O => st
  | S count =>
      if zlen (sz_out st) <? expected
      then szdd_copy count (Z.land (match_ + 1) 4095) expected (appendByte st (nthb (sz_window st) match_))
      else st
  end.

(** The loop over the bits of a control byte; [mask] shifts out after eight
    rounds.  [data] is the rest of the input. *)
Fixpoint szdd_group (bits : nat) (control mask expected : Z) (data : bytes) st
    : res (bytes * szdd_state) :=
  match bits with
  | O => Ok (data, st)
  | S bits =>
      if zlen (sz_out st) <? expected then
        if negb (Z.land control mask =? 0) then
          match data with
          | [] => Err szdd_short
          | value :: data => szdd_group bits control (u8 (Z.shiftl mask 1)) expected data (appendByte st value)
          end
        else
          match data with
          | b0 :: b1 :: data =>
              let match_ := Z.lor b0 (Z.shiftl (Z.land b1 0xf0) 4) in
              let length := Z.land b1 0x0f + 3 in
              szdd_group bits control (u8 (Z.shiftl mask 1)) expected data
                (szdd_copy (Z.to_nat length) match_ expected st)
          | _ => Err szdd_short
          end
      else Ok (data, st)
  end.

(** A round consumes the control byte. *)
Fixpoint szdd_loop (fuel : nat) (expected : Z) (data : bytes) st : res bytes :=
  if zlen (sz_out st) <? expected then
    match data with
    | [] => Err szdd_short
    | control :: data =>
        match fuel with
        | O => Err OutOfFuel
        | S fuel =>
            let! r := szdd_group 8 control 1 expected data st in
            szdd_loop fuel expected (fst r) (snd r)
        end
    end
  else Ok (sz_out st).

Definition decompressSZDDWindow (data : bytes) (expected position : Z) : res bytes :=
  szdd_loop (length data) expected data (szdd_init position).

Definition decompressSZDDLZSS (data : bytes) (expected : Z) : res bytes :=
  decompressSZDDWindow data expected (4096 - 16).

Definition sz_signature : bytes := [83; 90; 32; 0x88; 0xf0; 0x27; 0x33; 0xd1].
Definition szddSignature : bytes := [83; 90; 68; 68; 0x88; 0xf0; 0x27; 0x33].

(** [data] is the file, read in full. *)
Definition decodeSZDD (data : bytes) (maximum : Z) : res bytes :=
  if zlen data <? 12 then Err (Errorf "szdd: truncated header")
  else if maximum <? zlen data then Err (Errorf "szdd: compressed size %d exceeds maximum %d")
  else if bool_decide (slice 0 8 data = sz_signature) then
    let expected := le_val (slice 8 4 data) in
    if maximum <? expected then Err (Errorf "szdd: decoded size exceeds maximum")
    else decompressSZDDWindow (drop 12 data) expected (4096 - 18)
  else if zlen data <? 14 then Err (Errorf "szdd: truncated header")
  else if negb (bool_decide (slice 0 8 data = szddSignature)) then Err (Errorf "szdd: invalid signature")
  else if negb (nthb data 8 =? 65) then Err (Errorf "szdd: unsupported mode %#x")
  else
    let expected := le_val (slice 10 4 data) in
    if maximum <? expected then Err (Errorf "szdd: decoded size %d exceeds maximum %d")
    else decompressSZDDLZSS (drop 14 data) expected.

(** ** The reference: LZSS over an output that spaces precede *)

(** The byte [distance] bytes back. *)
Definition lz_at (out : bytes) (distance : Z) : byte :=
  if distance <=? zlen out then nthb out (zlen out - distance) else 32.

Fixpoint ref_copy (count : nat) (distance expected : Z) (out : bytes) : bytes :=
  match count with
  | O => out
  | S count =>
      if zlen out <? expected then ref_copy count distance expected (out ++ [lz_at out distance]) else out
  end.

(** How far back position [match_] of the ring is when the next byte goes to
    [p0 + zlen out]. *)
Definition ring_distance (p0 : Z) (out : bytes) (match_ : Z) : Z := (p0 + zlen out - match_ - 1) mod 4096 + 1.

(** The items of a control byte: bit [bit] selects a literal. *)
Fixpoint ref_group (bits : nat) (control bit expected p0 : Z) (data out : bytes) : res (bytes * bytes) :=
  match bits with
  | O => Ok (data, out)
  | S bits =>
      if expected <=? zlen out then Ok (data, out)
      else if Z.testbit control bit then
        match data with
        | [] => Err szdd_short
        | value :: data => ref_group bits control (bit + 1) expected p0 data (out ++ [value])
        end
      else
        match data with
        | b0 :: b1 :: data =>
            let match_ := b0 + b1 / 16 * 256 in
            ref_group bits control (bit + 1) expected p0 data
              (ref_copy (Z.to_nat (b1 mod 16 + 3)) (ring_distance p0 out match_) expected out)
        | _ => Err szdd_short
        end
  end.

Fixpoint ref_loop (fuel : nat) (expected p0 : Z) (data out : bytes) : res bytes :=
  if expected <=? zlen out then Ok out
  else match data with
  | [] => Err szdd_short
  | control :: data =>
      match fuel with
      | O => Err OutOfFuel
      | S fuel =>
          let! r := ref_group 8 control 0 expected p0 data out in
          ref_loop fuel expected p0 (fst r) (snd r)
      end
  end.

Definition ref_decompress (data : bytes) (expected p0 : Z) : res bytes :=
  ref_loop (length data) expected p0 data [].

(** ** The ring is the end of the output *)

Record ring_ok (p0 : Z) st : Prop := {
  rk_length : zlen (sz_window st) = 4096;
  rk_position : sz_position st = (p0 + zlen (sz_out st)) mod 4096;
  rk_window : forall i, 0 <= i < 4096 -> nthb (sz_window st) i = lz_at (sz_out st) (ring_distance p0 (sz_out st) i);
}.

Lemma land_4095_mod z : Z.land z 4095 = z mod 4096.
Proof. apply (land_low z 12). lia. Qed.

Lemma lz_at_snoc out v d : 1 <= d -> lz_at (out ++ [v]) (d + 1) = lz_at out d.
Proof.
  intros Hd. unfold lz_at. rewrite zlen_app, zlen_cons, zlen_nil. pose proof (zlen_nonneg out).
  destruct (Z.leb_spec d (zlen out)).
  - destruct (Z.leb_spec (d + 1) (zlen out + (1 + 0))); [|lia]. rewrite nthb_app.
    destruct (Z.ltb_spec (zlen out + (1 + 0) - (d + 1)) (zlen out)); [|lia]. f_equal. lia.
  - destruct (Z.leb_spec (d + 1) (zlen out + (1 + 0))); [lia|done].
Qed.

Lemma lz_at_last out v : lz_at (out ++ [v]) 1 = v.
Proof.
  unfold lz_at. rewrite zlen_app, zlen_cons, zlen_nil. pose proof (zlen_nonneg out).
  destruct (Z.leb_spec 1 (zlen out + (1 + 0))); [|lia]. rewrite nthb_app.
  destruct (Z.ltb_spec (zlen out + (1 + 0) - 1) (zlen out)); [lia|].
  by replace (zlen out + (1 + 0) - 1 - zlen out) with 0 by lia.
Qed.

Lemma appendByte_ok p0 st v : ring_ok p0 st -> ring_ok p0 (appendByte st v).
Proof.
  intros [Hl Hp Hw]. split; simpl.
  - unfold zlen in *. by rewrite length_insert.
  - rewrite land_4095_mod, Hp, zlen_app, zlen_cons, zlen_nil. lia.
  - intros i Hi. rewrite nthb_insert by (rewrite ?Hl, ?Hp; lia).
    unfold ring_distance in *. rewrite zlen_app, zlen_cons, zlen_nil. case_decide as E.
    + replace ((p0 + (zlen (sz_out st) + (1 + 0)) - i - 1) mod 4096) with 0 by lia. by rewrite lz_at_last.
    + replace ((p0 + (zlen (sz_out st) + (1 + 0)) - i - 1) mod 4096 + 1)
        with ((p0 + zlen (sz_out st) - i - 1) mod 4096 + 1 + 1) by lia.
      rewrite lz_at_snoc by lia. by apply Hw.
Qed.

Lemma szdd_init_ok p0 : 0 <= p0 < 4096 -> ring_ok p0 (szdd_init p0).
Proof.
  intros Hp. split; cbn [sz_window sz_position sz_out szdd_init].
  - unfold zlen. by rewrite length_replicate.
  - rewrite zlen_nil. lia.
  - intros i Hi. unfold ring_distance, lz_at. rewrite zlen_nil.
    replace ((p0 + 0 - i - 1) mod 4096 + 1 <=? 0) with false by lia.
    rewrite <- (Z2Nat.id i) by lia. apply lookup_nthb. apply lookup_replicate. lia.
Qed.

Lemma szdd_copy_spec count p0 match_ expected st :
  ring_ok p0 st -> 0 <= match_ < 4096 ->
  ring_ok p0 (szdd_copy count match_ expected st) /\
  sz_out (szdd_copy count match_ expected st) =
    ref_copy count (ring_distance p0 (sz_out st) match_) expected (sz_out st).
Proof.
  revert match_ st. induction count as [|count IH]; intros match_ st Hok Hm; [done|]. simpl.
  destruct (zlen (sz_out st) <? expected); [|done].
  pose proof (appendByte_ok p0 st (nthb (sz_window st) match_) Hok) as Hok'.
  destruct (IH (Z.land (match_ + 1) 4095) (appendByte st (nthb (sz_window st) match_)) Hok') as [H1 H2].
  { rewrite land_4095_mod. lia. }
  split; [done|]. rewrite H2. simpl. rewrite (rk_window _ _ Hok) by done. f_equal.
  unfold ring_distance. rewrite land_4095_mod, zlen_app, zlen_cons, zlen_nil. lia.
Qed.

(** [mask] is the bit number [bit] of a byte, or has been shifted out. *)
Lemma mask_step bit : 0 <= bit < 7 -> u8 (Z.shiftl (Z.shiftl 1 bit) 1) = Z.shiftl 1 (bit + 1).
Proof.
  intros Hb. rewrite Z.shiftl_shiftl by lia. apply u8_id. rewrite Z.shiftl_mul_pow2 by lia.
  split; [lia|]. pose proof (Z.pow_lt_mono_r 2 (bit + 1) 8 ltac:(lia) ltac:(lia) ltac:(lia)). lia.
Qed.

Lemma match_fields b0 b1 :
  0 <= b0 < 256 -> 0 <= b1 < 256 ->
  Z.lor b0 (Z.shiftl (Z.land b1 0xf0) 4) = b0 + b1 / 16 * 256 /\ Z.land b1 0x0f = b1 mod 16.
Proof.
  intros H0 H1. split; [|by apply (land_low b1 4)].
  pose proof (land_shiftl b1 15 4 ltac:(lia)) as H. change (Z.shiftl 15 4) with 0xf0 in H.
  rewrite H, Z.shiftl_shiftl by lia. pose proof (land_low (Z.shiftr b1 4) 4 ltac:(lia)) as Hl.
  change (2 ^ 4 - 1) with 15 in Hl. rewrite Hl, Z.shiftr_div_pow2, Z.lor_comm by lia.
  change (4 + 4) with 8. rewrite lor_low by (simpl; lia). change (2 ^ 4) with 16. change (2 ^ 8) with 256. lia.
Qed.

(** What the two decoders have in common after a group. *)
Definition same_result (p0 : Z) (r : res (bytes * szdd_state)) (r' : res (bytes * bytes)) : Prop :=
  match r, r' with
  | Ok (data, st), Ok (data', out) => data = data' /\ ring_ok p0 st /\ sz_out st = out
  | Err e, Err e' => e = e'
  | _, _ => False
  end.

Lemma szdd_group_spec bits p0 control bit expected data st :
  ring_ok p0 st -> bytes_ok data -> 0 <= bit -> bit + Z.of_nat bits <= 8 ->
  same_result p0 (szdd_group bits control (Z.shiftl 1 bit) expected data st)
    (ref_group bits control bit expected p0 data (sz_out st)).
Proof.
  revert bit data st. induction bits as [|bits IH]; intros bit data st Hok Hb Hbit Hbits; [done|].
  cbn [szdd_group ref_group]. rewrite Z.leb_antisym. destruct (zlen (sz_out st) <? expected); [|done]. cbn [negb].
  rewrite land_pow2 by done.
  assert (Hnext : forall data st, ring_ok p0 st -> bytes_ok data ->
    same_result p0 (szdd_group bits control (u8 (Z.shiftl (Z.shiftl 1 bit) 1)) expected data st)
      (ref_group bits control (bit + 1) expected p0 data (sz_out st))).
  { intros data' st' Hok' Hb'. destruct bits as [|bits]; [done|]. rewrite mask_step by lia. apply IH; try done; lia. }
  destruct (Z.testbit control bit).
  - destruct data as [|v data]; [done|]. apply Forall_cons in Hb as [_ Hb].
    apply (Hnext data (appendByte st v)); [by apply appendByte_ok|done].
  - destruct data as [|b0 [|b1 data]]; [done..|].
    apply Forall_cons in Hb as [H0 [H1 Hb]%Forall_cons]. unfold byte_ok in H0, H1.
    destruct (match_fields b0 b1 H0 H1) as [-> ->].
    destruct (szdd_copy_spec (Z.to_nat (b1 mod 16 + 3)) p0 (b0 + b1 / 16 * 256) expected st Hok) as [Hc <-]; [lia|].
    by apply Hnext.
Qed.

Lemma ref_group_data bits control bit expected p0 data out data' out' :
  bytes_ok data -> ref_group bits control bit expected p0 data out = Ok (data', out') ->
  bytes_ok data' /\ (length data' <= length data)%nat.
Proof.
  revert bit data out. induction bits as [|bits IH]; intros bit data out Hb; simpl; [by intros [= <- <-]|].
  destruct (expected <=? zlen out); [by intros [= <- <-]|]. destruct (Z.testbit control bit).
  - destruct data as [|v data]; [done|]. apply Forall_cons in Hb as [_ Hb]. intros H%IH; [|done].
    simpl. split; [tauto|lia].
  - destruct data as [|b0 [|b1 data]]; [done..|]. apply Forall_cons in Hb as [_ [_ Hb]%Forall_cons].
    intros H%IH; [|done]. simpl. split; [tauto|lia].
Qed.

Lemma szdd_loop_spec fuel p0 expected data st :
  ring_ok p0 st -> bytes_ok data ->
  szdd_loop fuel expected data st = ref_loop fuel expected p0 data (sz_out st).
Proof.
  revert data st. induction fuel as [|fuel IH]; intros data st Hok Hb.
  all: cbn [szdd_loop ref_loop]; rewrite Z.leb_antisym; destruct (zlen (sz_out st) <? expected); [|done]; cbn [negb].
  { by destruct data. }
  destruct data as [|control data]; [done|]. apply Forall_cons in Hb as [_ Hb].
  pose proof (szdd_group_spec 8 p0 control 0 expected data st Hok Hb ltac:(lia) ltac:(lia)) as Hg.
  change (Z.shiftl 1 0) with 1 in Hg.
  destruct (szdd_group _ _ _ _ _ _) as [[d1 st1]|e1], (ref_group _ _ _ _ _ _ _) as [[d2 o2]|e2] eqn:Er;
    cbn [same_result res_bind fst snd] in Hg |- *; try done; [|congruence].
  destruct Hg as (<- & Hok1 & <-). apply IH; [done|].
  by destruct (ref_group_data _ _ _ _ _ _ _ _ _ Hb Er).
Qed.

(** ** Exact sizes *)

Lemma zlen_ref_copy count distance expected out :
  zlen out <= expected -> zlen (ref_copy count distance expected out) <= expected.
Proof.
  revert out. induction count as [|count IH]; intros out Ho; [done|]. simpl.
  destruct (Z.ltb_spec (zlen out) expected); [|done]. apply IH. rewrite zlen_app, zlen_cons, zlen_nil. lia.
Qed.

Lemma ref_group_total bits control bit expected p0 data out :
  zlen out <= expected ->
  returns (fun r => zlen (snd r) <= expected) (ref_group bits control bit expected p0 data out).
Proof.
  revert bit data out. induction bits as [|bits IH]; intros bit data out Ho; [done|]. cbn [ref_group].
  destruct (Z.leb_spec expected (zlen out)); [done|]. destruct (Z.testbit control bit).
  - destruct data as [|v data]; [done|]. apply IH. rewrite zlen_app, zlen_cons, zlen_nil. lia.
  - destruct data as [|b0 [|b1 data]]; [done..|]. apply IH. by apply zlen_ref_copy.
Qed.

Lemma ref_loop_total fuel expected p0 data out :
  bytes_ok data -> (length data <= fuel)%nat -> zlen out <= expected ->
  returns (fun o => zlen o = expected) (ref_loop fuel expected p0 data out).
Proof.
  revert data out. induction fuel as [|fuel IH]; intros data out Hb Hf Ho.
  all: cbn [ref_loop]; destruct (Z.leb_spec expected (zlen out)); [simpl; lia|].
  { by destruct data; simpl in Hf; [|lia]. }
  destruct data as [|control data]; [done|]. apply Forall_cons in Hb as [_ Hb].
  pose proof (ref_group_total 8 control 0 expected p0 data out Ho) as Ht.
  destruct (ref_group _ _ _ _ _ _ _) as [[d o]|e] eqn:Er; [|done]. cbn [res_bind fst snd].
  destruct (ref_group_data _ _ _ _ _ _ _ _ _ Hb Er). simpl in Hf. apply IH; [done|lia|done].
Qed.

(** C23.  The ring buffer is only an optimisation.  On every input, valid or
    not, and for either starting position, the decompressor with its 4096-byte
    ring returns what LZSS over the output itself returns, where a match
    counts back from the end of the output and spaces precede it; it always
    returns, and a success has exactly the expected size. *)
Theorem szdd_refines_lzss data expected p0 :
  bytes_ok data -> 0 <= expected -> 0 <= p0 < 4096 ->
  decompressSZDDWindow data expected p0 = ref_decompress data expected p0 /\
  returns (fun out => zlen out = expected) (decompressSZDDWindow data expected p0).
Proof.
  intros Hb He Hp. assert (Heq : decompressSZDDWindow data expected p0 = ref_decompress data expected p0).
  { apply (szdd_loop_spec _ p0); [by apply szdd_init_ok|done]. }
  rewrite Heq. split; [done|]. apply ref_loop_total; [done|lia|by rewrite zlen_nil].
Qed.

Lemma szdd_refines_lzss_witness :
  decompressSZDDWindow [7; 97; 98; 99; 0xf0; 0xf2; 0xee; 0xf0] 11 4080 = Ok [97; 98; 99; 97; 98; 99; 97; 98; 32; 32; 97].
Proof.
  destruct (szdd_refines_lzss [7; 97; 98; 99; 0xf0; 0xf2; 0xee; 0xf0] 11 4080) as [Heq _].
  - repeat constructor; discriminate.
  - lia.
  - lia.
  - rewrite Heq. vm_compute. reflexivity.
Defined.
