(* ===== verification/Hpet.v ===== *)
(** Package [vmm/cc]: the high precision event timer of the PC
    (src/vmm/cc/hpet.go).

    Times are nanoseconds; the zero [time.Time] is [None].  The interrupt
    controller behind [setIRQ] and [setLegacy] is not part of this code: it is
    a state [E] with two operations that may fail. *)

From S2P Require Import Prelude GoLib.
From stdpp Require Import base numbers list gmap sorting strings.

Open Scope Z_scope.
Open Scope trex_scope.

#[local] Ltac Zify.zify_post_hook ::= Z.to_euclidean_division_equations.

(** ** Data *)

Record hpetTimer := MkHpetTimer {
  ht_config : Z; ht_match : Z; ht_period : Z; ht_next : option Z; ht_asserted : bool;
}.

Record hpet := MkHpet {
  hp_config : Z; hp_status : Z; hp_base : Z; hp_started : Z; hp_timers : list hpetTimer;
}.

Implicit Types h : hpet.
Implicit Types t : hpetTimer.

Definition hpetAddress : Z := 0xfed00000.
Definition hpetCapabilities : Z :=
  Z.lor (Z.lor (Z.lor (Z.lor (Z.shiftl 10000000 32) (Z.shiftl 0x8086 16)) (Z.shiftl 1 13)) (Z.shiftl 2 8)) 1.
Definition hpetTimerCapabilities : Z := Z.lor (Z.lor (Z.shiftl 0x00f00000 32) (Z.shiftl 1 5)) (Z.shiftl 1 4).

(** [x & mask != 0]. *)
Definition has (x mask : Z) : bool := negb (Z.land x mask =? 0).

Definition zeroTimer : hpetTimer := MkHpetTimer 0 0 0 None false.

Definition newHPET (now : Z) : hpet :=
  MkHpet 0 0 0 now (replicate 3 (MkHpetTimer 0 MaxUint64 0 None false)).

Definition hpet_timer h (i : nat) : hpetTimer := default zeroTimer (hp_timers h !! i).

Definition set_timer h (i : nat) t : hpet :=
  MkHpet (hp_config h) (hp_status h) (hp_base h) (hp_started h) (<[i := t]> (hp_timers h)).

Definition set_next t (next : option Z) : hpetTimer :=
  MkHpetTimer (ht_config t) (ht_match t) (ht_period t) next (ht_asserted t).

Definition set_asserted t (asserted : bool) : hpetTimer :=
  MkHpetTimer (ht_config t) (ht_match t) (ht_period t) (ht_next t) asserted.

Definition set_status h (status : Z) : hpet :=
  MkHpet (hp_config h) status (hp_base h) (hp_started h) (hp_timers h).

Definition set_clock h (config base started : Z) : hpet :=
  MkHpet config (hp_status h) base started (hp_timers h).

(** [time.Time.Sub] saturates at the bounds of [time.Duration]. *)
Definition time_Sub (a b : Z) : Z := Z.max (-9223372036854775808) (Z.min MaxInt64 (a - b)).

(** ** The counter and the comparators *)

Definition hpet_counter h (now : Z) : Z :=
  if has (hp_config h) 1 then
    let d := Z.max 0 (time_Sub now (hp_started h)) in u64 (hp_base h + d / 10)
  else hp_base h.

(** The distance to the match, as the comparator counts it. *)
Definition arm_delta t (counter : Z) (afterMatch : bool) : Z :=
  let delta := u64 (ht_match t - counter) in
  if has (ht_config t) 0x100 then
    let delta := u32 delta in
    let delta := if afterMatch && (delta =? 0) then 0x100000000 else delta in
    if has (ht_config t) 8 then delta else Z.min delta (0x100000000 - u32 counter)
  else delta.

Definition armAfter h (i : nat) (now : Z) (afterMatch : bool) : hpet :=
  let t := set_next (hpet_timer h i) None in
  if negb (has (hp_config h) 1) then set_timer h i t
  else
    let delta := arm_delta t (hpet_counter h now) afterMatch in
    if MaxInt64 / 10 <? delta then set_timer h i t
    else set_timer h i (set_next t (Some (now + delta * 10))).

Definition hpet_arm h (i : nat) (now : Z) : hpet := armAfter h i now false.

Definition hpet_expire h (i : nat) (now : Z) : hpet :=
  let t := hpet_timer h i in
  let h := if has (ht_config t) 2 then set_status h (Z.lor (hp_status h) (Z.shiftl 1 (Z.of_nat i))) else h in
  let t := if has (ht_config t) 4 && has (ht_config t) 2 then set_asserted t true else t in
  if has (ht_config t) 8 && negb (ht_period t =? 0) then
    let steps :=
      match ht_next t with
      | Some next => if next <? now then u64 (1 + time_Sub now next / 10 / ht_period t) else 1
      | None => 1
      end in
    let m := u64 (ht_match t + u64 (steps * ht_period t)) in
    let m := if has (ht_config t) 0x100 then u32 m else m in
    hpet_arm (set_timer h i (MkHpetTimer (ht_config t) m (ht_period t) (ht_next t) (ht_asserted t))) i now
  else
    let h := set_timer h i (set_next t None) in
    if has (ht_config t) 0x100 then armAfter h i now true else h.

Definition hpet_irq h (i : nat) : Z :=
  if has (hp_config h) 2 && (i <? 2)%nat then (if (i =? 0)%nat then 0 else 8)
  else Z.land (Z.shiftr (ht_config (hpet_timer h i)) 9) 31.

Definition timer_ids : list nat := [0; 1; 2]%nat.

(** Another asserted timer drives the same line. *)
Definition line_shared h (i : nat) (irq : Z) : bool :=
  existsb (fun j => negb (j =? i)%nat && ht_asserted (hpet_timer h j) && (hpet_irq h j =? irq)) timer_ids.

(** ** Interrupts *)

Section Device.

Context {E : Type} (setIRQ : E -> Z -> bool -> E * option error)
  (setLegacy : option (E -> bool -> E * option error)).

Implicit Types e : E.

(** [h.delivery(i)()]: the closure captures the timer, its line and whether
    the line is shared. *)
Definition delivery h e (i : nat) : E * option error :=
  let t := hpet_timer h i in
  let irq := hpet_irq h i in
  if negb (has (ht_config t) 4) || ht_asserted t || line_shared h i irq then (e, None)
  else match setIRQ e irq true with
  | (e, Some err) => (e, Some err)
  | (e, None) => if has (ht_config t) 2 then (e, None) else setIRQ e irq false
  end.

(** A step over the device and the controller, and a loop that stops at the
    first error. *)
Definition hpet_action : Type := hpet * E -> (hpet * E) * option error.

Fixpoint each (ids : list nat) (f : nat -> hpet_action) (s : hpet * E) : (hpet * E) * option error :=
  match ids with
  | [] => (s, None)
  | i :: ids => match f i s with
               | (s, None) => each ids f s
               | r => r
               end
  end.

Definition hpet_poll (now : Z) : hpet_action :=
  each timer_ids (fun i s =>
    let '(h, e) := s in
    match ht_next (hpet_timer h i) with
    | Some next =>
        if next <=? now then
          match delivery h e i with
          | (e, Some err) => ((h, e), Some err)
          | (e, None) => ((hpet_expire h i now, e), None)
          end
        else (s, None)
    | None => (s, None)
    end).

(** The earliest pending interrupt: a comparator that may interrupt, is not
    latched and is armed. *)
Definition deadline_step h (best : option (nat * Z)) (i : nat) : option (nat * Z) :=
  let t := hpet_timer h i in
  if negb (has (ht_config t) 4) || ht_asserted t then best
  else match ht_next t, best with
  | None, _ => best
  | Some next, None => Some (i, next)
  | Some next, Some (_, b) => if next <? b then Some (i, next) else best
  end.

Definition hpet_deadline h : option (nat * Z) := foldl (deadline_step h) None timer_ids.

Definition hpet_read h (reg now : Z) : Z :=
  if reg =? 0 then
    match setLegacy with Some _ => Z.lor hpetCapabilities (Z.shiftl 1 15) | None => hpetCapabilities end
  else if reg =? 0x10 then hp_config h
  else if reg =? 0x20 then hp_status h
  else if reg =? 0xf0 then hpet_counter h now
  else if (0x100 <=? reg) && (reg <? 0x160) then
    let t := hpet_timer h (Z.to_nat ((reg - 0x100) / 0x20)) in
    if Z.land reg 0x1f =? 0 then Z.lor (ht_config t) hpetTimerCapabilities
    else if Z.land reg 0x1f =? 8 then ht_match t else 0
  else 0.

Definition hpet_lower (i : nat) : hpet_action := fun '(h, e) =>
  let t := hpet_timer h i in
  if negb (ht_asserted t) then ((h, e), None)
  else if line_shared h i (hpet_irq h i) then ((set_timer h i (set_asserted t false), e), None)
  else match setIRQ e (hpet_irq h i) false with
  | (e, Some err) => ((h, e), Some err)
  | (e, None) => ((set_timer h i (set_asserted t false), e), None)
  end.

(** [h.status&(1<<i) != 0 && config&6 == 6]. *)
Definition level_pending h (i : nat) : bool :=
  has (hp_status h) (Z.shiftl 1 (Z.of_nat i)) && (Z.land (ht_config (hpet_timer h i)) 6 =? 6).

Definition hpet_raise (i : nat) : hpet_action := fun '(h, e) =>
  match setIRQ e (hpet_irq h i) true with
  | (e, Some err) => ((h, e), Some err)
  | (e, None) => ((set_timer h i (set_asserted (hpet_timer h i) true), e), None)
  end.

(** Pending level status follows the newly selected route. *)
Definition raise_pending (i : nat) : hpet_action := fun s =>
  if level_pending (fst s) i && negb (ht_asserted (hpet_timer (fst s) i)) then hpet_raise i s else (s, None).

Definition arm_all h (now : Z) : hpet := foldl (fun h i => hpet_arm h i now) h timer_ids.

(** The write to the configuration register. *)
Definition write_config (merged now : Z) : hpet_action := fun '(h, e) =>
  let config := match setLegacy with Some _ => Z.land merged 3 | None => Z.land merged 1 end in
  let change : (hpet * E) * option error :=
    if has (Z.lxor (hp_config h) config) 2 then
      match each timer_ids hpet_lower (h, e) with
      | (s, Some err) => (s, Some err)
      | ((h, e), None) =>
          match setLegacy with
          | None => ((h, e), Some Panic)
          | Some f => let '(e, err) := f e (has config 2) in ((h, e), err)
          end
      end
    else ((h, e), None) in
  match change with
  | (s, Some err) => (s, Some err)
  | ((h, e), None) =>
      let h := set_clock h config (hpet_counter h now) now in
      match each timer_ids raise_pending (h, e) with
      | (s, Some err) => (s, Some err)
      | ((h, e), None) => ((arm_all h now, e), None)
      end
  end.

(** [a &^ m], on 64 bits. *)
Definition andnot (a m : Z) : Z := Z.ldiff a m.

(** The write of ones to the status register. *)
Definition write_status (bits : Z) : hpet_action :=
  each timer_ids (fun i s =>
    let '(h, e) := s in
    if has bits (Z.shiftl 1 (Z.of_nat i))
    then hpet_lower i (set_status h (andnot (hp_status h) (Z.shiftl 1 (Z.of_nat i))), e)
    else (s, None)).

(** The write to a comparator's configuration. *)
Definition write_timer_config (i : nat) (merged now : Z) : hpet_action := fun '(h, e) =>
  match hpet_lower i (h, e) with
  | (s, Some err) => (s, Some err)
  | ((h, e), None) =>
      let t := hpet_timer h i in
      let config := Z.land merged (Z.lor (Z.lor (Z.lor (Z.lor (Z.lor 2 4) 8) 64) 256) 0x3e00) in
      let h := set_timer h i (MkHpetTimer config (ht_match t) (ht_period t) (ht_next t) (ht_asserted t)) in
      match (if level_pending h i then hpet_raise i (h, e) else ((h, e), None)) with
      | (s, Some err) => (s, Some err)
      | ((h, e), None) => ((hpet_arm h i now, e), None)
      end
  end.

(** The write to a comparator's match register. *)
Definition write_timer_match h (i : nat) (merged value mask now : Z) : hpet :=
  let t := hpet_timer h i in
  let m := if negb (has (ht_config t) 8) || has (ht_config t) 64 then merged else ht_match t in
  let p := if has (ht_config t) 8 then Z.lor (andnot (ht_period t) mask) (Z.land value mask) else ht_period t in
  let '(m, p) := if has (ht_config t) 256 then (u32 m, u32 p) else (m, p) in
  hpet_arm (set_timer h i (MkHpetTimer (andnot (ht_config t) 64) m p (ht_next t) (ht_asserted t))) i now.

Definition hpet_write (reg value mask now : Z) : hpet_action := fun '(h, e) =>
  let merged := Z.lor (andnot (hpet_read h reg now) mask) (Z.land value mask) in
  if reg =? 0x10 then write_config merged now (h, e)
  else if reg =? 0x20 then write_status (Z.land value mask) (h, e)
  else if reg =? 0xf0 then ((arm_all (set_clock h (hp_config h) merged now) now, e), None)
  else if (reg <? 0x100) || (0x160 <=? reg) then ((h, e), None)
  else
    let i := Z.to_nat ((reg - 0x100) / 0x20) in
    if Z.land reg 0x1f =? 0 then write_timer_config i merged now (h, e)
    else if Z.land reg 0x1f =? 8 then ((write_timer_match h i merged value mask now, e), None)
    else ((h, e), None).

(** A memory access of the guest: [data] is what it writes, [None] for a
    read, whose value is returned. *)
Definition hpet_mmio (address size : Z) (data : option bytes) (now : Z) (s : hpet * E)
    : (hpet * E) * res Z :=
  if (size =? 0) || (8 <? size) || (8 <? Z.land address 7 + size)
  then (s, Err (Errorf "unaligned HPET access at %#x size %d"))
  else match hpet_poll now s with
  | (s, Some err) => (s, Err err)
  | (s, None) =>
      let offset := u64 (address - hpetAddress) in
      let shift := Z.land offset 7 * 8 in
      let reg := andnot offset 7 in
      match data with
      | None => (s, Ok (Z.shiftr (hpet_read (fst s) reg now) shift))
      | Some data =>
          let value := le_val (slice 0 size data) in
          let mask := if size <? 8 then Z.shiftl 1 (8 * size) - 1 else MaxUint64 in
          match hpet_write reg (u64 (Z.shiftl value shift)) (u64 (Z.shiftl mask shift)) now s with
          | (s, Some err) => (s, Err err)
          | (s, None) => (s, Ok 0)
          end
      end
  end.
End Device.

(** ** Bits *)

Lemma has_bit x (n : Z) : 0 <= n -> has x (Z.shiftl 1 n) = Z.testbit x n.
Proof. apply land_pow2. Qed.

Lemma has_2 x : has x 2 = Z.testbit x 1.
Proof. by apply (land_pow2 x 1). Qed.

Lemma has_4 x : has x 4 = Z.testbit x 2.
Proof. by apply (land_pow2 x 2). Qed.

Lemma testbit_6 n : 0 <= n -> Z.testbit 6 n = (n =? 1) || (n =? 2).
Proof.
  intros Hn. destruct (decide (n < 3)).
  - assert (n = 0 \/ n = 1 \/ n = 2) as [-> | [-> | ->]] by lia; done.
  - rewrite (Z.bits_above_log2 6 n) by (simpl; lia). lia.
Qed.

Lemma land_6 c : (Z.land c 6 =? 6) = has c 2 && has c 4.
Proof.
  rewrite has_2, has_4. apply eq_true_iff_eq. rewrite andb_true_iff, Z.eqb_eq. split.
  - intros H. split; [assert (F : Z.testbit (Z.land c 6) 1 = true) by (by rewrite H)
                     |assert (F : Z.testbit (Z.land c 6) 2 = true) by (by rewrite H)];
      rewrite Z.land_spec in F; by apply andb_true_iff in F as [? _].
  - intros [H1 H2]. apply Z.bits_inj'. intros n Hn. rewrite Z.land_spec, testbit_6 by done.
    destruct (Z.eqb_spec n 1) as [->|]; [by rewrite H1|].
    destruct (Z.eqb_spec n 2) as [->|]; [by rewrite H2|]. apply andb_false_r.
Qed.

Lemma land_ldiff a m k : Z.land m k = 0 -> Z.land (Z.ldiff a m) k = Z.land a k.
Proof.
  intros H. apply Z.bits_inj'. intros n Hn. rewrite !Z.land_spec, Z.ldiff_spec.
  assert (F : Z.testbit (Z.land m k) n = false) by (by rewrite H, Z.bits_0).
  rewrite Z.land_spec in F. by destruct (Z.testbit a n), (Z.testbit m n), (Z.testbit k n).
Qed.

(** ** What the lines show *)

(** The part of the device that the interrupt lines depend on. *)
Definition timer_on h (i : nat) : bool := ht_asserted (hpet_timer h i).

Definition lines_inv {E} (line : E -> Z -> bool) h (e : E) : Prop :=
  length (hp_timers h) = 3%nat /\
  forall k, line e k = existsb (fun i => timer_on h i && (hpet_irq h i =? k)) timer_ids.

Definition latch_inv h : Prop := forall i, (i < 3)%nat -> timer_on h i = level_pending h i.

(** [h'] differs from [h] at most in what is asserted, and asserts [on]. *)
Record asserts h h' (on : nat -> bool) : Prop := {
  aa_length : length (hp_timers h') = length (hp_timers h);
  aa_on : forall j, (j < 3)%nat -> timer_on h' j = on j;
  aa_irq : forall j, (j < 3)%nat -> hpet_irq h' j = hpet_irq h j;
  aa_pending : forall j, (j < 3)%nat -> level_pending h' j = level_pending h j;
  aa_legacy : has (hp_config h') 2 = has (hp_config h) 2;
}.

Lemma hpet_timer_set h (i j : nat) t :
  (i < length (hp_timers h))%nat -> hpet_timer (set_timer h i t) j = if decide (i = j) then t else hpet_timer h j.
Proof.
  intros Hi. unfold hpet_timer, set_timer. simpl. case_decide as E.
  - subst. by rewrite list_lookup_insert_eq.
  - by rewrite list_lookup_insert_ne.
Qed.

Lemma asserts_refl h : asserts h h (timer_on h).
Proof. by split. Qed.

Lemma asserts_trans h1 h2 h3 on on' : asserts h1 h2 on -> asserts h2 h3 on' -> asserts h1 h3 on'.
Proof.
  intros [A1 A2 A3 A4 A5] [B1 B2 B3 B4 B5]. split; try congruence; auto.
  - intros j Hj. by rewrite B3, A3.
  - intros j Hj. by rewrite B4, A4.
Qed.

Lemma asserts_ext h h' on on' : (forall j, (j < 3)%nat -> on j = on' j) -> asserts h h' on -> asserts h h' on'.
Proof. intros H [A1 A2 A3 A4 A5]. split; auto. intros j Hj. rewrite <- H; auto. Qed.

(** Replacing a timer by one with the same line, enables and trigger. *)
Lemma asserts_set h (i : nat) t :
  length (hp_timers h) = 3%nat -> (i < 3)%nat ->
  Z.land (Z.shiftr (ht_config t) 9) 31 = Z.land (Z.shiftr (ht_config (hpet_timer h i)) 9) 31 ->
  Z.land (ht_config t) 6 = Z.land (ht_config (hpet_timer h i)) 6 ->
  asserts h (set_timer h i t) (fun j => if decide (i = j) then ht_asserted t else timer_on h j).
Proof.
  intros Hl Hi H1 H2. split; simpl; try done.
  - by rewrite length_insert.
  - intros j Hj. unfold timer_on. rewrite hpet_timer_set by lia. by case_decide.
  - intros j Hj. unfold hpet_irq. rewrite hpet_timer_set by lia. simpl.
    destruct (_ && _); [done|]. case_decide; [by subst|done].
  - intros j Hj. unfold level_pending. rewrite hpet_timer_set by lia. simpl.
    case_decide; [by subst; rewrite H2|done].
Qed.

Lemma asserts_same h (i : nat) t :
  length (hp_timers h) = 3%nat -> (i < 3)%nat ->
  ht_config t = ht_config (hpet_timer h i) -> ht_asserted t = ht_asserted (hpet_timer h i) ->
  asserts h (set_timer h i t) (timer_on h).
Proof.
  intros Hl Hi H1 H2. eapply asserts_ext; [|apply asserts_set; [done|done|by rewrite H1..]].
  intros j Hj. simpl. unfold timer_on. case_decide; [by subst|done].
Qed.

Lemma armAfter_asserts h (i : nat) now after :
  length (hp_timers h) = 3%nat -> (i < 3)%nat -> asserts h (armAfter h i now after) (timer_on h).
Proof.
  intros Hl Hi. unfold armAfter. destruct (negb _); [by apply asserts_same|].
  destruct (_ <? _); by apply asserts_same.
Qed.

Lemma arm_all_asserts h now :
  length (hp_timers h) = 3%nat -> asserts h (arm_all h now) (timer_on h).
Proof.
  intros Hl. unfold arm_all, timer_ids. simpl.
  pose proof (armAfter_asserts h 0 now false Hl ltac:(lia)) as A1.
  pose proof (aa_length _ _ _ A1) as L1.
  pose proof (armAfter_asserts (hpet_arm h 0 now) 1 now false ltac:(unfold hpet_arm; lia) ltac:(lia)) as A2.
  pose proof (aa_length _ _ _ A2) as L2. unfold hpet_arm in *.
  pose proof (armAfter_asserts (armAfter (armAfter h 0 now false) 1 now false) 2 now false ltac:(lia) ltac:(lia)) as A3.
  eapply asserts_ext; [|eapply asserts_trans; [exact A1|]; eapply asserts_trans; [exact A2|exact A3]].
  intros j Hj. simpl. by rewrite (aa_on _ _ _ A2), (aa_on _ _ _ A1).
Qed.

Section Lines.

Context {E : Type} (setIRQ : E -> Z -> bool -> E * option error)
  (setLegacy : option (E -> bool -> E * option error)) (line : E -> Z -> bool).

(** A successful [setIRQ] sets the level of its line and of no other; a
    successful [setLegacy] moves no line. *)
Hypothesis setIRQ_line : forall e irq level e',
  setIRQ e irq level = (e', None) -> forall k, line e' k = if k =? irq then level else line e k.
Hypothesis setLegacy_line : forall f e on e',
  setLegacy = Some f -> f e on = (e', None) -> forall k, line e' k = line e k.

Definition hpet_inv (s : hpet * E) : Prop :=
  lines_inv line (fst s) (snd s) /\ latch_inv (fst s) /\
  (setLegacy = None -> has (hp_config (fst s)) 2 = false).

(** The levels after a step, read off the timers. *)
Lemma lines_step h h' e e' on :
  lines_inv line h e -> asserts h h' on ->
  (forall k, line e' k = existsb (fun i => on i && (hpet_irq h i =? k)) timer_ids) -> lines_inv line h' e'.
Proof.
  intros [Hl _] A He. split; [by rewrite (aa_length _ _ _ A)|]. intros k. rewrite He. simpl.
  rewrite !(aa_on _ _ _ A), !(aa_irq _ _ _ A) by lia. done.
Qed.

Lemma lines_keep h h' e : lines_inv line h e -> asserts h h' (timer_on h) -> lines_inv line h' e.
Proof. intros H A. eapply lines_step; [done|done|]. apply H. Qed.

Definition with_on (on : nat -> bool) (i : nat) (b : bool) (j : nat) : bool := if decide (i = j) then b else on j.

(** Whether another timer holds the line. *)
Lemma line_shared_spec h (i : nat) irq :
  line_shared h i irq = existsb (fun j => with_on (timer_on h) i false j && (hpet_irq h j =? irq)) timer_ids.
Proof.
  unfold line_shared. apply eq_true_iff_eq. rewrite !existsb_exists.
  split; intros (j & Hj & H); exists j; (split; [done|]); unfold with_on, timer_on in *; case_decide;
    destruct (Nat.eqb_spec j i); subst; simpl in *; done.
Qed.

Lemma raise_lines h e e' (i : nat) :
  (i < 3)%nat -> lines_inv line h e -> (forall k, line e' k = if k =? hpet_irq h i then true else line e k) ->
  forall k, line e' k = existsb (fun j => with_on (timer_on h) i true j && (hpet_irq h j =? k)) timer_ids.
Proof.
  intros Hi [_ Hinv] He k. rewrite He, Hinv. unfold with_on, timer_ids. simpl.
  assert (i = 0 \/ i = 1 \/ i = 2)%nat as [-> | [-> | ->]] by lia; simpl;
    rewrite (Z.eqb_sym k); destruct (_ =? k) eqn:?;
    repeat (rewrite ?orb_true_r, ?orb_false_r, ?andb_true_r, ?andb_false_r; simpl); try done;
    repeat (destruct (timer_on h _); simpl; try done).
Qed.

Lemma lower_lines h e e' (i : nat) :
  (i < 3)%nat -> lines_inv line h e ->
  (forall k, line e' k = if k =? hpet_irq h i then line_shared h i (hpet_irq h i) else line e k) ->
  forall k, line e' k = existsb (fun j => with_on (timer_on h) i false j && (hpet_irq h j =? k)) timer_ids.
Proof.
  intros Hi [_ Hinv] He k. rewrite He. destruct (Z.eqb_spec k (hpet_irq h i)) as [->|Hne]; [apply line_shared_spec|].
  rewrite Hinv. unfold with_on, timer_ids. simpl.
  assert (Hk : (hpet_irq h i =? k) = false) by (apply Z.eqb_neq; congruence).
  assert (i = 0 \/ i = 1 \/ i = 2)%nat as [-> | [-> | ->]] by lia; simpl; rewrite Hk, andb_false_r; done.
Qed.

Lemma with_on_same h (i j : nat) b : timer_on h i = b -> with_on (timer_on h) i b j = timer_on h j.
Proof. intros H. unfold with_on. case_decide; [by subst|done]. Qed.

(** ** The steps *)

Lemma hpet_lower_spec h e h' e' (i : nat) :
  (i < 3)%nat -> lines_inv line h e -> hpet_lower setIRQ i (h, e) = ((h', e'), None) ->
  asserts h h' (with_on (timer_on h) i false) /\ lines_inv line h' e'.
Proof.
  intros Hi Hinv. pose proof Hinv as [Hl Hline]. unfold hpet_lower.
  destruct (ht_asserted (hpet_timer h i)) eqn:Ea; simpl; cycle 1.
  { intros [= <- <-]. split; [|done]. eapply asserts_ext; [|apply asserts_refl].
    intros j _. symmetry. by apply with_on_same. }
  assert (A : asserts h (set_timer h i (set_asserted (hpet_timer h i) false)) (with_on (timer_on h) i false))
    by (by apply asserts_set).
  assert (L : forall e', (forall k, line e' k = if k =? hpet_irq h i then line_shared h i (hpet_irq h i) else line e k) ->
    lines_inv line (set_timer h i (set_asserted (hpet_timer h i) false)) e').
  { intros e1 He. eapply lines_step; [exact Hinv|exact A|]. by apply (lower_lines h e e1). }
  destruct (line_shared h i (hpet_irq h i)) eqn:Es.
  - intros [= <- <-]. split; [done|]. apply L. intros k. destruct (Z.eqb_spec k (hpet_irq h i)) as [->|]; [|done].
    rewrite Hline. apply existsb_exists. exists i. split; [apply list_elem_of_In|].
    + assert (i = 0 \/ i = 1 \/ i = 2)%nat as [-> | [-> | ->]] by lia; set_solver.
    + unfold timer_on. by rewrite Ea, Z.eqb_refl.
  - destruct (setIRQ e (hpet_irq h i) false) as [e1 [err|]] eqn:Eq; [done|]. intros [= <- <-].
    split; [done|]. apply L. by apply setIRQ_line.
Qed.

Lemma hpet_raise_spec h e h' e' (i : nat) :
  (i < 3)%nat -> lines_inv line h e -> hpet_raise setIRQ i (h, e) = ((h', e'), None) ->
  asserts h h' (with_on (timer_on h) i true) /\ lines_inv line h' e'.
Proof.
  intros Hi Hinv. pose proof Hinv as [Hl Hline]. unfold hpet_raise.
  destruct (setIRQ e (hpet_irq h i) true) as [e1 [err|]] eqn:Eq; [done|]. intros [= <- <-].
  assert (A : asserts h (set_timer h i (set_asserted (hpet_timer h i) true)) (with_on (timer_on h) i true))
    by (by apply asserts_set).
  split; [done|]. eapply lines_step; [exact Hinv|exact A|]. apply (raise_lines h e e1); [done|done|]. by apply setIRQ_line.
Qed.

(** A loop whose steps preserve [P]. *)
Lemma each_spec (P : hpet * E -> Prop) ids f s s' :
  (forall i s s', i ∈ ids -> P s -> f i s = (s', None) -> P s') -> P s -> each ids f s = (s', None) -> P s'.
Proof.
  revert s. induction ids as [|i ids IH]; intros s Hf Hs; simpl; [by intros [= <-]|].
  destruct (f i s) as [s1 [err|]] eqn:E1; [done|]. intros H.
  apply (IH s1); [|apply (Hf i s s1); [set_solver|done|done]|done].
  intros j a b Hj. apply Hf. set_solver.
Qed.

Lemma in_timer_ids (i : nat) : i ∈ timer_ids <-> (i < 3)%nat.
Proof.
  unfold timer_ids. rewrite !elem_of_cons, elem_of_nil. lia.
Qed.

(** [expire] records what [delivery] has signalled. *)
Lemma expire_asserts h (i : nat) now :
  length (hp_timers h) = 3%nat -> (i < 3)%nat ->
  let c := ht_config (hpet_timer h i) in
  asserts (if has c 2 then set_status h (Z.lor (hp_status h) (Z.shiftl 1 (Z.of_nat i))) else h) (hpet_expire h i now)
    (with_on (timer_on h) i (has c 4 && has c 2 || timer_on h i)).
Proof.
  intros Hl Hi c. unfold hpet_expire. fold c. set (t := hpet_timer h i) in *.
  set (h1 := if has c 2 then _ else h).
  assert (Hl1 : length (hp_timers h1) = 3%nat) by (unfold h1; by destruct (has c 2)).
  assert (Ht1 : forall j, hpet_timer h1 j = hpet_timer h j) by (intros; unfold h1; by destruct (has c 2)).
  set (t1 := if has c 4 && has c 2 then set_asserted t true else t).
  assert (Hc1 : ht_config t1 = c) by (unfold t1; by destruct (_ && _)).
  assert (Ha1 : ht_asserted t1 = has c 4 && has c 2 || timer_on h i)
    by (unfold t1, timer_on; by destruct (_ && _)).
  assert (Hset : forall t', ht_config t' = ht_config t1 -> ht_asserted t' = ht_asserted t1 ->
    asserts h1 (set_timer h1 i t') (with_on (timer_on h) i (has c 4 && has c 2 || timer_on h i))).
  { intros t' E1 E2. eapply asserts_ext; [|apply asserts_set; [done|done|by rewrite E1, Hc1, Ht1..]].
    intros j Hj. unfold with_on. simpl. rewrite E2, Ha1. unfold timer_on. by rewrite Ht1. }
  assert (Harm : forall h2 after, asserts h1 h2 (with_on (timer_on h) i (has c 4 && has c 2 || timer_on h i)) ->
    asserts h1 (armAfter h2 i now after) (with_on (timer_on h) i (has c 4 && has c 2 || timer_on h i))).
  { intros h2 after A. eapply asserts_ext; [|eapply asserts_trans; [exact A|apply armAfter_asserts; [|done]]].
    - intros j Hj. by apply (aa_on _ _ _ A).
    - by rewrite (aa_length _ _ _ A). }
  destruct (_ && negb _); [apply Harm, Hset; done|].
  destruct (has (ht_config t1) 256); [apply Harm|]; by apply Hset.
Qed.

Lemma delivery_lines h e e' (i : nat) :
  (i < 3)%nat -> lines_inv line h e -> latch_inv h -> delivery setIRQ h e i = (e', None) ->
  let c := ht_config (hpet_timer h i) in
  forall k, line e' k =
    existsb (fun j => with_on (timer_on h) i (has c 4 && has c 2 || timer_on h i) j && (hpet_irq h j =? k)) timer_ids.
Proof.
  intros Hi Hinv Hlatch Hd c. pose proof Hinv as [Hl Hline]. unfold delivery in Hd. fold c in Hd.
  pose proof (Hlatch i Hi) as Hon. unfold level_pending in Hon. fold c in Hon. rewrite land_6 in Hon.
  assert (Hsame : forall b, timer_on h i = b -> forall k, line e k =
    existsb (fun j => with_on (timer_on h) i b j && (hpet_irq h j =? k)) timer_ids).
  { intros b Hb k. rewrite Hline. simpl. by rewrite !with_on_same. }
  destruct (has c 4) eqn:E4; simpl in Hd; [|injection Hd as <-; by apply Hsame].
  fold (timer_on h i) in Hd. destruct (timer_on h i) eqn:Ea; simpl in Hd.
  { injection Hd as <-. rewrite orb_true_r. by apply Hsame. }
  destruct (line_shared h i (hpet_irq h i)) eqn:Es.
  - injection Hd as <-. destruct (has c 2); simpl; [|by apply Hsame]. apply (raise_lines h e e); [done|done|].
    intros k. destruct (Z.eqb_spec k (hpet_irq h i)) as [->|]; [|done]. rewrite Hline.
    rewrite line_shared_spec in Es. simpl in Es |- *. by rewrite !with_on_same in Es.
  - destruct (setIRQ e (hpet_irq h i) true) as [e1 [err|]] eqn:E1; [done|].
    pose proof (setIRQ_line _ _ _ _ E1) as Hl1. destruct (has c 2) eqn:E2; simpl.
    + injection Hd as <-. by apply (raise_lines h e e1).
    + apply (lower_lines h e e'); [done|done|]. intros k. rewrite (setIRQ_line _ _ _ _ Hd), Es.
      destruct (Z.eqb_spec k (hpet_irq h i)); [done|]. rewrite Hl1. by destruct (Z.eqb_spec k (hpet_irq h i)).
Qed.

Lemma delivery_expire h e e' now (i : nat) :
  (i < 3)%nat -> hpet_inv (h, e) -> delivery setIRQ h e i = (e', None) -> hpet_inv (hpet_expire h i now, e').
Proof.
  intros Hi (Hinv & Hlatch & Hleg) Hd. simpl in *. pose proof Hinv as [Hl _].
  pose proof (expire_asserts h i now Hl Hi) as A. cbv zeta in A. set (c := ht_config (hpet_timer h i)) in *.
  pose proof (delivery_lines h e e' i Hi Hinv Hlatch Hd) as Hline. cbv zeta in Hline. fold c in Hline.
  set (h1 := if has c 2 then _ else h) in A.
  assert (Ht1 : forall j, hpet_timer h1 j = hpet_timer h j) by (intros; unfold h1; by destruct (has c 2)).
  assert (Hi1 : forall j, hpet_irq h1 j = hpet_irq h j) by (intros; unfold h1; by destruct (has c 2)).
  split_and!; simpl.
  - eapply (lines_step h1); [|exact A|].
    + split; [by unfold h1; destruct (has c 2)|]. intros k. rewrite (proj2 Hinv). simpl. unfold timer_on.
      by rewrite !Ht1, !Hi1.
    + intros k. rewrite Hline. simpl. by rewrite !Hi1.
  - intros j Hj. rewrite (aa_on _ _ _ A), (aa_pending _ _ _ A) by done. unfold with_on. specialize (Hlatch j Hj).
    unfold level_pending in *. rewrite Ht1, has_bit in * by lia. case_decide as Hij.
    + subst j. fold c in Hlatch |- *. rewrite Hlatch, land_6. unfold h1. destruct (has c 2); simpl.
      * rewrite Z.lor_spec, Z.shiftl_spec, Z.sub_diag by lia. simpl. rewrite orb_true_r.
        by destruct (has c 4), (Z.testbit _ _).
      * by rewrite !andb_false_r.
    + rewrite Hlatch. f_equal. unfold h1. destruct (has c 2); [|done]. simpl.
      rewrite Z.lor_spec, Z.shiftl_spec by lia. destruct (decide (j < i)%nat).
      * by rewrite (Z.testbit_neg_r 1) by lia; rewrite orb_false_r.
      * rewrite (Z.bits_above_log2 1) by (simpl; lia). by rewrite orb_false_r.
  - intros Hn. rewrite (aa_legacy _ _ _ A). unfold h1. destruct (has c 2); by apply Hleg.
Qed.

Lemma hpet_poll_inv now s s' : hpet_inv s -> hpet_poll setIRQ now s = (s', None) -> hpet_inv s'.
Proof.
  intros Hs. apply each_spec; [|done]. intros i [h e] s1 Hi Hinv. apply in_timer_ids in Hi.
  destruct (ht_next (hpet_timer h i)) as [next|]; [|by intros [= <-]].
  destruct (next <=? now); [|by intros [= <-]].
  destruct (delivery setIRQ h e i) as [e1 [err|]] eqn:Ed; [done|]. intros [= <-].
  by apply (delivery_expire h e e1).
Qed.

(** ** Register writes *)

Lemma lower_all h e h' e' :
  lines_inv line h e -> each timer_ids (hpet_lower setIRQ) (h, e) = ((h', e'), None) ->
  asserts h h' (fun _ => false) /\ lines_inv line h' e'.
Proof.
  intros Hinv. unfold timer_ids. cbn [each].
  destruct (hpet_lower setIRQ 0 (h, e)) as [[h1 e1] [err|]] eqn:E1; [done|].
  destruct (hpet_lower setIRQ 1 (h1, e1)) as [[h2 e2] [err|]] eqn:E2; [done|].
  destruct (hpet_lower setIRQ 2 (h2, e2)) as [[h3 e3] [err|]] eqn:E3; [done|]. intros [= <- <-].
  destruct (hpet_lower_spec _ _ _ _ 0 ltac:(lia) Hinv E1) as [A1 L1].
  destruct (hpet_lower_spec _ _ _ _ 1 ltac:(lia) L1 E2) as [A2 L2].
  destruct (hpet_lower_spec _ _ _ _ 2 ltac:(lia) L2 E3) as [A3 L3]. split; [|done].
  eapply asserts_ext; [|eapply asserts_trans; [exact A1|]; eapply asserts_trans; [exact A2|exact A3]].
  intros j Hj. unfold with_on. case_decide; [done|]. rewrite (aa_on _ _ _ A2) by done. unfold with_on.
  case_decide; [done|]. rewrite (aa_on _ _ _ A1) by done. unfold with_on. case_decide; [done|lia].
Qed.

Definition on_pending h : Prop := forall j, (j < 3)%nat -> timer_on h j = true -> level_pending h j = true.

Lemma raise_step h e h' e' (i : nat) :
  (i < 3)%nat -> lines_inv line h e -> on_pending h -> raise_pending setIRQ i (h, e) = ((h', e'), None) ->
  asserts h h' (with_on (timer_on h) i (level_pending h i)) /\ lines_inv line h' e' /\ on_pending h'.
Proof.
  intros Hi Hinv Hon Hr. assert (H : asserts h h' (with_on (timer_on h) i (level_pending h i)) /\ lines_inv line h' e').
  { unfold raise_pending in Hr. simpl in Hr. fold (timer_on h i) in Hr.
    destruct (level_pending h i) eqn:Ep, (timer_on h i) eqn:Ea; simpl in Hr.
    - injection Hr as <- <-. split; [|done]. eapply asserts_ext; [|apply asserts_refl].
      intros j _. symmetry. by apply with_on_same.
    - by apply (hpet_raise_spec h e).
    - by rewrite (Hon i Hi Ea) in Ep.
    - injection Hr as <- <-. split; [|done]. eapply asserts_ext; [|apply asserts_refl].
      intros j _. symmetry. by apply with_on_same. }
  destruct H as [A L]. split_and!; [done|done|]. intros j Hj. rewrite (aa_on _ _ _ A), (aa_pending _ _ _ A) by done.
  unfold with_on. case_decide; [by subst|]. by apply Hon.
Qed.

Lemma raise_all h e h' e' :
  lines_inv line h e -> on_pending h -> each timer_ids (raise_pending setIRQ) (h, e) = ((h', e'), None) ->
  asserts h h' (level_pending h) /\ lines_inv line h' e'.
Proof.
  intros Hinv Hon. unfold timer_ids. cbn [each].
  destruct (raise_pending setIRQ 0 (h, e)) as [[h1 e1] [err|]] eqn:E1; [done|].
  destruct (raise_pending setIRQ 1 (h1, e1)) as [[h2 e2] [err|]] eqn:E2; [done|].
  destruct (raise_pending setIRQ 2 (h2, e2)) as [[h3 e3] [err|]] eqn:E3; [done|]. intros [= <- <-].
  destruct (raise_step _ _ _ _ 0 ltac:(lia) Hinv Hon E1) as (A1 & L1 & O1).
  destruct (raise_step _ _ _ _ 1 ltac:(lia) L1 O1 E2) as (A2 & L2 & O2).
  destruct (raise_step _ _ _ _ 2 ltac:(lia) L2 O2 E3) as (A3 & L3 & O3). split; [|done].
  eapply asserts_ext; [|eapply asserts_trans; [exact A1|]; eapply asserts_trans; [exact A2|exact A3]].
  intros j Hj. unfold with_on. case_decide as H3; [subst; by rewrite (aa_pending _ _ _ A2), (aa_pending _ _ _ A1)|].
  rewrite (aa_on _ _ _ A2) by done. unfold with_on. case_decide as H2; [subst; by rewrite (aa_pending _ _ _ A1)|].
  rewrite (aa_on _ _ _ A1) by done. unfold with_on. case_decide as H1; [by subst|lia].
Qed.

Lemma inv_asserts h h' e on :
  hpet_inv (h, e) -> asserts h h' on -> (forall j, (j < 3)%nat -> on j = timer_on h j) -> hpet_inv (h', e).
Proof.
  intros (Hl & Hlatch & Hleg) A Hon. simpl in *.
  assert (A' : asserts h h' (timer_on h)) by (by eapply asserts_ext).
  split_and!; simpl.
  - by eapply lines_keep.
  - intros j Hj. rewrite (aa_on _ _ _ A'), (aa_pending _ _ _ A') by done. by apply Hlatch.
  - intros Hn. rewrite (aa_legacy _ _ _ A). by apply Hleg.
Qed.

Lemma inv_arm_all h e now : hpet_inv (h, e) -> hpet_inv (arm_all h now, e).
Proof. intros H. eapply inv_asserts; [done|apply arm_all_asserts, H|done]. Qed.

Lemma inv_arm h e now (i : nat) : (i < 3)%nat -> hpet_inv (h, e) -> hpet_inv (hpet_arm h i now, e).
Proof. intros Hi H. eapply inv_asserts; [done|apply armAfter_asserts; [apply H|done]|done]. Qed.

Lemma irq_clock h config base started (j : nat) :
  has config 2 = has (hp_config h) 2 -> hpet_irq (set_clock h config base started) j = hpet_irq h j.
Proof. intros H. unfold hpet_irq. simpl. by rewrite H. Qed.

Lemma has_lxor_2 a b : has (Z.lxor a b) 2 = false -> has b 2 = has a 2.
Proof. rewrite !has_2, Z.lxor_spec. by destruct (Z.testbit a 1), (Z.testbit b 1). Qed.

(** The state in which pending interrupts are asserted again. *)
Lemma config_ready h e config base started :
  lines_inv line h e -> (has config 2 = has (hp_config h) 2 \/ forall j, (j < 3)%nat -> timer_on h j = false) ->
  on_pending h -> lines_inv line (set_clock h config base started) e /\ on_pending (set_clock h config base started).
Proof.
  intros [Hl Hline] Hc Hon. split; [|exact Hon]. split; [done|]. intros k. rewrite Hline.
  destruct Hc as [Hc|Hoff]; simpl.
  - by rewrite !(irq_clock h config base started) by done.
  - unfold timer_on in *. simpl. rewrite !Hoff by lia. unfold hpet_timer in *. simpl in *.
    by rewrite !Hoff by lia.
Qed.

Lemma write_config_inv merged now s s' :
  hpet_inv s -> write_config setIRQ setLegacy merged now s = (s', None) -> hpet_inv s'.
Proof.
  destruct s as [h e]. intros (Hinv & Hlatch & Hleg). simpl in Hinv, Hlatch, Hleg. unfold write_config.
  set (config := match setLegacy with Some _ => _ | None => _ end).
  assert (Hpend : on_pending h) by (intros j Hj Hon; rewrite <- (Hlatch j Hj); done).
  assert (Hcfg : setLegacy = None -> has config 2 = false).
  { intros Hn. unfold config, has. rewrite Hn. by rewrite <- Z.land_assoc, Z.land_0_r. }
  assert (Hend : forall h1 e1 s1, lines_inv line h1 e1 -> on_pending h1 ->
    (has config 2 = has (hp_config h1) 2 \/ forall j, (j < 3)%nat -> timer_on h1 j = false) ->
    match each timer_ids (raise_pending setIRQ) (set_clock h1 config (hpet_counter h1 now) now, e1) with
    | (s, Some err) => (s, Some err)
    | ((h, e), None) => ((arm_all h now, e), None)
    end = (s1, None) -> hpet_inv s1).
  { intros h1 e1 s1 L1 P1 C1.
    destruct (config_ready h1 e1 config (hpet_counter h1 now) now L1 C1 P1) as [L2 P2].
    destruct (each _ _ _) as [[h3 e3] [err|]] eqn:E3; [done|]. intros [= <-].
    destruct (raise_all _ _ _ _ L2 P2 E3) as [A3 L3]. apply inv_arm_all. split_and!; simpl.
    - done.
    - intros j Hj. by rewrite (aa_on _ _ _ A3), (aa_pending _ _ _ A3) by done.
    - intros Hn. rewrite (aa_legacy _ _ _ A3). by apply Hcfg. }
  destruct (has (Z.lxor (hp_config h) config) 2) eqn:Ex; [|intros H; eapply Hend; [..|exact H]; auto using has_lxor_2].
  destruct (each timer_ids (hpet_lower setIRQ) (h, e)) as [[h1 e1] [err|]] eqn:E1; [done|].
  destruct (lower_all h e h1 e1 Hinv E1) as [A1 L1].
  assert (Hoff : forall j, (j < 3)%nat -> timer_on h1 j = false) by apply A1.
  destruct setLegacy as [f|] eqn:Es; [|done].
  destruct (f e1 (has config 2)) as [e2 [err|]] eqn:E2; [done|].
  intros H. eapply Hend; [..|exact H].
  - split; [apply L1|]. intros k. rewrite (setLegacy_line f e1 (has config 2) e2 eq_refl E2). apply L1.
  - intros j Hj Hon. by rewrite Hoff in Hon.
  - by right.
Qed.

Lemma status_bit_other status (i j : nat) :
  j <> i -> Z.testbit (Z.ldiff status (Z.shiftl 1 (Z.of_nat i))) (Z.of_nat j) = Z.testbit status (Z.of_nat j).
Proof.
  intros Hne. rewrite Z.ldiff_spec, Z.shiftl_spec by lia. destruct (decide (j < i)%nat).
  - rewrite (Z.testbit_neg_r 1) by lia. apply andb_true_r.
  - rewrite (Z.bits_above_log2 1) by (simpl; lia). apply andb_true_r.
Qed.

Lemma write_status_inv bits s s' : hpet_inv s -> write_status setIRQ bits s = (s', None) -> hpet_inv s'.
Proof.
  intros Hs. apply each_spec; [|done]. intros i [h e] [h' e'] Hi (Hinv & Hlatch & Hleg). apply in_timer_ids in Hi.
  simpl in Hinv, Hlatch, Hleg. destruct (has bits _); [|by intros [= <- <-]].
  set (h1 := set_status h _). intros Hlow.
  destruct (hpet_lower_spec h1 e h' e' i Hi Hinv Hlow) as [A L]. split_and!; simpl; [done| |].
  - intros j Hj. rewrite (aa_on _ _ _ A), (aa_pending _ _ _ A) by done. unfold with_on.
    specialize (Hlatch j Hj). unfold level_pending in *. rewrite has_bit in * by lia. simpl. case_decide as Hij.
    + subst. unfold andnot. rewrite Z.ldiff_spec, Z.shiftl_spec, Z.sub_diag by lia. simpl.
      by rewrite andb_false_r.
    + unfold andnot. rewrite status_bit_other by done. exact Hlatch.
  - intros Hn. rewrite (aa_legacy _ _ _ A). by apply Hleg.
Qed.

(** A timer that is off may change its line. *)
Lemma lines_reconfig h e (i : nat) t :
  (i < 3)%nat -> lines_inv line h e -> timer_on h i = false -> ht_asserted t = false ->
  lines_inv line (set_timer h i t) e.
Proof.
  intros Hi [Hl Hline] Hoff Ht. split; [simpl; by rewrite length_insert|]. intros k. rewrite Hline.
  assert (Hsame : forall j, (j < 3)%nat -> timer_on h j && (hpet_irq h j =? k) =
    timer_on (set_timer h i t) j && (hpet_irq (set_timer h i t) j =? k)).
  { intros j Hj. unfold timer_on, hpet_irq in *. rewrite hpet_timer_set by lia. simpl.
    case_decide as Hij; [|done]. subst. by rewrite Hoff, Ht. }
  simpl. by rewrite <- !Hsame by lia.
Qed.

Lemma write_timer_config_inv (i : nat) merged now s s' :
  (i < 3)%nat -> hpet_inv s -> write_timer_config setIRQ i merged now s = (s', None) -> hpet_inv s'.
Proof.
  intros Hi. destruct s as [h e]. intros (Hinv & Hlatch & Hleg). simpl in Hinv, Hlatch, Hleg. unfold write_timer_config.
  destruct (hpet_lower setIRQ i (h, e)) as [[h1 e1] [err|]] eqn:E1; [done|].
  destruct (hpet_lower_spec _ _ _ _ i Hi Hinv E1) as [A1 L1].
  set (t := MkHpetTimer _ _ _ _ _). set (h2 := set_timer h1 i t).
  assert (Hoff : timer_on h1 i = false) by (rewrite (aa_on _ _ _ A1) by done; unfold with_on; by rewrite decide_True).
  assert (L2 : lines_inv line h2 e1) by (by apply lines_reconfig).
  assert (Hl1 : length (hp_timers h1) = 3%nat) by apply L1.
  assert (Hon2 : forall j, (j < 3)%nat -> j <> i -> timer_on h2 j = level_pending h2 j).
  { intros j Hj Hij. unfold timer_on, level_pending, h2. rewrite hpet_timer_set by lia. rewrite decide_False by congruence.
    fold (timer_on h1 j). simpl. fold (level_pending h1 j).
    rewrite (aa_on _ _ _ A1), (aa_pending _ _ _ A1) by done. unfold with_on. rewrite decide_False by congruence.
    by apply Hlatch. }
  assert (Hoff2 : timer_on h2 i = false).
  { unfold timer_on, h2. rewrite hpet_timer_set by lia. by rewrite decide_True. }
  assert (Hleg2 : setLegacy = None -> has (hp_config h2) 2 = false).
  { intros Hn. simpl. rewrite (aa_legacy _ _ _ A1). by apply Hleg. }
  destruct (level_pending h2 i) eqn:Ep.
  - destruct (hpet_raise setIRQ i (h2, e1)) as [[h3 e3] [err|]] eqn:E3; [done|]. intros [= <-].
    destruct (hpet_raise_spec _ _ _ _ i Hi L2 E3) as [A3 L3]. apply inv_arm; [done|]. split_and!; simpl; [done| |].
    + intros j Hj. rewrite (aa_on _ _ _ A3), (aa_pending _ _ _ A3) by done. unfold with_on.
      case_decide; [by subst|]. by apply Hon2.
    + intros Hn. rewrite (aa_legacy _ _ _ A3). by apply Hleg2.
  - intros [= <-]. apply inv_arm; [done|]. split_and!; simpl; [done| |done].
    intros j Hj. destruct (decide (j = i)) as [->|]; [by rewrite Hoff2, Ep|by apply Hon2].
Qed.

Lemma write_timer_match_inv h e (i : nat) merged value mask now :
  (i < 3)%nat -> hpet_inv (h, e) -> hpet_inv (write_timer_match h i merged value mask now, e).
Proof.
  intros Hi Hs. unfold write_timer_match. set (t := hpet_timer h i).
  destruct (if has (ht_config t) 256 then _ else _) as [m p]. apply inv_arm; [done|].
  eapply inv_asserts; [done|apply asserts_set; [apply Hs|done|..]|]; simpl.
  - unfold andnot. by rewrite Z.shiftr_ldiff, Z.ldiff_0_r.
  - unfold andnot. by rewrite land_ldiff.
  - intros j Hj. unfold timer_on. case_decide; [by subst|done].
Qed.

Lemma hpet_write_inv reg value mask now s s' :
  0 <= reg -> hpet_inv s -> hpet_write setIRQ setLegacy reg value mask now s = (s', None) -> hpet_inv s'.
Proof.
  intros Hr. destruct s as [h e]. intros Hs. unfold hpet_write.
  destruct (reg =? 0x10); [by apply write_config_inv|]. destruct (reg =? 0x20); [by apply write_status_inv|].
  destruct (reg =? 0xf0); [intros [= <-]; by apply inv_arm_all|].
  destruct (_ || _) eqn:Eb; [by intros [= <-]|]. apply orb_false_iff in Eb as [E1 E2].
  destruct (Z.land reg 31 =? 0); [apply write_timer_config_inv; [lia|done]|].
  destruct (Z.land reg 31 =? 8); [|by intros [= <-]]. intros [= <-]. apply write_timer_match_inv; [lia|done].
Qed.

(** ** Executions

    [HFire] is the wake-up of the platform loop: it delivers the interrupt of
    a comparator and commits its expiry. *)
Inductive hpet_op :=
  | HPoll (now : Z)
  | HFire (i : nat) (now : Z)
  | HMmio (address size : Z) (data : option bytes) (now : Z).

(** [None] after an error of the controller, which ends the machine. *)
Definition hpet_apply (s : hpet * E) (o : hpet_op) : option (hpet * E) :=
  match o with
  | HPoll now => match hpet_poll setIRQ now s with (s, None) => Some s | _ => None end
  | HFire i now =>
      match hpet_deadline (fst s) with
      | Some (j, _) =>
          if (i =? j)%nat then
            match delivery setIRQ (fst s) (snd s) i with
            | (e, None) => Some (hpet_expire (fst s) i now, e)
            | _ => None
            end
          else Some s
      | None => Some s
      end
  | HMmio address size data now =>
      match hpet_mmio setIRQ setLegacy address size data now s with
      | (s, Ok _) => Some s
      | _ => None
      end
  end.

Fixpoint hpet_run (s : hpet * E) (ops : list hpet_op) : option (hpet * E) :=
  match ops with
  | [] => Some s
  | o :: ops => match hpet_apply s o with Some s => hpet_run s ops | None => None end
  end.

Lemma hpet_deadline_index h (i : nat) next : hpet_deadline h = Some (i, next) -> (i < 3)%nat.
Proof.
  unfold hpet_deadline, timer_ids. simpl. unfold deadline_step.
  repeat match goal with |- context [if ?b then _ else _] => destruct b | |- context [match ht_next ?t with _ => _ end] => destruct (ht_next t) end;
    intros Hd; repeat (simpl in Hd; case_match); simplify_eq; lia.
Qed.

Lemma hpet_apply_inv s o s' : hpet_inv s -> hpet_apply s o = Some s' -> hpet_inv s'.
Proof.
  intros Hs. destruct o as [now|i now|address size data now]; simpl.
  - destruct (hpet_poll setIRQ now s) as [s1 [err|]] eqn:E1; [done|]. intros [= <-]. by eapply hpet_poll_inv.
  - destruct (hpet_deadline (fst s)) as [[j next]|] eqn:Ed; [|by intros [= <-]].
    destruct (Nat.eqb_spec i j) as [->|]; [|by intros [= <-]].
    destruct (delivery setIRQ (fst s) (snd s) j) as [e [err|]] eqn:E1; [done|]. intros [= <-].
    destruct s as [h e0]. apply (delivery_expire h e0 e); [by eapply hpet_deadline_index|done|done].
  - unfold hpet_mmio. destruct (_ || _); [done|].
    destruct (hpet_poll setIRQ now s) as [s1 [err|]] eqn:E1; [done|].
    assert (H1 : hpet_inv s1) by (by eapply hpet_poll_inv).
    destruct data as [data|]; [|by intros [= <-]].
    destruct (hpet_write _ _ _ _ _ _ _) as [s2 [err|]] eqn:E2; [done|]. intros [= <-].
    eapply hpet_write_inv; [|done|exact E2]. unfold andnot, u64. apply Z.ldiff_nonneg. left. lia.
Qed.

Lemma hpet_inv_new now e : (forall k, line e k = false) -> hpet_inv (newHPET now, e).
Proof.
  intros He. split_and!; simpl; [|intros i Hi|done].
  - split; [done|]. intros k. by rewrite He.
  - assert (i = 0 \/ i = 1 \/ i = 2)%nat as [-> | [-> | ->]] by lia; done.
Qed.

(** The interrupt lines show exactly the pending interrupts.  Start
    from a fresh timer block with all lines low and let the guest read and
    write any registers at any times, the platform poll and fire comparators,
    and routes, triggers and the legacy replacement change in between: as
    long as the interrupt controller reports no error, a line is high exactly
    when the status bit of some level-triggered, enabled comparator routed to
    it is set, also when comparators share the line. *)
Lemma hpet_lines now e ops s :
  (forall k, line e k = false) -> hpet_run (newHPET now, e) ops = Some s ->
  forall k, line (snd s) k =
    existsb (fun i => level_pending (fst s) i && (hpet_irq (fst s) i =? k)) timer_ids.
Proof.
  intros He Hrun. assert (Hinv : hpet_inv s).
  { revert Hrun. generalize (hpet_inv_new now e He). generalize (newHPET now, e) as s0.
    induction ops as [|o ops IH]; intros s0 Hs0; simpl; [by intros [= <-]|].
    destruct (hpet_apply s0 o) as [s1|] eqn:E1; [|done]. apply IH. by eapply hpet_apply_inv. }
  destruct Hinv as ([_ Hline] & Hlatch & _). intros k. rewrite Hline. simpl. by rewrite !Hlatch by lia.
Qed.
End Lines.

(** A controller that records the levels of its lines. *)
Definition demo_setIRQ (e : gmap Z bool) (irq : Z) (level : bool) : gmap Z bool * option error :=
  (<[irq := level]> e, None).

Definition demo_line (e : gmap Z bool) (irq : Z) : bool := default false (e !! irq).

(** Comparator 0 level-triggered on line 20, comparator 1 periodic on the
    same line; the counter is enabled and both expire. *)
Definition demo_hpet_ops : list hpet_op :=
  [HMmio (hpetAddress + 0x100) 8 (Some (le_bytes 8 (20 * 512 + 6))) 0;
   HMmio (hpetAddress + 0x108) 8 (Some (le_bytes 8 100)) 0;
   HMmio (hpetAddress + 0x120) 8 (Some (le_bytes 8 (20 * 512 + 6 + 8 + 64))) 0;
   HMmio (hpetAddress + 0x128) 8 (Some (le_bytes 8 50)) 0;
   HMmio (hpetAddress + 0x10) 8 (Some (le_bytes 8 1)) 0;
   HPoll 2000;
   HMmio (hpetAddress + 0x20) 8 (Some (le_bytes 8 1)) 2000].


(** ** Time *)

Lemma hpet_counter_running h at_ :
  has (hp_config h) 1 = true -> hp_started h <= at_ -> at_ - hp_started h <= MaxInt64 ->
  hpet_counter h at_ = u64 (hp_base h + (at_ - hp_started h) / 10).
Proof.
  intros Hc H1 H2. unfold hpet_counter, time_Sub. rewrite Hc. unfold MaxInt64 in *. do 2 f_equal. lia.
Qed.

Lemma hpet_counter_later h now delta :
  has (hp_config h) 1 = true -> hp_started h <= now -> 0 <= delta -> now + delta * 10 - hp_started h <= MaxInt64 ->
  hpet_counter h (now + delta * 10) = u64 (hpet_counter h now + delta).
Proof.
  intros Hc H1 H2 H3. rewrite !hpet_counter_running by (done || lia).
  replace (now + delta * 10 - hp_started h) with (now - hp_started h + delta * 10) by lia.
  rewrite Z.div_add by lia. unfold u64. lia.
Qed.

Lemma arm_delta_bounds t counter :
  0 <= counter -> 0 <= arm_delta t counter false /\ 
  (has (ht_config t) 0x100 = false -> arm_delta t counter false = u64 (ht_match t - counter)).
Proof.
  intros Hc. unfold arm_delta. simpl. destruct (has (ht_config t) 0x100), (has (ht_config t) 8);
    unfold u32, u64; split; try done; lia.
Qed.

(** The deadline of a comparator that has just been armed. *)
Lemma armed_next h (i : nat) now next :
  (i < length (hp_timers h))%nat -> has (hp_config h) 1 = true ->
  ht_next (hpet_timer (hpet_arm h i now) i) = Some next ->
  next = now + arm_delta (hpet_timer h i) (hpet_counter h now) false * 10.
Proof.
  intros Hi Hc. unfold hpet_arm, armAfter. rewrite Hc. simpl.
  destruct (_ <? _); rewrite hpet_timer_set, decide_True by done; simpl; [done|]. by intros [= <-].
Qed.

(** Fewer ticks than the distance do not reach the match. *)
Lemma tick_before base b a m delta :
  delta = u64 (m - u64 (base + b)) -> a < b + delta -> b <= a -> u64 (base + a) <> m.
Proof. intros -> Ha Hb. unfold u64 in *. lia. Qed.

(** Comparators fire on time.  When a running timer block arms a
    comparator, its deadline is not in the past; a 64-bit comparator's deadline
    is a time at which the counter equals the match value and no tick
    before it does; a 32-bit comparator's is a time at which the low halves
    agree or, in one-shot mode, the low half of the counter rolls over. *)
Lemma hpet_comparator_exact h (i : nat) now next :
  (i < length (hp_timers h))%nat -> has (hp_config h) 1 = true ->
  0 <= ht_match (hpet_timer h i) <= MaxUint64 -> hp_started h <= now ->
  ht_next (hpet_timer (hpet_arm h i now) i) = Some next -> next - hp_started h <= MaxInt64 ->
  let t := hpet_timer h i in
  now <= next /\
  (has (ht_config t) 0x100 = false ->
   hpet_counter h next = ht_match t /\
   forall at_, now <= at_ -> at_ + 10 <= next -> hpet_counter h at_ <> ht_match t) /\
  (has (ht_config t) 0x100 = true ->
   u32 (hpet_counter h next) = u32 (ht_match t) \/
   (has (ht_config t) 8 = false /\ u32 (hpet_counter h next) = 0)).
Proof.
  intros Hi Hc Hm Hs Hn Hmax t. apply armed_next in Hn; [|done..]. fold t in Hn, Hm.
  assert (Hcount : 0 <= hpet_counter h now) 
    by (unfold hpet_counter; rewrite Hc; unfold u64; lia).
  destruct (arm_delta_bounds t (hpet_counter h now) Hcount) as [Hd0 Hd64].
  set (delta := arm_delta t (hpet_counter h now) false) in *.
  assert (Hnext : hpet_counter h next = u64 (hpet_counter h now + delta)) by (subst next; by apply hpet_counter_later).
  split_and!; [lia|..].
  - intros H64. rewrite Hnext, Hd64 by done. unfold u64, MaxUint64 in *. split; [lia|].
    intros at_ H1 H2. specialize (Hd64 H64).
    assert (H3 : now - hp_started h <= MaxInt64) by lia.
    rewrite hpet_counter_running in Hd64 by (done || lia). rewrite hpet_counter_running by (done || lia).
    unfold u64 in *. assert (Hdiv : (at_ - hp_started h) / 10 < (now - hp_started h) / 10 + delta) by lia.
    assert (Hge : (now - hp_started h) / 10 <= (at_ - hp_started h) / 10) by lia.
    by apply (tick_before (hp_base h) ((now - hp_started h) / 10) _ (ht_match t) delta).
  - intros H32. rewrite Hnext. unfold delta, arm_delta. rewrite H32. simpl.
    destruct (has (ht_config t) 8).
    + left. unfold u32, u64. lia.
    + destruct (Z.min_spec (u32 (u64 (ht_match t - hpet_counter h now))) (4294967296 - u32 (hpet_counter h now)))
        as [[_ ->]|[_ ->]]; [left|right; split; [done|]]; unfold u32, u64; lia.
Qed.



