(* ===== verification/Serial.v ===== *)
(** Package [vmm/cc]: the 16550 UART of the PC, its BIOS service and the host
    channel behind it (src/vmm/cc/serial.go and [serialTransfer]
    of src/vmm/cc/channel.go).

    Times are nanoseconds and the zero [time.Time] is [None]; the interrupt
    controller is a state [E] whose [setIRQ] may fail. *)

From S2P Require Import Prelude GoLib.
From stdpp Require Import base numbers list gmap sorting strings.

Open Scope Z_scope.
Open Scope trex_scope.

#[local] Ltac Zify.zify_post_hook ::= Z.to_euclidean_division_equations.

(** ** Data *)

Definition serialCapacity : Z := 65536.

Record uart16550 := MkUart {
  u_dll : Z; u_dlm : Z; u_ier : Z; u_fcr : Z; u_lcr : Z; u_mcr : Z; u_scratch : Z;
  u_rx : bytes; u_rxHead : Z; u_rxCount : Z;
  u_overrun : bool; u_timeout : bool; u_thre : bool; u_irq : bool;
  u_modem : Z; u_delta : Z;
  u_rxDeadline : option Z;
  u_tx : bytes;
  u_attached : bool;
}.

Implicit Types u : uart16550.

(** [x & mask != 0]. *)
Definition bit_set (x mask : Z) : bool := negb (Z.land x mask =? 0).

(** The receiver's part of the state. *)
Definition set_rx u rx head count timeout overrun deadline : uart16550 :=
  MkUart (u_dll u) (u_dlm u) (u_ier u) (u_fcr u) (u_lcr u) (u_mcr u) (u_scratch u)
    rx head count overrun timeout (u_thre u) (u_irq u) (u_modem u) (u_delta u) deadline (u_tx u) (u_attached u).

(** The transmitter's part. *)
Definition set_tx u thre tx : uart16550 :=
  MkUart (u_dll u) (u_dlm u) (u_ier u) (u_fcr u) (u_lcr u) (u_mcr u) (u_scratch u)
    (u_rx u) (u_rxHead u) (u_rxCount u) (u_overrun u) (u_timeout u) thre (u_irq u) (u_modem u) (u_delta u)
    (u_rxDeadline u) tx (u_attached u).

(** The registers the guest writes. *)
Definition set_regs u dll dlm ier fcr lcr mcr scratch : uart16550 :=
  MkUart dll dlm ier fcr lcr mcr scratch (u_rx u) (u_rxHead u) (u_rxCount u) (u_overrun u) (u_timeout u)
    (u_thre u) (u_irq u) (u_modem u) (u_delta u) (u_rxDeadline u) (u_tx u) (u_attached u).

(** The modem status and the interrupt output. *)
Definition set_status_lines u modem delta irq : uart16550 :=
  MkUart (u_dll u) (u_dlm u) (u_ier u) (u_fcr u) (u_lcr u) (u_mcr u) (u_scratch u)
    (u_rx u) (u_rxHead u) (u_rxCount u) (u_overrun u) (u_timeout u) (u_thre u) irq modem delta
    (u_rxDeadline u) (u_tx u) (u_attached u).

Definition uart_init (attached : bool) : uart16550 :=
  MkUart 0 0 0 0 0 0 0 (zeros 16) 0 0 false false false false 0xb0 0 None [] attached.

(** ** The receiver *)

Definition uart_capacity u : Z := if bit_set (u_fcr u) 1 then 16 else 1.

Definition uart_trigger u : Z :=
  if negb (bit_set (u_fcr u) 1) then 1
  else nthb [1; 4; 8; 14] (Z.shiftr (u_fcr u) 6).

(** In nanoseconds. *)
Definition receiverTimeout u : Z :=
  let bits := 1 + Z.land (u_lcr u) 3 + 5 + 1 in
  let bits := if bit_set (u_lcr u) 8 then bits + 1 else bits in
  let bits := if bit_set (u_lcr u) 4 then bits + 1 else bits in
  let divisor := Z.max 1 (Z.lor (u_dll u) (Z.shiftl (u_dlm u) 8)) in
  1000000000 * (4 * bits * divisor) / 115200.

Definition uart_receive u (value : byte) (now : Z) : uart16550 :=
  if u_rxCount u =? uart_capacity u
  then set_rx u (u_rx u) (u_rxHead u) (u_rxCount u) (u_timeout u) true (u_rxDeadline u)
  else set_rx u (<[Z.to_nat ((u_rxHead u + u_rxCount u) mod 16) := value]> (u_rx u)) (u_rxHead u) (u_rxCount u + 1)
         false (u_overrun u) (Some (now + receiverTimeout u)).

(** ** Interrupts *)

Definition uart_cause u : Z :=
  if bit_set (u_ier u) 4 && u_overrun u then 6
  else if bit_set (u_ier u) 1 && (uart_trigger u <=? u_rxCount u) then 4
  else if bit_set (u_ier u) 1 && negb (u_rxCount u =? 0) && u_timeout u then 12
  else if bit_set (u_ier u) 2 && u_thre u && (zlen (u_tx u) <? serialCapacity) then 2
  else if bit_set (u_ier u) 8 && negb (u_delta u =? 0) then 0
  else 1.

Definition uart_level u : bool := bit_set (u_mcr u) 8 && negb (uart_cause u =? 1).

Section Device.

(** [None] is a nil [setIRQ]; the line is always 4. *)
Context {E : Type} (setIRQ : option (E -> bool -> E * option error)).

Implicit Types e : E.

Definition syncIRQ u e : uart16550 * E * option error :=
  let level := uart_level u in
  if Bool.eqb level (u_irq u) then (u, e, None)
  else match setIRQ with
  | None => (set_status_lines u (u_modem u) (u_delta u) level, e, None)
  | Some f =>
      match f e level with
      | (e, Some err) => (u, e, Some err)
      | (e, None) => (set_status_lines u (u_modem u) (u_delta u) level, e, None)
      end
  end.

Definition uart_poll u e (now : Z) : uart16550 * E * option error :=
  let u :=
    match u_rxDeadline u with
    | Some d =>
        if negb (u_rxCount u =? 0) && (d <=? now)
        then set_rx u (u_rx u) (u_rxHead u) (u_rxCount u) true (u_overrun u) (u_rxDeadline u) else u
    | None => u
    end in
  syncIRQ u e.

Definition uart_deadline u : option Z :=
  if bit_set (u_mcr u) 8 && bit_set (u_ier u) 1 && (0 <? u_rxCount u) && (u_rxCount u <? uart_trigger u)
     && negb (u_timeout u) && negb (u_irq u)
  then u_rxDeadline u else None.

(** ** Guest accesses *)

(** The state after the effects of a read and the value, before [syncIRQ];
    [true] for the divisor latch, which returns at once. *)
Definition read_effect u (reg now : Z) : uart16550 * Z * bool :=
  if reg =? 0 then
    if bit_set (u_lcr u) 0x80 then (u, u_dll u, true)
    else
      let value := if u_rxCount u =? 0 then 0 else nthb (u_rx u) (u_rxHead u) in
      let '(head, count) :=
        if u_rxCount u =? 0 then (u_rxHead u, u_rxCount u) else ((u_rxHead u + 1) mod 16, u_rxCount u - 1) in
      (set_rx u (u_rx u) head count false (u_overrun u) (Some (now + receiverTimeout u)), value, false)
  else if reg =? 1 then
    if bit_set (u_lcr u) 0x80 then (u, u_dlm u, true) else (u, u_ier u, false)
  else if reg =? 2 then
    let value := uart_cause u in
    let u' := if value =? 2 then set_tx u false (u_tx u) else u in
    (u', if bit_set (u_fcr u) 1 then Z.lor value 0xc0 else value, false)
  else if reg =? 3 then (u, u_lcr u, false)
  else if reg =? 4 then (u, u_mcr u, false)
  else if reg =? 5 then
    let value := if zlen (u_tx u) <? serialCapacity then 0x60 else 0 in
    let value := if u_rxCount u =? 0 then value else Z.lor value 1 in
    if u_overrun u
    then (set_rx u (u_rx u) (u_rxHead u) (u_rxCount u) (u_timeout u) false (u_rxDeadline u), Z.lor value 2, false)
    else (u, value, false)
  else if reg =? 6 then
    (set_status_lines u (u_modem u) 0 (u_irq u), Z.lor (u_modem u) (u_delta u), false)
  else if reg =? 7 then (u, u_scratch u, false)
  else (u, 0, false).

Definition uart_read u e (reg now : Z) : uart16550 * E * (Z * option error) :=
  let '(u, value, latch) := read_effect u reg now in
  if latch then (u, e, (value, None))
  else let '(u, e, err) := syncIRQ u e in (u, e, (value, err)).

(** The modem status of the loop-back mode or of the attached line. *)
Definition modem_lines (mcr : Z) : Z :=
  if bit_set mcr 0x10
  then Z.lor (Z.lor (Z.lor (Z.shiftl (Z.land mcr 2) 3) (Z.shiftl (Z.land mcr 1) 5)) (Z.shiftl (Z.land mcr 4) 4))
         (Z.shiftl (Z.land mcr 8) 4)
  else 0xb0.

(** What the console keeps of the output. *)
Definition console_append (console : bytes) (value : byte) : bytes :=
  let console := console ++ [value] in
  if 65536 <? zlen console then drop (Z.to_nat (zlen console - 65536)) console else console.

(** A byte written to the transmitter: looped back, or sent to the channel
    and to the console. *)
Definition transmit u (value : byte) (now : Z) (console : option bytes)
    : uart16550 * option bytes * option error :=
  if bit_set (u_mcr u) 0x10 then (uart_receive u value now, console, None)
  else if u_attached u && (zlen (u_tx u) =? serialCapacity)
  then (u, console, Some (Errorf "cc serial: transmit without available holding register"))
  else
    let u := if u_attached u then set_tx u (u_thre u) (u_tx u ++ [value]) else u in
    (u, (fun c => console_append c value) <$> console, None).

(** The effects of a write to any register but the transmitter's. *)
Definition write_effect u (reg value : Z) : uart16550 * bool :=
  if reg =? 0 then (set_regs u value (u_dlm u) (u_ier u) (u_fcr u) (u_lcr u) (u_mcr u) (u_scratch u), true)
  else if reg =? 1 then
    if bit_set (u_lcr u) 0x80
    then (set_regs u (u_dll u) value (u_ier u) (u_fcr u) (u_lcr u) (u_mcr u) (u_scratch u), true)
    else
      let u := if negb (bit_set (u_ier u) 2) && bit_set value 2 then set_tx u true (u_tx u) else u in
      (set_regs u (u_dll u) (u_dlm u) (Z.land value 15) (u_fcr u) (u_lcr u) (u_mcr u) (u_scratch u), false)
  else if reg =? 2 then
    let u := if bit_set (Z.lxor (u_fcr u) value) 1 || bit_set value 2
             then set_rx u (u_rx u) 0 0 false false None else u in
    let u := if bit_set value 4 then set_tx u true (u_tx u) else u in
    (set_regs u (u_dll u) (u_dlm u) (u_ier u) (Z.land value 0xc9) (u_lcr u) (u_mcr u) (u_scratch u), false)
  else if reg =? 3 then
    (set_regs u (u_dll u) (u_dlm u) (u_ier u) (u_fcr u) value (u_mcr u) (u_scratch u), false)
  else if reg =? 4 then
    let mcr := Z.land value 31 in
    let modem := modem_lines mcr in
    let changed := Z.lxor modem (u_modem u) in
    let delta := Z.lor (u_delta u) (Z.land (Z.shiftr changed 4) 0xb) in
    let delta := if bit_set (u_modem u) 0x40 && negb (bit_set modem 0x40) then Z.lor delta 4 else delta in
    (set_regs (set_status_lines u modem delta (u_irq u)) (u_dll u) (u_dlm u) (u_ier u) (u_fcr u) (u_lcr u) mcr
       (u_scratch u), false)
  else if reg =? 7 then
    (set_regs u (u_dll u) (u_dlm u) (u_ier u) (u_fcr u) (u_lcr u) (u_mcr u) value, false)
  else (u, false).

Definition uart_write u e (reg value now : Z) (console : option bytes)
    : uart16550 * E * option bytes * option error :=
  if (reg =? 0) && negb (bit_set (u_lcr u) 0x80) then
    match syncIRQ (set_tx u false (u_tx u)) e with
    | (u, e, Some err) => (u, e, console, Some err)
    | (u, e, None) =>
        match transmit u value now console with
        | (u, console, Some err) => (u, e, console, Some err)
        | (u, console, None) =>
            let '(u, e, err) := syncIRQ (set_tx u true (u_tx u)) e in (u, e, console, err)
        end
    end
  else
    let '(u, latch) := write_effect u reg value in
    if latch then (u, e, console, None)
    else let '(u, e, err) := syncIRQ u e in (u, e, console, err).

(** The accesses of one port exit; [items] are the operands, all of [size]
    bytes, which a read fills in. *)
Fixpoint serialIO u e (console : bytes) (write : bool) (size reg now : Z) (items : list bytes)
    : uart16550 * E * bytes * (list bytes * option error) :=
  match items with
  | [] => (u, e, console, ([], None))
  | data :: items =>
      if negb (size =? 1) then
        let data := if write then data else replicate (length data) 0xff in
        let '(u, e, console, (rest, err)) := serialIO u e console write size reg now items in
        (u, e, console, (data :: rest, err))
      else if write then
        match uart_write u e reg (nthb data 0) now (Some console) with
        | (u, e, c, Some err) => (u, e, default console c, (data :: items, Some err))
        | (u, e, c, None) =>
            let '(u, e, console, (rest, err)) := serialIO u e (default console c) write size reg now items in
            (u, e, console, (data :: rest, err))
        end
      else
        match uart_read u e reg now with
        | (u, e, (_, Some err)) => (u, e, console, (data :: items, Some err))
        | (u, e, (value, None)) =>
            let '(u, e, console, (rest, err)) := serialIO u e console write size reg now items in
            (u, e, console, ([value] :: rest, err))
        end
  end.

(** The BIOS service: the status words, [false] when it does not apply. *)
Definition serialBIOS u e (function settings port now : Z) : uart16550 * E * (Z * bool * option error) :=
  if negb (u_attached u) || negb (port =? 0) || (negb (function =? 0) && negb (function =? 3))
  then (u, e, (0, false, None))
  else
    let u :=
      if function =? 0 then
        let divisor := if Z.shiftr settings 5 =? 0 then 0x417 else Z.shiftr 0x600 (Z.shiftr settings 5) in
        set_regs u (u8 divisor) (u8 (Z.shiftr divisor 8)) (u_ier u) (u_fcr u) (Z.land settings 0x1f) (u_mcr u) (u_scratch u)
      else u in
    match uart_read u e 5 now with
    | (u, e, (_, Some err)) => (u, e, (0, true, Some err))
    | (u, e, (line, None)) =>
        let '(u, e, (modem, err)) := uart_read u e 6 now in
        (u, e, (Z.lor (Z.shiftl line 8) modem, true, err))
    end.

(** ** The host channel *)

(** [data] for a host write, and the number of bytes accepted. *)
Definition serialTransfer_write u e (data : bytes) (now : Z) : uart16550 * E * (Z * option error) :=
  if bit_set (u_mcr u) 0x10 then (u, e, (0, None))
  else
    let n := Z.min (zlen data) (uart_capacity u - u_rxCount u) in
    let u := foldl (fun u value => uart_receive u value now) u (slice 0 n data) in
    let '(u, e, err) := syncIRQ u e in (u, e, (n, err)).

(** A host read of at most [n] bytes. *)
Definition serialTransfer_read u e (n : Z) : uart16550 * E * (bytes * option error) :=
  let data := slice 0 n (u_tx u) in
  let tx := drop (Z.to_nat (zlen data)) (u_tx u) in
  let u := set_tx u (if zlen data =? 0 then u_thre u else true) tx in
  let '(u, e, err) := syncIRQ u e in (u, e, (data, err)).

(** The commit of the platform loop after it has raised line 4 for the
    deadline. *)
Definition uart_commit u : uart16550 :=
  set_status_lines (set_rx u (u_rx u) (u_rxHead u) (u_rxCount u) true (u_overrun u) (u_rxDeadline u))
    (u_modem u) (u_delta u) true.

End Device.

(** ** What the UART holds *)

(** The bytes in the receive FIFO, oldest first. *)
Definition rx_queue u : bytes := range (fun i => nthb (u_rx u) ((u_rxHead u + i) mod 16)) 0 (u_rxCount u).

Record uart_wf u : Prop := {
  uw_rx : zlen (u_rx u) = 16;
  uw_head : 0 <= u_rxHead u < 16;
  uw_count : 0 <= u_rxCount u <= uart_capacity u;
  uw_fcr : 0 <= u_fcr u < 256;
  uw_tx : zlen (u_tx u) <= serialCapacity;
}.

(** Two states with the same queues. *)
Record same_queues u u' : Prop := {
  sq_rx : rx_queue u' = rx_queue u;
  sq_tx : u_tx u' = u_tx u;
}.

Lemma uart_capacity_16 u : 1 <= uart_capacity u <= 16.
Proof. unfold uart_capacity. destruct (bit_set _ _); lia. Qed.

Lemma zlen_rx_queue u : uart_wf u -> zlen (rx_queue u) = u_rxCount u.
Proof. intros Hwf. apply zlen_range, Hwf. Qed.

Lemma uart_receive_spec u v now :
  uart_wf u ->
  uart_wf (uart_receive u v now) /\ u_tx (uart_receive u v now) = u_tx u /\
  (u_rxCount u = uart_capacity u ->
   rx_queue (uart_receive u v now) = rx_queue u /\ u_overrun (uart_receive u v now) = true) /\
  (u_rxCount u < uart_capacity u ->
   rx_queue (uart_receive u v now) = rx_queue u ++ [v] /\ u_overrun (uart_receive u v now) = u_overrun u /\
   u_rxCount (uart_receive u v now) = u_rxCount u + 1).
Proof.
  intros [H1 H2 H3 H4 H5]. pose proof (uart_capacity_16 u). unfold uart_receive.
  destruct (Z.eqb_spec (u_rxCount u) (uart_capacity u)) as [Hf|Hf]; [split_and!; try done; lia|].
  split_and!; try done; try lia.
  - split; simpl; try done; [|change (uart_capacity (set_rx u _ _ _ _ _ _)) with (uart_capacity u); lia].
    unfold zlen in *. by rewrite length_insert.
  - intros _. split_and!; try done. unfold rx_queue. simpl. rewrite range_add by lia. f_equal.
    + apply range_ext. intros i Hi. rewrite nthb_insert by lia. rewrite decide_False by lia. done.
    + rewrite range_cons, range_nil by lia. rewrite nthb_insert by lia. rewrite Z.add_0_l. by rewrite decide_True.
Qed.

Lemma uart_receives_spec u now data :
  uart_wf u -> zlen data <= uart_capacity u - u_rxCount u ->
  let u' := foldl (fun u value => uart_receive u value now) u data in
  uart_wf u' /\ u_tx u' = u_tx u /\ rx_queue u' = rx_queue u ++ data /\ u_overrun u' = u_overrun u.
Proof.
  revert u. induction data as [|v data IH]; intros u Hwf Hn; simpl; [by rewrite app_nil_r|].
  rewrite zlen_cons in Hn. pose proof (zlen_nonneg data).
  destruct (uart_receive_spec u v now Hwf) as (W1 & T1 & _ & R1). destruct (R1 ltac:(lia)) as (Q1 & O1 & C1).
  assert (Hcap : uart_capacity (uart_receive u v now) = uart_capacity u)
    by (unfold uart_receive; by destruct (_ =? _)).
  destruct (IH (uart_receive u v now) W1 ltac:(rewrite Hcap, C1; lia)) as (W2 & T2 & Q2 & O2).
  split_and!; [done|congruence| |congruence]. by rewrite Q2, Q1, <- app_assoc.
Qed.

Lemma uart_receives_irq u now data : u_irq (foldl (fun u value => uart_receive u value now) u data) = u_irq u.
Proof.
  revert u. induction data as [|v data IH]; intros u; [done|]. simpl. rewrite IH.
  unfold uart_receive. by destruct (_ =? _).
Qed.

(** ** Interrupts *)

Section Interrupts.

Context {E : Type} (setIRQ : option (E -> bool -> E * option error)) (line : E -> bool).

(** A successful [setIRQ] sets the level of the line. *)
Hypothesis setIRQ_line : forall f e level e', setIRQ = Some f -> f e level = (e', None) -> line e' = level.

(** The output follows the state, and the line the output. *)
Record irq_ok u (e : E) : Prop := {
  iq_level : u_irq u = uart_level u;
  iq_line : setIRQ <> None -> line e = u_irq u;
}.

(** States that differ only in the output. *)
Definition but_irq u u' : Prop := u' = set_status_lines u (u_modem u) (u_delta u) (u_irq u').

Lemma but_irq_level u u' : but_irq u u' -> uart_level u' = uart_level u.
Proof. intros ->. done. Qed.

Lemma but_irq_wf u u' : but_irq u u' -> uart_wf u -> uart_wf u'.
Proof. intros -> []. by split. Qed.

Lemma but_irq_queues u u' : but_irq u u' -> same_queues u u'.
Proof. intros ->. by split. Qed.

Lemma syncIRQ_spec u e u' e' err :
  (setIRQ <> None -> line e = u_irq u) -> syncIRQ setIRQ u e = (u', e', err) ->
  but_irq u u' /\ (err = None -> irq_ok u' e').
Proof.
  intros Hline. unfold syncIRQ. destruct (Bool.eqb (uart_level u) (u_irq u)) eqn:Eq.
  { intros [= <- <- <-]. apply eqb_prop in Eq. split; [by destruct u|]. by split. }
  destruct setIRQ as [f|] eqn:Es.
  - destruct (f e (uart_level u)) as [e1 [err1|]] eqn:Ef; intros [= <- <- <-]; (split; [by destruct u|]); [done|].
    intros _. split; [done|]. intros _. simpl. by eapply setIRQ_line.
  - intros [= <- <- <-]. split; [by destruct u|]. intros _. by split.
Qed.

(** The effects of guest accesses keep the UART well formed. *)
Lemma read_effect_wf u reg now u' value latch :
  uart_wf u -> read_effect u reg now = (u', value, latch) -> uart_wf u' /\ u_irq u' = u_irq u /\ u_tx u' = u_tx u.
Proof.
  intros Hwf. pose proof Hwf as [H1 H2 H3 H4 H5]. unfold read_effect.
  repeat match goal with |- context [if ?b then _ else _] => destruct b eqn:? end;
    intros [= <- <- <-]; split_and!; try done; split; simpl; try done; unfold uart_capacity in *; simpl in *; lia.
Qed.

Lemma write_effect_wf u reg value u' latch :
  0 <= value -> uart_wf u -> write_effect u reg value = (u', latch) ->
  uart_wf u' /\ u_irq u' = u_irq u /\ u_tx u' = u_tx u.
Proof.
  intros Hv Hwf. pose proof Hwf as [H1 H2 H3 H4 H5]. unfold write_effect.
  destruct (reg =? 0); [intros [= <- <-]; by split_and!|].
  destruct (reg =? 1).
  { destruct (bit_set _ 128); [intros [= <- <-]; by split_and!|].
    destruct (_ && _); intros [= <- <-]; by split_and!. }
  destruct (reg =? 2).
  { assert (Hf : 0 <= Z.land value 0xc9 < 256) by (by apply (land_bound value 0xc9 8)).
    set (reset := bit_set (Z.lxor (u_fcr u) value) 1 || bit_set value 2).
    destruct reset eqn:Er, (bit_set value 4); intros [= <- <-]; (split_and!; [|done|done]);
      split; simpl; try done; try lia; unfold uart_capacity in *; simpl.
    1, 2: destruct (bit_set (Z.land value 0xc9) 1); lia.
    all: replace (bit_set (Z.land value 0xc9) 1) with (bit_set (u_fcr u) 1); [done|].
    all: unfold reset in Er; apply orb_false_iff in Er as [Ex _].
    all: unfold bit_set in *; rewrite <- Z.land_assoc; change (Z.land 0xc9 1) with 1.
    all: change 1 with (Z.shiftl 1 0) in *; rewrite land_pow2 in Ex |- * by lia; rewrite land_pow2 by lia.
    all: rewrite Z.lxor_spec in Ex; by destruct (Z.testbit (u_fcr u) 0), (Z.testbit value 0). }
  destruct (reg =? 3); [intros [= <- <-]; by split_and!|].
  destruct (reg =? 4); [intros [= <- <-]; by split_and!|].
  destruct (reg =? 7); intros [= <- <-]; by split_and!.
Qed.

(** Which effects touch the queues. *)
Definition to_transmitter u (reg : Z) : bool := (reg =? 0) && negb (bit_set (u_lcr u) 0x80).

Lemma read_effect_queue u reg now u' v latch :
  uart_wf u -> read_effect u reg now = (u', v, latch) ->
  if to_transmitter u reg
  then match rx_queue u with [] => v = 0 /\ rx_queue u' = [] | b :: q => v = b /\ rx_queue u' = q end
  else rx_queue u' = rx_queue u.
Proof.
  intros Hwf Hr. unfold to_transmitter, read_effect in *. destruct (Z.eqb_spec reg 0) as [->|Hne]; simpl.
  - destruct (bit_set (u_lcr u) 0x80); simpl; [by injection Hr as <- <- <-|].
    pose proof (uw_count _ Hwf) as Hc. destruct (Z.eqb_spec (u_rxCount u) 0) as [E0|E0]; injection Hr as <- <- <-.
    + unfold rx_queue. simpl. rewrite E0. by rewrite range_nil.
    + unfold rx_queue. simpl. rewrite range_cons by lia. rewrite Z.add_0_r, Z.mod_small by apply Hwf.
      split; [done|]. apply range_shift. intros i Hi. f_equal. lia.
  - repeat match type of Hr with context [if ?b then _ else _] => destruct b eqn:? end; by injection Hr as <- <- <-.
Qed.

Lemma write_effect_queue u reg value u' latch :
  to_transmitter u reg = false -> write_effect u reg value = (u', latch) ->
  u_tx u' = u_tx u /\
  rx_queue u' = (if (reg =? 2) && (bit_set (Z.lxor (u_fcr u) value) 1 || bit_set value 2) then [] else rx_queue u).
Proof.
  intros Ht Hw. unfold write_effect in Hw.
  destruct (Z.eqb_spec reg 0) as [->|]; [by injection Hw as <- <-|].
  destruct (Z.eqb_spec reg 1) as [->|].
  { destruct (bit_set (u_lcr u) 0x80); [by injection Hw as <- <-|]. by destruct (_ && _); injection Hw as <- <-. }
  destruct (Z.eqb_spec reg 2) as [->|]; simpl.
  { by destruct (_ || _), (bit_set value 4); injection Hw as <- <-. }
  repeat match type of Hw with context [if ?b then _ else _] => destruct b end; by injection Hw as <- <-.
Qed.

(** ** Every operation keeps the invariant *)

Definition uart_ok u (e : E) : Prop := uart_wf u /\ irq_ok u e.

Lemma line_after u u1 e : irq_ok u e -> u_irq u1 = u_irq u -> setIRQ <> None -> line e = u_irq u1.
Proof. intros H E1 Hn. rewrite E1. by apply H. Qed.

Lemma sync_ok u u1 e u' e' :
  irq_ok u e -> u_irq u1 = u_irq u -> uart_wf u1 -> syncIRQ setIRQ u1 e = (u', e', None) ->
  uart_ok u' e' /\ same_queues u1 u'.
Proof.
  intros Hi Hirq Hwf Hs. destruct (syncIRQ_spec u1 e u' e' None (line_after u u1 e Hi Hirq) Hs) as [Hb Hok].
  split; [split; [by eapply but_irq_wf|auto]|by apply but_irq_queues].
Qed.

Lemma uart_read_ok u e reg now u' e' v :
  uart_ok u e -> uart_read setIRQ u e reg now = (u', e', (v, None)) ->
  uart_ok u' e' /\ exists u1 latch, read_effect u reg now = (u1, v, latch) /\ same_queues u1 u'.
Proof.
  intros [Hwf Hi]. unfold uart_read. destruct (read_effect u reg now) as [[u1 value] latch] eqn:Er.
  destruct (read_effect_wf _ _ _ _ _ _ Hwf Er) as (Hwf1 & Hirq & _). destruct latch.
  - intros [= <- <- <-]. assert (u1 = u) as ->.
    { unfold read_effect in Er. repeat match type of Er with context [if ?b then _ else _] => destruct b end; congruence. }
    split; [done|]. exists u, true. by split.
  - destruct (syncIRQ setIRQ u1 e) as [[u2 e2] err] eqn:Es. intros [= <- <- <- ->].
    destruct (sync_ok u u1 e u2 e2 Hi Hirq Hwf1 Es) as [H1 H2]. split; [done|]. by exists u1, false.
Qed.

Lemma set_tx_wf u thre tx : uart_wf u -> zlen tx <= serialCapacity -> uart_wf (set_tx u thre tx).
Proof. intros [] Htx. by split. Qed.

Lemma transmit_spec u v now console u' console' :
  uart_wf u -> transmit u v now console = (u', console', None) ->
  uart_wf u' /\ u_irq u' = u_irq u /\
  (if bit_set (u_mcr u) 0x10
   then u_tx u' = u_tx u /\
        rx_queue u' = (if u_rxCount u =? uart_capacity u then rx_queue u else rx_queue u ++ [v])
   else rx_queue u' = rx_queue u /\ u_tx u' = (if u_attached u then u_tx u ++ [v] else u_tx u)).
Proof.
  intros Hwf. unfold transmit. destruct (bit_set (u_mcr u) 0x10).
  - intros [= <- <-]. destruct (uart_receive_spec u v now Hwf) as (W & T & Rf & Rr). split_and!; [done| |done|].
    + unfold uart_receive. by destruct (_ =? _).
    + destruct (Z.eqb_spec (u_rxCount u) (uart_capacity u)); [by apply Rf|]. apply Rr. pose proof (uw_count _ Hwf). lia.
  - destruct (u_attached u) eqn:Ea; simpl; [|by intros [= <- <-]].
    destruct (Z.eqb_spec (zlen (u_tx u)) serialCapacity); [done|]. intros [= <- <-].
    split_and!; try done. apply set_tx_wf; [done|]. pose proof (uw_tx _ Hwf). rewrite zlen_app, zlen_cons, zlen_nil. lia.
Qed.

Lemma uart_write_ok u e reg value now console u' e' console' :
  0 <= value -> uart_ok u e -> uart_write setIRQ u e reg value now console = (u', e', console', None) ->
  uart_ok u' e' /\
  if to_transmitter u reg
  then if bit_set (u_mcr u) 0x10
       then u_tx u' = u_tx u /\
            rx_queue u' = (if u_rxCount u =? uart_capacity u then rx_queue u else rx_queue u ++ [value])
       else rx_queue u' = rx_queue u /\ u_tx u' = (if u_attached u then u_tx u ++ [value] else u_tx u)
  else exists u1 latch, write_effect u reg value = (u1, latch) /\ same_queues u1 u'.
Proof.
  intros Hv [Hwf Hi]. unfold uart_write, to_transmitter. destruct (_ && _) eqn:Et.
  - destruct (syncIRQ setIRQ (set_tx u false (u_tx u)) e) as [[u1 e1] [err|]] eqn:E1; [done|].
    assert (Hwf0 : uart_wf (set_tx u false (u_tx u))) by (apply set_tx_wf; [done|apply Hwf]).
    destruct (syncIRQ_spec (set_tx u false (u_tx u)) e u1 e1 None (line_after u _ e Hi eq_refl) E1) as [B1 I1].
    specialize (I1 eq_refl). pose proof (but_irq_wf _ _ B1 Hwf0) as W1.
    destruct (transmit u1 value now console) as [[u2 c2] [err|]] eqn:E2; [done|].
    destruct (transmit_spec _ _ _ _ _ _ W1 E2) as (W2 & I2 & Q2).
    destruct (syncIRQ setIRQ (set_tx u2 true (u_tx u2)) e1) as [[u3 e3] err] eqn:E3. intros [= <- <- <- ->].
    destruct (sync_ok u1 (set_tx u2 true (u_tx u2)) e1 u3 e3 I1 I2) as [O3 [R3 T3]]; [|done|].
    { apply set_tx_wf; [done|apply W2]. }
    split; [done|]. rewrite R3, T3. simpl. rewrite B1 in Q2. exact Q2.
  - destruct (write_effect u reg value) as [u1 latch] eqn:Ew.
    destruct (write_effect_wf u reg value u1 latch Hv Hwf Ew) as (W1 & I1 & T1). destruct latch.
    + intros [= <- <- <-]. split; [|by exists u1, true]. split; [done|].
      unfold write_effect in Ew. destruct (reg =? 0); [injection Ew as <-; by destruct Hi; split|].
      destruct (reg =? 1).
      { destruct (bit_set (u_lcr u) 0x80); [injection Ew as <-; by destruct Hi; split|]. by destruct (_ && _). }
      repeat match type of Ew with context [if ?b then _ else _] => destruct b end; discriminate.
    + destruct (syncIRQ setIRQ u1 e) as [[u2 e2] err] eqn:Es. intros [= <- <- <- ->].
      destruct (sync_ok u u1 e u2 e2 Hi I1 W1 Es) as [H1 H2]. split; [done|]. by exists u1, false.
Qed.

Lemma serialTransfer_write_ok u e data now u' e' n :
  uart_ok u e -> serialTransfer_write setIRQ u e data now = (u', e', (n, None)) ->
  uart_ok u' e' /\ u_tx u' = u_tx u /\ u_overrun u' = u_overrun u /\
  n = (if bit_set (u_mcr u) 0x10 then 0 else Z.min (zlen data) (uart_capacity u - zlen (rx_queue u))) /\
  rx_queue u' = rx_queue u ++ slice 0 n data.
Proof.
  intros [Hwf Hi]. unfold serialTransfer_write. rewrite zlen_rx_queue by done. destruct (bit_set (u_mcr u) 0x10).
  { intros [= <- <- <-]. split_and!; try done. unfold slice. by rewrite app_nil_r. }
  set (m := Z.min _ _). pose proof (uw_count _ Hwf) as Hc. pose proof (zlen_nonneg data).
  assert (Hm : zlen (slice 0 m data) = m) by (rewrite zlen_slice; lia).
  destruct (uart_receives_spec u now (slice 0 m data) Hwf ltac:(lia)) as (W1 & T1 & Q1 & O1).
  set (u1 := foldl _ u _) in *. destruct (syncIRQ setIRQ u1 e) as [[u2 e2] err] eqn:Es. intros [= <- <- <- ->].
  assert (I1 : u_irq u1 = u_irq u) by apply uart_receives_irq.
  destruct (sync_ok u u1 e u2 e2 Hi I1 W1 Es) as [H1 [R T]].
  assert (Ho : u_overrun u2 = u_overrun u1).
  { destruct (syncIRQ_spec u1 e u2 e2 None (line_after u u1 e Hi I1) Es) as [-> _]. done. }
  split_and!; try done; congruence.
Qed.

Lemma serialTransfer_read_ok u e n u' e' data :
  0 <= n -> uart_ok u e -> serialTransfer_read setIRQ u e n = (u', e', (data, None)) ->
  uart_ok u' e' /\ rx_queue u' = rx_queue u /\ u_tx u = data ++ u_tx u' /\ zlen data = Z.min n (zlen (u_tx u)).
Proof.
  intros Hn [Hwf Hi]. unfold serialTransfer_read. set (d := slice 0 n (u_tx u)).
  set (u1 := set_tx u _ _). destruct (syncIRQ setIRQ u1 e) as [[u2 e2] err] eqn:Es. intros [= <- <- <- ->].
  pose proof (zlen_nonneg (u_tx u)). assert (Hd : zlen d = Z.min n (zlen (u_tx u))).
  { unfold d, slice, zlen. rewrite drop_0, length_take. lia. }
  assert (Htx : d ++ drop (Z.to_nat (zlen d)) (u_tx u) = u_tx u).
  { unfold d at 1, slice. rewrite drop_0. rewrite Hd.
    destruct (decide (n <= zlen (u_tx u))).
    - rewrite Z.min_l by done. apply take_drop.
    - rewrite Z.min_r by lia. unfold zlen in *. rewrite Nat2Z.id, take_ge, drop_all, app_nil_r by lia. done. }
  assert (W1 : uart_wf u1).
  { apply set_tx_wf; [done|]. pose proof (uw_tx _ Hwf). unfold zlen in *. rewrite length_drop. lia. }
  destruct (sync_ok u u1 e u2 e2 Hi eq_refl W1 Es) as [H1 [R T]]. split_and!; try done. by rewrite T.
Qed.

Lemma uart_poll_ok u e now u' e' :
  uart_ok u e -> uart_poll setIRQ u e now = (u', e', None) -> uart_ok u' e' /\ same_queues u u'.
Proof.
  intros [Hwf Hi]. unfold uart_poll. set (u1 := match u_rxDeadline u with Some _ => _ | None => u end).
  assert (H1 : uart_wf u1 /\ u_irq u1 = u_irq u /\ same_queues u u1).
  { unfold u1. destruct (u_rxDeadline u); [|done]. destruct (_ && _); [|done]. split; [by destruct Hwf; split|done]. }
  destruct H1 as (W1 & I1 & [R1 T1]). intros Hs. destruct (sync_ok u u1 e u' e' Hi I1 W1 Hs) as [H2 [R2 T2]].
  split; [done|]. split; congruence.
Qed.

Lemma uart_commit_ok u e d f e' :
  uart_ok u e -> uart_deadline u = Some d -> setIRQ = Some f -> f e true = (e', None) -> uart_ok (uart_commit u) e'.
Proof.
  intros [Hwf Hi] Hd Hs Hf. split; [by destruct Hwf; split|]. split; simpl; [|intros _; by eapply setIRQ_line].
  unfold uart_deadline in Hd. destruct (_ && _) eqn:Eb; [|done]. clear Hd.
  repeat (apply andb_true_iff in Eb as [Eb ?]). unfold uart_level.
  change (u_mcr (uart_commit u)) with (u_mcr u). rewrite Eb. unfold uart_cause. simpl. destruct (bit_set (u_ier u) 4 && u_overrun u); [done|].
  change (uart_trigger (uart_commit u)) with (uart_trigger u).
  replace (bit_set (u_ier u) 1) with true by done. simpl.
  destruct (uart_trigger u <=? u_rxCount u); [done|]. by replace (u_rxCount u =? 0) with false by lia.
Qed.

Lemma serialBIOS_ok u e function settings port now u' e' out :
  uart_ok u e -> serialBIOS setIRQ u e function settings port now = (u', e', (out, None)) -> uart_ok u' e'.
Proof.
  intros Hok. unfold serialBIOS. destruct (_ || _); [by intros [= <- <- <-]|].
  set (u1 := if function =? 0 then _ else u).
  assert (Hok1 : uart_ok u1 e).
  { unfold u1. destruct (function =? 0); [|done]. destruct Hok as [[] []]. by split; split. }
  destruct (uart_read setIRQ u1 e 5 now) as [[u2 e2] [l [err|]]] eqn:E2; [done|].
  destruct (uart_read_ok _ _ _ _ _ _ _ Hok1 E2) as [Hok2 _].
  destruct (uart_read setIRQ u2 e2 6 now) as [[u3 e3] [m err]] eqn:E3. intros [= <- <- <- ->].
  by destruct (uart_read_ok _ _ _ _ _ _ _ Hok2 E3).
Qed.

(** ** Executions *)

Inductive uart_op :=
  | URead (reg : Z)
  | UWrite (reg value : Z)
  | UHostWrite (data : bytes)
  | UHostRead (n : nat)
  | UBios (function settings port : Z)
  | UPoll
  | UFire.

(** [None] after an error; [UFire] raises the line for the deadline of the
    receiver and commits it. *)
Definition uart_apply (s : uart16550 * E) (now : Z) (o : uart_op) : option (uart16550 * E) :=
  let '(u, e) := s in
  match o with
  | URead reg => match uart_read setIRQ u e reg now with (u, e, (_, None)) => Some (u, e) | _ => None end
  | UWrite reg value =>
      match uart_write setIRQ u e reg (u8 value) now None with (u, e, _, None) => Some (u, e) | _ => None end
  | UHostWrite data =>
      match serialTransfer_write setIRQ u e data now with (u, e, (_, None)) => Some (u, e) | _ => None end
  | UHostRead n =>
      match serialTransfer_read setIRQ u e (Z.of_nat n) with (u, e, (_, None)) => Some (u, e) | _ => None end
  | UBios function settings port =>
      match serialBIOS setIRQ u e function settings port now with (u, e, (_, None)) => Some (u, e) | _ => None end
  | UPoll => match uart_poll setIRQ u e now with (u, e, None) => Some (u, e) | _ => None end
  | UFire =>
      match uart_deadline u, setIRQ with
      | Some _, Some f => match f e true with (e, None) => Some (uart_commit u, e) | _ => None end
      | _, _ => Some (u, e)
      end
  end.

Fixpoint uart_run (s : uart16550 * E) (ops : list (Z * uart_op)) : option (uart16550 * E) :=
  match ops with
  | [] => Some s
  | (now, o) :: ops => match uart_apply s now o with Some s => uart_run s ops | None => None end
  end.

Lemma uart_apply_ok u e now o u' e' :
  uart_ok u e -> uart_apply (u, e) now o = Some (u', e') -> uart_ok u' e'.
Proof.
  intros Hok. destruct o as [reg|reg value|data|n|function settings port| |]; simpl.
  - destruct (uart_read _ _ _ _ _) as [[u1 e1] [v [err|]]] eqn:E1; [done|]. intros [= <- <-].
    by destruct (uart_read_ok _ _ _ _ _ _ _ Hok E1).
  - destruct (uart_write _ _ _ _ _ _ _) as [[[u1 e1] c] [err|]] eqn:E1; [done|]. intros [= <- <-].
    refine (proj1 (uart_write_ok _ _ _ _ _ _ _ _ _ _ Hok E1)). unfold u8. lia.
  - destruct (serialTransfer_write _ _ _ _ _) as [[u1 e1] [v [err|]]] eqn:E1; [done|]. intros [= <- <-].
    by destruct (serialTransfer_write_ok _ _ _ _ _ _ _ Hok E1).
  - destruct (serialTransfer_read _ _ _ _) as [[u1 e1] [v [err|]]] eqn:E1; [done|]. intros [= <- <-].
    by destruct (serialTransfer_read_ok _ _ _ _ _ _ (Nat2Z.is_nonneg n) Hok E1).
  - destruct (serialBIOS _ _ _ _ _ _ _) as [[u1 e1] [v [err|]]] eqn:E1; [done|]. intros [= <- <-].
    by eapply serialBIOS_ok.
  - destruct (uart_poll _ _ _ _) as [[u1 e1] [err|]] eqn:E1; [done|]. intros [= <- <-].
    by destruct (uart_poll_ok _ _ _ _ _ Hok E1).
  - destruct (uart_deadline u) as [d|] eqn:Ed; [|by intros [= <- <-]].
    pose proof (fun f e1 => uart_commit_ok u e d f e1 Hok Ed) as Hc.
    destruct setIRQ as [f|]; [|by intros [= <- <-]]. destruct (f e true) as [e1 [err|]] eqn:E1; [done|].
    intros [= <- <-]. by apply (Hc f e1).
Qed.

Lemma uart_run_ok ops u e u' e' :
  uart_ok u e -> uart_run (u, e) ops = Some (u', e') -> uart_ok u' e'.
Proof.
  revert u e. induction ops as [|[now o] ops IH]; intros u e Hok; [by intros [= <- <-]|]. cbn [uart_run].
  destruct (uart_apply (u, e) now o) as [[u1 e1]|] eqn:E1; [|done]. apply IH. by eapply uart_apply_ok.
Qed.

Lemma uart_init_ok attached e : (setIRQ <> None -> line e = false) -> uart_ok (uart_init attached) e.
Proof. intros He. split; [by split|]. by split. Qed.

(** The interrupt line is always right.  Whatever the guest reads and
    writes, the host sends and receives, the BIOS service sets and the
    platform polls or fires, at whatever times: as long as no call reports an
    error, line 4 is high exactly when interrupts are enabled in the modem
    control register and the UART has a cause to signal. *)
Lemma uart_irq_line attached e ops u' e' :
  (setIRQ <> None -> line e = false) -> uart_run (uart_init attached, e) ops = Some (u', e') ->
  u_irq u' = uart_level u' /\ (setIRQ <> None -> line e' = uart_level u').
Proof.
  intros He Hrun. destruct (uart_run_ok ops _ _ _ _ (uart_init_ok attached e He) Hrun) as [_ [H1 H2]].
  split; [done|]. intros Hn. by rewrite <- H1, H2.
Qed.

(** The FIFOs are queues.  In every state the UART can reach, a host
    write is accepted exactly up to the free space of the receive FIFO and is
    never dropped or marked an overrun; a guest read of the receiver takes the
    oldest byte; a guest write to the transmitter appends to the outgoing
    bytes, or in loop-back mode to the receive FIFO unless it is full; a host
    read takes the oldest outgoing bytes; only a FIFO control write can
    discard received bytes, and nothing else touches either queue. *)
Lemma uart_queues attached e0 ops u e now :
  (setIRQ <> None -> line e0 = false) -> uart_run (uart_init attached, e0) ops = Some (u, e) ->
  (forall data u' e' n, serialTransfer_write setIRQ u e data now = (u', e', (n, None)) ->
     u_tx u' = u_tx u /\ u_overrun u' = u_overrun u /\ rx_queue u' = rx_queue u ++ slice 0 n data /\
     n = (if bit_set (u_mcr u) 0x10 then 0 else Z.min (zlen data) (uart_capacity u - zlen (rx_queue u)))) /\
  (forall n u' e' data, 0 <= n -> serialTransfer_read setIRQ u e n = (u', e', (data, None)) ->
     rx_queue u' = rx_queue u /\ u_tx u = data ++ u_tx u' /\ zlen data = Z.min n (zlen (u_tx u))) /\
  (forall reg u' e' v, uart_read setIRQ u e reg now = (u', e', (v, None)) ->
     u_tx u' = u_tx u /\
     if to_transmitter u reg
     then match rx_queue u with [] => v = 0 /\ rx_queue u' = [] | b :: q => v = b /\ rx_queue u' = q end
     else rx_queue u' = rx_queue u) /\
  (forall reg value u' e' c, 0 <= value -> uart_write setIRQ u e reg value now None = (u', e', c, None) ->
     if to_transmitter u reg
     then if bit_set (u_mcr u) 0x10
          then u_tx u' = u_tx u /\
               rx_queue u' = (if u_rxCount u =? uart_capacity u then rx_queue u else rx_queue u ++ [value])
          else rx_queue u' = rx_queue u /\ u_tx u' = (if u_attached u then u_tx u ++ [value] else u_tx u)
     else u_tx u' = u_tx u /\
          rx_queue u' = (if (reg =? 2) && (bit_set (Z.lxor (u_fcr u) value) 1 || bit_set value 2)
                         then [] else rx_queue u)).
Proof.
  intros He Hrun. pose proof (uart_run_ok ops _ _ _ _ (uart_init_ok attached e0 He) Hrun) as Hok.
  pose proof Hok as [Hwf _]. split_and!.
  - intros data u' e' n H. by destruct (serialTransfer_write_ok _ _ _ _ _ _ _ Hok H) as (_ & ? & ? & ? & ?).
  - intros n u' e' data Hn H. by destruct (serialTransfer_read_ok _ _ _ _ _ _ Hn Hok H) as (_ & ?).
  - intros reg u' e' v H. destruct (uart_read_ok _ _ _ _ _ _ _ Hok H) as (_ & u1 & latch & Hr & [R1 T1]).
    rewrite R1, T1. destruct (read_effect_wf _ _ _ _ _ _ Hwf Hr) as (_ & _ & ->). split; [done|].
    by apply read_effect_queue with (now := now) (latch := latch).
  - intros reg value u' e' c Hv H. destruct (uart_write_ok _ _ _ _ _ _ _ _ _ Hv Hok H) as [_ H1].
    destruct (to_transmitter u reg) eqn:Et; [done|]. destruct H1 as (u1 & latch & Hw & [R1 T1]). rewrite R1, T1.
    by apply (write_effect_queue u reg value u1 latch).
Qed.

(** C25.  The UART.  Whatever the guest reads and writes, the host sends and
    receives, the BIOS service sets and the platform polls or fires, at
    whatever times: as long as no call reports an error, line 4 is high
    exactly when interrupts are enabled in the modem control register and the
    UART has a cause to signal.  In every such state a host write is accepted
    exactly up to the free space of the receive FIFO and is never dropped or
    marked an overrun; a guest read of the receiver takes the oldest byte; a
    guest write to the transmitter appends to the outgoing bytes, or in
    loop-back mode to the receive FIFO unless it is full; a host read takes
    the oldest outgoing bytes; only a FIFO control write can discard received
    bytes, and nothing else touches either queue. *)
Theorem uart_correct attached e0 ops u e now :
  (setIRQ <> None -> line e0 = false) -> uart_run (uart_init attached, e0) ops = Some (u, e) ->
  (u_irq u = uart_level u /\ (setIRQ <> None -> line e = uart_level u)) /\
  (forall data u' e' n, serialTransfer_write setIRQ u e data now = (u', e', (n, None)) ->
     u_tx u' = u_tx u /\ u_overrun u' = u_overrun u /\ rx_queue u' = rx_queue u ++ slice 0 n data /\
     n = (if bit_set (u_mcr u) 0x10 then 0 else Z.min (zlen data) (uart_capacity u - zlen (rx_queue u)))) /\
  (forall n u' e' data, 0 <= n -> serialTransfer_read setIRQ u e n = (u', e', (data, None)) ->
     rx_queue u' = rx_queue u /\ u_tx u = data ++ u_tx u' /\ zlen data = Z.min n (zlen (u_tx u))) /\
  (forall reg u' e' v, uart_read setIRQ u e reg now = (u', e', (v, None)) ->
     u_tx u' = u_tx u /\
     if to_transmitter u reg
     then match rx_queue u with [] => v = 0 /\ rx_queue u' = [] | b :: q => v = b /\ rx_queue u' = q end
     else rx_queue u' = rx_queue u) /\
  (forall reg value u' e' c, 0 <= value -> uart_write setIRQ u e reg value now None = (u', e', c, None) ->
     if to_transmitter u reg
     then if bit_set (u_mcr u) 0x10
          then u_tx u' = u_tx u /\
               rx_queue u' = (if u_rxCount u =? uart_capacity u then rx_queue u else rx_queue u ++ [value])
          else rx_queue u' = rx_queue u /\ u_tx u' = (if u_attached u then u_tx u ++ [value] else u_tx u)
     else u_tx u' = u_tx u /\
          rx_queue u' = (if (reg =? 2) && (bit_set (Z.lxor (u_fcr u) value) 1 || bit_set value 2)
                         then [] else rx_queue u)).
Proof.
  intros He Hrun. split; [by apply (uart_irq_line attached e0 ops)|by apply (uart_queues attached e0 ops)].
Qed.
End Interrupts.

(** A controller with one line. *)
Definition demo_irq (e : bool) (level : bool) : bool * option error := (level, None).

(** Enable the FIFO with a trigger of four and the receive interrupt, let the
    host send three bytes and the receiver time out. *)
Definition demo_uart_ops : list (Z * uart_op) :=
  [(0, UWrite 2 0x41); (0, UWrite 1 1); (0, UWrite 4 8); (10, UHostWrite [65; 66; 67]); (20, UFire); (30, URead 2)].

Lemma demo_irq_line f e level e' : Some demo_irq = Some f -> f e level = (e', None) -> e' = level.
Proof. intros Hf He. injection Hf as <-. by injection He as <-. Qed.

Lemma uart_correct_witness :
  exists u e, uart_run (Some demo_irq) (uart_init true, false) demo_uart_ops = Some (u, e) /\
    e = true /\ uart_level u = true /\
    forall u' e' v, uart_read (Some demo_irq) u e 0 40 = (u', e', (v, None)) -> v = 65 /\ rx_queue u' = [66; 67].
Proof.
  destruct (uart_run (Some demo_irq) (uart_init true, false) demo_uart_ops) as [[u e]|] eqn:Hrun;
    [|vm_compute in Hrun; discriminate Hrun].
  exists u, e. split; [reflexivity|].
  destruct (uart_correct (Some demo_irq) (fun e => e) demo_irq_line true false demo_uart_ops u e 40)
    as ([_ Hl] & _ & _ & Hread & _); [intros _; reflexivity|exact Hrun|].
  assert (He : e = true) by (vm_compute in Hrun; injection Hrun as _ <-; reflexivity).
  split; [exact He|]. split; [rewrite <- Hl; [exact He|discriminate]|]. intros u' e' v Hr.
  destruct (Hread 0 u' e' v Hr) as [_ Hq]. vm_compute in Hrun. injection Hrun as <- <-. exact Hq.
Defined.
