(* ===== verification/RingChannel.v ===== *)
(** Package [vmm/cc]: the shared-memory channel between host and guest, two
    rings with free-running counters ([transfer] of src/vmm/cc/channel.go). *)

From S2P Require Import Prelude GoLib.
From stdpp Require Import base numbers list gmap sorting strings.

Open Scope Z_scope.
Open Scope trex_scope.

#[local] Ltac Zify.zify_post_hook ::= Z.to_euclidean_division_equations.

Definition channelSize : Z := 4096.
Definition channelCapacity : Z := 1024.

(** [binary.LittleEndian.Uint32(memory[off:])]. *)
Definition load32 (memory : bytes) (off : Z) : Z := le_val (slice off 4 memory).
Definition store32 (memory : bytes) (off v : Z) : bytes := splice memory off (le_bytes 4 v).

(** The loop that copies [data] into the ring from counter [w]. *)
Fixpoint ring_store (memory : bytes) (base w : Z) (data : bytes) : bytes :=
  match data with
  | [] => memory
  | b :: data => ring_store (<[Z.to_nat (base + u32 w mod channelCapacity) := b]> memory) base (w + 1) data
  end.

(** The loop that copies [n] bytes out of the ring from counter [r]. *)
Definition ring_load (memory : bytes) (base r n : Z) : bytes :=
  range (fun i => nthb memory (base + u32 (r + i) mod channelCapacity)) 0 n.

Definition counters_error : error := Errorf "invalid shared-memory channel counters".

(** [transfer]: the new memory, the caller's buffer and the count. *)
Definition transfer (memory data : bytes) (write : bool) : bytes * bytes * res Z :=
  let '(producer, consumer, base) := if write then (32, 36, 64) else (40, 44, 1088) in
  let w := load32 memory producer in
  let r := load32 memory consumer in
  let used := u32 (w - r) in
  if channelCapacity <? used then (memory, data, Err counters_error)
  else
    let available := if write then channelCapacity - used else used in
    let n := Z.min (zlen data) available in
    if write then (store32 (ring_store memory base w (slice 0 n data)) producer (u32 (w + n)), data, Ok n)
    else (store32 memory consumer (u32 (r + n)), splice data 0 (ring_load memory base r n), Ok n).

(** ** The rings as queues *)

(** A ring: where its producer counter, its consumer counter and its bytes
    are. *)
Record ring := MkRing { rg_producer : Z; rg_consumer : Z; rg_base : Z }.

Definition to_guest : ring := MkRing 32 36 64.
Definition to_host : ring := MkRing 40 44 1088.

Definition ring_used (q : ring) (memory : bytes) : Z :=
  u32 (load32 memory (rg_producer q) - load32 memory (rg_consumer q)).

Definition ring_queue (q : ring) (memory : bytes) : bytes :=
  ring_load memory (rg_base q) (load32 memory (rg_consumer q)) (ring_used q memory).

(** The memory is the whole aperture, made of bytes. *)
Definition aperture (memory : bytes) : Prop := zlen memory = channelSize /\ bytes_ok memory.

(** ** Memory *)

Lemma load32_range memory off : aperture memory -> 0 <= off -> off + 4 <= 4096 -> 0 <= load32 memory off < 4294967296.
Proof.
  intros [Hl Hb] Ho He. unfold load32.
  assert (Hok : bytes_ok (slice off 4 memory)) by (unfold slice; by apply Forall_take, Forall_drop).
  pose proof (le_val_bound _ Hok) as Hv. rewrite zlen_slice in Hv by (unfold channelSize in *; lia). exact Hv.
Qed.

Lemma load32_ext memory memory' off :
  zlen memory = zlen memory' -> 0 <= off -> off + 4 <= zlen memory ->
  (forall i, off <= i < off + 4 -> nthb memory i = nthb memory' i) -> load32 memory off = load32 memory' off.
Proof.
  intros Hl Ho He H. unfold load32. f_equal. rewrite !slice_range by lia. by apply range_ext.
Qed.

Lemma nthb_store32 memory off v i :
  0 <= off -> off + 4 <= zlen memory ->
  nthb (store32 memory off v) i = if decide (off <= i < off + 4) then nthb (le_bytes 4 v) (i - off) else nthb memory i.
Proof.
  intros Ho He. unfold store32. rewrite nthb_splice by (rewrite ?zlen_le_bytes; lia).
  unfold upd. rewrite zlen_le_bytes.
  case_decide; destruct (Z.leb_spec off i), (Z.ltb_spec i (off + Z.of_nat 4)); simpl; lia || done.
Qed.

Lemma zlen_store32 memory off v : 0 <= off -> off + 4 <= zlen memory -> zlen (store32 memory off v) = zlen memory.
Proof. intros. unfold store32. apply zlen_splice; rewrite ?zlen_le_bytes; lia. Qed.

Lemma load32_store32 memory off v :
  0 <= off -> off + 4 <= zlen memory -> 0 <= v < 4294967296 -> load32 (store32 memory off v) off = v.
Proof.
  intros Ho He Hv. unfold load32. rewrite slice_range by (rewrite ?zlen_store32; lia).
  replace (range (nthb (store32 memory off v)) off 4) with (le_bytes 4 v); [by apply le_roundtrip|].
  rewrite <- (range_nthb (le_bytes 4 v)) at 1. rewrite zlen_le_bytes. apply range_shift. intros i Hi.
  rewrite nthb_store32, decide_True by lia. f_equal. lia.
Qed.

Lemma zlen_ring_store memory base w d : zlen (ring_store memory base w d) = zlen memory.
Proof.
  revert memory w. induction d as [|b d IH]; intros memory w; cbn [ring_store]; [done|].
  rewrite IH. unfold zlen. by rewrite length_insert.
Qed.

Lemma slot_mod w : u32 w mod channelCapacity = w mod 1024.
Proof. unfold u32, channelCapacity. lia. Qed.

(** The bytes a store leaves alone: everything but the slots of its counters. *)
Lemma ring_store_other memory base w d i :
  0 <= base -> base + 1024 <= zlen memory -> 0 <= i ->
  (forall k, 0 <= k < zlen d -> i <> base + (w + k) mod 1024) ->
  nthb (ring_store memory base w d) i = nthb memory i.
Proof.
  intros Hb Hm Hi0. revert memory w Hm. induction d as [|b d IH]; intros memory w Hm Hi; cbn [ring_store]; [done|].
  rewrite zlen_cons in Hi. pose proof (zlen_nonneg d). rewrite slot_mod.
  assert (Hz : zlen (<[Z.to_nat (base + w mod 1024) := b]> memory) = zlen memory) by (unfold zlen; by rewrite length_insert).
  rewrite IH.
  - rewrite nthb_insert by lia. case_decide as E; [|done].
    exfalso. apply (Hi 0); [lia|]. rewrite Z.add_0_r. lia.
  - lia.
  - intros k Hk. replace (w + 1 + k) with (w + (1 + k)) by lia. apply Hi. lia.
Qed.

Lemma ring_store_slot memory base w d k :
  0 <= base -> base + 1024 <= zlen memory -> zlen d <= 1024 -> 0 <= k < zlen d ->
  nthb (ring_store memory base w d) (base + (w + k) mod 1024) = nthb d k.
Proof.
  intros Hb. revert memory w k. induction d as [|b d IH]; intros memory w k Hm Hd Hk; cbn [ring_store].
  { unfold zlen in Hk. simpl in Hk. lia. }
  rewrite zlen_cons in Hd, Hk. pose proof (zlen_nonneg d). rewrite slot_mod.
  assert (Hz : zlen (<[Z.to_nat (base + w mod 1024) := b]> memory) = zlen memory) by (unfold zlen; by rewrite length_insert).
  destruct (decide (k = 0)) as [->|Hk0].
  - rewrite ring_store_other by (try lia; intros j Hj; lia).
    rewrite Z.add_0_r, nthb_insert by lia. by rewrite decide_True by lia.
  - replace (w + k) with (w + 1 + (k - 1)) by lia. rewrite IH by lia.
    replace (b :: d) with ([b] ++ d) by done. rewrite nthb_app.
    destruct (Z.ltb_spec k (zlen [b])) as [H'|H']; rewrite zlen_cons, zlen_nil in H'; [lia|].
    f_equal.
Qed.

(** ** Appending to and consuming from a ring *)

Definition ring_push (q : ring) (memory d : bytes) : bytes :=
  store32 (ring_store memory (rg_base q) (load32 memory (rg_producer q)) d)
    (rg_producer q) (u32 (load32 memory (rg_producer q) + zlen d)).

Definition ring_pop (q : ring) (memory : bytes) (n : Z) : bytes :=
  store32 memory (rg_consumer q) (u32 (load32 memory (rg_consumer q) + n)).

(** The layout of a ring: counters in the header, bytes after it. *)
Definition ring_layout (q : ring) : Prop :=
  0 <= rg_producer q <= 60 /\ 0 <= rg_consumer q <= 60 /\
  (rg_producer q + 4 <= rg_consumer q \/ rg_consumer q + 4 <= rg_producer q) /\
  64 <= rg_base q <= 3072.

(** Two rings that share no byte. *)
Definition ring_disjoint (q k : ring) : Prop :=
  (forall a b, a = rg_producer q \/ a = rg_consumer q -> b = rg_producer k \/ b = rg_consumer k ->
     a + 4 <= b \/ b + 4 <= a) /\
  (rg_base q + 1024 <= rg_base k \/ rg_base k + 1024 <= rg_base q).

Lemma host_guest_layout : ring_layout to_guest /\ ring_layout to_host /\
  ring_disjoint to_guest to_host /\ ring_disjoint to_host to_guest.
Proof. unfold ring_layout, ring_disjoint; simpl. split_and!; try lia; intros a b [] []; lia. Qed.

Lemma ring_push_frame q memory d i :
  ring_layout q -> aperture memory -> 0 <= i ->
  ~ (rg_producer q <= i < rg_producer q + 4) ->
  (forall k, 0 <= k < zlen d -> i <> rg_base q + (load32 memory (rg_producer q) + k) mod 1024) ->
  nthb (ring_push q memory d) i = nthb memory i.
Proof.
  intros (Hp & Hc & Hd & Hb) [Hl _] Hi Hn Hs. unfold channelSize in Hl. unfold ring_push.
  rewrite nthb_store32, decide_False by (rewrite ?zlen_ring_store; lia).
  apply ring_store_other; [lia..|done].
Qed.

Lemma zlen_ring_push q memory d : ring_layout q -> aperture memory -> zlen (ring_push q memory d) = 4096.
Proof.
  intros (Hp & Hc & Hd & Hb) [Hl _]. unfold channelSize in Hl. unfold ring_push.
  rewrite zlen_store32; rewrite ?zlen_ring_store; lia.
Qed.

Lemma ring_store_ok memory base w d : bytes_ok memory -> bytes_ok d -> bytes_ok (ring_store memory base w d).
Proof.
  intros Hm Hd. revert memory w Hm. induction Hd as [|b d Hb Hd IH]; intros memory w Hm; cbn [ring_store]; [done|].
  apply IH. by apply Forall_insert.
Qed.

Lemma store32_ok memory off v : bytes_ok memory -> bytes_ok (store32 memory off v).
Proof.
  intros. unfold store32, splice, bytes_ok. rewrite !Forall_app.
  split_and!; [by apply Forall_take|apply le_bytes_ok|by apply Forall_drop].
Qed.

Lemma ring_push_aperture q memory d :
  ring_layout q -> aperture memory -> bytes_ok d -> aperture (ring_push q memory d).
Proof.
  intros Hq Hm Hd. split; [by apply zlen_ring_push|]. apply store32_ok, ring_store_ok; [apply Hm|done].
Qed.

Lemma ring_pop_frame q memory n i :
  ring_layout q -> aperture memory -> ~ (rg_consumer q <= i < rg_consumer q + 4) ->
  nthb (ring_pop q memory n) i = nthb memory i.
Proof.
  intros (Hp & Hc & Hd & Hb) [Hl _] Hn. unfold channelSize in Hl. unfold ring_pop.
  by rewrite nthb_store32, decide_False by lia.
Qed.

Lemma ring_pop_aperture q memory n : ring_layout q -> aperture memory -> aperture (ring_pop q memory n).
Proof.
  intros (Hp & Hc & Hd & Hb) [Hl Hm]. unfold channelSize in Hl. split; [|by apply store32_ok].
  unfold ring_pop. rewrite zlen_store32 by lia. done.
Qed.

(** A ring reads the same from two memories that agree on it. *)
Lemma ring_ext q memory memory' :
  ring_layout q -> aperture memory -> aperture memory' ->
  (forall a i, a = rg_producer q \/ a = rg_consumer q -> a <= i < a + 4 -> nthb memory i = nthb memory' i) ->
  (forall i, rg_base q <= i < rg_base q + 1024 -> nthb memory i = nthb memory' i) ->
  ring_used q memory = ring_used q memory' /\ ring_queue q memory = ring_queue q memory'.
Proof.
  intros (Hp & Hc & Hd & Hb) [Hl _] [Hl' _] Hw Hs. unfold channelSize in *.
  assert (Ew : forall a, a = rg_producer q \/ a = rg_consumer q -> load32 memory a = load32 memory' a).
  { intros a Ha. apply load32_ext; [lia..|]. intros i Hi. by apply (Hw a). }
  assert (Eu : ring_used q memory = ring_used q memory') by (unfold ring_used; by rewrite !Ew by auto).
  split; [done|]. unfold ring_queue, ring_load. rewrite Eu, (Ew (rg_consumer q)) by auto.
  apply range_ext. intros i Hi. apply Hs. rewrite slot_mod. lia.
Qed.

Lemma ring_push_other q k memory d :
  ring_layout q -> ring_layout k -> ring_disjoint q k -> aperture memory -> bytes_ok d ->
  ring_used k (ring_push q memory d) = ring_used k memory /\ ring_queue k (ring_push q memory d) = ring_queue k memory.
Proof.
  intros Hq Hk [Hw Hb] Hm Hd. pose proof Hq as (Hq1 & Hq2 & Hq3 & Hq4). pose proof Hk as (Hk1 & Hk2 & Hk3 & Hk4).
  apply ring_ext; auto using ring_push_aperture.
  - intros a i Ha Hi. pose proof (Hw (rg_producer q) a (or_introl eq_refl) Ha).
    apply ring_push_frame; auto; [destruct Ha; lia|lia|]. intros j Hj. destruct Ha; lia.
  - intros i Hi. apply ring_push_frame; auto; lia.
Qed.

Lemma ring_pop_other q k memory n :
  ring_layout q -> ring_layout k -> ring_disjoint q k -> aperture memory ->
  ring_used k (ring_pop q memory n) = ring_used k memory /\ ring_queue k (ring_pop q memory n) = ring_queue k memory.
Proof.
  intros Hq Hk [Hw Hb] Hm. pose proof Hq as (Hq1 & Hq2 & Hq3 & Hq4). pose proof Hk as (Hk1 & Hk2 & Hk3 & Hk4).
  apply ring_ext; auto using ring_pop_aperture.
  - intros a i Ha Hi. pose proof (Hw (rg_consumer q) a (or_intror eq_refl) Ha).
    apply ring_pop_frame; auto; lia.
  - intros i Hi. apply ring_pop_frame; auto; lia.
Qed.

Lemma ring_push_self q memory d :
  ring_layout q -> aperture memory -> ring_used q memory + zlen d <= 1024 ->
  ring_used q (ring_push q memory d) = ring_used q memory + zlen d /\
  ring_queue q (ring_push q memory d) = ring_queue q memory ++ d.
Proof.
  intros Hq Hm Hd. pose proof Hq as (Hp & Hc & Hdis & Hb). pose proof (zlen_nonneg d).
  pose proof (load32_range memory (rg_producer q) Hm ltac:(lia) ltac:(lia)) as Hw.
  pose proof (load32_range memory (rg_consumer q) Hm ltac:(lia) ltac:(lia)) as Hr.
  assert (Ew : load32 (ring_push q memory d) (rg_producer q) = u32 (load32 memory (rg_producer q) + zlen d)).
  { unfold ring_push. apply load32_store32; [lia| |unfold u32; lia].
    rewrite zlen_ring_store. destruct Hm. unfold channelSize in *. lia. }
  assert (Er : load32 (ring_push q memory d) (rg_consumer q) = load32 memory (rg_consumer q)).
  { apply load32_ext; rewrite ?zlen_ring_push by done; [by destruct Hm|lia..|].
    intros i Hi. apply ring_push_frame; auto; lia. }
  assert (Eu : ring_used q (ring_push q memory d) = ring_used q memory + zlen d).
  { unfold ring_used in *. rewrite Ew, Er. unfold u32 in *. lia. }
  split; [done|]. unfold ring_queue. rewrite Eu, Er. unfold ring_load.
  assert (0 <= ring_used q memory) by (unfold ring_used, u32; lia).
  rewrite range_add by lia. f_equal.
  - apply range_ext. intros i Hi. rewrite slot_mod.
    apply ring_push_frame; auto; [lia..|]. intros k Hk. unfold ring_used, u32 in *. lia.
  - rewrite <- (range_nthb d) at 2. apply range_shift. intros i Hi. rewrite slot_mod, Z.add_0_l.
    replace ((load32 memory (rg_consumer q) + (ring_used q memory + i)) mod 1024)
      with ((load32 memory (rg_producer q) + i) mod 1024) by (unfold ring_used, u32; lia).
    unfold ring_push. destruct Hm as [Hl _]. unfold channelSize in Hl.
    rewrite nthb_store32, decide_False by (rewrite ?zlen_ring_store; lia).
    apply ring_store_slot; lia.
Qed.

Lemma ring_pop_self q memory n :
  ring_layout q -> aperture memory -> 0 <= n <= ring_used q memory -> ring_used q memory <= 1024 ->
  ring_used q (ring_pop q memory n) = ring_used q memory - n /\
  ring_queue q memory = ring_load memory (rg_base q) (load32 memory (rg_consumer q)) n ++ ring_queue q (ring_pop q memory n).
Proof.
  intros Hq Hm Hn Hu. pose proof Hq as (Hp & Hc & Hdis & Hb).
  pose proof (load32_range memory (rg_producer q) Hm ltac:(lia) ltac:(lia)) as Hw.
  pose proof (load32_range memory (rg_consumer q) Hm ltac:(lia) ltac:(lia)) as Hr.
  assert (Er : load32 (ring_pop q memory n) (rg_consumer q) = u32 (load32 memory (rg_consumer q) + n)).
  { unfold ring_pop. apply load32_store32; [lia| |unfold u32; lia]. destruct Hm. unfold channelSize in *. lia. }
  assert (Ew : load32 (ring_pop q memory n) (rg_producer q) = load32 memory (rg_producer q)).
  { destruct (ring_pop_aperture q memory n Hq Hm) as [Hl' _]. destruct Hm as [Hl Hok]. unfold channelSize in *.
    apply load32_ext; [lia..|]. intros i Hi. apply ring_pop_frame; [done|done|lia]. }
  assert (Eu : ring_used q (ring_pop q memory n) = ring_used q memory - n).
  { unfold ring_used in *. rewrite Ew, Er. unfold u32 in *. lia. }
  split; [done|]. unfold ring_queue. rewrite Eu, Er. unfold ring_load.
  replace (ring_used q memory) with (n + (ring_used q memory - n)) at 1 by lia.
  rewrite range_add by lia. f_equal. apply range_shift. intros i Hi. rewrite !slot_mod, Z.add_0_l.
  rewrite ring_pop_frame by (done || lia). do 2 f_equal. unfold u32. lia.
Qed.

Lemma transfer_write_push memory data :
  ring_used to_guest memory <= 1024 ->
  let n := Z.min (zlen data) (1024 - ring_used to_guest memory) in
  transfer memory data true = (ring_push to_guest memory (slice 0 n data), data, Ok n).
Proof.
  intros Hu n. unfold transfer, ring_push, n, ring_used, to_guest in *; simpl in *.
  unfold channelCapacity. destruct (Z.ltb_spec 1024 (u32 (load32 memory 32 - load32 memory 36))); [lia|].
  pose proof (zlen_nonneg data). by rewrite zlen_slice by lia.
Qed.

Lemma transfer_read_pop memory data :
  ring_used to_host memory <= 1024 ->
  let n := Z.min (zlen data) (ring_used to_host memory) in
  transfer memory data false =
  (ring_pop to_host memory n, splice data 0 (ring_load memory 1088 (load32 memory 44) n), Ok n).
Proof.
  intros Hu n. unfold transfer, ring_pop, n, ring_used, to_host in *; simpl in *.
  unfold channelCapacity. by destruct (Z.ltb_spec 1024 (u32 (load32 memory 40 - load32 memory 44))); [lia|].
Qed.

(** ** The channel as two byte streams *)

(** Steps on the aperture: the host's two transfers, and the guest taking
    bytes from its ring or publishing bytes on the other. *)
Inductive chan_op :=
  | HostWrite (data : bytes)
  | HostRead (buffer : bytes)
  | GuestRead (n : Z)
  | GuestWrite (data : bytes).

(** What each side has sent and received so far. *)
Record chan_log := MkLog { host_sent : bytes; guest_got : bytes; guest_sent : bytes; host_got : bytes }.

(** A step; [None] when a transfer reports an error, or when the guest
    breaks the protocol of the ring. *)
Definition chan_step (op : chan_op) (s : bytes * chan_log) : option (bytes * chan_log) :=
  let '(memory, MkLog hs gg gs hg) := s in
  match op with
  | HostWrite data =>
      match transfer memory data true with
      | (memory', _, Ok n) => Some (memory', MkLog (hs ++ slice 0 n data) gg gs hg)
      | _ => None
      end
  | HostRead buffer =>
      match transfer memory buffer false with
      | (memory', data, Ok n) => Some (memory', MkLog hs gg gs (hg ++ slice 0 n data))
      | _ => None
      end
  | GuestRead n =>
      if (0 <=? n) && (n <=? ring_used to_guest memory) then
        Some (ring_pop to_guest memory n, MkLog hs (gg ++ ring_load memory 64 (load32 memory 36) n) gs hg)
      else None
  | GuestWrite data =>
      if ring_used to_host memory + zlen data <=? channelCapacity then
        Some (ring_push to_host memory data, MkLog hs gg (gs ++ data) hg)
      else None
  end.

Fixpoint chan_run (ops : list chan_op) (s : bytes * chan_log) : option (bytes * chan_log) :=
  match ops with
  | [] => Some s
  | op :: ops => match chan_step op s with Some s' => chan_run ops s' | None => None end
  end.

(** The bytes of an operation are bytes, and the guest keeps to the ring. *)
Definition op_bytes (op : chan_op) : Prop :=
  match op with
  | HostWrite data | HostRead data | GuestWrite data => bytes_ok data
  | GuestRead _ => True
  end.

(** Nothing is lost, repeated or reordered: what was sent is what was
    received followed by what the ring still holds. *)
Definition chan_inv (s : bytes * chan_log) : Prop :=
  let '(memory, l) := s in
  aperture memory /\ ring_used to_guest memory <= 1024 /\ ring_used to_host memory <= 1024 /\
  host_sent l = guest_got l ++ ring_queue to_guest memory /\
  guest_sent l = host_got l ++ ring_queue to_host memory.

Lemma ring_used_nonneg q memory : 0 <= ring_used q memory.
Proof. unfold ring_used, u32. lia. Qed.

Lemma zlen_ring_load memory base r n : 0 <= n -> zlen (ring_load memory base r n) = n.
Proof. intros. by apply zlen_range. Qed.

Lemma slice_ok data off n : bytes_ok data -> bytes_ok (slice off n data).
Proof. intros. by apply Forall_take, Forall_drop. Qed.

Lemma chan_push_guest memory l d :
  chan_inv (memory, l) -> bytes_ok d -> ring_used to_guest memory + zlen d <= 1024 ->
  chan_inv (ring_push to_guest memory d, MkLog (host_sent l ++ d) (guest_got l) (guest_sent l) (host_got l)).
Proof.
  intros (Ha & Hg & Hh & Es & Er) Hd Hu. destruct host_guest_layout as (L1 & L2 & D1 & D2).
  destruct (ring_push_self to_guest memory d L1 Ha Hu) as [E Eq].
  destruct (ring_push_other to_guest to_host memory d L1 L2 D1 Ha Hd) as [E1 E2].
  unfold chan_inv; cbn [host_sent guest_got guest_sent host_got]. rewrite E, Eq, E1, E2, Es, Er, !app_assoc.
  split_and!; auto using ring_push_aperture; lia.
Qed.

Lemma chan_push_host memory l d :
  chan_inv (memory, l) -> bytes_ok d -> ring_used to_host memory + zlen d <= 1024 ->
  chan_inv (ring_push to_host memory d, MkLog (host_sent l) (guest_got l) (guest_sent l ++ d) (host_got l)).
Proof.
  intros (Ha & Hg & Hh & Es & Er) Hd Hu. destruct host_guest_layout as (L1 & L2 & D1 & D2).
  destruct (ring_push_self to_host memory d L2 Ha Hu) as [E Eq].
  destruct (ring_push_other to_host to_guest memory d L2 L1 D2 Ha Hd) as [E1 E2].
  unfold chan_inv; cbn [host_sent guest_got guest_sent host_got]. rewrite E, Eq, E1, E2, Es, Er, !app_assoc.
  split_and!; auto using ring_push_aperture; lia.
Qed.

Lemma chan_pop_guest memory l n :
  chan_inv (memory, l) -> 0 <= n <= ring_used to_guest memory ->
  chan_inv (ring_pop to_guest memory n,
    MkLog (host_sent l) (guest_got l ++ ring_load memory 64 (load32 memory 36) n) (guest_sent l) (host_got l)).
Proof.
  intros (Ha & Hg & Hh & Es & Er) Hn. destruct host_guest_layout as (L1 & L2 & D1 & D2).
  destruct (ring_pop_self to_guest memory n L1 Ha Hn Hg) as [E Eq].
  destruct (ring_pop_other to_guest to_host memory n L1 L2 D1 Ha) as [E1 E2].
  unfold chan_inv; cbn [host_sent guest_got guest_sent host_got].
  rewrite E, E1, E2, Es, Eq, Er, <- ?app_assoc. split_and!; auto using ring_pop_aperture; lia.
Qed.

Lemma chan_pop_host memory l n :
  chan_inv (memory, l) -> 0 <= n <= ring_used to_host memory ->
  chan_inv (ring_pop to_host memory n,
    MkLog (host_sent l) (guest_got l) (guest_sent l) (host_got l ++ ring_load memory 1088 (load32 memory 44) n)).
Proof.
  intros (Ha & Hg & Hh & Es & Er) Hn. destruct host_guest_layout as (L1 & L2 & D1 & D2).
  destruct (ring_pop_self to_host memory n L2 Ha Hn Hh) as [E Eq].
  destruct (ring_pop_other to_host to_guest memory n L2 L1 D2 Ha) as [E1 E2].
  unfold chan_inv; cbn [host_sent guest_got guest_sent host_got].
  rewrite E, E1, E2, Es, Er, Eq, <- ?app_assoc. split_and!; auto using ring_pop_aperture; lia.
Qed.

Lemma slice_splice_prefix (data d : bytes) : zlen d <= zlen data -> slice 0 (zlen d) (splice data 0 d) = d.
Proof.
  intros H. unfold slice, splice. change (Z.to_nat 0) with 0%nat. rewrite drop_0, take_0. simpl.
  rewrite take_app_le by (unfold zlen; lia). apply take_ge. unfold zlen. lia.
Qed.

Lemma chan_step_inv op s s' : op_bytes op -> chan_inv s -> chan_step op s = Some s' -> chan_inv s'.
Proof.
  destruct s as [memory [hs gg gs hg]]. intros Hop Hi. pose proof Hi as (Ha & Hg & Hh & _).
  pose proof (ring_used_nonneg to_guest memory). pose proof (ring_used_nonneg to_host memory).
  destruct op as [data|buffer|n|data]; cbn [chan_step op_bytes] in *.
  - rewrite transfer_write_push by done. intros [= <-]. pose proof (zlen_nonneg data).
    apply (chan_push_guest memory _ _ Hi); [by apply slice_ok|]. rewrite zlen_slice; lia.
  - rewrite transfer_read_pop by done. cbv zeta. intros [= <-]. pose proof (zlen_nonneg buffer).
    set (n := Z.min _ _). set (d := ring_load _ _ _ n).
    assert (E : slice 0 n (splice buffer 0 d) = d).
    { assert (Hz : zlen d = n) by (apply zlen_ring_load; lia). rewrite <- Hz at 1. apply slice_splice_prefix. lia. }
    rewrite E. apply (chan_pop_host memory _ n Hi). lia.
  - destruct (Z.leb_spec 0 n), (Z.leb_spec n (ring_used to_guest memory)); simpl; try done.
    intros [= <-]. by apply (chan_pop_guest memory _ n Hi).
  - destruct (Z.leb_spec (ring_used to_host memory + zlen data) channelCapacity); [|done].
    intros [= <-]. by apply (chan_push_host memory _ data Hi).
Qed.

Lemma chan_run_inv ops s s' : Forall op_bytes ops -> chan_inv s -> chan_run ops s = Some s' -> chan_inv s'.
Proof.
  intros Hops. revert s. induction Hops as [|op ops Hop _ IH]; intros s Hs; cbn [chan_run]; [by intros [= <-]|].
  destruct (chan_step op s) as [s1|] eqn:E1; [|done]. apply IH. by eapply chan_step_inv.
Qed.

Definition chan_start : bytes * chan_log := (zeros channelSize, MkLog [] [] [] []).

Lemma chan_start_inv : chan_inv chan_start.
Proof.
  assert (aperture (zeros channelSize)) by (split; [done|apply Forall_replicate; unfold byte_ok; lia]).
  unfold chan_inv, chan_start. split_and!; [done|..]; by vm_compute.
Qed.

(** C26. [transfer] carries two byte streams through the shared aperture.
    After any sequence of host transfers and guest steps that keep to the
    ring protocol, from the zeroed aperture: the bytes a side has sent are
    the bytes the other side has received followed by the bytes its ring
    holds, in order, however often the 32-bit counters and the 1024-byte
    rings have wrapped; a host write accepts as many bytes as the ring has
    room for, a host read fills the buffer with the front of the ring, and
    neither reports an error. *)
Theorem transfer_streams ops memory l :
  Forall op_bytes ops -> chan_run ops chan_start = Some (memory, l) ->
  host_sent l = guest_got l ++ ring_queue to_guest memory /\
  guest_sent l = host_got l ++ ring_queue to_host memory /\
  zlen (ring_queue to_guest memory) <= channelCapacity /\ zlen (ring_queue to_host memory) <= channelCapacity /\
  (forall data, snd (transfer memory data true) =
     Ok (Z.min (zlen data) (channelCapacity - zlen (ring_queue to_guest memory)))) /\
  (forall buffer, let n := Z.min (zlen buffer) (zlen (ring_queue to_host memory)) in
     snd (transfer memory buffer false) = Ok n /\
     snd (fst (transfer memory buffer false)) = splice buffer 0 (slice 0 n (ring_queue to_host memory))).
Proof.
  intros Hops Hrun. destruct (chan_run_inv _ _ _ Hops chan_start_inv Hrun) as (Ha & Hg & Hh & Es & Er).
  pose proof (ring_used_nonneg to_guest memory). pose proof (ring_used_nonneg to_host memory).
  assert (Ez : forall q, zlen (ring_queue q memory) = ring_used q memory)
    by (intros q; apply zlen_ring_load, ring_used_nonneg).
  rewrite !Ez. split_and!; [done..| |].
  - intros data. by rewrite transfer_write_push.
  - intros buffer. cbv zeta. rewrite transfer_read_pop by done. split; [done|].
    set (n := Z.min _ _). cbn [fst snd]. f_equal. pose proof (zlen_nonneg buffer). destruct host_guest_layout as (_ & L2 & _).
    destruct (ring_pop_self to_host memory n L2 Ha ltac:(lia) Hh) as [_ Eq]. rewrite Eq.
    change (ring_load memory (rg_base to_host) (load32 memory (rg_consumer to_host)) n)
      with (ring_load memory 1088 (load32 memory 44) n).
    assert (Hz : zlen (ring_load memory 1088 (load32 memory 44) n) = n) by (apply zlen_ring_load; lia).
    unfold slice. change (Z.to_nat 0) with 0%nat. rewrite drop_0, take_app_le by (unfold zlen in Hz; lia).
    symmetry. apply take_ge. unfold zlen in Hz. lia.
Qed.

(** A write larger than the ring, drained by the guest in two steps, an
    answer read back, and a second write that wraps round the ring. *)
Lemma transfer_streams_witness :
  exists memory l,
    chan_run [HostWrite (zeros 1000 ++ [1; 2; 3]); GuestRead 1001; GuestWrite [7; 8; 9]; HostRead (zeros 2);
              HostWrite (replicate 40 5); GuestRead 2] chan_start = Some (memory, l) /\
    host_got l = [7; 8] /\ ring_queue to_guest memory = replicate 40 5 /\ ring_queue to_host memory = [9] /\
    host_sent l = guest_got l ++ ring_queue to_guest memory.
Proof.
  set (ops := [HostWrite (zeros 1000 ++ [1; 2; 3]); GuestRead 1001; GuestWrite [7; 8; 9]; HostRead (zeros 2);
              HostWrite (replicate 40 5); GuestRead 2]).
  assert (Hsome : match chan_run ops chan_start with
    | Some (m, l) => bool_decide (host_got l = [7; 8] /\ ring_queue to_guest m = replicate 40 5 /\ ring_queue to_host m = [9])
    | None => false end = true) by (vm_compute; reflexivity).
  destruct (chan_run ops chan_start) as [[memory l]|] eqn:Hrun; [|done].
  apply bool_decide_eq_true in Hsome as (E1 & E2 & E3).
  assert (Hops : Forall op_bytes ops).
  { unfold ops. rewrite !Forall_cons. unfold op_bytes, bytes_ok, zeros. rewrite Forall_app, !Forall_cons.
    assert (Hrep : forall n v, byte_ok v -> Forall byte_ok (replicate n v)) by (intros; by apply Forall_replicate).
    split_and!; try apply Hrep; try apply Forall_nil_2; try exact I; unfold byte_ok; lia. }
  exists memory, l. pose proof (transfer_streams ops memory l Hops Hrun) as (Hs & _).
  split; [reflexivity|]. exact (conj E1 (conj E2 (conj E3 Hs))).
Defined.
