(* ===== verification/Ethernet.v ===== *)
(** Package [vmm/ethernet]: the in-memory learning switch
    (src/vmm/ethernet/switch.go).

    Ports are pointers in the source: here an identifier into a heap of
    ports, which keeps closed ports. The order in which Go ranges over the
    map of ports is an argument of [Port_Send]. *)

From S2P Require Import Prelude GoLib.
From stdpp Require Import base numbers list gmap sorting strings.

Open Scope Z_scope.
Open Scope trex_scope.

Definition MaxFrame : Z := 1518.

Record Port := MkPort { pt_queue : list bytes; pt_closed : bool }.

Record Switch := MkSwitch {
  sw_heap : gmap nat Port;
  sw_ports : gset nat;
  sw_learned : gmap bytes nat;
}.

Definition NewSwitch : Switch := MkSwitch ∅ ∅ ∅.

Definition port_of (s : Switch) (p : nat) : Port := default (MkPort [] true) (sw_heap s !! p).
Definition queue_of (s : Switch) (p : nat) : list bytes := pt_queue (port_of s p).

Definition ErrClosed : error := Errorf "Ethernet port closed".

(** [Connect] returns the new port. *)
Definition Switch_Connect (s : Switch) : Switch * nat :=
  let p := fresh (dom (sw_heap s)) in
  (MkSwitch (<[p := MkPort [] false]> (sw_heap s)) ({[p]} ∪ sw_ports s) (sw_learned s), p).

Definition multicast (mac : bytes) : bool := negb (Z.land (nthb mac 0) 1 =? 0).

Definition learn (p : nat) (source : bytes) (learned : gmap bytes nat) : gmap bytes nat :=
  if negb (multicast source) && ((Z.of_nat (size learned) <? 1024) || bool_decide (is_Some (learned !! source)))
  then <[source := p]> learned else learned.

(** The guard of the delivery loop, for one peer. *)
Definition skip_peer (p : nat) (destination : bytes) (target : option nat) (peer : nat) : bool :=
  bool_decide (peer = p) ||
  negb (multicast destination) && match target with Some t => negb (bool_decide (peer = t)) | None => false end.

Fixpoint send_loop (p : nat) (frame destination : bytes) (target : option nat) (order : list nat)
    (heap : gmap nat Port) : gmap nat Port :=
  match order with
  | [] => heap
  | peer :: order =>
      send_loop p frame destination target order
        (if skip_peer p destination target peer then heap
         else match heap !! peer with
              | Some q => if Z.of_nat (length (pt_queue q)) <? 256
                          then <[peer := MkPort (pt_queue q ++ [frame]) (pt_closed q)]> heap else heap
              | None => heap
              end)
  end.

Definition Port_Send (p : nat) (frame : bytes) (order : list nat) (s : Switch) : Switch * option error :=
  if (zlen frame <? 14) || (MaxFrame <? zlen frame) then (s, Some (Errorf "invalid Ethernet frame length"))
  else if pt_closed (port_of s p) then (s, Some ErrClosed)
  else
    let source := slice 6 6 frame in
    let destination := slice 0 6 frame in
    let learned := learn p source (sw_learned s) in
    let target := learned !! destination in
    (MkSwitch (send_loop p frame destination target order (sw_heap s)) (sw_ports s) learned, None).

Definition Port_Receive (p : nat) (s : Switch) : Switch * option bytes :=
  match queue_of s p with
  | [] => (s, None)
  | frame :: queue =>
      (MkSwitch (<[p := MkPort queue (pt_closed (port_of s p))]> (sw_heap s)) (sw_ports s) (sw_learned s), Some frame)
  end.

Definition Port_Close (p : nat) (s : Switch) : Switch :=
  MkSwitch (<[p := MkPort [] true]> (sw_heap s)) (sw_ports s ∖ {[p]})
    (filter (fun entry => snd entry <> p) (sw_learned s)).

(** ** Sequences of operations *)

Inductive sw_op :=
  | SConnect
  | SSend (p : nat) (frame : bytes) (order : list nat)
  | SReceive (p : nat)
  | SClose (p : nat).

(** An operation applies to a port the switch has handed out, and the range
    of [Port_Send] visits every connected port once, in some order. *)
Definition sw_step (op : sw_op) (s : Switch) : option Switch :=
  match op with
  | SConnect => Some (fst (Switch_Connect s))
  | SSend p frame order =>
      if bool_decide (p ∈ dom (sw_heap s) /\ order ≡ₚ elements (sw_ports s)) then Some (fst (Port_Send p frame order s)) else None
  | SReceive p => if bool_decide (p ∈ dom (sw_heap s)) then Some (fst (Port_Receive p s)) else None
  | SClose p => if bool_decide (p ∈ dom (sw_heap s)) then Some (Port_Close p s) else None
  end.

Fixpoint sw_run (ops : list sw_op) (s : Switch) : option Switch :=
  match ops with
  | [] => Some s
  | op :: ops => match sw_step op s with Some s' => sw_run ops s' | None => None end
  end.

(** ** Invariant *)

Definition frame_ok (frame : bytes) : Prop := 14 <= zlen frame <= MaxFrame.

Definition port_ok (q : Port) : Prop :=
  Forall frame_ok (pt_queue q) /\ (length (pt_queue q) <= 256)%nat /\ (pt_closed q = true -> pt_queue q = []).

Record sw_inv (s : Switch) : Prop := {
  sw_inv_ports : forall p, p ∈ sw_ports s <-> exists q, sw_heap s !! p = Some q /\ pt_closed q = false;
  sw_inv_heap : map_Forall (fun _ => port_ok) (sw_heap s);
  sw_inv_learned : map_Forall (fun mac p => p ∈ sw_ports s /\ multicast mac = false) (sw_learned s);
  sw_inv_size : (size (sw_learned s) <= 1024)%nat;
}.

(** ** Delivery *)

(** Which ports a frame from [p] reaches: every other connected port with
    room, unless the destination is a unicast address learned elsewhere. *)
Definition receives (s : Switch) (learned : gmap bytes nat) (p : nat) (destination : bytes) (q : nat) : bool :=
  bool_decide (q ∈ sw_ports s) && bool_decide (q <> p) && (Z.of_nat (length (queue_of s q)) <? 256) &&
  (multicast destination || match learned !! destination with Some t => bool_decide (q = t) | None => true end).

Lemma skip_receives s learned p destination q :
  q ∈ sw_ports s ->
  receives s learned p destination q =
  negb (skip_peer p destination (learned !! destination) q) && (Z.of_nat (length (queue_of s q)) <? 256).
Proof.
  intros Hq. unfold receives, skip_peer. rewrite (bool_decide_eq_true_2 _ Hq).
  destruct (multicast destination), (learned !! destination) as [t|]; simpl;
    repeat case_bool_decide; simpl; try done; try congruence; by destruct (_ <? _).
Qed.

(** One port of the heap after the loop. *)
Lemma send_loop_lookup p frame destination target order heap q :
  NoDup order ->
  send_loop p frame destination target order heap !! q =
  match heap !! q with
  | Some k => Some (if bool_decide (q ∈ order) && negb (skip_peer p destination target q) && (Z.of_nat (length (pt_queue k)) <? 256)
                    then MkPort (pt_queue k ++ [frame]) (pt_closed k) else k)
  | None => None
  end.
Proof.
  intros Hnd. revert heap. induction Hnd as [|peer order Hni Hnd IH]; intros heap; cbn [send_loop].
  { destruct (heap !! q); [|done]. by rewrite bool_decide_eq_false_2 by (apply not_elem_of_nil). }
  rewrite IH. destruct (decide (peer = q)) as [->|Hne].
  - rewrite (bool_decide_eq_false_2 (q ∈ order)) by done. rewrite (bool_decide_eq_true_2 (q ∈ q :: order)) by set_solver.
    destruct (skip_peer p destination target q); simpl; [done|].
    destruct (heap !! q) as [k|] eqn:E; [|by rewrite E].
    destruct (Z.of_nat (length (pt_queue k)) <? 256); [by rewrite lookup_insert_eq|by rewrite E].
  - assert (Hq : bool_decide (q ∈ peer :: order) = bool_decide (q ∈ order)) by (apply bool_decide_ext; set_solver).
    rewrite Hq. destruct (skip_peer p destination target peer); [done|].
    destruct (heap !! peer) as [k|]; [|done].
    destruct (Z.of_nat (length (pt_queue k)) <? 256); [by rewrite lookup_insert_ne|done].
Qed.

Lemma send_loop_ports p frame destination target order heap q :
  NoDup order ->
  (exists k, send_loop p frame destination target order heap !! q = Some k /\ pt_closed k = false) <->
  (exists k, heap !! q = Some k /\ pt_closed k = false).
Proof.
  intros Hnd. rewrite send_loop_lookup by done. destruct (heap !! q) as [k|]; [|done].
  split; intros (k' & [= <-] & Hc); eexists; (split; [done|]); by destruct (_ && _ && _).
Qed.

Lemma learn_size p source learned : (size learned <= 1024)%nat -> (size (learn p source learned) <= 1024)%nat.
Proof.
  intros Hs. unfold learn. destruct (negb (multicast source)); simpl; [|done].
  case_bool_decide as Hl; [|destruct (Z.ltb_spec (Z.of_nat (size learned)) 1024); simpl; [|done]].
  - rewrite orb_true_r. destruct Hl as [x Hx]. by rewrite map_size_insert_Some by (by exists x).
  - rewrite map_size_insert. destruct (learned !! source); simpl; lia.
Qed.

Lemma learn_ok (P : bytes -> nat -> Prop) p source learned :
  map_Forall P learned -> (multicast source = false -> P source p) -> map_Forall P (learn p source learned).
Proof.
  intros Hl Hp. unfold learn. destruct (multicast source); simpl; [done|].
  destruct (_ || _); [|done]. apply map_Forall_insert_2; auto.
Qed.

Lemma port_ok_append k frame :
  port_ok k -> frame_ok frame -> (length (pt_queue k) < 256)%nat -> port_ok (MkPort (pt_queue k ++ [frame]) false).
Proof.
  intros (Hf & Hl & _) Hfr H. split_and!; simpl; [|rewrite length_app; simpl; lia|done].
  apply Forall_app. split; [done|]. by apply Forall_singleton.
Qed.

Lemma Switch_Connect_inv s : sw_inv s -> sw_inv (fst (Switch_Connect s)).
Proof.
  intros [Hp Hh Hl Hs]. unfold Switch_Connect. set (n := fresh _).
  assert (Hn : sw_heap s !! n = None) by (apply not_elem_of_dom, is_fresh).
  constructor; simpl; [|apply map_Forall_insert_2; [|done]| |done].
  - intros p. rewrite elem_of_union, elem_of_singleton, Hp. destruct (decide (p = n)) as [->|].
    + rewrite lookup_insert_eq. split; [by eexists|by left].
    + rewrite lookup_insert_ne by done. naive_solver.
  - split_and!; simpl; [constructor|lia|done].
  - eapply map_Forall_impl; [exact Hl|]. intros mac p [? ?]. split; [set_solver|done].
Qed.

Lemma Port_Receive_inv p s : sw_inv s -> sw_inv (fst (Port_Receive p s)).
Proof.
  intros [Hp Hh Hl Hs]. unfold Port_Receive, queue_of, port_of.
  destruct (sw_heap s !! p) as [k|] eqn:E; simpl; [|by constructor].
  destruct (pt_queue k) as [|frame queue] eqn:Eq; simpl; [by constructor|].
  destruct (Hh _ _ E) as (Hf & Hn & Hc). rewrite Eq in *. apply Forall_cons in Hf as [_ Hf]. simpl in Hn.
  constructor; simpl; [|apply map_Forall_insert_2; [|done]|done..].
  - intros q. rewrite Hp. destruct (decide (q = p)) as [->|]; [|by rewrite lookup_insert_ne].
    rewrite lookup_insert_eq, E. split; intros (k' & [= <-] & ?); eexists; (split; [done|]); by simplify_eq/=.
  - split_and!; simpl; [done|lia|]. intros H. by specialize (Hc H).
Qed.

Lemma Port_Close_inv p s : sw_inv s -> sw_inv (Port_Close p s).
Proof.
  intros [Hp Hh Hl Hs]. unfold Port_Close. constructor; simpl.
  - intros q. rewrite elem_of_difference, elem_of_singleton, Hp. destruct (decide (q = p)) as [->|].
    + rewrite lookup_insert_eq. split; [by intros [_ []]|by intros (k & [= <-] & ?)].
    + rewrite lookup_insert_ne by done. naive_solver.
  - apply map_Forall_insert_2; [|done]. split_and!; simpl; [constructor|lia|done].
  - intros mac q Hq. apply map_lookup_filter_Some in Hq as [Hq Hne]. destruct (Hl _ _ Hq). simpl in Hne. set_solver.
  - etrans; [|exact Hs]. apply map_subseteq_size, map_filter_subseteq.
Qed.

Lemma Port_Send_inv p frame order s :
  sw_inv s -> p ∈ dom (sw_heap s) -> order ≡ₚ elements (sw_ports s) -> sw_inv (fst (Port_Send p frame order s)).
Proof.
  intros Hinv Hdom Hord. pose proof Hinv as [Hp Hh Hl Hs]. unfold Port_Send.
  destruct (Z.ltb_spec (zlen frame) 14), (Z.ltb_spec MaxFrame (zlen frame)); simpl; try done.
  destruct (pt_closed (port_of s p)) eqn:Ec; simpl; [done|].
  assert (Hnd : NoDup order) by (rewrite Hord; apply NoDup_elements).
  apply elem_of_dom in Hdom as [k Hk]. unfold port_of in Ec. rewrite Hk in Ec. simpl in Ec.
  constructor; simpl; [| | |by apply learn_size].
  - intros q. by rewrite Hp, send_loop_ports.
  - intros q k' Hk'. rewrite send_loop_lookup in Hk' by done. destruct (sw_heap s !! q) as [k0|] eqn:E0; [|done].
    injection Hk' as <-. pose proof (Hh _ _ E0) as Hok.
    destruct (bool_decide (q ∈ order)) eqn:Eq; simpl; [|done].
    destruct (skip_peer _ _ _ _); simpl; [done|].
    destruct (Z.ltb_spec (Z.of_nat (length (pt_queue k0))) 256); [|done].
    apply bool_decide_eq_true in Eq. rewrite Hord, elem_of_elements, Hp in Eq. destruct Eq as (k1 & Hk1 & Hc1).
    simplify_eq. rewrite Hc1. apply port_ok_append; [done|split; lia|lia].
  - apply learn_ok; [done|]. intros Hm. split; [|done]. apply Hp. by exists k.
Qed.

Lemma sw_run_inv ops s s' : sw_inv s -> sw_run ops s = Some s' -> sw_inv s'.
Proof.
  revert s. induction ops as [|op ops IH]; intros s Hi; cbn [sw_run]; [by intros [= <-]|].
  destruct (sw_step op s) as [s1|] eqn:E; [|done]. apply IH.
  destruct op; cbn [sw_step] in E; try case_bool_decide as Hb; simplify_eq;
    auto using Switch_Connect_inv, Port_Receive_inv, Port_Close_inv. destruct Hb. by apply Port_Send_inv.
Qed.

Lemma NewSwitch_inv : sw_inv NewSwitch.
Proof.
  constructor; simpl; [|apply map_Forall_empty..|rewrite map_size_empty; lia]. intros p. split; [set_solver|].
  intros (q & Hq & _). by rewrite lookup_empty in Hq.
Qed.

(** The queue of every port after a send. *)
Lemma Port_Send_queues p frame order s :
  sw_inv s -> order ≡ₚ elements (sw_ports s) -> frame_ok frame -> pt_closed (port_of s p) = false ->
  let learned := learn p (slice 6 6 frame) (sw_learned s) in
  forall q, queue_of (fst (Port_Send p frame order s)) q =
    queue_of s q ++ (if receives s learned p (slice 0 6 frame) q then [frame] else []).
Proof.
  intros [Hp Hh Hl Hs] Hord [Hf1 Hf2] Hc learned q. unfold Port_Send. rewrite Hc.
  destruct (Z.ltb_spec (zlen frame) 14), (Z.ltb_spec MaxFrame (zlen frame)); simpl; try lia.
  assert (Hnd : NoDup order) by (rewrite Hord; apply NoDup_elements).
  unfold queue_of at 1, port_of. simpl. rewrite send_loop_lookup by done.
  destruct (decide (q ∈ sw_ports s)) as [Hq|Hq].
  - rewrite skip_receives by done. unfold queue_of, port_of. destruct (proj1 (Hp q) Hq) as (k & -> & _). simpl.
    rewrite bool_decide_eq_true_2 by (by rewrite Hord, elem_of_elements). fold learned. simpl.
    destruct (_ && _); [done|]. by rewrite app_nil_r.
  - unfold receives. rewrite (bool_decide_eq_false_2 _ Hq). simpl. rewrite app_nil_r.
    unfold queue_of, port_of. destruct (sw_heap s !! q); [|done].
    rewrite bool_decide_eq_false_2 by (by rewrite Hord, elem_of_elements). done.
Qed.

(** C27. The switch. After any sequence of connects, sends, receives and
    closes, in any order of the range over the ports: at most 1024 addresses
    are learned, all unicast and all owned by connected ports; at most 256
    frames wait at a port, all of valid length, and none at a closed one. From
    there a send fails only for a bad length or a closed port, changing
    nothing; otherwise the frame is appended to exactly the other connected
    ports that have room, or, when its destination is a unicast address that
    has been learned, to the port that owns it alone; a receive takes the
    oldest frame. *)
Theorem Switch_delivers ops s :
  sw_run ops NewSwitch = Some s ->
  (size (sw_learned s) <= 1024)%nat /\
  (forall mac p, sw_learned s !! mac = Some p -> multicast mac = false /\ pt_closed (port_of s p) = false) /\
  (forall p, (length (queue_of s p) <= 256)%nat /\ Forall frame_ok (queue_of s p) /\
     (pt_closed (port_of s p) = true -> queue_of s p = [])) /\
  (forall p frame order, order ≡ₚ elements (sw_ports s) ->
     match Port_Send p frame order s with
     | (s', Some _) => s' = s /\ (~ frame_ok frame \/ pt_closed (port_of s p) = true)
     | (s', None) =>
         frame_ok frame /\ pt_closed (port_of s p) = false /\
         sw_learned s' = learn p (slice 6 6 frame) (sw_learned s) /\
         forall q, queue_of s' q =
           queue_of s q ++ (if receives s (sw_learned s') p (slice 0 6 frame) q then [frame] else [])
     end) /\
  (forall p, match Port_Receive p s with
     | (s', None) => s' = s /\ queue_of s p = []
     | (s', Some frame) => queue_of s p = frame :: queue_of s' p /\ forall q, q <> p -> queue_of s' q = queue_of s q
     end).
Proof.
  intros Hrun. pose proof (sw_run_inv _ _ _ NewSwitch_inv Hrun) as Hi. pose proof Hi as [Hp Hh Hl Hs].
  split_and!; [done| | | |].
  - intros mac p Hm. destruct (Hl _ _ Hm) as [Hin Hu]. split; [done|].
    apply Hp in Hin as (k & Hk & Hc). unfold port_of. by rewrite Hk.
  - intros p. unfold queue_of, port_of. destruct (sw_heap s !! p) as [k|] eqn:Ek; simpl.
    + destruct (Hh _ _ Ek) as (? & ? & ?). done.
    + split_and!; [lia|constructor|done].
  - intros p frame order Hord. pose proof (fun H1 H2 => Port_Send_queues p frame order s Hi Hord H1 H2) as Hq.
    unfold Port_Send in *. destruct (Z.ltb_spec (zlen frame) 14), (Z.ltb_spec MaxFrame (zlen frame)); simpl in *;
      try (split; [done|left; unfold frame_ok; lia]).
    destruct (pt_closed (port_of s p)); [by split; [|right]|]. simpl.
    assert (Hok : frame_ok frame) by (split; lia). split_and!; try done. by apply Hq.
  - intros p. unfold Port_Receive. destruct (queue_of s p) as [|frame queue] eqn:Eq; [done|].
    unfold queue_of, port_of in *; simpl. rewrite lookup_insert_eq. split; [done|].
    intros q Hne. by rewrite lookup_insert_ne.
Qed.

(** Three ports: a broadcast floods, and the answer to the learned address
    reaches its owner alone. *)
Lemma Switch_delivers_witness :
  exists s s',
    sw_run [SConnect; SConnect; SConnect;
            SSend 0 (replicate 6 255 ++ [2; 0; 0; 0; 0; 1] ++ zeros 48) [2; 0; 1]%nat; SReceive 1; SReceive 2] NewSwitch = Some s /\
    Port_Send 1 ([2; 0; 0; 0; 0; 1] ++ [2; 0; 0; 0; 0; 2] ++ zeros 48) [1; 2; 0]%nat s = (s', None) /\
    queue_of s' 0 = [[2; 0; 0; 0; 0; 1] ++ [2; 0; 0; 0; 0; 2] ++ zeros 48] /\ queue_of s' 2 = [].
Proof.
  set (ops := [SConnect; SConnect; SConnect;
            SSend 0 (replicate 6 255 ++ [2; 0; 0; 0; 0; 1] ++ zeros 48) [2; 0; 1]%nat; SReceive 1; SReceive 2]).
  set (f := [2; 0; 0; 0; 0; 1] ++ [2; 0; 0; 0; 0; 2] ++ zeros 48).
  assert (Hsome : match sw_run ops NewSwitch with
    | Some s => bool_decide ([1; 2; 0]%nat ≡ₚ elements (sw_ports s)) && bool_decide (queue_of s 0 = []) &&
                bool_decide (queue_of s 2 = []) && bool_decide (snd (Port_Send 1 f [1; 2; 0]%nat s) = None) &&
                receives s (learn 1 (slice 6 6 f) (sw_learned s)) 1 (slice 0 6 f) 0 &&
                negb (receives s (learn 1 (slice 6 6 f) (sw_learned s)) 1 (slice 0 6 f) 2)
    | None => false end = true) by (vm_compute; reflexivity).
  destruct (sw_run ops NewSwitch) as [s|] eqn:Hrun; [|discriminate Hsome].
  apply andb_true_iff in Hsome as [Hsome R2]. apply andb_true_iff in Hsome as [Hsome R0].
  rewrite !andb_true_iff, !bool_decide_eq_true in Hsome. destruct Hsome as [[[Ho Q0] Q2] Hsnd].
  pose proof (proj1 (proj2 (proj2 (proj2 (Switch_delivers ops s Hrun)))) 1%nat f [1; 2; 0]%nat Ho) as Hsend.
  destruct (Port_Send 1 f [1; 2; 0]%nat s) as [s' r] eqn:Es. simpl in Hsnd. subst r.
  destruct Hsend as (_ & _ & El & Hq). rewrite El in Hq. exists s, s'.
  rewrite (Hq 0%nat), (Hq 2%nat), Q0, Q2, R0. apply negb_true_iff in R2. rewrite R2. split_and!; [reflexivity|exact Es|reflexivity..].
Defined.
