(* ===== verification/PrimeCell.v ===== *)
(** The PrimeCell devices of the ARM machine: the polled PL011 UART
    (src/vmm/pl011/uart.go) and the PL031 real-time clock
    (src/vmm/cc/pl031.go).

    The transmit callback acts on a host state [E] and may fail; [None] is the
    nil callback. The clock of the PL031 is a callback: its operations take
    the results of their calls to it. *)

From S2P Require Import Prelude GoLib.
From stdpp Require Import base numbers list gmap sorting strings.

Open Scope Z_scope.
Open Scope trex_scope.

#[local] Ltac Zify.zify_post_hook ::= Z.to_euclidean_division_equations.

(** ** PL011 *)

Record pl011 := MkPl011 {
  p11_base : Z;
  p11_control : Z;
  p11_line : Z;
  p11_integer : Z;
  p11_fraction : Z;
  p11_ifls : Z;
  p11_rx : bytes;
}.

Definition pl011_new (base : Z) : pl011 := MkPl011 base 768 0 0 0 18 [].

Definition pl011_set_rx (u : pl011) (rx : bytes) : pl011 :=
  MkPl011 (p11_base u) (p11_control u) (p11_line u) (p11_integer u) (p11_fraction u) (p11_ifls u) rx.
Definition pl011_set_control (u : pl011) (v : Z) : pl011 :=
  MkPl011 (p11_base u) v (p11_line u) (p11_integer u) (p11_fraction u) (p11_ifls u) (p11_rx u).
Definition pl011_set_line (u : pl011) (v : Z) : pl011 :=
  MkPl011 (p11_base u) (p11_control u) v (p11_integer u) (p11_fraction u) (p11_ifls u) (p11_rx u).
Definition pl011_set_integer (u : pl011) (v : Z) : pl011 :=
  MkPl011 (p11_base u) (p11_control u) (p11_line u) v (p11_fraction u) (p11_ifls u) (p11_rx u).
Definition pl011_set_fraction (u : pl011) (v : Z) : pl011 :=
  MkPl011 (p11_base u) (p11_control u) (p11_line u) (p11_integer u) v (p11_ifls u) (p11_rx u).
Definition pl011_set_ifls (u : pl011) (v : Z) : pl011 :=
  MkPl011 (p11_base u) (p11_control u) (p11_line u) (p11_integer u) (p11_fraction u) v (p11_rx u).

Definition pl011_Contains (u : pl011) (address size : Z) : bool :=
  (p11_base u <=? address) && (address - p11_base u <? 4096) &&
  ((size =? 1) || (size =? 2) || (size =? 4)) &&
  (address mod size =? 0) && ((address - p11_base u) mod 4 =? 0).

Definition pl011_Receive (u : pl011) (b : bytes) : pl011 * option error :=
  if 32 - zlen (p11_rx u) <? zlen b then (u, Some (Errorf "pl011: receive FIFO full"))
  else (pl011_set_rx u (p11_rx u ++ b), None).

(** The value of a register before it is cut to the access size; [None] for
    an offset without one. *)
Definition pl011_register (u : pl011) (off : Z) : option Z :=
  if off =? 0 then Some (nthb (p11_rx u) 0)
  else if off =? 4 then Some 0
  else if off =? 24 then
    Some (Z.lor (Z.lor 128 (if zlen (p11_rx u) =? 0 then 16 else 0)) (if zlen (p11_rx u) =? 32 then 64 else 0))
  else if off =? 32 then Some 0
  else if off =? 36 then Some (p11_integer u)
  else if off =? 40 then Some (p11_fraction u)
  else if off =? 44 then Some (p11_line u)
  else if off =? 48 then Some (p11_control u)
  else if off =? 52 then Some (p11_ifls u)
  else if (off =? 56) || (off =? 64) || (off =? 72) then Some 0
  else if off =? 60 then Some (Z.lor 32 (if 0 <? zlen (p11_rx u) then 16 else 0))
  else if off =? 4064 then Some 17
  else if off =? 4068 then Some 16
  else if off =? 4072 then Some 52
  else if off =? 4076 then Some 0
  else if off =? 4080 then Some 13
  else if off =? 4084 then Some 240
  else if off =? 4088 then Some 5
  else if off =? 4092 then Some 177
  else None.

Definition pl011_Read (u : pl011) (address size : Z) : pl011 * res Z :=
  if negb (pl011_Contains u address size) then (u, Err (Errorf "pl011: invalid read"))
  else
    let off := address - p11_base u in
    match pl011_register u off with
    | None => (u, Err (Errorf "pl011: unsupported read"))
    | Some value =>
        (if (off =? 0) && (0 <? zlen (p11_rx u)) then pl011_set_rx u (drop 1 (p11_rx u)) else u,
         Ok (Z.land value (2 ^ (size * 8) - 1)))
    end.

Section Write.
Context {E : Type} (Transmit : option (byte -> E -> E * option error)).

Definition pl011_Write (u : pl011) (address size value : Z) (env : E) : pl011 * E * option error :=
  if negb (pl011_Contains u address size) then (u, env, Some (Errorf "pl011: invalid write"))
  else
    let off := address - p11_base u in
    if off =? 0 then
      if negb (Z.land (p11_control u) 257 =? 257) then (u, env, None)
      else if negb (Z.land (p11_control u) 128 =? 0) then
        let '(u', err) := pl011_Receive u [u8 value] in (u', env, err)
      else match Transmit with
           | Some send => let '(env', err) := send (u8 value) env in (u, env', err)
           | None => (u, env, None)
           end
    else if (off =? 4) || (off =? 68) then (u, env, None)
    else if off =? 32 then (u, env, None)
    else if off =? 36 then (pl011_set_integer u (Z.land (u32 value) 65535), env, None)
    else if off =? 40 then (pl011_set_fraction u (Z.land (u32 value) 63), env, None)
    else if off =? 44 then (pl011_set_line u (Z.land (u32 value) 255), env, None)
    else if off =? 48 then (pl011_set_control u (Z.land (u32 value) 65535), env, None)
    else if off =? 52 then (pl011_set_ifls u (Z.land (u32 value) 63), env, None)
    else if (off =? 56) || (off =? 72) then
      if negb (value =? 0) then (u, env, Some (Errorf "pl011: interrupt/DMA mode unsupported")) else (u, env, None)
    else (u, env, Some (Errorf "pl011: unsupported write")).

(** *** Sequences of operations, with the bytes that went in and came out *)

Inductive pl011_op :=
  | PReceive (b : bytes)
  | PRead (address size : Z)
  | PWrite (address size value : Z).

(** The bytes an operation puts into the receive queue. *)
Definition pl011_accepts (u : pl011) (op : pl011_op) : bytes :=
  match op with
  | PReceive b => if zlen (p11_rx u) + zlen b <=? 32 then b else []
  | PRead _ _ => []
  | PWrite address size value =>
      if pl011_Contains u address size && (address =? p11_base u) && (Z.land (p11_control u) 257 =? 257) &&
         negb (Z.land (p11_control u) 128 =? 0) && (zlen (p11_rx u) <? 32)
      then [u8 value] else []
  end.

Definition pl011_step (op : pl011_op) (u : pl011) (env : E) : pl011 * E :=
  match op with
  | PReceive b => (fst (pl011_Receive u b), env)
  | PRead address size => (fst (pl011_Read u address size), env)
  | PWrite address size value => fst (pl011_Write u address size value env)
  end.

(** The bytes an operation takes from the queue: a read of the data register. *)
Definition pl011_takes (u : pl011) (op : pl011_op) : bytes :=
  match op with
  | PRead address size =>
      match snd (pl011_Read u address size) with
      | Ok v => if (address =? p11_base u) && (0 <? zlen (p11_rx u)) then [v] else []
      | Err _ => []
      end
  | _ => []
  end.

(** The run: the final state, the bytes put in and the bytes taken. *)
Fixpoint pl011_run (ops : list pl011_op) (u : pl011) (env : E) (accepted taken : bytes) : pl011 * E * bytes * bytes :=
  match ops with
  | [] => (u, env, accepted, taken)
  | op :: ops =>
      let '(u', env') := pl011_step op u env in
      pl011_run ops u' env' (accepted ++ pl011_accepts u op) (taken ++ pl011_takes u op)
  end.

Definition pl011_ok (u : pl011) : Prop :=
  0 <= p11_control u < 2 ^ 16 /\ 0 <= p11_line u < 2 ^ 8 /\ 0 <= p11_integer u < 2 ^ 16 /\
  0 <= p11_fraction u < 2 ^ 6 /\ 0 <= p11_ifls u < 2 ^ 6 /\ bytes_ok (p11_rx u) /\ zlen (p11_rx u) <= 32.

Definition pl011_op_ok (op : pl011_op) : Prop := match op with PReceive b => bytes_ok b | _ => True end.

(** *** Lemmas *)

Lemma pl011_Receive_ok u b : pl011_ok u -> bytes_ok b -> pl011_ok (fst (pl011_Receive u b)).
Proof.
  intros Hu Hb. unfold pl011_Receive. destruct (Z.ltb_spec (32 - zlen (p11_rx u)) (zlen b)); [done|].
  destruct Hu as (? & ? & ? & ? & ? & ? & ?). unfold pl011_ok; simpl. split_and!; try lia; [by apply Forall_app|].
  rewrite zlen_app. lia.
Qed.

Lemma pl011_Read_ok u address size : pl011_ok u -> pl011_ok (fst (pl011_Read u address size)).
Proof.
  intros Hu. unfold pl011_Read. destruct (negb _); [done|]. destruct (pl011_register _ _); [|done]. simpl.
  destruct (_ && _); [|done]. destruct Hu as (? & ? & ? & ? & ? & ? & ?). unfold pl011_ok; simpl.
  split_and!; try lia; [by apply Forall_drop|]. unfold zlen in *. rewrite length_drop. lia.
Qed.

Lemma pl011_Write_ok u address size value env : pl011_ok u -> pl011_ok (fst (fst (pl011_Write u address size value env))).
Proof.
  intros Hu. unfold pl011_Write. destruct (negb _); [done|].
  destruct (_ =? 0); [destruct (negb _); [done|]; destruct (negb _)|].
  - pose proof (pl011_Receive_ok u [u8 value] Hu) as Hr. destruct (pl011_Receive u [u8 value]); simpl in *.
    apply Hr, Forall_singleton. unfold byte_ok, u8. lia.
  - destruct Transmit as [send|]; [|done]. by destruct (send _ _).
  - destruct Hu as (? & ? & ? & ? & ? & ? & ?).
    repeat match goal with |- context [if ?c then _ else _] => destruct c end;
      unfold pl011_ok; simpl; repeat (apply conj; [first [assumption|by apply land_bound]|]); assumption.
Qed.

Lemma pl011_step_ok op u env : pl011_ok u -> pl011_op_ok op -> pl011_ok (fst (pl011_step op u env)).
Proof. destruct op; simpl; auto using pl011_Receive_ok, pl011_Read_ok, pl011_Write_ok. Qed.

Lemma pl011_Receive_queue u b :
  p11_rx (fst (pl011_Receive u b)) = p11_rx u ++ (if zlen (p11_rx u) + zlen b <=? 32 then b else []).
Proof.
  unfold pl011_Receive. destruct (Z.ltb_spec (32 - zlen (p11_rx u)) (zlen b)), (Z.leb_spec (zlen (p11_rx u) + zlen b) 32);
    simpl; rewrite ?app_nil_r; lia || done.
Qed.

Lemma pl011_Write_queue u address size value env :
  p11_rx (fst (fst (pl011_Write u address size value env))) = p11_rx u ++ pl011_accepts u (PWrite address size value).
Proof.
  unfold pl011_Write, pl011_accepts. destruct (pl011_Contains u address size); simpl; [|by rewrite app_nil_r].
  replace (address =? p11_base u) with (address - p11_base u =? 0)
    by (destruct (Z.eqb_spec (address - p11_base u) 0), (Z.eqb_spec address (p11_base u)); lia || done).
  destruct (_ =? 0); simpl.
  - destruct (Z.land (p11_control u) 257 =? 257); simpl; [|by rewrite app_nil_r].
    destruct (Z.land (p11_control u) 128 =? 0); simpl.
    + rewrite app_nil_r. destruct Transmit as [send|]; [|done]. by destruct (send _ _).
    + pose proof (pl011_Receive_queue u [u8 value]) as Hr. destruct (pl011_Receive u [u8 value]); simpl in *.
      rewrite Hr. change (zlen [u8 value]) with 1.
      destruct (Z.leb_spec (zlen (p11_rx u) + 1) 32), (Z.ltb_spec (zlen (p11_rx u)) 32); lia || done.
  - rewrite app_nil_r. by repeat match goal with |- context [if ?c then _ else _] => destruct c end.
Qed.

Lemma pl011_Read_queue u address size :
  bytes_ok (p11_rx u) -> p11_rx u = pl011_takes u (PRead address size) ++ p11_rx (fst (pl011_Read u address size)).
Proof.
  intros Hok. unfold pl011_takes, pl011_Read. destruct (pl011_Contains u address size) eqn:Hc; simpl; [|done].
  destruct (Z.eqb_spec address (p11_base u)) as [->|Hne]; simpl.
  - rewrite Z.sub_diag. simpl. destruct (p11_rx u) as [|b rx] eqn:Erx; simpl; [by rewrite Erx|].
    apply Forall_cons in Hok as [Hb _]. unfold byte_ok in Hb.
    assert (Hs : size = 1 \/ size = 2 \/ size = 4).
    { unfold pl011_Contains in Hc. rewrite !andb_true_iff, !orb_true_iff, !Z.eqb_eq in Hc. lia. }
    assert (0 < zlen (b :: rx)) by (rewrite zlen_cons; pose proof (zlen_nonneg rx); lia).
    destruct (Z.ltb_spec 0 (zlen (b :: rx))); [|lia]. simpl. f_equal.
    change (nthb (b :: rx) 0) with b. rewrite land_low by lia. symmetry. apply Z.mod_small.
    destruct Hs as [-> | [-> | ->]]; simpl; lia.
  - destruct (pl011_register _ _); simpl; [|done]. destruct (Z.eqb_spec (address - p11_base u) 0); [lia|done].
Qed.

Lemma pl011_step_queue op u env :
  pl011_ok u -> p11_rx u ++ pl011_accepts u op = pl011_takes u op ++ p11_rx (fst (pl011_step op u env)).
Proof.
  intros (_ & _ & _ & _ & _ & Hb & _). destruct op as [b|address size|address size value].
  - simpl. by rewrite pl011_Receive_queue.
  - cbn [pl011_accepts pl011_step fst]. by rewrite app_nil_r, <- pl011_Read_queue.
  - cbn [pl011_step]. by rewrite pl011_Write_queue.
Qed.

Lemma pl011_run_inv ops u env accepted taken :
  Forall pl011_op_ok ops -> pl011_ok u -> accepted = taken ++ p11_rx u ->
  let '(u', _, accepted', taken') := pl011_run ops u env accepted taken in
  pl011_ok u' /\ accepted' = taken' ++ p11_rx u'.
Proof.
  intros Hops. revert u env accepted taken. induction Hops as [|op ops Hop _ IH]; intros u env accepted taken Hu Ha;
    cbn [pl011_run]; [done|].
  pose proof (pl011_step_ok op u env Hu Hop) as Hu'. pose proof (pl011_step_queue op u env Hu) as Hq.
  destruct (pl011_step op u env) as [u' env']. apply IH; [done|]. by rewrite Ha, <- !app_assoc, Hq.
Qed.

(** C28. The PL011. From reset, whatever is received, read and written: every
    register keeps its width and the receive queue holds at most 32 bytes; the
    bytes accepted from the line and from the loopback are the bytes read from
    the data register followed by the bytes still queued, in order; the flag
    register shows an empty and a full queue exactly; a read returns a value
    of the access size; and the transmitter runs, once and with the low byte
    of the value, exactly for a write of the data register while the UART
    and its transmitter are enabled outside loopback. *)
Theorem pl011_behaviour base ops env :
  Forall pl011_op_ok ops ->
  let '(u, env', accepted, taken) := pl011_run ops (pl011_new base) env [] [] in
  pl011_ok u /\ accepted = taken ++ p11_rx u /\
  (forall address size v, snd (pl011_Read u address size) = Ok v ->
     0 <= v < 2 ^ (size * 8) /\
     (address = p11_base u + 24 ->
        (Z.testbit v 4 = true <-> p11_rx u = []) /\ (Z.testbit v 6 = true <-> zlen (p11_rx u) = 32))) /\
  (forall address size value env',
     snd (fst (pl011_Write u address size value env')) =
     if pl011_Contains u address size && (address =? p11_base u) && (Z.land (p11_control u) 257 =? 257) &&
        (Z.land (p11_control u) 128 =? 0)
     then match Transmit with Some send => fst (send (u8 value) env') | None => env' end
     else env').
Proof.
  intros Hops. assert (Hnew : pl011_ok (pl011_new base)).
  { unfold pl011_ok; simpl. split_and!; try lia; [constructor|done]. }
  pose proof (pl011_run_inv ops (pl011_new base) env [] [] Hops Hnew eq_refl) as Hrun.
  destruct (pl011_run ops (pl011_new base) env [] []) as [[[u env'] accepted] taken].
  destruct Hrun as [Hu Ha]. split_and!; [done|done| |].
  - intros address size v. unfold pl011_Read. destruct (pl011_Contains u address size) eqn:Hc; [|done]. simpl.
    assert (Hs : size = 1 \/ size = 2 \/ size = 4).
    { unfold pl011_Contains in Hc. rewrite !andb_true_iff, !orb_true_iff, !Z.eqb_eq in Hc. lia. }
    destruct (pl011_register _ _) as [w|] eqn:Ew; [|done]. intros [= <-]. split.
    { apply land_bound; [lia|]. apply Z.land_diag. }
    intros ->. replace (p11_base u + 24 - p11_base u) with 24 in Ew by lia. cbn in Ew. injection Ew as <-.
    assert (Hn : p11_rx u = [] <-> zlen (p11_rx u) = 0) by (split; [by intros ->|apply zlen_0_nil]).
    rewrite Hn, land_low by lia.
    destruct (Z.eqb_spec (zlen (p11_rx u)) 0), (Z.eqb_spec (zlen (p11_rx u)) 32), Hs as [-> | [-> | ->]];
      simpl; try lia; vm_compute; (split; split; intros; try done; lia).
  - intros address size value e. unfold pl011_Write. destruct (pl011_Contains u address size); [|done]. simpl.
    replace (address =? p11_base u) with (address - p11_base u =? 0)
      by (destruct (Z.eqb_spec (address - p11_base u) 0), (Z.eqb_spec address (p11_base u)); lia || done).
    destruct (_ =? 0); simpl.
    + destruct (Z.land (p11_control u) 257 =? 257); simpl; [|done].
      destruct (Z.land (p11_control u) 128 =? 0); simpl; [|by destruct (pl011_Receive _ _)].
      destruct Transmit as [send|]; [|done]. by destruct (send _ _).
    + by repeat match goal with |- context [if ?c then _ else _] => destruct c end.
Qed.
End Write.

Lemma pl011_behaviour_witness :
  let send : byte -> bytes -> bytes * option error := fun b e => (e ++ [b], None) in
  let ops := [PReceive [1; 2; 3]; PWrite 150994992 4 385; PWrite 150994944 4 263; PRead 150994944 1] in
  let '(u, env, accepted, taken) := pl011_run (Some send) ops (pl011_new 150994944) [] [] [] in
  accepted = [1; 2; 3; 7] /\ taken = [1] /\ accepted = taken ++ p11_rx u.
Proof.
  intros send ops. assert (Hops : Forall pl011_op_ok ops) by (repeat constructor; lia).
  pose proof (pl011_behaviour (Some send) 150994944 ops [] Hops) as H.
  assert (Hv : let '(_, _, accepted, taken) := pl011_run (Some send) ops (pl011_new 150994944) [] [] [] in
    accepted = [1; 2; 3; 7] /\ taken = [1]) by (vm_compute; split; reflexivity).
  destruct (pl011_run (Some send) ops (pl011_new 150994944) [] [] []) as [[[u env] accepted] taken].
  destruct Hv as [H1 H2]. exact (conj H1 (conj H2 (proj1 (proj2 H)))).
Defined.

(** ** PL031 *)

Record pl031 := MkPl031 {
  p31_address : Z;
  p31_start : Z;
  p31_value : Z;
  p31_match : Z;
  p31_control : Z;
  p31_mask : Z;
  p31_raw : Z;
  p31_last : Z;
}.

(** What a call of [clock] returns: ticks and frequency. *)
Definition clock_result : Type := res (Z * Z).

Definition pl031_Contains (d : pl031) (a n : Z) : bool :=
  (p31_address d <=? a) && (a - p31_address d <? 4096) && (n =? 4) && (Z.land a 3 =? 0).

Definition pl031_running (d : pl031) : bool := negb (Z.land (p31_control d) 1 =? 0).

Definition pl031_counter (d : pl031) (clock : clock_result) : res Z :=
  if negb (pl031_running d) then Ok (p31_value d)
  else match clock with
       | Err e => Err e
       | Ok (t, f) =>
           if f =? 0 then Err (Errorf "PL031: zero clock frequency")
           else Ok (u32 (p31_value d + u32 (u64 (t - p31_start d) / f)))
       end.

(** The registers [Read] returns, once the counter [v] has been sampled. *)
Definition pl031_register (d : pl031) (v off : Z) : option Z :=
  if off =? 0 then Some v
  else if off =? 4 then Some (p31_match d)
  else if off =? 8 then Some (p31_value d)
  else if off =? 12 then Some (p31_control d)
  else if off =? 16 then Some (p31_mask d)
  else if off =? 20 then Some (p31_raw d)
  else if off =? 24 then Some (Z.land (p31_raw d) (p31_mask d))
  else if off =? 4064 then Some 49
  else if off =? 4068 then Some 16
  else if off =? 4072 then Some 4
  else if off =? 4076 then Some 0
  else if off =? 4080 then Some 13
  else if off =? 4084 then Some 240
  else if off =? 4088 then Some 5
  else if off =? 4092 then Some 177
  else None.

(** The alarm is due: the counter has reached the match register since the
    last sample. *)
Definition pl031_due (d : pl031) (v : Z) : bool :=
  let distance := u32 (p31_match d - p31_last d) in
  let elapsed := u32 (v - p31_last d) in
  pl031_running d && ((v =? p31_match d) || negb (distance =? 0) && (distance <=? elapsed)).

Definition pl031_sample (d : pl031) (v : Z) : pl031 :=
  MkPl031 (p31_address d) (p31_start d) (p31_value d) (p31_match d) (p31_control d) (p31_mask d)
    (if pl031_due d v then 1 else p31_raw d) v.

Definition pl031_Read (d : pl031) (a : Z) (clock : clock_result) : pl031 * res Z :=
  match pl031_counter d clock with
  | Err e => (d, Err e)
  | Ok v =>
      let d' := pl031_sample d v in
      match pl031_register d' v (u64 (a - p31_address d)) with
      | Some r => (d', Ok r)
      | None => (d', Err (Errorf "PL031: unsupported read"))
      end
  end.

(** [clock1] is what the call inside [counter] returns, [clock2] what the
    operation's own call returns. *)
Definition pl031_Write (d : pl031) (a v : Z) (clock1 clock2 : clock_result) : pl031 * option error :=
  let '(MkPl031 address start value mtch control mask raw last) := d in
  let off := u64 (a - address) in
  if off =? 4 then
    match pl031_counter d clock1 with
    | Err e => (d, Some e)
    | Ok counter => (MkPl031 address start value (u32 v) control mask raw counter, None)
    end
  else if off =? 8 then
    match clock2 with
    | Err e => (d, Some e)
    | Ok (t, _) => (MkPl031 address t (u32 v) mtch control mask raw (u32 v), None)
    end
  else if off =? 12 then
    if 1 <? v then (d, Some (Errorf "PL031: reserved control bits"))
    else match pl031_counter d clock1 with
         | Err e => (d, Some e)
         | Ok counter =>
             match clock2 with
             | Err e => (d, Some e)
             | Ok (t, _) => (MkPl031 address t counter mtch (u32 v) mask raw last, None)
             end
         end
  else if off =? 16 then
    if 1 <? v then (d, Some (Errorf "PL031: reserved mask bits"))
    else (MkPl031 address start value mtch control (u32 v) raw last, None)
  else if off =? 28 then (MkPl031 address start value mtch control mask (Z.ldiff raw (Z.land (u32 v) 1)) last, None)
  else (d, Some (Errorf "PL031: unsupported write")).

(** A guest that polls: reads of one register at the given times. *)
Definition pl031_poll (a f : Z) (times : list Z) (d : pl031) : pl031 :=
  foldl (fun d t => fst (pl031_Read d a (Ok (t, f)))) d times.

(** The ticks of the clock since the counter was last loaded or started. *)
Definition pl031_ticks (d : pl031) (f t : Z) : Z := (t - p31_start d) / f.

(** Times of reads that follow [t0], less than a wrap of the counter apart. *)
Fixpoint polls_ok (d : pl031) (f t0 : Z) (times : list Z) : Prop :=
  match times with
  | [] => True
  | t :: times =>
      t0 <= t < 2 ^ 64 /\ pl031_ticks d f t - pl031_ticks d f t0 < 2 ^ 32 /\ polls_ok d f t times
  end.

(** The state at [t0]: a running counter, sampled then. *)
Definition pl031_sampled (d : pl031) (f t0 : Z) : Prop :=
  pl031_running d = true /\ 0 < f /\ 0 <= p31_start d <= t0 /\ t0 < 2 ^ 64 /\
  0 <= p31_match d < 2 ^ 32 /\ p31_last d = u32 (p31_value d + pl031_ticks d f t0).

(** The counter passed the match register between two times. *)
Definition pl031_passes (d : pl031) (f t0 t : Z) : Prop :=
  exists k, pl031_ticks d f t0 < k <= pl031_ticks d f t /\ u32 (p31_value d + k) = p31_match d.

Lemma pl031_counter_running d f t0 t :
  pl031_sampled d f t0 -> t0 <= t < 2 ^ 64 -> pl031_counter d (Ok (t, f)) = Ok (u32 (p31_value d + pl031_ticks d f t)).
Proof.
  intros (Hr & Hf & Hs & _ & _ & _) Ht. unfold pl031_counter, pl031_ticks. rewrite Hr. simpl.
  destruct (Z.eqb_spec f 0); [lia|]. f_equal. replace (u64 (t - p31_start d)) with (t - p31_start d) by (unfold u64; lia).
  unfold u32. by rewrite Zplus_mod_idemp_r.
Qed.

Lemma pl031_due_iff d f t0 t :
  pl031_sampled d f t0 -> t0 <= t < 2 ^ 64 -> pl031_ticks d f t - pl031_ticks d f t0 < 2 ^ 32 ->
  pl031_due d (u32 (p31_value d + pl031_ticks d f t)) = true <->
  pl031_passes d f t0 t \/ u32 (p31_value d + pl031_ticks d f t) = p31_match d.
Proof.
  intros (Hr & Hf & Hs & _ & Hm & Hl) Ht Hgap. unfold pl031_due, pl031_passes. rewrite Hr, Hl.
  assert (Hmono : pl031_ticks d f t0 <= pl031_ticks d f t) by (apply Z.div_le_mono; lia).
  cbv zeta. set (L := pl031_ticks d f t0) in *. set (T := pl031_ticks d f t) in *. set (V := p31_value d).
  set (m := p31_match d) in *. clearbody L T V m. rewrite andb_true_l, orb_true_iff, andb_true_iff, negb_true_iff, Z.eqb_neq, Z.eqb_eq, Z.leb_le.
  unfold u32 in *. split.
  - intros [H|[Hne Hle]]; [by right|]. left. exists (L + (m - (V + L) mod 4294967296) mod 4294967296). lia.
  - intros [(k & Hk & Ek)|H]; [|by left]. right.
    assert (E : (m - (V + L) mod 4294967296) mod 4294967296 = k - L) by lia. rewrite E. lia.
Qed.

Lemma pl031_Read_sample d f a t0 t :
  pl031_sampled d f t0 -> t0 <= t < 2 ^ 64 ->
  fst (pl031_Read d a (Ok (t, f))) = pl031_sample d (u32 (p31_value d + pl031_ticks d f t)).
Proof.
  intros Hd Ht. unfold pl031_Read. rewrite (pl031_counter_running _ _ _ _ Hd Ht). by destruct (pl031_register _ _ _).
Qed.

Lemma pl031_sample_sampled d f t0 t :
  pl031_sampled d f t0 -> t0 <= t < 2 ^ 64 -> pl031_sampled (pl031_sample d (u32 (p31_value d + pl031_ticks d f t))) f t.
Proof.
  intros (Hr & Hf & Hs & Ht0 & Hm & Hl) Ht. unfold pl031_sampled, pl031_running in *; simpl. split_and!; done || lia.
Qed.

Lemma pl031_passes_split d f t0 t1 t2 :
  pl031_ticks d f t0 <= pl031_ticks d f t1 -> pl031_ticks d f t1 <= pl031_ticks d f t2 ->
  pl031_passes d f t0 t2 <-> pl031_passes d f t0 t1 \/ pl031_passes d f t1 t2.
Proof.
  intros H1 H2. unfold pl031_passes. split.
  - intros (k & Hk & Ek). destruct (Z.le_gt_cases k (pl031_ticks d f t1)); [left|right]; exists k; (split; [lia|done]).
  - intros [(k & Hk & Ek)|(k & Hk & Ek)]; exists k; (split; [lia|done]).
Qed.

Lemma polls_ok_sample d f v t times : polls_ok d f t times -> polls_ok (pl031_sample d v) f t times.
Proof.
  revert t. induction times as [|s times IH]; [done|]. intros t (H1 & H2 & H3). by split; [|split; [|apply IH]].
Qed.

Lemma last_cons_default {A} (l : list A) x y : List.last (x :: l) y = List.last l x.
Proof. revert x y. induction l as [|z l IH]; intros x y; [done|]. change (List.last (x :: z :: l) y) with (List.last (z :: l) y). by rewrite !IH. Qed.

Lemma exists_cons {A} (P : A -> Prop) x l : (exists y, y ∈ x :: l /\ P y) <-> P x \/ exists y, y ∈ l /\ P y.
Proof. setoid_rewrite elem_of_cons. naive_solver. Qed.

Lemma pl031_poll_sampled d f a t0 times :
  pl031_sampled d f t0 -> polls_ok d f t0 times ->
  let d' := pl031_poll a f times d in let t1 := List.last times t0 in
  t0 <= t1 /\ pl031_sampled d' f t1 /\ p31_value d' = p31_value d /\ p31_start d' = p31_start d /\
  p31_address d' = p31_address d /\
  (p31_raw d' = 1 <-> p31_raw d = 1 \/ pl031_passes d f t0 t1 \/
     exists t, t ∈ times /\ u32 (p31_value d + pl031_ticks d f t) = p31_match d).
Proof.
  revert d t0. induction times as [|t times IH]; intros d t0 Hd Hp.
  { simpl. split_and!; try done. split; [by left|]. intros [H|[(k & Hk & _)|(t & Ht & _)]]; [done|lia|set_solver]. }
  destruct Hp as (Ht & Hgap & Hp). cbn [pl031_poll foldl].
  rewrite (pl031_Read_sample _ _ a _ _ Hd Ht). pose proof (pl031_due_iff _ _ _ _ Hd Ht Hgap) as Hdue.
  set (d1 := pl031_sample d _).
  destruct (IH d1 t (pl031_sample_sampled _ _ _ _ Hd Ht) (polls_ok_sample _ _ _ _ _ Hp)) as (Hle & Hs & Ev & Est & Ea & Hraw).
  rewrite last_cons_default. unfold pl031_poll in Hle, Hs, Ev, Est, Ea, Hraw. split_and!; try done; [lia|].
  rewrite Hraw. change (p31_raw d1) with (if pl031_due d (u32 (p31_value d + pl031_ticks d f t)) then 1 else p31_raw d).
  change (pl031_passes d1 f t (List.last times t)) with (pl031_passes d f t (List.last times t)).
  destruct Hd as (_ & Hf & _).
  rewrite (pl031_passes_split d f t0 t (List.last times t)) by (apply Z.div_le_mono; lia).
  change (p31_value d1) with (p31_value d). change (p31_match d1) with (p31_match d).
  rewrite exists_cons. change (pl031_ticks d1 f) with (pl031_ticks d f).
  destruct (pl031_due _ _); [pose proof (proj1 Hdue eq_refl); tauto|].
  assert (~ (pl031_passes d f t0 t \/ u32 (p31_value d + pl031_ticks d f t) = p31_match d)) by (intros H; by apply Hdue in H).
  tauto.
Qed.

(** C29. The alarm of the PL031. A guest that writes the match register of a
    running clock and then polls, at any times less than a wrap of the
    32-bit counter apart, sees the raw interrupt exactly when it was raised
    before, or the counter went through the match value after the write, or a
    read found the counter at that value; and the data register reads the
    loaded value plus the ticks elapsed, modulo 2^32, whatever was polled. *)
Theorem pl031_alarm d f a t0 m clock times :
  pl031_running d = true -> 0 < f -> 0 <= p31_start d <= t0 -> t0 < 2 ^ 64 -> 0 <= p31_address d < 2 ^ 64 - 4096 ->
  polls_ok d f t0 times ->
  exists d1, pl031_Write d (p31_address d + 4) m (Ok (t0, f)) clock = (d1, None) /\
  let d' := pl031_poll a f times d1 in
  (p31_raw d' = 1 <->
     p31_raw d = 1 \/
     (exists k, pl031_ticks d f t0 < k <= pl031_ticks d f (List.last times t0) /\ u32 (p31_value d + k) = u32 m) \/
     (exists t, t ∈ times /\ u32 (p31_value d + pl031_ticks d f t) = u32 m)) /\
  (forall t, List.last times t0 <= t < 2 ^ 64 ->
     snd (pl031_Read d' (p31_address d) (Ok (t, f))) = Ok (u32 (p31_value d + pl031_ticks d f t))).
Proof.
  intros Hr Hf Hs Ht Ha Hp. set (c := u32 (p31_value d + pl031_ticks d f t0)).
  set (d1 := MkPl031 (p31_address d) (p31_start d) (p31_value d) (u32 m) (p31_control d) (p31_mask d) (p31_raw d) c).
  assert (Hc : pl031_counter d (Ok (t0, f)) = Ok c).
  { unfold pl031_counter, c, pl031_ticks. rewrite Hr. simpl. destruct (Z.eqb_spec f 0); [lia|]. f_equal.
    replace (u64 (t0 - p31_start d)) with (t0 - p31_start d) by (unfold u64; lia). unfold u32. by rewrite Zplus_mod_idemp_r. }
  assert (Hd1 : pl031_sampled d1 f t0) by (unfold pl031_sampled, d1; simpl; split_and!; unfold u32; done || lia).
  assert (Hp1 : polls_ok d1 f t0 times).
  { assert (Hgen : forall s, polls_ok d f s times -> polls_ok d1 f s times); [|by apply Hgen].
    clear. induction times as [|s' times IH]; intros s; [done|]. intros (H1 & H2 & H3). by split; [|split; [|apply IH]]. }
  exists d1. split.
  { unfold pl031_Write. destruct d as [address start value mtch control mask raw last]. cbn [p31_address] in *.
    replace (u64 (address + 4 - address)) with 4 by (unfold u64; lia). cbn. by rewrite Hc. }
  destruct (pl031_poll_sampled d1 f a t0 times Hd1 Hp1) as (_ & Hs' & Ev & Est & Ead & Hraw). cbv zeta. split; [exact Hraw|].
  intros t Ht'. set (d' := pl031_poll a f times d1) in *.
  assert (Htk : pl031_ticks d' f t = pl031_ticks d f t) by (unfold pl031_ticks; by rewrite Est).
  unfold pl031_Read. rewrite (pl031_counter_running _ _ _ _ Hs' Ht'), Ev, Ead, Htk. unfold d1; cbn [p31_address p31_value].
  by rewrite Z.sub_diag.
Qed.

(** An alarm three ticks ahead, polled before and after it; and one at the
    current tick, first polled a tick later, which stays low. *)
Lemma pl031_alarm_witness :
  let d := MkPl031 150994944 0 4294967294 0 1 0 0 4294967294 in
  exists d1 d2,
    pl031_Write d 150994948 1 (Ok (5, 10)) (Ok (5, 10)) = (d1, None) /\
    p31_raw (pl031_poll 150994964 10 [12; 47] d1) = 1 /\
    pl031_Write d 150994948 4294967294 (Ok (5, 10)) (Ok (5, 10)) = (d2, None) /\
    p31_raw (pl031_poll 150994964 10 [12; 47] d2) <> 1.
Proof.
  intros d. assert (Hp : polls_ok d 10 5 [12; 47]) by (vm_compute; repeat split; discriminate).
  destruct (pl031_alarm d 10 150994964 5 1 (Ok (5, 10)) [12; 47]) as (d1 & E1 & R1 & _);
    [reflexivity|lia|simpl; lia|lia|simpl; lia|exact Hp|].
  destruct (pl031_alarm d 10 150994964 5 4294967294 (Ok (5, 10)) [12; 47]) as (d2 & E2 & R2 & _);
    [reflexivity|lia|simpl; lia|lia|simpl; lia|exact Hp|].
  exists d1, d2. split; [exact E1|]. split; [|split; [exact E2|]].
  - apply R1. right. left. exists 3. vm_compute. repeat split; discriminate.
  - intros H. apply R2 in H as [H|[(k & Hk & Ek)|(t & Hin & Et)]]; [discriminate H| |].
    + vm_compute in Hk. unfold u32 in Ek. simpl in Ek. destruct Hk as [Hk1 Hk2].
      assert (Hk : 0 < k <= 4) by (split; [exact Hk1|exact Hk2]). lia.
    + apply elem_of_cons in Hin as [->|Hin]; [discriminate Et|]. apply list_elem_of_singleton in Hin as ->. discriminate Et.
Defined.
