(* ===== verification/GdbWire.v ===== *)
(** Package [debug]: the packet layer of the GDB remote protocol and the
    target description it reads (src/debug/gdb_wire.go).

    Go strings are lists of bytes. The byte channel of a wire is a class: a
    state [E], [io.ReadFull] on it and [Write] to it. Operations live in a
    monad that threads the channel and the error. [xml.Unmarshal] is a
    parameter. Loops that run until the peer sends something take fuel. *)

From S2P Require Import Prelude GoLib.
From stdpp Require Import base numbers list gmap sorting strings.
From Stdlib Require Import String.

Open Scope Z_scope.
Open Scope list_scope.
Open Scope trex_scope.

#[local] Ltac Zify.zify_post_hook ::= Z.to_euclidean_division_equations.

(** The bytes of a Go string literal. *)
Definition str (s : string) : bytes := (fun c => Z.of_N (Ascii.N_of_ascii c)) <$> list_ascii_of_string s.

(** ** The channel and the monad *)

Class ByteChannel (E : Type) := {
  ch_ReadFull : Z -> E -> E * res bytes;
  ch_Write : bytes -> E -> E * Z * option error;
}.

Definition wire_m (E A : Type) : Type := E -> E * res A.

Definition wire_ret {E A} (a : A) : wire_m E A := fun e => (e, Ok a).
Definition wire_err {E A} (err : error) : wire_m E A := fun e => (e, Err err).
Definition wire_bind {E A B} (m : wire_m E A) (k : A -> wire_m E B) : wire_m E B :=
  fun e => match m e with (e', Ok a) => k a e' | (e', Err err) => (e', Err err) end.

Notation "'do' x '<-' m 'in' k" := (wire_bind m (fun x => k))
  (at level 10, x pattern, m at level 100, k at level 200) : trex_scope.

Record gdbWire := MkGdbWire { gw_noAck : bool; gw_packetSize : Z }.

Definition defaultGDBPacketSize : Z := 4096.
Definition maximumGDBXMLSize : Z := 8388608.
Definition newGDBWire : gdbWire := MkGdbWire false defaultGDBPacketSize.

(** ** Encoding *)

(** The bytes that start, end, escape and repeat in a packet. *)
Definition gdb_special (b : byte) : bool := (b =? 35) || (b =? 36) || (b =? 125) || (b =? 42).

Fixpoint gdb_escape (payload : bytes) : bytes :=
  match payload with
  | [] => []
  | b :: payload => (if gdb_special b then [125; Z.lxor b 32] else [b]) ++ gdb_escape payload
  end.

Definition gdb_checksum (l : bytes) : byte := foldl (fun sum b => u8 (sum + b)) 0 l.

Definition hex_digit (v : Z) : byte := if v <? 10 then 48 + v else 97 + (v - 10).

Definition gdb_packet (payload : bytes) : bytes :=
  let escaped := gdb_escape payload in
  let checksum := gdb_checksum escaped in
  36 :: escaped ++ [35; hex_digit (Z.shiftr checksum 4); hex_digit (Z.land checksum 15)].

(** The decoding loop of [read]. *)
Fixpoint gdb_unescape (encoded : bytes) : res bytes :=
  match encoded with
  | [] => Ok []
  | b :: encoded =>
      if b =? 125 then
        match encoded with
        | [] => Err (Errorf "truncated GDB escape")
        | c :: encoded => let! rest := gdb_unescape encoded in Ok (Z.lxor c 32 :: rest)
        end
      else let! rest := gdb_unescape encoded in Ok (b :: rest)
  end.

(** A hexadecimal digit of either case, as [strconv] and [encoding/hex] read
    it. *)
Definition hex_value (b : byte) : option Z :=
  if (48 <=? b) && (b <=? 57) then Some (b - 48)
  else if (97 <=? b) && (b <=? 102) then Some (b - 87)
  else if (65 <=? b) && (b <=? 70) then Some (b - 55)
  else None.

(** [strconv.ParseUint(text, 16, 8)] on a text of two bytes. *)
Definition parse_hex2 (text : bytes) : option Z :=
  match text with
  | [a; b] => match hex_value a, hex_value b with Some x, Some y => Some (16 * x + y) | _, _ => None end
  | _ => None
  end.

(** ** Data of the target description *)

Record gdbXMLRegister := MkXMLRegister {
  xr_Name : bytes; xr_Bitsize : Z; xr_Regnum : option Z; xr_Type : bytes; xr_Group : bytes }.

(** [gdbFeature]; an include is its [Href]. *)
Record gdbFeature := MkFeature { gf_Registers : list gdbXMLRegister; gf_Includes : list bytes }.

Record gdbTargetDescription := MkTarget {
  gt_Architecture : bytes; gt_Features : list gdbFeature; gt_Includes : list bytes; gt_Registers : list gdbXMLRegister }.

Record gdbRegister := MkRegister {
  gr_Name : bytes; gr_Number : Z; gr_Bits : Z; gr_Offset : Z; gr_Type : bytes; gr_Group : bytes }.

(** The variables the closure [load] shares. *)
Record load_state := MkLoad { ld_seen : gset bytes; ld_architecture : bytes; ld_registers : list gdbXMLRegister }.

(** The loop that numbers and places the registers. *)
Fixpoint place_registers (xml : list gdbXMLRegister) (number offset : Z) : res (list gdbRegister) :=
  match xml with
  | [] => Ok []
  | r :: xml =>
      let number := default number (xr_Regnum r) in
      if bool_decide (xr_Name r = []) || (xr_Bitsize r <=? 0) || negb (xr_Bitsize r mod 8 =? 0)
      then Err (Errorf "invalid GDB register description")
      else
        let! rest := place_registers xml (i64 (number + 1)) (i64 (offset + xr_Bitsize r / 8)) in
        Ok (MkRegister (xr_Name r) number (xr_Bitsize r) offset (xr_Type r) (xr_Group r) :: rest)
  end.

(** ** Packets *)

Section Wire.
Context {E : Type} `{ByteChannel E}.

(** [io.ReadFull] into one byte. *)
Definition read_byte : wire_m E byte := do l <- ch_ReadFull 1 in wire_ret (nthb l 0).

Fixpoint writeAll_loop (fuel : nat) (data : bytes) : wire_m E unit :=
  match data with
  | [] => wire_ret tt
  | _ =>
      match fuel with
      | O => wire_err OutOfFuel
      | S fuel => fun e =>
          match ch_Write data e with
          | (e', _, Some err) => (e', Err err)
          | (e', written, None) =>
              if written =? 0 then (e', Err ErrShortWrite)
              else if (written <? 0) || (zlen data <? written) then (e', Err Panic)
              else writeAll_loop fuel (drop (Z.to_nat written) data) e'
          end
      end
  end.

(** A write makes progress, so one round per byte is enough. *)
Definition writeAll (data : bytes) : wire_m E unit := writeAll_loop (List.length data) data.

Definition gdb_send (w : gdbWire) (payload : bytes) : wire_m E unit :=
  if gw_packetSize w <? zlen payload then wire_err (Errorf "GDB packet size exceeds negotiated limit")
  else
    do _ <- writeAll (gdb_packet payload) in
    if gw_noAck w then wire_ret tt
    else
      do ack <- read_byte in
      if ack =? 43 then wire_ret tt else wire_err (Errorf "GDB target rejected packet").

(** Bytes up to the leader of a packet are skipped, acknowledgements
    included. *)
Fixpoint read_leader (fuel : nat) : wire_m E unit :=
  match fuel with
  | O => wire_err OutOfFuel
  | S fuel => do leader <- read_byte in if leader =? 36 then wire_ret tt else read_leader fuel
  end.

Fixpoint read_encoded (fuel : nat) (limit : Z) (encoded : bytes) : wire_m E bytes :=
  match fuel with
  | O => wire_err OutOfFuel
  | S fuel =>
      do value <- read_byte in
      if value =? 35 then wire_ret encoded
      else
        let encoded := encoded ++ [value] in
        if limit <? zlen encoded then wire_err (Errorf "GDB reply exceeds negotiated packet limit")
        else read_encoded fuel limit encoded
  end.

(** The '-' of a mismatch is sent and its error ignored. *)
Definition gdb_read (fuel : nat) (w : gdbWire) : wire_m E bytes :=
  do _ <- read_leader fuel in
  do encoded <- read_encoded fuel (gw_packetSize w + 1024) [] in
  do checksumText <- ch_ReadFull 2 in
  match parse_hex2 checksumText with
  | None => wire_err (Errorf "invalid GDB checksum")
  | Some want =>
      if negb (gdb_checksum encoded =? want) then
        fun e => (if gw_noAck w then e else fst (writeAll [45] e), Err (Errorf "GDB checksum mismatch"))
      else
        do _ <- (if gw_noAck w then wire_ret tt else writeAll [43]) in
        fun e => (e, gdb_unescape encoded)
  end.

Definition gdb_exchange (fuel : nat) (w : gdbWire) (payload : bytes) : wire_m E bytes :=
  do _ <- gdb_send w payload in gdb_read fuel w.

(** ** Target description *)

Fixpoint hex_number (fuel : nat) (v : Z) : bytes :=
  match fuel with
  | O => []
  | S fuel => if v <? 16 then [hex_digit v] else hex_number fuel (v / 16) ++ [hex_digit (v mod 16)]
  end.

(** [fmt.Sprintf("qXfer:features:read:%s:%x,%x", annex, offset, chunkSize)]. *)
Definition annex_request (annex : bytes) (offset chunkSize : Z) : bytes :=
  str "qXfer:features:read:" ++ annex ++ [58] ++ hex_number 16 offset ++ [44] ++ hex_number 16 chunkSize.

Fixpoint readAnnex_loop (fuel : nat) (w : gdbWire) (annex : bytes) (chunkSize : Z) (result : bytes) : wire_m E bytes :=
  match fuel with
  | O => wire_err OutOfFuel
  | S fuel' =>
      do reply <- gdb_exchange fuel w (annex_request annex (zlen result) chunkSize) in
      match reply with
      | [] => wire_err (Errorf "GDB target rejected feature annex")
      | kind :: data =>
          if negb (kind =? 109) && negb (kind =? 108) then wire_err (Errorf "GDB target rejected feature annex")
          else if maximumGDBXMLSize <? zlen result + zlen reply - 1 then wire_err (Errorf "GDB target XML exceeds limit")
          else
            let result := result ++ data in
            if kind =? 108 then wire_ret result else readAnnex_loop fuel' w annex chunkSize result
      end
  end.

Definition readAnnex (fuel : nat) (w : gdbWire) (annex : bytes) : wire_m E bytes :=
  let chunkSize := gw_packetSize w - 128 in
  readAnnex_loop fuel w annex (if chunkSize <? 256 then 256 else chunkSize) [].

(** Run an operation for each element, threading a state. *)
Fixpoint each_m {A S} (f : A -> S -> wire_m E S) (l : list A) (s : S) : wire_m E S :=
  match l with
  | [] => wire_ret s
  | a :: l => do s' <- f a s in each_m f l s'
  end.

Context (Unmarshal : bytes -> res gdbTargetDescription).

Definition add_registers (l : list gdbXMLRegister) (s : load_state) : load_state :=
  MkLoad (ld_seen s) (ld_architecture s) (ld_registers s ++ l).

Fixpoint load (fuel : nat) (w : gdbWire) (annex : bytes) (s : load_state) : wire_m E load_state :=
  if bool_decide (annex ∈ ld_seen s) then wire_ret s
  else
    match fuel with
    | O => wire_err OutOfFuel
    | S fuel' =>
        do data <- readAnnex fuel w annex in
        match Unmarshal data with
        | Err err => wire_err (Wrapf "parse GDB target XML" err)
        | Ok target =>
            let architecture := if bool_decide (gt_Architecture target = []) then ld_architecture s else gt_Architecture target in
            let s := MkLoad ({[annex]} ∪ ld_seen s) architecture (ld_registers s ++ gt_Registers target) in
            do s <- each_m (fun feature s =>
              each_m (load fuel' w) (gf_Includes feature) (add_registers (gf_Registers feature) s)) (gt_Features target) s in
            each_m (load fuel' w) (gt_Includes target) s
        end
    end.

Definition targetDescription (fuel : nat) (w : gdbWire) : wire_m E (bytes * list gdbRegister) :=
  do s <- load fuel w (str "target.xml") (MkLoad ∅ [] []) in
  fun e => (e, let! registers := place_registers (ld_registers s) 0 0 in Ok (ld_architecture s, registers)).
End Wire.

(** ** Replies *)

(** [strings.Split(s, sep)] for a separator of one byte. *)
Fixpoint split_byte (sep : byte) (s : bytes) : list bytes :=
  match s with
  | [] => [[]]
  | b :: s =>
      if b =? sep then [] :: split_byte sep s
      else match split_byte sep s with [] => [[b]] | field :: fields => (b :: field) :: fields end
  end.

(** [strings.Cut(s, sep)]: the parts around the first separator. *)
Fixpoint cut_byte (sep : byte) (s : bytes) : option (bytes * bytes) :=
  match s with
  | [] => None
  | b :: s =>
      if b =? sep then Some ([], s)
      else match cut_byte sep s with Some (before, after) => Some (b :: before, after) | None => None end
  end.

Definition add_feature (features : gmap bytes bytes) (field : bytes) : gmap bytes bytes :=
  match last field with
  | None => features
  | Some final =>
      if (final =? 43) || (final =? 45) then <[take (List.length field - 1) field := [final]]> features
      else match cut_byte 61 field with
           | Some (name, value) => <[name := value]> features
           | None => <[field := []]> features
           end
  end.

Definition parseGDBFeatures (reply : bytes) : gmap bytes bytes := foldl add_feature ∅ (split_byte 59 reply).

(** [hex.Decode], on an even number of digits. *)
Fixpoint hex_decode (src : bytes) : res bytes :=
  match src with
  | a :: b :: src =>
      match hex_value a, hex_value b with
      | Some x, Some y => let! rest := hex_decode src in Ok (Z.lor (Z.shiftl x 4) y :: rest)
      | _, _ => Err (Errorf "encoding/hex: invalid byte")
      end
  | _ => Ok []
  end.

Definition decodeGDBHex (reply : bytes) (maximum : Z) : res bytes :=
  if negb (zlen reply mod 2 =? 0) || (maximum <? zlen reply / 2) then Err (Errorf "invalid or oversized GDB hexadecimal reply")
  else hex_decode reply.

(** ** Termination on a channel with finite input *)

Definition own_error (err : error) : Prop := err <> Panic /\ err <> OutOfFuel.

(** What the packet layer needs of a channel to return: a measure of the
    input that is left, which reads decrease and writes do not increase, and
    the contract of [io.Writer] on counts. *)
Class FiniteChannel (E : Type) `{ByteChannel E} := {
  ch_left : E -> nat;
  ch_ReadFull_law n e : 0 < n ->
    match ch_ReadFull n e with
    | (e', Ok l) => zlen l = n /\ (ch_left e' < ch_left e)%nat
    | (e', Err err) => own_error err /\ (ch_left e' <= ch_left e)%nat
    end;
  ch_Write_law d e : d <> [] ->
    match ch_Write d e with
    | (e', n, None) => 0 <= n <= zlen d /\ (ch_left e' <= ch_left e)%nat
    | (e', _, Some err) => own_error err /\ (ch_left e' <= ch_left e)%nat
    end;
}.

Section Total.
Context {E : Type} `{FiniteChannel E}.

(** [m] returns from [e], with a value that satisfies [P] or an error of its
    own, having read at least [k] bytes when it succeeds. *)
Definition safe {A} (k : nat) (P : A -> Prop) (m : wire_m E A) (e : E) : Prop :=
  match m e with
  | (e', Ok a) => P a /\ (ch_left e' + k <= ch_left e)%nat
  | (e', Err err) => own_error err /\ (ch_left e' <= ch_left e)%nat
  end.

Lemma safe_bind {A B} j k (P : A -> Prop) (Q : B -> Prop) m (f : A -> wire_m E B) e :
  safe j P m e -> (forall a e', P a -> (ch_left e' + j <= ch_left e)%nat -> safe k Q (f a) e') ->
  safe (j + k) Q (do x <- m in f x) e.
Proof.
  unfold safe, wire_bind. intros Hm Hf. destruct (m e) as [e' [a|err]]; [|done].
  destruct Hm as [Ha Hl]. specialize (Hf a e' Ha Hl). destruct (f a e') as [e2 [b|err]]; destruct Hf; split; done || lia.
Qed.

Lemma safe_weaken {A} j k (P : A -> Prop) m e : (k <= j)%nat -> safe j P m e -> safe k P m e.
Proof. unfold safe. intros Hk. destruct (m e) as [e' [a|err]]; [|done]. intros [? ?]. split; [done|lia]. Qed.

Lemma safe_ret {A} (P : A -> Prop) a e : P a -> safe 0 P (wire_ret a) e.
Proof. unfold safe; simpl. intros. split; [done|lia]. Qed.

Lemma safe_err {A} k (P : A -> Prop) err e : own_error err -> safe k P (wire_err err) e.
Proof. unfold safe; simpl. intros. split; [done|lia]. Qed.

Lemma own_Errorf m : own_error (Errorf m).
Proof. done. Qed.

Hint Resolve safe_ret safe_err own_Errorf : trex.

Lemma read_byte_safe e : safe 1 (fun _ => True) read_byte e.
Proof.
  apply (safe_bind 1 0 (fun _ => True)); [|auto with trex].
  unfold safe. pose proof (ch_ReadFull_law 1 e ltac:(lia)) as Hr.
  destruct (ch_ReadFull 1 e) as [e' [l|err]]; [|done]. split; [done|lia].
Qed.

Lemma writeAll_loop_safe fuel data e : (List.length data <= fuel)%nat -> safe 0 (fun _ => True) (writeAll_loop fuel data) e.
Proof.
  revert data e. induction fuel as [|fuel IH]; intros data e Hf; destruct data as [|b data]; simpl in Hf; try lia;
    cbn [writeAll_loop]; auto with trex.
  unfold safe. pose proof (ch_Write_law (b :: data) e ltac:(done)) as Hw.
  destruct (ch_Write (b :: data) e) as [[e' n] [err|]]; [done|]. destruct Hw as [Hn Hl].
  destruct (Z.eqb_spec n 0); [split; [done|lia]|].
  destruct (Z.ltb_spec n 0), (Z.ltb_spec (zlen (b :: data)) n); simpl; try lia.
  assert (Hd : (List.length (drop (Z.to_nat n) (b :: data)) <= fuel)%nat) by (rewrite length_drop; simpl; lia).
  specialize (IH _ e' Hd). unfold safe in IH.
  destruct (writeAll_loop fuel _ e') as [e2 [u|err]]; destruct IH; split; done || lia.
Qed.

Lemma writeAll_safe data e : safe 0 (fun _ => True) (writeAll data) e.
Proof. by apply writeAll_loop_safe. Qed.

Lemma gdb_send_safe w payload e : safe 0 (fun _ => True) (gdb_send w payload) e.
Proof.
  unfold gdb_send. destruct (_ <? _); [auto with trex|].
  apply (safe_bind 0 0 (fun _ => True)); [apply writeAll_safe|]. intros _ e' _ _. destruct (gw_noAck w); [auto with trex|].
  apply (safe_weaken 1); [lia|]. apply (safe_bind 1 0 (fun _ => True)); [apply read_byte_safe|].
  intros ack e2 _ _. destruct (ack =? 43); auto with trex.
Qed.

Lemma read_leader_safe fuel e : (ch_left e < fuel)%nat -> safe 1 (fun _ => True) (read_leader fuel) e.
Proof.
  revert e. induction fuel as [|fuel IH]; intros e Hf; [lia|]. cbn [read_leader].
  apply (safe_bind 1 0 (fun _ => True)); [apply read_byte_safe|]. intros b e' _ Hl.
  destruct (b =? 36); [auto with trex|]. apply (safe_weaken 1); [lia|]. apply IH. lia.
Qed.

Lemma read_encoded_safe fuel limit encoded e :
  (ch_left e < fuel)%nat -> safe 1 (fun _ => True) (read_encoded fuel limit encoded) e.
Proof.
  revert e encoded. induction fuel as [|fuel IH]; intros e encoded Hf; [lia|]. cbn [read_encoded].
  apply (safe_bind 1 0 (fun _ => True)); [apply read_byte_safe|]. intros b e' _ Hl.
  destruct (b =? 35); [auto with trex|]. cbv zeta. destruct (_ <? _); [auto with trex|].
  apply (safe_weaken 1); [lia|]. apply IH. lia.
Qed.

(** Induction on a list two elements at a time, as an escape consumes it. *)
Lemma unescape_own_error encoded : returns (fun _ => True) (gdb_unescape encoded).
Proof.
  remember (List.length encoded) as n eqn:Hn. revert encoded Hn. induction (lt_wf n) as [n _ IH]. intros encoded ->.
  destruct encoded as [|b encoded]; [done|]. cbn [gdb_unescape]. destruct (b =? 125).
  - destruct encoded as [|c encoded]; [done|]. specialize (IH (List.length encoded) ltac:(simpl; lia) encoded eq_refl).
    by destruct (gdb_unescape encoded).
  - specialize (IH (List.length encoded) ltac:(simpl; lia) encoded eq_refl). by destruct (gdb_unescape encoded).
Qed.

Lemma gdb_read_safe fuel w e : (ch_left e < fuel)%nat -> safe 1 (fun _ => True) (gdb_read fuel w) e.
Proof.
  intros Hf. apply (safe_bind 1 0 (fun _ => True)); [by apply read_leader_safe|]. intros _ e1 _ H1.
  apply (safe_weaken 1); [lia|]. apply (safe_bind 1 0 (fun _ => True)); [apply read_encoded_safe; lia|]. intros encoded e2 _ H2.
  apply (safe_weaken 1); [lia|]. apply (safe_bind 1 0 (fun _ => True)).
  { unfold safe. pose proof (ch_ReadFull_law 2 e2 ltac:(lia)) as Hr.
    destruct (ch_ReadFull 2 e2) as [e' [l|err]]; [|done]. split; [done|lia]. }
  intros text e3 _ H3. destruct (parse_hex2 text) as [want|]; [|auto with trex]. destruct (negb _).
  - unfold safe. split; [done|]. destruct (gw_noAck w); [done|]. pose proof (writeAll_safe [45] e3) as Hw. unfold safe in Hw.
    destruct (writeAll [45] e3) as [e4 [u|err]]; simpl; destruct Hw; lia.
  - apply (safe_bind 0 0 (fun _ => True)); [destruct (gw_noAck w); auto using writeAll_safe with trex|].
    intros _ e4 _ H4. unfold safe. pose proof (unescape_own_error encoded) as Hu.
    destruct (gdb_unescape encoded); simpl in Hu; split; done || lia.
Qed.

Lemma gdb_exchange_safe fuel w payload e : (ch_left e < fuel)%nat -> safe 1 (fun _ => True) (gdb_exchange fuel w payload) e.
Proof.
  intros Hf. apply (safe_bind 0 1 (fun _ => True)); [apply gdb_send_safe|]. intros _ e' _ Hl. apply gdb_read_safe. lia.
Qed.

Lemma readAnnex_loop_safe fuel w annex chunkSize result e :
  (ch_left e < fuel)%nat -> safe 1 (fun _ => True) (readAnnex_loop fuel w annex chunkSize result) e.
Proof.
  revert e result. induction fuel as [|fuel IH]; intros e result Hf; [lia|]. cbn [readAnnex_loop].
  apply (safe_bind 1 0 (fun _ => True)); [by apply gdb_exchange_safe|]. intros reply e' _ Hl.
  destruct reply as [|kind data]; [auto with trex|]. destruct (_ && _); [auto with trex|].
  destruct (_ <? _); [auto with trex|]. cbv zeta. destruct (kind =? 108); [auto with trex|].
  apply (safe_weaken 1); [lia|]. apply IH. lia.
Qed.

Lemma each_m_safe {A S} (f : A -> S -> wire_m E S) n l s e :
  (forall a s e, (ch_left e < n)%nat -> safe 0 (fun _ => True) (f a s) e) -> (ch_left e < n)%nat ->
  safe 0 (fun _ => True) (each_m f l s) e.
Proof.
  intros Hf. revert s e. induction l as [|a l IH]; intros s e He; cbn [each_m]; [auto with trex|].
  apply (safe_bind 0 0 (fun _ => True)); [by apply Hf|]. intros s' e' _ Hl. apply IH. lia.
Qed.

Lemma load_safe Unmarshal fuel w annex s e :
  (ch_left e < fuel)%nat -> safe 0 (fun _ => True) (load Unmarshal fuel w annex s) e.
Proof.
  revert annex s e. induction fuel as [|fuel IH]; intros annex s e Hf; [lia|]. cbn [load].
  case_bool_decide; [auto with trex|]. apply (safe_weaken 1); [lia|].
  apply (safe_bind 1 0 (fun _ => True)); [by apply readAnnex_loop_safe|]. intros data e' _ Hl.
  destruct (Unmarshal data) as [target|err]; [|by apply safe_err]. cbv zeta.
  apply (safe_bind 0 0 (fun _ => True)).
  - apply (each_m_safe _ fuel); [|lia]. intros feature s' e2 H2. apply (each_m_safe _ fuel); [|done]. intros; by apply IH.
  - intros s' e2 _ H2. apply (each_m_safe _ fuel); [|lia]. intros; by apply IH.
Qed.
End Total.

(** ** A pipe

    A channel whose input is known and whose writes take at most [pp_chunk]
    bytes. *)
Record pipe := MkPipe { pp_in : bytes; pp_out : bytes; pp_chunk : nat }.

#[export] Instance pipe_channel : ByteChannel pipe := {
  ch_ReadFull n p :=
    if n <=? zlen (pp_in p) then (MkPipe (drop (Z.to_nat n) (pp_in p)) (pp_out p) (pp_chunk p), Ok (slice 0 n (pp_in p)))
    else (MkPipe [] (pp_out p) (pp_chunk p), Err (if zlen (pp_in p) =? 0 then EOF else ErrUnexpectedEOF));
  ch_Write d p :=
    (MkPipe (pp_in p) (pp_out p ++ take (pp_chunk p) d) (pp_chunk p), Z.min (zlen d) (Z.of_nat (pp_chunk p)), None);
}.

#[export] Instance pipe_finite : FiniteChannel pipe.
Proof.
  refine {| ch_left := fun p => List.length (pp_in p) |}.
  - intros n p Hn. simpl. destruct (Z.leb_spec n (zlen (pp_in p))).
    + split; [apply zlen_slice; lia|]. simpl. rewrite length_drop. unfold zlen in *. lia.
    + simpl. split; [by destruct (_ =? 0)|lia].
  - intros d p Hd. simpl. pose proof (zlen_nonneg d). lia.
Defined.

Lemma read_byte_pipe b l out k : read_byte (MkPipe (b :: l) out k) = (MkPipe l out k, Ok b).
Proof.
  unfold read_byte, wire_bind. simpl. destruct (Z.leb_spec 1 (zlen (b :: l))) as [_|Hl]; [done|].
  rewrite zlen_cons in Hl. pose proof (zlen_nonneg l). lia.
Qed.

Lemma read_byte_pipe_inv l out k p b :
  read_byte (MkPipe l out k) = (p, Ok b) -> exists l', l = b :: l' /\ p = MkPipe l' out k.
Proof.
  destruct l as [|c l]; [done|]. rewrite read_byte_pipe. intros [= <- <-]. by exists l.
Qed.

Lemma writeAll_pipe d l out k : (0 < k)%nat -> writeAll d (MkPipe l out k) = (MkPipe l (out ++ d) k, Ok tt).
Proof.
  intros Hk. unfold writeAll.
  assert (Hgen : forall fuel d out, (List.length d <= fuel)%nat ->
    writeAll_loop fuel d (MkPipe l out k) = (MkPipe l (out ++ d) k, Ok tt)); [|by apply Hgen].
  clear d out. induction fuel as [|fuel IH]; intros d out Hf; destruct d as [|b d]; simpl in Hf; try lia;
    cbn [writeAll_loop]; [by rewrite app_nil_r..|].
  cbn [ch_Write pipe_channel pp_in pp_out pp_chunk]. rewrite zlen_cons. pose proof (zlen_nonneg d).
  set (n := Z.min _ _). assert (0 < n <= 1 + zlen d) by lia. destruct (Z.eqb_spec n 0); [lia|].
  destruct (Z.ltb_spec n 0), (Z.ltb_spec (1 + zlen d) n); simpl; try lia.
  rewrite IH by (rewrite length_drop; simpl; lia). rewrite <- app_assoc. do 3 f_equal.
  destruct (decide (k <= S (List.length d))%nat).
  - replace (Z.to_nat n) with k by (unfold zlen in *; lia). apply take_drop.
  - rewrite take_ge, drop_ge by (simpl; unfold zlen in *; lia). by rewrite app_nil_r.
Qed.

(** Writing leaves the input alone. *)
Lemma writeAll_pipe_in d p : pp_in (fst (writeAll d p)) = pp_in p.
Proof.
  unfold writeAll. generalize (List.length d) as fuel. intros fuel. revert d p.
  induction fuel as [|fuel IH]; intros [|b d] p; cbn [writeAll_loop]; try done.
  cbn [ch_Write pipe_channel]. destruct (_ =? 0); [done|]. destruct (_ || _); [done|]. by rewrite IH.
Qed.

Lemma read_leader_pipe fuel junk l out k :
  36 ∉ junk -> (List.length junk < fuel)%nat -> read_leader fuel (MkPipe (junk ++ 36 :: l) out k) = (MkPipe l out k, Ok tt).
Proof.
  revert fuel. induction junk as [|b junk IH]; intros fuel Hj Hf; (destruct fuel as [|fuel]; [simpl in Hf; lia|]);
    cbn [read_leader app]; unfold wire_bind; rewrite read_byte_pipe; [done|].
  apply not_elem_of_cons in Hj as [Hb Hj]. destruct (Z.eqb_spec b 36); [congruence|]. apply IH; [done|simpl in Hf; lia].
Qed.

Lemma read_leader_inv fuel l out k p :
  read_leader fuel (MkPipe l out k) = (p, Ok tt) ->
  exists junk l', l = junk ++ 36 :: l' /\ 36 ∉ junk /\ p = MkPipe l' out k.
Proof.
  revert l. induction fuel as [|fuel IH]; intros l; [done|]. cbn [read_leader]. unfold wire_bind.
  destruct (read_byte (MkPipe l out k)) as [p1 [b|err]] eqn:Eb; [|done].
  apply read_byte_pipe_inv in Eb as (l1 & -> & ->). destruct (Z.eqb_spec b 36) as [->|Hb].
  - intros [= <-]. exists [], l1. split_and!; [done|apply not_elem_of_nil|done].
  - intros Hr. apply IH in Hr as (junk & l' & -> & Hj & ->). exists (b :: junk), l'. split_and!; [done| |done].
    apply not_elem_of_cons. split; [congruence|done].
Qed.

Lemma read_encoded_pipe fuel limit enc acc l out k :
  35 ∉ enc -> (List.length enc < fuel)%nat -> zlen acc + zlen enc <= limit ->
  read_encoded fuel limit acc (MkPipe (enc ++ 35 :: l) out k) = (MkPipe l out k, Ok (acc ++ enc)).
Proof.
  revert fuel acc. induction enc as [|b enc IH]; intros fuel acc He Hf Hl; (destruct fuel as [|fuel]; [simpl in Hf; lia|]);
    cbn [read_encoded app]; unfold wire_bind; rewrite read_byte_pipe; [by rewrite app_nil_r|].
  apply not_elem_of_cons in He as [Hb He]. rewrite zlen_cons in Hl. pose proof (zlen_nonneg enc).
  assert (Hz : zlen (acc ++ [b]) = zlen acc + 1) by (rewrite zlen_app; done).
  destruct (Z.eqb_spec b 35); [congruence|]. destruct (Z.ltb_spec limit (zlen (acc ++ [b]))); [lia|].
  rewrite IH by (done || simpl in Hf; lia). by rewrite <- app_assoc.
Qed.

Lemma read_encoded_inv fuel limit acc l out k p data :
  read_encoded fuel limit acc (MkPipe l out k) = (p, Ok data) ->
  exists enc l', l = enc ++ 35 :: l' /\ 35 ∉ enc /\ data = acc ++ enc /\ p = MkPipe l' out k.
Proof.
  revert l acc. induction fuel as [|fuel IH]; intros l acc; [done|]. cbn [read_encoded]. unfold wire_bind.
  destruct (read_byte (MkPipe l out k)) as [p1 [b|err]] eqn:Eb; [|done].
  apply read_byte_pipe_inv in Eb as (l1 & -> & ->). destruct (Z.eqb_spec b 35) as [->|Hb].
  - intros [= <- <-]. exists [], l1. rewrite app_nil_r. split_and!; [done|apply not_elem_of_nil|done..].
  - destruct (_ <? _); [done|]. intros Hr. apply IH in Hr as (enc & l' & -> & He & -> & ->). exists (b :: enc), l'.
    rewrite <- app_assoc. split_and!; [done| |done..]. apply not_elem_of_cons. split; [congruence|done].
Qed.

(** ** Round trip of the encoding *)

Lemma gdb_special_cases b : gdb_special b = true -> b = 35 \/ b = 36 \/ b = 125 \/ b = 42.
Proof. unfold gdb_special. rewrite !orb_true_iff, !Z.eqb_eq. tauto. Qed.

Lemma gdb_escape_clean payload : 35 ∉ gdb_escape payload /\ 36 ∉ gdb_escape payload.
Proof.
  induction payload as [|b payload [IH1 IH2]]; cbn [gdb_escape]; [split; apply not_elem_of_nil|].
  rewrite !not_elem_of_app. destruct (gdb_special b) eqn:Eb.
  - apply gdb_special_cases in Eb as [-> | [-> | [-> | ->]]]; cbn; rewrite !not_elem_of_cons;
      split_and!; try done; apply not_elem_of_nil.
  - unfold gdb_special in Eb. rewrite !orb_false_iff, !Z.eqb_neq in Eb. destruct Eb as [[[? ?] ?] ?].
    rewrite !not_elem_of_cons. split_and!; try done; try congruence; apply not_elem_of_nil.
Qed.

Lemma gdb_unescape_escape payload : gdb_unescape (gdb_escape payload) = Ok payload.
Proof.
  induction payload as [|b payload IH]; cbn [gdb_escape]; [done|]. destruct (gdb_special b) eqn:Eb.
  - cbn [app gdb_unescape]. change (125 =? 125) with true. cbv iota. rewrite IH. cbn [res_bind].
    by rewrite Z.lxor_assoc, Z.lxor_nilpotent, Z.lxor_0_r.
  - cbn [app gdb_unescape]. unfold gdb_special in Eb. rewrite !orb_false_iff in Eb. destruct Eb as [[[? ?] ->] ?].
    by rewrite IH.
Qed.

Lemma gdb_checksum_range l : 0 <= gdb_checksum l < 256.
Proof.
  unfold gdb_checksum. assert (Hg : forall s, 0 <= s < 256 -> 0 <= foldl (fun sum b => u8 (sum + b)) s l < 256); [|apply Hg; lia].
  induction l as [|b l IH]; intros s Hs; simpl; [done|]. apply IH. unfold u8. lia.
Qed.

Lemma hex_value_digit v : 0 <= v < 16 -> hex_value (hex_digit v) = Some v.
Proof.
  intros Hv. unfold hex_value, hex_digit. destruct (Z.ltb_spec v 10).
  - destruct (Z.leb_spec 48 (48 + v)), (Z.leb_spec (48 + v) 57); simpl; try lia. f_equal. lia.
  - destruct (Z.leb_spec 48 (97 + (v - 10))), (Z.leb_spec (97 + (v - 10)) 57); simpl; try lia.
    destruct (Z.leb_spec 97 (97 + (v - 10))), (Z.leb_spec (97 + (v - 10)) 102); simpl; try lia. f_equal. lia.
Qed.

Lemma parse_hex2_digits c : 0 <= c < 256 -> parse_hex2 [hex_digit (Z.shiftr c 4); hex_digit (Z.land c 15)] = Some c.
Proof.
  intros Hc. rewrite Z.shiftr_div_pow2 by lia. change 15 with (2 ^ 4 - 1). rewrite land_low by lia. change (2 ^ 4) with 16.
  cbn [parse_hex2]. rewrite !hex_value_digit by lia. f_equal. lia.
Qed.

Lemma read_text_pipe a b l out k : ch_ReadFull 2 (MkPipe (a :: b :: l) out k) = (MkPipe l out k, Ok [a; b]).
Proof.
  simpl. pose proof (zlen_nonneg l). destruct (Z.leb_spec 2 (zlen (a :: b :: l))) as [_|Hl]; [done|].
  rewrite !zlen_cons in Hl. lia.
Qed.

Lemma read_text_inv l out k p text :
  ch_ReadFull 2 (MkPipe l out k) = (p, Ok text) -> exists a b l', l = a :: b :: l' /\ text = [a; b] /\ p = MkPipe l' out k.
Proof.
  destruct l as [|a [|b l]]; [done..|]. rewrite read_text_pipe. intros [= <- <-]. by exists a, b, l.
Qed.

Lemma gdb_read_pipe fuel w junk enc a b data l out k :
  (0 < k)%nat -> 36 ∉ junk -> 35 ∉ enc -> (List.length junk + List.length enc < fuel)%nat ->
  zlen enc <= gw_packetSize w + 1024 -> parse_hex2 [a; b] = Some (gdb_checksum enc) -> gdb_unescape enc = Ok data ->
  gdb_read fuel w (MkPipe (junk ++ 36 :: enc ++ 35 :: a :: b :: l) out k) =
  (MkPipe l (out ++ if gw_noAck w then [] else [43]) k, Ok data).
Proof.
  intros Hk Hj He Hf Hl Hp Hu. unfold gdb_read, wire_bind. rewrite read_leader_pipe by (done || lia).
  rewrite read_encoded_pipe by (done || rewrite ?zlen_nil; lia). rewrite read_text_pipe. cbn [app]. rewrite Hp, Z.eqb_refl.
  change (negb true) with false. cbv iota beta. destruct (gw_noAck w); cbn [wire_ret].
  - by rewrite app_nil_r, Hu.
  - by rewrite writeAll_pipe, Hu.
Qed.

Lemma gdb_read_inv fuel w l out k p data :
  gdb_read fuel w (MkPipe l out k) = (p, Ok data) ->
  exists junk enc a b, l = junk ++ 36 :: enc ++ 35 :: a :: b :: pp_in p /\ 36 ∉ junk /\ 35 ∉ enc /\
    parse_hex2 [a; b] = Some (gdb_checksum enc) /\ gdb_unescape enc = Ok data.
Proof.
  unfold gdb_read, wire_bind. destruct (read_leader fuel (MkPipe l out k)) as [p1 [[]|err]] eqn:E1; [|done].
  apply read_leader_inv in E1 as (junk & l1 & -> & Hj & ->).
  destruct (read_encoded fuel _ [] (MkPipe l1 out k)) as [p2 [enc'|err]] eqn:E2; [|done].
  apply read_encoded_inv in E2 as (enc & l2 & -> & He & -> & ->).
  destruct (ch_ReadFull 2 (MkPipe l2 out k)) as [p3 [text|err]] eqn:E3; [|done].
  apply read_text_inv in E3 as (a & b & l3 & -> & -> & ->).
  destruct (parse_hex2 [a; b]) as [want|] eqn:Ep; [|done]. cbn [app] in *.
  destruct (Z.eqb_spec (gdb_checksum enc) want) as [<-|]; cbn [negb]; cbv iota beta; [|done].
  destruct (gw_noAck w); cbn [wire_ret].
  - intros [= <- Hu]. by exists junk, enc, a, b.
  - pose proof (writeAll_pipe_in [43] (MkPipe l3 out k)) as Hin.
    destruct (writeAll [43] (MkPipe l3 out k)) as [p4 [u|err]]; [|done]. simpl in Hin.
    intros [= <- Hu]. exists junk, enc, a, b. by rewrite Hin.
Qed.



(** ** The target description *)

Definition byte_sum (registers : list gdbRegister) : Z := foldr (fun r sum => gr_Bits r / 8 + sum) 0 registers.

(** Registers as the packets of the session address them: named, of whole
    bytes, each after those before it (offsets are of 64 bits). *)
Definition laid_out (offset : Z) (registers : list gdbRegister) : Prop :=
  forall i r, registers !! i = Some r ->
    gr_Name r <> [] /\ 0 < gr_Bits r /\ gr_Bits r mod 8 = 0 /\ gr_Offset r = i64 (offset + byte_sum (take i registers)).

Lemma place_registers_laid_out xml number offset :
  returns (laid_out offset) (place_registers xml number (i64 offset)).
Proof.
  revert number offset. induction xml as [|x xml IH]; intros number offset; cbn [place_registers].
  { intros i r Hi. by rewrite lookup_nil in Hi. }
  case_bool_decide as Hn; simpl; [done|]. destruct (Z.leb_spec (xr_Bitsize x) 0), (Z.eqb_spec (xr_Bitsize x mod 8) 0); simpl; try done.
  assert (Ei : i64 (i64 offset + xr_Bitsize x / 8) = i64 (offset + xr_Bitsize x / 8)) by (unfold i64; lia).
  rewrite Ei. specialize (IH (i64 (default number (xr_Regnum x) + 1)) (offset + xr_Bitsize x / 8)).
  destruct (place_registers xml _ _) as [regs|err]; [|done]. simpl. intros [|i] r; simpl.
  - intros [= <-]. simpl. rewrite Z.add_0_r. done.
  - intros Hi. destruct (IH i r Hi) as (H1 & H2 & H3 & ->). split_and!; try done. f_equal. lia.
Qed.

(** C31. The protocol returns. On any channel whose input is finite and
    whose writes keep the contract of [io.Writer], with fuel for each byte of
    input: an exchange returns a reply or an error of its own, never a panic,
    and never spins; and so does the loading of the target description
    through any chain of annexes and includes, with registers that are named,
    of whole bytes and laid out one after the other. *)
Theorem gdb_total {E : Type} `{FiniteChannel E} Unmarshal fuel w (e : E) :
  (ch_left e < fuel)%nat ->
  (forall payload, returns (fun _ => True) (snd (gdb_exchange fuel w payload e))) /\
  returns (fun d => laid_out 0 (snd d)) (snd (targetDescription Unmarshal fuel w e)).
Proof.
  intros Hf. split.
  - intros payload. pose proof (gdb_exchange_safe fuel w payload e Hf) as Hs. unfold safe in Hs.
    destruct (gdb_exchange fuel w payload e) as [e' [d|err]]; [done|apply Hs].
  - unfold targetDescription, wire_bind.
    pose proof (load_safe Unmarshal fuel w (str "target.xml") (MkLoad ∅ [] []) e Hf) as Hs. unfold safe in Hs.
    destruct (load _ _ _ _ _ e) as [e' [s|err]]; [|apply Hs].
    pose proof (place_registers_laid_out (ld_registers s) 0 0) as Hp. change (i64 0) with 0 in Hp. cbn [snd].
    by destruct (place_registers (ld_registers s) 0 0).
Qed.

(** A target that describes two registers in one annex. *)
Lemma gdb_total_witness :
  let xml := MkTarget (str "arm") [] [] [MkXMLRegister (str "r0") 32 None [] []; MkXMLRegister (str "pc") 64 (Some 15) [] []] in
  let input := [43] ++ gdb_packet (str "l<target/>") in
  exists registers,
    snd (targetDescription (fun _ => Ok xml) 40 newGDBWire (MkPipe input [] 7)) = Ok (str "arm", registers) /\
    laid_out 0 registers /\ gr_Offset <$> registers = [0; 4].
Proof.
  intros xml input.
  assert (Hf : (ch_left (MkPipe input [] 7) < 40)%nat) by (vm_compute; lia).
  pose proof (proj2 (gdb_total (fun _ => Ok xml) 40 newGDBWire (MkPipe input [] 7) Hf)) as Ht.
  assert (Hv : snd (targetDescription (fun _ => Ok xml) 40 newGDBWire (MkPipe input [] 7)) =
    Ok (str "arm", [MkRegister (str "r0") 0 32 0 [] []; MkRegister (str "pc") 15 64 4 [] []])) by (vm_compute; reflexivity).
  rewrite Hv in *. eexists. split; [reflexivity|]. split; [exact Ht|reflexivity].
Defined.
