(* ===== verification/GoCodec.v ===== *)
(** More of Go's standard library: the IEEE checksum of [hash/crc32],
    [unicode/utf16], and [io.ReadFull] over a section of a reader. *)

From S2P Require Import Prelude GoLib Storage.
From stdpp Require Import base numbers list gmap sorting strings.

Open Scope Z_scope.
Open Scope trex_scope.

#[local] Ltac Zify.zify_post_hook ::= Z.to_euclidean_division_equations.

(** ** [crc32.ChecksumIEEE] *)

Definition crc32_bit (crc : Z) : Z :=
  if Z.testbit crc 0 then Z.lxor (Z.shiftr crc 1) 0xedb88320 else Z.shiftr crc 1.

Definition crc32_byte (crc : Z) (b : byte) : Z := Nat.iter 8 crc32_bit (Z.lxor crc b).

Definition crc32_ChecksumIEEE (data : bytes) : Z :=
  Z.lxor (foldl crc32_byte 0xffffffff data) 0xffffffff.

(** The standard check value, of the digits 1 to 9. *)
Example crc32_check : crc32_ChecksumIEEE [49; 50; 51; 52; 53; 54; 55; 56; 57] = 0xcbf43926.
Proof. vm_compute. reflexivity. Qed.

Lemma lxor_bound a b k : 0 <= k -> 0 <= a < 2 ^ k -> 0 <= b < 2 ^ k -> 0 <= Z.lxor a b < 2 ^ k.
Proof.
  intros Hk Ha Hb. assert (Hn : 0 <= Z.lxor a b) by (apply Z.lxor_nonneg; lia).
  destruct (Z.eq_dec (Z.lxor a b) 0) as [E|E]; [rewrite E; lia|]. split; [done|].
  apply Z.log2_lt_pow2; [lia|]. pose proof (Z.log2_lxor a b ltac:(lia) ltac:(lia)) as Hl.
  assert (Hlog : forall x, 0 <= x < 2 ^ k -> 0 < k -> Z.log2 x < k).
  { intros x Hx Hk'. destruct (Z.eq_dec x 0) as [->|]; [simpl; lia|]. apply Z.log2_lt_pow2; lia. }
  destruct (Z.eq_dec k 0) as [->|]; [|specialize (Hlog a Ha ltac:(lia)) as H1; specialize (Hlog b Hb ltac:(lia)) as H2; lia].
  assert (a = 0) by lia. assert (b = 0) by lia. subst. done.
Qed.

Lemma crc32_range data : bytes_ok data -> 0 <= crc32_ChecksumIEEE data < 2 ^ 32.
Proof.
  intros Hd. apply lxor_bound; [lia| |lia].
  assert (Hbit : forall c, 0 <= c < 2 ^ 32 -> 0 <= crc32_bit c < 2 ^ 32).
  { intros c Hc. unfold crc32_bit. rewrite Z.shiftr_div_pow2 by lia. change (2 ^ 1) with 2.
    destruct (Z.testbit c 0); [apply lxor_bound|]; lia. }
  assert (Hgen : forall c, 0 <= c < 2 ^ 32 -> 0 <= foldl crc32_byte c data < 2 ^ 32); [|apply Hgen; lia].
  induction Hd as [|b data Hb _ IH]; intros c Hc; simpl; [done|]. apply IH. unfold crc32_byte.
  unfold byte_ok in Hb. assert (H0 : 0 <= Z.lxor c b < 2 ^ 32) by (apply lxor_bound; lia).
  simpl. do 8 apply Hbit. done.
Qed.

(** ** [utf16.Encode] and [utf16.Decode] *)

Definition replacementChar : Z := 0xfffd.

Definition utf16_encode_rune (r : Z) : list Z :=
  if ((0 <=? r) && (r <? 0xd800)) || ((0xe000 <=? r) && (r <? 0x10000)) then [r]
  else if (0x10000 <=? r) && (r <=? 0x10ffff) then
    [0xd800 + ((r - 0x10000) / 1024) mod 1024; 0xdc00 + (r - 0x10000) mod 1024]
  else [replacementChar].

Definition utf16_Encode (runes : list Z) : list Z := runes ≫= utf16_encode_rune.

Fixpoint utf16_Decode (units : list Z) : list Z :=
  match units with
  | [] => []
  | r :: units =>
      if (r <? 0xd800) || (0xe000 <=? r) then r :: utf16_Decode units
      else
        match units with
        | s :: rest =>
            if (r <? 0xdc00) && (0xdc00 <=? s) && (s <? 0xe000)
            then (r - 0xd800) * 1024 + (s - 0xdc00) + 0x10000 :: utf16_Decode rest
            else replacementChar :: utf16_Decode units
        | [] => [replacementChar]
        end
  end.

(** A Unicode scalar value. *)
Definition scalar (r : Z) : Prop := 0 <= r < 0xd800 \/ 0xe000 <= r <= 0x10ffff.

Lemma utf16_encode_scalar r :
  scalar r -> utf16_encode_rune r = [r] /\ (0 <= r < 0xd800 \/ 0xe000 <= r < 0x10000) \/
  exists h l, utf16_encode_rune r = [h; l] /\ 0xd800 <= h < 0xdc00 /\ 0xdc00 <= l < 0xe000 /\
    r = (h - 0xd800) * 1024 + (l - 0xdc00) + 0x10000.
Proof.
  unfold scalar, utf16_encode_rune. intros Hr.
  destruct (Z.leb_spec 0 r), (Z.ltb_spec r 0xd800), (Z.leb_spec 0xe000 r), (Z.ltb_spec r 0x10000); simpl; try lia;
    try (left; split; [done|lia]).
  destruct (Z.leb_spec 0x10000 r), (Z.leb_spec r 0x10ffff); simpl; try lia. right. do 2 eexists. split; [done|]. lia.
Qed.

Lemma utf16_roundtrip runes : Forall scalar runes -> utf16_Decode (utf16_Encode runes) = runes.
Proof.
  intros H. induction H as [|r runes Hr _ IH]; [done|]. unfold utf16_Encode in *. cbn [mbind list_bind].
  destruct (utf16_encode_scalar r Hr) as [[-> Hv]|(h & l & -> & Hh & Hl & ->)]; cbn [app utf16_Decode].
  - destruct (Z.ltb_spec r 0xd800), (Z.leb_spec 0xe000 r); simpl; try lia; by rewrite IH.
  - destruct (Z.ltb_spec h 0xd800), (Z.leb_spec 0xe000 h); simpl; try lia.
    destruct (Z.ltb_spec h 0xdc00), (Z.leb_spec 0xdc00 l), (Z.ltb_spec l 0xe000); simpl; try lia. by rewrite IH.
Qed.

(** The units of a text without NUL are 16-bit and not zero. *)
Lemma utf16_units runes :
  Forall (fun r => scalar r /\ r <> 0) runes -> Forall (fun u => 0 < u < 65536) (utf16_Encode runes).
Proof.
  intros H. induction H as [|r runes [Hr Hz] _ IH]; [constructor|]. unfold utf16_Encode in *. cbn [mbind list_bind].
  apply Forall_app. split; [|done].
  destruct (utf16_encode_scalar r Hr) as [[-> Hv]|(h & l & -> & Hh & Hl & _)]; repeat constructor; lia.
Qed.

(** ** [io.ReadFull(io.NewSectionReader(r, off, n), p)] with [len(p) = n] *)

Fixpoint ReadFull_loop (fuel : nat) (r : Reader) (n off : Z) (acc : bytes) : res bytes :=
  if zlen acc <? n then
    match fuel with
    | O => Err OutOfFuel
    | S fuel =>
        let '(got, err) := rd_ReadAt r (n - zlen acc) (off + zlen acc) in
        let acc := acc ++ got in
        match err with
        | None => ReadFull_loop fuel r n off acc
        | Some e =>
            if n <=? zlen acc then Ok acc
            else if is_EOF e && (0 <? zlen acc) then Err ErrUnexpectedEOF
            else Err e
        end
    end
  else Ok acc.

Definition section_ReadFull (r : Reader) (off n : Z) : res bytes := ReadFull_loop (Z.to_nat n) r n off [].

Lemma section_ReadFull_ok r f off n :
  ReaderOK r f -> 0 <= off -> 0 <= n -> off + n <= rd_Size r -> section_ReadFull r off n = Ok (range f off n).
Proof.
  intros Hr Ho Hn Hs. unfold section_ReadFull. destruct (Z.to_nat n) as [|fuel] eqn:En; cbn [ReadFull_loop].
  - destruct (Z.ltb_spec (zlen (@nil Z)) n) as [H|_]; [rewrite zlen_nil in H; lia|]. by rewrite range_nil by lia.
  - destruct (Z.ltb_spec (zlen (@nil Z)) n) as [_|H]; [|rewrite zlen_nil in H; lia].
    rewrite zlen_nil, Z.sub_0_r, Z.add_0_r. destruct (rd_full n off Ho Hn Hs) as (e & -> & He). cbn [app].
    assert (Hl : zlen (range f off n) = n) by (by apply zlen_range).
    destruct e as [e|]; [rewrite Hl; by rewrite Z.leb_refl|].
    destruct fuel; cbn [ReadFull_loop]; by rewrite Hl, Z.ltb_irrefl.
Qed.
