(* ===== verification/Image.v ===== *)
(** Package [filesystem]: sparse read-only images generated from extents
    (src/filesystem/image.go, [NewGeneratedImage] of src/filesystem/public.go),
    with the arithmetic helpers of src/filesystem/internal.

    An extent is backed by a file, by bytes or by nothing (zeros). The index
    is built once, on the first use; building it again gives the same result,
    so it is a function of the extents. *)

From S2P Require Import Prelude GoLib Storage Block Overlay.
From stdpp Require Import base numbers list gmap sorting strings.

Open Scope Z_scope.
Open Scope trex_scope.

(** A [starfile.File]: a reader that may report its extents. *)
Record image_file := MkFile {
  fl_reader : Reader;
  fl_Extents : option (Z -> Z -> res (list Extent));
}.

Record imageExtent := MkImageExtent {
  ie_start : Z;
  ie_size : Z;
  ie_data : option bytes;
  ie_file : option image_file;
  ie_off : Z;
}.

Record generatedImageFile := MkImage { gi_size : Z; gi_extents : list imageExtent }.

Definition ie_end (x : imageExtent) : Z := ie_start x + ie_size x.

(** ** The index *)

(** The validation loop: empty extents are dropped. *)
Fixpoint check_extents (size : Z) (xs : list imageExtent) : res (list imageExtent) :=
  match xs with
  | [] => Ok []
  | x :: xs =>
      if ie_size x =? 0 then check_extents size xs
      else if (ie_start x <? 0) || (ie_size x <? 0) || (size <? ie_start x) || (size - ie_start x <? ie_size x)
      then Err (Errorf "extent is outside image size")
      else if match ie_file x, ie_data x with None, Some data => zlen data <? ie_size x | _, _ => false end
      then Err (Errorf "extent has too few data bytes")
      else let! rest := check_extents size xs in Ok (x :: rest)
  end.

(** The loop over neighbours. *)
Fixpoint overlapping (xs : list imageExtent) : bool :=
  match xs with
  | x :: ((y :: _) as rest) => (ie_start y <? ie_end x) || overlapping rest
  | _ => false
  end.

Definition ensureIndexed (f : generatedImageFile) : res (list imageExtent) :=
  if gi_size f <? 0 then Err (Errorf "negative image size")
  else
    let! extents := check_extents (gi_size f) (gi_extents f) in
    let extents := sort_by ie_start extents in
    if overlapping extents then Err (Errorf "overlapping extents") else Ok extents.

(** [sort.Search] for the first extent that ends after [off]. *)
Definition extent_index (xs : list imageExtent) (off : Z) : Z :=
  sort_Search (zlen xs) (fun i => match xs !! Z.to_nat i with Some x => off <? ie_end x | None => false end).

(** ** Reading *)

(** [n] bytes of an extent: what is stored, and the error that ends the
    read. *)
Definition extent_fetch (x : imageExtent) (within n : Z) : bytes * option error :=
  match ie_file x with
  | Some file =>
      let '(got, err) := rd_ReadAt (fl_reader file) n (ie_off x + within) in
      match err with
      | None => (got, if zlen got =? 0 then Some ErrNoProgress else None)
      | Some e => (got, if is_EOF e && (zlen got =? n) then None else Some e)
      end
  | None => (match ie_data x with None => zeros n | Some data => slice within n data end, None)
  end.

(** The loop of [ReadAt]: [acc] is [p[:read]]. A round reads at least one
    byte or returns, so [remaining] rounds are enough. *)
Fixpoint image_ReadAt_loop (fuel : nat) (xs : list imageExtent) (remaining off : Z) (index : Z) (acc : bytes)
    : bytes * option error :=
  if zlen acc <? remaining then
    match fuel with
    | O => (acc, Some OutOfFuel)
    | S fuel =>
        let pos := off + zlen acc in
        let n := remaining - zlen acc in
        match (if index <? zlen xs then xs !! Z.to_nat index else None) with
        | Some x =>
            if pos <? ie_start x then
              image_ReadAt_loop fuel xs remaining off index (acc ++ zeros (Z.min n (ie_start x - pos)))
            else if pos <? ie_end x then
              let within := pos - ie_start x in
              let n := Z.min n (ie_size x - within) in
              let '(got, err) := extent_fetch x within n in
              let acc := acc ++ got in
              match err with
              | Some e => (acc, Some e)
              | None => image_ReadAt_loop fuel xs remaining off (if ie_end x <=? off + zlen acc then index + 1 else index) acc
              end
            else image_ReadAt_loop fuel xs remaining off index (acc ++ zeros n)
        | None => image_ReadAt_loop fuel xs remaining off index (acc ++ zeros n)
        end
    end
  else (acc, None).

Definition image_ReadAt (f : generatedImageFile) (n off : Z) : bytes * option error :=
  match ensureIndexed f with
  | Err e => ([], Some e)
  | Ok xs =>
      if off <? 0 then ([], Some (Errorf "negative offset"))
      else if n =? 0 then ([], None)
      else if gi_size f <=? off then ([], Some EOF)
      else
        let remaining := Z.min n (gi_size f - off) in
        let '(p, err) := image_ReadAt_loop (Z.to_nat remaining) xs remaining off (extent_index xs off) [] in
        match err with
        | Some e => (p, Some e)
        | None => (p, if zlen p <? n then Some EOF else None)
        end
  end.

(** ** Extents *)

Definition nested_error : error := Errorf "nested extent map does not cover requested range".

(** The loop over the extents a nested file reports. *)
Fixpoint nested_extents (sources : list Extent) (position sourceOffset segmentSize expected : Z) (out : list Extent)
    : res (list Extent) :=
  match sources with
  | [] => if expected =? sourceOffset + segmentSize then Ok out else Err nested_error
  | s :: sources =>
      if (x_Length s <=? 0) || negb (x_Offset s =? expected) || (sourceOffset + segmentSize - expected <? x_Length s)
      then Err nested_error
      else nested_extents sources position sourceOffset segmentSize (expected + x_Length s)
             (appendExtent out (MkExtent (position + (x_Offset s - sourceOffset)) (x_Length s) (x_Allocated s)))
  end.

(** The extents of the part of [x] from [position], of [segmentSize] bytes. *)
Definition segment_extents (x : imageExtent) (position segmentSize : Z) (out : list Extent) : res (list Extent) :=
  match ie_file x with
  | Some (MkFile _ (Some provider)) =>
      let sourceOffset := ie_off x + (position - ie_start x) in
      let! sources := provider sourceOffset segmentSize in
      nested_extents sources position sourceOffset segmentSize sourceOffset out
  | _ =>
      Ok (appendExtent out (MkExtent position segmentSize
            (bool_decide (is_Some (ie_file x)) || bool_decide (is_Some (ie_data x)))))
  end.

(** The loop of [Extents]: a round moves past a gap or an extent. *)
Fixpoint image_Extents_loop (fuel : nat) (xs : list imageExtent) (end_ position index : Z) (out : list Extent)
    : res (list Extent) :=
  if position <? end_ then
    match fuel with
    | O => Err OutOfFuel
    | S fuel =>
        match (if index <? zlen xs then xs !! Z.to_nat index else None) with
        | None => Ok (appendExtent out (MkExtent position (end_ - position) false))
        | Some x =>
            if end_ <=? ie_start x then Ok (appendExtent out (MkExtent position (end_ - position) false))
            else if position <? ie_start x then
              let gapEnd := Z.min end_ (ie_start x) in
              image_Extents_loop fuel xs end_ gapEnd index (appendExtent out (MkExtent position (gapEnd - position) false))
            else
              let extentEnd := Z.min end_ (ie_end x) in
              let! out := segment_extents x position (extentEnd - position) out in
              image_Extents_loop fuel xs end_ extentEnd (if ie_end x <=? extentEnd then index + 1 else index) out
        end
    end
  else Ok out.

Definition image_Extents (f : generatedImageFile) (off length : Z) : res (list Extent) :=
  let! xs := ensureIndexed f in
  match ValidateRange (gi_size f) off length with
  | Some e => Err e
  | None =>
      if length =? 0 then Ok []
      else image_Extents_loop (2 * List.length xs + 2) xs (off + length) off (extent_index xs off) []
  end.

(** ** [NewGeneratedImage] *)

Record ExtentSpec := MkSpecExtent {
  es_Start : Z; es_Size : Z; es_Offset : Z; es_Data : option bytes; es_File : option image_file }.

Definition NewGeneratedImage (size : Z) (specs : list ExtentSpec) : generatedImageFile :=
  MkImage size ((fun s => MkImageExtent (es_Start s) (es_Size s) (es_Data s) (es_File s) (es_Offset s)) <$> specs).

(** An image is a file. *)
Definition image_reader (f : generatedImageFile) : Reader := MkReader (gi_size f) (image_ReadAt f).

(** ** Helpers of [filesystem/internal] *)

Definition fs_CeilDiv (value quantum : Z) : Z :=
  if value <=? 0 then 0 else Z.quot (i64 (i64 (value + quantum) - 1)) quantum.

Definition fs_Align (value alignment : Z) : Z := i64 (fs_CeilDiv value alignment * alignment).

(** ** The index is sorted and disjoint *)

Definition before (x y : imageExtent) : Prop := ie_end x <= ie_start y.

(** An extent the index accepts. *)
Definition extent_valid (size : Z) (x : imageExtent) : Prop :=
  0 <= ie_start x /\ 0 < ie_size x /\ ie_end x <= size /\
  match ie_file x, ie_data x with None, Some data => ie_size x <= zlen data | _, _ => True end.

Lemma check_extents_ok size xs ys :
  check_extents size xs = Ok ys <-> ys = filter (fun x => ie_size x <> 0) xs /\ Forall (extent_valid size) ys.
Proof.
  revert ys. induction xs as [|x xs IH]; intros ys; cbn [check_extents].
  { rewrite filter_nil. split; [intros [= <-]; auto|intros [-> _]; done]. }
  rewrite filter_cons. destruct (Z.eqb_spec (ie_size x) 0) as [Hz|Hz].
  { rewrite decide_False by (intros H; by apply H). apply IH. }
  rewrite decide_True by done.
  assert (Hv : ((ie_start x <? 0) || (ie_size x <? 0) || (size <? ie_start x) || (size - ie_start x <? ie_size x) = false /\
    (match ie_file x, ie_data x with None, Some data => zlen data <? ie_size x | _, _ => false end) = false) <-> extent_valid size x).
  { unfold extent_valid, ie_end. rewrite !orb_false_iff, !Z.ltb_ge.
    destruct (ie_file x), (ie_data x); rewrite ?Z.ltb_ge; split; intros; split_and!; try done; lia. }
  destruct (_ || _) eqn:E1; [|destruct (match ie_file x with Some _ => _ | None => _ end) eqn:E2].
  1-2: split; [done|intros [-> Hf]; apply Forall_cons in Hf as [Hf _]; apply Hv in Hf; naive_solver].
  destruct (check_extents size xs) as [rest|e] eqn:Ec; simpl.
  - destruct (proj1 (IH rest) eq_refl) as [Hr Hf]. split.
    + intros [= <-]. split; [by rewrite Hr|]. apply Forall_cons. split; [by apply Hv|done].
    + intros [-> _]. by rewrite Hr.
  - split; [done|]. intros [-> Hf]. apply Forall_cons in Hf as [_ Hf].
    by specialize (proj2 (IH _) (conj eq_refl Hf)).
Qed.

Lemma overlapping_sorted size xs :
  Forall (extent_valid size) xs -> overlapping xs = false -> StronglySorted before xs.
Proof.
  intros Hv. induction Hv as [|x xs Hx Hv IH]; intros Ho; [constructor|].
  destruct xs as [|y xs]; [by repeat constructor|]. cbn [overlapping] in Ho.
  apply orb_false_iff in Ho as [Hlt Ho]. apply Z.ltb_ge in Hlt. specialize (IH Ho).
  constructor; [done|]. apply StronglySorted_inv in IH as [_ Hy]. constructor; [exact Hlt|].
  eapply Forall_impl; [exact Hy|]. unfold before, ie_end in *. apply Forall_cons in Hv as [Hyv _].
  unfold extent_valid in Hyv. intros z Hz. lia.
Qed.

(** Pairwise disjoint extents in any order. *)
Definition disjoint_extents (xs : list imageExtent) : Prop :=
  forall i j x y, xs !! i = Some x -> xs !! j = Some y -> i <> j -> before x y \/ before y x.

Lemma extents_disjoint xs : StronglySorted before xs -> disjoint_extents xs.
Proof.
  intros Hs. induction Hs as [|x xs Hs IH Hx]; intros i j a b Ha Hb Hne; [by rewrite lookup_nil in Ha|].
  rewrite Forall_forall in Hx. destruct i as [|i], j as [|j]; simpl in *; simplify_eq.
  - left. apply Hx. by eapply list_elem_of_lookup_2.
  - right. apply Hx. by eapply list_elem_of_lookup_2.
  - eapply IH; [done|done|congruence].
Qed.

Lemma disjoint_perm xs ys : ys ≡ₚ xs -> disjoint_extents xs -> disjoint_extents ys.
Proof.
  intros Hp Hd i j x y Hx Hy Hne. apply Permutation_inj in Hp as (Hl & f & Hf & Hlk).
  rewrite Hlk in Hx, Hy. apply (Hd (f i) (f j)); [done|done|]. intros He. by apply Hf in He.
Qed.

Lemma disjoint_app xs ys :
  disjoint_extents xs -> disjoint_extents ys -> (forall x y, x ∈ xs -> y ∈ ys -> before x y \/ before y x) ->
  disjoint_extents (xs ++ ys).
Proof.
  intros Hx Hy Hc i j a b Ha Hb Hij. rewrite lookup_app in Ha, Hb.
  destruct (xs !! i) eqn:Ei, (xs !! j) eqn:Ej; simplify_eq.
  - by eapply Hx.
  - apply Hc; by eapply list_elem_of_lookup_2.
  - destruct (Hc b a); [by eapply list_elem_of_lookup_2..|by right|by left].
  - apply lookup_ge_None in Ei, Ej. eapply Hy; [done|done|]. lia.
Qed.

Lemma disjoint_not_overlapping size xs :
  Forall (extent_valid size) xs -> StronglySorted (key_le ie_start) xs -> disjoint_extents xs -> overlapping xs = false.
Proof.
  intros Hv Hs. revert Hv. induction Hs as [|x xs Hs IH Hx]; intros Hv Hd; [done|].
  apply Forall_cons in Hv as [Hxv Hv]. destruct xs as [|y xs]; [done|]. cbn [overlapping]. apply orb_false_iff. split.
  - apply Z.ltb_ge. apply Forall_cons in Hx as [Hxy _], Hv as [Hyv _]. unfold key_le in Hxy.
    destruct (Hd 0%nat 1%nat x y) as [H|H]; [done..|exact H|]. unfold before, extent_valid, ie_end in *. lia.
  - apply IH; [done|]. intros i j a b Ha Hb Hne. apply (Hd (S i) (S j)); [done|done|congruence].
Qed.

(** What the index accepts, and what it is. *)
Definition image_extents_ok (f : generatedImageFile) : Prop :=
  0 <= gi_size f /\ Forall (fun x => ie_size x <> 0 -> extent_valid (gi_size f) x) (gi_extents f) /\
  disjoint_extents (filter (fun x => ie_size x <> 0) (gi_extents f)).

Record indexed (f : generatedImageFile) (xs : list imageExtent) : Prop := {
  ix_perm : xs ≡ₚ filter (fun x => ie_size x <> 0) (gi_extents f);
  ix_valid : Forall (extent_valid (gi_size f)) xs;
  ix_sorted : StronglySorted before xs;
}.

Lemma valid_filter size xs :
  Forall (fun x => ie_size x <> 0 -> extent_valid size x) xs <-> Forall (extent_valid size) (filter (fun x => ie_size x <> 0) xs).
Proof. rewrite !Forall_forall. setoid_rewrite list_elem_of_filter. naive_solver. Qed.

Lemma ensureIndexed_spec f :
  match ensureIndexed f with
  | Ok xs => image_extents_ok f /\ indexed f xs
  | Err e => ~ image_extents_ok f /\ e <> Panic /\ e <> OutOfFuel
  end.
Proof.
  unfold ensureIndexed, image_extents_ok. destruct (Z.ltb_spec (gi_size f) 0); [split; [lia|done]|].
  destruct (check_extents (gi_size f) (gi_extents f)) as [ys|e] eqn:Ec; cbn [res_bind].
  - apply check_extents_ok in Ec as [Ey Hv].
    assert (Hvs : Forall (extent_valid (gi_size f)) (sort_by ie_start ys)) by (by rewrite sort_by_perm).
    destruct (overlapping (sort_by ie_start ys)) eqn:Eo; rewrite valid_filter, <- Ey.
    + split; [|done]. intros (_ & _ & Hd). rewrite (disjoint_not_overlapping (gi_size f)) in Eo; [done|done| |].
      * apply sort_by_sorted.
      * by eapply disjoint_perm; [apply sort_by_perm|].
    + pose proof (overlapping_sorted _ _ Hvs Eo) as Hs. split; [split_and!; [done|done|]|split; [|done|done]].
      * eapply disjoint_perm; [symmetry; apply sort_by_perm|by apply extents_disjoint].
      * by rewrite sort_by_perm, Ey.
  - split; [|clear -Ec; revert e Ec; induction (gi_extents f) as [|x xs IH]; intros e; cbn [check_extents]; [done|]].
    + intros (_ & Hv & _). rewrite valid_filter in Hv. by rewrite (proj2 (check_extents_ok _ _ _) (conj eq_refl Hv)) in Ec.
    + repeat case_match; try naive_solver. all: destruct (check_extents (gi_size f) xs); simpl; naive_solver.
Qed.

(** ** Reads *)

Lemma tiles_in a b ys s : tiles a b ys -> s ∈ ys -> a <= x_Offset s /\ x_Offset s + x_Length s <= b.
Proof.
  revert a. induction ys as [|y ys IH]; intros a Ht Hs; [by apply not_elem_of_nil in Hs|].
  destruct Ht as (Ho & Hl & Ht). pose proof (tiles_le _ _ _ Ht). apply elem_of_cons in Hs as [->|Hs]; [lia|].
  specialize (IH _ Ht Hs). lia.
Qed.

Section Reads.
(** The content of each file an extent refers to. *)
Context (content : image_file -> Z -> byte).

(** A byte of an extent. *)
Definition extent_byte (x : imageExtent) (w : Z) : byte :=
  match ie_file x with
  | Some file => content file (ie_off x + w)
  | None => match ie_data x with Some data => nthb data w | None => 0 end
  end.

Definition covering (x : imageExtent) (i : Z) : Prop := ie_start x <= i < ie_end x.

#[export] Instance covering_dec x i : Decision (covering x i).
Proof. unfold covering. apply _. Defined.

(** The content of an image: the extent that covers a byte, or zero. *)
Fixpoint image_view (xs : list imageExtent) (i : Z) : byte :=
  match xs with
  | [] => 0
  | x :: xs => if decide (covering x i) then extent_byte x (i - ie_start x) else image_view xs i
  end.

(** Files that work and are long enough. *)
Definition files_ok (xs : list imageExtent) : Prop :=
  Forall (fun x => match ie_file x with
    | Some file => ReaderOK (fl_reader file) (content file) /\ 0 <= ie_off x /\ ie_off x + ie_size x <= rd_Size (fl_reader file)
    | None => True end) xs.

Lemma view_skip x xs i : ie_end x <= i -> image_view (x :: xs) i = image_view xs i.
Proof. intros H. simpl. rewrite decide_False; [done|]. unfold covering. lia. Qed.

Lemma view_in x xs i : covering x i -> image_view (x :: xs) i = extent_byte x (i - ie_start x).
Proof. intros H. simpl. by rewrite decide_True. Qed.

Lemma view_gap xs i : Forall (fun x => i < ie_start x \/ ie_end x <= i) xs -> image_view xs i = 0.
Proof.
  intros H. induction H as [|x xs Hx _ IH]; simpl; [done|]. rewrite decide_False; [done|]. unfold covering. lia.
Qed.

Lemma view_drop xs k i : Forall (fun x => ie_end x <= i) (take k xs) -> image_view xs i = image_view (drop k xs) i.
Proof.
  revert k. induction xs as [|x xs IH]; intros [|k] H; try done. simpl in H. apply Forall_cons in H as [Hx H].
  rewrite view_skip by done. by apply IH.
Qed.

(** Every byte of a sorted list comes from the extent that covers it. *)
Lemma view_elem xs x i : StronglySorted before xs -> x ∈ xs -> covering x i -> image_view xs i = extent_byte x (i - ie_start x).
Proof.
  intros Hs. induction Hs as [|y xs Hs IH Hy]; intros Hx Hc; [by apply not_elem_of_nil in Hx|].
  apply elem_of_cons in Hx as [->|Hx]; [by apply view_in|]. rewrite Forall_forall in Hy. specialize (Hy _ Hx).
  rewrite view_skip; [by apply IH|]. unfold before, covering in *. lia.
Qed.

Context (size : Z) (xs : list imageExtent).
Hypothesis Hvalid : Forall (extent_valid size) xs.
Hypothesis Hsorted : StronglySorted before xs.
Hypothesis Hfiles : files_ok xs.

(** The extents before [k] end by [pos], the others after it. *)
Definition at_index (k : nat) (pos : Z) : Prop :=
  Forall (fun x => ie_end x <= pos) (take k xs) /\ forall x, xs !! k = Some x -> pos < ie_end x.

Lemma at_index_S k x pos : xs !! k = Some x -> Forall (fun x => ie_end x <= pos) (take k xs) -> ie_end x <= pos ->
  Forall (fun x => ie_end x <= pos) (take (S k) xs).
Proof. intros Hx Hb He. rewrite (take_S_r _ _ x) by done. apply Forall_app. split; [done|]. by constructor. Qed.

(** The next extent after the ones before [k]. *)
Lemma sorted_after k x y : xs !! k = Some x -> y ∈ drop (S k) xs -> ie_end x <= ie_start y.
Proof.
  intros Hx Hy. assert (Hs : StronglySorted before (take (S k) xs ++ drop (S k) xs)) by (by rewrite take_drop).
  eapply (StronglySorted_app_1_elem_of _ _ _ _ _ Hs); [|done].
  rewrite (take_S_r _ _ x) by done. apply elem_of_app. right. by left.
Qed.

(** A piece of the content before the next extent. *)
Lemma view_gap_range k pos n :
  Forall (fun x => ie_end x <= pos) (take k xs) -> (forall x, xs !! k = Some x -> pos + n <= ie_start x) -> 0 <= n ->
  range (image_view xs) pos n = zeros n.
Proof.
  intros Hb Hx Hn. rewrite (zeros_range pos) by done. apply range_ext. intros i Hi. apply view_gap.
  rewrite <- (take_drop k xs). apply Forall_app. split.
  - eapply Forall_impl; [exact Hb|]. intros y Hy. simpl in Hy. lia.
  - apply Forall_forall. intros y Hy. left. destruct (xs !! k) as [x|] eqn:Ex.
    + rewrite (drop_S _ x) in Hy by done. specialize (Hx x eq_refl).
      apply elem_of_cons in Hy as [->|Hy]; [lia|]. pose proof (sorted_after k x y Ex Hy).
      pose proof (Forall_lookup_1 _ _ _ _ Hvalid Ex) as Hv. unfold extent_valid, ie_end in *. lia.
    + rewrite drop_ge in Hy by (by apply lookup_ge_None). by apply not_elem_of_nil in Hy.
Qed.

(** A piece of the content inside an extent. *)
Lemma view_extent_range k x pos n :
  xs !! k = Some x -> ie_start x <= pos -> 0 <= n -> pos + n <= ie_end x ->
  range (image_view xs) pos n = range (extent_byte x) (pos - ie_start x) n.
Proof.
  intros Hx Hp Hn He. apply range_shift. intros i Hi. rewrite (view_elem xs x);
    [f_equal; lia|done|by eapply list_elem_of_lookup_2|unfold covering; lia].
Qed.

(** Past an extent. *)
Lemma at_index_next k x pos :
  xs !! k = Some x -> Forall (fun x => ie_end x <= pos) (take k xs) -> ie_end x = pos -> at_index (S k) pos.
Proof.
  intros Hx Hb He. split; [eapply at_index_S; [done|done|lia]|]. intros y Hy.
  pose proof (Forall_lookup_1 _ _ _ _ Hvalid Hy) as Hyv.
  assert (Hin : y ∈ drop (S k) xs) by (apply list_elem_of_lookup; exists 0%nat; by rewrite lookup_drop, Nat.add_0_r).
  pose proof (sorted_after k x y Hx Hin). unfold extent_valid, ie_end in *. lia.
Qed.

Lemma extent_fetch_ok k x within m :
  xs !! k = Some x -> 0 <= within -> 0 < m -> within + m <= ie_size x ->
  extent_fetch x within m = (range (extent_byte x) within m, None).
Proof.
  intros Ex Hw Hm He. pose proof (Forall_lookup_1 _ _ _ _ Hfiles Ex) as Hf. simpl in Hf.
  pose proof (Forall_lookup_1 _ _ _ _ Hvalid Ex) as Hv. unfold extent_valid in Hv. unfold extent_fetch.
  destruct (ie_file x) as [file|] eqn:Efile.
  - destruct Hf as (Hr & Ho1 & Ho2). destruct (rd_full m (ie_off x + within)) as (e & -> & Hd); [lia..|].
    assert (Hgot : range (content file) (ie_off x + within) m = range (extent_byte x) within m).
    { apply range_shift. intros i Hi. unfold extent_byte. rewrite Efile. f_equal. lia. }
    rewrite zlen_range, Hgot by lia. destruct Hd as [-> | [-> _]]; [by destruct (Z.eqb_spec m 0); [lia|]|].
    cbn [is_EOF]. by rewrite Z.eqb_refl.
  - f_equal. destruct (ie_data x) as [data|] eqn:Ed; [rewrite slice_range by lia|rewrite (zeros_range within) by lia];
      apply range_ext; intros i Hi; unfold extent_byte; by rewrite Efile, Ed.
Qed.

Lemma image_ReadAt_loop_spec fuel k remaining off acc :
  0 <= off -> off + remaining <= size -> zlen acc <= remaining -> remaining - zlen acc <= Z.of_nat fuel ->
  acc = range (image_view xs) off (zlen acc) -> at_index k (off + zlen acc) ->
  image_ReadAt_loop fuel xs remaining off (Z.of_nat k) acc = (range (image_view xs) off remaining, None).
Proof.
  revert k acc. induction fuel as [|fuel IH]; intros k acc Hoff Hsize Hle Hfuel Hacc [Hb Hk]; cbn [image_ReadAt_loop];
    (destruct (Z.ltb_spec (zlen acc) remaining) as [Hlt|Hge]; [|by rewrite Hacc; do 2 f_equal; lia]); [lia|].
  pose proof (zlen_nonneg acc) as Hz.
  assert (Hnext : forall k' m, 0 < m -> m <= remaining - zlen acc -> at_index k' (off + (zlen acc + m)) ->
    image_ReadAt_loop fuel xs remaining off (Z.of_nat k') (acc ++ range (image_view xs) (off + zlen acc) m) =
    (range (image_view xs) off remaining, None)).
  { intros k' m Hm1 Hm2 Hk'. assert (Hl : zlen (acc ++ range (image_view xs) (off + zlen acc) m) = zlen acc + m)
      by (rewrite zlen_app, zlen_range; lia).
    apply IH; rewrite ?Hl; try done; [lia..|]. rewrite range_add by lia. by rewrite <- Hacc. }
  assert (Hidx : (if Z.of_nat k <? zlen xs then xs !! Z.to_nat (Z.of_nat k) else None) = xs !! k).
  { rewrite Nat2Z.id. destruct (Z.ltb_spec (Z.of_nat k) (zlen xs)) as [_|Hge]; [done|].
    symmetry. apply lookup_ge_None. unfold zlen in Hge. lia. }
  rewrite Hidx. destruct (xs !! k) as [x|] eqn:Ex; cycle 1.
  { rewrite <- (view_gap_range k (off + zlen acc)) by (done || lia || (rewrite Ex; done)).
    apply Hnext; [lia..|]. split; [|by rewrite Ex]. eapply Forall_impl; [exact Hb|]. intros y Hy. simpl in Hy. lia. }
  specialize (Hk x eq_refl). pose proof (Forall_lookup_1 _ _ _ _ Hvalid Ex) as Hv.
  destruct (Z.ltb_spec (off + zlen acc) (ie_start x)).
  { set (m := Z.min _ _). rewrite <- (view_gap_range k (off + zlen acc) m) by
      (done || lia || (rewrite Ex; intros ? [= <-]; lia)).
    apply Hnext; [lia..|]. split; [eapply Forall_impl; [exact Hb|]; intros y Hy; simpl in Hy; lia|].
    rewrite Ex. intros ? [= <-]. unfold extent_valid, ie_end in *. lia. }
  destruct (Z.ltb_spec (off + zlen acc) (ie_end x)); [|lia].
  set (within := off + zlen acc - ie_start x). set (m := Z.min _ _).
  assert (Hm : 0 < m <= remaining - zlen acc /\ within + m <= ie_size x) by (unfold ie_end, m, within in *; lia).
  assert (Hrange : range (image_view xs) (off + zlen acc) m = range (extent_byte x) within m)
    by (apply (view_extent_range k x); try done; unfold ie_end, within in *; lia).
  rewrite (extent_fetch_ok k x) by (done || unfold within; lia). rewrite <- Hrange, zlen_app, zlen_range, Z.add_assoc by lia.
  assert (Hb' : Forall (fun x => ie_end x <= off + (zlen acc + m)) (take k xs))
    by (eapply Forall_impl; [exact Hb|]; intros y Hy; simpl in Hy; lia).
  destruct (Z.leb_spec (ie_end x) (off + zlen acc + m)).
  - replace (Z.of_nat k + 1) with (Z.of_nat (S k)) by lia. apply Hnext; [lia..|].
    eapply at_index_next; [done|done|unfold within, ie_end in *; lia].
  - apply Hnext; [lia..|]. split; [done|]. rewrite Ex. intros ? [= <-]. lia.
Qed.

Lemma extent_index_at off : exists k, extent_index xs off = Z.of_nat k /\ at_index k off.
Proof.
  assert (Hm : monotone_pred (zlen xs) (fun i => match xs !! Z.to_nat i with Some x => off <? ie_end x | None => false end)).
  { intros a b Ha Hab Hb. destruct (xs !! Z.to_nat a) as [x|] eqn:Ex; [|done]. intros Hx. apply Z.ltb_lt in Hx.
    destruct (decide (a = b)) as [<-|Hne]; [rewrite Ex; by apply Z.ltb_lt|].
    destruct (lookup_lt_is_Some_2 xs (Z.to_nat b)) as [y Hy]; [unfold zlen in Hb; lia|]. rewrite Hy. apply Z.ltb_lt.
    assert (Hin : y ∈ drop (S (Z.to_nat a)) xs).
    { apply list_elem_of_lookup. exists (Z.to_nat b - S (Z.to_nat a))%nat. rewrite lookup_drop. by replace (S (Z.to_nat a) + (Z.to_nat b - S (Z.to_nat a)))%nat with (Z.to_nat b) by lia. }
    pose proof (sorted_after _ x y Ex Hin). pose proof (Forall_lookup_1 _ _ _ _ Hvalid Hy) as Hv.
    unfold extent_valid, ie_end in *. lia. }
  destruct (sort_Search_spec _ _ (zlen_nonneg xs) Hm) as (Hr & Hlo & Hhi). fold (extent_index xs off) in Hr, Hlo, Hhi.
  exists (Z.to_nat (extent_index xs off)). split; [lia|]. split.
  - apply Forall_lookup. intros i x Hx. apply lookup_take_Some in Hx as [Hx Hi].
    specialize (Hlo (Z.of_nat i) ltac:(lia)). rewrite Nat2Z.id, Hx in Hlo. by apply Z.ltb_ge in Hlo.
  - intros x Hx. assert (Hlt : extent_index xs off < zlen xs) by (apply lookup_lt_Some in Hx; unfold zlen; lia).
    specialize (Hhi _ (conj (Z.le_refl _) Hlt)). rewrite Hx in Hhi. by apply Z.ltb_lt in Hhi.
Qed.

(** *** Extent maps *)

(** Which bytes of a file are allocated, for files that report extents. *)
Context (allocation : image_file -> Z -> bool).

Definition extent_allocated (x : imageExtent) (w : Z) : bool :=
  match ie_file x with
  | Some file => match fl_Extents file with Some _ => allocation file (ie_off x + w) | None => true end
  | None => bool_decide (is_Some (ie_data x))
  end.

Fixpoint image_allocated (ys : list imageExtent) (i : Z) : bool :=
  match ys with
  | [] => false
  | x :: ys => if decide (covering x i) then extent_allocated x (i - ie_start x) else image_allocated ys i
  end.

Definition file_extents_ok (file : image_file) : Prop :=
  match fl_Extents file with
  | Some provider =>
      forall off len, 0 <= off -> 0 < len -> off + len <= rd_Size (fl_reader file) ->
        exists ys, provider off len = Ok ys /\ tiles off (off + len) ys /\ covers (allocation file) ys
  | None => True
  end.

Hypothesis Hextents : Forall (fun x => match ie_file x with Some file => file_extents_ok file | None => True end) xs.

Lemma allocated_elem ys x i :
  StronglySorted before ys -> x ∈ ys -> covering x i -> image_allocated ys i = extent_allocated x (i - ie_start x).
Proof.
  intros Hs. induction Hs as [|y ys Hs IH Hy]; intros Hx Hc; [by apply not_elem_of_nil in Hx|]. simpl.
  apply elem_of_cons in Hx as [->|Hx]; [by rewrite decide_True|]. rewrite Forall_forall in Hy. specialize (Hy _ Hx).
  rewrite decide_False; [by apply IH|]. unfold before, covering in *. lia.
Qed.

Lemma allocated_none ys i : (forall y, y ∈ ys -> ~ covering y i) -> image_allocated ys i = false.
Proof.
  intros Hn. induction ys as [|x ys IH]; simpl; [done|]. rewrite decide_False by (apply Hn; by left).
  apply IH. intros y Hy. apply Hn. by right.
Qed.

Lemma allocated_gap k pos i :
  Forall (fun x => ie_end x <= pos) (take k xs) -> (forall x, xs !! k = Some x -> i < ie_start x) -> pos <= i ->
  image_allocated xs i = false.
Proof.
  intros Hb Hx Hi. assert (Hnone : forall y, y ∈ xs -> ~ covering y i).
  { intros y Hy Hc. rewrite <- (take_drop k xs) in Hy. apply elem_of_app in Hy as [Hy|Hy].
    - rewrite Forall_forall in Hb. specialize (Hb _ Hy). unfold covering in Hc. lia.
    - destruct (xs !! k) as [x|] eqn:Ex.
      + rewrite (drop_S _ x) in Hy by done. specialize (Hx x eq_refl).
        apply elem_of_cons in Hy as [->|Hy]; [unfold covering in Hc; lia|]. pose proof (sorted_after k x y Ex Hy).
        pose proof (Forall_lookup_1 _ _ _ _ Hvalid Ex) as Hv. unfold extent_valid, covering, ie_end in *. lia.
      + rewrite drop_ge in Hy by (by apply lookup_ge_None). by apply not_elem_of_nil in Hy. }
  by apply allocated_none.
Qed.

Lemma nested_extents_map A off sources position sourceOffset segmentSize expected out :
  extent_map A off (position + (expected - sourceOffset)) out ->
  tiles expected (sourceOffset + segmentSize) sources ->
  Forall (fun s => forall i, x_Offset s <= i < x_Offset s + x_Length s -> A (position + (i - sourceOffset)) = x_Allocated s) sources ->
  exists out', nested_extents sources position sourceOffset segmentSize expected out = Ok out' /\
    extent_map A off (position + segmentSize) out'.
Proof.
  revert expected out. induction sources as [|s sources IH]; intros expected out Ho Ht Hc; cbn [nested_extents].
  { simpl in Ht. destruct (Z.eqb_spec expected (sourceOffset + segmentSize)); [|done]. exists out. split; [done|].
    by replace (position + segmentSize) with (position + (expected - sourceOffset)) by lia. }
  destruct Ht as (<- & Hl & Ht). pose proof (tiles_le _ _ _ Ht). apply Forall_cons in Hc as [Hs Hc].
  destruct (Z.leb_spec (x_Length s) 0); [lia|]. rewrite Z.eqb_refl.
  destruct (Z.ltb_spec (sourceOffset + segmentSize - x_Offset s) (x_Length s)); [lia|]. cbn [negb orb].
  apply IH; [|done|done].
  replace (position + (x_Offset s + x_Length s - sourceOffset)) with (position + (x_Offset s - sourceOffset) + x_Length s) by lia.
  set (offset := position + (x_Offset s - sourceOffset)).
  apply (appendExtent_map A off out (MkExtent offset (x_Length s) (x_Allocated s))); simpl; [done|done|].
  intros i Hi. rewrite <- (Hs (i - position + sourceOffset)) by lia. f_equal. lia.
Qed.

Lemma segment_extents_map k x off position n out :
  xs !! k = Some x -> extent_map (image_allocated xs) off position out ->
  ie_start x <= position -> 0 < n -> position + n <= ie_end x ->
  exists out', segment_extents x position n out = Ok out' /\ extent_map (image_allocated xs) off (position + n) out'.
Proof.
  intros Ex Ho Hp Hn He. pose proof (Forall_lookup_1 _ _ _ _ Hextents Ex) as Hf.
  pose proof (Forall_lookup_1 _ _ _ _ Hfiles Ex) as Hfile. simpl in Hf, Hfile.
  assert (HA : forall i, position <= i < position + n -> image_allocated xs i = extent_allocated x (i - ie_start x)).
  { intros i Hi. apply allocated_elem; [done|by eapply list_elem_of_lookup_2|unfold covering; lia]. }
  assert (Hflat : forall b, (forall i, position <= i < position + n -> extent_allocated x (i - ie_start x) = b) ->
    extent_map (image_allocated xs) off (position + n) (appendExtent out (MkExtent position n b))).
  { intros b Hb. apply (appendExtent_map _ off out (MkExtent position n b)); simpl; [done|done|].
    intros i Hi. rewrite HA by done. by apply Hb. }
  unfold segment_extents. unfold extent_allocated in *. destruct (ie_file x) as [[reader [provider|]]|].
  - destruct Hfile as (_ & Ho1 & Ho2). cbn [fl_reader fl_Extents] in *. unfold file_extents_ok in Hf. cbn [fl_Extents fl_reader] in Hf.
    unfold ie_end in He. destruct (Hf (ie_off x + (position - ie_start x)) n) as (ys & -> & Ht & Hc); [lia..|]. cbn [res_bind].
    apply nested_extents_map; [|done|].
    + by replace (position + _) with position by lia.
    + eapply Forall_impl; [|intros s Hs; exact Hs]. apply Forall_forall. intros s Hin i Hi.
      pose proof (proj1 (Forall_forall _ _) Hc s Hin i Hi) as Hb. pose proof (tiles_in _ _ _ _ Ht Hin).
      rewrite HA by lia. rewrite <- Hb. f_equal. lia.
  - eexists. split; [done|]. by apply Hflat.
  - eexists. split; [done|]. apply Hflat. intros i Hi. reflexivity.
Qed.

(** One more round when a gap comes first. *)
Definition gap_ahead (k : nat) (position : Z) : nat :=
  match xs !! k with Some x => if position <? ie_start x then 1%nat else 0%nat | None => 0%nat end.

Lemma gap_ahead_le k position : (gap_ahead k position <= 1)%nat.
Proof. unfold gap_ahead. repeat case_match; lia. Qed.

Lemma image_Extents_loop_map fuel k off position end_ out :
  at_index k position -> extent_map (image_allocated xs) off position out -> position <= end_ ->
  (2 * (List.length xs - k) + gap_ahead k position < fuel)%nat ->
  exists out', image_Extents_loop fuel xs end_ position (Z.of_nat k) out = Ok out' /\
    extent_map (image_allocated xs) off end_ out'.
Proof.
  revert k position out. induction fuel as [|fuel IH]; intros k position out [Hb Hk] Ho Hle Hfuel; [lia|]. cbn [image_Extents_loop].
  destruct (Z.ltb_spec position end_) as [Hlt|Hge]; cycle 1.
  { exists out. split; [done|]. by replace end_ with position by lia. }
  assert (Hgap : forall m, 0 < m -> (forall x, xs !! k = Some x -> position + m <= ie_start x) ->
    extent_map (image_allocated xs) off (position + m) (appendExtent out (MkExtent position m false))).
  { intros m Hm Hx. apply (appendExtent_map _ off out (MkExtent position m false)); simpl; [done|done|].
    intros i Hi. apply (allocated_gap k position); [done| |lia]. intros x Ex. specialize (Hx x Ex). lia. }
  assert (Hlast : (forall x, xs !! k = Some x -> end_ <= ie_start x) ->
    exists out', Ok (appendExtent out (MkExtent position (end_ - position) false)) = Ok out' /\ extent_map (image_allocated xs) off end_ out').
  { intros Hx. eexists. split; [done|]. replace end_ with (position + (end_ - position)) at 1 by lia.
    apply Hgap; [lia|]. intros x Ex. specialize (Hx x Ex). lia. }
  assert (Hidx : (if Z.of_nat k <? zlen xs then xs !! Z.to_nat (Z.of_nat k) else None) = xs !! k).
  { rewrite Nat2Z.id. destruct (Z.ltb_spec (Z.of_nat k) (zlen xs)) as [_|Hge]; [done|].
    symmetry. apply lookup_ge_None. unfold zlen in Hge. lia. }
  rewrite Hidx. destruct (xs !! k) as [x|] eqn:Ex; [|by apply Hlast].
  specialize (Hk x eq_refl). pose proof (Forall_lookup_1 _ _ _ _ Hvalid Ex) as Hv. apply lookup_lt_Some in Ex as Hlen.
  destruct (Z.leb_spec end_ (ie_start x)); [apply Hlast; by intros ? [= <-]|].
  destruct (Z.ltb_spec position (ie_start x)).
  - rewrite Z.min_r by lia.
    apply IH; [|by replace (ie_start x) with (position + (ie_start x - position)) at 1 by lia; apply Hgap; [lia|intros ? [= <-]; lia]|lia|].
    + split; [eapply Forall_impl; [exact Hb|]; intros y Hy; simpl in Hy; lia|].
      rewrite Ex. intros ? [= <-]. unfold extent_valid, ie_end in *. lia.
    + unfold gap_ahead in *. rewrite Ex in *. rewrite Z.ltb_irrefl. destruct (Z.ltb_spec position (ie_start x)); lia.
  - set (extentEnd := Z.min end_ (ie_end x)).
    destruct (segment_extents_map k x off position (extentEnd - position) out) as (out1 & -> & Ho1); [done|done|lia..|].
    cbn [res_bind]. replace (position + (extentEnd - position)) with extentEnd in Ho1 by lia.
    assert (Hb' : Forall (fun x => ie_end x <= extentEnd) (take k xs))
      by (eapply Forall_impl; [exact Hb|]; intros y Hy; simpl in Hy; lia).
    destruct (Z.leb_spec (ie_end x) extentEnd).
    + replace (Z.of_nat k + 1) with (Z.of_nat (S k)) by lia.
      apply IH; [eapply at_index_next; [done|done|lia]|done|lia|].
      pose proof (gap_ahead_le (S k) extentEnd). lia.
    + replace extentEnd with end_ in * by lia. exists out1. split; [|done].
      destruct fuel; cbn [image_Extents_loop]; by rewrite Z.ltb_irrefl.
Qed.
End Reads.

Lemma indexed_elem f xs x : indexed f xs -> x ∈ xs <-> x ∈ gi_extents f /\ ie_size x <> 0.
Proof. intros [Hp _ _]. rewrite Hp, list_elem_of_filter. tauto. Qed.

Lemma indexed_Forall f xs (P : imageExtent -> Prop) : indexed f xs -> Forall P (gi_extents f) -> Forall P xs.
Proof. intros Hi. rewrite !Forall_forall. intros H x Hx. apply H. by apply (indexed_elem f) in Hx as []. Qed.

Lemma covering_size x i : covering x i -> ie_size x <> 0.
Proof. unfold covering, ie_end. lia. Qed.

Lemma indexed_view content f xs x i :
  indexed f xs -> x ∈ gi_extents f -> covering x i -> image_view content xs i = extent_byte content x (i - ie_start x).
Proof.
  intros Hi Hx Hc. apply view_elem; [by destruct Hi| |done].
  apply (indexed_elem f); [done|]. split; [done|by eapply covering_size].
Qed.

Lemma indexed_view_gap content f xs i :
  indexed f xs -> (forall x, x ∈ gi_extents f -> ~ covering x i) -> image_view content xs i = 0.
Proof.
  intros Hi Hn. apply view_gap, Forall_forall. intros x Hx. apply (indexed_elem f) in Hx as [Hx _]; [|done].
  specialize (Hn x Hx). unfold covering in Hn. lia.
Qed.

Lemma image_ReadAt_spec content f xs n off :
  ensureIndexed f = Ok xs -> files_ok content (gi_extents f) -> 0 <= off -> 0 < n ->
  image_ReadAt f n off =
  (range (image_view content xs) off (Z.max 0 (Z.min n (gi_size f - off))), if gi_size f <? off + n then Some EOF else None).
Proof.
  intros Hx Hf Hoff Hn. pose proof (ensureIndexed_spec f) as Hs. rewrite Hx in Hs. destruct Hs as [_ Hi].
  pose proof (indexed_Forall _ _ _ Hi Hf) as Hfs. destruct Hi as [_ Hv Hso].
  unfold image_ReadAt. rewrite Hx. destruct (Z.ltb_spec off 0); [lia|]. destruct (Z.eqb_spec n 0); [lia|].
  destruct (Z.leb_spec (gi_size f) off).
  { rewrite range_nil by lia. by destruct (Z.ltb_spec (gi_size f) (off + n)); [|lia]. }
  destruct (extent_index_at (gi_size f) xs Hv Hso off) as (k & -> & Hk).
  set (remaining := Z.min n (gi_size f - off)).
  rewrite (image_ReadAt_loop_spec content (gi_size f) xs Hv Hso Hfs); try done; rewrite ?zlen_nil, ?Z.add_0_r; try lia; try done.
  rewrite zlen_range by lia. replace (Z.max 0 remaining) with remaining by lia.
  destruct (Z.ltb_spec remaining n), (Z.ltb_spec (gi_size f) (off + n)); unfold remaining in *; lia || done.
Qed.

Lemma image_reader_ok content f xs :
  ensureIndexed f = Ok xs -> files_ok content (gi_extents f) -> gi_size f <= MaxInt64 ->
  ReaderOK (image_reader f) (image_view content xs).
Proof.
  intros Hx Hf Hmax. pose proof (ensureIndexed_spec f) as Hs. rewrite Hx in Hs. destruct Hs as [(Hsize & _) _].
  split; simpl; [lia| |].
  - intros n off Ho Hn Hle. destruct (decide (n = 0)) as [->|Hne].
    + exists None. unfold image_ReadAt. rewrite Hx. destruct (Z.ltb_spec off 0); [lia|]. rewrite range_nil by lia. auto.
    + rewrite (image_ReadAt_spec content f xs) by (done || lia). exists None.
      rewrite Z.min_l, Z.max_r by lia. destruct (Z.ltb_spec (gi_size f) (off + n)); [lia|auto].
  - intros n off Ho Hn Hlt. rewrite (image_ReadAt_spec content f xs) by (done || lia).
    destruct (Z.ltb_spec (gi_size f) (off + n)); [|lia]. rewrite Z.min_r by lia. done.
Qed.

Lemma image_Extents_map content allocation f xs off len :
  ensureIndexed f = Ok xs -> files_ok content (gi_extents f) ->
  Forall (fun x => match ie_file x with Some file => file_extents_ok allocation file | None => True end) (gi_extents f) ->
  0 <= off -> 0 < len -> off + len <= gi_size f ->
  exists ys, image_Extents f off len = Ok ys /\ extent_map (image_allocated allocation xs) off (off + len) ys.
Proof.
  intros Hx Hf He Ho Hl Hend. pose proof (ensureIndexed_spec f) as Hs. rewrite Hx in Hs. destruct Hs as [_ Hi].
  pose proof (indexed_Forall _ _ _ Hi Hf) as Hfs. pose proof (indexed_Forall _ _ _ Hi He) as Hes. destruct Hi as [_ Hv Hso].
  unfold image_Extents. rewrite Hx. cbn [res_bind]. rewrite (proj2 (ValidateRange_None _ _ _)) by lia.
  destruct (Z.eqb_spec len 0); [lia|]. destruct (extent_index_at (gi_size f) xs Hv Hso off) as (k & -> & Hk).
  eapply (image_Extents_loop_map content (gi_size f) xs Hv Hso Hfs allocation Hes); [done| |lia|].
  - split; simpl; [done|done|constructor].
  - pose proof (gap_ahead_le xs k off). lia.
Qed.

(** C33. Generated images. The index accepts an image exactly when its
    extents that are not empty lie inside it, have their data and are pairwise
    disjoint, in whatever order they were given; otherwise every read returns
    the index error. An accepted image is a [Reader]: every read, across any
    number of extents and gaps, returns the bytes of the extents where they
    are and zeros elsewhere, with [io.EOF] exactly past the end. Its extent
    map tiles any range in it, is coalesced, and reports as allocated exactly
    the bytes of data, of files, and of those parts of files that report
    extents which are allocated there. *)
Theorem generated_image content allocation f :
  files_ok content (gi_extents f) -> gi_size f <= MaxInt64 ->
  Forall (fun x => match ie_file x with Some file => file_extents_ok allocation file | None => True end) (gi_extents f) ->
  match ensureIndexed f with
  | Err e => ~ image_extents_ok f /\ forall n off, image_ReadAt f n off = ([], Some e)
  | Ok xs =>
      image_extents_ok f /\
      (exists view, ReaderOK (image_reader f) view /\
         (forall x i, x ∈ gi_extents f -> covering x i -> view i = extent_byte content x (i - ie_start x)) /\
         (forall i, (forall x, x ∈ gi_extents f -> ~ covering x i) -> view i = 0)) /\
      (forall off len, 0 <= off -> 0 < len -> off + len <= gi_size f ->
         exists allocated ys, image_Extents f off len = Ok ys /\ extent_map allocated off (off + len) ys /\
         (forall x i, x ∈ gi_extents f -> covering x i -> allocated i = extent_allocated allocation x (i - ie_start x)) /\
         (forall i, (forall x, x ∈ gi_extents f -> ~ covering x i) -> allocated i = false))
  end.
Proof.
  intros Hf Hmax He. pose proof (ensureIndexed_spec f) as Hs. destruct (ensureIndexed f) as [xs|e] eqn:Hx; cycle 1.
  { destruct Hs as [Hn _]. split; [done|]. intros n off. unfold image_ReadAt. by rewrite Hx. }
  destruct Hs as [Hok Hi]. split_and!; [done| |].
  - exists (image_view content xs). split_and!; [by apply image_reader_ok| |].
    + intros x i. by apply indexed_view.
    + intros i. by eapply indexed_view_gap.
  - intros off len Ho Hl Hend. exists (image_allocated allocation xs).
    destruct (image_Extents_map content allocation f xs off len) as (ys & Hy & Hm); [done..|]. exists ys. split_and!; [done|done| |].
    + intros x i Hxe Hc. apply allocated_elem; [by destruct Hi| |done].
      apply (indexed_elem f); [done|]. split; [done|by eapply covering_size].
    + intros i Hn. apply allocated_none. intros z Hz. apply Hn. by apply (indexed_elem f) in Hz as [].
Qed.

(** An image of three extents: bytes, a file that reports a hole in its
    second half, and zeros. *)
Lemma generated_image_witness :
  let provider off len := Ok (filter (fun x => 0 < x_Length x)
    [MkExtent off (Z.min len (Z.max 0 (2 - off))) true; MkExtent (Z.max off 2) (off + len - Z.max off 2) false]) in
  let file := MkFile (bytes_reader [7; 8; 0; 0]) (Some provider) in
  let f := NewGeneratedImage 12 [MkSpecExtent 6 4 0 None (Some file); MkSpecExtent 1 2 0 (Some [5; 6; 9]) None;
                                 MkSpecExtent 3 0 0 None None; MkSpecExtent 3 1 0 None None] in
  image_ReadAt f 9 1 = ([5; 6; 0; 0; 0; 7; 8; 0; 0], None) /\
  image_Extents f 0 12 = Ok [MkExtent 0 1 false; MkExtent 1 2 true; MkExtent 3 3 false; MkExtent 6 2 true; MkExtent 8 4 false] /\
  exists view, ReaderOK (image_reader f) view.
Proof.
  intros provider file f. split; [vm_compute; reflexivity|]. split; [vm_compute; reflexivity|].
  set (content := fun _ : image_file => nthb [7; 8; 0; 0]). set (allocation := fun _ : image_file => fun i => i <? 2).
  assert (Hfile : file_extents_ok allocation file).
  { intros off len Ho Hl He. change (rd_Size (fl_reader file)) with 4 in He. eexists. split; [reflexivity|].
    assert (Hoff : off < 2 \/ 2 <= off) by lia. rewrite !filter_cons, filter_nil. unfold allocation.
    destruct Hoff; [rewrite decide_True by (simpl; lia)|rewrite decide_False by (simpl; lia)].
    - destruct (decide (off + len <= 2)); [rewrite decide_False by (simpl; lia)|rewrite decide_True by (simpl; lia)].
      + split; [simpl; lia|]. apply Forall_singleton. simpl. intros i Hi. apply Z.ltb_lt. lia.
      + split; [simpl; lia|]. apply Forall_cons. split; [|apply Forall_singleton]; simpl; intros i Hi; [apply Z.ltb_lt|apply Z.ltb_ge]; lia.
    - rewrite decide_True by (simpl; lia). split; [simpl; lia|]. apply Forall_singleton. simpl. intros i Hi. apply Z.ltb_ge. lia. }
  pose proof (generated_image content allocation f) as H.
  assert (Hf : files_ok content (gi_extents f)).
  { unfold files_ok, f. cbn [NewGeneratedImage gi_extents fmap list_fmap]. rewrite !Forall_cons. cbn [ie_file es_File].
    split; [split; [apply bytes_reader_ok; vm_compute; discriminate|simpl; vm_compute; split; discriminate]|].
    split_and!; try exact I. apply Forall_nil_2. }
  specialize (H Hf ltac:(vm_compute; discriminate)).
  assert (He : Forall (fun x => match ie_file x with Some file => file_extents_ok allocation file | None => True end) (gi_extents f)).
  { unfold f. cbn. rewrite !Forall_cons. cbn. split_and!; try exact I; [exact Hfile|apply Forall_nil_2]. }
  specialize (H He). destruct (ensureIndexed f) as [xs|e] eqn:Ex; [|vm_compute in Ex; discriminate Ex].
  destruct H as (_ & (view & Hv & _) & _). exists view. exact Hv.
Defined.
