(* ===== verification/Gpt.v ===== *)
(** Package [filesystem/gpt]: the builder of GUID partition tables and the
    reader of such tables (src/filesystem/gpt/gpt.go), with [starfile.Slice]
    (src/storage/star/file.go) and [ReadBytesAt] (src/filesystem/internal).

    A GUID is its 16 bytes; a name is its Unicode scalar values, as the
    conversion between Go strings and runes gives them. *)

From S2P Require Import Prelude GoLib Storage Block Overlay GoCodec Image.
From stdpp Require Import base numbers list gmap sorting strings.

Open Scope Z_scope.
Open Scope trex_scope.

#[local] Ltac Zify.zify_post_hook ::= Z.to_euclidean_division_equations.

Definition gptSectorSize : Z := 512.
Definition gptEntryCount : Z := 128.
Definition gptEntrySize : Z := 128.
Definition gptEntryArrayBytes : Z := gptEntryCount * gptEntrySize.
Definition gptEntryArrayLBAs : Z := gptEntryArrayBytes / gptSectorSize.
Definition gptFirstUsableLBA : Z := 2 + gptEntryArrayLBAs.
Definition gptDefaultStartLBA : Z := 2048.

Definition ZeroGUID (g : bytes) : bool := bool_decide (g = zeros 16).

(** ** Files *)

(** [starfile.Slice]: a window of another file. *)
Definition Slice_ReadAt (base : Reader) (offset length : Z) (n off : Z) : bytes * option error :=
  if (off <? 0) || (length <=? off) then ([], Some EOF)
  else
    let m := if length - off <? n then length - off else n in
    let '(got, err) := rd_ReadAt base m (offset + off) in
    (got, match err with None => if zlen got <? n then Some EOF else None | Some e => Some e end).

Definition Slice_reader (base : Reader) (offset length : Z) : Reader := MkReader length (Slice_ReadAt base offset length).

Definition ReadBytesAt (file : Reader) (offset size : Z) : res bytes :=
  if (offset <? 0) || (size <? 0) || (rd_Size file <? offset) || (rd_Size file - offset <? size)
  then Err ErrUnexpectedEOF
  else section_ReadFull file offset size.

(** ** The builder *)

Record gptPartition := MkGptPartition {
  gp_file : image_file;
  gp_typeGUID : bytes;
  gp_uniqueGUID : bytes;
  gp_startLBA : Z;
  gp_endLBA : Z;
  gp_attributes : Z;
  gp_name : list Z;
}.

Record gptBuilder := MkGptBuilder { gb_size : Z; gb_diskGUID : bytes; gb_partitions : list gptPartition }.

Definition gp_Size (p : gptPartition) : Z := rd_Size (fl_reader (gp_file p)).

(** The branch of [GPTBuiltin] that makes a builder. *)
Definition newGPTBuilder (size : Z) (diskGUID : bytes) : res gptBuilder :=
  if (size <? 2097152) || negb (size mod gptSectorSize =? 0) then Err (Errorf "gpt: size must be sector-aligned")
  else if ZeroGUID diskGUID then Err (Errorf "gpt: invalid disk_guid")
  else Ok (MkGptBuilder size diskGUID []).

(** The default start: the first free aligned block after every partition. *)
Definition default_start (partitions : list gptPartition) : Z :=
  foldl (fun start existing =>
    let candidate := fs_Align (gp_endLBA existing + 1) gptDefaultStartLBA in
    if start <? candidate then candidate else start) gptDefaultStartLBA partitions.

Definition withPartition (b : gptBuilder) (file : image_file) (typeGUID partitionGUID : bytes) (name : list Z)
    (startLBA attributes : Z) : res gptBuilder :=
  if rd_Size (fl_reader file) <=? 0 then Err (Errorf "partition: filesystem must not be empty")
  else if 36 <? zlen (utf16_Encode name) then Err (Errorf "partition: name exceeds 36 UTF-16 code units")
  else if gptEntryCount <=? zlen (gb_partitions b) then Err (Errorf "partition: too many partitions")
  else if existsb (fun existing => bool_decide (gp_uniqueGUID existing = partitionGUID)) (gb_partitions b)
  then Err (Errorf "partition: duplicate partition_guid")
  else
    let startLBA := if startLBA =? 0 then default_start (gb_partitions b) else startLBA in
    let lastUsable := gb_size b / gptSectorSize - 34 in
    let sectors := fs_CeilDiv (rd_Size (fl_reader file)) gptSectorSize in
    let endLBA := i64 (i64 (startLBA + sectors) - 1) in
    if (startLBA <? gptFirstUsableLBA) || (lastUsable <? endLBA) || (endLBA <? startLBA)
    then Err (Errorf "partition: LBA range is outside GPT usable range")
    else if existsb (fun existing => (startLBA <=? gp_endLBA existing) && (gp_startLBA existing <=? endLBA)) (gb_partitions b)
    then Err (Errorf "partition: LBA range overlaps")
    else Ok (MkGptBuilder (gb_size b) (gb_diskGUID b)
               (gb_partitions b ++ [MkGptPartition file typeGUID partitionGUID startLBA endLBA attributes name])).

(** [binary.LittleEndian.PutUint16] and the like on a buffer. *)
Definition put (n : nat) (buffer : bytes) (off v : Z) : bytes := splice buffer off (le_bytes n v).

(** The loop over the units of a name. *)
Fixpoint put_units (entry : bytes) (off : Z) (units : list Z) : bytes :=
  match units with
  | [] => entry
  | u :: units => put_units (put 2 entry off u) (off + 2) units
  end.

Definition gpt_entry (p : gptPartition) : bytes :=
  let entry := splice (zeros gptEntrySize) 0 (gp_typeGUID p) in
  let entry := splice entry 16 (gp_uniqueGUID p) in
  let entry := put 8 entry 32 (u64 (gp_startLBA p)) in
  let entry := put 8 entry 40 (u64 (gp_endLBA p)) in
  let entry := put 8 entry 48 (gp_attributes p) in
  put_units entry 56 (utf16_Encode (gp_name p)).

(** The loop that fills the entry array. *)
Fixpoint fill_entries (entries : bytes) (index : Z) (partitions : list gptPartition) : bytes :=
  match partitions with
  | [] => entries
  | p :: partitions => fill_entries (splice entries (index * gptEntrySize) (gpt_entry p)) (index + 1) partitions
  end.

(** "EFI PART". *)
Definition efi_part : bytes := [69; 70; 73; 32; 80; 65; 82; 84].

Definition gpt_header (b : gptBuilder) (currentLBA backupLBA entriesLBA entryCRC : Z) : bytes :=
  let header := splice (zeros gptSectorSize) 0 efi_part in
  let header := put 4 header 8 0x00010000 in
  let header := put 4 header 12 92 in
  let header := put 8 header 24 (u64 currentLBA) in
  let header := put 8 header 32 (u64 backupLBA) in
  let header := put 8 header 40 (u64 gptFirstUsableLBA) in
  let header := put 8 header 48 (u64 (gb_size b / gptSectorSize - 34)) in
  let header := splice header 56 (gb_diskGUID b) in
  let header := put 8 header 72 (u64 entriesLBA) in
  let header := put 4 header 80 gptEntryCount in
  let header := put 4 header 84 gptEntrySize in
  let header := put 4 header 88 entryCRC in
  put 4 header 16 (crc32_ChecksumIEEE (slice 0 92 header)).

Definition protectiveMBR (totalSectors : Z) : bytes :=
  let sector := splice (zeros gptSectorSize) 447 [0x00; 0x02; 0x00; 0xee; 0xff; 0xff; 0xff] in
  let sector := put 4 sector 454 1 in
  let sectors := u64 (totalSectors - 1) in
  let sectors := if MaxUint32 <? sectors then MaxUint32 else sectors in
  let sector := put 4 sector 458 (u32 sectors) in
  splice sector 510 [0x55; 0xaa].

Definition gpt_sorted (b : gptBuilder) : list gptPartition := sort_by gp_startLBA (gb_partitions b).

Definition gpt_build (b : gptBuilder) : res generatedImageFile :=
  match gb_partitions b with
  | [] => Err (Errorf "gpt: disk has no partitions")
  | _ =>
      let partitions := gpt_sorted b in
      let entries := fill_entries (zeros gptEntryArrayBytes) 0 partitions in
      let entryCRC := crc32_ChecksumIEEE entries in
      let totalSectors := gb_size b / gptSectorSize in
      let lastLBA := totalSectors - 1 in
      let backupEntriesLBA := lastLBA - gptEntryArrayLBAs in
      let primary := gpt_header b 1 lastLBA 2 entryCRC in
      let backup := gpt_header b lastLBA 1 backupEntriesLBA entryCRC in
      Ok (NewGeneratedImage (gb_size b)
            ([MkSpecExtent 0 gptSectorSize 0 (Some (protectiveMBR totalSectors)) None;
              MkSpecExtent gptSectorSize gptSectorSize 0 (Some primary) None;
              MkSpecExtent (2 * gptSectorSize) (zlen entries) 0 (Some entries) None;
              MkSpecExtent (backupEntriesLBA * gptSectorSize) (zlen entries) 0 (Some entries) None;
              MkSpecExtent (lastLBA * gptSectorSize) gptSectorSize 0 (Some backup) None] ++
             ((fun p => MkSpecExtent (gp_startLBA p * gptSectorSize) (gp_Size p) 0 None (Some (gp_file p))) <$> partitions)))
  end.

(** ** The reader *)

Record gptReadPartition := MkReadPartition {
  rp_index : Z;
  rp_typeGUID : bytes;
  rp_uniqueGUID : bytes;
  rp_startLBA : Z;
  rp_endLBA : Z;
  rp_attributes : Z;
  rp_name : list Z;
  rp_file : Reader;
}.

Record gptVolume := MkVolume { gv_diskGUID : bytes; gv_partitions : list gptReadPartition }.

(** [binary.LittleEndian.UintN(data[off:off+n])]. *)
Definition get_le (n : Z) (data : bytes) (off : Z) : Z := le_val (slice off n data).

(** The loop over the units of an entry's name, from [offset]. *)
Fixpoint read_units (count : nat) (entry : bytes) (offset : Z) : list Z :=
  match count with
  | O => []
  | S count => let unit := get_le 2 entry offset in if unit =? 0 then [] else unit :: read_units count entry (offset + 2)
  end.

(** One entry; [Ok None] for an unused one. *)
Definition read_entry (file : Reader) (index : Z) (entry : bytes) : res (option gptReadPartition) :=
  let typeGUID := slice 0 16 entry in
  if ZeroGUID typeGUID then Ok None
  else
    let uniqueGUID := slice 16 16 entry in
    let startLBA := i64 (get_le 8 entry 32) in
    let endLBA := i64 (get_le 8 entry 40) in
    if ZeroGUID uniqueGUID || (startLBA <? 0) || (endLBA <? startLBA) || (rd_Size file / gptSectorSize <=? endLBA)
    then Err (Errorf "gpt: invalid partition entry")
    else
      let partitionSize := (endLBA - startLBA + 1) * gptSectorSize in
      Ok (Some (MkReadPartition (index + 1) typeGUID uniqueGUID startLBA endLBA (get_le 8 entry 48)
                  (utf16_Decode (read_units 36 entry 56))
                  (Slice_reader file (startLBA * gptSectorSize) partitionSize))).

Fixpoint read_entries (count : nat) (file : Reader) (table : bytes) (entrySize index : Z) : res (list gptReadPartition) :=
  match count with
  | O => Ok []
  | S count =>
      let! p := read_entry file index (slice (index * entrySize) entrySize table) in
      let! rest := read_entries count file table entrySize (index + 1) in
      Ok (match p with Some p => p :: rest | None => rest end)
  end.

(** The checks of the header of [newGPTVolume], up to the entry geometry. *)
Definition check_header (file : Reader) (header : bytes) : option error :=
  let headerSize := get_le 4 header 12 in
  if negb (bool_decide (slice 0 8 header = efi_part)) then Some (Errorf "gpt: invalid header signature")
  else if (headerSize <? 92) || (zlen header <? headerSize) then Some (Errorf "gpt: invalid header size")
  else if negb (crc32_ChecksumIEEE (splice (slice 0 headerSize header) 16 (zeros 4)) =? get_le 4 header 16)
  then Some (Errorf "gpt: header checksum mismatch")
  else if negb (get_le 8 header 24 =? 1) || (rd_Size file / gptSectorSize <=? get_le 8 header 32)
  then Some (Errorf "gpt: invalid header LBA values")
  else if ZeroGUID (slice 56 16 header) then Some (Errorf "gpt: zero disk GUID")
  else if (get_le 4 header 80 =? 0) || (4096 <? get_le 4 header 80) || (get_le 4 header 84 <? 128) ||
          (4096 <? get_le 4 header 84) || negb (get_le 4 header 84 mod 8 =? 0)
  then Some (Errorf "gpt: invalid partition entry geometry")
  else None.

Definition newGPTVolume (file : Reader) : res gptVolume :=
  if rd_Size file <? 3 * gptSectorSize then Err (Errorf "gpt: image is too small")
  else
    match ReadBytesAt file gptSectorSize gptSectorSize with
    | Err e => Err (Wrapf "gpt: read header" e)
    | Ok header =>
        match check_header file header with
        | Some e => Err e
        | None =>
            let entryCount := get_le 4 header 80 in
            let entrySize := get_le 4 header 84 in
            let tableOffset := i64 (i64 (get_le 8 header 72) * gptSectorSize) in
            match ReadBytesAt file tableOffset (entryCount * entrySize) with
            | Err e => Err (Wrapf "gpt: read partition table" e)
            | Ok table =>
                if negb (crc32_ChecksumIEEE table =? get_le 4 header 88) then Err (Errorf "gpt: partition table checksum mismatch")
                else
                  let! partitions := read_entries (Z.to_nat entryCount) file table entrySize 0 in
                  Ok (MkVolume (slice 56 16 header) partitions)
            end
        end
    end.

(** ** Fields of buffers *)

Lemma slice_splice_eq (l d : bytes) off n :
  0 <= off -> n = zlen d -> off + n <= zlen l -> slice off n (splice l off d) = d.
Proof.
  intros Ho -> Hl. pose proof (zlen_nonneg d). rewrite slice_range by (rewrite ?zlen_splice; lia).
  rewrite <- (range_nthb d) at 3. apply range_shift. intros i Hi. rewrite nthb_splice by lia.
  rewrite upd_in by lia. f_equal. lia.
Qed.

Lemma slice_splice_ne (l d : bytes) off n o :
  0 <= off -> 0 <= n -> off + n <= zlen l -> 0 <= o -> o + zlen d <= zlen l ->
  off + n <= o \/ o + zlen d <= off -> slice off n (splice l o d) = slice off n l.
Proof.
  intros Ho Hn Hl Ho' Hd Hne. rewrite !slice_range by (rewrite ?zlen_splice; lia). apply range_ext. intros i Hi.
  rewrite nthb_splice by lia. unfold upd. destruct (Z.leb_spec o i), (Z.ltb_spec i (o + zlen d)); simpl; lia || done.
Qed.

Lemma zlen_put n buffer off v : 0 <= off -> off + Z.of_nat n <= zlen buffer -> zlen (put n buffer off v) = zlen buffer.
Proof. intros. unfold put. apply zlen_splice; rewrite ?zlen_le_bytes; lia. Qed.

Lemma get_put n buffer off v :
  0 <= off -> off + Z.of_nat n <= zlen buffer -> 0 <= v < 256 ^ Z.of_nat n -> get_le (Z.of_nat n) (put n buffer off v) off = v.
Proof.
  intros Ho Hl Hv. unfold get_le, put. rewrite slice_splice_eq by (rewrite ?zlen_le_bytes; lia). by apply le_roundtrip.
Qed.

(** A field that a later store does not touch. *)
Lemma slice_put_ne n buffer off len o v :
  0 <= off -> 0 <= len -> off + len <= zlen buffer -> 0 <= o -> o + Z.of_nat n <= zlen buffer ->
  off + len <= o \/ o + Z.of_nat n <= off -> slice off len (put n buffer o v) = slice off len buffer.
Proof. intros. unfold put. apply slice_splice_ne; rewrite ?zlen_le_bytes; lia. Qed.

(** Compute the length of a buffer built by stores, and the field at an
    offset of it. *)
Ltac buffer_len := repeat (rewrite zlen_put || rewrite zlen_splice || rewrite zlen_zeros || rewrite zlen_le_bytes); try done; try lia.

Lemma splice_bytes_ok l off d : bytes_ok l -> bytes_ok d -> bytes_ok (splice l off d).
Proof.
  intros Hl Hd. unfold splice, bytes_ok. rewrite !Forall_app. split_and!; [by apply Forall_take|done|by apply Forall_drop].
Qed.

Lemma put_bytes_ok n l off v : bytes_ok l -> bytes_ok (put n l off v).
Proof. intros. apply splice_bytes_ok; [done|apply le_bytes_ok]. Qed.

Lemma zeros_bytes_ok n : bytes_ok (zeros n).
Proof. apply Forall_replicate. unfold byte_ok. lia. Qed.

#[local] Hint Resolve splice_bytes_ok put_bytes_ok zeros_bytes_ok : trex.

(** ** Names *)

Definition units_bytes (units : list Z) : bytes := units ≫= le_bytes 2.

Lemma zlen_units_bytes units : zlen (units_bytes units) = 2 * zlen units.
Proof.
  induction units as [|u units IH]; [done|]. unfold units_bytes in *. cbn [mbind list_bind]. rewrite zlen_app, zlen_le_bytes, zlen_cons, IH. lia.
Qed.

Lemma splice_app (l d e : bytes) off :
  0 <= off -> off + zlen d + zlen e <= zlen l -> splice (splice l off d) (off + zlen d) e = splice l off (d ++ e).
Proof.
  intros Ho Hl. pose proof (zlen_nonneg d). pose proof (zlen_nonneg e).
  apply bytes_ext; rewrite !zlen_splice; rewrite ?zlen_splice, ?zlen_app; try lia.
  intros i Hi. rewrite !nthb_splice by (rewrite ?zlen_splice, ?zlen_app; lia). rewrite upd_app.
  unfold upd at 1 2. destruct (_ && _); [done|]. by rewrite nthb_splice by lia.
Qed.

Lemma put_units_splice entry off units :
  0 <= off -> off + 2 * zlen units <= zlen entry -> put_units entry off units = splice entry off (units_bytes units).
Proof.
  revert entry off. induction units as [|u units IH]; intros entry off Ho Hl; cbn [put_units].
  - unfold units_bytes, splice. simpl. rewrite zlen_nil, Z.add_0_r. by rewrite take_drop.
  - rewrite zlen_cons in Hl. pose proof (zlen_nonneg units). rewrite IH by (rewrite ?zlen_put; lia).
    unfold put. pose proof (splice_app entry (le_bytes 2 u) (units_bytes units) off) as Hs.
    rewrite zlen_le_bytes, zlen_units_bytes in Hs. apply Hs; lia.
Qed.

(** Reading back the units that were written, up to the first zero. *)
Lemma read_units_splice count entry units off :
  Forall (fun u => 0 < u < 65536) units -> 0 <= off -> off + 2 * Z.of_nat count <= zlen entry -> zlen units <= Z.of_nat count ->
  slice off (2 * Z.of_nat count) entry = units_bytes units ++ zeros (2 * (Z.of_nat count - zlen units)) ->
  read_units count entry off = units.
Proof.
  revert units off. induction count as [|count IH]; intros units off Hu Ho Hl Hc Hs.
  { destruct units as [|u units]; [done|]. rewrite zlen_cons in Hc. pose proof (zlen_nonneg units). lia. }
  assert (Hsplit : slice off (2 * Z.of_nat (S count)) entry = slice off 2 entry ++ slice (off + 2) (2 * Z.of_nat count) entry).
  { rewrite !slice_range by lia. replace (2 * Z.of_nat (S count)) with (2 + 2 * Z.of_nat count) by lia. by rewrite range_add by lia. }
  rewrite Hsplit in Hs. assert (H2 : zlen (slice off 2 entry) = 2) by (apply zlen_slice; lia). cbn [read_units]. unfold get_le.
  destruct units as [|u units].
  - unfold units_bytes in Hs. cbn [mbind list_bind app] in Hs. rewrite zlen_nil, Z.sub_0_r in Hs.
    replace (zeros (2 * Z.of_nat (S count))) with (zeros 2 ++ zeros (2 * Z.of_nat count)) in Hs.
    + apply app_inj_1 in Hs as [-> _]; [done|]. unfold zlen in H2. simpl. lia.
    + unfold zeros. rewrite <- replicate_add. f_equal. lia.
  - rewrite zlen_cons in Hc, Hs. apply Forall_cons in Hu as [Hu Hus]. unfold units_bytes in Hs. cbn [mbind list_bind] in Hs.
    rewrite <- app_assoc in Hs. apply app_inj_1 in Hs as [-> Hs]; [|unfold zlen in H2; simpl; lia].
    rewrite le_roundtrip by (change (256 ^ Z.of_nat 2) with 65536; lia). destruct (Z.eqb_spec u 0); [lia|]. f_equal.
    apply IH; [done|lia..|]. rewrite Hs. f_equal. f_equal. lia.
Qed.

Lemma slice_splice_prefix_ext (l d : bytes) off n :
  0 <= off -> zlen d <= n -> off + n <= zlen l -> slice off n (splice l off d) = d ++ slice (off + zlen d) (n - zlen d) l.
Proof.
  intros Ho Hd Hl. pose proof (zlen_nonneg d). rewrite !slice_range by (rewrite ?zlen_splice; lia).
  replace n with (zlen d + (n - zlen d)) at 1 by lia. rewrite range_add by lia. f_equal.
  - rewrite <- (range_nthb d) at 3. apply range_shift. intros i Hi. rewrite nthb_splice, upd_in by lia. f_equal. lia.
  - apply range_ext. intros i Hi. rewrite nthb_splice by lia. unfold upd.
    destruct (Z.leb_spec off i), (Z.ltb_spec i (off + zlen d)); simpl; lia || done.
Qed.

(** A partition as the builder records it. *)
Record part_ok (size : Z) (p : gptPartition) : Prop := {
  po_type : zlen (gp_typeGUID p) = 16 /\ bytes_ok (gp_typeGUID p) /\ ZeroGUID (gp_typeGUID p) = false;
  po_unique : zlen (gp_uniqueGUID p) = 16 /\ bytes_ok (gp_uniqueGUID p) /\ ZeroGUID (gp_uniqueGUID p) = false;
  po_range : 34 <= gp_startLBA p /\ gp_startLBA p <= gp_endLBA p /\ gp_endLBA p <= size / 512 - 34;
  po_size : 0 < gp_Size p /\ gp_Size p <= (gp_endLBA p - gp_startLBA p + 1) * 512 /\
            (gp_endLBA p - gp_startLBA p) * 512 < gp_Size p;
  po_attributes : 0 <= gp_attributes p < 2 ^ 64;
  po_name : zlen (utf16_Encode (gp_name p)) <= 36;
}.

(** A name that the reader can give back: scalar values without NUL. *)
Definition name_ok (p : gptPartition) : Prop := Forall (fun r => scalar r /\ r <> 0) (gp_name p).

(** The entry before its name. *)
Definition entry_head (p : gptPartition) : bytes :=
  put 8 (put 8 (put 8 (splice (splice (zeros 128) 0 (gp_typeGUID p)) 16 (gp_uniqueGUID p))
    32 (u64 (gp_startLBA p))) 40 (u64 (gp_endLBA p))) 48 (gp_attributes p).

Lemma entry_head_len size p : part_ok size p -> zlen (entry_head p) = 128.
Proof. intros [(H1 & _) (H2 & _) _ _ _ _]. unfold entry_head. buffer_len; rewrite ?H1, ?H2; buffer_len. Qed.

Lemma gpt_entry_splice size p :
  part_ok size p -> gpt_entry p = splice (entry_head p) 56 (units_bytes (utf16_Encode (gp_name p))).
Proof.
  intros Hp. unfold gpt_entry. change gptEntrySize with 128. fold (entry_head p).
  apply put_units_splice; [lia|]. rewrite (entry_head_len size) by done. pose proof (po_name _ _ Hp). lia.
Qed.

Lemma entry_head_fields size p :
  part_ok size p -> size <= MaxInt64 ->
  slice 0 16 (entry_head p) = gp_typeGUID p /\ slice 16 16 (entry_head p) = gp_uniqueGUID p /\
  get_le 8 (entry_head p) 32 = gp_startLBA p /\ get_le 8 (entry_head p) 40 = gp_endLBA p /\
  get_le 8 (entry_head p) 48 = gp_attributes p /\ slice 56 72 (entry_head p) = zeros 72.
Proof.
  intros [(Ht & _) (Hu & _) Hr _ Ha _] Hmax. unfold entry_head, MaxInt64 in *.
  set (e1 := splice (zeros 128) 0 (gp_typeGUID p)).
  assert (L1 : zlen e1 = 128) by (unfold e1; rewrite zlen_splice; rewrite ?zlen_zeros; lia).
  set (e2 := splice e1 16 (gp_uniqueGUID p)).
  assert (L2 : zlen e2 = 128) by (unfold e2; rewrite zlen_splice; lia).
  set (e3 := put 8 e2 32 (u64 (gp_startLBA p))). assert (L3 : zlen e3 = 128) by (unfold e3; rewrite zlen_put; lia).
  set (e4 := put 8 e3 40 (u64 (gp_endLBA p))). assert (L4 : zlen e4 = 128) by (unfold e4; rewrite zlen_put; lia).
  assert (Hs : u64 (gp_startLBA p) = gp_startLBA p) by (apply u64_id; lia).
  assert (He : u64 (gp_endLBA p) = gp_endLBA p) by (apply u64_id; lia).
  assert (H5 : forall off n, 0 <= off -> 0 <= n -> off + n <= 48 \/ 56 <= off -> off + n <= 128 ->
    slice off n (put 8 e4 48 (gp_attributes p)) = slice off n e4) by (intros; apply slice_put_ne; lia).
  assert (H4 : forall off n, 0 <= off -> 0 <= n -> off + n <= 40 \/ 48 <= off -> off + n <= 128 ->
    slice off n e4 = slice off n e3) by (intros; apply slice_put_ne; lia).
  assert (H3 : forall off n, 0 <= off -> 0 <= n -> off + n <= 32 \/ 40 <= off -> off + n <= 128 ->
    slice off n e3 = slice off n e2) by (intros; apply slice_put_ne; lia).
  unfold get_le. split_and!.
  - rewrite H5, H4, H3 by lia. unfold e2. rewrite slice_splice_ne by lia. apply slice_splice_eq; rewrite ?zlen_zeros; lia.
  - rewrite H5, H4, H3 by lia. apply slice_splice_eq; lia.
  - rewrite H5, H4 by lia. change (slice 32 8 e3) with (slice 32 (Z.of_nat 8) e3).
    change (get_le (Z.of_nat 8) e3 32 = gp_startLBA p). unfold e3. rewrite get_put; [done|lia..|]. rewrite Hs. lia.
  - rewrite H5 by lia. change (get_le (Z.of_nat 8) e4 40 = gp_endLBA p). unfold e4. rewrite get_put; [done|lia..|]. rewrite He. lia.
  - change (get_le (Z.of_nat 8) (put 8 e4 48 (gp_attributes p)) 48 = gp_attributes p). apply get_put; lia.
  - rewrite H5, H4, H3 by lia. unfold e2, e1. rewrite !slice_splice_ne by (rewrite ?zlen_splice; rewrite ?zlen_zeros; lia).
    apply slice_zeros; lia.
Qed.

Lemma zlen_gpt_entry size p : part_ok size p -> zlen (gpt_entry p) = 128.
Proof.
  intros Hp. rewrite (gpt_entry_splice size) by done. pose proof (po_name _ _ Hp).
  rewrite zlen_splice; rewrite ?(entry_head_len size), ?zlen_units_bytes by done; lia.
Qed.

Lemma gpt_entry_ok size p : part_ok size p -> bytes_ok (gpt_entry p).
Proof.
  intros Hp. rewrite (gpt_entry_splice size) by done. destruct Hp as [(_ & ? & _) (_ & ? & _) _ _ _ _].
  apply splice_bytes_ok; [unfold entry_head; auto 10 with trex|]. unfold units_bytes, bytes_ok.
  induction (utf16_Encode (gp_name p)) as [|u us IH]; [constructor|]. cbn [mbind list_bind]. apply Forall_app. split; [apply le_bytes_ok|done].
Qed.

(** The fields of an entry. *)
Lemma gpt_entry_fields size p :
  part_ok size p -> size <= MaxInt64 -> name_ok p ->
  slice 0 16 (gpt_entry p) = gp_typeGUID p /\ slice 16 16 (gpt_entry p) = gp_uniqueGUID p /\
  get_le 8 (gpt_entry p) 32 = gp_startLBA p /\ get_le 8 (gpt_entry p) 40 = gp_endLBA p /\
  get_le 8 (gpt_entry p) 48 = gp_attributes p /\ utf16_Decode (read_units 36 (gpt_entry p) 56) = gp_name p.
Proof.
  intros Hp Hmax Hn. destruct (entry_head_fields size p Hp Hmax) as (F1 & F2 & F3 & F4 & F5 & F6).
  pose proof (entry_head_len size p Hp) as Hl. pose proof (po_name _ _ Hp) as Hname.
  rewrite (gpt_entry_splice size) by done. set (us := utf16_Encode (gp_name p)) in *. pose proof (zlen_nonneg us).
  assert (Hne : forall off n, 0 <= off -> 0 <= n -> off + n <= 56 ->
    slice off n (splice (entry_head p) 56 (units_bytes us)) = slice off n (entry_head p))
    by (intros; apply slice_splice_ne; rewrite ?zlen_units_bytes; lia).
  unfold get_le in *. rewrite !Hne by lia. split_and!; try done.
  rewrite (read_units_splice 36 _ us).
  - apply utf16_roundtrip. eapply Forall_impl; [exact Hn|]. by intros r [? _].
  - by apply utf16_units.
  - lia.
  - rewrite zlen_splice; rewrite ?zlen_units_bytes; lia.
  - lia.
  - change (2 * Z.of_nat 36) with 72. rewrite slice_splice_prefix_ext by (rewrite ?zlen_units_bytes; lia). f_equal.
    rewrite zlen_units_bytes. change (Z.of_nat 36) with 36.
    assert (Hz : forall o m, 0 <= o -> 0 <= m -> o + m <= 72 -> slice (56 + o) m (entry_head p) = zeros m).
    { intros o m Ho Hm Hom. apply bytes_ext; rewrite zlen_slice by lia; [by rewrite zlen_zeros|]. intros i Hi.
      rewrite nthb_slice, nthb_zeros by lia. replace (56 + o + i) with (56 + (o + i)) by lia.
      rewrite <- (nthb_slice (entry_head p) 56 72 (o + i)) by lia. by rewrite F6, nthb_zeros. }
    rewrite Hz by lia. f_equal. lia.
Qed.

(** ** The entry array *)

Lemma zlen_fill_entries size ps entries index :
  Forall (part_ok size) ps -> 0 <= index -> (index + zlen ps) * 128 <= zlen entries ->
  zlen (fill_entries entries index ps) = zlen entries.
Proof.
  intros Hps. revert entries index. induction Hps as [|p ps Hp _ IH]; intros entries index Hi Hl; cbn [fill_entries]; [done|].
  rewrite zlen_cons in Hl. pose proof (zlen_nonneg ps). change gptEntrySize with 128.
  assert (Hs : zlen (splice entries (index * 128) (gpt_entry p)) = zlen entries)
    by (apply zlen_splice; rewrite ?(zlen_gpt_entry size) by done; lia).
  rewrite IH; rewrite ?Hs; lia.
Qed.

(** Slot [i] of the array: the entry of a partition, or what was there. *)
Lemma fill_entries_slot size ps entries index i :
  Forall (part_ok size) ps -> 0 <= index -> (index + zlen ps) * 128 <= zlen entries -> 0 <= i -> (i + 1) * 128 <= zlen entries ->
  slice (i * 128) 128 (fill_entries entries index ps) =
  match (if index <=? i then ps !! Z.to_nat (i - index) else None) with
  | Some p => gpt_entry p
  | None => slice (i * 128) 128 entries
  end.
Proof.
  intros Hps. revert entries index. induction Hps as [|p ps Hp _ IH]; intros entries index Hi Hl H0 H1; cbn [fill_entries].
  { by destruct (index <=? i); rewrite ?lookup_nil. }
  rewrite zlen_cons in Hl. pose proof (zlen_nonneg ps). pose proof (zlen_gpt_entry size p Hp) as Hlen. change gptEntrySize with 128.
  assert (Hs : zlen (splice entries (index * 128) (gpt_entry p)) = zlen entries) by (apply zlen_splice; lia).
  rewrite IH by (rewrite ?Hs; lia). destruct (Z.leb_spec index i) as [Hle|Hlt].
  - destruct (Z.leb_spec (index + 1) i).
    + replace (Z.to_nat (i - index)) with (S (Z.to_nat (i - (index + 1)))) by lia. cbn [lookup list_lookup].
      destruct (ps !! Z.to_nat (i - (index + 1))); [done|]. apply slice_splice_ne; lia.
    + replace i with index by lia. rewrite Z.sub_diag. change (Z.to_nat 0) with 0%nat. cbn [lookup list_lookup].
      apply slice_splice_eq; lia.
  - destruct (Z.leb_spec (index + 1) i); [lia|]. apply slice_splice_ne; lia.
Qed.

Lemma fill_entries_ok size ps entries index :
  Forall (part_ok size) ps -> bytes_ok entries -> bytes_ok (fill_entries entries index ps).
Proof.
  intros Hps. revert entries index. induction Hps as [|p ps Hp _ IH]; intros entries index He; cbn [fill_entries]; [done|].
  apply IH. apply splice_bytes_ok; [done|by eapply gpt_entry_ok].
Qed.

(** What the reader makes of entry [i]. *)
Definition read_back (file : Reader) (i : nat) (p : gptPartition) : gptReadPartition :=
  MkReadPartition (Z.of_nat i + 1) (gp_typeGUID p) (gp_uniqueGUID p) (gp_startLBA p) (gp_endLBA p) (gp_attributes p) (gp_name p)
    (Slice_reader file (gp_startLBA p * 512) ((gp_endLBA p - gp_startLBA p + 1) * 512)).

Lemma read_entry_back size file i p :
  part_ok size p -> name_ok p -> size <= MaxInt64 -> rd_Size file = size ->
  read_entry file (Z.of_nat i) (gpt_entry p) = Ok (Some (read_back file i p)).
Proof.
  intros Hp Hn Hmax Hs. destruct (gpt_entry_fields size p Hp Hmax Hn) as (F1 & F2 & F3 & F4 & F5 & F6).
  unfold read_entry. rewrite F1, F2, F3, F4, F5, F6, Hs. destruct Hp as [(_ & _ & ->) (_ & _ & ->) Hr _ _ _]. unfold MaxInt64 in *.
  rewrite !i64_id by (unfold MaxInt64; lia). change gptSectorSize with 512.
  destruct (Z.ltb_spec (gp_startLBA p) 0), (Z.ltb_spec (gp_endLBA p) (gp_startLBA p)), (Z.leb_spec (size / 512) (gp_endLBA p)); simpl; lia || done.
Qed.

Lemma read_entries_back size file table ps count index :
  Forall (part_ok size) ps -> Forall name_ok ps -> size <= MaxInt64 -> rd_Size file = size ->
  (forall i : nat, (index <= i < index + count)%nat ->
     slice (Z.of_nat i * 128) 128 table = match ps !! i with Some p => gpt_entry p | None => zeros 128 end) ->
  (List.length ps <= index + count)%nat ->
  read_entries count file table 128 (Z.of_nat index) = Ok (imap (fun j p => read_back file (index + j)%nat p) (drop index ps)).
Proof.
  intros Hps Hns Hmax Hs. revert index. induction count as [|count IH]; intros index Ht Hl; cbn [read_entries].
  { by rewrite drop_ge by lia. }
  rewrite Ht by lia. replace (Z.of_nat index + 1) with (Z.of_nat (S index)) by lia.
  rewrite (IH (S index)) by (try lia; intros i Hi; apply Ht; lia).
  destruct (ps !! index) as [p|] eqn:Ep.
  - rewrite (read_entry_back size) by (done || (by eapply Forall_lookup_1)). cbn [res_bind].
    rewrite (drop_S ps p index) by done. cbn [imap]. rewrite Nat.add_0_r. do 2 f_equal. apply imap_ext. intros j q Hq. simpl. f_equal. lia.
  - apply lookup_ge_None in Ep. rewrite !drop_ge by lia. done.
Qed.

(** ** Headers as lists of stores *)

Definition apply_stores (l : bytes) (stores : list (Z * bytes)) : bytes := foldl (fun l s => splice l (fst s) (snd s)) l stores.

Definition store_in (len : Z) (s : Z * bytes) : Prop := 0 <= fst s /\ fst s + zlen (snd s) <= len.
Definition store_apart (off n : Z) (s : Z * bytes) : Prop := off + n <= fst s \/ fst s + zlen (snd s) <= off.

Lemma zlen_apply_stores l stores : Forall (store_in (zlen l)) stores -> zlen (apply_stores l stores) = zlen l.
Proof.
  unfold apply_stores. revert l. induction stores as [|s stores IH]; intros l Hs; [done|]. apply Forall_cons in Hs as [[H1 H2] Hs].
  assert (Hl : zlen (splice l (fst s) (snd s)) = zlen l) by (by apply zlen_splice). simpl. rewrite IH; rewrite ?Hl; done.
Qed.

Lemma apply_stores_apart l stores off n :
  Forall (store_in (zlen l)) stores -> Forall (store_apart off n) stores -> 0 <= off -> 0 <= n -> off + n <= zlen l ->
  slice off n (apply_stores l stores) = slice off n l.
Proof.
  unfold apply_stores. revert l. induction stores as [|s stores IH]; intros l Hs Ha Ho Hn He; [done|].
  apply Forall_cons in Hs as [[H1 H2] Hs], Ha as [Ha1 Ha].
  assert (Hl : zlen (splice l (fst s) (snd s)) = zlen l) by (by apply zlen_splice). simpl.
  rewrite IH by (rewrite ?Hl; done). by apply slice_splice_ne.
Qed.

(** The field written by a store that no later store touches. *)
Lemma apply_stores_field l before off d after :
  Forall (store_in (zlen l)) (before ++ (off, d) :: after) -> Forall (store_apart off (zlen d)) after ->
  slice off (zlen d) (apply_stores l (before ++ (off, d) :: after)) = d.
Proof.
  intros Hs Ha. apply Forall_app in Hs as [Hb Hs]. apply Forall_cons in Hs as [[H1 H2] Hs]. simpl in *.
  pose proof (zlen_apply_stores l before Hb) as Hl. pose proof (zlen_nonneg d).
  unfold apply_stores in *. rewrite foldl_app. cbn [foldl fst snd]. fold (apply_stores (splice (foldl (fun l s => splice l (fst s) (snd s)) l before) off d) after).
  set (m := foldl _ l before) in *. assert (Hm : zlen (splice m off d) = zlen l) by (rewrite zlen_splice; lia).
  rewrite apply_stores_apart by (rewrite ?Hm; done || lia). apply slice_splice_eq; lia.
Qed.

Lemma apply_stores_nth l stores (k : nat) off d n :
  stores !! k = Some (off, d) -> n = zlen d -> Forall (store_in (zlen l)) stores -> Forall (store_apart off n) (drop (S k) stores) ->
  slice off n (apply_stores l stores) = d.
Proof.
  intros Hk -> Hs Ha. rewrite <- (take_drop_middle _ _ _ Hk). rewrite <- (take_drop_middle _ _ _ Hk) in Hs. by apply apply_stores_field.
Qed.

(** The stores of [header], up to the one of its checksum. *)
Definition header_stores (b : gptBuilder) (currentLBA backupLBA entriesLBA entryCRC : Z) : list (Z * bytes) :=
  [(0, efi_part); (8, le_bytes 4 65536); (12, le_bytes 4 92); (24, le_bytes 8 (u64 currentLBA)); (32, le_bytes 8 (u64 backupLBA));
   (40, le_bytes 8 (u64 gptFirstUsableLBA)); (48, le_bytes 8 (u64 (gb_size b / gptSectorSize - 34))); (56, gb_diskGUID b);
   (72, le_bytes 8 (u64 entriesLBA)); (80, le_bytes 4 gptEntryCount); (84, le_bytes 4 gptEntrySize); (88, le_bytes 4 entryCRC)].

Definition header_base (b : gptBuilder) (currentLBA backupLBA entriesLBA entryCRC : Z) : bytes :=
  apply_stores (zeros 512) (header_stores b currentLBA backupLBA entriesLBA entryCRC).

Lemma gpt_header_stores b c k e crc :
  gpt_header b c k e crc =
  apply_stores (zeros 512) (header_stores b c k e crc ++ [(16, le_bytes 4 (crc32_ChecksumIEEE (slice 0 92 (header_base b c k e crc))))]).
Proof. unfold apply_stores. rewrite foldl_app. reflexivity. Qed.

Section Header.
Context (b : gptBuilder) (c k e crc : Z).
Hypothesis Hguid : zlen (gb_diskGUID b) = 16.
Hypothesis Hguid_ok : bytes_ok (gb_diskGUID b).

Lemma header_stores_in : Forall (store_in 512) (header_stores b c k e crc).
Proof. unfold header_stores, store_in. rewrite !Forall_cons. cbn [fst snd]. rewrite !zlen_le_bytes, Hguid. split_and!; try done; lia. Qed.

Lemma header_base_len : zlen (header_base b c k e crc) = 512.
Proof. unfold header_base. rewrite zlen_apply_stores; [done|]. apply header_stores_in. Qed.

Lemma header_base_ok : bytes_ok (header_base b c k e crc).
Proof.
  unfold header_base, apply_stores, header_stores. cbn [foldl fst snd].
  repeat apply splice_bytes_ok; try apply le_bytes_ok; try apply zeros_bytes_ok; [|done]. repeat constructor; lia.
Qed.

Lemma header_crc_range : 0 <= crc32_ChecksumIEEE (slice 0 92 (header_base b c k e crc)) < 256 ^ 4.
Proof. apply (crc32_range (slice 0 92 (header_base b c k e crc))). unfold slice. by apply Forall_take, Forall_drop, header_base_ok. Qed.

Let all := header_stores b c k e crc ++ [(16, le_bytes 4 (crc32_ChecksumIEEE (slice 0 92 (header_base b c k e crc))))].

Lemma header_all_in : Forall (store_in (zlen (zeros 512))) all.
Proof. apply Forall_app. split; [apply header_stores_in|]. apply Forall_singleton. unfold store_in. cbn [fst snd]. rewrite zlen_le_bytes. change (zlen (zeros 512)) with 512. lia. Qed.

(** A field of the header, by the position of its store. *)
Lemma header_field (i : nat) off d n :
  all !! i = Some (off, d) -> n = zlen d -> Forall (store_apart off n) (drop (S i) all) ->
  slice off n (gpt_header b c k e crc) = d.
Proof. intros. rewrite gpt_header_stores. eapply apply_stores_nth; [done|done|apply header_all_in|done]. Qed.

Lemma header_int (i : nat) off m v :
  all !! i = Some (off, le_bytes m v) -> 0 <= v < 256 ^ Z.of_nat m -> Forall (store_apart off (Z.of_nat m)) (drop (S i) all) ->
  get_le (Z.of_nat m) (gpt_header b c k e crc) off = v.
Proof.
  intros Hi Hv Ha. unfold get_le. rewrite (header_field i off (le_bytes m v)); [by apply le_roundtrip|done|by rewrite zlen_le_bytes|done].
Qed.

Ltac apart := unfold all, header_stores; cbn [drop app];
  repeat (apply Forall_cons; split; [unfold store_apart; cbn [fst snd]; rewrite ?zlen_le_bytes, ?Hguid; lia|]); apply Forall_nil_2.

Lemma gpt_header_fields :
  0 <= c < 2 ^ 63 -> 0 <= k < 2 ^ 63 -> 0 <= e < 2 ^ 63 -> 0 <= crc < 2 ^ 32 ->
  let header := gpt_header b c k e crc in
  slice 0 8 header = efi_part /\ get_le 4 header 12 = 92 /\ get_le 8 header 24 = c /\ get_le 8 header 32 = k /\
  slice 56 16 header = gb_diskGUID b /\ get_le 8 header 72 = e /\ get_le 4 header 80 = 128 /\ get_le 4 header 84 = 128 /\
  get_le 4 header 88 = crc /\ get_le 4 header 16 = crc32_ChecksumIEEE (slice 0 92 (header_base b c k e crc)).
Proof.
  intros Hc Hk He Hcrc header. unfold header. pose proof header_crc_range.
  assert (Hu : forall x, 0 <= x < 2 ^ 63 -> u64 x = x) by (intros; apply u64_id; lia). split_and!.
  - apply (header_field 0); [done|done|apart].
  - apply (header_int 2 12 4); [done|lia|apart].
  - rewrite <- (Hu c) at 2 by done. apply (header_int 3 24 8); [done|rewrite Hu by done; lia|apart].
  - rewrite <- (Hu k) at 2 by done. apply (header_int 4 32 8); [done|rewrite Hu by done; lia|apart].
  - apply (header_field 7); [done|done|apart].
  - rewrite <- (Hu e) at 2 by done. apply (header_int 8 72 8); [done|rewrite Hu by done; lia|apart].
  - apply (header_int 9 80 4); [done|lia|apart].
  - apply (header_int 10 84 4); [done|lia|apart].
  - apply (header_int 11 88 4); [done|lia|apart].
  - apply (header_int 12 16 4); [done|lia|apart].
Qed.
End Header.

(** Clearing the checksum gives the header it was computed from. *)
Lemma header_copy b c k e crc :
  zlen (gb_diskGUID b) = 16 -> bytes_ok (gb_diskGUID b) ->
  splice (slice 0 92 (gpt_header b c k e crc)) 16 (zeros 4) = slice 0 92 (header_base b c k e crc) /\ zlen (gpt_header b c k e crc) = 512.
Proof.
  intros Hg Hok. pose proof (header_base_len b c k e crc Hg) as Hb.
  set (d := le_bytes 4 (crc32_ChecksumIEEE (slice 0 92 (header_base b c k e crc)))).
  assert (Hd : zlen d = 4) by (unfold d; by rewrite zlen_le_bytes).
  assert (Eh : gpt_header b c k e crc = splice (header_base b c k e crc) 16 d).
  { rewrite gpt_header_stores. unfold apply_stores. rewrite foldl_app. reflexivity. }
  assert (Hl : zlen (gpt_header b c k e crc) = 512) by (rewrite Eh, zlen_splice; lia). split; [|done].
  assert (Hz : slice 16 4 (header_base b c k e crc) = zeros 4).
  { unfold header_base. rewrite apply_stores_apart; [by apply slice_zeros|by apply header_stores_in| |lia..|].
    - unfold header_stores. repeat (apply Forall_cons; split; [unfold store_apart; cbn [fst snd]; rewrite ?zlen_le_bytes, ?Hg; change (zlen efi_part) with 8; lia|]).
      apply Forall_nil_2.
    - change (zlen (zeros 512)) with 512. lia. }
  assert (H92 : zlen (slice 0 92 (gpt_header b c k e crc)) = 92) by (apply zlen_slice; lia).
  apply bytes_ext; rewrite zlen_splice by (rewrite ?zlen_zeros; lia); [rewrite H92, zlen_slice; lia|].
  intros i Hi. rewrite H92 in Hi. rewrite nthb_splice, nthb_slice by (rewrite ?zlen_zeros; lia). rewrite Z.add_0_l.
  unfold upd. rewrite zlen_zeros by lia. destruct (Z.leb_spec 16 i), (Z.ltb_spec i (16 + 4)); cbn [andb].
  - rewrite nthb_zeros. rewrite <- (nthb_zeros 4 (i - 16)), <- Hz, nthb_slice by lia. f_equal. lia.
  - rewrite nthb_slice, Z.add_0_l by lia. rewrite Eh, nthb_splice by lia. unfold upd. rewrite Hd.
    destruct (Z.leb_spec 16 i), (Z.ltb_spec i (16 + 4)); cbn [andb]; lia || (f_equal; lia).
  - rewrite nthb_slice, Z.add_0_l by lia. rewrite Eh, nthb_splice by lia. unfold upd. rewrite Hd.
    destruct (Z.leb_spec 16 i), (Z.ltb_spec i (16 + 4)); cbn [andb]; lia || (f_equal; lia).
  - lia.
Qed.

(** ** What the builder maintains *)

Definition apart_parts (p q : gptPartition) : Prop := gp_endLBA p < gp_startLBA q \/ gp_endLBA q < gp_startLBA p.

Record builder_ok (b : gptBuilder) : Prop := {
  bo_size : 2097152 <= gb_size b <= MaxInt64 /\ gb_size b mod 512 = 0;
  bo_guid : zlen (gb_diskGUID b) = 16 /\ bytes_ok (gb_diskGUID b) /\ ZeroGUID (gb_diskGUID b) = false;
  bo_count : zlen (gb_partitions b) <= 128;
  bo_parts : Forall (part_ok (gb_size b)) (gb_partitions b);
  bo_apart : forall i j p q, gb_partitions b !! i = Some p -> gb_partitions b !! j = Some q -> i <> j -> apart_parts p q;
}.

(** The arguments of a call of [partition]. *)
Record part_args := MkArgs {
  pa_file : image_file; pa_type : bytes; pa_unique : bytes; pa_name : list Z; pa_start : Z; pa_attributes : Z }.

Definition args_ok (a : part_args) : Prop :=
  zlen (pa_type a) = 16 /\ bytes_ok (pa_type a) /\ ZeroGUID (pa_type a) = false /\
  zlen (pa_unique a) = 16 /\ bytes_ok (pa_unique a) /\ ZeroGUID (pa_unique a) = false /\
  0 <= pa_attributes a < 2 ^ 64 /\ pa_start a <= MaxInt64 /\ rd_Size (fl_reader (pa_file a)) <= MaxInt64.

Definition add_part (b : gptBuilder) (a : part_args) : res gptBuilder :=
  withPartition b (pa_file a) (pa_type a) (pa_unique a) (pa_name a) (pa_start a) (pa_attributes a).

Fixpoint add_parts (b : gptBuilder) (l : list part_args) : res gptBuilder :=
  match l with
  | [] => Ok b
  | a :: l => let! b := add_part b a in add_parts b l
  end.

(** The sectors of an accepted partition, also where [CeilDiv] overflows. *)
Lemma accepted_sectors size start :
  0 < size <= MaxInt64 -> 34 <= start <= MaxInt64 ->
  let sectors := fs_CeilDiv size 512 in let end_ := i64 (i64 (start + sectors) - 1) in
  start <= end_ -> size <= (end_ - start + 1) * 512 /\ (end_ - start) * 512 < size.
Proof.
  intros Hs Hst sectors end_ He. unfold MaxInt64 in *. subst sectors end_. unfold fs_CeilDiv in *.
  destruct (Z.leb_spec size 0); [lia|].
  destruct (Z.le_gt_cases (i64 (i64 (size + 512) - 1)) 0) as [Hneg|Hpos].
  - exfalso. assert (Hq : - 36028797018963968 <= Z.quot (i64 (i64 (size + 512) - 1)) 512 <= 0).
    { split; [|rewrite <- (Z.quot_0_l 512) by lia; apply Z.quot_le_mono; lia].
      replace (-36028797018963968) with (Z.quot (-18446744073709551616) 512) by reflexivity. apply Z.quot_le_mono; [lia|]. unfold i64. lia. }
    set (q := Z.quot _ _) in *. clearbody q. unfold i64 in He. lia.
  - rewrite Z.quot_div_nonneg in * by lia. set (m := i64 (i64 (size + 512) - 1)) in *.
    assert (Hm : m = size + 511) by (unfold m, i64 in *; lia). rewrite Hm in *. clear Hm.
    assert (Ee : i64 (i64 (start + (size + 511) / 512) - 1) = start + (size + 511) / 512 - 1) by (unfold i64 in *; lia).
    rewrite Ee in *. lia.
Qed.

Lemma fs_Align_small v : 0 < v < 2 ^ 62 -> fs_Align v 2048 <= v + 2047 /\ v <= fs_Align v 2048.
Proof.
  intros Hv. unfold fs_Align, fs_CeilDiv. destruct (Z.leb_spec v 0); [lia|].
  rewrite (i64_id (v + 2048)), (i64_id (v + 2048 - 1)) by (unfold MaxInt64; lia).
  rewrite Z.quot_div_nonneg by lia. rewrite i64_id by (unfold MaxInt64; lia). lia.
Qed.

Lemma default_start_bound size ps :
  size <= MaxInt64 -> Forall (part_ok size) ps -> 2048 <= default_start ps <= MaxInt64.
Proof.
  intros Hmax Hps. unfold default_start, gptDefaultStartLBA, MaxInt64 in *.
  assert (Hgen : forall s, 2048 <= s <= 2 ^ 62 -> 2048 <= foldl (fun start existing =>
    if start <? fs_Align (gp_endLBA existing + 1) 2048 then fs_Align (gp_endLBA existing + 1) 2048 else start) s ps <= 2 ^ 62).
  { induction Hps as [|p ps Hp _ IH]; intros s Hs; simpl; [done|]. apply IH. pose proof (po_range _ _ Hp).
    pose proof (fs_Align_small (gp_endLBA p + 1) ltac:(lia)). destruct (Z.ltb_spec s (fs_Align (gp_endLBA p + 1) 2048)); lia. }
  specialize (Hgen 2048 ltac:(lia)). simpl in *. lia.
Qed.

(** An accepted partition is recorded as it was given. *)
Lemma add_part_spec b a b' :
  builder_ok b -> args_ok a -> add_part b a = Ok b' ->
  builder_ok b' /\ gb_size b' = gb_size b /\ gb_diskGUID b' = gb_diskGUID b /\
  exists p, gb_partitions b' = gb_partitions b ++ [p] /\ gp_file p = pa_file a /\ gp_typeGUID p = pa_type a /\
    gp_uniqueGUID p = pa_unique a /\ gp_name p = pa_name a /\ gp_attributes p = pa_attributes a /\
    (pa_start a <> 0 -> gp_startLBA p = pa_start a).
Proof.
  intros [Hsize Hguid Hcount Hparts Hapart] (A1 & A2 & A3 & A4 & A5 & A6 & A7 & A8 & A9). unfold add_part, withPartition.
  destruct (Z.leb_spec (rd_Size (fl_reader (pa_file a))) 0); [done|].
  destruct (Z.ltb_spec 36 (zlen (utf16_Encode (pa_name a)))); [done|].
  destruct (Z.leb_spec gptEntryCount (zlen (gb_partitions b))) as [|Hcnt]; [done|].
  destruct (existsb _ _); [done|]. set (start := if pa_start a =? 0 then _ else _).
  set (end_ := i64 (i64 (start + _) - 1)). change gptFirstUsableLBA with 34. change gptEntryCount with 128 in Hcnt. change gptSectorSize with 512 in *.
  destruct (Z.ltb_spec start 34), (Z.ltb_spec (gb_size b / 512 - 34) end_), (Z.ltb_spec end_ start); try done. cbn [orb].
  destruct (existsb _ _) eqn:Eov; [done|]. intros [= <-].
  assert (Hst : start <= MaxInt64).
  { unfold start. destruct (Z.eqb_spec (pa_start a) 0); [|done]. apply (default_start_bound (gb_size b)); [lia|done]. }
  pose proof (accepted_sectors (rd_Size (fl_reader (pa_file a))) start ltac:(lia) ltac:(lia) ltac:(done)) as Hsec.
  set (p := MkGptPartition _ _ _ _ _ _ _).
  assert (Hp : part_ok (gb_size b) p) by (split; simpl; [done|done|lia|unfold gp_Size; simpl; lia|done|done]).
  assert (Hnew : forall q, q ∈ gb_partitions b -> apart_parts q p).
  { intros q Hq. unfold apart_parts; simpl. destruct (decide (start <= gp_endLBA q /\ gp_startLBA q <= end_)) as [[]|]; [|lia].
    exfalso. apply not_true_iff_false in Eov. apply Eov, existsb_exists. exists q. split; [by apply list_elem_of_In|].
    apply andb_true_iff. rewrite !Z.leb_le. done. }
  split; [|split; [done|split; [done|]]].
  - split; simpl; [done|done|rewrite zlen_app; change (zlen [p]) with 1; lia|by apply Forall_app; split; [|by constructor]|].
    intros i j q r Hq Hr Hne. rewrite !lookup_app in Hq, Hr.
    destruct (gb_partitions b !! i) eqn:Ei, (gb_partitions b !! j) eqn:Ej; simplify_eq.
    + by eapply Hapart.
    + apply list_lookup_singleton_Some in Hr as [_ <-]. apply Hnew. by eapply list_elem_of_lookup_2.
    + apply list_lookup_singleton_Some in Hq as [_ <-]. apply list_elem_of_lookup_2, Hnew in Ej. unfold apart_parts in *. tauto.
    + apply list_lookup_singleton_Some in Hq as [Hi _], Hr as [Hj _]. apply lookup_ge_None in Ei, Ej. lia.
  - exists p. split_and!; try done. intros Hz. simpl. unfold start. by destruct (Z.eqb_spec (pa_start a) 0).
Qed.

(** The recorded partition is the one asked for. *)
Definition part_matches (a : part_args) (p : gptPartition) : Prop :=
  gp_file p = pa_file a /\ gp_typeGUID p = pa_type a /\ gp_uniqueGUID p = pa_unique a /\ gp_name p = pa_name a /\
  gp_attributes p = pa_attributes a /\ (pa_start a <> 0 -> gp_startLBA p = pa_start a).

Lemma add_parts_spec b l b' :
  builder_ok b -> Forall args_ok l -> add_parts b l = Ok b' ->
  builder_ok b' /\ gb_size b' = gb_size b /\ gb_diskGUID b' = gb_diskGUID b /\
  exists ps, gb_partitions b' = gb_partitions b ++ ps /\ Forall2 part_matches l ps.
Proof.
  intros Hb Hl. revert b Hb. induction Hl as [|a l Ha _ IH]; intros b Hb; cbn [add_parts].
  { intros [= <-]. split_and!; try done. exists []. by rewrite app_nil_r. }
  destruct (add_part b a) as [b1|err] eqn:E1; [|done]. cbn [res_bind]. intros Hrest.
  destruct (add_part_spec _ _ _ Hb Ha E1) as (Hb1 & Hs1 & Hg1 & p & Hp & Hm).
  destruct (IH b1 Hb1 Hrest) as (Hb' & Hs' & Hg' & ps & Hps & Hall).
  split_and!; [done|congruence|congruence|]. exists (p :: ps). rewrite Hps, Hp, <- app_assoc. split; [done|]. constructor; [|done]. exact Hm.
Qed.

Lemma newGPTBuilder_ok size guid b :
  newGPTBuilder size guid = Ok b -> size <= MaxInt64 -> zlen guid = 16 -> bytes_ok guid ->
  builder_ok b /\ gb_size b = size /\ gb_diskGUID b = guid /\ gb_partitions b = [].
Proof.
  unfold newGPTBuilder. destruct (Z.ltb_spec size 2097152), (Z.eqb_spec (size mod gptSectorSize) 0); simpl; try done.
  destruct (ZeroGUID guid) eqn:Eg; [done|]. intros [= <-] Hmax Hl Hok. split; [|done].
  split; simpl; [split; [lia|done]|done|done|constructor|]. intros i j p q Hp. by rewrite lookup_nil in Hp.
Qed.

(** ** Slices are files *)

Lemma ReaderOK_ext r f g : (forall i, 0 <= i < rd_Size r -> f i = g i) -> ReaderOK r f -> ReaderOK r g.
Proof.
  intros He [H1 H2 H3]. split; [done| |].
  - intros n off Ho Hn Hs. destruct (H2 n off Ho Hn Hs) as (e & -> & Hd). exists e. split; [|done]. f_equal.
    apply range_ext. intros i Hi. apply He. lia.
  - intros n off Ho Hn Hs. rewrite H3 by done. f_equal. apply range_ext. intros i Hi. apply He. lia.
Qed.

Lemma Slice_reader_ok base f offset length :
  ReaderOK base f -> 0 <= offset -> 0 < length -> offset + length <= rd_Size base ->
  ReaderOK (Slice_reader base offset length) (fun w => f (offset + w)).
Proof.
  intros Hb Ho Hl He. pose proof (rd_size_ok (r := base)) as Hsz. split; simpl; [lia| |].
  - intros n off H1 H2 H3. unfold Slice_ReadAt. destruct (Z.ltb_spec off 0); [lia|]. destruct (Z.leb_spec length off); cbn [orb].
    { exists (Some EOF). rewrite range_nil by lia. split; [done|]. right. split; [done|lia]. }
    destruct (Z.ltb_spec (length - off) n); [lia|]. destruct (rd_full n (offset + off)) as (e & -> & Hd); [lia..|].
    assert (Hr : range f (offset + off) n = range (fun w => f (offset + w)) off n) by (apply range_shift; intros i Hi; f_equal; lia).
    rewrite Hr, zlen_range by lia. destruct e as [e|].
    + destruct Hd as [|[[= ->] Hend]]; [done|]. eexists. split; [done|]. right. split; [done|lia].
    + rewrite Z.ltb_irrefl. eexists. split; [done|]. by left.
  - intros n off H1 H2 H3. unfold Slice_ReadAt. destruct (Z.ltb_spec off 0); [lia|]. destruct (Z.leb_spec length off); cbn [orb].
    { by rewrite range_nil by lia. }
    destruct (Z.ltb_spec (length - off) n); [|lia]. destruct (rd_full (length - off) (offset + off)) as (e & -> & Hd); [lia..|].
    rewrite Z.max_r by lia. rewrite zlen_range by lia. f_equal; [apply range_shift; intros i Hi; f_equal; lia|].
    destruct e as [e|]; [by destruct Hd as [|[-> _]]|]. by destruct (Z.ltb_spec (length - off) n); [|lia].
Qed.

Lemma ReadBytesAt_ok file f offset size :
  ReaderOK file f -> 0 <= offset -> 0 <= size -> offset + size <= rd_Size file -> ReadBytesAt file offset size = Ok (range f offset size).
Proof.
  intros Hf Ho Hs He. unfold ReadBytesAt.
  destruct (Z.ltb_spec offset 0), (Z.ltb_spec size 0), (Z.ltb_spec (rd_Size file) offset), (Z.ltb_spec (rd_Size file - offset) size); cbn [orb]; try lia.
  by apply section_ReadFull_ok.
Qed.

(** ** The image *)

Lemma Forall2_Forall_transfer {A B} (R : A -> B -> Prop) (P : A -> Prop) (Q : B -> Prop) l k :
  Forall2 R l k -> Forall P l -> (forall a b, R a b -> P a -> Q b) -> Forall Q k.
Proof. intros HR HP H. revert HP. induction HR; intros HP; [constructor|]. apply Forall_cons in HP as [? ?]. constructor; eauto. Qed.

Lemma filter_id {A} (P : A -> Prop) `{forall x, Decision (P x)} l : Forall P l -> filter P l = l.
Proof. induction 1 as [|x l Hx _ IH]; [done|]. by rewrite filter_cons_True, IH. Qed.

Section Built.
Context (b : gptBuilder).
Hypothesis Hb : builder_ok b.

Let total := gb_size b / 512.
Let entries := fill_entries (zeros 16384) 0 (gpt_sorted b).
Let crc := crc32_ChecksumIEEE entries.
Let primary := gpt_header b 1 (total - 1) 2 crc.
Let backup := gpt_header b (total - 1) 1 (total - 33) crc.

Definition data_extent (start : Z) (data : bytes) : imageExtent := MkImageExtent start (zlen data) (Some data) None 0.
Definition part_extent (p : gptPartition) : imageExtent := MkImageExtent (gp_startLBA p * 512) (gp_Size p) None (Some (gp_file p)) 0.

Lemma sorted_parts : Forall (part_ok (gb_size b)) (gpt_sorted b) /\ zlen (gpt_sorted b) <= 128.
Proof. unfold gpt_sorted. rewrite zlen_sort_by. split; [|apply Hb]. rewrite sort_by_perm. apply Hb. Qed.

Lemma entries_len : zlen entries = 16384.
Proof. destruct sorted_parts as [Hp Hl]. unfold entries. rewrite (zlen_fill_entries (gb_size b)); rewrite ?zlen_zeros; try done; lia. Qed.

Lemma header_len c k e x : zlen (gpt_header b c k e x) = 512.
Proof. destruct Hb as [_ (Hg & Hok & _) _ _ _]. by apply header_copy. Qed.

Lemma mbr_len n : zlen (protectiveMBR n) = 512.
Proof.
  unfold protectiveMBR, put, gptSectorSize. cbv zeta.
  repeat (rewrite zlen_splice; rewrite ?zlen_le_bytes, ?zlen_zeros, ?zlen_cons, ?zlen_nil by lia; try lia).
Qed.

Definition built_image : generatedImageFile :=
  MkImage (gb_size b)
    ([data_extent 0 (protectiveMBR total); data_extent 512 primary; data_extent 1024 entries;
      data_extent ((total - 33) * 512) entries; data_extent ((total - 1) * 512) backup] ++ (part_extent <$> gpt_sorted b)).

Lemma gpt_build_image : gb_partitions b <> [] -> gpt_build b = Ok built_image.
Proof.
  intros Hne. unfold gpt_build. destruct (gb_partitions b) as [|p0 ps0] eqn:Ep; [done|].
  change gptEntryArrayBytes with 16384. change gptSectorSize with 512. change gptEntryArrayLBAs with 32.
  fold total entries. cbv zeta. fold crc. unfold NewGeneratedImage, built_image, data_extent.
  rewrite fmap_app, <- list_fmap_compose. replace (total - 1 - 32) with (total - 33) by lia. fold primary backup.
  cbn [fmap list_fmap]. unfold primary, backup. rewrite mbr_len, !header_len. reflexivity.
Qed.

Lemma total_bound : 4096 <= total /\ total * 512 = gb_size b.
Proof. destruct Hb as [(Hs & Hm) _ _ _ _]. unfold total. lia. Qed.

Lemma fixed_lens : zlen (protectiveMBR total) = 512 /\ zlen primary = 512 /\ zlen entries = 16384 /\ zlen backup = 512.
Proof. split_and!; [apply mbr_len|apply header_len|apply entries_len|apply header_len]. Qed.

(** The extents of the metadata, which leave sectors 34 to [total - 34]. *)
Lemma fixed_extents x :
  x ∈ [data_extent 0 (protectiveMBR total); data_extent 512 primary; data_extent 1024 entries;
       data_extent ((total - 33) * 512) entries; data_extent ((total - 1) * 512) backup] ->
  0 <= ie_start x /\ 0 < ie_size x /\ ie_end x <= gb_size b /\ (ie_end x <= 34 * 512 \/ (total - 33) * 512 <= ie_start x) /\
  ie_file x = None /\ exists d, ie_data x = Some d /\ ie_size x = zlen d.
Proof.
  destruct fixed_lens as (L1 & L2 & L3 & L4). destruct total_bound as [Ht Hs]. rewrite !elem_of_cons, elem_of_nil.
  intros [-> |[-> |[-> |[-> |[-> |[]]]]]]; unfold ie_end; cbn [data_extent ie_start ie_size ie_file ie_data];
    rewrite ?L1, ?L2, ?L3, ?L4; (split_and!; [lia..|done|eexists; split; [done|congruence]]).
Qed.

Lemma part_in_range p : p ∈ gpt_sorted b ->
  part_ok (gb_size b) p /\ 34 * 512 <= ie_start (part_extent p) /\ 0 < ie_size (part_extent p) /\
  ie_end (part_extent p) <= (gp_endLBA p + 1) * 512 /\ (gp_endLBA p + 1) * 512 <= (total - 33) * 512.
Proof.
  intros Hp. destruct sorted_parts as [Hps _]. rewrite Forall_forall in Hps. specialize (Hps _ Hp). split; [done|].
  destruct Hps as [_ _ Hr Hz _ _]. unfold ie_end; simpl. fold total in Hr. lia.
Qed.

Lemma sorted_apart i j p q : gpt_sorted b !! i = Some p -> gpt_sorted b !! j = Some q -> i <> j -> apart_parts p q.
Proof.
  intros Hp Hq Hij. assert (Hperm : gpt_sorted b ≡ₚ gb_partitions b) by apply sort_by_perm.
  apply Permutation_inj in Hperm as (_ & f & Hf & Hlk). rewrite Hlk in Hp, Hq.
  apply (bo_apart _ Hb (f i) (f j)); [done|done|]. intros He. by apply Hf in He.
Qed.

Lemma built_extents_ok : image_extents_ok built_image.
Proof.
  destruct total_bound as [Ht Hs]. assert (Hall : forall x, x ∈ gi_extents built_image -> extent_valid (gb_size b) x).
  { intros x Hx. cbn [built_image gi_extents] in Hx. apply elem_of_app in Hx as [Hx|Hx].
    - destruct (fixed_extents x Hx) as (H1 & H2 & H3 & _ & Hf & d & Hd & Hz). unfold extent_valid. rewrite Hf, Hd. lia.
    - apply list_elem_of_fmap in Hx as (p & -> & Hp). destruct (part_in_range p Hp) as (_ & H1 & H2 & H3 & H4).
      unfold extent_valid. simpl in *. lia. }
  split; [simpl; lia|]. split; [apply Forall_forall; intros x Hx _; by apply Hall|].
  assert (Hfilter : filter (fun x => ie_size x <> 0) (gi_extents built_image) = gi_extents built_image).
  { apply filter_id, Forall_forall. intros x Hx. apply Hall in Hx. unfold extent_valid in Hx. lia. }
  rewrite Hfilter. unfold built_image. cbn [gi_extents]. destruct fixed_lens as (L1 & L2 & L3 & L4).
  apply disjoint_app.
  - apply extents_disjoint. repeat constructor; unfold before, ie_end; cbn [data_extent ie_start ie_size]; rewrite ?L1, ?L2, ?L3, ?L4; lia.
  - intros i j x y Hx Hy Hij. rewrite list_lookup_fmap in Hx, Hy.
    destruct (gpt_sorted b !! i) as [p|] eqn:Ep, (gpt_sorted b !! j) as [q|] eqn:Eq; simplify_eq/=.
    pose proof (sorted_apart i j p q Ep Eq Hij) as Ha.
    destruct (part_in_range p) as (_ & P1 & P2 & P3 & _); [by eapply list_elem_of_lookup_2|].
    destruct (part_in_range q) as (_ & Q1 & Q2 & Q3 & _); [by eapply list_elem_of_lookup_2|].
    unfold apart_parts, before in *. simpl in *. lia.
  - intros x y Hx Hy. destruct (fixed_extents x Hx) as (_ & _ & _ & H4 & _).
    apply list_elem_of_fmap in Hy as (p & -> & Hp). destruct (part_in_range p Hp) as (_ & H1 & H2 & H3 & H5). unfold before. lia.
Qed.

Context (content : image_file -> Z -> byte).
Hypothesis Hcontent : Forall (fun p => ReaderOK (fl_reader (gp_file p)) (content (gp_file p))) (gb_partitions b).

Lemma built_files_ok : files_ok content (gi_extents built_image).
Proof.
  apply Forall_forall. intros x Hx. cbn [built_image gi_extents] in Hx. apply elem_of_app in Hx as [Hx|Hx].
  - destruct (fixed_extents x Hx) as (_ & _ & _ & _ & -> & _). done.
  - apply list_elem_of_fmap in Hx as (p & -> & Hp). cbn [part_extent ie_file ie_off ie_size]. split; [|unfold gp_Size; lia].
    rewrite Forall_forall in Hcontent. apply Hcontent. by rewrite <- (sort_by_perm gp_startLBA (gb_partitions b)).
Qed.

(** The image reads as its metadata and its partitions. *)
Lemma built_reader : exists view, ReaderOK (image_reader built_image) view /\
  range view 512 512 = primary /\ range view 1024 16384 = entries /\
  forall p, p ∈ gpt_sorted b -> forall w, 0 <= w < (gp_endLBA p - gp_startLBA p + 1) * 512 ->
    view (gp_startLBA p * 512 + w) = if decide (w < gp_Size p) then content (gp_file p) w else 0.
Proof.
  pose proof (ensureIndexed_spec built_image) as Hix. destruct (ensureIndexed built_image) as [xs|e] eqn:Ex;
    [|by destruct (proj1 Hix built_extents_ok)]. destruct Hix as [_ Hi].
  destruct fixed_lens as (L1 & L2 & L3 & L4). exists (image_view content xs). split_and!.
  - apply image_reader_ok; [done|apply built_files_ok|]. destruct Hb as [(Hs & _) _ _ _ _]. simpl. lia.
  - rewrite <- (range_nthb primary), L2. apply range_shift. intros i Hr.
    rewrite (indexed_view content built_image xs (data_extent 512 primary)); [|done|set_solver|unfold covering, ie_end; simpl; lia].
    unfold extent_byte; simpl. f_equal. lia.
  - rewrite <- (range_nthb entries), L3. apply range_shift. intros i Hr.
    rewrite (indexed_view content built_image xs (data_extent 1024 entries)); [|done|set_solver|unfold covering, ie_end; simpl; lia].
    unfold extent_byte; simpl. f_equal. lia.
  - intros p Hp w Hw. destruct (part_in_range p Hp) as (Hpok & P1 & P2 & P3 & P4). simpl in P1, P2.
    assert (Hin : part_extent p ∈ gi_extents built_image).
    { cbn [built_image gi_extents]. apply elem_of_app. right. by apply list_elem_of_fmap_2. }
    case_decide as Hw2.
    + rewrite (indexed_view content built_image xs (part_extent p)); [|done|done|unfold covering, ie_end; simpl; lia].
      unfold extent_byte; simpl. f_equal. lia.
    + apply (indexed_view_gap content built_image); [done|]. intros x Hx [Hc1 Hc2]. cbn [built_image gi_extents] in Hx.
      apply elem_of_app in Hx as [Hx|Hx]; [destruct (fixed_extents x Hx) as (_ & _ & _ & H4 & _); lia|].
      apply list_elem_of_fmap in Hx as (q & -> & Hq). apply list_elem_of_lookup in Hp as [i Hpi], Hq as [j Hqj].
      destruct (decide (i = j)) as [->|Hij]; [simplify_eq; unfold ie_end in Hc2; simpl in Hc2; lia|].
      pose proof (sorted_apart i j p q Hpi Hqj Hij) as Ha.
      destruct (part_in_range q) as (_ & Q1 & _ & Q3 & _); [by eapply list_elem_of_lookup_2|]. unfold apart_parts in Ha. simpl in *. lia.
Qed.

Lemma sector_header file : rd_Size file = gb_size b -> check_header file primary = None.
Proof.
  intros Hs. destruct Hb as [(Hsize & Hm) (Hg & Hok & Hz) _ _ _]. destruct total_bound as [Ht Htot]. unfold MaxInt64 in Hsize.
  destruct (header_copy b 1 (total - 1) 2 crc Hg Hok) as [Hcopy Hl]. fold primary in Hcopy, Hl.
  assert (Hcrc : 0 <= crc < 2 ^ 32).
  { unfold crc. apply crc32_range. unfold entries. destruct sorted_parts as [Hp _]. by eapply fill_entries_ok; [|apply zeros_bytes_ok]. }
  destruct (gpt_header_fields b 1 (total - 1) 2 crc Hg Hok) as (F1 & F2 & F3 & F4 & F5 & F6 & F7 & F8 & F9 & F10); [lia..|].
  fold primary in F1, F2, F3, F4, F5, F6, F7, F8, F9, F10. unfold check_header. rewrite F1, F2, F3, F4, F5, F7, F8, F10, Hl, Hcopy, Hz, Hs.
  rewrite bool_decide_eq_true_2, Z.eqb_refl by done. change gptSectorSize with 512. fold total. cbn [negb].
  destruct (Z.leb_spec total (total - 1)); [lia|]. reflexivity.
Qed.

(** Reading the table of the built image. *)
Lemma built_volume : Forall name_ok (gb_partitions b) ->
  let r := image_reader built_image in
  newGPTVolume r = Ok (MkVolume (gb_diskGUID b) (imap (read_back r) (gpt_sorted b))).
Proof.
  intros Hn r. destruct built_reader as (view & Hr & Hprim & Hent & _). fold r in Hr. destruct total_bound as [Ht Htot].
  pose proof Hb as [(Hsize & Hm) (Hg & Hok & _) _ _ _]. unfold MaxInt64 in Hsize.
  assert (Hs : rd_Size r = gb_size b) by done. destruct sorted_parts as [Hps Hcount].
  assert (Hcrc : 0 <= crc < 2 ^ 32) by (apply crc32_range; by eapply fill_entries_ok; [|apply zeros_bytes_ok]).
  destruct (gpt_header_fields b 1 (total - 1) 2 crc Hg Hok) as (F1 & F2 & F3 & F4 & F5 & F6 & F7 & F8 & F9 & F10); [lia..|].
  fold primary in F5, F6, F7, F8, F9. unfold newGPTVolume. rewrite Hs. change gptSectorSize with 512.
  destruct (Z.ltb_spec (gb_size b) (3 * 512)); [lia|]. rewrite (ReadBytesAt_ok r view) by (done || rewrite ?Hs; lia). rewrite Hprim.
  rewrite sector_header, F5, F6, F7, F8, F9 by done. change (i64 (i64 2 * 512)) with 1024. change (128 * 128) with 16384.
  rewrite (ReadBytesAt_ok r view) by (done || rewrite ?Hs; lia). rewrite Hent. fold crc. rewrite Z.eqb_refl. cbn [negb].
  change (Z.to_nat 128) with 128%nat.
  assert (Hre : read_entries 128 r entries 128 0 = Ok (imap (read_back r) (gpt_sorted b))); [|by rewrite Hre].
  apply (read_entries_back (gb_size b) r entries (gpt_sorted b) 128 0).
  - done.
  - unfold gpt_sorted. by rewrite sort_by_perm.
  - unfold MaxInt64. lia.
  - done.
  - intros j Hj. unfold entries. rewrite (fill_entries_slot (gb_size b)) by (rewrite ?zlen_zeros; done || lia).
    destruct (Z.leb_spec 0 (Z.of_nat j)); [|lia]. rewrite Z.sub_0_r, Nat2Z.id. destruct (gpt_sorted b !! j); [done|]. apply slice_zeros; lia.
  - unfold zlen in Hcount. lia.
Qed.
End Built.


(** A disk of 8 MiB with a partition at the default place and one before it
    whose name needs a surrogate pair. *)
Definition demo_guid (k : Z) : bytes := k :: zeros 15.
Definition demo_part (data : bytes) (k start : Z) (name : list Z) : part_args :=
  MkArgs (MkFile (bytes_reader data) None) (demo_guid k) (demo_guid (k + 1)) name start 5.
Definition demo_parts : list part_args := [demo_part (replicate 600 7) 1 0 [97; 98]; demo_part [1; 2; 3] 3 40 [233; 128512]].

