(* ===== verification/BitStream.v ===== *)
(** Bit streams as lists of booleans: fields stored from their least
    significant bit, as DEFLATE reads them, and codes sent from their most
    significant bit; prefix codes built canonically from code lengths.

    The lemmas of this file are shared by the Huffman decoders. *)

From S2P Require Import Prelude GoLib.
From stdpp Require Import base numbers list gmap sorting strings.

Open Scope Z_scope.
Open Scope trex_scope.

#[local] Ltac Zify.zify_post_hook ::= Z.to_euclidean_division_equations.

(** ** Fields *)

(** The [n] low bits of [v], least significant first. *)
Fixpoint bits_of (n : nat) (v : Z) : list bool :=
  match n with
  | O => []
  | S n => Z.odd v :: bits_of n (v / 2)
  end.

(** The value of a field, least significant bit first. *)
Fixpoint bval (l : list bool) : Z :=
  match l with
  | [] => 0
  | b :: l => Z.b2z b + 2 * bval l
  end.

(** The value of a code, most significant bit first. *)
Definition mval (l : list bool) : Z := bval (reverse l).

(** The bits of a code of [n] bits, most significant first. *)
Definition msb_bits (n : nat) (v : Z) : list bool := reverse (bits_of n v).

(** The bits of a sequence of bytes, each from its least significant bit. *)
Definition bytes_bits (l : bytes) : list bool := l ≫= bits_of 8.

Lemma length_bits_of n v : length (bits_of n v) = n.
Proof. revert v. induction n as [|n IH]; intros v; simpl; [done|]. by rewrite IH. Qed.

Lemma length_msb_bits n v : length (msb_bits n v) = n.
Proof. unfold msb_bits. by rewrite length_reverse, length_bits_of. Qed.

Lemma pow2_succ (n : nat) : 2 ^ Z.of_nat (S n) = 2 * 2 ^ Z.of_nat n.
Proof. rewrite Nat2Z.inj_succ, Z.pow_succ_r by lia. done. Qed.

Lemma pow2_pos (n : nat) : 0 < 2 ^ Z.of_nat n.
Proof. apply Z.pow_pos_nonneg; lia. Qed.

Lemma odd_mod v : Z.b2z (Z.odd v) = v mod 2.
Proof. rewrite Zmod_odd. by destruct (Z.odd v). Qed.

Lemma bval_bits_of n v : bval (bits_of n v) = v mod 2 ^ Z.of_nat n.
Proof.
  revert v. induction n as [|n IH]; intros v; [simpl; by rewrite Z.mod_1_r|].
  simpl bval. rewrite IH, odd_mod, pow2_succ, Z.rem_mul_r; pose proof (pow2_pos n); lia.
Qed.

Lemma bval_bound l : 0 <= bval l < 2 ^ Z.of_nat (length l).
Proof.
  induction l as [|b l IH]; [done|]. simpl bval. simpl length. rewrite pow2_succ. destruct b; simpl; lia.
Qed.

Lemma bits_of_bval l n : n = length l -> bits_of n (bval l) = l.
Proof.
  intros ->. induction l as [|b l IH]; [done|]. simpl. f_equal.
  - rewrite Z.odd_add_mul_2. by destruct b.
  - replace ((Z.b2z b + 2 * bval l) / 2) with (bval l) by (destruct b; simpl; lia). done.
Qed.

Lemma bval_field n v : 0 <= v < 2 ^ Z.of_nat n -> bval (bits_of n v) = v.
Proof. intros. rewrite bval_bits_of. by apply Z.mod_small. Qed.

Lemma bits_of_app n m v : bits_of (n + m) v = bits_of n v ++ bits_of m (v / 2 ^ Z.of_nat n).
Proof.
  revert v. induction n as [|n IH]; intros v; simpl bits_of.
  { by rewrite Z.div_1_r. }
  rewrite IH, Z.div_div, pow2_succ by (pose proof (pow2_pos n); lia). done.
Qed.

(** Reading off the low bits leaves the high ones. *)
Lemma bits_of_split n m v :
  (n <= m)%nat -> bits_of m v = bits_of n v ++ bits_of (m - n) (v / 2 ^ Z.of_nat n).
Proof. intros H. rewrite <- bits_of_app. f_equal. lia. Qed.

Lemma bval_app l k : bval (l ++ k) = bval l + 2 ^ Z.of_nat (length l) * bval k.
Proof.
  induction l as [|b l IH]; [simpl; lia|].
  simpl app. simpl bval. simpl length. rewrite IH, pow2_succ. lia.
Qed.

(** Appending one more byte above the bits already held. *)
Lemma bits_of_or (k n : nat) b v :
  0 <= b < 2 ^ Z.of_nat k -> bits_of (k + n) (b + v * 2 ^ Z.of_nat k) = bits_of k b ++ bits_of n v.
Proof.
  intros Hb. pose proof (pow2_pos k).
  assert (Hd : (b + v * 2 ^ Z.of_nat k) / 2 ^ Z.of_nat k = v).
  { rewrite Z.div_add, Z.div_small by lia. lia. }
  rewrite bits_of_app, Hd. f_equal. rewrite <- (bits_of_bval (bits_of k (b + v * 2 ^ Z.of_nat k)) k),
    <- (bits_of_bval (bits_of k b) k) by (by rewrite length_bits_of).
  f_equal. rewrite !bval_bits_of. by rewrite Z.mod_add by lia.
Qed.

Lemma mval_nil : mval [] = 0.
Proof. done. Qed.

(** One more bit of a code. *)
Lemma mval_snoc l b : mval (l ++ [b]) = 2 * mval l + Z.b2z b.
Proof. unfold mval. rewrite reverse_snoc. simpl. lia. Qed.

Lemma mval_msb_bits n v : mval (msb_bits n v) = v mod 2 ^ Z.of_nat n.
Proof. unfold mval, msb_bits. by rewrite reverse_involutive, bval_bits_of. Qed.

Lemma msb_bits_mval l n : n = length l -> msb_bits n (mval l) = l.
Proof.
  intros ->. unfold msb_bits, mval. rewrite bits_of_bval by (by rewrite length_reverse).
  apply reverse_involutive.
Qed.

Lemma mval_bound l : 0 <= mval l < 2 ^ Z.of_nat (length l).
Proof. unfold mval. rewrite <- length_reverse. apply bval_bound. Qed.

(** A prefix of a code is the code without its low bits. *)
Lemma mval_prefix l k : mval l = mval (l ++ k) / 2 ^ Z.of_nat (length k).
Proof.
  unfold mval. rewrite reverse_app, bval_app, length_reverse.
  pose proof (bval_bound (reverse k)) as Hb. rewrite length_reverse in Hb.
  rewrite Z.mul_comm, Z.div_add, Z.div_small by lia. lia.
Qed.

Lemma bytes_bits_cons b l : bytes_bits (b :: l) = bits_of 8 b ++ bytes_bits l.
Proof. done. Qed.

Lemma bytes_bits_app l k : bytes_bits (l ++ k) = bytes_bits l ++ bytes_bits k.
Proof. apply bind_app. Qed.

Lemma length_bytes_bits l : length (bytes_bits l) = (8 * length l)%nat.
Proof.
  induction l as [|b l IH]; [done|]. rewrite bytes_bits_cons, length_app, length_bits_of, IH. simpl. lia.
Qed.

Lemma bytes_bits_drop (l : bytes) n : bytes_bits (drop n l) = drop (8 * n) (bytes_bits l).
Proof.
  revert l. induction n as [|n IH]; intros l; [done|]. destruct l as [|b l].
  { by rewrite !drop_nil. }
  rewrite skipn_cons, IH, bytes_bits_cons, drop_app_ge by (rewrite length_bits_of; lia).
  f_equal. rewrite length_bits_of. lia.
Qed.

(** ** Canonical prefix codes

    A code is given by the list of code lengths of its symbols, 0 for a
    symbol that has none.  Codes of one length are consecutive and in the
    order of the symbols; the first code of a length follows the last code of
    the length before it. *)

(** The number of symbols of code length [n]. *)
Definition code_count (lens : list Z) (n : nat) : Z :=
  zlen (filter (fun x => x = Z.of_nat n) lens).

(** The first code of [n] bits. *)
Fixpoint first_code (lens : list Z) (n : nat) : Z :=
  match n with
  | O => 0
  | S O => 0
  | S n => 2 * (first_code lens n + code_count lens n)
  end.

(** The length of the code of symbol [s], 0 if it has none. *)
Definition code_len (lens : list Z) (s : Z) : nat := Z.to_nat (nthb lens s).

(** The code of symbol [s]. *)
Definition code_of (lens : list Z) (s : Z) : Z :=
  first_code lens (code_len lens s) + code_count (take (Z.to_nat s) lens) (code_len lens s).

Definition code_bits (lens : list Z) (s : Z) : list bool := msb_bits (code_len lens s) (code_of lens s).

(** Symbol [s] has a code. *)
Definition has_code (lens : list Z) (s : Z) : Prop := 0 <= s < zlen lens /\ 0 < nthb lens s.

(** The share of the code space of [n] bits that codes of at most [n] bits
    take. *)
Definition code_end (lens : list Z) (n : nat) : Z := first_code lens n + code_count lens n.

(** Lengths of a prefix code of at most [m] bits: none longer, at least one
    symbol, and Kraft's inequality. *)
Definition kraft (m : nat) (lens : list Z) : Z :=
  foldr (fun l a => (if l =? 0 then 0 else 2 ^ (Z.of_nat m - l)) + a) 0 lens.

Record prefix_code (m : nat) (lens : list Z) : Prop := PrefixCode {
  pc_range : Forall (fun l => 0 <= l <= Z.of_nat m) lens;
  pc_some : Exists (fun l => l <> 0) lens;
  pc_kraft : kraft m lens <= 2 ^ Z.of_nat m
}.

Lemma code_count_cons l lens n :
  code_count (l :: lens) n = (if l =? Z.of_nat n then 1 else 0) + code_count lens n.
Proof.
  unfold code_count. rewrite filter_cons. case_decide as E.
  - rewrite (proj2 (Z.eqb_eq _ _)) by done. by rewrite zlen_cons.
  - by rewrite (proj2 (Z.eqb_neq _ _)) by done.
Qed.

Lemma code_count_nil n : code_count [] n = 0.
Proof. done. Qed.

Lemma code_count_app l k n : code_count (l ++ k) n = code_count l n + code_count k n.
Proof. unfold code_count. by rewrite filter_app, zlen_app. Qed.

Lemma code_count_nonneg lens n : 0 <= code_count lens n.
Proof. apply zlen_nonneg. Qed.

Lemma first_code_S lens n : (0 < n)%nat -> first_code lens (S n) = 2 * code_end lens n.
Proof. destruct n; [lia|]. done. Qed.

Lemma code_end_eq lens n : code_end lens n = first_code lens n + code_count lens n.
Proof. done. Qed.

Lemma code_end_S lens n : (0 < n)%nat -> code_end lens (S n) = 2 * code_end lens n + code_count lens (S n).
Proof. intros. unfold code_end at 1. by rewrite first_code_S. Qed.

(** Codes of [m] bits start after every shorter code extended to [m] bits. *)
Lemma code_end_grows lens n m :
  (0 < n <= m)%nat -> code_end lens n * 2 ^ Z.of_nat (m - n) <= code_end lens m.
Proof.
  intros [Hn Hm]. induction Hm as [|m Hm IH]; [rewrite Nat.sub_diag; lia|].
  rewrite Nat.sub_succ_l, pow2_succ, code_end_S by lia. pose proof (code_count_nonneg lens (S m)). lia.
Qed.

Lemma first_code_after lens n m :
  (0 < n < m)%nat -> code_end lens n * 2 ^ Z.of_nat (m - n) <= first_code lens m.
Proof.
  intros H. destruct m as [|m]; [lia|]. rewrite Nat.sub_succ_l, pow2_succ, first_code_S by lia.
  pose proof (code_end_grows lens n m). lia.
Qed.

(** The share taken by a list of lengths, up to length [n]. *)
Lemma code_end_cons l lens n :
  (0 < n)%nat -> 0 <= l ->
  code_end (l :: lens) n
  = (if (0 <? l) && (l <=? Z.of_nat n) then 2 ^ (Z.of_nat n - l) else 0) + code_end lens n.
Proof.
  intros Hn Hl. induction n as [|n IH]; [lia|]. destruct (decide (n = O)) as [->|Hn'].
  { unfold code_end. cbn [first_code]. rewrite code_count_cons.
    destruct (Z.eqb_spec l (Z.of_nat 1)), (Z.ltb_spec 0 l), (Z.leb_spec l (Z.of_nat 1)); simpl; try lia.
    subst. simpl. lia. }
  rewrite !code_end_S, code_count_cons, IH by lia.
  destruct (Z.eqb_spec l (Z.of_nat (S n))), (Z.ltb_spec 0 l), (Z.leb_spec l (Z.of_nat n)),
    (Z.leb_spec l (Z.of_nat (S n))); simpl; try lia.
  - replace (Z.of_nat (S n) - l) with 0 by lia. lia.
  - replace (Z.of_nat (S n) - l) with (1 + (Z.of_nat n - l)) by lia. rewrite Z.pow_add_r by lia. lia.
Qed.

Lemma code_end_kraft m lens :
  (0 < m)%nat -> Forall (fun l => 0 <= l <= Z.of_nat m) lens -> code_end lens m = kraft m lens.
Proof.
  intros Hm. induction 1 as [|l lens Hl Hlens IH].
  { induction m as [|m IH]; [lia|]. destruct (decide (m = O)) as [->|]; [done|].
    rewrite code_end_S, IH by lia. done. }
  rewrite code_end_cons, IH by lia. simpl.
  destruct (Z.eqb_spec l 0), (Z.ltb_spec 0 l), (Z.leb_spec l (Z.of_nat m)); simpl; lia.
Qed.

(** Under Kraft's inequality the codes of every length fit. *)
Lemma code_end_fits m lens n :
  prefix_code m lens -> (0 < n <= m)%nat -> code_end lens n <= 2 ^ Z.of_nat n.
Proof.
  intros [Hr _ Hk] Hn. rewrite <- code_end_kraft in Hk by (done || lia).
  pose proof (code_end_grows lens n m Hn) as Hg.
  replace (Z.of_nat m) with (Z.of_nat n + Z.of_nat (m - n)) in Hk by lia.
  rewrite Z.pow_add_r in Hk by lia. pose proof (pow2_pos (m - n)). nia.
Qed.

Lemma code_count_take lens s n :
  lens !! s = Some (Z.of_nat n) -> code_count (take s lens) n < code_count lens n.
Proof.
  revert s. induction lens as [|l lens IH]; intros [|s]; simpl; try done.
  - intros [= ->]. rewrite code_count_cons, Z.eqb_refl. rewrite ?take_0, ?code_count_nil.
    pose proof (code_count_nonneg lens n). lia.
  - intros H. rewrite !code_count_cons. specialize (IH _ H). lia.
Qed.

Lemma code_len_lookup lens s :
  0 <= s < zlen lens -> 0 <= nthb lens s -> lens !! Z.to_nat s = Some (Z.of_nat (code_len lens s)).
Proof. intros Hs Hl. unfold code_len. rewrite nthb_lookup, Z2Nat.id by done. done. Qed.

(** Where the code of a symbol lies. *)
Lemma code_of_range lens s :
  has_code lens s -> first_code lens (code_len lens s) <= code_of lens s < code_end lens (code_len lens s).
Proof.
  intros [Hs Hl]. pose proof (code_count_take lens (Z.to_nat s) (code_len lens s)) as Ht.
  specialize (Ht (code_len_lookup lens s ltac:(lia) ltac:(lia))).
  unfold code_of, code_end. pose proof (code_count_nonneg (take (Z.to_nat s) lens) (code_len lens s)). lia.
Qed.

Lemma code_len_bound m lens s :
  prefix_code m lens -> has_code lens s -> (0 < code_len lens s <= m)%nat.
Proof.
  intros [Hr _ _] [Hs Hl]. unfold code_len.
  assert (Hb := nthb_lookup lens s Hs). rewrite Forall_lookup in Hr. specialize (Hr _ _ Hb). simpl in Hr. lia.
Qed.

Lemma first_code_nonneg lens n : 0 <= first_code lens n.
Proof.
  induction n as [|n IH]; [done|]. destruct n as [|n]; [done|].
  rewrite first_code_S by lia. unfold code_end. pose proof (code_count_nonneg lens (S n)). lia.
Qed.

Lemma code_of_fits m lens s :
  prefix_code m lens -> has_code lens s -> 0 <= code_of lens s < 2 ^ Z.of_nat (code_len lens s).
Proof.
  intros Hp Hs. pose proof (code_of_range lens s Hs). pose proof (code_len_bound m lens s Hp Hs).
  pose proof (code_end_fits m lens (code_len lens s) Hp ltac:(lia)).
  pose proof (first_code_nonneg lens (code_len lens s)). lia.
Qed.

Lemma mval_code_bits m lens s :
  prefix_code m lens -> has_code lens s -> mval (code_bits lens s) = code_of lens s.
Proof.
  intros Hp Hs. unfold code_bits. rewrite mval_msb_bits. apply Z.mod_small. by eapply code_of_fits.
Qed.

Lemma length_code_bits lens s : length (code_bits lens s) = code_len lens s.
Proof. apply length_msb_bits. Qed.

(** A proper prefix of a code lies above every code of the prefix's length. *)
Lemma code_prefix_above m lens s p q :
  prefix_code m lens -> has_code lens s -> code_bits lens s = p ++ q -> p <> [] -> q <> [] ->
  code_end lens (length p) <= mval p.
Proof.
  intros Hp Hs E Hne Hq. rewrite (mval_prefix p q), <- E, (mval_code_bits m lens s) by done.
  pose proof (code_of_range lens s Hs) as Hr.
  assert (Hlen : code_len lens s = (length p + length q)%nat).
  { by rewrite <- length_code_bits, E, length_app. }
  pose proof (first_code_after lens (length p) (code_len lens s)) as Ha.
  destruct p as [|b p]; [done|]. destruct q as [|c q]; [done|]. cbn [length] in *.
  apply Z.div_le_lower_bound; [apply pow2_pos|].
  specialize (Ha ltac:(lia)). replace (code_len lens s - S (length p))%nat with (S (length q)) in Ha by lia. lia.
Qed.

(** Two symbols with the same code are the same. *)
Lemma code_count_inj lens n s t :
  lens !! s = Some (Z.of_nat n) -> lens !! t = Some (Z.of_nat n) ->
  code_count (take s lens) n = code_count (take t lens) n -> s = t.
Proof.
  revert s t. induction lens as [|l lens IH]; intros [|s] [|t]; simpl; try done.
  - intros [= ->] _. rewrite code_count_cons, Z.eqb_refl. rewrite ?take_0, ?code_count_nil.
    pose proof (code_count_nonneg (take t lens) n). lia.
  - intros _ [= ->]. rewrite code_count_cons, Z.eqb_refl. rewrite ?take_0, ?code_count_nil.
    pose proof (code_count_nonneg (take s lens) n). lia.
  - intros Hs Ht. rewrite !code_count_cons. intros E. f_equal. apply IH; [done..|lia].
Qed.

Lemma code_of_inj lens s t :
  has_code lens s -> has_code lens t -> code_len lens s = code_len lens t -> code_of lens s = code_of lens t ->
  s = t.
Proof.
  intros [Hs Hs'] [Ht Ht'] El Ec. unfold code_of in Ec. rewrite El in Ec.
  pose proof (code_count_inj lens (code_len lens t) (Z.to_nat s) (Z.to_nat t)) as H.
  rewrite <- El in H at 1. rewrite !code_len_lookup in H by lia. specialize (H eq_refl eq_refl ltac:(lia)). lia.
Qed.

(** ** Copies of earlier output *)

(** Copying byte by byte at the end of one window. *)
Fixpoint window_copy (n : nat) (distance : Z) (window : bytes) : bytes :=
  match n with
  | O => window
  | S n => window_copy n distance (window ++ [nthb window (zlen window - distance)])
  end.

Lemma zlen_window_copy n d w : zlen (window_copy n d w) = zlen w + Z.of_nat n.
Proof.
  revert w. induction n as [|n IH]; intros w; simpl; [lia|]. rewrite IH, zlen_app. unfold zlen. simpl. lia.
Qed.
