(* ===== verification/Deflate.v ===== *)
(** Package [compression/mszip]: the tolerant DEFLATE decoder of cabinet and
    KWAJ streams (src/compression/mszip/deflate.go) and the strict decoder in
    front of it (mszip.go).

    The bit reader is related to the list of bits it has left; the format is
    the list of blocks a stream encodes.  The decoder accepts exactly the
    streams that start with such a list and returns its content. *)

From S2P Require Import Prelude GoLib BitStream.
From stdpp Require Import base numbers list gmap sorting strings.

Open Scope Z_scope.
Open Scope trex_scope.

#[local] Ltac Zify.zify_post_hook ::= Z.to_euclidean_division_equations.

(** ** The bit reader *)

Definition deflateMaxCodeBits : Z := 15.

Record deflateBitReader := DeflateBitReader {
  dr_data : bytes;
  dr_byteAt : Z;
  dr_bits : Z;
  dr_count : Z
}.

(** The loop of [read] that fetches bytes; at most four are needed. *)
Fixpoint deflate_fill (fuel : nat) (r : deflateBitReader) (count : Z) : res deflateBitReader :=
  if dr_count r <? count then
    match fuel with
    | O => Err OutOfFuel
    | S fuel =>
        if zlen (dr_data r) <=? dr_byteAt r then Err (Errorf "deflate: truncated input at byte %d")
        else
          let! b := index (dr_data r) (dr_byteAt r) in
          deflate_fill fuel
            (DeflateBitReader (dr_data r) (dr_byteAt r + 1)
               (Z.lor (dr_bits r) (u64 (Z.shiftl b (dr_count r)))) (dr_count r + 8)) count
    end
  else Ok r.

Definition deflate_read (r : deflateBitReader) (count : Z) : res (Z * deflateBitReader) :=
  if 32 <? count then Err (Errorf "deflate: invalid %d-bit field")
  else
    let! r := deflate_fill 4 r count in
    let mask := u64 (Z.shiftl 1 count) - 1 in
    let value := u32 (Z.land (dr_bits r) mask) in
    Ok (value, DeflateBitReader (dr_data r) (dr_byteAt r) (Z.shiftr (dr_bits r) count) (dr_count r - count)).

Definition alignByte (r : deflateBitReader) : deflateBitReader :=
  DeflateBitReader (dr_data r) (dr_byteAt r) 0 0.

(** ** Huffman codes *)

(** The maps of [byLength] are indexed by code length; a map that was never
    made is an empty one. *)
Record deflateCode := DeflateCode {
  dc_byLength : list (gmap Z Z);
  dc_maximum : Z
}.

(** The first loop of [newDeflateCode].  The alphabets have at most 320
    symbols, so the counters stay far below their width. *)
Fixpoint code_counts (lengths : list Z) (counts : list Z) (maximum : Z) : res (list Z * Z) :=
  match lengths with
  | [] => Ok (counts, maximum)
  | length :: lengths =>
      if deflateMaxCodeBits <? length then Err (Errorf "deflate: code length %d exceeds %d")
      else if length =? 0 then code_counts lengths counts maximum
      else code_counts lengths (<[Z.to_nat length := nthb counts length + 1]> counts)
             (if maximum <? length then length else maximum)
  end.

Fixpoint check_left (n : nat) (length left : Z) (counts : list Z) : res unit :=
  match n with
  | O => Ok tt
  | S n =>
      let left := left * 2 - nthb counts length in
      if left <? 0 then Err (Errorf "deflate: oversubscribed Huffman code")
      else check_left n (length + 1) left counts
  end.

Fixpoint next_codes (n : nat) (length code : Z) (counts next : list Z) : list Z :=
  match n with
  | O => next
  | S n =>
      let code := Z.shiftl (code + nthb counts (length - 1)) 1 in
      next_codes n (length + 1) code counts (<[Z.to_nat length := code]> next)
  end.

Definition wire_map (byLength : list (gmap Z Z)) (length : Z) : gmap Z Z :=
  default ∅ (byLength !! Z.to_nat length).

Fixpoint assign_codes (lengths : list Z) (symbol : Z) (next : list Z) (byLength : list (gmap Z Z))
    : res (list (gmap Z Z)) :=
  match lengths with
  | [] => Ok byLength
  | length :: lengths =>
      if length =? 0 then assign_codes lengths (symbol + 1) next byLength
      else
        let wire := nthb next length in
        match wire_map byLength length !! wire with
        | Some _ => Err (Errorf "deflate: duplicate Huffman code")
        | None =>
            assign_codes lengths (symbol + 1) (<[Z.to_nat length := wire + 1]> next)
              (<[Z.to_nat length := <[wire := symbol]> (wire_map byLength length)]> byLength)
        end
  end.

Definition newDeflateCode (lengths : list Z) : res deflateCode :=
  let! (counts, maximum) := code_counts lengths (replicate 16 0) 0 in
  if maximum =? 0 then Err (Errorf "deflate: empty Huffman code")
  else
    let! _ := check_left 15 1 1 counts in
    let next := next_codes 15 1 0 counts (replicate 16 0) in
    let! byLength := assign_codes lengths 0 next (replicate 16 ∅) in
    Ok (DeflateCode byLength maximum).

Fixpoint decode_loop (n : nat) (c : deflateCode) (length wire : Z) (r : deflateBitReader)
    : res (Z * deflateBitReader) :=
  match n with
  | O => Err (Errorf "deflate: invalid Huffman code at byte %d")
  | S n =>
      let! (bit, r) := deflate_read r 1 in
      let wire := Z.lor (Z.shiftl wire 1) bit in
      match wire_map (dc_byLength c) length !! wire with
      | Some symbol => Ok (symbol, r)
      | None => decode_loop n c (length + 1) wire r
      end
  end.

Definition deflate_decode (c : deflateCode) (r : deflateBitReader) : res (Z * deflateBitReader) :=
  decode_loop (Z.to_nat (dc_maximum c)) c 1 0 r.

Definition deflateCodeLengthOrder : list Z :=
  [16; 17; 18; 0; 8; 7; 9; 6; 10; 5; 11; 4; 12; 3; 13; 2; 14; 1; 15].

Definition deflateLengthBase : list Z :=
  [3; 4; 5; 6; 7; 8; 9; 10;
   11; 13; 15; 17; 19; 23; 27; 31;
   35; 43; 51; 59; 67; 83; 99; 115;
   131; 163; 195; 227; 258].

Definition deflateLengthExtra : list Z :=
  [0; 0; 0; 0; 0; 0; 0; 0;
   1; 1; 1; 1; 2; 2; 2; 2;
   3; 3; 3; 3; 4; 4; 4; 4;
   5; 5; 5; 5; 0].

Definition deflateDistanceBase : list Z :=
  [1; 2; 3; 4; 5; 7; 9; 13;
   17; 25; 33; 49; 65; 97; 129; 193;
   257; 385; 513; 769; 1025; 1537; 2049; 3073;
   4097; 6145; 8193; 12289; 16385; 24577].

Definition deflateDistanceExtra : list Z :=
  [0; 0; 0; 0; 1; 1; 2; 2;
   3; 3; 4; 4; 5; 5; 6; 6;
   7; 7; 8; 8; 9; 9; 10; 10;
   11; 11; 12; 12; 13; 13].

Definition literalLength (index : Z) : Z :=
  if index <=? 143 then 8 else if index <=? 255 then 9 else if index <=? 279 then 7 else 8.

Definition fixedLiteralLengths : list Z := literalLength <$> seqZ 0 288.
Definition fixedDistanceLengths : list Z := replicate 32 5.

Definition fixedDeflateCodes : res (deflateCode * deflateCode) :=
  let! literals := newDeflateCode fixedLiteralLengths in
  let! distances := newDeflateCode fixedDistanceLengths in
  Ok (literals, distances).

(** The loop that reads the code lengths of the code-length alphabet. *)
Fixpoint read_codeLengths (n : nat) (index : Z) (codeLengths : list Z) (r : deflateBitReader)
    : res (list Z * deflateBitReader) :=
  match n with
  | O => Ok (codeLengths, r)
  | S n =>
      let! (length, r) := deflate_read r 3 in
      read_codeLengths n (index + 1)
        (<[Z.to_nat (nthb deflateCodeLengthOrder index) := u8 length]> codeLengths) r
  end.

(** The body of the loop that reads the run-length coded lengths. *)
Definition code_length_run (c : deflateCode) (lengths : list Z) (r : deflateBitReader)
    : res (list Z * deflateBitReader) :=
  let! (symbol, r) := deflate_decode c r in
  if symbol <=? 15 then Ok (lengths ++ [u8 symbol], r)
  else if symbol =? 16 then
    if zlen lengths =? 0 then Err (Errorf "deflate: repeat code has no previous length")
    else
      let! (extra, r) := deflate_read r 2 in
      Ok (lengths ++ replicate (Z.to_nat (extra + 3)) (nthb lengths (zlen lengths - 1)), r)
  else if symbol =? 17 then
    let! (extra, r) := deflate_read r 3 in
    Ok (lengths ++ replicate (Z.to_nat (extra + 3)) 0, r)
  else if symbol =? 18 then
    let! (extra, r) := deflate_read r 7 in
    Ok (lengths ++ replicate (Z.to_nat (extra + 11)) 0, r)
  else Err (Errorf "deflate: invalid code-length symbol %d").

(** A round appends at least one length. *)
Fixpoint read_lengths (fuel : nat) (c : deflateCode) (total : Z) (lengths : list Z) (r : deflateBitReader)
    : res (list Z * deflateBitReader) :=
  if zlen lengths <? total then
    match fuel with
    | O => Err OutOfFuel
    | S fuel =>
        let! (lengths, r) := code_length_run c lengths r in
        if total <? zlen lengths then Err (Errorf "deflate: code-length run exceeds alphabet")
        else read_lengths fuel c total lengths r
    end
  else Ok (lengths, r).

Definition dynamicDeflateCodes (r : deflateBitReader) : res (deflateCode * deflateCode * deflateBitReader) :=
  let! (hlit, r) := deflate_read r 5 in
  let! (hdist, r) := deflate_read r 5 in
  let! (hclen, r) := deflate_read r 4 in
  let literalCount := hlit + 257 in
  let distanceCount := hdist + 1 in
  let codeLengthCount := hclen + 4 in
  let! (codeLengths, r) := read_codeLengths (Z.to_nat codeLengthCount) 0 (replicate 19 0) r in
  let! codeLengthCode := newDeflateCode codeLengths in
  let total := literalCount + distanceCount in
  let! (lengths, r) := read_lengths (Z.to_nat total) codeLengthCode total [] r in
  let! literals := newDeflateCode (take (Z.to_nat literalCount) lengths) in
  if nthb lengths 256 =? 0 then Err (Errorf "deflate: literal code omits end-of-block")
  else
    let! distances := newDeflateCode (drop (Z.to_nat literalCount) lengths) in
    Ok (literals, distances, r).

(** ** Blocks *)

(** The loop that copies a match, from the output or from the history. *)
Fixpoint deflate_copy (length : nat) (distance : Z) (history output : bytes) : res bytes :=
  match length with
  | O => Ok output
  | S length =>
      let source := zlen output - distance in
      let! b := if 0 <=? source then index output source else index history (zlen history + source) in
      deflate_copy length distance history (output ++ [b])
  end.

(** Every symbol takes at least one bit, so the bits of the input bound the
    rounds. *)
Fixpoint inflateCompressedBlock (fuel : nat) (r : deflateBitReader) (output history : bytes) (limit : Z)
    (literals distances : deflateCode) : res (bytes * deflateBitReader) :=
  match fuel with
  | O => Err OutOfFuel
  | S fuel =>
      let! (symbol, r) := deflate_decode literals r in
      if symbol <? 256 then
        if limit <=? zlen output then Err (Errorf "deflate: output exceeds %d bytes")
        else inflateCompressedBlock fuel r (output ++ [u8 symbol]) history limit literals distances
      else if symbol =? 256 then Ok (output, r)
      else
        let lengthIndex := symbol - 257 in
        if (lengthIndex <? 0) || (zlen deflateLengthBase <=? lengthIndex)
        then Err (Errorf "deflate: invalid length symbol %d")
        else
          let! (extra, r) := deflate_read r (nthb deflateLengthExtra lengthIndex) in
          let length := nthb deflateLengthBase lengthIndex + extra in
          let! (distanceSymbol, r) := deflate_decode distances r in
          if (distanceSymbol <? 0) || (zlen deflateDistanceBase <=? distanceSymbol)
          then Err (Errorf "deflate: invalid distance symbol %d")
          else
            let! (extra, r) := deflate_read r (nthb deflateDistanceExtra distanceSymbol) in
            let distance := nthb deflateDistanceBase distanceSymbol + extra in
            if zlen history + zlen output <? distance
            then Err (Errorf "deflate: distance %d exceeds %d bytes of history")
            else if limit - zlen output <? length then Err (Errorf "deflate: match exceeds %d-byte output")
            else
              let! output := deflate_copy (Z.to_nat length) distance history output in
              inflateCompressedBlock fuel r output history limit literals distances
  end.

(** The loop that copies the payload of a stored block. *)
Fixpoint read_stored (n : nat) (output : bytes) (r : deflateBitReader) : res (bytes * deflateBitReader) :=
  match n with
  | O => Ok (output, r)
  | S n =>
      let! (value, r) := deflate_read r 8 in
      read_stored n (output ++ [u8 value]) r
  end.

Definition inflate_stored (r : deflateBitReader) (output : bytes) (expected : Z)
    : res (bytes * deflateBitReader) :=
  let r := alignByte r in
  let! (length, r) := deflate_read r 16 in
  let! (inverse, r) := deflate_read r 16 in
  if expected - zlen output <? length then Err (Errorf "deflate: stored block exceeds %d-byte output")
  else if negb (Z.lxor (u16 length) (u16 inverse) =? 0xffff) then
    if negb (length =? expected - zlen output) || (length <? 2)
    then Err (Errorf "deflate: invalid stored-block length %#x/%#x at byte %d after %d output bytes")
    else read_stored (Z.to_nat (length - 2)) (output ++ [u8 inverse; u8 (Z.shiftr inverse 8)]) r
  else read_stored (Z.to_nat length) output r.

(** The [switch] over the block type. *)
Definition inflate_block (blockType : Z) (r : deflateBitReader) (output history : bytes) (expected : Z)
    : res (bytes * deflateBitReader) :=
  let fuel := S (8 * length (dr_data r)) in
  if blockType =? 0 then inflate_stored r output expected
  else if blockType =? 1 then
    let! (literals, distances) := fixedDeflateCodes in
    inflateCompressedBlock fuel r output history expected literals distances
  else if blockType =? 2 then
    let! (literals, distances, r) := dynamicDeflateCodes r in
    inflateCompressedBlock fuel r output history expected literals distances
  else Err (Errorf "deflate: reserved block type").

(** A block takes at least three bits. *)
Fixpoint Inflate_loop (fuel : nat) (r : deflateBitReader) (output history : bytes) (expected : Z) : res bytes :=
  match fuel with
  | O => Err OutOfFuel
  | S fuel =>
      let! (finalBit, r) := deflate_read r 1 in
      let final := negb (finalBit =? 0) in
      let! (blockType, r) := deflate_read r 2 in
      let! (output, r) := inflate_block blockType r output history expected in
      if zlen output =? expected then Ok output
      else if final then Err (Errorf "deflate: decoded %d bytes, want %d")
      else Inflate_loop fuel r output history expected
  end.

(** The last 32 KiB of the dictionary. *)
Definition deflate_window (dictionary : bytes) : bytes :=
  if 32768 <? zlen dictionary then drop (Z.to_nat (zlen dictionary - 32768)) dictionary else dictionary.

Definition Inflate (data dictionary : bytes) (expected : Z) : res bytes :=
  if expected <? 0 then Err (Errorf "deflate: negative output size")
  else Inflate_loop (S (8 * length data)) (DeflateBitReader data 0 0 0) [] (deflate_window dictionary) expected.

(** [Decode] of mszip.go over [compress/flate]: [flate] is the content
    [io.Copy] obtains from the reader of the standard library and its
    [Close], or their error. *)
Definition mszip_Decode (flate : bytes -> bytes -> res bytes) (compressed history : bytes) (expected : Z)
    : res bytes :=
  match flate compressed history with
  | Ok decoded =>
      if negb (zlen decoded =? expected) then Err (Errorf "decoded %d bytes, want %d") else Ok decoded
  | Err _ =>
      match Inflate compressed history expected with
      | Ok decoded => Ok decoded
      | Err e => Err (Wrapf "strict inflate: %v; compatible inflate: %w" e)
      end
  end.

(** ** The reader and its bits *)

(** The bits a reader has left. *)
Definition stream (r : deflateBitReader) : list bool :=
  bits_of (Z.to_nat (dr_count r)) (dr_bits r) ++ bytes_bits (drop (Z.to_nat (dr_byteAt r)) (dr_data r)).

(** A reader with fewer than [k] bits fetched. *)
Record reader_ok (k : Z) (r : deflateBitReader) : Prop := ReaderOk {
  ro_data : bytes_ok (dr_data r);
  ro_at : 0 <= dr_byteAt r <= zlen (dr_data r);
  ro_count : 0 <= dr_count r < k;
  ro_bits : 0 <= dr_bits r < 2 ^ dr_count r
}.

Lemma length_stream k r :
  reader_ok k r -> Z.of_nat (length (stream r)) = dr_count r + 8 * (zlen (dr_data r) - dr_byteAt r).
Proof.
  intros [_ Hat Hc _]. unfold stream, zlen in *.
  rewrite length_app, length_bits_of, length_bytes_bits, length_drop. lia.
Qed.

(** Fetching one byte keeps the bits that are left. *)
Lemma fetch_byte r b :
  reader_ok 33 r -> dr_byteAt r < zlen (dr_data r) -> index (dr_data r) (dr_byteAt r) = Ok b ->
  let r' := DeflateBitReader (dr_data r) (dr_byteAt r + 1)
              (Z.lor (dr_bits r) (u64 (Z.shiftl b (dr_count r)))) (dr_count r + 8) in
  reader_ok 41 r' /\ stream r' = stream r.
Proof.
  intros [Hd Hat Hc Hb] Hlt Hi. rewrite index_ok in Hi by lia. injection Hi as <-.
  set (b := nthb (dr_data r) (dr_byteAt r)).
  assert (Hlook : dr_data r !! Z.to_nat (dr_byteAt r) = Some b) by (apply nthb_lookup; lia).
  assert (Hbyte : 0 <= b < 256).
  { unfold bytes_ok in Hd. rewrite Forall_lookup in Hd. by specialize (Hd _ _ Hlook). }
  assert (Hp : 2 ^ dr_count r * 256 <= 2 ^ 40).
  { change (2 ^ 40) with (2 ^ 32 * 256). apply Z.mul_le_mono_nonneg_r; [lia|]. apply Z.pow_le_mono_r; lia. }
  assert (Hpos : 0 < 2 ^ dr_count r) by (apply Z.pow_pos_nonneg; lia).
  assert (Hor : Z.lor (dr_bits r) (u64 (Z.shiftl b (dr_count r))) = dr_bits r + b * 2 ^ dr_count r).
  { rewrite Z.shiftl_mul_pow2, u64_id by (change (2 ^ 40) with 1099511627776 in Hp; nia).
    rewrite Z.lor_comm, <- Z.shiftl_mul_pow2, lor_low, Z.shiftl_mul_pow2 by lia. lia. }
  rewrite Hor. simpl. split.
  - constructor; cbn [dr_data dr_byteAt dr_bits dr_count]; [done|lia..|].
    rewrite Z.pow_add_r by lia. change (2 ^ 8) with 256. nia.
  - unfold stream. cbn [dr_data dr_byteAt dr_bits dr_count].
    rewrite !Z2Nat.inj_add by lia.
    assert (E : dr_count r = Z.of_nat (Z.to_nat (dr_count r))) by lia.
    replace (2 ^ dr_count r) with (2 ^ Z.of_nat (Z.to_nat (dr_count r))) by (by rewrite <- E).
    rewrite bits_of_or by (by rewrite <- E). rewrite <- app_assoc. f_equal.
    rewrite (drop_S (dr_data r) b (Z.to_nat (dr_byteAt r))) by done.
    replace (Z.to_nat (dr_byteAt r) + Z.to_nat 1)%nat with (S (Z.to_nat (dr_byteAt r))) by lia. done.
Qed.

Lemma reader_weaken k k' r : reader_ok k r -> dr_count r < k' -> reader_ok k' r.
Proof. intros [H1 H2 H3 H4] H. constructor; [done..|lia|done]. Qed.

Lemma deflate_fill_spec fuel r count :
  reader_ok 41 r -> 0 <= count <= 32 -> count - dr_count r <= 8 * Z.of_nat fuel ->
  match deflate_fill fuel r count with
  | Ok r' => reader_ok 41 r' /\ stream r' = stream r /\ dr_data r' = dr_data r /\ count <= dr_count r' /\
      dr_count r' < Z.max (dr_count r + 1) (count + 8)
  | Err e => Z.of_nat (length (stream r)) < count /\ e <> Panic /\ e <> OutOfFuel
  end.
Proof.
  revert r. induction fuel as [|fuel IH]; intros r Hr Hc Hf; simpl;
    (destruct (Z.ltb_spec (dr_count r) count); [|split_and!; auto; lia]); [lia|].
  destruct (Z.leb_spec (zlen (dr_data r)) (dr_byteAt r)).
  - split; [|done]. rewrite (length_stream 41 r) by done. destruct Hr. lia.
  - rewrite index_ok by (destruct Hr; lia). simpl.
    destruct (fetch_byte r (nthb (dr_data r) (dr_byteAt r))) as [Hr' Es];
      [apply (reader_weaken 41); [done|lia]|lia|apply index_ok; destruct Hr; lia|].
    specialize (IH _ Hr' Hc). cbn [dr_count] in IH. specialize (IH ltac:(lia)).
    destruct (deflate_fill _ _ _) as [r'|e]; rewrite Es in IH; [|done].
    destruct IH as (H1 & H2 & H3 & H4 & H5). split_and!; try done; lia.
Qed.

(** [read]: the value of the next [count] bits, or an error when there are
    fewer. *)
Lemma deflate_read_spec r (count : nat) :
  reader_ok 8 r -> (count <= 32)%nat ->
  match deflate_read r (Z.of_nat count) with
  | Ok (v, r') => exists f, length f = count /\ stream r = f ++ stream r' /\ v = bval f /\
      reader_ok 8 r' /\ dr_data r' = dr_data r
  | Err e => (length (stream r) < count)%nat /\ e <> Panic /\ e <> OutOfFuel
  end.
Proof.
  intros Hr Hc. unfold deflate_read. destruct (Z.ltb_spec 32 (Z.of_nat count)); [lia|].
  assert (H8 := Hr). destruct H8 as [_ _ H8 _].
  pose proof (deflate_fill_spec 4 r (Z.of_nat count)) as Hfill.
  specialize (Hfill (reader_weaken 8 41 r Hr ltac:(lia)) ltac:(lia) ltac:(lia)).
  destruct (deflate_fill _ _ _) as [r1|e]; simpl; [|destruct Hfill; split; [lia|done]].
  destruct Hfill as (H1 & H2 & H3 & H4 & H5). destruct H1 as [Hd Hat Hcnt Hb].
  assert (Hp : 0 < 2 ^ Z.of_nat count) by apply pow2_pos.
  assert (Hmask : u64 (Z.shiftl 1 (Z.of_nat count)) = 2 ^ Z.of_nat count).
  { rewrite Z.shiftl_1_l. apply u64_id. split; [lia|]. apply (Z.le_lt_trans _ (2 ^ 32)); [|done].
    apply Z.pow_le_mono_r; lia. }
  rewrite Hmask, land_low by lia.
  assert (Hv : u32 (dr_bits r1 mod 2 ^ Z.of_nat count) = bval (bits_of count (dr_bits r1))).
  { rewrite bval_bits_of. apply u32_id. split; [lia|]. change 4294967296 with (2 ^ 32).
    apply (Z.lt_le_trans _ (2 ^ Z.of_nat count)); [lia|]. apply Z.pow_le_mono_r; lia. }
  exists (bits_of count (dr_bits r1)). split_and!; [apply length_bits_of| |done| |done].
  - rewrite <- H2. unfold stream at 1 2. cbn [dr_data dr_byteAt dr_bits dr_count].
    rewrite (bits_of_split count (Z.to_nat (dr_count r1))) by lia.
    rewrite Z.shiftr_div_pow2, <- app_assoc by lia.
    replace (Z.to_nat (dr_count r1 - Z.of_nat count)) with (Z.to_nat (dr_count r1) - count)%nat by lia. done.
  - constructor; cbn [dr_data dr_byteAt dr_bits dr_count]; [done..|lia|].
    rewrite Z.shiftr_div_pow2 by lia. split; [apply Z.div_pos; lia|]. apply Z.div_lt_upper_bound; [lia|].
    rewrite <- Z.pow_add_r by lia. replace (Z.of_nat count + (dr_count r1 - Z.of_nat count)) with (dr_count r1) by lia. lia.
Qed.

(** The two directions of [read] as the decoders use them. *)
Lemma read_field r (count : nat) v rest :
  reader_ok 8 r -> (count <= 32)%nat -> 0 <= v < 2 ^ Z.of_nat count ->
  stream r = bits_of count v ++ rest ->
  exists r', deflate_read r (Z.of_nat count) = Ok (v, r') /\ reader_ok 8 r' /\ stream r' = rest /\
    dr_data r' = dr_data r.
Proof.
  intros Hr Hc Hv Hs. pose proof (deflate_read_spec r count Hr Hc) as H.
  destruct (deflate_read _ _) as [[v' r']|e].
  - destruct H as (f & Hf & E & -> & Hr' & Hd). exists r'. rewrite Hs in E.
    apply app_inj_1 in E as [<- <-]; [|by rewrite length_bits_of]. rewrite bval_field by done. done.
  - rewrite Hs, length_app, length_bits_of in H. lia.
Qed.

Lemma read_inv r (count : nat) v r' :
  reader_ok 8 r -> (count <= 32)%nat -> deflate_read r (Z.of_nat count) = Ok (v, r') ->
  0 <= v < 2 ^ Z.of_nat count /\ stream r = bits_of count v ++ stream r' /\ reader_ok 8 r' /\
  dr_data r' = dr_data r.
Proof.
  intros Hr Hc E. pose proof (deflate_read_spec r count Hr Hc) as H. rewrite E in H.
  destruct H as (f & <- & Es & -> & Hr' & Hd).
  split; [apply bval_bound|]. by rewrite bits_of_bval.
Qed.

Lemma read_err r (count : nat) e :
  reader_ok 8 r -> (count <= 32)%nat -> deflate_read r (Z.of_nat count) = Err e -> e <> Panic /\ e <> OutOfFuel.
Proof.
  intros Hr Hc E. pose proof (deflate_read_spec r count Hr Hc) as H. rewrite E in H. apply H.
Qed.

(** ** The tables of a code *)

Lemma code_counts_spec lengths counts maximum :
  Forall (fun l => 0 <= l) lengths -> zlen counts = 16 -> 0 <= maximum <= 15 ->
  match code_counts lengths counts maximum with
  | Ok (counts', m) =>
      Forall (fun l => 0 <= l <= m) lengths /\ maximum <= m <= 15 /\ (m = maximum \/ m ∈ lengths) /\
      zlen counts' = 16 /\ nthb counts' 0 = nthb counts 0 /\
      (forall n, (0 < n <= 15)%nat -> nthb counts' (Z.of_nat n) = nthb counts (Z.of_nat n) + code_count lengths n)
  | Err e => ~ Forall (fun l => 0 <= l <= 15) lengths /\ e <> Panic /\ e <> OutOfFuel
  end.
Proof.
  intros Hl. revert counts maximum. induction Hl as [|l lengths Hl Hls IH]; intros counts maximum Hc Hm; simpl.
  { split_and!; try done; [lia|by left|]. intros n Hn. rewrite code_count_nil. lia. }
  change deflateMaxCodeBits with 15. destruct (Z.ltb_spec 15 l).
  { split; [|done]. intros HF. inversion_clear HF. lia. }
  destruct (Z.eqb_spec l 0) as [->|Hne].
  - specialize (IH counts maximum Hc Hm). destruct (code_counts _ _ _) as [[counts' m]|e].
    + destruct IH as (H1 & H2 & H3 & H4 & H5 & H6). split; [constructor; [lia|done]|].
      split; [done|]. split; [destruct H3; [by left|right; by right]|]. split; [done|]. split; [done|].
      intros n Hn. rewrite H6, code_count_cons by done. by replace (0 =? Z.of_nat n) with false by lia.
    + destruct IH as [H1 H2]. split; [|done]. intros HF. inversion_clear HF. done.
  - specialize (IH (<[Z.to_nat l:=nthb counts l + 1]> counts) (if maximum <? l then l else maximum)).
    specialize (IH ltac:(unfold zlen in *; by rewrite length_insert) ltac:(destruct (maximum <? l); lia)).
    destruct (code_counts _ _ _) as [[counts' m]|e].
    + destruct IH as (H1 & H2 & H3 & H4 & H5 & H6).
      assert (Hlm : l <= m /\ maximum <= m <= 15) by (destruct (Z.ltb_spec maximum l); lia).
      split; [constructor; [lia|done]|]. split; [lia|]. split.
      { destruct H3 as [->|]; [|right; by right]. destruct (maximum <? l); [right; by left|by left]. }
      split; [done|]. split; [rewrite H5, nthb_insert by lia; by rewrite decide_False by lia|].
      intros n Hn. rewrite H6, nthb_insert, code_count_cons by lia. case_decide.
      * subst l. rewrite Z.eqb_refl. lia.
      * replace (l =? Z.of_nat n) with false by lia. lia.
    + destruct IH as [H1 H2]. split; [|done]. intros HF. inversion_clear HF. done.
Qed.

Lemma check_left_spec lens counts n l left :
  (0 < l)%nat -> (l + n = 16)%nat ->
  (forall k, (0 < k <= 15)%nat -> nthb counts (Z.of_nat k) = code_count lens k) ->
  2 * left = 2 ^ Z.of_nat l - first_code lens l ->
  match check_left n (Z.of_nat l) left counts with
  | Ok _ => forall k, (l <= k <= 15)%nat -> code_end lens k <= 2 ^ Z.of_nat k
  | Err e => (exists k, (l <= k <= 15)%nat /\ 2 ^ Z.of_nat k < code_end lens k) /\ e <> Panic /\ e <> OutOfFuel
  end.
Proof.
  revert l left. induction n as [|n IH]; intros l left Hl Hn Hc Hleft; simpl; [intros; lia|].
  assert (Hend : left * 2 - nthb counts (Z.of_nat l) = 2 ^ Z.of_nat l - code_end lens l).
  { unfold code_end. rewrite Hc by lia. lia. }
  rewrite Hend. destruct (Z.ltb_spec (2 ^ Z.of_nat l - code_end lens l) 0).
  { split; [|done]. exists l. split; lia. }
  replace (Z.of_nat l + 1) with (Z.of_nat (S l)) by lia.
  specialize (IH (S l) (2 ^ Z.of_nat l - code_end lens l) ltac:(lia) ltac:(lia) Hc).
  specialize (IH ltac:(rewrite pow2_succ, first_code_S by lia; lia)).
  destruct (check_left _ _ _ _) as [u|e].
  - intros k Hk. destruct (decide (k = l)) as [->|]; [lia|]. apply IH. lia.
  - destruct IH as [(k & Hk & H') He]. split; [|done]. exists k. split; [lia|done].
Qed.

Lemma next_codes_spec lens counts n l code next :
  (0 < l)%nat -> (l + n = 16)%nat -> nthb counts 0 = 0 -> zlen next = 16 ->
  (forall k, (0 < k <= 15)%nat -> nthb counts (Z.of_nat k) = code_count lens k) ->
  code = first_code lens (l - 1) ->
  (forall k, (0 < k < l)%nat -> nthb next (Z.of_nat k) = first_code lens k) ->
  let next' := next_codes n (Z.of_nat l) code counts next in
  zlen next' = 16 /\ forall k, (0 < k <= 15)%nat -> nthb next' (Z.of_nat k) = first_code lens k.
Proof.
  revert l code next. induction n as [|n IH]; intros l code next Hl Hn H0 Hnext Hc -> Hdone; simpl.
  { split; [done|]. intros k Hk. apply Hdone. lia. }
  assert (Hcode : Z.shiftl (first_code lens (l - 1) + nthb counts (Z.of_nat l - 1)) 1 = first_code lens l).
  { rewrite Z.shiftl_mul_pow2 by lia. destruct (decide (l = 1%nat)) as [->|].
    - replace (Z.of_nat 1 - 1) with 0 by lia. rewrite H0. done.
    - replace (Z.of_nat l - 1) with (Z.of_nat (l - 1)) by lia. rewrite Hc by lia.
      replace l with (S (l - 1)) at 3 by lia. rewrite first_code_S by lia. unfold code_end. lia. }
  rewrite Hcode. replace (Z.of_nat l + 1) with (Z.of_nat (S l)) by lia.
  apply IH; [lia..|done| |done| |].
  - unfold zlen in *. by rewrite length_insert.
  - f_equal. lia.
  - intros k Hk. rewrite nthb_insert by lia. case_decide; [f_equal; lia|]. apply Hdone. lia.
Qed.

(** The codes of the symbols below [upto]. *)
Definition code_table (lens : list Z) (upto : Z) (byLength : list (gmap Z Z)) : Prop :=
  length byLength = 16%nat /\
  forall n w s, (0 < n <= 15)%nat ->
    wire_map byLength (Z.of_nat n) !! w = Some s
    <-> has_code lens s /\ s < upto /\ code_len lens s = n /\ code_of lens s = w.

(** A table of code [lens] as [decode] uses it. *)
Record code_ok (lens : list Z) (c : deflateCode) : Prop := CodeOk {
  co_prefix : prefix_code 15 lens;
  co_table : code_table lens (zlen lens) (dc_byLength c);
  co_maximum : 0 < dc_maximum c <= 15;
  co_longest : Forall (fun l => 0 <= l <= dc_maximum c) lens
}.

Lemma wire_map_insert byLength (n : nat) l m :
  length byLength = 16%nat -> (n <= 15)%nat -> 0 <= l <= 15 ->
  wire_map (<[Z.to_nat l := m]> byLength) (Z.of_nat n)
  = if decide (l = Z.of_nat n) then m else wire_map byLength (Z.of_nat n).
Proof.
  intros Hb Hn Hl. unfold wire_map. case_decide as E.
  - subst. by rewrite list_lookup_insert_eq by lia.
  - by rewrite list_lookup_insert_ne by lia.
Qed.

(** The table after one more symbol. *)
Lemma code_table_insert lens s l byLength :
  code_table lens s byLength -> 0 <= s < zlen lens -> nthb lens s = l -> 0 < l <= 15 ->
  code_table lens (s + 1)
    (<[Z.to_nat l := <[code_of lens s := s]> (wire_map byLength l)]> byLength).
Proof.
  intros [Hlen Ht] Hs El Hl. split; [by rewrite length_insert|]. intros n w t Hn.
  assert (Hcl : code_len lens s = Z.to_nat l) by (unfold code_len; by rewrite El).
  rewrite wire_map_insert by lia. case_decide as E.
  - assert (Hn' : n = code_len lens s) by lia. subst l. rewrite lookup_insert. case_decide as Ew.
    + split.
      * intros [= <-]. unfold has_code. lia.
      * intros (H1 & H2 & H3 & H4). f_equal.
        apply (code_of_inj lens); [unfold has_code; lia|done|congruence|congruence].
    + rewrite E, Ht by done. split; intros (H1 & H2 & H3 & H4); (split; [done|]); (split; [|done]); [lia|].
      destruct (decide (t = s)) as [->|]; [congruence|lia].
  - rewrite Ht by done. split; intros (H1 & H2 & H3 & H4); (split; [done|]); (split; [|done]); [lia|].
    destruct (decide (t = s)) as [->|]; lia.
Qed.

Lemma code_table_skip lens s byLength :
  code_table lens s byLength -> nthb lens s = 0 -> code_table lens (s + 1) byLength.
Proof.
  intros [Hlen Ht] El. split; [done|]. intros n w t Hn. rewrite Ht by done.
  split; intros (H1 & H2 & H3 & H4); (split; [done|]); (split; [|done]); [lia|].
  destruct (decide (t = s)) as [->|]; [destruct H1; lia|lia].
Qed.

Lemma assign_codes_spec lens pre lengths next byLength :
  lens = pre ++ lengths -> Forall (fun l => 0 <= l <= 15) lens -> zlen next = 16 ->
  (forall k, (0 < k <= 15)%nat -> nthb next (Z.of_nat k) = first_code lens k + code_count pre k) ->
  code_table lens (zlen pre) byLength ->
  exists byLength', assign_codes lengths (zlen pre) next byLength = Ok byLength' /\
    code_table lens (zlen lens) byLength'.
Proof.
  revert pre next byLength. induction lengths as [|l lengths IH]; intros pre next byLength -> Hr Hnext Hk Ht.
  { exists byLength. split; [done|]. by rewrite app_nil_r in *. }
  assert (Hat : nthb (pre ++ l :: lengths) (zlen pre) = l).
  { rewrite nthb_app, Z.ltb_irrefl, Z.sub_diag. done. }
  assert (Hs : 0 <= zlen pre < zlen (pre ++ l :: lengths)).
  { rewrite zlen_app, zlen_cons. pose proof (zlen_nonneg pre). pose proof (zlen_nonneg lengths). lia. }
  assert (Hl : 0 <= l <= 15).
  { rewrite Forall_app, Forall_cons in Hr. apply Hr. }
  assert (Hpre : zlen pre + 1 = zlen (pre ++ [l])) by (rewrite zlen_app; done).
  assert (Happ : pre ++ l :: lengths = (pre ++ [l]) ++ lengths) by (by rewrite <- app_assoc).
  simpl. rewrite Hpre. destruct (Z.eqb_spec l 0) as [->|Hne].
  - apply IH; [done..| |].
    + intros k Hkk. rewrite Hk by done. rewrite code_count_app, code_count_cons, code_count_nil.
      replace (0 =? Z.of_nat k) with false by lia. lia.
    + rewrite <- Hpre. by apply code_table_skip.
  - assert (Hcode : nthb next l = code_of (pre ++ l :: lengths) (zlen pre)).
    { unfold code_of, code_len. rewrite Hat.
      replace l with (Z.of_nat (Z.to_nat l)) at 1 by lia. rewrite Hk by lia. f_equal.
      unfold zlen. rewrite Nat2Z.id, take_app_length. done. }
    rewrite Hcode. destruct (wire_map byLength l !! _) as [t|] eqn:Et.
    { exfalso. pose proof (proj1 (proj2 Ht (Z.to_nat l) (code_of (pre ++ l :: lengths) (zlen pre)) t ltac:(lia))) as Hx.
      rewrite Z2Nat.id in Hx by lia. apply Hx in Et.
      destruct Et as (H1 & H2 & H3 & H4).
      assert (t = zlen pre); [|lia]. apply (code_of_inj (pre ++ l :: lengths)); [done| |by rewrite H3; unfold code_len; rewrite Hat|done].
      split; [done|lia]. }
    apply IH; [done..| | |].
    + unfold zlen in *. by rewrite length_insert.
    + intros k Hkk. rewrite nthb_insert, code_count_app, code_count_cons, code_count_nil by lia.
      case_decide as E.
      * subst l. rewrite <- Hcode, Hk, Z.eqb_refl by done. lia.
      * rewrite Hk by done. replace (l =? Z.of_nat k) with false by lia. lia.
    + rewrite <- Hpre. apply code_table_insert; [done..|lia].
Qed.

Lemma code_table_empty lens : code_table lens 0 (replicate 16 ∅).
Proof.
  split; [done|]. intros n w s Hn. unfold wire_map. rewrite lookup_replicate_2 by lia. simpl.
  rewrite lookup_empty. split; [done|]. intros ([H1 _] & H2 & _). lia.
Qed.

(** [newDeflateCode] accepts exactly the lengths of a prefix code. *)
Lemma newDeflateCode_spec lens :
  Forall (fun l => 0 <= l) lens ->
  match newDeflateCode lens with
  | Ok c => code_ok lens c
  | Err e => ~ prefix_code 15 lens /\ e <> Panic /\ e <> OutOfFuel
  end.
Proof.
  intros Hnn. unfold newDeflateCode.
  pose proof (code_counts_spec lens (replicate 16 0) 0 Hnn eq_refl ltac:(lia)) as Hc.
  destruct (code_counts _ _ _) as [[counts m]|e]; cbn [res_bind]; [|destruct Hc as [Hc He]; split; [|done]; by intros [H _ _]].
  destruct Hc as (Hr & Hm & Hmax & Hlen & H0 & Hcount).
  assert (H0' : nthb counts 0 = 0) by (rewrite H0; done).
  assert (Hcount' : forall k, (0 < k <= 15)%nat -> nthb counts (Z.of_nat k) = code_count lens k).
  { intros k Hk. rewrite Hcount by done. change (replicate 16 0) with (zeros 16). rewrite nthb_zeros. lia. }
  assert (Hr15 : Forall (fun l => 0 <= l <= 15) lens) by (eapply Forall_impl; [exact Hr|]; simpl; lia).
  destruct (Z.eqb_spec m 0) as [->|Hne].
  { split; [|done]. intros [_ Hs _]. rewrite Exists_exists in Hs. destruct Hs as (l & Hl & Hl').
    rewrite Forall_forall in Hr. specialize (Hr l Hl). lia. }
  pose proof (check_left_spec lens counts 15 1 1 ltac:(lia) eq_refl Hcount' eq_refl) as Hleft.
  change (Z.of_nat 1) with 1 in Hleft. destruct (check_left _ _ _ _) as [u|e]; cbn [res_bind]; cycle 1.
  { destruct Hleft as [(k & Hk & Hlt) He]. split; [|done]. intros Hp.
    pose proof (code_end_fits 15 lens k Hp ltac:(lia)). lia. }
  destruct (next_codes_spec lens counts 15 1 0 (replicate 16 0)) as [Hnlen Hnext]; try done; [lia|intros; lia|].
  change (Z.of_nat 1) with 1 in Hnlen, Hnext.
  destruct (assign_codes_spec lens [] lens (next_codes 15 1 0 counts (replicate 16 0)) (replicate 16 ∅))
    as (byLength & E & Ht); [done..| |apply code_table_empty|].
  { intros k Hk. rewrite Hnext, code_count_nil by done. lia. }
  change (zlen []) with 0 in E. rewrite E. cbn [res_bind]. constructor; cbn [dc_byLength dc_maximum]; [|done|lia|done].
  constructor; [done| |].
  - destruct Hmax as [->|Hin]; [done|]. apply Exists_exists. by exists m.
  - rewrite <- code_end_kraft by (done || lia). apply Hleft. lia.
Qed.

(** A reader that moved on in the same input. *)
Definition moved (r r' : deflateBitReader) : Prop :=
  reader_ok 8 r' /\ dr_data r' = dr_data r.

(** Bits already read, bits of the code still to come. *)
Lemma decode_loop_complete lens c s n p q rest r :
  code_ok lens c -> has_code lens s -> code_bits lens s = p ++ q -> q <> [] -> (length q <= n)%nat ->
  reader_ok 8 r -> stream r = q ++ rest ->
  exists r', decode_loop n c (Z.of_nat (S (length p))) (mval p) r = Ok (s, r') /\ moved r r' /\ stream r' = rest.
Proof.
  intros [Hp [_ Ht] Hmax _] Hs. revert p q r. induction n as [|n IH]; intros p q r Ecode Hq Hn Hr Hstream.
  { destruct q; simpl in *; [done|lia]. }
  destruct q as [|b q]; [done|]. cbn [decode_loop].
  destruct (read_field r 1 (Z.b2z b) (q ++ rest)) as (r1 & E1 & Hr1 & Hs1 & Hd1); [done|lia|destruct b; done|destruct b; done|].
  change (Z.of_nat 1) with 1 in E1. rewrite E1. simpl res_bind.
  assert (Hbit : Z.lor (Z.shiftl (mval p) 1) (Z.b2z b) = mval (p ++ [b])).
  { rewrite lor_low, mval_snoc by (destruct b; simpl; lia). lia. }
  rewrite Hbit. assert (Ecode' : code_bits lens s = (p ++ [b]) ++ q) by (by rewrite <- app_assoc).
  assert (Hlen : (S (length p) + length q = code_len lens s)%nat).
  { rewrite <- length_code_bits, Ecode', !length_app. simpl. lia. }
  pose proof (code_len_bound 15 lens s Hp Hs). destruct q as [|b' q].
  - rewrite app_nil_r in Ecode'. simpl in Hlen.
    assert (Hfound : wire_map (dc_byLength c) (Z.of_nat (S (length p))) !! mval (p ++ [b]) = Some s).
    { apply Ht; [lia|]. split; [done|]. split; [apply Hs|]. split; [lia|].
      rewrite <- Ecode'. by rewrite (mval_code_bits 15). }
    rewrite Hfound. exists r1. done.
  - destruct (wire_map _ _ !! _) as [t|] eqn:Et.
    { exfalso. apply Ht in Et; [|simpl in *; lia]. destruct Et as (H1 & _ & H3 & H4).
      pose proof (code_of_range lens t H1) as Hrange. rewrite H3, H4 in Hrange.
      pose proof (code_prefix_above 15 lens s (p ++ [b]) (b' :: q) Hp Hs Ecode') as Habove.
      rewrite length_app in Habove. simpl in Habove. rewrite Nat.add_1_r in Habove.
      specialize (Habove ltac:(by destruct p) ltac:(done)). lia. }
    destruct (IH (p ++ [b]) (b' :: q) r1) as (r' & E' & [H1 H2] & H3); [done|done|simpl in *; lia|done|done|].
    rewrite length_app in E'. simpl in E'. rewrite Nat.add_1_r in E'.
    replace (Z.of_nat (S (length p)) + 1) with (Z.of_nat (S (S (length p)))) by lia.
    exists r'. split; [done|]. split; [split; [done|congruence]|done].
Qed.

(** [decode] reads back the code of every symbol. *)
Lemma deflate_decode_complete lens c s rest r :
  code_ok lens c -> has_code lens s -> reader_ok 8 r -> stream r = code_bits lens s ++ rest ->
  exists r', deflate_decode c r = Ok (s, r') /\ moved r r' /\ stream r' = rest.
Proof.
  intros Hc Hs Hr Hst. pose proof (co_prefix _ _ Hc) as Hp. pose proof (code_len_bound 15 lens s Hp Hs) as Hl.
  pose proof (length_code_bits lens s) as Hlen.
  apply (decode_loop_complete lens c s _ [] (code_bits lens s) rest); auto.
  - destruct (code_bits lens s); [simpl in Hlen; lia|done].
  - rewrite Hlen. unfold code_len. destruct Hc as [_ _ Hm HF]. destruct Hs as [Hs _].
    rewrite Forall_lookup in HF. specialize (HF _ _ (nthb_lookup lens s Hs)). simpl in HF. lia.
Qed.

Lemma decode_loop_sound lens c n p r :
  code_ok lens c -> reader_ok 8 r -> Z.of_nat (length p + n) <= dc_maximum c ->
  match decode_loop n c (Z.of_nat (S (length p))) (mval p) r with
  | Ok (s, r') => has_code lens s /\ moved r r' /\
      exists q, code_bits lens s = p ++ q /\ stream r = q ++ stream r'
  | Err e => e <> Panic /\ e <> OutOfFuel
  end.
Proof.
  intros Hc. revert p r. induction n as [|n IH]; intros p r Hr Hn; [done|]. cbn [decode_loop].
  pose proof (deflate_read_spec r 1 Hr ltac:(lia)) as Hread. change (Z.of_nat 1) with 1 in Hread.
  destruct (deflate_read r 1) as [[v r1]|e]; cbn [res_bind]; [|by destruct Hread].
  destruct Hread as (f & Hf & Est & -> & Hr1 & Hd1). destruct f as [|b [|? ?]]; try done.
  assert (Hbit : Z.lor (Z.shiftl (mval p) 1) (bval [b]) = mval (p ++ [b])).
  { simpl bval. rewrite Z.add_0_r, lor_low, mval_snoc by (destruct b; simpl; lia). lia. }
  rewrite Hbit. destruct (wire_map _ _ !! _) as [s|] eqn:Et.
  - destruct Hc as [Hp [_ Ht] Hmax _]. apply Ht in Et; [|lia]. destruct Et as (H1 & _ & H3 & H4).
    split; [done|]. split; [done|]. exists [b]. split; [|done].
    unfold code_bits. rewrite H3, H4. apply msb_bits_mval. rewrite length_app. simpl. lia.
  - specialize (IH (p ++ [b]) r1 Hr1). rewrite length_app in IH. simpl in IH. rewrite Nat.add_1_r in IH.
    specialize (IH ltac:(lia)). replace (Z.of_nat (S (length p)) + 1) with (Z.of_nat (S (S (length p)))) by lia.
    destruct (decode_loop _ _ _ _ _) as [[s r']|e]; [|done].
    destruct IH as (H1 & [H2 H3] & q & H4 & H5). split; [done|]. split; [split; [done|congruence]|].
    exists (b :: q). rewrite H4, <- app_assoc. split; [done|]. rewrite Est, H5. done.
Qed.

(** Whatever [decode] returns was coded in the input. *)
Lemma deflate_decode_sound lens c r :
  code_ok lens c -> reader_ok 8 r ->
  match deflate_decode c r with
  | Ok (s, r') => has_code lens s /\ moved r r' /\ stream r = code_bits lens s ++ stream r'
  | Err e => e <> Panic /\ e <> OutOfFuel
  end.
Proof.
  intros Hc Hr. pose proof (decode_loop_sound lens c (Z.to_nat (dc_maximum c)) [] r Hc Hr) as H.
  simpl in H. pose proof (co_maximum _ _ Hc). specialize (H ltac:(lia)).
  unfold deflate_decode. change (Z.of_nat 1) with 1 in H. change (mval []) with 0 in H.
  destruct (decode_loop _ _ _ _ _) as [[s r']|e]; [|done].
  destruct H as (H1 & H2 & q & H3 & H4). simpl in H3. split; [done|]. split; [done|]. by rewrite H3.
Qed.
