(* ===== verification/DeflateFormat.v ===== *)
(** The format the DEFLATE decoder of package [compression/mszip] accepts:
    tokens, code-length runs, dynamic headers and blocks, with the bits that
    encode them.  [Inflate] is proved to accept exactly the inputs that start
    with such blocks, and to return their content. *)

From S2P Require Import Prelude GoLib BitStream Deflate.
From stdpp Require Import base numbers list gmap sorting strings.

Open Scope Z_scope.
Open Scope trex_scope.

#[local] Ltac Zify.zify_post_hook ::= Z.to_euclidean_division_equations.

(** ** Tokens *)

(** A literal byte, or a copy given by the indices of its length and distance
    codes and their extra bits. *)
Inductive dtoken :=
  | DLiteral (b : byte)
  | DCopy (li lx di dx : Z).

Definition copy_length (li lx : Z) : Z := nthb deflateLengthBase li + lx.
Definition copy_distance (di dx : Z) : Z := nthb deflateDistanceBase di + dx.
Definition length_extra (li : Z) : nat := Z.to_nat (nthb deflateLengthExtra li).
Definition distance_extra (di : Z) : nat := Z.to_nat (nthb deflateDistanceExtra di).

Definition dtoken_bits (lits dists : list Z) (t : dtoken) : list bool :=
  match t with
  | DLiteral b => code_bits lits b
  | DCopy li lx di dx =>
      code_bits lits (257 + li) ++ bits_of (length_extra li) lx ++
      code_bits dists di ++ bits_of (distance_extra di) dx
  end.

Definition dtoken_apply (history output : bytes) (t : dtoken) : bytes :=
  match t with
  | DLiteral b => output ++ [b]
  | DCopy li lx di dx =>
      drop (length history)
        (window_copy (Z.to_nat (copy_length li lx)) (copy_distance di dx) (history ++ output))
  end.

Definition dtoken_ok (lits dists : list Z) (history output : bytes) (t : dtoken) : Prop :=
  match t with
  | DLiteral b => b < 256 /\ has_code lits b
  | DCopy li lx di dx =>
      0 <= li < zlen deflateLengthBase /\ has_code lits (257 + li) /\
      0 <= lx < 2 ^ Z.of_nat (length_extra li) /\
      di < zlen deflateDistanceBase /\ has_code dists di /\ 0 <= dx < 2 ^ Z.of_nat (distance_extra di) /\
      copy_distance di dx <= zlen history + zlen output
  end.

Fixpoint dtokens_ok (lits dists : list Z) (history output : bytes) (ts : list dtoken) : Prop :=
  match ts with
  | [] => True
  | t :: ts =>
      dtoken_ok lits dists history output t /\
      dtokens_ok lits dists history (dtoken_apply history output t) ts
  end.

Definition dtokens_apply (history output : bytes) (ts : list dtoken) : bytes :=
  foldl (dtoken_apply history) output ts.

(** The tokens of a block and its end. *)
Definition dtokens_bits (lits dists : list Z) (ts : list dtoken) : list bool :=
  (ts ≫= dtoken_bits lits dists) ++ code_bits lits 256.

(** ** Dynamic headers *)

Inductive code_run :=
  | RunLength (n : Z)
  | RunRepeat (k : Z)
  | RunZeros (k : Z)
  | RunManyZeros (k : Z).

Definition run_bits (cl : list Z) (u : code_run) : list bool :=
  match u with
  | RunLength n => code_bits cl n
  | RunRepeat k => code_bits cl 16 ++ bits_of 2 k
  | RunZeros k => code_bits cl 17 ++ bits_of 3 k
  | RunManyZeros k => code_bits cl 18 ++ bits_of 7 k
  end.

Definition run_apply (lengths : list Z) (u : code_run) : list Z :=
  match u with
  | RunLength n => lengths ++ [n]
  | RunRepeat k => lengths ++ replicate (Z.to_nat (k + 3)) (nthb lengths (zlen lengths - 1))
  | RunZeros k => lengths ++ replicate (Z.to_nat (k + 3)) 0
  | RunManyZeros k => lengths ++ replicate (Z.to_nat (k + 11)) 0
  end.

Definition run_ok (cl : list Z) (lengths : list Z) (u : code_run) : Prop :=
  match u with
  | RunLength n => has_code cl n /\ n <= 15
  | RunRepeat k => has_code cl 16 /\ lengths <> [] /\ 0 <= k < 4
  | RunZeros k => has_code cl 17 /\ 0 <= k < 8
  | RunManyZeros k => has_code cl 18 /\ 0 <= k < 128
  end.

(** The runs fill exactly [total] lengths. *)
Fixpoint runs_ok (cl : list Z) (total : Z) (lengths : list Z) (us : list code_run) : Prop :=
  match us with
  | [] => zlen lengths = total
  | u :: us =>
      zlen lengths < total /\ run_ok cl lengths u /\ zlen (run_apply lengths u) <= total /\
      runs_ok cl total (run_apply lengths u) us
  end.

Record dynamic_header := DynamicHeader {
  dh_literals : Z;
  dh_distances : Z;
  dh_fields : list Z;
  dh_runs : list code_run
}.

(** The code lengths of the code-length alphabet: the 3-bit fields in their
    order. *)
Fixpoint scatter (index : Z) (codeLengths fields : list Z) : list Z :=
  match fields with
  | [] => codeLengths
  | f :: fields =>
      scatter (index + 1) (<[Z.to_nat (nthb deflateCodeLengthOrder index) := f]> codeLengths) fields
  end.

Definition dh_code (h : dynamic_header) : list Z := scatter 0 (replicate 19 0) (dh_fields h).
Definition dh_lengths (h : dynamic_header) : list Z := foldl run_apply [] (dh_runs h).
Definition dh_lits (h : dynamic_header) : list Z := take (Z.to_nat (dh_literals h)) (dh_lengths h).
Definition dh_dists (h : dynamic_header) : list Z := drop (Z.to_nat (dh_literals h)) (dh_lengths h).

Definition header_bits (h : dynamic_header) : list bool :=
  bits_of 5 (dh_literals h - 257) ++ bits_of 5 (dh_distances h - 1) ++ bits_of 4 (zlen (dh_fields h) - 4) ++
  (dh_fields h ≫= bits_of 3) ++ (dh_runs h ≫= run_bits (dh_code h)).

Record header_ok (h : dynamic_header) : Prop := HeaderOk {
  ho_literals : 257 <= dh_literals h < 289;
  ho_distances : 1 <= dh_distances h < 33;
  ho_count : 4 <= zlen (dh_fields h) <= 19;
  ho_fields : Forall (fun f => 0 <= f < 8) (dh_fields h);
  ho_code : prefix_code 15 (dh_code h);
  ho_runs : runs_ok (dh_code h) (dh_literals h + dh_distances h) [] (dh_runs h);
  ho_lits : prefix_code 15 (dh_lits h);
  ho_end : has_code (dh_lits h) 256;
  ho_dists : prefix_code 15 (dh_dists h)
}.

(** ** Blocks *)

(** Stored blocks follow padding up to a byte; early encoders leave out the
    complement of the length in the block that completes the output. *)
Inductive dblock :=
  | Stored (padding : list bool) (payload : bytes)
  | StoredShort (padding : list bool) (payload : bytes)
  | Fixed (ts : list dtoken)
  | Dynamic (h : dynamic_header) (ts : list dtoken).

Definition block_type (b : dblock) : Z :=
  match b with Stored _ _ | StoredShort _ _ => 0 | Fixed _ => 1 | Dynamic _ _ => 2 end.

Definition body_bits (b : dblock) : list bool :=
  match b with
  | Stored padding payload =>
      padding ++ bits_of 16 (zlen payload) ++ bits_of 16 (0xffff - zlen payload) ++ bytes_bits payload
  | StoredShort padding payload => padding ++ bits_of 16 (zlen payload) ++ bytes_bits payload
  | Fixed ts => dtokens_bits fixedLiteralLengths fixedDistanceLengths ts
  | Dynamic h ts => header_bits h ++ dtokens_bits (dh_lits h) (dh_dists h) ts
  end.

Definition block_bits (final : bool) (b : dblock) : list bool :=
  final :: bits_of 2 (block_type b) ++ body_bits b.

Definition block_apply (history output : bytes) (b : dblock) : bytes :=
  match b with
  | Stored _ payload | StoredShort _ payload => output ++ payload
  | Fixed ts | Dynamic _ ts => dtokens_apply history output ts
  end.

(** Padding of a stored block that starts at bit [position]. *)
Definition padding_ok (position : nat) (padding : list bool) : Prop :=
  (length padding < 8)%nat /\ ((position + 3 + length padding) mod 8 = 0)%nat.

Definition block_ok (position : nat) (expected : Z) (history output : bytes) (b : dblock) : Prop :=
  match b with
  | Stored padding payload =>
      padding_ok position padding /\ bytes_ok payload /\ zlen payload < 65536
  | StoredShort padding payload =>
      padding_ok position padding /\ bytes_ok payload /\ 2 <= zlen payload < 65536 /\
      zlen output + zlen payload = expected /\
      Z.lxor (zlen payload) (le_val (take 2 payload)) <> 0xffff
  | Fixed ts => dtokens_ok fixedLiteralLengths fixedDistanceLengths history output ts
  | Dynamic h ts => header_ok h /\ dtokens_ok (dh_lits h) (dh_dists h) history output ts
  end.

(** Blocks from bit [position] on that complete [expected] bytes with the
    last one, and only with it; no block before the last is marked final. *)
Fixpoint blocks_ok (position : nat) (expected : Z) (history output : bytes) (bs : list (bool * dblock)) : Prop :=
  match bs with
  | [] => False
  | (final, b) :: bs =>
      block_ok position expected history output b /\
      let output := block_apply history output b in
      match bs with
      | [] => zlen output = expected
      | _ :: _ =>
          final = false /\ zlen output < expected /\
          blocks_ok (position + length (block_bits final b)) expected history output bs
      end
  end.

Definition blocks_bits (bs : list (bool * dblock)) : list bool := bs ≫= fun b => block_bits b.1 b.2.

Definition blocks_apply (history output : bytes) (bs : list (bool * dblock)) : bytes :=
  foldl (fun output b => block_apply history output b.2) output bs.

(** ** Copies *)

(** Copying from the output or the history is copying in the window they
    form. *)
Lemma copy_match_spec n d history output :
  1 <= d <= zlen history + zlen output ->
  deflate_copy n d history output = Ok (drop (length history) (window_copy n d (history ++ output))).
Proof.
  revert output. induction n as [|n IH]; intros output Hd; simpl.
  { by rewrite drop_app_length. }
  assert (Hb : (if 0 <=? zlen output - d then index output (zlen output - d)
                else index history (zlen history + (zlen output - d)))
               = Ok (nthb (history ++ output) (zlen (history ++ output) - d))).
  { rewrite zlen_app, nthb_app. pose proof (zlen_nonneg history). pose proof (zlen_nonneg output).
    destruct (Z.leb_spec 0 (zlen output - d)), (Z.ltb_spec (zlen history + zlen output - d) (zlen history)); try lia.
    - rewrite index_ok by lia. do 2 f_equal. lia.
    - rewrite index_ok by lia. do 2 f_equal. lia. }
  rewrite Hb. cbn [res_bind]. rewrite IH, app_assoc; [done|]. rewrite zlen_app. pose proof (zlen_nonneg output).
  unfold zlen at 3. simpl. lia.
Qed.

Lemma zlen_dtoken_copy history output n d :
  zlen (drop (length history) (window_copy n d (history ++ output))) = zlen output + Z.of_nat n.
Proof.
  pose proof (zlen_window_copy n d (history ++ output)) as H. rewrite zlen_app in H.
  unfold zlen in *. rewrite length_drop. lia.
Qed.

(** Facts of the tables of extra bits. *)
Lemma length_tables li :
  0 <= li < zlen deflateLengthBase -> (length_extra li <= 5)%nat /\ 3 <= nthb deflateLengthBase li <= 258 /\
  nthb deflateLengthExtra li = Z.of_nat (length_extra li).
Proof.
  intros H. assert (Hall : forallb (fun i => (length_extra i <=? 5)%nat && (3 <=? nthb deflateLengthBase i)
    && (nthb deflateLengthBase i <=? 258) && (nthb deflateLengthExtra i =? Z.of_nat (length_extra i)))
    (seqZ 0 29) = true) by (vm_compute; done).
  rewrite forallb_forall in Hall. specialize (Hall li). rewrite <- list_elem_of_In, elem_of_seqZ in Hall.
  change (zlen deflateLengthBase) with 29 in H. specialize (Hall ltac:(lia)).
  apply andb_true_iff in Hall as [Hall ?]. apply andb_true_iff in Hall as [Hall ?].
  apply andb_true_iff in Hall as [Hall ?]. apply Nat.leb_le in Hall. lia.
Qed.

Lemma distance_tables di :
  0 <= di < zlen deflateDistanceBase -> (distance_extra di <= 13)%nat /\ 1 <= nthb deflateDistanceBase di /\
  nthb deflateDistanceExtra di = Z.of_nat (distance_extra di).
Proof.
  intros H. assert (Hall : forallb (fun i => (distance_extra i <=? 13)%nat && (1 <=? nthb deflateDistanceBase i)
    && (nthb deflateDistanceExtra i =? Z.of_nat (distance_extra i))) (seqZ 0 30) = true) by (vm_compute; done).
  rewrite forallb_forall in Hall. specialize (Hall di). rewrite <- list_elem_of_In, elem_of_seqZ in Hall.
  change (zlen deflateDistanceBase) with 30 in H. specialize (Hall ltac:(lia)).
  apply andb_true_iff in Hall as [Hall ?]. apply andb_true_iff in Hall as [Hall ?]. apply Nat.leb_le in Hall. lia.
Qed.

(** Tokens only add output. *)
Lemma dtoken_grows lits dists history output t :
  dtoken_ok lits dists history output t -> zlen output < zlen (dtoken_apply history output t).
Proof.
  destruct t as [b|li lx di dx]; simpl; [rewrite zlen_app; unfold zlen; simpl; lia|].
  intros (Hli & _ & Hlx & _). rewrite zlen_dtoken_copy. pose proof (length_tables li Hli). unfold copy_length. lia.
Qed.

Lemma dtokens_grow lits dists history output ts :
  dtokens_ok lits dists history output ts -> zlen output <= zlen (dtokens_apply history output ts).
Proof.
  revert output. induction ts as [|t ts IH]; intros output; simpl; [lia|].
  intros [Ht Hts]. specialize (IH _ Hts). pose proof (dtoken_grows _ _ _ _ _ Ht).
  unfold dtokens_apply in *. simpl. lia.
Qed.

(** ** Compressed blocks *)

Lemma moved_trans r r1 r2 : moved r r1 -> moved r1 r2 -> moved r r2.
Proof. intros [_ H1] [H2 H3]. split; [done|congruence]. Qed.

Lemma code_bits_nonempty lens c s : code_ok lens c -> has_code lens s -> (1 <= length (code_bits lens s))%nat.
Proof.
  intros Hc Hs. rewrite length_code_bits. pose proof (code_len_bound 15 lens s (co_prefix _ _ Hc) Hs). lia.
Qed.

Lemma length_dtokens_bits lits dists cl history output ts :
  code_ok lits cl -> dtokens_ok lits dists history output ts ->
  (length ts <= length (ts ≫= dtoken_bits lits dists))%nat.
Proof.
  intros Hc. revert output. induction ts as [|t ts IH]; intros output; [done|]. intros [Ht Hts].
  specialize (IH _ Hts). rewrite bind_cons, length_app. simpl length. enough (1 <= length (dtoken_bits lits dists t))%nat by lia.
  destruct t as [b|li lx di dx]; simpl in *.
  - eapply code_bits_nonempty; [done|]. apply Ht.
  - destruct Ht as (_ & Hs & _). rewrite length_app. pose proof (code_bits_nonempty _ _ _ Hc Hs). lia.
Qed.

Section compressed.
Context (lits dists : list Z) (literals distances : deflateCode).
Hypothesis Hlits : code_ok lits literals.
Hypothesis Hdists : code_ok dists distances.

(** Reading the four fields of a copy. *)
Lemma copy_fields history output li lx di dx r rest :
  dtoken_ok lits dists history output (DCopy li lx di dx) -> reader_ok 8 r ->
  stream r = dtoken_bits lits dists (DCopy li lx di dx) ++ rest ->
  exists r1 r2 r3 r4, deflate_decode literals r = Ok (257 + li, r1) /\
    deflate_read r1 (nthb deflateLengthExtra li) = Ok (lx, r2) /\
    deflate_decode distances r2 = Ok (di, r3) /\
    deflate_read r3 (nthb deflateDistanceExtra di) = Ok (dx, r4) /\ moved r r4 /\ stream r4 = rest.
Proof.
  intros (Hli & Hcl & Hlx & Hdi & Hcd & Hdx & Hdist) Hr Hst. simpl dtoken_bits in Hst. rewrite <- !app_assoc in Hst.
  pose proof (length_tables li Hli) as (Hle & Hlb & Hex).
  pose proof (distance_tables di ltac:(destruct Hcd; lia)) as (Hde & Hdb & Hdex).
  destruct (deflate_decode_complete lits literals (257 + li) _ r Hlits Hcl Hr Hst) as (r1 & E1 & Hm1 & Hs1).
  destruct (read_field r1 (length_extra li) lx _ ltac:(apply Hm1) ltac:(lia) Hlx Hs1) as (r2 & E2 & Hr2 & Hs2 & Hd2).
  destruct (deflate_decode_complete dists distances di _ r2 Hdists Hcd Hr2 Hs2) as (r3 & E3 & Hm3 & Hs3).
  destruct (read_field r3 (distance_extra di) dx _ ltac:(apply Hm3) ltac:(lia) Hdx Hs3) as (r4 & E4 & Hr4 & Hs4 & Hd4).
  exists r1, r2, r3, r4. rewrite Hex, Hdex. do 4 (split; [done|]). split; [|done].
  eapply moved_trans; [exact Hm1|]. eapply moved_trans; [split; [exact Hr2|done]|].
  eapply moved_trans; [exact Hm3|]. done.
Qed.

Lemma inflate_complete fuel ts history output limit r rest :
  has_code lits 256 -> dtokens_ok lits dists history output ts ->
  zlen (dtokens_apply history output ts) <= limit -> (length ts < fuel)%nat ->
  reader_ok 8 r -> stream r = dtokens_bits lits dists ts ++ rest ->
  exists r', inflateCompressedBlock fuel r output history limit literals distances
    = Ok (dtokens_apply history output ts, r') /\ moved r r' /\ stream r' = rest.
Proof.
  intros Heob. revert ts output r. induction fuel as [|fuel IH]; intros ts output r Hts Hlim Hfuel Hr Hst; [lia|].
  cbn [inflateCompressedBlock]. destruct ts as [|t ts].
  { destruct (deflate_decode_complete lits literals 256 rest r) as (r1 & -> & Hm & Hs1); [done..|].
    exists r1. done. }
  simpl in Hfuel. destruct Hts as [Ht Hts]. pose proof (dtoken_grows _ _ _ _ _ Ht) as Hg.
  pose proof (dtokens_grow _ _ _ _ _ Hts) as Hg'. unfold dtokens_apply in Hlim. simpl in Hlim.
  fold (dtokens_apply history (dtoken_apply history output t) ts) in Hlim.
  unfold dtokens_bits in Hst. rewrite bind_cons, <- !app_assoc in Hst.
  change ((ts ≫= dtoken_bits lits dists) ++ code_bits lits 256 ++ rest) with
    ((ts ≫= dtoken_bits lits dists) ++ (code_bits lits 256 ++ rest)) in Hst.
  rewrite (app_assoc (ts ≫= _)) in Hst. fold (dtokens_bits lits dists ts) in Hst.
  destruct t as [b|li lx di dx].
  - destruct Ht as [Hb Hcode]. assert (0 <= b) by (destruct Hcode; lia).
    destruct (deflate_decode_complete lits literals b (dtokens_bits lits dists ts ++ rest) r)
      as (r1 & -> & Hm & Hs1); [done..|]. cbn [res_bind].
    destruct (Z.ltb_spec b 256); [|lia]. destruct (Z.leb_spec limit (zlen output)); [lia|].
    rewrite u8_id by lia. destruct (IH ts (output ++ [b]) r1) as (r' & E & Hm' & Hs'); [done|done|lia|apply Hm|done|].
    exists r'. split; [done|]. split; [by eapply moved_trans|done].
  - destruct (copy_fields history output li lx di dx r _ Ht Hr Hst) as (r1 & r2 & r3 & r4 & -> & E2 & E3 & E4 & Hm & Hs4).
    destruct Ht as (Hli & _ & Hlx & Hdi & [Hdi0 _] & Hdx & Hdist).
    cbn [res_bind]. destruct (Z.ltb_spec (257 + li) 256); [lia|]. destruct (Z.eqb_spec (257 + li) 256); [lia|].
    replace (257 + li - 257) with li by lia.
    replace ((li <? 0) || (zlen deflateLengthBase <=? li)) with false by lia.
    rewrite E2. cbn [res_bind]. rewrite E3. cbn [res_bind].
    replace ((di <? 0) || (zlen deflateDistanceBase <=? di)) with false by lia.
    rewrite E4. cbn [res_bind]. fold (copy_distance di dx) (copy_length li lx).
    pose proof (length_tables li Hli). pose proof (distance_tables di ltac:(lia)).
    simpl dtoken_apply in *. rewrite zlen_dtoken_copy in *.
    assert (Hlen : 0 < copy_length li lx) by (unfold copy_length; lia).
    assert (Hd1 : 1 <= copy_distance di dx) by (unfold copy_distance; lia).
    destruct (Z.ltb_spec (zlen history + zlen output) (copy_distance di dx)); [lia|].
    destruct (Z.ltb_spec (limit - zlen output) (copy_length li lx)); [lia|].
    rewrite copy_match_spec by lia. cbn [res_bind].
    destruct (IH ts _ r4 Hts Hlim ltac:(lia) ltac:(apply Hm) Hs4) as (r' & E & Hm' & Hs').
    rewrite E. exists r'. split; [done|]. split; [by eapply moved_trans|done].
Qed.

Lemma inflate_sound fuel history output limit r :
  reader_ok 8 r -> (length (stream r) < fuel)%nat -> zlen output <= limit ->
  match inflateCompressedBlock fuel r output history limit literals distances with
  | Ok (out, r') => exists ts, dtokens_ok lits dists history output ts /\
      out = dtokens_apply history output ts /\ zlen out <= limit /\ has_code lits 256 /\
      moved r r' /\ stream r = dtokens_bits lits dists ts ++ stream r'
  | Err e => e <> Panic /\ e <> OutOfFuel
  end.
Proof.
  revert output r. induction fuel as [|fuel IH]; intros output r Hr Hfuel Hlim; [lia|].
  cbn [inflateCompressedBlock]. pose proof (deflate_decode_sound lits literals r Hlits Hr) as Hdec.
  destruct (deflate_decode literals r) as [[s r1]|e]; cbn [res_bind]; [|done].
  destruct Hdec as (Hs & Hm1 & Hst). pose proof (code_bits_nonempty _ _ _ Hlits Hs) as Hne.
  assert (Hs0 : 0 <= s) by (destruct Hs; lia).
  assert (Hfuel1 : (length (stream r1) < fuel)%nat) by (rewrite Hst, length_app in Hfuel; lia).
  destruct (Z.ltb_spec s 256).
  - destruct (Z.leb_spec limit (zlen output)); [done|].
    rewrite u8_id by lia. specialize (IH (output ++ [s]) r1 ltac:(apply Hm1) Hfuel1).
    specialize (IH ltac:(rewrite zlen_app; unfold zlen at 2; simpl; lia)).
    destruct (inflateCompressedBlock _ _ _ _ _ _ _) as [[out r']|e]; [|done].
    destruct IH as (ts & K1 & K2 & K3 & K4 & K5 & K6). exists (DLiteral s :: ts).
    split; [done|]. split; [done|]. split; [done|]. split; [done|]. split; [by eapply moved_trans|].
    unfold dtokens_bits in *. rewrite bind_cons, <- !app_assoc, Hst, K6, <- app_assoc. done.
  - destruct (Z.eqb_spec s 256) as [->|]; [by exists []|].
    destruct ((s - 257 <? 0) || (zlen deflateLengthBase <=? s - 257)) eqn:Eli; [done|].
    set (li := s - 257) in *. assert (Hli : 0 <= li < zlen deflateLengthBase) by lia.
    pose proof (length_tables li Hli) as (Hle & Hlb & Hex). rewrite Hex.
    destruct (deflate_read r1 (Z.of_nat (length_extra li))) as [[lx r2]|e] eqn:E2; cbn [res_bind];
      [|eapply read_err; [apply Hm1| |exact E2]; lia].
    apply read_inv in E2 as (Hlx & Hst2 & Hr2 & Hd2); [|apply Hm1|lia].
    pose proof (deflate_decode_sound dists distances r2 Hdists Hr2) as Hdec.
    destruct (deflate_decode distances r2) as [[di r3]|e]; cbn [res_bind]; [|done].
    destruct Hdec as (Hdi & Hm3 & Hst3).
    destruct ((di <? 0) || (zlen deflateDistanceBase <=? di)) eqn:Edi; [done|].
    pose proof (distance_tables di ltac:(lia)) as (Hde & Hdb & Hdex). rewrite Hdex.
    destruct (deflate_read r3 (Z.of_nat (distance_extra di))) as [[dx r4]|e] eqn:E4; cbn [res_bind];
      [|eapply read_err; [apply Hm3| |exact E4]; lia].
    apply read_inv in E4 as (Hdx & Hst4 & Hr4 & Hd4); [|apply Hm3|lia].
    fold (copy_distance di dx) (copy_length li lx).
    assert (Hd1 : 1 <= copy_distance di dx) by (unfold copy_distance; lia).
    assert (Hl1 : 0 < copy_length li lx) by (unfold copy_length; lia).
    destruct (Z.ltb_spec (zlen history + zlen output) (copy_distance di dx)); [done|].
    destruct (Z.ltb_spec (limit - zlen output) (copy_length li lx)); [done|].
    rewrite copy_match_spec by lia. cbn [res_bind].
    assert (Hst' : stream r = dtoken_bits lits dists (DCopy li lx di dx) ++ stream r4).
    { simpl. rewrite <- !app_assoc, <- Hst4, <- Hst3, <- Hst2, Hst. by replace (257 + li) with s by lia. }
    specialize (IH (dtoken_apply history output (DCopy li lx di dx)) r4 Hr4).
    specialize (IH ltac:(rewrite Hst2, Hst3, Hst4, !length_app in Hfuel1; lia)).
    specialize (IH ltac:(simpl; rewrite zlen_dtoken_copy; lia)). simpl dtoken_apply in IH.
    destruct (inflateCompressedBlock _ _ _ _ _ _ _) as [[out r']|e]; [|done].
    destruct IH as (ts & K1 & K2 & K3 & K4 & K5 & K6). exists (DCopy li lx di dx :: ts).
    split; [|split; [done|split; [done|split; [done|split]]]].
    + split; [|done]. simpl. replace (257 + li) with s by lia.
      split; [done|]. split; [done|]. split; [done|]. split; [lia|]. done.
    + eapply moved_trans; [exact Hm1|]. eapply moved_trans; [split; [exact Hr2|done]|].
      eapply moved_trans; [exact Hm3|]. by eapply moved_trans; [split; [exact Hr4|done]|].
    + unfold dtokens_bits in *. rewrite bind_cons, <- app_assoc, Hst', K6, <- !app_assoc. done.
Qed.
End compressed.

(** ** Dynamic headers *)

Lemma newDeflateCode_complete lens :
  prefix_code 15 lens -> exists c, newDeflateCode lens = Ok c /\ code_ok lens c.
Proof.
  intros Hp. pose proof (newDeflateCode_spec lens) as H.
  specialize (H ltac:(eapply Forall_impl; [apply (pc_range _ _ Hp)|]; simpl; lia)).
  destruct (newDeflateCode lens) as [c|e]; [by exists c|by destruct H].
Qed.

Lemma read_codeLengths_complete fields index acc r rest :
  Forall (fun f => 0 <= f < 8) fields -> reader_ok 8 r -> stream r = (fields ≫= bits_of 3) ++ rest ->
  exists r', read_codeLengths (length fields) index acc r = Ok (scatter index acc fields, r') /\ moved r r' /\
    stream r' = rest.
Proof.
  intros HF. revert index acc r. induction HF as [|f fields Hf HF IH]; intros index acc r Hr Hst; [by exists r|].
  rewrite bind_cons, <- app_assoc in Hst.
  destruct (read_field r 3 f _ Hr ltac:(lia) Hf Hst) as (r1 & E & Hr1 & Hs1 & Hd1).
  cbn [length read_codeLengths]. change (Z.of_nat 3) with 3 in E. rewrite E. cbn [res_bind]. rewrite u8_id by lia.
  destruct (IH (index + 1) (<[Z.to_nat (nthb deflateCodeLengthOrder index):=f]> acc) r1 Hr1 Hs1) as (r' & -> & Hm & Hs').
  exists r'. split; [done|]. split; [|done]. by eapply moved_trans; [split; [exact Hr1|done]|].
Qed.

Lemma read_codeLengths_sound n index acc r :
  reader_ok 8 r ->
  match read_codeLengths n index acc r with
  | Ok (cl, r') => exists fields, length fields = n /\ Forall (fun f => 0 <= f < 8) fields /\
      cl = scatter index acc fields /\ moved r r' /\ stream r = (fields ≫= bits_of 3) ++ stream r'
  | Err e => e <> Panic /\ e <> OutOfFuel
  end.
Proof.
  revert index acc r. induction n as [|n IH]; intros index acc r Hr; [by exists []|].
  cbn [read_codeLengths]. destruct (deflate_read r 3) as [[f r1]|e] eqn:E; cbn [res_bind];
    [|by eapply (read_err r 3); [|lia|]].
  apply (read_inv r 3) in E as (Hf & Hst & Hr1 & Hd1); [|done|lia]. change (2 ^ Z.of_nat 3) with 8 in Hf.
  rewrite u8_id by lia.
  specialize (IH (index + 1) (<[Z.to_nat (nthb deflateCodeLengthOrder index):=f]> acc) r1 Hr1).
  destruct (read_codeLengths _ _ _ _) as [[cl r']|e]; [|done].
  destruct IH as (fields & <- & HF & -> & Hm & Hst'). exists (f :: fields).
  split; [done|]. split; [by constructor|]. split; [done|].
  split; [by eapply moved_trans; [split; [exact Hr1|done]|]|]. rewrite bind_cons, <- app_assoc, Hst, Hst'. done.
Qed.

Lemma scatter_nonneg fields index acc :
  Forall (fun f => 0 <= f < 8) fields -> Forall (fun l => 0 <= l) acc -> Forall (fun l => 0 <= l) (scatter index acc fields).
Proof.
  intros HF. revert index acc. induction HF as [|f fields Hf HF IH]; intros index acc Ha; [done|].
  simpl. apply IH, Forall_insert; [done|lia].
Qed.

Section runs.
Context (cl : list Z) (c : deflateCode).
Hypothesis Hcl : code_ok cl c.

Lemma code_length_run_complete lengths u r rest :
  run_ok cl lengths u -> reader_ok 8 r -> stream r = run_bits cl u ++ rest ->
  exists r', code_length_run c lengths r = Ok (run_apply lengths u, r') /\ moved r r' /\ stream r' = rest.
Proof.
  intros Hu Hr Hst. unfold code_length_run.
  assert (Hextra : forall s (n : nat) k, stream r = (code_bits cl s ++ bits_of n k) ++ rest -> has_code cl s ->
    (n <= 32)%nat -> 0 <= k < 2 ^ Z.of_nat n -> exists r1 r2, deflate_decode c r = Ok (s, r1) /\
      deflate_read r1 (Z.of_nat n) = Ok (k, r2) /\ moved r r2 /\ stream r2 = rest).
  { intros s n k Hst' Hs Hn Hk. rewrite <- app_assoc in Hst'.
    destruct (deflate_decode_complete cl c s _ r Hcl Hs Hr Hst') as (r1 & E1 & Hm1 & Hs1).
    destruct (read_field r1 n k _ ltac:(apply Hm1) Hn Hk Hs1) as (r2 & E2 & Hr2 & Hs2 & Hd2).
    exists r1, r2. split; [done|]. split; [done|]. split; [|done]. by eapply moved_trans; [exact Hm1|]. }
  destruct u as [n|k|k|k]; simpl in Hu, Hst.
  - destruct Hu as [Hn Hn15]. destruct (deflate_decode_complete cl c n _ r Hcl Hn Hr Hst) as (r1 & -> & Hm1 & Hs1).
    cbn [res_bind]. destruct (Z.leb_spec n 15); [|lia]. rewrite u8_id by (destruct Hn; lia). by exists r1.
  - destruct Hu as (Hs & Hne & Hk). destruct (Hextra 16 2%nat k Hst Hs) as (r1 & r2 & -> & E2 & Hm & Hs2); [lia|done|].
    cbn [res_bind]. change (Z.of_nat 2) with 2 in E2. destruct (Z.leb_spec 16 15); [lia|]. rewrite Z.eqb_refl.
    destruct (Z.eqb_spec (zlen lengths) 0) as [E|]; [by apply zlen_0_nil in E|]. rewrite E2. by exists r2.
  - destruct Hu as (Hs & Hk). destruct (Hextra 17 3%nat k Hst Hs) as (r1 & r2 & -> & E2 & Hm & Hs2); [lia|done|].
    cbn [res_bind]. change (Z.of_nat 3) with 3 in E2. change (17 <=? 15) with false. change (17 =? 16) with false.
    rewrite Z.eqb_refl, E2. by exists r2.
  - destruct Hu as (Hs & Hk). destruct (Hextra 18 7%nat k Hst Hs) as (r1 & r2 & -> & E2 & Hm & Hs2); [lia|done|].
    cbn [res_bind]. change (Z.of_nat 7) with 7 in E2. change (18 <=? 15) with false. change (18 =? 16) with false.
    change (18 =? 17) with false. rewrite Z.eqb_refl, E2. by exists r2.
Qed.

Lemma code_length_run_sound lengths r :
  reader_ok 8 r ->
  match code_length_run c lengths r with
  | Ok (lengths', r') => exists u, run_ok cl lengths u /\ lengths' = run_apply lengths u /\ moved r r' /\
      stream r = run_bits cl u ++ stream r'
  | Err e => e <> Panic /\ e <> OutOfFuel
  end.
Proof.
  intros Hr. unfold code_length_run. pose proof (deflate_decode_sound cl c r Hcl Hr) as Hdec.
  destruct (deflate_decode c r) as [[s r1]|e]; cbn [res_bind]; [|done]. destruct Hdec as (Hs & Hm1 & Hst).
  assert (Hextra : forall (n : nat), (n <= 32)%nat ->
    match deflate_read r1 (Z.of_nat n) with
    | Ok (k, r2) => 0 <= k < 2 ^ Z.of_nat n /\ moved r r2 /\ stream r = (code_bits cl s ++ bits_of n k) ++ stream r2
    | Err e => e <> Panic /\ e <> OutOfFuel
    end).
  { intros n Hn. destruct (deflate_read r1 (Z.of_nat n)) as [[k r2]|e] eqn:E;
      [|by eapply read_err; [apply Hm1| |exact E]].
    apply read_inv in E as (Hk & Hst2 & Hr2 & Hd2); [|apply Hm1|done].
    split; [done|]. split; [by eapply moved_trans; [exact Hm1|]|]. by rewrite <- app_assoc, <- Hst2. }
  destruct (Z.leb_spec s 15).
  { exists (RunLength s). rewrite u8_id by (destruct Hs; lia). done. }
  destruct (Z.eqb_spec s 16) as [->|].
  { destruct (Z.eqb_spec (zlen lengths) 0) as [|Hne]; [done|]. specialize (Hextra 2%nat ltac:(lia)).
    change (Z.of_nat 2) with 2 in Hextra. destruct (deflate_read r1 2) as [[k r2]|e]; cbn [res_bind]; [|done].
    destruct Hextra as (Hk & Hm & Hst2). exists (RunRepeat k). split; [|done].
    split; [done|]. split; [|done]. intros ->. done. }
  destruct (Z.eqb_spec s 17) as [->|].
  { specialize (Hextra 3%nat ltac:(lia)). change (Z.of_nat 3) with 3 in Hextra.
    destruct (deflate_read r1 3) as [[k r2]|e]; cbn [res_bind]; [|done].
    destruct Hextra as (Hk & Hm & Hst2). by exists (RunZeros k). }
  destruct (Z.eqb_spec s 18) as [->|]; [|done].
  specialize (Hextra 7%nat ltac:(lia)). change (Z.of_nat 7) with 7 in Hextra.
  destruct (deflate_read r1 7) as [[k r2]|e]; cbn [res_bind]; [|done].
  destruct Hextra as (Hk & Hm & Hst2). by exists (RunManyZeros k).
Qed.

Lemma run_grows lengths u : run_ok cl lengths u -> zlen lengths < zlen (run_apply lengths u).
Proof.
  destruct u as [n|k|k|k]; simpl; rewrite zlen_app; [unfold zlen at 3; simpl; lia|..]; intros H;
    rewrite zlen_replicate; lia.
Qed.

Lemma runs_complete fuel total lengths us r rest :
  runs_ok cl total lengths us -> total - zlen lengths <= Z.of_nat fuel -> reader_ok 8 r ->
  stream r = (us ≫= run_bits cl) ++ rest ->
  exists r', read_lengths fuel c total lengths r = Ok (foldl run_apply lengths us, r') /\ moved r r' /\
    stream r' = rest.
Proof.
  revert fuel lengths r. induction us as [|u us IH]; intros fuel lengths r Hu Hf Hr Hst.
  { simpl in Hu. exists r. destruct fuel; simpl; by replace (zlen lengths <? total) with false by lia. }
  destruct Hu as (Hlt & Hu & Hle & Hus). pose proof (run_grows _ _ Hu). destruct fuel as [|fuel]; [lia|].
  rewrite bind_cons, <- app_assoc in Hst. cbn [read_lengths]. destruct (Z.ltb_spec (zlen lengths) total); [|lia].
  destruct (code_length_run_complete lengths u r _ Hu Hr Hst) as (r1 & -> & Hm1 & Hs1). cbn [res_bind].
  destruct (Z.ltb_spec total (zlen (run_apply lengths u))); [lia|].
  destruct (IH fuel (run_apply lengths u) r1 Hus ltac:(lia) ltac:(apply Hm1) Hs1) as (r' & -> & Hm & Hs').
  exists r'. split; [done|]. split; [by eapply moved_trans|done].
Qed.

Lemma runs_sound fuel total lengths r :
  total - zlen lengths <= Z.of_nat fuel -> zlen lengths <= total -> reader_ok 8 r ->
  match read_lengths fuel c total lengths r with
  | Ok (lengths', r') => exists us, runs_ok cl total lengths us /\ lengths' = foldl run_apply lengths us /\
      moved r r' /\ stream r = (us ≫= run_bits cl) ++ stream r'
  | Err e => e <> Panic /\ e <> OutOfFuel
  end.
Proof.
  revert lengths r. induction fuel as [|fuel IH]; intros lengths r Hf Hle Hr; cbn [read_lengths];
    (destruct (Z.ltb_spec (zlen lengths) total); [|exists []; split; [simpl; lia|done]]); [lia|].
  pose proof (code_length_run_sound lengths r Hr) as Hrun.
  destruct (code_length_run c lengths r) as [[lengths1 r1]|e]; cbn [res_bind]; [|done].
  destruct Hrun as (u & Hu & -> & Hm & Hst). pose proof (run_grows _ _ Hu).
  destruct (Z.ltb_spec total (zlen (run_apply lengths u))); [done|].
  specialize (IH (run_apply lengths u) r1 ltac:(lia) ltac:(lia) ltac:(apply Hm)).
  destruct (read_lengths _ _ _ _ _) as [[lengths' r']|e]; [|done].
  destruct IH as (us & Hus & -> & Hm' & Hst'). exists (u :: us).
  split; [done|]. split; [done|]. split; [by eapply moved_trans|].
  rewrite bind_cons, <- app_assoc, Hst, Hst'. done.
Qed.

(** The lengths the runs build are not negative, and there are [total] of
    them. *)
Lemma runs_lengths total lengths us :
  runs_ok cl total lengths us -> Forall (fun l => 0 <= l) lengths ->
  Forall (fun l => 0 <= l) (foldl run_apply lengths us) /\ zlen (foldl run_apply lengths us) = total.
Proof.
  revert lengths. induction us as [|u us IH]; intros lengths; [done|].
  intros (Hlt & Hu & Hle & Hus) Hnn. simpl. apply IH; [done|].
  assert (Hlast : 0 <= nthb lengths (zlen lengths - 1)).
  { destruct (decide (0 < zlen lengths)); [|by rewrite nthb_out by lia].
    rewrite Forall_lookup in Hnn. apply (Hnn (Z.to_nat (zlen lengths - 1))). apply nthb_lookup. lia. }
  destruct u as [n|k|k|k]; simpl in *; apply Forall_app; split; try done.
  - apply Forall_singleton. destruct Hu as [[? _] _]. lia.
  - by apply Forall_replicate.
  - by apply Forall_replicate.
  - by apply Forall_replicate.
Qed.
End runs.

(** Reading one field, as [dynamicDeflateCodes] does. *)
Lemma read_known r (n : nat) m v rest :
  m = Z.of_nat n -> reader_ok 8 r -> (n <= 32)%nat -> 0 <= v < 2 ^ Z.of_nat n -> stream r = bits_of n v ++ rest ->
  exists r', deflate_read r m = Ok (v, r') /\ moved r r' /\ stream r' = rest.
Proof.
  intros -> Hr Hn Hv Hst. destruct (read_field r n v rest Hr Hn Hv Hst) as (r' & E & Hr' & Hs & Hd). by exists r'.
Qed.

Lemma read_any r (n : nat) m :
  m = Z.of_nat n -> reader_ok 8 r -> (n <= 32)%nat ->
  match deflate_read r m with
  | Ok (v, r') => 0 <= v < 2 ^ Z.of_nat n /\ moved r r' /\ stream r = bits_of n v ++ stream r'
  | Err e => e <> Panic /\ e <> OutOfFuel
  end.
Proof.
  intros -> Hr Hn. destruct (deflate_read r _) as [[v r']|e] eqn:E; [|by eapply read_err].
  by apply read_inv in E as (Hv & Hst & Hr' & Hd).
Qed.

Lemma dh_end_nthb h :
  257 <= dh_literals h -> zlen (dh_lengths h) = dh_literals h + dh_distances h -> 0 < dh_distances h ->
  Forall (fun l => 0 <= l) (dh_lengths h) ->
  (nthb (dh_lengths h) 256 =? 0) = false <-> has_code (dh_lits h) 256.
Proof.
  intros Hl Hlen Hd Hnn. unfold has_code, dh_lits. rewrite nthb_take by lia.
  assert (Hz : zlen (take (Z.to_nat (dh_literals h)) (dh_lengths h)) = dh_literals h).
  { unfold zlen in *. rewrite length_take. lia. }
  rewrite Forall_lookup in Hnn. specialize (Hnn _ _ (nthb_lookup (dh_lengths h) 256 ltac:(lia))). simpl in Hnn. lia.
Qed.

Lemma dynamic_complete h r rest :
  header_ok h -> reader_ok 8 r -> stream r = header_bits h ++ rest ->
  exists literals distances r', dynamicDeflateCodes r = Ok (literals, distances, r') /\
    code_ok (dh_lits h) literals /\ code_ok (dh_dists h) distances /\ moved r r' /\ stream r' = rest.
Proof.
  intros [Hl Hd Hn Hf Hc Hruns Hlits Hend Hdists] Hr Hst. unfold header_bits in Hst. rewrite <- !app_assoc in Hst.
  unfold dynamicDeflateCodes.
  destruct (read_known r 5 5 (dh_literals h - 257) _ eq_refl Hr ltac:(lia) ltac:(simpl; lia) Hst) as (r1 & -> & Hm1 & Hs1). cbn [res_bind].
  destruct (read_known r1 5 5 (dh_distances h - 1) _ eq_refl ltac:(apply Hm1) ltac:(lia) ltac:(simpl; lia) Hs1) as (r2 & -> & Hm2 & Hs2). cbn [res_bind].
  destruct (read_known r2 4 4 (zlen (dh_fields h) - 4) _ eq_refl ltac:(apply Hm2) ltac:(lia) ltac:(simpl; lia) Hs2) as (r3 & -> & Hm3 & Hs3). cbn [res_bind].
  replace (Z.to_nat (zlen (dh_fields h) - 4 + 4)) with (length (dh_fields h)) by (unfold zlen in *; lia).
  destruct (read_codeLengths_complete (dh_fields h) 0 (replicate 19 0) r3 _ Hf ltac:(apply Hm3) Hs3) as (r4 & -> & Hm4 & Hs4).
  cbn [res_bind]. fold (dh_code h).
  destruct (newDeflateCode_complete (dh_code h) Hc) as (c & -> & Hcok). cbn [res_bind].
  replace (dh_literals h - 257 + 257 + (dh_distances h - 1 + 1)) with (dh_literals h + dh_distances h) by lia.
  replace (dh_literals h - 257 + 257) with (dh_literals h) by lia.
  destruct (runs_complete (dh_code h) c Hcok (Z.to_nat (dh_literals h + dh_distances h)) _ [] _ r4 _ Hruns
    ltac:(rewrite zlen_nil; lia) ltac:(apply Hm4) Hs4) as (r5 & -> & Hm5 & Hs5).
  cbn [res_bind]. fold (dh_lengths h). fold (dh_lits h). fold (dh_dists h).
  destruct (newDeflateCode_complete (dh_lits h) Hlits) as (literals & -> & Hlok). cbn [res_bind].
  destruct (runs_lengths (dh_code h) _ [] _ Hruns ltac:(done)) as [Hnn Hlen].
  rewrite (proj2 (dh_end_nthb h ltac:(lia) Hlen ltac:(lia) Hnn) Hend).
  destruct (newDeflateCode_complete (dh_dists h) Hdists) as (distances & -> & Hdok). cbn [res_bind].
  exists literals, distances, r5. do 3 (split; [done|]). split; [|done].
  eapply moved_trans; [exact Hm1|]. eapply moved_trans; [exact Hm2|]. eapply moved_trans; [exact Hm3|].
  by eapply moved_trans.
Qed.

Lemma dynamic_sound r :
  reader_ok 8 r ->
  match dynamicDeflateCodes r with
  | Ok (literals, distances, r') => exists h, header_ok h /\ code_ok (dh_lits h) literals /\
      code_ok (dh_dists h) distances /\ moved r r' /\ stream r = header_bits h ++ stream r'
  | Err e => e <> Panic /\ e <> OutOfFuel
  end.
Proof.
  intros Hr. unfold dynamicDeflateCodes.
  pose proof (read_any r 5 5 eq_refl Hr ltac:(lia)) as H.
  destruct (deflate_read r 5) as [[hlit r1]|e]; cbn [res_bind]; [|done]. destruct H as (Hl & Hm1 & Hs1).
  pose proof (read_any r1 5 5 eq_refl ltac:(apply Hm1) ltac:(lia)) as H.
  destruct (deflate_read r1 5) as [[hdist r2]|e]; cbn [res_bind]; [|done]. destruct H as (Hd & Hm2 & Hs2).
  pose proof (read_any r2 4 4 eq_refl ltac:(apply Hm2) ltac:(lia)) as H.
  destruct (deflate_read r2 4) as [[hclen r3]|e]; cbn [res_bind]; [|done]. destruct H as (Hn & Hm3 & Hs3).
  change (2 ^ Z.of_nat 5) with 32 in *. change (2 ^ Z.of_nat 4) with 16 in *.
  pose proof (read_codeLengths_sound (Z.to_nat (hclen + 4)) 0 (replicate 19 0) r3 ltac:(apply Hm3)) as H.
  destruct (read_codeLengths _ _ _ _) as [[cl r4]|e]; cbn [res_bind]; [|done].
  destruct H as (fields & Hfl & Hf & -> & Hm4 & Hs4).
  pose proof (newDeflateCode_spec (scatter 0 (replicate 19 0) fields)) as H.
  specialize (H ltac:(apply scatter_nonneg; [done|by apply Forall_replicate])).
  destruct (newDeflateCode _) as [c|e]; cbn [res_bind]; [|apply H].
  set (total := hlit + 257 + (hdist + 1)).
  pose proof (runs_sound _ c H (Z.to_nat total) total [] r4 ltac:(rewrite zlen_nil; lia) ltac:(rewrite zlen_nil; lia)
    ltac:(apply Hm4)) as H4.
  destruct (read_lengths _ _ _ _ _) as [[lengths r5]|e]; cbn [res_bind]; [|done].
  destruct H4 as (us & Hus & -> & Hm5 & Hs5).
  destruct (runs_lengths _ _ _ _ Hus ltac:(done)) as [Hnn Hlen].
  set (h := DynamicHeader (hlit + 257) (hdist + 1) fields us).
  change (foldl run_apply [] us) with (dh_lengths h) in *.
  change (take (Z.to_nat (hlit + 257)) (dh_lengths h)) with (dh_lits h).
  change (drop (Z.to_nat (hlit + 257)) (dh_lengths h)) with (dh_dists h).
  pose proof (newDeflateCode_spec (dh_lits h) (Forall_take _ _ _ Hnn)) as Hlits.
  destruct (newDeflateCode (dh_lits h)) as [literals|e]; cbn [res_bind]; [|apply Hlits].
  destruct (nthb (dh_lengths h) 256 =? 0) eqn:Eend; [done|].
  apply (dh_end_nthb h) in Eend; [|simpl; lia|done|simpl; lia|done].
  pose proof (newDeflateCode_spec (dh_dists h) (Forall_drop _ _ _ Hnn)) as Hdists.
  destruct (newDeflateCode (dh_dists h)) as [distances|e]; cbn [res_bind]; [|apply Hdists].
  exists h. split; [|split; [done|split; [done|split]]].
  - constructor; simpl; try lia; try done; [unfold zlen; lia|apply H|apply Hlits|apply Hdists].
  - eapply moved_trans; [exact Hm1|]. eapply moved_trans; [exact Hm2|]. eapply moved_trans; [exact Hm3|].
    by eapply moved_trans.
  - unfold header_bits, dh_code, h. cbn [dh_literals dh_distances dh_fields dh_runs].
    replace (hlit + 257 - 257) with hlit by lia. replace (hdist + 1 - 1) with hdist by lia.
    replace (zlen fields - 4) with hclen by (unfold zlen; lia).
    rewrite <- !app_assoc, <- Hs5, <- Hs4, <- Hs3, <- Hs2. done.
Qed.

(** ** Stored blocks *)

(** The reader stands at bit [position] of its input. *)
Definition at_bit (position : nat) (r : deflateBitReader) : Prop :=
  reader_ok 8 r /\ (position + length (stream r) = 8 * length (dr_data r))%nat.

Lemma at_bit_move position r r' p :
  at_bit position r -> moved r r' -> stream r = p ++ stream r' -> at_bit (position + length p) r'.
Proof. intros [_ Hp] [Hr' Hd] Hs. split; [done|]. rewrite Hd. rewrite Hs, length_app in Hp. lia. Qed.

(** Aligning drops the rest of the byte the reader is in. *)
Lemma alignByte_spec position r :
  at_bit (position + 3) r ->
  reader_ok 8 (alignByte r) /\
  exists padding, padding_ok position padding /\ stream r = padding ++ stream (alignByte r).
Proof.
  intros [[Hd Hat Hc Hb] Hpos]. split.
  { constructor; simpl; [done|done|lia|lia]. }
  exists (bits_of (Z.to_nat (dr_count r)) (dr_bits r)). split; [|done].
  unfold stream in Hpos.
  rewrite length_app, length_bits_of, length_bytes_bits, length_drop in Hpos. unfold padding_ok, zlen in *.
  rewrite length_bits_of. split; [lia|].
  replace (position + 3 + Z.to_nat (dr_count r))%nat with (Z.to_nat (dr_byteAt r) * 8)%nat by lia.
  by rewrite Nat.Div0.mod_mul.
Qed.

(** The padding is unique. *)
Lemma alignByte_padding position r padding rest :
  at_bit (position + 3) r -> padding_ok position padding -> stream r = padding ++ rest -> stream (alignByte r) = rest.
Proof.
  intros Hr [Hp1 Hp2] Hs. destruct (alignByte_spec position r Hr) as (_ & q & [Hq1 Hq2] & Hs').
  rewrite Hs' in Hs. apply app_inj_1 in Hs as [_ Hs]; [done|].
  pose proof (Nat.div_mod_eq (position + 3 + length q) 8). pose proof (Nat.div_mod_eq (position + 3 + length padding) 8). lia.
Qed.

Lemma read_stored_complete payload output r rest :
  bytes_ok payload -> reader_ok 8 r -> stream r = bytes_bits payload ++ rest ->
  exists r', read_stored (length payload) output r = Ok (output ++ payload, r') /\ moved r r' /\ stream r' = rest.
Proof.
  intros HF. revert output r. induction HF as [|b payload Hb HF IH]; intros output r Hr Hst.
  { exists r. by rewrite app_nil_r. }
  rewrite bytes_bits_cons, <- app_assoc in Hst.
  destruct (read_known r 8 8 b _ eq_refl Hr ltac:(lia) Hb Hst) as (r1 & E & Hm & Hs1).
  cbn [length read_stored]. rewrite E. cbn [res_bind]. unfold byte_ok in Hb. rewrite u8_id by lia.
  destruct (IH (output ++ [b]) r1 ltac:(apply Hm) Hs1) as (r' & -> & Hm' & Hs').
  exists r'. rewrite <- app_assoc. split; [done|]. split; [by eapply moved_trans|done].
Qed.

Lemma read_stored_sound n output r :
  reader_ok 8 r ->
  match read_stored n output r with
  | Ok (out, r') => exists payload, length payload = n /\ bytes_ok payload /\ out = output ++ payload /\
      moved r r' /\ stream r = bytes_bits payload ++ stream r'
  | Err e => e <> Panic /\ e <> OutOfFuel
  end.
Proof.
  revert output r. induction n as [|n IH]; intros output r Hr.
  { exists []. rewrite app_nil_r. split; [done|]. split; [constructor|done]. }
  cbn [read_stored]. pose proof (read_any r 8 8 eq_refl Hr ltac:(lia)) as H.
  destruct (deflate_read r 8) as [[b r1]|e]; cbn [res_bind]; [|done]. destruct H as (Hb & Hm & Hst).
  change (2 ^ Z.of_nat 8) with 256 in Hb. rewrite u8_id by lia.
  specialize (IH (output ++ [b]) r1 ltac:(apply Hm)). destruct (read_stored _ _ _) as [[out r']|e]; [|done].
  destruct IH as (payload & <- & HF & -> & Hm' & Hst'). exists (b :: payload).
  split; [done|]. split; [by constructor|]. split; [by rewrite <- app_assoc|]. split; [by eapply moved_trans|].
  rewrite bytes_bits_cons, <- app_assoc, Hst, Hst'. done.
Qed.

Lemma lxor_ffff a : 0 <= a < 65536 -> Z.lxor a 0xffff = 0xffff - a.
Proof.
  intros Ha. change 0xffff with (Z.ones 16). rewrite Z.sub_nocarry_ldiff.
  - apply Z.bits_inj'. intros n Hn. rewrite Z.lxor_spec, Z.ldiff_spec.
    destruct (decide (n < 16)).
    + rewrite Z.ones_spec_low by lia. by destruct (Z.testbit a n).
    + rewrite Z.ones_spec_high by lia. replace (Z.testbit a n) with false; [done|].
      symmetry. destruct (decide (a = 0)) as [->|]; [apply Z.bits_0|].
      apply Z.bits_above_log2; [lia|]. assert (Z.log2 a < 16) by (apply Z.log2_lt_pow2; lia). lia.
  - apply Z.bits_inj'. intros n Hn. rewrite Z.ldiff_spec, Z.bits_0. destruct (decide (n < 16)).
    + rewrite Z.ones_spec_low by lia. apply andb_false_r.
    + replace (Z.testbit a n) with false; [done|]. symmetry. destruct (decide (a = 0)) as [->|]; [apply Z.bits_0|].
      apply Z.bits_above_log2; [lia|]. assert (Z.log2 a < 16) by (apply Z.log2_lt_pow2; lia). lia.
Qed.

(** The check of the complement. *)
Lemma complement_check a b :
  0 <= a < 65536 -> 0 <= b < 65536 -> Z.lxor (u16 a) (u16 b) = 0xffff <-> b = 0xffff - a.
Proof.
  intros Ha Hb. rewrite !u16_id by lia. rewrite <- lxor_ffff by lia. split.
  - intros <-. by rewrite <- Z.lxor_assoc, Z.lxor_nilpotent, Z.lxor_0_l.
  - intros ->. by rewrite <- Z.lxor_assoc, Z.lxor_nilpotent, Z.lxor_0_l.
Qed.

(** Two bytes as a 16-bit field. *)
Lemma bits_of_two b0 b1 :
  byte_ok b0 -> byte_ok b1 -> bits_of 16 (le_val [b0; b1]) = bytes_bits [b0; b1].
Proof.
  unfold byte_ok. intros H0 H1. replace (le_val [b0; b1]) with (b0 + b1 * 2 ^ Z.of_nat 8) by (simpl; lia).
  change 16%nat with (8 + 8)%nat. rewrite bits_of_or by (simpl; lia). rewrite !bytes_bits_cons.
  change (bytes_bits []) with (@nil bool). by rewrite app_nil_r.
Qed.

Lemma two_of_bits v : 0 <= v < 65536 -> exists b0 b1, byte_ok b0 /\ byte_ok b1 /\ v = le_val [b0; b1] /\
  u8 v = b0 /\ u8 (Z.shiftr v 8) = b1.
Proof.
  intros Hv. exists (v mod 256), (v / 256). unfold byte_ok. rewrite Z.shiftr_div_pow2 by lia. change (2 ^ 8) with 256.
  unfold u8. simpl. split_and!; lia.
Qed.

(** A stored block, with or without the complement of its length. *)
Lemma stored_complete position expected history output b r rest :
  block_type b = 0 -> block_ok position expected history output b ->
  zlen (block_apply history output b) <= expected -> at_bit (position + 3) r -> stream r = body_bits b ++ rest ->
  exists r', inflate_stored r output expected = Ok (block_apply history output b, r') /\ moved r r' /\ stream r' = rest.
Proof.
  intros Hty Hb Hle Hr Hst. destruct (alignByte_spec position r Hr) as [Hal _]. unfold inflate_stored.
  destruct b as [padding payload|padding payload|ts|h ts]; try done; cbn [body_bits block_ok block_apply] in Hb, Hst, Hle |- *.
  - destruct Hb as (Hpad & Hp & Hlen). pose proof (zlen_nonneg payload). rewrite <- !app_assoc in Hst.
    apply (alignByte_padding position) in Hst; [|done..].
    destruct (read_known (alignByte r) 16 16 (zlen payload) _ eq_refl Hal ltac:(lia) ltac:(simpl; lia) Hst) as (r1 & -> & Hm1 & Hs1).
    cbn [res_bind].
    destruct (read_known r1 16 16 (65535 - zlen payload) _ eq_refl ltac:(apply Hm1) ltac:(lia)
      ltac:(change (2 ^ Z.of_nat 16) with 65536; lia) Hs1) as (r2 & -> & Hm2 & Hs2).
    cbn [res_bind]. rewrite zlen_app in Hle.
    destruct (Z.ltb_spec (expected - zlen output) (zlen payload)); [lia|].
    rewrite (proj2 (complement_check (zlen payload) (65535 - zlen payload) ltac:(lia) ltac:(lia)) eq_refl).
    change (negb (65535 =? 65535)) with false. cbv iota. unfold zlen. rewrite Nat2Z.id.
    destruct (read_stored_complete payload output r2 rest Hp ltac:(apply Hm2) Hs2) as (r' & -> & Hm & Hs').
    exists r'. split; [done|]. split; [|done]. by eapply moved_trans; [exact Hm1|]; eapply moved_trans.
  - destruct Hb as (Hpad & Hp & Hlen & Hexp & Hx). rewrite <- !app_assoc in Hst.
    apply (alignByte_padding position) in Hst; [|done..].
    destruct payload as [|b0 [|b1 payload]]; [unfold zlen in Hlen; simpl in Hlen; lia..|].
    assert (Hb0 : byte_ok b0) by (by inversion Hp). assert (Hb1 : byte_ok b1) by (inversion Hp as [|?? _ Hp']; by inversion Hp').
    assert (Hp' : bytes_ok payload) by (inversion Hp as [|?? _ Hp']; by inversion Hp').
    assert (Hbb : bytes_bits (b0 :: b1 :: payload) = bits_of 16 (le_val [b0; b1]) ++ bytes_bits payload)
      by (by rewrite bits_of_two, <- bytes_bits_app by done).
    rewrite Hbb, <- app_assoc in Hst.
    destruct (read_known (alignByte r) 16 16 (zlen (b0 :: b1 :: payload)) _ eq_refl Hal ltac:(lia) ltac:(simpl; lia) Hst) as (r1 & -> & Hm1 & Hs1).
    cbn [res_bind]. assert (Hv : 0 <= le_val [b0; b1] < 65536) by (unfold byte_ok in *; simpl; lia).
    destruct (read_known r1 16 16 (le_val [b0; b1]) _ eq_refl ltac:(apply Hm1) ltac:(lia) ltac:(exact Hv) Hs1) as (r2 & -> & Hm2 & Hs2).
    cbn [res_bind]. set (n := zlen (b0 :: b1 :: payload)) in *.
    destruct (Z.ltb_spec (expected - zlen output) n); [lia|].
    change (take 2 (b0 :: b1 :: payload)) with [b0; b1] in Hx.
    rewrite !u16_id by lia. rewrite (proj2 (Z.eqb_neq _ _) Hx). change (negb false) with true. cbv iota.
    replace (negb (n =? expected - zlen output) || (n <? 2)) with false by lia.
    replace (u8 (le_val [b0; b1])) with b0 by (unfold u8, byte_ok in *; simpl; lia).
    replace (u8 (Z.shiftr (le_val [b0; b1]) 8)) with b1
      by (rewrite Z.shiftr_div_pow2 by lia; change (2 ^ 8) with 256; unfold u8, byte_ok in *; simpl; lia).
    replace (Z.to_nat (n - 2)) with (length payload) by (unfold n, zlen; simpl; lia).
    destruct (read_stored_complete payload (output ++ [b0; b1]) r2 rest Hp' ltac:(apply Hm2) Hs2) as (r' & -> & Hm & Hs').
    exists r'. rewrite <- app_assoc. split; [done|]. split; [|done]. by eapply moved_trans; [exact Hm1|]; eapply moved_trans.
Qed.

Lemma stored_sound position expected history output r :
  at_bit (position + 3) r -> zlen output <= expected ->
  match inflate_stored r output expected with
  | Ok (out, r') => exists b, block_type b = 0 /\ block_ok position expected history output b /\
      out = block_apply history output b /\ zlen out <= expected /\ moved r r' /\ stream r = body_bits b ++ stream r'
  | Err e => e <> Panic /\ e <> OutOfFuel
  end.
Proof.
  intros Hr Hle. destruct (alignByte_spec position r Hr) as (Hal & padding & Hpad & Hs0). unfold inflate_stored.
  pose proof (read_any (alignByte r) 16 16 eq_refl Hal ltac:(lia)) as H.
  destruct (deflate_read (alignByte r) 16) as [[n r1]|e]; cbn [res_bind]; [|done]. destruct H as (Hn & Hm1 & Hs1).
  pose proof (read_any r1 16 16 eq_refl ltac:(apply Hm1) ltac:(lia)) as H.
  destruct (deflate_read r1 16) as [[v r2]|e]; cbn [res_bind]; [|done]. destruct H as (Hv & Hm2 & Hs2).
  change (2 ^ Z.of_nat 16) with 65536 in *.
  assert (Hm : moved r r2) by (by eapply moved_trans; [exact Hm1|]).
  destruct (Z.ltb_spec (expected - zlen output) n); [done|].
  destruct (Z.eqb_spec (Z.lxor (u16 n) (u16 v)) 65535) as [E|E]; [change (negb true) with false|change (negb false) with true]; cbv iota.
  - apply complement_check in E; [|done..]. pose proof (read_stored_sound (Z.to_nat n) output r2 ltac:(apply Hm2)) as H'.
    destruct (read_stored _ _ _) as [[out r']|e]; [|done]. destruct H' as (payload & Hl & HF & -> & Hm' & Hs').
    assert (Hz : zlen payload = n) by (unfold zlen; lia).
    exists (Stored padding payload). split; [done|]. split; [split; [done|]; split; [done|lia]|]. split; [done|].
    split; [rewrite zlen_app; lia|]. split; [by eapply moved_trans|].
    cbn [body_bits]. rewrite <- !app_assoc, Hz, <- E, <- Hs', <- Hs2, <- Hs1. done.
  - destruct (negb (n =? expected - zlen output) || (n <? 2)) eqn:E2; [done|].
    pose proof (read_stored_sound (Z.to_nat (n - 2)) (output ++ [u8 v; u8 (Z.shiftr v 8)]) r2 ltac:(apply Hm2)) as H'.
    destruct (read_stored _ _ _) as [[out r']|e]; [|done]. destruct H' as (payload & Hl & HF & -> & Hm' & Hs').
    destruct (two_of_bits v Hv) as (b0 & b1 & Hb0 & Hb1 & -> & -> & ->).
    assert (Hz : zlen (b0 :: b1 :: payload) = n) by (unfold zlen; simpl length; lia).
    exists (StoredShort padding (b0 :: b1 :: payload)). split; [done|]. split; [|split; [by rewrite <- app_assoc|]].
    { simpl block_ok. rewrite Hz. split; [done|]. split; [by constructor; [|constructor]|]. split; [lia|].
      split; [lia|]. by rewrite !u16_id in E by lia. }
    split; [rewrite <- app_assoc; simpl; rewrite zlen_app, Hz; lia|]. split; [by eapply moved_trans|].
    cbn [body_bits]. rewrite Hz, <- !app_assoc. change (b0 :: b1 :: payload) with ([b0; b1] ++ payload).
    rewrite bytes_bits_app, <- bits_of_two, <- !app_assoc, <- Hs', <- Hs2, <- Hs1 by done. done.
Qed.

(** ** Blocks *)

Lemma fixed_prefix_codes : prefix_code 15 fixedLiteralLengths /\ prefix_code 15 fixedDistanceLengths.
Proof.
  split; constructor.
  - apply (bool_decide_unpack _). vm_compute. done.
  - apply (bool_decide_unpack _). vm_compute. done.
  - apply (bool_decide_unpack _). vm_compute. done.
  - apply (bool_decide_unpack _). vm_compute. done.
  - apply (bool_decide_unpack _). vm_compute. done.
  - apply (bool_decide_unpack _). vm_compute. done.
Qed.

Lemma fixed_codes :
  exists literals distances, fixedDeflateCodes = Ok (literals, distances) /\
    code_ok fixedLiteralLengths literals /\ code_ok fixedDistanceLengths distances.
Proof.
  destruct fixed_prefix_codes as [Hl Hd]. unfold fixedDeflateCodes.
  destruct (newDeflateCode_complete _ Hl) as (l & -> & Hlok). destruct (newDeflateCode_complete _ Hd) as (d & -> & Hdok).
  by exists l, d.
Qed.

Lemma fixed_end : has_code fixedLiteralLengths 256.
Proof. split; [split; [done|vm_compute; done]|vm_compute; done]. Qed.

Lemma block_complete position expected history output b r rest :
  block_ok position expected history output b -> zlen (block_apply history output b) <= expected ->
  at_bit (position + 3) r -> stream r = body_bits b ++ rest ->
  exists r', inflate_block (block_type b) r output history expected = Ok (block_apply history output b, r') /\
    moved r r' /\ stream r' = rest.
Proof.
  intros Hb Hle Hr Hst. unfold inflate_block. destruct b as [padding payload|padding payload|ts|h ts]; cbn [block_type].
  - by eapply (stored_complete position expected history output (Stored padding payload)).
  - by eapply (stored_complete position expected history output (StoredShort padding payload)).
  - destruct fixed_codes as (l & d & -> & Hl & Hd). cbn [Z.eqb res_bind body_bits block_ok block_apply] in *.
    apply (inflate_complete _ _ _ _ Hl Hd); [apply fixed_end|done..| |apply Hr|done].
    pose proof (length_dtokens_bits _ _ _ _ _ _ Hl Hb). destruct Hr as [_ Hr].
    rewrite Hst in Hr. unfold dtokens_bits in Hr. rewrite !length_app in Hr. lia.
  - destruct Hb as [Hh Hts]. cbn [Z.eqb Pos.eqb body_bits block_apply] in *. rewrite <- app_assoc in Hst.
    destruct (dynamic_complete h r _ Hh ltac:(apply Hr) Hst) as (l & d & r1 & -> & Hl & Hd & Hm & Hs1).
    cbn [res_bind]. destruct (inflate_complete _ _ _ _ Hl Hd (S (8 * length (dr_data r))) ts history output expected r1 rest)
      as (r' & -> & Hm' & Hs'); [by destruct Hh|done..| |apply Hm|done|].
    { pose proof (length_dtokens_bits _ _ _ _ _ _ Hl Hts). destruct Hr as [_ Hr].
      rewrite Hst in Hr. unfold dtokens_bits in Hr. rewrite !length_app in Hr. lia. }
    exists r'. split; [done|]. split; [by eapply moved_trans|done].
Qed.

Lemma block_sound position expected history output blockType r :
  at_bit (position + 3) r -> zlen output <= expected -> 0 <= blockType ->
  match inflate_block blockType r output history expected with
  | Ok (out, r') => exists b, block_type b = blockType /\ block_ok position expected history output b /\
      out = block_apply history output b /\ zlen out <= expected /\ moved r r' /\ stream r = body_bits b ++ stream r'
  | Err e => e <> Panic /\ e <> OutOfFuel
  end.
Proof.
  intros Hr Hle Hty. unfold inflate_block. destruct (Z.eqb_spec blockType 0) as [->|].
  { by apply stored_sound. }
  destruct (Z.eqb_spec blockType 1) as [->|].
  { destruct fixed_codes as (l & d & -> & Hl & Hd). cbn [res_bind].
    pose proof (inflate_sound _ _ _ _ Hl Hd (S (8 * length (dr_data r))) history output expected r ltac:(apply Hr)) as H.
    specialize (H ltac:(destruct Hr; lia) Hle). destruct (inflateCompressedBlock _ _ _ _ _ _ _) as [[out r']|e]; [|done].
    destruct H as (ts & H1 & H2 & H3 & _ & H5 & H6). by exists (Fixed ts). }
  destruct (Z.eqb_spec blockType 2) as [->|]; [|done].
  pose proof (dynamic_sound r ltac:(apply Hr)) as H. destruct (dynamicDeflateCodes r) as [[[l d] r1]|e]; cbn [res_bind]; [|done].
  destruct H as (h & Hh & Hl & Hd & Hm & Hst).
  pose proof (inflate_sound _ _ _ _ Hl Hd (S (8 * length (dr_data r))) history output expected r1 ltac:(apply Hm)) as H.
  specialize (H ltac:(destruct Hr as [_ Hr]; rewrite Hst, length_app in Hr; lia) Hle).
  destruct (inflateCompressedBlock _ _ _ _ _ _ _) as [[out r']|e]; [|done].
  destruct H as (ts & H1 & H2 & H3 & _ & H5 & H6). exists (Dynamic h ts).
  split; [done|]. split; [done|]. split; [done|]. split; [done|]. split; [by eapply moved_trans|].
  cbn [body_bits]. by rewrite <- app_assoc, <- H6.
Qed.

Lemma block_type_range b : 0 <= block_type b < 4.
Proof. destruct b; simpl; lia. Qed.

(** The header of a block. *)
Lemma block_header position final b r rest :
  at_bit position r -> stream r = block_bits final b ++ rest ->
  exists r1 r2, deflate_read r 1 = Ok (Z.b2z final, r1) /\ deflate_read r1 2 = Ok (block_type b, r2) /\
    moved r r2 /\ at_bit (position + 3) r2 /\ stream r2 = body_bits b ++ rest.
Proof.
  intros Hr Hst. unfold block_bits in Hst. cbn [app] in Hst. rewrite <- app_assoc in Hst.
  pose proof (block_type_range b).
  destruct (read_known r 1 1 (Z.b2z final) (bits_of 2 (block_type b) ++ body_bits b ++ rest) eq_refl) as (r1 & E1 & Hm1 & Hs1);
    [apply Hr|lia|by destruct final|by destruct final|].
  destruct (read_known r1 2 2 (block_type b) _ eq_refl ltac:(apply Hm1) ltac:(lia) ltac:(simpl; lia) Hs1) as (r2 & E2 & Hm2 & Hs2).
  exists r1, r2. do 2 (split; [done|]). assert (Hm : moved r r2) by (by eapply moved_trans).
  split; [done|]. split; [|done].
  apply (at_bit_move position r r2 (final :: bits_of 2 (block_type b))); [done..|]. by rewrite Hst, Hs2.
Qed.

Lemma Inflate_complete bs fuel position r output history expected rest :
  blocks_ok position expected history output bs -> (length bs <= fuel)%nat -> at_bit position r ->
  stream r = blocks_bits bs ++ rest ->
  Inflate_loop fuel r output history expected = Ok (blocks_apply history output bs).
Proof.
  revert fuel position r output. induction bs as [|[final b] bs IH]; intros fuel position r output Hbs Hf Hr Hst; [done|].
  destruct Hbs as [Hb Hbs]. destruct fuel as [|fuel]; [simpl in Hf; lia|].
  unfold blocks_bits in Hst. rewrite bind_cons, <- app_assoc in Hst. cbn [fst snd] in Hst.
  destruct (block_header position final b r _ Hr Hst) as (r1 & r2 & E1 & E2 & Hm & Hr2 & Hs2).
  cbn [Inflate_loop]. rewrite E1. cbn [res_bind]. rewrite E2. cbn [res_bind].
  assert (Hle : zlen (block_apply history output b) <= expected) by (destruct bs; simpl in Hbs; lia).
  destruct (block_complete position expected history output b r2 _ Hb Hle Hr2 Hs2) as (r3 & -> & Hm3 & Hs3). cbn [res_bind].
  destruct bs as [|b' bs].
  { simpl in Hbs. by rewrite (proj2 (Z.eqb_eq _ _)). }
  destruct Hbs as (-> & Hlt & Hbs). destruct (Z.eqb_spec (zlen (block_apply history output b)) expected); [lia|].
  change (negb (Z.b2z false =? 0)) with false. cbv iota.
  apply (IH fuel _ r3 _ Hbs); [simpl in *; lia| |done].
  apply (at_bit_move position r); [done|by eapply moved_trans|]. rewrite Hst, Hs3. done.
Qed.

Lemma Inflate_sound fuel position r output history expected :
  at_bit position r -> (length (stream r) < fuel)%nat -> zlen output <= expected ->
  match Inflate_loop fuel r output history expected with
  | Ok out => zlen out = expected /\ exists bs rest, blocks_ok position expected history output bs /\
      stream r = blocks_bits bs ++ rest /\ out = blocks_apply history output bs
  | Err e => e <> Panic /\ e <> OutOfFuel
  end.
Proof.
  revert position r output. induction fuel as [|fuel IH]; intros position r output Hr Hf Hle; [lia|].
  cbn [Inflate_loop]. pose proof (read_any r 1 1 eq_refl ltac:(apply Hr) ltac:(lia)) as H.
  destruct (deflate_read r 1) as [[f r1]|e]; cbn [res_bind]; [|done]. destruct H as (Hv & Hm1 & Hs1).
  pose proof (read_any r1 2 2 eq_refl ltac:(apply Hm1) ltac:(lia)) as H.
  destruct (deflate_read r1 2) as [[ty r2]|e]; cbn [res_bind]; [|done]. destruct H as (Hty & Hm2 & Hs2).
  assert (Hfinal : exists final, f = Z.b2z final /\ bits_of 1 f = [final]).
  { change (2 ^ Z.of_nat 1) with 2 in Hv. assert (f = 0 \/ f = 1) as [->| ->] by lia; [by exists false|by exists true]. }
  destruct Hfinal as (final & -> & Hfb). rewrite Hfb in Hs1.
  assert (Hr2 : at_bit (position + 3) r2).
  { apply (at_bit_move position r r2 (final :: bits_of 2 ty)); [done|by eapply moved_trans|]. by rewrite Hs1, Hs2. }
  pose proof (block_sound position expected history output ty r2 Hr2 Hle ltac:(lia)) as H.
  destruct (inflate_block _ _ _ _ _) as [[out r3]|e]; cbn [res_bind]; [|done].
  destruct H as (b & Hbt & Hb & -> & Hle' & Hm3 & Hs3).
  assert (Hst : stream r = block_bits final b ++ stream r3).
  { unfold block_bits. cbn [app]. rewrite <- app_assoc, Hbt, <- Hs3, <- Hs2, Hs1. done. }
  destruct (Z.eqb_spec (zlen (block_apply history output b)) expected) as [E|E].
  { split; [done|]. exists [(final, b)], (stream r3). split; [done|]. unfold blocks_bits. rewrite bind_cons, <- app_assoc. done. }
  destruct final; [done|]. change (negb (Z.b2z false =? 0)) with false. cbv iota.
  assert (Hr3 : at_bit (position + length (block_bits false b)) r3).
  { apply (at_bit_move position r); [done|by eapply moved_trans; [exact Hm1|]; eapply moved_trans|done]. }
  specialize (IH _ r3 (block_apply history output b) Hr3).
  specialize (IH ltac:(rewrite Hst, length_app in Hf; simpl in Hf; lia) ltac:(lia)).
  destruct (Inflate_loop _ _ _ _ _) as [out|e]; [|done].
  destruct IH as (Hz & bs & rest & Hbs & Hst' & ->). split; [done|]. exists ((false, b) :: bs), rest.
  split; [|split; [|done]].
  - split; [done|]. destruct bs; [done|]. split; [done|]. split; [lia|done].
  - unfold blocks_bits in *. rewrite bind_cons, <- app_assoc, Hst, Hst'. done.
Qed.

Lemma length_blocks bs : (length bs <= length (blocks_bits bs))%nat.
Proof.
  induction bs as [|[f b] bs IH]; [done|]. unfold blocks_bits in *. rewrite bind_cons, length_app. simpl. lia.
Qed.

(** C21. The DEFLATE decoder of MSZIP streams accepts exactly the inputs that
    start with blocks of the format (stored, with or without the complement
    of the length, fixed and dynamic) whose content has the expected size,
    and returns that content, whatever follows; on every other input it
    returns an error of its own.  A success of [Decode] has the expected size
    whatever the strict decoder in front does. *)
Theorem inflate_exact data dictionary expected :
  bytes_ok data ->
  (forall out, Inflate data dictionary expected = Ok out <->
    0 <= expected /\ exists bs rest, blocks_ok 0 expected (deflate_window dictionary) [] bs /\
      bytes_bits data = blocks_bits bs ++ rest /\ blocks_apply (deflate_window dictionary) [] bs = out) /\
  returns (fun out => zlen out = expected) (Inflate data dictionary expected) /\
  (forall flate, returns (fun out => zlen out = expected) (mszip_Decode flate data dictionary expected)).
Proof.
  intros Hd.
  assert (Hr : at_bit 0 (DeflateBitReader data 0 0 0)).
  { split; [constructor; simpl; [done| |lia|lia]; split; [lia|apply zlen_nonneg]|].
    unfold stream. simpl. rewrite drop_0, length_bytes_bits. lia. }
  assert (Hlen : (length (stream (DeflateBitReader data 0 0 0)) < S (8 * length data))%nat) by (destruct Hr; simpl in *; lia).
  assert (Hret : match Inflate data dictionary expected with
    | Ok out => zlen out = expected /\ 0 <= expected /\ exists bs rest, blocks_ok 0 expected (deflate_window dictionary) [] bs /\
        bytes_bits data = blocks_bits bs ++ rest /\ out = blocks_apply (deflate_window dictionary) [] bs
    | Err e => e <> Panic /\ e <> OutOfFuel end).
  { unfold Inflate. destruct (Z.ltb_spec expected 0); [done|].
    pose proof (Inflate_sound (S (8 * length data)) 0 _ [] (deflate_window dictionary) expected Hr Hlen ltac:(done)) as Hs.
    destruct (Inflate_loop _ _ _ _ _) as [out|e]; [|done]. destruct Hs as (Hz & Hs). done. }
  split; [|split].
  - intros out. split.
    + intros E. rewrite E in Hret. destruct Hret as (_ & He & bs & rest & H1 & H2 & ->). split; [done|]. by exists bs, rest.
    + intros (He & bs & rest & Hbs & Hst & <-). unfold Inflate. destruct (Z.ltb_spec expected 0); [lia|].
      apply (Inflate_complete bs _ 0 _ _ _ _ rest Hbs); [|done|exact Hst].
      pose proof (length_blocks bs). rewrite <- length_bytes_bits, Hst, length_app. lia.
  - destruct (Inflate data dictionary expected) as [out|e]; simpl; [apply Hret|done].
  - intros flate. unfold mszip_Decode. destruct (flate data dictionary) as [out|e].
    { destruct (Z.eqb_spec (zlen out) expected); done. }
    destruct (Inflate data dictionary expected) as [out|e']; simpl; [apply Hret|done].
Qed.

(** A dynamic block as zlib writes it. *)
Definition deflate_sample : bytes :=
  [141; 202; 65; 9; 0; 64; 16; 195; 64; 173; 77; 88; 255; 22; 46; 18; 238; 19; 166; 208; 13; 78; 103;
   101; 13; 47; 91; 33; 236; 178; 21; 247; 245; 124].
Definition deflate_sample_text : bytes :=
  [97; 97; 98; 98; 101; 99; 99; 97; 99; 98; 101; 99; 98; 97; 97; 98; 98; 99; 101; 97; 99; 98; 99; 99;
   101; 97; 98; 98; 97; 99; 98; 97; 101; 98; 99; 99; 99; 97; 101; 98; 98; 99; 97; 97; 98; 98; 101; 99;
   99; 97; 99; 98; 101; 99; 98; 97; 97; 98; 98; 99; 101; 97; 99; 98; 99; 99; 101; 97; 98; 98; 97; 99;
   98; 97; 101; 98; 99; 99; 99; 97].

Lemma inflate_exact_witness :
  Inflate deflate_sample [] 80 = Ok deflate_sample_text /\
  exists bs rest, blocks_ok 0 80 (deflate_window []) [] bs /\ bytes_bits deflate_sample = blocks_bits bs ++ rest /\
    blocks_apply (deflate_window []) [] bs = deflate_sample_text.
Proof.
  assert (Hd : bytes_ok deflate_sample) by (apply (bool_decide_unpack _); vm_compute; done).
  assert (E : Inflate deflate_sample [] 80 = Ok deflate_sample_text) by (vm_compute; done).
  split; [exact E|]. destruct (inflate_exact deflate_sample [] 80 Hd) as [H _].
  destruct (proj1 (H deflate_sample_text) E) as [_ Hbs]. exact Hbs.
Defined.
