(* ===== verification/Xpress.v ===== *)
(** Package [compression/xpress]: the decoder of Microsoft's XPRESS Huffman
    streams (src/compression/xpress/compression_xpress.go).

    The bit register is related to the list of bits it holds, the decoding
    table to the canonical code of the block.  The format is given by an
    encoder: a block is a list of tokens in a complete code, whose bits are
    laid out in 16-bit words between the length bytes.  The decoder inverts
    it, and returns on every input. *)

From S2P Require Import Prelude GoLib BitStream.
From stdpp Require Import base numbers list gmap sorting strings.

Open Scope Z_scope.
Open Scope trex_scope.

#[local] Ltac Zify.zify_post_hook ::= Z.to_euclidean_division_equations.

(** ** The decoder *)

Definition xpressSymbols : Z := 512.
Definition xpressTable : Z := 32768.

Definition xpressCodeLengths (data : bytes) : list Z :=
  data ≫= fun b => [Z.land b 0x0f; Z.shiftr b 4].

(** The symbols of code length [bits], from symbol [sym] on.  [table] holds
    the entries below [pos]; the others are written before the table is
    published. *)
Fixpoint fill_length (bits sym : Z) (lens : list Z) (table : list Z) : res (list Z) :=
  match lens with
  | [] => Ok table
  | length :: lens =>
      if negb (length =? bits) then fill_length bits (sym + 1) lens table
      else
        let count := Z.shiftl 1 (15 - bits) in
        if xpressTable <? zlen table + count
        then Err (Errorf "xpress: invalid huffman table at symbol %d length %d position %d")
        else fill_length bits (sym + 1) lens (table ++ replicate (Z.to_nat count) (u16 sym))
  end.

Fixpoint fill_table (n : nat) (bits : Z) (lens : list Z) (table : list Z) : res (list Z) :=
  match n with
  | O => Ok table
  | S n =>
      let! table := fill_length bits 0 lens table in
      fill_table n (bits + 1) lens table
  end.

Definition newXPRESSDecodeTable (lens : list Z) : res (list Z) :=
  if negb (zlen lens =? xpressSymbols) then Err (Errorf "xpress: expected %d code lengths")
  else
    let! table := fill_table 15 1 lens [] in
    if negb (zlen table =? xpressTable) then Err (Errorf "xpress: incomplete huffman table filled %d of %d")
    else Ok table.

Record xpressBitReader := XpressBitReader {
  xr_data : bytes;
  xr_pos : Z;
  xr_bits : Z;
  xr_extra : Z
}.

(** [binary.LittleEndian] on [data[off:off+n]], which the callers have
    checked to be in range. *)
Definition le_at (data : bytes) (off n : Z) : Z := le_val (slice off n data).

Definition newXPRESSBitReader (data : bytes) : res xpressBitReader :=
  if zlen data <? 4 then Err (Errorf "xpress: truncated bitstream")
  else Ok (XpressBitReader data 4 (Z.lor (u32 (Z.shiftl (le_at data 0 2) 16)) (le_at data 2 2)) 16).

Definition peek15 (r : xpressBitReader) : Z := Z.shiftr (xr_bits r) 17.

Definition xpress_consume (r : xpressBitReader) (n : Z) : res xpressBitReader :=
  let bits := u32 (Z.shiftl (xr_bits r) n) in
  let extra := xr_extra r - n in
  if extra <? 0 then
    if zlen (xr_data r) <? xr_pos r + 2 then Err (Errorf "xpress: truncated bitstream")
    else Ok (XpressBitReader (xr_data r) (xr_pos r + 2)
               (Z.lor bits (u32 (Z.shiftl (le_at (xr_data r) (xr_pos r) 2) (- extra)))) (extra + 16))
  else Ok (XpressBitReader (xr_data r) (xr_pos r) bits extra).

Definition xpress_readBits (r : xpressBitReader) (n : Z) : res (Z * xpressBitReader) :=
  let value := if 0 <? n then Z.shiftr (xr_bits r) (32 - n) else 0 in
  let! r := xpress_consume r n in
  Ok (value, r).

Definition xpress_skip (r : xpressBitReader) (n : Z) : xpressBitReader :=
  XpressBitReader (xr_data r) (xr_pos r + n) (xr_bits r) (xr_extra r).

Definition xpress_readByte (r : xpressBitReader) : res (Z * xpressBitReader) :=
  if zlen (xr_data r) <=? xr_pos r then Err (Errorf "xpress: truncated byte stream")
  else
    let! b := index (xr_data r) (xr_pos r) in
    Ok (b, xpress_skip r 1).

Definition xpress_readUint16 (r : xpressBitReader) : res (Z * xpressBitReader) :=
  if zlen (xr_data r) <? xr_pos r + 2 then Err (Errorf "xpress: truncated byte stream")
  else Ok (le_at (xr_data r) (xr_pos r) 2, xpress_skip r 2).

Definition xpress_readUint32 (r : xpressBitReader) : res (Z * xpressBitReader) :=
  if zlen (xr_data r) - xr_pos r <? 4 then Err (Errorf "xpress: truncated byte stream")
  else Ok (le_at (xr_data r) (xr_pos r) 4, xpress_skip r 4).

Definition remainingData (r : xpressBitReader) : bytes :=
  if zlen (xr_data r) <=? xr_pos r then [] else drop (Z.to_nat (xr_pos r)) (xr_data r).

(** The length of a match, from the low bits of its symbol on; [room] is
    [outSize-len(out)]. *)
Definition match_length (r : xpressBitReader) (length room : Z) : res (Z * xpressBitReader) :=
  let! (length, r) :=
    (if length =? 15 then
       let! (b, r) := xpress_readByte r in
       let! (length, r) :=
         (if b =? 255 then
            let! (v, r) := xpress_readUint16 r in
            let! (length, r) :=
              (if v =? 0 then
                 let! (v, r) := xpress_readUint32 r in
                 if room <? v then Err (Errorf "xpress: extended match exceeds output") else Ok (v, r)
               else Ok (v, r)) in
            if length <? 15 then Err (Errorf "xpress: invalid extended match length")
            else Ok (length - 15, r)
          else Ok (b, r)) in
       Ok (length + 15, r)
     else Ok (length, r)) in
  Ok (length + 3, r).

(** The copy loop; it may overlap its own output. *)
Fixpoint xpress_copy (n : nat) (offset : Z) (out : bytes) : res bytes :=
  match n with
  | O => Ok out
  | S n =>
      let! b := index out (zlen out - offset) in
      xpress_copy n offset (out ++ [b])
  end.

(** One symbol of a block. *)
Definition xpress_symbol (lens table : list Z) (outSize : Z) (r : xpressBitReader) (out : bytes)
    : res (bytes * xpressBitReader) :=
  let! sym := index table (peek15 r) in
  if (sym <? 0) || (zlen lens <=? sym) || (nthb lens sym =? 0)
  then Err (Errorf "xpress: invalid huffman symbol")
  else
    let! r := xpress_consume r (nthb lens sym) in
    if sym <? 256 then Ok (out ++ [u8 sym], r)
    else
      let match_ := sym - 256 in
      let offsetBits := Z.shiftr match_ 4 in
      let! (length, r) := match_length r (Z.land match_ 0x0f) (outSize - zlen out) in
      let! (offset, r) :=
        (if 0 <? offsetBits then
           let! (value, r) := xpress_readBits r offsetBits in
           Ok (value + Z.shiftl 1 offsetBits, r)
         else Ok (1, r)) in
      if (offset <=? 0) || (zlen out <? offset) then Err (Errorf "xpress: invalid match offset %d")
      else if outSize - zlen out <? length then Err (Errorf "xpress: match exceeds output")
      else
        let! out := xpress_copy (Z.to_nat length) offset out in
        Ok (out, r).

(** Every symbol adds output. *)
Fixpoint xpress_block (fuel : nat) (lens table : list Z) (outSize blockEnd : Z) (r : xpressBitReader) (out : bytes)
    : res (bytes * xpressBitReader) :=
  if zlen out <? blockEnd then
    match fuel with
    | O => Err OutOfFuel
    | S fuel =>
        let! (out, r) := xpress_symbol lens table outSize r out in
        xpress_block fuel lens table outSize blockEnd r out
    end
  else Ok (out, r).

(** Every block adds output. *)
Fixpoint xpress_loop (fuel : nat) (data : bytes) (outSize : Z) (out : bytes) : res bytes :=
  if zlen out <? outSize then
    match fuel with
    | O => Err OutOfFuel
    | S fuel =>
        if zlen data <? 256 then Err (Errorf "xpress: truncated huffman table")
        else
          let lens := xpressCodeLengths (take 256 data) in
          let! table := newXPRESSDecodeTable lens in
          let! br := newXPRESSBitReader (drop 256 data) in
          let blockEnd := if outSize <? zlen out + 65536 then outSize else zlen out + 65536 in
          let! (out, br) := xpress_block (Z.to_nat (blockEnd - zlen out)) lens table outSize blockEnd br out in
          xpress_loop fuel (remainingData br) outSize out
    end
  else Ok (take (Z.to_nat outSize) out).

(** [make] panics on a negative capacity. *)
Definition HuffmanDecompress (data : bytes) (outSize : Z) : res bytes :=
  if outSize <? 0 then Err Panic else xpress_loop (Z.to_nat outSize) data outSize [].

(** ** The decoding table *)

(** The entries of symbol [s] in a table of 15-bit prefixes. *)
Definition entry_of (lens : list Z) (s i : Z) : Prop :=
  code_of lens s * 2 ^ (15 - nthb lens s) <= i < (code_of lens s + 1) * 2 ^ (15 - nthb lens s).

(** The table after the codes shorter than [l] and those of length [l] of the
    symbols of [pre]. *)
Definition filled (lens pre : list Z) (l : nat) (table : list Z) : Prop :=
  zlen table = (first_code lens l + code_count pre l) * 2 ^ (15 - Z.of_nat l) /\
  forall s i, has_code lens s -> (code_len lens s < l)%nat \/ (code_len lens s = l /\ s < zlen pre) ->
    entry_of lens s i -> nthb table i = s.

Lemma nthb_replicate n x i : 0 <= i < Z.of_nat n -> nthb (replicate n x) i = x.
Proof.
  intros Hi. rewrite <- (Z2Nat.id i) by lia. apply lookup_nthb, lookup_replicate_2. lia.
Qed.

(** The entries already written lie below the next position. *)
Lemma entry_below lens pre rest l s i :
  lens = pre ++ rest -> (0 < l <= 15)%nat -> has_code lens s ->
  (code_len lens s < l)%nat \/ (code_len lens s = l /\ s < zlen pre) -> entry_of lens s i ->
  i < (first_code lens l + code_count pre l) * 2 ^ (15 - Z.of_nat l).
Proof.
  intros Elens Hl Hs Hor He. unfold entry_of in He.
  assert (El : nthb lens s = Z.of_nat (code_len lens s)) by (unfold code_len; destruct Hs; lia).
  assert (Hpos : 0 < 2 ^ (15 - Z.of_nat l)) by (apply Z.pow_pos_nonneg; lia).
  pose proof (code_of_range lens s Hs) as Hr. rewrite El in He. destruct Hor as [Hlt|[Heq Hlt]].
  - pose proof (first_code_after lens (code_len lens s) l ltac:(destruct Hs; unfold code_len; lia)) as Ha.
    pose proof (code_count_nonneg pre l).
    replace (15 - Z.of_nat (code_len lens s)) with (Z.of_nat (l - code_len lens s) + (15 - Z.of_nat l)) in He by lia.
    rewrite Z.pow_add_r in He by lia. pose proof (pow2_pos (l - code_len lens s)). nia.
  - rewrite Heq in He. enough (code_of lens s + 1 <= first_code lens l + code_count pre l) by nia.
    unfold code_of. rewrite Heq. enough (code_count (take (Z.to_nat s) lens) l < code_count pre l) by lia.
    pose proof (code_len_lookup lens s ltac:(destruct Hs; lia) ltac:(destruct Hs; lia)) as Hlook.
    rewrite Heq, Elens in Hlook. rewrite lookup_app_l in Hlook by (unfold zlen in *; destruct Hs; lia).
    rewrite Elens, take_app_le by (unfold zlen in *; destruct Hs; lia). by apply code_count_take.
Qed.

Lemma fill_length_spec lens pre rest l table :
  lens = pre ++ rest -> zlen lens <= 512 -> (0 < l <= 15)%nat -> filled lens pre l table ->
  match fill_length (Z.of_nat l) (zlen pre) rest table with
  | Ok table' => filled lens lens l table'
  | Err e => 2 ^ 15 < code_end lens l * 2 ^ (15 - Z.of_nat l) /\ e <> Panic /\ e <> OutOfFuel
  end.
Proof.
  revert pre table. induction rest as [|x rest IH]; intros pre table -> Hlens Hl [Hlen Hent].
  { rewrite app_nil_r in *. by split. }
  simpl. assert (Hnext : zlen pre + 1 = zlen (pre ++ [x])) by (by rewrite zlen_app).
  assert (Happ : pre ++ x :: rest = (pre ++ [x]) ++ rest) by (by rewrite <- app_assoc).
  assert (Hat : nthb (pre ++ x :: rest) (zlen pre) = x) by (rewrite nthb_app, Z.ltb_irrefl, Z.sub_diag; done).
  assert (Hpos : 0 < 2 ^ (15 - Z.of_nat l)) by (apply Z.pow_pos_nonneg; lia).
  pose proof (zlen_nonneg pre). pose proof (zlen_nonneg rest).
  assert (Hz : zlen (pre ++ x :: rest) = zlen pre + 1 + zlen rest) by (rewrite zlen_app, zlen_cons; lia).
  destruct (Z.eqb_spec x (Z.of_nat l)) as [->|Hne]; simpl.
  - rewrite Z.shiftl_1_l. set (lens := pre ++ Z.of_nat l :: rest) in *.
    assert (Hcl : code_len lens (zlen pre) = l) by (unfold code_len; rewrite Hat; lia).
    assert (Hhas : has_code lens (zlen pre)) by (split; lia).
    assert (Hcode : code_of lens (zlen pre) = first_code lens l + code_count pre l).
    { unfold code_of. rewrite Hcl. f_equal. unfold zlen, lens. by rewrite Nat2Z.id, take_app_length. }
    pose proof (code_of_range lens (zlen pre) Hhas) as Hrange. rewrite Hcl in Hrange.
    destruct (Z.ltb_spec xpressTable (zlen table + 2 ^ (15 - Z.of_nat l))) as [Hbig|Hfits].
    { split; [|done]. change xpressTable with (2 ^ 15) in Hbig. rewrite Hlen, <- Hcode in Hbig. nia. }
    rewrite Hnext, u16_id by lia. apply IH; [done|lia|done|]. split.
    + rewrite zlen_app, zlen_replicate, Hlen, code_count_app, code_count_cons, code_count_nil, Z.eqb_refl by lia. lia.
    + intros s i Hs Hor He. rewrite nthb_app. destruct (decide (s = zlen pre)) as [->|Hsne].
      * unfold entry_of in He. rewrite Hat, Hcode in He. destruct (Z.ltb_spec i (zlen table)); [lia|].
        apply nthb_replicate. lia.
      * assert (Hor' : (code_len lens s < l)%nat \/ (code_len lens s = l /\ s < zlen pre)) by lia.
        pose proof (entry_below lens pre _ l s i eq_refl Hl Hs Hor' He) as Hi. rewrite <- Hlen in Hi.
        destruct (Z.ltb_spec i (zlen table)); [by apply Hent|lia].
  - rewrite Hnext. apply IH; [done|lia|done|]. split.
    + rewrite code_count_app, code_count_cons, code_count_nil. replace (x =? Z.of_nat l) with false by lia. rewrite Hlen. lia.
    + intros s i Hs Hor He. apply Hent; [done| |done]. destruct Hor as [|[Heq Hlt]]; [by left|right]. split; [done|].
      destruct (decide (s = zlen pre)) as [->|]; [|lia]. unfold code_len in Heq. rewrite Hat in Heq. destruct Hs as [_ Hs]. lia.
Qed.

Lemma filled_next lens l table :
  (0 < l < 15)%nat -> Forall (fun x => 0 <= x <= 15) lens -> filled lens lens l table -> filled lens [] (S l) table.
Proof.
  intros Hl HF [Hlen Hent]. split.
  - rewrite Hlen, first_code_S, code_count_nil by lia. unfold code_end.
    replace (15 - Z.of_nat l) with (1 + (15 - Z.of_nat (S l))) by lia. rewrite Z.pow_add_r by lia. lia.
  - intros s i Hs [Hlt|[_ Hlt]] He; [|destruct Hs; rewrite zlen_nil in Hlt; lia].
    apply Hent; [done| |done]. destruct Hs. lia.
Qed.

Lemma fill_table_spec lens n l bits table :
  bits = Z.of_nat l -> zlen lens <= 512 -> (0 < l)%nat -> (l + n = 16)%nat -> (0 < n)%nat -> Forall (fun x => 0 <= x <= 15) lens ->
  filled lens [] l table ->
  match fill_table n bits lens table with
  | Ok table' => filled lens lens 15 table'
  | Err e => 2 ^ 15 < code_end lens 15 /\ e <> Panic /\ e <> OutOfFuel
  end.
Proof.
  intros Hbits Hlens. revert l bits table Hbits. induction n as [|n IH]; intros l bits table -> Hl Hln Hn HF Hfill; [lia|].
  cbn [fill_table].
  pose proof (fill_length_spec lens [] lens l table eq_refl Hlens ltac:(lia) Hfill) as H. change (zlen []) with 0 in H.
  destruct (fill_length _ _ _ _) as [table'|e]; cbn [res_bind]; cycle 1.
  { destruct H as [H He]. split; [|done].
    pose proof (code_end_grows lens l 15 ltac:(lia)) as Hg.
    replace (15 - Z.of_nat l) with (Z.of_nat (15 - l)) in H by lia. lia. }
  destruct n as [|n].
  { replace l with 15%nat in H by lia. done. }
  apply (IH (S l)); [lia|lia|lia|lia|done|].
  apply filled_next; [lia|done..].
Qed.

(** A complete code of the 512 symbols. *)
Record complete_code (lens : list Z) : Prop := CompleteCode {
  cc_count : zlen lens = 512;
  cc_range : Forall (fun x => 0 <= x <= 15) lens;
  cc_kraft : kraft 15 lens = 2 ^ 15
}.

Lemma complete_prefix lens : complete_code lens -> prefix_code 15 lens.
Proof.
  intros [Hc Hr Hk]. constructor; [done| |lia]. destruct (decide (Exists (fun l => l <> 0) lens)) as [|Hno]; [done|].
  exfalso. apply not_Exists_Forall in Hno; [|apply _]. assert (E : kraft 15 lens = 0).
  { clear Hc Hr Hk. induction Hno as [|x lens Hx Hno IH]; [done|]. unfold kraft in *. cbn [foldr]. rewrite IH.
    destruct (Z.eqb_spec x 0); [done|exfalso; by apply Hx]. }
  rewrite E in Hk. done.
Qed.

(** A table for the code: every 15-bit prefix finds its symbol. *)
Record table_ok (lens table : list Z) : Prop := TableOk {
  to_code : complete_code lens;
  to_len : zlen table = 32768;
  to_entries : forall s i, has_code lens s -> entry_of lens s i -> nthb table i = s
}.

Lemma newXPRESSDecodeTable_spec lens :
  zlen lens = 512 -> Forall (fun x => 0 <= x <= 15) lens ->
  match newXPRESSDecodeTable lens with
  | Ok table => table_ok lens table
  | Err e => ~ complete_code lens /\ e <> Panic /\ e <> OutOfFuel
  end.
Proof.
  intros Hn HF. unfold newXPRESSDecodeTable.
  pose proof (fill_table_spec lens 15 1 1 [] eq_refl ltac:(lia) ltac:(lia) eq_refl ltac:(lia) HF) as H.
  specialize (H ltac:(split; [done|]; intros s i [Hs0 Hs] [Hlt|[_ Hlt]];
    [unfold code_len in Hlt; lia|rewrite zlen_nil in Hlt; lia])).
  revert H. generalize (fill_table 15 1 lens []). intros ft H.
  pose proof (code_end_kraft 15 lens ltac:(lia) HF) as Hk.
  rewrite Hn. change (negb (512 =? xpressSymbols)) with false. cbv iota.
  destruct ft as [table|e]; cbn [res_bind]; cycle 1.
  { destruct H as [H He]. split; [|done]. intros [_ _ Hc]. lia. }
  destruct H as [Hlen Hent]. assert (H1 : 2 ^ (15 - Z.of_nat 15) = 1) by done.
  rewrite H1, Z.mul_1_r, <- code_end_eq in Hlen.
  change xpressTable with 32768. destruct (Z.eqb_spec (zlen table) 32768) as [E|E]; simpl negb; cbv iota.
  - constructor; [constructor; [done|done|rewrite <- Hk, <- Hlen; exact E]|done|]. intros s i Hs He.
    apply Hent; [done| |done]. destruct Hs as [Hs Hs']. rewrite Forall_lookup in HF.
    specialize (HF _ _ (nthb_lookup lens s Hs)). unfold code_len. simpl in HF. lia.
  - split; [|done]. intros [_ _ Hc]. apply E. rewrite Hlen, Hk. exact Hc.
Qed.

(** ** The bit register *)

(** The register holds the bits [p], and [rest] is left of the input. *)
Record holds (r : xpressBitReader) (p : list bool) (rest : bytes) : Prop := Holds {
  hd_data : bytes_ok (xr_data r);
  hd_pos : 0 <= xr_pos r <= zlen (xr_data r);
  hd_rest : rest = drop (Z.to_nat (xr_pos r)) (xr_data r);
  hd_extra : 0 <= xr_extra r <= 16;
  hd_len : Z.of_nat (length p) = 16 + xr_extra r;
  hd_bits : xr_bits r = mval p * 2 ^ (16 - xr_extra r)
}.

(** The bits of a 16-bit word of the input. *)
Definition word_bits (b0 b1 : byte) : list bool := msb_bits 16 (le_val [b0; b1]).

(** A register with fewer than 16 bits takes one more word. *)
Definition refill (p : list bool) (rest : bytes) : option (list bool * bytes) :=
  if (length p <? 16)%nat then
    match rest with
    | b0 :: b1 :: rest => Some (p ++ word_bits b0 b1, rest)
    | _ => None
    end
  else Some (p, rest).

Lemma drop_cons_lookup {A} (l : list A) n x k : drop n l = x :: k -> l !! n = Some x /\ drop (S n) l = k.
Proof.
  intros E. split.
  - by rewrite <- (Nat.add_0_r n), <- lookup_drop, E.
  - by rewrite <- Nat.add_1_r, <- drop_drop, E.
Qed.

Lemma holds_rest r p rest : holds r p rest -> zlen rest = zlen (xr_data r) - xr_pos r.
Proof. intros [_ Hp -> _ _ _]. unfold zlen in *. rewrite length_drop. lia. Qed.

Lemma holds_skip r p rest (n : nat) :
  holds r p rest -> Z.of_nat n <= zlen rest -> holds (xpress_skip r (Z.of_nat n)) p (drop n rest).
Proof.
  intros H Hn. pose proof (holds_rest _ _ _ H). destruct H as [H1 H2 H3 H4 H5 H6].
  constructor; cbn [xpress_skip xr_data xr_pos xr_bits xr_extra]; try done; [lia|].
  rewrite H3, drop_drop. f_equal. lia.
Qed.

Lemma slice_rest r p rest n : holds r p rest -> slice (xr_pos r) n (xr_data r) = take (Z.to_nat n) rest.
Proof. intros [_ _ -> _ _ _]. done. Qed.

Lemma rest_ok r p rest : holds r p rest -> bytes_ok rest.
Proof. intros [H _ -> _ _ _]. by apply Forall_drop. Qed.

Lemma two_bytes (b0 b1 : byte) : byte_ok b0 -> byte_ok b1 -> 0 <= le_val [b0; b1] < 2 ^ 16.
Proof. unfold byte_ok. simpl. lia. Qed.

Lemma length_word_bits b0 b1 : length (word_bits b0 b1) = 16%nat.
Proof. apply length_msb_bits. Qed.

Lemma mval_word_bits b0 b1 : byte_ok b0 -> byte_ok b1 -> mval (word_bits b0 b1) = le_val [b0; b1].
Proof.
  intros. unfold word_bits. rewrite mval_msb_bits. apply Z.mod_small. change (Z.of_nat 16) with 16. by apply two_bytes.
Qed.

Lemma mval_app p q : mval (p ++ q) = mval p * 2 ^ Z.of_nat (length q) + mval q.
Proof.
  unfold mval. rewrite reverse_app, bval_app, length_reverse. lia.
Qed.

(** Shifting the register drops its first bits. *)
Lemma shift_register p (n : nat) e :
  0 <= e <= 16 -> Z.of_nat (length p) = 16 + e -> (n <= 16)%nat ->
  u32 (Z.shiftl (mval p * 2 ^ (16 - e)) (Z.of_nat n)) = mval (drop n p) * 2 ^ (16 - e + Z.of_nat n).
Proof.
  intros He Hlen Hn. rewrite Z.shiftl_mul_pow2 by lia.
  assert (Hp : mval p = mval (take n p) * 2 ^ Z.of_nat (length (drop n p)) + mval (drop n p))
    by (by rewrite <- mval_app, take_drop).
  rewrite length_drop in Hp. unfold u32. change 4294967296 with (2 ^ 32). rewrite <- Z.mul_assoc, <- Z.pow_add_r by lia.
  rewrite Hp, Z.mul_add_distr_r, <- Z.mul_assoc, <- Z.pow_add_r by lia.
  replace (Z.of_nat (length p - n) + (16 - e + Z.of_nat n)) with 32 by lia.
  rewrite Z.add_comm, Z.mod_add by done. apply Z.mod_small.
  pose proof (mval_bound (drop n p)) as Hb. rewrite length_drop in Hb. split; [apply Z.mul_nonneg_nonneg; [lia|apply Z.pow_nonneg; lia]|].
  apply (Z.lt_le_trans _ (2 ^ Z.of_nat (length p - n) * 2 ^ (16 - e + Z.of_nat n))).
  - apply Z.mul_lt_mono_pos_r; [apply Z.pow_pos_nonneg; lia|lia].
  - rewrite <- Z.pow_add_r by lia. apply Z.pow_le_mono_r; lia.
Qed.

Lemma consume_spec r p rest (n : nat) :
  holds r p rest -> (n <= 16)%nat ->
  match xpress_consume r (Z.of_nat n), refill (drop n p) rest with
  | Ok r', Some (p', rest') => holds r' p' rest'
  | Err e, None => e <> Panic /\ e <> OutOfFuel
  | _, _ => False
  end.
Proof.
  intros Hh Hn. assert (Hz := holds_rest _ _ _ Hh). assert (Hok := rest_ok _ _ _ Hh).
  assert (Hslice := slice_rest _ _ _ 2 Hh). destruct Hh as [Hd Hpos Hrest He Hlen Hbits].
  unfold xpress_consume, refill. rewrite length_drop, Hbits, shift_register by done.
  destruct (Z.ltb_spec (xr_extra r - Z.of_nat n) 0) as [Hneg|Hnonneg].
  - destruct (Nat.ltb_spec (length p - n) 16); [|lia].
    destruct (Z.ltb_spec (zlen (xr_data r)) (xr_pos r + 2)) as [Hshort|Henough].
    { destruct rest as [|b0 [|b1 rest]]; try done. rewrite !zlen_cons in Hz. pose proof (zlen_nonneg rest). lia. }
    destruct rest as [|b0 [|b1 rest]]; [rewrite ?zlen_cons, zlen_nil in Hz; lia..|].
    assert (Hb0 : byte_ok b0) by (by inversion Hok). assert (Hb1 : byte_ok b1) by (inversion Hok as [|?? _ H']; by inversion H').
    unfold le_at. rewrite Hslice. change (take (Z.to_nat 2) (b0 :: b1 :: rest)) with [b0; b1].
    pose proof (two_bytes b0 b1 Hb0 Hb1) as Hw. set (k := Z.of_nat n - xr_extra r).
    replace (- (xr_extra r - Z.of_nat n)) with k by lia.
    assert (Hk : 0 < 2 ^ k) by (apply Z.pow_pos_nonneg; lia).
    assert (Hw32 : u32 (Z.shiftl (le_val [b0; b1]) k) = le_val [b0; b1] * 2 ^ k).
    { rewrite Z.shiftl_mul_pow2 by lia. apply u32_id. split; [nia|]. change 4294967296 with (2 ^ 16 * 2 ^ 16).
      assert (2 ^ k <= 2 ^ 16) by (apply Z.pow_le_mono_r; lia). nia. }
    rewrite Hw32. replace (16 - xr_extra r + Z.of_nat n) with (16 + k) by lia.
    constructor; cbn [xr_data xr_pos xr_bits xr_extra]; [done|lia| |lia| |].
    + destruct (drop_cons_lookup _ _ _ _ (eq_sym Hrest)) as [_ Hr1].
      destruct (drop_cons_lookup _ _ _ _ Hr1) as [_ Hr2]. rewrite <- Hr2. f_equal. lia.
    + rewrite length_app, length_drop, length_word_bits. lia.
    + replace (16 - (xr_extra r - Z.of_nat n + 16)) with k by lia.
      rewrite mval_app, length_word_bits, mval_word_bits by done. change (Z.of_nat 16) with 16.
      transitivity (Z.shiftl (Z.lor (Z.shiftl (mval (drop n p)) 16) (le_val [b0; b1])) k).
      * by rewrite Z.shiftl_lor, Z.shiftl_shiftl, !Z.shiftl_mul_pow2 by lia.
      * by rewrite lor_low, Z.shiftl_mul_pow2 by lia.
  - destruct (Nat.ltb_spec (length p - n) 16); [lia|].
    constructor; cbn [xr_data xr_pos xr_bits xr_extra]; try done; [lia|rewrite length_drop; lia|].
    f_equal. f_equal. lia.
Qed.

(** The next 15 bits. *)
Lemma peek15_spec r p rest : holds r p rest -> peek15 r = mval (take 15 p).
Proof.
  unfold peek15. intros [_ _ _ He Hlen ->]. rewrite Z.shiftr_div_pow2 by lia.
  rewrite <- (take_drop 15 p) at 1. rewrite mval_app, length_drop.
  pose proof (mval_bound (drop 15 p)) as Hb. rewrite length_drop in Hb.
  replace (2 ^ 17) with (2 ^ Z.of_nat (length p - 15) * 2 ^ (16 - xr_extra r))
    by (rewrite <- Z.pow_add_r by lia; f_equal; lia).
  rewrite Z.div_mul_cancel_r by (apply Z.pow_nonzero; lia).
  rewrite Z.div_add_l, Z.div_small by lia. lia.
Qed.

(** [readBits] reads the next [n] bits. *)
Lemma readBits_value r p rest (n : nat) :
  holds r p rest -> (0 < n <= 16)%nat -> Z.shiftr (xr_bits r) (32 - Z.of_nat n) = mval (take n p).
Proof.
  intros [_ _ _ He Hlen ->] Hn. rewrite Z.shiftr_div_pow2 by lia.
  rewrite <- (take_drop n p) at 1. rewrite mval_app, length_drop.
  pose proof (mval_bound (drop n p)) as Hb. rewrite length_drop in Hb.
  replace (2 ^ (32 - Z.of_nat n)) with (2 ^ Z.of_nat (length p - n) * 2 ^ (16 - xr_extra r))
    by (rewrite <- Z.pow_add_r by lia; f_equal; lia).
  rewrite Z.div_mul_cancel_r by (apply Z.pow_nonzero; lia).
  rewrite Z.div_add_l, Z.div_small by lia. lia.
Qed.
