(* ===== verification/XpressFormat.v ===== *)
(** The XPRESS Huffman format of package [compression/xpress] as an encoder,
    and the Windows Compression API container around such streams (package
    [compression/internal/wincontainer],
    src/compression/internal/wincontainer/container.go).

    The stream decoder inverts the encoder and returns on every input; the
    container decoder does the same for every codec with that contract. *)

From S2P Require Import Prelude GoLib GoCodec BitStream Xpress.
From stdpp Require Import base numbers list gmap sorting strings.

Open Scope Z_scope.
Open Scope trex_scope.

#[local] Ltac Zify.zify_post_hook ::= Z.to_euclidean_division_equations.

(** ** Tokens *)

(** The four ways to write a length. *)
Inductive xlength :=
  | LNibble (n : Z)
  | LByte (n : Z)
  | LWord (n : Z)
  | LDword (n : Z).

Inductive xtoken :=
  | XLiteral (b : byte)
  | XMatch (l : xlength) (k v : Z).

Definition xlength_value (l : xlength) : Z :=
  match l with LNibble n => n + 3 | LByte n => n + 18 | LWord n => n + 3 | LDword n => n + 3 end.

Definition xlength_nibble (l : xlength) : Z := match l with LNibble n => n | _ => 15 end.

Definition xlength_bytes (l : xlength) : bytes :=
  match l with
  | LNibble _ => []
  | LByte n => [n]
  | LWord n => 255 :: le_bytes 2 n
  | LDword n => 255 :: le_bytes 2 0 ++ le_bytes 4 n
  end.

Definition xlength_ok (l : xlength) : Prop :=
  match l with
  | LNibble n => 0 <= n < 15
  | LByte n => 0 <= n < 255
  | LWord n => 15 <= n < 65536
  | LDword n => 15 <= n < 2 ^ 32
  end.

Definition xtoken_symbol (t : xtoken) : Z :=
  match t with XLiteral b => b | XMatch l k _ => 256 + (16 * k + xlength_nibble l) end.

Definition xtoken_offset (k v : Z) : Z := v + 2 ^ k.

Definition xtoken_apply (out : bytes) (t : xtoken) : bytes :=
  match t with
  | XLiteral b => out ++ [b]
  | XMatch l k v => window_copy (Z.to_nat (xlength_value l)) (xtoken_offset k v) out
  end.

Definition xtoken_ok (lens : list Z) (out : bytes) (t : xtoken) : Prop :=
  has_code lens (xtoken_symbol t) /\
  match t with
  | XLiteral b => 0 <= b < 256
  | XMatch l k v => xlength_ok l /\ 0 <= k < 16 /\ 0 <= v < 2 ^ k /\ xtoken_offset k v <= zlen out
  end.

(** The tokens of a block: none starts after [blockEnd], the last reaches
    it, none goes beyond [outSize]. *)
Fixpoint xtokens_ok (lens : list Z) (outSize blockEnd : Z) (out : bytes) (ts : list xtoken) : Prop :=
  match ts with
  | [] => blockEnd <= zlen out
  | t :: ts =>
      zlen out < blockEnd /\ xtoken_ok lens out t /\ zlen (xtoken_apply out t) <= outSize /\
      xtokens_ok lens outSize blockEnd (xtoken_apply out t) ts
  end.

(** ** The layout of a block *)

(** A stream is a sequence of code bits and of plain bytes. *)
Inductive xevent :=
  | EBits (b : list bool)
  | EBytes (l : bytes).

Definition xtoken_events (lens : list Z) (t : xtoken) : list xevent :=
  match t with
  | XLiteral b => [EBits (code_bits lens b)]
  | XMatch l k v =>
      [EBits (code_bits lens (xtoken_symbol t)); EBytes (xlength_bytes l); EBits (msb_bits (Z.to_nat k) v)]
  end.

Definition event_bits (e : xevent) : list bool := match e with EBits b => b | EBytes _ => [] end.

(** [n] bits of [B] from bit [c] on, with zeros after its end. *)
Definition pbits (B : list bool) (c n : nat) : list bool := (fun i => nth i B false) <$> seq c n.

(** Word [w] of the bits [B]. *)
Definition word_of (B : list bool) (w : nat) : bytes := le_bytes 2 (mval (pbits B (16 * w) 16)).

(** The bytes of the events: [c] bits and [w] words have been used.  A word
    is written as soon as fewer than 16 bits are at hand. *)
Fixpoint layout (B : list bool) (evs : list xevent) (c w : nat) : bytes :=
  match evs with
  | [] => []
  | EBits b :: evs =>
      let c := (c + length b)%nat in
      if (16 * w <? c + 16)%nat then word_of B w ++ layout B evs c (S w) else layout B evs c w
  | EBytes l :: evs => l ++ layout B evs c w
  end.

Definition block_events (lens : list Z) (ts : list xtoken) : list xevent := ts ≫= xtoken_events lens.

(** The 256 bytes of the code lengths. *)
Fixpoint pack_lengths (lens : list Z) : bytes :=
  match lens with
  | l0 :: l1 :: lens => (l0 + 16 * l1) :: pack_lengths lens
  | _ => []
  end.

Definition encode_block (lens : list Z) (ts : list xtoken) : bytes :=
  let evs := block_events lens ts in
  let B := evs ≫= event_bits in
  pack_lengths lens ++ word_of B 0 ++ word_of B 1 ++ layout B evs 0 2.

Definition encode_blocks (bs : list (list Z * list xtoken)) : bytes := bs ≫= fun b => encode_block b.1 b.2.

Definition xtokens_apply (out : bytes) (ts : list xtoken) : bytes := foldl xtoken_apply out ts.

Definition xblocks_apply (out : bytes) (bs : list (list Z * list xtoken)) : bytes :=
  foldl (fun out b => xtokens_apply out b.2) out bs.

(** Blocks of 64 KiB that fill [outSize] bytes. *)
Fixpoint xblocks_ok (outSize : Z) (out : bytes) (bs : list (list Z * list xtoken)) : Prop :=
  match bs with
  | [] => zlen out = outSize
  | (lens, ts) :: bs =>
      complete_code lens /\ zlen out < outSize /\
      xtokens_ok lens outSize (Z.min outSize (zlen out + 65536)) out ts /\
      xblocks_ok outSize (xtokens_apply out ts) bs
  end.

(** ** Readers that keep their contract *)

Definition live (r : xpressBitReader) : Prop := exists p rest, holds r p rest.

Lemma consume_live r (n : nat) :
  live r -> (n <= 16)%nat ->
  match xpress_consume r (Z.of_nat n) with Ok r' => live r' | Err e => e <> Panic /\ e <> OutOfFuel end.
Proof.
  intros (p & rest & Hh) Hn. pose proof (consume_spec r p rest n Hh Hn) as H.
  destruct (xpress_consume _ _) as [r'|e], (refill _ _) as [[p' rest']|]; try done. by exists p', rest'.
Qed.

Lemma skip_live r (n : nat) : live r -> Z.of_nat n <= zlen (xr_data r) - xr_pos r -> live (xpress_skip r (Z.of_nat n)).
Proof.
  intros (p & rest & Hh) Hn. exists p, (drop n rest). apply holds_skip; [done|]. by rewrite (holds_rest _ _ _ Hh).
Qed.

Lemma le_at_nonneg r n : live r -> 0 <= le_at (xr_data r) (xr_pos r) n.
Proof.
  intros (p & rest & Hh). unfold le_at. rewrite (slice_rest _ _ _ _ Hh).
  pose proof (le_val_bound (take (Z.to_nat n) rest) (Forall_take _ _ _ (rest_ok _ _ _ Hh))). lia.
Qed.

Definition reads (P : Z -> Prop) (x : res (Z * xpressBitReader)) : Prop :=
  match x with Ok (v, r) => P v /\ live r | Err e => e <> Panic /\ e <> OutOfFuel end.

Lemma readByte_live r : live r -> reads (fun v => 0 <= v) (xpress_readByte r).
Proof.
  intros Hl. unfold xpress_readByte. destruct (Z.leb_spec (zlen (xr_data r)) (xr_pos r)); [done|].
  assert (Hl' := Hl). destruct Hl' as (p & rest & [Hd Hp _ _ _ _]). rewrite index_ok by lia. simpl. split.
  - unfold bytes_ok in Hd. rewrite Forall_lookup in Hd. by apply (Hd (Z.to_nat (xr_pos r))), nthb_lookup; lia.
  - apply (skip_live r 1); [done|lia].
Qed.

Lemma readUint16_live r : live r -> reads (fun v => 0 <= v) (xpress_readUint16 r).
Proof.
  intros Hl. unfold xpress_readUint16. destruct (Z.ltb_spec (zlen (xr_data r)) (xr_pos r + 2)); [done|].
  split; [by apply le_at_nonneg|]. apply (skip_live r 2); [done|lia].
Qed.

Lemma readUint32_live r : live r -> reads (fun v => 0 <= v) (xpress_readUint32 r).
Proof.
  intros Hl. unfold xpress_readUint32. destruct (Z.ltb_spec (zlen (xr_data r) - xr_pos r) 4); [done|].
  split; [by apply le_at_nonneg|]. apply (skip_live r 4); [done|lia].
Qed.

Lemma match_length_live r length room : live r -> 0 <= length -> reads (fun n => 3 <= n) (match_length r length room).
Proof.
  intros Hl Hn. unfold match_length. destruct (Z.eqb_spec length 15) as [_|_]; cbn [res_bind]; [|split; [lia|done]].
  pose proof (readByte_live r Hl) as H. destruct (xpress_readByte r) as [[b r1]|e]; cbn [res_bind]; [|done].
  destruct H as [Hb Hl1]. destruct (Z.eqb_spec b 255) as [_|_]; cbn [res_bind]; [|split; [lia|done]].
  pose proof (readUint16_live r1 Hl1) as H. destruct (xpress_readUint16 r1) as [[v r2]|e]; cbn [res_bind]; [|done].
  destruct H as [Hv Hl2]. destruct (Z.eqb_spec v 0) as [_|_]; cbn [res_bind].
  - pose proof (readUint32_live r2 Hl2) as H. destruct (xpress_readUint32 r2) as [[v' r3]|e]; cbn [res_bind]; [|done].
    destruct H as [Hv' Hl3]. destruct (room <? v'); cbn [res_bind]; [done|].
    destruct (Z.ltb_spec v' 15); cbn [res_bind]; [done|]. split; [lia|done].
  - destruct (Z.ltb_spec v 15); cbn [res_bind]; [done|]. split; [lia|done].
Qed.

Lemma xpress_copy_spec n offset out : 1 <= offset <= zlen out -> xpress_copy n offset out = Ok (window_copy n offset out).
Proof.
  revert out. induction n as [|n IH]; intros out Ho; [done|]. simpl. rewrite index_ok by lia. cbn [res_bind].
  apply IH. rewrite zlen_app. unfold zlen at 2. simpl. lia.
Qed.

(** One symbol adds output within [outSize]. *)
Lemma xpress_symbol_live lens table outSize r out :
  table_ok lens table -> live r -> zlen out < outSize ->
  match xpress_symbol lens table outSize r out with
  | Ok (out', r') => zlen out < zlen out' <= outSize /\ live r'
  | Err e => e <> Panic /\ e <> OutOfFuel
  end.
Proof.
  intros Ht Hl Hroom. unfold xpress_symbol. assert (Hl' := Hl). destruct Hl' as (p & rest & Hh).
  assert (Hpeek : 0 <= peek15 r < zlen table).
  { rewrite (peek15_spec _ _ _ Hh), (to_len _ _ Ht). pose proof (mval_bound (take 15 p)) as Hb.
    rewrite length_take in Hb. destruct Hh as [_ _ _ He Hlen _].
    replace (15 `min` length p)%nat with 15%nat in Hb by lia. change (2 ^ Z.of_nat 15) with 32768 in Hb. lia. }
  rewrite index_ok by lia. cbn [res_bind]. set (sym := nthb table (peek15 r)).
  destruct ((sym <? 0) || (zlen lens <=? sym) || (nthb lens sym =? 0)) eqn:Es; [done|].
  assert (Hlen : 0 <= nthb lens sym <= 15).
  { pose proof (cc_range _ (to_code _ _ Ht)) as HF. rewrite Forall_lookup in HF.
    apply (HF (Z.to_nat sym)), nthb_lookup. lia. }
  pose proof (consume_live r (Z.to_nat (nthb lens sym)) Hl ltac:(lia)) as H. rewrite Z2Nat.id in H by lia.
  destruct (xpress_consume r _) as [r1|e]; cbn [res_bind]; [|done].
  destruct (Z.ltb_spec sym 256). { rewrite zlen_app. change (zlen [u8 sym]) with 1. split; [lia|done]. }
  pose proof (match_length_live r1 (Z.land (sym - 256) 15) (outSize - zlen out) H) as Hm.
  specialize (Hm ltac:(apply land_mask_nonneg; lia)).
  destruct (match_length _ _ _) as [[length r2]|e]; cbn [res_bind]; [|done]. destruct Hm as [Hlen3 Hl2].
  assert (Hoff : match (if 0 <? Z.shiftr (sym - 256) 4 then
      let! (value, r) := xpress_readBits r2 (Z.shiftr (sym - 256) 4) in Ok (value + Z.shiftl 1 (Z.shiftr (sym - 256) 4), r)
      else Ok (1, r2)) with Ok (offset, r3) => live r3 | Err e => e <> Panic /\ e <> OutOfFuel end).
  { destruct (Z.ltb_spec 0 (Z.shiftr (sym - 256) 4)); [|done]. unfold xpress_readBits.
    assert (Hk : Z.shiftr (sym - 256) 4 < 16).
    { rewrite Z.shiftr_div_pow2 by lia. change (2 ^ 4) with 16. pose proof (cc_count _ (to_code _ _ Ht)). lia. }
    pose proof (consume_live r2 (Z.to_nat (Z.shiftr (sym - 256) 4)) Hl2 ltac:(lia)) as Hc. rewrite Z2Nat.id in Hc by lia.
    destruct (xpress_consume r2 _) as [r3|e]; done. }
  destruct (if 0 <? Z.shiftr (sym - 256) 4 then _ else _) as [[offset r3]|e]; cbn [res_bind]; [|done].
  destruct ((offset <=? 0) || (zlen out <? offset)) eqn:Eo; [done|].
  destruct (Z.ltb_spec (outSize - zlen out) length); [done|].
  rewrite xpress_copy_spec by lia. cbn [res_bind]. rewrite zlen_window_copy. split; [lia|done].
Qed.

Lemma xpress_block_live lens table outSize blockEnd fuel r out :
  table_ok lens table -> blockEnd <= outSize -> live r -> blockEnd - zlen out <= Z.of_nat fuel -> zlen out <= outSize ->
  match xpress_block fuel lens table outSize blockEnd r out with
  | Ok (out', r') => Z.max (zlen out) blockEnd <= zlen out' <= outSize /\ live r'
  | Err e => e <> Panic /\ e <> OutOfFuel
  end.
Proof.
  intros Ht Hend. revert r out. induction fuel as [|fuel IH]; intros r out Hl Hf Ho; cbn [xpress_block];
    (destruct (Z.ltb_spec (zlen out) blockEnd); [|split; [lia|done]]); [lia|].
  pose proof (xpress_symbol_live lens table outSize r out Ht Hl ltac:(lia)) as Hsym.
  destruct (xpress_symbol _ _ _ _ _) as [[out1 r1]|e]; cbn [res_bind]; [|done]. destruct Hsym as [Ho1 Hl1].
  specialize (IH r1 out1 Hl1 ltac:(lia) ltac:(lia)).
  destruct (xpress_block _ _ _ _ _ _ _) as [[out' r']|e]; [|done]. destruct IH as [Ho' Hl']. split; [lia|done].
Qed.

Lemma code_lengths_range data : bytes_ok data -> Forall (fun x => 0 <= x <= 15) (xpressCodeLengths data).
Proof.
  induction 1 as [|b data Hb Hd IH]; [constructor|]. unfold xpressCodeLengths in *. rewrite bind_cons. unfold byte_ok in Hb.
  assert (Hlow : Z.land b 15 = b mod 16) by (apply (land_low b 4); lia).
  constructor; [rewrite Hlow; lia|]. constructor; [|done]. rewrite Z.shiftr_div_pow2 by lia. change (2 ^ 4) with 16. lia.
Qed.

Lemma zlen_code_lengths data : zlen (xpressCodeLengths data) = 2 * zlen data.
Proof.
  induction data as [|b data IH]; [done|]. unfold xpressCodeLengths in *. rewrite bind_cons, zlen_app, IH, zlen_cons.
  unfold zlen. simpl length. lia.
Qed.

Lemma new_reader_holds b0 b1 b2 b3 data :
  bytes_ok (b0 :: b1 :: b2 :: b3 :: data) ->
  exists r, newXPRESSBitReader (b0 :: b1 :: b2 :: b3 :: data) = Ok r /\ holds r (word_bits b0 b1 ++ word_bits b2 b3) data.
Proof.
  intros Hd. assert (Hz : zlen (b0 :: b1 :: b2 :: b3 :: data) = 4 + zlen data) by (rewrite !zlen_cons; lia).
  pose proof (zlen_nonneg data). unfold newXPRESSBitReader. destruct (Z.ltb_spec (zlen (b0 :: b1 :: b2 :: b3 :: data)) 4); [lia|].
  eexists. split; [done|]. assert (Hd' := Hd). unfold bytes_ok in Hd'. rewrite !Forall_cons in Hd'. destruct Hd' as (Hb0 & Hb1 & Hb2 & Hb3 & _).
  constructor; cbn [xr_data xr_pos xr_bits xr_extra]; [done|lia|done|lia| |].
  - rewrite length_app, !length_word_bits. lia.
  - rewrite mval_app, length_word_bits, !mval_word_bits by done. unfold le_at.
    change (slice 0 2 (b0 :: b1 :: b2 :: b3 :: data)) with [b0; b1].
    change (slice 2 2 (b0 :: b1 :: b2 :: b3 :: data)) with [b2; b3].
    pose proof (two_bytes b0 b1 Hb0 Hb1). pose proof (two_bytes b2 b3 Hb2 Hb3).
    rewrite u32_id by (rewrite Z.shiftl_mul_pow2 by lia; change (2 ^ 16) with 65536 in *; lia).
    rewrite lor_low by lia. change (Z.of_nat 16) with 16. change (16 - 16) with 0. lia.
Qed.

Lemma new_reader_live data :
  bytes_ok data ->
  match newXPRESSBitReader data with Ok r => live r | Err e => e <> Panic /\ e <> OutOfFuel end.
Proof.
  intros Hd. destruct data as [|b0 [|b1 [|b2 [|b3 data]]]]; try done.
  destruct (new_reader_holds b0 b1 b2 b3 data Hd) as (r & -> & Hh). by eexists _, _.
Qed.

Lemma remaining_rest r p rest : holds r p rest -> remainingData r = rest.
Proof.
  intros Hh. pose proof (holds_rest _ _ _ Hh) as Hz. unfold remainingData.
  destruct (Z.leb_spec (zlen (xr_data r)) (xr_pos r)); [|symmetry; apply (hd_rest _ _ _ Hh)].
  symmetry. apply zlen_0_nil. pose proof (zlen_nonneg rest). lia.
Qed.

Lemma remaining_ok r : live r -> bytes_ok (remainingData r).
Proof.
  intros (p & rest & [Hd _ _ _ _ _]). unfold remainingData. destruct (_ <=? _); [constructor|by apply Forall_drop].
Qed.

(** The decoder returns on every input, with exactly the requested size. *)
Lemma xpress_loop_total fuel data outSize out :
  bytes_ok data -> outSize - zlen out <= Z.of_nat fuel -> zlen out <= outSize ->
  returns (fun out => zlen out = outSize) (xpress_loop fuel data outSize out).
Proof.
  revert data out. induction fuel as [|fuel IH]; intros data out Hd Hf Ho; cbn [xpress_loop];
    (destruct (Z.ltb_spec (zlen out) outSize); [|unfold returns, zlen in *; rewrite length_take; lia]); [lia|].
  destruct (Z.ltb_spec (zlen data) 256); [done|].
  assert (H256 : zlen (take 256 data) = 256) by (unfold zlen in *; rewrite length_take; lia).
  pose proof (newXPRESSDecodeTable_spec (xpressCodeLengths (take 256 data))) as Ht.
  specialize (Ht ltac:(rewrite zlen_code_lengths, H256; done) ltac:(by apply code_lengths_range, Forall_take)).
  destruct (newXPRESSDecodeTable _) as [table|e]; cbn [res_bind]; [|by destruct Ht].
  pose proof (new_reader_live (drop 256 data) ltac:(by apply Forall_drop)) as Hr.
  destruct (newXPRESSBitReader _) as [r|e]; cbn [res_bind]; [|done].
  set (blockEnd := if outSize <? zlen out + 65536 then outSize else zlen out + 65536).
  assert (Hend : zlen out < blockEnd <= outSize) by (unfold blockEnd; destruct (Z.ltb_spec outSize (zlen out + 65536)); lia).
  pose proof (xpress_block_live _ table outSize blockEnd (Z.to_nat (blockEnd - zlen out)) r out Ht ltac:(lia) Hr ltac:(lia) Ho) as Hb.
  destruct (xpress_block _ _ _ _ _ _ _) as [[out1 r1]|e]; cbn [res_bind]; [|done]. destruct Hb as [Hb Hl].
  apply IH; [by apply remaining_ok|lia|lia].
Qed.

(** ** Reading the layout back *)

Lemma length_pbits B c n : length (pbits B c n) = n.
Proof. unfold pbits. by rewrite length_fmap, length_seq. Qed.

Lemma pbits_app B c n m : pbits B c (n + m) = pbits B c n ++ pbits B (c + n) m.
Proof. unfold pbits. by rewrite seq_app, fmap_app. Qed.

Lemma drop_pbits B c n k : (k <= n)%nat -> drop k (pbits B c n) = pbits B (c + k) (n - k).
Proof.
  intros H. replace n with (k + (n - k))%nat at 1 by lia. rewrite pbits_app.
  rewrite drop_app_length' by (by rewrite length_pbits). done.
Qed.

Lemma take_pbits B c n k : (k <= n)%nat -> take k (pbits B c n) = pbits B c k.
Proof.
  intros H. replace n with (k + (n - k))%nat by lia. rewrite pbits_app.
  by rewrite take_app_length' by (by rewrite length_pbits).
Qed.

Lemma pbits_at pre b post : pbits (pre ++ b ++ post) (length pre) (length b) = b.
Proof.
  apply list_eq. intros i. unfold pbits. rewrite list_lookup_fmap. destruct (decide (i < length b)%nat) as [Hi|Hi].
  - rewrite lookup_seq_lt by done. simpl. rewrite app_nth2 by lia. rewrite app_nth1 by lia.
    replace (length pre + i - length pre)%nat with i by lia.
    destruct (lookup_lt_is_Some_2 b i Hi) as [x Hx]. rewrite Hx. f_equal. by apply nth_lookup_Some.
  - rewrite lookup_seq_ge by lia. simpl. symmetry. apply lookup_ge_None. lia.
Qed.

Lemma word_of_bits B w : exists b0 b1, word_of B w = [b0; b1] /\ word_bits b0 b1 = pbits B (16 * w) 16.
Proof.
  unfold word_of. set (p := pbits B (16 * w) 16). exists (mval p mod 256), (mval p / 256 mod 256). split; [done|].
  pose proof (mval_bound p) as Hb. assert (Hlen : length p = 16%nat) by apply length_pbits. rewrite Hlen in Hb.
  change (2 ^ Z.of_nat 16) with 65536 in Hb. unfold word_bits.
  replace (le_val [mval p mod 256; mval p / 256 mod 256]) with (mval p) by (cbn [le_val]; lia).
  by apply msb_bits_mval.
Qed.

(** The reader after [c] of the bits [B]; the events [evs] and then [tail]
    are to come. *)
Definition synced (B : list bool) (c : nat) (evs : list xevent) (tail : bytes) (r : xpressBitReader) : Prop :=
  exists w, (c + 16 <= 16 * w <= c + 32)%nat /\ holds r (pbits B c (16 * w - c)) (layout B evs c w ++ tail).

Lemma synced_bits B c b evs tail r :
  synced B c (EBits b :: evs) tail r -> (length b <= 16)%nat ->
  exists r', xpress_consume r (Z.of_nat (length b)) = Ok r' /\ synced B (c + length b) evs tail r'.
Proof.
  intros (w & Hw & Hh) Hb. pose proof (consume_spec _ _ _ (length b) Hh Hb) as H.
  rewrite drop_pbits in H by lia. unfold refill in H. rewrite length_pbits in H. cbn [layout] in H.
  destruct (Nat.ltb_spec (16 * w - c - length b) 16), (Nat.ltb_spec (16 * w) (c + length b + 16)); try lia.
  - destruct (word_of_bits B w) as (b0 & b1 & Ew & Hbits). rewrite Ew in H. cbn [app] in H. rewrite Hbits in H.
    replace (pbits B (c + length b) (16 * w - c - length b) ++ pbits B (16 * w) 16)
      with (pbits B (c + length b) (16 * S w - (c + length b))) in H.
    + destruct (xpress_consume _ _) as [r'|e]; [|done]. exists r'. split; [done|]. exists (S w). split; [lia|done].
    + replace (16 * S w - (c + length b))%nat with ((16 * w - c - length b) + 16)%nat by lia.
      rewrite pbits_app. do 2 f_equal. lia.
  - destruct (xpress_consume _ _) as [r'|e]; [|done]. exists r'. split; [done|]. exists w. split; [lia|].
    by replace (16 * w - (c + length b))%nat with (16 * w - c - length b)%nat by lia.
Qed.

(** The bits at hand start with the next bits of the stream. *)
Lemma synced_prefix pre b post c evs tail r :
  synced (pre ++ b ++ post) c evs tail r -> c = length pre -> (length b <= 16)%nat ->
  exists p rest, holds r p rest /\ take (length b) p = b /\ (16 <= length p)%nat.
Proof.
  intros (w & Hw & Hh) -> Hb. exists (pbits (pre ++ b ++ post) (length pre) (16 * w - length pre)), (layout (pre ++ b ++ post) evs (length pre) w ++ tail).
  split; [done|]. rewrite take_pbits, pbits_at, length_pbits by lia. split; [done|lia].
Qed.

(** Reading plain bytes. *)
Lemma readByte_holds r p b rest :
  holds r p (b :: rest) -> exists r', xpress_readByte r = Ok (b, r') /\ holds r' p rest.
Proof.
  intros Hh. pose proof (holds_rest _ _ _ Hh) as Hz. rewrite zlen_cons in Hz. pose proof (zlen_nonneg rest).
  exists (xpress_skip r 1). split; [|apply (holds_skip r p (b :: rest) 1 Hh); rewrite zlen_cons; lia].
  unfold xpress_readByte. destruct (Z.leb_spec (zlen (xr_data r)) (xr_pos r)); [lia|].
  assert (Hp := hd_pos _ _ _ Hh). rewrite index_ok by lia. cbn [res_bind]. do 2 f_equal.
  rewrite <- (Z.add_0_r (xr_pos r)), <- (Z2Nat.id (xr_pos r)) by lia.
  by rewrite <- nthb_drop, <- (hd_rest _ _ _ Hh) by lia.
Qed.

Lemma le_at_holds r p (n : nat) v rest :
  holds r p (le_bytes n v ++ rest) -> 0 <= v < 256 ^ Z.of_nat n ->
  le_at (xr_data r) (xr_pos r) (Z.of_nat n) = v /\ Z.of_nat n <= zlen (xr_data r) - xr_pos r /\
  holds (xpress_skip r (Z.of_nat n)) p rest.
Proof.
  intros Hh Hv. pose proof (holds_rest _ _ _ Hh) as Hz. rewrite zlen_app, zlen_le_bytes in Hz. pose proof (zlen_nonneg rest).
  assert (Hlen : length (le_bytes n v) = n) by (pose proof (zlen_le_bytes n v); unfold zlen in *; lia).
  split; [|split; [lia|]].
  - unfold le_at. rewrite (slice_rest _ _ _ _ Hh), Nat2Z.id, take_app_length' by done. by apply le_roundtrip.
  - replace rest with (drop n (le_bytes n v ++ rest)) by (by rewrite drop_app_length').
    apply holds_skip; [done|]. rewrite zlen_app, zlen_le_bytes. lia.
Qed.

Lemma readUint16_holds r p v rest :
  holds r p (le_bytes 2 v ++ rest) -> 0 <= v < 65536 -> exists r', xpress_readUint16 r = Ok (v, r') /\ holds r' p rest.
Proof.
  intros Hh Hv. destruct (le_at_holds r p 2 v rest Hh Hv) as (E & Hle & Hh'). exists (xpress_skip r 2). split; [|done].
  unfold xpress_readUint16. change (Z.of_nat 2) with 2 in *. rewrite E.
  destruct (Z.ltb_spec (zlen (xr_data r)) (xr_pos r + 2)); [lia|done].
Qed.

Lemma readUint32_holds r p v rest :
  holds r p (le_bytes 4 v ++ rest) -> 0 <= v < 2 ^ 32 -> exists r', xpress_readUint32 r = Ok (v, r') /\ holds r' p rest.
Proof.
  intros Hh Hv. destruct (le_at_holds r p 4 v rest Hh Hv) as (E & Hle & Hh'). exists (xpress_skip r 4). split; [|done].
  unfold xpress_readUint32. change (Z.of_nat 4) with 4 in *. rewrite E.
  destruct (Z.ltb_spec (zlen (xr_data r) - xr_pos r) 4); [lia|done].
Qed.

(** ** Symbols *)

(** The bits at hand start with the code of [s]: the table finds [s]. *)
Lemma table_finds lens table s p :
  table_ok lens table -> has_code lens s -> (16 <= length p)%nat ->
  take (length (code_bits lens s)) p = code_bits lens s -> nthb table (mval (take 15 p)) = s.
Proof.
  intros Ht Hs Hp Hpre. pose proof (complete_prefix _ (to_code _ _ Ht)) as Hc.
  pose proof (code_len_bound 15 lens s Hc Hs) as Hl. rewrite length_code_bits in Hpre.
  apply (to_entries _ _ Ht); [done|]. unfold entry_of.
  assert (El : nthb lens s = Z.of_nat (code_len lens s)) by (unfold code_len; destruct Hs; lia). rewrite El.
  assert (Esplit : take 15 p = code_bits lens s ++ take (15 - code_len lens s) (drop (code_len lens s) p)).
  { rewrite <- Hpre at 1. rewrite <- (take_drop (code_len lens s) (take 15 p)), take_take, skipn_firstn_comm. f_equal. f_equal. lia. }
  rewrite Esplit, mval_app, (mval_code_bits 15) by done.
  pose proof (mval_bound (take (15 - code_len lens s) (drop (code_len lens s) p))) as Hb.
  rewrite length_take, length_drop in *. replace ((15 - code_len lens s) `min` (length p - code_len lens s))%nat with (15 - code_len lens s)%nat in * by lia.
  replace (15 - Z.of_nat (code_len lens s)) with (Z.of_nat (15 - code_len lens s)) by lia. lia.
Qed.

(** Reading a symbol of the stream. *)
Lemma symbol_step lens table pre s post evs tail r :
  table_ok lens table -> has_code lens s ->
  synced (pre ++ code_bits lens s ++ post) (length pre) (EBits (code_bits lens s) :: evs) tail r ->
  exists r', index table (peek15 r) = Ok s /\ 0 <= s < zlen lens /\ nthb lens s <> 0 /\
    xpress_consume r (nthb lens s) = Ok r' /\
    synced (pre ++ code_bits lens s ++ post) (length (pre ++ code_bits lens s)) evs tail r'.
Proof.
  intros Ht Hs Hsync. pose proof (complete_prefix _ (to_code _ _ Ht)) as Hc.
  pose proof (code_len_bound 15 lens s Hc Hs) as Hl. pose proof (length_code_bits lens s) as Elen.
  destruct (synced_prefix _ _ _ _ _ _ _ Hsync eq_refl ltac:(lia)) as (p & rest & Hh & Hpre & Hlen).
  destruct (synced_bits _ _ _ _ _ _ Hsync ltac:(lia)) as (r' & E & Hs').
  exists r'. rewrite Elen in E, Hs'.
  assert (El : nthb lens s = Z.of_nat (code_len lens s)) by (unfold code_len; destruct Hs; lia).
  split; [|split; [apply Hs|split; [destruct Hs; lia|split; [by rewrite El|by rewrite length_app, Elen]]]].
  pose proof (mval_bound (take 15 p)) as Hb. rewrite length_take in Hb.
  replace (15 `min` length p)%nat with 15%nat in Hb by lia. change (2 ^ Z.of_nat 15) with 32768 in Hb.
  rewrite (peek15_spec _ _ _ Hh), index_ok by (rewrite (to_len _ _ Ht); lia). f_equal.
  by apply (table_finds lens).
Qed.

(** Reading the bytes of a length. *)
Lemma length_step B c l evs tail r room :
  synced B c (EBytes (xlength_bytes l) :: evs) tail r -> xlength_ok l -> xlength_value l <= room ->
  exists r', match_length r (xlength_nibble l) room = Ok (xlength_value l, r') /\ synced B c evs tail r'.
Proof.
  intros (w & Hw & Hh) Hl Hroom. cbn [layout] in Hh. rewrite <- app_assoc in Hh. unfold match_length.
  assert (Hok : forall r' v, v = xlength_value l -> holds r' (pbits B c (16 * w - c)) (layout B evs c w ++ tail) ->
    exists r'', Ok (v, r') = Ok (xlength_value l, r'') /\ synced B c evs tail r'').
  { intros r' v -> Hr'. exists r'. split; [done|]. by exists w. }
  destruct l as [n|n|n|n]; simpl in Hl; cbn [xlength_nibble xlength_bytes xlength_value app] in *.
  - destruct (Z.eqb_spec n 15); [lia|]. cbn [res_bind]. by apply Hok.
  - destruct (readByte_holds _ _ _ _ Hh) as (r1 & -> & Hh1). rewrite Z.eqb_refl. cbn [res_bind].
    destruct (Z.eqb_spec n 255); [lia|]. cbn [res_bind]. apply Hok; [lia|done].
  - destruct (readByte_holds _ _ _ _ Hh) as (r1 & -> & Hh1). rewrite !Z.eqb_refl. cbn [res_bind].
    destruct (readUint16_holds _ _ _ _ Hh1 ltac:(lia)) as (r2 & -> & Hh2). rewrite Z.eqb_refl. cbn [res_bind].
    destruct (Z.eqb_spec n 0); [lia|]. cbn [res_bind]. destruct (Z.ltb_spec n 15); [lia|]. cbn [res_bind].
    apply Hok; [lia|done].
  - destruct (readByte_holds _ _ _ _ Hh) as (r1 & -> & Hh1). rewrite !Z.eqb_refl. cbn [res_bind].
    rewrite <- app_assoc in Hh1.
    destruct (readUint16_holds _ _ _ _ Hh1 ltac:(lia)) as (r2 & -> & Hh2). rewrite Z.eqb_refl. cbn [res_bind].
    destruct (readUint32_holds _ _ _ _ Hh2 ltac:(lia)) as (r3 & -> & Hh3). rewrite Z.eqb_refl. cbn [res_bind].
    destruct (Z.ltb_spec room n); [lia|]. cbn [res_bind]. destruct (Z.ltb_spec n 15); [lia|]. cbn [res_bind].
    apply Hok; [lia|done].
Qed.

Lemma land_15 x : Z.land x 15 = x mod 16.
Proof. apply (land_low x 4). lia. Qed.

Lemma shiftr_4 x : Z.shiftr x 4 = x / 16.
Proof. apply (Z.shiftr_div_pow2 x 4). lia. Qed.

Lemma xlength_nibble_range l : xlength_ok l -> 0 <= xlength_nibble l < 16 /\ 3 <= xlength_value l.
Proof. destruct l; simpl; lia. Qed.

(** Reading the offset of a match. *)
Lemma offset_step pre k v post evs tail r :
  synced (pre ++ msb_bits (Z.to_nat k) v ++ post) (length pre) (EBits (msb_bits (Z.to_nat k) v) :: evs) tail r ->
  0 <= k < 16 -> 0 <= v < 2 ^ k ->
  exists r',
    (if 0 <? k then
       let! (value, r) := xpress_readBits r k in Ok (value + Z.shiftl 1 k, r)
     else Ok (1, r)) = Ok (xtoken_offset k v, r') /\
    synced (pre ++ msb_bits (Z.to_nat k) v ++ post) (length (pre ++ msb_bits (Z.to_nat k) v)) evs tail r'.
Proof.
  intros Hs Hk Hv. pose proof (length_msb_bits (Z.to_nat k) v) as Hlen.
  destruct (synced_prefix _ _ _ _ _ _ _ Hs eq_refl ltac:(lia)) as (p & rest & Hh & Hpre & Hp).
  destruct (synced_bits _ _ _ _ _ _ Hs ltac:(lia)) as (r' & E & Hs'). rewrite <- length_app in Hs'.
  rewrite Hlen, Z2Nat.id in E by lia. unfold xtoken_offset. destruct (Z.ltb_spec 0 k) as [Hk0|Hk0].
  - exists r'. split; [|done]. unfold xpress_readBits. destruct (Z.ltb_spec 0 k); [|lia]. rewrite E. cbn [res_bind].
    assert (Ev : Z.shiftr (xr_bits r) (32 - k) = v).
    { rewrite <- (Z2Nat.id k) at 1 by lia. rewrite (readBits_value r p rest) by (done || lia).
      rewrite Hlen in Hpre. rewrite Hpre, mval_msb_bits, Z2Nat.id by lia. by apply Z.mod_small. }
    by rewrite Ev, Z.shiftl_1_l.
  - assert (k = 0) as -> by lia. change (2 ^ 0) with 1 in *. exists r. split; [by replace v with 0 by lia|].
    destruct Hs as (w & Hw & Hh'). exists w. change (msb_bits (Z.to_nat 0) v) with (@nil bool) in *.
    rewrite app_nil_r. cbn [layout length] in Hh'. rewrite Nat.add_0_r in Hh'.
    destruct (Nat.ltb_spec (16 * w) (length pre + 16)); [lia|]. done.
Qed.

(** One token. *)
Lemma token_step lens table outSize pre t evs tail r out :
  table_ok lens table -> xtoken_ok lens out t -> zlen (xtoken_apply out t) <= outSize ->
  let B := pre ++ (xtoken_events lens t ++ evs) ≫= event_bits in
  synced B (length pre) (xtoken_events lens t ++ evs) tail r ->
  exists r', xpress_symbol lens table outSize r out = Ok (xtoken_apply out t, r') /\
    synced B (length (pre ++ xtoken_events lens t ≫= event_bits)) evs tail r'.
Proof.
  intros Ht [Hcode Hok] Hle B Hs. unfold xpress_symbol.
  destruct t as [b|l k v]; cbn [xtoken_events app] in *.
  - unfold B in *. rewrite bind_cons in *. cbn [event_bits] in *.
    destruct (symbol_step lens table pre b _ evs tail r Ht Hcode Hs) as (r1 & -> & Hb & Hne & E & Hs').
    cbn [res_bind]. replace ((b <? 0) || (zlen lens <=? b) || (nthb lens b =? 0)) with false by lia.
    rewrite E. cbn [res_bind]. destruct (Z.ltb_spec b 256); [|lia]. rewrite u8_id by lia. exists r1. split; [done|].
    rewrite bind_cons. cbn [event_bits]. change (@mbind list _ xevent bool event_bits []) with (@nil bool).
    by rewrite app_nil_r.
  - destruct Hok as (Hl & Hk & Hv & Hoff). pose proof (xlength_nibble_range l Hl) as [Hnib Hval].
    set (s := xtoken_symbol (XMatch l k v)) in *.
    assert (HB : B = pre ++ code_bits lens s ++ msb_bits (Z.to_nat k) v ++ (evs ≫= event_bits)).
    { unfold B. rewrite !bind_cons. cbn [event_bits app]. by rewrite <- ?app_assoc. }
    rewrite HB in *. clear HB B.
    destruct (symbol_step lens table pre s _ _ tail r Ht Hcode Hs) as (r1 & -> & Hb & Hne & E & Hs1).
    cbn [res_bind]. replace ((s <? 0) || (zlen lens <=? s) || (nthb lens s =? 0)) with false by lia.
    rewrite E. cbn [res_bind]. assert (Es : s - 256 = 16 * k + xlength_nibble l) by (unfold s; simpl; lia).
    destruct (Z.ltb_spec s 256); [lia|]. rewrite Es, land_15, shiftr_4.
    replace ((16 * k + xlength_nibble l) mod 16) with (xlength_nibble l) by lia.
    replace ((16 * k + xlength_nibble l) / 16) with k by lia.
    simpl xtoken_apply in *. rewrite zlen_window_copy in Hle.
    destruct (length_step _ _ _ _ _ _ (outSize - zlen out) Hs1 Hl ltac:(lia)) as (r2 & -> & Hs2). cbn [res_bind].
    rewrite app_assoc in Hs2. destruct (offset_step (pre ++ code_bits lens s) k v _ _ _ _ Hs2 Hk Hv) as (r3 & E3 & Hs3).
    rewrite E3. cbn [res_bind]. assert (0 < 2 ^ k) by (apply Z.pow_pos_nonneg; lia).
    assert (1 <= xtoken_offset k v) by (unfold xtoken_offset; lia).
    replace ((xtoken_offset k v <=? 0) || (zlen out <? xtoken_offset k v)) with false by lia.
    destruct (Z.ltb_spec (outSize - zlen out) (xlength_value l)); [lia|].
    rewrite xpress_copy_spec by lia. cbn [res_bind]. exists r3. split; [done|].
    rewrite <- !app_assoc in Hs3. rewrite !bind_cons. cbn [event_bits app].
    change (@mbind list _ xevent bool event_bits []) with (@nil bool). by rewrite app_nil_r.
Qed.

(** ** Blocks *)

Lemma tokens_step lens table outSize blockEnd ts fuel pre tail r out :
  table_ok lens table -> xtokens_ok lens outSize blockEnd out ts -> (length ts <= fuel)%nat ->
  let B := pre ++ (block_events lens ts ≫= event_bits) in
  synced B (length pre) (block_events lens ts) tail r ->
  exists r', xpress_block fuel lens table outSize blockEnd r out = Ok (xtokens_apply out ts, r') /\
    synced B (length B) [] tail r'.
Proof.
  intros Ht. revert fuel pre r out. induction ts as [|t ts IH]; intros fuel pre r out Hts Hf B Hs.
  { simpl in Hts. assert (EB : B = pre) by apply app_nil_r. rewrite EB in Hs |- *. exists r. split; [|exact Hs].
    destruct fuel; cbn [xpress_block]; (destruct (Z.ltb_spec (zlen out) blockEnd); [lia|done]). }
  destruct Hts as (Hlt & Hok & Hle & Hts). destruct fuel as [|fuel]; [simpl in Hf; lia|].
  unfold block_events in *. rewrite bind_cons in *. cbn [xpress_block].
  destruct (Z.ltb_spec (zlen out) blockEnd); [|lia].
  destruct (token_step lens table outSize pre t _ tail r out Ht Hok Hle Hs) as (r1 & -> & Hs1). cbn [res_bind].
  specialize (IH fuel (pre ++ (xtoken_events lens t ≫= event_bits)) r1 (xtoken_apply out t) Hts ltac:(simpl in Hf; lia)).
  cbv zeta in IH. rewrite <- app_assoc, <- bind_app in IH. apply IH. exact Hs1.
Qed.

Lemma xtoken_grows lens out t : xtoken_ok lens out t -> zlen out < zlen (xtoken_apply out t).
Proof.
  intros [_ H]. destruct t as [b|l k v]; simpl.
  - rewrite zlen_app. change (zlen [b]) with 1. lia.
  - rewrite zlen_window_copy. destruct H as [Hl _]. pose proof (xlength_nibble_range l Hl). lia.
Qed.

Lemma xtokens_grow lens outSize blockEnd ts out :
  xtokens_ok lens outSize blockEnd out ts -> zlen out <= outSize ->
  Z.of_nat (length ts) <= Z.max 0 (blockEnd - zlen out) /\ blockEnd <= zlen (xtokens_apply out ts) <= Z.max outSize blockEnd.
Proof.
  revert out. induction ts as [|t ts IH]; intros out; simpl; [lia|]. intros (Hlt & Hok & Hle & Hts) Ho.
  pose proof (xtoken_grows _ _ _ Hok). specialize (IH _ Hts Hle). unfold xtokens_apply in *. simpl. lia.
Qed.

Lemma zlen_pack lens : Z.even (zlen lens) = true -> 2 * zlen (pack_lengths lens) = zlen lens.
Proof.
  assert (Hgen : forall n lens, (length lens <= n)%nat -> Z.even (zlen lens) = true -> 2 * zlen (pack_lengths lens) = zlen lens).
  { clear. induction n as [|n IH]; intros [|a [|b lens]] Hn He; simpl in Hn; try lia; try done.
    cbn [pack_lengths]. rewrite !zlen_cons in *. rewrite Z.add_assoc in He.
    replace (1 + 1 + zlen lens) with (zlen lens + 2 * 1) in He by lia. rewrite Z.even_add_mul_2 in He.
    specialize (IH lens ltac:(lia) He). lia. }
  intros. by apply (Hgen (length lens)).
Qed.

Lemma unpack_lengths lens :
  Forall (fun x => 0 <= x <= 15) lens -> Z.even (zlen lens) = true -> xpressCodeLengths (pack_lengths lens) = lens.
Proof.
  assert (Hgen : forall n lens, (length lens <= n)%nat -> Forall (fun x => 0 <= x <= 15) lens -> Z.even (zlen lens) = true ->
    xpressCodeLengths (pack_lengths lens) = lens).
  { clear. induction n as [|n IH]; intros [|a [|b lens]] Hn HF He; simpl in Hn; try lia; try done.
    apply Forall_cons in HF as [Ha HF]. apply Forall_cons in HF as [Hb HF].
    cbn [pack_lengths]. unfold xpressCodeLengths in *. rewrite bind_cons, land_15, shiftr_4.
    replace ((a + 16 * b) mod 16) with a by lia. replace ((a + 16 * b) / 16) with b by lia. cbn [app].
    rewrite !zlen_cons, Z.add_assoc in He. replace (1 + 1 + zlen lens) with (zlen lens + 2 * 1) in He by lia.
    rewrite Z.even_add_mul_2 in He. by rewrite IH by (done || lia). }
  intros. by apply (Hgen (length lens)).
Qed.

Lemma pack_lengths_ok lens : Forall (fun x => 0 <= x <= 15) lens -> bytes_ok (pack_lengths lens).
Proof.
  assert (Hgen : forall n lens, (length lens <= n)%nat -> Forall (fun x => 0 <= x <= 15) lens -> bytes_ok (pack_lengths lens)).
  { clear. induction n as [|n IH]; intros [|a [|b lens]] Hn HF; simpl in Hn; try lia; try constructor.
    - apply Forall_cons in HF as [Ha HF]. apply Forall_cons in HF as [Hb HF]. unfold byte_ok. lia.
    - apply Forall_cons in HF as [Ha HF]. apply Forall_cons in HF as [Hb HF]. apply IH; [lia|done]. }
  intros. by apply (Hgen (length lens)).
Qed.

Lemma layout_ok B evs c w :
  Forall (fun e => match e with EBits _ => True | EBytes l => bytes_ok l end) evs -> bytes_ok (layout B evs c w).
Proof.
  intros HF. revert c w. induction HF as [|e evs He HF IH]; intros c w; [constructor|].
  destruct e as [b|l]; cbn [layout].
  - destruct (_ <? _)%nat; [|apply IH]. apply Forall_app. split; [apply le_bytes_ok|apply IH].
  - apply Forall_app. split; [done|apply IH].
Qed.

Lemma block_events_ok lens outSize blockEnd out ts :
  xtokens_ok lens outSize blockEnd out ts ->
  Forall (fun e => match e with EBits _ => True | EBytes l => bytes_ok l end) (block_events lens ts).
Proof.
  revert out. induction ts as [|t ts IH]; intros out; [constructor|]. intros (_ & [_ Hok] & _ & Hts).
  unfold block_events. rewrite bind_cons. apply Forall_app. split; [|by eapply IH].
  destruct t as [b|l k v]; [by repeat constructor|]. destruct Hok as [Hl _].
  apply Forall_cons. split; [done|]. apply Forall_cons. split; [|by repeat constructor].
  destruct l as [n|n|n|n]; simpl in Hl |- *; unfold bytes_ok; rewrite ?Forall_cons, ?Forall_nil; unfold byte_ok;
    (lia || (split; [lia|]; apply le_bytes_ok) || (split_and!; try lia; apply le_bytes_ok)).
Qed.

Lemma encode_block_ok lens outSize blockEnd out ts :
  complete_code lens -> xtokens_ok lens outSize blockEnd out ts -> bytes_ok (encode_block lens ts).
Proof.
  intros Hc Hts. unfold encode_block. repeat apply Forall_app_2; try apply le_bytes_ok.
  - by apply pack_lengths_ok, Hc.
  - apply layout_ok. by eapply block_events_ok.
Qed.

Lemma encode_blocks_ok outSize out bs : xblocks_ok outSize out bs -> bytes_ok (encode_blocks bs).
Proof.
  revert out. induction bs as [|[lens ts] bs IH]; intros out; [constructor|]. intros (Hc & _ & Hts & Hbs).
  unfold encode_blocks. rewrite bind_cons. apply Forall_app. split; [by eapply encode_block_ok|by eapply IH].
Qed.

(** A block is read back up to the data behind it. *)
Lemma block_step lens outSize blockEnd fuel ts tail out :
  complete_code lens -> xtokens_ok lens outSize blockEnd out ts -> (length ts <= fuel)%nat -> bytes_ok tail ->
  exists table r r',
    take 256 (encode_block lens ts ++ tail) = pack_lengths lens /\ newXPRESSDecodeTable lens = Ok table /\
    newXPRESSBitReader (drop 256 (encode_block lens ts ++ tail)) = Ok r /\
    xpress_block fuel lens table outSize blockEnd r out = Ok (xtokens_apply out ts, r') /\ remainingData r' = tail.
Proof.
  intros Hc Hts Hf Htail. pose proof (newXPRESSDecodeTable_spec lens (cc_count _ Hc) (cc_range _ Hc)) as Ht.
  destruct (newXPRESSDecodeTable lens) as [table|e]; [|by destruct Ht].
  assert (Hpack : length (pack_lengths lens) = 256%nat).
  { pose proof (zlen_pack lens) as Hz. rewrite (cc_count _ Hc) in Hz. specialize (Hz eq_refl). unfold zlen in Hz. lia. }
  unfold encode_block. set (B := block_events lens ts ≫= event_bits). rewrite <- !app_assoc.
  destruct (word_of_bits B 0) as (b0 & b1 & E0 & W0). destruct (word_of_bits B 1) as (b2 & b3 & E1 & W1).
  destruct (new_reader_holds b0 b1 b2 b3 (layout B (block_events lens ts) 0 2 ++ tail)) as (r & Er & Hh).
  { change (bytes_ok ([b0; b1] ++ [b2; b3] ++ layout B (block_events lens ts) 0 2 ++ tail)). rewrite <- E0, <- E1.
    repeat apply Forall_app_2; try apply le_bytes_ok; [|done]. apply layout_ok. by eapply block_events_ok. }
  destruct (tokens_step lens table outSize blockEnd ts fuel [] tail r out Ht Hts Hf) as (r' & Eb & Hs').
  { exists 2%nat. split; [simpl; lia|]. change (16 * 2 - length (@nil bool))%nat with (16 + 16)%nat. rewrite pbits_app.
    cbn [app length]. fold B. change (0 + 16)%nat with (16 * 1)%nat. change 0%nat with (16 * 0)%nat at 1. rewrite <- W0, <- W1. exact Hh. }
  exists table, r, r'. rewrite take_app_length', drop_app_length' by done. rewrite E0, E1.
  split; [done|]. split; [done|]. split; [exact Er|]. split; [done|].
  destruct Hs' as (w & _ & Hh'). by apply remaining_rest in Hh'.
Qed.

Lemma xpress_loop_complete bs fuel tail outSize out :
  xblocks_ok outSize out bs -> bytes_ok tail -> outSize - zlen out <= Z.of_nat fuel -> zlen out <= outSize ->
  xpress_loop fuel (encode_blocks bs ++ tail) outSize out = Ok (xblocks_apply out bs).
Proof.
  intros Hbs Htail. revert fuel out Hbs. induction bs as [|[lens ts] bs IH]; intros fuel out Hbs Hf Ho.
  { simpl in Hbs. destruct fuel; cbn [xpress_loop]; (destruct (Z.ltb_spec (zlen out) outSize); [lia|]);
      rewrite take_ge by (unfold zlen in *; lia); done. }
  destruct Hbs as (Hc & Hlt & Hts & Hbs). destruct fuel as [|fuel]; [lia|].
  unfold encode_blocks. rewrite bind_cons, <- app_assoc. fold (encode_blocks bs). cbn [fst snd xpress_loop].
  destruct (Z.ltb_spec (zlen out) outSize); [|lia].
  replace (if outSize <? zlen out + 65536 then outSize else zlen out + 65536) with (Z.min outSize (zlen out + 65536))
    by (destruct (Z.ltb_spec outSize (zlen out + 65536)); lia).
  set (blockEnd := Z.min outSize (zlen out + 65536)) in *.
  pose proof (xtokens_grow _ _ _ _ _ Hts Ho) as [Hn Hg].
  destruct (block_step lens outSize blockEnd (Z.to_nat (blockEnd - zlen out)) ts (encode_blocks bs ++ tail) out)
    as (table & r & r' & Etake & Et & Er & Eb & Erem); [done|done|lia| |].
  { apply Forall_app. split; [by eapply encode_blocks_ok|done]. }
  assert (Hlong : (zlen (encode_block lens ts ++ encode_blocks bs ++ tail) <? 256) = false).
  { apply Z.ltb_ge. pose proof (f_equal length Etake) as Hl. rewrite length_take in Hl.
    pose proof (zlen_pack lens) as Hz. rewrite (cc_count _ Hc) in Hz. specialize (Hz eq_refl). unfold zlen in *. lia. }
  rewrite Hlong, Etake, unpack_lengths, Et by (apply Hc || (rewrite (cc_count _ Hc); done)). cbn [res_bind].
  rewrite Er. cbn [res_bind]. rewrite Eb. cbn [res_bind]. rewrite Erem. apply IH; [done|lia|lia].
Qed.
