(* ===== verification/WinContainer.v ===== *)
(** Package [compression/internal/wincontainer]: the frames of the Windows
    Compression API (src/compression/internal/wincontainer/container.go), and
    their use with XPRESS Huffman (src/compression/xpress/container.go).

    The codec is a parameter with its contract as a class; the decoder of
    package [compression/xpress] is an instance. *)

From S2P Require Import Prelude GoLib GoCodec BitStream Xpress XpressFormat.
From stdpp Require Import base numbers list gmap sorting strings.

Open Scope Z_scope.
Open Scope trex_scope.

#[local] Ltac Zify.zify_post_hook ::= Z.to_euclidean_division_equations.

(** ** The decoder *)

Definition CompressionAPIMagic : Z := 0xc0e5510a.
Definition compressionAPIHeaderSize : Z := 24.
Definition maximumContainerChunk : Z := 67108864.

(** The checksum of the header without its checksum byte. *)
Definition containerHeaderCRC (header : bytes) : Z := u8 (crc32_ChecksumIEEE (take 6 header ++ drop 7 header)).

(** The loop over the chunks; a round consumes at least the size of a
    chunk. *)
Fixpoint container_loop (fuel : nat) (decompress : bytes -> Z -> res bytes) (data : bytes) (total chunkSize : Z)
    (offset : Z) (output : bytes) : res (bytes * Z) :=
  if zlen output <? total then
    match fuel with
    | O => Err OutOfFuel
    | S fuel =>
        if zlen data - offset <? 4 then Err (Errorf "wincontainer: truncated container chunk header at %#x")
        else
          let compressedSize := le_at data offset 4 in
          let offset := offset + 4 in
          let remaining := total - zlen output in
          let uncompressedSize := Z.min chunkSize remaining in
          if (compressedSize =? 0) || (uncompressedSize <? compressedSize)
          then Err (Errorf "wincontainer: invalid compressed chunk size %d for %d output bytes")
          else if zlen data - offset <? compressedSize
          then Err (Errorf "wincontainer: truncated container chunk at %#x")
          else
            let chunk := slice offset compressedSize data in
            let offset := offset + compressedSize in
            if compressedSize =? uncompressedSize
            then container_loop fuel decompress data total chunkSize offset (output ++ chunk)
            else
              match decompress chunk uncompressedSize with
              | Err e => Err (Wrapf "wincontainer: container chunk at output offset %#x: %w" e)
              | Ok decoded => container_loop fuel decompress data total chunkSize offset (output ++ decoded)
              end
    end
  else Ok (output, offset).

Definition container_Decode (data : bytes) (maximumOutputSize algorithm : Z) (decompress : bytes -> Z -> res bytes)
    : res bytes :=
  if zlen data <? compressionAPIHeaderSize
  then Err (Errorf "wincontainer: container has %d bytes, need at least %d")
  else if negb (le_at data 0 4 =? CompressionAPIMagic) then Err (Errorf "wincontainer: invalid container magic %#x")
  else
    let headerSize := le_at data 4 2 in
    if (headerSize <? compressionAPIHeaderSize) || (zlen data <? headerSize)
    then Err (Errorf "wincontainer: invalid container header size %d")
    else if negb (containerHeaderCRC (take (Z.to_nat headerSize) data) =? nthb data 6)
    then Err (Errorf "wincontainer: container header CRC %#x does not match %#x")
    else if negb (nthb data 7 =? algorithm) then Err (Errorf "wincontainer: unsupported container algorithm %d")
    else
      let total := le_at data 8 8 in
      if maximumOutputSize <? total then Err (Errorf "wincontainer: container output size %d exceeds limit %d")
      else if MaxInt64 <? total then Err (Errorf "wincontainer: container output size %d is too large")
      else
        let chunkSize := le_at data 16 4 in
        if (chunkSize =? 0) || (maximumContainerChunk <? chunkSize)
        then Err (Errorf "wincontainer: invalid container chunk size %d")
        else if negb (le_at data 20 4 =? 0) then Err (Errorf "wincontainer: unsupported container flags %#x")
        else
          let! (output, offset) := container_loop (length data) decompress data total chunkSize headerSize [] in
          if negb (offset =? zlen data) then Err (Errorf "wincontainer: container has %d trailing bytes")
          else Ok output.

(** [DecompressContainer] of package [compression/xpress]. *)
Definition xpress_DecompressContainer (data : bytes) (maximumOutputSize : Z) : res bytes :=
  container_Decode data maximumOutputSize 4 HuffmanDecompress.

(** ** Codecs *)

(** What the container relies on: a codec returns, and a success has the
    requested size. *)
Class Codec (decompress : bytes -> Z -> res bytes) : Prop :=
  codec_exact : forall chunk n, bytes_ok chunk -> 0 <= n -> returns (fun out => zlen out = n) (decompress chunk n).

#[export] Instance xpress_codec : Codec HuffmanDecompress.
Proof.
  intros chunk n Hc Hn. unfold HuffmanDecompress. destruct (Z.ltb_spec n 0); [lia|].
  apply xpress_loop_total; [done|rewrite zlen_nil; lia|done].
Qed.

(** ** The format *)

Inductive container_chunk :=
  | RawData (d : bytes)
  | Packed (z d : bytes).

Definition chunk_wire (c : container_chunk) : bytes := match c with RawData d => d | Packed z _ => z end.
Definition piece_content (c : container_chunk) : bytes := match c with RawData d => d | Packed _ d => d end.

(** Chunks of [chunkSize] bytes, the last one of what is left. *)
Fixpoint container_ok (decompress : bytes -> Z -> res bytes) (chunkSize total produced : Z) (cs : list container_chunk) : Prop :=
  match cs with
  | [] => produced = total
  | c :: cs =>
      let n := Z.min chunkSize (total - produced) in
      0 < n /\ bytes_ok (chunk_wire c) /\
      match c with
      | RawData d => zlen d = n
      | Packed z d => 0 < zlen z < n /\ decompress z n = Ok d /\ zlen d = n
      end /\ container_ok decompress chunkSize total (produced + n) cs
  end.

Definition encode_chunks_of (cs : list container_chunk) : bytes :=
  cs ≫= fun c => le_bytes 4 (zlen (chunk_wire c)) ++ chunk_wire c.

(** The header around its checksum byte; [extra] is what a longer header
    holds. *)
Definition header_head (size : Z) : bytes := le_bytes 4 CompressionAPIMagic ++ le_bytes 2 size.
Definition header_tail (algorithm total chunkSize : Z) (extra : bytes) : bytes :=
  algorithm :: le_bytes 8 total ++ le_bytes 4 chunkSize ++ le_bytes 4 0 ++ extra.

Definition encode_container (algorithm total chunkSize : Z) (extra : bytes) (cs : list container_chunk) : bytes :=
  let head := header_head (24 + zlen extra) in
  let tail := header_tail algorithm total chunkSize extra in
  head ++ [u8 (crc32_ChecksumIEEE (head ++ tail))] ++ tail ++ encode_chunks_of cs.

Definition container_content (cs : list container_chunk) : bytes := cs ≫= piece_content.

(** ** Chunks *)

Lemma slice_app_mid {A} (p q s : list A) : slice (zlen p) (zlen q) (p ++ q ++ s) = q.
Proof. unfold slice, zlen. rewrite !Nat2Z.id, drop_app_length, take_app_length. done. Qed.

Lemma le_at_mid p (n : nat) v s :
  0 <= v < 256 ^ Z.of_nat n -> le_at (p ++ le_bytes n v ++ s) (zlen p) (Z.of_nat n) = v.
Proof.
  intros Hv. unfold le_at. rewrite <- (zlen_le_bytes n v) at 1. rewrite slice_app_mid. by apply le_roundtrip.
Qed.

Lemma container_loop_complete decompress total chunkSize cs fuel pre output :
  0 < chunkSize < 2 ^ 32 -> container_ok decompress chunkSize total (zlen output) cs -> (length cs <= fuel)%nat ->
  container_loop fuel decompress (pre ++ encode_chunks_of cs) total chunkSize (zlen pre) output
  = Ok (output ++ container_content cs, zlen (pre ++ encode_chunks_of cs)).
Proof.
  intros Hcs. revert fuel pre output. induction cs as [|c cs IH]; intros fuel pre output Hok Hf.
  { simpl in Hok. unfold encode_chunks_of, container_content. simpl. rewrite !app_nil_r.
    destruct fuel; cbn [container_loop]; (destruct (Z.ltb_spec (zlen output) total); [lia|done]). }
  destruct Hok as (Hn & Hw & Hc & Hok). destruct fuel as [|fuel]; [simpl in Hf; lia|].
  unfold encode_chunks_of, container_content. rewrite !bind_cons, <- !app_assoc.
  fold (encode_chunks_of cs). fold (container_content cs). cbn [container_loop].
  set (n := Z.min chunkSize (total - zlen output)) in *. destruct (Z.ltb_spec (zlen output) total); [|lia].
  assert (Hwl : 0 < zlen (chunk_wire c) <= n) by (destruct c; simpl in *; lia).
  pose proof (zlen_nonneg (encode_chunks_of cs)).
  assert (Hz : zlen (pre ++ le_bytes 4 (zlen (chunk_wire c)) ++ chunk_wire c ++ encode_chunks_of cs)
    = zlen pre + 4 + zlen (chunk_wire c) + zlen (encode_chunks_of cs)) by (rewrite !zlen_app, zlen_le_bytes; lia).
  destruct (Z.ltb_spec (zlen (pre ++ le_bytes 4 (zlen (chunk_wire c)) ++ chunk_wire c ++ encode_chunks_of cs) - zlen pre) 4); [lia|].
  rewrite (le_at_mid pre 4) by (change (256 ^ Z.of_nat 4) with (2 ^ 32); lia).
  replace ((zlen (chunk_wire c) =? 0) || (n <? zlen (chunk_wire c))) with false by lia.
  rewrite Hz. destruct (Z.ltb_spec (zlen pre + 4 + zlen (chunk_wire c) + zlen (encode_chunks_of cs) - (zlen pre + 4)) (zlen (chunk_wire c))); [lia|].
  assert (Hslice : slice (zlen pre + 4) (zlen (chunk_wire c)) (pre ++ le_bytes 4 (zlen (chunk_wire c)) ++ chunk_wire c ++ encode_chunks_of cs) = chunk_wire c).
  { rewrite app_assoc. replace (zlen pre + 4) with (zlen (pre ++ le_bytes 4 (zlen (chunk_wire c)))) by (rewrite zlen_app, zlen_le_bytes; lia).
    apply slice_app_mid. }
  rewrite Hslice.
  assert (Hnext : container_loop fuel decompress (pre ++ le_bytes 4 (zlen (chunk_wire c)) ++ chunk_wire c ++ encode_chunks_of cs)
      total chunkSize (zlen pre + 4 + zlen (chunk_wire c)) (output ++ piece_content c)
    = Ok (output ++ piece_content c ++ container_content cs, zlen pre + 4 + zlen (chunk_wire c) + zlen (encode_chunks_of cs))).
  { specialize (IH fuel (pre ++ le_bytes 4 (zlen (chunk_wire c)) ++ chunk_wire c) (output ++ piece_content c)).
    rewrite !zlen_app, zlen_le_bytes, <- !app_assoc in IH.
    replace (zlen pre + 4 + zlen (chunk_wire c)) with (zlen pre + (Z.of_nat 4 + zlen (chunk_wire c))) by lia.
    apply IH; [|simpl in Hf; lia].
    replace (zlen output + zlen (piece_content c)) with (zlen output + n); [done|]. destruct c; simpl in *; lia. }
  destruct c as [d|z d]; cbn [chunk_wire piece_content] in *.
  - replace (zlen d =? n) with true by lia. exact Hnext.
  - replace (zlen z =? n) with false by lia. destruct Hc as (_ & -> & _). exact Hnext.
Qed.

(** The loop on any data. *)
Lemma container_loop_total decompress `{!Codec decompress} data total chunkSize fuel offset output :
  bytes_ok data -> 0 < chunkSize -> 0 <= offset <= zlen data -> zlen data - offset < Z.of_nat fuel -> zlen output <= total ->
  match container_loop fuel decompress data total chunkSize offset output with
  | Ok (out, _) => zlen out = total
  | Err e => e <> Panic /\ e <> OutOfFuel
  end.
Proof.
  intros Hd Hc. revert offset output. induction fuel as [|fuel IH]; intros offset output Ho Hf Hle; cbn [container_loop];
    (destruct (Z.ltb_spec (zlen output) total); [|lia]); [lia|].
  destruct (Z.ltb_spec (zlen data - offset) 4); [done|].
  set (size := le_at data offset 4). set (n := Z.min chunkSize (total - zlen output)).
  destruct ((size =? 0) || (n <? size)) eqn:Es; [done|].
  destruct (Z.ltb_spec (zlen data - (offset + 4)) size); [done|].
  assert (Hsize : 0 <= size).
  { unfold size, le_at. pose proof (le_val_bound (slice offset 4 data) ltac:(by apply Forall_take, Forall_drop)). lia. }
  assert (Hchunk : bytes_ok (slice (offset + 4) size data)) by (by apply Forall_take, Forall_drop).
  destruct (Z.eqb_spec size n) as [E|E].
  - apply IH; [lia|lia|]. rewrite zlen_app, zlen_slice by lia. lia.
  - pose proof (codec_exact (slice (offset + 4) size data) n Hchunk ltac:(lia)) as Hx.
    destruct (decompress _ n) as [d|e]; [|done]. simpl in Hx. apply IH; [lia|lia|]. rewrite zlen_app. lia.
Qed.

(** ** Frames *)

Lemma header_fields algorithm total chunkSize extra cs :
  byte_ok algorithm -> 0 <= total < 2 ^ 64 -> 0 <= chunkSize < 2 ^ 32 -> 24 + zlen extra < 65536 ->
  let data := encode_container algorithm total chunkSize extra cs in
  24 + zlen extra <= zlen data /\ le_at data 0 4 = CompressionAPIMagic /\ le_at data 4 2 = 24 + zlen extra /\
  containerHeaderCRC (take (Z.to_nat (24 + zlen extra)) data) = nthb data 6 /\ nthb data 7 = algorithm /\
  le_at data 8 8 = total /\ le_at data 16 4 = chunkSize /\ le_at data 20 4 = 0.
Proof.
  intros Ha Ht Hc Hx data. pose proof (zlen_nonneg extra) as He. pose proof (zlen_nonneg (encode_chunks_of cs)) as Hcs.
  set (head := header_head (24 + zlen extra)). set (tail := header_tail algorithm total chunkSize extra).
  set (crc := u8 (crc32_ChecksumIEEE (head ++ tail))).
  assert (Hhead : zlen head = 6) by done.
  assert (Htail : zlen tail = 17 + zlen extra) by (unfold tail, header_tail; rewrite zlen_cons, !zlen_app, !zlen_le_bytes; lia).
  assert (Edata : data = head ++ [crc] ++ tail ++ encode_chunks_of cs) by done.
  assert (Hfield : forall (p s : bytes) (n : nat) (v off : Z), data = p ++ le_bytes n v ++ s -> zlen p = off ->
    0 <= v < 256 ^ Z.of_nat n -> le_at data off (Z.of_nat n) = v).
  { intros p s n v off -> <- Hv. by apply le_at_mid. }
  split; [rewrite Edata, !zlen_app, Hhead, Htail; change (zlen [crc]) with 1; lia|].
  split; [by apply (Hfield [] (le_bytes 2 (24 + zlen extra) ++ [crc] ++ tail ++ encode_chunks_of cs) 4%nat)|].
  split; [apply (Hfield (le_bytes 4 CompressionAPIMagic) ([crc] ++ tail ++ encode_chunks_of cs) 2%nat); [done|done|change (256 ^ Z.of_nat 2) with 65536; lia]|].
  split.
  { assert (Etake : take (Z.to_nat (24 + zlen extra)) data = head ++ [crc] ++ tail).
    { rewrite Edata, (app_assoc [crc]), (app_assoc head). rewrite take_app_length'; [done|].
      unfold zlen in *. rewrite !length_app. simpl. lia. }
    rewrite Etake. unfold containerHeaderCRC.
    assert (E6 : take 6 (head ++ [crc] ++ tail) = head) by (by apply take_app_length').
    assert (E7 : drop 7 (head ++ [crc] ++ tail) = tail) by (rewrite app_assoc; by apply drop_app_length').
    rewrite E6, E7. done. }
  split; [done|].
  assert (Hsplit : data = (head ++ [crc; algorithm]) ++ le_bytes 8 total ++ le_bytes 4 chunkSize ++ le_bytes 4 0 ++ extra ++ encode_chunks_of cs).
  { rewrite Edata. unfold tail, header_tail. rewrite <- !app_assoc. cbn [app]. by rewrite <- !app_assoc. }
  split; [apply (Hfield (head ++ [crc; algorithm]) (le_bytes 4 chunkSize ++ le_bytes 4 0 ++ extra ++ encode_chunks_of cs) 8%nat); [done|done|exact Ht]|].
  split.
  - apply (Hfield ((head ++ [crc; algorithm]) ++ le_bytes 8 total) (le_bytes 4 0 ++ extra ++ encode_chunks_of cs) 4%nat);
      [by rewrite <- app_assoc|by rewrite zlen_app, zlen_le_bytes|exact Hc].
  - apply (Hfield (((head ++ [crc; algorithm]) ++ le_bytes 8 total) ++ le_bytes 4 chunkSize) (extra ++ encode_chunks_of cs) 4%nat);
      [by rewrite <- !app_assoc in *|by rewrite !zlen_app, !zlen_le_bytes|done].
Qed.

Lemma container_complete decompress algorithm total chunkSize maximum extra cs :
  byte_ok algorithm -> 0 <= total <= maximum -> total <= MaxInt64 -> 0 < chunkSize <= maximumContainerChunk ->
  24 + zlen extra < 65536 -> container_ok decompress chunkSize total 0 cs ->
  container_Decode (encode_container algorithm total chunkSize extra cs) maximum algorithm decompress
  = Ok (container_content cs).
Proof.
  intros Ha Ht Hmax Hc Hx Hok. pose proof (zlen_nonneg extra) as He.
  assert (Hc' : 0 <= chunkSize < 2 ^ 32) by (unfold maximumContainerChunk in Hc; lia).
  destruct (header_fields algorithm total chunkSize extra cs Ha ltac:(unfold MaxInt64 in Hmax; lia) Hc' Hx)
    as (Hz & Em & Es & Ecrc & Ealg & Et & Ec & Ef).
  pose (head := header_head (24 + zlen extra) ++ [u8 (crc32_ChecksumIEEE (header_head (24 + zlen extra) ++ header_tail algorithm total chunkSize extra))]
    ++ header_tail algorithm total chunkSize extra).
  assert (Edata : encode_container algorithm total chunkSize extra cs = head ++ encode_chunks_of cs)
    by (unfold encode_container, head; by rewrite <- !app_assoc).
  assert (Hhead : zlen head = 24 + zlen extra).
  { unfold head, header_head, header_tail. rewrite !zlen_app, !zlen_cons, zlen_nil, !zlen_app, !zlen_le_bytes. lia. }
  assert (Hlen : (length cs <= length (encode_container algorithm total chunkSize extra cs))%nat).
  { rewrite Edata, length_app. enough (length cs <= length (encode_chunks_of cs))%nat by lia. clear.
    induction cs as [|c cs IH]; [done|]. unfold encode_chunks_of in *. rewrite bind_cons, !length_app.
    change (length (le_bytes 4 (zlen (chunk_wire c)))) with 4%nat. cbn [length]. lia. }
  pose proof (container_loop_complete decompress total chunkSize cs (length (encode_container algorithm total chunkSize extra cs))
    head [] ltac:(lia) Hok Hlen) as Hloop.
  rewrite <- Edata, Hhead in Hloop. revert Hz Em Es Ecrc Ealg Et Ec Ef Hloop.
  generalize (encode_container algorithm total chunkSize extra cs). intros data Hz Em Es Ecrc Ealg Et Ec Ef Hloop.
  unfold container_Decode. rewrite Em, Es, Ecrc, Ealg, Et, Ec, Ef, !Z.eqb_refl. unfold compressionAPIHeaderSize.
  change (negb true) with false. cbv iota. destruct (Z.ltb_spec (zlen data) 24); [lia|].
  replace ((24 + zlen extra <? 24) || (zlen data <? 24 + zlen extra)) with false by lia.
  destruct (Z.ltb_spec maximum total); [lia|]. destruct (Z.ltb_spec MaxInt64 total); [lia|].
  replace ((chunkSize =? 0) || (maximumContainerChunk <? chunkSize)) with false by lia.
  rewrite Hloop. cbn [res_bind]. by rewrite Z.eqb_refl.
Qed.

Lemma container_total decompress `{!Codec decompress} data maximum algorithm :
  bytes_ok data -> returns (fun out => zlen out <= maximum) (container_Decode data maximum algorithm decompress).
Proof.
  intros Hd. unfold container_Decode, compressionAPIHeaderSize. destruct (Z.ltb_spec (zlen data) 24); [done|].
  destruct (negb (le_at data 0 4 =? CompressionAPIMagic)); [done|].
  set (hs := le_at data 4 2). destruct ((hs <? 24) || (zlen data <? hs)) eqn:Eh; [done|].
  destruct (negb (containerHeaderCRC _ =? _)); [done|]. destruct (negb (nthb data 7 =? algorithm)); [done|].
  set (total := le_at data 8 8). destruct (Z.ltb_spec maximum total); [done|]. destruct (MaxInt64 <? total); [done|].
  set (chunk := le_at data 16 4). destruct ((chunk =? 0) || (maximumContainerChunk <? chunk)) eqn:Ec; [done|].
  destruct (negb (le_at data 20 4 =? 0)); [done|].
  assert (Hnn : forall off n, 0 <= le_at data off n).
  { intros off n. unfold le_at. pose proof (le_val_bound (slice off n data) ltac:(by apply Forall_take, Forall_drop)). lia. }
  pose proof (Hnn 8 8). pose proof (Hnn 16 4).
  pose proof (container_loop_total decompress data total chunk (length data) hs [] Hd ltac:(lia) ltac:(lia) ltac:(unfold zlen in *; lia) ltac:(rewrite zlen_nil; lia)) as Hl.
  destruct (container_loop _ _ _ _ _ _ _) as [[out off]|e]; cbn [res_bind]; [|done].
  destruct (negb (off =? zlen data)); [done|]. simpl. lia.
Qed.


(** A literal and an overlapping match in a code of two symbols, and its
    frame. *)
Definition xpress_sample_lens : list Z := <[65%nat := 1]> (<[271%nat := 1]> (replicate 512 0)).
Definition xpress_sample_blocks : list (list Z * list xtoken) :=
  [(xpress_sample_lens, [XLiteral 65; XMatch (LByte 11) 0 0])].

