(* ===== verification/GoPath.v ===== *)
(** Go strings as byte lists: their order and [sort.Strings], and the
    functions of package [path] and [storage.CleanPath]
    (src/storage/storage.go) that the directory model uses, with the lemmas
    about clean absolute paths. *)

From S2P Require Import Prelude GoLib.
From stdpp Require Import base numbers list gmap sorting strings.

Open Scope Z_scope.
Open Scope trex_scope.

(** A Go string is its bytes. *)
Abbreviation gostring := (list Z) (only parsing).

(** The bytes of an ASCII literal. *)
Fixpoint gostr (s : string) : gostring :=
  match s with
  | EmptyString => []
  | String c s => Z.of_N (Ascii.N_of_ascii c) :: gostr s
  end.

(** ** The order of strings *)

(** [a <= b]. *)
Fixpoint str_leb (a b : gostring) : bool :=
  match a, b with
  | [], _ => true
  | _ :: _, [] => false
  | x :: a, y :: b => (x <? y) || ((x =? y) && str_leb a b)
  end.

Definition str_le (a b : gostring) : Prop := str_leb a b = true.

#[export] Instance str_le_dec a b : Decision (str_le a b).
Proof. unfold str_le. apply _. Defined.

#[export] Instance str_le_total : Total str_le.
Proof.
  intros a. unfold str_le. induction a as [|x a IH]; intros [|y b]; simpl; auto.
  destruct (Z.ltb_spec x y), (Z.eqb_spec x y), (Z.ltb_spec y x), (Z.eqb_spec y x); simpl; auto; lia.
Qed.

#[export] Instance str_le_trans : Transitive str_le.
Proof.
  intros a. unfold str_le. induction a as [|x a IH]; intros [|y b] [|z c]; simpl; auto; try done.
  destruct (Z.ltb_spec x y), (Z.eqb_spec x y), (Z.ltb_spec y z), (Z.eqb_spec y z), (Z.ltb_spec x z), (Z.eqb_spec x z);
    simpl; auto; try lia; try done. intros. by apply (IH b).
Qed.

#[export] Instance str_le_antisymm : AntiSymm (=) str_le.
Proof.
  intros a. unfold str_le. induction a as [|x a IH]; intros [|y b]; simpl; auto; try done.
  destruct (Z.ltb_spec x y), (Z.eqb_spec x y), (Z.ltb_spec y x), (Z.eqb_spec y x); simpl; try lia; try done.
  intros. subst. f_equal. by apply IH.
Qed.

Lemma str_le_refl a : str_le a a.
Proof. destruct (str_le_total a a); done. Qed.

(** [sort.Strings]. *)
Definition sort_Strings (l : list gostring) : list gostring := merge_sort str_le l.

Lemma sort_Strings_perm l : sort_Strings l ≡ₚ l.
Proof. apply merge_sort_Permutation. Qed.

Lemma sort_Strings_sorted l : StronglySorted str_le (sort_Strings l).
Proof. apply (StronglySorted_merge_sort str_le). Qed.

(** The sorted list is determined by the elements. *)
Lemma sort_Strings_unique l k : StronglySorted str_le k -> k ≡ₚ l -> sort_Strings l = k.
Proof.
  intros Hs Hp. apply (StronglySorted_unique str_le).
  - apply sort_Strings_sorted.
  - done.
  - by rewrite sort_Strings_perm, Hp.
Qed.

Lemma sort_Strings_Permutation l k : l ≡ₚ k -> sort_Strings l = sort_Strings k.
Proof.
  intros H. apply sort_Strings_unique; [apply sort_Strings_sorted|]. by rewrite sort_Strings_perm.
Qed.

(** [sort.SearchStrings]. *)
Definition sort_SearchStrings (names : list gostring) (x : gostring) : Z :=
  sort_Search (zlen names) (fun i => str_leb x (default [] (names !! Z.to_nat i))).

(** Where [x] belongs in a sorted list. *)
Lemma SearchStrings_spec names x :
  StronglySorted str_le names ->
  exists a b, names = a ++ b /\ sort_SearchStrings names x = zlen a /\
    Forall (fun y => ~ str_le x y) a /\ Forall (str_le x) b.
Proof.
  intros Hs.
  assert (Hsplit : exists a b, names = a ++ b /\ Forall (fun y => ~ str_le x y) a /\ Forall (str_le x) b).
  { induction Hs as [|y names Hs IH Hy]; [by exists [], []|].
    destruct (decide (str_le x y)) as [Hxy|Hxy].
    - exists [], (y :: names). split; [done|]. split; [constructor|]. constructor; [done|].
      eapply Forall_impl; [exact Hy|]. intros z Hz. by etrans.
    - destruct IH as (a & b & -> & Ha & Hb). exists (y :: a), b. split; [done|]. split; [by constructor|done]. }
  destruct Hsplit as (a & b & -> & Ha & Hb). exists a, b. split; [done|]. split; [|done].
  unfold sort_SearchStrings. apply sort_Search_unique.
  - rewrite zlen_app. pose proof (zlen_nonneg a). pose proof (zlen_nonneg b). lia.
  - intros k Hk. rewrite lookup_app_l by (unfold zlen in Hk; lia).
    destruct (a !! Z.to_nat k) as [y|] eqn:E; [|apply lookup_ge_None in E; unfold zlen in Hk; lia].
    rewrite Forall_lookup in Ha. specialize (Ha _ _ E). simpl. unfold str_le in Ha. by destruct (str_leb x y).
  - intros k Hk. rewrite zlen_app in Hk. unfold zlen in Hk. rewrite lookup_app_r by lia.
    destruct (b !! (Z.to_nat k - length a)%nat) as [y|] eqn:E; [|apply lookup_ge_None in E; lia].
    rewrite Forall_lookup in Hb. by specialize (Hb _ _ E).
Qed.

(** ** [strings.Split] and joining *)

Fixpoint split_on (c : Z) (s : gostring) : list gostring :=
  match s with
  | [] => [[]]
  | x :: s =>
      if x =? c then [] :: split_on c s
      else match split_on c s with
      | w :: ws => (x :: w) :: ws
      | [] => [[x]]
      end
  end.

Fixpoint join_with (c : Z) (ws : list gostring) : gostring :=
  match ws with
  | [] => []
  | [w] => w
  | w :: ws => w ++ c :: join_with c ws
  end.

Lemma split_on_nonempty c s : split_on c s <> [].
Proof. destruct s as [|x s]; simpl; [done|]. destruct (x =? c); [done|]. by destruct (split_on c s). Qed.

Lemma split_on_word c w s : c ∉ w -> split_on c (w ++ c :: s) = w :: split_on c s.
Proof.
  induction w as [|x w IH]; simpl; intros Hc; [by rewrite Z.eqb_refl|].
  rewrite not_elem_of_cons in Hc. destruct (Z.eqb_spec x c); [by subst; destruct Hc|]. by rewrite IH by apply Hc.
Qed.

Lemma split_on_last c w : c ∉ w -> split_on c w = [w].
Proof.
  induction w as [|x w IH]; simpl; intros Hc; [done|].
  rewrite not_elem_of_cons in Hc. destruct (Z.eqb_spec x c); [by subst; destruct Hc|]. by rewrite IH by apply Hc.
Qed.

Lemma split_join c ws : ws <> [] -> Forall (fun w => c ∉ w) ws -> split_on c (join_with c ws) = ws.
Proof.
  intros Hne HF. induction HF as [|w ws Hw HF IH]; [done|]. destruct ws as [|w' ws]; simpl.
  - by apply split_on_last.
  - rewrite split_on_word by done. f_equal. by apply IH.
Qed.

Lemma split_on_words c s : Forall (fun w => c ∉ w) (split_on c s).
Proof.
  induction s as [|x s IH]; simpl; [repeat constructor; apply not_elem_of_nil|].
  destruct (Z.eqb_spec x c); [constructor; [apply not_elem_of_nil|done]|].
  destruct (split_on c s) as [|w ws]; [constructor; [|done]; rewrite not_elem_of_cons; split; [done|apply not_elem_of_nil]|].
  inversion_clear IH. constructor; [|done]. rewrite not_elem_of_cons. done.
Qed.

(** ** Package [path] *)

Definition slash : Z := 47.
Definition dot : gostring := [46].
Definition dotdot : gostring := [46; 46].

(** One element of [Clean]; [acc] is the stack of elements kept, the last
    first. *)
Definition clean_step (rooted : bool) (acc : list gostring) (w : gostring) : list gostring :=
  if decide (w = []) then acc
  else if decide (w = dot) then acc
  else if decide (w = dotdot) then
    match acc with
    | [] => if rooted then [] else [dotdot]
    | top :: acc' => if decide (top = dotdot) then dotdot :: acc else acc'
    end
  else w :: acc.

Definition path_Clean (s : gostring) : gostring :=
  match s with
  | [] => dot
  | x :: _ =>
      let rooted := x =? slash in
      let out := join_with slash (reverse (foldl (clean_step rooted) [] (split_on slash s))) in
      if rooted then slash :: out
      else if decide (out = []) then dot else out
  end.

(** The string up to its last slash, and what follows it. *)
Fixpoint last_slash (s : gostring) : option (gostring * gostring) :=
  match s with
  | [] => None
  | x :: s =>
      match last_slash s with
      | Some (d, b) => Some (x :: d, b)
      | None => if x =? slash then Some ([x], s) else None
      end
  end.

Definition path_Dir (s : gostring) : gostring :=
  path_Clean (match last_slash s with Some (d, _) => d | None => [] end).

Fixpoint trim_slashes (s : gostring) : gostring :=
  match s with
  | [] => []
  | x :: s =>
      match trim_slashes s with
      | [] => if x =? slash then [] else [x]
      | t => x :: t
      end
  end.

Definition path_Base (s : gostring) : gostring :=
  match s with
  | [] => dot
  | _ =>
      let s := trim_slashes s in
      let b := match last_slash s with Some (_, b) => b | None => s end in
      if decide (b = []) then [slash] else b
  end.

(** ** [storage.CleanPath] *)

Definition backslash : Z := 92.

Definition CleanPath (name : gostring) : gostring :=
  let name := (fun x => if x =? backslash then slash else x) <$> name in
  let name := match name with x :: rest => if x =? slash then rest else name | [] => [] end in
  path_Clean (slash :: name).

(** ** Clean absolute paths *)

(** An element of a clean path. *)
Definition elem_ok (w : gostring) : Prop :=
  w <> [] /\ w <> dot /\ w <> dotdot /\ slash ∉ w /\ backslash ∉ w.

(** The path of a list of elements. *)
Definition abs (ws : list gostring) : gostring := slash :: join_with slash ws.

(** The paths [CleanPath] returns. *)
Definition is_clean (p : gostring) : Prop := exists ws, p = abs ws /\ Forall elem_ok ws.

Lemma join_with_snoc c ws w : ws <> [] -> join_with c (ws ++ [w]) = join_with c ws ++ c :: w.
Proof.
  intros Hne. induction ws as [|v ws IH]; [done|]. destruct ws as [|v' ws]; [done|].
  change (join_with c ((v :: v' :: ws) ++ [w])) with (v ++ c :: join_with c ((v' :: ws) ++ [w])).
  rewrite IH by done. change (join_with c (v :: v' :: ws)) with (v ++ c :: join_with c (v' :: ws)).
  by rewrite <- app_assoc.
Qed.

(** Rooted cleaning keeps good elements. *)
Lemma clean_fold_ok acc ws :
  Forall elem_ok acc -> Forall (fun w => slash ∉ w /\ backslash ∉ w) ws ->
  Forall elem_ok (foldl (clean_step true) acc ws).
Proof.
  intros Ha Hw. revert acc Ha. induction Hw as [|w ws [H1 H2] Hw IH]; intros acc Ha; [done|]. simpl. apply IH.
  unfold clean_step. repeat case_decide; try done; [|by constructor].
  destruct acc as [|top acc']; [done|]. inversion_clear Ha as [|?? Ht Ha']. case_decide as E; [|done].
  by destruct Ht as (_ & _ & Ht & _).
Qed.

Lemma clean_fold_id acc ws :
  Forall elem_ok ws -> foldl (clean_step true) acc ws = reverse ws ++ acc.
Proof.
  intros Hw. revert acc. induction Hw as [|w ws (H1 & H2 & H3 & _) Hw IH]; intros acc; [done|].
  simpl. rewrite IH. unfold clean_step. rewrite !decide_False by done. by rewrite reverse_cons, <- app_assoc.
Qed.

Lemma path_Clean_rooted s : path_Clean (slash :: s) = abs (reverse (foldl (clean_step true) [] (split_on slash s))).
Proof. done. Qed.

Lemma path_Clean_abs ws : Forall elem_ok ws -> path_Clean (abs ws) = abs ws.
Proof.
  intros Hw. unfold abs at 1. rewrite path_Clean_rooted. f_equal.
  destruct (decide (ws = [])) as [->|Hne]; [done|].
  rewrite split_join; [|done|eapply Forall_impl; [exact Hw|]; by intros w (_ & _ & _ & ? & _)].
  by rewrite clean_fold_id, app_nil_r, reverse_involutive.
Qed.

Lemma CleanPath_clean name : is_clean (CleanPath name).
Proof.
  unfold CleanPath. set (n1 := _ <$> name). set (n2 := match n1 with [] => _ | _ => _ end).
  rewrite path_Clean_rooted. eexists. split; [done|]. apply Forall_reverse, clean_fold_ok; [constructor|].
  assert (Hb : backslash ∉ n2).
  { assert (Hb1 : backslash ∉ n1).
    { unfold n1. intros (x & E & _)%list_elem_of_fmap. destruct (Z.eqb_spec x backslash) as [Eq|Ne]; [discriminate E|congruence]. }
    unfold n2. destruct n1 as [|x rest]; [done|]. destruct (x =? slash); [|done].
    by apply not_elem_of_cons in Hb1 as [_ ?]. }
  pose proof (split_on_words slash n2) as Hs. clearbody n2. clear n1 name.
  rewrite Forall_forall in Hs |- *. intros w Hw. split; [by apply Hs|].
  clear Hs. revert w Hw Hb. induction n2 as [|x s IH]; simpl; intros w Hw Hb.
  - apply list_elem_of_singleton in Hw as ->. apply not_elem_of_nil.
  - rewrite not_elem_of_cons in Hb. destruct Hb as [Hx Hb]. destruct (x =? slash).
    + apply elem_of_cons in Hw as [->|Hw]; [apply not_elem_of_nil|by apply IH].
    + destruct (split_on slash s) as [|v vs] eqn:E; [by apply split_on_nonempty in E|].
      apply elem_of_cons in Hw as [->|Hw]; [|by apply IH; [right|]].
      rewrite not_elem_of_cons. split; [done|]. apply IH; [left|done].
Qed.

Lemma abs_inj ws vs : Forall elem_ok ws -> Forall elem_ok vs -> abs ws = abs vs -> ws = vs.
Proof.
  intros Hw Hv [= E].
  assert (Hs : forall us, Forall elem_ok us -> us <> [] -> split_on slash (join_with slash us) = us).
  { intros us Hu Hne. apply split_join; [done|]. eapply Forall_impl; [exact Hu|]. by intros w (_ & _ & _ & ? & _). }
  assert (Hnil : forall us, Forall elem_ok us -> join_with slash us = [] -> us = []).
  { intros us Hu Ej. destruct us as [|u us]; [done|]. inversion_clear Hu as [|?? (Hne & _) _].
    destruct us; simpl in Ej; [done|]. by destruct u. }
  destruct (decide (ws = [])) as [->|Hne]; [symmetry; by apply Hnil|].
  destruct (decide (vs = [])) as [->|Hne']; [by apply Hnil|].
  by rewrite <- (Hs ws), <- (Hs vs), E.
Qed.

Lemma last_slash_app s w : slash ∉ w -> last_slash (s ++ slash :: w) = Some (s ++ [slash], w).
Proof.
  intros Hw.
  assert (Hn : last_slash w = None).
  { induction w as [|x w IH]; [done|]. rewrite not_elem_of_cons in Hw. destruct Hw as [Hx Hw]. cbn [last_slash].
    rewrite IH by done. by rewrite (proj2 (Z.eqb_neq x slash)) by congruence. }
  induction s as [|x s IH]; simpl; [by rewrite Hn|]. by rewrite IH.
Qed.

Lemma abs_snoc ws w : exists d, abs (ws ++ [w]) = d ++ slash :: w /\ (d ++ [slash] = [slash] /\ ws = [] \/ ws <> [] /\ d = abs ws).
Proof.
  destruct (decide (ws = [])) as [->|Hne].
  - exists []. split; [done|]. by left.
  - exists (abs ws). split; [|by right]. unfold abs. by rewrite join_with_snoc.
Qed.

(** The parent of a path. *)
Lemma path_Dir_snoc ws w : Forall elem_ok (ws ++ [w]) -> path_Dir (abs (ws ++ [w])) = abs ws.
Proof.
  intros Hw. apply Forall_app in Hw as [Hws Hw]. inversion_clear Hw as [|?? (_ & _ & _ & Hsl & _) _].
  destruct (abs_snoc ws w) as (d & -> & Hd). unfold path_Dir. rewrite last_slash_app by done.
  destruct Hd as [[-> ->]|[Hne ->]]; [done|].
  unfold abs at 1. cbn [app]. rewrite path_Clean_rooted. unfold abs. do 2 f_equal.
  assert (E : split_on slash (join_with slash ws ++ [slash]) = ws ++ [[]]).
  { clear -Hws Hne. induction Hws as [|v vs (_ & _ & _ & Hv & _) Hvs IH]; [done|]. destruct vs as [|v' vs].
    - simpl. by rewrite split_on_word.
    - change (join_with slash (v :: v' :: vs)) with (v ++ slash :: join_with slash (v' :: vs)).
      rewrite <- app_assoc. cbn [app]. rewrite split_on_word by done. cbn [app]. f_equal. by apply IH. }
  rewrite E, foldl_app, (clean_fold_id [] ws), app_nil_r by done. cbn [foldl]. unfold clean_step.
  by rewrite decide_True, reverse_involutive.
Qed.

Lemma path_Dir_root : path_Dir (abs []) = abs [].
Proof. done. Qed.

Lemma trim_slashes_id s x : x <> slash -> trim_slashes (s ++ [x]) = s ++ [x].
Proof.
  intros Hx. induction s as [|y s IH]; simpl.
  - by destruct (Z.eqb_spec x slash).
  - rewrite IH. by destruct s.
Qed.

(** The last element of a path. *)
Lemma path_Base_snoc ws w : Forall elem_ok (ws ++ [w]) -> path_Base (abs (ws ++ [w])) = w.
Proof.
  intros Hw. apply Forall_app in Hw as [Hws Hw]. inversion_clear Hw as [|?? (Hne & _ & _ & Hsl & _) _].
  destruct (abs_snoc ws w) as (d & -> & _).
  assert (Ht : trim_slashes (d ++ slash :: w) = d ++ slash :: w).
  { destruct (exists_last Hne) as (w' & x & ->). rewrite app_comm_cons, app_assoc. apply trim_slashes_id.
    intros ->. apply Hsl, elem_of_app. right. by left. }
  unfold path_Base. destruct (d ++ slash :: w) eqn:E; [by destruct d|]. rewrite Ht, <- E, last_slash_app by done.
  by rewrite decide_False.
Qed.

(** Cleaning a clean path changes nothing. *)
Lemma CleanPath_id p : is_clean p -> CleanPath p = p.
Proof.
  intros (ws & -> & Hw). unfold CleanPath.
  assert (E : (fun x => if x =? backslash then slash else x) <$> abs ws = abs ws).
  { assert (Hb : backslash ∉ abs ws).
    { unfold abs. rewrite not_elem_of_cons. split; [done|]. induction Hw as [|w ws (_ & _ & _ & _ & Hw) Hws IH]; [apply not_elem_of_nil|].
      destruct ws as [|w' ws]; [done|]. change (join_with slash (w :: w' :: ws)) with (w ++ slash :: join_with slash (w' :: ws)).
      rewrite not_elem_of_app, not_elem_of_cons. done. }
    induction (abs ws) as [|x s IH]; [done|]. rewrite not_elem_of_cons in Hb. rewrite fmap_cons.
    rewrite IH by apply Hb. destruct (Z.eqb_spec x backslash); [by subst; destruct Hb|done]. }
  rewrite E. unfold abs at 1. rewrite Z.eqb_refl. by apply path_Clean_abs.
Qed.

Lemma CleanPath_idemp name : CleanPath (CleanPath name) = CleanPath name.
Proof. apply CleanPath_id, CleanPath_clean. Qed.

Lemma root_clean : is_clean (abs []).
Proof. by exists []. Qed.

Lemma path_Dir_clean p : is_clean p -> is_clean (path_Dir p).
Proof.
  intros (ws & -> & Hw). destruct (decide (ws = [])) as [->|Hne]; [apply root_clean|].
  destruct (exists_last Hne) as (vs & w & ->). rewrite path_Dir_snoc by done. exists vs. split; [done|].
  by apply Forall_app in Hw as [Hw _].
Qed.

#[export] Hint Resolve CleanPath_clean root_clean path_Dir_clean : trex.
