(* ===== verification/FatNames.v ===== *)
(** Package [filesystem]: the 8.3 aliases of FAT directories
    (src/filesystem/directory.go, [assignShortNames] and its helpers).

    The case mappings of Go's Unicode tables are arguments: what is proved
    holds of any of them. *)

From S2P Require Import Prelude GoLib GoPath.
From stdpp Require Import base numbers list gmap strings.

Open Scope Z_scope.
Open Scope trex_scope.

#[local] Ltac Zify.zify_post_hook ::= Z.to_euclidean_division_equations.

(** ** Strings *)

(** [strings.LastIndexByte]. *)
Fixpoint LastIndexByte (s : gostring) (c : Z) : Z :=
  match s with
  | [] => -1
  | x :: s =>
      let i := LastIndexByte s c in
      if 0 <=? i then i + 1 else if x =? c then 0 else -1
  end.

(** [%d] of a number that is not negative; an [int] has at most 19 digits. *)
Fixpoint decimal_digits (fuel : nat) (n : Z) : gostring :=
  match fuel with
  | O => []
  | S fuel => if n <? 10 then [48 + n] else decimal_digits fuel (n / 10) ++ [48 + n mod 10]
  end.

Definition decimal (n : Z) : gostring := decimal_digits 19 n.

Definition tilde : Z := 126.
Definition point : Z := 46.

(** [strings.TrimRight(s, " ")]. *)
Fixpoint trim_right_spaces (s : gostring) : gostring :=
  match s with
  | [] => []
  | x :: s =>
      match trim_right_spaces s with
      | [] => if x =? 32 then [] else [x]
      | t => x :: t
      end
  end.

(** ** Aliases *)

Section aliases.
Context (ToUpper : gostring -> gostring) (EqualFold : gostring -> gostring -> bool).

(** The characters [shortClean] keeps.  They are ASCII, and in UTF-8 an ASCII
    byte is always a rune of its own. *)
Definition short_char (c : Z) : bool :=
  (65 <=? c) && (c <=? 90) || (48 <=? c) && (c <=? 57) || (c =? 95) || (c =? 36) || (c =? tilde).

Definition shortClean (value : gostring) : gostring := filter (fun c => short_char c = true) (ToUpper value).

Definition shortParts (name : gostring) : gostring * gostring :=
  let index := LastIndexByte name point in
  let '(base, ext) :=
    if 0 <? index then (take (Z.to_nat index) name, drop (Z.to_nat (index + 1)) name) else (name, []) in
  let base := shortClean base in
  let ext := shortClean ext in
  let base := match base with [] => gostr "FILE" | _ => base end in
  (take 8 base, take 3 ext).

Definition simple83 (name base ext : gostring) : bool :=
  let want := trim_right_spaces base in
  let want := match ext with [] => want | _ => want ++ point :: trim_right_spaces ext end in
  EqualFold name want && (zlen base <=? 8) && (zlen ext <=? 3).

Definition shortName (base ext : gostring) : gostring :=
  match ext with [] => base | _ => base ++ point :: ext end.

(** The candidate with the suffix [~n]. *)
Definition numbered (base ext : gostring) (n : Z) : gostring :=
  let suffix := tilde :: decimal n in
  let limit := Z.max 1 (8 - zlen suffix) in
  let prefix := if limit <? zlen base then take (Z.to_nat limit) base else base in
  shortName (prefix ++ suffix) ext.

(** The loop over the suffixes: every round skips an alias that is used. *)
Fixpoint suffix_loop (fuel : nat) (base ext : gostring) (used : gset gostring) (n : Z) : res (gostring * Z) :=
  match fuel with
  | O => Err OutOfFuel
  | S fuel =>
      let candidate := numbered base ext n in
      if decide (candidate ∈ used) then suffix_loop fuel base ext used (n + 1) else Ok (candidate, n)
  end.

Fixpoint assign_loop (paths : list gostring) (used : gset gostring) (nextSuffix : gmap gostring Z)
    : res (list gostring) :=
  match paths with
  | [] => Ok []
  | fullPath :: paths =>
      let name := path_Base fullPath in
      let '(base, ext) := shortParts name in
      let candidate := shortName base ext in
      if simple83 name base ext && negb (bool_decide (candidate ∈ used)) then
        let! rest := assign_loop paths ({[candidate]} ∪ used) nextSuffix in
        Ok (candidate :: rest)
      else
        let key := base ++ 0 :: ext in
        let n := default 0 (nextSuffix !! key) in
        let n := if n =? 0 then 1 else n in
        let! (candidate, n) := suffix_loop (S (size used)) base ext used n in
        let! rest := assign_loop paths ({[candidate]} ∪ used) (<[key := n + 1]> nextSuffix) in
        Ok (candidate :: rest)
  end.

Definition assignShortNames (paths : list gostring) : res (list gostring) := assign_loop paths ∅ ∅.

(** [DefaultFATShortName]. *)
Definition defaultFATShortName (name : gostring) : res gostring :=
  let! names := assignShortNames [name] in
  match names with [short] => Ok short | _ => Err Panic end.

(** ** What an alias is *)

(** A name of a FAT directory entry: one to eight characters, and at most
    three after a point. *)
Definition fat_name (a : gostring) : Prop :=
  exists base ext, a = shortName base ext /\ 1 <= zlen base <= 8 /\ zlen ext <= 3 /\
    Forall (fun c => short_char c = true) base /\ Forall (fun c => short_char c = true) ext.

(** The alias of a name among those already given: the name itself when it is
    one, and otherwise the first free number. *)
Definition alias_of (used : gset gostring) (name a : gostring) : Prop :=
  let '(base, ext) := shortParts name in
  if simple83 name base ext && negb (bool_decide (shortName base ext ∈ used)) then a = shortName base ext
  else exists n, 1 <= n /\ a = numbered base ext n /\ a ∉ used /\
         forall m, 1 <= m < n -> numbered base ext m ∈ used.

(** ** Numbers in decimal *)

Lemma decimal_digits_chars fuel n : 0 <= n -> Forall (fun c => 48 <= c <= 57) (decimal_digits fuel n).
Proof.
  revert n; induction fuel as [|fuel IH]; intros n Hn; [constructor|]. cbn [decimal_digits].
  destruct (Z.ltb_spec n 10); [constructor; [lia|constructor]|].
  apply Forall_app; split; [apply IH; lia|constructor; [lia|constructor]].
Qed.

Lemma decimal_digits_inj fuel n m :
  0 <= n < 10 ^ Z.of_nat fuel -> 0 <= m < 10 ^ Z.of_nat fuel ->
  decimal_digits fuel n = decimal_digits fuel m -> n = m.
Proof.
  revert n m; induction fuel as [|fuel IH]; intros n m Hn Hm; [change (10 ^ Z.of_nat 0) with 1 in *; lia|].
  rewrite Nat2Z.inj_succ, Z.pow_succ_r in Hn, Hm by lia. cbn [decimal_digits].
  assert (Hne : forall k, 10 <= k < 10 * 10 ^ Z.of_nat fuel -> decimal_digits fuel (k / 10) <> []).
  { intros k Hk. destruct fuel; [change (10 ^ Z.of_nat 0) with 1 in *; lia|]. cbn [decimal_digits].
    destruct (k / 10 <? 10); [done|]. by destruct (decimal_digits fuel (k / 10 / 10)). }
  destruct (Z.ltb_spec n 10) as [Hn1|Hn1]; destruct (Z.ltb_spec m 10) as [Hm1|Hm1]; intros He.
  - injection He; lia.
  - change [48 + n] with ([] ++ [48 + n]) in He. apply app_inj_2 in He as [He _]; [|done].
    destruct (Hne m); [lia|done].
  - change [48 + m] with ([] ++ [48 + m]) in He. apply app_inj_2 in He as [He _]; [|done].
    destruct (Hne n); [lia|done].
  - apply app_inj_2 in He as [He Hd]; [|done]. apply IH in He; [injection Hd; lia|lia|lia].
Qed.

Lemma decimal_digits_length fuel k n : 0 <= n < 10 ^ Z.of_nat (S k) -> zlen (decimal_digits fuel n) <= Z.of_nat (S k).
Proof.
  revert k n; induction fuel as [|fuel IH]; intros k n Hn; [cbv [zlen]; simpl; lia|]. cbn [decimal_digits].
  destruct (Z.ltb_spec n 10); [cbv [zlen]; simpl; lia|].
  destruct k as [|k]; [change (10 ^ Z.of_nat 1) with 10 in Hn; lia|].
  rewrite zlen_app. change (zlen [_]) with 1. specialize (IH k (n / 10)).
  rewrite (Nat2Z.inj_succ (S k)), Z.pow_succ_r in Hn by lia. lia.
Qed.

(** ** Candidates *)

Lemma short_char_digit c : 48 <= c <= 57 -> short_char c = true.
Proof.
  intros Hc. unfold short_char. replace (48 <=? c) with true by lia. replace (c <=? 57) with true by lia.
  simpl andb. by rewrite orb_true_r.
Qed.

Lemma shortParts_ok name base ext :
  shortParts name = (base, ext) ->
  1 <= zlen base <= 8 /\ zlen ext <= 3 /\
  Forall (fun c => short_char c = true) base /\ Forall (fun c => short_char c = true) ext.
Proof.
  unfold shortParts. destruct (if 0 <? LastIndexByte name point then _ else _) as [b e].
  assert (Hc : forall v, Forall (fun c => short_char c = true) (shortClean v)).
  { intros v. apply Forall_forall. intros c Hin. by apply list_elem_of_filter in Hin as [? _]. }
  specialize (Hc b) as Hb. specialize (Hc e) as He. revert Hb He.
  generalize (shortClean b) (shortClean e). intros b' e' Hb He Hp.
  assert (Hb' : Forall (fun c => short_char c = true) match b' with [] => gostr "FILE" | _ => b' end /\
    (1 <= length match b' with [] => gostr "FILE" | _ => b' end)%nat).
  { destruct b'; split; try done; try (simpl; lia). repeat constructor. }
  revert Hb'. generalize dependent (match b' with [] => gostr "FILE" | _ => b' end). intros b'' Hp [Hb'' Hl]. injection Hp as <- <-.
  unfold zlen. rewrite !length_take. split; [lia|split; [lia|]]. split; by apply Forall_take.
Qed.

Lemma shortName_inj b1 b2 ext : shortName b1 ext = shortName b2 ext -> b1 = b2.
Proof. unfold shortName. destruct ext; [done|]. intros He. by apply app_inj_2 in He as [? _]. Qed.

Lemma tilde_split p1 p2 d1 d2 :
  tilde ∉ d1 -> tilde ∉ d2 -> p1 ++ tilde :: d1 = p2 ++ tilde :: d2 -> d1 = d2.
Proof.
  revert p2. induction p1 as [|x p1 IH]; intros [|y p2] H1 H2 He; simplify_eq/=; [done| | |by eapply IH].
  - destruct H1. apply elem_of_app. right. left.
  - destruct H2. apply elem_of_app. right. left.
Qed.

Lemma numbered_inj base ext n m :
  0 <= n < 10 ^ 19 -> 0 <= m < 10 ^ 19 -> numbered base ext n = numbered base ext m -> n = m.
Proof.
  unfold numbered. intros Hn Hm He. apply shortName_inj, tilde_split in He.
  - by apply (decimal_digits_inj 19) in He.
  - intros Hin. pose proof (decimal_digits_chars 19 n ltac:(lia)) as Hf.
    rewrite Forall_forall in Hf. apply Hf in Hin. unfold tilde in Hin. lia.
  - intros Hin. pose proof (decimal_digits_chars 19 m ltac:(lia)) as Hf.
    rewrite Forall_forall in Hf. apply Hf in Hin. unfold tilde in Hin. lia.
Qed.

Lemma numbered_fat name base ext n :
  shortParts name = (base, ext) -> 1 <= n < 10 ^ 6 -> fat_name (numbered base ext n).
Proof.
  intros (Hb & He & Hbc & Hec)%shortParts_ok Hn. unfold numbered, decimal.
  pose proof (decimal_digits_length 19 5 n ltac:(change (10 ^ Z.of_nat 6) with (10 ^ 6); lia)) as Hl.
  pose proof (decimal_digits_chars 19 n ltac:(lia)) as Hd. pose proof (zlen_nonneg (decimal_digits 19 n)).
  revert Hl Hd H. generalize (decimal_digits 19 n). intros ds Hl Hd Hz.
  change (zlen (tilde :: ds)) with (Z.of_nat (S (length ds))). unfold zlen in Hl, Hz.
  eexists _, ext. split; [done|].
  assert (Hs : Forall (fun c => short_char c = true) (tilde :: ds)).
  { constructor; [done|]. eapply Forall_impl; [done|]. apply short_char_digit. }
  split; [|split; [done|split; [|done]]].
  - rewrite zlen_app. change (zlen (tilde :: ds)) with (Z.of_nat (S (length ds))). unfold zlen in *.
    destruct (Z.ltb_spec (Z.max 1 (8 - Z.of_nat (S (length ds)))) (Z.of_nat (length base))); [rewrite length_take|]; lia.
  - apply Forall_app. split; [|done]. destruct (_ <? _); [by apply Forall_take|done].
Qed.

(** ** The search *)

Lemma used_count (used : gset gostring) base ext lo hi :
  0 <= lo <= hi -> hi < 10 ^ 19 -> (forall m, lo <= m < hi -> numbered base ext m ∈ used) ->
  hi - lo <= Z.of_nat (size used).
Proof.
  intros Hlo Hhi Hin.
  assert (Hsz : size (list_to_set (numbered base ext <$> seqZ lo (hi - lo)) : gset gostring) = Z.to_nat (hi - lo)).
  { rewrite size_list_to_set; [by rewrite length_fmap, length_seqZ|].
    apply NoDup_fmap_2_strong; [|apply NoDup_seqZ].
    intros x y Hx%elem_of_seqZ Hy%elem_of_seqZ. apply numbered_inj; lia. }
  enough (Z.to_nat (hi - lo) <= size used)%nat by lia. rewrite <- Hsz. apply subseteq_size.
  intros a Ha%elem_of_list_to_set. apply list_elem_of_fmap in Ha as (m & -> & Hm%elem_of_seqZ). apply Hin. lia.
Qed.

Lemma suffix_loop_ok fuel base ext used n :
  1 <= n -> n + Z.of_nat fuel < 10 ^ 19 -> (0 < fuel)%nat ->
  (forall m, 1 <= m < n -> numbered base ext m ∈ used) ->
  Z.of_nat (size used) < n - 1 + Z.of_nat fuel ->
  exists k, suffix_loop fuel base ext used n = Ok (numbered base ext k, k) /\ n <= k /\
    numbered base ext k ∉ used /\ (forall m, 1 <= m < k -> numbered base ext m ∈ used).
Proof.
  revert n; induction fuel as [|fuel IH]; intros n Hn Hb Hf Hin Hsz; [lia|]. cbn [suffix_loop].
  destruct (decide (numbered base ext n ∈ used)) as [Hu|Hu]; [|by exists n].
  assert (Hin' : forall m, 1 <= m < n + 1 -> numbered base ext m ∈ used).
  { intros m Hm. destruct (decide (m = n)) as [->|]; [done|]. apply Hin; lia. }
  pose proof (used_count used base ext 1 (n + 1) ltac:(lia) ltac:(lia) Hin').
  destruct (IH (n + 1)) as (k & -> & Hk & Hrest); [lia|lia|lia|done|lia|]. exists k. split; [done|]. split; [lia|done].
Qed.

(** The numbers below the one remembered for a pair of parts are used. *)
Definition suffixes_ok (used : gset gostring) (nextSuffix : gmap gostring Z) : Prop :=
  forall base ext n, Forall (fun c => short_char c = true) base -> nextSuffix !! (base ++ 0 :: ext) = Some n ->
    1 <= n /\ forall m, 1 <= m < n -> numbered base ext m ∈ used.

Lemma suffixes_ok_grow used used' next : used ⊆ used' -> suffixes_ok used next -> suffixes_ok used' next.
Proof. intros Hs Hok base ext n Hb Hl. destruct (Hok base ext n Hb Hl) as [? Hm]. split; [done|]. intros. by apply Hs, Hm. Qed.

Lemma key_inj b1 e1 b2 e2 :
  Forall (fun c => short_char c = true) b1 -> Forall (fun c => short_char c = true) b2 ->
  b1 ++ 0 :: e1 = b2 ++ 0 :: e2 -> b1 = b2 /\ e1 = e2.
Proof.
  revert b2; induction b1 as [|x b1 IH]; intros [|y b2] H1 H2 He; simplify_eq/=.
  - done.
  - apply Forall_cons in H2 as [[=] _].
  - apply Forall_cons in H1 as [[=] _].
  - apply Forall_cons in H1 as [_ H1]. apply Forall_cons in H2 as [_ H2]. destruct (IH b2) as [-> ->]; done.
Qed.

Lemma suffixes_ok_insert used next base ext k :
  suffixes_ok used next -> Forall (fun c => short_char c = true) base -> 1 <= k ->
  (forall m, 1 <= m < k -> numbered base ext m ∈ used) ->
  suffixes_ok ({[numbered base ext k]} ∪ used) (<[base ++ 0 :: ext := k + 1]> next).
Proof.
  intros Hok Hb Hk Hm b e n Hb' Hl. destruct (decide (base ++ 0 :: ext = b ++ 0 :: e)) as [He|He].
  - apply key_inj in He as [<- <-]; [|done|done]. rewrite lookup_insert_eq in Hl. injection Hl as <-.
    split; [lia|]. intros m Hr. destruct (decide (m = k)) as [->|]; [set_solver|].
    apply elem_of_union_r, Hm. lia.
  - rewrite lookup_insert_ne in Hl by done. destruct (Hok b e n Hb' Hl) as [? Hu].
    split; [done|]. intros m Hr. by apply elem_of_union_r, Hu.
Qed.

(** One name: the alias is the one specified, it is new, and the memory of
    the suffixes stays right. *)
Lemma assign_step fullPath paths used next :
  suffixes_ok used next -> Z.of_nat (size used) + 1 < 10 ^ 6 ->
  exists a next', alias_of used (path_Base fullPath) a /\ a ∉ used /\ fat_name a /\
    suffixes_ok ({[a]} ∪ used) next' /\
    assign_loop (fullPath :: paths) used next =
      (let! rest := assign_loop paths ({[a]} ∪ used) next' in Ok (a :: rest)).
Proof.
  intros Hok Hsz. cbn [assign_loop]. unfold alias_of.
  destruct (shortParts (path_Base fullPath)) as [base ext] eqn:Hp.
  destruct (simple83 _ base ext && _) eqn:Hs.
  - apply andb_true_iff in Hs as [_ Hs]. apply negb_true_iff, bool_decide_eq_false in Hs.
    exists (shortName base ext), next. split; [done|split; [done|]]. split.
    + exists base, ext. split; [done|]. by apply (shortParts_ok (path_Base fullPath)).
    + split; [|done]. eapply suffixes_ok_grow; [|done]. set_solver.
  - pose proof (shortParts_ok _ _ _ Hp) as (_ & _ & Hb & _).
    set (n := if default 0 (next !! (base ++ 0 :: ext)) =? 0 then 1 else default 0 (next !! (base ++ 0 :: ext))).
    assert (Hn : 1 <= n /\ forall m, 1 <= m < n -> numbered base ext m ∈ used).
    { unfold n. destruct (next !! (base ++ 0 :: ext)) as [v|] eqn:Hv; simpl; [|split; [lia|intros; lia]].
      destruct (Hok base ext v Hb Hv). destruct (Z.eqb_spec v 0); [lia|done]. }
    assert (Hbn : n < 10 ^ 7).
    { destruct (decide (n < 10 ^ 7)); [done|]. destruct Hn as [_ Hn].
      pose proof (used_count used base ext 1 (10 ^ 7) ltac:(lia) ltac:(lia) ltac:(intros; apply Hn; lia)). lia. }
    destruct (suffix_loop_ok (S (size used)) base ext used n) as (k & Hl & Hk & Hu & Hm);
      [apply Hn|lia|lia|apply Hn|lia|].
    assert (Hk6 : k < 10 ^ 6).
    { destruct (decide (k < 10 ^ 6)); [done|].
      pose proof (used_count used base ext 1 (10 ^ 6) ltac:(lia) ltac:(lia) ltac:(intros; apply Hm; lia)). lia. }
    exists (numbered base ext k), (<[base ++ 0 :: ext := k + 1]> next).
    split; [exists k; split; [lia|done]|]. split; [done|]. split; [eapply numbered_fat; [done|lia]|].
    split; [apply suffixes_ok_insert; [done|done|lia|done]|]. fold n. rewrite Hl. done.
Qed.

Lemma assign_loop_ok paths used next :
  suffixes_ok used next -> Z.of_nat (size used) + zlen paths < 10 ^ 6 ->
  exists names, assign_loop paths used next = Ok names /\ length names = length paths /\
    NoDup names /\ (forall a, a ∈ names -> a ∉ used) /\ Forall fat_name names /\
    forall i p a, paths !! i = Some p -> names !! i = Some a ->
      alias_of (list_to_set (take i names) ∪ used) (path_Base p) a.
Proof.
  revert used next. induction paths as [|p paths IH]; intros used next Hok Hsz.
  - exists []. split; [done|]. split; [done|]. split; [constructor|]. split; [set_solver|]. split; [constructor|done].
  - rewrite zlen_cons in Hsz. pose proof (zlen_nonneg paths).
    destruct (assign_step p paths used next Hok ltac:(lia)) as (a & next' & Ha & Hnew & Hfat & Hok' & ->).
    assert (Hs : size ({[a]} ∪ used) = S (size used)) by (rewrite size_union, size_singleton; set_solver).
    destruct (IH ({[a]} ∪ used) next' Hok' ltac:(lia)) as (names & -> & Hlen & Hnd & Hdis & Hf & Hal).
    exists (a :: names). split; [done|]. split; [by rewrite !length_cons, Hlen|].
    split; [constructor; [|done]; intros Hin; apply Hdis in Hin; set_solver|].
    split; [intros b [->|Hb]%elem_of_cons; [done|]; apply Hdis in Hb; set_solver|].
    split; [by constructor|]. intros [|i] q b Hq Hb; simplify_eq/=.
    + replace (∅ ∪ used) with used by set_solver. done.
    + replace ({[a]} ∪ list_to_set (take i names) ∪ used)
        with (list_to_set (take i names) ∪ ({[a]} ∪ used) : gset gostring) by set_solver. by apply Hal.
Qed.

(** C38. The aliases of the entries of a FAT directory.  For any case mapping
    and fewer than a million entries, [assignShortNames] returns; the aliases
    are pairwise different and are names of the 8.3 form; and each is the one
    a search from the start gives: the name itself when it is of the form
    and still free, and otherwise the smallest suffix [~n] that is free.
    Remembering the last suffix of a pair of parts changes nothing. *)
Theorem assignShortNames_first_free paths :
  zlen paths < 10 ^ 6 ->
  exists names, assignShortNames paths = Ok names /\ length names = length paths /\
    NoDup names /\ Forall fat_name names /\
    forall i p a, paths !! i = Some p -> names !! i = Some a ->
      alias_of (list_to_set (take i names)) (path_Base p) a.
Proof.
  intros Hl. destruct (assign_loop_ok paths ∅ ∅) as (names & He & Hlen & Hnd & _ & Hf & Hal).
  - intros base ext n _ Hn. by rewrite lookup_empty in Hn.
  - by rewrite size_empty.
  - exists names. split; [done|split; [done|split; [done|split; [done|]]]]. intros i p a Hp Ha.
    specialize (Hal i p a Hp Ha). by rewrite (right_id_L ∅ (∪)) in Hal.
Qed.
End aliases.

(** ** The mapping of ASCII letters *)

Definition upper_char (c : Z) : Z := if (97 <=? c) && (c <=? 122) then c - 32 else c.
Definition lower_char (c : Z) : Z := if (65 <=? c) && (c <=? 90) then c + 32 else c.
Definition ascii_ToUpper (s : gostring) : gostring := upper_char <$> s.
Definition ascii_ToLower (s : gostring) : gostring := lower_char <$> s.
Definition ascii_EqualFold (a b : gostring) : bool := bool_decide (ascii_ToLower a = ascii_ToLower b).

Lemma assignShortNames_first_free_witness :
  exists names,
    assignShortNames ascii_ToUpper ascii_EqualFold
      (gostr <$> ["/program files"; "/programs.old"; "/progra~1"; "/boot.ini"])%string = Ok names /\
    names = (gostr <$> ["PROGRA~1"; "PROGRAMS.OLD"; "PROGRA~2"; "BOOT.INI"])%string /\ NoDup names.
Proof.
  destruct (assignShortNames_first_free ascii_ToUpper ascii_EqualFold
    (gostr <$> ["/program files"; "/programs.old"; "/progra~1"; "/boot.ini"])%string)
    as (names & He & _ & Hnd & _); [vm_compute; done|].
  exists names. split; [done|]. split; [|done].
  assert (Hv : assignShortNames ascii_ToUpper ascii_EqualFold
    (gostr <$> ["/program files"; "/programs.old"; "/progra~1"; "/boot.ini"])%string =
    Ok (gostr <$> ["PROGRA~1"; "PROGRAMS.OLD"; "PROGRA~2"; "BOOT.INI"])%string) by (vm_compute; done).
  rewrite Hv in He. by injection He as <-.
Defined.
