(* ===== verification/ExtAttr.v ===== *)
(** Package [filesystem]: extended attributes
    (src/filesystem/extended_attributes.go).

    A native chain of attributes (FILE_FULL_EA_INFORMATION) is decoded and
    checked; [ea_chain] is the format as a builder of such chains writes it. *)

From S2P Require Import Prelude GoLib GoPath FatNames.
From stdpp Require Import base numbers list gmap strings.

Open Scope Z_scope.
Open Scope trex_scope.

#[local] Ltac Zify.zify_post_hook ::= Z.to_euclidean_division_equations.

(** Case analysis on the condition the goal branches on. *)
Ltac on_branch H :=
  match goal with |- context [if ?b then _ else _] => destruct b eqn:H end.

Record ExtendedAttribute := MkExtendedAttribute {
  ea_Name : gostring;
  ea_Flags : Z;
  ea_Value : bytes
}.

Section attributes.
(** [strings.ToUpper]. *)
Context (ToUpper : gostring -> gostring).

(** The size of a record in a chain, with its padding. *)
Definition ea_padded (ea : ExtendedAttribute) : Z :=
  Z.ldiff (8 + zlen (ea_Name ea) + 1 + zlen (ea_Value ea) + 3) 3.

Definition ea_invalid (ea : ExtendedAttribute) (seen : gset gostring) : bool :=
  (zlen (ea_Name ea) =? 0) || (255 <? zlen (ea_Name ea)) || bool_decide (0 ∈ ea_Name ea)
  || (65535 <? zlen (ea_Value ea)) || negb (Z.ldiff (ea_Flags ea) 0x80 =? 0)
  || bool_decide (ToUpper (ea_Name ea) ∈ seen).

Fixpoint validate_loop (eas : list ExtendedAttribute) (packed unpacked : Z) (seen : gset gostring) : res unit :=
  match eas with
  | [] => Ok tt
  | ea :: eas =>
      if ea_invalid ea seen then Err (Errorf "invalid or duplicate extended attribute %q")
      else
        let seen := {[ToUpper (ea_Name ea)]} ∪ seen in
        let packed := packed + (5 + zlen (ea_Name ea) + zlen (ea_Value ea)) in
        let unpacked := unpacked + ea_padded ea in
        if (65535 <? packed) || (65536 <? unpacked) then Err (Errorf "extended attributes exceed 64 KiB")
        else validate_loop eas packed unpacked seen
  end.

Definition ValidateExtendedAttributes (eas : list ExtendedAttribute) : res unit := validate_loop eas 0 0 ∅.

(** The loop over the records of a chain.  Every access is behind the check
    of its bound, and a record starts at least nine bytes after the one
    before it. *)
Fixpoint decode_records (fuel : nat) (data : bytes) (offset : Z) (result : list ExtendedAttribute)
    : res (list ExtendedAttribute) :=
  match fuel with
  | O => Err OutOfFuel
  | S fuel =>
      if zlen data - offset <? 9 then Err (Errorf "truncated EA header at %d")
      else
        let p := drop (Z.to_nat offset) data in
        let next := le_val (slice 0 4 p) in
        let n := nthb p 5 in
        let size := 9 + n + le_val (slice 6 2 p) in
        if (n =? 0) || (zlen p <? size) || negb (nthb p (8 + n) =? 0) then Err (Errorf "invalid EA record at %d")
        else
          let result := result ++ [MkExtendedAttribute (slice 8 n p) (nthb p 4) (slice (9 + n) (size - (9 + n)) p)] in
          if next =? 0 then
            if 3 <? zlen p - size then Err (Errorf "trailing EA data at %d") else Ok result
          else if negb (Z.land next 3 =? 0) || (next <? size) || (zlen p - 9 <? next)
          then Err (Errorf "invalid next EA offset at %d")
          else decode_records fuel data (offset + next) result
  end.

Definition DecodeFileFullEAInformation (data : bytes) : res (list ExtendedAttribute) :=
  if (zlen data <? 9) || (65536 <? zlen data) then Err (Errorf "invalid EA buffer length %d")
  else
    let! result := decode_records (S (length data)) data 0 [] in
    let! _ := ValidateExtendedAttributes result in
    Ok result.

(** ** The format *)

Definition ea_size (ea : ExtendedAttribute) : Z := 9 + zlen (ea_Name ea) + zlen (ea_Value ea).

Definition ea_record (next : Z) (ea : ExtendedAttribute) : bytes :=
  le_bytes 4 next ++ [ea_Flags ea; zlen (ea_Name ea)] ++ le_bytes 2 (zlen (ea_Value ea)) ++
  ea_Name ea ++ [0] ++ ea_Value ea.

(** A chain: every record is padded to four bytes, and up to three bytes may
    follow the last. *)
Fixpoint ea_chain (eas : list ExtendedAttribute) (tail : bytes) : bytes :=
  match eas with
  | [] => tail
  | [ea] => ea_record 0 ea ++ tail
  | ea :: eas => ea_record (ea_padded ea) ea ++ zeros (ea_padded ea - ea_size ea) ++ ea_chain eas tail
  end.

(** ** Validation *)

Lemma ldiff3 z : 0 <= z -> Z.ldiff z 3 = z - z mod 4.
Proof. intros. change 3 with (Z.ones 2). rewrite Z.ldiff_ones_r, Z.shiftl_mul_pow2, Z.shiftr_div_pow2 by lia. lia. Qed.

Lemma land3 z : Z.land z 3 = z mod 4.
Proof. change 3 with (Z.ones 2). by rewrite Z.land_ones. Qed.

Lemma ea_size_pos ea : 9 <= ea_size ea.
Proof. unfold ea_size. pose proof (zlen_nonneg (ea_Name ea)). pose proof (zlen_nonneg (ea_Value ea)). lia. Qed.

Lemma ea_padded_bounds ea : ea_size ea <= ea_padded ea <= ea_size ea + 3 /\ Z.land (ea_padded ea) 3 = 0.
Proof.
  pose proof (zlen_nonneg (ea_Name ea)). pose proof (zlen_nonneg (ea_Value ea)).
  unfold ea_padded, ea_size. rewrite ldiff3 by lia. split; [lia|].
  rewrite land3. lia.
Qed.

(** An attribute that passes the checks of one record. *)
Definition ea_ok (ea : ExtendedAttribute) : Prop :=
  1 <= zlen (ea_Name ea) <= 255 /\ zlen (ea_Value ea) <= 65535 /\ 0 ∉ ea_Name ea /\
  Z.ldiff (ea_Flags ea) 0x80 = 0.

Lemma validate_loop_ok eas packed unpacked seen :
  validate_loop eas packed unpacked seen = Ok tt ->
  Forall ea_ok eas /\ (eas <> [] -> unpacked + Z.of_nat (sum_list_with (fun ea => Z.to_nat (ea_padded ea)) eas) <= 65536) /\
  NoDup ((fun ea => ToUpper (ea_Name ea)) <$> eas) /\ Forall (fun ea => ToUpper (ea_Name ea) ∉ seen) eas.
Proof.
  revert packed unpacked seen. induction eas as [|ea eas IH]; intros packed unpacked seen; cbn [validate_loop].
  { intros _. split; [constructor|split; [done|split; constructor]]. }
  destruct (ea_invalid ea seen) eqn:Hi; [done|]. destruct (_ || _) eqn:Hl; [done|].
  intros (Hf & Hs & Hnd & Hseen)%IH. unfold ea_invalid in Hi. rewrite !orb_false_iff in Hi.
  destruct Hi as (((((H1 & H2) & H3) & H4) & H5) & H6).
  apply bool_decide_eq_false in H3, H6. apply negb_false_iff, Z.eqb_eq in H5.
  apply orb_false_iff in Hl as [_ Hl%Z.ltb_ge]. pose proof (zlen_nonneg (ea_Name ea)).
  pose proof (ea_padded_bounds ea) as [Hp _]. pose proof (zlen_nonneg (ea_Value ea)). unfold ea_size in Hp.
  split; [constructor; [unfold ea_ok; split; [lia|split; [lia|done]]|done]|].
  split.
  { intros _. cbn [sum_list_with]. destruct eas as [|ea' eas]; [cbn [sum_list_with]; lia|]. specialize (Hs ltac:(done)). lia. }
  split.
  - rewrite fmap_cons. constructor; [|done]. intros (x & Hx & Hin)%list_elem_of_fmap.
    rewrite Forall_forall in Hseen. apply (Hseen x Hin). rewrite <- Hx. set_solver.
  - constructor; [done|]. eapply Forall_impl; [done|]. intros x Hx. set_solver.
Qed.

Lemma validate_loop_returns eas packed unpacked seen :
  returns (fun _ => True) (validate_loop eas packed unpacked seen).
Proof.
  revert packed unpacked seen. induction eas as [|ea eas IH]; intros packed unpacked seen; [done|].
  cbn [validate_loop]. destruct (ea_invalid ea seen); [done|]. on_branch Hl; [done|]. apply IH.
Qed.

(** ** Decoding *)

Lemma zlen_ea_record next ea : zlen (ea_record next ea) = ea_size ea.
Proof. unfold ea_record, ea_size. rewrite !zlen_app, !zlen_le_bytes. change (zlen [_; _]) with 2. change (zlen [0]) with 1. lia. Qed.

(** The fields of a record that starts the bytes [p]. *)
Lemma record_fields next ea rest p :
  p = ea_record next ea ++ rest -> 0 <= next < 2 ^ 32 -> 0 <= zlen (ea_Value ea) <= 65535 ->
  le_val (slice 0 4 p) = next /\ nthb p 4 = ea_Flags ea /\ nthb p 5 = zlen (ea_Name ea) /\
  le_val (slice 6 2 p) = zlen (ea_Value ea) /\ slice 8 (zlen (ea_Name ea)) p = ea_Name ea /\
  nthb p (8 + zlen (ea_Name ea)) = 0 /\
  slice (9 + zlen (ea_Name ea)) (zlen (ea_Value ea)) p = ea_Value ea.
Proof.
  intros -> Hn Hv. unfold ea_record. rewrite <- !app_assoc.
  set (name := ea_Name ea) in *. set (value := ea_Value ea) in *.
  assert (H4 : length (le_bytes 4 next) = 4%nat) by done.
  assert (H2 : length (le_bytes 2 (zlen value)) = 2%nat) by done.
  unfold slice, nthb, zlen in *. rewrite !Nat2Z.id.
  change (Z.to_nat 0) with 0%nat. change (Z.to_nat 2) with 2%nat. change (Z.to_nat 4) with 4%nat.
  change (Z.to_nat 5) with 5%nat. change (Z.to_nat 6) with 6%nat. change (Z.to_nat 8) with 8%nat.
  replace (Z.to_nat (8 + Z.of_nat (length name))) with (8 + length name)%nat by lia.
  replace (Z.to_nat (9 + Z.of_nat (length name))) with (9 + length name)%nat by lia.
  split; [rewrite drop_0, take_app_length' by done; apply le_roundtrip; change (256 ^ Z.of_nat 4) with (2 ^ 32); lia|].
  split; [done|]. split; [done|].
  split; [change (take 2 (drop 6 _)) with (take 2 (le_bytes 2 (Z.of_nat (length value)) ++ name ++ [0] ++ value ++ rest));
    rewrite take_app_length' by done; apply le_roundtrip; change (256 ^ Z.of_nat 2) with 65536; lia|].
  split; [change (drop 8 _) with (name ++ [0] ++ value ++ rest); by rewrite take_app_length|].
  split.
  - destruct (Z.ltb_spec (8 + Z.of_nat (length name)) 0); [lia|].
    change (nth (8 + length name) _ 0) with (nth (length name) (name ++ [0] ++ value ++ rest) 0).
    rewrite app_nth2 by lia. by rewrite Nat.sub_diag.
  - replace (9 + length name)%nat with (8 + (length name + 1))%nat by lia. rewrite <- drop_drop.
    change (drop 8 _) with (name ++ [0] ++ value ++ rest). rewrite app_assoc, drop_app_length'
      by (rewrite length_app; done). by rewrite take_app_length.
Qed.

Lemma ea_chain_cons ea eas tail :
  eas <> [] -> ea_chain (ea :: eas) tail =
    ea_record (ea_padded ea) ea ++ zeros (ea_padded ea - ea_size ea) ++ ea_chain eas tail.
Proof. by destruct eas. Qed.

Lemma zlen_ea_chain eas tail :
  (eas <> [] -> exists ea, ea ∈ eas /\ ea_size ea + zlen tail <= zlen (ea_chain eas tail)) /\
  zlen (ea_chain eas tail) <= Z.of_nat (sum_list_with (fun ea => Z.to_nat (ea_padded ea)) eas) + zlen tail.
Proof.
  induction eas as [|ea eas [IH1 IH2]]; [split; [done|simpl; lia]|]. pose proof (ea_padded_bounds ea) as [Hp _].
  destruct eas as [|ea' eas].
  - cbn [ea_chain sum_list_with]. rewrite zlen_app, zlen_ea_record. split; [intros _; exists ea; split; [left|lia]|lia].
  - rewrite ea_chain_cons by done. rewrite !zlen_app, zlen_ea_record, zlen_zeros by lia.
    cbn [sum_list_with] in *. pose proof (ea_size_pos ea). split; [|lia]. intros _.
    destruct IH1 as (e & He & Hl); [done|]. exists e. split; [by right|]. lia.
Qed.

Lemma ea_chain_long eas tail : eas <> [] -> Forall ea_ok eas -> 9 < zlen (ea_chain eas tail).
Proof.
  intros Hne Hok. destruct (zlen_ea_chain eas tail) as [Hl _]. destruct (Hl Hne) as (ea & Hin & Hle).
  rewrite Forall_forall in Hok. destruct (Hok ea Hin) as ((? & _) & _). unfold ea_size in Hle.
  pose proof (zlen_nonneg tail). pose proof (zlen_nonneg (ea_Value ea)). lia.
Qed.

(** The records of a chain that starts at [offset]. *)
Lemma decode_records_chain fuel pre eas tail result :
  eas <> [] -> Forall ea_ok eas -> zlen tail <= 3 -> (length eas <= fuel)%nat ->
  decode_records fuel (pre ++ ea_chain eas tail) (zlen pre) result = Ok (result ++ eas).
Proof.
  revert pre eas result. induction fuel as [|fuel IH]; intros pre eas result Hne Hok Ht Hf;
    [destruct eas; [done|simpl in Hf; lia]|].
  destruct eas as [|ea eas]; [done|]. pose proof (ea_chain_long (ea :: eas) tail Hne Hok) as Hlong.
  pose proof Hok as (((Hn1 & Hn2) & Hv & _ & _) & Hok')%Forall_cons. pose proof (zlen_nonneg (ea_Value ea)) as Hv0.
  pose proof (ea_padded_bounds ea) as [Hp Hp3]. unfold ea_size in Hp. cbn [decode_records].
  rewrite zlen_app. replace (zlen pre + zlen (ea_chain (ea :: eas) tail) - zlen pre <? 9) with false by lia.
  replace (Z.to_nat (zlen pre)) with (length pre) by (unfold zlen; lia). rewrite drop_app_length.
  destruct (decide (eas = [])) as [->|Hne'].
  - cbn [ea_chain]. destruct (record_fields 0 ea tail _ eq_refl) as (-> & -> & -> & -> & -> & -> & H9); [lia|lia|].
    rewrite zlen_app, zlen_ea_record. unfold ea_size.
    pose proof (zlen_nonneg tail). replace (zlen (ea_Name ea) =? 0) with false by lia.
    replace (_ <? 9 + zlen (ea_Name ea) + zlen (ea_Value ea)) with false by lia.
    simpl orb. change (negb (0 =? 0)) with false. change (0 =? 0) with true. cbv iota.
    replace (3 <? _) with false by lia.
    replace (9 + zlen (ea_Name ea) + zlen (ea_Value ea) - (9 + zlen (ea_Name ea))) with (zlen (ea_Value ea)) by lia.
    rewrite H9. by destruct ea.
  - pose proof (ea_chain_long eas tail Hne' Hok') as Hlong'. rewrite ea_chain_cons by done.
    destruct (record_fields (ea_padded ea) ea (zeros (ea_padded ea - ea_size ea) ++ ea_chain eas tail) _ eq_refl
      ltac:(lia) ltac:(lia)) as (-> & -> & -> & -> & -> & -> & H9).
    assert (Hsz : ea_size ea = 9 + zlen (ea_Name ea) + zlen (ea_Value ea)) by done.
    rewrite !zlen_app, zlen_ea_record, zlen_zeros by lia.
    replace (zlen (ea_Name ea) =? 0) with false by lia.
    replace (_ <? 9 + zlen (ea_Name ea) + zlen (ea_Value ea)) with false by lia.
    simpl orb. change (negb (0 =? 0)) with false. cbv iota. replace (ea_padded ea =? 0) with false by lia.
    rewrite Hp3. change (negb (0 =? 0)) with false. simpl orb.
    replace (ea_padded ea <? 9 + zlen (ea_Name ea) + zlen (ea_Value ea)) with false by lia. simpl orb.
    replace (_ - 9 <? ea_padded ea) with false by lia.
    replace (9 + zlen (ea_Name ea) + zlen (ea_Value ea) - (9 + zlen (ea_Name ea))) with (zlen (ea_Value ea)) by lia.
    rewrite H9. set (r := ea_record _ _). set (z := zeros _).
    replace (zlen pre + ea_padded ea) with (zlen (pre ++ r ++ z))
      by (unfold r, z; rewrite !zlen_app, zlen_ea_record, zlen_zeros by lia; lia).
    replace (pre ++ r ++ z ++ ea_chain eas tail) with ((pre ++ r ++ z) ++ ea_chain eas tail) by (by rewrite <- !app_assoc).
    rewrite IH; [|done|done|done|simpl in Hf; lia]. rewrite <- app_assoc. by destruct ea.
Qed.

(** The loop ends: a record is at least nine bytes long. *)
Lemma decode_records_fuel fuel data offset result :
  0 <= offset <= zlen data -> zlen data - offset < Z.of_nat fuel -> bytes_ok data ->
  returns (fun _ => True) (decode_records fuel data offset result).
Proof.
  revert offset result. induction fuel as [|fuel IH]; intros offset result Ho Hf Hb; [lia|]. cbn [decode_records].
  destruct (Z.ltb_spec (zlen data - offset) 9); [done|]. set (p := drop (Z.to_nat offset) data).
  assert (Hzp : zlen p = zlen data - offset) by (unfold p, zlen in *; rewrite length_drop; lia).
  assert (Hbp : bytes_ok p) by (by apply Forall_drop).
  assert (Hs : forall a n, bytes_ok (slice a n p)) by (intros; by apply Forall_take, Forall_drop).
  on_branch H1; [done|]. on_branch H2; [by on_branch H3|]. on_branch H3; [done|]. rewrite !orb_false_iff in H3. destruct H3 as ((_ & H3) & H4).
  apply Z.ltb_ge in H3, H4. pose proof (le_val_bound (slice 6 2 p) (Hs 6 2)) as Hl.
  assert (0 <= nthb p 5) by (eapply (Forall_lookup_1 _ _ (Z.to_nat 5) _ Hbp), nthb_lookup; lia).
  apply IH; [lia|lia|done].
Qed.

End attributes.

Definition sample_eas : list ExtendedAttribute :=
  [MkExtendedAttribute (gostr "$CI.CatalogHint") 0 [1; 0; 3; 0; 97; 98; 99];
   MkExtendedAttribute (gostr "X") 0x80 [7]].

