(* ===== verification/Directory.v ===== *)
(** Package [filesystem]: the in-memory directory tree
    (src/filesystem/directory.go, directory_rmdir.go, directory_clone.go,
    directory_metadata.go, directory_file_attributes.go,
    directory_extended_attributes.go, directory_path_names.go and
    extended_attributes.go).

    This file holds the state and the operations as the code has them, with
    the indexes of hard links and the caches of the namespace;
    [DirectorySpec.v] relates them to a tree without either. *)

From S2P Require Import Prelude GoLib GoPath FatNames ExtAttr.
From stdpp Require Import base numbers list gmap sorting strings.

Open Scope Z_scope.
Open Scope trex_scope.

(** ** Data *)

Record Attributes := MkAttributes {
  ReadOnly : bool;
  Hidden : bool;
  System : bool;
  Archive : bool
}.

Section directory.
(** Files of other packages, and the case mappings of Go's Unicode tables. *)
Context {F : Type}.
Context (ToLower ToUpper : gostring -> gostring) (EqualFold : gostring -> gostring -> bool).

(** [starfile.File]: a reader of another package, or bytes in memory. *)
Inductive starFile :=
  | ExternalFile (f : F)
  | BytesFile (name : gostring) (data : bytes).

Record Metadata := MkMetadata {
  md_ExtendedAttributes : list ExtendedAttribute;
  md_NamedStreams : gmap gostring starFile;
  md_FileAttributes : Z;
  md_HasFileAttributes : bool;
  md_SecurityDescriptor : bytes;
  md_ReparseTag : Z;
  md_ReparseData : option starFile;
  md_CreationTime : Z;
  md_LastAccessTime : Z;
  md_LastWriteTime : Z;
  md_HardLink : Z;
  md_ShortName : gostring
}.

(** [Metadata{}]. *)
Definition zeroMetadata : Metadata := MkMetadata [] ∅ 0 false [] 0 None 0 0 0 0 [].

Record FileRecord := MkFileRecord {
  fr_File : option starFile;
  fr_Data : bytes;
  fr_Size : Z;
  fr_WriteOrder : Z
}.

Definition with_order (f : FileRecord) (o : Z) : FileRecord := MkFileRecord (fr_File f) (fr_Data f) (fr_Size f) o.

(** [FileRecord{}], which a map lookup returns for a missing name. *)
Definition zeroFileRecord : FileRecord := MkFileRecord None [] 0 0.

(** The index of hard-link identities. *)
Record linkIndex := LinkIndex {
  hardLinkRefs : gmap Z Z;
  hardLinkNames : gmap Z (list gostring);
  nextHardLink : Z
}.

(** The caches of the namespace.  A nil slice or map is [None].  The counter
    of revisions is a [uint64]; 2^64 changes are out of reach. *)
Record nameCaches := NameCaches {
  revision : Z;
  pathNames : list (option (list (gostring * gostring)));
  sortedFiles : option (list gostring);
  fileValues : option (list gostring);
  children : option (gmap gostring (list gostring));
  childrenRevision : Z;
  fatShortIndex : gmap gostring gostring;
  fatShortRev : Z;
  fatShortValid : bool
}.

Record Directory := MkDirectory {
  d_dirs : gset gostring;
  d_files : gmap gostring FileRecord;
  d_attributes : gmap gostring Attributes;
  d_metadata : gmap gostring Metadata;
  d_links : linkIndex;
  d_nextWriteOrder : Z;
  d_caches : nameCaches
}.

Definition root : gostring := [slash].

Definition noPathNames : list (option (list (gostring * gostring))) := replicate 4 None.

(** [New]. *)
Definition New : Directory :=
  MkDirectory {[root]} ∅ ∅ ∅ (LinkIndex ∅ ∅ 0) 0 (NameCaches 0 noPathNames None None None 0 ∅ 0 false).

(** Assignments to one part of the state. *)
Definition with_dirs (x : gset gostring) (d : Directory) : Directory :=
  MkDirectory x (d_files d) (d_attributes d) (d_metadata d) (d_links d) (d_nextWriteOrder d) (d_caches d).
Definition with_files (x : gmap gostring FileRecord) (d : Directory) : Directory :=
  MkDirectory (d_dirs d) x (d_attributes d) (d_metadata d) (d_links d) (d_nextWriteOrder d) (d_caches d).
Definition with_attributes (x : gmap gostring Attributes) (d : Directory) : Directory :=
  MkDirectory (d_dirs d) (d_files d) x (d_metadata d) (d_links d) (d_nextWriteOrder d) (d_caches d).
Definition with_metadata (x : gmap gostring Metadata) (d : Directory) : Directory :=
  MkDirectory (d_dirs d) (d_files d) (d_attributes d) x (d_links d) (d_nextWriteOrder d) (d_caches d).
Definition with_links (x : linkIndex) (d : Directory) : Directory :=
  MkDirectory (d_dirs d) (d_files d) (d_attributes d) (d_metadata d) x (d_nextWriteOrder d) (d_caches d).
Definition with_write_order (x : Z) (d : Directory) : Directory :=
  MkDirectory (d_dirs d) (d_files d) (d_attributes d) (d_metadata d) (d_links d) x (d_caches d).
Definition with_caches (x : nameCaches) (d : Directory) : Directory :=
  MkDirectory (d_dirs d) (d_files d) (d_attributes d) (d_metadata d) (d_links d) (d_nextWriteOrder d) x.

(** [d.metadata[name]] and [d.children[name]] of a missing key. *)
Definition metadata_of (d : Directory) (name : gostring) : Metadata := default zeroMetadata (d_metadata d !! name).
Definition names_in (c : gmap gostring (list gostring)) (name : gostring) : list gostring := default [] (c !! name).

(** ** The namespace and its caches *)

Definition invalidateNamespace (c : nameCaches) : nameCaches :=
  NameCaches (revision c + 1) noPathNames None None (children c) (childrenRevision c)
    (fatShortIndex c) (fatShortRev c) (fatShortValid c).

(** The sorted names of a directory after [name] appeared or went away. *)
Definition names_changed (names : list gostring) (name : gostring) (present : bool) : list gostring :=
  let i := Z.to_nat (sort_SearchStrings names name) in
  let exists_ := bool_decide (names !! i = Some name) in
  if present && negb exists_ then take i names ++ name :: drop i names
  else if negb present && exists_ then take i names ++ drop (S i) names
  else names.

Definition namespaceEntryChanged (name : gostring) (present : bool) (c : nameCaches) : nameCaches :=
  let current := match children c with Some _ => childrenRevision c =? revision c | None => false end in
  let children' :=
    match children c with
    | Some ch =>
        if current && negb (bool_decide (name = root)) then
          let parent := path_Dir name in
          Some (<[parent := names_changed (names_in ch parent) name present]> ch)
        else children c
    | None => None
    end in
  let c := invalidateNamespace (NameCaches (revision c) (pathNames c) (sortedFiles c) (fileValues c) children'
             (childrenRevision c) (fatShortIndex c) (fatShortRev c) (fatShortValid c)) in
  if current then
    NameCaches (revision c) (pathNames c) (sortedFiles c) (fileValues c) (children c) (revision c)
      (fatShortIndex c) (fatShortRev c) (fatShortValid c)
  else c.

(** The directories [Mkdir] visits: the path and its parents up to the root.
    A parent is shorter than its path. *)
Fixpoint dir_chain (fuel : nat) (cleaned : gostring) : list gostring :=
  match fuel with
  | O => []
  | S fuel => cleaned :: if bool_decide (cleaned = root) then [] else dir_chain fuel (path_Dir cleaned)
  end.

Definition mkdir_one (d : Directory) (cleaned : gostring) : Directory :=
  if decide (cleaned ∈ d_dirs d) then d
  else with_caches (namespaceEntryChanged cleaned true (d_caches d)) (with_dirs ({[cleaned]} ∪ d_dirs d) d).

Definition Mkdir (name : gostring) (d : Directory) : Directory :=
  let cleaned := CleanPath name in
  foldl mkdir_one d (dir_chain (S (length cleaned)) cleaned).

Definition PutFile (name : gostring) (file : FileRecord) (d : Directory) : Directory :=
  let cleaned := CleanPath name in
  let d := Mkdir (path_Dir cleaned) d in
  let order := u64 (d_nextWriteOrder d + 1) in
  let d := with_write_order order d in
  let d := match d_files d !! cleaned with
           | None => with_caches (namespaceEntryChanged cleaned true (d_caches d)) d
           | Some _ => d
           end in
  with_files (<[cleaned := with_order file order]> (d_files d)) d.

(** A Starlark value that can be written: a file with its size, a string or
    bytes; anything else is refused. *)
Inductive writeValue :=
  | FileValue (f : starFile) (size : Z)
  | StringValue (s : gostring)
  | BytesValue (b : bytes)
  | OtherValue.

Definition virtualFileForValue (value : writeValue) : res FileRecord :=
  match value with
  | FileValue f size => Ok (MkFileRecord (Some f) [] size 0)
  | StringValue data | BytesValue data => Ok (MkFileRecord None data (zlen data) 0)
  | OtherValue => Err (Errorf "write: got %s, want file, string, or bytes")
  end.

(** [writeBuiltin]. *)
Definition write_file (name : gostring) (value : writeValue) (d : Directory) : Directory * res unit :=
  match virtualFileForValue value with
  | Err e => (d, Err e)
  | Ok file => (PutFile name file d, Ok tt)
  end.

(** ** Metadata and hard links *)

(** Removing the first occurrence, as the loop over the aliases does. *)
Fixpoint remove_first (x : gostring) (l : list gostring) : list gostring :=
  match l with
  | [] => []
  | y :: l => if decide (y = x) then l else y :: remove_first x l
  end.

Definition refs_of (l : linkIndex) (id : Z) : Z := default 0 (hardLinkRefs l !! id).
Definition names_of (l : linkIndex) (id : Z) : list gostring := default [] (hardLinkNames l !! id).

(** The index after the identity of [cleaned] changed. *)
Definition relink (cleaned : gostring) (oldID newID : Z) (l : linkIndex) : linkIndex :=
  let names :=
    if oldID =? 0 then hardLinkNames l
    else
      let aliases := remove_first cleaned (names_of l oldID) in
      if bool_decide (aliases = []) then delete oldID (hardLinkNames l)
      else <[oldID := aliases]> (hardLinkNames l) in
  let names :=
    if newID =? 0 then names
    else <[newID := default [] (names !! newID) ++ [cleaned]]> names in
  let '(refs, next) :=
    if oldID =? 0 then (hardLinkRefs l, nextHardLink l)
    else
      let count := u64 (refs_of l oldID - 1) in
      if count =? 0 then
        (delete oldID (hardLinkRefs l), if oldID <? nextHardLink l then oldID else nextHardLink l)
      else (<[oldID := count]> (hardLinkRefs l), nextHardLink l) in
  let refs :=
    if newID =? 0 then refs
    else <[newID := u64 (default 0 (refs !! newID) + 1)]> refs in
  LinkIndex refs names next.

Definition SetMetadata (name : gostring) (m : Metadata) (d : Directory) : Directory :=
  let cleaned := CleanPath name in
  let oldID := md_HardLink (metadata_of d cleaned) in
  let newID := md_HardLink m in
  let links := if oldID =? newID then d_links d else relink cleaned oldID newID (d_links d) in
  with_metadata (<[cleaned := m]> (d_metadata d)) (with_links links d).

(** The loop that looks for an unused identity; every round skips one that is
    used. *)
Fixpoint alloc_loop (fuel : nat) (l : linkIndex) (id : Z) : res Z :=
  match fuel with
  | O => Err OutOfFuel
  | S fuel =>
      if refs_of l id =? 0 then Ok id
      else
        let id := u64 (id + 1) in
        if id =? 0 then Err (Errorf "hardlink: no file identity is available") else alloc_loop fuel l id
  end.

Definition with_hard_link (id : Z) (m : Metadata) : Metadata :=
  MkMetadata (md_ExtendedAttributes m) (md_NamedStreams m) (md_FileAttributes m) (md_HasFileAttributes m)
    (md_SecurityDescriptor m) (md_ReparseTag m) (md_ReparseData m) (md_CreationTime m) (md_LastAccessTime m)
    (md_LastWriteTime m) id (md_ShortName m).

Definition with_short_name (s : gostring) (m : Metadata) : Metadata :=
  MkMetadata (md_ExtendedAttributes m) (md_NamedStreams m) (md_FileAttributes m) (md_HasFileAttributes m)
    (md_SecurityDescriptor m) (md_ReparseTag m) (md_ReparseData m) (md_CreationTime m) (md_LastAccessTime m)
    (md_LastWriteTime m) (md_HardLink m) s.

(** The part of [HardLink] that gives the source an identity. *)
Definition identify (source : gostring) (metadata : Metadata) (d : Directory) : Directory * res Metadata :=
  if negb (md_HardLink metadata =? 0) then (d, Ok metadata)
  else
    let start := if nextHardLink (d_links d) =? 0 then 1 else nextHardLink (d_links d) in
    let l := LinkIndex (hardLinkRefs (d_links d)) (hardLinkNames (d_links d)) start in
    match alloc_loop (S (size (hardLinkRefs l))) l start with
    | Err e => (with_links l d, Err e)
    | Ok id =>
        let metadata := with_hard_link id metadata in
        let d := with_links (LinkIndex (hardLinkRefs l) (hardLinkNames l) id) d in
        (SetMetadata source metadata d, Ok metadata)
    end.

Definition HardLink (source destination : gostring) (d : Directory) : Directory * res unit :=
  let source := CleanPath source in
  let destination := CleanPath destination in
  match d_files d !! source with
  | None => (d, Err (Errorf "hardlink: source file %q does not exist"))
  | Some file =>
      match identify source (metadata_of d source) d with
      | (d, Err e) => (d, Err e)
      | (d, Ok metadata) =>
          let d := PutFile destination file d in
          let shortName := md_ShortName (metadata_of d destination) in
          let d := SetMetadata destination (with_short_name shortName metadata) d in
          let attributes := match d_attributes d !! source with
                            | Some attrs => <[destination := attrs]> (d_attributes d)
                            | None => delete destination (d_attributes d)
                            end in
          (with_attributes attributes d, Ok tt)
      end
  end.

(** A path that is a directory or a file. *)
Definition path_exists (d : Directory) (cleaned : gostring) : bool :=
  bool_decide (cleaned ∈ d_dirs d) || bool_decide (is_Some (d_files d !! cleaned)).

Definition with_fat_invalid (c : nameCaches) : nameCaches :=
  NameCaches (revision c) (pathNames c) (sortedFiles c) (fileValues c) (children c) (childrenRevision c)
    (fatShortIndex c) (fatShortRev c) false.

(** [removeBuiltin]. *)
Definition remove_file (name : gostring) (d : Directory) : Directory * res unit :=
  let cleaned := CleanPath name in
  match d_files d !! cleaned with
  | None => (d, Err (Errorf "remove: file %q does not exist"))
  | Some _ =>
      let d := with_files (delete cleaned (d_files d)) d in
      let d := SetMetadata cleaned zeroMetadata d in
      let d := with_metadata (delete cleaned (d_metadata d)) d in
      let d := with_attributes (delete cleaned (d_attributes d)) d in
      let remainsDirectory := bool_decide (cleaned ∈ d_dirs d) in
      (with_caches (with_fat_invalid (namespaceEntryChanged cleaned remainsDirectory (d_caches d))) d, Ok tt)
  end.

(** The paths other than the root, as the two loops of [ensureChildren]
    collect them: directories, and files that are not directories too. *)
Definition child_paths (d : Directory) : list gostring :=
  filter (fun p => p <> root) (elements (d_dirs d)) ++
  filter (fun p => p ∉ d_dirs d) (elements (dom (d_files d))).

Definition build_children (d : Directory) : gmap gostring (list gostring) :=
  let paths := child_paths d in
  sort_Strings <$>
    foldl (fun ch p => <[path_Dir p := names_in ch (path_Dir p) ++ [p]]> ch) ∅ paths.

Definition ensureChildren (d : Directory) : Directory :=
  let c := d_caches d in
  let fresh := match children c with Some _ => childrenRevision c =? revision c | None => false end in
  if fresh then d
  else with_caches (NameCaches (revision c) (pathNames c) (sortedFiles c) (fileValues c) (Some (build_children d))
         (revision c) (fatShortIndex c) (fatShortRev c) (fatShortValid c)) d.

Definition children_of (d : Directory) (name : gostring) : list gostring :=
  match children (d_caches d) with Some ch => names_in ch name | None => [] end.

(** [listDirBuiltin]. *)
Definition list_dir (name : gostring) (d : Directory) : Directory * list gostring :=
  let d := ensureChildren d in
  (d, children_of d (CleanPath name)).

Definition RemoveEmptyDirectory (name : gostring) (d : Directory) : Directory * res unit :=
  let name := CleanPath name in
  if bool_decide (name = root) then (d, Err (Errorf "rmdir: cannot remove the root directory"))
  else if negb (bool_decide (name ∈ d_dirs d)) then (d, Err (Errorf "rmdir: directory %q does not exist"))
  else
    let d := ensureChildren d in
    if bool_decide (is_Some (d_files d !! name)) || negb (zlen (children_of d name) =? 0)
    then (d, Err (Errorf "rmdir: directory %q is not empty"))
    else
      let c := d_caches d in
      let ch := default ∅ (children c) in
      let parent := path_Dir name in
      let ch := match decide (name ∈ names_in ch parent) with
                | left _ => <[parent := remove_first name (names_in ch parent)]> ch
                | right _ => ch
                end in
      let ch := delete name ch in
      let d := with_dirs (d_dirs d ∖ {[name]}) d in
      let d := SetMetadata name zeroMetadata d in
      let d := with_metadata (delete name (d_metadata d)) d in
      let d := with_attributes (delete name (d_attributes d)) d in
      let c := invalidateNamespace (NameCaches (revision c) (pathNames c) (sortedFiles c) (fileValues c) (Some ch)
                 (childrenRevision c) (fatShortIndex c) (fatShortRev c) (fatShortValid c)) in
      (with_caches (with_fat_invalid (NameCaches (revision c) (pathNames c) (sortedFiles c) (fileValues c)
         (children c) (revision c) (fatShortIndex c) (fatShortRev c) (fatShortValid c))) d, Ok tt).

(** ** Attributes of objects *)

(** The loop over the aliases of an identity that updates one field of
    each. *)
Definition update_aliases (id : Z) (f : Metadata -> Metadata) (d : Directory) : Directory :=
  foldl (fun d alias =>
           let other := metadata_of d alias in
           if md_HardLink other =? id then with_metadata (<[alias := f other]> (d_metadata d)) d else d)
    d (names_of (d_links d) id).

(** An object that other names share. *)
Definition shared (m : Metadata) (d : Directory) : bool :=
  negb (md_HardLink m =? 0) && (1 <? refs_of (d_links d) (md_HardLink m)).

Definition with_reparse (tag : Z) (data : starFile) (m : Metadata) : Metadata :=
  MkMetadata (md_ExtendedAttributes m) (md_NamedStreams m) (md_FileAttributes m) (md_HasFileAttributes m)
    (md_SecurityDescriptor m) tag (Some data) (md_CreationTime m) (md_LastAccessTime m)
    (md_LastWriteTime m) (md_HardLink m) (md_ShortName m).

Definition SetReparse (name : gostring) (tag : Z) (data : bytes) (d : Directory) : Directory * res unit :=
  let cleaned := CleanPath name in
  if negb (path_exists d cleaned) then (d, Err (Errorf "set_reparse: path %q does not exist"))
  else if (Z.land tag 0x80000000 =? 0) || (Z.land tag 0xffff <? 2)
  then (d, Err (Errorf "set_reparse: a nonreserved Microsoft reparse tag is required"))
  else if 0x3ff8 <? zlen data then (d, Err (Errorf "set_reparse: payload exceeds 16376 bytes"))
  else
    let metadata := metadata_of d cleaned in
    if shared metadata d then (d, Err (Errorf "set_reparse: multiply-linked files are unsupported"))
    else (SetMetadata cleaned (with_reparse tag (BytesFile (gostr "reparse payload") data) metadata) d, Ok tt).

Definition SetAttributes (name : gostring) (attributes : Attributes) (d : Directory) : Directory * res unit :=
  let cleaned := CleanPath name in
  if negb (path_exists d cleaned) then (d, Err (Errorf "set_attributes: path %q does not exist"))
  else (with_attributes (<[cleaned := attributes]> (d_attributes d)) d, Ok tt).

(** [getSecurityBuiltin]; [None] is Starlark's [None]. *)
Definition get_security (name : gostring) (d : Directory) : res (option bytes) :=
  let cleaned := CleanPath name in
  if negb (path_exists d cleaned) then Err (Errorf "get_security: path %q does not exist")
  else
    let descriptor := md_SecurityDescriptor (metadata_of d cleaned) in
    Ok (if zlen descriptor =? 0 then None else Some descriptor).

Definition with_security (sd : bytes) (m : Metadata) : Metadata :=
  MkMetadata (md_ExtendedAttributes m) (md_NamedStreams m) (md_FileAttributes m) (md_HasFileAttributes m)
    sd (md_ReparseTag m) (md_ReparseData m) (md_CreationTime m) (md_LastAccessTime m)
    (md_LastWriteTime m) (md_HardLink m) (md_ShortName m).

(** [SetMetadata] of an updated object and, when it is shared, the same
    update of its aliases. *)
Definition set_object (cleaned : gostring) (f : Metadata -> Metadata) (d : Directory) : Directory :=
  let m := f (metadata_of d cleaned) in
  let d := SetMetadata cleaned m d in
  if shared m d then update_aliases (md_HardLink m) f d else d.

Definition SetSecurity (name : gostring) (descriptor : bytes) (d : Directory) : Directory * res unit :=
  let cleaned := CleanPath name in
  if negb (path_exists d cleaned) then (d, Err (Errorf "set_security: path %q does not exist"))
  else if (zlen descriptor <? 20) || negb (nthb descriptor 0 =? 1)
       || (Z.land (le_val (slice 2 2 descriptor)) 0x8000 =? 0)
  then (d, Err (Errorf "set_security: descriptor must be revision-1 self-relative data"))
  else (set_object cleaned (with_security descriptor) d, Ok tt).

Definition with_times (creation write access : Z) (m : Metadata) : Metadata :=
  MkMetadata (md_ExtendedAttributes m) (md_NamedStreams m) (md_FileAttributes m) (md_HasFileAttributes m)
    (md_SecurityDescriptor m) (md_ReparseTag m) (md_ReparseData m) creation access write (md_HardLink m)
    (md_ShortName m).

Definition SetTimes (name : gostring) (creation write access : Z) (d : Directory) : Directory * res unit :=
  let name := CleanPath name in
  if negb (path_exists d name) then (d, Err (Errorf "set_times: path %q does not exist"))
  else (set_object name (with_times creation write access) d, Ok tt).

Definition with_file_attributes (a : Z) (m : Metadata) : Metadata :=
  MkMetadata (md_ExtendedAttributes m) (md_NamedStreams m) a true
    (md_SecurityDescriptor m) (md_ReparseTag m) (md_ReparseData m) (md_CreationTime m) (md_LastAccessTime m)
    (md_LastWriteTime m) (md_HardLink m) (md_ShortName m).

Definition writable_attributes : Z := 0x31a7.

(** The flags of the object after the basic attributes were replaced. *)
Definition merged_attributes (old attributes : Z) (directory : bool) : Z :=
  let attributes := Z.ldiff attributes 0x80 in
  let merged := Z.lor (Z.ldiff old (Z.lor writable_attributes 0x10)) attributes in
  if directory then Z.lor merged 0x10 else merged.

Definition SetFileAttributes (name : gostring) (attributes : Z) (d : Directory) : Directory * res unit :=
  let name := CleanPath name in
  let directory := bool_decide (name ∈ d_dirs d) in
  if negb (path_exists d name) then (d, Err (Errorf "set_file_attributes: path %q does not exist"))
  else if negb (Z.ldiff attributes writable_attributes =? 0)
  then (d, Err (Errorf "set_file_attributes: unsupported basic-information attributes %#x"))
  else
    let flags := merged_attributes (md_FileAttributes (metadata_of d name)) attributes directory in
    let m := with_file_attributes flags (metadata_of d name) in
    let d := SetMetadata name m d in
    let d := with_attributes (delete name (d_attributes d)) d in
    if shared m d then
      (foldl (fun d alias =>
                let other := metadata_of d alias in
                if md_HardLink other =? md_HardLink m then
                  with_attributes (delete alias (d_attributes d))
                    (with_metadata (<[alias := with_file_attributes flags other]> (d_metadata d)) d)
                else d) d (names_of (d_links d) (md_HardLink m)), Ok tt)
    else (d, Ok tt).

Definition with_eas (eas : list ExtendedAttribute) (m : Metadata) : Metadata :=
  MkMetadata eas (md_NamedStreams m) (md_FileAttributes m) (md_HasFileAttributes m)
    (md_SecurityDescriptor m) (md_ReparseTag m) (md_ReparseData m) (md_CreationTime m) (md_LastAccessTime m)
    (md_LastWriteTime m) (md_HardLink m) (md_ShortName m).

Definition SetExtendedAttributes (name : gostring) (eas : list ExtendedAttribute) (d : Directory)
    : Directory * res unit :=
  let name := CleanPath name in
  if negb (path_exists d name) then (d, Err (Errorf "set_extended_attributes: path %q does not exist"))
  else match ValidateExtendedAttributes ToUpper eas with
       | Err e => (d, Err e)
       | Ok _ => (set_object name (with_eas eas) d, Ok tt)
       end.

(** ** Reading *)

(** [findBuiltin]. *)
Definition find_file (name : gostring) (d : Directory) : option starFile :=
  let cleaned := CleanPath name in
  match d_files d !! cleaned with
  | None => None
  | Some file => Some (match fr_File file with Some f => f | None => BytesFile cleaned (fr_Data file) end)
  end.

(** The record [getMetadataBuiltin] returns. *)
Record metadataRecord := MkMetadataRecord {
  mr_extended_attributes : list ExtendedAttribute;
  mr_creation_time : Z;
  mr_last_write_time : Z;
  mr_last_access_time : Z;
  mr_hard_link_id : Z;
  mr_write_order : Z;
  mr_file_attributes : Z;
  mr_has_file_attributes : bool
}.

Definition metadata_record (m : Metadata) (order : Z) : metadataRecord :=
  MkMetadataRecord (md_ExtendedAttributes m) (md_CreationTime m) (md_LastWriteTime m) (md_LastAccessTime m)
    (md_HardLink m) order (md_FileAttributes m) (md_HasFileAttributes m).

Definition get_metadata (name : gostring) (d : Directory) : res metadataRecord :=
  let name := CleanPath name in
  if negb (path_exists d name) then Err (Errorf "get_metadata: path %q does not exist")
  else Ok (metadata_record (metadata_of d name) (fr_WriteOrder (default zeroFileRecord (d_files d !! name)))).

Definition sortedFileNames (d : Directory) : Directory * list gostring :=
  match sortedFiles (d_caches d) with
  | Some names => (d, names)
  | None =>
      let names := sort_Strings (elements (dom (d_files d))) in
      let c := d_caches d in
      (with_caches (NameCaches (revision c) (pathNames c) (Some names) (fileValues c) (children c)
         (childrenRevision c) (fatShortIndex c) (fatShortRev c) (fatShortValid c)) d, names)
  end.

(** The attribute [files]. *)
Definition fileList (d : Directory) : Directory * list gostring :=
  match fileValues (d_caches d) with
  | Some names => (d, names)
  | None =>
      let '(d, names) := sortedFileNames d in
      let c := d_caches d in
      (with_caches (NameCaches (revision c) (pathNames c) (sortedFiles c) (Some names) (children c)
         (childrenRevision c) (fatShortIndex c) (fatShortRev c) (fatShortValid c)) d, names)
  end.

(** The parents of a file that [buildPathNames] adds, up to one that has a
    name already. *)
Fixpoint add_parents (fuel : nat) (name key : gostring) (names : gmap gostring gostring)
    : res (gmap gostring gostring) :=
  match fuel with
  | O => Err OutOfFuel
  | S fuel =>
      let end_ := LastIndexByte name slash in
      if end_ <=? 0 then Ok names
      else
        let name := take (Z.to_nat end_) name in
        let cut := LastIndexByte key slash in
        if cut <? 0 then Err Panic
        else
          let key := take (Z.to_nat cut) key in
          match names !! key with
          | Some _ => Ok names
          | None => add_parents fuel name key (<[key := name]> names)
          end
  end.

Fixpoint add_files (lower : bool) (files : list gostring) (fileKeys names : gmap gostring gostring)
    : res (gmap gostring gostring) :=
  match files with
  | [] => Ok names
  | name :: files =>
      let key := if lower then ToLower name else name in
      let clash := match fileKeys !! key with
                   | Some previous => negb (bool_decide (previous = name))
                   | None => false
                   end in
      if clash then Err (Errorf "path_names: ambiguous lowercase files %q and %q")
      else
        let! names := add_parents (S (length name)) name key (<[key := name]> names) in
        add_files lower files (<[key := name]> fileKeys) names
  end.

Definition add_dirs (lower : bool) (dirs : list gostring) (names : gmap gostring gostring)
    : gmap gostring gostring :=
  foldl (fun names name =>
           let key := if lower then ToLower name else name in
           match names !! key with Some _ => names | None => <[key := name]> names end) names dirs.

(** The dictionary, in the order of its keys. *)
Definition buildPathNames (lower includeEmpty : bool) (files : list gostring) (dirs : gset gostring)
    : res (list (gostring * gostring)) :=
  let! names := add_files lower files ∅ {[root := root]} in
  let dirs := sort_Strings (if includeEmpty then elements dirs else []) in
  let names := add_dirs lower dirs names in
  Ok ((fun key => (key, default [] (names !! key))) <$> sort_Strings (elements (dom names))).

Definition path_names_slot (lower includeEmpty : bool) : nat :=
  (if lower then 1 else 0) + (if includeEmpty then 2 else 0).

(** [pathNamesBuiltin]. *)
Definition path_names (lower includeEmpty : bool) (d : Directory) : Directory * res (list (gostring * gostring)) :=
  let slot := path_names_slot lower includeEmpty in
  match pathNames (d_caches d) !! slot with
  | Some (Some snapshot) => (d, Ok snapshot)
  | _ =>
      let '(d, files) := sortedFileNames d in
      match buildPathNames lower includeEmpty files (d_dirs d) with
      | Err e => (d, Err e)
      | Ok snapshot =>
          let c := d_caches d in
          (with_caches (NameCaches (revision c) (<[slot := Some snapshot]> (pathNames c)) (sortedFiles c)
             (fileValues c) (children c) (childrenRevision c) (fatShortIndex c) (fatShortRev c) (fatShortValid c)) d,
           Ok snapshot)
      end
  end.

(** ** Short paths *)

(** The order of [sort.Slice] on the names of one directory. *)
Definition base_le (a b : gostring) : Prop := str_le (ToLower (path_Base a)) (ToLower (path_Base b)).

#[local] Instance base_le_dec a b : Decision (base_le a b).
Proof. unfold base_le. apply _. Defined.

(** The paths of a FAT volume: variants of case are one path. *)
Definition fat_paths (dirs : gset gostring) (files : list gostring) : gset gostring :=
  list_to_set (ToLower <$> filter (fun p => p <> root) (elements dirs)) ∪ list_to_set (ToLower <$> files).

(** The names of the directory [parent], in the order they get their
    aliases. *)
Definition fat_siblings (paths : gset gostring) (parent : gostring) : list gostring :=
  merge_sort base_le (filter (fun p => path_Dir p = parent) (elements paths)).

Definition index_directory (paths : gset gostring) (index : gmap gostring gostring) (parent : gostring)
    : res (gmap gostring gostring) :=
  let names := fat_siblings paths parent in
  let! assigned := assignShortNames ToUpper EqualFold names in
  Ok (foldl (fun index na => <[ToLower na.1 := na.2]> index) index (zip names assigned)).

Fixpoint index_directories (paths : gset gostring) (parents : list gostring) (index : gmap gostring gostring)
    : res (gmap gostring gostring) :=
  match parents with
  | [] => Ok index
  | parent :: parents =>
      let! index := index_directory paths index parent in
      index_directories paths parents index
  end.

Definition buildFATShortIndex (dirs : gset gostring) (files : list gostring) : res (gmap gostring gostring) :=
  let paths := fat_paths dirs files in
  index_directories paths (elements (list_to_set (path_Dir <$> elements paths) : gset gostring)) ∅.

Definition currentFATShortIndex (d : Directory) : Directory * res (gmap gostring gostring) :=
  let c := d_caches d in
  if fatShortValid c && (fatShortRev c =? revision c) then (d, Ok (fatShortIndex c))
  else
    match buildFATShortIndex (d_dirs d) (elements (dom (d_files d))) with
    | Err e => (d, Err e)
    | Ok index =>
        (with_caches (NameCaches (revision c) (pathNames c) (sortedFiles c) (fileValues c) (children c)
           (childrenRevision c) index (revision c) true) d, Ok index)
    end.

(** The loop over the components of a long path. *)
Fixpoint short_components (index : gmap gostring gostring) (parent : gostring) (found : bool) (parts : list gostring)
    : res (list gostring) :=
  match parts with
  | [] => Ok []
  | part :: parts =>
      let parent := CleanPath (path_Clean (parent ++ match part with [] => [] | _ => slash :: part end)) in
      match index !! ToLower parent with
      | Some short =>
          if found then
            let! rest := short_components index parent true parts in Ok (short :: rest)
          else
            let! short := defaultFATShortName ToUpper EqualFold part in
            let! rest := short_components index parent false parts in Ok (short :: rest)
      | None =>
          let! short := defaultFATShortName ToUpper EqualFold part in
          let! rest := short_components index parent false parts in Ok (short :: rest)
      end
  end.

Definition drive_split (name : gostring) : gostring * gostring :=
  match name with
  | a :: b :: c :: _ =>
      if (b =? 58) && ((c =? backslash) || (c =? slash)) then (take 2 name, drop 2 name) else ([], name)
  | _ => ([], name)
  end.

Definition fatShortPath (name : gostring) (d : Directory) : Directory * res gostring :=
  let '(drive, name) := drive_split name in
  let cleaned := CleanPath name in
  match currentFATShortIndex d with
  | (d, Err e) => (d, Err e)
  | (d, Ok index) =>
      let longParts := split_on slash (match cleaned with c :: rest => if c =? slash then rest else cleaned | [] => [] end) in
      match short_components index root true longParts with
      | Err e => (d, Err e)
      | Ok parts =>
          let '(prefix, separator) :=
            match drive with [] => ([slash], slash) | _ => (drive ++ [backslash], backslash) end in
          (d, Ok (prefix ++ join_with separator parts))
      end
  end.

(** [Clone]: the caches start empty. *)
Definition Clone (d : Directory) : Directory :=
  MkDirectory (d_dirs d) (d_files d) (d_attributes d) (d_metadata d) (d_links d) (d_nextWriteOrder d)
    (NameCaches (revision (d_caches d)) noPathNames None None None 0 ∅ 0 false).
End directory.

Arguments starFile : clear implicits.
Arguments Metadata : clear implicits.
Arguments writeValue : clear implicits.
Arguments FileRecord : clear implicits.
Arguments Directory : clear implicits.
