(* ===== verification/DirectoryCaches.v ===== *)
(** The caches of the namespace of a directory tree are transparent.

    A tree keeps the sorted names of every directory, the sorted list of the
    files, the dictionaries of path names and the index of FAT aliases, and
    maintains or drops them as the namespace changes.  [names_inv] says that
    every cache that would be used holds what a computation from the current
    set of directories and files gives; the operations on the caches keep
    it. *)

From S2P Require Import Prelude GoLib GoPath FatNames ExtAttr Directory.
From stdpp Require Import base numbers list gmap sorting strings.

Open Scope Z_scope.
Open Scope trex_scope.

(** ** Children *)

(** The entries of the directory [p] among the paths [s]. *)
Definition kids (s : gset gostring) (p : gostring) : list gostring :=
  sort_Strings (elements (filter (fun q => q <> root /\ path_Dir q = p) s)).

Lemma kids_unique l s p :
  StronglySorted str_le l -> NoDup l -> (forall q, q ∈ l <-> q ∈ s /\ q <> root /\ path_Dir q = p) -> kids s p = l.
Proof.
  intros Hs Hnd Hl. apply sort_Strings_unique; [done|]. apply NoDup_Permutation; [done|apply NoDup_elements|].
  intros q. rewrite Hl, elem_of_elements, elem_of_filter. naive_solver.
Qed.

Lemma elem_of_kids s p q : q ∈ kids s p <-> q ∈ s /\ q <> root /\ path_Dir q = p.
Proof. unfold kids. rewrite sort_Strings_perm, elem_of_elements, elem_of_filter. naive_solver. Qed.

Lemma kids_nodup s p : NoDup (kids s p).
Proof. unfold kids. rewrite sort_Strings_perm. apply NoDup_elements. Qed.

Lemma kids_sorted s p : StronglySorted str_le (kids s p).
Proof. apply sort_Strings_sorted. Qed.

Lemma kids_ext s s' p :
  (forall q, q <> root -> path_Dir q = p -> (q ∈ s <-> q ∈ s')) -> kids s p = kids s' p.
Proof.
  intros H. symmetry. apply kids_unique; [apply kids_sorted|apply kids_nodup|].
  intros q. rewrite elem_of_kids. naive_solver.
Qed.

Lemma sorted_app_inv a b : StronglySorted str_le (a ++ b) -> StronglySorted str_le a /\ StronglySorted str_le b.
Proof. intros H%StronglySorted_app. naive_solver. Qed.

(** The insertion point splits a sorted list without duplicates. *)
Lemma search_split names x :
  StronglySorted str_le names -> NoDup names ->
  exists a b, Z.to_nat (sort_SearchStrings names x) = length a /\ x ∉ a /\ x ∉ b /\
    (names = a ++ b \/ names = a ++ x :: b) /\ Forall (fun y => str_le y x) a /\ Forall (str_le x) b.
Proof.
  intros Hs Hnd. destruct (SearchStrings_spec names x Hs) as (a & b & -> & Hi & Ha & Hb).
  assert (Hxa : x ∉ a) by (intros Hin; rewrite Forall_forall in Ha; apply (Ha x Hin), str_le_refl).
  assert (Ha' : Forall (fun y => str_le y x) a).
  { eapply Forall_impl; [exact Ha|]. intros y Hy. by destruct (str_le_total y x). }
  rewrite Hi. unfold zlen. rewrite Nat2Z.id. destruct b as [|y b].
  { exists a, []. split; [done|]. split; [done|]. split; [apply not_elem_of_nil|]. split; [by left|done]. }
  destruct (decide (y = x)) as [->|Hne].
  - exists a, b. apply NoDup_app in Hnd as (_ & _ & Hnd). apply NoDup_cons in Hnd as [Hxb _].
    apply Forall_cons in Hb as [_ Hb]. split; [done|]. split; [done|]. split; [done|]. split; [by right|done].
  - exists a, (y :: b). split; [done|]. split; [done|]. split; [|split; [by left|done]].
    apply sorted_app_inv in Hs as [_ Hs]. apply StronglySorted_inv in Hs as [_ Hy].
    intros [->|Hin]%elem_of_cons; [done|]. rewrite Forall_forall in Hy. specialize (Hy x Hin).
    apply Forall_cons in Hb as [Hxy _]. apply Hne. by apply (anti_symm str_le).
Qed.

Lemma sorted_with name a b mid :
  mid = [] \/ mid = [name] -> StronglySorted str_le (a ++ b) ->
  Forall (fun x => str_le x name) a -> Forall (str_le name) b -> StronglySorted str_le (a ++ mid ++ b).
Proof.
  intros Hm Hab Ha Hb. apply StronglySorted_app in Hab as (Hab & Hsa & Hsb). rewrite Forall_forall in Ha, Hb.
  apply StronglySorted_app. destruct Hm as [->| ->]; [done|]. split.
  - intros x y Hx [->|Hy]%elem_of_cons; [by apply Ha|by apply Hab].
  - split; [done|]. constructor; [done|]. by apply Forall_forall.
Qed.

Lemma ordered_without name a b :
  StronglySorted str_le (a ++ name :: b) -> NoDup (a ++ name :: b) -> StronglySorted str_le (a ++ b) /\ NoDup (a ++ b).
Proof.
  intros Hso Hnd. split.
  - apply StronglySorted_app in Hso as (H1 & H2 & H3). apply StronglySorted_inv in H3 as [H3 _].
    apply StronglySorted_app. split; [|done]. intros x y Hx Hy. apply H1; [done|by right].
  - apply NoDup_app in Hnd as (H1 & H2 & [_ H3]%NoDup_cons). apply NoDup_app. split; [done|]. split; [|done].
    intros x Hx Hy. apply (H2 x Hx). by right.
Qed.

(** The list of a directory after an entry appeared or went away. *)
Lemma names_changed_kids s s' name present :
  name <> root -> (forall q, q ∈ s' <-> if present : bool then q = name \/ q ∈ s else q <> name /\ q ∈ s) ->
  names_changed (kids s (path_Dir name)) name present = kids s' (path_Dir name).
Proof.
  intros Hr Hs'. symmetry. pose proof (kids_sorted s (path_Dir name)) as Hso. pose proof (kids_nodup s (path_Dir name)) as Hnd.
  destruct (search_split _ name Hso Hnd) as (a & b & Hi & Hxa & Hxb & Hcase & Ha & Hb).
  unfold names_changed. rewrite Hi.
  assert (Hab : StronglySorted str_le (a ++ b) /\ NoDup (a ++ b)).
  { destruct Hcase as [He|He]; rewrite He in Hso, Hnd; [done|]. by apply (ordered_without name). }
  assert (Hmem : forall q, q ∈ a ++ b <-> q <> name /\ q ∈ s /\ q <> root /\ path_Dir q = path_Dir name).
  { intros q. pose proof (elem_of_kids s (path_Dir name) q) as Hk. destruct Hcase as [He|He]; rewrite He in Hk.
    - rewrite Hk. split; [|naive_solver]. intros Hq. split; [|done]. intros ->. apply Hk, elem_of_app in Hq. naive_solver.
    - rewrite elem_of_app, elem_of_cons in Hk. rewrite elem_of_app. split; [|naive_solver].
      intros Hq. split; [intros ->; naive_solver|]. apply Hk. naive_solver. }
  assert (Hres : exists mid, (mid = [] \/ mid = [name]) /\ (name ∈ mid <-> present = true \/ name ∈ s /\ present = true) /\
    (if present && negb (bool_decide (kids s (path_Dir name) !! length a = Some name))
     then take (length a) (kids s (path_Dir name)) ++ name :: drop (length a) (kids s (path_Dir name))
     else if negb present && bool_decide (kids s (path_Dir name) !! length a = Some name)
     then take (length a) (kids s (path_Dir name)) ++ drop (S (length a)) (kids s (path_Dir name))
     else kids s (path_Dir name)) = a ++ mid ++ b).
  { destruct Hcase as [He|He]; rewrite He.
    - rewrite lookup_app_r, Nat.sub_diag by lia.
      rewrite bool_decide_eq_false_2 by (intros Hl; apply Hxb; by eapply list_elem_of_lookup_2).
      rewrite take_app_length, drop_app_length. rewrite andb_false_r, andb_true_r.
      destruct present; [exists [name]|exists []]; (split; [naive_solver|]); split; try done; set_solver.
    - rewrite lookup_app_r, Nat.sub_diag by lia. rewrite bool_decide_eq_true_2 by done.
      rewrite take_app_length. replace (S (length a)) with (length a + 1)%nat by lia.
      rewrite <- drop_drop, drop_app_length. rewrite andb_false_r, andb_true_r.
      destruct present; [exists [name]|exists []]; (split; [naive_solver|]); split; try done; set_solver. }
  clear Hi Hcase. destruct Hres as (mid & Hmid & Hin & ->). apply kids_unique.
  - by apply (sorted_with name); [|apply Hab|..].
  - destruct Hab as [_ Hab]. destruct Hmid as [->| ->]; [done|]. rewrite Permutation_app_comm. simpl.
    constructor; [rewrite elem_of_app; naive_solver|]. by rewrite Permutation_app_comm.
  - intros q. rewrite !elem_of_app. pose proof (Hmem q) as Hq. rewrite elem_of_app in Hq. rewrite Hs'.
    assert (Hmq : q ∈ mid <-> q = name /\ name ∈ mid) by (destruct Hmid as [->| ->]; set_solver).
    destruct (decide (q = name)) as [->|Hne].
    + assert (Hno : ~ (name ∈ a \/ name ∈ b)) by tauto. destruct present; [tauto|].
      split; [|tauto]. intros [?|[[[=]|[_ [=]]]%Hin|?]]; tauto.
    + destruct present; tauto.
Qed.

Lemma kids_unchanged s s' name present p :
  p <> path_Dir name \/ name = root ->
  (forall q, q ∈ s' <-> if present : bool then q = name \/ q ∈ s else q <> name /\ q ∈ s) ->
  kids s' p = kids s p.
Proof.
  intros Hp Hs'. apply kids_ext. intros q Hq Hd. rewrite Hs'.
  assert (q <> name) by naive_solver. destruct present; tauto.
Qed.

Lemma names_in_sorted (ch : gmap gostring (list gostring)) p : names_in (sort_Strings <$> ch) p = sort_Strings (names_in ch p).
Proof. unfold names_in. rewrite lookup_fmap. by destruct (ch !! p). Qed.

Lemma names_in_collect (ch : gmap gostring (list gostring)) paths p :
  names_in (foldl (fun ch q => <[path_Dir q := names_in ch (path_Dir q) ++ [q]]> ch) ch paths) p =
  names_in ch p ++ filter (fun q => path_Dir q = p) paths.
Proof.
  revert ch. induction paths as [|q paths IH]; intros ch; [by rewrite app_nil_r|]. cbn [foldl]. rewrite IH.
  rewrite filter_cons. unfold names_in at 1. destruct (decide (path_Dir q = p)) as [->|Hne].
  - rewrite lookup_insert_eq. simpl. by rewrite <- app_assoc.
  - by rewrite lookup_insert_ne by done.
Qed.

Section caches.
Context {F : Type}.
Context (ToLower ToUpper : gostring -> gostring) (EqualFold : gostring -> gostring -> bool).

(** The paths of a tree. *)
Definition paths_of (d : Directory F) : gset gostring := d_dirs d ∪ dom (d_files d).

Lemma build_children_kids (d : Directory F) p :
  root ∈ d_dirs d -> names_in (build_children d) p = kids (paths_of d) p.
Proof.
  intros Hroot. unfold build_children. rewrite names_in_sorted, names_in_collect. unfold names_in.
  rewrite lookup_empty. simpl. apply sort_Strings_Permutation. unfold child_paths, paths_of.
  apply NoDup_Permutation; [|apply NoDup_elements|].
  - apply NoDup_filter, NoDup_app. split; [apply NoDup_filter, NoDup_elements|].
    split; [|apply NoDup_filter, NoDup_elements]. intros q [_ Hq]%list_elem_of_filter.
    rewrite list_elem_of_filter. rewrite elem_of_elements in Hq. tauto.
  - intros q. rewrite list_elem_of_filter, elem_of_app, !list_elem_of_filter, !elem_of_elements.
    rewrite elem_of_filter, elem_of_union. split.
    + intros [Hd [[Hr Hq]|[Hn Hq]]]; [tauto|]. split; [|tauto]. split; [|done]. intros ->. tauto.
    + intros [[Hr Hd] Hq]. split; [done|]. destruct (decide (q ∈ d_dirs d)); tauto.
Qed.

(** ** The invariant of the caches *)

Record names_inv (dirs files : gset gostring) (c : nameCaches) : Prop := {
  ci_slots : length (pathNames c) = 4%nat;
  ci_names lower empty x : pathNames c !! path_names_slot lower empty = Some (Some x) ->
    buildPathNames ToLower lower empty (sort_Strings (elements files)) dirs = Ok x;
  ci_sorted l : sortedFiles c = Some l -> l = sort_Strings (elements files);
  ci_values l : fileValues c = Some l -> l = sort_Strings (elements files);
  ci_children ch : children c = Some ch -> childrenRevision c <= revision c /\
    (childrenRevision c = revision c -> forall p, names_in ch p = kids (dirs ∪ files) p);
  ci_fat : fatShortValid c = true -> fatShortRev c <= revision c /\
    (fatShortRev c = revision c ->
      buildFATShortIndex ToLower ToUpper EqualFold dirs (elements files) = Ok (fatShortIndex c))
}.

Lemma slot_none lower empty : noPathNames !! path_names_slot lower empty = Some None.
Proof. by destruct lower, empty. Qed.

Lemma names_inv_empty dirs files r : names_inv dirs files (NameCaches r noPathNames None None None 0 ∅ 0 false).
Proof. split; try done. intros lower empty x. simpl. by rewrite slot_none. Qed.

(** An entry of the namespace appears or goes away. *)
Lemma namespaceEntryChanged_inv dirs files dirs' files' name present c :
  names_inv dirs files c ->
  (forall q, q ∈ dirs' ∪ files' <-> if present : bool then q = name \/ q ∈ dirs ∪ files else q <> name /\ q ∈ dirs ∪ files) ->
  names_inv dirs' files' (namespaceEntryChanged name present c).
Proof.
  intros [Hsl Hn Hso Hv Hc Hf] Hp. unfold namespaceEntryChanged, invalidateNamespace.
  set (current := match children c with Some _ => childrenRevision c =? revision c | None => false end).
  assert (Hfat : fatShortValid c = true -> fatShortRev c < revision c + 1) by (intros Hf1%Hf; lia).
  assert (Hch : forall ch', (match children c with
            | Some ch => if current && negb (bool_decide (name = root))
                then Some (<[path_Dir name := names_changed (names_in ch (path_Dir name)) name present]> ch)
                else children c
            | None => None end) = Some ch' ->
          childrenRevision c <= revision c /\
          (current = true -> forall p, names_in ch' p = kids (dirs' ∪ files') p)).
  { intros ch'. unfold current. destruct (children c) as [ch|] eqn:Ech; [|done].
    destruct (Hc ch eq_refl) as [Hle Hk]. intros Heq. split; [done|]. intros Hcur. rewrite Hcur in Heq. simpl in Heq.
    apply Z.eqb_eq in Hcur. specialize (Hk Hcur). destruct (bool_decide_reflect (name = root)) as [->|Hr]; simpl in Heq.
    - injection Heq as <-. intros p. rewrite Hk. symmetry. eapply kids_unchanged; [by right|done].
    - injection Heq as <-. intros p. unfold names_in at 1. destruct (decide (path_Dir name = p)) as [<-|Hne].
      + rewrite lookup_insert_eq. simpl. rewrite Hk. by apply names_changed_kids.
      + rewrite lookup_insert_ne by done. fold (names_in ch p). rewrite Hk. symmetry.
        eapply kids_unchanged; [by left|done]. }
  clearbody current. set (children' := match children c with Some _ => _ | None => _ end) in *. clearbody children'.
  destruct current; (split; simpl; [done|intros lower empty x; by rewrite slot_none|done|done| |]).
  - intros ch' Hch'. destruct (Hch ch' Hch') as [_ Hk]. split; [lia|]. intros _. by apply Hk.
  - intros Hv'. specialize (Hfat Hv'). split; [lia|]. lia.
  - intros ch' Hch'. destruct (Hch ch' Hch') as [Hle _]. split; [lia|]. lia.
  - intros Hv'. specialize (Hfat Hv'). split; [lia|]. lia.
Qed.

Lemma with_fat_invalid_inv dirs files c : names_inv dirs files c -> names_inv dirs files (with_fat_invalid c).
Proof. intros [Hsl Hn Hso Hv Hc Hf]. by split. Qed.
End caches.
