(* ===== verification/DirectoryLinks.v ===== *)
(** The index of hard-link identities of a directory tree.

    [link_inv] ties the reference counts, the lists of aliases and the next
    candidate identity to the metadata of the paths: the aliases of an
    identity are the paths whose metadata has it, its count is their number,
    and every identity below the next candidate is in use.  Under it an
    allocation returns the least identity that no path has, and an update of
    a shared object reaches every alias. *)

From S2P Require Import Prelude GoLib GoPath FatNames ExtAttr Directory.
From stdpp Require Import base numbers list gmap sorting strings.

Open Scope Z_scope.
Open Scope trex_scope.

Lemma elem_of_remove_first x y l : NoDup l -> (y ∈ remove_first x l <-> y ∈ l /\ y <> x).
Proof.
  induction 1 as [|z l Hz Hnd IH]; [set_solver|]. cbn [remove_first].
  destruct (decide (z = x)) as [->|Hne]; [rewrite elem_of_cons; naive_solver|].
  rewrite !elem_of_cons, IH. naive_solver.
Qed.

Lemma NoDup_remove_first x l : NoDup l -> NoDup (remove_first x l).
Proof.
  induction 1 as [|z l Hz Hnd IH]; [constructor|]. cbn [remove_first]. destruct (decide (z = x)); [done|].
  constructor; [|done]. by intros [? _]%elem_of_remove_first.
Qed.

Lemma sorted_remove_first x l : StronglySorted str_le l -> StronglySorted str_le (remove_first x l).
Proof.
  assert (Hsub : forall P l, Forall P l -> Forall P (remove_first x l)).
  { intros P k. induction 1; cbn [remove_first]; [constructor|]. destruct (decide _); [done|by constructor]. }
  induction 1 as [|y l Hs IH Hy]; [constructor|]. cbn [remove_first]. destruct (decide (y = x)); [done|].
  constructor; [done|]. by apply Hsub.
Qed.

Lemma zlen_remove_first x l : x ∈ l -> zlen (remove_first x l) = zlen l - 1.
Proof.
  induction l as [|z l IH]; [set_solver|]. cbn [remove_first]. rewrite elem_of_cons, zlen_cons.
  destruct (decide (z = x)); [lia|]. intros [->|Hx]; [done|]. rewrite zlen_cons, IH by done. lia.
Qed.

Lemma size_list_to_set_le (l : list Z) : (size (list_to_set l : gset Z) <= length l)%nat.
Proof.
  induction l as [|x l IH]; [by rewrite list_to_set_nil, size_empty|].
  rewrite list_to_set_cons, size_union_alt, size_singleton, length_cons.
  pose proof (subseteq_size (list_to_set l ∖ {[x]} : gset Z) (list_to_set l) ltac:(set_solver)). lia.
Qed.

Section links.
Context {F : Type}.
Implicit Types (M : gmap gostring (Metadata F)) (l : linkIndex) (d : Directory F).

Definition link_id M (p : gostring) : Z := md_HardLink (default zeroMetadata (M !! p)).

Record link_inv M l : Prop := {
  li_nodup id : NoDup (names_of l id);
  li_names id p : id <> 0 -> (p ∈ names_of l id <-> link_id M p = id);
  li_zero : names_of l 0 = [];
  li_refs id : refs_of l id = zlen (names_of l id);
  li_dom id : id ∈ dom (hardLinkRefs l) -> refs_of l id <> 0;
  li_range p : 0 <= link_id M p < 2 ^ 64;
  li_next : 0 <= nextHardLink l /\ forall i, 1 <= i < nextHardLink l -> refs_of l i <> 0
}.

Lemma link_inv_empty : link_inv ∅ (LinkIndex ∅ ∅ 0).
Proof.
  split; unfold names_of, refs_of, link_id; simpl.
  - intros id. rewrite lookup_empty. constructor.
  - intros id p Hid. rewrite !lookup_empty. simpl. split; [set_solver|congruence].
  - by rewrite lookup_empty.
  - intros id. by rewrite !lookup_empty.
  - intros id. rewrite dom_empty. set_solver.
  - intros p. rewrite lookup_empty. simpl. lia.
  - split; [lia|]. intros. lia.
Qed.

(** ** Counting *)

(** The aliases of an identity are among the paths with metadata. *)
Lemma link_id_dom M p : link_id M p <> 0 -> p ∈ dom M.
Proof. unfold link_id. intros Hid. apply elem_of_dom. by destruct (M !! p). Qed.

Lemma refs_bound M l id : link_inv M l -> id <> 0 -> 0 <= refs_of l id <= Z.of_nat (size M).
Proof.
  intros Hi Hid. rewrite (li_refs _ _ Hi). split; [apply zlen_nonneg|]. unfold zlen. rewrite <- size_dom.
  rewrite <- (size_list_to_set (C := gset gostring) (names_of l id)) by apply (li_nodup _ _ Hi).
  apply inj_le, subseteq_size. intros p Hp%elem_of_list_to_set. apply (li_names _ _ Hi) in Hp; [|done].
  apply link_id_dom. congruence.
Qed.

Lemma refs_used M l id : link_inv M l -> refs_of l id <> 0 <-> id <> 0 /\ exists p, link_id M p = id.
Proof.
  intros Hi. rewrite (li_refs _ _ Hi). destruct (decide (id = 0)) as [->|Hid].
  { rewrite (li_zero _ _ Hi). cbv [zlen]. simpl. naive_solver. }
  split.
  - intros Hn. split; [done|]. destruct (names_of l id) as [|p ps] eqn:He; [done|]. exists p.
    apply (li_names _ _ Hi); [done|]. rewrite He. left.
  - intros [_ [p Hp]]. apply (li_names _ _ Hi) in Hp; [|done]. destruct (names_of l id) as [|q qs]; [set_solver|].
    rewrite zlen_cons. pose proof (zlen_nonneg qs). lia.
Qed.

(** ** Changing the identity of a path *)

Lemma relink_names p old new l id :
  old <> new ->
  names_of (relink p old new l) id =
    if id =? 0 then names_of l 0
    else if id =? old then remove_first p (names_of l old)
    else if id =? new then names_of l new ++ [p] else names_of l id.
Proof.
  intros Hne. unfold relink.
  destruct (if old =? 0 then (hardLinkRefs l, nextHardLink l) else _) as [refs next].
  unfold names_of at 1. cbn [hardLinkNames].
  set (names := if old =? 0 then hardLinkNames l else _).
  assert (Hnames : forall i, default [] (names !! i) =
    if (i =? old) && negb (old =? 0) then remove_first p (names_of l old) else names_of l i).
  { intros i. unfold names. destruct (Z.eqb_spec old 0) as [->|H0]; [by rewrite andb_false_r|]. simpl negb. rewrite andb_true_r.
    destruct (bool_decide_reflect (remove_first p (names_of l old) = [])) as [Hr|Hr]; destruct (Z.eqb_spec i old) as [->|Hi].
    - by rewrite lookup_delete_eq, Hr.
    - by rewrite lookup_delete_ne by done.
    - by rewrite lookup_insert_eq.
    - by rewrite lookup_insert_ne by done. }
  clearbody names. destruct (Z.eqb_spec new 0) as [->|Hn0].
  - rewrite Hnames. destruct (Z.eqb_spec id 0) as [->|Hid].
    + destruct (Z.eqb_spec 0 old) as [<-|]; [done|]. done.
    + destruct (Z.eqb_spec id old) as [->|]; [by replace (old =? 0) with false by lia|done].
  - destruct (Z.eqb_spec new id) as [<-|Hid].
    + rewrite lookup_insert_eq. simpl. rewrite Hnames. replace (new =? 0) with false by lia.
      replace (new =? old) with false by lia. by rewrite Z.eqb_refl.
    + rewrite lookup_insert_ne, Hnames by done. destruct (Z.eqb_spec id 0) as [->|Hid0].
      * destruct (Z.eqb_spec 0 old) as [<-|]; done.
      * replace (id =? new) with false by lia. destruct (Z.eqb_spec id old) as [->|]; [|done].
        by replace (old =? 0) with false by lia.
Qed.

Lemma relink_refs p old new l id :
  old <> new -> (old <> 0 -> 1 <= refs_of l old < 2 ^ 64) -> (new <> 0 -> 0 <= refs_of l new < 2 ^ 64 - 1) ->
  (forall i, i ∈ dom (hardLinkRefs l) -> refs_of l i <> 0) ->
  refs_of (relink p old new l) id =
    (if id =? 0 then refs_of l 0
     else if id =? old then refs_of l old - 1
     else if id =? new then refs_of l new + 1 else refs_of l id) /\
  (id ∈ dom (hardLinkRefs (relink p old new l)) -> refs_of (relink p old new l) id <> 0).
Proof.
  intros Hne Hold Hnew Hdom. unfold relink.
  destruct (if old =? 0 then (hardLinkRefs l, nextHardLink l) else _) as [refs next] eqn:Hr.
  assert (Hrefs : forall i, default 0 (refs !! i) =
      (if (i =? old) && negb (old =? 0) then refs_of l old - 1 else refs_of l i) /\
      (i ∈ dom refs -> default 0 (refs !! i) <> 0)).
  { intros i. destruct (Z.eqb_spec old 0) as [->|H0]; [injection Hr as <- _; rewrite andb_false_r; split; [done|apply Hdom]|].
    specialize (Hold H0). simpl negb. rewrite andb_true_r. unfold u64 in Hr. rewrite Z.mod_small in Hr by lia.
    destruct (Z.eqb_spec (refs_of l old - 1) 0) as [Hz|Hz]; injection Hr as <- _;
      destruct (Z.eqb_spec i old) as [->|Hi].
    - rewrite lookup_delete_eq. simpl. rewrite dom_delete. split; [lia|set_solver].
    - rewrite lookup_delete_ne, dom_delete by done. split; [done|]. intros Hin. apply Hdom. set_solver.
    - rewrite lookup_insert_eq. simpl. split; [done|]. lia.
    - rewrite lookup_insert_ne, dom_insert by done. split; [done|]. intros Hin. apply Hdom. set_solver. }
  clear Hr Hdom. set (refs' := if new =? 0 then refs else _).
  enough (Hfin : default 0 (refs' !! id) =
      (if id =? 0 then refs_of l 0 else if id =? old then refs_of l old - 1
       else if id =? new then refs_of l new + 1 else refs_of l id) /\
      (id ∈ dom refs' -> default 0 (refs' !! id) <> 0)) by exact Hfin.
  unfold refs'. destruct (Hrefs id) as [H1 H2]. destruct (Z.eqb_spec new 0) as [->|Hn0].
  - split; [rewrite H1|exact H2]. destruct (Z.eqb_spec id 0) as [->|Hid].
    + destruct (Z.eqb_spec 0 old) as [<-|]; done.
    + destruct (Z.eqb_spec id old) as [->|]; [by replace (old =? 0) with false by lia|done].
  - specialize (Hnew Hn0). destruct (Z.eqb_spec new id) as [<-|Hid].
    + rewrite lookup_insert_eq. cbn [default id]. rewrite H1.
      replace (new =? old) with false by lia. replace (new =? 0) with false by lia. rewrite Z.eqb_refl.
      cbn [andb]. unfold u64. rewrite Z.mod_small by lia. split; [done|]. lia.
    + rewrite lookup_insert_ne, H1, dom_insert by done. split.
      * destruct (Z.eqb_spec id 0) as [->|Hid0]; [destruct (Z.eqb_spec 0 old) as [<-|]; done|].
        replace (id =? new) with false by lia. destruct (Z.eqb_spec id old) as [->|]; [|done].
        by replace (old =? 0) with false by lia.
      * rewrite <- H1. intros Hin. apply H2. set_solver.
Qed.
Lemma relink_next p old new l :
  0 <= old -> 0 <= nextHardLink l -> (old <> 0 -> 1 <= refs_of l old < 2 ^ 64) ->
  nextHardLink (relink p old new l) =
    if (1 <=? old) && (refs_of l old =? 1) then Z.min old (nextHardLink l) else nextHardLink l.
Proof.
  intros Ho Hn Hold. unfold relink. destruct (Z.eqb_spec old 0) as [->|H0]; [done|].
  specialize (Hold H0). replace (1 <=? old) with true by lia. unfold u64. rewrite Z.mod_small by lia. cbn [andb].
  destruct (Z.eqb_spec (refs_of l old) 1) as [->|H1]; [|by replace (refs_of l old - 1 =? 0) with false by lia].
  change (1 - 1 =? 0) with true. cbn. destruct (Z.ltb_spec old (nextHardLink l)); lia.
Qed.

Lemma link_id_insert M p m q : link_id (<[p := m]> M) q = if decide (q = p) then md_HardLink m else link_id M q.
Proof.
  unfold link_id. destruct (decide (q = p)) as [->|]; [by rewrite lookup_insert_eq|by rewrite lookup_insert_ne].
Qed.

(** The identities are all that the index depends on. *)
Lemma link_inv_ext M M' l : (forall p, link_id M' p = link_id M p) -> link_inv M l -> link_inv M' l.
Proof.
  intros He [H1 H2 H3 H4 H5 H6 H7]. split; try done.
  - intros id p Hid. by rewrite He, <- H2.
  - intros p. by rewrite He.
Qed.

Lemma link_id_delete M p q : link_id M p = 0 -> link_id (delete p M) q = link_id M q.
Proof.
  unfold link_id. intros H0. destruct (decide (q = p)) as [->|]; [by rewrite lookup_delete_eq|by rewrite lookup_delete_ne].
Qed.

(** The counts of the identities that change. *)
Lemma refs_of_path M l p :
  link_inv M l -> Z.of_nat (size M) < 2 ^ 63 ->
  (link_id M p <> 0 -> 1 <= refs_of l (link_id M p) < 2 ^ 64) /\
  (forall id, id <> 0 -> 0 <= refs_of l id < 2 ^ 64 - 1).
Proof.
  intros Hi Hsz. split.
  - intros H0. pose proof (refs_bound M l _ Hi H0).
    assert (refs_of l (link_id M p) <> 0) by (apply (refs_used M); [done|]; split; [done|by exists p]). lia.
  - intros id Hid. pose proof (refs_bound M l id Hi Hid). lia.
Qed.

Lemma link_inv_set M l p m :
  link_inv M l -> Z.of_nat (size M) < 2 ^ 63 -> 0 <= md_HardLink m < 2 ^ 64 ->
  link_inv (<[p := m]> M)
    (if link_id M p =? md_HardLink m then l else relink p (link_id M p) (md_HardLink m) l).
Proof.
  intros Hi Hsz Hm. set (old := link_id M p). set (new := md_HardLink m).
  destruct (Z.eqb_spec old new) as [Heq|Hne].
  { eapply link_inv_ext; [|done]. intros q. rewrite link_id_insert. by destruct (decide (q = p)) as [->|]. }
  destruct (refs_of_path M l p Hi Hsz) as [Hold Hall]. fold old in Hold.
  pose proof (fun i => relink_names p old new l i Hne) as Hn.
  pose proof (fun i => relink_refs p old new l i Hne Hold (Hall new) (li_dom _ _ Hi)) as Hr.
  assert (Hin : old <> 0 -> p ∈ names_of l old) by (intros; by apply (li_names _ _ Hi)).
  assert (Hnin : new <> 0 -> p ∉ names_of l new) by (intros H0 Hp%(li_names _ _ Hi); done).
  pose proof (li_range _ _ Hi p) as Hrange. fold old in Hrange. destruct (li_next _ _ Hi) as [Hnx Hused].
  split.
  - intros id. rewrite Hn. pose proof (li_nodup _ _ Hi) as Hnd. destruct (Z.eqb_spec id 0); [done|].
    destruct (Z.eqb_spec id old); [by apply NoDup_remove_first|]. destruct (Z.eqb_spec id new) as [->|]; [|done].
    apply NoDup_app. split; [done|]. split; [set_solver|apply NoDup_singleton].
  - intros id q Hid. rewrite Hn, link_id_insert. replace (id =? 0) with false by lia.
    pose proof (li_names _ _ Hi) as Hnm. destruct (Z.eqb_spec id old) as [->|Hio].
    + rewrite elem_of_remove_first, Hnm by (try done; apply (li_nodup _ _ Hi)).
      destruct (decide (q = p)) as [->|]; naive_solver.
    + destruct (Z.eqb_spec id new) as [->|Hin'].
      * rewrite elem_of_app, list_elem_of_singleton, Hnm by done. destruct (decide (q = p)); naive_solver.
      * rewrite Hnm by done. destruct (decide (q = p)) as [->|]; [|done]. naive_solver.
  - by rewrite Hn, (li_zero _ _ Hi).
  - intros id. rewrite Hn. destruct (Hr id) as [-> _]. rewrite !(li_refs _ _ Hi).
    destruct (Z.eqb_spec id 0); [done|]. destruct (Z.eqb_spec id old) as [->|]; [rewrite zlen_remove_first by auto; done|].
    destruct (Z.eqb_spec id new); [by rewrite zlen_app|done].
  - intros id. apply Hr.
  - intros q. rewrite link_id_insert. destruct (decide (q = p)); [done|]. apply (li_range _ _ Hi).
  - rewrite relink_next by (done || lia). split; [destruct (_ && _); lia|]. intros i Hlt.
    destruct (Hr i) as [-> _]. replace (i =? 0) with false by lia. pose proof (Hall i ltac:(lia)).
    destruct (Z.eqb_spec i old) as [->|].
    + replace (1 <=? old) with true in Hlt by lia. cbn [andb] in Hlt. specialize (Hold ltac:(lia)).
      destruct (Z.eqb_spec (refs_of l old) 1); lia.
    + assert (i < nextHardLink l) by (destruct (_ && _) in Hlt; lia). specialize (Hused i ltac:(lia)).
      destruct (Z.eqb_spec i new) as [->|]; [|done]. lia.
Qed.

(** ** Allocating an identity *)

(** The identities in use. *)
Definition used_ids M : gset Z := list_to_set ((fun pm => md_HardLink pm.2) <$> map_to_list M).

Lemma elem_of_used_ids M id : id <> 0 -> id ∈ used_ids M <-> exists p, link_id M p = id.
Proof.
  intros Hid. unfold used_ids. rewrite elem_of_list_to_set, list_elem_of_fmap. split.
  - intros ([p m] & -> & Hin%elem_of_map_to_list). exists p. unfold link_id. by rewrite Hin.
  - intros [p Hp]. unfold link_id in Hp. destruct (M !! p) as [m|] eqn:Hm; [|done].
    exists (p, m). split; [done|]. by apply elem_of_map_to_list.
Qed.

Lemma used_ids_size M : (size (used_ids M) <= size M)%nat.
Proof.
  unfold used_ids. etrans; [apply size_list_to_set_le|]. rewrite length_fmap. by rewrite length_map_to_list.
Qed.

(** The least positive identity that no path has. *)
Definition fresh_id M : Z :=
  default 0 (head (filter (fun i => i ∉ used_ids M) (seqZ 1 (Z.of_nat (S (size M)))))).

Lemma fresh_id_unique M i :
  1 <= i <= Z.of_nat (S (size M)) -> i ∉ used_ids M -> (forall j, 1 <= j < i -> j ∈ used_ids M) -> fresh_id M = i.
Proof.
  intros Hi Hnot Hbelow. unfold fresh_id.
  replace (Z.of_nat (S (size M))) with ((i - 1) + (Z.of_nat (S (size M)) - (i - 1))) by lia.
  rewrite seqZ_app, filter_app by lia. replace (filter _ (seqZ 1 (i - 1))) with ([] : list Z).
  - rewrite seqZ_cons by lia. replace (1 + (i - 1)) with i by lia. by rewrite filter_cons_True by done.
  - symmetry. apply elem_of_nil_inv. intros j [Hn Hj%elem_of_seqZ]%list_elem_of_filter. apply Hn, Hbelow. lia.
Qed.

Lemma head_filter_seqZ (P : Z -> Prop) `{forall x, Decision (P x)} lo n i :
  head (filter P (seqZ lo (Z.of_nat n))) = Some i ->
  P i /\ lo <= i < lo + Z.of_nat n /\ forall j, lo <= j < i -> ~ P j.
Proof.
  revert lo. induction n as [|n IH]; intros lo; [done|]. rewrite seqZ_cons by lia.
  replace (Z.pred (Z.of_nat (S n))) with (Z.of_nat n) by lia. rewrite filter_cons. destruct (decide (P lo)) as [Hp|Hp].
  - intros [= <-]. split; [done|]. split; [lia|]. intros. lia.
  - intros (Hi & Hr & Hb)%IH. split; [done|]. split; [lia|]. intros j Hj.
    destruct (decide (j = lo)) as [->|]; [done|]. apply Hb. lia.
Qed.

Lemma fresh_id_spec M :
  1 <= fresh_id M <= Z.of_nat (S (size M)) /\ fresh_id M ∉ used_ids M /\
  forall j, 1 <= j < fresh_id M -> j ∈ used_ids M.
Proof.
  unfold fresh_id. destruct (head _) as [i|] eqn:Hh.
  - apply head_filter_seqZ in Hh as (Hi & Hr & Hb). cbn [default id]. split; [lia|]. split; [done|].
    intros j Hj. destruct (decide (j ∈ used_ids M)); [done|]. by destruct (Hb j).
  - exfalso. destruct (filter _ _) eqn:Hf; [|done]. pose proof (used_ids_size M).
    assert (Hs : size (list_to_set (seqZ 1 (Z.of_nat (S (size M)))) : gset Z) = S (size M))
      by (rewrite size_list_to_set by apply NoDup_seqZ; rewrite length_seqZ; lia).
    assert (S (size M) <= size (used_ids M))%nat; [|lia]. rewrite <- Hs. apply subseteq_size.
    intros j Hj%elem_of_list_to_set. destruct (decide (j ∈ used_ids M)) as [|Hn]; [done|].
    by apply (filter_nil_not_elem_of _ _ j Hf) in Hn.
Qed.

Lemma alloc_loop_fresh M l fuel id :
  link_inv M l -> 1 <= id -> (forall j, 1 <= j < id -> refs_of l j <> 0) -> (0 < fuel)%nat ->
  Z.of_nat (size M) < 2 ^ 63 -> Z.of_nat (size (hardLinkRefs l)) < id - 1 + Z.of_nat fuel ->
  alloc_loop fuel l id = Ok (fresh_id M).
Proof.
  intros Hi. revert id. induction fuel as [|fuel IH]; intros id Hid Hbelow Hf Hsz Hfuel; [lia|]. cbn [alloc_loop].
  assert (Hcount : forall n, 0 <= n -> (forall j, 1 <= j <= n -> refs_of l j <> 0) ->
    n <= Z.of_nat (size M) /\ n <= Z.of_nat (size (hardLinkRefs l))).
  { intros n Hn Hall. pose proof (used_ids_size M).
    assert (Hs : size (list_to_set (seqZ 1 n) : gset Z) = Z.to_nat n)
      by (rewrite size_list_to_set by apply NoDup_seqZ; by rewrite length_seqZ).
    assert (Z.to_nat n <= size (used_ids M))%nat.
    { rewrite <- Hs. apply subseteq_size. intros j Hj%elem_of_list_to_set%elem_of_seqZ.
      apply elem_of_used_ids; [lia|]. by apply (refs_used M l j Hi), Hall; lia. }
    assert (Z.to_nat n <= size (hardLinkRefs l))%nat; [|lia].
    rewrite <- Hs, <- size_dom. apply subseteq_size. intros j Hj%elem_of_list_to_set%elem_of_seqZ.
    specialize (Hall j ltac:(lia)). apply elem_of_dom. unfold refs_of in Hall. by destruct (hardLinkRefs l !! j). }
  destruct (Z.eqb_spec (refs_of l id) 0) as [Hz|Hz].
  - f_equal. symmetry. destruct (Hcount (id - 1)) as [Hc _]; [lia|intros; apply Hbelow; lia|].
    apply fresh_id_unique; [lia| |].
    + intros Hin%elem_of_used_ids; [|lia]. assert (refs_of l id <> 0) by (apply (refs_used M); [done|split; [lia|done]]). done.
    + intros j Hj. apply elem_of_used_ids; [lia|]. apply (refs_used M l j Hi). by apply Hbelow.
  - assert (Hb' : forall j, 1 <= j < id + 1 -> refs_of l j <> 0)
      by (intros j Hj; destruct (decide (j = id)) as [->|]; [done|apply Hbelow; lia]).
    destruct (Hcount id) as [Hc Hc']; [lia|intros; apply Hb'; lia|].
    unfold u64. rewrite Z.mod_small by lia. replace (id + 1 =? 0) with false by lia.
    apply IH; [lia|done|lia|done|lia].
Qed.

(** ** Updating shared objects *)

(** The update of the object at [p]: of the path itself and of every path
    with its identity. *)
Definition share (p : gostring) (f : Metadata F -> Metadata F) M : gmap gostring (Metadata F) :=
  let m := default zeroMetadata (M !! p) in
  <[p := f m]> (if md_HardLink m =? 0 then M
                else (fun o => if md_HardLink o =? md_HardLink m then f o else o) <$> M).

(** An update that keeps the identity, and that done twice is done once. *)
Record field_update (f : Metadata F -> Metadata F) : Prop := {
  fu_link m : md_HardLink (f m) = md_HardLink m;
  fu_idem m : f (f m) = f m
}.

Definition update_each (f : Metadata F -> Metadata F) M (ns : list gostring) : gmap gostring (Metadata F) :=
  foldl (fun M p => <[p := f (default zeroMetadata (M !! p))]> M) M ns.

Lemma lookup_update_each f M ns q :
  NoDup ns ->
  update_each f M ns !! q = if decide (q ∈ ns) then Some (f (default zeroMetadata (M !! q))) else M !! q.
Proof.
  intros Hnd. revert M. induction Hnd as [|p ns Hp Hnd IH]; intros M; [done|].
  unfold update_each. cbn [foldl]. fold (update_each f (<[p := f (default zeroMetadata (M !! p))]> M) ns). rewrite IH.
  destruct (decide (q = p)) as [->|Hne].
  - rewrite decide_False, decide_True, lookup_insert_eq by (done || left). done.
  - rewrite lookup_insert_ne by done. destruct (decide (q ∈ ns)).
    + by rewrite decide_True by (by right).
    + by rewrite decide_False by (by rewrite elem_of_cons; naive_solver).
Qed.

Lemma link_id_update f M p q :
  field_update f -> link_id (<[p := f (default zeroMetadata (M !! p))]> M) q = link_id M q.
Proof. intros Hf. rewrite link_id_insert, (fu_link f Hf). by destruct (decide (q = p)) as [->|]. Qed.

(** Updating the path and then its aliases is [share]. *)
Lemma update_each_share f M l p :
  link_inv M l -> field_update f -> link_id M p <> 0 ->
  update_each f (<[p := f (default zeroMetadata (M !! p))]> M) (names_of l (link_id M p)) = share p f M.
Proof.
  intros Hi Hf Hid. apply map_eq. intros q. rewrite lookup_update_each by apply (li_nodup _ _ Hi).
  unfold share. fold (link_id M p). replace (link_id M p =? 0) with false by lia.
  pose proof (li_names _ _ Hi (link_id M p) q Hid) as Hq. destruct (decide (q = p)) as [->|Hne].
  - rewrite !lookup_insert_eq. rewrite decide_True by (by apply Hq). cbn [default id]. by rewrite (fu_idem f Hf).
  - rewrite !lookup_insert_ne by done. rewrite lookup_fmap. unfold link_id at 2 in Hq.
    destruct (M !! q) as [m|] eqn:Hm; cbn [default id fmap option_fmap option_map] in *.
    + destruct (decide (q ∈ names_of l (link_id M p))) as [Hin|Hin].
      * replace (md_HardLink m =? link_id M p) with true by (apply Hq in Hin; lia). done.
      * replace (md_HardLink m =? link_id M p) with false by (symmetry; apply Z.eqb_neq; naive_solver). done.
    + rewrite decide_False; [done|]. rewrite Hq. simpl. lia.
Qed.

(** A path with no alias, or that shares its object with no other. *)
Lemma share_single f M l p :
  link_inv M l -> (link_id M p = 0 \/ refs_of l (link_id M p) <= 1) ->
  share p f M = <[p := f (default zeroMetadata (M !! p))]> M.
Proof.
  intros Hi Hor. unfold share. fold (link_id M p). destruct (Z.eqb_spec (link_id M p) 0) as [H0|H0]; [done|].
  destruct Hor as [?|Hle]; [done|]. apply map_eq. intros q. destruct (decide (q = p)) as [->|Hne];
    [by rewrite !lookup_insert_eq|]. rewrite !lookup_insert_ne, lookup_fmap by done.
  destruct (M !! q) as [m|] eqn:Hm; [|done]. simpl. destruct (Z.eqb_spec (md_HardLink m) (link_id M p)) as [He|]; [|done].
  exfalso. rewrite (li_refs _ _ Hi) in Hle.
  assert (Hp : p ∈ names_of l (link_id M p)) by (by apply (li_names _ _ Hi)).
  assert (Hq : q ∈ names_of l (link_id M p)).
  { apply (li_names _ _ Hi); [done|]. unfold link_id at 1. by rewrite Hm. }
  destruct (names_of l (link_id M p)) as [|x [|y ns]]; [set_solver|set_solver|].
  rewrite !zlen_cons in Hle. pose proof (zlen_nonneg ns). lia.
Qed.

Lemma link_id_share f M p q : field_update f -> link_id (share p f M) q = link_id M q.
Proof.
  intros Hf. unfold share. rewrite link_id_insert, (fu_link f Hf). fold (link_id M p).
  destruct (decide (q = p)) as [->|]; [done|]. destruct (link_id M p =? 0); [done|].
  unfold link_id. rewrite lookup_fmap. destruct (M !! q) as [m|]; [|done]. simpl.
  destruct (_ =? _); [apply (fu_link f Hf)|done].
Qed.

(** The loop over the aliases of an identity. *)
Lemma update_aliases_each id f d ns :
  field_update f -> (forall p, p ∈ ns -> link_id (d_metadata d) p = id) ->
  foldl (fun d alias =>
           if md_HardLink (metadata_of d alias) =? id
           then with_metadata (<[alias := f (metadata_of d alias)]> (d_metadata d)) d else d) d ns =
  with_metadata (update_each f (d_metadata d) ns) d.
Proof.
  intros Hf. revert d. induction ns as [|p ns IH]; intros d Hns; [by destruct d|]. cbn [foldl].
  assert (Hp : md_HardLink (metadata_of d p) = id) by (apply Hns; left). rewrite Hp, Z.eqb_refl.
  rewrite IH; [done|]. intros q Hq. simpl. unfold metadata_of. rewrite link_id_update by done. apply Hns. by right.
Qed.

Lemma SetMetadata_same d p f :
  is_clean p -> field_update f ->
  SetMetadata p (f (metadata_of d p)) d = with_metadata (<[p := f (metadata_of d p)]> (d_metadata d)) d.
Proof.
  intros Hp Hf. unfold SetMetadata. rewrite CleanPath_id, (fu_link f Hf), Z.eqb_refl by done. by destruct d.
Qed.

Lemma set_object_share d p f :
  link_inv (d_metadata d) (d_links d) -> is_clean p -> field_update f ->
  set_object p f d = with_metadata (share p f (d_metadata d)) d.
Proof.
  intros Hi Hp Hf. unfold set_object. rewrite SetMetadata_same by done. unfold shared. cbn [d_links with_metadata].
  rewrite (fu_link f Hf). change (md_HardLink (metadata_of d p)) with (link_id (d_metadata d) p).
  destruct (negb (link_id (d_metadata d) p =? 0) && (1 <? refs_of (d_links d) (link_id (d_metadata d) p))) eqn:Hs.
  - apply andb_true_iff in Hs as [H0 _]. apply negb_true_iff, Z.eqb_neq in H0.
    unfold update_aliases. cbv zeta. rewrite update_aliases_each; [|done|].
    + cbn [d_links with_metadata d_metadata]. unfold metadata_of. by rewrite (update_each_share f _ (d_links d)).
    + intros q Hq. cbn [d_metadata with_metadata d_links] in *. unfold metadata_of. rewrite link_id_update by done.
      by apply (li_names _ _ Hi) in Hq.
  - f_equal. symmetry. eapply share_single; [done|]. apply andb_false_iff in Hs as [Hs|Hs]; [left|right; lia].
    by apply negb_false_iff, Z.eqb_eq in Hs.
Qed.
End links.
