(* ===== verification/DirectorySpec.v ===== *)
(** A directory tree refines a tree without indexes and caches.

    [tree] is the abstract state: the directories, the files, the attributes
    and the metadata by path, and the counter of writes.  [spec_exec] gives
    every operation its meaning on it, [exec] runs the operation of
    [Directory.v], and [directory_refines] shows that a program sees the same
    results from both, while the state of the code keeps [dir_inv]. *)

From S2P Require Import Prelude GoLib GoPath FatNames ExtAttr Directory DirectoryCaches DirectoryLinks.
From stdpp Require Import base numbers list gmap sorting strings.

Open Scope Z_scope.
Open Scope trex_scope.

(** ** Operations *)

Section spec.
Context {F : Type}.
Context (ToLower ToUpper : gostring -> gostring) (EqualFold : gostring -> gostring -> bool).

Inductive dir_op :=
  | OpMkdir (name : gostring)
  | OpWrite (name : gostring) (value : writeValue F)
  | OpPutFile (name : gostring) (file : FileRecord F)
  | OpHardLink (source destination : gostring)
  | OpRemove (name : gostring)
  | OpRmdir (name : gostring)
  | OpSetMetadata (name : gostring) (m : Metadata F)
  | OpSetReparse (name : gostring) (tag : Z) (data : bytes)
  | OpSetAttributes (name : gostring) (attributes : Attributes)
  | OpSetSecurity (name : gostring) (descriptor : bytes)
  | OpSetTimes (name : gostring) (creation write access : Z)
  | OpSetFileAttributes (name : gostring) (attributes : Z)
  | OpSetExtendedAttributes (name : gostring) (eas : list ExtendedAttribute)
  | OpClone
  | OpListDir (name : gostring)
  | OpFiles
  | OpFind (name : gostring)
  | OpGetMetadata (name : gostring)
  | OpGetSecurity (name : gostring)
  | OpPathNames (lower includeEmpty : bool)
  | OpShortPath (name : gostring).

Inductive dir_out :=
  | Done (r : res unit)
  | Names (names : list gostring)
  | Found (file : option (starFile F))
  | MetadataIs (r : res metadataRecord)
  | SecurityIs (r : res (option bytes))
  | NamesByKey (r : res (list (gostring * gostring)))
  | ShortPathIs (r : res gostring).

Definition exec (op : dir_op) (d : Directory F) : Directory F * dir_out :=
  match op with
  | OpMkdir name => (Mkdir name d, Done (Ok tt))
  | OpWrite name value => prod_map id Done (write_file name value d)
  | OpPutFile name file => (PutFile name file d, Done (Ok tt))
  | OpHardLink source destination => prod_map id Done (HardLink source destination d)
  | OpRemove name => prod_map id Done (remove_file name d)
  | OpRmdir name => prod_map id Done (RemoveEmptyDirectory name d)
  | OpSetMetadata name m => (SetMetadata name m d, Done (Ok tt))
  | OpSetReparse name tag data => prod_map id Done (SetReparse name tag data d)
  | OpSetAttributes name attributes => prod_map id Done (SetAttributes name attributes d)
  | OpSetSecurity name descriptor => prod_map id Done (SetSecurity name descriptor d)
  | OpSetTimes name creation write access => prod_map id Done (SetTimes name creation write access d)
  | OpSetFileAttributes name attributes => prod_map id Done (SetFileAttributes name attributes d)
  | OpSetExtendedAttributes name eas => prod_map id Done (SetExtendedAttributes ToUpper name eas d)
  | OpClone => (Clone d, Done (Ok tt))
  | OpListDir name => prod_map id Names (list_dir name d)
  | OpFiles => prod_map id Names (fileList d)
  | OpFind name => (d, Found (find_file name d))
  | OpGetMetadata name => (d, MetadataIs (get_metadata name d))
  | OpGetSecurity name => (d, SecurityIs (get_security name d))
  | OpPathNames lower includeEmpty => prod_map id NamesByKey (path_names ToLower lower includeEmpty d)
  | OpShortPath name => prod_map id ShortPathIs (fatShortPath ToLower ToUpper EqualFold name d)
  end.

(** ** The abstract tree *)

Record tree := MkTree {
  t_dirs : gset gostring;
  t_files : gmap gostring (FileRecord F);
  t_attributes : gmap gostring Attributes;
  t_metadata : gmap gostring (Metadata F);
  t_order : Z
}.

Definition tree_of (d : Directory F) : tree :=
  MkTree (d_dirs d) (d_files d) (d_attributes d) (d_metadata d) (d_nextWriteOrder d).

Definition t_paths (t : tree) : gset gostring := t_dirs t ∪ dom (t_files t).

(** The path itself and its parents. *)
Definition parents (p : gostring) : gset gostring := list_to_set (dir_chain (S (length p)) p).

Definition t_mkdir (p : gostring) (t : tree) : tree :=
  MkTree (parents p ∪ t_dirs t) (t_files t) (t_attributes t) (t_metadata t) (t_order t).

Definition t_put (p : gostring) (file : FileRecord F) (t : tree) : tree :=
  let t := t_mkdir (path_Dir p) t in
  let order := u64 (t_order t + 1) in
  MkTree (t_dirs t) (<[p := with_order file order]> (t_files t)) (t_attributes t) (t_metadata t) order.

Definition t_describe (M : gmap gostring (Metadata F)) (t : tree) : tree :=
  MkTree (t_dirs t) (t_files t) (t_attributes t) M (t_order t).

Definition t_meta (t : tree) (p : gostring) : Metadata F := default zeroMetadata (t_metadata t !! p).

(** A new name for a file: the source gets the least free identity if it has
    none, and the new name gets everything of the source but the short
    name. *)
Definition t_link (source destination : gostring) (file : FileRecord F) (t : tree) : tree :=
  let m := t_meta t source in
  let m := if md_HardLink m =? 0 then with_hard_link (fresh_id (t_metadata t)) m else m in
  let M := if md_HardLink (t_meta t source) =? 0 then <[source := m]> (t_metadata t) else t_metadata t in
  let t := t_put destination file (t_describe M t) in
  let m := with_short_name (md_ShortName (t_meta t destination)) m in
  MkTree (t_dirs t) (t_files t)
    (partial_alter (fun _ => t_attributes t !! source) destination (t_attributes t))
    (<[destination := m]> (t_metadata t)) (t_order t).

(** A path disappears with everything known of it. *)
Definition t_forget (p : gostring) (dirs : gset gostring) (files : gmap gostring (FileRecord F)) (t : tree) : tree :=
  MkTree dirs files (delete p (t_attributes t)) (delete p (t_metadata t)) (t_order t).

(** New basic attributes: those of the portable kind go away for every name
    of the object. *)
Definition t_file_attributes (p : gostring) (flags : Z) (t : tree) : tree :=
  let id := md_HardLink (t_meta t p) in
  MkTree (t_dirs t) (t_files t)
    (filter (fun qa => qa.1 <> p /\ (id = 0 \/ md_HardLink (t_meta t qa.1) <> id)) (t_attributes t))
    (share p (with_file_attributes flags) (t_metadata t)) (t_order t).

Definition refuse (message : string) (t : tree) : tree * dir_out := (t, Done (Err (Errorf message))).
Definition accept (t : tree) : tree * dir_out := (t, Done (Ok tt)).

Definition spec_exec (op : dir_op) (t : tree) : tree * dir_out :=
  match op with
  | OpMkdir name => accept (t_mkdir (CleanPath name) t)
  | OpWrite name value =>
      match virtualFileForValue value with
      | Err e => (t, Done (Err e))
      | Ok file => accept (t_put (CleanPath name) file t)
      end
  | OpPutFile name file => accept (t_put (CleanPath name) file t)
  | OpHardLink source destination =>
      match t_files t !! CleanPath source with
      | None => refuse "hardlink: source file %q does not exist" t
      | Some file => accept (t_link (CleanPath source) (CleanPath destination) file t)
      end
  | OpRemove name =>
      match t_files t !! CleanPath name with
      | None => refuse "remove: file %q does not exist" t
      | Some _ => accept (t_forget (CleanPath name) (t_dirs t) (delete (CleanPath name) (t_files t)) t)
      end
  | OpRmdir name =>
      let p := CleanPath name in
      if decide (p = root) then refuse "rmdir: cannot remove the root directory" t
      else if decide (p ∉ t_dirs t) then refuse "rmdir: directory %q does not exist" t
      else if decide (is_Some (t_files t !! p) \/ kids (t_paths t) p <> [])
      then refuse "rmdir: directory %q is not empty" t
      else accept (t_forget p (t_dirs t ∖ {[p]}) (t_files t) t)
  | OpSetMetadata name m => accept (t_describe (<[CleanPath name := m]> (t_metadata t)) t)
  | OpSetReparse name tag data =>
      let p := CleanPath name in
      if decide (p ∉ t_paths t) then refuse "set_reparse: path %q does not exist" t
      else if (Z.land tag 0x80000000 =? 0) || (Z.land tag 0xffff <? 2)
      then refuse "set_reparse: a nonreserved Microsoft reparse tag is required" t
      else if 0x3ff8 <? zlen data then refuse "set_reparse: payload exceeds 16376 bytes" t
      else if decide (md_HardLink (t_meta t p) <> 0 /\
                      exists q, q ∈ dom (t_metadata t) /\ q <> p /\ md_HardLink (t_meta t q) = md_HardLink (t_meta t p))
      then refuse "set_reparse: multiply-linked files are unsupported" t
      else accept (t_describe (<[p := with_reparse tag (BytesFile (gostr "reparse payload") data) (t_meta t p)]>
                                 (t_metadata t)) t)
  | OpSetAttributes name attributes =>
      let p := CleanPath name in
      if decide (p ∉ t_paths t) then refuse "set_attributes: path %q does not exist" t
      else accept (MkTree (t_dirs t) (t_files t) (<[p := attributes]> (t_attributes t)) (t_metadata t) (t_order t))
  | OpSetSecurity name descriptor =>
      let p := CleanPath name in
      if decide (p ∉ t_paths t) then refuse "set_security: path %q does not exist" t
      else if (zlen descriptor <? 20) || negb (nthb descriptor 0 =? 1)
           || (Z.land (le_val (slice 2 2 descriptor)) 0x8000 =? 0)
      then refuse "set_security: descriptor must be revision-1 self-relative data" t
      else accept (t_describe (share p (with_security descriptor) (t_metadata t)) t)
  | OpSetTimes name creation write access =>
      let p := CleanPath name in
      if decide (p ∉ t_paths t) then refuse "set_times: path %q does not exist" t
      else accept (t_describe (share p (with_times creation write access) (t_metadata t)) t)
  | OpSetFileAttributes name attributes =>
      let p := CleanPath name in
      if decide (p ∉ t_paths t) then refuse "set_file_attributes: path %q does not exist" t
      else if negb (Z.ldiff attributes writable_attributes =? 0)
      then refuse "set_file_attributes: unsupported basic-information attributes %#x" t
      else accept (t_file_attributes p
             (merged_attributes (md_FileAttributes (t_meta t p)) attributes (bool_decide (p ∈ t_dirs t))) t)
  | OpSetExtendedAttributes name eas =>
      let p := CleanPath name in
      if decide (p ∉ t_paths t) then refuse "set_extended_attributes: path %q does not exist" t
      else match ValidateExtendedAttributes ToUpper eas with
           | Err e => (t, Done (Err e))
           | Ok _ => accept (t_describe (share p (with_eas eas) (t_metadata t)) t)
           end
  | OpClone => accept t
  | OpListDir name => (t, Names (kids (t_paths t) (CleanPath name)))
  | OpFiles => (t, Names (sort_Strings (elements (dom (t_files t)))))
  | OpFind name =>
      (t, Found ((fun file => default (BytesFile (CleanPath name) (fr_Data file)) (fr_File file)) <$>
                 t_files t !! CleanPath name))
  | OpGetMetadata name =>
      let p := CleanPath name in
      (t, MetadataIs (if decide (p ∉ t_paths t) then Err (Errorf "get_metadata: path %q does not exist")
                      else Ok (metadata_record (t_meta t p) (default 0 (fr_WriteOrder <$> t_files t !! p)))))
  | OpGetSecurity name =>
      let p := CleanPath name in
      (t, SecurityIs (if decide (p ∉ t_paths t) then Err (Errorf "get_security: path %q does not exist")
                      else Ok (match md_SecurityDescriptor (t_meta t p) with [] => None | sd => Some sd end)))
  | OpPathNames lower includeEmpty =>
      (t, NamesByKey (buildPathNames ToLower lower includeEmpty (sort_Strings (elements (dom (t_files t)))) (t_dirs t)))
  | OpShortPath name =>
      let '(drive, name) := drive_split name in
      (t, ShortPathIs
         (let! index := buildFATShortIndex ToLower ToUpper EqualFold (t_dirs t) (elements (dom (t_files t))) in
          let! parts := short_components ToLower ToUpper EqualFold index root true
                          (split_on slash (tail (CleanPath name))) in
          Ok (match drive with [] => slash :: join_with slash parts
              | _ => drive ++ backslash :: join_with backslash parts end)))
  end.

Lemma union_other (p q : gostring) (a b : gset gostring) : q ∈ a ∪ ({[p]} ∪ b) -> q <> p -> q ∈ a ∪ b.
Proof. set_solver. Qed.

Lemma removed_paths (dirs files : gset gostring) p q :
  p ∈ files ->
  q ∈ dirs ∪ files ∖ {[p]} <->
  if bool_decide (p ∈ dirs) then q = p \/ q ∈ dirs ∪ files else q <> p /\ q ∈ dirs ∪ files.
Proof.
  intros Hp. destruct (decide (q = p)) as [->|Hne]; case_bool_decide; set_solver.
Qed.

(** ** The invariant *)

Implicit Types (d : Directory F).

Record dir_inv (d : Directory F) : Prop := {
  di_root : root ∈ d_dirs d;
  di_clean p : p ∈ paths_of d -> is_clean p;
  di_parent p : p ∈ paths_of d -> path_Dir p ∈ d_dirs d;
  di_links : link_inv (d_metadata d) (d_links d);
  di_caches : names_inv ToLower ToUpper EqualFold (d_dirs d) (dom (d_files d)) (d_caches d)
}.

(** The paths [Mkdir] visits are clean, end at the root and contain their
    parents. *)
Lemma dir_chain_closed ws fuel :
  Forall elem_ok ws -> (length ws < fuel)%nat ->
  root ∈ dir_chain fuel (abs ws) /\
  forall q, q ∈ dir_chain fuel (abs ws) -> is_clean q /\ path_Dir q ∈ dir_chain fuel (abs ws).
Proof.
  revert fuel. induction ws as [|w ws IH] using rev_ind; intros [|fuel] Hw Hf; try (simpl in Hf; lia).
  - cbn [dir_chain]. change (abs []) with root. rewrite bool_decide_eq_true_2 by done.
    split; [left|]. intros q ->%list_elem_of_singleton. split; [apply root_clean|]. left.
  - rewrite length_app in Hf. simpl in Hf. cbn [dir_chain]. rewrite path_Dir_snoc by done.
    assert (Hws : Forall elem_ok ws) by (by apply Forall_app in Hw as [? _]).
    rewrite bool_decide_eq_false_2.
    + destruct (IH fuel Hws ltac:(lia)) as [Hr Hc]. split; [by right|].
      intros q [->|Hq]%elem_of_cons; [split; [by eexists|]|].
      * right. rewrite path_Dir_snoc by done. destruct fuel; [lia|]. cbn [dir_chain]. left.
      * destruct (Hc q Hq) as [? ?]. split; [done|by right].
    + change root with (abs []). intros He%abs_inj; [|done|constructor]. by destruct ws.
Qed.

Lemma length_abs ws : Forall elem_ok ws -> (length ws < length (abs ws))%nat.
Proof.
  intros Hw. unfold abs. rewrite length_cons. induction Hw as [|w ws [Hne _] Hw IH]; [simpl; lia|].
  assert (1 <= length w)%nat by (destruct w; [done|simpl; lia]). destruct ws as [|v ws]; [simpl; lia|].
  cbn [join_with]. rewrite length_app, length_cons. cbn [join_with] in IH. simpl length in *. lia.
Qed.

Lemma parents_closed p :
  is_clean p -> root ∈ parents p /\ p ∈ parents p /\ forall q, q ∈ parents p -> is_clean q /\ path_Dir q ∈ parents p.
Proof.
  intros (ws & -> & Hw). unfold parents. pose proof (length_abs ws Hw).
  destruct (dir_chain_closed ws (S (length (abs ws))) Hw ltac:(lia)) as [Hr Hc].
  split; [by apply elem_of_list_to_set|]. split; [apply elem_of_list_to_set; left|].
  intros q Hq%elem_of_list_to_set. destruct (Hc q Hq). split; [done|by apply elem_of_list_to_set].
Qed.

(** ** Directories and files *)

Lemma mkdir_one_inv d p :
  names_inv ToLower ToUpper EqualFold (d_dirs d) (dom (d_files d)) (d_caches d) ->
  names_inv ToLower ToUpper EqualFold ({[p]} ∪ d_dirs d) (dom (d_files d)) (d_caches (mkdir_one d p)) /\
  mkdir_one d p = with_caches (d_caches (mkdir_one d p)) (with_dirs ({[p]} ∪ d_dirs d) d).
Proof.
  intros Hc. unfold mkdir_one. destruct (decide (p ∈ d_dirs d)) as [Hp|Hp].
  - replace ({[p]} ∪ d_dirs d) with (d_dirs d) by set_solver. split; [done|]. by destruct d.
  - split; [|done]. cbn [d_caches with_caches]. eapply namespaceEntryChanged_inv; [done|].
    intros q. cbn. set_solver.
Qed.

Lemma mkdir_fold_inv ps d :
  names_inv ToLower ToUpper EqualFold (d_dirs d) (dom (d_files d)) (d_caches d) ->
  exists c, foldl mkdir_one d ps = with_caches c (with_dirs (list_to_set ps ∪ d_dirs d) d) /\
    names_inv ToLower ToUpper EqualFold (list_to_set ps ∪ d_dirs d) (dom (d_files d)) c.
Proof.
  revert d. induction ps as [|p ps IH]; intros d Hc.
  - exists (d_caches d). rewrite list_to_set_nil, (left_id_L ∅ (∪)). by destruct d.
  - cbn [foldl]. destruct (mkdir_one_inv d p Hc) as [Hc' He]. rewrite He.
    destruct (IH (with_caches (d_caches (mkdir_one d p)) (with_dirs ({[p]} ∪ d_dirs d) d)) Hc') as (c & Hf & Hci).
    rewrite Hf. exists c. cbn in *. replace ({[p]} ∪ list_to_set ps ∪ d_dirs d)
      with (list_to_set ps ∪ ({[p]} ∪ d_dirs d)) by set_solver. done.
Qed.

Lemma Mkdir_ok name d :
  dir_inv d -> exists c, Mkdir name d = with_caches c (with_dirs (parents (CleanPath name) ∪ d_dirs d) d) /\
    dir_inv (Mkdir name d).
Proof.
  intros [Hr Hcl Hpa Hl Hc]. unfold Mkdir.
  destruct (mkdir_fold_inv (dir_chain (S (length (CleanPath name))) (CleanPath name)) d Hc) as (c & -> & Hci).
  exists c. split; [done|]. destruct (parents_closed (CleanPath name)) as (Hpr & _ & Hpc); [apply CleanPath_clean|].
  unfold parents in Hpr, Hpc. split; cbn.
  - set_solver.
  - intros p Hp. unfold paths_of in *; cbn in *. destruct (decide (p ∈ d_dirs d ∪ dom (d_files d))); [by apply Hcl|].
    apply Hpc. set_solver.
  - intros p Hp. unfold paths_of in *; cbn in *. destruct (decide (p ∈ d_dirs d ∪ dom (d_files d))) as [Hin|];
      [specialize (Hpa p Hin); set_solver|]. destruct (Hpc p) as [_ Hd]; [set_solver|]. set_solver.
  - done.
  - done.
Qed.

(** The cache after a file may have appeared at [p]. *)
Lemma put_caches_inv d p :
  names_inv ToLower ToUpper EqualFold (d_dirs d) (dom (d_files d)) (d_caches d) ->
  names_inv ToLower ToUpper EqualFold (d_dirs d) ({[p]} ∪ dom (d_files d))
    (match d_files d !! p with None => namespaceEntryChanged p true (d_caches d) | Some _ => d_caches d end).
Proof.
  intros Hc. destruct (d_files d !! p) as [f|] eqn:Hp.
  - apply elem_of_dom_2 in Hp. by replace ({[p]} ∪ dom (d_files d)) with (dom (d_files d)) by set_solver.
  - eapply namespaceEntryChanged_inv; [done|]. intros q. cbn. set_solver.
Qed.

Lemma PutFile_ok name file d :
  dir_inv d ->
  dir_inv (PutFile name file d) /\ tree_of (PutFile name file d) = t_put (CleanPath name) file (tree_of d) /\
  d_metadata (PutFile name file d) = d_metadata d /\ d_links (PutFile name file d) = d_links d.
Proof.
  intros Hd. pose proof (CleanPath_clean name) as Hcn. unfold PutFile.
  destruct (Mkdir_ok (path_Dir (CleanPath name)) d Hd) as (c & He & Hm).
  rewrite (CleanPath_id (path_Dir _)) in He by auto with trex.
  set (p := CleanPath name) in *. destruct (parents_closed (path_Dir p)) as (_ & Hpp & _); [auto with trex|].
  pose proof (put_caches_inv _ p (di_caches _ Hm)) as Hci. rewrite He in Hm, Hci |- *.
  cbn [d_files d_caches d_dirs with_caches with_dirs with_write_order d_nextWriteOrder] in *.
  set (d2 := match d_files d !! p with Some _ => _ | None => _ end).
  assert (Hd2 : exists c2, d2 = with_caches c2 (with_write_order (u64 (d_nextWriteOrder d + 1))
      (with_dirs (parents (path_Dir p) ∪ d_dirs d) d)) /\
      names_inv ToLower ToUpper EqualFold (parents (path_Dir p) ∪ d_dirs d) ({[p]} ∪ dom (d_files d)) c2).
  { unfold d2. destruct (d_files d !! p); eexists; (split; [reflexivity|exact Hci]). }
  destruct Hd2 as (c2 & -> & Hc2). destruct Hm as [Hr Hcl Hpa Hl _]. unfold paths_of in Hcl, Hpa. cbn in *.
  split; [|done]. split; unfold paths_of; cbn; rewrite ?dom_insert_L; try done.
  - intros q Hq. destruct (decide (q = p)) as [->|]; [done|]. by apply Hcl, (union_other p).
  - intros q Hq. destruct (decide (q = p)) as [->|]; [by apply elem_of_union_l|]. by apply Hpa, (union_other p).
Qed.

(** ** Metadata *)

Lemma dir_inv_metadata d M l : dir_inv d -> link_inv M l -> dir_inv (with_metadata M (with_links l d)).
Proof. by intros [Hr Hcl Hpa Hl Hc] Hi. Qed.

Lemma dir_inv_attributes d x : dir_inv d -> dir_inv (with_attributes x d).
Proof. by intros [Hr Hcl Hpa Hl Hc]. Qed.

Lemma dir_inv_caches d c :
  dir_inv d -> names_inv ToLower ToUpper EqualFold (d_dirs d) (dom (d_files d)) c -> dir_inv (with_caches c d).
Proof. by intros [Hr Hcl Hpa Hl Hc]. Qed.

Lemma with_links_id d : with_links (d_links d) d = d.
Proof. by destruct d. Qed.

(** Room for more metadata: no count or identity wraps. *)
Definition room (d : Directory F) : Prop := Z.of_nat (size (d_metadata d)) < 2 ^ 63.

Lemma size_insert_le (M : gmap gostring (Metadata F)) p m : (size (<[p := m]> M) <= S (size M))%nat.
Proof. rewrite map_size_insert. destruct (M !! p); cbn; lia. Qed.

Lemma size_delete_le (M : gmap gostring (Metadata F)) p : (size (delete p M) <= size M)%nat.
Proof. rewrite map_size_delete. destruct (M !! p); cbn; lia. Qed.

Lemma SetMetadata_ok name m d :
  dir_inv d -> room d -> 0 <= md_HardLink m < 2 ^ 64 ->
  dir_inv (SetMetadata name m d) /\
  exists l, SetMetadata name m d = with_metadata (<[CleanPath name := m]> (d_metadata d)) (with_links l d).
Proof.
  intros Hd Hr Hm. unfold SetMetadata. set (p := CleanPath name).
  pose proof (link_inv_set _ _ p m (di_links _ Hd) Hr Hm) as Hl. split; [|by eexists].
  by apply dir_inv_metadata.
Qed.

(** The path loses its metadata. *)
Lemma link_inv_forget (M : gmap gostring (Metadata F)) l p :
  link_inv M l -> Z.of_nat (size M) < 2 ^ 63 ->
  link_inv (delete p M) (if link_id M p =? 0 then l else relink p (link_id M p) 0 l).
Proof.
  intros Hi Hr. eapply link_inv_ext; [|apply (link_inv_set M l p zeroMetadata Hi Hr); cbn; lia].
  intros q. rewrite link_id_insert. unfold link_id.
  destruct (decide (q = p)) as [->|]; [by rewrite lookup_delete_eq|by rewrite lookup_delete_ne by done].
Qed.

(** The identity of the source of a link. *)
Lemma identify_ok source d :
  dir_inv d -> room d -> is_clean source ->
  let m := metadata_of d source in
  let m' := if md_HardLink m =? 0 then with_hard_link (fresh_id (d_metadata d)) m else m in
  let M := if md_HardLink m =? 0 then <[source := m']> (d_metadata d) else d_metadata d in
  0 <= md_HardLink m' < 2 ^ 64 /\
  exists l, identify source m d = (with_metadata M (with_links l d), Ok m') /\
    dir_inv (with_metadata M (with_links l d)).
Proof.
  intros Hd Hr Hs m m' M. pose proof (di_links _ Hd) as Hl. unfold identify.
  destruct (Z.eqb_spec (md_HardLink m) 0) as [H0|H0]; cbn [negb].
  2:{ split; [apply (li_range _ _ Hl source)|]. exists (d_links d). rewrite with_links_id.
      unfold M. by destruct d. }
  unfold room in Hr. destruct (fresh_id_spec (d_metadata d)) as (Hf & Hfn & Hfb). destruct (li_next _ _ Hl) as [Hn Hu].
  set (start := if nextHardLink (d_links d) =? 0 then 1 else nextHardLink (d_links d)).
  assert (Hst : 1 <= start /\ forall i, 1 <= i < start -> refs_of (d_links d) i <> 0).
  { unfold start. destruct (Z.eqb_spec (nextHardLink (d_links d)) 0); [split; [lia|intros; lia]|split; [lia|done]]. }
  assert (Hnx : forall n, 0 <= n -> (forall i, 1 <= i < n -> refs_of (d_links d) i <> 0) ->
    link_inv (d_metadata d) (LinkIndex (hardLinkRefs (d_links d)) (hardLinkNames (d_links d)) n)).
  { intros n Hn0 Hnu. destruct Hl as [H1 H2 H3 H4 H5 H6 H7]. by split. }
  split; [cbn; lia|].
  rewrite (alloc_loop_fresh (d_metadata d)); [|apply Hnx; [lia|apply Hst]|apply Hst|apply Hst|lia|done|cbn; lia].
  set (l2 := LinkIndex _ _ (fresh_id (d_metadata d))).
  assert (Hl2 : link_inv (d_metadata d) l2).
  { apply Hnx; [lia|]. intros i Hi. apply (refs_used _ _ _ Hl). split; [lia|]. apply elem_of_used_ids; [lia|]. by apply Hfb. }
  assert (Hd2 : dir_inv (with_links l2 d)) by (by destruct Hd).
  fold m'. destruct (SetMetadata_ok source m' (with_links l2 d) Hd2) as [Hi (l & He)]; [done|cbn; lia|].
  rewrite CleanPath_id in He by done. rewrite He in Hi |- *. exists l. split; [done|exact Hi].
Qed.

Lemma room_insert d p m l :
  Z.of_nat (size (d_metadata d)) < 2 ^ 62 -> room (with_metadata (<[p := m]> (d_metadata d)) (with_links l d)).
Proof. intros H. unfold room. cbn. pose proof (size_insert_le (d_metadata d) p m). lia. Qed.

Lemma HardLink_ok source destination d :
  dir_inv d -> Z.of_nat (size (d_metadata d)) < 2 ^ 62 ->
  let '(d', r) := HardLink source destination d in
  dir_inv d' /\ spec_exec (OpHardLink source destination) (tree_of d) = (tree_of d', Done r) /\
  (size (d_metadata d') <= size (d_metadata d) + 2)%nat.
Proof.
  intros Hd Hr. unfold HardLink. cbn [spec_exec].
  pose proof (CleanPath_clean source) as Hs. pose proof (CleanPath_clean destination) as Ht.
  set (s := CleanPath source) in *. set (t := CleanPath destination) in *.
  clearbody s t. change (t_files (tree_of d)) with (d_files d).
  destruct (d_files d !! s) as [file|]; [|split; [done|split; [done|lia]]].
  destruct (identify_ok s d Hd ltac:(unfold room; lia) Hs) as (Hm' & l & Hid & Hd1). rewrite Hid. clear Hid.
  set (m' := if md_HardLink (metadata_of d s) =? 0 then _ else metadata_of d s) in *.
  set (M := if md_HardLink (metadata_of d s) =? 0 then _ else d_metadata d) in *.
  assert (HM : (size M <= S (size (d_metadata d)))%nat).
  { unfold M. destruct (_ =? _); [apply size_insert_le|lia]. }
  set (d1 := with_metadata M (with_links l d)) in *.
  destruct (PutFile_ok t file d1 Hd1) as (Hd2 & Ht2 & Hmd2 & _). rewrite (CleanPath_id t) in Ht2 by done.
  set (d2 := PutFile t file d1) in *. clearbody d2.
  destruct (SetMetadata_ok t (with_short_name (md_ShortName (metadata_of d2 t)) m') d2 Hd2) as [Hd3 (l3 & He3)];
    [unfold room; rewrite Hmd2; cbn; lia|exact Hm'|].
  rewrite CleanPath_id in He3 by done. rewrite He3 in Hd3 |- *. split; [by apply dir_inv_attributes|].
  split; [|cbn; rewrite Hmd2; pose proof (size_insert_le M t (with_short_name (md_ShortName (metadata_of d2 t)) m')); cbn in *; lia].
  unfold accept. f_equal. unfold t_link.
  change (t_describe _ (tree_of d)) with (tree_of d1). change (t_meta (tree_of d) s) with (metadata_of d s). fold m'.
  change (t_describe M (tree_of d)) with (tree_of d1). rewrite <- Ht2. clear Ht2.
  unfold tree_of. cbn. f_equal. destruct (d_attributes d2 !! s); done.
Qed.

(** ** Removing *)

Lemma path_exists_ok d p : path_exists d p = bool_decide (p ∈ paths_of d).
Proof.
  unfold path_exists, paths_of. rewrite <- bool_decide_or. apply bool_decide_ext. by rewrite elem_of_union, elem_of_dom.
Qed.

(** The shape of the results below: the operation keeps the invariant, does
    on the abstract tree what is specified, and adds at most two entries of
    metadata. *)
Definition refined (op : dir_op) (d : Directory F) (dr : Directory F * dir_out) : Prop :=
  dir_inv dr.1 /\ spec_exec op (tree_of d) = (tree_of dr.1, dr.2) /\
  (size (d_metadata dr.1) <= size (d_metadata d) + 2)%nat.

Lemma refined_same op d o : dir_inv d -> spec_exec op (tree_of d) = (tree_of d, o) -> refined op d (d, o).
Proof. intros Hd He. split; [done|]. split; [done|]. cbn. lia. Qed.

Lemma remove_ok name d :
  dir_inv d -> room d -> refined (OpRemove name) d (prod_map id Done (remove_file name d)).
Proof.
  intros Hd Hr. unfold remove_file. pose proof (CleanPath_clean name) as Hp.
  assert (Hspec : spec_exec (OpRemove name) (tree_of d) = match d_files d !! CleanPath name with
    | None => refuse "remove: file %q does not exist" (tree_of d)
    | Some _ => accept (t_forget (CleanPath name) (d_dirs d) (delete (CleanPath name) (d_files d)) (tree_of d)) end) by done.
  set (p := CleanPath name) in *. clearbody p.
  destruct (d_files d !! p) as [file|] eqn:Hf; [|by apply refined_same].
  assert (Hd1 : forall l, link_inv (d_metadata d) l -> link_inv (d_metadata (with_files (delete p (d_files d)) d)) l) by done.
  set (d1 := with_files (delete p (d_files d)) d).
  unfold SetMetadata. rewrite CleanPath_id by done.
  pose proof (link_inv_forget _ _ p (di_links _ Hd) Hr) as Hl.
  change (md_HardLink (metadata_of d1 p)) with (link_id (d_metadata d) p).
  set (l := if link_id (d_metadata d) p =? _ then _ else _) in *. clearbody l.
  destruct Hd as [Hroot Hcl Hpa Hli Hc]. cbn. split; [|split; [|cbn; rewrite delete_insert_eq; pose proof (size_delete_le (d_metadata d) p); lia]].
  - assert (Hsub : forall q, q ∈ d_dirs d ∪ dom (delete p (d_files d)) -> q ∈ paths_of d)
      by (unfold paths_of; rewrite dom_delete_L; intros q; set_solver).
    split; unfold paths_of; cbn; try done.
    + intros q Hq. by apply Hcl, Hsub.
    + intros q Hq. by apply Hpa, Hsub.
    + rewrite delete_insert_eq. exact Hl.
    + apply with_fat_invalid_inv. eapply namespaceEntryChanged_inv; [done|]. intros q. rewrite dom_delete_L.
      by apply elem_of_dom_2, (removed_paths (d_dirs d) _ p q) in Hf.
  - rewrite Hspec. unfold accept, t_forget, tree_of. cbn. by rewrite delete_insert_eq.
Qed.

Lemma ensureChildren_ok d :
  dir_inv d -> exists ch, children (d_caches (ensureChildren d)) = Some ch /\
    childrenRevision (d_caches (ensureChildren d)) = revision (d_caches (ensureChildren d)) /\
    (forall p, names_in ch p = kids (paths_of d) p) /\
    ensureChildren d = with_caches (d_caches (ensureChildren d)) d /\ dir_inv (ensureChildren d).
Proof.
  intros Hd. pose proof Hd as [Hr Hcl Hpa Hl Hc]. unfold ensureChildren.
  destruct (match children (d_caches d) with Some _ => _ | None => false end) eqn:Hfresh.
  - destruct (children (d_caches d)) as [ch|] eqn:Hch; [|done]. apply Z.eqb_eq in Hfresh.
    exists ch. split; [done|]. split; [done|]. split; [|split; [by destruct d|done]].
    by apply (ci_children _ _ _ _ _ _ Hc ch Hch).
  - exists (build_children d). split; [done|]. split; [done|].
    split; [intros p; by apply build_children_kids|]. split; [done|]. apply dir_inv_caches; [done|].
    destruct Hc as [H1 H2 H3 H4 H5 H6]. split; try done. intros ch [= <-]. split; [done|]. intros _ p. by apply build_children_kids.
Qed.

Lemma list_dir_ok name d : dir_inv d -> refined (OpListDir name) d (prod_map id Names (list_dir name d)).
Proof.
  intros Hd. destruct (ensureChildren_ok d Hd) as (ch & Hch & _ & Hk & He & Hi).
  unfold list_dir, children_of. rewrite Hch, Hk. cbn. split; [done|]. rewrite He. split; [done|cbn; lia].
Qed.

(** The index of the children after a directory without entries went away. *)
Lemma rmdir_children s ch name :
  name <> root -> name ∈ s -> kids s name = [] -> (forall p, names_in ch p = kids s p) ->
  forall p, names_in (delete name (match decide (name ∈ names_in ch (path_Dir name)) with
                        | left _ => <[path_Dir name := remove_first name (names_in ch (path_Dir name))]> ch
                        | right _ => ch end)) p = kids (s ∖ {[name]}) p.
Proof.
  intros Hr Hin Hempty Hk p.
  assert (Hkid : name ∈ kids s (path_Dir name)) by (by apply elem_of_kids).
  assert (Hne : path_Dir name <> name) by (intros He; rewrite He, Hempty in Hkid; set_solver).
  destruct (decide _) as [_|Hn]; [|by rewrite Hk in Hn].
  unfold names_in at 1. destruct (decide (p = name)) as [->|Hpn].
  { rewrite lookup_delete_eq. cbn. rewrite <- Hempty. apply kids_ext. intros q Hq Hd. split; [|set_solver].
    intros Hqs. exfalso. assert (Hkn : q ∈ kids s name) by (by apply elem_of_kids). rewrite Hempty in Hkn. set_solver. }
  rewrite lookup_delete_ne by done. symmetry. destruct (decide (p = path_Dir name)) as [->|Hpd].
  - rewrite lookup_insert_eq. cbn. rewrite Hk. apply kids_unique.
    + apply sorted_remove_first, kids_sorted.
    + apply NoDup_remove_first, kids_nodup.
    + intros q. rewrite elem_of_remove_first by apply kids_nodup. rewrite elem_of_kids. set_solver.
  - rewrite lookup_insert_ne by done. fold (names_in ch p). rewrite Hk. apply kids_ext. intros q Hq Hd. set_solver.
Qed.

(** The caches of [RemoveEmptyDirectory]. *)
Lemma rmdir_caches_inv d c ch name :
  names_inv ToLower ToUpper EqualFold (d_dirs d) (dom (d_files d)) c ->
  (forall p, names_in ch p = kids ((d_dirs d ∖ {[name]}) ∪ dom (d_files d)) p) ->
  names_inv ToLower ToUpper EqualFold (d_dirs d ∖ {[name]}) (dom (d_files d))
    (with_fat_invalid (NameCaches (revision c + 1) noPathNames None None (Some ch) (revision c + 1)
       (fatShortIndex c) (fatShortRev c) (fatShortValid c))).
Proof.
  intros Hc Hch. apply with_fat_invalid_inv. split; cbn; try done.
  - intros lower empty x. by rewrite slot_none.
  - intros ch' [= <-]. split; [lia|]. by intros _.
  - intros Hv. destruct (ci_fat _ _ _ _ _ _ Hc Hv). split; lia.
Qed.

Lemma rmdir_ok name d :
  dir_inv d -> room d -> refined (OpRmdir name) d (prod_map id Done (RemoveEmptyDirectory name d)).
Proof.
  intros Hd Hr. unfold RemoveEmptyDirectory. pose proof (CleanPath_clean name) as Hp. cbn [spec_exec] in *.
  assert (Hspec : spec_exec (OpRmdir name) (tree_of d) =
      if decide (CleanPath name = root) then refuse "rmdir: cannot remove the root directory" (tree_of d)
      else if decide (CleanPath name ∉ d_dirs d) then refuse "rmdir: directory %q does not exist" (tree_of d)
      else if decide (is_Some (d_files d !! CleanPath name) \/ kids (paths_of d) (CleanPath name) <> [])
      then refuse "rmdir: directory %q is not empty" (tree_of d)
      else accept (t_forget (CleanPath name) (d_dirs d ∖ {[CleanPath name]}) (d_files d) (tree_of d))) by done.
  set (p := CleanPath name) in *. clearbody p.
  destruct (bool_decide_reflect (p = root)) as [Hroot|Hroot];
    [rewrite decide_True in Hspec by done; by apply refined_same|]. rewrite decide_False in Hspec by done.
  destruct (bool_decide_reflect (p ∈ d_dirs d)) as [Hin|Hin]; cbn [negb];
    [|rewrite decide_True in Hspec by done; by apply refined_same]. rewrite decide_False in Hspec by (by intros ?).
  destruct (ensureChildren_ok d Hd) as (ch & Hch & Hrev & Hk & He & Hi). rewrite He in Hi |- *.
  set (c := d_caches (ensureChildren d)) in *. clearbody c. clear He.
  unfold children_of. cbn [d_caches with_caches d_files]. rewrite Hch, Hk.
  destruct (bool_decide (is_Some (d_files d !! p)) || negb (zlen (kids (paths_of d) p) =? 0)) eqn:Hg.
  { rewrite decide_True in Hspec.
    - split; [done|]. split; [done|cbn; lia].
    - apply orb_true_iff in Hg as [Hg%bool_decide_eq_true|Hg]; [by left|right]. intros Hnil. by rewrite Hnil in Hg. }
  apply orb_false_iff in Hg as [Hnf%bool_decide_eq_false Hz]. apply negb_false_iff, Z.eqb_eq in Hz.
  apply zlen_0_nil in Hz as Hnil.
  rewrite decide_False in Hspec by (intros [?|?]; done).
  assert (Hpf : p ∉ dom (d_files d)) by (by rewrite elem_of_dom).
  assert (Hsets : d_dirs d ∖ {[p]} ∪ dom (d_files d) = paths_of d ∖ {[p]}) by (unfold paths_of; set_solver).
  pose proof (rmdir_children (paths_of d) ch p Hroot ltac:(unfold paths_of; set_solver) Hnil Hk) as Hkids.
  rewrite <- Hsets in Hkids.
  unfold SetMetadata. rewrite CleanPath_id by done. cbn [default id].
  pose proof (link_inv_forget _ _ p (di_links _ Hd) Hr) as Hl.
  change (md_HardLink (metadata_of _ p)) with (link_id (d_metadata d) p). cbn [d_links with_caches with_dirs].
  set (l := if link_id (d_metadata d) p =? _ then _ else _) in *. clearbody l.
  pose proof (rmdir_caches_inv d c _ p (di_caches _ Hi) Hkids) as Hci.
  destruct Hd as [Hdr Hcl Hpa Hli _].
  split; [|split; [|cbn; rewrite delete_insert_eq; pose proof (size_delete_le (d_metadata d) p); lia]].
  - split; unfold paths_of; cbn; try exact Hci.
    + set_solver.
    + intros q Hq. apply Hcl. unfold paths_of. set_solver.
    + intros q Hq. rewrite Hsets in Hq. apply elem_of_difference in Hq as [Hq Hqp].
      apply elem_of_difference. split; [by apply Hpa|]. intros Hqd%elem_of_singleton.
      destruct (decide (q = root)) as [->|Hqr]; [by change (path_Dir root) with root in Hqd; destruct Hroot|].
      assert (Hkq : q ∈ kids (paths_of d) p) by (by apply elem_of_kids). rewrite Hnil in Hkq. by apply not_elem_of_nil in Hkq.
    + rewrite delete_insert_eq. exact Hl.
  - rewrite Hspec. unfold accept, t_forget, tree_of. cbn. by rewrite delete_insert_eq.
Qed.

(** ** Attributes of objects *)

(** A refused operation changes nothing. *)
Ltac unchanged := split; [done|split; [done|cbn; lia]].

Lemma exists_guard {A} d p (a b : A) :
  (if negb (path_exists d p) then a else b) = if decide (p ∉ t_paths (tree_of d)) then a else b.
Proof.
  rewrite path_exists_ok. change (t_paths (tree_of d)) with (paths_of d).
  destruct (bool_decide_reflect (p ∈ paths_of d)); [by rewrite decide_False by (by intros ?)|by rewrite decide_True].
Qed.

Lemma size_share (p : gostring) (f : Metadata F -> Metadata F) (M : gmap gostring (Metadata F)) : (size (share p f M) <= S (size M))%nat.
Proof.
  unfold share. etrans; [apply size_insert_le|]. destruct (_ =? 0); [done|]. by rewrite map_size_fmap.
Qed.

Lemma set_object_ok p (f : Metadata F -> Metadata F) d :
  dir_inv d -> is_clean p -> field_update f ->
  dir_inv (set_object p f d) /\ tree_of (set_object p f d) = t_describe (share p f (d_metadata d)) (tree_of d) /\
  (size (d_metadata (set_object p f d)) <= size (d_metadata d) + 2)%nat.
Proof.
  intros Hd Hp Hf. rewrite set_object_share by (done || apply (di_links _ Hd)).
  split; [|split; [done|cbn; pose proof (size_share p f (d_metadata d)); lia]].
  rewrite <- (with_links_id d) at 2. apply dir_inv_metadata; [done|].
  eapply link_inv_ext; [|apply (di_links _ Hd)]. intros q. by apply link_id_share.
Qed.

Lemma set_security_ok name sd d : dir_inv d -> refined (OpSetSecurity name sd) d (prod_map id Done (SetSecurity name sd d)).
Proof.
  intros Hd. unfold SetSecurity. rewrite exists_guard.
  destruct (set_object_ok (CleanPath name) (with_security sd) d Hd (CleanPath_clean name)) as (H1 & H2 & H3); [by split|].
  unfold refined. cbn [spec_exec]. destruct (decide _); [unchanged|].
  destruct (_ || _); [unchanged|]. split; [done|]. split; [|done]. cbn [prod_map fst snd id]. by rewrite H2.
Qed.

Lemma set_times_ok name c w a d :
  dir_inv d -> refined (OpSetTimes name c w a) d (prod_map id Done (SetTimes name c w a d)).
Proof.
  intros Hd. unfold SetTimes. rewrite exists_guard.
  destruct (set_object_ok (CleanPath name) (with_times c w a) d Hd (CleanPath_clean name)) as (H1 & H2 & H3); [by split|].
  unfold refined. cbn [spec_exec]. destruct (decide _); [unchanged|].
  split; [done|]. split; [|done]. cbn [prod_map fst snd id]. by rewrite H2.
Qed.

Lemma set_eas_ok name eas d :
  dir_inv d -> refined (OpSetExtendedAttributes name eas) d (prod_map id Done (SetExtendedAttributes ToUpper name eas d)).
Proof.
  intros Hd. unfold SetExtendedAttributes. rewrite exists_guard.
  destruct (set_object_ok (CleanPath name) (with_eas eas) d Hd (CleanPath_clean name)) as (H1 & H2 & H3); [by split|].
  unfold refined. cbn [spec_exec]. destruct (decide _); [unchanged|].
  destruct (ValidateExtendedAttributes ToUpper eas); [|unchanged].
  split; [done|]. split; [|done]. cbn [prod_map fst snd id]. by rewrite H2.
Qed.

Lemma set_attributes_ok name a d :
  dir_inv d -> refined (OpSetAttributes name a) d (prod_map id Done (SetAttributes name a d)).
Proof.
  intros Hd. unfold SetAttributes. rewrite exists_guard. unfold refined. cbn [spec_exec].
  destruct (decide _); [unchanged|].
  split; [by apply dir_inv_attributes|]. split; [done|cbn; lia].
Qed.

(** A path shares its object exactly if another path has its identity. *)
Lemma shared_iff d p :
  dir_inv d ->
  shared (metadata_of d p) d = true <->
  md_HardLink (metadata_of d p) <> 0 /\
  exists q, q ∈ dom (d_metadata d) /\ q <> p /\ md_HardLink (metadata_of d q) = md_HardLink (metadata_of d p).
Proof.
  intros Hd. pose proof (di_links _ Hd) as Hl. unfold shared. rewrite andb_true_iff, negb_true_iff, Z.eqb_neq, Z.ltb_lt.
  rewrite (li_refs _ _ Hl). change (md_HardLink (metadata_of d ?q)) with (link_id (d_metadata d) q).
  assert (Hh : forall q, md_HardLink (metadata_of d q) = link_id (d_metadata d) q) by done.
  split; intros [H0 H1]; (split; [done|]).
  - assert (Hp : p ∈ names_of (d_links d) (link_id (d_metadata d) p)) by (by apply (li_names _ _ Hl)).
    pose proof (li_nodup _ _ Hl (link_id (d_metadata d) p)) as Hnd.
    assert (Hall : forall q, q ∈ names_of (d_links d) (link_id (d_metadata d) p) -> q <> p ->
      q ∈ dom (d_metadata d) /\ q <> p /\ link_id (d_metadata d) q = link_id (d_metadata d) p).
    { intros q Hq Hne. apply (li_names _ _ Hl) in Hq; [|done]. split; [apply link_id_dom; congruence|done]. }
    destruct (names_of (d_links d) (link_id (d_metadata d) p)) as [|x [|y ns]]; [set_solver|cbv in H1; done|].
    apply NoDup_cons in Hnd as [Hx _]. destruct (decide (x = p)) as [->|Hxp].
    + exists y. apply Hall; [right; left|]. intros ->. apply Hx. left.
    + exists x. apply Hall; [left|done].
  - destruct H1 as (q & _ & Hqp & Hq).
    assert (Hp : p ∈ names_of (d_links d) (link_id (d_metadata d) p)) by (by apply (li_names _ _ Hl)).
    assert (Hq' : q ∈ names_of (d_links d) (link_id (d_metadata d) p)) by (by apply (li_names _ _ Hl)).
    destruct (names_of (d_links d) (link_id (d_metadata d) p)) as [|x [|y ns]]; [set_solver|set_solver|].
    rewrite !zlen_cons. pose proof (zlen_nonneg ns). lia.
Qed.

Lemma set_reparse_ok name tag data d :
  dir_inv d -> room d -> refined (OpSetReparse name tag data) d (prod_map id Done (SetReparse name tag data d)).
Proof.
  intros Hd Hr. unfold SetReparse. rewrite exists_guard. unfold refined. cbn [spec_exec].
  pose proof (CleanPath_clean name) as Hp. set (p := CleanPath name) in *. clearbody p.
  destruct (decide (p ∉ _)); [unchanged|].
  destruct (_ || _); [unchanged|].
  destruct (_ <? zlen data); [unchanged|].
  pose proof (shared_iff d p Hd) as Hs.
  match goal with |- context [decide (?A /\ ?B)] => destruct (decide (A /\ B)) as [Hsh|Hsh] end.
  { apply Hs in Hsh. rewrite Hsh. unchanged. }
  destruct (shared (metadata_of d p) d); [by destruct Hsh; apply Hs|].
  change (t_meta (tree_of d) p) with (metadata_of d p).
  set (m := with_reparse tag (BytesFile (gostr "reparse payload") data) (metadata_of d p)).
  assert (Hm : 0 <= md_HardLink m < 2 ^ 64) by (apply (li_range _ _ (di_links _ Hd) p)). clearbody m.
  destruct (SetMetadata_ok p m d Hd Hr Hm) as [Hi (l & He)].
  rewrite CleanPath_id in He by done. cbn [prod_map fst snd id]. split; [done|]. rewrite He. split; [done|].
  cbn. pose proof (size_insert_le (d_metadata d) p m). lia.
Qed.

(** The loop of [SetFileAttributes] over the aliases. *)
Lemma file_attributes_each id f d ns :
  field_update f -> (forall p, p ∈ ns -> link_id (d_metadata d) p = id) ->
  foldl (fun d alias =>
           if md_HardLink (metadata_of d alias) =? id
           then with_attributes (delete alias (d_attributes d))
                  (with_metadata (<[alias := f (metadata_of d alias)]> (d_metadata d)) d)
           else d) d ns =
  with_attributes (foldl (fun a p => delete p a) (d_attributes d) ns)
    (with_metadata (update_each f (d_metadata d) ns) d).
Proof.
  intros Hf. revert d. induction ns as [|p ns IH]; intros d Hns; [by destruct d|]. cbn [foldl].
  assert (Hp : md_HardLink (metadata_of d p) = id) by (apply Hns; left). rewrite Hp, Z.eqb_refl.
  rewrite IH; [done|]. intros q Hq. cbn. unfold metadata_of. rewrite link_id_update by done. apply Hns. by right.
Qed.

Lemma lookup_delete_each (a : gmap gostring Attributes) ns q :
  foldl (fun a p => delete p a) a ns !! q = if decide (q ∈ ns) then None else a !! q.
Proof.
  revert a. induction ns as [|p ns IH]; intros a; [done|]. cbn [foldl]. rewrite IH.
  destruct (decide (q ∈ ns)); [by rewrite decide_True by (by right)|].
  destruct (decide (q = p)) as [->|]; [by rewrite lookup_delete_eq, decide_True by left|].
  by rewrite lookup_delete_ne, decide_False by (by rewrite ?elem_of_cons; naive_solver).
Qed.

(** The portable attributes that remain. *)
Lemma remaining_attributes d (p : gostring) (a' : gmap gostring Attributes) :
  (forall q : gostring, a' !! q = if decide (q = p \/ (link_id (d_metadata d) p <> 0 /\ link_id (d_metadata d) q = link_id (d_metadata d) p))
                       then None else d_attributes d !! q) ->
  a' = filter (fun qa => qa.1 <> p /\ (md_HardLink (t_meta (tree_of d) p) = 0 \/
         md_HardLink (t_meta (tree_of d) qa.1) <> md_HardLink (t_meta (tree_of d) p))) (d_attributes d).
Proof.
  intros Ha. apply map_eq. intros q. rewrite Ha, map_lookup_filter.
  assert (Hh : forall q, md_HardLink (t_meta (tree_of d) q) = link_id (d_metadata d) q) by done.
  destruct (d_attributes d !! q) as [x|]; cbn; [|by destruct (decide _)]. rewrite !Hh.
  destruct (decide (q = p \/ _)) as [Hq|Hq].
  - rewrite option_guard_False; [done|]. cbn [fst]. rewrite ?Hh. tauto.
  - rewrite option_guard_True; [done|]. cbn [fst]. rewrite ?Hh.
    destruct (decide (link_id (d_metadata d) p = 0)); tauto.
Qed.

Lemma set_file_attributes_ok name a d :
  dir_inv d -> refined (OpSetFileAttributes name a) d (prod_map id Done (SetFileAttributes name a d)).
Proof.
  intros Hd. unfold SetFileAttributes. rewrite exists_guard. unfold refined. cbn [spec_exec].
  pose proof (CleanPath_clean name) as Hp. set (p := CleanPath name) in *. clearbody p.
  destruct (decide (p ∉ _)); [unchanged|]. destruct (negb (_ =? 0)); [unchanged|].
  change (t_meta (tree_of d) p) with (metadata_of d p). change (t_dirs (tree_of d)) with (d_dirs d).
  set (flags := merged_attributes _ _ _). clearbody flags.
  assert (Hf : field_update (with_file_attributes (F := F) flags)) by (by split).
  pose proof (di_links _ Hd) as Hl. rewrite SetMetadata_same by done.
  set (d1 := with_attributes _ _).
  assert (Hres : forall a' M', M' = share p (with_file_attributes flags) (d_metadata d) ->
      (forall q : gostring, a' !! q = if decide (q = p \/ (link_id (d_metadata d) p <> 0 /\ link_id (d_metadata d) q = link_id (d_metadata d) p))
                       then None else d_attributes d !! q) ->
      let d' := with_attributes a' (with_metadata M' d) in
      dir_inv d' /\ accept (t_file_attributes p flags (tree_of d)) = (tree_of d', Done (Ok tt)) /\
      (size (d_metadata d') <= size (d_metadata d) + 2)%nat).
  { intros a' M' -> Ha. split; [apply dir_inv_attributes; rewrite <- (with_links_id d) at 2; apply dir_inv_metadata; [done|];
      eapply link_inv_ext; [|exact Hl]; intros q; by apply link_id_share|].
    split; [|cbn; pose proof (size_share p (with_file_attributes flags) (d_metadata d)); lia].
    rewrite (remaining_attributes d p a' Ha). done. }
  unfold shared. change (d_links d1) with (d_links d). rewrite (fu_link _ Hf).
  change (md_HardLink (metadata_of d p)) with (link_id (d_metadata d) p).
  destruct (negb (link_id (d_metadata d) p =? 0) && (1 <? refs_of (d_links d) (link_id (d_metadata d) p))) eqn:Hs.
  - apply andb_true_iff in Hs as [H0 _]. apply negb_true_iff, Z.eqb_neq in H0. cbv zeta.
    rewrite file_attributes_each; [|done|].
    2:{ intros q Hq. unfold d1. cbn. unfold metadata_of. rewrite link_id_update by done. by apply (li_names _ _ Hl) in Hq. }
    refine (Hres (foldl (fun a p => delete p a) (delete p (d_attributes d)) (names_of (d_links d) (link_id (d_metadata d) p)))
      (update_each (with_file_attributes flags) (<[p := with_file_attributes flags (metadata_of d p)]> (d_metadata d))
         (names_of (d_links d) (link_id (d_metadata d) p))) _ _).
    + by apply update_each_share.
    + intros q. rewrite lookup_delete_each. pose proof (li_names _ _ Hl (link_id (d_metadata d) p) q H0) as Hq.
      destruct (decide (q ∈ _)) as [Hin|Hin]; [rewrite decide_True by tauto; done|].
      destruct (decide (q = p)) as [->|Hne]; [by rewrite lookup_delete_eq, decide_True by tauto|].
      rewrite lookup_delete_ne by done. by rewrite decide_False by tauto.
  - refine (Hres (delete p (d_attributes d)) (<[p := with_file_attributes flags (metadata_of d p)]> (d_metadata d)) _ _).
    + symmetry. eapply share_single; [done|]. apply andb_false_iff in Hs as [Hs|Hs]; [left|right; lia].
      by apply negb_false_iff, Z.eqb_eq in Hs.
    + intros q. destruct (decide (q = p)) as [->|Hne]; [by rewrite lookup_delete_eq, decide_True by tauto|].
      rewrite lookup_delete_ne by done. rewrite decide_False; [done|]. intros [?|[H0 Hq]]; [done|].
      apply andb_false_iff in Hs as [Hs|Hs]; [by apply negb_false_iff, Z.eqb_eq in Hs|].
      assert (Hsh : shared (metadata_of d p) d = true).
      { apply shared_iff; [done|]. split; [done|]. exists q. split; [apply link_id_dom; congruence|done]. }
      unfold shared in Hsh. apply andb_true_iff in Hsh as [_ Hsh]. change (md_HardLink (metadata_of d p)) with (link_id (d_metadata d) p) in Hsh. congruence.
Qed.

(** ** Reading *)

Lemma sortedFileNames_ok d :
  dir_inv d -> exists c, sortedFileNames d = (with_caches c d, sort_Strings (elements (dom (d_files d)))) /\
    dir_inv (with_caches c d) /\ pathNames c = pathNames (d_caches d).
Proof.
  intros Hd. unfold sortedFileNames. pose proof (di_caches _ Hd) as Hc.
  destruct (sortedFiles (d_caches d)) as [names|] eqn:Hs.
  - exists (d_caches d). rewrite (ci_sorted _ _ _ _ _ _ Hc names Hs). by destruct d.
  - eexists. split; [done|]. split; [|done]. apply dir_inv_caches; [done|].
    destruct Hc as [H1 H2 H3 H4 H5 H6]. split; try done. by intros l [= <-].
Qed.

Lemma dir_files_ok d : dir_inv d -> refined OpFiles d (prod_map id Names (fileList d)).
Proof.
  intros Hd. unfold fileList. pose proof (di_caches _ Hd) as Hc.
  destruct (fileValues (d_caches d)) as [names|] eqn:Hv.
  - rewrite (ci_values _ _ _ _ _ _ Hc names Hv). by apply refined_same.
  - destruct (sortedFileNames_ok d Hd) as (c & -> & Hi & _). cbn. split; [|split; [done|cbn; lia]].
    apply (dir_inv_caches d); [done|]. destruct (di_caches _ Hi) as [H1 H2 H3 H4 H5 H6]. split; try done. by intros l [= <-].
Qed.

Lemma slot_inj l1 e1 l2 e2 : path_names_slot l1 e1 = path_names_slot l2 e2 -> l1 = l2 /\ e1 = e2.
Proof. by destruct l1, e1, l2, e2. Qed.

Lemma path_names_ok lower empty d :
  dir_inv d -> refined (OpPathNames lower empty) d (prod_map id NamesByKey (path_names ToLower lower empty d)).
Proof.
  intros Hd. unfold path_names. pose proof (di_caches _ Hd) as Hc.
  destruct (pathNames (d_caches d) !! path_names_slot lower empty) as [[x|]|] eqn:Hx.
  1:{ apply (refined_same _ d (NamesByKey (Ok x))); [done|]. cbn [spec_exec t_files t_dirs tree_of].
      by rewrite (ci_names _ _ _ _ _ _ Hc lower empty x Hx). }
  all: destruct (sortedFileNames_ok d Hd) as (c & -> & Hi & Hpn); cbn [d_dirs with_caches];
    destruct (buildPathNames ToLower lower empty (sort_Strings (elements (dom (d_files d)))) (d_dirs d)) as [x|e] eqn:Hb;
    (split; [|split; [cbn [spec_exec t_files t_dirs tree_of]; by rewrite Hb|cbn; lia]]); try done.
  all: apply (dir_inv_caches d); [done|]; destruct (di_caches _ Hi) as [H1 H2 H3 H4 H5 H6]; split; try done;
    [cbn; by rewrite length_insert|].
  all: intros l e y Hy; cbn in Hy; destruct (decide (path_names_slot lower empty = path_names_slot l e)) as [He|He];
    [rewrite He in Hy; apply slot_inj in He as [<- <-]; apply list_lookup_insert_Some in Hy as [(_ & [= <-] & _)|[? _]]; done
    |rewrite list_lookup_insert_ne in Hy by done; by apply H2].
Qed.

Lemma fat_index_ok d :
  dir_inv d -> exists c,
    currentFATShortIndex ToLower ToUpper EqualFold d =
      (with_caches c d, buildFATShortIndex ToLower ToUpper EqualFold (d_dirs d) (elements (dom (d_files d)))) /\
    dir_inv (with_caches c d).
Proof.
  intros Hd. unfold currentFATShortIndex. pose proof (di_caches _ Hd) as Hc.
  destruct (fatShortValid (d_caches d) && (fatShortRev (d_caches d) =? revision (d_caches d))) eqn:Hv.
  - apply andb_true_iff in Hv as [Hv Hr%Z.eqb_eq]. destruct (ci_fat _ _ _ _ _ _ Hc Hv) as [_ Hb].
    exists (d_caches d). rewrite Hb by done. by destruct d.
  - destruct (buildFATShortIndex ToLower ToUpper EqualFold (d_dirs d) (elements (dom (d_files d)))) as [index|e] eqn:Hb.
    + eexists. split; [done|]. apply dir_inv_caches; [done|]. destruct Hc as [H1 H2 H3 H4 H5 H6]. split; try done.
    + exists (d_caches d). by destruct d.
Qed.

Lemma CleanPath_slash name : exists rest, CleanPath name = slash :: rest.
Proof. destruct (CleanPath_clean name) as (ws & -> & _). by eexists. Qed.

Lemma short_path_ok name d :
  dir_inv d -> refined (OpShortPath name) d (prod_map id ShortPathIs (fatShortPath ToLower ToUpper EqualFold name d)).
Proof.
  intros Hd. unfold fatShortPath, refined. cbn [spec_exec]. destruct (drive_split name) as [drive name'].
  destruct (CleanPath_slash name') as [rest ->]. destruct (fat_index_ok d Hd) as (c & -> & Hi).
  cbn [t_files t_dirs tree_of tail]. change (slash =? slash) with true. cbv iota.
  destruct (buildFATShortIndex ToLower ToUpper EqualFold (d_dirs d) (elements (dom (d_files d)))) as [index|e];
    cbn [res_bind]; [|split; [done|split; [done|cbn; lia]]].
  destruct (short_components ToLower ToUpper EqualFold index root true (split_on slash rest)) as [parts|e];
    cbn [res_bind]; [|split; [done|split; [done|cbn; lia]]].
  destruct drive as [|x drive]; (split; [done|split; [|cbn; lia]]); [done|]. cbn [prod_map fst snd id].
  by rewrite <- app_assoc.
Qed.

Lemma find_ok name d : dir_inv d -> refined (OpFind name) d (d, Found (find_file name d)).
Proof.
  intros Hd. apply refined_same; [done|]. cbn [spec_exec t_files tree_of]. unfold find_file.
  destruct (d_files d !! CleanPath name) as [file|]; [|done]. cbn. by destruct (fr_File file).
Qed.

Lemma get_metadata_ok name d : dir_inv d -> refined (OpGetMetadata name) d (d, MetadataIs (get_metadata name d)).
Proof.
  intros Hd. apply refined_same; [done|]. unfold get_metadata. rewrite exists_guard. cbn [spec_exec].
  destruct (decide _); [done|]. cbn [t_files tree_of]. by destruct (d_files d !! CleanPath name).
Qed.

Lemma get_security_ok name d : dir_inv d -> refined (OpGetSecurity name) d (d, SecurityIs (get_security name d)).
Proof.
  intros Hd. apply refined_same; [done|]. unfold get_security. rewrite exists_guard. cbn [spec_exec].
  destruct (decide _); [done|]. change (t_meta (tree_of d) (CleanPath name)) with (metadata_of d (CleanPath name)).
  destruct (md_SecurityDescriptor (metadata_of d (CleanPath name))) as [|x sd]; [done|].
  rewrite zlen_cons. pose proof (zlen_nonneg sd). by replace (1 + zlen sd =? 0) with false by lia.
Qed.

Lemma clone_ok d : dir_inv d -> refined OpClone d (Clone d, Done (Ok tt)).
Proof.
  intros [Hr Hcl Hpa Hl Hc]. split; [|split; [done|cbn; lia]]. split; try done. apply names_inv_empty.
Qed.

Lemma New_inv : dir_inv New.
Proof.
  split; unfold paths_of; cbn.
  - set_solver.
  - intros p Hp. assert (p = root) as -> by set_solver. apply root_clean.
  - intros p Hp. assert (p = root) as -> by set_solver. set_solver.
  - apply link_inv_empty.
  - apply names_inv_empty.
Qed.

(** ** Every operation *)

(** The identities of metadata that a program sets are [uint64] values. *)
Definition dir_op_ok (op : dir_op) : Prop :=
  match op with OpSetMetadata _ m => 0 <= md_HardLink m < 2 ^ 64 | _ => True end.

Lemma exec_refined op d :
  dir_inv d -> Z.of_nat (size (d_metadata d)) < 2 ^ 62 -> dir_op_ok op -> refined op d (exec op d).
Proof.
  intros Hd Hs Hop. assert (Hr : room d) by (unfold room; lia).
  assert (Hput : forall name file, refined (OpPutFile name file) d (PutFile name file d, Done (Ok tt))).
  { intros name file. destruct (PutFile_ok name file d Hd) as (H1 & H2 & H3 & _). split; [done|]. cbn [spec_exec fst snd].
    rewrite H2, H3. split; [done|lia]. }
  destruct op; cbn [exec].
  - destruct (Mkdir_ok name d Hd) as (c & He & Hi). split; [done|]. cbn [fst snd]. rewrite He. split; [done|cbn; lia].
  - unfold write_file. destruct (virtualFileForValue value) as [file|e] eqn:Hv.
    + destruct (Hput name file) as (H1 & H2 & H3). split; [done|]. split; [|done]. cbn [spec_exec]. by rewrite Hv.
    + apply refined_same; [done|]. cbn [spec_exec]. by rewrite Hv.
  - apply Hput.
  - pose proof (HardLink_ok source destination d Hd Hs) as H. by destruct (HardLink source destination d).
  - by apply remove_ok.
  - by apply rmdir_ok.
  - destruct (SetMetadata_ok name m d Hd Hr Hop) as [Hi (l & He)]. split; [done|]. cbn [fst snd]. rewrite He.
    split; [done|]. cbn. pose proof (size_insert_le (d_metadata d) (CleanPath name) m). cbn in *. lia.
  - by apply set_reparse_ok.
  - by apply set_attributes_ok.
  - by apply set_security_ok.
  - by apply set_times_ok.
  - by apply set_file_attributes_ok.
  - by apply set_eas_ok.
  - by apply clone_ok.
  - by apply list_dir_ok.
  - by apply dir_files_ok.
  - by apply find_ok.
  - by apply get_metadata_ok.
  - by apply get_security_ok.
  - by apply path_names_ok.
  - by apply short_path_ok.
Qed.

(** A program: the results of its operations in order. *)
Fixpoint run {S : Type} (step : dir_op -> S -> S * dir_out) (ops : list dir_op) (s : S) : S * list dir_out :=
  match ops with
  | [] => (s, [])
  | op :: ops =>
      let '(s, o) := step op s in
      let '(s, os) := run step ops s in
      (s, o :: os)
  end.

Lemma run_refined ops d :
  dir_inv d -> Forall dir_op_ok ops -> Z.of_nat (size (d_metadata d)) + 2 * zlen ops < 2 ^ 62 ->
  dir_inv (run exec ops d).1 /\
  run spec_exec ops (tree_of d) = prod_map tree_of id (run exec ops d).
Proof.
  revert d. induction ops as [|op ops IH]; intros d Hd Hok Hs; [done|].
  apply Forall_cons in Hok as [Hop Hok]. rewrite zlen_cons in Hs. pose proof (zlen_nonneg ops).
  destruct (exec_refined op d Hd ltac:(lia) Hop) as (H1 & H2 & H3). cbn [run]. rewrite H2.
  destruct (exec op d) as [d' o]. cbn [fst snd] in *. destruct (IH d' H1 Hok ltac:(lia)) as [H4 H5]. rewrite H5.
  by destruct (run exec ops d').
Qed.

Definition empty_tree : tree := MkTree {[root]} ∅ ∅ ∅ 0.

(** C12. A directory tree with its indexes and caches refines one without.
    For every program of operations on a new directory, the results of the
    code are those of the abstract tree, in which a directory is listed by
    sorting its entries, a new hard link takes the least identity that no
    path has and an update of an object reaches every path with its
    identity; and the state of the code stays well formed: the paths are
    clean, every parent is a directory, the reference counts and alias lists
    are those of the metadata, and every cache that would be used holds what
    would be computed.  The bound on the length keeps the counts below
    2^64. *)
Theorem directory_refines ops :
  Forall dir_op_ok ops -> zlen ops < 2 ^ 61 ->
  dir_inv (run exec ops New).1 /\
  (run spec_exec ops empty_tree).2 = (run exec ops New).2 /\
  (run spec_exec ops empty_tree).1 = tree_of (run exec ops New).1.
Proof.
  intros Hok Hl. destruct (run_refined ops New New_inv Hok) as [Hi He].
  { change (size (d_metadata New)) with 0%nat. lia. }
  change (tree_of New) with empty_tree in He. rewrite He. by destruct (run exec ops New).
Qed.
End spec.

(** A program that links, lists, updates and removes. *)
Definition sample_ops : list (dir_op (F := unit)) :=
  [OpWrite (gostr "a/b/file") (StringValue (gostr "data"));
   OpListDir (gostr "/a");
   OpHardLink (gostr "/a/b/file") (gostr "a\c\alias");
   OpListDir (gostr "/a");
   OpSetTimes (gostr "/a/c/alias") 1 2 3;
   OpGetMetadata (gostr "/a/b/file");
   OpRemove (gostr "a/b/file");
   OpRmdir (gostr "a/b");
   OpListDir (gostr "/a");
   OpShortPath (gostr "C:\a\c\alias")].

Lemma directory_refines_witness :
  (run (spec_exec ascii_ToLower ascii_ToUpper ascii_EqualFold) sample_ops empty_tree).2 =
    [Done (Ok tt); Names [gostr "/a/b"]; Done (Ok tt); Names [gostr "/a/b"; gostr "/a/c"]; Done (Ok tt);
     MetadataIs (Ok (MkMetadataRecord [] 1 2 3 1 1 0 false)); Done (Ok tt); Done (Ok tt); Names [gostr "/a/c"];
     ShortPathIs (Ok (gostr "C:\A\C\ALIAS"))].
Proof.
  destruct (directory_refines ascii_ToLower ascii_ToUpper ascii_EqualFold sample_ops) as (_ & -> & _).
  - unfold sample_ops. repeat constructor.
  - vm_compute; done.
  - vm_compute; done.
Defined.
