(* ===== verification/DirectoryTree.v ===== *)
(** Package [filesystem]: the project view of a directory tree
    (src/filesystem/tree.go, and [Snapshot] of src/filesystem/directory.go).

    A view is a copy of the tree whose paths are relative.  [resolve_spec]
    says what path a project path names; the properties are about what the
    view finds there. *)

From S2P Require Import Prelude GoLib GoPath FatNames ExtAttr Directory DirectoryCaches DirectoryLinks DirectorySpec.
From stdpp Require Import base numbers list gmap sorting strings.

Open Scope Z_scope.
Open Scope trex_scope.

Record TreeEntry := MkTreeEntry { te_Name : gostring; te_Kind : string }.
Record TreeInfo := MkTreeInfo { ti_Kind : string; ti_Mode : Z; ti_Size : Z }.

(** [fs.ErrNotExist], wrapped with the name. *)
Definition errNotExist : error := Errorf "%w: %s".

(** [ProjectPath]. *)
Definition ProjectPath (name : gostring) : res gostring :=
  if bool_decide (head name = Some slash) || bool_decide (backslash ∈ name) || bool_decide (0 ∈ name)
  then Err (Errorf "invalid project path %q")
  else if bool_decide (dotdot ∈ split_on slash name) then Err (Errorf "parent traversal denied")
  else Ok (path_Clean name).

(** [strings.TrimPrefix(p, "/")]. *)
Definition trim_root (p : gostring) : gostring :=
  match p with x :: rest => if x =? slash then rest else p | [] => [] end.

Section tree_view.
Context {F : Type}.

Record Snapshot := MkSnapshot {
  s_Directories : list gostring;
  s_Files : gmap gostring (FileRecord F);
  s_Attributes : gmap gostring Attributes;
  s_Metadata : gmap gostring (Metadata F)
}.

(** [Directory.Snapshot]; the copies are values of their own. *)
Definition snapshot (d : Directory F) : Snapshot :=
  MkSnapshot (sort_Strings (elements (d_dirs d))) (d_files d) (d_attributes d) (d_metadata d).

Definition view_Lookup (s : Snapshot) (name : gostring) : res TreeInfo :=
  let! p := ProjectPath name in
  let p := CleanPath p in
  match s_Files s !! p with
  | Some file => Ok (MkTreeInfo "file" (6 * 64 + 4 * 8 + 4) (fr_Size file))
  | None =>
      let i := sort_SearchStrings (s_Directories s) p in
      if bool_decide (s_Directories s !! Z.to_nat i = Some p) then Ok (MkTreeInfo "dir" (7 * 64 + 5 * 8 + 5) 0)
      else Err errNotExist
  end.

(** The order of [sort.Slice] on entries. *)
Definition entry_le (a b : TreeEntry) : Prop := str_le (te_Name a) (te_Name b).

#[local] Instance entry_le_dec a b : Decision (entry_le a b).
Proof. unfold entry_le. apply _. Defined.

Definition view_ReadDir (s : Snapshot) (name : gostring) : res (list TreeEntry) :=
  let! p := ProjectPath name in
  let p := CleanPath p in
  let! info := view_Lookup s (trim_root p) in
  if negb (String.eqb (ti_Kind info) "dir") then Err (Errorf "not a directory: %s")
  else
    let dirs := filter (fun dir => dir <> p /\ path_Dir dir = p) (s_Directories s) in
    let files := filter (fun file => path_Dir file = p) (elements (dom (s_Files s))) in
    Ok (merge_sort entry_le
          (((fun dir => MkTreeEntry (path_Base dir) "dir") <$> dirs) ++
           ((fun file => MkTreeEntry (path_Base file) "file") <$> files))).

Definition view_OpenFile (s : Snapshot) (name : gostring) : res (starFile F) :=
  let! p := ProjectPath name in
  let p := CleanPath p in
  match s_Files s !! p with
  | None => Err errNotExist
  | Some file => Ok (match fr_File file with Some f => f | None => BytesFile p (fr_Data file) end)
  end.

(** ** Project paths *)

(** The elements of a project path that count. *)
Definition proper (w : gostring) : Prop := w <> [] /\ w <> dot.

#[local] Instance proper_dec w : Decision (proper w).
Proof. unfold proper. apply _. Defined.

Lemma clean_fold_proper rooted acc ws :
  dotdot ∉ ws -> foldl (clean_step rooted) acc ws = reverse (filter proper ws) ++ acc.
Proof.
  revert acc. induction ws as [|w ws IH]; intros acc Hdd; [done|]. apply not_elem_of_cons in Hdd as [Hw Hdd].
  cbn [foldl]. rewrite IH by done. unfold clean_step. rewrite filter_cons.
  destruct (decide (w = [])) as [->|H1]; [by rewrite (decide_False (P := proper [])) by (by intros [? _])|].
  destruct (decide (w = dot)) as [->|H2]; [by rewrite (decide_False (P := proper dot)) by (by intros [_ ?])|].
  rewrite (decide_False (P := w = dotdot)) by done. rewrite (decide_True (P := proper w)) by done.
  by rewrite reverse_cons, <- app_assoc.
Qed.

Lemma split_chars c s w x : w ∈ split_on c s -> x ∈ w -> x ∈ s.
Proof.
  revert w. induction s as [|y s IH]; intros w; cbn [split_on].
  - intros ->%list_elem_of_singleton. done.
  - destruct (y =? c).
    + intros [->|Hw]%elem_of_cons Hx; [by apply not_elem_of_nil in Hx|]. right. by eapply IH.
    + destruct (split_on c s) as [|v vs]; [intros ->%list_elem_of_singleton Hx; set_solver|].
      intros [->|Hw]%elem_of_cons Hx; [|right; by eapply IH; [right|]].
      apply elem_of_cons in Hx as [->|Hx]; [left|]. right. eapply IH; [left|done].
Qed.

Lemma filter_proper_id vs : Forall elem_ok vs -> filter proper vs = vs.
Proof.
  induction 1 as [|w vs (H1 & H2 & _) Hv IH]; [done|]. by rewrite filter_cons_True, IH.
Qed.

Lemma CleanPath_join vs : Forall elem_ok vs -> CleanPath (join_with slash vs) = abs vs.
Proof.
  intros Hv. rewrite <- (CleanPath_id (abs vs)) by (by exists vs).
  destruct vs as [|v vs]; [done|]. apply Forall_cons in Hv as [(Hne & _ & _ & Hs & Hb) _].
  destruct v as [|x v]; [done|]. apply not_elem_of_cons in Hs as [Hs _]. apply not_elem_of_cons in Hb as [Hb _].
  assert (Hj : exists t, join_with slash ((x :: v) :: vs) = x :: t) by (destruct vs; by eexists).
  unfold abs. destruct Hj as [t ->]. unfold CleanPath. rewrite !fmap_cons.
  change (slash =? backslash) with false. cbv iota. change (slash =? slash) with true. cbv iota zeta.
  replace (x =? backslash) with false by (symmetry; apply Z.eqb_neq; congruence).
  replace (x =? slash) with false by (symmetry; apply Z.eqb_neq; congruence). done.
Qed.

(** What a project path names: empty elements and [.] are dropped, and
    nothing else is changed. *)
Lemma resolve_spec name q :
  ProjectPath name = Ok q ->
  CleanPath q = abs (filter proper (split_on slash name)) /\
  Forall (fun w => elem_ok w /\ 0 ∉ w) (filter proper (split_on slash name)).
Proof.
  unfold ProjectPath. destruct (_ || _) eqn:Hg; [done|]. apply orb_false_iff in Hg as [Hg H0%bool_decide_eq_false].
  apply orb_false_iff in Hg as [Hh%bool_decide_eq_false Hb%bool_decide_eq_false].
  destruct (bool_decide_reflect (dotdot ∈ split_on slash name)) as [|Hdd]; [done|]. intros [= <-].
  set (vs := filter proper (split_on slash name)).
  assert (Hvs : Forall (fun w => elem_ok w /\ 0 ∉ w) vs).
  { apply Forall_forall. intros w [[Hw1 Hw2] Hw]%list_elem_of_filter.
    pose proof (split_on_words slash name) as Hs. rewrite Forall_forall in Hs. specialize (Hs w Hw).
    assert (w <> dotdot) by (intros ->; done).
    split; [|intros Hx; by apply H0, (split_chars slash _ w)].
    repeat split; try done. intros Hx. by apply Hb, (split_chars slash _ w). }
  split; [|done]. assert (Hok : Forall elem_ok vs) by (eapply Forall_impl; [exact Hvs|]; by intros ? [? _]).
  destruct name as [|x name]; [done|]. unfold path_Clean.
  destruct (Z.eqb_spec x slash) as [->|Hx]; [by destruct Hh|].
  rewrite clean_fold_proper, app_nil_r, reverse_involutive by done. fold vs.
  destruct (decide (join_with slash vs = [])) as [He|He]; [|by apply CleanPath_join].
  rewrite <- (CleanPath_join vs Hok), He. done.
Qed.

(** The relative name of a clean path names it. *)
Lemma ProjectPath_join vs :
  Forall (fun w => elem_ok w /\ 0 ∉ w) vs -> exists q, ProjectPath (join_with slash vs) = Ok q /\ CleanPath q = abs vs.
Proof.
  intros Hvs. assert (Hok : Forall elem_ok vs) by (eapply Forall_impl; [exact Hvs|]; by intros ? [? _]).
  assert (Hsp : Forall (fun w => slash ∉ w) vs) by (eapply Forall_impl; [exact Hok|]; by intros ? (_ & _ & _ & ? & _)).
  assert (Hch : forall x, x ∈ join_with slash vs -> x = slash \/ exists w, w ∈ vs /\ x ∈ w).
  { clear. intros x. induction vs as [|w [|v vs] IH]; cbn [join_with].
    - set_solver.
    - intros Hx. right. exists w. split; [left|done].
    - rewrite elem_of_app, elem_of_cons. intros [Hx|[->|Hx]]; [right; exists w; split; [left|done]|by left|].
      destruct (IH Hx) as [->|(u & Hu & Hxu)]; [by left|right]. exists u. split; [by right|done]. }
  assert (Hsplit : filter proper (split_on slash (join_with slash vs)) = vs /\ dotdot ∉ split_on slash (join_with slash vs)).
  { destruct (decide (vs = [])) as [->|Hne]; [split; [done|set_solver]|]. rewrite split_join by done.
    split; [by apply filter_proper_id|]. rewrite Forall_forall in Hok. intros (_ & _ & H & _)%Hok. done. }
  destruct Hsplit as [Hf Hdd]. destruct (ProjectPath (join_with slash vs)) as [q|e] eqn:Hp.
  - exists q. split; [done|]. apply resolve_spec in Hp as [-> _]. by rewrite Hf.
  - exfalso. revert Hp. unfold ProjectPath. rewrite (bool_decide_eq_false_2 (dotdot ∈ _)) by done.
    rewrite Forall_forall in Hvs.
    rewrite !bool_decide_eq_false_2; [done| | |].
    + intros [Hx|(w & [_ Hz]%Hvs & Hx)]%Hch; [done|by apply Hz].
    + intros [Hx|(w & [(_ & _ & _ & _ & Hz) _]%Hvs & Hx)]%Hch; [done|by apply Hz].
    + destruct vs as [|w vs]; [done|]. destruct (Hvs w ltac:(left)) as [(Hne & _ & _ & Hs & _) _].
      destruct w as [|x w]; [done|]. apply not_elem_of_cons in Hs as [Hs _]. destruct vs; cbn; congruence.
Qed.

(** ** Looking up and listing *)

Lemma search_member names x :
  StronglySorted str_le names -> NoDup names ->
  bool_decide (names !! Z.to_nat (sort_SearchStrings names x) = Some x) = bool_decide (x ∈ names).
Proof.
  intros Hs Hnd. destruct (search_split names x Hs Hnd) as (a & b & Hi & Hxa & Hxb & Hcase & _). rewrite Hi.
  apply bool_decide_ext. destruct Hcase as [->| ->].
  - rewrite lookup_app_r, Nat.sub_diag by lia. split; [|rewrite elem_of_app; tauto].
    intros Hl. apply list_elem_of_lookup_2 in Hl. tauto.
  - rewrite lookup_app_r, Nat.sub_diag by lia. split; [intros _; set_solver|done].
Qed.

Context (ToLower ToUpper : gostring -> gostring) (EqualFold : gostring -> gostring -> bool).
Implicit Types (d : Directory F).

Definition info_at d (p : gostring) : res TreeInfo :=
  match d_files d !! p with
  | Some file => Ok (MkTreeInfo "file" (6 * 64 + 4 * 8 + 4) (fr_Size file))
  | None => if decide (p ∈ d_dirs d) then Ok (MkTreeInfo "dir" (7 * 64 + 5 * 8 + 5) 0) else Err errNotExist
  end.

Lemma view_Lookup_info d name q :
  ProjectPath name = Ok q -> view_Lookup (snapshot d) name = info_at d (CleanPath q).
Proof.
  intros Hq. unfold view_Lookup, info_at. rewrite Hq. cbn [res_bind snapshot s_Files s_Directories].
  destruct (d_files d !! CleanPath q); [done|]. rewrite search_member.
  - destruct (decide (CleanPath q ∈ d_dirs d)) as [Hin|Hin].
    + rewrite bool_decide_eq_true_2; [done|]. by rewrite sort_Strings_perm, elem_of_elements.
    + rewrite bool_decide_eq_false_2; [done|]. by rewrite sort_Strings_perm, elem_of_elements.
  - apply sort_Strings_sorted.
  - rewrite sort_Strings_perm. apply NoDup_elements.
Qed.

(** The entries of a directory are its path and one more element. *)
Lemma child_shape q ws :
  is_clean q -> Forall elem_ok ws -> q <> root -> path_Dir q = abs ws ->
  exists b, q = abs (ws ++ [b]) /\ elem_ok b /\ path_Base q = b.
Proof.
  intros (vs & -> & Hv) Hws Hr Hd. destruct (decide (vs = [])) as [->|Hne]; [by destruct Hr|].
  destruct (exists_last Hne) as (us & b & ->). rewrite path_Dir_snoc in Hd by done.
  pose proof Hv as [Hu Hb]%Forall_app. apply abs_inj in Hd as ->; [|done|done].
  exists b. split; [done|]. split; [by apply Forall_cons in Hb as [? _]|by apply path_Base_snoc].
Qed.

Lemma str_leb_prefix c a b : str_leb (c ++ a) (c ++ b) = str_leb a b.
Proof. induction c as [|x c IH]; [done|]. cbn. rewrite IH. rewrite Z.ltb_irrefl, ?Z.eqb_refl. done. Qed.

Lemma abs_snoc_prefix ws : exists c, forall b, abs (ws ++ [b]) = c ++ b.
Proof.
  destruct (decide (ws = [])) as [->|Hne]; [exists [slash]; done|]. exists (slash :: join_with slash ws ++ [slash]).
  intros b. unfold abs. rewrite join_with_snoc by done. cbn. by rewrite <- app_assoc.
Qed.

(** Sorting the entries by path sorts their names. *)
Lemma base_sorted l ws :
  Forall elem_ok ws -> StronglySorted str_le l -> (forall q, q ∈ l -> is_clean q /\ q <> root /\ path_Dir q = abs ws) ->
  StronglySorted str_le (path_Base <$> l).
Proof.
  intros Hws. destruct (abs_snoc_prefix ws) as [c Hc]. induction 1 as [|x l Hs IH Hx]; intros Hall; [constructor|].
  rewrite fmap_cons. constructor; [apply IH; intros q Hq; apply Hall; by right|].
  destruct (Hall x ltac:(left)) as (Hxc & Hxr & Hxd). destruct (child_shape x ws Hxc Hws Hxr Hxd) as (bx & -> & _ & ->).
  apply Forall_fmap. rewrite Forall_forall in Hx |- *. intros y Hy. cbn.
  destruct (Hall y ltac:(by right)) as (Hyc & Hyr & Hyd). destruct (child_shape y ws Hyc Hws Hyr Hyd) as (b & -> & _ & ->).
  specialize (Hx _ Hy). unfold str_le in *. rewrite !Hc, str_leb_prefix in Hx. done.
Qed.

(** A list of entries is determined by its names when the kind is. *)
Lemma entries_by_name (l : list TreeEntry) names (kind : gostring -> string) :
  StronglySorted entry_le l -> StronglySorted str_le names -> (te_Name <$> l) ≡ₚ names ->
  Forall (fun e => te_Kind e = kind (te_Name e)) l ->
  l = (fun n => MkTreeEntry n (kind n)) <$> names.
Proof.
  intros Hs Hn Hp Hk. assert (Hnames : te_Name <$> l = names).
  { apply (StronglySorted_unique str_le); [|done|done]. clear -Hs. induction Hs as [|e l Hs IH He]; [constructor|].
    rewrite fmap_cons. constructor; [done|]. by apply Forall_fmap. }
  rewrite <- Hnames. clear -Hk. induction Hk as [|[n k] l Hk _ IH]; [done|]. rewrite !fmap_cons. cbn in *. by rewrite <- IH, Hk.
Qed.

Definition entry_at d (q : gostring) : TreeEntry :=
  MkTreeEntry (path_Base q) (if decide (q ∈ d_dirs d) then "dir" else "file").

#[local] Instance entry_le_total : Total entry_le.
Proof. intros a b. unfold entry_le. apply str_le_total. Qed.

#[local] Instance entry_le_trans : Transitive entry_le.
Proof. intros a b c. unfold entry_le. apply str_le_trans. Qed.

Lemma view_entries d ws :
  dir_inv ToLower ToUpper EqualFold d -> d_dirs d ## dom (d_files d) -> Forall elem_ok ws ->
  merge_sort entry_le
    (((fun dir => MkTreeEntry (path_Base dir) "dir") <$>
        filter (fun dir => dir <> abs ws /\ path_Dir dir = abs ws) (sort_Strings (elements (d_dirs d)))) ++
     ((fun file => MkTreeEntry (path_Base file) "file") <$>
        filter (fun file => path_Dir file = abs ws) (elements (dom (d_files d))))) =
  entry_at d <$> kids (paths_of d) (abs ws).
Proof.
  intros Hd Hdis Hws. set (p := abs ws). set (kind := fun n => if decide (abs (ws ++ [n]) ∈ d_dirs d) then "dir"%string else "file"%string).
  assert (Hkid : forall q, q ∈ kids (paths_of d) p -> is_clean q /\ q <> root /\ path_Dir q = abs ws).
  { intros q (Hq & Hr & Hp)%elem_of_kids. split; [by apply (di_clean _ _ _ _ Hd)|done]. }
  assert (Hbase : forall q, q ∈ kids (paths_of d) p -> abs (ws ++ [path_Base q]) = q).
  { intros q Hq. destruct (Hkid q Hq) as (H1 & H2 & H3). by destruct (child_shape q ws H1 Hws H2 H3) as (b & -> & _ & ->). }
  assert (Hroot : root ∉ dom (d_files d)) by (pose proof (di_root _ _ _ _ Hd); set_solver).
  assert (Hdk : forall q, q ∈ d_dirs d /\ q <> p /\ path_Dir q = p <-> q ∈ d_dirs d /\ q ∈ kids (paths_of d) p).
  { intros q. rewrite elem_of_kids. unfold paths_of. split; [|intros (H1 & _ & H2 & H3)].
    - intros (H1 & H2 & H3). split; [done|]. split; [set_solver|]. split; [|done]. intros ->. by change (path_Dir root) with root in H3.
    - split; [done|]. split; [|done]. intros ->. destruct (child_shape p ws) as (b & Hb & Hok & _); [by exists ws|done|done|done|].
      apply abs_inj in Hb; [|done|by apply Forall_app; split; [|constructor]].
      apply (f_equal length) in Hb. rewrite length_app in Hb. cbn in Hb. lia. }
  assert (Hfk : forall q, q ∈ dom (d_files d) /\ path_Dir q = p <-> q ∉ d_dirs d /\ q ∈ kids (paths_of d) p).
  { intros q. rewrite elem_of_kids. unfold paths_of. split; [|set_solver]. intros [H1 H2].
    split; [set_solver|]. split; [set_solver|]. split; [|done]. by intros ->. }
  set (ds := filter _ (sort_Strings _)). set (fs := filter _ (elements _)).
  assert (Hds : forall q, q ∈ ds <-> q ∈ d_dirs d /\ q ∈ kids (paths_of d) p).
  { intros q. unfold ds. rewrite list_elem_of_filter, sort_Strings_perm, elem_of_elements, <- Hdk. tauto. }
  assert (Hfs : forall q, q ∈ fs <-> q ∉ d_dirs d /\ q ∈ kids (paths_of d) p).
  { intros q. unfold fs. rewrite list_elem_of_filter, elem_of_elements, <- Hfk. tauto. }
  assert (Hperm : ds ++ fs ≡ₚ kids (paths_of d) p).
  { apply NoDup_Permutation; [|apply kids_nodup|].
    - apply NoDup_app. split; [unfold ds; apply NoDup_filter; rewrite sort_Strings_perm; apply NoDup_elements|].
      split; [|apply NoDup_filter, NoDup_elements]. intros q [? _]%Hds [? _]%Hfs. done.
    - intros q. rewrite elem_of_app, Hds, Hfs. destruct (decide (q ∈ d_dirs d)); tauto. }
  rewrite (entries_by_name _ (path_Base <$> kids (paths_of d) p) kind).
  - rewrite <- list_fmap_compose. apply list_fmap_ext. intros i q Hq%list_elem_of_lookup_2. unfold compose, entry_at, kind.
    by rewrite Hbase.
  - apply (StronglySorted_merge_sort entry_le).
  - eapply base_sorted; [done|apply kids_sorted|done].
  - rewrite merge_sort_Permutation, fmap_app, <- !list_fmap_compose. rewrite <- Hperm, fmap_app. done.
  - rewrite merge_sort_Permutation. apply Forall_app. split; apply Forall_fmap, Forall_forall; intros q Hq; cbn; unfold kind.
    + apply Hds in Hq as [Hq1 Hq2]. by rewrite Hbase, decide_True.
    + apply Hfs in Hq as [Hq1 Hq2]. by rewrite Hbase, decide_False.
Qed.

End tree_view.

