(* ===== verification/Nbd.v ===== *)
(** Package [nbd]: the server of the NBD protocol
    (src/block/nbd/server.go).

    The connection is two byte streams: what the client sends is a list that
    is consumed, what the server sends is a list that grows.  A device is any
    implementation of the block interfaces; the optional ones are options.
    The workers of a connection and the loop that reads requests are the
    steps of [conn_step].  A channel that fails ends the connection where it
    stands; deadlines, buffers that are reused and the metrics of the host
    are not part of the model. *)

From S2P Require Import Prelude GoLib GoPath Block.
From stdpp Require Import base numbers list strings relations.

Open Scope Z_scope.
Open Scope trex_scope.

(** ** Exact reads *)

(** [io.ReadFull] on the stream. *)
Definition read_full (n : Z) (input : bytes) : res (bytes * bytes) :=
  if n =? 0 then Ok ([], input)
  else if zlen input =? 0 then Err EOF
  else if zlen input <? n then Err ErrUnexpectedEOF
  else Ok (take (Z.to_nat n) input, drop (Z.to_nat n) input).

(** [binary.Read] of one integer. *)
Definition read_be (n : Z) (input : bytes) : res (Z * bytes) :=
  let! (b, input) := read_full n input in
  Ok (be_val b, input).

(** ** Constants of the protocol *)

Abbreviation nbdMagic := 0x4e42444d41474943 (only parsing).
Abbreviation nbdOptionsMagic := 0x49484156454f5054 (only parsing).
Abbreviation nbdOptionReplyMagic := 0x0003e889045565a9 (only parsing).
Abbreviation nbdRequestMagic := 0x25609513 (only parsing).
Abbreviation nbdSimpleReplyMagic := 0x67446698 (only parsing).
Abbreviation nbdStructuredMagic := 0x668e33ef (only parsing).
Abbreviation nbdMaxOptionSize := 1048576 (only parsing).
Abbreviation nbdMaxExportName := 4096 (only parsing).
Abbreviation nbdDefaultMaxRequest := 8388608 (only parsing).

Abbreviation nbdOptExportName := 1 (only parsing).
Abbreviation nbdOptAbort := 2 (only parsing).
Abbreviation nbdOptList := 3 (only parsing).
Abbreviation nbdOptInfo := 6 (only parsing).
Abbreviation nbdOptGo := 7 (only parsing).
Abbreviation nbdOptStructuredReply := 8 (only parsing).
Abbreviation nbdOptListMetaContext := 9 (only parsing).
Abbreviation nbdOptSetMetaContext := 10 (only parsing).

Abbreviation nbdRepACK := 1 (only parsing).
Abbreviation nbdRepServer := 2 (only parsing).
Abbreviation nbdRepInfo := 3 (only parsing).
Abbreviation nbdRepMetaContext := 4 (only parsing).
Abbreviation nbdRepErrUnsup := 0x80000001 (only parsing).
Abbreviation nbdRepErrInvalid := 0x80000003 (only parsing).
Abbreviation nbdRepErrUnknown := 0x80000006 (only parsing).
Abbreviation nbdRepErrTooBig := 0x80000009 (only parsing).

Abbreviation nbdCommandRead := 0 (only parsing).
Abbreviation nbdCommandWrite := 1 (only parsing).
Abbreviation nbdCommandDisconnect := 2 (only parsing).
Abbreviation nbdCommandFlush := 3 (only parsing).
Abbreviation nbdCommandTrim := 4 (only parsing).
Abbreviation nbdCommandCache := 5 (only parsing).
Abbreviation nbdCommandWriteZeroes := 6 (only parsing).
Abbreviation nbdCommandBlockStatus := 7 (only parsing).

Abbreviation nbdCommandFlagFUA := 1 (only parsing).
Abbreviation nbdCommandFlagNoHole := 2 (only parsing).
Abbreviation nbdCommandFlagDF := 4 (only parsing).
Abbreviation nbdCommandFlagReqOne := 8 (only parsing).
Abbreviation nbdCommandFlagFastZero := 16 (only parsing).

Abbreviation nbdStructuredDone := 1 (only parsing).
Abbreviation nbdStructuredOffsetData := 1 (only parsing).
Abbreviation nbdStructuredBlockStatus := 5 (only parsing).
Abbreviation nbdStructuredError := 0x8001 (only parsing).

Abbreviation nbdErrPerm := 1 (only parsing).
Abbreviation nbdErrIO := 5 (only parsing).
Abbreviation nbdErrInvalid := 22 (only parsing).
Abbreviation nbdErrNoSpace := 28 (only parsing).
Abbreviation nbdErrOverflow := 75 (only parsing).
Abbreviation nbdErrNotSup := 95 (only parsing).

(** ** The wire *)

Record nbdRequest := MkRequest {
  rq_flags : Z;
  rq_kind : Z;
  rq_cookie : Z;
  rq_offset : Z;
  rq_length : Z;
  rq_data : bytes
}.

Definition with_data (data : bytes) (r : nbdRequest) : nbdRequest :=
  MkRequest (rq_flags r) (rq_kind r) (rq_cookie r) (rq_offset r) (rq_length r) data.

Definition optionReply (option reply : Z) (data : bytes) : bytes :=
  be_bytes 8 nbdOptionReplyMagic ++ be_bytes 4 option ++ be_bytes 4 reply ++ be_bytes 4 (zlen data) ++ data.

Definition readRequest (input : bytes) : res (nbdRequest * bytes) :=
  let! (m0, input) := read_full 1 input in
  let! (m1, input) := read_full 3 input in
  let! (flags, input) := read_be 2 input in
  let! (kind, input) := read_be 2 input in
  let! (cookie, input) := read_be 8 input in
  let! (offset, input) := read_be 8 input in
  let! (length, input) := read_be 4 input in
  if negb (be_val (m0 ++ m1) =? nbdRequestMagic) then Err (Errorf "nbd: invalid request magic %#x")
  else Ok (MkRequest flags kind cookie offset length [], input).

Definition simpleReply (cookie errno : Z) (data : bytes) : bytes :=
  be_bytes 4 nbdSimpleReplyMagic ++ be_bytes 4 errno ++ be_bytes 8 cookie ++
  if errno =? 0 then data else [].

Definition structuredReply (cookie flags replyType : Z) (data : bytes) : bytes :=
  be_bytes 4 nbdStructuredMagic ++ be_bytes 2 flags ++ be_bytes 2 replyType ++ be_bytes 8 cookie ++
  be_bytes 4 (zlen data) ++ data.

Record nbdNegotiationState := MkNegotiation {
  ns_structured : bool;
  ns_allocation : bool;
  ns_noZeroes : bool;
  ns_abort : bool
}.

Definition commandDone (r : nbdRequest) (state : nbdNegotiationState) : bytes :=
  if ns_structured state then structuredReply (rq_cookie r) nbdStructuredDone 0 []
  else simpleReply (rq_cookie r) 0 [].

Definition commandError (r : nbdRequest) (state : nbdNegotiationState) (errno : Z) (message : gostring) : bytes :=
  if ns_structured state then
    let message := take 4096 message in
    structuredReply (rq_cookie r) nbdStructuredDone nbdStructuredError
      (be_bytes 4 errno ++ be_bytes 2 (zlen message) ++ message)
  else simpleReply (rq_cookie r) errno [].

(** ** Parsing options *)

Fixpoint read_requests (count : nat) (data : bytes) : list Z :=
  match count with
  | O => []
  | S count => be_val (take 2 data) :: read_requests count (drop 2 data)
  end.

Definition parseNBDInfoRequest (data : bytes) : res (gostring * list Z) :=
  if zlen data <? 6 then Err (Errorf "short info request")
  else
    let nameLength := be_val (slice 0 4 data) in
    if (nbdMaxExportName <? nameLength) || (zlen data - 6 <? nameLength)
    then Err (Errorf "invalid export name length")
    else
      let name := slice 4 nameLength data in
      let off := 4 + nameLength in
      let count := be_val (slice off 2 data) in
      let off := off + 2 in
      if ((zlen data - off) / 2 <? count) || negb (off + count * 2 =? zlen data)
      then Err (Errorf "invalid info request count")
      else Ok (name, read_requests (Z.to_nat count) (drop (Z.to_nat off) data)).

Fixpoint read_queries (count : nat) (data : bytes) (off : Z) : res (list gostring * Z) :=
  match count with
  | O => Ok ([], off)
  | S count =>
      if zlen data - 4 <? off then Err (Errorf "short metadata query")
      else
        let length := be_val (slice off 4 data) in
        let off := off + 4 in
        if zlen data - off <? length then Err (Errorf "invalid metadata query length")
        else
          let! (queries, last) := read_queries count data (off + length) in
          Ok (slice off length data :: queries, last)
  end.

Definition parseNBDMetaContextRequest (data : bytes) : res (list gostring * gostring) :=
  if zlen data <? 8 then Err (Errorf "short metadata request")
  else
    let nameLength := be_val (slice 0 4 data) in
    if (nbdMaxExportName <? nameLength) || (zlen data - 8 <? nameLength)
    then Err (Errorf "invalid metadata export name")
    else
      let name := slice 4 nameLength data in
      let off := 4 + nameLength in
      let count := be_val (slice off 4 data) in
      if 1024 <? count then Err (Errorf "too many metadata queries")
      else
        let! (queries, off) := read_queries (Z.to_nat count) data (off + 4) in
        if negb (off =? zlen data) then Err (Errorf "trailing metadata request data")
        else Ok (queries, name).

(** ** The server *)

(** A device as the server reaches it; its geometry and capabilities do not
    change.  [do_Acquire] is [blockDeviceLease]: taking a lease, and what
    releasing it does. *)
Record DeviceOps (S : Type) := MkDeviceOps {
  do_Geometry : Geometry;
  do_Capabilities : Capabilities;
  do_ReadAt : S -> Z -> Z -> S * bytes * option error;
  do_WriteAt : option (S -> bytes -> Z -> S * option error);
  do_Flush : option (S -> S * option error);
  do_ZeroAt : option (S -> Z -> Z -> S * option error);
  do_TrimAt : option (S -> Z -> Z -> S * option error);
  do_Extents : option (S -> Z -> Z -> res (list Extent));
  do_Prefetch : option (S -> Z -> Z -> S * option error);
  do_Acquire : option ((S -> S * option error) * (S -> S))
}.
Arguments do_Geometry {S}. Arguments do_Capabilities {S}. Arguments do_ReadAt {S}. Arguments do_WriteAt {S}.
Arguments do_Flush {S}. Arguments do_ZeroAt {S}. Arguments do_TrimAt {S}. Arguments do_Extents {S}.
Arguments do_Prefetch {S}. Arguments do_Acquire {S}.

Record NBDServer := MkNBDServer {
  srv_exportName : gostring;
  srv_maxRequest : Z;
  srv_structured : bool;
  srv_workers : nat
}.

(** The counters of commands. *)
Record nbdCounters := MkCounters {
  ct_reads : Z;
  ct_writes : Z;
  ct_readBytes : Z;
  ct_writeBytes : Z;
  ct_flushes : Z;
  ct_zeroes : Z;
  ct_trims : Z;
  ct_cacheHints : Z;
  ct_commandErrs : Z
}.

(** Additions to the counters, which are atomic. *)
Definition add_counters (a b : nbdCounters) : nbdCounters :=
  MkCounters (u64 (ct_reads a + ct_reads b)) (u64 (ct_writes a + ct_writes b))
    (u64 (ct_readBytes a + ct_readBytes b)) (u64 (ct_writeBytes a + ct_writeBytes b))
    (u64 (ct_flushes a + ct_flushes b)) (u64 (ct_zeroes a + ct_zeroes b)) (u64 (ct_trims a + ct_trims b))
    (u64 (ct_cacheHints a + ct_cacheHints b)) (u64 (ct_commandErrs a + ct_commandErrs b)).

Definition count_read (n : Z) : nbdCounters := MkCounters 1 0 n 0 0 0 0 0 0.
Definition count_write (n : Z) : nbdCounters := MkCounters 0 1 0 n 0 0 0 0 0.
Definition count_flush : nbdCounters := MkCounters 0 0 0 0 1 0 0 0 0.
Definition count_zero : nbdCounters := MkCounters 0 0 0 0 0 1 0 0 0.
Definition count_trim : nbdCounters := MkCounters 0 0 0 0 0 0 1 0 0.
Definition count_cache : nbdCounters := MkCounters 0 0 0 0 0 0 0 1 0.
Definition count_error : nbdCounters := MkCounters 0 0 0 0 0 0 0 0 1.
Definition count_none : nbdCounters := MkCounters 0 0 0 0 0 0 0 0 0.

Fixpoint nbdErrorCode (e : error) : Z :=
  match e with
  | Wrapf _ cause => nbdErrorCode cause
  | ErrReadOnly => nbdErrPerm
  | ErrUnsupported => nbdErrNotSup
  | ErrOutOfRange => nbdErrInvalid
  | BlockCapacityError _ _ _ => nbdErrNoSpace
  | _ => nbdErrIO
  end.

Definition nbdMutationBarrier (kind : Z) : bool :=
  (kind =? nbdCommandWrite) || (kind =? nbdCommandFlush) || (kind =? nbdCommandTrim)
  || (kind =? nbdCommandWriteZeroes).

Section server.
Context {S : Type} (ops : DeviceOps S).
(** [error.Error]. *)
Context (text : error -> gostring).

Definition NewNBDServer (exportName : gostring) (maxRequest : Z) : res NBDServer :=
  if (nbdMaxExportName <? zlen exportName) || bool_decide (0 ∈ exportName)
  then Err (Errorf "nbd: invalid export name")
  else if (maxRequest =? 0) || (nbdDefaultMaxRequest <? maxRequest)
  then Err (Errorf "nbd: max_request must be between 1 and %d")
  else
    let geometry := do_Geometry ops in
    if (g_Size geometry <? 0) || (MaxInt64 <? g_Size geometry) then Err (Errorf "nbd: invalid device size")
    else if (g_MinimumTransfer geometry =? 0) || (maxRequest <? g_MinimumTransfer geometry)
    then Err (Errorf "nbd: max_request is smaller than the minimum transfer")
    else Ok (MkNBDServer exportName maxRequest true 4).

Context (s : NBDServer).

Definition transmissionFlags (state : nbdNegotiationState) : Z :=
  let c := do_Capabilities ops in
  let flags := 1 in
  let flags := if negb (cap_Writable c) then Z.lor flags 2 else flags in
  let flags := if cap_Flush c then Z.lor flags 12 else flags in
  let flags := if cap_Trim c then Z.lor flags 32 else flags in
  let flags := if cap_Zero c then Z.lor flags (64 + 2048) else flags in
  let flags := if cap_Prefetch c then Z.lor flags 1024 else flags in
  if ns_structured state then Z.lor flags 128 else flags.

Definition writeInfoReplies (option : Z) (requests : list Z) (state : nbdNegotiationState) : bytes :=
  let wantBlockSize := bool_decide (3 ∈ requests) in
  let wantName := bool_decide (1 ∈ requests) in
  let g := do_Geometry ops in
  let export := be_bytes 2 0 ++ be_bytes 8 (u64 (g_Size g)) ++ be_bytes 2 (transmissionFlags state) in
  optionReply option nbdRepInfo export ++
  (if wantName then optionReply option nbdRepInfo (be_bytes 2 1 ++ srv_exportName s) else []) ++
  (if wantBlockSize then
     let maximum := if (g_MaximumTransfer g =? 0) || (srv_maxRequest s <? g_MaximumTransfer g)
                    then srv_maxRequest s else g_MaximumTransfer g in
     optionReply option nbdRepInfo
       (be_bytes 2 3 ++ be_bytes 4 (g_MinimumTransfer g) ++ be_bytes 4 (g_PreferredTransfer g) ++ be_bytes 4 maximum)
   else []) ++
  optionReply option nbdRepACK [].

Definition allocation_context : gostring := gostr "base:allocation".

(** One option: what is sent, and the state to go on with or to stop in. *)
Inductive option_result :=
  | Continue (out : bytes) (state : nbdNegotiationState)
  | Finish (out : bytes) (state : nbdNegotiationState)
  | Fail (out : bytes) (e : error).

Definition handleOption (option : Z) (data : bytes) (state : nbdNegotiationState) : option_result :=
  if option =? nbdOptAbort then
    if negb (zlen data =? 0) then Continue (optionReply option nbdRepErrInvalid []) state
    else Finish (optionReply option nbdRepACK [])
           (MkNegotiation (ns_structured state) (ns_allocation state) (ns_noZeroes state) true)
  else if option =? nbdOptList then
    if negb (zlen data =? 0) then Continue (optionReply option nbdRepErrInvalid []) state
    else Continue (optionReply option nbdRepServer (be_bytes 4 (zlen (srv_exportName s)) ++ srv_exportName s) ++
                   optionReply option nbdRepACK []) state
  else if option =? nbdOptStructuredReply then
    if negb (zlen data =? 0) then Continue (optionReply option nbdRepErrInvalid []) state
    else if negb (srv_structured s) then Continue (optionReply option nbdRepErrUnsup []) state
    else Continue (optionReply option nbdRepACK [])
           (MkNegotiation true (ns_allocation state) (ns_noZeroes state) (ns_abort state))
  else if (option =? nbdOptListMetaContext) || (option =? nbdOptSetMetaContext) then
    match parseNBDMetaContextRequest data with
    | Err _ => Continue (optionReply option nbdRepErrInvalid []) state
    | Ok (queries, name) =>
        if negb (bool_decide (name = srv_exportName s)) || negb (ns_structured state)
        then Continue (optionReply option nbdRepErrInvalid []) state
        else
          let matched := existsb (fun q => bool_decide (q = gostr "base:") || bool_decide (q = allocation_context)) queries in
          let out := if matched then optionReply option nbdRepMetaContext (be_bytes 4 1 ++ allocation_context) else [] in
          let state := if option =? nbdOptSetMetaContext
                       then MkNegotiation (ns_structured state) matched (ns_noZeroes state) (ns_abort state)
                       else state in
          Continue (out ++ optionReply option nbdRepACK []) state
    end
  else if (option =? nbdOptInfo) || (option =? nbdOptGo) then
    match parseNBDInfoRequest data with
    | Err _ => Continue (optionReply option nbdRepErrInvalid []) state
    | Ok (name, requests) =>
        if negb (bool_decide (name = srv_exportName s)) then Continue (optionReply option nbdRepErrUnknown []) state
        else if option =? nbdOptGo then Finish (writeInfoReplies option requests state) state
        else Continue (writeInfoReplies option requests state) state
    end
  else if option =? nbdOptExportName then
    if negb (bool_decide (data = srv_exportName s)) then Fail [] (Errorf "nbd: unknown export %q")
    else Finish (be_bytes 8 (u64 (g_Size (do_Geometry ops))) ++ be_bytes 2 (transmissionFlags state) ++
                 if ns_noZeroes state then [] else zeros 124) state
  else Continue (optionReply option nbdRepErrUnsup []) state.

(** The loop over the options: every round consumes at least the sixteen
    bytes of a header.  The result has what was sent and what is left of the
    input. *)
Fixpoint negotiate_loop (fuel : nat) (input : bytes) (state : nbdNegotiationState) (out : bytes)
    : bytes * res (nbdNegotiationState * bytes) :=
  match fuel with
  | O => (out, Err OutOfFuel)
  | Datatypes.S fuel =>
      match (let! (magic, input) := read_be 8 input in
             let! (option, input) := read_be 4 input in
             let! (length, input) := read_be 4 input in
             Ok (magic, option, length, input)) with
      | Err e => (out, Err e)
      | Ok (magic, option, length, input) =>
          if negb (magic =? nbdOptionsMagic) then (out, Err (Errorf "nbd: invalid option magic %#x"))
          else if nbdMaxOptionSize <? length then
            (out ++ optionReply option nbdRepErrTooBig [], Err (Errorf "nbd: option payload exceeds %d bytes"))
          else
            match read_full length input with
            | Err e => (out, Err e)
            | Ok (data, input) =>
                match handleOption option data state with
                | Continue reply state => negotiate_loop fuel input state (out ++ reply)
                | Finish reply state => (out ++ reply, Ok (state, input))
                | Fail reply e => (out ++ reply, Err e)
                end
            end
      end
  end.

Definition negotiate (input : bytes) : bytes * res (nbdNegotiationState * bytes) :=
  let out := be_bytes 8 nbdMagic ++ be_bytes 8 nbdOptionsMagic ++ be_bytes 2 3 in
  match read_be 4 input with
  | Err e => (out, Err e)
  | Ok (clientFlags, input) =>
      if (Z.land clientFlags 1 =? 0) || negb (Z.ldiff clientFlags 3 =? 0)
      then (out, Err (Errorf "nbd: unsupported client handshake flags %#x"))
      else negotiate_loop (Datatypes.S (length input)) input
             (MkNegotiation false false (negb (Z.land clientFlags 2 =? 0)) false) out
  end.

(** ** Commands *)

Definition aligned (offset length : Z) : bool :=
  let minimum := g_MinimumTransfer (do_Geometry ops) in
  negb (minimum =? 0) && (offset mod minimum =? 0) && (length mod minimum =? 0).

Definition device_flush (st : S) : S * option error :=
  match do_Flush ops with
  | Some flush => if cap_Flush (do_Capabilities ops) then flush st else (st, Some ErrUnsupported)
  | None => (st, Some ErrUnsupported)
  end.

(** The reply to a request with its counters. *)
Definition failed (r : nbdRequest) (state : nbdNegotiationState) (errno : Z) (message : gostring)
    : nbdCounters * res bytes := (count_error, Ok (commandError r state errno message)).

Definition device_failed (r : nbdRequest) (state : nbdNegotiationState) (e : error) : nbdCounters * res bytes :=
  failed r state (nbdErrorCode e) (text e).

(** A mutation, the flush that FUA asks for, and the reply. *)
Definition finish_mutation (r : nbdRequest) (state : nbdNegotiationState) (c : nbdCounters) (st : S) (e : option error)
    : S * (nbdCounters * res bytes) :=
  match e with
  | Some e => (st, device_failed r state e)
  | None =>
      if negb (Z.land (rq_flags r) nbdCommandFlagFUA =? 0) then
        match device_flush st with
        | (st, Some e) => (st, device_failed r state e)
        | (st, None) => (st, (c, Ok (commandDone r state)))
        end
      else (st, (c, Ok (commandDone r state)))
  end.

Fixpoint status_payload (extents : list Extent) : res bytes :=
  match extents with
  | [] => Ok []
  | x :: extents =>
      if (x_Length x <=? 0) || (MaxUint32 <? x_Length x) then Err (Errorf "extent is too large")
      else
        let! rest := status_payload extents in
        Ok (be_bytes 4 (x_Length x) ++ be_bytes 4 (if x_Allocated x then 0 else 3) ++ rest)
  end.

Definition handle_read (r : nbdRequest) (state : nbdNegotiationState) (st : S) : S * (nbdCounters * res bytes) :=
  if negb (Z.ldiff (rq_flags r) nbdCommandFlagDF =? 0)
     || negb (Z.land (rq_flags r) nbdCommandFlagDF =? 0) && negb (ns_structured state)
  then (st, failed r state nbdErrInvalid (gostr "invalid read flags"))
  else match do_ReadAt ops st (rq_length r) (rq_offset r) with
       | (st, _, Some e) => (st, device_failed r state e)
       | (st, data, None) =>
           (st, (count_read (rq_length r),
             Ok (if ns_structured state
                 then structuredReply (rq_cookie r) nbdStructuredDone nbdStructuredOffsetData
                        (be_bytes 8 (rq_offset r) ++ data)
                 else simpleReply (rq_cookie r) 0 data)))
       end.

Definition handle_write (r : nbdRequest) (state : nbdNegotiationState) (st : S) : S * (nbdCounters * res bytes) :=
  if negb (zlen (rq_data r) =? rq_length r) then (st, (count_none, Err (Errorf "nbd: missing write payload")))
  else if negb (Z.ldiff (rq_flags r) nbdCommandFlagFUA =? 0)
  then (st, failed r state nbdErrInvalid (gostr "invalid write flags"))
  else match do_WriteAt ops with
       | Some write =>
           if cap_Writable (do_Capabilities ops) then
             let '(st, e) := write st (rq_data r) (rq_offset r) in
             finish_mutation r state (count_write (rq_length r)) st e
           else (st, failed r state nbdErrPerm (text ErrReadOnly))
       | None => (st, failed r state nbdErrPerm (text ErrReadOnly))
       end.

Definition handle_range (allowed : Z) (op : option (S -> Z -> Z -> S * option error)) (capable : bool)
    (message : gostring) (c : nbdCounters) (r : nbdRequest) (state : nbdNegotiationState) (st : S)
    : S * (nbdCounters * res bytes) :=
  if negb (Z.ldiff (rq_flags r) allowed =? 0) then (st, failed r state nbdErrInvalid message)
  else match op with
       | Some op =>
           if capable then
             let '(st, e) := op st (rq_offset r) (rq_length r) in finish_mutation r state c st e
           else (st, failed r state nbdErrNotSup (text ErrUnsupported))
       | None => (st, failed r state nbdErrNotSup (text ErrUnsupported))
       end.

Definition handle_flush (r : nbdRequest) (state : nbdNegotiationState) (st : S) : S * (nbdCounters * res bytes) :=
  if negb (rq_flags r =? 0) || negb (rq_offset r =? 0) || negb (rq_length r =? 0)
  then (st, failed r state nbdErrInvalid (gostr "invalid flush request"))
  else match device_flush st with
       | (st, Some e) => (st, device_failed r state e)
       | (st, None) => (st, (count_flush, Ok (commandDone r state)))
       end.

Definition handle_status (r : nbdRequest) (state : nbdNegotiationState) (st : S) : S * (nbdCounters * res bytes) :=
  if negb (ns_structured state) || negb (ns_allocation state)
     || negb (Z.ldiff (rq_flags r) nbdCommandFlagReqOne =? 0)
  then (st, failed r state nbdErrNotSup (gostr "allocation metadata is not negotiated"))
  else
    let extents := match do_Extents ops with
                   | Some provider => if cap_Extents (do_Capabilities ops)
                                      then provider st (rq_offset r) (rq_length r)
                                      else Ok [MkExtent (rq_offset r) (rq_length r) true]
                   | None => Ok [MkExtent (rq_offset r) (rq_length r) true]
                   end in
    match extents with
    | Err e => (st, device_failed r state e)
    | Ok extents =>
        let extents := if negb (Z.land (rq_flags r) nbdCommandFlagReqOne =? 0) then take 1 extents else extents in
        match status_payload extents with
        | Err _ => (st, failed r state nbdErrOverflow (gostr "extent is too large"))
        | Ok payload =>
            (st, (count_none, Ok (structuredReply (rq_cookie r) nbdStructuredDone nbdStructuredBlockStatus
                                    (be_bytes 4 1 ++ payload))))
        end
    end.

Definition handle_cache (r : nbdRequest) (state : nbdNegotiationState) (st : S) : S * (nbdCounters * res bytes) :=
  if negb (rq_flags r =? 0) then (st, failed r state nbdErrInvalid (gostr "invalid cache flags"))
  else match do_Prefetch ops with
       | Some prefetch =>
           if cap_Prefetch (do_Capabilities ops) then
             match prefetch st (rq_offset r) (rq_length r) with
             | (st, Some e) => (st, device_failed r state e)
             | (st, None) => (st, (count_cache, Ok (commandDone r state)))
             end
           else (st, failed r state nbdErrNotSup (text ErrUnsupported))
       | None => (st, failed r state nbdErrNotSup (text ErrUnsupported))
       end.

Definition handleRequest (r : nbdRequest) (state : nbdNegotiationState) (st : S) : S * (nbdCounters * res bytes) :=
  let c := do_Capabilities ops in
  if srv_maxRequest s <? rq_length r
  then (st, failed r state nbdErrOverflow (gostr "request exceeds maximum transfer"))
  else if negb (rq_kind r =? nbdCommandFlush) && ((rq_length r =? 0) || negb (aligned (rq_offset r) (rq_length r)))
  then (st, failed r state nbdErrInvalid (gostr "unaligned or empty request"))
  else if negb (rq_kind r =? nbdCommandFlush) &&
          ((MaxInt64 <? rq_offset r)
           || match ValidateRange (g_Size (do_Geometry ops)) (i64 (rq_offset r)) (rq_length r) with
              | Some _ => true | None => false end)
  then (st, failed r state nbdErrInvalid (gostr "request exceeds export"))
  else if rq_kind r =? nbdCommandRead then handle_read r state st
  else if rq_kind r =? nbdCommandWrite then handle_write r state st
  else if rq_kind r =? nbdCommandFlush then handle_flush r state st
  else if rq_kind r =? nbdCommandWriteZeroes then
    handle_range (1 + 2 + 16) (do_ZeroAt ops) (cap_Zero c) (gostr "invalid write-zeroes flags") count_zero r state st
  else if rq_kind r =? nbdCommandTrim then
    handle_range 1 (do_TrimAt ops) (cap_Trim c) (gostr "invalid trim flags") count_trim r state st
  else if rq_kind r =? nbdCommandBlockStatus then handle_status r state st
  else if rq_kind r =? nbdCommandCache then handle_cache r state st
  else (st, failed r state nbdErrNotSup (gostr "unknown command")).

(** ** Transmission *)

(** What the loop of [transmit] does next: it stops, or it has a request. *)
Inductive fetched :=
  | Ended (readErr : option error)
  | Got (r : nbdRequest) (rest : bytes).

Definition fetch (input : bytes) : fetched :=
  match readRequest input with
  | Err e => Ended (if is_EOF e then None else Some e)
  | Ok (r, input) =>
      if rq_kind r =? nbdCommandDisconnect then Ended None
      else if rq_kind r =? nbdCommandWrite then
        if srv_maxRequest s <? rq_length r then Ended (Some (Errorf "nbd: oversized write payload %d"))
        else match read_full (rq_length r) input with
             | Err e => Ended (Some e)
             | Ok (data, input) => Got (with_data data r) input
             end
      else Got r input
  end.

(** A connection: the input that is left, the queue of the workers, the
    requests they work on, the replies they have not sent yet, the device,
    the counters, the requests with the replies that were sent, and how the
    loop ended. *)
Record conn := MkConn {
  cn_input : bytes;
  cn_jobs : list nbdRequest;
  cn_busy : list nbdRequest;
  cn_ready : list (nbdRequest * bytes);
  cn_dev : S;
  cn_counters : nbdCounters;
  cn_log : list (nbdRequest * bytes);
  cn_ended : option (option error)
}.

(** The loop and the workers.  A mutation waits until no job is left and
    then runs in the loop itself; other requests are queued, up to the
    capacity of the queue.  A worker takes a request, runs it, and sends the
    reply under the lock of the writer; the steps of different workers
    interleave.  Only a write can make [handleRequest] fail, so a worker
    always has a reply. *)
Inductive conn_step (state : nbdNegotiationState) : conn -> conn -> Prop :=
  | step_end input jobs busy ready dev c log e :
      fetch input = Ended e ->
      conn_step state (MkConn input jobs busy ready dev c log None) (MkConn input jobs busy ready dev c log (Some e))
  | step_mutation input rest r dev dev' c c' log reply :
      fetch input = Got r rest -> nbdMutationBarrier (rq_kind r) = true ->
      handleRequest r state dev = (dev', (c', Ok reply)) ->
      conn_step state (MkConn input [] [] [] dev c log None)
        (MkConn rest [] [] [] dev' (add_counters c c') (log ++ [(r, reply)]) None)
  | step_mutation_error input rest r dev dev' c c' log e :
      fetch input = Got r rest -> nbdMutationBarrier (rq_kind r) = true ->
      handleRequest r state dev = (dev', (c', Err e)) ->
      conn_step state (MkConn input [] [] [] dev c log None)
        (MkConn rest [] [] [] dev' (add_counters c c') log (Some (Some e)))
  | step_queue input rest r jobs busy ready dev c log :
      fetch input = Got r rest -> nbdMutationBarrier (rq_kind r) = false ->
      (length jobs < srv_workers s)%nat ->
      conn_step state (MkConn input jobs busy ready dev c log None)
        (MkConn rest (jobs ++ [r]) busy ready dev c log None)
  | step_take input r jobs busy ready dev c log ended :
      (length busy + length ready < srv_workers s)%nat ->
      conn_step state (MkConn input (r :: jobs) busy ready dev c log ended)
        (MkConn input jobs (busy ++ [r]) ready dev c log ended)
  | step_run input jobs busy1 r busy2 ready dev dev' c c' log ended reply :
      handleRequest r state dev = (dev', (c', Ok reply)) ->
      conn_step state (MkConn input jobs (busy1 ++ r :: busy2) ready dev c log ended)
        (MkConn input jobs (busy1 ++ busy2) (ready ++ [(r, reply)]) dev' (add_counters c c') log ended)
  | step_reply input jobs busy ready1 p ready2 dev c log ended :
      conn_step state (MkConn input jobs busy (ready1 ++ p :: ready2) dev c log ended)
        (MkConn input jobs busy (ready1 ++ ready2) dev c (log ++ [p]) ended).

Definition conn_init (input : bytes) (dev : S) : conn :=
  MkConn input [] [] [] dev count_none [] None.

(** The loop has ended and every job is done. *)
Definition conn_final (c : conn) : Prop :=
  cn_jobs c = [] /\ cn_busy c = [] /\ cn_ready c = [] /\ is_Some (cn_ended c).

(** The bytes sent. *)
Definition sent (c : conn) : bytes := mjoin (snd <$> cn_log c).

Definition acquire (dev : S) : S * option error :=
  match do_Acquire ops with Some (take_lease, _) => take_lease dev | None => (dev, None) end.

Definition release (dev : S) : S :=
  match do_Acquire ops with Some (_, give_back) => give_back dev | None => dev end.

(** [Serve] on a channel: the lease, the handshake, and the connection it
    leads to, after which [serve_end] gives the lease back. *)
Inductive session :=
  | Stopped (out : bytes) (e : option error) (dev : S)
  | Transmitting (out : bytes) (state : nbdNegotiationState) (c : conn).

Definition Serve (input : bytes) (dev : S) : session :=
  match acquire dev with
  | (dev, Some e) => Stopped [] (Some e) dev
  | (dev, None) =>
      match negotiate input with
      | (out, Err e) => Stopped out (Some e) (release dev)
      | (out, Ok (state, rest)) =>
          if ns_abort state then Stopped out None (release dev) else Transmitting out state (conn_init rest dev)
      end
  end.

Definition serve_end (c : conn) : S := release (cn_dev c).
End server.
