(* ===== verification/NbdSpec.v ===== *)
(** What the NBD server promises.

    [answers] is the protocol over a flat disk: what reply a request gets and
    what it does to the disk.  [nbd_serves] shows that however the workers of
    a connection interleave, the replies are those of a sequential execution
    in which only requests that change nothing were reordered, and that every
    request of the client is answered. *)

From S2P Require Import Prelude GoLib GoPath Block Nbd.
From stdpp Require Import base numbers list strings relations.

Open Scope Z_scope.
Open Scope trex_scope.

#[local] Ltac Zify.zify_post_hook ::= Z.to_euclidean_division_equations.

(** ** Devices *)

(** The bytes outside a range stay. *)
Definition agree_outside (off n : Z) (d d' : bytes) : Prop :=
  zlen d' = zlen d /\ take (Z.to_nat off) d' = take (Z.to_nat off) d /\
  drop (Z.to_nat (off + n)) d' = drop (Z.to_nat (off + n)) d.

(** Extents that follow one another through a range, in which what is not
    allocated is zero. *)
Fixpoint extents_ok (d : bytes) (off n : Z) (es : list Extent) : Prop :=
  match es with
  | [] => n = 0
  | x :: es =>
      x_Offset x = off /\ 0 < x_Length x <= n /\
      (x_Allocated x = false -> slice off (x_Length x) d = zeros (x_Length x)) /\
      extents_ok d (off + x_Length x) (n - x_Length x) es
  end.

(** The contract of a device with the content [disk], in the states that
    are [good]: reads inside it are complete; a mutation that succeeds has its
    effect, one that fails may have touched its range; reading, flushing and
    prefetching change no byte. *)
Class NbdDeviceOK {S} (ops : DeviceOps S) (disk : S -> bytes) (good : S -> Prop) : Prop := {
  nd_size st : good st -> zlen (disk st) = g_Size (do_Geometry ops);
  nd_max : g_Size (do_Geometry ops) <= MaxInt64;
  nd_read st n off : good st -> 0 <= off -> 0 <= n -> off + n <= g_Size (do_Geometry ops) ->
    exists st', do_ReadAt ops st n off = (st', slice off n (disk st), None) /\ good st' /\ disk st' = disk st;
  nd_write write st data off st' e : do_WriteAt ops = Some write -> good st ->
    0 <= off -> off + zlen data <= g_Size (do_Geometry ops) -> write st data off = (st', e) ->
    good st' /\ match e with None => disk st' = splice (disk st) off data
                           | Some _ => agree_outside off (zlen data) (disk st) (disk st') end;
  nd_flush flush st st' e : do_Flush ops = Some flush -> good st -> flush st = (st', e) ->
    good st' /\ disk st' = disk st;
  nd_zero zero st off n st' e : do_ZeroAt ops = Some zero -> good st ->
    0 <= off -> 0 <= n -> off + n <= g_Size (do_Geometry ops) -> zero st off n = (st', e) ->
    good st' /\ match e with None => disk st' = splice (disk st) off (zeros n)
                           | Some _ => agree_outside off n (disk st) (disk st') end;
  nd_trim trim st off n st' e : do_TrimAt ops = Some trim -> good st ->
    0 <= off -> 0 <= n -> off + n <= g_Size (do_Geometry ops) -> trim st off n = (st', e) ->
    good st' /\ agree_outside off n (disk st) (disk st');
  nd_extents extents st off n es : do_Extents ops = Some extents -> good st ->
    0 <= off -> 0 < n -> off + n <= g_Size (do_Geometry ops) -> extents st off n = Ok es ->
    extents_ok (disk st) off n es;
  nd_prefetch prefetch st off n st' e : do_Prefetch ops = Some prefetch -> good st -> prefetch st off n = (st', e) ->
    good st' /\ disk st' = disk st;
  nd_acquire take_lease give_back st st' e : do_Acquire ops = Some (take_lease, give_back) -> good st ->
    take_lease st = (st', e) -> good st' /\ disk st' = disk st;
  nd_release take_lease give_back st : do_Acquire ops = Some (take_lease, give_back) -> good st ->
    good (give_back st) /\ disk (give_back st) = disk st
}.

(** ** The protocol over a flat disk *)

Section spec.
Context {S : Type} (ops : DeviceOps S) (disk : S -> bytes) (good : S -> Prop) (text : error -> gostring).
Context (s : NBDServer) (state : nbdNegotiationState).

Definition in_export (r : nbdRequest) : bool :=
  (rq_offset r + rq_length r <=? g_Size (do_Geometry ops)).

Definition has_flag (r : nbdRequest) (flag : Z) : bool := negb (Z.land (rq_flags r) flag =? 0).
Definition only_flags (r : nbdRequest) (allowed : Z) : bool := Z.ldiff (rq_flags r) allowed =? 0.

(** A capability with its operation. *)
Definition capable {A} (op : option A) (cap : bool) : bool := match op with Some _ => cap | None => false end.

(** The requests that are refused whatever the device does, with their
    error. *)
Definition refusal (r : nbdRequest) : option (Z * gostring) :=
  let c := do_Capabilities ops in
  let k := rq_kind r in
  if srv_maxRequest s <? rq_length r then Some (nbdErrOverflow, gostr "request exceeds maximum transfer")
  else if negb (k =? nbdCommandFlush) && ((rq_length r =? 0) || negb (aligned ops (rq_offset r) (rq_length r)))
  then Some (nbdErrInvalid, gostr "unaligned or empty request")
  else if negb (k =? nbdCommandFlush) && negb (in_export r) then Some (nbdErrInvalid, gostr "request exceeds export")
  else if k =? nbdCommandRead then
    if only_flags r nbdCommandFlagDF && (ns_structured state || negb (has_flag r nbdCommandFlagDF)) then None
    else Some (nbdErrInvalid, gostr "invalid read flags")
  else if k =? nbdCommandWrite then
    if negb (only_flags r nbdCommandFlagFUA) then Some (nbdErrInvalid, gostr "invalid write flags")
    else if capable (do_WriteAt ops) (cap_Writable c) then None else Some (nbdErrPerm, text ErrReadOnly)
  else if k =? nbdCommandFlush then
    if (rq_flags r =? 0) && (rq_offset r =? 0) && (rq_length r =? 0) then None
    else Some (nbdErrInvalid, gostr "invalid flush request")
  else if k =? nbdCommandWriteZeroes then
    if negb (only_flags r (1 + 2 + 16)) then Some (nbdErrInvalid, gostr "invalid write-zeroes flags")
    else if capable (do_ZeroAt ops) (cap_Zero c) then None else Some (nbdErrNotSup, text ErrUnsupported)
  else if k =? nbdCommandTrim then
    if negb (only_flags r 1) then Some (nbdErrInvalid, gostr "invalid trim flags")
    else if capable (do_TrimAt ops) (cap_Trim c) then None else Some (nbdErrNotSup, text ErrUnsupported)
  else if k =? nbdCommandBlockStatus then
    if ns_structured state && ns_allocation state && only_flags r nbdCommandFlagReqOne then None
    else Some (nbdErrNotSup, gostr "allocation metadata is not negotiated")
  else if k =? nbdCommandCache then
    if negb (rq_flags r =? 0) then Some (nbdErrInvalid, gostr "invalid cache flags")
    else if capable (do_Prefetch ops) (cap_Prefetch c) then None else Some (nbdErrNotSup, text ErrUnsupported)
  else Some (nbdErrNotSup, gostr "unknown command").

Definition read_reply (r : nbdRequest) (data : bytes) : bytes :=
  if ns_structured state
  then structuredReply (rq_cookie r) nbdStructuredDone nbdStructuredOffsetData (be_bytes 8 (rq_offset r) ++ data)
  else simpleReply (rq_cookie r) 0 data.

Definition status_entry (x : Extent) : bytes :=
  be_bytes 4 (x_Length x) ++ be_bytes 4 (if x_Allocated x then 0 else 3).

Definition status_reply (r : nbdRequest) (es : list Extent) : bytes :=
  structuredReply (rq_cookie r) nbdStructuredDone nbdStructuredBlockStatus
    (be_bytes 4 1 ++ mjoin (status_entry <$> (if has_flag r nbdCommandFlagReqOne then take 1 es else es))).

(** What a successful mutation does. *)
Definition mutated (r : nbdRequest) (d d' : bytes) : Prop :=
  if rq_kind r =? nbdCommandWrite then d' = splice d (rq_offset r) (rq_data r)
  else if rq_kind r =? nbdCommandWriteZeroes then d' = splice d (rq_offset r) (zeros (rq_length r))
  else if rq_kind r =? nbdCommandTrim then agree_outside (rq_offset r) (rq_length r) d d'
  else d' = d.

(** The reply to a request on a disk, and the disk after it.  A device may
    fail at anything but a read inside it. *)
Inductive answers (d : bytes) (r : nbdRequest) : bytes -> bytes -> Prop :=
  | ans_refused errno message :
      refusal r = Some (errno, message) -> answers d r d (commandError r state errno message)
  | ans_read :
      refusal r = None -> rq_kind r = nbdCommandRead ->
      answers d r d (read_reply r (slice (rq_offset r) (rq_length r) d))
  | ans_status es :
      refusal r = None -> rq_kind r = nbdCommandBlockStatus ->
      extents_ok d (rq_offset r) (rq_length r) es -> answers d r d (status_reply r es)
  | ans_done d' :
      refusal r = None -> rq_kind r <> nbdCommandRead -> rq_kind r <> nbdCommandBlockStatus ->
      mutated r d d' -> answers d r d' (commandDone r state)
  | ans_failed d' e :
      refusal r = None -> rq_kind r <> nbdCommandRead ->
      (mutated r d d' \/ (nbdMutationBarrier (rq_kind r) = true /\ rq_kind r <> nbdCommandFlush /\
         agree_outside (rq_offset r) (rq_length r) d d')) ->
      answers d r d' (commandError r state (nbdErrorCode e) (text e)).

(** A request as the loop hands it on. *)
Record request_ok (r : nbdRequest) : Prop := {
  ro_offset : 0 <= rq_offset r < 2 ^ 64;
  ro_length : 0 <= rq_length r < 2 ^ 32;
  ro_data : rq_kind r = nbdCommandWrite -> zlen (rq_data r) = rq_length r
}.

Context `{Hdev : !NbdDeviceOK ops disk good}.

Lemma in_export_range r :
  request_ok r ->
  (MaxInt64 <? rq_offset r)
  || match ValidateRange (g_Size (do_Geometry ops)) (i64 (rq_offset r)) (rq_length r) with
     | Some _ => true | None => false end = negb (in_export r).
Proof.
  intros [Ho Hl _]. unfold in_export. pose proof nd_max as Hm. unfold MaxInt64 in *.
  destruct (Z.ltb_spec 9223372036854775807 (rq_offset r)) as [Hlt|Hle]; [symmetry; apply negb_true_iff; lia|].
  rewrite i64_id by (unfold MaxInt64; lia). cbn [orb].
  destruct (ValidateRange _ _ _) eqn:Hv.
  - symmetry. apply negb_true_iff. rewrite ValidateRange_dec in Hv by lia.
    destruct ((0 <=? rq_offset r) && (rq_offset r + rq_length r <=? g_Size (do_Geometry ops))) eqn:He; [done|].
    apply andb_false_iff in He as [He|He]; [lia|done].
  - apply ValidateRange_None in Hv. symmetry. apply negb_false_iff. lia.
Qed.

(** Everything after the common checks happens inside the export. *)
Lemma accepted_range r :
  request_ok r -> rq_kind r <> nbdCommandFlush -> refusal r = None ->
  0 <= rq_offset r /\ 0 <= rq_length r /\ rq_offset r + rq_length r <= g_Size (do_Geometry ops).
Proof.
  intros [Ho Hl _] Hk Hr. unfold refusal in Hr. destruct (_ <? _); [done|].
  replace (rq_kind r =? nbdCommandFlush) with false in Hr by (symmetry; by apply Z.eqb_neq). cbn [negb andb] in Hr.
  destruct (_ || _); [done|]. unfold in_export in Hr.
  destruct (Z.leb_spec (rq_offset r + rq_length r) (g_Size (do_Geometry ops))); [lia|done].
Qed.

(** A reply that the protocol allows. *)
Definition answered (d : bytes) (r : nbdRequest) (res : S * (nbdCounters * res bytes)) : Prop :=
  good res.1 /\ exists reply, res.2.2 = Ok reply /\ answers d r (disk res.1) reply.

Lemma answered_refused st r errno message :
  good st -> refusal r = Some (errno, message) -> answered (disk st) r (st, failed r state errno message).
Proof. intros Hg Hr. split; [done|]. eexists. split; [done|]. by apply ans_refused. Qed.

Lemma device_flush_disk st st' e : good st -> device_flush ops st = (st', e) -> good st' /\ disk st' = disk st.
Proof.
  intros Hg. unfold device_flush. destruct (do_Flush ops) as [flush|] eqn:Hf; [|by intros [= <- _]].
  destruct (cap_Flush _); [|by intros [= <- _]]. by apply nd_flush.
Qed.

Lemma finish_mutation_answers d r c st e :
  good st -> refusal r = None -> rq_kind r <> nbdCommandRead -> rq_kind r <> nbdCommandBlockStatus ->
  match e with
  | None => mutated r d (disk st)
  | Some _ => mutated r d (disk st) \/ (nbdMutationBarrier (rq_kind r) = true /\ rq_kind r <> nbdCommandFlush /\
                agree_outside (rq_offset r) (rq_length r) d (disk st))
  end ->
  answered d r (finish_mutation ops text r state c st e).
Proof.
  intros Hg Hr Hk1 Hk2 He. unfold finish_mutation.
  destruct e as [e|]; [split; [done|]; eexists; split; [done|]; by apply ans_failed|].
  destruct (negb _); [|split; [done|]; eexists; split; [done|]; by apply ans_done].
  destruct (device_flush ops st) as [st' e'] eqn:Hf. apply device_flush_disk in Hf as [Hg' Hf]; [|done].
  destruct e' as [e'|]; (split; [done|]; eexists; split; [done|]; cbn [fst]; rewrite Hf);
    [apply ans_failed; [done|done|by left]|by apply ans_done].
Qed.

Lemma handle_read_answers r st :
  good st -> request_ok r -> rq_kind r = nbdCommandRead ->
  refusal r = (if only_flags r nbdCommandFlagDF && (ns_structured state || negb (has_flag r nbdCommandFlagDF)) then None
               else Some (nbdErrInvalid, gostr "invalid read flags")) ->
  answered (disk st) r (handle_read ops text r state st).
Proof.
  intros Hgood Hok Hk Hr. unfold handle_read.
  assert (Hg : negb (Z.ldiff (rq_flags r) nbdCommandFlagDF =? 0)
     || negb (Z.land (rq_flags r) nbdCommandFlagDF =? 0) && negb (ns_structured state) =
     negb (only_flags r nbdCommandFlagDF && (ns_structured state || negb (has_flag r nbdCommandFlagDF)))).
  { unfold only_flags, has_flag. by destruct (_ =? 0), (_ =? 0), (ns_structured state). }
  rewrite Hg. destruct (only_flags r nbdCommandFlagDF && _); cbn [negb]; [|by apply answered_refused].
  destruct (accepted_range r Hok) as (H1 & H2 & H3); [by rewrite Hk|done|].
  destruct (nd_read st (rq_length r) (rq_offset r) Hgood H1 H2 H3) as (st' & -> & Hg' & Hd).
  split; [done|]. eexists. split; [done|]. cbn [fst]. rewrite Hd. by apply ans_read.
Qed.

Lemma handle_write_answers r st :
  good st -> request_ok r -> rq_kind r = nbdCommandWrite ->
  refusal r = (if negb (only_flags r nbdCommandFlagFUA) then Some (nbdErrInvalid, gostr "invalid write flags")
    else if capable (do_WriteAt ops) (cap_Writable (do_Capabilities ops)) then None else Some (nbdErrPerm, text ErrReadOnly)) ->
  answered (disk st) r (handle_write ops text r state st).
Proof.
  intros Hgood Hok Hk Hr. unfold handle_write. rewrite (ro_data r Hok Hk), Z.eqb_refl. cbn [negb].
  unfold only_flags in Hr. destruct (negb _); [by apply answered_refused|].
  unfold capable in Hr. destruct (do_WriteAt ops) as [write|] eqn:Hw; [|by apply answered_refused].
  destruct (cap_Writable _); [|by apply answered_refused].
  destruct (accepted_range r Hok) as (H1 & H2 & H3); [by rewrite Hk|done|].
  destruct (write st (rq_data r) (rq_offset r)) as [st' e] eqn:Hrun.
  pose proof (nd_write write st (rq_data r) (rq_offset r) st' e Hw Hgood H1) as Hn. rewrite (ro_data r Hok Hk) in Hn.
  destruct (Hn H3 Hrun) as [Hg' Hn']. apply finish_mutation_answers; [done|done|by rewrite Hk|by rewrite Hk|].
  unfold mutated. rewrite Hk. cbn. destruct e; [right|done]. done.
Qed.

Lemma handle_zero_answers r st :
  good st -> request_ok r -> rq_kind r = nbdCommandWriteZeroes ->
  refusal r = (if negb (only_flags r (1 + 2 + 16)) then Some (nbdErrInvalid, gostr "invalid write-zeroes flags")
    else if capable (do_ZeroAt ops) (cap_Zero (do_Capabilities ops)) then None else Some (nbdErrNotSup, text ErrUnsupported)) ->
  answered (disk st) r (handle_range ops text (1 + 2 + 16) (do_ZeroAt ops) (cap_Zero (do_Capabilities ops))
    (gostr "invalid write-zeroes flags") count_zero r state st).
Proof.
  intros Hgood Hok Hk Hr. unfold handle_range. unfold only_flags in Hr. destruct (negb _); [by apply answered_refused|].
  unfold capable in Hr. destruct (do_ZeroAt ops) as [zero|] eqn:Hw; [|by apply answered_refused].
  destruct (cap_Zero _); [|by apply answered_refused].
  destruct (accepted_range r Hok) as (H1 & H2 & H3); [by rewrite Hk|done|].
  destruct (zero st (rq_offset r) (rq_length r)) as [st' e] eqn:Hrun.
  pose proof (nd_zero zero st _ _ st' e Hw Hgood H1 H2 H3 Hrun) as [Hg' Hn].
  apply finish_mutation_answers; [done|done|by rewrite Hk|by rewrite Hk|].
  unfold mutated. rewrite Hk. cbn. destruct e; [right|done]. done.
Qed.

Lemma handle_trim_answers r st :
  good st -> request_ok r -> rq_kind r = nbdCommandTrim ->
  refusal r = (if negb (only_flags r 1) then Some (nbdErrInvalid, gostr "invalid trim flags")
    else if capable (do_TrimAt ops) (cap_Trim (do_Capabilities ops)) then None else Some (nbdErrNotSup, text ErrUnsupported)) ->
  answered (disk st) r (handle_range ops text 1 (do_TrimAt ops) (cap_Trim (do_Capabilities ops))
    (gostr "invalid trim flags") count_trim r state st).
Proof.
  intros Hgood Hok Hk Hr. unfold handle_range. unfold only_flags in Hr. destruct (negb _); [by apply answered_refused|].
  unfold capable in Hr. destruct (do_TrimAt ops) as [trim|] eqn:Hw; [|by apply answered_refused].
  destruct (cap_Trim _); [|by apply answered_refused].
  destruct (accepted_range r Hok) as (H1 & H2 & H3); [by rewrite Hk|done|].
  destruct (trim st (rq_offset r) (rq_length r)) as [st' e] eqn:Hrun.
  pose proof (nd_trim trim st _ _ st' e Hw Hgood H1 H2 H3 Hrun) as [Hg' Hn].
  apply finish_mutation_answers; [done|done|by rewrite Hk|by rewrite Hk|].
  unfold mutated. rewrite Hk. cbn. destruct e; [right|]; done.
Qed.

Lemma handle_flush_answers r st :
  good st -> rq_kind r = nbdCommandFlush ->
  refusal r = (if (rq_flags r =? 0) && (rq_offset r =? 0) && (rq_length r =? 0) then None
    else Some (nbdErrInvalid, gostr "invalid flush request")) ->
  answered (disk st) r (handle_flush ops text r state st).
Proof.
  intros Hgood Hk Hr. unfold handle_flush. rewrite <- !negb_andb. destruct (_ && _); cbn [negb]; [|by apply answered_refused].
  destruct (device_flush ops st) as [st' e] eqn:Hf. apply device_flush_disk in Hf as [Hg' Hf]; [|done].
  assert (Hm : mutated r (disk st) (disk st')) by (unfold mutated; rewrite Hk; cbn; done).
  destruct e as [e|]; (split; [done|]; eexists; split; [done|]; cbn [fst]);
    [apply ans_failed; [done|by rewrite Hk|by left]|apply ans_done; [done|by rewrite Hk|by rewrite Hk|done]].
Qed.

Lemma handle_cache_answers r st :
  good st -> rq_kind r = nbdCommandCache ->
  refusal r = (if negb (rq_flags r =? 0) then Some (nbdErrInvalid, gostr "invalid cache flags")
    else if capable (do_Prefetch ops) (cap_Prefetch (do_Capabilities ops)) then None else Some (nbdErrNotSup, text ErrUnsupported)) ->
  answered (disk st) r (handle_cache ops text r state st).
Proof.
  intros Hgood Hk Hr. unfold handle_cache. destruct (negb _); [by apply answered_refused|].
  unfold capable in Hr. destruct (do_Prefetch ops) as [prefetch|] eqn:Hw; [|by apply answered_refused].
  destruct (cap_Prefetch _); [|by apply answered_refused].
  destruct (prefetch st (rq_offset r) (rq_length r)) as [st' e] eqn:Hf. apply (nd_prefetch prefetch) in Hf as [Hg' Hf]; [|done|done].
  assert (Hm : mutated r (disk st) (disk st')) by (unfold mutated; rewrite Hk; cbn; done).
  destruct e as [e|]; (split; [done|]; eexists; split; [done|]; cbn [fst]);
    [apply ans_failed; [done|by rewrite Hk|by left]|apply ans_done; [done|by rewrite Hk|by rewrite Hk|done]].
Qed.

(** The lengths of extents inside a request fit their field. *)
Lemma status_payload_ok d off n es :
  extents_ok d off n es -> n < 2 ^ 32 -> status_payload es = Ok (mjoin (status_entry <$> es)).
Proof.
  revert off n. induction es as [|x es IH]; intros off n He Hn; [done|]. destruct He as (_ & Hl & _ & He).
  cbn [status_payload]. unfold MaxUint32. replace (x_Length x <=? 0) with false by lia.
  replace (4294967295 <? x_Length x) with false by lia. cbn [orb]. rewrite (IH _ _ He) by lia. cbn [res_bind].
  rewrite fmap_cons. cbn [mjoin list_join]. unfold status_entry at 2. by rewrite <- app_assoc.
Qed.

Lemma status_payload_take1 es payload : status_payload es = Ok payload -> exists p1, status_payload (take 1 es) = Ok p1 /\
  p1 = mjoin (status_entry <$> take 1 es).
Proof.
  destruct es as [|x es]; [intros _; by exists []|]. cbn [status_payload take]. destruct (_ || _); [done|].
  intros _. exists (be_bytes 4 (x_Length x) ++ be_bytes 4 (if x_Allocated x then 0 else 3) ++ []). split; [done|].
  cbn [fmap list_fmap mjoin list_join]. unfold status_entry. by rewrite <- app_assoc.
Qed.

Lemma handle_status_answers r st :
  good st -> request_ok r -> rq_kind r = nbdCommandBlockStatus ->
  refusal r = (if ns_structured state && ns_allocation state && only_flags r nbdCommandFlagReqOne then None
    else Some (nbdErrNotSup, gostr "allocation metadata is not negotiated")) ->
  answered (disk st) r (handle_status ops text r state st).
Proof.
  intros Hgood Hok Hk Hr. unfold handle_status. unfold only_flags in Hr. rewrite <- !negb_andb.
  destruct (_ && _); cbn [negb]; [|by apply answered_refused].
  destruct (accepted_range r Hok) as (H1 & H2 & H3); [by rewrite Hk|done|].
  assert (Hlen : rq_length r <> 0).
  { intros H0. unfold refusal in Hr. rewrite Hk, H0 in Hr. by destruct (_ <? _). }
  set (extents := match do_Extents ops with Some _ => _ | None => _ end).
  assert (Hex : match extents with Err _ => True | Ok es => extents_ok (disk st) (rq_offset r) (rq_length r) es end).
  { unfold extents. assert (Hone : extents_ok (disk st) (rq_offset r) (rq_length r) [MkExtent (rq_offset r) (rq_length r) true]).
    { cbn. split; [done|]. split; [lia|]. split; [done|lia]. }
    destruct (do_Extents ops) as [provider|] eqn:Hp; [|done]. destruct (cap_Extents _); [|done].
    destruct (provider st (rq_offset r) (rq_length r)) as [es|e] eqn:Hrun; [|done]. eapply nd_extents; [done|done|done|lia|done|done]. }
  destruct extents as [es|e].
  2:{ split; [done|]. eexists. split; [done|]. apply ans_failed; [done|by rewrite Hk|left]. unfold mutated. by rewrite Hk. }
  pose proof (status_payload_ok _ _ _ _ Hex ltac:(destruct Hok; lia)) as Hpay.
  assert (Hsel : status_payload (if negb (Z.land (rq_flags r) nbdCommandFlagReqOne =? 0) then take 1 es else es) =
    Ok (mjoin (status_entry <$> (if has_flag r nbdCommandFlagReqOne then take 1 es else es)))).
  { unfold has_flag. destruct (negb _); [|done]. destruct (status_payload_take1 es _ Hpay) as (p1 & -> & ->). done. }
  rewrite Hsel. split; [done|]. eexists. split; [done|]. by apply ans_status.
Qed.

(** Every request gets a reply that the protocol allows. *)
Lemma handleRequest_answers r st :
  good st -> request_ok r -> answered (disk st) r (handleRequest ops text s r state st).
Proof.
  intros Hgood Hok. unfold handleRequest. rewrite in_export_range by done.
  pose proof (eq_refl (refusal r)) as Hr. unfold refusal at 2 in Hr.
  destruct (srv_maxRequest s <? rq_length r); [by apply answered_refused|].
  destruct (negb (rq_kind r =? nbdCommandFlush) && ((rq_length r =? 0) || negb (aligned ops (rq_offset r) (rq_length r))));
    [by apply answered_refused|].
  destruct (negb (rq_kind r =? nbdCommandFlush) && negb (in_export r)); [by apply answered_refused|].
  destruct (Z.eqb_spec (rq_kind r) nbdCommandRead); [by apply handle_read_answers|].
  destruct (Z.eqb_spec (rq_kind r) nbdCommandWrite); [by apply handle_write_answers|].
  destruct (Z.eqb_spec (rq_kind r) nbdCommandFlush); [by apply handle_flush_answers|].
  destruct (Z.eqb_spec (rq_kind r) nbdCommandWriteZeroes); [by apply handle_zero_answers|].
  destruct (Z.eqb_spec (rq_kind r) nbdCommandTrim); [by apply handle_trim_answers|].
  destruct (Z.eqb_spec (rq_kind r) nbdCommandBlockStatus); [by apply handle_status_answers|].
  destruct (Z.eqb_spec (rq_kind r) nbdCommandCache); [by apply handle_cache_answers|].
  by apply answered_refused.
Qed.

(** A request that is not a mutation leaves the disk. *)
Lemma answers_reader d r d' reply :
  nbdMutationBarrier (rq_kind r) = false -> answers d r d' reply -> d' = d.
Proof.
  intros Hb Ha. unfold nbdMutationBarrier in Hb. rewrite !orb_false_iff in Hb. destruct Hb as (((H1 & H2) & H3) & H4).
  assert (Hm : forall d', mutated r d d' -> d' = d) by (intros x; unfold mutated; rewrite H1, H4, H3; done).
  destruct Ha as [| | |d' _ _ _ Hmut|d' e _ _ [Hmut|(Hbar & _)]]; try done; [by apply Hm|by apply Hm|].
  unfold nbdMutationBarrier in Hbar. rewrite H1, H2, H3, H4 in Hbar. done.
Qed.

(** ** Requests of a stream *)

(** The requests of an input, and how the loop ends on it. *)
Fixpoint script_loop (fuel : nat) (input : bytes) : list nbdRequest * option error :=
  match fuel with
  | O => ([], Some OutOfFuel)
  | Datatypes.S fuel =>
      match fetch s input with
      | Ended e => ([], e)
      | Got r rest => let '(rs, e) := script_loop fuel rest in (r :: rs, e)
      end
  end.

Definition script (input : bytes) : list nbdRequest * option error := script_loop (Datatypes.S (length input)) input.

Lemma read_full_ok n input b rest :
  0 <= n -> read_full n input = Ok (b, rest) -> input = b ++ rest /\ zlen b = n.
Proof.
  intros Hn. unfold read_full. destruct (Z.eqb_spec n 0) as [->|H0]; [by intros [= <- <-]|].
  destruct (zlen input =? 0); [done|]. destruct (Z.ltb_spec (zlen input) n); [done|].
  intros [= <- <-]. split; [by rewrite take_drop|]. unfold zlen in *. rewrite length_take. lia.
Qed.

Lemma read_be_ok n input v rest :
  0 <= n -> bytes_ok input -> read_be n input = Ok (v, rest) ->
  0 <= v < 256 ^ n /\ bytes_ok rest /\ zlen input = n + zlen rest.
Proof.
  intros Hn Hb. unfold read_be. destruct (read_full n input) as [[b rest']|e] eqn:Hr; [|done]. cbn [res_bind].
  intros [= <- <-]. apply read_full_ok in Hr as [-> Hl]; [|done]. apply Forall_app in Hb as [Hb1 Hb2].
  pose proof (be_val_bound b Hb1). rewrite Hl in H. rewrite zlen_app. split; [done|]. split; [done|]. lia.
Qed.

Lemma readRequest_ok input r rest :
  bytes_ok input -> readRequest input = Ok (r, rest) ->
  0 <= rq_offset r < 2 ^ 64 /\ 0 <= rq_length r < 2 ^ 32 /\ rq_data r = [] /\ bytes_ok rest /\
  zlen input = 28 + zlen rest.
Proof.
  intros Hb. unfold readRequest.
  destruct (read_full 1 input) as [[m0 i0]|e] eqn:H0; [|done]. cbn [res_bind].
  apply read_full_ok in H0 as [-> L0]; [|lia]. apply Forall_app in Hb as [_ Hb].
  destruct (read_full 3 i0) as [[m1 i1]|e] eqn:H1; [|done]. cbn [res_bind].
  apply read_full_ok in H1 as [-> L1]; [|lia]. apply Forall_app in Hb as [_ Hb].
  destruct (read_be 2 i1) as [[flags i2]|e] eqn:H2; [|done]. cbn [res_bind]. apply read_be_ok in H2 as (V2 & Hb2 & L2); [|lia|done].
  destruct (read_be 2 i2) as [[kind i3]|e] eqn:H3; [|done]. cbn [res_bind]. apply read_be_ok in H3 as (V3 & Hb3 & L3); [|lia|done].
  destruct (read_be 8 i3) as [[cookie i4]|e] eqn:H4; [|done]. cbn [res_bind]. apply read_be_ok in H4 as (V4 & Hb4 & L4); [|lia|done].
  destruct (read_be 8 i4) as [[offset i5]|e] eqn:H5; [|done]. cbn [res_bind]. apply read_be_ok in H5 as (V5 & Hb5 & L5); [|lia|done].
  destruct (read_be 4 i5) as [[len i6]|e] eqn:H6; [|done]. cbn [res_bind]. apply read_be_ok in H6 as (V6 & Hb6 & L6); [|lia|done].
  destruct (negb _); [done|]. intros [= <- <-]. cbn. rewrite !zlen_app.
  split; [done|]. split; [done|]. split; [done|]. split; [done|]. lia.
Qed.

Lemma fetch_ok input r rest :
  bytes_ok input -> fetch s input = Got r rest ->
  request_ok r /\ bytes_ok rest /\ (length rest < length input)%nat.
Proof.
  intros Hb. unfold fetch. destruct (readRequest input) as [[r0 i]|e] eqn:Hr; [|done].
  apply readRequest_ok in Hr as (Ho & Hl & Hd & Hbi & Hz); [|done].
  destruct (rq_kind r0 =? nbdCommandDisconnect); [done|].
  destruct (Z.eqb_spec (rq_kind r0) nbdCommandWrite) as [Hk|Hk].
  - destruct (_ <? _); [done|]. destruct (read_full (rq_length r0) i) as [[data i2]|e] eqn:Hf; [|done].
    intros [= <- <-]. apply read_full_ok in Hf as [-> Hz2]; [|lia]. apply Forall_app in Hbi as [_ Hbi].
    split; [by split|]. split; [done|]. rewrite zlen_app in Hz. unfold zlen in *. lia.
  - intros [= <- <-]. split; [by split|]. split; [done|]. unfold zlen in *. lia.
Qed.

(** Enough fuel is enough. *)
Lemma script_loop_fuel fuel1 fuel2 input :
  bytes_ok input -> (length input < fuel1)%nat -> (length input < fuel2)%nat ->
  script_loop fuel1 input = script_loop fuel2 input.
Proof.
  revert fuel2 input. induction fuel1 as [|fuel1 IH]; intros [|fuel2] input Hb H1 H2; try lia.
  cbn [script_loop]. destruct (fetch s input) as [e|r rest] eqn:Hf; [done|].
  destruct (fetch_ok input r rest Hb Hf) as (_ & Hbr & Hl). rewrite (IH fuel2 rest); [done|done|lia|lia].
Qed.

Lemma script_got input r rest :
  bytes_ok input -> fetch s input = Got r rest -> script input = (r :: (script rest).1, (script rest).2).
Proof.
  intros Hb Hf. unfold script. cbn [script_loop]. rewrite Hf.
  destruct (fetch_ok input r rest Hb Hf) as (_ & Hbr & Hl).
  rewrite (script_loop_fuel (length input) (Datatypes.S (length rest)) rest) by (done || lia).
  cbn [script_loop]. destruct (fetch s rest) as [e|r' rest']; [done|]. by destruct (script_loop (length rest) rest').
Qed.

Lemma script_ended input e : fetch s input = Ended e -> script input = ([], e).
Proof. intros Hf. unfold script. cbn [script_loop]. by rewrite Hf. Qed.

(** ** Interleavings *)

Definition reader (r : nbdRequest) : Prop := nbdMutationBarrier (rq_kind r) = false.

(** The first list is the second with neighbours that are no mutations
    exchanged. *)
Inductive reorder : list nbdRequest -> list nbdRequest -> Prop :=
  | ro_refl l : reorder l l
  | ro_skip x l l' : reorder l l' -> reorder (x :: l) (x :: l')
  | ro_swap x y l : reader x -> reader y -> reorder (x :: y :: l) (y :: x :: l)
  | ro_trans l1 l2 l3 : reorder l1 l2 -> reorder l2 l3 -> reorder l1 l3.

Lemma reorder_perm l p p' : p ≡ₚ p' -> Forall reader p -> reorder (l ++ p) (l ++ p').
Proof.
  intros Hp Hr. induction l as [|x l IH]; [|by apply ro_skip]. cbn. induction Hp as [| x p p' Hp IH|x y p|p1 p2 p3 H1 IH1 H2 IH2].
  - apply ro_refl.
  - apply Forall_cons in Hr as [_ Hr]. by apply ro_skip, IH.
  - apply Forall_cons in Hr as [Hy Hr]. apply Forall_cons in Hr as [Hx _]. by apply ro_swap.
  - eapply ro_trans; [by apply IH1|]. apply IH2. by rewrite <- H1.
Qed.

Lemma reorder_app l l' x : reorder l l' -> reorder (l ++ x) (l' ++ x).
Proof.
  induction 1 as [|y l l' H IH|y z l Hy Hz|l1 l2 l3 H1 IH1 H2 IH2]; cbn;
    [apply ro_refl|by apply ro_skip|by apply ro_swap|by eapply ro_trans].
Qed.

(** A sequential execution on a disk. *)
Inductive serves (d : bytes) : list (nbdRequest * bytes) -> bytes -> Prop :=
  | serves_nil : serves d [] d
  | serves_snoc log d1 r reply d2 :
      serves d log d1 -> answers d1 r d2 reply -> serves d (log ++ [(r, reply)]) d2.

(** The requests that have no reply yet. *)
Definition unanswered (c : conn (S := S)) : list nbdRequest := (fst <$> cn_ready c) ++ cn_busy c ++ cn_jobs c.

Record conn_inv (input0 d0 : bytes) (c : conn) : Prop := {
  iv_bytes : bytes_ok (cn_input c);
  iv_good : good (cn_dev c);
  iv_serves : serves d0 (cn_log c) (disk (cn_dev c));
  iv_ready : Forall (fun p => answers (disk (cn_dev c)) p.1 (disk (cn_dev c)) p.2) (cn_ready c);
  iv_unanswered : Forall (fun r => request_ok r /\ reader r) (unanswered c);
  iv_done : exists done, reorder ((fst <$> cn_log c) ++ unanswered c) done /\
    match cn_ended c with
    | None => script input0 = (done ++ (script (cn_input c)).1, (script (cn_input c)).2)
    | Some e => script input0 = (done, e)
    end
}.

Lemma conn_init_inv input dev : bytes_ok input -> good dev -> conn_inv input (disk dev) (conn_init input dev).
Proof.
  intros Hb Hg. split; [done|done|constructor|constructor|constructor|].
  exists []. split; [apply ro_refl|]. cbn [conn_init cn_ended cn_input app]. by rewrite <- surjective_pairing.
Qed.

Notation step := (conn_step ops text s state).

(** The measure of the work that is left. *)
Definition work (c : conn (S := S)) : nat :=
  (match cn_ended c with None => 5 * length (script (cn_input c)).1 + 1 | Some _ => 0 end +
   4 * length (cn_jobs c) + 3 * length (cn_busy c) + 2 * length (cn_ready c))%nat.

Lemma unanswered_readers l : Forall (fun r => request_ok r /\ reader r) l -> Forall reader l.
Proof. intros H. eapply Forall_impl; [exact H|]. by intros r [_ ?]. Qed.

(** A worker runs a request: the disk stays. *)
Lemma run_reader r dev dev' c' reply :
  good dev -> request_ok r -> reader r -> handleRequest ops text s r state dev = (dev', (c', Ok reply)) ->
  good dev' /\ disk dev' = disk dev /\ answers (disk dev) r (disk dev) reply.
Proof.
  intros Hg Hok Hr Hh. destruct (handleRequest_answers r dev Hg Hok) as (Hg' & reply' & He & Ha). rewrite Hh in Hg', He, Ha.
  cbn in Hg', He, Ha. injection He as <-. pose proof (answers_reader _ _ _ _ Hr Ha) as Hd. rewrite Hd in Ha. done.
Qed.

Lemma step_inv input0 d0 c c' : conn_inv input0 d0 c -> step c c' -> conn_inv input0 d0 c' /\ (work c' < work c)%nat.
Proof.
  intros [Hb Hg Hs Hrd Hp (done & Hro & Hsc)] Hst. unfold work, unanswered in *.
  destruct Hst as [input jobs busy ready dev ct log e Hf|input rest r dev dev' ct ct' log reply Hf Hbar Hh
    |input rest r dev dev' ct ct' log e Hf Hbar Hh|input rest r jobs busy ready dev ct log Hf Hbar Hlen
    |input r jobs busy ready dev ct log ended Hlen|input jobs busy1 r busy2 ready dev dev' ct ct' log ended reply Hh
    |input jobs busy ready1 [r reply] ready2 dev ct log ended];
    cbn [cn_input cn_jobs cn_busy cn_ready cn_dev cn_log cn_ended] in *.
  - rewrite (script_ended _ _ Hf) in Hsc. cbn [fst snd] in Hsc. rewrite app_nil_r in Hsc.
    split; [split; cbn; try done; by exists done|cbn; lia].
  - destruct (fetch_ok _ _ _ Hb Hf) as (Hok & Hbr & _). rewrite (script_got _ _ _ Hb Hf) in Hsc |- *.
    destruct (handleRequest_answers r dev Hg Hok) as (Hg' & reply' & He & Ha). rewrite Hh in Hg', He, Ha.
    cbn in Hg', He, Ha. injection He as <-.
    split; [|cbn; lia]. split; cbn; [done|done|by eapply serves_snoc|constructor|constructor|]. exists (done ++ [r]).
    cbn in Hro. rewrite app_nil_r in Hro |- *. rewrite fmap_app. split; [by apply reorder_app|]. by rewrite <- app_assoc.
  - destruct (fetch_ok _ _ _ Hb Hf) as (Hok & _ & _).
    destruct (handleRequest_answers r dev Hg Hok) as (_ & reply' & He & _). by rewrite Hh in He.
  - destruct (fetch_ok _ _ _ Hb Hf) as (Hok & Hbr & _). rewrite (script_got _ _ _ Hb Hf) in Hsc |- *.
    split; [|cbn; rewrite length_app; cbn; lia]. split; cbn; [done|done|done|done| |].
    + rewrite !app_assoc. apply Forall_app. rewrite <- app_assoc. split; [done|by constructor].
    + exists (done ++ [r]). rewrite !app_assoc. split; [apply reorder_app; by rewrite <- !app_assoc|]. by rewrite <- app_assoc.
  - split; [|cbn; rewrite length_app; cbn; lia]. split; cbn; [done|done|done|done| |].
    + rewrite <- app_assoc. exact Hp.
    + exists done. rewrite <- (app_assoc busy). split; [exact Hro|done].
  - pose proof Hp as Hp0. rewrite !Forall_app in Hp. destruct Hp as (_ & (_ & [Hok Hr]%Forall_cons_1) & _). destruct Hok as [Hok Hrr].
    destruct (run_reader r dev dev' ct' reply Hg Hok Hrr Hh) as (Hg' & Hd & Ha).
    assert (Hperm : (fst <$> ready ++ [(r, reply)]) ++ (busy1 ++ busy2) ++ jobs ≡ₚ (fst <$> ready) ++ (busy1 ++ r :: busy2) ++ jobs).
    { rewrite fmap_app. cbn. rewrite <- !app_assoc. f_equiv. cbn. by rewrite <- Permutation_middle. }
    split; [|cbn; rewrite !length_app; cbn; lia]. split; cbn; rewrite ?Hd; [done|done|done| |by rewrite Hperm|].
    + apply Forall_app. split; [done|by constructor].
    + exists done. split; [|done]. eapply ro_trans; [|exact Hro]. apply reorder_perm; [done|]. apply unanswered_readers. by rewrite Hperm.
  - apply Forall_app in Hrd as [Hrd1 Hrd2]. apply Forall_cons in Hrd2 as [Ha Hrd2].
    assert (Hperm : [r] ++ (fst <$> ready1 ++ ready2) ++ busy ++ jobs ≡ₚ (fst <$> ready1 ++ (r, reply) :: ready2) ++ busy ++ jobs).
    { rewrite !fmap_app. cbn. rewrite <- !app_assoc. by rewrite Permutation_middle. }
    split; [|cbn; rewrite !length_app; cbn; lia]. split; cbn.
    + done.
    + done.
    + by eapply serves_snoc.
    + by apply Forall_app.
    + rewrite <- Hperm in Hp. by apply Forall_app in Hp as [_ Hp].
    + exists done. split; [|done]. eapply ro_trans; [|exact Hro]. rewrite fmap_app, <- app_assoc.
      apply reorder_perm; [done|]. apply unanswered_readers. by rewrite Hperm.
Qed.

Lemma steps_inv input0 d0 c c' : conn_inv input0 d0 c -> rtc step c c' -> conn_inv input0 d0 c'.
Proof. intros Hi Hs. induction Hs as [|c1 c2 c3 H1 _ IH]; [done|]. by apply IH, (step_inv _ _ _ _ Hi H1). Qed.

Lemma steps_bounded input0 d0 c n c' : conn_inv input0 d0 c -> nsteps step n c c' -> (n <= work c)%nat.
Proof.
  intros Hi Hs. induction Hs as [|n c1 c2 c3 H1 _ IH]; [lia|]. destruct (step_inv _ _ _ _ Hi H1) as [Hi2 Hw].
  specialize (IH Hi2). lia.
Qed.

(** While work is left, some goroutine can go on. *)
Lemma step_progress input0 d0 c :
  (0 < srv_workers s)%nat -> conn_inv input0 d0 c -> conn_final c \/ exists c', step c c'.
Proof.
  intros Hw [Hb Hg _ _ Hp _]. destruct c as [input jobs busy ready dev ct log ended]. unfold unanswered in Hp. cbn in Hb, Hg, Hp.
  destruct ready as [|p ready]; [|right; eexists; apply (step_reply _ _ _ _ _ _ _ [])].
  destruct busy as [|r busy].
  2:{ right. apply Forall_cons in Hp as [[Hok _] _]. destruct (handleRequest_answers r dev Hg Hok) as (_ & reply & He & _).
      destruct (handleRequest ops text s r state dev) as [dev' [ct' rr]] eqn:Hh. cbn in He. subst rr.
      eexists. by apply (step_run _ _ _ _ _ _ []). }
  destruct jobs as [|r jobs]; [|right; eexists; apply step_take; cbn; lia].
  destruct ended as [e|]; [left; by repeat split|]. right.
  destruct (fetch s input) as [e|r rest] eqn:Hf; [eexists; by apply step_end|].
  destruct (nbdMutationBarrier (rq_kind r)) eqn:Hbar.
  - destruct (fetch_ok input r rest Hb Hf) as (Hok & _). destruct (handleRequest_answers r dev Hg Hok) as (_ & reply & He & _).
    destruct (handleRequest ops text s r state dev) as [dev' [ct' rr]] eqn:Hh. cbn in He. subst rr.
    eexists. by eapply step_mutation.
  - eexists. eapply step_queue; [done|done|]. cbn. lia.
Qed.

(** A connection serves its client.  Over a device that keeps the
    contract, whatever bytes the client sends and however the workers and
    the loop interleave: the replies sent are those of a sequential execution
    of the protocol on a flat disk, which ends in the content of the device;
    the requests answered and those in progress are the first ones of the
    client, with only requests that change nothing exchanged, so that a read
    after a write was answered sees it; some goroutine can always go on; and
    after a number of steps linear in the number of requests every one is
    answered, exactly once. *)
Lemma nbd_serves dev input c :
  bytes_ok input -> good dev -> (0 < srv_workers s)%nat -> rtc step (conn_init input dev) c ->
  serves (disk dev) (cn_log c) (disk (cn_dev c)) /\
  (exists done, reorder ((fst <$> cn_log c) ++ unanswered c) done /\ done `prefix_of` (script input).1) /\
  (conn_final c -> reorder (fst <$> cn_log c) (script input).1 /\ cn_ended c = Some (script input).2) /\
  (conn_final c \/ exists c', step c c') /\
  (forall n c', nsteps step n (conn_init input dev) c' -> (n <= 5 * length (script input).1 + 1)%nat).
Proof.
  intros Hb Hg Hw Hs. pose proof (conn_init_inv input dev Hb Hg) as Hi0. pose proof (steps_inv _ _ _ _ Hi0 Hs) as Hi.
  pose proof Hi as [_ _ Hserv _ _ (done & Hro & Hsc)].
  split; [done|]. split.
  { exists done. split; [done|]. destruct (cn_ended c); rewrite Hsc; cbn [fst]; [done|by apply prefix_app_r]. }
  split.
  { intros (H1 & H2 & H3 & (e & H4)). unfold unanswered in Hro. rewrite H1, H2, H3 in Hro. cbn in Hro. rewrite app_nil_r in Hro.
    rewrite H4 in Hsc |- *. by rewrite Hsc. }
  split; [by eapply step_progress|]. intros n c' Hn. pose proof (steps_bounded _ _ _ _ _ Hi0 Hn) as Hle.
  unfold work in Hle. cbn [conn_init cn_ended cn_input cn_jobs cn_busy cn_ready length] in Hle. lia.
Qed.
End spec.
