(* ===== verification/NbdSession.v ===== *)
(** The sessions of the NBD server: what a client writes is read as it meant
    it, and the client can read the replies ([nbd_wire_roundtrip]).
    [nbd_session] follows a client through the handshake and the options into
    the requests; [nbd_serves] says what happens from there. *)

From S2P Require Import Prelude GoLib GoPath Block Nbd NbdSpec.
From stdpp Require Import base numbers list strings relations.

Open Scope Z_scope.
Open Scope trex_scope.

#[local] Ltac Zify.zify_post_hook ::= Z.to_euclidean_division_equations.

(** ** What a client writes *)

Definition encode_request (r : nbdRequest) : bytes :=
  be_bytes 4 nbdRequestMagic ++ be_bytes 2 (rq_flags r) ++ be_bytes 2 (rq_kind r) ++ be_bytes 8 (rq_cookie r) ++
  be_bytes 8 (rq_offset r) ++ be_bytes 4 (rq_length r) ++ rq_data r.

Definition encode_option (o : Z * bytes) : bytes :=
  be_bytes 8 nbdOptionsMagic ++ be_bytes 4 o.1 ++ be_bytes 4 (zlen o.2) ++ o.2.

Definition encode_info (name : gostring) (requests : list Z) : bytes :=
  be_bytes 4 (zlen name) ++ name ++ be_bytes 2 (zlen requests) ++ mjoin (be_bytes 2 <$> requests).

Definition encode_query (q : gostring) : bytes := be_bytes 4 (zlen q) ++ q.

Definition encode_meta (name : gostring) (queries : list gostring) : bytes :=
  be_bytes 4 (zlen name) ++ name ++ be_bytes 4 (zlen queries) ++ mjoin (encode_query <$> queries).

(** ** Integers on the wire *)

Lemma read_full_app b rest n : zlen b = n -> read_full n (b ++ rest) = Ok (b, rest).
Proof.
  intros <-. unfold read_full. pose proof (zlen_nonneg b). pose proof (zlen_nonneg rest). rewrite zlen_app.
  destruct (Z.eqb_spec (zlen b) 0) as [Hz|Hz]; [by rewrite (zlen_0_nil b Hz)|].
  replace (zlen b + zlen rest =? 0) with false by lia. replace (zlen b + zlen rest <? zlen b) with false by lia.
  unfold zlen. rewrite Nat2Z.id. by rewrite take_app_length, drop_app_length.
Qed.

Lemma read_be_app m n v rest :
  m = Z.of_nat n -> 0 <= v < 256 ^ m -> read_be m (be_bytes n v ++ rest) = Ok (v, rest).
Proof.
  intros -> Hv. unfold read_be. rewrite read_full_app by apply zlen_be_bytes. cbn [res_bind]. by rewrite be_val_bytes.
Qed.

Lemma slice_app_l {A} (a b c : list A) off n :
  zlen a = off -> zlen b = n -> slice off n (a ++ b ++ c) = b.
Proof.
  intros <- <-. unfold slice, zlen. rewrite !Nat2Z.id, drop_app_length. apply take_app_length.
Qed.

(** ** Requests *)

(** A request that a client may write; [limit] is what the server takes. *)
Record request_wf (limit : Z) (r : nbdRequest) : Prop := {
  rw_flags : 0 <= rq_flags r < 65536;
  rw_kind : 0 <= rq_kind r < 65536;
  rw_cookie : 0 <= rq_cookie r < 2 ^ 64;
  rw_offset : 0 <= rq_offset r < 2 ^ 64;
  rw_length : 0 <= rq_length r < 2 ^ 32;
  rw_stay : rq_kind r <> nbdCommandDisconnect;
  rw_bytes : bytes_ok (rq_data r);
  rw_data : if rq_kind r =? nbdCommandWrite then zlen (rq_data r) = rq_length r /\ rq_length r <= limit
            else rq_data r = []
}.

Definition disconnect : nbdRequest := MkRequest 0 nbdCommandDisconnect 0 0 0 [].

Definition request_header_ok (r : nbdRequest) : Prop :=
  0 <= rq_flags r < 65536 /\ 0 <= rq_kind r < 65536 /\ 0 <= rq_cookie r < 2 ^ 64 /\
  0 <= rq_offset r < 2 ^ 64 /\ 0 <= rq_length r < 2 ^ 32.

Lemma readRequest_encode r rest :
  request_header_ok r -> readRequest (encode_request r ++ rest) = Ok (with_data [] r, rq_data r ++ rest).
Proof.
  intros (H1 & H2 & H3 & H4 & H5). unfold readRequest, encode_request.
  change (be_bytes 4 nbdRequestMagic) with ([0x25] ++ [0x60; 0x95; 0x13]). rewrite <- !app_assoc.
  rewrite (read_full_app [0x25]) by done. cbn [res_bind]. rewrite (read_full_app [0x60; 0x95; 0x13]) by done. cbn [res_bind].
  do 5 (rewrite read_be_app; [cbn [res_bind]|done|cbn; lia]).
  done.
Qed.

Lemma request_wf_header limit r : request_wf limit r -> request_header_ok r.
Proof. intros []. unfold request_header_ok. tauto. Qed.

Lemma encode_request_bytes limit r : request_wf limit r -> bytes_ok (encode_request r).
Proof. intros []. unfold encode_request. repeat (apply Forall_app; split; [apply be_bytes_ok|]). done. Qed.

Lemma encode_requests_bytes limit reqs :
  Forall (request_wf limit) reqs -> bytes_ok (mjoin (encode_request <$> reqs)).
Proof.
  induction 1 as [|r rs Hr Hrs IH]; [constructor|]. rewrite fmap_cons. apply Forall_app.
  split; [by eapply encode_request_bytes|done].
Qed.

Lemma fetch_encode s r rest : request_wf (srv_maxRequest s) r -> fetch s (encode_request r ++ rest) = Got r rest.
Proof.
  intros Hr. unfold fetch. rewrite readRequest_encode by (by eapply request_wf_header).
  cbn [with_data rq_kind rq_length]. destruct Hr as [_ _ _ _ _ Hst _ Hd].
  replace (rq_kind r =? nbdCommandDisconnect) with false by (symmetry; by apply Z.eqb_neq).
  destruct (rq_kind r =? nbdCommandWrite).
  - destruct Hd as [Hz Hle]. replace (srv_maxRequest s <? rq_length r) with false by lia.
    rewrite read_full_app by done. by destruct r.
  - rewrite Hd. destruct r. cbn in Hd. by subst.
Qed.

(** How a client leaves: it closes the channel, or says so, and whatever it
    wrote after that. *)
Definition leaves (tail : bytes) : Prop := tail = [] \/ exists junk, tail = encode_request disconnect ++ junk.

Lemma fetch_leaves s tail : leaves tail -> fetch s tail = Ended None.
Proof. intros [->|[junk ->]]; [done|]. unfold fetch. by rewrite readRequest_encode. Qed.

Lemma script_encode s rs tail :
  Forall (request_wf (srv_maxRequest s)) rs -> leaves tail -> bytes_ok tail ->
  script s (mjoin (encode_request <$> rs) ++ tail) = (rs, None).
Proof.
  intros Hrs Ht Hb. induction Hrs as [|r rs Hr Hrs IH]; [by apply script_ended, fetch_leaves|].
  rewrite fmap_cons. cbn [mjoin list_join]. rewrite <- app_assoc.
  rewrite (script_got _ _ r (mjoin (encode_request <$> rs) ++ tail)); [by rewrite IH| |by apply fetch_encode].
  apply Forall_app. split; [by eapply encode_request_bytes|]. apply Forall_app. split; [by eapply encode_requests_bytes|done].
Qed.

(** ** Options *)

Lemma read_requests_encode l :
  Forall (fun v => 0 <= v < 65536) l -> read_requests (length l) (mjoin (be_bytes 2 <$> l)) = l.
Proof.
  induction 1 as [|v l Hv Hl IH]; [done|]. rewrite fmap_cons. cbn [mjoin list_join length read_requests].
  rewrite (take_app_length' _ _ 2), (drop_app_length' _ _ 2) by (pose proof (zlen_be_bytes 2 v); unfold zlen in *; lia).
  rewrite be_val_bytes by (cbn; lia). f_equal. exact IH.
Qed.

Lemma zlen_encode_requests l : zlen (mjoin (be_bytes 2 <$> l)) = 2 * zlen l.
Proof.
  induction l as [|v l IH]; [done|].
  change (zlen (be_bytes 2 v ++ mjoin (be_bytes 2 <$> l)) = 2 * zlen (v :: l)).
  rewrite zlen_app, zlen_be_bytes, zlen_cons, IH. lia.
Qed.

Lemma parse_info_encode name requests :
  zlen name <= nbdMaxExportName -> zlen requests < 65536 -> Forall (fun v => 0 <= v < 65536) requests ->
  parseNBDInfoRequest (encode_info name requests) = Ok (name, requests).
Proof.
  intros Hn Hc Hr. unfold parseNBDInfoRequest. set (data := encode_info name requests).
  pose proof (zlen_nonneg name). pose proof (zlen_nonneg requests).
  assert (Hz : zlen data = 6 + zlen name + 2 * zlen requests).
  { unfold data, encode_info. rewrite !zlen_app, !zlen_be_bytes, zlen_encode_requests. lia. }
  assert (S1 : slice 0 4 data = be_bytes 4 (zlen name)).
  { unfold data, encode_info. apply (slice_app_l [] _ _); [done|apply zlen_be_bytes]. }
  assert (S2 : slice 4 (zlen name) data = name).
  { unfold data, encode_info. apply slice_app_l; [apply zlen_be_bytes|done]. }
  assert (S3 : slice (4 + zlen name) 2 data = be_bytes 2 (zlen requests)).
  { unfold data, encode_info. rewrite app_assoc. apply slice_app_l; [rewrite zlen_app, zlen_be_bytes; lia|apply zlen_be_bytes]. }
  assert (S4 : drop (Z.to_nat (4 + zlen name + 2)) data = mjoin (be_bytes 2 <$> requests)).
  { unfold data, encode_info. rewrite !app_assoc. apply drop_app_length'.
    change (Z.to_nat (4 + zlen name + 2) = length ((be_bytes 4 (zlen name) ++ name) ++ be_bytes 2 (zlen requests))).
    apply Nat2Z.inj. change (Z.of_nat (length ?l)) with (zlen l). rewrite !zlen_app, !zlen_be_bytes. lia. }
  rewrite S1, be_val_bytes, S2, S3, be_val_bytes, S4, Hz by (cbn; lia).
  replace (6 + zlen name + 2 * zlen requests <? 6) with false by lia.
  replace (4096 <? zlen name) with false by lia.
  replace (6 + zlen name + 2 * zlen requests - 6 <? zlen name) with false by lia. cbn [orb].
  replace ((6 + zlen name + 2 * zlen requests - (4 + zlen name + 2)) / 2 <? zlen requests) with false by lia.
  replace (4 + zlen name + 2 + zlen requests * 2 =? 6 + zlen name + 2 * zlen requests) with true by lia. cbn [negb orb].
  unfold zlen. rewrite Nat2Z.id. by rewrite read_requests_encode.
Qed.

Lemma read_queries_encode pre queries :
  Forall (fun q => zlen q < 2 ^ 32) queries ->
  read_queries (length queries) (pre ++ mjoin (encode_query <$> queries)) (zlen pre) =
  Ok (queries, zlen (pre ++ mjoin (encode_query <$> queries))).
Proof.
  intros Hq. revert pre. induction Hq as [|q queries Hq Hqs IH]; intros pre.
  { cbn. by rewrite app_nil_r. }
  pose proof (zlen_nonneg q) as Hq0. pose proof (zlen_nonneg (mjoin (encode_query <$> queries))) as Hm0.
  assert (Hdata : pre ++ mjoin (encode_query <$> q :: queries) =
    pre ++ be_bytes 4 (zlen q) ++ q ++ mjoin (encode_query <$> queries)).
  { change (mjoin (encode_query <$> q :: queries)) with (encode_query q ++ mjoin (encode_query <$> queries)).
    unfold encode_query at 1. by rewrite <- app_assoc. }
  cbn [length read_queries]. rewrite Hdata. set (data := pre ++ _).
  assert (Hz : zlen data = zlen pre + 4 + zlen q + zlen (mjoin (encode_query <$> queries))).
  { unfold data. rewrite !zlen_app, zlen_be_bytes. lia. }
  assert (S1 : slice (zlen pre) 4 data = be_bytes 4 (zlen q)) by (apply slice_app_l; [done|apply zlen_be_bytes]).
  assert (S2 : slice (zlen pre + 4) (zlen q) data = q).
  { unfold data. rewrite app_assoc. apply slice_app_l; [by rewrite zlen_app, zlen_be_bytes|done]. }
  rewrite S1, be_val_bytes, S2, Hz by (cbn; lia).
  replace (zlen pre + 4 + zlen q + zlen (mjoin (encode_query <$> queries)) - 4 <? zlen pre) with false by lia.
  replace (zlen pre + 4 + zlen q + zlen (mjoin (encode_query <$> queries)) - (zlen pre + 4) <? zlen q) with false by lia.
  specialize (IH (pre ++ be_bytes 4 (zlen q) ++ q)).
  replace (zlen (pre ++ be_bytes 4 (zlen q) ++ q)) with (zlen pre + 4 + zlen q) in IH
    by (rewrite !zlen_app, zlen_be_bytes; lia).
  rewrite <- !app_assoc in IH. fold data in IH. rewrite IH. cbn [res_bind]. by rewrite Hz.
Qed.

Lemma parse_meta_encode name queries :
  zlen name <= nbdMaxExportName -> zlen queries <= 1024 -> Forall (fun q => zlen q < 2 ^ 32) queries ->
  parseNBDMetaContextRequest (encode_meta name queries) = Ok (queries, name).
Proof.
  intros Hn Hc Hr. unfold parseNBDMetaContextRequest. set (data := encode_meta name queries).
  pose proof (zlen_nonneg name). pose proof (zlen_nonneg queries). pose proof (zlen_nonneg (mjoin (encode_query <$> queries))).
  assert (Hz : zlen data = 8 + zlen name + zlen (mjoin (encode_query <$> queries))).
  { unfold data, encode_meta. rewrite !zlen_app, !zlen_be_bytes. lia. }
  assert (S1 : slice 0 4 data = be_bytes 4 (zlen name)).
  { unfold data, encode_meta. apply (slice_app_l [] _ _); [done|apply zlen_be_bytes]. }
  assert (S2 : slice 4 (zlen name) data = name).
  { unfold data, encode_meta. apply slice_app_l; [apply zlen_be_bytes|done]. }
  assert (S3 : slice (4 + zlen name) 4 data = be_bytes 4 (zlen queries)).
  { unfold data, encode_meta. rewrite app_assoc. apply slice_app_l; [rewrite zlen_app, zlen_be_bytes; lia|apply zlen_be_bytes]. }
  rewrite S1, be_val_bytes, S2, S3, be_val_bytes by (cbn; lia).
  replace (zlen data <? 8) with false by lia. replace (4096 <? zlen name) with false by lia.
  replace (zlen data - 8 <? zlen name) with false by lia. cbn [orb]. replace (1024 <? zlen queries) with false by lia.
  pose proof (read_queries_encode (be_bytes 4 (zlen name) ++ name ++ be_bytes 4 (zlen queries)) queries Hr) as Hq.
  rewrite <- !app_assoc in Hq. change (be_bytes 4 (zlen name) ++ name ++ be_bytes 4 (zlen queries) ++ mjoin (encode_query <$> queries)) with data in Hq.
  replace (zlen (be_bytes 4 (zlen name) ++ name ++ be_bytes 4 (zlen queries))) with (4 + zlen name + 4) in Hq
    by (rewrite !zlen_app, !zlen_be_bytes; lia).
  replace (Z.to_nat (zlen queries)) with (length queries) by (unfold zlen; lia). rewrite Hq. cbn [res_bind]. by rewrite Z.eqb_refl.
Qed.

(** ** Negotiation *)

Section session.
Context {S : Type} (ops : DeviceOps S) (s : NBDServer).

(** What the options of a client come to: the replies, and the state that
    the last of them leads to. *)
Inductive negotiated : nbdNegotiationState -> list (Z * bytes) -> bytes -> nbdNegotiationState -> Prop :=
  | neg_last state o data out state' :
      handleOption ops s o data state = Finish out state' -> negotiated state [(o, data)] out state'
  | neg_more state o data out state1 opts outs state' :
      handleOption ops s o data state = Continue out state1 -> negotiated state1 opts outs state' ->
      negotiated state ((o, data) :: opts) (out ++ outs) state'.

(** The same by computation. *)
Fixpoint run_options (state : nbdNegotiationState) (opts : list (Z * bytes)) : option (bytes * nbdNegotiationState) :=
  match opts with
  | [] => None
  | (o, data) :: opts =>
      match handleOption ops s o data state, opts with
      | Finish out state', [] => Some (out, state')
      | Continue out state1, _ :: _ =>
          match run_options state1 opts with Some (outs, state') => Some (out ++ outs, state') | None => None end
      | _, _ => None
      end
  end.

Lemma run_options_negotiated state opts out state' :
  run_options state opts = Some (out, state') -> negotiated state opts out state'.
Proof.
  revert state out. induction opts as [|[o data] opts IH]; intros state out; [done|]. cbn [run_options].
  destruct (handleOption ops s o data state) as [out1 st1|out1 st1|out1 e] eqn:Hh; [|destruct opts; [|done]|done].
  - destruct opts as [|o2 opts]; [done|]. destruct (run_options st1 (o2 :: opts)) as [[outs st2]|] eqn:Hr; [|done].
    intros [= <- ->]. eapply neg_more; [done|by apply IH].
  - intros [= <- <-]. by apply neg_last.
Qed.

Definition option_wf (o : Z * bytes) : Prop := 0 <= o.1 < 2 ^ 32 /\ zlen o.2 <= nbdMaxOptionSize.

Lemma read_option o data rest :
  option_wf (o, data) ->
  (let! (magic, input) := read_be 8 (encode_option (o, data) ++ rest) in
   let! (option, input) := read_be 4 input in
   let! (length, input) := read_be 4 input in
   Ok (magic, option, length, input)) = Ok (nbdOptionsMagic, o, zlen data, data ++ rest).
Proof.
  intros [Ho Hd]. cbn [fst snd] in *. pose proof (zlen_nonneg data). unfold encode_option. cbn [fst snd].
  rewrite <- !app_assoc. do 3 (rewrite read_be_app; [cbn [res_bind]|done|cbn; lia]). done.
Qed.

Lemma negotiate_loop_encode fuel state opts outs state' rest out :
  negotiated state opts outs state' -> Forall option_wf opts -> (length opts <= fuel)%nat ->
  negotiate_loop ops s fuel (mjoin (encode_option <$> opts) ++ rest) state out = (out ++ outs, Ok (state', rest)).
Proof.
  intros Hn. revert fuel out. induction Hn as [state o data outs state' Hh|state o data out1 state1 opts outs state' Hh Hn IH];
    intros fuel out Hw Hf; (destruct fuel as [|fuel]; [cbn in Hf; lia|]); apply Forall_cons in Hw as [Ho Hw];
    pose proof Ho as [_ Hsz]; cbn [snd] in Hsz; rewrite fmap_cons; cbn [mjoin list_join negotiate_loop];
    rewrite <- app_assoc, read_option by done; rewrite Z.eqb_refl; cbn [negb];
    replace (nbdMaxOptionSize <? zlen data) with false by lia; rewrite read_full_app, Hh by done; [done|].
  rewrite app_assoc. apply IH; [done|cbn in Hf; lia].
Qed.

(** Options are never more than the bytes that hold them. *)
Lemma encode_options_length opts : (length opts <= length (mjoin (encode_option <$> opts)))%nat.
Proof.
  induction opts as [|o opts IH]; [done|].
  change (length (o :: opts) <= length (encode_option o ++ mjoin (encode_option <$> opts)))%nat.
  rewrite length_app. assert (0 < zlen (encode_option o)); [|unfold zlen in *; cbn; lia].
  unfold encode_option. rewrite !zlen_app, !zlen_be_bytes. pose proof (zlen_nonneg o.2). lia.
Qed.

(** The negotiation ends on every input: a round takes at least the header
    of an option. *)
Lemma read_full_err n input e : read_full n input = Err e -> e <> OutOfFuel.
Proof. unfold read_full. destruct (_ =? 0); [done|]. destruct (_ =? 0); [by intros [= <-]|]. destruct (_ <? _); [by intros [= <-]|done]. Qed.

Lemma read_be_err n input e : read_be n input = Err e -> e <> OutOfFuel.
Proof.
  unfold read_be. destruct (read_full n input) as [[b rest]|e'] eqn:Hr; [done|]. cbn. intros [= <-]. by eapply read_full_err.
Qed.

Lemma read_option_any input :
  bytes_ok input ->
  match (let! (magic, input) := read_be 8 input in
         let! (option, input) := read_be 4 input in
         let! (length, input) := read_be 4 input in
         Ok (magic, option, length, input)) with
  | Err e => e <> OutOfFuel
  | Ok (_, _, length, rest) => 0 <= length /\ bytes_ok rest /\ zlen input = 16 + zlen rest
  end.
Proof.
  intros Hb. destruct (read_be 8 input) as [[m i1]|e] eqn:H1; [cbn [res_bind]|by eapply read_be_err].
  apply read_be_ok in H1 as (_ & Hb1 & L1); [|lia|done].
  destruct (read_be 4 i1) as [[o i2]|e] eqn:H2; [cbn [res_bind]|by eapply read_be_err].
  apply read_be_ok in H2 as (_ & Hb2 & L2); [|lia|done].
  destruct (read_be 4 i2) as [[l i3]|e] eqn:H3; [cbn [res_bind]|by eapply read_be_err].
  apply read_be_ok in H3 as (Hl & Hb3 & L3); [|lia|done]. split; [lia|]. split; [done|]. lia.
Qed.

Lemma handleOption_fail o data state out e : handleOption ops s o data state = Fail out e -> e <> OutOfFuel.
Proof.
  unfold handleOption. intros H. repeat case_match; simplify_eq; done.
Qed.

Lemma negotiate_loop_total fuel input state out :
  (length input < fuel)%nat -> bytes_ok input -> (negotiate_loop ops s fuel input state out).2 <> Err OutOfFuel.
Proof.
  revert input state out. induction fuel as [|fuel IH]; intros input state out Hl Hb; [lia|]. cbn [negotiate_loop].
  pose proof (read_option_any input Hb) as Hr.
  destruct (let! (_, _) := read_be 8 input in _) as [[[[m o] l] rest]|e]; [|by intros [= ->]].
  destruct Hr as (Hl0 & Hbr & Hz). destruct (negb _); [done|]. destruct (_ <? _); [done|].
  destruct (read_full l rest) as [[data rest']|e] eqn:Hf; [|intros [= ->]; by apply read_full_err in Hf].
  apply read_full_ok in Hf as [-> Hzd]; [|done]. apply Forall_app in Hbr as [_ Hbr]. rewrite zlen_app in Hz.
  destruct (handleOption ops s o data state) as [reply st|reply st|reply e] eqn:Hh; [|done|].
  - apply IH; [unfold zlen in *; lia|done].
  - intros [= ->]. by apply handleOption_fail in Hh.
Qed.

Lemma negotiate_total input : bytes_ok input -> (negotiate ops s input).2 <> Err OutOfFuel.
Proof.
  intros Hb. unfold negotiate. destruct (read_be 4 input) as [[flags rest]|e] eqn:Hr.
  - destruct (_ || _); [done|]. apply negotiate_loop_total; [lia|].
    by apply read_be_ok in Hr as (_ & Hb' & _).
  - intros [= ->]. by apply read_be_err in Hr.
Qed.

Definition greeting : bytes := be_bytes 8 nbdMagic ++ be_bytes 8 nbdOptionsMagic ++ be_bytes 2 3.

(** The state after the flags of the client, of which only these two are
    taken. *)
Definition first_state (noZeroes : bool) : nbdNegotiationState := MkNegotiation false false noZeroes false.
Definition client_flags (noZeroes : bool) : Z := if noZeroes then 3 else 1.

(** A session is read as the client wrote it: its options, each in its turn,
    come to what [handleOption] makes of them, and the connection that follows
    has the rest of the stream, in which the requests are found. *)
Lemma nbd_session noZeroes opts outs state reqs tail dev dev' :
  acquire ops dev = (dev', None) ->
  negotiated (first_state noZeroes) opts outs state -> Forall option_wf opts -> ns_abort state = false ->
  Forall (request_wf (srv_maxRequest s)) reqs -> leaves tail -> bytes_ok tail ->
  exists rest,
    Serve ops s (be_bytes 4 (client_flags noZeroes) ++ mjoin (encode_option <$> opts) ++
                 mjoin (encode_request <$> reqs) ++ tail) dev =
      Transmitting (greeting ++ outs) state (conn_init rest dev') /\
    script s rest = (reqs, None) /\ bytes_ok rest.
Proof.
  intros Hacq Hn Ho Hab Hr Ht Hb.
  exists (mjoin (encode_request <$> reqs) ++ tail).
  split; [|split; [by apply script_encode|apply Forall_app; split; [by eapply encode_requests_bytes|done]]].
  unfold Serve, negotiate. rewrite Hacq, (read_be_app 4 4); [|done|by destruct noZeroes].
  replace ((Z.land (client_flags noZeroes) 1 =? 0) || negb (Z.ldiff (client_flags noZeroes) 3 =? 0)) with false
    by (by destruct noZeroes).
  replace (negb (Z.land (client_flags noZeroes) 2 =? 0)) with noZeroes by (by destruct noZeroes).
  rewrite (negotiate_loop_encode _ (first_state noZeroes) opts outs state); [by rewrite Hab|done|done|].
  rewrite length_app. pose proof (encode_options_length opts). lia.
Qed.
End session.

(** ** Replies *)

(** How a client reads the replies of a connection with structured replies. *)
Record reply_part := MkReplyPart { rp_flags : Z; rp_type : Z; rp_cookie : Z; rp_payload : bytes }.

Definition part_bytes (p : reply_part) : bytes := structuredReply (rp_cookie p) (rp_flags p) (rp_type p) (rp_payload p).

Definition read_part (input : bytes) : res (reply_part * bytes) :=
  let! (magic, input) := read_be 4 input in
  let! (flags, input) := read_be 2 input in
  let! (type, input) := read_be 2 input in
  let! (cookie, input) := read_be 8 input in
  let! (length, input) := read_be 4 input in
  let! (payload, input) := read_full length input in
  if negb (magic =? nbdStructuredMagic) then Err (Errorf "invalid reply magic")
  else Ok (MkReplyPart flags type cookie payload, input).

Fixpoint read_parts (fuel : nat) (input : bytes) : res (list reply_part) :=
  match fuel, input with
  | _, [] => Ok []
  | O, _ => Err OutOfFuel
  | S fuel, _ =>
      let! (p, input) := read_part input in
      let! ps := read_parts fuel input in
      Ok (p :: ps)
  end.

Definition reply_part_ok (p : reply_part) : Prop :=
  0 <= rp_flags p < 65536 /\ 0 <= rp_type p < 65536 /\ 0 <= rp_cookie p < 2 ^ 64 /\ zlen (rp_payload p) < 2 ^ 32.

Lemma read_part_app p rest : reply_part_ok p -> read_part (part_bytes p ++ rest) = Ok (p, rest).
Proof.
  intros (H1 & H2 & H3 & H4). pose proof (zlen_nonneg (rp_payload p)). unfold read_part, part_bytes, structuredReply.
  rewrite <- !app_assoc. do 5 (rewrite read_be_app; [cbn [res_bind]|done|cbn; lia]).
  rewrite read_full_app by done. cbn [res_bind]. rewrite Z.eqb_refl. by destruct p.
Qed.

Lemma read_parts_bytes ps fuel :
  Forall reply_part_ok ps -> (length ps <= fuel)%nat -> read_parts fuel (mjoin (part_bytes <$> ps)) = Ok ps.
Proof.
  intros Hps. revert fuel. induction Hps as [|p ps Hp Hps IH]; intros fuel Hf; [by destruct fuel|].
  destruct fuel as [|fuel]; [cbn in Hf; lia|].
  change (mjoin (part_bytes <$> p :: ps)) with (part_bytes p ++ mjoin (part_bytes <$> ps)).
  destruct (part_bytes p ++ mjoin (part_bytes <$> ps)) eqn:He; [done|]. cbn [read_parts]. rewrite <- He.
  rewrite read_part_app by done. cbn [res_bind]. by rewrite IH by (cbn in Hf; lia).
Qed.

Section replies.
Context {S : Type} (ops : DeviceOps S) (text : error -> gostring) (s : NBDServer) (state : nbdNegotiationState).
Hypothesis Hstructured : ns_structured state = true.
Hypothesis Hlimit : srv_maxRequest s <= nbdDefaultMaxRequest.

(** The reply to [r] is one message that carries its cookie. *)
Definition part_of (r : nbdRequest) (reply : bytes) (p : reply_part) : Prop :=
  reply = part_bytes p /\ rp_cookie p = rq_cookie r /\ rp_flags p = nbdStructuredDone.

Lemma part_of_reply r type payload :
  0 <= rq_cookie r < 2 ^ 64 -> 0 <= type < 65536 -> zlen payload < 2 ^ 32 ->
  exists p, reply_part_ok p /\ part_of r (structuredReply (rq_cookie r) nbdStructuredDone type payload) p.
Proof.
  intros Hc Ht Hp. exists (MkReplyPart nbdStructuredDone type (rq_cookie r) payload). split; [|done].
  unfold reply_part_ok. cbn. lia.
Qed.

Lemma part_of_error r errno message :
  0 <= rq_cookie r < 2 ^ 64 -> exists p, reply_part_ok p /\ part_of r (commandError r state errno message) p.
Proof.
  intros Hc. unfold commandError. rewrite Hstructured. apply part_of_reply; [done|done|].
  rewrite !zlen_app, !zlen_be_bytes. unfold zlen. rewrite length_take. lia.
Qed.

Lemma extents_ok_length d off n es : extents_ok d off n es -> zlen es <= n.
Proof.
  revert off n. induction es as [|x es IH]; intros off n He; [cbn in He; rewrite zlen_nil; lia|].
  destruct He as (_ & Hl & _ & He). apply IH in He. rewrite zlen_cons. lia.
Qed.

Lemma zlen_status_entries es : zlen (mjoin (status_entry <$> es)) = 8 * zlen es.
Proof.
  induction es as [|x es IH]; [done|].
  change (zlen (status_entry x ++ mjoin (status_entry <$> es)) = 8 * zlen (x :: es)).
  unfold status_entry at 1. rewrite !zlen_app, !zlen_be_bytes, zlen_cons, IH. lia.
Qed.

Lemma accepted_length r : refusal ops text s state r = None -> rq_length r <= srv_maxRequest s.
Proof. unfold refusal. destruct (Z.ltb_spec (srv_maxRequest s) (rq_length r)); [done|lia]. Qed.

Lemma answers_part d r d' reply :
  0 <= rq_cookie r < 2 ^ 64 -> 0 <= rq_length r -> answers ops text s state d r d' reply ->
  exists p, reply_part_ok p /\ part_of r reply p.
Proof.
  intros Hc Hl Ha.
  destruct Ha as [errno message _|Hr _|es Hr _ He|d' Hr _ _ _|d' e Hr _ _]; try by apply part_of_error.
  - pose proof (accepted_length r Hr). unfold read_reply. rewrite Hstructured. apply part_of_reply; [done|done|].
    rewrite zlen_app, zlen_be_bytes. pose proof (zlen_slice_le d (rq_offset r) (rq_length r)). lia.
  - pose proof (accepted_length r Hr). unfold status_reply. apply part_of_reply; [done|done|].
    rewrite zlen_app, zlen_be_bytes, zlen_status_entries. pose proof (extents_ok_length _ _ _ _ He) as Hes.
    destruct (has_flag _ _); [|lia]. unfold zlen in *. rewrite length_take. lia.
  - unfold commandDone. rewrite Hstructured. by apply part_of_reply.
Qed.

Lemma serves_parts d log d' :
  Forall (fun p => 0 <= rq_cookie p.1 < 2 ^ 64 /\ 0 <= rq_length p.1) log -> serves ops text s state d log d' ->
  exists ps, Forall reply_part_ok ps /\ Forall2 (fun e => part_of e.1 e.2) log ps.
Proof.
  intros Hlog Hs. induction Hs as [|log d1 r reply d2 Hs IH Ha]; [by exists []|].
  apply Forall_app in Hlog as [Hlog Hr]. apply Forall_cons in Hr as [[Hc Hl] _].
  destruct (IH Hlog) as (ps & Hps & Hf). destruct (answers_part _ _ _ _ Hc Hl Ha) as (p & Hp & Hof).
  exists (ps ++ [p]). split; [apply Forall_app; split; [done|by constructor]|]. apply Forall2_app; [done|by constructor].
Qed.

Lemma serves_read_parts d log d' :
  Forall (fun p => 0 <= rq_cookie p.1 < 2 ^ 64 /\ 0 <= rq_length p.1) log -> serves ops text s state d log d' ->
  exists ps, read_parts (length log) (mjoin (snd <$> log)) = Ok ps /\ Forall2 (fun e => part_of e.1 e.2) log ps.
Proof.
  intros Hlog Hs. destruct (serves_parts d log d' Hlog Hs) as (ps & Hps & Hf). exists ps. split; [|done].
  replace (snd <$> log) with (part_bytes <$> ps); [apply read_parts_bytes; [done|by rewrite (Forall2_length _ _ _ Hf)]|].
  clear -Hf. induction Hf as [|e p log ps (He & _) Hf IH]; [done|]. rewrite !fmap_cons. by rewrite He, IH.
Qed.
End replies.

Lemma request_wf_log limit log :
  Forall (request_wf limit) (fst <$> log : list nbdRequest) ->
  Forall (fun p : nbdRequest * bytes => 0 <= rq_cookie p.1 < 2 ^ 64 /\ 0 <= rq_length p.1) log.
Proof. rewrite Forall_fmap. intros H. eapply Forall_impl; [exact H|]. intros p []. cbn in *. lia. Qed.

(** C32. The wire loses nothing.  Requests come out of the stream as they were
    written, up to the end of the stream or a disconnect; so do the export
    name, the information requests and the queries inside options; with
    structured replies the stream of replies can be cut into messages again,
    one for each request that was answered, with its cookie; and the
    negotiation ends on every input. *)
Theorem nbd_wire_roundtrip {S} (ops : DeviceOps S) text s state d log d' reqs tail name infos queries :
  Forall (request_wf (srv_maxRequest s)) reqs -> leaves tail -> bytes_ok tail ->
  zlen name <= nbdMaxExportName -> zlen infos < 65536 -> Forall (fun v => 0 <= v < 65536) infos ->
  zlen queries <= 1024 -> Forall (fun q => zlen q < 2 ^ 32) queries ->
  ns_structured state = true -> srv_maxRequest s <= nbdDefaultMaxRequest ->
  Forall (request_wf (srv_maxRequest s)) (fst <$> log) -> serves ops text s state d log d' ->
  script s (mjoin (encode_request <$> reqs) ++ tail) = (reqs, None) /\
  parseNBDInfoRequest (encode_info name infos) = Ok (name, infos) /\
  parseNBDMetaContextRequest (encode_meta name queries) = Ok (queries, name) /\
  (exists ps, read_parts (length log) (mjoin (snd <$> log)) = Ok ps /\ Forall2 (fun e => part_of e.1 e.2) log ps) /\
  (forall input, bytes_ok input -> (negotiate ops s input).2 <> Err OutOfFuel).
Proof.
  intros Hr Ht Hb Hn Hi1 Hi2 Hq1 Hq2 Hst Hmax Hlog Hs. split; [by apply script_encode|]. split; [by apply parse_info_encode|].
  split; [by apply parse_meta_encode|]. split; [|apply negotiate_total].
  eapply serves_read_parts; [done|done|by eapply request_wf_log|done].
Qed.

(** A disk of four bytes that cannot be written. *)
Definition rom_ops : DeviceOps unit := {|
  do_Geometry := MkGeometry 4 1 1 1 1 0;
  do_Capabilities := MkCapabilities false false false false false false false false;
  do_ReadAt := fun u n off => (u, slice off n [7; 8; 9; 10], None);
  do_WriteAt := None; do_Flush := None; do_ZeroAt := None; do_TrimAt := None; do_Extents := None;
  do_Prefetch := None; do_Acquire := None |}.

Definition rom_server : NBDServer := MkNBDServer [100] 64 true 4.
Definition rom_state : nbdNegotiationState := MkNegotiation true false true false.
Definition rom_read : nbdRequest := MkRequest 0 nbdCommandRead 5 1 2 [].
Definition rom_write : nbdRequest := MkRequest 0 nbdCommandWrite 6 0 1 [3].

Lemma rom_requests_wf : Forall (request_wf 64) [rom_read; rom_write].
Proof. repeat constructor; cbn; try lia; done. Qed.

Lemma nbd_wire_roundtrip_witness :
  let log := [(rom_read, read_reply rom_state rom_read [8; 9]);
              (rom_write, commandError rom_write rom_state nbdErrPerm [1])] in
  script rom_server (mjoin (encode_request <$> [rom_read; rom_write]) ++ encode_request disconnect ++ [1; 2]) =
    ([rom_read; rom_write], None) /\
  parseNBDInfoRequest (encode_info [100] [1; 3]) = Ok ([100], [1; 3]) /\
  parseNBDMetaContextRequest (encode_meta [100] [allocation_context]) = Ok ([allocation_context], [100]) /\
  (exists ps, read_parts 2 (mjoin (snd <$> log)) = Ok ps /\ Forall2 (fun e => part_of e.1 e.2) log ps) /\
  (forall input, bytes_ok input -> (negotiate rom_ops rom_server input).2 <> Err OutOfFuel).
Proof.
  intros log. apply (nbd_wire_roundtrip rom_ops (fun _ => [1]) rom_server rom_state [7; 8; 9; 10] log [7; 8; 9; 10]).
  - exact rom_requests_wf.
  - right. by exists [1; 2].
  - apply Forall_app. split; [apply be_bytes_ok || (repeat constructor; done)|repeat constructor; done].
  - by vm_compute.
  - by vm_compute.
  - repeat constructor; lia.
  - by vm_compute.
  - repeat constructor.
  - done.
  - by vm_compute.
  - exact rom_requests_wf.
  - apply (serves_snoc _ _ _ _ _ [(rom_read, _)] [7; 8; 9; 10]).
    + apply (serves_snoc _ _ _ _ _ [] [7; 8; 9; 10]); [constructor|].
      apply (ans_read rom_ops (fun _ => [1]) rom_server rom_state [7; 8; 9; 10] rom_read); vm_compute; reflexivity.
    + apply ans_refused. vm_compute. reflexivity.
Defined.
