(* ===== verification/NbdOverlay.v ===== *)
(** An overlay behind the NBD server, as a virtual machine gets its disk.
    The overlay keeps the contract the server relies on, so that a client
    session, from its first byte to the last reply, is a session with a flat
    disk whose first content is that of the base ([nbd_overlay_session]). *)

From S2P Require Import Prelude GoLib GoPath Block Overlay Nbd NbdSpec NbdSession.
From stdpp Require Import base numbers list strings relations gmap.

Open Scope Z_scope.
Open Scope trex_scope.

#[local] Ltac Zify.zify_post_hook ::= Z.to_euclidean_division_equations.

Section overlay.
Context (base : Device) (f : Z -> byte) (A : Z -> bool).
(** [Prefetch] of the base, for bases that have it. *)
Context (base_Prefetch : option (Z -> Z -> option error)).

Definition overlay_Prefetch (d : overlayBlockDevice) (off length : Z) : overlayBlockDevice * option error :=
  match base_Prefetch with
  | Some prefetch => if cap_Prefetch (dev_Capabilities (ov_base d)) then (d, prefetch off length)
                     else (d, Some ErrUnsupported)
  | None => (d, Some ErrUnsupported)
  end.

(** The overlay as the server reaches it; it has no [TrimAt]. *)
Definition overlay_ops : DeviceOps overlayBlockDevice := {|
  do_Geometry := dev_Geometry base;
  do_Capabilities := MkCapabilities true true true false true true false (cap_Prefetch (dev_Capabilities base));
  do_ReadAt := overlay_ReadAt;
  do_WriteAt := Some (fun d p off => let '(d, _, e) := overlay_WriteAt d p off in (d, e));
  do_Flush := Some overlay_Flush;
  do_ZeroAt := Some overlay_ZeroAt;
  do_TrimAt := None;
  do_Extents := Some overlay_Extents;
  do_Prefetch := Some overlay_Prefetch;
  do_Acquire := Some (fun d => let '(d, r) := overlay_Acquire d in (d, match r with Ok _ => None | Err e => Some e end),
                      fun d => fst (overlay_release d false))
|}.

Definition overlay_disk (d : overlayBlockDevice) : bytes := range (ov_view f d) 0 (dev_Size base).

Record overlay_good (d : overlayBlockDevice) : Prop := {
  og_inv : overlay_inv f d;
  og_base : ov_base d = base;
  og_end : dev_Size base + ov_chunkSize d <= MaxInt64
}.

Lemma overlay_good_same d d' : same_disk d d' -> overlay_good d -> overlay_good d' /\ overlay_disk d' = overlay_disk d.
Proof.
  intros Hs [Hi Hb He]. split; [|unfold overlay_disk; by rewrite (same_disk_view f _ _ Hs)].
  split; [by eapply same_disk_inv|by rewrite (sd_base _ _ Hs)|by rewrite (sd_chunkSize _ _ Hs)].
Qed.

Lemma overlay_good_size d : overlay_good d -> ov_size d = dev_Size base /\ 0 <= dev_Size base <= MaxInt64.
Proof. intros [[Hb _ _ _ _ _] <- _]. split; [done|]. apply (dev_size_ok (DeviceOK := Hb)). Qed.

Lemma overlay_disk_size d : overlay_good d -> zlen (overlay_disk d) = dev_Size base.
Proof. intros [_ [Hs _]]%overlay_good_size. by apply zlen_range. Qed.

Lemma agree_outside_refl off n d : agree_outside off n d d.
Proof. done. Qed.

(** An update leaves the flat disk with the bytes written. *)
Lemma overlay_update_disk d d' off p :
  overlay_good d -> 0 <= off -> off + zlen p <= dev_Size base -> overlay_update f d off p d' ->
  overlay_good d' /\ overlay_disk d' = splice (overlay_disk d) off p.
Proof.
  intros Hg Ho He [U1 U2 U3 _ _ _ Uv]. pose proof (overlay_good_size d Hg) as [Hs Hs0].
  pose proof (overlay_disk_size d Hg) as Hz. pose proof Hg as [_ Hb Hend].
  split; [split; [done|by rewrite U2|by rewrite U3]|].
  apply bytes_ext.
  - rewrite zlen_splice, Hz by lia. apply zlen_range. lia.
  - unfold overlay_disk at 1. rewrite zlen_range by lia. intros i Hi. rewrite nthb_splice by lia.
    unfold overlay_disk at 1. rewrite nthb_range, Z.add_0_l, Uv by lia. apply upd_ext. unfold overlay_disk.
    by rewrite nthb_range, Z.add_0_l by lia.
Qed.

Lemma overlay_locked d off p kind :
  overlay_good d -> 0 <= off -> 0 < zlen p -> off + zlen p <= dev_Size base ->
  forall d1 e, updateLocked d off (zlen p) (Some p) = (d1, e) ->
  match e with
  | Some _ => d1 = d
  | None => let d' := recordOperation (add_write d1 (zlen p)) kind off (zlen p) in
            overlay_good d' /\ overlay_disk d' = splice (overlay_disk d) off p
  end.
Proof.
  intros Hg Ho Hp He d1 e Hu. pose proof (overlay_good_size d Hg) as [Hs _].
  destruct (updateLocked_spec f d off p (og_inv d Hg) Ho Hp ltac:(lia)) as [(d' & Hu' & Hup)|(r & Hu' & _)];
    rewrite Hu in Hu'; injection Hu' as -> ->; [|done].
  destruct (overlay_update_disk d d' off p Hg Ho He Hup) as [Hg' <-]. cbv zeta.
  assert (Hsd : same_disk d' (recordOperation (add_write d' (zlen p)) kind off (zlen p))).
  { eapply same_disk_trans; [apply same_disk_add_write|]. apply same_disk_record. by destruct Hg' as [[_ _ _ _ _ [? _]] _ _]. }
  by apply overlay_good_same.
Qed.

Lemma overlay_write_disk d p off d' n e :
  overlay_good d -> 0 <= off -> off + zlen p <= dev_Size base -> overlay_WriteAt d p off = (d', n, e) ->
  overlay_good d' /\ match e with None => overlay_disk d' = splice (overlay_disk d) off p
                                | Some _ => agree_outside off (zlen p) (overlay_disk d) (overlay_disk d') end.
Proof.
  intros Hg Ho He. pose proof (overlay_good_size d Hg) as [Hs Hs0]. pose proof (zlen_nonneg p). unfold overlay_WriteAt.
  rewrite (proj2 (ValidateRange_None _ _ _)) by lia.
  destruct (Z.eqb_spec (zlen p) 0) as [Hz|Hz].
  { intros [= <- _ <-]. split; [done|]. rewrite (zlen_0_nil p Hz). unfold splice. rewrite zlen_nil, Z.add_0_r. cbn.
    by rewrite take_drop. }
  destruct (ov_sealed d); [by intros [= <- _ <-]|].
  destruct (updateLocked d off (zlen p) (Some p)) as [d1 e1] eqn:Hu.
  pose proof (overlay_locked d off p "write" Hg Ho ltac:(lia) He d1 e1 Hu) as Hl.
  destruct e1 as [e1|]; intros [= <- _ <-]; [by subst|done].
Qed.

Lemma overlay_zero_disk d off len d' e :
  overlay_good d -> 0 <= off -> 0 <= len -> off + len <= dev_Size base -> overlay_ZeroAt d off len = (d', e) ->
  overlay_good d' /\ match e with None => overlay_disk d' = splice (overlay_disk d) off (zeros len)
                                | Some _ => agree_outside off len (overlay_disk d) (overlay_disk d') end.
Proof.
  intros Hg Ho Hl0 He. pose proof (overlay_good_size d Hg) as [Hs Hs0]. unfold overlay_ZeroAt.
  rewrite (proj2 (ValidateRange_None _ _ _)) by lia. pose proof (zlen_zeros len Hl0) as Hz.
  destruct (Z.eqb_spec len 0) as [->|Hne].
  { intros [= <- <-]. split; [done|]. unfold splice. change (zeros 0) with (@nil Z). rewrite zlen_nil, Z.add_0_r. cbn.
    by rewrite take_drop. }
  destruct (ov_sealed d); [by intros [= <- <-]|].
  rewrite (updateLocked_zero f) by (done || lia || apply Hg).
  destruct (updateLocked d off len (Some (zeros len))) as [d1 e1] eqn:Hu. rewrite <- Hz in Hu at 1.
  pose proof (overlay_locked d off (zeros len) "zero" Hg Ho ltac:(lia) ltac:(lia) d1 e1 Hu) as Hl.
  rewrite Hz in Hl. destruct e1 as [e1|]; intros [= <- <-]; [by subst|done].
Qed.

Lemma overlay_read_disk d n off :
  overlay_good d -> 0 <= off -> 0 <= n -> off + n <= dev_Size base ->
  exists d', overlay_ReadAt d n off = (d', slice off n (overlay_disk d), None) /\
    overlay_good d' /\ overlay_disk d' = overlay_disk d.
Proof.
  intros Hg Ho Hn He. pose proof (overlay_good_size d Hg) as [Hs Hs0].
  destruct (overlay_read_spec f (dev_Size base) d (ov_view f d) (Z.to_nat n) off (og_inv d Hg) Hs ltac:(done))
    as (d' & Hr & Hsd & _ & _).
  exists d'. rewrite Z2Nat.id in Hr by done. rewrite Hr. unfold read_spec. rewrite Z2Nat.id by done.
  split; [|by apply overlay_good_same].
  replace ((0 <=? off) && (off + n <=? dev_Size base)) with true by lia. cbn [fst snd]. do 2 f_equal.
  rewrite slice_range by (rewrite ?overlay_disk_size; done || lia). symmetry. apply range_ext. intros i Hi.
  unfold overlay_disk. by rewrite nthb_range, Z.add_0_l by lia.
Qed.

(** An exact map of a disk whose holes are zero is what the server reports. *)
Lemma covers_extents_ok Al disk off n xs :
  0 <= off -> off + n <= zlen disk -> tiles off (off + n) xs -> covers Al xs ->
  (forall i, off <= i < off + n -> Al i = false -> nthb disk i = 0) -> extents_ok disk off n xs.
Proof.
  revert off n. induction xs as [|x xs IH]; intros off n Ho He Ht Hc Hz; cbn in *; [lia|].
  destruct Ht as (Hx & Hl & Ht). apply Forall_cons in Hc as [Hcx Hc]. pose proof (tiles_le _ _ _ Ht) as Hle.
  split; [done|]. split; [lia|]. split.
  - intros Hal. rewrite slice_range by lia. rewrite (zeros_range off) by lia. apply range_ext. intros i Hi.
    apply Hz; [lia|]. rewrite <- Hal. apply Hcx. lia.
  - apply IH; [lia|lia|by replace (off + x_Length x + (n - x_Length x)) with (off + n) by lia|done|].
    intros i Hi. apply Hz. lia.
Qed.

Hypothesis Hbase : base_extents base A.
Hypothesis Hholes : forall i, 0 <= i < dev_Size base -> A i = false -> f i = 0.

Lemma overlay_extents_disk d off n xs :
  overlay_good d -> 0 <= off -> 0 < n -> off + n <= dev_Size base -> overlay_Extents d off n = Ok xs ->
  extents_ok (overlay_disk d) off n xs.
Proof.
  intros Hg Ho Hn He. pose proof (overlay_good_size d Hg) as [Hs Hs0]. pose proof (overlay_disk_size d Hg) as Hz.
  destruct Hg as [[_ Hc Hk _ _ _] Hb Hend]. unfold overlay_Extents. rewrite (proj2 (ValidateRange_None _ _ _)), Hb by lia.
  destruct (chunks_extent_map base A (ov_chunks d) (ov_chunkSize d) off n Hbase ltac:(lia) Ho Hn He) as (xs' & -> & [Ht _ Hcov]);
    [|lia|].
  { intros index [c Hl]. destruct (Hk index c Hl) as (? & ? & _). by rewrite <- Hs. }
  intros [= <-]. eapply covers_extents_ok; [done|lia|done|exact Hcov|]. cbn. intros i Hi Hal.
  apply orb_false_iff in Hal as [Hd HA]. apply bool_decide_eq_false, eq_None_not_Some in Hd. unfold overlay_disk.
  rewrite nthb_range, Z.add_0_l by lia. unfold ov_view, chunk_view, ov_lookup. rewrite Hd. apply Hholes; [lia|done].
Qed.

#[export] Instance overlay_nbd_device :
  DeviceOK base f -> NbdDeviceOK overlay_ops overlay_disk overlay_good.
Proof.
  intros Hok. split; cbn [overlay_ops do_Geometry do_ReadAt do_WriteAt do_Flush do_ZeroAt do_TrimAt do_Extents do_Prefetch
    do_Acquire]; change (g_Size (dev_Geometry base)) with (dev_Size base).
  - apply overlay_disk_size.
  - apply (dev_size_ok (DeviceOK := Hok)).
  - apply overlay_read_disk.
  - intros write d p off d' e [= <-] Hg Ho He Hw. destruct (overlay_WriteAt d p off) as [[d1 n] e1] eqn:Hr.
    injection Hw as -> ->. by eapply overlay_write_disk.
  - intros flush d d' e [= <-] Hg. unfold overlay_Flush. by intros [= <- _].
  - intros zero d off n d' e [= <-]. apply overlay_zero_disk.
  - done.
  - intros extents d off n es [= <-]. apply overlay_extents_disk.
  - intros prefetch d off n d' e [= <-] Hg. unfold overlay_Prefetch.
    destruct base_Prefetch; [destruct (cap_Prefetch _)|]; by intros [= <- _].
  - intros take_lease give_back d d' e [= <- _] Hg. unfold overlay_Acquire. destruct (ov_sealed d); intros [= <- _]; [done|].
    by apply overlay_good_same; [apply same_disk_leases|].
  - intros take_lease give_back d [= _ <-] Hg. unfold overlay_release. cbn [fst].
    by apply overlay_good_same; [apply same_disk_leases|].
Qed.
End overlay.

(** A new overlay is the disk of its base. *)
Lemma new_overlay_good base f md cs tr d :
  DeviceOK base f -> blockOverlayBuiltin base md cs tr = Ok d -> dev_Size base + ov_chunkSize d <= MaxInt64 ->
  overlay_good base f d /\ overlay_disk base f d = range f 0 (dev_Size base) /\ ov_sealed d = false.
Proof.
  intros Hb Hnew Hend. destruct (blockOverlayBuiltin_sim f base md cs tr d Hb Hnew) as [Hi _ _ Hd Hs _ _ _]. cbn in Hi, Hd, Hs.
  split; [split; [done|by eapply (blockOverlayBuiltin_base base md cs tr)|done]|]. split; [|done].
  apply range_ext. intros i Hi'. apply Hd. lia.
Qed.

(** C10. A client session with an overlay is a session with a flat disk.  For
    an overlay over a base whose content is [f], a server of that overlay and
    a client that negotiates, sends requests and leaves: the server takes the
    lease and the negotiation, and then, however its goroutines interleave,
    the replies are those of a sequential execution on a flat disk that
    starts as [f] and ends as the view of the overlay; some goroutine can go
    on until all is done, which takes a number of steps linear in the number
    of requests, and then every request of the client was answered once, in
    its order but for exchanged requests that change nothing. *)
Theorem nbd_overlay_session base f A base_Prefetch md cs tr d exportName maxRequest text s
    noZeroes opts outs state reqs tail :
  let ops := overlay_ops base base_Prefetch in
  DeviceOK base f -> base_extents base A -> (forall i, 0 <= i < dev_Size base -> A i = false -> f i = 0) ->
  blockOverlayBuiltin base md cs tr = Ok d -> dev_Size base + ov_chunkSize d <= MaxInt64 ->
  NewNBDServer ops exportName maxRequest = Ok s ->
  negotiated ops s (first_state noZeroes) opts outs state -> Forall option_wf opts -> ns_abort state = false ->
  Forall (request_wf maxRequest) reqs -> leaves tail -> bytes_ok tail ->
  exists c0,
    Serve ops s (be_bytes 4 (client_flags noZeroes) ++ mjoin (encode_option <$> opts) ++
                 mjoin (encode_request <$> reqs) ++ tail) d = Transmitting (greeting ++ outs) state c0 /\
    forall c, rtc (conn_step ops text s state) c0 c ->
      serves ops text s state (range f 0 (dev_Size base)) (cn_log c) (overlay_disk base f (cn_dev c)) /\
      (conn_final c \/ exists c', conn_step ops text s state c c') /\
      (conn_final c -> reorder (fst <$> cn_log c) reqs /\ cn_ended c = Some None) /\
      (forall n, nsteps (conn_step ops text s state) n c0 c -> (n <= 5 * length reqs + 1)%nat).
Proof.
  intros ops Hb HA Hh Hnew Hend Hsrv Hn Ho Hab Hr Ht Htb.
  destruct (new_overlay_good base f md cs tr d Hb Hnew Hend) as (Hg & Hd & Hsealed).
  pose proof (overlay_nbd_device base f A base_Prefetch HA Hh Hb) as Hdev.
  assert (Hacq : exists d', acquire ops d = (d', None)).
  { unfold acquire, ops. cbn. unfold overlay_Acquire. rewrite Hsealed. by eexists. }
  destruct Hacq as [d' Hacq].
  assert (Hg' : overlay_good base f d' /\ overlay_disk base f d' = overlay_disk base f d).
  { eapply (nd_acquire (NbdDeviceOK := Hdev)); [reflexivity|done|exact Hacq]. }
  destruct Hg' as [Hg' Hd'].
  assert (Hs : srv_maxRequest s = maxRequest /\ srv_workers s = 4%nat).
  { unfold NewNBDServer in Hsrv. repeat (case_match; try done). by injection Hsrv as <-. }
  destruct Hs as [Hmax Hwork]. rewrite <- Hmax in Hr.
  destruct (nbd_session ops s noZeroes opts outs state reqs tail d d' Hacq Hn Ho Hab Hr Ht Htb) as (rest & HS & Hsc & Hbr).
  exists (conn_init rest d'). split; [exact HS|]. intros c Hc.
  destruct (nbd_serves ops (overlay_disk base f) (overlay_good base f) text s state d' rest c Hbr Hg' ltac:(lia) Hc)
    as (H1 & _ & H3 & H4 & H5).
  rewrite Hd', Hd in H1. rewrite Hsc in H3, H5. split; [done|]. split; [done|]. split; [done|]. intros n. apply H5.
Qed.

(** A session with an overlay over sixteen zero bytes: structured replies, the
    allocation context, then a write, a read that sees it, and a status. *)
Definition demo_opts : list (Z * bytes) :=
  [(nbdOptStructuredReply, []); (nbdOptSetMetaContext, encode_meta [100] [allocation_context]);
   (nbdOptGo, encode_info [100] [3])].

Definition demo_requests : list nbdRequest :=
  [MkRequest 1 nbdCommandWrite 1 4 4 [1; 2; 3; 4]; MkRequest 0 nbdCommandRead 2 0 8 [];
   MkRequest 0 nbdCommandBlockStatus 3 0 16 []].

Lemma demo_requests_wf : Forall (request_wf 64) demo_requests.
Proof. repeat constructor; cbn; try lia; done. Qed.

Lemma nbd_overlay_session_witness :
  let ops := overlay_ops (hole_device 16 4) None in
  let text := fun _ => gostr "error" in
  exists d s outs c0,
    blockOverlayBuiltin (hole_device 16 4) (Some 8) (Some 4) None = Ok d /\
    NewNBDServer ops [100] 64 = Ok s /\
    Serve ops s (be_bytes 4 3 ++ mjoin (encode_option <$> demo_opts) ++
                 mjoin (encode_request <$> demo_requests) ++ []) d =
      Transmitting (greeting ++ outs) (MkNegotiation true true true false) c0 /\
    forall c, rtc (conn_step ops text s (MkNegotiation true true true false)) c0 c ->
      serves ops text s (MkNegotiation true true true false) (range (fun _ => 0) 0 16) (cn_log c)
        (overlay_disk (hole_device 16 4) (fun _ => 0) (cn_dev c)).
Proof.
  intros ops text.
  destruct (blockOverlayBuiltin (hole_device 16 4) (Some 8) (Some 4) None) as [d|] eqn:Hnew; [|discriminate Hnew].
  destruct (NewNBDServer ops [100] 64) as [s|] eqn:Hsrv; [|discriminate Hsrv].
  assert (H16 : 0 <= 16 <= MaxInt64) by (split; vm_compute; discriminate).
  assert (Hneg : exists outs, negotiated ops s (first_state true) demo_opts outs (MkNegotiation true true true false)).
  { destruct (run_options ops s (first_state true) demo_opts) as [[outs st]|] eqn:Hrun.
    - exists outs. apply run_options_negotiated. rewrite Hrun. injection Hsrv as <-. vm_compute in Hrun. by injection Hrun as <- <-.
    - injection Hsrv as <-. vm_compute in Hrun. discriminate Hrun. }
  destruct Hneg as [outs Hneg]. exists d, s, outs.
  destruct (nbd_overlay_session (hole_device 16 4) (fun _ => 0) (fun _ => false) None (Some 8) (Some 4) None d [100] 64 text s
    true demo_opts outs (MkNegotiation true true true false) demo_requests [] (hole_device_ok 16 4 H16)
    (hole_device_extents 16 4) ltac:(done) Hnew) as (c0 & HS & Hc).
  - injection Hnew as <-. vm_compute. discriminate.
  - exact Hsrv.
  - exact Hneg.
  - repeat constructor; vm_compute; discriminate.
  - reflexivity.
  - exact demo_requests_wf.
  - left. reflexivity.
  - constructor.
  - exists c0. split; [reflexivity|]. split; [reflexivity|]. split; [exact HS|]. intros c Hs. apply (Hc c Hs).
Defined.
