(* ===== verification/SqliteRecord.v ===== *)
(** Package [sqlite], the record format: varints, fields and records
    (src/database/sqlite/sqlite.go and build.go), with the UTF-8 conversions
    of the Go language that text fields use.

    A field holds one of Go's dynamic types; a float is its bits. *)

From S2P Require Import Prelude GoLib Storage GoCodec GoPath.
From stdpp Require Import base numbers list strings sets.

Open Scope Z_scope.
Open Scope trex_scope.

#[local] Ltac Zify.zify_post_hook ::= Z.to_euclidean_division_equations.

(** ** [[]rune(s)] and [string(runes)] *)

Definition continuation (b : Z) : bool := (0x80 <=? b) && (b <? 0xc0).

(** The sequences that are not over-long, no surrogates and in range. *)
Definition utf8_2 (b0 b1 : Z) : option Z :=
  if (0xc2 <=? b0) && (b0 <? 0xe0) && continuation b1 then Some ((b0 - 0xc0) * 64 + (b1 - 0x80)) else None.

Definition utf8_3 (b0 b1 b2 : Z) : option Z :=
  if (0xe0 <=? b0) && (b0 <? 0xf0) && continuation b1 && continuation b2
     && (if b0 =? 0xe0 then 0xa0 <=? b1 else true) && (if b0 =? 0xed then b1 <? 0xa0 else true)
  then Some ((b0 - 0xe0) * 4096 + (b1 - 0x80) * 64 + (b2 - 0x80)) else None.

Definition utf8_4 (b0 b1 b2 b3 : Z) : option Z :=
  if (0xf0 <=? b0) && (b0 <? 0xf5) && continuation b1 && continuation b2 && continuation b3
     && (if b0 =? 0xf0 then 0x90 <=? b1 else true) && (if b0 =? 0xf4 then b1 <? 0x90 else true)
  then Some ((b0 - 0xf0) * 262144 + (b1 - 0x80) * 4096 + (b2 - 0x80) * 64 + (b3 - 0x80)) else None.

(** A byte that begins no sequence is one replacement character. *)
Fixpoint runes (s : gostring) : list Z :=
  match s with
  | [] => []
  | b0 :: t0 =>
      if b0 <? 0x80 then b0 :: runes t0
      else match t0 with
      | [] => [replacementChar]
      | b1 :: t1 =>
          match utf8_2 b0 b1, t1 with
          | Some r, _ => r :: runes t1
          | None, [] => replacementChar :: runes t0
          | None, b2 :: t2 =>
              match utf8_3 b0 b1 b2, t2 with
              | Some r, _ => r :: runes t2
              | None, [] => replacementChar :: runes t0
              | None, b3 :: t3 =>
                  match utf8_4 b0 b1 b2 b3 with
                  | Some r => r :: runes t3
                  | None => replacementChar :: runes t0
                  end
              end
          end
      end
  end.

Definition utf8_rune (r : Z) : bytes :=
  if (0 <=? r) && (r <? 0x80) then [r]
  else if (0x80 <=? r) && (r <? 0x800) then [0xc0 + r / 64; 0x80 + r mod 64]
  else if ((0x800 <=? r) && (r <? 0xd800)) || ((0xe000 <=? r) && (r <? 0x10000)) then
    [0xe0 + r / 4096; 0x80 + (r / 64) mod 64; 0x80 + r mod 64]
  else if (0x10000 <=? r) && (r <=? 0x10ffff) then
    [0xf0 + r / 262144; 0x80 + (r / 4096) mod 64; 0x80 + (r / 64) mod 64; 0x80 + r mod 64]
  else [0xef; 0xbf; 0xbd].

Definition rune_string (l : list Z) : gostring := l ≫= utf8_rune.

(** ** Values *)

Inductive sqlvalue :=
  | VNil
  | VBool (b : bool)
  | VInt (n : Z)
  | VUint (n : Z)
  | VFloat (bits : Z)
  | VBlob (b : bytes)
  | VText (s : gostring)
  | VOther.

Record Row := MkRow { row_RowID : option Z; row_Values : list sqlvalue }.

(** ** Varints *)

(** The groups of seven bits before the last byte, from low to high. *)
Fixpoint varint_groups (n : nat) (value : Z) (output : bytes) : bytes :=
  match n with
  | O => output
  | S n => varint_groups n (Z.shiftr value 7) (Z.lor (Z.land value 0x7f) 0x80 :: output)
  end.

(** The least size up to eight bytes that holds the value. *)
Fixpoint varint_size (n : nat) (size value : Z) : option Z :=
  match n with
  | O => None
  | S n => if value <? Z.shiftl 1 (7 * size) then Some size else varint_size n (size + 1) value
  end.

Definition encodeVarint (value : Z) : bytes :=
  match varint_size 8 1 value with
  | Some size => varint_groups (Z.to_nat (size - 1)) (Z.shiftr value 7) [Z.land value 0x7f]
  | None => varint_groups 8 (Z.shiftr value 8) [u8 value]
  end.

Fixpoint decodeVarint_loop (n : nat) (i : Z) (data : bytes) (offset limit value : Z) : res (Z * Z) :=
  match n with
  | O => Err (Errorf "invalid varint")
  | S n =>
      if limit <=? offset + i then Err (Errorf "truncated varint")
      else
        let! current := index data (offset + i) in
        if i =? 8 then Ok (Z.lor (u64 (Z.shiftl value 8)) current, 9)
        else
          let value := Z.lor (u64 (Z.shiftl value 7)) (Z.land current 0x7f) in
          if Z.land current 0x80 =? 0 then Ok (value, i + 1)
          else decodeVarint_loop n (i + 1) data offset limit value
  end.

Definition decodeVarint (data : bytes) (offset limit : Z) : res (Z * Z) :=
  if (offset <? 0) || (zlen data <? limit) || (limit <=? offset) then Err (Errorf "varint starts outside input")
  else decodeVarint_loop 9 0 data offset limit 0.

(** ** Fields *)

(** The first size of the table that holds the value. *)
Fixpoint integer_size (sizes : list (Z * nat)) (value : Z) : Z * bytes :=
  match sizes with
  | [] => (6, be_bytes 8 value)
  | (serial, n) :: sizes =>
      if (value <? - 2 ^ (8 * Z.of_nat n - 1)) || (2 ^ (8 * Z.of_nat n - 1) - 1 <? value)
      then integer_size sizes value
      else (serial, be_bytes n value)
  end.

Definition encodeInteger (value : Z) : Z * bytes :=
  if value =? 0 then (8, [])
  else if value =? 1 then (9, [])
  else integer_size [(1, 1%nat); (2, 2%nat); (3, 3%nat); (4, 4%nat); (5, 6%nat)] value.

Definition units_data (encoding : Z) (units : list Z) : bytes :=
  units ≫= (if encoding =? 3 then be_bytes 2 else le_bytes 2).

Definition encodeText (value : gostring) (encoding : Z) : bytes :=
  if encoding =? 1 then value else units_data encoding (utf16_Encode (runes value)).

Definition encodeField (value : sqlvalue) (encoding : Z) : res (Z * bytes) :=
  match value with
  | VNil => Ok (0, [])
  | VBool b => Ok (if b then 9 else 8, [])
  | VInt n => Ok (encodeInteger n)
  | VUint n =>
      if MaxInt64 <? n then Err (Errorf "unsigned integer %d exceeds SQLite signed range")
      else Ok (encodeInteger n)
  | VFloat bits => Ok (7, be_bytes 8 bits)
  | VBlob b => Ok (12 + zlen b * 2, b)
  | VText s => let field := encodeText s encoding in Ok (13 + zlen field * 2, field)
  | VOther => Err (Errorf "unsupported SQLite value type %T")
  end.

Fixpoint encode_fields (values : list sqlvalue) (encoding : Z) (serials body : bytes) : res (bytes * bytes) :=
  match values with
  | [] => Ok (serials, body)
  | value :: values =>
      match encodeField value encoding with
      | Err e => Err (Wrapf "field %d: %w" e)
      | Ok (serial, field) => encode_fields values encoding (serials ++ encodeVarint serial) (body ++ field)
      end
  end.

(** The header counts its own size. *)
Fixpoint header_size (fuel : nat) (n headerSize : Z) : res Z :=
  if zlen (encodeVarint headerSize) + n =? headerSize then Ok headerSize
  else match fuel with
       | O => Err OutOfFuel
       | S fuel => header_size fuel n (zlen (encodeVarint headerSize) + n)
       end.

Definition encodeRecord (values : list sqlvalue) (encoding : Z) : res bytes :=
  let! (serials, body) := encode_fields values encoding [] [] in
  let! headerSize := header_size 10 (zlen serials) (zlen serials + 1) in
  Ok (encodeVarint headerSize ++ serials ++ body).

(** ** Reading records *)

Definition serialSize (serial : Z) : res Z :=
  if (serial =? 0) || (serial =? 8) || (serial =? 9) then Ok 0
  else if serial =? 1 then Ok 1
  else if serial =? 2 then Ok 2
  else if serial =? 3 then Ok 3
  else if serial =? 4 then Ok 4
  else if serial =? 5 then Ok 6
  else if (serial =? 6) || (serial =? 7) then Ok 8
  else if (serial =? 10) || (serial =? 11) then Err (Errorf "reserved serial type %d")
  else if 12 <=? serial then
    let size := (serial - 12) / 2 in
    if Z.shiftl 1 30 <? size then Err (Errorf "serial type %d exceeds field size limit") else Ok size
  else Err (Errorf "unsupported serial type %d").

Definition signedBigEndian (data : bytes) : Z :=
  let value := foldl (fun value current => Z.lor (u64 (Z.shiftl value 8)) current) 0 data in
  let bits := zlen data * 8 in
  let value := if (bits <? 64) && negb (Z.land value (Z.shiftl 1 (bits - 1)) =? 0)
               then Z.lor value (u64 (Z.shiftl MaxUint64 bits)) else value in
  i64 value.

(** The units of two bytes. *)
Fixpoint text_units (n : nat) (encoding : Z) (data : bytes) : list Z :=
  match n with
  | O => []
  | S n => (if encoding =? 3 then be_val (take 2 data) else le_val (take 2 data)) :: text_units n encoding (drop 2 data)
  end.

Fixpoint utf16Decode (values : list Z) : list Z :=
  match values with
  | [] => []
  | value :: values =>
      match values with
      | next :: rest =>
          if (0xd800 <=? value) && (value <=? 0xdbff) && (0xdc00 <=? next) && (next <=? 0xdfff)
          then 0x10000 + Z.shiftl (value - 0xd800) 10 + (next - 0xdc00) :: utf16Decode rest
          else value :: utf16Decode values
      | [] => [value]
      end
  end.

Definition decodeText (data : bytes) (encoding : Z) : res gostring :=
  if encoding =? 1 then Ok data
  else if (encoding =? 2) || (encoding =? 3) then
    if negb (zlen data mod 2 =? 0) then Err (Errorf "SQLite UTF-16 text has odd byte length")
    else Ok (rune_string (utf16Decode (text_units (Z.to_nat (zlen data / 2)) encoding data)))
  else Err (Errorf "unsupported SQLite text encoding %d").

Fixpoint read_serials (fuel : nat) (data : bytes) (position headerSize : Z) : res (list Z) :=
  if position <? headerSize then
    match fuel with
    | O => Err OutOfFuel
    | S fuel =>
        let! (serial, count) := decodeVarint data position headerSize in
        let! serials := read_serials fuel data (position + count) headerSize in
        Ok (serial :: serials)
    end
  else Ok [].

Definition decodeField (serial : Z) (field : bytes) (encoding : Z) : res sqlvalue :=
  if serial =? 0 then Ok VNil
  else if (1 <=? serial) && (serial <=? 6) then Ok (VInt (signedBigEndian field))
  else if serial =? 7 then Ok (VFloat (be_val field))
  else if serial =? 8 then Ok (VInt 0)
  else if serial =? 9 then Ok (VInt 1)
  else if (12 <=? serial) && (serial mod 2 =? 0) then Ok (VBlob field)
  else if (13 <=? serial) && (serial mod 2 =? 1) then
    let! text := decodeText field encoding in Ok (VText text)
  else Err (Errorf "reserved serial type %d").

Fixpoint read_fields (serials : list Z) (data : bytes) (body encoding : Z) : res (list sqlvalue) :=
  match serials with
  | [] => Ok []
  | serial :: serials =>
      let! size := serialSize serial in
      if zlen data <? body + size then Err (Errorf "serial type %d exceeds record body")
      else
        let! value := decodeField serial (slice body size data) encoding in
        let! values := read_fields serials data (body + size) encoding in
        Ok (value :: values)
  end.

Definition decodeRecord (data : bytes) (encoding : Z) : res (list sqlvalue) :=
  let! (headerSizeValue, used) := decodeVarint data 0 (zlen data) in
  let headerSize := i64 headerSizeValue in
  if (headerSize <? used) || (zlen data <? headerSize) then Err (Errorf "record header size %d exceeds record")
  else
    let! serials := read_serials (Z.to_nat headerSize) data used headerSize in
    read_fields serials data headerSize encoding.

(** ** Bytes inside a buffer *)

Definition sits {A} (data : list A) (pos : Z) (l : list A) : Prop :=
  exists pre post, data = pre ++ l ++ post /\ zlen pre = pos.

Lemma sits_app {A} (data : list A) pos a b :
  sits data pos (a ++ b) -> sits data pos a /\ sits data (pos + zlen a) b.
Proof.
  intros (pre & post & -> & <-). split; [exists pre, (b ++ post); by rewrite <- app_assoc|].
  exists (pre ++ a), post. by rewrite zlen_app, <- !app_assoc.
Qed.

Lemma sits_bound {A} (data : list A) pos l : sits data pos l -> 0 <= pos /\ pos + zlen l <= zlen data.
Proof.
  intros (pre & post & -> & <-). rewrite !zlen_app. pose proof (zlen_nonneg pre). pose proof (zlen_nonneg post). lia.
Qed.

Lemma sits_slice {A} (data : list A) pos l n : sits data pos l -> n = zlen l -> slice pos n data = l.
Proof.
  intros (pre & post & -> & <-) ->. unfold slice, zlen. rewrite !Nat2Z.id, drop_app_length. apply take_app_length.
Qed.

Lemma sits_cons {A} (data : list A) pos x l : sits data pos (x :: l) -> index data pos = Ok x /\ sits data (pos + 1) l.
Proof.
  intros Hs. split; [|apply (sits_app data pos [x] l Hs)]. destruct Hs as (pre & post & -> & <-).
  unfold index. destruct (Z.ltb_spec (zlen pre) 0); [pose proof (zlen_nonneg pre); lia|].
  unfold zlen. rewrite Nat2Z.id. cbn [app]. by rewrite list_lookup_middle.
Qed.

Lemma sits_all {A} (l : list A) : sits l 0 l.
Proof. exists [], []. by rewrite app_nil_r. Qed.

Lemma sits_prefix {A} (l k : list A) : sits (l ++ k) 0 l.
Proof. by exists [], k. Qed.

Lemma sits_suffix {A} (l k : list A) : sits (l ++ k) (zlen l) k.
Proof. exists l, []. by rewrite app_nil_r. Qed.

(** ** Varints round-trip *)

Fixpoint groups (n : nat) (value : Z) : bytes :=
  match n with
  | O => []
  | S n => groups n (Z.shiftr value 7) ++ [Z.lor (Z.land value 0x7f) 0x80]
  end.

Lemma varint_groups_app n value output : varint_groups n value output = groups n value ++ output.
Proof.
  revert value output. induction n as [|n IH]; intros value output; [done|].
  cbn [varint_groups groups]. rewrite IH, <- app_assoc. done.
Qed.

Lemma zlen_groups n value : zlen (groups n value) = Z.of_nat n.
Proof. revert value. induction n as [|n IH]; intros value; [done|]. cbn [groups]. rewrite zlen_app, IH, zlen_cons, zlen_nil. lia. Qed.

Lemma group_val v : Z.lor (Z.land v 0x7f) 0x80 = 128 + v mod 128.
Proof.
  rewrite Z.lor_comm. change 0x7f with (2 ^ 7 - 1). rewrite land_low by lia. change (2 ^ 7) with 128.
  exact (lor_low 1 (v mod 128) 7 ltac:(lia) ltac:(change (2 ^ 7) with 128; lia)).
Qed.

Lemma group_high m : 0 <= m < 128 -> Z.land (128 + m) 0x80 =? 0 = false /\ Z.land (128 + m) 0x7f = m.
Proof.
  intros Hm. split.
  - pose proof (land_pow2 (128 + m) 7 ltac:(lia)) as H. change (Z.shiftl 1 7) with 0x80 in H.
    apply negb_true_iff. rewrite H. apply Z.testbit_true; [lia|]. change (2 ^ 7) with 128. lia.
  - change 0x7f with (2 ^ 7 - 1). rewrite land_low by lia. change (2 ^ 7) with 128. lia.
Qed.

Lemma group_low m : 0 <= m < 128 -> Z.land m 0x80 =? 0 = true /\ Z.land m 0x7f = m.
Proof.
  intros Hm. split.
  - pose proof (land_pow2 m 7 ltac:(lia)) as H. change (Z.shiftl 1 7) with 0x80 in H.
    apply negb_false_iff. rewrite H. apply Z.testbit_false; [lia|]. change (2 ^ 7) with 128. lia.
  - change 0x7f with (2 ^ 7 - 1). rewrite land_low by lia. change (2 ^ 7) with 128. lia.
Qed.

Lemma push_bits value k m : 0 <= k -> 0 <= m < 2 ^ k -> 0 <= value -> value * 2 ^ k < 2 ^ 64 ->
  Z.lor (u64 (Z.shiftl value k)) m = value * 2 ^ k + m.
Proof.
  intros Hk Hm Hv Hb. rewrite u64_id; [by apply lor_low|]. rewrite Z.shiftl_mul_pow2 by done.
  change 18446744073709551616 with (2 ^ 64). lia.
Qed.

(** The decoder reads the groups before the last byte. *)
Lemma decode_groups n k i data offset limit value v :
  i + Z.of_nat n <= 8 -> 0 <= i -> 0 <= value -> value * 2 ^ (7 * Z.of_nat n) < 2 ^ 57 ->
  sits data (offset + i) (groups n v) -> offset + i + Z.of_nat n <= limit ->
  decodeVarint_loop (n + k) i data offset limit value =
  decodeVarint_loop k (i + Z.of_nat n) data offset limit (value * 2 ^ (7 * Z.of_nat n) + v mod 2 ^ (7 * Z.of_nat n)).
Proof.
  revert k v. induction n as [|n IH]; intros k v Hi H0 Hv Hb Hs Hl.
  { cbn [Nat.add]. rewrite Z.mul_1_r, Z.add_0_r, Z.mod_1_r. f_equal. lia. }
  cbn [groups] in Hs. apply sits_app in Hs as [Hs Hg]. rewrite zlen_groups in Hg. apply sits_cons in Hg as [Hg _].
  replace (7 * Z.of_nat (S n)) with (7 * Z.of_nat n + 7) in * by lia. rewrite Z.pow_add_r in * by lia.
  change (2 ^ 7) with 128 in *. assert (Hp : 0 < 2 ^ (7 * Z.of_nat n)) by lia. set (p := 2 ^ (7 * Z.of_nat n)) in *.
  assert (Hb' : value * p < 2 ^ 50) by nia.
  replace (S n + k)%nat with (n + S k)%nat by lia. rewrite (IH (S k) (Z.shiftr v 7)); [|lia|lia|lia|fold p; lia|done|lia].
  fold p. rewrite Z.shiftr_div_pow2 by lia. change (2 ^ 7) with 128. cbn [decodeVarint_loop].
  replace (limit <=? offset + (i + Z.of_nat n)) with false by lia.
  replace (offset + (i + Z.of_nat n)) with (offset + i + Z.of_nat n) by lia. rewrite Hg. cbn [res_bind].
  replace (i + Z.of_nat n =? 8) with false by lia. rewrite group_val.
  destruct (group_high (v mod 128)) as [-> ->]; [lia|].
  assert (Hq : 0 <= (v / 128) mod p < p) by (apply Z.mod_pos_bound; lia).
  rewrite push_bits; [|lia|lia|nia|]; change (2 ^ 7) with 128.
  2:{ assert (p <= 2 ^ 49) by (apply Z.pow_le_mono_r; lia). lia. }
  replace (i + Z.of_nat n + 1) with (i + Z.of_nat (S n)) by lia. f_equal.
  rewrite (Z.mul_comm p 128), Z.rem_mul_r by lia. lia.
Qed.

Lemma varint_size_spec n size value :
  1 <= size -> 0 <= value ->
  match varint_size n size value with
  | Some k => size <= k < size + Z.of_nat n /\ value < 2 ^ (7 * k) /\ (size < k -> 2 ^ (7 * (k - 1)) <= value)
  | None => 2 ^ (7 * (size + Z.of_nat n - 1)) <= value \/ n = O
  end.
Proof.
  revert size. induction n as [|n IH]; intros size Hs Hv; [by right|]. cbn [varint_size].
  rewrite Z.shiftl_mul_pow2, Z.mul_1_l by lia. destruct (Z.ltb_spec value (2 ^ (7 * size))); [split; [lia|split; [done|lia]]|].
  specialize (IH (size + 1) ltac:(lia) Hv). destruct (varint_size n (size + 1) value) as [k|].
  { destruct IH as (I1 & I2 & I3). split; [lia|]. split; [done|]. intros _. destruct (decide (size + 1 < k)); [by apply I3|].
    by replace (k - 1) with size by lia. }
  left. destruct IH as [IH| ->]; [by replace (size + Z.of_nat (S n) - 1) with (size + 1 + Z.of_nat n - 1) by lia|].
  by replace (size + Z.of_nat 1 - 1) with size by lia.
Qed.

Lemma encodeVarint_length v : 0 <= v -> 1 <= zlen (encodeVarint v) <= 9.
Proof.
  intros Hv. unfold encodeVarint. pose proof (varint_size_spec 8 1 v ltac:(lia) Hv) as H.
  destruct (varint_size 8 1 v) as [k|]; rewrite varint_groups_app, zlen_app, zlen_groups, zlen_cons, zlen_nil; lia.
Qed.

Lemma decodeVarint_encode data offset limit v :
  0 <= v < 2 ^ 64 -> sits data offset (encodeVarint v) ->
  offset + zlen (encodeVarint v) <= limit -> limit <= zlen data ->
  decodeVarint data offset limit = Ok (v, zlen (encodeVarint v)).
Proof.
  intros Hv Hs Hl Hd. pose proof (encodeVarint_length v ltac:(lia)) as Hn. pose proof (sits_bound _ _ _ Hs) as [Ho _].
  unfold decodeVarint. replace ((offset <? 0) || (zlen data <? limit) || (limit <=? offset)) with false by lia.
  clear Hn. unfold encodeVarint in *. pose proof (varint_size_spec 8 1 v ltac:(lia) ltac:(lia)) as Hz.
  destruct (varint_size 8 1 v) as [k|].
  - rewrite varint_groups_app in *. rewrite zlen_app, zlen_groups, zlen_cons, zlen_nil in *.
    apply sits_app in Hs as [Hs Hlast]. rewrite zlen_groups in Hlast. apply sits_cons in Hlast as [Hlast _].
    set (n := Z.to_nat (k - 1)) in *. replace 9%nat with (n + (9 - n))%nat by lia.
    rewrite (decode_groups n (9 - n) 0 data offset limit 0 (Z.shiftr v 7)); [|lia|lia|lia|lia|by rewrite Z.add_0_r|lia].
    destruct (9 - n)%nat as [|m] eqn:Em; [lia|]. cbn [decodeVarint_loop].
    replace (limit <=? offset + (0 + Z.of_nat n)) with false by lia. rewrite Z.add_0_l, Hlast. cbn [res_bind].
    replace (Z.of_nat n =? 8) with false by lia. rewrite Z.mul_0_l, Z.add_0_l.
    change 0x7f with (2 ^ 7 - 1). rewrite (land_low v) by lia.
    destruct (group_low (v mod 2 ^ 7)) as [-> H7]; [apply Z.mod_pos_bound; lia|].
    change (2 ^ 7 - 1) with 0x7f. rewrite H7. rewrite Z.shiftr_div_pow2 by lia. change (2 ^ 7) with 128.
    assert (Hq : 0 <= v / 128 < 2 ^ (7 * Z.of_nat n)).
    { split; [lia|]. apply Z.div_lt_upper_bound; [lia|]. change 128 with (2 ^ 7). rewrite <- Z.pow_add_r by lia.
      replace (7 + 7 * Z.of_nat n) with (7 * k) by lia. lia. }
    rewrite (Z.mod_small (v / 128)) by done. rewrite push_bits; change (2 ^ 7) with 128; [|lia|lia|lia|lia].
    do 2 f_equal; lia.
  - destruct Hz as [Hz|]; [|done]. rewrite varint_groups_app in *. rewrite zlen_app, zlen_groups, zlen_cons, zlen_nil in *.
    apply sits_app in Hs as [Hs Hlast]. rewrite zlen_groups in Hlast. apply sits_cons in Hlast as [Hlast _].
    change 9%nat with (8 + 1)%nat.
    rewrite (decode_groups 8 1 0 data offset limit 0 (Z.shiftr v 8)); [|lia|lia|lia|lia|by rewrite Z.add_0_r|lia].
    change (Z.of_nat 8) with 8 in *. cbn [decodeVarint_loop]. replace (limit <=? offset + (0 + 8)) with false by lia.
    rewrite Z.add_0_l, Hlast. cbn [res_bind]. change (8 =? 8) with true. cbv iota.
    rewrite Z.mul_0_l, Z.add_0_l, Z.shiftr_div_pow2 by lia. change (2 ^ 8) with 256. change (2 ^ (7 * 8)) with (2 ^ 56).
    rewrite Z.mod_small by lia. unfold u8. rewrite (push_bits (v / 256) 8 (v mod 256)); change (2 ^ 8) with 256; [|lia|lia|lia|lia].
    do 2 f_equal; lia.
Qed.

(** Larger values have longer varints. *)
Lemma encodeVarint_mono v w : 0 <= v <= w -> zlen (encodeVarint v) <= zlen (encodeVarint w).
Proof.
  intros Hvw. unfold encodeVarint. pose proof (varint_size_spec 8 1 v ltac:(lia) ltac:(lia)) as Hv.
  pose proof (varint_size_spec 8 1 w ltac:(lia) ltac:(lia)) as Hw.
  destruct (varint_size 8 1 v) as [k|], (varint_size 8 1 w) as [m|];
    rewrite !varint_groups_app, !zlen_app, !zlen_groups, !zlen_cons, !zlen_nil; [|lia| |lia].
  - destruct Hv as (Hv1 & Hv2 & Hv3), Hw as (Hw1 & Hw2 & _). assert (k <= m); [|lia].
    apply Z.le_ngt. intros Hlt. assert (2 ^ (7 * m) <= 2 ^ (7 * (k - 1))) by (apply Z.pow_le_mono_r; lia). lia.
  - destruct Hv as [Hv|]; [|done]. destruct Hw as (Hw1 & Hw2 & _).
    assert (2 ^ (7 * m) <= 2 ^ (7 * (1 + Z.of_nat 8 - 1))) by (apply Z.pow_le_mono_r; lia). lia.
Qed.

Lemma header_size_loop fuel n h :
  0 <= n -> 0 <= h -> h <= zlen (encodeVarint h) + n -> n + 9 - h <= Z.of_nat fuel ->
  exists h', header_size fuel n h = Ok h' /\ zlen (encodeVarint h') + n = h'.
Proof.
  intros Hn. revert h. induction fuel as [|fuel IH]; intros h Hh Hle Hf; cbn [header_size];
    destruct (Z.eqb_spec (zlen (encodeVarint h) + n) h) as [He|He]; [by exists h| |by exists h|].
  - pose proof (encodeVarint_length h Hh). lia.
  - apply IH; [lia| |lia]. pose proof (encodeVarint_mono h (zlen (encodeVarint h) + n) ltac:(lia)). lia.
Qed.

Lemma header_size_ok n : 0 <= n -> exists h, header_size 10 n (n + 1) = Ok h /\ zlen (encodeVarint h) + n = h.
Proof.
  intros Hn. apply header_size_loop; [done|lia| |lia]. pose proof (encodeVarint_length (n + 1) ltac:(lia)). lia.
Qed.

(** ** Integers and text round-trip *)

Lemma be_bytes_S n v : be_bytes (S n) v = be_bytes n (v / 256) ++ [v mod 256].
Proof. unfold be_bytes. cbn [le_bytes]. by rewrite reverse_cons. Qed.

Lemma fold_be_bytes n v :
  (n <= 8)%nat -> foldl (fun value current => Z.lor (u64 (Z.shiftl value 8)) current) 0 (be_bytes n v) = v mod 256 ^ Z.of_nat n.
Proof.
  revert v. induction n as [|n IH]; intros v Hn; [by rewrite Z.mod_1_r|].
  rewrite be_bytes_S, foldl_app, IH by lia. cbn [foldl].
  replace (Z.of_nat (S n)) with (1 + Z.of_nat n) by lia. rewrite Z.pow_add_r, Z.pow_1_r by lia.
  assert (Hp : 256 ^ Z.of_nat n <= 256 ^ 7) by (apply Z.pow_le_mono_r; lia).
  assert (Hq : 0 < 256 ^ Z.of_nat n) by (apply Z.pow_pos_nonneg; lia).
  pose proof (Z.mod_pos_bound (v / 256) (256 ^ Z.of_nat n) Hq).
  rewrite push_bits; change (2 ^ 8) with 256; [|lia|lia|lia|lia]. rewrite Z.rem_mul_r by lia. lia.
Qed.

Lemma signedBigEndian_be_bytes n v :
  (1 <= n <= 8)%nat -> - 2 ^ (8 * Z.of_nat n - 1) <= v < 2 ^ (8 * Z.of_nat n - 1) -> signedBigEndian (be_bytes n v) = v.
Proof.
  intros Hn Hv. unfold signedBigEndian. rewrite fold_be_bytes, zlen_be_bytes by lia.
  change 256 with (2 ^ 8). rewrite <- Z.pow_mul_r by lia. replace (Z.of_nat n * 8) with (8 * Z.of_nat n) by lia.
  set (k := 8 * Z.of_nat n - 1) in *. replace (8 * Z.of_nat n) with (k + 1) by lia. replace (k + 1 - 1) with k by lia.
  rewrite land_pow2 by lia. rewrite Z.pow_add_r by lia. change (2 ^ 1) with 2.
  assert (Hk : 0 < 2 ^ k <= 2 ^ 63) by (split; [apply Z.pow_pos_nonneg; lia|apply Z.pow_le_mono_r; lia]). set (p := 2 ^ k) in *.
  destruct (decide (v < 0)) as [Hneg|Hpos].
  - assert (Hm : v mod (p * 2) = v + p * 2) by (symmetry; apply (Z.mod_unique_pos _ _ (-1)); lia).
    rewrite Hm. assert (Ht : Z.testbit (v + p * 2) k = true).
    { apply Z.testbit_true; [lia|]. fold p. replace ((v + p * 2) / p) with 1; [done|]. apply (Z.div_unique _ _ _ (v + p)); lia. }
    rewrite Ht. destruct (Z.ltb_spec (k + 1) 64) as [Hlt|Hge]; cbn [andb].
    + assert (Hk1 : 2 ^ (k + 1) = p * 2) by (rewrite Z.pow_add_r by lia; done).
      assert (Hh : u64 (Z.shiftl MaxUint64 (k + 1)) = Z.shiftl (2 ^ (64 - (k + 1)) - 1) (k + 1)).
      { rewrite !Z.shiftl_mul_pow2 by lia. unfold u64, MaxUint64. change 18446744073709551616 with (2 ^ 64).
        assert (H64 : 2 ^ 64 = 2 ^ (64 - (k + 1)) * 2 ^ (k + 1)) by (rewrite <- Z.pow_add_r by lia; f_equal; lia).
        change 18446744073709551615 with (2 ^ 64 - 1). symmetry. apply (Z.mod_unique_pos _ _ (2 ^ (k + 1) - 1)).
        - assert (0 < 2 ^ (64 - (k + 1))) by (apply Z.pow_pos_nonneg; lia).
          assert (0 < 2 ^ (k + 1)) by (apply Z.pow_pos_nonneg; lia). nia.
        - nia. }
      rewrite Hh, Z.lor_comm, lor_low by lia.
      assert (H64 : 2 ^ 64 = 2 ^ (64 - (k + 1)) * 2 ^ (k + 1)) by (rewrite <- Z.pow_add_r by lia; f_equal; lia).
      replace ((2 ^ (64 - (k + 1)) - 1) * 2 ^ (k + 1) + (v + p * 2)) with (v + 2 ^ 64) by nia.
      unfold i64. change 18446744073709551616 with (2 ^ 64). replace (v + 2 ^ 64 + 9223372036854775808) with (v + 9223372036854775808 + 1 * 2 ^ 64) by lia.
      rewrite Z.mod_add by lia. apply (i64_id v). unfold MaxInt64. lia.
    + assert (k = 63) as Hk63 by lia. unfold p. rewrite Hk63. unfold i64. change (2 ^ 63 * 2) with 18446744073709551616.
      replace (v + 18446744073709551616 + 9223372036854775808) with (v + 9223372036854775808 + 1 * 18446744073709551616) by lia.
      rewrite Z.mod_add by lia. apply (i64_id v). unfold MaxInt64. lia.
  - rewrite Z.mod_small by lia. assert (Ht : Z.testbit v k = false).
    { apply Z.testbit_false; [lia|]. fold p. by rewrite Z.div_small by lia. }
    rewrite Ht, andb_false_r. apply i64_id. unfold MaxInt64. lia.
Qed.

Lemma utf8_2_scalar b0 b1 r : utf8_2 b0 b1 = Some r -> scalar r.
Proof. unfold utf8_2, continuation, scalar. intros H. destruct (_ && _) eqn:E; [|done]. injection H as <-. lia. Qed.

Lemma utf8_3_scalar b0 b1 b2 r : utf8_3 b0 b1 b2 = Some r -> scalar r.
Proof.
  unfold utf8_3, continuation, scalar. intros H. destruct (_ && _) eqn:E; [|done]. injection H as <-.
  destruct (Z.eqb_spec b0 0xe0), (Z.eqb_spec b0 0xed); lia.
Qed.

Lemma utf8_4_scalar b0 b1 b2 b3 r : utf8_4 b0 b1 b2 b3 = Some r -> scalar r.
Proof.
  unfold utf8_4, continuation, scalar. intros H. destruct (_ && _) eqn:E; [|done]. injection H as <-.
  destruct (Z.eqb_spec b0 0xf0), (Z.eqb_spec b0 0xf4); lia.
Qed.

Lemma runes_scalar s : bytes_ok s -> Forall scalar (runes s).
Proof.
  assert (Hr : scalar replacementChar) by (unfold scalar, replacementChar; lia).
  remember (length s) as n eqn:Hn. revert s Hn. induction (lt_wf n) as [n _ IH]. intros s -> Hb.
  destruct s as [|b0 t0]; [constructor|]. cbn [runes]. apply Forall_cons in Hb as [H0 Hb0]. unfold byte_ok in H0.
  assert (I0 : Forall scalar (runes t0)) by (apply (IH (length t0)); [cbn; lia|done|done]).
  destruct (Z.ltb_spec b0 0x80); [constructor; [unfold scalar; lia|done]|].
  destruct t0 as [|b1 t1]; [by repeat constructor|]. apply Forall_cons in Hb0 as [_ Hb1].
  destruct (utf8_2 b0 b1) as [r|] eqn:E2.
  { constructor; [by eapply utf8_2_scalar|]. apply (IH (length t1)); [cbn; lia|done|done]. }
  destruct t1 as [|b2 t2]; [by constructor|]. apply Forall_cons in Hb1 as [_ Hb2].
  destruct (utf8_3 b0 b1 b2) as [r|] eqn:E3.
  { constructor; [by eapply utf8_3_scalar|]. apply (IH (length t2)); [cbn; lia|done|done]. }
  destruct t2 as [|b3 t3]; [by constructor|]. apply Forall_cons in Hb2 as [_ Hb3].
  destruct (utf8_4 b0 b1 b2 b3) as [r|] eqn:E4; [|by constructor].
  constructor; [by eapply utf8_4_scalar|]. apply (IH (length t3)); [cbn; lia|done|done].
Qed.

Lemma utf16_units_range l : Forall scalar l -> Forall (fun u => 0 <= u < 65536) (utf16_Encode l).
Proof.
  induction 1 as [|r l Hr _ IH]; [constructor|]. unfold utf16_Encode in *. cbn [mbind list_bind].
  apply Forall_app. split; [|done].
  destruct (utf16_encode_scalar r Hr) as [[-> Hv]|(h & k & -> & Hh & Hl & _)]; repeat constructor; lia.
Qed.

(** The decoder of the package inverts [utf16.Encode] too. *)
Lemma utf16Decode_encode l : Forall scalar l -> utf16Decode (utf16_Encode l) = l.
Proof.
  induction 1 as [|r l Hr Hl IH]; [done|]. change (utf16_Encode (r :: l)) with (utf16_encode_rune r ++ utf16_Encode l).
  destruct (utf16_encode_scalar r Hr) as [[-> Hv]|(h & k & -> & Hh & Hk & ->)]; cbn [app utf16Decode].
  - destruct (utf16_Encode l) as [|u us]; [cbn in IH; by rewrite <- IH|].
    replace ((0xd800 <=? r) && (r <=? 0xdbff)) with false by lia. cbn [andb]. by rewrite IH.
  - replace ((0xd800 <=? h) && (h <=? 0xdbff) && (0xdc00 <=? k) && (k <=? 0xdfff)) with true by lia.
    rewrite Z.shiftl_mul_pow2 by lia. change (2 ^ 10) with 1024. rewrite IH. f_equal. lia.
Qed.

Lemma units_data_length encoding units : zlen (units_data encoding units) = 2 * zlen units.
Proof.
  unfold units_data. induction units as [|u units IH]; [done|]. cbn [mbind list_bind]. rewrite zlen_app, zlen_cons, IH.
  destruct (encoding =? 3); rewrite ?zlen_be_bytes, ?zlen_le_bytes; lia.
Qed.

Lemma text_units_data encoding units :
  Forall (fun u => 0 <= u < 65536) units -> text_units (length units) encoding (units_data encoding units) = units.
Proof.
  induction 1 as [|u units Hu _ IH]; [done|]. cbn [length text_units]. unfold units_data in *. cbn [mbind list_bind].
  set (b := (if encoding =? 3 then be_bytes 2 else le_bytes 2) u).
  assert (Hb : length b = 2%nat).
  { unfold b. pose proof (zlen_be_bytes 2 u). pose proof (zlen_le_bytes 2 u). unfold zlen in *. destruct (encoding =? 3); lia. }
  rewrite (take_app_length' b _ 2), (drop_app_length' b _ 2) by done. rewrite IH. f_equal. unfold b.
  destruct (encoding =? 3); [apply be_val_bytes|apply le_roundtrip]; change (256 ^ Z.of_nat 2) with 65536; lia.
Qed.

(** What becomes of a text: with the UTF-16 encodings, what is no UTF-8
    is replaced. *)
Definition norm_text (encoding : Z) (s : gostring) : gostring :=
  if encoding =? 1 then s else rune_string (runes s).

Lemma decodeText_encode s encoding :
  bytes_ok s -> 1 <= encoding <= 3 -> decodeText (encodeText s encoding) encoding = Ok (norm_text encoding s).
Proof.
  intros Hs He. unfold decodeText, encodeText, norm_text. destruct (Z.eqb_spec encoding 1); [done|].
  replace ((encoding =? 2) || (encoding =? 3)) with true by lia.
  set (units := utf16_Encode (runes s)). pose proof (units_data_length encoding units) as Hl. rewrite Hl.
  replace (2 * zlen units mod 2 =? 0) with true by lia. cbn [negb].
  replace (Z.to_nat (2 * zlen units / 2)) with (length units) by (unfold zlen; lia).
  pose proof (runes_scalar s Hs) as Hr. rewrite text_units_data by (by apply utf16_units_range).
  unfold units. by rewrite utf16Decode_encode.
Qed.

(** ** Fields round-trip *)

(** The values a Go program can hold. *)
Definition value_ok (v : sqlvalue) : Prop :=
  match v with
  | VInt n => - 2 ^ 63 <= n < 2 ^ 63
  | VUint n | VFloat n => 0 <= n < 2 ^ 64
  | VBlob b | VText b => bytes_ok b
  | _ => True
  end.

(** What the reader gives back. *)
Definition norm_value (encoding : Z) (v : sqlvalue) : sqlvalue :=
  match v with
  | VBool b => VInt (if b then 1 else 0)
  | VUint n => VInt n
  | VText s => VText (norm_text encoding s)
  | _ => v
  end.

(** A field as the reader takes it. *)
Definition field_reads (encoding : Z) (f : Z * bytes) (v : sqlvalue) : Prop :=
  0 <= f.1 < 2 ^ 64 /\ serialSize f.1 = Ok (zlen f.2) /\ decodeField f.1 f.2 encoding = Ok v.

Lemma integer_field_reads encoding n serial k :
  (serial, k) ∈ [(1, 1%nat); (2, 2%nat); (3, 3%nat); (4, 4%nat); (5, 6%nat); (6, 8%nat)] ->
  - 2 ^ (8 * Z.of_nat k - 1) <= n < 2 ^ (8 * Z.of_nat k - 1) -> field_reads encoding (serial, be_bytes k n) (VInt n).
Proof.
  intros Hk Hn. unfold field_reads. cbn [fst snd]. rewrite zlen_be_bytes.
  rewrite <- (signedBigEndian_be_bytes k n) at 2; [|set_unfold in Hk; naive_solver lia|done].
  set_unfold in Hk. destruct_or! Hk; try done; injection Hk as -> ->; (split; [lia|]); by split.
Qed.

Lemma integer_size_reads encoding n sizes :
  - 2 ^ 63 <= n < 2 ^ 63 ->
  Forall (.∈ [(1, 1%nat); (2, 2%nat); (3, 3%nat); (4, 4%nat); (5, 6%nat); (6, 8%nat)]) sizes ->
  field_reads encoding (integer_size sizes n) (VInt n).
Proof.
  intros Hn. induction 1 as [|[serial k] sizes Hk _ IH]; cbn [integer_size].
  - apply integer_field_reads; [set_solver|]. change (8 * Z.of_nat 8 - 1) with 63. done.
  - destruct (_ || _) eqn:E; [done|]. apply integer_field_reads; [done|lia].
Qed.

Lemma encodeInteger_reads encoding n : - 2 ^ 63 <= n < 2 ^ 63 -> field_reads encoding (encodeInteger n) (VInt n).
Proof.
  intros Hn. unfold encodeInteger. destruct (Z.eqb_spec n 0) as [->|]; [by repeat split|].
  destruct (Z.eqb_spec n 1) as [->|]; [by repeat split|].
  apply integer_size_reads; [done|]. repeat constructor; set_solver.
Qed.

Lemma blob_serial n : 0 <= n <= 2 ^ 30 -> serialSize (12 + n * 2) = Ok n /\ serialSize (13 + n * 2) = Ok n.
Proof.
  intros Hn. unfold serialSize. change (Z.shiftl 1 30) with (2 ^ 30).
  split; repeat match goal with |- context [?a =? ?b] => replace (a =? b) with false by lia end; cbn [orb];
    match goal with |- context [12 <=? ?b] => replace (12 <=? b) with true by lia end;
    match goal with |- context [2 ^ 30 <? ?b] => replace (2 ^ 30 <? b) with false by lia end; f_equal; lia.
Qed.

Lemma encodeField_reads encoding v f :
  1 <= encoding <= 3 -> value_ok v -> encodeField v encoding = Ok f -> zlen f.2 <= 2 ^ 30 ->
  field_reads encoding f (norm_value encoding v).
Proof.
  intros He Hv Hf Hl. destruct v as [|b|n|n|bits|b|s|]; cbn [encodeField value_ok norm_value] in *.
  - injection Hf as <-. by repeat split.
  - injection Hf as <-. by destruct b; repeat split.
  - injection Hf as <-. by apply encodeInteger_reads.
  - destruct (Z.ltb_spec MaxInt64 n); [done|]. injection Hf as <-. apply encodeInteger_reads. unfold MaxInt64 in *. lia.
  - injection Hf as <-. unfold field_reads. cbn [fst snd]. split; [lia|]. split; [done|].
    unfold decodeField. cbn -[be_val be_bytes]. by rewrite be_val_bytes.
  - injection Hf as <-. cbn [snd] in Hl. pose proof (zlen_nonneg b). destruct (blob_serial (zlen b) ltac:(lia)) as [Hs _].
    unfold field_reads. cbn [fst snd]. split; [lia|]. split; [done|]. unfold decodeField.
    rewrite (proj2 (Z.eqb_neq (12 + zlen b * 2) 0)), (proj2 (Z.eqb_neq (12 + zlen b * 2) 7)), (proj2 (Z.eqb_neq (12 + zlen b * 2) 8)),
      (proj2 (Z.eqb_neq (12 + zlen b * 2) 9)) by lia.
    replace ((1 <=? 12 + zlen b * 2) && (12 + zlen b * 2 <=? 6)) with false by lia.
    by replace ((12 <=? 12 + zlen b * 2) && ((12 + zlen b * 2) mod 2 =? 0)) with true by lia.
  - injection Hf as <-. cbn [snd] in Hl. set (t := encodeText s encoding) in *. pose proof (zlen_nonneg t).
    destruct (blob_serial (zlen t) ltac:(lia)) as [_ Hs].
    unfold field_reads. cbn [fst snd]. split; [lia|]. split; [done|]. unfold decodeField.
    rewrite (proj2 (Z.eqb_neq (13 + zlen t * 2) 0)), (proj2 (Z.eqb_neq (13 + zlen t * 2) 7)), (proj2 (Z.eqb_neq (13 + zlen t * 2) 8)),
      (proj2 (Z.eqb_neq (13 + zlen t * 2) 9)) by lia.
    replace ((1 <=? 13 + zlen t * 2) && (13 + zlen t * 2 <=? 6)) with false by lia.
    replace ((12 <=? 13 + zlen t * 2) && ((13 + zlen t * 2) mod 2 =? 0)) with false by lia.
    replace ((13 <=? 13 + zlen t * 2) && ((13 + zlen t * 2) mod 2 =? 1)) with true by lia.
    unfold t. by rewrite decodeText_encode.
  - done.
Qed.

(** ** Records round-trip *)

Lemma encode_fields_ok values encoding serials body serials' body' :
  encode_fields values encoding serials body = Ok (serials', body') ->
  exists fs, Forall2 (fun v f => encodeField v encoding = Ok f) values fs /\
    serials' = serials ++ mjoin ((fun f => encodeVarint f.1) <$> fs) /\ body' = body ++ mjoin (snd <$> fs).
Proof.
  revert serials body. induction values as [|v values IH]; intros serials body; cbn [encode_fields].
  { intros [= <- <-]. exists []. split; [constructor|]. cbn. by rewrite !app_nil_r. }
  destruct (encodeField v encoding) as [[serial field]|e] eqn:Hf; [|done]. intros H.
  destruct (IH _ _ H) as (fs & Hfs & -> & ->). exists ((serial, field) :: fs). split; [by constructor|].
  rewrite <- !app_assoc. done.
Qed.

Lemma read_serials_ok fuel data position (ss : list Z) :
  Forall (fun v => 0 <= v < 2 ^ 64) ss -> sits data position (mjoin (encodeVarint <$> ss)) -> (length ss <= fuel)%nat ->
  read_serials fuel data position (position + zlen (mjoin (encodeVarint <$> ss))) = Ok ss.
Proof.
  intros Hss. revert fuel position. induction Hss as [|v ss Hv Hss IH]; intros fuel position Hs Hf.
  { rewrite Z.add_0_r. destruct fuel; cbn [read_serials]; by rewrite Z.ltb_irrefl. }
  change (mjoin (encodeVarint <$> v :: ss)) with (encodeVarint v ++ mjoin (encodeVarint <$> ss)) in *.
  pose proof (sits_bound _ _ _ Hs) as [_ Hb]. apply sits_app in Hs as [H1 H2]. rewrite zlen_app in *.
  pose proof (encodeVarint_length v ltac:(lia)). pose proof (zlen_nonneg (mjoin (encodeVarint <$> ss))).
  destruct fuel as [|fuel]; [cbn in Hf; lia|]. cbn [read_serials]. set (limit := position + (zlen (encodeVarint v) + zlen (mjoin (encodeVarint <$> ss)))) in *.
  replace (position <? limit) with true by (unfold limit; lia).
  rewrite (decodeVarint_encode data position limit v Hv H1) by (unfold limit; lia). cbn [res_bind].
  replace limit with (position + zlen (encodeVarint v) + zlen (mjoin (encodeVarint <$> ss))) by (unfold limit; lia).
  rewrite IH; [done|done|cbn in Hf; lia].
Qed.

Lemma read_fields_ok encoding data body (fs : list (Z * bytes)) values :
  Forall2 (field_reads encoding) fs values -> sits data body (mjoin (snd <$> fs)) ->
  read_fields (fst <$> fs) data body encoding = Ok values.
Proof.
  intros Hfs. revert body. induction Hfs as [|[serial field] v fs values (_ & Hsz & Hd) Hfs IH]; intros body Hs; [done|].
  change (mjoin (snd <$> (serial, field) :: fs)) with (field ++ mjoin (snd <$> fs)) in Hs.
  pose proof (sits_bound _ _ _ Hs) as [_ Hb]. rewrite zlen_app in Hb. pose proof (zlen_nonneg (mjoin (snd <$> fs))).
  apply sits_app in Hs as [H1 H2]. cbn [fst snd] in *. rewrite fmap_cons. cbn [fst read_fields]. rewrite Hsz. cbn [res_bind].
  replace (zlen data <? body + zlen field) with false by lia. rewrite (sits_slice data body field) by done.
  rewrite Hd. cbn [res_bind]. by rewrite IH.
Qed.

Lemma mjoin_fields_bound (fs : list (Z * bytes)) : Forall (fun f => zlen f.2 <= zlen (mjoin (snd <$> fs))) fs.
Proof.
  induction fs as [|f fs IH]; [constructor|].
  change (mjoin (snd <$> f :: fs)) with (f.2 ++ mjoin (snd <$> fs)). rewrite zlen_app.
  pose proof (zlen_nonneg (mjoin (snd <$> fs))). pose proof (zlen_nonneg f.2). constructor; [lia|].
  eapply Forall_impl; [exact IH|]. cbn. intros g Hg. lia.
Qed.

Lemma serials_length (fs : list (Z * bytes)) :
  Forall (fun f => 0 <= f.1) fs -> zlen fs <= zlen (mjoin ((fun f => encodeVarint f.1) <$> fs)).
Proof.
  induction 1 as [|f fs Hf Hfs IH]; [done|].
  change (mjoin ((fun f => encodeVarint f.1) <$> f :: fs)) with (encodeVarint f.1 ++ mjoin ((fun f => encodeVarint f.1) <$> fs)).
  rewrite zlen_app, zlen_cons. pose proof (encodeVarint_length f.1 Hf). lia.
Qed.

Lemma decodeRecord_encode values encoding payload :
  1 <= encoding <= 3 -> Forall value_ok values -> encodeRecord values encoding = Ok payload -> zlen payload <= 2 ^ 30 ->
  decodeRecord payload encoding = Ok (norm_value encoding <$> values).
Proof.
  intros He Hv Hr Hl. unfold encodeRecord in Hr.
  destruct (encode_fields values encoding [] []) as [[serials body]|e] eqn:Hf; [|done]. cbn [res_bind] in Hr.
  destruct (header_size_ok (zlen serials)) as (h & Hh & Hsz); [apply zlen_nonneg|]. rewrite Hh in Hr. cbn [res_bind] in Hr.
  injection Hr as <-. apply encode_fields_ok in Hf as (fs & Hfs & Hserials & Hbody). cbn [app] in Hserials, Hbody.
  pose proof (zlen_nonneg serials). pose proof (zlen_nonneg body). pose proof (zlen_nonneg (encodeVarint h)).
  rewrite !zlen_app in Hl.
  assert (Hreads : Forall2 (field_reads encoding) fs (norm_value encoding <$> values)).
  { assert (Hb : Forall (fun f => zlen f.2 <= 2 ^ 30) fs).
    { eapply Forall_impl; [apply mjoin_fields_bound|]. cbn. intros f Hfl. rewrite <- Hbody in Hfl. lia. }
    clear -He Hv Hfs Hb. induction Hfs as [|v f values fs Hvf Hfs IH]; [constructor|].
    apply Forall_cons in Hv as [Hv1 Hv]. apply Forall_cons in Hb as [Hb1 Hb].
    constructor; [by apply encodeField_reads|by apply IH]. }
  assert (H64 : Forall (fun v => 0 <= v < 2 ^ 64) (fst <$> fs)).
  { apply Forall_fmap. eapply Forall2_Forall_l; [exact Hreads|]. apply Forall_true. by intros v f [? _]. }
  assert (Hmap : (fun f : Z * bytes => encodeVarint f.1) <$> fs = encodeVarint <$> (fst <$> fs)) by (by rewrite <- list_fmap_compose).
  set (data := encodeVarint h ++ serials ++ body).
  assert (S0 : sits data 0 (encodeVarint h)) by apply sits_prefix.
  assert (S1 : sits data (zlen (encodeVarint h)) (serials ++ body)) by apply sits_suffix.
  apply sits_app in S1 as [S1 S2]. assert (Hdata : zlen data = h + zlen body) by (unfold data; rewrite !zlen_app; lia).
  unfold decodeRecord. rewrite (decodeVarint_encode data 0 (zlen data) h) by (done || lia). cbn [res_bind].
  rewrite i64_id by (unfold MaxInt64; lia). replace ((h <? zlen (encodeVarint h)) || (zlen data <? h)) with false by lia.
  assert (Hlen : zlen fs <= h).
  { transitivity (zlen serials); [|lia]. rewrite Hserials. apply serials_length. apply Forall_fmap in H64. eapply Forall_impl; [exact H64|]. cbn. lia. }
  rewrite Hserials, Hmap in S1, Hsz.
  pose proof (read_serials_ok (Z.to_nat h) data (zlen (encodeVarint h)) (fst <$> fs) H64 S1) as Hrs.
  rewrite Hsz in Hrs. rewrite Hrs by (rewrite length_fmap; unfold zlen in *; lia).
  cbn [res_bind]. apply read_fields_ok; [done|]. rewrite Hserials, Hmap, Hsz, Hbody in S2. exact S2.
Qed.

(** ** The size of a record *)

Lemma runes_length s : (length (runes s) <= length s)%nat.
Proof.
  remember (length s) as n eqn:Hn. revert s Hn. induction (lt_wf n) as [n _ IH]. intros s ->.
  assert (I : forall t, (length t < length s)%nat -> (length (runes t) <= length t)%nat) by (intros t Ht; by apply (IH (length t))).
  destruct s as [|b0 t0]; [done|]. cbn [runes length] in *. pose proof (I t0 ltac:(lia)).
  destruct (b0 <? 0x80); [cbn; lia|]. destruct t0 as [|b1 t1]; [done|]. cbn [length] in *. pose proof (I t1 ltac:(lia)).
  destruct (utf8_2 b0 b1); [cbn; lia|]. destruct t1 as [|b2 t2]; [cbn [length] in *; lia|]. cbn [length] in *. pose proof (I t2 ltac:(lia)).
  destruct (utf8_3 b0 b1 b2); [cbn; lia|]. destruct t2 as [|b3 t3]; [cbn [length] in *; lia|]. cbn [length] in *. pose proof (I t3 ltac:(lia)).
  destruct (utf8_4 b0 b1 b2 b3); cbn [length]; lia.
Qed.

Lemma utf16_length l : Forall scalar l -> zlen (utf16_Encode l) <= 2 * zlen l.
Proof.
  induction 1 as [|r l Hr _ IH]; [done|]. change (utf16_Encode (r :: l)) with (utf16_encode_rune r ++ utf16_Encode l).
  rewrite zlen_app, zlen_cons. destruct (utf16_encode_scalar r Hr) as [[-> _]|(h & k & -> & _)]; rewrite ?zlen_cons, ?zlen_nil; lia.
Qed.

Lemma encodeText_length s encoding : bytes_ok s -> zlen (encodeText s encoding) <= 4 * zlen s.
Proof.
  intros Hs. unfold encodeText. pose proof (zlen_nonneg s). destruct (encoding =? 1); [lia|]. rewrite units_data_length.
  pose proof (runes_length s) as Hr. pose proof (runes_scalar s Hs) as Hsc.
  pose proof (utf16_length _ Hsc). unfold zlen in *. lia.
Qed.

(** At most what a value takes in a record. *)
Definition value_size (v : sqlvalue) : Z :=
  match v with
  | VBlob b => zlen b
  | VText s => 4 * zlen s
  | _ => 8
  end.

Lemma integer_size_length sizes n : Forall (fun s : Z * nat => 0 <= s.1 /\ (s.2 <= 8)%nat) sizes ->
  0 <= (integer_size sizes n).1 /\ zlen (integer_size sizes n).2 <= 8.
Proof.
  induction 1 as [|[serial k] sizes [H1 H2] _ IH]; cbn [integer_size]; [cbn [fst snd]; rewrite zlen_be_bytes; lia|].
  destruct (_ || _); [done|]. cbn [fst snd] in *. rewrite zlen_be_bytes. lia.
Qed.

Lemma encodeField_length v encoding f :
  value_ok v -> encodeField v encoding = Ok f -> 0 <= f.1 /\ zlen f.2 <= value_size v.
Proof.
  intros Hv Hf. assert (Hint : forall n, 0 <= (encodeInteger n).1 /\ zlen (encodeInteger n).2 <= 8).
  { intros n. unfold encodeInteger. destruct (n =? 0); [split; by apply Z.leb_le|]. destruct (n =? 1); [split; by apply Z.leb_le|].
    apply integer_size_length. repeat constructor; try (by apply Z.leb_le); cbn; lia. }
  destruct v as [|b|n|n|bits|b|s|]; cbn [encodeField value_size] in *; try done.
  - injection Hf as <-. split; by apply Z.leb_le.
  - injection Hf as <-. destruct b; split; by apply Z.leb_le.
  - injection Hf as <-. apply Hint.
  - destruct (_ <? _); [done|]. injection Hf as <-. apply Hint.
  - injection Hf as <-. cbn [fst snd]. rewrite zlen_be_bytes. lia.
  - injection Hf as <-. cbn [fst snd]. pose proof (zlen_nonneg b). lia.
  - injection Hf as <-. cbn [fst snd]. pose proof (encodeText_length s encoding Hv).
    pose proof (zlen_nonneg (encodeText s encoding)). lia.
Qed.

Lemma encodeRecord_length values encoding payload :
  Forall value_ok values -> encodeRecord values encoding = Ok payload ->
  zlen payload <= 9 + foldr (fun v acc => 9 + value_size v + acc) 0 values.
Proof.
  intros Hv Hr. unfold encodeRecord in Hr.
  destruct (encode_fields values encoding [] []) as [[serials body]|e] eqn:Hf; [|done]. cbn [res_bind] in Hr.
  destruct (header_size_ok (zlen serials)) as (h & Hh & Hsz); [apply zlen_nonneg|]. rewrite Hh in Hr. cbn [res_bind] in Hr.
  injection Hr as <-. apply encode_fields_ok in Hf as (fs & Hfs & -> & ->). cbn [app] in *.
  pose proof (zlen_nonneg (mjoin ((fun f => encodeVarint f.1) <$> fs))). pose proof (encodeVarint_length h ltac:(pose proof (zlen_nonneg (encodeVarint h)); lia)).
  rewrite !zlen_app. clear Hh Hsz.
  assert (zlen (mjoin ((fun f => encodeVarint f.1) <$> fs)) + zlen (mjoin (snd <$> fs)) <= foldr (fun v acc => 9 + value_size v + acc) 0 values);
    [|lia].
  clear -Hv Hfs. induction Hfs as [|v f values fs Hf _ IH]; [done|]. apply Forall_cons in Hv as [Hv1 Hv].
  destruct (encodeField_length _ _ _ Hv1 Hf) as [H1 H2]. pose proof (encodeVarint_length f.1 H1). specialize (IH Hv).
  change (mjoin ((fun f => encodeVarint f.1) <$> f :: fs)) with (encodeVarint f.1 ++ mjoin ((fun f => encodeVarint f.1) <$> fs)).
  change (mjoin (snd <$> f :: fs)) with (f.2 ++ mjoin (snd <$> fs)). rewrite !zlen_app. cbn [foldr]. lia.
Qed.
