(* ===== verification/SqliteBuild.v ===== *)
(** Package [sqlite], the writer (src/database/sqlite/build.go): a database is
    built page by page.

    The builder's state is its list of pages, page number [n] at index
    [n - 1].  A failure abandons the builder, so that an operation returns
    its new pages or an error.  Offsets inside a page that the code does not
    check are those of headers, which every page size has room for. *)

From S2P Require Import Prelude GoLib GoPath SqliteRecord.
From stdpp Require Import base numbers list strings sets.

Open Scope Z_scope.
Open Scope trex_scope.

Abbreviation minimumPageSize := 512 (only parsing).
Abbreviation maximumPageSize := 65536 (only parsing).
Abbreviation maximumPages := 1048576 (only parsing).

Record Object := MkObject {
  ob_Type : gostring;
  ob_Name : gostring;
  ob_TableName : gostring;
  ob_SQL : gostring;
  ob_Rows : list Row
}.

Record BuildOptions := MkBuildOptions {
  bo_PageSize : Z;
  bo_Encoding : Z;
  bo_UserVersion : Z;
  bo_ApplicationID : Z
}.

Record buildPage := MkBuildPage { bp_number : Z; bp_last : Z }.



Section builder.
Context (options : BuildOptions).
Implicit Types b : list bytes.

Definition allocate b : list bytes * Z := (b ++ [zeros (bo_PageSize options)], u32 (zlen b + 1)).

Definition builder_page b (number : Z) : res bytes := index b (u32 (number - 1)).

Definition builder_set_page b (number : Z) (page : bytes) : list bytes := <[Z.to_nat (u32 (number - 1)) := page]> b.

(** ** Pages of a b-tree *)

(** The cells go to the end of the page, the last one first, and their
    offsets after the header. *)
Fixpoint write_cells (cells : list bytes) (page : bytes) (pointers count i content : Z) : res (bytes * Z) :=
  match cells with
  | [] => Ok (page, content)
  | cell :: cells =>
      let content := content - zlen cell in
      if content <? pointers + count * 2 then Err (Errorf "page %d cells exceed page size")
      else write_cells cells (splice (splice page content cell) (pointers + i * 2) (be_bytes 2 content))
             pointers count (i + 1) content
  end.

Definition writeBtreePage b (number headerOffset pageType rightChild : Z) (cells : list bytes) : res (list bytes) :=
  let! page := builder_page b number in
  let page := take (Z.to_nat headerOffset) page ++ zeros (zlen page - headerOffset) in
  let interior := (pageType =? 0x02) || (pageType =? 0x05) in
  let page := if interior then splice page (headerOffset + 8) (be_bytes 4 rightChild) else page in
  let pointers := headerOffset + if interior then 12 else 8 in
  let! (page, content) := write_cells cells page pointers (zlen cells) 0 (zlen page) in
  let page := splice page headerOffset [pageType] in
  let page := splice page (headerOffset + 3) (be_bytes 2 (zlen cells)) in
  let contentOffset := if (bo_PageSize options =? maximumPageSize) && (content =? maximumPageSize) then 0 else content in
  let page := splice page (headerOffset + 5) (be_bytes 2 contentOffset) in
  Ok (builder_set_page b number page).

(** How much of a payload stays in the cell. *)
Definition local_payload (usable length : Z) (tableLeaf : bool) : Z :=
  let maximumLocal := if tableLeaf then usable - 35 else (usable - 12) * 64 / 255 - 23 in
  if maximumLocal <? length then
    let minimumLocal := (usable - 12) * 32 / 255 - 23 in
    let local := minimumLocal + (length - minimumLocal) mod (usable - 4) in
    if maximumLocal <? local then minimumLocal else local
  else length.

(** The chain of overflow pages. *)
Fixpoint overflow_loop (fuel : nat) b (first previous : Z) (remaining : bytes) : res (list bytes * Z) :=
  if zlen remaining =? 0 then Ok (b, first)
  else match fuel with
  | O => Err OutOfFuel
  | S fuel =>
      let '(b, number) := allocate b in
      let first := if first =? 0 then number else first in
      let! b := if negb (previous =? 0) then
                  let! page := builder_page b previous in Ok (builder_set_page b previous (splice page 0 (be_bytes 4 number)))
                else Ok b in
      let count := Z.min (zlen remaining) (bo_PageSize options - 4) in
      let! page := builder_page b number in
      let b := builder_set_page b number (splice page 4 (take (Z.to_nat count) remaining)) in
      overflow_loop fuel b first number (drop (Z.to_nat count) remaining)
  end.

Definition payloadCell b (prefix payload : bytes) (tableLeaf : bool) : res (list bytes * bytes) :=
  let local := local_payload (bo_PageSize options) (zlen payload) tableLeaf in
  let cell := prefix ++ take (Z.to_nat local) payload in
  if local =? zlen payload then Ok (b, cell)
  else
    let remaining := drop (Z.to_nat local) payload in
    let! (b, first) := overflow_loop (length remaining) b 0 0 remaining in
    Ok (b, cell ++ be_bytes 4 first).

Definition tableLeafCell b (rowid : Z) (values : list sqlvalue) : res (list bytes * bytes) :=
  let! payload := encodeRecord values (bo_Encoding options) in
  payloadCell b (encodeVarint (zlen payload) ++ encodeVarint (u64 rowid)) payload true.

Definition indexCell b (row : Row) : res (list bytes * bytes) :=
  let! payload := encodeRecord (row_Values row) (bo_Encoding options) in
  payloadCell b (encodeVarint (zlen payload)) payload false.

Definition indexCellSize (row : Row) : res Z :=
  let! payload := encodeRecord (row_Values row) (bo_Encoding options) in
  let local := local_payload (bo_PageSize options) (zlen payload) false in
  let overflow := if negb (local =? zlen payload) then 4 else 0 in
  Ok (zlen (encodeVarint (zlen payload)) + local + overflow).

(** ** Tables *)

Definition writeTableInterior b (number headerOffset : Z) (children : list buildPage) : res (list bytes) :=
  if zlen children <? 2 then Err (Errorf "interior table page needs at least two children")
  else
    match last children with
    | None => Err Panic
    | Some rightmost =>
        let cells := (fun child => be_bytes 4 (bp_number child) ++ encodeVarint (u64 (bp_last child)))
                       <$> take (length children - 1) children in
        writeBtreePage b number headerOffset 0x05 (bp_number rightmost) cells
    end.

(** Row identifiers must be there and increase. *)
Fixpoint check_rowids (rows : list Row) (previous : option Z) : res (list (Z * list sqlvalue)) :=
  match rows with
  | [] => Ok []
  | row :: rows =>
      match row_RowID row with
      | None => Err (Errorf "row %d has no rowid")
      | Some rowid =>
          if match previous with Some p => rowid <=? p | None => false end
          then Err (Errorf "rowids are not strictly increasing at row %d")
          else let! rest := check_rowids rows (Some rowid) in Ok ((rowid, row_Values row) :: rest)
      end
  end.

(** One leaf for every row. *)
Fixpoint write_leaves b (rows : list (Z * list sqlvalue)) : res (list bytes * list buildPage) :=
  match rows with
  | [] => Ok (b, [])
  | (rowid, values) :: rows =>
      let '(b, number) := allocate b in
      let! (b, cell) := tableLeafCell b rowid values in
      let! b := writeBtreePage b number 0 0x0d 0 [cell] in
      let! (b, level) := write_leaves b rows in
      Ok (b, MkBuildPage number rowid :: level)
  end.

(** How many of [n] pages the next parent takes. *)
Definition group_count (n : Z) : Z :=
  if n =? 21 then 18 else if n =? 22 then 19 else Z.min 20 n.

Fixpoint write_parents (fuel : nat) b (level : list buildPage) : res (list bytes * list buildPage) :=
  match level with
  | [] => Ok (b, [])
  | _ =>
      match fuel with
      | O => Err OutOfFuel
      | S fuel =>
          let children := take (Z.to_nat (group_count (zlen level))) level in
          let '(b, number) := allocate b in
          let! b := writeTableInterior b number 0 children in
          match last children with
          | None => Err Panic
          | Some child =>
              let! (b, next) := write_parents fuel b (drop (Z.to_nat (group_count (zlen level))) level) in
              Ok (b, MkBuildPage number (bp_last child) :: next)
          end
      end
  end.

Fixpoint raise_levels (fuel : nat) b (level : list buildPage) : res (list bytes * list buildPage) :=
  if 20 <? zlen level then
    match fuel with
    | O => Err OutOfFuel
    | S fuel => let! (b, next) := write_parents (length level) b level in raise_levels fuel b next
    end
  else Ok (b, level).

Definition buildTable b (root : Z) (rows : list Row) (schema : bool) : res (list bytes) :=
  let! rows := check_rowids rows None in
  let headerOffset := if schema then 100 else 0 in
  match rows with
  | [] => writeBtreePage b root headerOffset 0x0d 0 []
  | [(rowid, values)] =>
      let! (b, cell) := tableLeafCell b rowid values in
      writeBtreePage b root headerOffset 0x0d 0 [cell]
  | _ =>
      let! (b, level) := write_leaves b rows in
      let! (b, level) := raise_levels (length level) b level in
      writeTableInterior b root headerOffset level
  end.

(** ** Indexes *)

(** All cells of a leaf. *)
Fixpoint index_cells b (rows : list Row) : res (list bytes * list bytes) :=
  match rows with
  | [] => Ok (b, [])
  | row :: rows =>
      let! (b, cell) := indexCell b row in
      let! (b, cells) := index_cells b rows in
      Ok (b, cell :: cells)
  end.

(** The largest subtree of height [level]. *)
Fixpoint maximum_child (level : nat) (capacity : Z) : Z :=
  match level with
  | O => capacity
  | S level => (maximum_child level capacity + 1) * (capacity + 1) - 1
  end.

(** The children of an interior page, a record between each two; [node]
    builds a child. *)
Fixpoint index_children (node : list bytes -> Z -> list Row -> res (list bytes)) (n : nat) b (number : Z)
    (rows : list Row) (remaining : Z) (cells : list bytes) : res (list bytes) :=
  match n with
  | O => Err Panic
  | S n =>
      let count := Z.quot remaining (Z.of_nat (S n)) in
      let '(b, child) := allocate b in
      if (count <? 0) || (zlen rows <? count) then Err Panic
      else
        let! b := node b child (take (Z.to_nat count) rows) in
        match n, drop (Z.to_nat count) rows with
        | O, _ => writeBtreePage b number 0 0x02 child cells
        | S _, [] => Err Panic
        | S _, row :: rows =>
            let! (b, payload) := indexCell b row in
            index_children node n b number rows (remaining - count) (cells ++ [be_bytes 4 child ++ payload])
        end
  end.

Fixpoint buildIndexNode (height : nat) b (number : Z) (rows : list Row) (capacity : Z) (root : bool) : res (list bytes) :=
  match height with
  | O =>
      let! (b, cells) := index_cells b rows in
      writeBtreePage b number 0 0x0a 0 cells
  | S height =>
      let maximumChild := maximum_child height capacity in
      let children := Z.max 2 ((zlen rows + 1 + maximumChild) / (maximumChild + 1)) in
      let children := if negb root then Z.max 3 children else children in
      index_children (fun b child rows => buildIndexNode height b child rows capacity false)
        (Z.to_nat children) b number rows (zlen rows - children + 1) []
  end.

Fixpoint maximum_cell (rows : list Row) (maximumCell : Z) : res Z :=
  match rows with
  | [] => Ok maximumCell
  | row :: rows =>
      match row_RowID row with
      | Some _ => Err (Errorf "index row %d unexpectedly has a rowid")
      | None => let! size := indexCellSize row in maximum_cell rows (Z.max maximumCell size)
      end
  end.

(** The height at which [n] records fit. *)
Fixpoint index_height (fuel : nat) (capacity n available : Z) : res nat :=
  if available <? n then
    match fuel with
    | O => Err OutOfFuel
    | S fuel =>
        let available := if (MaxInt64 - capacity) / (capacity + 1) <? available then MaxInt64
                         else (available + 1) * (capacity + 1) - 1 in
        let! height := index_height fuel capacity n available in Ok (S height)
    end
  else Ok O.

Definition buildIndex b (root : Z) (rows : list Row) : res (list bytes) :=
  let! maximumCell := maximum_cell rows 0 in
  let capacity := (bo_PageSize options - 12) / (maximumCell + 6) in
  if capacity <? 2 then Err (Errorf "two index records cannot fit one interior page")
  else
    let! height := index_height 64 capacity (zlen rows) capacity in
    buildIndexNode height b root rows capacity true.

(** ** Databases *)

Definition databaseMagic : bytes := gostr "SQLite format 3" ++ [0].

Definition database_header_fields (pageCount : Z) : list (Z * bytes) :=
  [(0, databaseMagic);
   (16, be_bytes 2 (if bo_PageSize options =? maximumPageSize then 1 else bo_PageSize options));
   (18, [1; 1; 0]); (21, [64; 32; 32]);
   (24, be_bytes 4 1); (28, be_bytes 4 pageCount); (40, be_bytes 4 1); (44, be_bytes 4 4);
   (56, be_bytes 4 (bo_Encoding options)); (60, be_bytes 4 (bo_UserVersion options));
   (68, be_bytes 4 (bo_ApplicationID options)); (92, be_bytes 4 1); (96, be_bytes 4 3046000)].

Definition writeHeader b : res (list bytes) :=
  let! header := builder_page b 1 in
  Ok (builder_set_page b 1 (foldl (fun page f => splice page f.1 f.2) header (database_header_fields (zlen b)))).

(** An object with its root page, 0 for views and triggers. *)
Record buildObject := MkBuildObject { bd_definition : Object; bd_root : Z }.

Definition is_table (o : Object) : bool := bool_decide (ob_Type o = gostr "table").
Definition is_index (o : Object) : bool := bool_decide (ob_Type o = gostr "index").

Fixpoint prepare (objects : list Object) b (seen : list gostring) : res (list bytes * list buildObject) :=
  match objects with
  | [] => Ok (b, [])
  | object :: objects =>
      if bool_decide (ob_Name object = []) || bool_decide (ob_Type object = [])
      then Err (Errorf "sqlite: object %d has an empty type or name")
      else if bool_decide (ob_Name object ∈ seen) then Err (Errorf "sqlite: duplicate schema object %q")
      else
        let tableName := if bool_decide (ob_TableName object = []) then ob_Name object else ob_TableName object in
        let definition := MkObject (ob_Type object) (ob_Name object) tableName (ob_SQL object) (ob_Rows object) in
        let! (b, root) :=
          if is_table object || is_index object then Ok (allocate b)
          else if bool_decide (ob_Type object = gostr "view") || bool_decide (ob_Type object = gostr "trigger") then
            if negb (zlen (ob_Rows object) =? 0) then Err (Errorf "sqlite: %s %q cannot contain b-tree rows")
            else Ok (b, 0)
          else Err (Errorf "sqlite: unsupported schema object type %q") in
        let! (b, prepared) := prepare objects b (ob_Name object :: seen) in
        Ok (b, MkBuildObject definition root :: prepared)
  end.

Fixpoint build_objects b (prepared : list buildObject) : res (list bytes) :=
  match prepared with
  | [] => Ok b
  | object :: prepared =>
      let definition := bd_definition object in
      match (if is_table definition then buildTable b (bd_root object) (ob_Rows definition) false
             else if is_index definition then buildIndex b (bd_root object) (ob_Rows definition)
             else Ok b) with
      | Err e => Err (Wrapf "sqlite: build %s %q: %w" e)
      | Ok b => build_objects b prepared
      end
  end.

Definition schema_values (object : buildObject) : list sqlvalue :=
  let definition := bd_definition object in
  [VText (ob_Type definition); VText (ob_Name definition); VText (ob_TableName definition);
   VInt (bd_root object); VText (ob_SQL definition)].

Definition schema_rows (prepared : list buildObject) : list Row :=
  imap (fun i object => MkRow (Some (Z.of_nat i + 1)) (schema_values object)) prepared.

Definition build_pages (objects : list Object) : res (list bytes) :=
  let '(b, _) := allocate [] in
  let! (b, prepared) := prepare objects b [] in
  let! b := build_objects b prepared in
  match buildTable b 1 (schema_rows prepared) true with
  | Err e => Err (Wrapf "sqlite: build schema: %w" e)
  | Ok b =>
      if maximumPages <? zlen b then Err (Errorf "sqlite: generated page count %d exceeds limit")
      else writeHeader b
  end.
End builder.

Definition with_defaults (options : BuildOptions) : BuildOptions :=
  MkBuildOptions (if bo_PageSize options =? 0 then 4096 else bo_PageSize options)
    (if bo_Encoding options =? 0 then 1 else bo_Encoding options) (bo_UserVersion options) (bo_ApplicationID options).

Definition Build (objects : list Object) (options : BuildOptions) : res bytes :=
  let options := with_defaults options in
  if (bo_PageSize options <? minimumPageSize) || (maximumPageSize <? bo_PageSize options)
     || negb (Z.land (bo_PageSize options) (bo_PageSize options - 1) =? 0)
  then Err (Errorf "sqlite: invalid writer page size %d")
  else if (bo_Encoding options <? 1) || (3 <? bo_Encoding options)
  then Err (Errorf "sqlite: invalid writer encoding %d")
  else let! b := build_pages options objects in Ok (mjoin b).
