(* ===== verification/SqliteRead.v ===== *)
(** Package [sqlite], the reader (src/database/sqlite/sqlite.go): opening a
    database with its write-ahead log, walking b-trees, following overflow
    chains. *)

From S2P Require Import Prelude GoLib Storage Block GoPath SqliteRecord SqliteBuild.
From stdpp Require Import base numbers list gmap sets strings.

Open Scope Z_scope.
Open Scope trex_scope.

Abbreviation maximumDepth := 128%nat (only parsing).

Record Info := MkInfo {
  in_PageSize : Z;
  in_PageCount : Z;
  in_Encoding : Z;
  in_UserVersion : Z;
  in_ApplicationID : Z;
  in_WALFrames : Z
}.

Record SchemaEntry := MkSchemaEntry {
  se_Type : gostring;
  se_Name : gostring;
  se_TableName : gostring;
  se_RootPage : Z;
  se_SQL : gostring
}.

(** The pages of the log are those of the last committed transaction. *)
Record Database := MkDatabase {
  db_source : Reader;
  db_info : Info;
  db_usable : Z;
  db_pages : gmap Z bytes;
  db_schema : list SchemaEntry
}.

(** [readFullAt] is the loop of [block.ReadFullAt]. *)
Definition readFullAt (source : Reader) (n offset : Z) : res bytes :=
  match ReadFullAt (rd_ReadAt source) n offset with
  | (data, None) => Ok data
  | (_, Some e) => Err e
  end.

(** An integer of [n] bytes at an offset of a buffer. *)
Definition be_at (n offset : Z) (data : bytes) : Z := be_val (slice offset n data).

(** ** The write-ahead log *)

Record walFrame := MkFrame { wf_pageNumber : Z; wf_data : bytes }.

(** Words of the checksum. *)
Definition wal_word (bigEndian : bool) (offset : Z) (data : bytes) : Z :=
  if bigEndian then be_at 4 offset data else le_val (slice offset 4 data).

Fixpoint walChecksum_loop (n : nat) (data : bytes) (bigEndian : bool) (offset s0 s1 : Z) : Z * Z :=
  match n with
  | O => (s0, s1)
  | S n =>
      let s0 := u32 (s0 + u32 (wal_word bigEndian offset data + s1)) in
      let s1 := u32 (s1 + u32 (wal_word bigEndian (offset + 4) data + s0)) in
      walChecksum_loop n data bigEndian (offset + 8) s0 s1
  end.

Definition walChecksum (data : bytes) (bigEndian : bool) (s0 s1 : Z) : Z * Z :=
  walChecksum_loop (Z.to_nat (zlen data / 8)) data bigEndian 0 s0 s1.

(** The frames from [i] on, the number of those up to the last commit, and
    the page count it set. *)
Fixpoint wal_frames (n : nat) (source : Reader) (pageSize : Z) (bigEndian : bool) (salt1 salt2 i s0 s1 : Z)
    (frames : list walFrame) (committed committedPages : Z) : res (list walFrame * Z * Z) :=
  match n with
  | O => Ok (frames, committed, committedPages)
  | S n =>
      match readFullAt source (24 + pageSize) (32 + i * (24 + pageSize)) with
      | Err e => Err (Wrapf "sqlite: WAL frame %d: %w" e)
      | Ok frame =>
          if negb (be_at 4 8 frame =? salt1) || negb (be_at 4 12 frame =? salt2) then Ok (frames, committed, committedPages)
          else
            let '(next0, next1) := walChecksum (slice 0 8 frame) bigEndian s0 s1 in
            let '(next0, next1) := walChecksum (drop 24 frame) bigEndian next0 next1 in
            if negb (next0 =? be_at 4 16 frame) || negb (next1 =? be_at 4 20 frame)
            then Ok (frames, committed, committedPages)
            else
              let pageNumber := be_at 4 0 frame in
              if (pageNumber =? 0) || (maximumPages <? pageNumber) then Err (Errorf "sqlite: WAL frame %d has invalid page %d")
              else
                let frames := frames ++ [MkFrame pageNumber (drop 24 frame)] in
                let count := be_at 4 4 frame in
                let '(committed, committedPages) := if negb (count =? 0) then (i + 1, count) else (committed, committedPages) in
                wal_frames n source pageSize bigEndian salt1 salt2 (i + 1) next0 next1 frames committed committedPages
      end
  end.

Definition parseWAL (source : Reader) (pageSize : Z) : res (list walFrame * Z) :=
  if rd_Size source <? 32 then Err (Errorf "sqlite: WAL header is truncated")
  else
    match readFullAt source 32 0 with
    | Err e => Err (Wrapf "sqlite: WAL header: %w" e)
    | Ok header =>
        let magic := be_at 4 0 header in
        if negb (magic =? 0x377f0682) && negb (magic =? 0x377f0683) then Err (Errorf "sqlite: invalid WAL signature %#x")
        else
          let bigEndian := magic =? 0x377f0683 in
          if negb (be_at 4 4 header =? 3007000) then Err (Errorf "sqlite: unsupported WAL version %d")
          else if negb (be_at 4 8 header =? pageSize) then Err (Errorf "sqlite: WAL page size %d differs from database %d")
          else
            let '(s0, s1) := walChecksum (slice 0 24 header) bigEndian 0 0 in
            if negb (s0 =? be_at 4 24 header) || negb (s1 =? be_at 4 28 header)
            then Err (Errorf "sqlite: WAL header checksum mismatch")
            else
              let frameCount := (rd_Size source - 32) / (24 + pageSize) in
              let! (frames, committed, committedPages) :=
                wal_frames (Z.to_nat frameCount) source pageSize bigEndian (be_at 4 16 header) (be_at 4 20 header)
                  0 s0 s1 [] 0 0 in
              if committed =? 0 then Ok ([], 0) else Ok (take (Z.to_nat committed) frames, committedPages)
    end.

(** ** Pages and cells *)

Section database.
Context (d : Database).

Definition db_page (number : Z) : res bytes :=
  if (number =? 0) || (in_PageCount (db_info d) <? number) then Err (Errorf "sqlite: page %d outside database size %d")
  else match db_pages d !! number with
       | Some page => Ok page
       | None =>
           match readFullAt (db_source d) (in_PageSize (db_info d)) ((number - 1) * in_PageSize (db_info d)) with
           | Ok page => Ok page
           | Err e => Err (Wrapf "sqlite: page %d: %w" e)
           end
       end.

Definition cellOffset (page : bytes) (pointers i : Z) : res Z :=
  let offset := be_at 2 (pointers + i * 2) page in
  if (offset <? 0) || (db_usable d <=? offset) then Err (Errorf "page %d cell %d offset %d exceeds usable page") else Ok offset.

Fixpoint overflow_chain (fuel : nat) (next payloadBytes : Z) (seen : gset Z) (output : bytes) : res bytes :=
  if zlen output <? payloadBytes then
    match fuel with
    | O => Err OutOfFuel
    | S fuel =>
        if (next =? 0) || bool_decide (next ∈ seen) then Err (Errorf "invalid overflow chain at page %d")
        else
          let! overflow := db_page next in
          let count := Z.min (payloadBytes - zlen output) (db_usable d - 4) in
          overflow_chain fuel (be_at 4 0 overflow) payloadBytes ({[next]} ∪ seen) (output ++ slice 4 count overflow)
    end
  else Ok output.

Definition cellPayload (page : bytes) (position payloadBytes : Z) (tableLeaf : bool) : res bytes :=
  if Z.shiftl 1 30 <? payloadBytes then Err (Errorf "payload size %d exceeds limit")
  else
    let local := local_payload (db_usable d) payloadBytes tableLeaf in
    if (position <? 0) || (local <? 0) || (db_usable d <? position + local) then Err (Errorf "local payload exceeds b-tree page")
    else
      let output := slice position local page in
      if local =? payloadBytes then Ok output
      else if db_usable d <? position + local + 4 then Err (Errorf "overflow pointer exceeds b-tree page")
      else overflow_chain (Z.to_nat payloadBytes) (be_at 4 (position + local) page) payloadBytes ∅ output.

(** ** Walking a b-tree *)

(** What the closure of [btreeRows] changes: the rows found, and the pages
    visited. *)
Record walk_state := MkWalk { wk_rows : list Row; wk_visited : gset Z }.

Context (maximum : Z).

Definition full (st : walk_state) : bool := maximum <=? zlen (wk_rows st).

Definition add_row (row : Row) (st : walk_state) : walk_state := MkWalk (wk_rows st ++ [row]) (wk_visited st).

(** A loop over the cells of a page; the body tells whether to return. *)
Fixpoint each_cell (n : nat) (i : Z) (body : Z -> walk_state -> res (bool * walk_state)) (st : walk_state)
    : res (bool * walk_state) :=
  match n with
  | O => Ok (false, st)
  | S n => let! (stop, st) := body i st in if stop then Ok (true, st) else each_cell n (i + 1) body st
  end.

(** The record of a cell whose payload size is at [position]. *)
Definition index_record (page : bytes) (position : Z) : res (list sqlvalue) :=
  match decodeVarint page position (db_usable d) with
  | Err e => Err (Wrapf "page %d interior index cell %d payload: %w" e)
  | Ok (payloadSize, used) =>
      match cellPayload page (position + used) payloadSize false with
      | Err e => Err (Wrapf "page %d interior index cell %d: %w" e)
      | Ok payload =>
          match decodeRecord payload (in_Encoding (db_info d)) with
          | Err e => Err (Wrapf "page %d interior index cell %d record: %w" e)
          | Ok values => Ok values
          end
      end
  end.

Definition leaf_cell (page : bytes) (pointers : Z) (tableLeaf : bool) (i : Z) (st : walk_state)
    : res (bool * walk_state) :=
  if full st then Ok (true, st)
  else
    let! cell := cellOffset page pointers i in
    match decodeVarint page cell (db_usable d) with
    | Err e => Err (Wrapf "page %d cell %d payload: %w" e)
    | Ok (payloadSize, used) =>
        let position := cell + used in
        let! (rowID, position) :=
          if tableLeaf then
            match decodeVarint page position (db_usable d) with
            | Err e => Err (Wrapf "page %d cell %d rowid: %w" e)
            | Ok (value, count) => Ok (Some (i64 value), position + count)
            end
          else Ok (None, position) in
        match cellPayload page position payloadSize tableLeaf with
        | Err e => Err (Wrapf "page %d cell %d: %w" e)
        | Ok payload =>
            match decodeRecord payload (in_Encoding (db_info d)) with
            | Err e => Err (Wrapf "page %d cell %d record: %w" e)
            | Ok values => Ok (false, add_row (MkRow rowID values) st)
            end
        end
    end.

(** [walk] with what is left of the depth. *)
Fixpoint walk (depth : nat) (number : Z) (st : walk_state) : res walk_state :=
  if full st then Ok st
  else match depth with
  | O => Err (Errorf "b-tree exceeds maximum depth %d")
  | S depth =>
      if bool_decide (number ∈ wk_visited st) then Err (Errorf "b-tree contains repeated page %d")
      else
        let st := MkWalk (wk_rows st) ({[number]} ∪ wk_visited st) in
        let! page := db_page number in
        let headerOffset := if number =? 1 then 100 else 0 in
        if db_usable d <? headerOffset + 8 then Err (Errorf "page %d has truncated b-tree header")
        else
          let! pageType := index page headerOffset in
          let cellCount := be_at 2 (headerOffset + 3) page in
          let pointers := headerOffset + if (pageType =? 0x02) || (pageType =? 0x05) then 12 else 8 in
          let rightChild := be_at 4 (headerOffset + 8) page in
          if db_usable d <? pointers + cellCount * 2 then Err (Errorf "page %d cell pointer array exceeds page")
          else if pageType =? 0x05 then
            let! (_, st) := each_cell (Z.to_nat cellCount) 0 (fun i st =>
              let! cell := cellOffset page pointers i in
              if db_usable d <? cell + 4 then Err (Errorf "page %d interior cell is truncated")
              else let! st := walk depth (be_at 4 cell page) st in Ok (false, st)) st in
            walk depth rightChild st
          else if pageType =? 0x02 then
            let! (stop, st) := each_cell (Z.to_nat cellCount) 0 (fun i st =>
              let! cell := cellOffset page pointers i in
              if db_usable d <? cell + 4 then Err (Errorf "page %d interior index cell is truncated")
              else
                let! st := walk depth (be_at 4 cell page) st in
                if full st then Ok (true, st)
                else
                  let! values := index_record page (cell + 4) in
                  Ok (false, add_row (MkRow None values) st)) st in
            if stop || full st then Ok st else walk depth rightChild st
          else if (pageType =? 0x0d) || (pageType =? 0x0a) then
            let! (_, st) := each_cell (Z.to_nat cellCount) 0 (leaf_cell page pointers (pageType =? 0x0d)) st in Ok st
          else Err (Errorf "page %d has unsupported b-tree type %#x")
  end.

Definition btreeRows (root : Z) : res (list Row) :=
  if maximum =? 0 then Ok []
  else let! st := walk (S maximumDepth) root (MkWalk [] ∅) in Ok (wk_rows st).
End database.

(** ** Opening *)

Definition sqliteUint32 (value : sqlvalue) : option Z :=
  match value with
  | VInt n => if (0 <=? n) && (n <=? MaxUint32) then Some n else None
  | VNil => Some 0
  | _ => None
  end.

Definition schema_entry (row : Row) : res SchemaEntry :=
  match row_Values row with
  | [typeName; name; tableName; root; sql] =>
      match typeName, name, tableName, sqliteUint32 root with
      | VText typeName, VText name, VText tableName, Some root =>
          match sql with
          | VNil => Ok (MkSchemaEntry typeName name tableName root [])
          | VText sql => Ok (MkSchemaEntry typeName name tableName root sql)
          | _ => Err (Errorf "sqlite: schema SQL for %q is not text")
          end
      | _, _, _, _ => Err (Errorf "sqlite: malformed schema row")
      end
  | _ => Err (Errorf "sqlite: schema row has %d values, want 5")
  end.

Fixpoint schema_entries (rows : list Row) : res (list SchemaEntry) :=
  match rows with
  | [] => Ok []
  | row :: rows => let! entry := schema_entry row in let! rest := schema_entries rows in Ok (entry :: rest)
  end.

Definition apply_frames (committedPages : Z) (frames : list walFrame) : gmap Z bytes :=
  foldl (fun m frame => if wf_pageNumber frame <=? committedPages then <[wf_pageNumber frame := wf_data frame]> m else m)
    ∅ frames.

(** The database before its schema is read. *)
Definition open_header (source : Reader) (wal : option Reader) : res Database :=
  match readFullAt source 100 0 with
  | Err e => Err (Wrapf "sqlite: header: %w" e)
  | Ok header =>
      if negb (bool_decide (take 16 header = databaseMagic)) then Err (Errorf "sqlite: invalid database signature")
      else
        let pageSize := be_at 2 16 header in
        let pageSize := if pageSize =? 1 then maximumPageSize else pageSize in
        if (pageSize <? minimumPageSize) || (maximumPageSize <? pageSize) || negb (Z.land pageSize (pageSize - 1) =? 0)
        then Err (Errorf "sqlite: invalid page size %d")
        else
          let! reserved := index header 20 in
          if (pageSize <=? reserved) || (pageSize - reserved <? 480) then Err (Errorf "sqlite: invalid reserved space %d")
          else
            let encoding := be_at 4 56 header in
            if (encoding <? 1) || (3 <? encoding) then Err (Errorf "sqlite: unsupported text encoding %d")
            else
              let physicalPages := Z.quot (rd_Size source) pageSize in
              let pageCount := be_at 4 28 header in
              let pageCount := if pageCount =? 0 then u32 physicalPages else pageCount in
              if (pageCount =? 0) || (maximumPages <? pageCount) || (physicalPages <? pageCount)
              then Err (Errorf "sqlite: invalid database page count %d for %d physical pages")
              else
                let database := MkDatabase source
                  (MkInfo pageSize pageCount encoding (be_at 4 60 header) (be_at 4 68 header) 0)
                  (pageSize - reserved) ∅ [] in
                match wal with
                | Some log =>
                    if rd_Size log =? 0 then Ok database
                    else
                      let! (frames, committedPages) := parseWAL log pageSize in
                      if committedPages =? 0 then Ok database
                      else if maximumPages <? committedPages then Err (Errorf "sqlite: WAL commits invalid page count %d")
                      else Ok (MkDatabase source
                             (MkInfo pageSize committedPages encoding (be_at 4 60 header) (be_at 4 68 header) (zlen frames))
                             (pageSize - reserved) (apply_frames committedPages frames) [])
                | None => Ok database
                end
  end.

Definition Open (source : Reader) (wal : option Reader) : res Database :=
  let! database := open_header source wal in
  let! effectiveHeader := db_page database 1 in
  if negb (bool_decide (take 16 effectiveHeader = databaseMagic))
  then Err (Errorf "sqlite: effective page 1 has invalid signature")
  else
    let encoding := be_at 4 56 effectiveHeader in
    let info := db_info database in
    let info := MkInfo (in_PageSize info) (in_PageCount info) encoding (be_at 4 60 effectiveHeader)
                  (be_at 4 68 effectiveHeader) (in_WALFrames info) in
    if (encoding <? 1) || (3 <? encoding) then Err (Errorf "sqlite: effective page 1 has unsupported text encoding %d")
    else
      let database := MkDatabase (db_source database) info (db_usable database) (db_pages database) [] in
      match btreeRows database 100000 1 with
      | Err e => Err (Wrapf "sqlite: schema: %w" e)
      | Ok rows =>
          let! schema := schema_entries rows in
          Ok (MkDatabase (db_source database) info (db_usable database) (db_pages database) schema)
      end.

Section rows.
(** [strings.EqualFold]. *)
Context (EqualFold : gostring -> gostring -> bool).

Fixpoint find_entry (schema : list SchemaEntry) (name : gostring) : option SchemaEntry :=
  match schema with
  | [] => None
  | entry :: schema => if EqualFold (se_Name entry) name then Some entry else find_entry schema name
  end.

Definition Database_Rows (d : Database) (name : gostring) (maximum : Z) : res (list Row) :=
  if (maximum <? 0) || (1000000 <? maximum) then Err (Errorf "sqlite: invalid row limit %d")
  else match find_entry (db_schema d) name with
       | Some entry =>
           if se_RootPage entry =? 0 then Err (Errorf "sqlite: schema object %q has no b-tree")
           else btreeRows d maximum (se_RootPage entry)
       | None => Err (Errorf "sqlite: no schema object named %q")
       end.
End rows.
