(* ===== verification/SqliteTree.v ===== *)
(** The b-trees of a database, and that the reader walks them.

    [table_tree] and [index_tree] describe, on the pages of a file alone, a
    tree that holds given rows: what the pages and their cells contain, and
    which pages the tree consists of.  The lemmas show that the recursive
    walk of [btreeRows] over such a tree gives the first rows of it, in
    order. *)

From S2P Require Import Prelude GoLib Storage Block GoPath SqliteRecord SqliteBuild SqliteRead.
From stdpp Require Import base numbers list gmap sets strings.

Open Scope Z_scope.
Open Scope trex_scope.

(** ** Bytes of a page *)

Lemma sits_nthb (data : bytes) pos l :
  sits data pos l <-> 0 <= pos /\ pos + zlen l <= zlen data /\ forall i, 0 <= i < zlen l -> nthb data (pos + i) = nthb l i.
Proof.
  split.
  - intros Hs. pose proof (sits_bound _ _ _ Hs) as [H1 H2]. split_and!; [done..|]. intros i Hi.
    rewrite <- (nthb_slice data pos (zlen l) i) by lia. by rewrite (sits_slice _ _ _ _ Hs).
  - intros (H1 & H2 & H3). pose proof (zlen_nonneg l). assert (l = slice pos (zlen l) data) as Hl.
    { apply bytes_ext; [by rewrite zlen_slice by lia|]. intros i Hi. by rewrite nthb_slice, H3 by lia. }
    exists (take (Z.to_nat pos) data), (drop (Z.to_nat (pos + zlen l)) data).
    split; [|unfold zlen in *; rewrite length_take; lia].
    rewrite Hl at 1. unfold slice. replace (Z.to_nat (pos + zlen l)) with (Z.to_nat pos + Z.to_nat (zlen l))%nat by lia.
    by rewrite <- drop_drop, !take_drop.
Qed.

Lemma sits_same (p q : bytes) pos l :
  zlen p = zlen q -> (forall i, pos <= i -> nthb p i = nthb q i) -> sits p pos l -> sits q pos l.
Proof. rewrite !sits_nthb. intros Hl He (? & ? & H). split_and!; [lia..|]. intros i Hi. rewrite <- He by lia. by apply H. Qed.

Lemma sits_splice (l : bytes) off d : 0 <= off -> off + zlen d <= zlen l -> sits (splice l off d) off d.
Proof.
  intros H1 H2. apply sits_nthb. rewrite zlen_splice by lia. split_and!; [lia..|]. intros i Hi.
  rewrite nthb_splice by lia. unfold upd. replace (off + i - off) with i by lia. by case_match; lia || done.
Qed.

Lemma sits_splice_other (l : bytes) off d pos x :
  0 <= off -> off + zlen d <= zlen l -> off + zlen d <= pos \/ pos + zlen x <= off -> sits l pos x -> sits (splice l off d) pos x.
Proof.
  rewrite !sits_nthb. intros ?? Hd (? & ? & H). rewrite zlen_splice by lia. split_and!; [lia..|]. intros i Hi.
  rewrite nthb_splice by lia. rewrite <- H by lia. unfold upd. case_match; [lia|done].
Qed.

Lemma be_at_sits n k data off v : sits data off (be_bytes n v) -> k = Z.of_nat n -> 0 <= v < 256 ^ k -> be_at k off data = v.
Proof. intros Hs -> Hv. unfold be_at. rewrite (sits_slice _ _ _ _ Hs) by (by rewrite zlen_be_bytes). by apply be_val_bytes. Qed.

(** ** Pages *)

Definition interior (pageType : Z) : bool := (pageType =? 0x02) || (pageType =? 0x05).
Definition header_length (pageType : Z) : Z := if interior pageType then 12 else 8.

(** A page of a b-tree, its header at [hdr]. *)
Record node (page : bytes) (hdr pageType rightChild : Z) (cells : list bytes) : Prop := {
  nd_type : sits page hdr [pageType];
  nd_count : sits page (hdr + 3) (be_bytes 2 (zlen cells));
  nd_right : interior pageType = true -> sits page (hdr + 8) (be_bytes 4 rightChild);
  nd_room : hdr + header_length pageType + 2 * zlen cells <= zlen page;
  nd_cells : forall i cell, cells !! i = Some cell -> exists off,
    sits page (hdr + header_length pageType + 2 * Z.of_nat i) (be_bytes 2 off) /\ hdr <= off < 65536 /\ sits page off cell
}.

Lemma header_length_pos t : 8 <= header_length t <= 12.
Proof. unfold header_length. case_match; lia. Qed.

(** What precedes the header does not matter. *)
Lemma node_same p q hdr pageType rightChild cells :
  zlen p = zlen q -> (forall i, hdr <= i -> nthb p i = nthb q i) -> node p hdr pageType rightChild cells ->
  node q hdr pageType rightChild cells.
Proof.
  intros Hl He [H1 H2 H3 H4 H5]. pose proof (header_length_pos pageType).
  assert (Hs : forall pos l, hdr <= pos -> sits p pos l -> sits q pos l).
  { intros pos l Hpos. apply sits_same; [done|]. intros; apply He; lia. }
  split; [by apply Hs; [lia|]..|intros Hi; apply Hs; [lia|by apply H3]|lia|].
  intros i cell Hc. destruct (H5 i cell Hc) as (off & Ha & Hb & Hd).
  exists off. split_and!; [by apply Hs; [lia|]|lia..|by apply Hs; [lia|]].
Qed.

(** ** The pages of a file *)

Section pages.
Context (ps encoding : Z) (B : list bytes).

Definition page_at (n : Z) (p : bytes) : Prop := 1 <= n <= maximumPages /\ B !! Z.to_nat (n - 1) = Some p.

Definition header_offset (n : Z) : Z := if n =? 1 then 100 else 0.

Definition node_at (n pageType rightChild : Z) (cells : list bytes) : Prop :=
  exists p, page_at n p /\ node p (header_offset n) pageType rightChild cells.

(** A chain of overflow pages holds [data]. *)
Fixpoint chained (fuel : nat) (n : Z) (data : bytes) : Prop :=
  match fuel with
  | O => data = []
  | S fuel =>
      data = [] \/
      exists p next, page_at n p /\ sits p 0 (be_bytes 4 next) /\ 0 <= next <= maximumPages /\
        sits p 4 (take (Z.to_nat (ps - 4)) data) /\
        (drop (Z.to_nat (ps - 4)) data = [] \/ n < next) /\ chained fuel next (drop (Z.to_nat (ps - 4)) data)
  end.

Lemma chained_more fuel fuel' n data : chained fuel n data -> (fuel <= fuel')%nat -> chained fuel' n data.
Proof.
  revert fuel' n data. induction fuel as [|fuel IH]; intros [|fuel'] n data Hc Hf; [done|by left|lia|].
  destruct Hc as [|(p & next & ? & ? & ? & ? & ? & ?)]; [by left|]. right. exists p, next. do 5 (split; [done|]). apply IH; [done|lia].
Qed.

(** What follows the sizes in a cell. *)
Definition stored (tableLeaf : bool) (payload body : bytes) : Prop :=
  let local := local_payload ps (zlen payload) tableLeaf in
  if local =? zlen payload then body = payload
  else exists first, 0 <= first <= maximumPages /\ body = take (Z.to_nat local) payload ++ be_bytes 4 first /\
         chained (length payload) first (drop (Z.to_nat local) payload).

Definition holds_row (tableLeaf : bool) (row : Row) (cell : bytes) : Prop :=
  exists payload body, zlen payload <= 2 ^ 30 /\ decodeRecord payload encoding = Ok (row_Values row) /\
    stored tableLeaf payload body /\
    if tableLeaf then exists rowid, row_RowID row = Some rowid /\ - 2 ^ 63 <= rowid < 2 ^ 63 /\
                        cell = encodeVarint (zlen payload) ++ encodeVarint (u64 rowid) ++ body
    else row_RowID row = None /\ cell = encodeVarint (zlen payload) ++ body.

(** A subtree: its root page, its pages, its rows. *)
Record subtree := MkSub { sub_root : Z; sub_pages : list Z; sub_rows : list Row }.

Fixpoint table_tree (h : nat) (t : subtree) : Prop :=
  match h with
  | O => exists cells, node_at (sub_root t) 0x0d 0 cells /\ Forall2 (holds_row true) (sub_rows t) cells /\
           sub_pages t = [sub_root t]
  | S h => exists ts rightmost cells,
      node_at (sub_root t) 0x05 (sub_root rightmost) cells /\
      Forall2 (fun s cell => exists key, cell = be_bytes 4 (sub_root s) ++ key) ts cells /\
      Forall (table_tree h) (ts ++ [rightmost]) /\
      sub_pages t = sub_root t :: mjoin (sub_pages <$> ts) ++ sub_pages rightmost /\
      sub_rows t = mjoin (sub_rows <$> ts) ++ sub_rows rightmost
  end.

Fixpoint index_tree (h : nat) (t : subtree) : Prop :=
  match h with
  | O => exists cells, node_at (sub_root t) 0x0a 0 cells /\ Forall2 (holds_row false) (sub_rows t) cells /\
           sub_pages t = [sub_root t]
  | S h => exists (ts : list (subtree * Row)) rightmost cells,
      node_at (sub_root t) 0x02 (sub_root rightmost) cells /\
      Forall2 (fun s cell => exists rest, cell = be_bytes 4 (sub_root s.1) ++ rest /\ holds_row false s.2 rest) ts cells /\
      Forall (fun s => index_tree h s.1) ts /\ index_tree h rightmost /\
      sub_pages t = sub_root t :: mjoin ((fun s => sub_pages s.1) <$> ts) ++ sub_pages rightmost /\
      sub_rows t = mjoin ((fun s => sub_rows s.1 ++ [s.2]) <$> ts) ++ sub_rows rightmost
  end.
End pages.

(** ** The reader on such pages *)

Lemma local_payload_bound ps n tableLeaf : 512 <= ps <= 65536 -> 0 <= n -> 0 <= local_payload ps n tableLeaf <= n /\
  (local_payload ps n tableLeaf <> n -> local_payload ps n tableLeaf <= ps - 35).
Proof.
  intros Hps Hn. unfold local_payload.
  pose proof (Z.mod_pos_bound (n - ((ps - 12) * 32 / 255 - 23)) (ps - 4) ltac:(lia)).
  assert (35 <= (ps - 12) * 32 / 255 - 23 <= (ps - 12) * 64 / 255 - 23) by (Z.to_euclidean_division_equations; lia).
  assert ((ps - 12) * 64 / 255 - 23 <= ps - 35) by (Z.to_euclidean_division_equations; lia).
  assert (n - ((ps - 12) * 32 / 255 - 23) >= 0 -> (n - ((ps - 12) * 32 / 255 - 23)) mod (ps - 4) <= n - ((ps - 12) * 32 / 255 - 23)).
  { intros. apply Z.mod_le; lia. }
  destruct tableLeaf; repeat case_match; lia.
Qed.

Section reading.
Context (d : Database) (B : list bytes).
Notation ps := (db_usable d).
Notation encoding := (in_Encoding (db_info d)).
Hypothesis Hps : 512 <= ps <= 65536.
Hypothesis Hlen : Forall (fun p => zlen p = ps) B.
Hypothesis Hpage : forall n p, page_at B n p -> db_page d n = Ok p.

Lemma page_length n p : page_at B n p -> zlen p = ps.
Proof. intros [_ H]. rewrite Forall_forall in Hlen. apply Hlen. by eapply list_elem_of_lookup_2. Qed.

Lemma overflow_chain_ok fuel k n data seen out total :
  chained ps B k n data -> (length data <= k)%nat -> (length data <= fuel)%nat -> zlen out + zlen data = total ->
  (data <> [] -> forall m, m ∈ seen -> m < n) ->
  overflow_chain d fuel n total seen out = Ok (out ++ data).
Proof.
  revert k n data seen out. induction fuel as [|fuel IH]; intros k n data seen out Hc Hk Hf Ht Hseen.
  { destruct data; [|simpl in *; lia]. cbn [overflow_chain]. rewrite zlen_nil in Ht.
    replace (zlen out <? total) with false by lia. by rewrite app_nil_r. }
  cbn [overflow_chain]. destruct (decide (data = [])) as [->|Hd].
  { rewrite zlen_nil in Ht. replace (zlen out <? total) with false by lia. by rewrite app_nil_r. }
  assert (0 < zlen data) by (destruct data; [done|rewrite zlen_cons; pose proof (zlen_nonneg data); lia]).
  replace (zlen out <? total) with true by lia.
  destruct k as [|k]; [unfold zlen in *; lia|]. cbn [chained] in Hc. destruct Hc as [|(p & next & Hp & Hn & Hnb & Hdat & Hlt & Hc)]; [done|].
  pose proof Hp as [Hnr _]. replace (n =? 0) with false by lia.
  rewrite bool_decide_false by (intros Hin; apply Hseen in Hin; [lia|done]). cbn [orb].
  rewrite (Hpage n p Hp). cbn [res_bind]. rewrite (be_at_sits 4 4 p 0 next Hn eq_refl) by lia.
  assert (He : slice 4 (Z.min (total - zlen out) (ps - 4)) p = take (Z.to_nat (ps - 4)) data).
  { apply sits_slice; [done|]. unfold zlen in *. rewrite length_take. lia. }
  rewrite He. rewrite (IH k next (drop (Z.to_nat (ps - 4)) data)).
  - f_equal. by rewrite <- app_assoc, take_drop.
  - done.
  - rewrite length_drop. lia.
  - rewrite length_drop. unfold zlen in *. lia.
  - rewrite zlen_app. unfold zlen in *. rewrite length_drop, length_take. lia.
  - intros Hr m Hm. destruct Hlt as [|Hlt]; [done|]. apply elem_of_union in Hm as [Hm%elem_of_singleton|Hm]; [lia|].
    specialize (Hseen Hd m Hm). lia.
Qed.

Lemma cellPayload_ok page position tableLeaf payload body :
  zlen page = ps -> zlen payload <= 2 ^ 30 -> stored ps B tableLeaf payload body -> sits page position body ->
  cellPayload d page position (zlen payload) tableLeaf = Ok payload.
Proof.
  intros Hp Hm Hst Hs. unfold cellPayload. change (Z.shiftl 1 30) with (2 ^ 30).
  replace (2 ^ 30 <? zlen payload) with false by lia.
  destruct (local_payload_bound ps (zlen payload) tableLeaf Hps (zlen_nonneg _)) as [Hl Hl'].
  unfold stored in Hst. cbv zeta in Hst. set (local := local_payload ps (zlen payload) tableLeaf) in *.
  pose proof (sits_bound _ _ _ Hs) as [H0 H1]. destruct (Z.eqb_spec local (zlen payload)) as [E|E].
  - subst body. replace ((position <? 0) || (local <? 0) || (ps <? position + local)) with false by lia.
    f_equal. by apply sits_slice.
  - destruct Hst as (first & Hf & -> & Hc). rewrite zlen_app, zlen_be_bytes in H1. change (Z.of_nat 4) with 4 in H1.
    assert (Ht : zlen (take (Z.to_nat local) payload) = local) by (unfold zlen in *; rewrite length_take; lia).
    replace ((position <? 0) || (local <? 0) || (ps <? position + local)) with false by lia.
    replace (ps <? position + local + 4) with false by lia.
    apply sits_app in Hs as [Ha Hb]. rewrite Ht in Hb. rewrite (be_at_sits 4 4 page _ first Hb eq_refl) by lia.
    rewrite (sits_slice _ _ _ local Ha) by done. rewrite (overflow_chain_ok _ _ _ _ _ _ _ Hc).
    + by rewrite take_drop.
    + rewrite length_drop. lia.
    + rewrite length_drop. unfold zlen. lia.
    + rewrite Ht. unfold zlen in *. rewrite length_drop. lia.
    + set_solver.
Qed.

(** ** Cells *)

Lemma cellOffset_ok page hdr t r cells i cell :
  node page hdr t r cells -> 0 <= hdr -> zlen page = ps -> cells !! i = Some cell -> 0 < zlen cell ->
  exists off, cellOffset d page (hdr + header_length t) (Z.of_nat i) = Ok off /\ sits page off cell.
Proof.
  intros Hn Hh Hp Hc Hz. destruct (nd_cells _ _ _ _ _ Hn i cell Hc) as (off & Ha & Hb & Hd). exists off. split; [|done].
  unfold cellOffset. rewrite Z.mul_comm, (be_at_sits 2 2 page _ off Ha eq_refl) by lia.
  pose proof (sits_bound _ _ _ Hd). replace ((off <? 0) || (ps <=? off)) with false by lia. done.
Qed.

Lemma holds_row_length tableLeaf row cell : holds_row ps encoding B tableLeaf row cell -> 0 < zlen cell.
Proof.
  intros (payload & body & _ & _ & _ & H). pose proof (encodeVarint_length (zlen payload) (zlen_nonneg _)).
  pose proof (zlen_nonneg body). destruct tableLeaf; [destruct H as (rowid & _ & _ & ->)|destruct H as [_ ->]];
    rewrite !zlen_app; [|lia]. pose proof (zlen_nonneg (encodeVarint (u64 rowid))). lia.
Qed.

Lemma u64_signed r : - 2 ^ 63 <= r < 2 ^ 63 -> i64 (u64 r) = r /\ 0 <= u64 r < 2 ^ 64.
Proof. unfold i64, u64. intros. Z.to_euclidean_division_equations. lia. Qed.

(** The record of an index entry. *)
Lemma index_record_ok page position row rest :
  zlen page = ps -> sits page position rest -> holds_row ps encoding B false row rest ->
  index_record d page position = Ok (row_Values row) /\ row_RowID row = None.
Proof.
  intros Hp Hs (payload & body & Hm & Hdec & Hst & Hid & ->). split; [|done]. unfold index_record.
  pose proof (sits_bound _ _ _ Hs) as [_ Hb]. rewrite zlen_app in Hb. pose proof (zlen_nonneg body).
  pose proof (zlen_nonneg payload). apply sits_app in Hs as [Ha Hc].
  rewrite (decodeVarint_encode _ _ _ (zlen payload) ltac:(lia) Ha) by lia.
  rewrite (cellPayload_ok _ _ _ _ _ Hp Hm Hst Hc). by rewrite Hdec.
Qed.

Context (maximum : Z).
Hypothesis Hmax : 0 < maximum.

Lemma leaf_cell_ok page hdr t cells tableLeaf i cell row st :
  node page hdr t 0 cells -> interior t = false -> 0 <= hdr -> zlen page = ps -> cells !! i = Some cell ->
  holds_row ps encoding B tableLeaf row cell -> full maximum st = false ->
  leaf_cell d maximum page (hdr + 8) tableLeaf (Z.of_nat i) st = Ok (false, add_row row st).
Proof.
  intros Hn Ht Hh Hp Hc Hr Hf. unfold leaf_cell. rewrite Hf.
  destruct (cellOffset_ok _ _ _ _ _ _ _ Hn Hh Hp Hc (holds_row_length _ _ _ Hr)) as (off & Hoff & Hs).
  unfold header_length in Hoff. rewrite Ht in Hoff. rewrite Hoff. cbn [res_bind].
  destruct Hr as (payload & body & Hm & Hdec & Hst & Hr). pose proof (zlen_nonneg body). pose proof (zlen_nonneg payload).
  pose proof (sits_bound _ _ _ Hs) as [_ Hb]. destruct row as [id values]. cbn [row_Values row_RowID] in *. destruct tableLeaf.
  - destruct Hr as (rowid & -> & Hid & ->). destruct (u64_signed rowid Hid) as [Hi Hu]. rewrite !zlen_app in Hb.
    pose proof (zlen_nonneg (encodeVarint (u64 rowid))).
    apply sits_app in Hs as [Ha Hc']. apply sits_app in Hc' as [Hb' Hc'].
    rewrite (decodeVarint_encode _ _ _ (zlen payload) ltac:(lia) Ha) by lia.
    rewrite (decodeVarint_encode _ _ _ _ Hu Hb') by lia. cbn [res_bind]. rewrite Hi.
    rewrite (cellPayload_ok _ _ _ _ _ Hp Hm Hst Hc'). by rewrite Hdec.
  - destruct Hr as (-> & ->). rewrite zlen_app in Hb. apply sits_app in Hs as [Ha Hc'].
    rewrite (decodeVarint_encode _ _ _ (zlen payload) ltac:(lia) Ha) by lia. cbn [res_bind].
    rewrite (cellPayload_ok _ _ _ _ _ Hp Hm Hst Hc'). by rewrite Hdec.
Qed.

(** ** Walking *)

Definition bounded (st : walk_state) : Prop := zlen (wk_rows st) <= maximum.

(** [st'] has gained rows, of pages [l]. *)
Definition gained (st : walk_state) (l : list Z) (more : list Row) (st' : walk_state) : Prop :=
  wk_rows st' = take (Z.to_nat maximum) (wk_rows st ++ more) /\ wk_visited st' ⊆ wk_visited st ∪ list_to_set l.

Definition fresh (st : walk_state) (l : list Z) : Prop := forall m, m ∈ l -> m ∉ wk_visited st.

Lemma gained_bounded st l more st' : gained st l more st' -> bounded st'.
Proof. intros [H _]. unfold bounded, zlen. rewrite H, length_take. lia. Qed.

Lemma take_take_app {A} n (a b : list A) : take n (take n a ++ b) = take n (a ++ b).
Proof.
  destruct (decide (length a <= n)%nat); [by rewrite (take_ge a)|].
  rewrite !take_app, take_take, length_take. replace (n `min` n)%nat with n by lia.
  replace (n - n `min` length a)%nat with 0%nat by lia. by replace (n - length a)%nat with 0%nat by lia.
Qed.

Lemma gained_trans st l1 m1 st1 l2 m2 st2 :
  gained st l1 m1 st1 -> gained st1 l2 m2 st2 -> gained st (l1 ++ l2) (m1 ++ m2) st2.
Proof.
  intros [H1 V1] [H2 V2]. split; [by rewrite H2, H1, take_take_app, app_assoc|]. rewrite list_to_set_app_L. set_solver.
Qed.

Lemma gained_full st l more : bounded st -> full maximum st = true -> gained st l more st.
Proof.
  unfold bounded, full, zlen. intros Hb Hf. split; [|set_solver]. symmetry. rewrite take_app_le by lia. rewrite take_ge by lia. done.
Qed.

Lemma gained_add st row : bounded st -> full maximum st = false -> gained st [] [row] (add_row row st).
Proof.
  unfold bounded, full, zlen. intros Hb Hf. split; [|set_solver]. rewrite take_ge; [done|]. rewrite length_app. simpl. lia.
Qed.

Lemma gained_refl st : bounded st -> gained st [] [] st.
Proof. unfold bounded, zlen. intros Hb. split; [|set_solver]. rewrite app_nil_r, take_ge by lia. done. Qed.

Lemma fresh_gained st l more st' k : gained st l more st' -> NoDup (l ++ k) -> fresh st (l ++ k) -> fresh st' k.
Proof.
  intros [_ Hv] Hd Hf m Hm Hin. apply NoDup_app in Hd as (_ & Hd & _). apply Hv, elem_of_union in Hin as [Hin|Hin].
  - apply (Hf m); [apply elem_of_app; by right|done].
  - apply elem_of_list_to_set in Hin. by apply (Hd m).
Qed.

(** A loop over the cells of a page, one after the other. *)
Lemma each_cell_ok {X} (pages : X -> list Z) (rows : X -> list Row) body (xs : list X) i st :
  bounded st -> NoDup (mjoin (pages <$> xs)) -> fresh st (mjoin (pages <$> xs)) ->
  (forall j x st, xs !! j = Some x -> bounded st -> NoDup (pages x) -> fresh st (pages x) ->
     exists stop st', body (i + Z.of_nat j) st = Ok (stop, st') /\ gained st (pages x) (rows x) st' /\
       (stop = true -> full maximum st' = true)) ->
  exists stop st', each_cell (length xs) i body st = Ok (stop, st') /\
    gained st (mjoin (pages <$> xs)) (mjoin (rows <$> xs)) st' /\ (stop = true -> full maximum st' = true).
Proof.
  revert i st. induction xs as [|x xs IH]; intros i st Hb Hd Hf Hbody.
  { exists false, st. split; [done|]. split; [by apply gained_refl|done]. }
  change (mjoin (pages <$> x :: xs)) with (pages x ++ mjoin (pages <$> xs)) in *.
  change (mjoin (rows <$> x :: xs)) with (rows x ++ mjoin (rows <$> xs)).
  destruct (Hbody 0%nat x st) as (stop & st1 & E1 & G1 & Hs1); [done|done|by apply NoDup_app in Hd as (? & _)| |].
  { intros m Hm. apply Hf, elem_of_app. by left. }
  cbn [length each_cell]. rewrite Z.add_0_r in E1. rewrite E1. cbn [res_bind]. destruct stop.
  { exists true, st1. split_and!; [done| |done].
    pose proof (gained_full st1 (mjoin (pages <$> xs)) (mjoin (rows <$> xs)) (gained_bounded _ _ _ _ G1) (Hs1 eq_refl)) as G2.
    apply (gained_trans _ _ _ _ _ _ _ G1 G2). }
  destruct (IH (i + 1) st1) as (stop & st2 & E2 & G2 & Hs2).
  - by eapply gained_bounded.
  - by apply NoDup_app in Hd as (_ & _ & ?).
  - by eapply fresh_gained.
  - intros j y st' Hj. replace (i + 1 + Z.of_nat j) with (i + Z.of_nat (S j)) by lia. by apply Hbody.
  - exists stop, st2. split_and!; [done|by eapply gained_trans|done].
Qed.

(** A page is entered. *)
Definition entered (n : Z) (st : walk_state) : walk_state := MkWalk (wk_rows st) ({[n]} ∪ wk_visited st).

Lemma gained_entered st n l more st' : gained (entered n st) l more st' -> gained st (n :: l) more st'.
Proof. intros [H1 H2]. split; [done|]. simpl in *. set_solver. Qed.

Lemma fresh_entered st n l : NoDup (n :: l) -> fresh st (n :: l) -> fresh (entered n st) l.
Proof. intros Hd Hf m Hm. inversion Hd; subst. specialize (Hf m). simpl. set_solver. Qed.

Lemma header_offset_bound n : 0 <= header_offset n <= 100.
Proof. unfold header_offset. case_match; lia. Qed.

Lemma nodup_fresh_head st n l : fresh st (n :: l) -> n ∉ wk_visited st.
Proof. intros H. apply H, elem_of_cons. by left. Qed.

(** The header of a page decides how the walk goes on. *)
Lemma node_header n p t r cells :
  page_at B n p -> node p (header_offset n) t r cells ->
  db_page d n = Ok p /\ zlen p = ps /\ index p (header_offset n) = Ok t /\
  be_at 2 (header_offset n + 3) p = zlen cells /\ ps <? header_offset n + 8 = false /\
  (ps <? header_offset n + header_length t + zlen cells * 2) = false /\ Z.to_nat (zlen cells) = length cells.
Proof.
  intros Hp Hn. pose proof (page_length n p Hp) as Hl. pose proof (header_offset_bound n). pose proof (header_length_pos t).
  pose proof (nd_room _ _ _ _ _ Hn). pose proof (zlen_nonneg cells). split_and!; [by apply Hpage|done| | |lia..|unfold zlen; lia].
  - by apply (sits_cons _ _ _ [] (nd_type _ _ _ _ _ Hn)).
  - apply (be_at_sits 2 2 p _ _ (nd_count _ _ _ _ _ Hn) eq_refl). lia.
Qed.

Ltac enter_page n Hp Hn Hf Hv :=
  let H := fresh "H" in
  pose proof (node_header _ _ _ _ _ Hp Hn) as H;
  destruct H as (Epage & Elen & Eindex & Ecount & Eroom & Ecells & Enat);
  cbn [walk]; rewrite Hf, bool_decide_false by exact Hv; rewrite Epage; cbn [res_bind];
  fold (header_offset n); rewrite Eroom, Eindex; cbn [res_bind];
  unfold header_length, interior in Ecells; cbn [Z.eqb Pos.eqb orb] in Ecells |- *;
  rewrite Ecount, Ecells, ?Enat; cbn [Z.eqb Pos.eqb orb].

Lemma walk_leaf t pageType tableLeaf cells depth st :
  (pageType = 0x0d /\ tableLeaf = true) \/ (pageType = 0x0a /\ tableLeaf = false) ->
  node_at B (sub_root t) pageType 0 cells -> Forall2 (holds_row ps encoding B tableLeaf) (sub_rows t) cells ->
  fresh st [sub_root t] -> bounded st -> full maximum st = false ->
  exists st', walk d maximum (S depth) (sub_root t) st = Ok st' /\ gained st [sub_root t] (sub_rows t) st'.
Proof.
  intros Ht (p & Hp & Hn) Hrows Hfr Hb Hf. apply nodup_fresh_head in Hfr as Hv.
  destruct (each_cell_ok (fun _ => []) (fun x : Row * bytes => [x.1])
    (leaf_cell d maximum p (header_offset (sub_root t) + 8) tableLeaf) (zip (sub_rows t) cells) 0 (entered (sub_root t) st))
    as (stop & st' & E & G & _).
  - done.
  - induction (zip (sub_rows t) cells); [constructor|done].
  - intros m Hm. exfalso. clear -Hm. induction (zip (sub_rows t) cells) as [|? ? IH]; [by apply elem_of_nil in Hm|by apply IH].
  - intros j [row cell] st1 Hj Hb1 _ _. apply lookup_zip_with_Some in Hj as (row' & cell' & [= <- <-] & Hr & Hc).
    pose proof (Forall2_lookup_lr _ _ _ _ _ _ Hrows Hr Hc) as Hh. rewrite Z.add_0_l.
    destruct (full maximum st1) eqn:Hf1.
    + exists true, st1. unfold leaf_cell. rewrite Hf1. split_and!; [done|by apply gained_full|done].
    + exists false, (add_row row st1). split_and!; [|by apply gained_add|done].
      eapply leaf_cell_ok; [exact Hn|by destruct Ht as [[-> _]|[-> _]]|apply header_offset_bound|by eapply page_length|done..].
  - exists st'. split.
    + assert (Hlen' : length (zip (sub_rows t) cells) = length cells).
      { rewrite length_zip_with. apply Forall2_length in Hrows. lia. }
      rewrite Hlen' in E. destruct Ht as [[-> ->]|[-> ->]]; enter_page (sub_root t) Hp Hn Hf Hv; fold (entered (sub_root t) st); by rewrite E.
    + apply gained_entered. replace (mjoin ((fun x : Row * bytes => [x.1]) <$> zip (sub_rows t) cells)) with (sub_rows t) in G.
      * replace (mjoin ((fun _ : Row * bytes => []) <$> zip (sub_rows t) cells)) with (@nil Z) in G; [done|].
        clear. induction (zip (sub_rows t) cells); done.
      * clear -Hrows. induction Hrows as [|row cell rows cells _ _ IH]; [done|].
        change (row :: rows = [row] ++ mjoin ((fun x : Row * bytes => [x.1]) <$> zip rows cells)). by rewrite <- IH.
Qed.

(** A cell of an interior page begins with the number of a child. *)
Lemma child_cell page hdr t r cells i child rest :
  node page hdr t r cells -> 0 <= hdr -> zlen page = ps -> cells !! i = Some (be_bytes 4 child ++ rest) ->
  0 <= child <= maximumPages ->
  exists off, cellOffset d page (hdr + header_length t) (Z.of_nat i) = Ok off /\ (ps <? off + 4) = false /\
    be_at 4 off page = child /\ sits page (off + 4) rest.
Proof.
  intros Hn Hh Hp Hc Hb. pose proof (zlen_nonneg rest).
  destruct (cellOffset_ok _ _ _ _ _ _ _ Hn Hh Hp Hc) as (off & Hoff & Hs).
  { rewrite zlen_app, zlen_be_bytes. lia. }
  pose proof (sits_bound _ _ _ Hs) as [_ Hl]. rewrite zlen_app, zlen_be_bytes in Hl. change (Z.of_nat 4) with 4 in Hl.
  apply sits_app in Hs as [Ha Hd]. rewrite zlen_be_bytes in Hd. exists off. split_and!; [done|lia| |done].
  apply (be_at_sits 4 4 _ _ _ Ha eq_refl). lia.
Qed.

Lemma table_tree_root h t : table_tree ps encoding B h t -> 1 <= sub_root t <= maximumPages.
Proof. destruct h; [intros (? & (? & [? _] & _) & _)|intros (? & ? & ? & (? & [? _] & _) & _)]; done. Qed.

Lemma index_tree_root h t : index_tree ps encoding B h t -> 1 <= sub_root t <= maximumPages.
Proof. destruct h; [intros (? & (? & [? _] & _) & _)|intros (? & ? & ? & (? & [? _] & _) & _)]; done. Qed.

Lemma right_child page hdr t child cells :
  node page hdr t child cells -> interior t = true -> 1 <= child <= maximumPages -> be_at 4 (hdr + 8) page = child.
Proof. intros Hn Ht Hb. apply (be_at_sits 4 4 _ _ _ (nd_right _ _ _ _ _ Hn Ht) eq_refl). lia. Qed.

Lemma walk_table h t depth st :
  table_tree ps encoding B h t -> NoDup (sub_pages t) -> fresh st (sub_pages t) -> (h < depth)%nat -> bounded st ->
  exists st', walk d maximum depth (sub_root t) st = Ok st' /\ gained st (sub_pages t) (sub_rows t) st'.
Proof.
  revert t depth st. induction h as [|h IH]; intros t [|depth] st Ht Hnd Hfr Hd Hb; [lia| |lia|];
    (destruct (full maximum st) eqn:Hf; [exists st; cbn [walk]; rewrite Hf; split; [done|by apply gained_full]|]).
  - destruct Ht as (cells & Hn & Hrows & Hpages). rewrite Hpages in *. eapply (walk_leaf t 0x0d true); [by left|done..].
  - destruct Ht as (ts & rightmost & cells & (p & Hp & Hn) & Hcells & Hts & Hpages & Hrows). rewrite Hpages, Hrows in *.
    apply nodup_fresh_head in Hfr as Hv. pose proof (fresh_entered _ _ _ Hnd Hfr) as Hfe. apply Forall_app in Hts as [Hts Hr].
    rewrite Forall_singleton in Hr. inversion Hnd as [|? ? Hni Hnd']; subst.
    set (body := fun i st => let! cell := cellOffset d p (header_offset (sub_root t) + 12) i in
      if ps <? cell + 4 then Err (Errorf "page %d interior cell is truncated")
      else let! st := walk d maximum depth (be_at 4 cell p) st in Ok (false, st)).
    destruct (each_cell_ok sub_pages sub_rows body ts 0 (entered (sub_root t) st)) as (stop & st1 & E & G & _).
    + done.
    + by apply NoDup_app in Hnd' as (? & _).
    + intros m Hm. apply Hfe, elem_of_app. by left.
    + intros j s st1 Hj Hb1 Hnd1 Hf1. destruct (Forall2_lookup_l _ _ _ _ _ Hcells Hj) as (cell & Hc & key & ->).
      pose proof (Forall_lookup_1 _ _ _ _ Hts Hj) as Hs. pose proof (table_tree_root _ _ Hs).
      destruct (child_cell _ _ _ _ _ _ _ _ Hn (proj1 (header_offset_bound _)) (page_length _ _ Hp) Hc) as (off & Eo & El & Ec & _); [lia|].
      destruct (IH s depth st1 Hs Hnd1 Hf1 ltac:(lia) Hb1) as (st2 & E2 & G2). exists false, st2. split_and!; [|done..].
      rewrite Z.add_0_l. unfold body. change (header_length 0x05) with 12 in Eo. rewrite Eo. cbn [res_bind]. by rewrite El, Ec, E2.
    + destruct (IH rightmost depth st1) as (st2 & E2 & G2); [done|by apply NoDup_app in Hnd' as (_ & _ & ?)|by eapply fresh_gained|lia|by eapply gained_bounded|].
      exists st2. split; [|apply gained_entered; by eapply gained_trans].
      enter_page (sub_root t) Hp Hn Hf Hv. fold body. rewrite <- (Forall2_length _ _ _ Hcells).
      fold (entered (sub_root t) st). rewrite E. cbn [res_bind].
      rewrite (right_child _ _ _ _ _ Hn eq_refl (table_tree_root _ _ Hr)). done.
Qed.

Lemma walk_index h t depth st :
  index_tree ps encoding B h t -> NoDup (sub_pages t) -> fresh st (sub_pages t) -> (h < depth)%nat -> bounded st ->
  exists st', walk d maximum depth (sub_root t) st = Ok st' /\ gained st (sub_pages t) (sub_rows t) st'.
Proof.
  revert t depth st. induction h as [|h IH]; intros t [|depth] st Ht Hnd Hfr Hd Hb; [lia| |lia|];
    (destruct (full maximum st) eqn:Hf; [exists st; cbn [walk]; rewrite Hf; split; [done|by apply gained_full]|]).
  - destruct Ht as (cells & Hn & Hrows & Hpages). rewrite Hpages in *. eapply (walk_leaf t 0x0a false); [by right|done..].
  - destruct Ht as (ts & rightmost & cells & (p & Hp & Hn) & Hcells & Hts & Hr & Hpages & Hrows). rewrite Hpages, Hrows in *.
    apply nodup_fresh_head in Hfr as Hv. pose proof (fresh_entered _ _ _ Hnd Hfr) as Hfe.
    inversion Hnd as [|? ? Hni Hnd']; subst.
    set (body := fun i st => let! cell := cellOffset d p (header_offset (sub_root t) + 12) i in
      if ps <? cell + 4 then Err (Errorf "page %d interior index cell is truncated")
      else
        let! st := walk d maximum depth (be_at 4 cell p) st in
        if full maximum st then Ok (true, st)
        else let! values := index_record d p (cell + 4) in Ok (false, add_row (MkRow None values) st)).
    destruct (each_cell_ok (fun s => sub_pages s.1) (fun s => sub_rows s.1 ++ [s.2]) body ts 0 (entered (sub_root t) st))
      as (stop & st1 & E & G & Hstop).
    + done.
    + by apply NoDup_app in Hnd' as (? & _).
    + intros m Hm. apply Hfe, elem_of_app. by left.
    + intros j [s row] st1 Hj Hb1 Hnd1 Hf1. destruct (Forall2_lookup_l _ _ _ _ _ Hcells Hj) as (cell & Hc & rest & -> & Hrow).
      pose proof (Forall_lookup_1 _ _ _ _ Hts Hj) as Hs. cbn [fst snd] in *. pose proof (index_tree_root _ _ Hs).
      destruct (child_cell _ _ _ _ _ _ _ _ Hn (proj1 (header_offset_bound _)) (page_length _ _ Hp) Hc) as (off & Eo & El & Ec & Hsr); [lia|].
      destruct (IH s depth st1 Hs Hnd1 Hf1 ltac:(lia) Hb1) as (st2 & E2 & G2). pose proof (gained_bounded _ _ _ _ G2) as Hb2.
      rewrite Z.add_0_l. unfold body. change (header_length 0x02) with 12 in Eo. rewrite Eo. cbn [res_bind].
      rewrite El, Ec, E2. cbn [res_bind]. rewrite <- (app_nil_r (sub_pages s)). destruct (full maximum st2) eqn:Hf2.
      * exists true, st2. split_and!; [done|eapply gained_trans; [done|by apply gained_full]|done].
      * destruct (index_record_ok _ _ _ _ (page_length _ _ Hp) Hsr Hrow) as [-> Hid]. cbn [res_bind].
        exists false, (add_row row st2). split_and!; [by destruct row; simpl in *; subst|eapply gained_trans; [done|by apply gained_add]|done].
    + pose proof (gained_bounded _ _ _ _ G) as Hb1.
      destruct (IH rightmost depth st1) as (st2 & E2 & G2); [done|by apply NoDup_app in Hnd' as (_ & _ & ?)|by eapply fresh_gained|lia|done|].
      enter_page (sub_root t) Hp Hn Hf Hv. fold body. rewrite <- (Forall2_length _ _ _ Hcells).
      fold (entered (sub_root t) st). rewrite E. cbn [res_bind].
      rewrite (right_child _ _ _ _ _ Hn eq_refl (index_tree_root _ _ Hr)). destruct (full maximum st1) eqn:Hf1.
      * rewrite orb_true_r. exists st1. split; [done|]. apply gained_entered. eapply gained_trans; [done|by apply gained_full].
      * destruct stop; [by specialize (Hstop eq_refl)|]. exists st2. split; [done|]. apply gained_entered. by eapply gained_trans.
Qed.

Lemma btreeRows_tree h t :
  table_tree ps encoding B h t \/ index_tree ps encoding B h t -> NoDup (sub_pages t) -> (h <= maximumDepth)%nat ->
  btreeRows d maximum (sub_root t) = Ok (take (Z.to_nat maximum) (sub_rows t)).
Proof.
  intros Ht Hnd Hh. unfold btreeRows. replace (maximum =? 0) with false by lia.
  assert (exists st', walk d maximum (S maximumDepth) (sub_root t) (MkWalk [] ∅) = Ok st' /\ gained (MkWalk [] ∅) (sub_pages t) (sub_rows t) st')
    as (st' & -> & G & _).
  { assert (fresh (MkWalk [] ∅) (sub_pages t)) by (intros ? ?; set_solver).
    assert (bounded (MkWalk [] ∅)) by (unfold bounded; cbn [wk_rows]; rewrite zlen_nil; lia).
    destruct Ht; [apply (walk_table h)|apply (walk_index h)]; (done || lia). }
  cbn [res_bind]. by rewrite G.
Qed.
End reading.
