(* ===== verification/SqliteWrite.v ===== *)
(** What the writer of package [sqlite] leaves on its pages: the b-trees of
    [SqliteTree]. *)

From S2P Require Import Prelude GoLib Storage Block GoPath SqliteRecord SqliteBuild SqliteRead SqliteTree.
From stdpp Require Import base numbers list gmap sets strings.

Open Scope Z_scope.
Open Scope trex_scope.

Lemma res_bind_Ok {A C} (r : res A) (k : A -> res C) y : res_bind r k = Ok y -> exists x, r = Ok x /\ k x = Ok y.
Proof. destruct r; [eauto|done]. Qed.

Ltac bind_in H x E :=
  apply res_bind_Ok in H as (x & E & H); cbv beta iota in H.

(** ** Pages *)

(** What is not written stays. *)
Lemma sits_before (p q : bytes) lo hi pos l :
  zlen q = zlen p -> (forall k, k < lo \/ hi <= k -> nthb q k = nthb p k) -> pos + zlen l <= lo \/ hi <= pos ->
  sits p pos l -> sits q pos l.
Proof. rewrite !sits_nthb. intros Hl Hk Hp (? & ? & H). split_and!; [lia..|]. intros i Hi. rewrite Hk by lia. by apply H. Qed.

Lemma write_cells_ok cells page pointers count i content page' content' :
  write_cells cells page pointers count i content = Ok (page', content') ->
  0 <= pointers -> 0 <= i -> i + zlen cells <= count -> content <= zlen page ->
  zlen page' = zlen page /\
  (forall k, k < pointers + 2 * i \/ content <= k -> nthb page' k = nthb page k) /\
  forall j cell, cells !! j = Some cell -> exists off,
    sits page' (pointers + 2 * (i + Z.of_nat j)) (be_bytes 2 off) /\ pointers + 2 * count <= off /\
    off + zlen cell <= content /\ sits page' off cell.
Proof.
  revert page i content. induction cells as [|cell cells IH]; intros page i content H Hp Hi Hc Hz.
  { injection H as <- <-. split_and!; done. }
  cbn [write_cells] in H. rewrite zlen_cons in Hc. pose proof (zlen_nonneg cell). pose proof (zlen_nonneg cells).
  destruct (Z.ltb_spec (content - zlen cell) (pointers + count * 2)) as [|Hroom]; [done|].
  remember (content - zlen cell) as off eqn:Hoff.
  assert (Hl1 : zlen (splice page off cell) = zlen page) by (apply zlen_splice; lia).
  assert (Hb : zlen (be_bytes 2 off) = 2) by apply zlen_be_bytes.
  assert (Hl2 : zlen (splice (splice page off cell) (pointers + i * 2) (be_bytes 2 off)) = zlen page).
  { rewrite zlen_splice; [done|lia|lia]. }
  apply IH in H as (L & K & C); [|lia..]. rewrite Hl2 in L. split_and!; [done| |].
  - intros k Hk. rewrite K by lia. rewrite nthb_splice, upd_out by lia. rewrite nthb_splice by lia. apply upd_out. lia.
  - intros [|j] x Hx.
    + injection Hx as <-. exists off. split_and!; [|lia..|].
      * eapply (sits_before _ page'); [by rewrite Hl2|exact K|rewrite Hb; lia|]. replace (pointers + 2 * (i + Z.of_nat 0)) with (pointers + i * 2) by lia.
        apply sits_splice; lia.
      * eapply (sits_before _ page'); [by rewrite Hl2|exact K|lia|]. apply sits_splice_other; [lia..|]. apply sits_splice; lia.
    + destruct (C j x Hx) as (o & Ha & Ho & Hs & Hd). exists o.
      replace (i + Z.of_nat (S j)) with (i + 1 + Z.of_nat j) by lia. split_and!; [done|lia..|done].
Qed.

(** ** The builder *)

(** A page put at its number, which the code computes in 32 bits. *)
Definition put_page (b : list bytes) (n : Z) (page : bytes) : list bytes := <[Z.to_nat (n - 1) := page]> b.

Lemma set_page_put b n page : 1 <= n <= 2 ^ 32 -> builder_set_page b n page = put_page b n page.
Proof. intros Hn. unfold builder_set_page, put_page. by rewrite u32_id by lia. Qed.

Lemma builder_page_ok b n p : 1 <= n <= 2 ^ 32 -> builder_page b n = Ok p <-> b !! Z.to_nat (n - 1) = Some p.
Proof.
  intros Hn. unfold builder_page, index. rewrite u32_id by lia. destruct (Z.ltb_spec (n - 1) 0); [lia|].
  destruct (b !! Z.to_nat (n - 1)); naive_solver.
Qed.

Section writing.
Context (options : BuildOptions).
Notation ps := (bo_PageSize options).
Notation encoding := (bo_Encoding options).
Hypothesis Hps : 512 <= ps <= 65536.
Hypothesis Henc : 1 <= encoding <= 3.

Definition sized (b : list bytes) : Prop := Forall (fun p => zlen p = ps) b.

Lemma sized_app b c : sized (b ++ c) <-> sized b /\ sized c.
Proof. apply Forall_app. Qed.

Lemma sized_zeros : sized [zeros ps].
Proof. apply Forall_singleton, zlen_zeros. lia. Qed.

Lemma sized_set b n page : sized b -> zlen page = ps -> sized (put_page b n page).
Proof. intros Hb Hp. by apply Forall_insert. Qed.

Lemma sized_lookup b i p : sized b -> b !! i = Some p -> zlen p = ps.
Proof. intros Hb Hi. by apply (Forall_lookup_1 _ _ _ _ Hb Hi). Qed.

Lemma allocate_number b : zlen b < maximumPages -> (allocate options b).2 = zlen b + 1.
Proof. intros. pose proof (zlen_nonneg b). apply u32_id. lia. Qed.

Lemma writeBtreePage_node b number hdr t r cells b' :
  writeBtreePage options b number hdr t r cells = Ok b' -> sized b -> hdr = 0 \/ hdr = 100 ->
  Forall (fun c => 0 < zlen c) cells ->
  exists page, b' = builder_set_page b number page /\ zlen page = ps /\ node page hdr t r cells.
Proof.
  intros H Hb Hh Hne. unfold writeBtreePage in H. fold (interior t) in H. fold (header_length t) in H.
  bind_in H old E. assert (Hold : zlen old = ps).
  { unfold builder_page, index in E. destruct (_ <? 0); [done|]. destruct (b !! _) eqn:Eb; [|done]. injection E as ->. by eapply sized_lookup. }
  pose proof (header_length_pos t) as Hhl.
  set (page0 := take (Z.to_nat hdr) old ++ zeros (zlen old - hdr)) in H.
  assert (L0 : zlen page0 = ps). { unfold page0. rewrite zlen_app, zlen_zeros by lia. unfold zlen in *. rewrite length_take. lia. }
  set (page1 := if interior t then splice page0 (hdr + 8) (be_bytes 4 r) else page0) in H.
  assert (L1 : zlen page1 = ps). { unfold page1. destruct (interior t); [|done]. rewrite zlen_splice; rewrite ?zlen_be_bytes; lia. }
  bind_in H x E2. destruct x as [page2 content]. injection H as <-.
  apply write_cells_ok in E2 as (L2 & K & C); [|lia..]. rewrite L1 in L2. pose proof (zlen_nonneg cells).
  eexists. split; [done|]. pose proof (fun v => zlen_be_bytes 2 v) as Lb. change (Z.of_nat 2) with 2 in Lb.
  match goal with |- zlen (splice (splice (splice page2 _ _) _ _) _ (be_bytes 2 ?c)) = _ /\ _ => set (co := c) end.
  assert (L3 : zlen (splice page2 hdr [t]) = ps) by (rewrite zlen_splice; rewrite ?zlen_cons, ?zlen_nil; lia).
  assert (L4 : zlen (splice (splice page2 hdr [t]) (hdr + 3) (be_bytes 2 (zlen cells))) = ps) by (rewrite zlen_splice; rewrite ?Lb; lia).
  split; [rewrite zlen_splice; rewrite ?Lb; lia|].
  assert (Hkeep : forall pos l, hdr + 7 <= pos -> sits page2 pos l ->
    sits (splice (splice (splice page2 hdr [t]) (hdr + 3) (be_bytes 2 (zlen cells))) (hdr + 5) (be_bytes 2 co)) pos l).
  { intros pos l Hpos Hs. repeat (apply sits_splice_other; rewrite ?Lb, ?zlen_cons, ?zlen_nil; [lia..|]). done. }
  split.
  - do 2 (apply sits_splice_other; rewrite ?Lb, ?zlen_cons, ?zlen_nil; [lia..|]).
    apply sits_splice; rewrite ?zlen_cons, ?zlen_nil; lia.
  - apply sits_splice_other; rewrite ?Lb; [lia..|]. apply sits_splice; rewrite ?Lb; lia.
  - intros Hi. apply Hkeep; [lia|]. unfold header_length in K. rewrite Hi in K. eapply (sits_before page1); [by rewrite L1|exact K|rewrite zlen_be_bytes; lia|].
    unfold page1. rewrite Hi. apply sits_splice; rewrite ?zlen_be_bytes; lia.
  - rewrite zlen_splice; rewrite ?Lb; [|lia..]. rewrite L4. destruct cells as [|c cells]; [rewrite (@zlen_nil bytes); lia|].
    destruct (C 0%nat c eq_refl) as (off & _ & Ho & Ho' & _). pose proof (zlen_nonneg c). lia.
  - intros i cell Hi. destruct (C i cell Hi) as (off & Ha & Ho & Ho' & Hs). exists off.
    pose proof (Forall_lookup_1 _ _ _ _ Hne Hi) as Hz. cbv beta in Hz. split_and!; [|lia..|].
    + apply Hkeep; [lia|]. by rewrite Z.add_0_l in Ha.
    + apply Hkeep; [lia|done].
Qed.

Lemma writeBtreePage_ok b number hdr t r cells b' :
  writeBtreePage options b number hdr t r cells = Ok b' -> 1 <= number <= 2 ^ 32 -> sized b -> hdr = 0 \/ hdr = 100 ->
  Forall (fun c => 0 < zlen c) cells ->
  1 <= number <= zlen b /\ exists page, b' = put_page b number page /\ zlen page = ps /\ node page hdr t r cells.
Proof.
  intros H Hn Hb Hh Hne. split.
  - unfold writeBtreePage in H. bind_in H old E. apply builder_page_ok in E; [|done]. apply lookup_lt_Some in E. unfold zlen. lia.
  - destruct (writeBtreePage_node _ _ _ _ _ _ _ H) as (page & -> & Hp); [done..|]. exists page. split; [by apply set_page_put|done].
Qed.

(** ** Overflow chains *)

Notation room := (Z.to_nat (ps - 4)).

Definition chain_page (n : Z) (data : bytes) : bytes :=
  let page := splice (zeros ps) 4 (take room data) in
  if decide (drop room data = []) then page else splice page 0 (be_bytes 4 (n + 1)).

Fixpoint chain_pages (fuel : nat) (n : Z) (data : bytes) : list bytes :=
  match fuel with
  | O => []
  | S fuel => if decide (data = []) then [] else chain_page n data :: chain_pages fuel (n + 1) (drop room data)
  end.

Lemma set_page_length b n page : length (builder_set_page b n page) = length b.
Proof. apply length_insert. Qed.

Lemma put_page_length b n page : length (put_page b n page) = length b.
Proof. apply length_insert. Qed.

Lemma overflow_loop_mono fuel b first previous data b' f :
  overflow_loop options fuel b first previous data = Ok (b', f) -> (length b <= length b')%nat.
Proof.
  revert b first previous data. induction fuel as [|fuel IH]; intros b first previous data H; cbn [overflow_loop] in H.
  { destruct (zlen data =? 0); [injection H as <- _; lia|done]. }
  destruct (zlen data =? 0); [injection H as <- _; lia|]. unfold allocate in H. bind_in H b1 E1. bind_in H page E2.
  apply IH in H. rewrite set_page_length in H.
  assert (length b1 = S (length b)); [|lia]. destruct (negb (previous =? 0)).
  - bind_in E1 pg E3. injection E1 as <-. rewrite set_page_length, length_app. simpl. lia.
  - injection E1 as <-. rewrite length_app. simpl. lia.
Qed.

Lemma take_min (data : bytes) : take (Z.to_nat (Z.min (zlen data) (ps - 4))) data = take room data /\
  drop (Z.to_nat (Z.min (zlen data) (ps - 4))) data = drop room data.
Proof.
  unfold zlen. destruct (decide (Z.of_nat (length data) <= ps - 4)).
  - rewrite Z.min_l by lia. rewrite Nat2Z.id, !take_ge, !drop_ge by lia. done.
  - by rewrite Z.min_r by lia.
Qed.

Lemma put_page_last b pg page : put_page (b ++ [pg]) (zlen b + 1) page = b ++ [page].
Proof.
  unfold put_page. replace (Z.to_nat (zlen b + 1 - 1)) with (length b + 0)%nat by (unfold zlen; lia). by rewrite insert_app_r.
Qed.

Lemma set_page_last b pg page : zlen b < maximumPages -> builder_set_page (b ++ [pg]) (zlen b + 1) page = b ++ [page].
Proof. intros Hb. pose proof (zlen_nonneg b). rewrite set_page_put by lia. apply put_page_last. Qed.

Lemma builder_page_last b pg : zlen b < maximumPages -> builder_page (b ++ [pg]) (zlen b + 1) = Ok pg.
Proof.
  intros Hb. pose proof (zlen_nonneg b). apply builder_page_ok; [lia|].
  replace (Z.to_nat (zlen b + 1 - 1)) with (length b) by (unfold zlen; lia). by apply list_lookup_middle.
Qed.

(** One more page is linked to the last. *)
Lemma overflow_loop_ok fuel b pg first previous data b' f :
  overflow_loop options fuel (b ++ [pg]) first previous data = Ok (b', f) -> previous = zlen b + 1 -> first <> 0 ->
  zlen b' <= maximumPages ->
  f = first /\
  b' = b ++ [if decide (data = []) then pg else splice pg 0 (be_bytes 4 (zlen b + 2))] ++ chain_pages fuel (zlen b + 2) data.
Proof.
  revert b pg previous data. induction fuel as [|fuel IH]; intros b pg previous data H Hprev Hf Hm; cbn [overflow_loop] in H.
  { destruct (Z.eqb_spec (zlen data) 0) as [E|]; [|done]. apply zlen_0_nil in E as ->. by injection H as <- <-. }
  destruct (Z.eqb_spec (zlen data) 0) as [E|E]; [apply zlen_0_nil in E as ->; by injection H as <- <-|].
  assert (data <> []) by (intros ->; done). cbn [chain_pages]. rewrite !decide_False by done.
  unfold allocate in H. replace (first =? 0) with false in H by lia. pose proof (zlen_nonneg b).
  replace (previous =? 0) with false in H by lia. cbn [negb] in H.
  assert (Hn : zlen (b ++ [pg]) = zlen b + 1) by (rewrite zlen_app; done).
  assert (Hb1 : zlen b + 1 < maximumPages).
  { bind_in H b1 E1. bind_in H p2 E2. apply overflow_loop_mono in H. rewrite set_page_length in H.
    bind_in E1 p3 E3. injection E1 as <-. rewrite set_page_length, !length_app in H. unfold zlen in *. simpl in *. lia. }
  rewrite Hn, (u32_id (zlen b + 1 + 1)) in H by lia. subst previous.
  assert (Hpage : forall x : bytes, builder_page ((b ++ [pg]) ++ [x]) (zlen b + 1) = Ok pg).
  { intros x. apply builder_page_ok; [lia|]. apply lookup_app_l_Some. apply builder_page_ok; [lia|]. apply builder_page_last. lia. }
  assert (Hset : forall x y : bytes, builder_set_page ((b ++ [pg]) ++ [x]) (zlen b + 1) y = (b ++ [y]) ++ [x]).
  { intros x y. rewrite <- (put_page_last b pg y), set_page_put by lia. unfold put_page. apply insert_app_l. rewrite length_app. unfold zlen. simpl. lia. }
  rewrite Hpage in H. cbn [res_bind] in H. rewrite Hset in H.
  set (link := splice pg 0 (be_bytes 4 (zlen b + 1 + 1))) in *.
  assert (Hn' : zlen (b ++ [link]) = zlen b + 1) by (rewrite zlen_app; done).
  pose proof (builder_page_last (b ++ [link]) (zeros ps)) as Hlast. rewrite Hn' in Hlast. rewrite Hlast in H by lia. cbn [res_bind] in H.
  destruct (take_min data) as [Ht Hd]. rewrite Ht, Hd in H.
  pose proof (set_page_last (b ++ [link]) (zeros ps) (splice (zeros ps) 4 (take room data))) as Hs. rewrite Hn' in Hs. rewrite Hs in H by lia.
  apply IH in H as [-> ->]; [|by rewrite Hn'|done..]. split; [done|]. rewrite Hn', <- !app_assoc.
  replace (zlen b + 1 + 2) with (zlen b + 2 + 1) by lia. unfold link, chain_page.
  replace (zlen b + 1 + 1) with (zlen b + 2) by lia. by case_decide.
Qed.

Lemma chain_page_sits n data :
  sits (chain_page n data) 0 (be_bytes 4 (if decide (drop room data = []) then 0 else n + 1)) /\
  sits (chain_page n data) 4 (take room data) /\ zlen (chain_page n data) = ps.
Proof.
  assert (Hz : zlen (zeros ps) = ps) by (apply zlen_zeros; lia).
  assert (Ht : zlen (take room data) <= ps - 4) by (unfold zlen; rewrite length_take; lia).
  pose proof (zlen_nonneg (take room data)). pose proof (fun v => zlen_be_bytes 4 v) as Lb. change (Z.of_nat 4) with 4 in Lb.
  assert (Hl : zlen (splice (zeros ps) 4 (take room data)) = ps) by (rewrite zlen_splice; lia).
  unfold chain_page. case_decide.
  - split_and!; [|apply sits_splice; lia|done]. apply sits_splice_other; rewrite ?Lb; [lia..|].
    apply sits_nthb. rewrite Lb, Hz. split_and!; [lia..|]. intros i Hi. rewrite nthb_zeros. change (be_bytes 4 0) with (zeros 4).
    by rewrite nthb_zeros.
  - split_and!; [apply sits_splice; rewrite ?Lb; lia| |rewrite zlen_splice; rewrite ?Lb; lia].
    apply sits_splice_other; rewrite ?Lb; [lia..|]. apply sits_splice; lia.
Qed.

Lemma chain_pages_sized fuel n data : sized (chain_pages fuel n data).
Proof.
  revert n data. induction fuel as [|fuel IH]; intros n data; [constructor|]. cbn [chain_pages]. case_decide; [constructor|].
  constructor; [apply chain_page_sits|apply IH].
Qed.

Lemma chain_pages_chained B fuel n data :
  (forall i p, chain_pages fuel n data !! i = Some p -> B !! (Z.to_nat (n - 1) + i)%nat = Some p) ->
  1 <= n -> (length data <= fuel)%nat -> n + zlen (chain_pages fuel n data) <= maximumPages + 1 ->
  chained ps B fuel n data.
Proof.
  revert n data. induction fuel as [|fuel IH]; intros n data HB Hn Hf Hm; [destruct data; simpl in *; [done|lia]|].
  cbn [chain_pages chained] in *. case_decide as Hd; [by left|]. right. rewrite zlen_cons in Hm.
  pose proof (zlen_nonneg (chain_pages fuel (n + 1) (drop room data))). destruct (chain_page_sits n data) as (H1 & H2 & _).
  eexists _, _. split; [split; [lia|]|split; [exact H1|]].
  { rewrite <- (Nat.add_0_r (Z.to_nat (n - 1))). by apply HB. }
  assert (Hlen : (length (drop room data) <= fuel)%nat).
  { rewrite length_drop. destruct data; [done|]. simpl in *. lia. }
  assert (Hrest : drop room data <> [] -> 1 <= zlen (chain_pages fuel (n + 1) (drop room data))).
  { intros Hr. destruct fuel; [destruct (drop room data); [done|simpl in *; lia]|]. cbn [chain_pages].
    rewrite decide_False by done. rewrite zlen_cons. pose proof (zlen_nonneg (chain_pages fuel (n + 1 + 1) (drop room (drop room data)))). lia. }
  assert (Hch : chained ps B fuel (n + 1) (drop room data)).
  { apply IH; [|lia|done|lia]. intros i p Hi. replace (Z.to_nat (n + 1 - 1) + i)%nat with (Z.to_nat (n - 1) + S i)%nat by lia. by apply HB. }
  case_decide as Hr.
  - split; [lia|]. split; [done|]. split; [by left|]. rewrite Hr. by destruct fuel; [|left].
  - specialize (Hrest Hr). split; [lia|]. split; [done|]. split; [right; lia|done].
Qed.

Definition same_new (B b b' : list bytes) : Prop := forall i, (length b <= i < length b')%nat -> B !! i = b' !! i.

Lemma payloadCell_ok b prefix payload tableLeaf b' cell :
  payloadCell options b prefix payload tableLeaf = Ok (b', cell) -> zlen b' <= maximumPages ->
  exists extra body, b' = b ++ extra /\ sized extra /\ cell = prefix ++ body /\
    forall B, same_new B b b' -> stored ps B tableLeaf payload body.
Proof.
  intros H Hm. unfold payloadCell in H. cbv zeta in H. unfold stored.
  set (local := local_payload ps (zlen payload) tableLeaf) in *. destruct (Z.eqb_spec local (zlen payload)) as [E|E].
  { injection H as <- <-. exists [], (take (Z.to_nat local) payload). rewrite app_nil_r. split_and!; [done|constructor|done|].
    intros B _. rewrite take_ge; [done|]. unfold zlen in E. lia. }
  bind_in H x E1. destruct x as [b1 first]. injection H as <- <-.
  set (data := drop (Z.to_nat local) payload) in *.
  assert (Hd : (length data <= length payload)%nat) by (unfold data; rewrite length_drop; lia).
  destruct (decide (data = [])) as [Hn|Hn].
  { rewrite Hn in E1. injection E1 as <- <-. exists [], (take (Z.to_nat local) payload ++ be_bytes 4 0). rewrite app_nil_r.
    split_and!; [done|constructor|by rewrite app_assoc|]. intros B _. exists 0. split_and!; [lia..|done|]. rewrite Hn. by destruct payload; [|left]. }
  destruct (length data) as [|fuel] eqn:El; [by destruct data|]. cbn [overflow_loop] in E1.
  destruct (Z.eqb_spec (zlen data) 0) as [Ez|_]; [by apply zlen_0_nil in Ez|].
  unfold allocate in E1. change (negb (0 =? 0)) with false in E1. change (0 =? 0) with true in E1. cbn [res_bind] in E1.
  assert (Hb1 : zlen b < maximumPages).
  { bind_in E1 p E2. apply overflow_loop_mono in E1. rewrite set_page_length, length_app in E1. unfold zlen in *. simpl in *. lia. }
  pose proof (zlen_nonneg b). rewrite u32_id, builder_page_last in E1 by lia. cbn [res_bind] in E1.
  destruct (take_min data) as [Ht Hr]. rewrite Ht, Hr, set_page_last in E1 by lia.
  apply overflow_loop_ok in E1 as [-> Hb']; [|done|lia|done].
  assert (Hb2 : b1 = b ++ chain_pages (S fuel) (zlen b + 1) data).
  { rewrite Hb'. cbn [chain_pages app]. rewrite (decide_False (P := data = [])) by done. unfold chain_page.
    replace (zlen b + 1 + 1) with (zlen b + 2) by lia. by case_decide. }
  clear Hb'. subst b1. rewrite <- app_assoc. eexists _, _. split_and!; [done|apply chain_pages_sized|done|].
  intros B HB. rewrite zlen_app in Hm. pose proof (zlen_nonneg (chain_pages (S fuel) (zlen b + 1) data)).
  exists (zlen b + 1). split; [lia|]. split; [done|].
  apply (chained_more _ _ (S fuel)); [|lia]. apply chain_pages_chained; [|lia..].
  intros i p Hi. replace (Z.to_nat (zlen b + 1 - 1) + i)%nat with (length b + i)%nat by (unfold zlen; lia).
  rewrite HB; [|apply lookup_lt_Some in Hi; rewrite length_app; lia]. rewrite lookup_app_r by lia.
  by replace (length b + i - length b)%nat with i by lia.
Qed.

(** ** Pages are only added *)

Notation grows b b' := (length b <= length b')%nat.

Lemma payloadCell_mono b prefix payload tableLeaf b' cell :
  payloadCell options b prefix payload tableLeaf = Ok (b', cell) -> grows b b'.
Proof.
  unfold payloadCell. cbv zeta. case_match; [by intros [= <- _]|]. intros Hc. bind_in Hc x E. destruct x as [b1 first].
  injection Hc as <- _. by eapply overflow_loop_mono.
Qed.

Lemma tableLeafCell_mono b rowid values b' cell : tableLeafCell options b rowid values = Ok (b', cell) -> grows b b'.
Proof. unfold tableLeafCell. intros H. bind_in H payload E. by eapply payloadCell_mono. Qed.

Lemma indexCell_mono b row b' cell : indexCell options b row = Ok (b', cell) -> grows b b'.
Proof. unfold indexCell. intros H. bind_in H payload E. by eapply payloadCell_mono. Qed.

Lemma writeBtreePage_length b number hdr t r cells b' :
  writeBtreePage options b number hdr t r cells = Ok b' -> length b' = length b.
Proof. unfold writeBtreePage. intros H. bind_in H page E. bind_in H x E2. destruct x. injection H as <-. apply set_page_length. Qed.

Lemma writeTableInterior_length b number hdr children b' :
  writeTableInterior options b number hdr children = Ok b' -> length b' = length b.
Proof. unfold writeTableInterior. case_match; [done|]. case_match; [|done]. apply writeBtreePage_length. Qed.

Lemma write_leaves_mono rows b b' level :
  write_leaves options b rows = Ok (b', level) -> (length b + length rows <= length b')%nat.
Proof.
  revert b level. induction rows as [|[rowid values] rows IH]; intros b level H; cbn [write_leaves] in H; [injection H as <- _; simpl; lia|].
  unfold allocate in H. bind_in H x E1. destruct x as [b2 cell]. bind_in H b3 E2. bind_in H x E3. destruct x. injection H as <- _.
  apply tableLeafCell_mono in E1. apply writeBtreePage_length in E2. apply IH in E3. rewrite length_app in E1. simpl in *. lia.
Qed.

Lemma write_parents_mono fuel b level b' next : write_parents options fuel b level = Ok (b', next) -> grows b b'.
Proof.
  revert b level next. induction fuel as [|fuel IH]; intros b [|child level] next H; cbn [write_parents] in H;
    try done; try (by injection H as <- _).
  unfold allocate in H. bind_in H b1 E1. case_match; [|done]. bind_in H x E3. destruct x. injection H as <- _.
  apply writeTableInterior_length in E1. apply IH in E3. rewrite length_app in E1. lia.
Qed.

Lemma raise_levels_mono fuel b level b' next : raise_levels options fuel b level = Ok (b', next) -> grows b b'.
Proof.
  revert b level. induction fuel as [|fuel IH]; intros b level H; cbn [raise_levels] in H; case_match; try done;
    try (by injection H as <- _).
  bind_in H x E. destruct x. apply write_parents_mono in E. apply IH in H. lia.
Qed.

Lemma index_cells_mono rows b b' cells : index_cells options b rows = Ok (b', cells) -> grows b b'.
Proof.
  revert b cells. induction rows as [|row rows IH]; intros b cells H; cbn [index_cells] in H; [by injection H as <- _|].
  bind_in H x E1. destruct x. bind_in H x E2. destruct x. injection H as <- _. apply indexCell_mono in E1. apply IH in E2. lia.
Qed.

Lemma index_children_mono node n b number rows remaining cells b' :
  (forall b child rows b', node b child rows = Ok b' -> grows b b') ->
  index_children options node n b number rows remaining cells = Ok b' -> grows b b'.
Proof.
  intros Hnode. revert b rows remaining cells. induction n as [|n IH]; intros b rows remaining cells H; cbn [index_children] in H; [done|].
  unfold allocate in H. case_match; [done|]. bind_in H b1 E1. apply Hnode in E1. rewrite length_app in E1.
  destruct n as [|n]; [apply writeBtreePage_length in H; lia|]. case_match; [done|]. bind_in H x E2. destruct x.
  apply indexCell_mono in E2. apply IH in H. lia.
Qed.

Lemma buildIndexNode_mono h b number rows capacity root b' :
  buildIndexNode options h b number rows capacity root = Ok b' -> grows b b'.
Proof.
  revert b number rows root b'. induction h as [|h IH]; intros b number rows root b' H; cbn [buildIndexNode] in H.
  - bind_in H x E. destruct x. apply index_cells_mono in E. apply writeBtreePage_length in H. lia.
  - eapply index_children_mono; [|exact H]. intros ? ? ? ? Hn. exact (IH _ _ _ _ _ Hn).
Qed.

(** ** Rows in cells *)

Definition row_ok (values : list sqlvalue) : Prop :=
  Forall value_ok values /\ forall payload, encodeRecord values encoding = Ok payload -> zlen payload <= 2 ^ 30.

Definition id_ok (rowid : Z) : Prop := - 2 ^ 63 <= rowid < 2 ^ 63.

Definition norm_row (row : Row) : Row := MkRow (row_RowID row) (norm_value encoding <$> row_Values row).

Lemma tableLeafCell_ok b rowid values b' cell :
  tableLeafCell options b rowid values = Ok (b', cell) -> zlen b' <= maximumPages -> row_ok values -> id_ok rowid ->
  0 < zlen cell /\ exists extra, b' = b ++ extra /\ sized extra /\
    forall B, same_new B b b' -> holds_row ps encoding B true (norm_row (MkRow (Some rowid) values)) cell.
Proof.
  intros H Hm [Hv Hs] Hid. unfold tableLeafCell in H. bind_in H payload E. specialize (Hs payload E).
  apply payloadCell_ok in H as (extra & body & -> & Hsz & -> & Hst); [|done].
  pose proof (encodeVarint_length (zlen payload) (zlen_nonneg _)). pose proof (zlen_nonneg body).
  pose proof (zlen_nonneg (encodeVarint (u64 rowid))). split; [rewrite !zlen_app; lia|].
  exists extra. split; [done|]. split; [done|]. intros B HB. exists payload, body. split; [done|].
  split; [by apply decodeRecord_encode|]. split; [by apply Hst|]. exists rowid. split; [done|]. split; [done|]. by rewrite app_assoc.
Qed.

Lemma indexCell_ok b row b' cell :
  indexCell options b row = Ok (b', cell) -> zlen b' <= maximumPages -> row_ok (row_Values row) -> row_RowID row = None ->
  0 < zlen cell /\ exists extra, b' = b ++ extra /\ sized extra /\
    forall B, same_new B b b' -> holds_row ps encoding B false (norm_row row) cell.
Proof.
  intros H Hm [Hv Hs] Hid. unfold indexCell in H. bind_in H payload E. specialize (Hs payload E).
  apply payloadCell_ok in H as (extra & body & -> & Hsz & -> & Hst); [|done].
  pose proof (encodeVarint_length (zlen payload) (zlen_nonneg _)). pose proof (zlen_nonneg body). split; [rewrite !zlen_app; lia|].
  exists extra. split; [done|]. split; [done|]. intros B HB. exists payload, body. split; [done|].
  split; [by apply decodeRecord_encode|]. split; [by apply Hst|]. by rewrite <- Hid.
Qed.

(** ** Table trees *)

Lemma same_new_sub B b b' c c' :
  same_new B b b' -> (length b <= length c)%nat -> (length c' <= length b')%nat ->
  (forall i, (length c <= i < length c')%nat -> c' !! i = b' !! i) -> same_new B c c'.
Proof. intros H H1 H2 H3 i Hi. rewrite H3 by done. apply H. lia. Qed.

Lemma zlen_length {A} (l : list A) : zlen l = Z.of_nat (length l).
Proof. done. Qed.

(** A page written where it was allocated. *)
Lemma set_allocated b pg extra page : put_page ((b ++ [pg]) ++ extra) (zlen b + 1) page = b ++ page :: extra.
Proof.
  unfold put_page. rewrite <- app_assoc. replace (Z.to_nat (zlen b + 1 - 1)) with (length b + 0)%nat by (rewrite zlen_length; lia).
  by rewrite insert_app_r.
Qed.

Lemma node_at_new B b b' page t r cells i :
  same_new B b b' -> b' !! i = Some page -> (1 <= length b <= i)%nat -> zlen b' <= maximumPages -> node page 0 t r cells ->
  node_at B (Z.of_nat i + 1) t r cells.
Proof.
  intros HB Hi Hl Hm Hn. apply lookup_lt_Some in Hi as Hlt. rewrite zlen_length in Hm. exists page. split.
  - split; [lia|]. replace (Z.to_nat (Z.of_nat i + 1 - 1)) with i by lia. rewrite HB; [done|lia].
  - unfold header_offset. by replace (Z.of_nat i + 1 =? 1) with false by lia.
Qed.

Record leaves_of (b b' : list bytes) (rows : list (Z * list sqlvalue)) (level : list buildPage) (ts : list subtree) : Prop := {
  lv_roots : sub_root <$> ts = bp_number <$> level;
  lv_rows : mjoin (sub_rows <$> ts) = (fun r => norm_row (MkRow (Some r.1) r.2)) <$> rows;
  lv_nodup : NoDup (mjoin (sub_pages <$> ts));
  lv_new : Forall (fun m => zlen b < m <= zlen b') (mjoin (sub_pages <$> ts));
  lv_length : length level = length rows;
  lv_trees : forall B, same_new B b b' -> Forall (table_tree ps encoding B 0) ts
}.

Lemma lookup_below {A} (l k : list A) i : (i < length l)%nat -> (l ++ k) !! i = l !! i.
Proof. apply lookup_app_l. Qed.

(** A leaf of a table. *)
Lemma write_leaf_ok b rowid values b2 cell b3 :
  tableLeafCell options (b ++ [zeros ps]) rowid values = Ok (b2, cell) ->
  writeBtreePage options b2 (u32 (zlen b + 1)) 0 0x0d 0 [cell] = Ok b3 ->
  sized b -> 1 <= zlen b -> zlen b3 <= maximumPages -> row_ok values -> id_ok rowid ->
  u32 (zlen b + 1) = zlen b + 1 /\ exists page extra, b3 = b ++ page :: extra /\ sized (page :: extra) /\
    forall B, same_new B b b3 ->
      table_tree ps encoding B 0 (MkSub (zlen b + 1) [zlen b + 1] [norm_row (MkRow (Some rowid) values)]).
Proof.
  intros E1 E2 Hb Hb1 Hm Hv Hid. pose proof (tableLeafCell_mono _ _ _ _ _ E1) as Hl. rewrite length_app in Hl. cbn [length] in Hl.
  pose proof (writeBtreePage_length _ _ _ _ _ _ _ E2) as Hl3. rewrite zlen_length in Hm.
  assert (Hu : u32 (zlen b + 1) = zlen b + 1) by (apply u32_id; rewrite zlen_length in *; lia). split; [done|]. rewrite Hu in E2.
  apply tableLeafCell_ok in E1 as (Hc & extra & -> & Hex & Hrow); [|rewrite zlen_length; lia|done..].
  apply writeBtreePage_ok in E2 as (_ & page & -> & Hp & Hn); [|rewrite zlen_length in *; lia|apply sized_app; split; [apply sized_app; split; [done|apply sized_zeros]|done]|by left|by apply Forall_singleton].
  rewrite set_allocated in *. exists page, extra. split; [done|]. split; [by constructor|]. intros B HB. exists [cell]. split; [|split; [|done]].
  - apply (node_at_new _ _ _ page _ _ _ (length b) HB); [by apply list_lookup_middle|rewrite zlen_length in *; lia|rewrite zlen_length; lia|done].
  - constructor; [|constructor]. apply Hrow. eapply same_new_sub; [exact HB|rewrite length_app; lia|rewrite !length_app; simpl; lia|].
    intros i Hi. rewrite length_app in Hi. simpl in Hi. rewrite <- app_assoc, lookup_app_r, (lookup_app_r b (page :: extra)) by lia. cbn [app].
    destruct (i - length b)%nat eqn:Ei; [lia|done].
Qed.

Lemma write_leaves_ok rows b b' level :
  write_leaves options b rows = Ok (b', level) -> sized b -> 1 <= zlen b -> zlen b' <= maximumPages ->
  Forall (fun r => id_ok r.1 /\ row_ok r.2) rows ->
  exists extra ts, b' = b ++ extra /\ sized extra /\ leaves_of b b' rows level ts.
Proof.
  revert b level. induction rows as [|[rowid values] rows IH]; intros b level H Hb Hb1 Hm Hr.
  { injection H as <- <-. exists [], []. rewrite app_nil_r. split; [done|]. split; [constructor|].
    split; try done; constructor. }
  apply Forall_cons in Hr as [[Hid Hv] Hr]. cbn [fst snd] in *. cbn [write_leaves] in H. unfold allocate in H.
  bind_in H x E1. destruct x as [b2 cell]. bind_in H b3 E2. bind_in H x E3. destruct x as [b4 level']. injection H as -> <-.
  pose proof (write_leaves_mono _ _ _ _ E3) as Hl.
  destruct (write_leaf_ok _ _ _ _ _ _ E1 E2) as (Hu & page & extra & -> & Hsz & Ht); [done|done|rewrite zlen_length in *; lia|done..|].
  rewrite Hu. destruct (IH _ _ E3) as (extra' & ts & -> & Hsz' & [R1 R2 R3 R4 R5 R6]);
    [by apply sized_app|rewrite zlen_app; pose proof (zlen_nonneg (page :: extra)); lia|done..|].
  exists (page :: extra ++ extra'), (MkSub (zlen b + 1) [zlen b + 1] [norm_row (MkRow (Some rowid) values)] :: ts).
  assert (Eb : (b ++ page :: extra) ++ extra' = b ++ page :: extra ++ extra') by (by rewrite <- app_assoc).
  split; [done|]. split; [inversion Hsz; subst; constructor; [done|by apply sized_app]|].
  assert (Hz : zlen b + 1 <= zlen (b ++ page :: extra)) by (rewrite zlen_app, zlen_cons; pose proof (zlen_nonneg extra); lia).
  rewrite Eb in *. split.
  - rewrite !fmap_cons, R1. done.
  - change ([norm_row (MkRow (Some rowid) values)] ++ mjoin (sub_rows <$> ts) =
      norm_row (MkRow (Some rowid) values) :: ((fun r => norm_row (MkRow (Some r.1) r.2)) <$> rows)). by rewrite R2.
  - change (NoDup (zlen b + 1 :: mjoin (sub_pages <$> ts))). constructor; [|done]. intros Hin.
    rewrite Forall_forall in R4. specialize (R4 _ Hin). lia.
  - change (Forall (fun m => zlen b < m <= zlen (b ++ page :: extra ++ extra')) (zlen b + 1 :: mjoin (sub_pages <$> ts))).
    constructor; [|eapply Forall_impl; [exact R4|cbv beta; lia]]. rewrite <- Eb, zlen_app. pose proof (zlen_nonneg extra'). lia.
  - simpl. by rewrite R5.
  - intros B HB. constructor.
    + apply Ht. eapply same_new_sub; [exact HB|lia|rewrite !length_app; cbn [length]; rewrite length_app; lia|].
      intros i Hi. rewrite <- Eb. symmetry. apply lookup_below. lia.
    + apply R6. eapply same_new_sub; [exact HB|rewrite length_app; lia|done|done].
Qed.

(** An interior page over the trees [ts]. *)
Definition parent (n : Z) (ts : list subtree) : subtree :=
  MkSub n (n :: mjoin (sub_pages <$> ts)) (mjoin (sub_rows <$> ts)).

Lemma mjoin_snoc {A} (l : list (list A)) x : mjoin (l ++ [x]) = mjoin l ++ x.
Proof. rewrite join_app. cbn. by rewrite app_nil_r. Qed.

Lemma writeTableInterior_ok b number hdr children ts b' :
  writeTableInterior options b number hdr children = Ok b' -> 1 <= number <= 2 ^ 32 -> sized b -> hdr = 0 \/ hdr = 100 ->
  sub_root <$> ts = bp_number <$> children ->
  1 <= number <= zlen b /\ (2 <= length ts)%nat /\ exists page, b' = put_page b number page /\ zlen page = ps /\
    forall B h q, page_at B number q -> zlen q = ps -> hdr = header_offset number ->
      (forall k, hdr <= k -> nthb q k = nthb page k) ->
      Forall (table_tree ps encoding B h) ts -> table_tree ps encoding B (S h) (parent number ts).
Proof.
  intros H Hnum Hb Hh Hts. unfold writeTableInterior in H. destruct (Z.ltb_spec (zlen children) 2) as [|Hc]; [done|].
  destruct (last children) as [rightmost|] eqn:El; [|done]. apply last_Some in El as [front ->].
  rewrite zlen_app, zlen_cons, zlen_nil in Hc. rewrite length_app in H. cbn [length] in H.
  replace (length front + 1 - 1)%nat with (length front) in H by lia. rewrite take_app_length in H.
  rewrite fmap_app in Hts. apply fmap_app_inv in Hts as (ts0 & ts1 & E0 & E1 & ->).
  destruct ts1 as [|tr [|? ?]]; [done| |done]. injection E1 as E1.
  apply writeBtreePage_ok in H as (Hn & page & -> & Hp & Hnode); [|done|done|done|].
  2: { apply Forall_fmap, Forall_true. intros x. change (0 < zlen (be_bytes 4 (bp_number x) ++ encodeVarint (u64 (bp_last x)))). rewrite zlen_app, zlen_be_bytes.
       pose proof (zlen_nonneg (encodeVarint (u64 (bp_last x)))). lia. }
  split; [done|]. split. { assert (length ts0 = length front) by (by rewrite <- (length_fmap sub_root), <- (length_fmap bp_number front), E0).
    rewrite length_app. rewrite zlen_length in Hc. simpl. lia. }
  exists page. split; [done|]. split; [done|]. intros B h q Hq Hqs Hhdr Hsame Hall.
  eexists ts0, tr, _. split; [exists q; split; [done|]|].
  { cbn [parent sub_root]. rewrite <- E1, <- Hhdr. eapply node_same; [|intros k Hk; symmetry; by apply Hsame|exact Hnode]. lia. }
  split. { rewrite Forall2_fmap_r. clear -E0. revert front E0. induction ts0 as [|t ts0 IH]; intros [|f front] E0; try done.
    injection E0 as E0 E0'. constructor; [|by apply IH]. exists (encodeVarint (u64 (bp_last f))). cbn. by rewrite E0. }
  split; [done|]. unfold parent. cbn [sub_pages sub_root sub_rows]. rewrite !fmap_app. change (sub_pages <$> [tr]) with [sub_pages tr]. change (sub_rows <$> [tr]) with [sub_rows tr]. by rewrite !mjoin_snoc.
Qed.

(** From [b] to [b'] the trees [ts] got [k] levels of parents. *)
Record raised (k : nat) (b b' : list bytes) (ts us : list subtree) : Prop := {
  ra_extends : exists extra, b' = b ++ extra /\ sized extra;
  ra_rows : mjoin (sub_rows <$> us) = mjoin (sub_rows <$> ts);
  ra_pages : mjoin (sub_pages <$> us) ≡ₚ seqZ (zlen b + 1) (zlen b' - zlen b) ++ mjoin (sub_pages <$> ts);
  ra_count : (length us * 2 ^ k <= length ts)%nat;
  ra_trees : forall B h, same_new B b b' -> Forall (table_tree ps encoding B h) ts -> Forall (table_tree ps encoding B (k + h)) us
}.

Lemma raised_refl b ts : raised 0 b b ts ts.
Proof.
  split; [exists []; split; [by rewrite app_nil_r|constructor]|done| |simpl; lia|done]. by rewrite Z.sub_diag.
Qed.

Lemma raised_trans k1 k2 b b1 b2 ts us vs : raised k1 b b1 ts us -> raised k2 b1 b2 us vs -> raised (k2 + k1) b b2 ts vs.
Proof.
  intros [(extra & -> & Hsz) R2 R3 R4 R5] [(extra' & -> & Hsz') S2 S3 S4 S5]. split.
  - exists (extra ++ extra'). split; [by rewrite app_assoc|by apply sized_app].
  - by rewrite S2.
  - rewrite S3, R3, !zlen_app. pose proof (zlen_nonneg extra). pose proof (zlen_nonneg extra').
    replace (zlen b + zlen extra + zlen extra' - zlen b) with (zlen extra + zlen extra') by lia.
    rewrite seqZ_app by lia. rewrite <- !app_assoc.
    replace (zlen b + 1 + zlen extra) with (zlen b + zlen extra + 1) by lia.
    replace (zlen b + zlen extra - zlen b) with (zlen extra) by lia.
    replace (zlen b + zlen extra + zlen extra' - (zlen b + zlen extra)) with (zlen extra') by lia. apply Permutation_app_swap_app.
  - rewrite Nat.pow_add_r. nia.
  - intros B h HB Hall. rewrite <- Nat.add_assoc. apply S5.
    + eapply same_new_sub; [exact HB|rewrite length_app; lia|done|done].
    + apply R5; [|done]. eapply same_new_sub; [exact HB|lia|rewrite !length_app; lia|]. intros i Hi. symmetry. apply lookup_below. lia.
Qed.

Lemma write_parents_ok fuel b level ts b' next :
  write_parents options fuel b level = Ok (b', next) -> sized b -> 1 <= zlen b -> zlen b' <= maximumPages ->
  sub_root <$> ts = bp_number <$> level -> exists us, sub_root <$> us = bp_number <$> next /\ raised 1 b b' ts us.
Proof.
  revert b level ts next. induction fuel as [|fuel IH]; intros b level ts next H Hb Hb1 Hm Hts; cbn [write_parents] in H.
  all: destruct level as [|child level]; [injection H as <- <-; apply fmap_nil_inv in Hts as ->; exists []; split; [done|];
    split; [by apply (ra_extends 0 b b [] []), raised_refl|done|by rewrite Z.sub_diag|done|done]|].
  { done. }
  set (all := child :: level) in *. set (k := Z.to_nat (group_count (zlen all))) in *. unfold allocate in H.
  bind_in H b1 E1. destruct (last (take k all)) as [lastc|] eqn:El; [|done]. bind_in H x E2. destruct x as [b2 next'].
  injection H as -> <-. pose proof (write_parents_mono _ _ _ _ _ E2) as Hl2. pose proof (writeTableInterior_length _ _ _ _ _ E1) as Hl1.
  rewrite length_app in Hl1. cbn [length] in Hl1. rewrite (zlen_length b') in Hm.
  rewrite (u32_id (zlen b + 1)) in * by (rewrite zlen_length; lia).
  eapply (writeTableInterior_ok _ _ _ _ (take k ts)) in E1 as (Hn & Hk & page & -> & Hp & Htree);
    [|rewrite zlen_length in *; lia|apply sized_app; split; [done|apply sized_zeros]|by left|by rewrite !fmap_take, Hts].
  rewrite put_page_last in *.
  destruct (IH (b ++ [page]) (drop k all) (drop k ts) next' E2) as (us & R1 & [(extra & -> & Hsz) R2 R3 R4 R5]).
  { apply sized_app. split; [done|by apply Forall_singleton]. }
  { rewrite zlen_app, zlen_cons, zlen_nil. lia. }
  { by rewrite zlen_length. }
  { by rewrite !fmap_drop, Hts. }
  exists (parent (zlen b + 1) (take k ts) :: us). split; [by rewrite !fmap_cons, R1|]. split.
  - exists (page :: extra). split; [by rewrite <- app_assoc|by constructor].
  - change (mjoin (sub_rows <$> parent (zlen b + 1) (take k ts) :: us))
      with (mjoin (sub_rows <$> take k ts) ++ mjoin (sub_rows <$> us)). by rewrite R2, <- join_app, <- fmap_app, take_drop.
  - change (mjoin (sub_pages <$> parent (zlen b + 1) (take k ts) :: us))
      with (zlen b + 1 :: mjoin (sub_pages <$> take k ts) ++ mjoin (sub_pages <$> us)).
    rewrite !zlen_app, zlen_cons, zlen_nil in *. pose proof (zlen_nonneg extra).
    rewrite (seqZ_cons (zlen b + 1)) by lia. cbn [app]. constructor. rewrite R3.
    replace (Z.pred (zlen b + (1 + 0) + zlen extra - zlen b)) with (zlen b + (1 + 0) + zlen extra - (zlen b + (1 + 0))) by lia.
    replace (Z.succ (zlen b + 1)) with (zlen b + (1 + 0) + 1) by lia.
    rewrite Permutation_app_swap_app, <- join_app, <- fmap_app, take_drop. done.
  - rewrite length_take in Hk. rewrite length_drop in R4. cbn [length Nat.pow] in *. lia.
  - intros B h HB Hall. constructor.
    + assert (Hpage : page_at B (zlen b + 1) page).
      { split; [rewrite zlen_length in *; lia|]. replace (Z.to_nat (zlen b + 1 - 1)) with (length b) by (rewrite zlen_length; lia).
        rewrite HB by (rewrite !length_app; simpl; lia). rewrite <- app_assoc. by apply list_lookup_middle. }
      apply (Htree B h page); [done|done| |done|by apply Forall_take].
      unfold header_offset. by replace (zlen b + 1 =? 1) with false by lia.
    + apply R5; [|by apply Forall_drop]. eapply same_new_sub; [exact HB|rewrite length_app; lia|done|done].
Qed.

Lemma raise_levels_ok fuel b level ts b' next :
  raise_levels options fuel b level = Ok (b', next) -> sized b -> 1 <= zlen b -> zlen b' <= maximumPages ->
  sub_root <$> ts = bp_number <$> level -> exists k us, sub_root <$> us = bp_number <$> next /\ raised k b b' ts us.
Proof.
  revert b level ts. induction fuel as [|fuel IH]; intros b level ts H Hb Hb1 Hm Hts; cbn [raise_levels] in H;
    (destruct (20 <? zlen level); [|injection H as <- <-; exists 0%nat, ts; split; [done|apply raised_refl]]); [done|].
  bind_in H x E. destruct x as [b1 mid]. pose proof (raise_levels_mono _ _ _ _ _ H) as Hl.
  eapply write_parents_ok in E as (us & R1 & R); [|done|done|rewrite zlen_length in *; lia|done].
  pose proof (ra_extends _ _ _ _ _ R) as (extra & -> & Hsz).
  apply (IH _ _ us) in H as (k & vs & S1 & S); [|by apply sized_app|rewrite zlen_app; pose proof (zlen_nonneg extra); lia|done|done].
  exists (k + 1)%nat, vs. split; [done|]. by eapply raised_trans.
Qed.

(** ** A whole table *)

(** [B] has page [n] of [b'], but for the header of the file. *)
Definition agrees (B b' : list bytes) (n : Z) : Prop :=
  forall p, b' !! Z.to_nat (n - 1) = Some p ->
  exists q, B !! Z.to_nat (n - 1) = Some q /\ zlen q = zlen p /\ forall k, header_offset n <= k -> nthb q k = nthb p k.

Definition btree_of (B : list bytes) (h : nat) (t : subtree) : Prop :=
  table_tree ps encoding B h t \/ index_tree ps encoding B h t.

(** From [b] to [b'] the page [root] became the root of a tree of [rows]. *)
Definition built (b b' : list bytes) (root : Z) (rows : list Row) : Prop :=
  1 <= root <= zlen b /\ exists extra page h t,
    b' = put_page (b ++ extra) root page /\ sized extra /\ zlen page = ps /\
    sub_root t = root /\ sub_rows t = rows /\ NoDup (sub_pages t) /\ (h <= maximumDepth)%nat /\
    forall B, agrees B b' root -> same_new B b b' -> btree_of B h t.

Lemma put_page_lookup b n page : 1 <= n <= zlen b -> put_page b n page !! Z.to_nat (n - 1) = Some page.
Proof. intros Hn. apply list_lookup_insert_eq. rewrite zlen_length in Hn. lia. Qed.

Lemma put_page_other b n page i : 1 <= n -> Z.of_nat i + 1 <> n -> put_page b n page !! i = b !! i.
Proof. intros Hn Hi. apply list_lookup_insert_ne. lia. Qed.

(** Pages after the root are those appended. *)
Lemma same_new_built B b extra root page :
  1 <= root <= zlen b -> same_new B b (put_page (b ++ extra) root page) -> same_new B b (b ++ extra).
Proof.
  intros Hr HB. eapply same_new_sub; [exact HB|lia|by rewrite put_page_length|].
  intros i Hi. symmetry. apply put_page_other; [lia|]. rewrite zlen_length in Hr. lia.
Qed.

(** The root page as the final file has it. *)
Lemma agrees_page B b extra root page :
  1 <= root <= zlen b -> zlen b <= maximumPages -> agrees B (put_page (b ++ extra) root page) root ->
  exists q, page_at B root q /\ zlen q = zlen page /\ forall k, header_offset root <= k -> nthb q k = nthb page k.
Proof.
  intros Hr Hm HB. destruct (HB page) as (q & Hq & Hl & Hk).
  - apply put_page_lookup. rewrite zlen_app. pose proof (zlen_nonneg extra). lia.
  - exists q. split; [split; [lia|done]|done].
Qed.

Definition table_row_ok (row : Row) : Prop := match row_RowID row with Some id => id_ok id | None => True end /\ row_ok (row_Values row).

Lemma check_rowids_ok rows previous rs :
  check_rowids rows previous = Ok rs -> (fun r => MkRow (Some r.1) r.2) <$> rs = rows.
Proof.
  revert previous rs. induction rows as [|[id values] rows IH]; intros previous rs H; cbn [check_rowids row_RowID row_Values] in H.
  { by injection H as <-. }
  destruct id as [id|]; [|done]. destruct (match previous with Some p => id <=? p | None => false end); [done|].
  bind_in H rest E. injection H as <-. rewrite fmap_cons. cbn [fst snd]. by rewrite (IH _ _ E).
Qed.

(** A root that is a leaf. *)
Lemma leaf_built b extra root t tableLeaf rows cells page :
  1 <= root <= zlen b -> zlen b <= maximumPages -> sized extra -> zlen page = ps ->
  (t = 0x0d /\ tableLeaf = true) \/ (t = 0x0a /\ tableLeaf = false) ->
  node page (header_offset root) t 0 cells ->
  (forall B, same_new B b (b ++ extra) -> Forall2 (holds_row ps encoding B tableLeaf) rows cells) ->
  built b (put_page (b ++ extra) root page) root rows.
Proof.
  intros Hr Hm Hsz Hp Ht Hn Hrows. split; [done|]. exists extra, page, 0%nat, (MkSub root [root] rows).
  do 5 (split; [done|]). split; [apply NoDup_singleton|]. split; [lia|]. intros B HB Hnew.
  destruct (agrees_page _ _ _ _ _ Hr Hm HB) as (q & Hq & Hl & Hk). apply same_new_built in Hnew; [|done].
  assert (Hat : node_at B root t 0 cells).
  { exists q. split; [done|]. eapply node_same; [|intros k Hk'; symmetry; by apply Hk|exact Hn]. done. }
  destruct Ht as [[-> ->]|[-> ->]]; [left|right]; exists cells; split; try done; (split; [by apply Hrows|done]).
Qed.

Lemma pow2_bound k n m : (m * 2 ^ k <= n)%nat -> (1 <= m)%nat -> Z.of_nat n <= 2 ^ 20 -> (k <= 20)%nat.
Proof.
  intros H Hm Hn. assert (2 ^ Z.of_nat k <= 2 ^ 20).
  { change 2 with (Z.of_nat 2) at 1. rewrite <- Nat2Z.inj_pow. nia. }
  apply Z.pow_le_mono_r_iff in H0; lia.
Qed.

(** Leaves and the levels above them. *)
Lemma table_levels_built b rs b1 level b2 level2 root b' :
  write_leaves options b rs = Ok (b1, level) -> raise_levels options (length level) b1 level = Ok (b2, level2) ->
  writeTableInterior options b2 root (header_offset root) level2 = Ok b' ->
  sized b -> zlen b' <= maximumPages -> 1 <= root <= zlen b -> header_offset root = 0 \/ header_offset root = 100 ->
  Forall (fun r => table_row_ok (MkRow (Some r.1) r.2)) rs ->
  built b b' root (norm_row <$> ((fun r => MkRow (Some r.1) r.2) <$> rs)).
Proof.
  intros E1 E2 H Hb Hm Hroot Hhdr Hrows. rewrite zlen_length in Hm. pose proof (writeTableInterior_length _ _ _ _ _ H) as L3.
  pose proof (raise_levels_mono _ _ _ _ _ E2) as L2. pose proof (write_leaves_mono _ _ _ _ E1) as L1.
  apply write_leaves_ok in E1 as (extra & ts & -> & Hsz & [T1 T2 T3 T4 T5 T6]); [|done|lia|rewrite zlen_length; lia|exact Hrows].
  assert (Hlt : length ts = length rs) by (by rewrite <- T5, <- (length_fmap sub_root), T1, length_fmap).
  apply (raise_levels_ok _ _ _ ts) in E2 as (k & us & U1 & U);
    [|by apply sized_app|rewrite zlen_app; pose proof (zlen_nonneg extra); lia|rewrite zlen_length; lia|done].
  destruct U as [(extra' & -> & Hsz') U2 U3 U4 U5].
  apply (writeTableInterior_ok _ _ _ _ us) in H as (_ & Hlu & page & -> & Hp & Htree);
    [|rewrite zlen_length in *; lia|by repeat (apply sized_app; split)|done|done].
  rewrite <- app_assoc in *. split; [done|]. exists (extra ++ extra'), page, (S (k + 0)), (parent root us).
  split; [done|]. split; [by apply sized_app|]. split; [done|]. split; [done|]. split; [cbn; by rewrite U2, T2, <- list_fmap_compose|].
  split; [|split].
  - cbn [parent sub_pages]. rewrite U3. rewrite Forall_forall in T4. constructor.
    + intros Hin. apply elem_of_app in Hin as [Hin|Hin]; [apply elem_of_seqZ in Hin; rewrite zlen_app in Hin; pose proof (zlen_nonneg extra); lia|].
      specialize (T4 _ Hin). lia.
    + apply NoDup_app. split; [apply NoDup_seqZ|]. split; [|done]. intros m Hm1 Hm2. apply elem_of_seqZ in Hm1. specialize (T4 _ Hm2). lia.
  - rewrite <- Hlt in L1. pose proof (pow2_bound k (length ts) (length us) U4). lia.
  - intros B HB Hnew. left. apply same_new_built in Hnew; [|done]. assert (Hbm : zlen b <= maximumPages) by (rewrite zlen_length; lia).
    destruct (agrees_page _ _ _ _ _ Hroot Hbm HB) as (q & Hq & Hlq & Hk). apply (Htree B (k + 0)%nat q Hq); [by rewrite Hlq|done|done|].
    apply U5; [|apply T6].
    + eapply same_new_sub; [exact Hnew|rewrite length_app; lia|by rewrite app_assoc|by rewrite app_assoc].
    + eapply same_new_sub; [exact Hnew|lia|rewrite !length_app; lia|]. intros i Hi. rewrite app_assoc. symmetry. apply lookup_below. lia.
Qed.

Lemma buildTable_ok b root rows schema b' :
  buildTable options b root rows schema = Ok b' -> sized b -> zlen b' <= maximumPages ->
  (if schema then 100 else 0) = header_offset root -> 1 <= root <= zlen b -> Forall table_row_ok rows ->
  built b b' root (norm_row <$> rows).
Proof.
  intros H Hb Hm Hh Hroot Hrows. unfold buildTable in H. bind_in H rs E. apply check_rowids_ok in E as <-.
  assert (Hhdr : header_offset root = 0 \/ header_offset root = 100) by (unfold header_offset; destruct (root =? 1); lia).
  cbv zeta in H. rewrite Hh in H. rewrite Forall_fmap in Hrows. destruct rs as [|[rowid values] [|r2 rs]].
  - pose proof (writeBtreePage_length _ _ _ _ _ _ _ H) as Hl. rewrite zlen_length in Hm.
    apply writeBtreePage_ok in H as (_ & page & -> & Hp & Hn); [|rewrite zlen_length in *; lia|done..]. rewrite <- (app_nil_r b) at 2.
    eapply (leaf_built _ _ _ _ true); [done|rewrite zlen_length; lia|constructor|done|by left|exact Hn|]. intros. constructor.
  - inversion Hrows as [|? ? [Hid Hv] _]; subst. cbn in Hid, Hv. bind_in H x E. destruct x as [b1 cell].
    pose proof (writeBtreePage_length _ _ _ _ _ _ _ H) as Hl. rewrite zlen_length in Hm.
    pose proof (tableLeafCell_mono _ _ _ _ _ E) as Hl1.
    apply tableLeafCell_ok in E as (Hc & extra & -> & Hsz & Hrow); [|rewrite zlen_length; lia|done..].
    apply writeBtreePage_ok in H as (_ & page & -> & Hp & Hn); [|rewrite zlen_length in *; lia|by apply sized_app|done|by apply Forall_singleton].
    eapply (leaf_built _ _ _ _ true); [done|rewrite zlen_length; lia|done|done|by left|exact Hn|].
    intros B HB. constructor; [by apply Hrow|constructor].
  - bind_in H x E1. destruct x as [b1 level]. bind_in H x E2. destruct x as [b2 level2]. by eapply table_levels_built.
Qed.

(** ** Index trees *)

Definition index_row_ok (row : Row) : Prop := row_RowID row = None /\ row_ok (row_Values row).

Lemma index_cells_ok rows b b' cells :
  index_cells options b rows = Ok (b', cells) -> zlen b' <= maximumPages -> Forall index_row_ok rows ->
  exists extra, b' = b ++ extra /\ sized extra /\ Forall (fun c => 0 < zlen c) cells /\
    forall B, same_new B b b' -> Forall2 (holds_row ps encoding B false) (norm_row <$> rows) cells.
Proof.
  revert b cells. induction rows as [|row rows IH]; intros b cells H Hm Hr; cbn [index_cells] in H.
  { injection H as <- <-. exists []. rewrite app_nil_r. split; [done|]. repeat (split; [constructor|]). constructor. }
  apply Forall_cons in Hr as [[Hid Hrow] Hr]. bind_in H x E1. destruct x as [b1 cell]. bind_in H x E2. destruct x as [b2 cells'].
  injection H as -> <-. pose proof (index_cells_mono _ _ _ _ E2) as Hl. rewrite zlen_length in Hm.
  apply indexCell_ok in E1 as (Hc & extra & -> & Hsz & Hh); [|rewrite zlen_length; lia|done..].
  apply IH in E2 as (extra' & -> & Hsz' & Hne & Hrows); [|by rewrite zlen_length|done]. exists (extra ++ extra').
  split; [by rewrite app_assoc|]. split; [by apply sized_app|]. split; [by constructor|]. intros B HB. rewrite fmap_cons. constructor.
  - apply Hh. eapply same_new_sub; [exact HB|lia|rewrite !length_app; lia|]. intros i Hi. symmetry. apply lookup_below. lia.
  - apply Hrows. eapply same_new_sub; [exact HB|rewrite length_app; lia|done|done].
Qed.

(** From [b] to [b'] the page [root] became the root of an index of [rows],
    of height [h]. *)
Definition index_built (h : nat) (b b' : list bytes) (root : Z) (rows : list Row) : Prop :=
  exists extra page t l,
    b' = put_page (b ++ extra) root page /\ sized extra /\ zlen page = ps /\ sub_root t = root /\ sub_rows t = rows /\
    (sub_pages t = root :: l /\ NoDup l /\ Forall (fun m => zlen b < m <= zlen b') l) /\
    forall B, agrees B b' root -> same_new B b b' -> index_tree ps encoding B h t.

Lemma index_built_built h b b' root rows :
  index_built h b b' root rows -> (h <= maximumDepth)%nat -> 1 <= root <= zlen b -> built b b' root rows.
Proof.
  intros (extra & page & t & l & H1 & H2 & H3 & H4 & H5 & (H6 & H7 & H8) & H9) Hh Hr. split; [done|].
  exists extra, page, h, t. do 5 (split; [done|]). split; [|split; [done|]].
  - rewrite H6. constructor; [|done]. intros Hin. rewrite Forall_forall in H8. specialize (H8 _ Hin). lia.
  - intros B HB Hn. right. by apply H9.
Qed.

(** A page above the roots, as the final file has it. *)
Lemma agrees_new B b b' i : same_new B b b' -> (1 <= length b)%nat -> (length b <= i < length b')%nat -> agrees B b' (Z.of_nat i + 1).
Proof.
  intros HB Hb Hi p Hp. exists p. replace (Z.to_nat (Z.of_nat i + 1 - 1)) with i in * by lia. rewrite HB by lia. done.
Qed.

(** The children of a page so far: trees and the records between them. *)
Record btree_children (h : nat) (b0 b : list bytes) (ts : list (subtree * Row)) (cells : list bytes) : Prop := {
  ch_extends : exists extra, b = b0 ++ extra /\ sized extra;
  ch_nonempty : Forall (fun c => 0 < zlen c) cells;
  ch_nodup : NoDup (mjoin ((fun s => sub_pages s.1) <$> ts));
  ch_new : Forall (fun m => zlen b0 < m <= zlen b) (mjoin ((fun s => sub_pages s.1) <$> ts));
  ch_trees : forall B, same_new B b0 b -> Forall (fun s => index_tree ps encoding B h s.1) ts /\
    Forall2 (fun s cell => exists rest, cell = be_bytes 4 (sub_root s.1) ++ rest /\ holds_row ps encoding B false s.2 rest) ts cells
}.

(** One more child. *)
Lemma child_built h b0 b ts cells b2 rows :
  btree_children h b0 b ts cells -> 1 <= zlen b0 -> index_built h (b ++ [zeros ps]) b2 (zlen b + 1) rows ->
  exists t, sub_root t = zlen b + 1 /\ sub_rows t = rows /\ (exists extra, b2 = b ++ extra /\ sized extra) /\
    NoDup (mjoin ((fun s => sub_pages s.1) <$> ts) ++ sub_pages t) /\
    Forall (fun m => zlen b0 < m <= zlen b2) (mjoin ((fun s => sub_pages s.1) <$> ts) ++ sub_pages t) /\
    forall B, same_new B b0 b2 -> same_new B b0 b /\ index_tree ps encoding B h t.
Proof.
  intros [(extra0 & Hb & Hsz0) Hne Hnd Hnew Htrees] H1 (extra & page & t & l & -> & Hsz & Hp & Hroot & Hrows & (Hpages & Hl & Hll) & Htree).
  rewrite set_allocated in *. exists t. split; [done|]. split; [done|]. split; [exists (page :: extra); split; [done|by constructor]|].
  assert (Hb0 : zlen b0 <= zlen b) by (rewrite Hb, zlen_app; pose proof (zlen_nonneg extra0); lia).
  assert (Hb2 : zlen b + 1 <= zlen (b ++ page :: extra)) by (rewrite zlen_app, zlen_cons; pose proof (zlen_nonneg extra); lia).
  rewrite zlen_app, zlen_cons, zlen_nil in Hll. rewrite Forall_forall in Hll, Hnew. split; [|split].
  - rewrite Hpages. apply NoDup_app. split; [done|]. split.
    + intros m Hm Hm'. specialize (Hnew _ Hm). apply elem_of_cons in Hm' as [->|Hm']; [lia|]. specialize (Hll _ Hm'). lia.
    + constructor; [|done]. intros Hin. specialize (Hll _ Hin). lia.
  - apply Forall_forall. intros m Hm. rewrite Hpages in Hm. apply elem_of_app in Hm as [Hm|Hm]; [specialize (Hnew _ Hm); lia|].
    apply elem_of_cons in Hm as [->|Hm]; [lia|]. specialize (Hll _ Hm). lia.
  - intros B HB. rewrite !zlen_length in *. split.
    + eapply same_new_sub; [exact HB|lia|rewrite length_app; lia|]. intros i Hi. symmetry. apply lookup_below. lia.
    + apply Htree.
      * apply (agrees_new _ b0); [done|lia|]. rewrite length_app. simpl. lia.
      * eapply same_new_sub; [exact HB|rewrite length_app; lia|done|done].
Qed.

(** A child and the record after it. *)
Lemma children_snoc h b0 b ts cells b2 rows b3 row payload t :
  btree_children h b0 b ts cells -> sub_root t = zlen b + 1 -> sub_rows t = rows ->
  (exists extra, b2 = b ++ extra /\ sized extra) -> (exists extra, b3 = b2 ++ extra /\ sized extra) ->
  NoDup (mjoin ((fun s => sub_pages s.1) <$> ts) ++ sub_pages t) ->
  Forall (fun m => zlen b0 < m <= zlen b2) (mjoin ((fun s => sub_pages s.1) <$> ts) ++ sub_pages t) ->
  (forall B, same_new B b0 b2 -> same_new B b0 b /\ index_tree ps encoding B h t) ->
  (forall B, same_new B b2 b3 -> holds_row ps encoding B false row payload) ->
  btree_children h b0 b3 (ts ++ [(t, row)]) (cells ++ [be_bytes 4 (zlen b + 1) ++ payload]).
Proof.
  intros [(extra0 & Hb & Hsz0) Hne Hnd Hnew Htrees] Hroot Hrows (e2 & E2 & Hsz2) (e3 & E3 & Hsz3) Hnd' Hnew' Htree Hrow.
  assert (Hpages : mjoin ((fun s => sub_pages s.1) <$> ts ++ [(t, row)]) = mjoin ((fun s => sub_pages s.1) <$> ts) ++ sub_pages t).
  { rewrite fmap_app. apply mjoin_snoc. }
  split.
  - exists (extra0 ++ e2 ++ e3). rewrite E3, E2, Hb, <- !app_assoc. split; [done|]. by repeat (apply sized_app; split).
  - apply Forall_app. split; [done|]. apply Forall_singleton. rewrite zlen_app, zlen_be_bytes. pose proof (zlen_nonneg payload). lia.
  - by rewrite Hpages.
  - rewrite Hpages. eapply Forall_impl; [exact Hnew'|]. cbv beta. intros m Hm. rewrite E3, zlen_app. pose proof (zlen_nonneg e3). lia.
  - intros B HB. assert (HB2 : same_new B b0 b2).
    { eapply same_new_sub; [exact HB|lia|rewrite E3, length_app; lia|]. intros i Hi. rewrite E3. symmetry. apply lookup_below. lia. }
    destruct (Htree B HB2) as [HBb Ht]. destruct (Htrees B HBb) as [T1 T2]. split.
    + apply Forall_app. split; [done|]. by apply Forall_singleton.
    + apply Forall2_app; [done|]. constructor; [|constructor]. exists payload. cbn [fst snd]. rewrite Hroot. split; [done|].
      apply Hrow. eapply same_new_sub; [exact HB|rewrite E2, Hb, !length_app; lia|done|done].
Qed.

(** The page over all children. *)
Lemma index_page_built h b0 b2 ts cells root t b b' :
  btree_children h b0 b ts cells -> writeBtreePage options b2 root 0 0x02 (zlen b + 1) cells = Ok b' ->
  sized b0 -> 2 <= root <= zlen b0 -> zlen b' <= maximumPages ->
  sub_root t = zlen b + 1 -> (exists extra, b2 = b ++ extra /\ sized extra) ->
  NoDup (mjoin ((fun s => sub_pages s.1) <$> ts) ++ sub_pages t) ->
  Forall (fun m => zlen b0 < m <= zlen b2) (mjoin ((fun s => sub_pages s.1) <$> ts) ++ sub_pages t) ->
  (forall B, same_new B b0 b2 -> same_new B b0 b /\ index_tree ps encoding B h t) ->
  index_built (S h) b0 b' root (mjoin ((fun s => sub_rows s.1 ++ [s.2]) <$> ts) ++ sub_rows t).
Proof.
  intros [(extra0 & Hb & Hsz0) Hne Hnd Hnew Htrees] H Hb0 Hr Hm Hroot (e2 & E2 & Hsz2) Hnd' Hnew' Htree.
  pose proof (writeBtreePage_length _ _ _ _ _ _ _ H) as Hl.
  assert (E2' : b2 = b0 ++ extra0 ++ e2) by (by rewrite E2, Hb, app_assoc).
  apply writeBtreePage_ok in H as (_ & page & -> & Hp & Hn); [|rewrite E2' in Hl; rewrite !length_app, ?zlen_length in *; lia|rewrite E2'; by repeat (apply sized_app; split)|by left|done].
  set (l := mjoin ((fun s => sub_pages s.1) <$> ts) ++ sub_pages t) in *.
  exists (extra0 ++ e2), page, (MkSub root (root :: l) (mjoin ((fun s => sub_rows s.1 ++ [s.2]) <$> ts) ++ sub_rows t)), l.
  split; [by rewrite E2'|]. split; [by apply sized_app|]. do 3 (split; [done|]). split; [split; [done|split; [done|]]|].
  { eapply Forall_impl; [exact Hnew'|]. cbv beta. intros m Hmm. rewrite (zlen_length (put_page _ _ _)), Hl, <- zlen_length. done. }
  intros B HB HBn. rewrite E2' in HB, HBn. assert (Hbm : zlen b0 <= maximumPages).
  { rewrite (zlen_length (put_page _ _ _)), Hl, E2', length_app in Hm. rewrite zlen_length. lia. }
  destruct (agrees_page B b0 (extra0 ++ e2) root page) as (q & Hq & Hlq & Hk); [lia|done|done|].
  apply same_new_built in HBn; [|lia]. rewrite <- E2' in HBn. destruct (Htree B HBn) as [HBb Ht]. destruct (Htrees B HBb) as [T1 T2].
  exists ts, t, cells. split; [|done]. exists q. split; [done|]. rewrite Hroot. unfold header_offset in *. cbn [sub_root].
  replace (root =? 1) with false in * by lia. eapply node_same; [|intros k Hk'; symmetry; by apply Hk|exact Hn]. done.
Qed.

Lemma index_children_ok h node b0 root n b rows remaining ts cells b' :
  (forall b child rows b', node b child rows = Ok b' -> grows b b') ->
  (forall b child rows b', node b child rows = Ok b' -> sized b -> zlen b' <= maximumPages -> 2 <= child <= zlen b ->
     Forall index_row_ok rows -> index_built h b b' child (norm_row <$> rows)) ->
  index_children options node n b root rows remaining cells = Ok b' -> zlen b' <= maximumPages ->
  sized b0 -> 2 <= root <= zlen b0 -> remaining = zlen rows - Z.of_nat n + 1 -> Forall index_row_ok rows ->
  btree_children h b0 b ts cells ->
  index_built (S h) b0 b' root (mjoin ((fun s => sub_rows s.1 ++ [s.2]) <$> ts) ++ (norm_row <$> rows)).
Proof.
  intros Hmono Hnode. revert b rows remaining ts cells.
  induction n as [|n IH]; intros b rows remaining ts cells H Hm Hb0 Hr Hrem Hrows Hch; cbn [index_children] in H; [done|].
  unfold allocate in H. set (count := Z.quot remaining (Z.of_nat (S n))) in *.
  destruct ((count <? 0) || (zlen rows <? count)) eqn:Ec; [done|]. bind_in H b2 E.
  pose proof (ch_extends _ _ _ _ _ Hch) as (extra0 & Hb & Hsz0). pose proof (Hmono _ _ _ _ E) as L2. rewrite length_app in L2. cbn [length] in L2.
  assert (L : grows b2 b').
  { destruct n; [apply writeBtreePage_length in H; lia|]. destruct (drop (Z.to_nat count) rows); [done|]. bind_in H x E2. destruct x.
    apply indexCell_mono in E2. apply index_children_mono in H; [lia|done]. }
  assert (Lb : zlen b0 <= zlen b) by (rewrite Hb, zlen_app; pose proof (zlen_nonneg extra0); lia).
  rewrite zlen_length in Hm. rewrite u32_id in E, H by (rewrite zlen_length; lia).
  apply Hnode in E; [|rewrite Hb; repeat (apply sized_app; split); (done || apply sized_zeros)|rewrite zlen_length; lia
    |rewrite zlen_app, zlen_cons, zlen_nil; lia|by apply Forall_take].
  apply (child_built h b0 b ts cells) in E as (t & T1 & T2 & T3 & T4 & T5 & T6); [|done|lia]. destruct n as [|n].
  - replace count with (zlen rows) in T2 by (unfold count; rewrite Z.quot_1_r; lia).
    rewrite take_ge in T2 by (rewrite zlen_length; lia). rewrite <- T2. eapply index_page_built; eauto.
  - destruct (drop (Z.to_nat count) rows) as [|row rest] eqn:Ed; [done|]. bind_in H x E2. destruct x as [b3 payload].
    pose proof (index_children_mono _ _ _ _ _ _ _ _ Hmono H) as L3.
    assert (Hrow : Forall index_row_ok (row :: rest)) by (rewrite <- Ed; by apply Forall_drop).
    apply Forall_cons in Hrow as [[Hid Hv] Hrest].
    apply indexCell_ok in E2 as (_ & e3 & E3 & Hsz3 & Hcell); [|rewrite zlen_length; lia|done..].
    pose proof (children_snoc _ _ _ _ _ _ _ _ (norm_row row) payload t Hch T1 T2 T3 (ex_intro _ e3 (conj E3 Hsz3)) T4 T5 T6 Hcell) as Hch'.
    apply (IH _ _ _ _ _ H) in Hch'; [|by rewrite zlen_length|done|done| |done].
    + rewrite fmap_app in Hch'. change ((fun s : subtree * Row => sub_rows s.1 ++ [s.2]) <$> [(t, norm_row row)]) with [sub_rows t ++ [norm_row row]] in Hch'.
      rewrite mjoin_snoc, T2, <- !app_assoc in Hch'. rewrite <- (take_drop (Z.to_nat count) rows), Ed, fmap_app, fmap_cons. done.
    + assert (zlen rows = count + 1 + zlen rest).
      { rewrite <- (take_drop (Z.to_nat count) rows) at 1. rewrite Ed, zlen_app, zlen_cons, (zlen_length (take _ _)), length_take. rewrite zlen_length in *. lia. }
      lia.
Qed.

Lemma buildIndexNode_ok h b root rows capacity top b' :
  buildIndexNode options h b root rows capacity top = Ok b' -> sized b -> zlen b' <= maximumPages -> 2 <= root <= zlen b ->
  Forall index_row_ok rows -> index_built h b b' root (norm_row <$> rows).
Proof.
  revert b root rows top b'. induction h as [|h IH]; intros b root rows top b' H Hb Hm Hr Hrows; cbn [buildIndexNode] in H.
  - bind_in H x E. destruct x as [b1 cells]. pose proof (writeBtreePage_length _ _ _ _ _ _ _ H) as Hl. rewrite zlen_length in Hm.
    apply index_cells_ok in E as (extra & -> & Hsz & Hne & Hcells); [|rewrite zlen_length; lia|done].
    apply writeBtreePage_ok in H as (_ & page & -> & Hp & Hn); [|rewrite length_app in Hl; rewrite zlen_length in *; lia|by apply sized_app|by left|done].
    exists extra, page, (MkSub root [root] (norm_row <$> rows)), []. do 5 (split; [done|]). split; [by repeat constructor|].
    intros B HB Hnew. rewrite put_page_length, length_app in Hm.
    destruct (agrees_page B b extra root page) as (q & Hq & Hlq & Hk); [lia|rewrite zlen_length; lia|done|].
    apply same_new_built in Hnew; [|lia]. exists cells. split; [|split; [by apply Hcells|done]]. exists q. split; [done|].
    unfold header_offset in *. cbn [sub_root]. replace (root =? 1) with false in * by lia.
    eapply node_same; [|intros k Hk'; symmetry; by apply Hk|exact Hn]. done.
  - cbv zeta in H. match type of H with index_children _ _ (Z.to_nat ?c) _ _ _ _ _ = _ => set (n := c) in H end.
    assert (2 <= n) by (unfold n; destruct (negb top); lia).
    apply (index_children_ok h _ b root _ b rows _ []) in H; [exact H| | |done|done|done|lia|done|].
    + intros. by eapply buildIndexNode_mono.
    + intros. by eapply IH.
    + split; [exists []; split; [by rewrite app_nil_r|constructor]|constructor|constructor|constructor|].
      intros B _. split; constructor.
Qed.

Lemma maximum_cell_ids rows m size : maximum_cell options rows m = Ok size -> Forall (fun row => row_RowID row = None) rows.
Proof.
  revert m. induction rows as [|row rows IH]; intros m H; [constructor|]. cbn [maximum_cell] in H.
  destruct (row_RowID row) eqn:E; [done|]. bind_in H x Ex. constructor; [done|by eapply IH].
Qed.

Lemma index_height_fuel fuel capacity n available h : index_height fuel capacity n available = Ok h -> (h <= fuel)%nat.
Proof.
  revert available h. induction fuel as [|fuel IH]; intros available h H; cbn [index_height] in H;
    (destruct (available <? n); [|injection H as <-; lia]); [done|].
  cbv zeta in H. bind_in H h' E. injection H as <-. apply IH in E. lia.
Qed.

Lemma buildIndex_ok b root rows b' :
  buildIndex options b root rows = Ok b' -> sized b -> zlen b' <= maximumPages -> 2 <= root <= zlen b ->
  Forall table_row_ok rows -> built b b' root (norm_row <$> rows).
Proof.
  intros H Hb Hm Hr Hrows. unfold buildIndex in H. bind_in H width E. cbv zeta in H. destruct (_ <? 2); [done|]. bind_in H h Eh.
  apply index_height_fuel in Eh. eapply index_built_built; [eapply buildIndexNode_ok; eauto|lia|lia].
  apply maximum_cell_ids in E. eapply Forall_impl; [apply Forall_and; exact (conj E Hrows)|]. intros row [Hid [_ Hv]]. by split.
Qed.

Lemma buildTable_mono b root rows schema b' : buildTable options b root rows schema = Ok b' -> grows b b'.
Proof.
  unfold buildTable. intros H. bind_in H rs E. cbv zeta in H. destruct rs as [|[rowid values] [|r2 rs]].
  - apply writeBtreePage_length in H. lia.
  - bind_in H x E2. destruct x. apply tableLeafCell_mono in E2. apply writeBtreePage_length in H. lia.
  - bind_in H x E1. destruct x. bind_in H x E2. destruct x. apply write_leaves_mono in E1. apply raise_levels_mono in E2.
    apply writeTableInterior_length in H. lia.
Qed.

Lemma buildIndex_mono b root rows b' : buildIndex options b root rows = Ok b' -> grows b b'.
Proof.
  unfold buildIndex. intros H. bind_in H width E. cbv zeta in H. destruct (_ <? 2); [done|]. bind_in H h Eh. by eapply buildIndexNode_mono.
Qed.

(** ** Objects *)

Definition rooted (o : Object) : bool := is_table o || is_index o.

Definition build_object b (o : buildObject) : res (list bytes) :=
  if is_table (bd_definition o) then buildTable options b (bd_root o) (ob_Rows (bd_definition o)) false
  else if is_index (bd_definition o) then buildIndex options b (bd_root o) (ob_Rows (bd_definition o))
  else Ok b.

Lemma build_objects_cons b o prepared b' :
  build_objects options b (o :: prepared) = Ok b' -> exists b1, build_object b o = Ok b1 /\ build_objects options b1 prepared = Ok b'.
Proof. cbn [build_objects]. fold (build_object b o). destruct (build_object b o); [eauto|done]. Qed.

Lemma build_object_mono b o b' : build_object b o = Ok b' -> grows b b'.
Proof. unfold build_object. destruct (is_table _); [apply buildTable_mono|]. destruct (is_index _); [apply buildIndex_mono|by intros [= <-]]. Qed.

Lemma build_objects_mono prepared b b' : build_objects options b prepared = Ok b' -> grows b b'.
Proof.
  revert b. induction prepared as [|o prepared IH]; intros b H; [by injection H as <-|].
  apply build_objects_cons in H as (b1 & E & H). apply build_object_mono in E. apply IH in H. lia.
Qed.

Definition roots_of (prepared : list buildObject) : list Z := filter (fun r => r <> 0) (bd_root <$> prepared).

Lemma roots_of_cons o prepared :
  roots_of (o :: prepared) = if decide (bd_root o <> 0) then bd_root o :: roots_of prepared else roots_of prepared.
Proof. unfold roots_of. rewrite fmap_cons, filter_cons. done. Qed.

(** An object as it is prepared. *)
Definition prepared_ok (o : buildObject) : Prop :=
  (rooted (bd_definition o) = true <-> bd_root o <> 0) /\ Forall table_row_ok (ob_Rows (bd_definition o)).

(** The file [B] has a tree of the rows of the object. *)
Definition object_tree (B : list bytes) (o : buildObject) : Prop :=
  bd_root o <> 0 -> exists h t, btree_of B h t /\ sub_root t = bd_root o /\ sub_rows t = norm_row <$> ob_Rows (bd_definition o) /\
    NoDup (sub_pages t) /\ (h <= maximumDepth)%nat.

Lemma build_object_ok b o b' :
  build_object b o = Ok b' -> sized b -> zlen b' <= maximumPages -> prepared_ok o -> (bd_root o <> 0 -> 2 <= bd_root o <= zlen b) ->
  (bd_root o = 0 /\ b' = b) \/ (2 <= bd_root o /\ built b b' (bd_root o) (norm_row <$> ob_Rows (bd_definition o))).
Proof.
  intros H Hb Hm [Hroot Hrows] Hr. unfold build_object, rooted in *. destruct (is_table (bd_definition o)) eqn:Et.
  { right. assert (bd_root o <> 0) by (by apply Hroot). split; [lia|]. eapply buildTable_ok; try done; [|lia].
    unfold header_offset. by replace (bd_root o =? 1) with false by lia. }
  destruct (is_index (bd_definition o)) eqn:Ei.
  { right. assert (bd_root o <> 0) by (by apply Hroot). split; [lia|]. eapply buildIndex_ok; try done. lia. }
  left. injection H as <-. split; [|done]. destruct (decide (bd_root o = 0)) as [|Hn]; [done|]. apply Hroot in Hn. done.
Qed.

Lemma built_sized b b' root rows : built b b' root rows -> sized b -> sized b'.
Proof. intros (_ & extra & page & h & t & -> & Hsz & Hp & _) Hb. apply sized_set; [by apply sized_app|done]. Qed.

Lemma built_other b b' root rows i : built b b' root rows -> (i < length b)%nat -> Z.of_nat i + 1 <> root -> b' !! i = b !! i.
Proof. intros (Hr & extra & page & h & t & -> & _) Hi Hne. rewrite put_page_other by lia. by apply lookup_below. Qed.

Lemma agrees_same B b b' n : agrees B b' n -> b' !! Z.to_nat (n - 1) = b !! Z.to_nat (n - 1) -> agrees B b n.
Proof. intros HB E p Hp. apply HB. by rewrite E. Qed.

Lemma build_objects_ok prepared b b' :
  build_objects options b prepared = Ok b' -> sized b -> zlen b' <= maximumPages ->
  NoDup (roots_of prepared) -> Forall (fun r => 2 <= r <= zlen b) (roots_of prepared) -> Forall prepared_ok prepared ->
  sized b' /\ (forall i, (i < length b)%nat -> Z.of_nat i + 1 ∉ roots_of prepared -> b' !! i = b !! i) /\
  forall B, Forall (agrees B b') (roots_of prepared) -> same_new B b b' -> Forall (object_tree B) prepared.
Proof.
  revert b. induction prepared as [|o prepared IH]; intros b H Hb Hm Hnd Hr Hok.
  { injection H as <-. split; [done|]. split; [done|]. intros. constructor. }
  apply build_objects_cons in H as (b1 & E & H). pose proof (build_object_mono _ _ _ E) as L1. pose proof (build_objects_mono _ _ _ H) as L2.
  apply Forall_cons in Hok as [Ho Hok]. rewrite roots_of_cons in *. rewrite zlen_length in Hm.
  apply build_object_ok in E; [|done|rewrite zlen_length; lia|done|intros Hn; rewrite decide_True in Hr by done; by apply Forall_cons in Hr as [? _]].
  destruct E as [[E0 ->]|[E0 Hbuilt]].
  { rewrite decide_False in * by (intros Hn; apply Hn; done). destruct (IH b H) as (I1 & I2 & I3); [done|by rewrite zlen_length|done..|].
    split; [done|]. split; [done|]. intros B HB Hnew. constructor; [intros Hn; by elim Hn|by apply I3]. }
  rewrite decide_True in * by lia. apply NoDup_cons in Hnd as [Hni Hnd]. apply Forall_cons in Hr as [Hr0 Hr].
  destruct (IH b1 H) as (I1 & I2 & I3); [by eapply built_sized|by rewrite zlen_length|done| |done|].
  { eapply Forall_impl; [exact Hr|]. cbv beta. intros m Hmm. rewrite !zlen_length in *. lia. }
  assert (Hhigh : forall i, (length b <= i)%nat -> Z.of_nat i + 1 ∉ roots_of prepared).
  { intros i Hi Hin. rewrite Forall_forall in Hr. specialize (Hr _ Hin). rewrite zlen_length in Hr. lia. }
  split; [done|]. split.
  { intros i Hi Hin. rewrite I2; [|lia|set_solver]. eapply built_other; [exact Hbuilt|done|set_solver]. }
  intros B HB Hnew. apply Forall_cons in HB as [HB0 HB]. constructor.
  - intros _. destruct Hbuilt as (_ & extra & page & h & t & Eb & _ & _ & Ht1 & Ht2 & Ht3 & Ht4 & Ht5). exists h, t. split; [|done]. apply Ht5.
    + eapply agrees_same; [exact HB0|]. apply I2; [rewrite zlen_length in Hr0; lia|].
      by replace (Z.of_nat (Z.to_nat (bd_root o - 1)) + 1) with (bd_root o) by lia.
    + eapply same_new_sub; [exact Hnew|lia|lia|]. intros i Hi. symmetry. apply I2; [lia|]. apply Hhigh. lia.
  - apply I3; [done|]. eapply same_new_sub; [exact Hnew|lia|lia|done].
Qed.
End writing.
