(* ===== verification/SqliteFile.v ===== *)
(** A database that package [sqlite] writes, read back by it. *)

From S2P Require Import Prelude GoLib Storage Block GoPath SqliteRecord SqliteBuild SqliteRead SqliteTree SqliteWrite.
From stdpp Require Import base numbers list gmap sets strings.

Open Scope Z_scope.
Open Scope trex_scope.

(** ** The file as pages *)

Lemma zlen_mjoin ps (B : list bytes) : Forall (fun p => zlen p = ps) B -> zlen (mjoin B) = ps * zlen B.
Proof.
  induction 1 as [|p B Hp _ IH]; [by rewrite Z.mul_0_r|].
  change (mjoin (p :: B)) with (p ++ mjoin B). rewrite zlen_app, IH, zlen_cons. lia.
Qed.

Lemma sits_mjoin ps (B : list bytes) i p :
  Forall (fun p => zlen p = ps) B -> B !! i = Some p -> sits (mjoin B) (ps * Z.of_nat i) p.
Proof.
  intros HB Hi. rewrite <- (take_drop_middle B i p Hi), join_app. exists (mjoin (take i B)), (mjoin (drop (S i) B)).
  split; [done|]. rewrite (zlen_mjoin ps) by (by apply Forall_take). apply lookup_lt_Some in Hi. unfold zlen. rewrite length_take. lia.
Qed.

Lemma readFullAt_bytes data n off :
  0 <= off -> 0 <= n -> off + n <= zlen data -> zlen data <= MaxInt64 -> readFullAt (bytes_reader data) n off = Ok (slice off n data).
Proof.
  intros. unfold readFullAt. rewrite (ReadFullAt_reader _ (nthb data)) by (done || by apply bytes_reader_ok).
  by rewrite slice_range by lia.
Qed.

(** ** Its header *)

(** Fields one after the other. *)
Fixpoint ordered (lo : Z) (fields : list (Z * bytes)) (hi : Z) : Prop :=
  match fields with
  | [] => lo <= hi
  | f :: fields => lo <= f.1 /\ ordered (f.1 + zlen f.2) fields hi
  end.

Lemma ordered_le lo fields hi : ordered lo fields hi -> lo <= hi.
Proof.
  revert lo. induction fields as [|f fields IH]; intros lo; [done|]. intros [H1 H2]. apply IH in H2. pose proof (zlen_nonneg f.2). lia.
Qed.

Lemma fields_written fields lo hi page :
  ordered lo fields hi -> 0 <= lo -> hi <= zlen page ->
  let page' := foldl (fun page f => splice page f.1 f.2) page fields in
  zlen page' = zlen page /\ (forall k, k < lo \/ hi <= k -> nthb page' k = nthb page k) /\
  Forall (fun f => sits page' f.1 f.2) fields.
Proof.
  revert lo page. induction fields as [|[off d] fields IH]; intros lo page Ho Hlo Hhi; [split_and!; done || constructor|].
  destruct Ho as [H1 H2]. cbn [fst snd] in *. pose proof (ordered_le _ _ _ H2) as Hle. pose proof (zlen_nonneg d).
  assert (L : zlen (splice page off d) = zlen page) by (apply zlen_splice; lia).
  destruct (IH (off + zlen d) (splice page off d)) as (I1 & I2 & I3); [done|lia|lia|]. cbn [foldl fst snd]. split_and!.
  - by rewrite I1.
  - intros k Hk. rewrite I2 by lia. rewrite nthb_splice by lia. apply upd_out. lia.
  - constructor; [|done]. cbn [fst snd]. eapply (sits_before _ _ (off + zlen d) hi); [exact I1|exact I2|lia|]. apply sits_splice; lia.
Qed.

Section file.
Context (options : BuildOptions).
Notation ps := (bo_PageSize options).
Notation encoding := (bo_Encoding options).
Hypothesis Hps : 512 <= ps <= 65536.
Hypothesis Henc : 1 <= encoding <= 3.

Lemma header_ordered count : ordered 0 (database_header_fields options count) 100.
Proof. cbn [database_header_fields ordered fst snd]. rewrite !zlen_be_bytes. change (zlen databaseMagic) with 16. change (zlen [1; 1; 0]) with 3. change (zlen [64; 32; 32]) with 3. lia. Qed.

(** What the reader finds in the header of page 1. *)
Record header_of (page : bytes) (count : Z) : Prop := {
  ho_magic : sits page 0 databaseMagic;
  ho_size : sits page 16 (be_bytes 2 (if ps =? maximumPageSize then 1 else ps));
  ho_reserved : index page 20 = Ok 0;
  ho_count : sits page 28 (be_bytes 4 count);
  ho_encoding : sits page 56 (be_bytes 4 encoding);
  ho_version : sits page 60 (be_bytes 4 (bo_UserVersion options));
  ho_application : sits page 68 (be_bytes 4 (bo_ApplicationID options))
}.

Lemma writeHeader_ok b B : writeHeader options b = Ok B -> sized options b ->
  exists old page, b !! 0%nat = Some old /\ B = put_page b 1 page /\ zlen page = ps /\
    (forall k, 100 <= k -> nthb page k = nthb old k) /\ header_of page (zlen b).
Proof.
  intros H Hb. unfold writeHeader in H. bind_in H old E. apply builder_page_ok in E; [|lia]. change (Z.to_nat (1 - 1)) with 0%nat in E.
  rewrite set_page_put in H by lia. injection H as <-. pose proof (sized_lookup _ _ _ _ Hb E) as Hl.
  destruct (fields_written (database_header_fields options (zlen b)) 0 100 old) as (I1 & I2 & I3); [apply header_ordered|lia|lia|].
  exists old. eexists. split; [done|]. split; [done|]. split; [by rewrite <- Hl; exact I1|]. split; [intros k Hk; apply I2; lia|].
  pose proof (fun i f => Forall_lookup_1 _ _ i f I3) as F. split.
  - exact (F 0%nat _ eq_refl).
  - exact (F 1%nat _ eq_refl).
  - pose proof (F 2%nat _ eq_refl) as F2. cbn [fst snd] in F2. apply sits_cons in F2 as [_ F2]. apply sits_cons in F2 as [_ F2].
    by apply sits_cons in F2 as [F2 _].
  - exact (F 5%nat _ eq_refl).
  - exact (F 8%nat _ eq_refl).
  - exact (F 9%nat _ eq_refl).
  - exact (F 10%nat _ eq_refl).
Qed.

(** ** The objects *)

(** An object with its table name. *)
Definition named (o : Object) : Object :=
  MkObject (ob_Type o) (ob_Name o) (if bool_decide (ob_TableName o = []) then ob_Name o else ob_TableName o) (ob_SQL o) (ob_Rows o).

(** What Go strings hold, and texts and records that the reader's limit of
    2^30 bytes allows. *)
Definition object_ok (o : Object) : Prop :=
  Forall (table_row_ok options) (ob_Rows o) /\
  Forall bytes_ok [ob_Type o; ob_Name o; ob_TableName o; ob_SQL o] /\
  zlen (ob_Type o) + zlen (ob_Name o) + zlen (ob_TableName o) + zlen (ob_SQL o) <= 2 ^ 26.

Lemma schema_row_ok o root : object_ok o -> 0 <= root <= maximumPages -> row_ok options (schema_values (MkBuildObject (named o) root)).
Proof.
  intros (_ & Ht & Hl) Hr. do 4 (apply Forall_cons in Ht as [? Ht]).
  assert (Htn : bytes_ok (ob_TableName (named o)) /\ zlen (ob_TableName (named o)) <= zlen (ob_Name o) + zlen (ob_TableName o)).
  { cbn [named ob_TableName]. pose proof (zlen_nonneg (ob_TableName o)). pose proof (zlen_nonneg (ob_Name o)).
    case_bool_decide; (split; [done|lia]). }
  assert (Hv : Forall value_ok (schema_values (MkBuildObject (named o) root))).
  { do 2 (constructor; [done|]). constructor; [apply Htn|]. constructor; [change (- 2 ^ 63 <= root < 2 ^ 63); lia|].
    constructor; [done|constructor]. }
  split; [done|]. intros payload Hp. apply encodeRecord_length in Hp; [|done].
  cbn [schema_values foldr value_size bd_definition bd_root] in Hp. cbn [named ob_Type ob_Name ob_SQL] in Hp.
  pose proof (zlen_nonneg (ob_SQL o)). pose proof (zlen_nonneg (ob_Type o)).
  pose proof (zlen_nonneg (ob_Name o)). pose proof (zlen_nonneg (ob_TableName o)). lia.
Qed.

Definition prepared_as (o : Object) (p : buildObject) : Prop :=
  bd_definition p = named o /\ (rooted o = true <-> bd_root p <> 0).

Lemma prepare_ok objects b seen b' prepared :
  prepare options objects b seen = Ok (b', prepared) -> zlen b' <= maximumPages ->
  (exists extra, b' = b ++ extra /\ sized options extra) /\ Forall2 prepared_as objects prepared /\
  NoDup (roots_of prepared) /\ Forall (fun r => zlen b < r <= zlen b') (roots_of prepared) /\
  Forall (fun p => 0 <= bd_root p <= maximumPages) prepared.
Proof.
  revert b seen prepared. induction objects as [|o objects IH]; intros b seen prepared H Hm; cbn [prepare] in H.
  { injection H as <- <-. split; [exists []; split; [by rewrite app_nil_r|constructor]|]. repeat split; constructor. }
  destruct (_ || _); [done|]. case_bool_decide; [done|]. cbv zeta in H. bind_in H x E. destruct x as [b1 root]. bind_in H x E2.
  destruct x as [b2 rest]. injection H as -> <-. destruct (IH _ _ _ E2 Hm) as ((extra & Hb & Hsz) & I2 & I3 & I4 & I5).
  assert (Hl : zlen b1 <= zlen b') by (rewrite Hb, zlen_app; pose proof (zlen_nonneg extra); lia).
  fold (rooted o) in E. rewrite roots_of_cons. fold (named o). destruct (rooted o) eqn:Er.
  - injection E as <- <-. unfold allocate in *. rewrite zlen_app, zlen_cons, zlen_nil in *. pose proof (zlen_nonneg b).
    rewrite u32_id by lia. cbn [bd_root]. rewrite decide_True by lia. split; [|split; [|split; [|split]]].
    + exists (zeros ps :: extra). split; [by rewrite Hb, <- app_assoc|]. constructor; [apply zlen_zeros; lia|done].
    + constructor; [|done]. split; [done|]. cbn [bd_root]. rewrite Er. split; [lia|done].
    + constructor; [|done]. intros Hin. rewrite Forall_forall in I4. specialize (I4 _ Hin). lia.
    + constructor; [lia|]. eapply Forall_impl; [exact I4|]. cbv beta. lia.
    + constructor; [cbn; lia|done].
  - assert (b1 = b /\ root = 0) as [-> ->].
    { destruct (_ || _); [|done]. destruct (negb _); [done|]. by injection E as <- <-. }
    cbn [bd_root]. rewrite decide_False by (intros Hn; by elim Hn). split; [by exists extra|]. split; [|split; [done|split; [done|]]].
    + constructor; [|done]. split; [done|]. cbn [bd_root]. rewrite Er. split; [done|intros Hn; by elim Hn].
    + constructor; [cbn; lia|done].
Qed.

Lemma schema_rows_ok objects prepared :
  Forall object_ok objects -> Forall2 prepared_as objects prepared -> Forall (fun p => 0 <= bd_root p <= maximumPages) prepared ->
  zlen objects <= 100000 -> Forall (table_row_ok options) (schema_rows prepared).
Proof.
  intros Hok Hp Hr Hl. apply Forall_lookup. intros i row Hi. unfold schema_rows in Hi. rewrite list_lookup_imap in Hi.
  destruct (prepared !! i) as [p|] eqn:Ep; [|done]. injection Hi as <-.
  destruct (Forall2_lookup_r _ _ _ _ _ Hp Ep) as (o & Eo & Hd & _). pose proof (Forall_lookup_1 _ _ _ _ Hok Eo) as Hv.
  pose proof (Forall_lookup_1 _ _ _ _ Hr Ep) as Hroot. cbv beta in Hroot. split.
  - cbn [row_RowID]. unfold id_ok. apply lookup_lt_Some in Eo. unfold zlen in Hl. lia.
  - cbn [row_Values]. destruct p as [d root]. cbn [bd_definition bd_root] in *. subst d. by apply schema_row_ok.
Qed.

(** A tree of [rows] under page [root]. *)
Definition tree_at (B : list bytes) (root : Z) (rows : list Row) : Prop :=
  exists h t, btree_of options B h t /\ sub_root t = root /\ sub_rows t = rows /\ NoDup (sub_pages t) /\ (h <= maximumDepth)%nat.

Lemma build_pages_ok objects B :
  build_pages options objects = Ok B -> Forall object_ok objects -> zlen objects <= 100000 ->
  exists prepared page1, Forall2 prepared_as objects prepared /\ Forall (fun p => 0 <= bd_root p <= maximumPages) prepared /\
    sized options B /\ zlen B <= maximumPages /\
    B !! 0%nat = Some page1 /\ header_of page1 (zlen B) /\
    tree_at B 1 (norm_row options <$> schema_rows prepared) /\ Forall (object_tree options B) prepared.
Proof.
  intros H Hok Hl. unfold build_pages, allocate in H. bind_in H x E1. destruct x as [b1 prepared]. bind_in H b2 E2.
  destruct (buildTable options b2 1 (schema_rows prepared) true) as [b3|] eqn:E3; [|done].
  destruct (Z.ltb_spec maximumPages (zlen b3)) as [|Hm]; [done|].
  pose proof (build_objects_mono _ _ _ _ E2) as L2. pose proof (buildTable_mono _ _ _ _ _ _ E3) as L3. rewrite zlen_length in Hm.
  apply prepare_ok in E1 as ((e1 & -> & Hs1) & Hp & Hnd & Hr & Hroots); [|rewrite zlen_length; lia].
  assert (Hz1 : sized options ([] ++ [zeros ps])) by (apply Forall_singleton, zlen_zeros; lia).
  change (zlen ([] ++ [zeros ps])) with 1 in Hr. set (b0 := [] ++ [zeros ps]) in *.
  assert (Lb : (1 <= length (b0 ++ e1))%nat) by (rewrite length_app; simpl; lia).
  assert (Hprep : Forall (prepared_ok options) prepared).
  { apply Forall_lookup. intros i p Ep. destruct (Forall2_lookup_r _ _ _ _ _ Hp Ep) as (o & Eo & Hd & Hroot).
    split; rewrite Hd; [exact Hroot|]. by apply (Forall_lookup_1 _ _ _ _ Hok Eo). }
  apply build_objects_ok in E2 as (Hs2 & Hkeep & Htrees);
    [|done|done|by apply sized_app|rewrite zlen_length; lia|done|eapply Forall_impl; [exact Hr|cbv beta; lia]|done].
  apply buildTable_ok in E3; [|done|done|done|by rewrite zlen_length|done|rewrite zlen_length; lia|by eapply schema_rows_ok].
  pose proof (built_sized _ _ _ _ _ E3 Hs2) as Hs3.
  apply writeHeader_ok in H as (old & page1 & Hold & -> & Hpl & Hpk & Hh); [|done].
  assert (H1 : 1 <= 1 <= zlen b3) by (rewrite zlen_length; lia).
  assert (Hat : forall i, (1 <= i)%nat -> put_page b3 1 page1 !! i = b3 !! i) by (intros i Hi; apply put_page_other; lia).
  exists prepared, page1. split; [done|]. split; [done|]. split; [by apply sized_set|]. split; [rewrite zlen_length, put_page_length; lia|].
  split; [by apply (put_page_lookup b3 1 page1)|]. split; [rewrite zlen_length, put_page_length; done|]. split.
  - pose proof E3 as (_ & extra & page & h & t & _ & _ & _ & T1 & T2 & T3 & T4 & T5). exists h, t. split; [|done]. apply T5.
    + intros p Hp1. change (Z.to_nat (1 - 1)) with 0%nat in Hp1. assert (p = old) as -> by congruence. exists page1.
      split; [by apply (put_page_lookup b3 1 page1)|]. split; [|done]. rewrite Hpl. by rewrite (sized_lookup _ _ _ _ Hs3 Hold).
    + intros i Hi. apply Hat. lia.
  - apply Htrees.
    + eapply Forall_impl; [exact Hr|]. cbv beta. intros r Hrr p Hpr. exists p. split; [|done].
      rewrite Hat by lia. rewrite <- Hpr. eapply built_other; [exact E3|rewrite zlen_length in Hrr; lia|lia].
    + intros i Hi. rewrite Hat by lia. eapply built_other; [exact E3|lia|lia].
Qed.

(** ** Opening it *)

Definition file_info (B : list bytes) : Info := MkInfo ps (zlen B) encoding (bo_UserVersion options) (bo_ApplicationID options) 0.

Definition file_database (B : list bytes) (schema : list SchemaEntry) : Database :=
  MkDatabase (bytes_reader (mjoin B)) (file_info B) ps ∅ schema.

Lemma file_length B : sized options B -> zlen B <= maximumPages -> zlen (mjoin B) = ps * zlen B /\ zlen (mjoin B) <= MaxInt64.
Proof. intros Hs Hm. rewrite (zlen_mjoin ps) by done. pose proof (zlen_nonneg B). unfold MaxInt64. nia. Qed.

Lemma file_page B schema n p :
  sized options B -> zlen B <= maximumPages -> page_at B n p -> db_page (file_database B schema) n = Ok p.
Proof.
  intros Hs Hm [Hn Hp]. destruct (file_length B Hs Hm) as [Hl Hmax]. pose proof (sized_lookup _ _ _ _ Hs Hp) as Hz.
  pose proof (sits_mjoin ps B _ _ Hs Hp) as Hat. pose proof (sits_bound _ _ _ Hat) as [_ Hb]. apply lookup_lt_Some in Hp.
  rewrite zlen_length in Hm. unfold db_page. cbn [file_database file_info db_info db_pages db_source in_PageCount in_PageSize].
  replace ((n =? 0) || (zlen B <? n)) with false by (rewrite zlen_length; lia). rewrite lookup_empty.
  rewrite (Z2Nat.id (n - 1)), (Z.mul_comm ps) in Hat, Hb by lia.
  assert (0 <= (n - 1) * ps) by nia. rewrite readFullAt_bytes by lia. f_equal. by apply sits_slice.
Qed.

Lemma sits_header (page rest : bytes) n off l : sits page off l -> off + zlen l <= n -> n <= zlen page -> sits (slice 0 n (page ++ rest)) off l.
Proof.
  intros Hs Hn Hp. apply sits_nthb in Hs as (H1 & H2 & H3). pose proof (zlen_nonneg rest). pose proof (zlen_nonneg l).
  apply sits_nthb. rewrite zlen_slice by (rewrite ?zlen_app; lia). split_and!; [lia..|]. intros i Hi.
  rewrite nthb_slice by (rewrite ?zlen_app; lia). rewrite nthb_app. replace (0 + (off + i) <? zlen page) with true by lia.
  rewrite Z.add_0_l. by apply H3.
Qed.

Lemma sits_take (page : bytes) l : sits page 0 l -> take (length l) page = l.
Proof. intros Hs. rewrite <- (sits_slice _ _ _ _ Hs eq_refl) at 2. unfold slice, zlen. by rewrite Nat2Z.id. Qed.

Definition options_ok : Prop :=
  Z.land ps (ps - 1) = 0 /\ 0 <= bo_UserVersion options < 2 ^ 32 /\ 0 <= bo_ApplicationID options < 2 ^ 32.

Lemma open_header_ok B page1 :
  sized options B -> zlen B <= maximumPages -> B !! 0%nat = Some page1 -> header_of page1 (zlen B) -> options_ok ->
  open_header (bytes_reader (mjoin B)) None = Ok (file_database B []).
Proof.
  intros Hs Hm H1 [M1 M2 M3 M4 M5 M6 M7] (Hland & Huv & Haid). destruct (file_length B Hs Hm) as [Hl Hmax].
  pose proof (sized_lookup _ _ _ _ Hs H1) as Hz. destruct B as [|p B]; [done|]. injection H1 as ->.
  pose proof (zlen_nonneg B) as HB. unfold open_header. rewrite readFullAt_bytes by (rewrite ?Hl, ?zlen_cons in *; nia).
  change (mjoin (page1 :: B)) with (page1 ++ mjoin B). set (header := slice 0 100 (page1 ++ mjoin B)).
  assert (F : forall off l, off + zlen l <= 100 -> sits page1 off l -> sits header off l) by (intros; apply sits_header; done || lia).
  pose proof (fun n v => zlen_be_bytes n v) as Lb.
  pose proof (sits_take header databaseMagic (F 0 databaseMagic ltac:(vm_compute; discriminate) M1)) as Hmagic.
  rewrite bool_decide_true by exact Hmagic. cbn [negb]. apply F in M2; [|rewrite Lb; lia].
  rewrite (be_at_sits 2 2 _ _ _ M2 eq_refl) by (destruct (Z.eqb_spec ps 65536); lia).
  replace (if (if ps =? 65536 then 1 else ps) =? 1 then 65536 else if ps =? 65536 then 1 else ps) with ps
    by (destruct (Z.eqb_spec ps 65536); [done|]; by replace (ps =? 1) with false by lia).
  replace ((ps <? 512) || (65536 <? ps)) with false by lia. rewrite Hland. cbn [negb orb Z.eqb].
  assert (M3' : index header 20 = Ok 0).
  { unfold index in *. change (20 <? 0) with false in *. destruct (page1 !! Z.to_nat 20) as [x|] eqn:E; [|done].
    unfold header, slice. rewrite drop_0, lookup_take_lt, lookup_app_l_Some with (x := x) by (done || lia). done. }
  rewrite M3'. cbn [res_bind]. replace ((ps <=? 0) || (ps - 0 <? 480)) with false by lia.
  apply F in M5; [|rewrite Lb; lia]. rewrite (be_at_sits 4 4 _ _ _ M5 eq_refl) by lia.
  replace ((encoding <? 1) || (3 <? encoding)) with false by lia. rewrite zlen_cons in *.
  apply F in M4; [|rewrite Lb; lia]. rewrite (be_at_sits 4 4 _ _ _ M4 eq_refl) by lia.
  apply F in M6; [|rewrite Lb; lia]. rewrite (be_at_sits 4 4 _ _ _ M6 eq_refl) by lia.
  apply F in M7; [|rewrite Lb; lia]. rewrite (be_at_sits 4 4 _ _ _ M7 eq_refl) by lia.
  cbn [bytes_reader rd_Size]. change (page1 ++ mjoin B) with (mjoin (page1 :: B)). rewrite Hl.
  rewrite Z.mul_comm, Z.quot_mul by lia. replace (1 + zlen B =? 0) with false by lia. rewrite Z.ltb_irrefl.
  replace ((1 + zlen B =? 0) || (1048576 <? 1 + zlen B) || false) with false by lia.
  unfold file_database, file_info. rewrite zlen_cons, Z.sub_0_r. done.
Qed.

(** ** The schema *)

Definition schema_entry_of (p : buildObject) : SchemaEntry :=
  let d := bd_definition p in
  MkSchemaEntry (norm_text encoding (ob_Type d)) (norm_text encoding (ob_Name d)) (norm_text encoding (ob_TableName d))
    (bd_root p) (norm_text encoding (ob_SQL d)).

Lemma schema_entries_ok prepared k :
  Forall (fun p => 0 <= bd_root p <= maximumPages) prepared ->
  schema_entries (norm_row options <$> imap (fun i o => MkRow (Some (Z.of_nat (k + i) + 1)) (schema_values o)) prepared)
  = Ok (schema_entry_of <$> prepared).
Proof.
  intros Hp. revert k. induction Hp as [|p prepared Hr _ IH]; intros k; [done|]. cbn [imap]. rewrite !fmap_cons.
  cbn [schema_entries]. unfold schema_entry at 1. cbn [norm_row row_Values schema_values fmap list_fmap norm_value sqliteUint32].
  replace ((0 <=? bd_root p) && (bd_root p <=? MaxUint32)) with true by (unfold MaxUint32; lia). cbn [res_bind].
  specialize (IH (S k)). rewrite (imap_ext _ (fun i o => MkRow (Some (Z.of_nat (S k + i) + 1)) (schema_values o))).
  - by rewrite IH.
  - intros i o _. cbn. do 3 f_equal. lia.
Qed.

(** A database whose pages are those of [B], with what page 1 and the schema
    say. *)
Definition with_schema (d : Database) (schema : list SchemaEntry) : Database :=
  MkDatabase (db_source d)
    (MkInfo (in_PageSize (db_info d)) (in_PageCount (db_info d)) encoding (bo_UserVersion options) (bo_ApplicationID options)
       (in_WALFrames (db_info d)))
    (db_usable d) (db_pages d) schema.

Definition reads_pages (d : Database) (B : list bytes) : Prop :=
  db_usable d = ps /\ forall n p, page_at B n p -> db_page d n = Ok p.

(** A tree is read in order. *)
Lemma tree_rows d B schema root rows maximum :
  sized options B -> reads_pages d B -> tree_at B root rows -> 0 <= maximum ->
  btreeRows (with_schema d schema) maximum root = Ok (take (Z.to_nat maximum) rows).
Proof.
  intros Hs [Hu Hpages] (h & t & Ht & <- & <- & Hnd & Hh) Hmax. destruct (decide (maximum = 0)) as [->|]; [done|].
  unfold btree_of in Ht. rewrite <- Hu in Ht. apply (btreeRows_tree _ B) with (h := h); cbn [with_schema db_usable db_info in_Encoding]; rewrite ?Hu; try done; [lia|].
  by rewrite Hu in Ht.
Qed.

Lemma Open_ok source wal d objects B :
  open_header source wal = Ok d -> reads_pages d B ->
  build_pages options objects = Ok B -> Forall object_ok objects -> zlen objects <= 100000 -> options_ok ->
  exists prepared, Forall2 prepared_as objects prepared /\ sized options B /\ Forall (object_tree options B) prepared /\
    Open source wal = Ok (with_schema d (schema_entry_of <$> prepared)).
Proof.
  intros Hopen Hpages H Hok Hl Ho. destruct (build_pages_ok _ _ H Hok Hl) as (prepared & page1 & Hp & Hr & Hs & Hm & H1 & Hh & Ht & Htrees).
  exists prepared. do 3 (split; [done|]). unfold Open. rewrite Hopen. cbn [res_bind].
  assert (Hat : page_at B 1 page1) by (split; [lia|done]). rewrite (proj2 Hpages 1 page1 Hat). cbn [res_bind].
  pose proof (sits_take _ _ (ho_magic _ _ Hh)) as Hmagic. rewrite bool_decide_true by exact Hmagic. cbn [negb].
  destruct Ho as (_ & Huv & Haid). rewrite (be_at_sits 4 4 _ _ _ (ho_encoding _ _ Hh) eq_refl) by lia.
  rewrite (be_at_sits 4 4 _ _ _ (ho_version _ _ Hh) eq_refl) by lia. rewrite (be_at_sits 4 4 _ _ _ (ho_application _ _ Hh) eq_refl) by lia.
  replace ((encoding <? 1) || (3 <? encoding)) with false by lia. cbv zeta. fold (with_schema d []).
  rewrite (tree_rows d B [] 1 _ 100000 Hs Hpages Ht) by lia.
  rewrite take_ge. 2: { unfold schema_rows. rewrite length_fmap, length_imap, <- (Forall2_length _ _ _ Hp). unfold zlen in Hl. lia. }
  pose proof (schema_entries_ok prepared 0 Hr) as Hentries. cbn [Nat.add] in Hentries. unfold schema_rows. by rewrite Hentries.
Qed.

(** ** Reading an object back *)

Section lookup.
Context (EqualFold : gostring -> gostring -> bool).

Lemma find_entry_ok schema i entry name :
  schema !! i = Some entry -> EqualFold (se_Name entry) name = true ->
  (forall j e, (j < i)%nat -> schema !! j = Some e -> EqualFold (se_Name e) name = false) ->
  find_entry EqualFold schema name = Some entry.
Proof.
  revert i. induction schema as [|e schema IH]; intros i Hi He Hj; [done|]. cbn [find_entry]. destruct i as [|i].
  - injection Hi as ->. by rewrite He.
  - rewrite (Hj 0%nat e) by (done || lia). apply (IH i); [done|done|]. intros j e' Hlt Hej. apply (Hj (S j)); [lia|done].
Qed.
End lookup.
End file.

(** The schema entry of an object. *)
Definition describes (options : BuildOptions) (o : Object) (e : SchemaEntry) : Prop :=
  let text := norm_text (bo_Encoding options) in
  se_Type e = text (ob_Type o) /\ se_Name e = text (ob_Name o) /\
  se_TableName e = text (if bool_decide (ob_TableName o = []) then ob_Name o else ob_TableName o) /\
  se_SQL e = text (ob_SQL o) /\ (rooted o = true <-> se_RootPage e <> 0).

(** A database gives some objects back: one schema entry for each, in order,
    and their rows, in order, up to the limit; of two names that
    [strings.EqualFold] does not tell apart, the first. *)
Definition reads_back (EqualFold : gostring -> gostring -> bool) (options : BuildOptions) (objects : list Object) (db : Database) : Prop :=
  Forall2 (describes options) objects (db_schema db) /\
  forall i o e name maximum,
    objects !! i = Some o -> db_schema db !! i = Some e -> EqualFold (se_Name e) name = true ->
    (forall j e', (j < i)%nat -> db_schema db !! j = Some e' -> EqualFold (se_Name e') name = false) ->
    0 <= maximum <= 1000000 ->
    Database_Rows EqualFold db name maximum =
      if rooted o then Ok (take (Z.to_nat maximum) (norm_row options <$> ob_Rows o))
      else Err (Errorf "sqlite: schema object %q has no b-tree").

Lemma with_schema_reads EqualFold options d B objects prepared :
  512 <= bo_PageSize options <= 65536 -> sized options B -> reads_pages options d B ->
  Forall2 prepared_as objects prepared -> Forall (object_tree options B) prepared ->
  reads_back EqualFold options objects (with_schema options d (schema_entry_of options <$> prepared)).
Proof.
  intros Hps Hs Hpages Hp Htrees. split.
  { apply Forall2_fmap_r. eapply Forall2_impl; [exact Hp|]. intros o p [Hd Hroot].
    unfold compose, describes, schema_entry_of. rewrite Hd. cbn [se_Type se_Name se_TableName se_SQL se_RootPage]. by repeat (split; [done|]). }
  intros i o e name maximum Hi He Hname Hfirst Hmax. cbn [with_schema db_schema] in He, Hfirst.
  unfold Database_Rows. replace ((maximum <? 0) || (1000000 <? maximum)) with false by lia.
  cbn [with_schema db_schema]. rewrite (find_entry_ok EqualFold (schema_entry_of options <$> prepared) i e name) by done.
  rewrite list_lookup_fmap in He. destruct (prepared !! i) as [p|] eqn:Ep; [|done]. injection He as <-.
  pose proof (Forall2_lookup_lr _ _ _ _ _ _ Hp Hi Ep) as [Hd Hroot]. pose proof (Forall_lookup_1 _ _ _ _ Htrees Ep) as Ht.
  cbn [schema_entry_of se_RootPage]. destruct (Z.eqb_spec (bd_root p) 0) as [E0|E0].
  - destruct (rooted o); [|done]. destruct (proj1 Hroot eq_refl E0).
  - replace (rooted o) with true by (symmetry; by apply Hroot). eapply tree_rows; [done|exact Hs|done| |lia].
    destruct (Ht E0) as (h & t & T1 & T2 & T3 & T4 & T5). exists h, t. rewrite T3, Hd. done.
Qed.

(** What a successful [Build] checked. *)
Lemma Build_options objects opts data :
  Build objects opts = Ok data -> exists B, build_pages (with_defaults opts) objects = Ok B /\ data = mjoin B /\
  512 <= bo_PageSize (with_defaults opts) <= 65536 /\ 1 <= bo_Encoding (with_defaults opts) <= 3 /\
  Z.land (bo_PageSize (with_defaults opts)) (bo_PageSize (with_defaults opts) - 1) = 0.
Proof.
  intros H. unfold Build in H. set (options := with_defaults opts) in *. cbv zeta in H.
  destruct ((bo_PageSize options <? 512) || (65536 <? bo_PageSize options) || _) eqn:Eps; [done|].
  destruct ((bo_Encoding options <? 1) || (3 <? bo_Encoding options)) eqn:Eenc; [done|]. bind_in H B EB. injection H as <-.
  exists B. split; [done|]. split; [done|]. lia.
Qed.

(** What [Build] writes, [Open] and [Rows] read back. *)
Lemma Build_reads_back (EqualFold : gostring -> gostring -> bool) objects opts data :
  let options := with_defaults opts in
  0 <= bo_UserVersion opts < 2 ^ 32 -> 0 <= bo_ApplicationID opts < 2 ^ 32 ->
  Forall (object_ok options) objects -> zlen objects <= 100000 -> Build objects opts = Ok data ->
  exists db, Open (bytes_reader data) None = Ok db /\
    db_info db = MkInfo (bo_PageSize options) (zlen data / bo_PageSize options) (bo_Encoding options)
                   (bo_UserVersion opts) (bo_ApplicationID opts) 0 /\
    reads_back EqualFold options objects db.
Proof.
  intros options Huv Haid Hok Hl H. apply Build_options in H as (B & EB & -> & Hps & Henc & Hland). fold options in EB, Hps, Henc, Hland.
  assert (Ho : options_ok options) by (split; done).
  destruct (build_pages_ok options Hps Henc _ _ EB Hok Hl) as (_ & page1 & _ & _ & Hs & Hm & H1 & Hh & _).
  assert (Hpages : reads_pages options (file_database options B []) B) by (split; [done|intros n p Hp; by apply file_page]).
  destruct (Open_ok options Hps Henc (bytes_reader (mjoin B)) None (file_database options B []) objects B) as (prepared & Hp & _ & Htrees & HO);
    [by eapply open_header_ok|done..|].
  exists (with_schema options (file_database options B []) (schema_entry_of options <$> prepared)). split; [done|]. split.
  - destruct (file_length options Hps B Hs Hm) as [-> _]. cbn [with_schema db_info file_database file_info in_PageSize in_PageCount in_WALFrames].
    by rewrite Z.mul_comm, Z.div_mul by lia.
  - by eapply with_schema_reads.
Qed.
