(* ===== verification/SqliteWal.v ===== *)
(** The write-ahead log of package [sqlite]: a log is written here as the
    file format prescribes, and the reader recovers from it the pages of the
    last committed transaction. *)

From S2P Require Import Prelude GoLib Storage Block GoPath SqliteRecord SqliteBuild SqliteRead SqliteTree SqliteWrite SqliteFile.
From stdpp Require Import base numbers list gmap sets strings.

Open Scope Z_scope.
Open Scope trex_scope.

(** ** Checksums *)

Definition word (bigEndian : bool) (l : bytes) : Z := if bigEndian then be_val l else le_val l.

(** The pairs of 32-bit words of some bytes. *)
Fixpoint words (bigEndian : bool) (data : bytes) : list (Z * Z) :=
  match data with
  | a :: b :: c :: d :: e :: f :: g :: h :: rest =>
      (word bigEndian [a; b; c; d], word bigEndian [e; f; g; h]) :: words bigEndian rest
  | _ => []
  end.

Definition sum_step (s w : Z * Z) : Z * Z :=
  let s0 := (s.1 + w.1 + s.2) mod 2 ^ 32 in (s0, (s.2 + w.2 + s0) mod 2 ^ 32).

Definition wal_sum (bigEndian : bool) (data : bytes) (s : Z * Z) : Z * Z := foldl sum_step s (words bigEndian data).

Lemma wal_word_at bigEndian pre l post : length l = 4%nat -> wal_word bigEndian (zlen pre) (pre ++ l ++ post) = word bigEndian l.
Proof.
  intros Hl. unfold wal_word, word, be_at.
  assert (slice (zlen pre) 4 (pre ++ l ++ post) = l) as ->; [|done].
  apply sits_slice; [by exists pre, post|]. unfold zlen. lia.
Qed.

Lemma walChecksum_loop_sum bigEndian n pre data s :
  length data = (8 * n)%nat -> walChecksum_loop n (pre ++ data) bigEndian (zlen pre) s.1 s.2 = wal_sum bigEndian data s.
Proof.
  revert pre data s. induction n as [|n IH]; intros pre data [s0 s1] Hl; [by destruct data|].
  destruct data as [|a [|b [|c [|d [|e [|f [|g [|h data]]]]]]]]; try (simpl in Hl; lia).
  pose proof (wal_word_at bigEndian pre [a; b; c; d] (e :: f :: g :: h :: data) eq_refl) as W1.
  pose proof (wal_word_at bigEndian (pre ++ [a; b; c; d]) [e; f; g; h] data eq_refl) as W2.
  rewrite <- app_assoc, zlen_app in W2. change (zlen [a; b; c; d]) with 4 in W2. cbn [app] in W1, W2.
  cbn [walChecksum_loop fst snd]. rewrite W1, W2.
  specialize (IH (pre ++ [a; b; c; d; e; f; g; h]) data). rewrite <- app_assoc, zlen_app in IH. cbn [app] in IH.
  change (zlen [a; b; c; d; e; f; g; h]) with 8 in IH. unfold wal_sum. cbn [words foldl].
  match goal with |- _ = foldl sum_step ?s _ => change (foldl sum_step s (words bigEndian data)) with (wal_sum bigEndian data s) end.
  rewrite <- IH by (simpl in Hl; lia). unfold sum_step. cbn [fst snd].
  assert (E : forall x y z, u32 (x + u32 (y + z)) = (x + y + z) mod 2 ^ 32).
  { intros. unfold u32. change 4294967296 with (2 ^ 32). rewrite Zplus_mod_idemp_r. f_equal. lia. }
  by rewrite !E.
Qed.

Lemma walChecksum_sum bigEndian data s0 s1 :
  (8 | zlen data) -> walChecksum data bigEndian s0 s1 = wal_sum bigEndian data (s0, s1).
Proof.
  intros [k Hk]. unfold walChecksum. rewrite Hk, Z.div_mul by lia. pose proof (zlen_nonneg data).
  rewrite <- (walChecksum_loop_sum bigEndian (Z.to_nat k) []); [done|]. unfold zlen in *. lia.
Qed.

Definition u32_pair (s : Z * Z) : Prop := 0 <= s.1 < 2 ^ 32 /\ 0 <= s.2 < 2 ^ 32.

Lemma wal_sum_range bigEndian data s : u32_pair s -> u32_pair (wal_sum bigEndian data s).
Proof.
  unfold wal_sum. revert s. induction (words bigEndian data) as [|w ws IH]; intros s Hs; [done|]. cbn [foldl]. apply IH.
  unfold sum_step. split; cbn [fst snd]; apply Z.mod_pos_bound; lia.
Qed.

(** ** The format of a log *)

Record frame := MkWalFrame { wr_page : Z; wr_commit : Z; wr_data : bytes }.

Section log.
Context (bigEndian : bool) (ps sequence salt1 salt2 : Z).

Definition header_words : bytes :=
  be_bytes 4 (if bigEndian then 0x377f0683 else 0x377f0682) ++ be_bytes 4 3007000 ++ be_bytes 4 ps ++ be_bytes 4 sequence ++
  be_bytes 4 salt1 ++ be_bytes 4 salt2.

Definition header_sum : Z * Z := wal_sum bigEndian header_words (0, 0).

Definition log_header : bytes := header_words ++ be_bytes 4 header_sum.1 ++ be_bytes 4 header_sum.2.

(** The checksum after a frame, from the one before it. *)
Definition frame_sum (f : frame) (s : Z * Z) : Z * Z :=
  wal_sum bigEndian (wr_data f) (wal_sum bigEndian (be_bytes 4 (wr_page f) ++ be_bytes 4 (wr_commit f)) s).

Definition frame_bytes (f : frame) (s : Z * Z) : bytes :=
  be_bytes 4 (wr_page f) ++ be_bytes 4 (wr_commit f) ++ be_bytes 4 salt1 ++ be_bytes 4 salt2 ++
  be_bytes 4 (frame_sum f s).1 ++ be_bytes 4 (frame_sum f s).2 ++ wr_data f.

Fixpoint frames_bytes (fs : list frame) (s : Z * Z) : bytes :=
  match fs with
  | [] => []
  | f :: fs => frame_bytes f s ++ frames_bytes fs (frame_sum f s)
  end.

Definition frames_sum (fs : list frame) (s : Z * Z) : Z * Z := foldl (fun s f => frame_sum f s) s fs.

(** What follows the frames: too little for a frame, or what another run of
    the log left, or a frame that was not written to its end. *)
Definition not_a_frame (s : Z * Z) (tail : bytes) : Prop :=
  let slot := slice 0 (24 + ps) tail in
  zlen tail < 24 + ps \/ be_at 4 8 slot <> salt1 \/ be_at 4 12 slot <> salt2 \/
  wal_sum bigEndian (drop 24 slot) (wal_sum bigEndian (slice 0 8 slot) s) <> (be_at 4 16 slot, be_at 4 20 slot).

Definition log_bytes (fs : list frame) (tail : bytes) : bytes := log_header ++ frames_bytes fs header_sum ++ tail.

Definition wal_frame_ok (f : frame) : Prop := 1 <= wr_page f <= maximumPages /\ 0 <= wr_commit f < 2 ^ 32 /\ zlen (wr_data f) = ps.

(** The frames up to the last that commits, and the number of pages it
    sets. *)
Fixpoint committed (fs : list frame) : option (list frame * Z) :=
  match fs with
  | [] => None
  | f :: fs =>
      match committed fs with
      | Some (pre, count) => Some (f :: pre, count)
      | None => if wr_commit f =? 0 then None else Some ([f], wr_commit f)
      end
  end.

Lemma committed_prefix fs pre count : committed fs = Some (pre, count) -> exists post, fs = pre ++ post /\ 1 <= zlen pre /\ count <> 0.
Proof.
  revert pre. induction fs as [|f fs IH]; intros pre H; [done|]. cbn [committed] in H. destruct (committed fs) as [[pre' count']|] eqn:E.
  - injection H as <- <-. destruct (IH pre' eq_refl) as (post & -> & Hl & Hc). exists post. split; [done|]. rewrite zlen_cons. lia.
  - destruct (Z.eqb_spec (wr_commit f) 0); [done|]. injection H as <- <-. by exists fs.
Qed.

(** ** Reading it *)

Hypothesis Hps : 0 < ps < 2 ^ 32.
Hypothesis H8 : (8 | ps).
Hypothesis Hsalts : u32_pair (salt1, salt2).

Lemma frame_fields f s : wal_frame_ok f -> u32_pair s ->
  zlen (frame_bytes f s) = 24 + ps /\ slice 0 8 (frame_bytes f s) = be_bytes 4 (wr_page f) ++ be_bytes 4 (wr_commit f) /\
  drop 24 (frame_bytes f s) = wr_data f /\
  be_at 4 0 (frame_bytes f s) = wr_page f /\ be_at 4 4 (frame_bytes f s) = wr_commit f /\
  be_at 4 8 (frame_bytes f s) = salt1 /\ be_at 4 12 (frame_bytes f s) = salt2 /\
  be_at 4 16 (frame_bytes f s) = (frame_sum f s).1 /\ be_at 4 20 (frame_bytes f s) = (frame_sum f s).2.
Proof.
  intros (Hp & Hc & Hd) Hs. assert (Hfs : u32_pair (frame_sum f s)) by (by repeat apply wal_sum_range).
  destruct Hfs as [Hf1 Hf2], Hsalts as [Hs1 Hs2]. cbn [fst snd] in Hs1, Hs2. pose proof (fun v => zlen_be_bytes 4 v) as Lb.
  change (Z.of_nat 4) with 4 in Lb. pose proof (sits_all (frame_bytes f s)) as S0. unfold frame_bytes at 2 in S0.
  apply sits_app in S0 as [S0 S1]. apply sits_app in S1 as [S1 S2]. apply sits_app in S2 as [S2 S3]. apply sits_app in S3 as [S3 S4].
  apply sits_app in S4 as [S4 S5]. apply sits_app in S5 as [S5 S6]. rewrite !Lb in *. cbn [Z.add Pos.add Pos.succ Pos.add_carry] in *.
  split_and!.
  - unfold frame_bytes. rewrite !zlen_app, !Lb. lia.
  - apply sits_slice; [|by rewrite zlen_app, !Lb]. unfold frame_bytes. rewrite app_assoc. apply sits_prefix.
  - unfold frame_bytes. rewrite !app_assoc. apply drop_app_length'. rewrite !length_app.
    assert (Ln : forall v, length (be_bytes 4 v) = 4%nat) by (intros v; specialize (Lb v); unfold zlen in Lb; lia). by rewrite !Ln.
  - by apply (be_at_sits 4 4 _ _ _ S0 eq_refl); lia.
  - by apply (be_at_sits 4 4 _ _ _ S1 eq_refl).
  - by apply (be_at_sits 4 4 _ _ _ S2 eq_refl).
  - by apply (be_at_sits 4 4 _ _ _ S3 eq_refl).
  - by apply (be_at_sits 4 4 _ _ _ S4 eq_refl).
  - by apply (be_at_sits 4 4 _ _ _ S5 eq_refl).
Qed.

Definition to_frame (f : frame) : walFrame := MkFrame (wr_page f) (wr_data f).

(** What the loop knows after the frames. *)
Definition after_frames (fs : list frame) (i c cp : Z) : Z * Z :=
  match committed fs with Some (pre, count) => (i + zlen pre, count) | None => (c, cp) end.

Lemma after_frames_cons f fs i c cp :
  after_frames (f :: fs) i c cp =
  let '(c', cp') := if negb (wr_commit f =? 0) then (i + 1, wr_commit f) else (c, cp) in after_frames fs (i + 1) c' cp'.
Proof.
  unfold after_frames. cbn [committed]. destruct (committed fs) as [[pre count]|].
  - destruct (negb (wr_commit f =? 0)); cbn; rewrite zlen_cons; f_equal; lia.
  - by destruct (wr_commit f =? 0).
Qed.

Lemma wal_frames_tail n pre tail i s frames c cp :
  zlen pre = 32 + i * (24 + ps) -> 0 <= i -> n = Z.to_nat (zlen tail / (24 + ps)) -> not_a_frame s tail ->
  zlen (pre ++ tail) <= MaxInt64 ->
  wal_frames n (bytes_reader (pre ++ tail)) ps bigEndian salt1 salt2 i s.1 s.2 frames c cp = Ok (frames, c, cp).
Proof.
  intros Hpre Hi Hn Ht Hmax. destruct n as [|n]; [done|]. pose proof (zlen_nonneg tail). pose proof (zlen_nonneg pre).
  assert (Hlen : 24 + ps <= zlen tail).
  { destruct (decide (24 + ps <= zlen tail)); [done|]. rewrite Z.div_small in Hn by lia. done. }
  cbn [wal_frames]. rewrite zlen_app in Hmax. rewrite readFullAt_bytes by (rewrite ?zlen_app; nia).
  set (slot := slice 0 (24 + ps) tail) in *.
  assert (Hslot : slice (32 + i * (24 + ps)) (24 + ps) (pre ++ tail) = slot).
  { unfold slot, slice. rewrite <- Hpre. unfold zlen at 1. rewrite Nat2Z.id, drop_app_length. done. }
  rewrite Hslot. assert (Lslot : zlen slot = 24 + ps) by (apply zlen_slice; lia).
  destruct ((negb (be_at 4 8 slot =? salt1)) || negb (be_at 4 12 slot =? salt2)) eqn:Esalt; [done|].
  unfold not_a_frame in Ht. fold slot in Ht. cbv zeta in Ht.
  assert (L8 : zlen (slice 0 8 slot) = 8) by (apply zlen_slice; lia).
  assert (Ld : zlen (drop 24 slot) = ps) by (unfold zlen in *; rewrite length_drop; lia).
  rewrite walChecksum_sum by (rewrite L8; by exists 1). rewrite <- surjective_pairing.
  destruct (wal_sum bigEndian (slice 0 8 slot) s) as [n0 n1] eqn:E1. rewrite walChecksum_sum by (by rewrite Ld).
  destruct (wal_sum bigEndian (drop 24 slot) (n0, n1)) as [m0 m1] eqn:E2.
  destruct (negb (m0 =? be_at 4 16 slot) || negb (m1 =? be_at 4 20 slot)) eqn:Esum; [done|].
  exfalso. destruct Ht as [Ht|[Ht|[Ht|Ht]]]; [lia..|]. apply Ht. f_equal; lia.
Qed.

Lemma wal_frames_ok fs pre tail i s frames c cp :
  zlen pre = 32 + i * (24 + ps) -> 0 <= i -> Forall wal_frame_ok fs -> u32_pair s -> not_a_frame (frames_sum fs s) tail ->
  zlen (pre ++ frames_bytes fs s ++ tail) <= MaxInt64 ->
  wal_frames (length fs + Z.to_nat (zlen tail / (24 + ps))) (bytes_reader (pre ++ frames_bytes fs s ++ tail)) ps bigEndian
    salt1 salt2 i s.1 s.2 frames c cp =
  Ok (frames ++ (to_frame <$> fs), (after_frames fs i c cp).1, (after_frames fs i c cp).2).
Proof.
  revert pre i s frames c cp. induction fs as [|f fs IH]; intros pre i s frames c cp Hpre Hi Hfs Hs Ht Hmax.
  { rewrite app_nil_r. cbn [frames_bytes app length Nat.add]. by apply wal_frames_tail. }
  apply Forall_cons in Hfs as [Hf Hfs]. destruct (frame_fields f s Hf Hs) as (Fl & F8 & Fd & F0 & F4 & Fs1 & Fs2 & Fc0 & Fc1).
  cbn [frames_bytes length Nat.add wal_frames] in *. rewrite <- app_assoc in *.
  set (rest := frames_bytes fs (frame_sum f s) ++ tail) in *. pose proof (zlen_nonneg rest).
  assert (Hsit : sits (pre ++ frame_bytes f s ++ rest) (32 + i * (24 + ps)) (frame_bytes f s)) by (by exists pre, rest).
  pose proof (sits_bound _ _ _ Hsit) as [Hb1 Hb2]. rewrite readFullAt_bytes by lia. rewrite (sits_slice _ _ _ _ Hsit) by done.
  rewrite Fs1, Fs2, !Z.eqb_refl. cbn [negb orb]. destruct Hf as (Hp & Hc & Hd).
  rewrite F8, walChecksum_sum by (rewrite zlen_app, !zlen_be_bytes; by exists 1). rewrite <- surjective_pairing.
  destruct (wal_sum bigEndian (be_bytes 4 (wr_page f) ++ be_bytes 4 (wr_commit f)) s) as [n0 n1] eqn:E1.
  rewrite Fd, walChecksum_sum by (by rewrite Hd).
  assert (E2 : wal_sum bigEndian (wr_data f) (n0, n1) = frame_sum f s) by (unfold frame_sum; by rewrite E1).
  rewrite E2, Fc0, Fc1. destruct (frame_sum f s) as [m0 m1] eqn:E3. cbn [fst snd]. rewrite !Z.eqb_refl. cbn [negb orb].
  rewrite F0, F4. replace ((wr_page f =? 0) || (1048576 <? wr_page f)) with false by lia.
  rewrite after_frames_cons. destruct (if negb (wr_commit f =? 0) then (i + 1, wr_commit f) else (c, cp)) as [c' cp'].
  specialize (IH (pre ++ frame_bytes f s) (i + 1) (m0, m1) (frames ++ [MkFrame (wr_page f) (wr_data f)]) c' cp').
  rewrite <- !app_assoc in IH. cbn [fst snd] in IH. unfold rest in *.
  rewrite ?E3. rewrite IH; [done|rewrite zlen_app; lia|lia|done| |by rewrite <- E3|done].
  rewrite <- E3. by repeat apply wal_sum_range.
Qed.

Lemma log_header_fields :
  zlen log_header = 32 /\ slice 0 24 log_header = header_words /\
  be_at 4 0 log_header = (if bigEndian then 0x377f0683 else 0x377f0682) /\ be_at 4 4 log_header = 3007000 /\ be_at 4 8 log_header = ps /\
  be_at 4 16 log_header = salt1 /\ be_at 4 20 log_header = salt2 /\
  be_at 4 24 log_header = header_sum.1 /\ be_at 4 28 log_header = header_sum.2.
Proof.
  assert (Hhs : u32_pair header_sum) by (apply wal_sum_range; done).
  destruct Hhs as [Hh1 Hh2], Hsalts as [Hs1 Hs2]. cbn [fst snd] in Hs1, Hs2. pose proof (fun v => zlen_be_bytes 4 v) as Lb.
  change (Z.of_nat 4) with 4 in Lb. assert (Lw : zlen header_words = 24) by (unfold header_words; rewrite !zlen_app, !Lb; lia).
  pose proof (sits_all log_header) as S0. unfold log_header at 2 in S0. apply sits_app in S0 as [Sw S6]. rewrite Lw in S6. unfold header_words in Sw.
  apply sits_app in Sw as [S0 S1]. apply sits_app in S1 as [S1 S2]. apply sits_app in S2 as [S2 S3]. apply sits_app in S3 as [S3 S4].
  apply sits_app in S4 as [S4 S5]. apply sits_app in S6 as [S6 S7]. rewrite !Lb in *. cbn [Z.add Pos.add Pos.succ Pos.add_carry] in *.
  split_and!.
  - unfold log_header. rewrite !zlen_app, !Lb, Lw. lia.
  - apply sits_slice; [apply sits_prefix|by rewrite Lw].
  - apply (be_at_sits 4 4 _ _ _ S0 eq_refl). destruct bigEndian; lia.
  - apply (be_at_sits 4 4 _ _ _ S1 eq_refl). lia.
  - apply (be_at_sits 4 4 _ _ _ S2 eq_refl). lia.
  - by apply (be_at_sits 4 4 _ _ _ S4 eq_refl).
  - by apply (be_at_sits 4 4 _ _ _ S5 eq_refl).
  - by apply (be_at_sits 4 4 _ _ _ S6 eq_refl).
  - by apply (be_at_sits 4 4 _ _ _ S7 eq_refl).
Qed.

Lemma frames_bytes_length fs s : Forall wal_frame_ok fs -> u32_pair s -> zlen (frames_bytes fs s) = zlen fs * (24 + ps).
Proof.
  intros Hfs. revert s. induction Hfs as [|f fs Hf _ IH]; intros s Hs; [done|]. cbn [frames_bytes].
  destruct (frame_fields f s Hf Hs) as (Fl & _). rewrite zlen_app, zlen_cons, Fl, IH; [lia|]. by repeat apply wal_sum_range.
Qed.

(** The frames up to the last commit, and its page count. *)
Lemma parseWAL_ok fs tail :
  Forall wal_frame_ok fs -> not_a_frame (frames_sum fs header_sum) tail -> zlen (log_bytes fs tail) <= MaxInt64 ->
  parseWAL (bytes_reader (log_bytes fs tail)) ps =
  Ok (match committed fs with Some (pre, count) => (to_frame <$> pre, count) | None => ([], 0) end).
Proof.
  intros Hfs Ht Hmax. destruct log_header_fields as (Ll & Lw & L0 & L4 & L8 & L16 & L20 & L24 & L28).
  assert (Hhs : u32_pair header_sum) by (apply wal_sum_range; done). unfold log_bytes in *.
  pose proof (zlen_nonneg tail). pose proof (frames_bytes_length fs header_sum Hfs Hhs) as Lf. pose proof (zlen_nonneg fs).
  assert (Lt : zlen (log_header ++ frames_bytes fs header_sum ++ tail) = 32 + zlen fs * (24 + ps) + zlen tail) by (rewrite !zlen_app; lia).
  unfold parseWAL. cbn [bytes_reader rd_Size]. fold (bytes_reader (log_header ++ frames_bytes fs header_sum ++ tail)). rewrite Lt.
  replace (32 + zlen fs * (24 + ps) + zlen tail <? 32) with false by nia. rewrite readFullAt_bytes by (rewrite ?Lt; nia).
  rewrite (sits_slice _ 0 log_header 32 (sits_prefix _ _)) by done. rewrite L0, L4, L8, L16, L20, L24, L28.
  replace (negb ((if bigEndian then 0x377f0683 else 0x377f0682) =? 0x377f0682) && negb ((if bigEndian then 0x377f0683 else 0x377f0682) =? 0x377f0683))
    with false by (by destruct bigEndian).
  replace ((if bigEndian then 0x377f0683 else 0x377f0682) =? 0x377f0683) with bigEndian by (by destruct bigEndian).
  rewrite Z.eqb_refl. cbn [negb Z.eqb Pos.eqb]. rewrite Lw, walChecksum_sum.
  2: { unfold header_words. rewrite !zlen_app, !zlen_be_bytes. by exists 3. }
  fold header_sum. rewrite (surjective_pairing header_sum) at 1. rewrite !Z.eqb_refl. cbn [negb orb].
  replace ((32 + zlen fs * (24 + ps) + zlen tail - 32) / (24 + ps)) with (zlen fs + zlen tail / (24 + ps)).
  2: { replace (32 + zlen fs * (24 + ps) + zlen tail - 32) with (zlen fs * (24 + ps) + zlen tail) by lia. rewrite Z.div_add_l by lia. done. }
  assert (0 <= zlen tail / (24 + ps)) by (apply Z.div_pos; lia). rewrite Z2Nat.inj_add by lia. unfold zlen at 1. rewrite Nat2Z.id.
  rewrite (wal_frames_ok fs log_header tail 0 header_sum [] 0 0) by (done || lia). cbn [res_bind app]. unfold after_frames.
  destruct (committed fs) as [[pre count]|] eqn:Ec; cbn [fst snd].
  - destruct (committed_prefix fs pre count Ec) as (post & -> & Hl & _). replace (0 + zlen pre =? 0) with false by lia.
    rewrite fmap_app, take_app_length'; [done|]. rewrite length_fmap. unfold zlen. lia.
  - done.
Qed.
End log.

(** ** Recovery *)

(** A page of the committed state: its latest image among the frames, or else
    the one of the database file. *)
Definition latest (fs : list frame) (n : Z) : option bytes := wr_data <$> last (filter (fun f => wr_page f = n) fs).

Definition wal_page (base : bytes) (ps : Z) (fs : list frame) (n : Z) : bytes :=
  match latest fs n with Some data => data | None => slice ((n - 1) * ps) ps base end.

Lemma latest_snoc fs f n : latest (fs ++ [f]) n = if decide (wr_page f = n) then Some (wr_data f) else latest fs n.
Proof.
  unfold latest. rewrite filter_app, filter_cons, filter_nil. case_decide; [by rewrite last_snoc|by rewrite app_nil_r].
Qed.

Lemma apply_frames_lookup count fs n : n <= count -> apply_frames count (to_frame <$> fs) !! n = latest fs n.
Proof.
  intros Hn. induction fs as [|f fs IH] using rev_ind; [done|]. rewrite fmap_app, latest_snoc. unfold apply_frames in *.
  rewrite foldl_app. change (to_frame <$> [f]) with [to_frame f]. cbn [foldl to_frame wf_pageNumber wf_data].
  destruct (Z.leb_spec (wr_page f) count) as [Hc|Hc]; case_decide as E.
  - subst n. apply lookup_insert_eq.
  - rewrite lookup_insert_ne by done. apply IH.
  - lia.
  - apply IH.
Qed.

Lemma open_header_wal source log d0 frames count :
  open_header source None = Ok d0 -> rd_Size log <> 0 -> parseWAL log (in_PageSize (db_info d0)) = Ok (frames, count) ->
  1 <= count <= maximumPages ->
  open_header source (Some log) =
  Ok (MkDatabase (db_source d0)
        (MkInfo (in_PageSize (db_info d0)) count (in_Encoding (db_info d0)) (in_UserVersion (db_info d0))
           (in_ApplicationID (db_info d0)) (zlen frames))
        (db_usable d0) (apply_frames count frames) []) /\ db_source d0 = source.
Proof.
  intros H Hsz Hw Hc. unfold open_header in *. destruct (readFullAt source 100 0) as [header|]; [|done].
  destruct (negb _); [done|]. cbv zeta in *. set (ps := if be_at 2 16 header =? 1 then 65536 else be_at 2 16 header) in *.
  destruct (_ || _); [done|]. bind_in H reserved E. rewrite E. cbn [res_bind]. destruct (_ || _); [done|].
  destruct (_ || _); [done|]. destruct (_ || _); [done|]. injection H as <-. cbn [db_info in_PageSize] in Hw.
  replace (rd_Size log =? 0) with false by lia. rewrite Hw. cbn [res_bind].
  replace (count =? 0) with false by lia. replace (1048576 <? count) with false by lia. done.
Qed.

Lemma page_size_8 ps : 8 <= ps -> Z.land ps (ps - 1) = 0 -> (8 | ps).
Proof.
  intros H8 Hl. apply Z.mod_divide; [lia|]. destruct (decide (ps mod 8 = 0)) as [|Hr]; [done|]. exfalso.
  assert (Hs : Z.shiftr (Z.land ps (ps - 1)) 3 = 0) by (by rewrite Hl). rewrite Z.shiftr_land, !Z.shiftr_div_pow2 in Hs by lia.
  change (2 ^ 3) with 8 in Hs. replace ((ps - 1) / 8) with (ps / 8) in Hs by (Z.to_euclidean_division_equations; lia).
  rewrite Z.land_diag in Hs. Z.to_euclidean_division_equations. lia.
Qed.

(** C36. A database is recovered from its log.  A log holds any frames in the
    format of SQLite's write-ahead log, followed by anything that is not its
    next frame: nothing, part of a frame, a frame of an earlier run with
    other salts, or one that its checksum does not match.  Then [Open] of a
    database file with that log has the pages of the last committed
    transaction -- the latest image before the last commit record, else the
    page of the file; no frame after that commit counts -- and so, if these
    are the pages of a database that [Build] made, gives back its objects. *)
Theorem sqlite_wal_recovery (EqualFold : gostring -> gostring -> bool) objects opts data base d0
    bigEndian sequence salt1 salt2 fs pre tail :
  let options := with_defaults opts in
  let ps := bo_PageSize options in
  let log := log_bytes bigEndian ps sequence salt1 salt2 fs tail in
  0 <= bo_UserVersion opts < 2 ^ 32 -> 0 <= bo_ApplicationID opts < 2 ^ 32 ->
  Forall (object_ok options) objects -> zlen objects <= 100000 -> Build objects opts = Ok data ->
  open_header (bytes_reader base) None = Ok d0 -> in_PageSize (db_info d0) = ps -> db_usable d0 = ps -> zlen base <= MaxInt64 ->
  u32_pair (salt1, salt2) -> Forall (wal_frame_ok ps) fs ->
  not_a_frame bigEndian ps salt1 salt2 (frames_sum bigEndian fs (header_sum bigEndian ps sequence salt1 salt2)) tail ->
  zlen log <= MaxInt64 ->
  committed fs = Some (pre, zlen data / ps) ->
  (forall n, 1 <= n <= zlen data / ps -> slice ((n - 1) * ps) ps data = wal_page base ps pre n) ->
  exists db, Open (bytes_reader base) (Some (bytes_reader log)) = Ok db /\
    db_info db = MkInfo ps (zlen data / ps) (bo_Encoding options) (bo_UserVersion opts) (bo_ApplicationID opts) (zlen pre) /\
    reads_back EqualFold options objects db.
Proof.
  intros options ps log Huv Haid Hok Hl H H0 Hps0 Hu0 Hbase Hsalts Hfs Htail Hlog Hc Hpages.
  apply Build_options in H as (B & EB & -> & Hps & Henc & Hland). fold options in EB, Hps, Henc, Hland. fold ps in Hps, Hland.
  assert (Ho : options_ok options) by (split; done). assert (H8 : (8 | ps)) by (apply page_size_8; [lia|done]).
  destruct (build_pages_ok options Hps Henc _ _ EB Hok Hl) as (_ & page1 & _ & _ & Hs & Hm & H1 & Hh & _).
  destruct (file_length options Hps B Hs Hm) as [Ez _]. fold ps in Ez. assert (Ec : zlen (mjoin B) / ps = zlen B) by (by rewrite Ez, Z.mul_comm, Z.div_mul by lia).
  rewrite Ec in *. assert (HB : 1 <= zlen B) by (apply lookup_lt_Some in H1; unfold zlen; lia).
  pose proof (parseWAL_ok bigEndian ps sequence salt1 salt2 ltac:(lia) H8 Hsalts fs tail Hfs Htail Hlog) as Hw.
  rewrite Hc in Hw. fold log in Hw. assert (Hw' : parseWAL (bytes_reader log) (in_PageSize (db_info d0)) = Ok (to_frame <$> pre, zlen B)) by (by rewrite Hps0).
  destruct (fun Hsz => open_header_wal _ (bytes_reader log) _ _ _ H0 Hsz Hw') as [Hopen Hsrc].
  { cbn [bytes_reader rd_Size]. unfold log, log_bytes. rewrite zlen_app.
    destruct (log_header_fields bigEndian ps sequence salt1 salt2) as (-> & _); [lia|done..|].
    pose proof (zlen_nonneg (frames_bytes bigEndian salt1 salt2 fs (header_sum bigEndian ps sequence salt1 salt2) ++ tail)). lia. }
  { lia. }
  set (d := MkDatabase _ _ _ _ _) in Hopen. assert (Hread : reads_pages options d B).
  { split; [exact Hu0|]. intros n p [Hn Hp]. pose proof (sized_lookup _ _ _ _ Hs Hp) as Hz. fold ps in Hz. apply lookup_lt_Some in Hp as Hlt.
    assert (Hn' : 1 <= n <= zlen B) by (unfold zlen; lia). unfold db_page. cbn [d db_info in_PageCount in_PageSize db_pages db_source].
    replace ((n =? 0) || (zlen B <? n)) with false by lia. rewrite apply_frames_lookup by lia.
    pose proof (sits_mjoin ps B _ _ Hs Hp) as Hat. rewrite Z2Nat.id, Z.mul_comm in Hat by lia. pose proof (sits_slice _ _ _ ps Hat ltac:(lia)) as Hsl.
    rewrite Hpages in Hsl by lia. unfold wal_page in Hsl. destruct (latest pre n) as [image|]; [by rewrite Hsl|].
    rewrite Hps0, Hsrc. assert (0 <= (n - 1) * ps) by nia. rewrite readFullAt_bytes; [by rewrite Hsl|lia..| |done].
    rewrite <- Hsl in Hz. unfold slice, zlen in *. rewrite length_take, length_drop in Hz. lia. }
  destruct (Open_ok options Hps Henc _ _ d objects B Hopen Hread) as (prepared & Hp & _ & Htrees & HO); [done..|].
  exists (with_schema options d (schema_entry_of options <$> prepared)). split; [done|]. split; [|by eapply with_schema_reads].
  cbn [with_schema d db_info in_PageSize in_PageCount in_WALFrames]. by rewrite Hps0, zlen_fmap.
Qed.

Definition wal_opts : BuildOptions := MkBuildOptions 512 1 0 0.

Definition wal_objects : list Object :=
  [MkObject (gostr "table") (gostr "t") [] (gostr "CREATE TABLE t(a)") [MkRow (Some 1) [VInt 5]]].

Definition built_bytes (objects : list Object) : bytes :=
  match Build objects wal_opts with Ok data => data | Err _ => [] end.

(** An empty database, and a log that commits the table after a frame that
    it replaces and before one that is not committed. *)
Definition wal_log : list frame :=
  [MkWalFrame 1 0 (zeros 512); MkWalFrame 2 0 (slice 512 512 (built_bytes wal_objects));
   MkWalFrame 1 2 (slice 0 512 (built_bytes wal_objects)); MkWalFrame 2 0 (zeros 512)].

Lemma sqlite_wal_recovery_witness :
  exists db, Open (bytes_reader (built_bytes [])) (Some (bytes_reader (log_bytes true 512 9 3 4 wal_log [1; 2; 3]))) = Ok db /\
    Database_Rows (fun a b => bool_decide (a = b)) db (gostr "t") 10 = Ok [MkRow (Some 1) [VInt 5]].
Proof.
  assert (Hok : Forall (object_ok (with_defaults wal_opts)) wal_objects).
  { constructor; [|constructor]. split; [|split].
    - constructor; [|constructor]. split; [unfold id_ok; cbn; lia|]. split; [constructor; [cbn; lia|constructor]|].
      intros payload Hp. vm_compute in Hp. injection Hp as <-. vm_compute. discriminate.
    - repeat constructor; vm_compute; discriminate || reflexivity.
    - vm_compute. discriminate. }
  destruct (open_header (bytes_reader (built_bytes [])) None) as [d0|] eqn:E0; [|vm_compute in E0; discriminate E0].
  destruct (sqlite_wal_recovery (fun a b => bool_decide (a = b)) wal_objects wal_opts (built_bytes wal_objects) (built_bytes []) d0
    true 9 3 4 wal_log (take 3 wal_log) [1; 2; 3]) as (db & HO & _ & Hs & HR).
  - cbn; lia.
  - cbn; lia.
  - exact Hok.
  - vm_compute. discriminate.
  - vm_compute. reflexivity.
  - exact E0.
  - vm_compute in E0. injection E0 as <-. reflexivity.
  - vm_compute in E0. injection E0 as <-. reflexivity.
  - vm_compute. discriminate.
  - vm_compute. repeat split; discriminate.
  - repeat (constructor; [vm_compute; repeat split; discriminate|]). constructor.
  - left. vm_compute. reflexivity.
  - vm_compute. discriminate.
  - vm_compute. reflexivity.
  - intros n Hn. change (zlen (built_bytes wal_objects) / bo_PageSize (with_defaults wal_opts)) with 2 in Hn.
    assert (n = 1 \/ n = 2) as [-> | ->] by lia; vm_compute; reflexivity.
  - exists db. split; [exact HO|]. destruct (db_schema db) as [|e es] eqn:Ee; [inversion Hs|]. apply Forall2_cons in Hs as [(_ & Hn & _) _].
    refine (HR 0%nat _ e (gostr "t") 10 eq_refl eq_refl _ _ _); [rewrite Hn; vm_compute; reflexivity|lia|lia].
Defined.
