(* ===== verification/SqliteTotal.v ===== *)
(** Package [sqlite] comes to an end on every input: neither the writer nor
    the reader panics, and every loop ends. *)

From S2P Require Import Prelude GoLib Storage Block GoPath SqliteRecord SqliteBuild SqliteRead SqliteTree SqliteWrite.
From stdpp Require Import base numbers list gmap sets strings.

Open Scope Z_scope.
Open Scope trex_scope.

(** ** Results without panics

    An error may wrap another, which must not be a panic either. *)

Fixpoint clean (e : error) : Prop :=
  match e with
  | Panic | OutOfFuel => False
  | Wrapf _ e => clean e
  | _ => True
  end.

Definition ends {A} (P : A -> Prop) (r : res A) : Prop :=
  match r with Ok a => P a | Err e => clean e end.

Lemma ends_bind {A C} (P : A -> Prop) (Q : C -> Prop) r k :
  ends P r -> (forall a, P a -> ends Q (k a)) -> ends Q (res_bind r k).
Proof. destruct r; cbn; auto. Qed.

Lemma ends_wrap {A C} (P : A -> Prop) (Q : C -> Prop) r k m :
  ends P r -> (forall a, P a -> ends Q (k a)) -> ends Q (match r with Ok a => k a | Err e => Err (Wrapf m e) end).
Proof. destruct r; cbn; auto. Qed.

Lemma ends_impl {A} (P Q : A -> Prop) r : ends P r -> (forall a, P a -> Q a) -> ends Q r.
Proof. destruct r; cbn; auto. Qed.

Ltac branch := match goal with |- ends _ (if ?b then _ else _) => destruct b eqn:? end.

(** ** Records *)

Lemma index_ends {A} (l : list A) i : 0 <= i < zlen l -> ends (fun x => l !! Z.to_nat i = Some x) (index l i).
Proof.
  intros Hi. unfold index. replace (i <? 0) with false by lia. destruct (lookup_lt_is_Some_2 l (Z.to_nat i)) as [x ->]; [unfold zlen in Hi; lia|done].
Qed.

Lemma decodeVarint_ends data offset limit :
  ends (fun r => 1 <= r.2 <= 9 /\ offset + r.2 <= limit) (decodeVarint data offset limit).
Proof.
  unfold decodeVarint. destruct (_ || _ || _) eqn:E; [done|]. assert (H : 0 <= offset /\ limit <= zlen data /\ offset < limit) by lia.
  assert (Hg : forall n i value, 0 <= i -> i + Z.of_nat n = 9 ->
    ends (fun r : Z * Z => 1 <= r.2 <= 9 /\ offset + r.2 <= limit) (decodeVarint_loop n i data offset limit value)); [|apply Hg; lia].
  induction n as [|n IH]; intros i value Hi Hn; cbn [decodeVarint_loop]; [done|]. destruct (Z.leb_spec limit (offset + i)); [done|].
  eapply ends_bind; [apply index_ends; lia|]. intros x _. destruct (Z.eqb_spec i 8); [cbn [ends snd]; lia|].
  cbv zeta. destruct (_ =? 0); [cbn [ends snd]; lia|]. apply IH; lia.
Qed.

Lemma read_serials_ends fuel data position headerSize :
  headerSize - position <= Z.of_nat fuel -> ends (fun _ => True) (read_serials fuel data position headerSize).
Proof.
  revert position. induction fuel as [|fuel IH]; intros position Hf; cbn [read_serials]; (destruct (Z.ltb_spec position headerSize); [|done]); [lia|].
  eapply ends_bind; [apply decodeVarint_ends|]. intros [serial count] Hc. cbn [snd] in Hc.
  eapply ends_bind; [apply IH; lia|]. done.
Qed.

Lemma serialSize_ends serial : ends (fun _ => True) (serialSize serial).
Proof. unfold serialSize. repeat case_match; done. Qed.

Lemma decodeField_ends serial field encoding : ends (fun _ => True) (decodeField serial field encoding).
Proof.
  unfold decodeField. repeat (case_match; [done|]). case_match; [|done]. eapply (ends_bind (fun _ => True)); [|done].
  unfold decodeText. repeat case_match; done.
Qed.

Lemma decodeRecord_ends data encoding : ends (fun _ => True) (decodeRecord data encoding).
Proof.
  unfold decodeRecord. eapply ends_bind; [apply decodeVarint_ends|]. intros [h used] [Hu _]. cbn [snd] in Hu. cbv zeta.
  destruct (_ || _) eqn:E; [done|]. eapply ends_bind; [apply read_serials_ends; lia|]. intros serials _.
  generalize (i64 h) as body. induction serials as [|serial serials IH]; intros body; cbn [read_fields]; [done|].
  eapply ends_bind; [apply serialSize_ends|]. intros size _. destruct (zlen data <? body + size); [done|].
  eapply ends_bind; [apply decodeField_ends|]. intros v _. eapply ends_bind; [apply IH|]. done.
Qed.

(** ** Reading pages *)

(** A source, by its contract, and that it holds bytes. *)
Definition byte_reader (r : Reader) : Prop := exists f, ReaderOK r f /\ forall i, byte_ok (f i).

Definition page_ok (n : Z) (p : bytes) : Prop := zlen p = n /\ bytes_ok p.

Lemma range_ok f off n : (forall i, byte_ok (f i)) -> bytes_ok (range f off n).
Proof. intros Hf. unfold range, bytes_ok. apply Forall_fmap, Forall_true. intros; apply Hf. Qed.

Lemma readFullAt_ends r n off : byte_reader r -> 0 <= off -> 0 < n -> ends (page_ok n) (readFullAt r n off).
Proof.
  intros (f & Hr & Hf) Ho Hn. unfold readFullAt. destruct (decide (off + n <= rd_Size r)) as [Hin|Hout].
  - rewrite (ReadFullAt_reader r f) by (done || lia). split; [apply zlen_range; lia|by apply range_ok].
  - unfold ReadFullAt. destruct (Z.to_nat n) as [|k] eqn:E; [lia|]. cbn [ReadFullAt_loop]. rewrite zlen_nil.
    replace (0 <? n) with true by lia. rewrite Z.sub_0_r, Z.add_0_r, (rd_short n off) by lia. cbn [app is_EOF andb].
    rewrite zlen_range' . pose proof (rd_size_ok (r := r) (f := f)). replace (Z.max 0 (Z.max 0 (rd_Size r - off)) =? n) with false by lia. done.
Qed.

Lemma slice_bytes_ok off n (l : bytes) : bytes_ok l -> bytes_ok (slice off n l).
Proof. intros H. unfold slice. by apply Forall_take, Forall_drop. Qed.

Lemma be_at_nonneg n off data : bytes_ok data -> 0 <= be_at n off data.
Proof. intros H. unfold be_at. by apply be_val_bound, slice_bytes_ok. Qed.

(** An opened database. *)
Record database_ok (d : Database) : Prop := {
  dk_source : byte_reader (db_source d);
  dk_size : 512 <= in_PageSize (db_info d) <= 65536;
  dk_usable : 480 <= db_usable d <= in_PageSize (db_info d);
  dk_pages : forall n p, db_pages d !! n = Some p -> page_ok (in_PageSize (db_info d)) p
}.

Section total.
Context (d : Database) (Hd : database_ok d).
Notation ok := (page_ok (in_PageSize (db_info d))).

Lemma db_page_ends n : 0 <= n -> ends ok (db_page d n).
Proof.
  intros Hn. unfold db_page. destruct (Z.eqb_spec n 0); [done|]. branch; [done|]. cbn [orb].
  destruct (db_pages d !! n) as [p|] eqn:E; [by apply (dk_pages d Hd n)|]. pose proof (dk_size d Hd).
  eapply ends_wrap; [apply readFullAt_ends; [apply Hd|nia|lia]|done].
Qed.

Lemma overflow_chain_ends fuel n total seen output :
  0 <= n -> total - zlen output <= Z.of_nat fuel -> ends (fun _ => True) (overflow_chain d fuel n total seen output).
Proof.
  revert n seen output. induction fuel as [|fuel IH]; intros n seen output Hn Hf; cbn [overflow_chain];
    (destruct (Z.ltb_spec (zlen output) total); [|done]); [lia|]. branch; [done|].
  eapply ends_bind; [by apply db_page_ends|]. intros p [Hl Hp]. pose proof (dk_usable d Hd). apply IH; [by apply be_at_nonneg|].
  rewrite zlen_app, zlen_slice by lia. lia.
Qed.

Lemma cellPayload_ends page position n tableLeaf : ok page -> ends (fun _ => True) (cellPayload d page position n tableLeaf).
Proof.
  intros [Hl Hp]. unfold cellPayload. branch; [done|]. cbv zeta. branch; [done|]. branch; [done|].
  branch; [done|]. apply overflow_chain_ends; [by apply be_at_nonneg|]. pose proof (zlen_nonneg (slice position (local_payload (db_usable d) n tableLeaf) page)). lia.
Qed.

Lemma cellOffset_ends page pointers i : ends (fun _ => True) (cellOffset d page pointers i).
Proof. unfold cellOffset. cbv zeta. by destruct (_ || _). Qed.

Lemma index_record_ends page position : ok page -> ends (fun _ => True) (index_record d page position).
Proof.
  intros Hp. unfold index_record. eapply ends_wrap; [apply decodeVarint_ends|]. intros [n used] _.
  eapply ends_wrap; [by apply cellPayload_ends|]. intros payload _. eapply ends_wrap; [apply decodeRecord_ends|done].
Qed.

Context (maximum : Z) (Hmax : 0 <= maximum).
Notation fits := (bounded maximum).

Lemma add_row_fits row st : full maximum st = false -> fits (add_row row st).
Proof. unfold full, bounded. cbn [add_row wk_rows]. rewrite zlen_app, zlen_cons, zlen_nil. lia. Qed.

Lemma leaf_cell_ends page pointers tableLeaf i st :
  ok page -> fits st -> ends (fun r => fits r.2) (leaf_cell d maximum page pointers tableLeaf i st).
Proof.
  intros Hp Hst. unfold leaf_cell. destruct (full maximum st) eqn:Hf; [done|].
  eapply ends_bind; [apply cellOffset_ends|]. intros cell _. eapply ends_wrap; [apply decodeVarint_ends|]. intros [n used] _. cbv zeta.
  eapply (ends_bind (fun _ => True)).
  { destruct tableLeaf; [|done]. eapply ends_wrap; [apply decodeVarint_ends|]. by intros [? ?] _. }
  intros [rowID position] _. eapply ends_wrap; [by apply cellPayload_ends|]. intros payload _.
  eapply ends_wrap; [apply decodeRecord_ends|]. intros values _. by apply add_row_fits.
Qed.

Lemma each_cell_ends n i body st :
  (forall i st, fits st -> ends (fun r => fits r.2) (body i st)) -> fits st -> ends (fun r => fits r.2) (each_cell n i body st).
Proof.
  intros Hb. revert i st. induction n as [|n IH]; intros i st Hst; cbn [each_cell]; [done|].
  eapply ends_bind; [by apply Hb|]. intros [stop st'] Hst'. destruct stop; [done|by apply IH].
Qed.

Lemma walk_ends depth n st : 0 <= n -> fits st -> ends fits (walk d maximum depth n st).
Proof.
  revert n st. induction depth as [|depth IH]; intros n st Hn Hst; cbn [walk]; (destruct (full maximum st) eqn:Hf; [done|]); [done|].
  case_bool_decide; [done|]. eapply ends_bind; [by apply db_page_ends|]. intros p Hp. pose proof Hp as [Hl Hb].
  pose proof (dk_size d Hd). branch; [done|]. eapply ends_bind; [apply index_ends; destruct (n =? 1); lia|]. intros t _.
  set (st1 := MkWalk (wk_rows st) ({[n]} ∪ wk_visited st)). assert (Hst1 : fits st1) by exact Hst. cbv zeta. branch; [done|].
  destruct (t =? 5).
  { eapply ends_bind; [apply each_cell_ends; [|exact Hst1]|].
    - intros i st' Hst'. eapply ends_bind; [apply cellOffset_ends|]. intros cell _. branch; [done|].
      eapply ends_bind; [apply IH; [by apply be_at_nonneg|done]|]. by intros st2 Hst2.
    - intros [stop st'] Hst'. apply IH; [by apply be_at_nonneg|done]. }
  destruct (t =? 2).
  { eapply ends_bind; [apply each_cell_ends; [|exact Hst1]|].
    - intros i st' Hst'. eapply ends_bind; [apply cellOffset_ends|]. intros cell _. branch; [done|].
      eapply ends_bind; [apply IH; [by apply be_at_nonneg|done]|]. intros st2 Hst2. destruct (full maximum st2) eqn:Hf2; [done|].
      eapply ends_bind; [by apply index_record_ends|]. intros values _. by apply add_row_fits.
    - intros [stop st'] Hst'. branch; [done|]. apply IH; [by apply be_at_nonneg|done]. }
  branch; [|done]. eapply ends_bind; [apply each_cell_ends; [|exact Hst1]|].
  - intros i st' Hst'. by apply leaf_cell_ends.
  - by intros [stop st'] Hst'.
Qed.

Lemma btreeRows_ends root : 0 <= root -> ends (fun rows => zlen rows <= maximum) (btreeRows d maximum root).
Proof.
  intros Hr. unfold btreeRows. destruct (_ =? _); [cbn [ends]; rewrite zlen_nil; lia|].
  eapply ends_bind; [apply walk_ends; [done|]|by intros st Hst]. unfold bounded. cbn [wk_rows]. rewrite zlen_nil. lia.
Qed.
End total.

(** ** Opening *)

Definition log_frame_ok (ps : Z) (f : walFrame) : Prop := page_ok ps (wf_data f).

Lemma drop_ok k (l : bytes) n : page_ok (Z.of_nat k + n) l -> 0 <= n -> page_ok n (drop k l).
Proof. intros [Hl Hb] Hn. split; [unfold zlen in *; rewrite length_drop; lia|by apply Forall_drop]. Qed.

Lemma wal_frames_ends n source ps bigEndian salt1 salt2 i s0 s1 frames c cp :
  byte_reader source -> 0 < ps -> 0 <= i -> Forall (log_frame_ok ps) frames -> 0 <= cp ->
  ends (fun r => Forall (log_frame_ok ps) r.1.1 /\ 0 <= r.2) (wal_frames n source ps bigEndian salt1 salt2 i s0 s1 frames c cp).
Proof.
  intros Hs Hps. revert i s0 s1 frames c cp. induction n as [|n IH]; intros i s0 s1 frames c cp Hi Hf Hcp; cbn [wal_frames]; [done|].
  eapply ends_wrap; [apply readFullAt_ends; [done|nia|lia]|]. intros frame [Hl Hb]. branch; [done|].
  destruct (walChecksum (slice 0 8 frame) bigEndian s0 s1) as [n0 n1]. destruct (walChecksum (drop 24 frame) bigEndian n0 n1) as [m0 m1].
  branch; [done|]. cbv zeta. branch; [done|].
  assert (Hf' : Forall (log_frame_ok ps) (frames ++ [MkFrame (be_at 4 0 frame) (drop 24 frame)])).
  { apply Forall_app. split; [done|]. apply Forall_singleton. by apply (drop_ok 24); [split|lia]. }
  destruct (negb (be_at 4 4 frame =? 0)); (apply IH; [lia|done|]); [by apply be_at_nonneg|done].
Qed.

Lemma parseWAL_ends source ps :
  byte_reader source -> 0 < ps -> ends (fun r => Forall (log_frame_ok ps) r.1 /\ 0 <= r.2) (parseWAL source ps).
Proof.
  intros Hs Hps. unfold parseWAL. branch; [done|]. eapply ends_wrap; [apply readFullAt_ends; [done|lia|lia]|]. intros header [Hl Hb].
  cbv zeta. branch; [done|]. branch; [done|]. branch; [done|]. destruct (walChecksum _ _ 0 0) as [s0 s1]. branch; [done|].
  eapply ends_bind; [apply wal_frames_ends; [done|done|lia|constructor|lia]|]. intros [[frames c] cp] [Hf Hcp]. cbn [fst snd] in *.
  branch; [by split; [constructor|cbn; lia]|]. split; [by apply Forall_take|done].
Qed.

Lemma apply_frames_ok ps count frames n p :
  Forall (log_frame_ok ps) frames -> apply_frames count frames !! n = Some p -> page_ok ps p.
Proof.
  unfold apply_frames. intros Hf.
  assert (Hg : forall m : gmap Z bytes, (forall n p, m !! n = Some p -> page_ok ps p) -> forall n p,
    foldl (fun m frame => if wf_pageNumber frame <=? count then <[wf_pageNumber frame := wf_data frame]> m else m) m frames !! n = Some p -> page_ok ps p);
    [|apply Hg; by intros ? ?; rewrite lookup_empty].
  induction Hf as [|f frames Hfo _ IH]; intros m Hm n' p'; cbn [foldl]; [by apply Hm|]. apply IH. intros n1 p1.
  destruct (_ <=? _); [|apply Hm]. rewrite lookup_insert_Some. intros [[_ <-]|[_ H]]; [done|by eapply Hm].
Qed.

Lemma open_header_ends source wal :
  byte_reader source -> match wal with Some log => byte_reader log | None => True end -> ends database_ok (open_header source wal).
Proof.
  intros Hs Hw. unfold open_header. eapply ends_wrap; [apply readFullAt_ends; [done|lia|lia]|]. intros header [Hl Hb]. branch; [done|]. cbv zeta.
  set (ps := if be_at 2 16 header =? 1 then 65536 else be_at 2 16 header). branch; [done|].
  eapply ends_bind; [apply index_ends; lia|]. intros reserved Hres. branch; [done|]. branch; [done|]. branch; [done|].
  assert (0 <= reserved) by (apply (Forall_lookup_1 _ _ _ _ Hb Hres)).
  assert (Hok : forall info pages, in_PageSize info = ps -> (forall n p, pages !! n = Some p -> page_ok ps p) ->
    database_ok (MkDatabase source info (ps - reserved) pages [])).
  { intros info pages Hi Hp. split; cbn [db_source db_info db_usable db_pages]; rewrite ?Hi; [done|lia|lia|done]. }
  assert (Hnone : forall n p, (∅ : gmap Z bytes) !! n = Some p -> page_ok ps p) by (intros n p; by rewrite lookup_empty).
  destruct wal as [log|]; [|by apply Hok]. branch; [by apply Hok|].
  eapply ends_bind; [apply parseWAL_ends; [done|lia]|]. intros [frames count] [Hf Hc]. cbn [fst snd] in *. branch; [by apply Hok|].
  branch; [done|]. apply Hok; [done|]. intros n p. by apply apply_frames_ok.
Qed.

Lemma schema_entries_ends rows : ends (Forall (fun e => 0 <= se_RootPage e)) (schema_entries rows).
Proof.
  induction rows as [|row rows IH]; cbn [schema_entries]; [by constructor|].
  eapply (ends_bind (fun e => 0 <= se_RootPage e)); [|intros e He; eapply ends_bind; [exact IH|]; intros es Hes; by constructor].
  unfold schema_entry. destruct (row_Values row) as [|v1 [|v2 [|v3 [|v4 [|v5 [|? ?]]]]]]; try done.
  destruct v1; try done; destruct v2; try done; destruct v3; try done. destruct (sqliteUint32 v4) as [root|] eqn:E; [|done].
  assert (0 <= root); [|by destruct v5]. unfold sqliteUint32 in E. destruct v4; try done; [by injection E as <-|].
  destruct (_ && _) eqn:E2; [|done]. injection E as <-. lia.
Qed.

Definition opened_ok (d : Database) : Prop := database_ok d /\ Forall (fun e => 0 <= se_RootPage e) (db_schema d).

Lemma Open_ends source wal :
  byte_reader source -> match wal with Some log => byte_reader log | None => True end -> ends opened_ok (Open source wal).
Proof.
  intros Hs Hw. unfold Open. eapply ends_bind; [by apply open_header_ends|]. intros d Hd.
  eapply ends_bind; [apply (db_page_ends d Hd); lia|]. intros page _. branch; [done|]. cbv zeta. branch; [done|].
  match goal with |- ends _ (match btreeRows ?db _ _ with _ => _ end) => assert (Hd' : database_ok db) by (split; apply Hd) end.
  eapply ends_wrap; [apply (btreeRows_ends _ Hd'); lia|]. intros rows _. eapply ends_bind; [apply schema_entries_ends|].
  intros schema Hsc. split; [split; apply Hd|done].
Qed.

Lemma Rows_ends EqualFold d name maximum : opened_ok d -> ends (fun rows => zlen rows <= maximum) (Database_Rows EqualFold d name maximum).
Proof.
  intros [Hd Hs]. unfold Database_Rows. branch; [done|].
  assert (Hf : match find_entry EqualFold (db_schema d) name with Some e => 0 <= se_RootPage e | None => True end).
  { induction Hs as [|e schema He _ IH]; cbn [find_entry]; [done|]. by destruct (EqualFold _ _). }
  destruct (find_entry EqualFold (db_schema d) name) as [e|]; [|done]. branch; [done|]. apply (btreeRows_ends d Hd); lia.
Qed.

(** ** The writer *)

Lemma maximum_child_pow h capacity : maximum_child h capacity + 1 = (capacity + 1) ^ (Z.of_nat h + 1).
Proof.
  induction h as [|h IH]; [cbn; lia|]. cbn [maximum_child]. rewrite IH, Nat2Z.inj_succ, <- Z.add_1_r.
  rewrite (Z.pow_add_r _ (Z.of_nat h + 1) 1) by lia. rewrite Z.pow_1_r. lia.
Qed.

Lemma share_bounds a n m : 1 <= n -> 1 <= m -> n * m <= a ->
  m <= a / n /\ (n - 1) * m <= a - a / n /\ Z.quot (a - n) n = a / n - 1.
Proof.
  intros Hn Hm H. assert (m <= a / n) by (apply Z.div_le_lower_bound; lia).
  split; [done|]. split; [pose proof (Z.mul_div_le a n ltac:(lia)); nia|].
  rewrite Z.quot_div_nonneg by nia. replace (a - n) with (a + (-1) * n) by lia. rewrite Z.div_add by lia. lia.
Qed.

(** Into how many subtrees of at most [Q] - 1 records a page splits. *)
Lemma index_split a Q q (root : bool) :
  3 <= q -> 3 <= Q -> (if root then Q < a else q * Q / 2 <= a) ->
  let parts := (a + Q - 1) / Q in
  let k := if negb root then Z.max 3 (Z.max 2 parts) else Z.max 2 parts in
  2 <= k /\ k * (Q / 2) <= a /\ 1 <= Q / 2 /\ a <= k * Q /\ (a <= q * Q -> k <= q).
Proof.
  intros Hq HQ Ha parts k.
  assert (Hparts : parts * Q < a + Q /\ a <= parts * Q).
  { unfold parts. pose proof (Z.mul_div_le (a + Q - 1) Q ltac:(lia)). pose proof (Z.mul_succ_div_gt (a + Q - 1) Q ltac:(lia)). lia. }
  assert (Hhalf : 1 <= Q / 2 /\ 2 * (Q / 2) <= Q) by (Z.to_euclidean_division_equations; lia).
  assert (Hk : 2 <= k /\ parts <= k) by (unfold k; destruct (negb root); lia).
  assert (Hshare : k * (Q / 2) <= a).
  { assert (Hlarge : Q <= a -> parts * (Q / 2) <= a) by nia. unfold k. destruct root; cbn [negb].
    - destruct (Z.max_spec 2 parts) as [[? ->]|[? ->]]; nia.
    - assert (3 * Q / 2 <= a). { etransitivity; [apply Z.div_le_mono; [lia|]|exact Ha]. nia. }
      assert (3 * (Q / 2) <= 3 * Q / 2) by (Z.to_euclidean_division_equations; lia). assert (Q <= a) by (Z.to_euclidean_division_equations; lia).
      destruct (Z.max_spec 3 (Z.max 2 parts)) as [[? ->]|[? ->]]; [|nia]. rewrite Z.max_r by lia. by apply Hlarge. }
  split; [lia|]. split; [done|]. split; [lia|]. split; [nia|]. intros Hup. assert (parts <= q) by nia. unfold k. destruct (negb root); lia.
Qed.

(** The height is the least at which the records fit. *)
Lemma index_height_ok fuel j capacity n :
  2 <= capacity -> n <= MaxInt64 -> (64 <= fuel + j)%nat ->
  exists h, index_height fuel capacity n (maximum_child j capacity) = Ok h /\ n <= maximum_child (j + h) capacity /\
    match h with O => True | S h' => maximum_child (j + h') capacity < n end.
Proof.
  intros Hc Hn. revert j.
  induction fuel as [|fuel IH]; intros j Hj; cbn [index_height];
    (destruct (Z.ltb_spec (maximum_child j capacity) n) as [Hlt|]; [|exists O; rewrite Nat.add_0_r; done]).
  - exfalso. pose proof (maximum_child_pow j capacity). assert (2 ^ 64 <= (capacity + 1) ^ (Z.of_nat j + 1)).
    { etransitivity; [apply (Z.pow_le_mono_r 2 64 (Z.of_nat j + 1)); lia|]. apply Z.pow_le_mono_l. lia. }
    unfold MaxInt64 in Hn. lia.
  - cbv zeta. destruct (Z.ltb_spec ((MaxInt64 - capacity) / (capacity + 1)) (maximum_child j capacity)) as [Es|_].
    + assert (index_height fuel capacity n MaxInt64 = Ok O) as ->.
      { destruct fuel; cbn [index_height]; by replace (MaxInt64 <? n) with false by lia. }
      exists 1%nat. split; [done|]. rewrite Nat.add_0_r, Nat.add_1_r. split; [|done]. cbn [maximum_child].
      pose proof (Z.mul_succ_div_gt (MaxInt64 - capacity) (capacity + 1) ltac:(lia)). nia.
    + destruct (IH (S j) ltac:(lia)) as (h & Eh & Hup & Hlow). cbn [maximum_child] in Eh. rewrite Eh. exists (S h). split; [done|].
      replace (j + S h)%nat with (S j + h)%nat by lia. split; [done|]. destruct h as [|h]; [by rewrite Nat.add_0_r|].
      by replace (j + S h)%nat with (S j + h)%nat by lia.
Qed.

Section building.
Context (options : BuildOptions).
Notation ps := (bo_PageSize options).
Hypothesis Hps : 512 <= ps <= 65536.

Notation grown b := (fun b' : list bytes => (length b <= length b')%nat).
Notation grown_fst b := (fun r : list bytes * _ => (length b <= length r.1)%nat).

(** A page number is that of a page; numbers are computed in 32 bits. *)
Definition valid (b : list bytes) (n : Z) : Prop := 0 <= u32 (n - 1) < zlen b.

Lemma valid_mono b b' n : valid b n -> (length b <= length b')%nat -> valid b' n.
Proof. unfold valid, zlen. lia. Qed.

Lemma allocated_valid b p : valid (b ++ [p]) (u32 (zlen b + 1)).
Proof.
  unfold valid, u32. rewrite zlen_app. change (zlen [p]) with 1. pose proof (zlen_nonneg b). Z.to_euclidean_division_equations. lia.
Qed.

Lemma first_valid b : (1 <= length b)%nat -> valid b 1.
Proof. unfold valid, zlen. change (u32 (1 - 1)) with 0. lia. Qed.

Lemma builder_page_ends b n : valid b n -> ends (fun _ => True) (builder_page b n).
Proof. intros Hv. eapply ends_impl; [by apply index_ends|done]. Qed.

Lemma write_cells_ends cells page pointers count i content : ends (fun _ => True) (write_cells cells page pointers count i content).
Proof. revert page i content. induction cells as [|c cells IH]; intros page i content; cbn [write_cells]; [done|]. cbv zeta. branch; [done|apply IH]. Qed.

Lemma writeBtreePage_ends b n hdr t r cells : valid b n -> ends (fun b' => length b' = length b) (writeBtreePage options b n hdr t r cells).
Proof.
  intros Hv. unfold writeBtreePage. eapply ends_bind; [by apply builder_page_ends|]. intros page _. cbv zeta.
  eapply ends_bind; [apply write_cells_ends|]. intros [page' content] _. apply set_page_length.
Qed.

Lemma encodeRecord_ends values encoding : ends (fun _ => True) (encodeRecord values encoding).
Proof.
  unfold encodeRecord. assert (Hf : forall serials body, ends (fun _ => True) (encode_fields values encoding serials body)).
  { induction values as [|v values IH]; intros serials body; cbn [encode_fields]; [done|].
    eapply (ends_wrap (fun _ => True)); [|intros [serial field] _; apply IH]. destruct v; cbn [encodeField]; try done. by branch. }
  eapply ends_bind; [apply Hf|]. intros [serials body] _. destruct (header_size_ok (zlen serials) (zlen_nonneg _)) as (h & -> & _). done.
Qed.

Lemma overflow_loop_ends fuel b first previous data :
  (length data <= fuel)%nat -> (previous <> 0 -> valid b previous) -> ends (grown_fst b) (overflow_loop options fuel b first previous data).
Proof.
  revert b first previous data. induction fuel as [|fuel IH]; intros b first previous data Hf Hv; cbn [overflow_loop].
  { destruct data; [exact (Nat.le_refl _)|simpl in Hf; lia]. }
  branch; [exact (Nat.le_refl _)|]. unfold allocate. set (b1 := b ++ [zeros ps]). set (number := u32 (zlen b + 1)).
  assert (Hl1 : (length b <= length b1)%nat) by (unfold b1; rewrite length_app; lia). assert (Hn : valid b1 number) by apply allocated_valid.
  eapply (ends_bind (fun b2 => length b2 = length b1)).
  { destruct (Z.eqb_spec previous 0) as [|Hp]; [done|]. cbn [negb]. eapply ends_bind; [apply builder_page_ends; eapply valid_mono; [by apply Hv|done]|].
    intros page _. apply set_page_length. }
  intros b2 Hl2. assert (Hn2 : valid b2 number) by (eapply valid_mono; [exact Hn|lia]).
  eapply ends_bind; [by apply builder_page_ends|]. intros page _.
  eapply ends_impl; [apply IH|].
  - rewrite length_drop. destruct data; [done|]. rewrite zlen_cons in *. pose proof (zlen_nonneg data). simpl in *. lia.
  - intros _. eapply valid_mono; [exact Hn2|]. by rewrite set_page_length.
  - intros [b3 f]. cbn [fst]. rewrite set_page_length. lia.
Qed.

Lemma payloadCell_ends b prefix payload tableLeaf : ends (grown_fst b) (payloadCell options b prefix payload tableLeaf).
Proof.
  unfold payloadCell. cbv zeta. branch; [exact (Nat.le_refl _)|]. eapply ends_bind; [by apply overflow_loop_ends|]. by intros [b' first] Hg.
Qed.

Lemma tableLeafCell_ends b rowid values : ends (grown_fst b) (tableLeafCell options b rowid values).
Proof. unfold tableLeafCell. eapply ends_bind; [apply encodeRecord_ends|]. intros payload _. apply payloadCell_ends. Qed.

Lemma indexCell_ends b row : ends (grown_fst b) (indexCell options b row).
Proof. unfold indexCell. eapply ends_bind; [apply encodeRecord_ends|]. intros payload _. apply payloadCell_ends. Qed.

Lemma writeTableInterior_ends b n hdr children :
  valid b n -> ends (fun b' => length b' = length b /\ (2 <= length children)%nat) (writeTableInterior options b n hdr children).
Proof.
  intros Hv. unfold writeTableInterior. branch; [done|]. destruct (last children) as [c|] eqn:El.
  - eapply ends_impl; [by apply writeBtreePage_ends|]. intros b' Hb'. split; [done|]. unfold zlen in *. lia.
  - apply last_None in El as ->. done.
Qed.

Lemma write_leaves_ends rows b : ends (grown_fst b) (write_leaves options b rows).
Proof.
  revert b. induction rows as [|[rowid values] rows IH]; intros b; cbn [write_leaves]; [exact (Nat.le_refl _)|]. unfold allocate.
  eapply ends_bind; [apply tableLeafCell_ends|]. intros [b1 cell] H1. cbn [fst] in H1.
  eapply ends_bind; [apply writeBtreePage_ends; eapply valid_mono; [apply allocated_valid|exact H1]|]. intros b2 H2.
  eapply ends_bind; [apply IH|]. intros [b3 level] H3. cbn [ends fst] in *. rewrite length_app in H1. lia.
Qed.

Lemma group_count_pos n : 1 <= n -> 1 <= group_count n <= n.
Proof. intros. unfold group_count. repeat case_match; lia. Qed.

Lemma write_parents_ends fuel b level :
  (length level <= fuel)%nat ->
  ends (fun r => (length b <= length r.1)%nat /\ (2 * length r.2 <= length level)%nat) (write_parents options fuel b level).
Proof.
  revert b level. induction fuel as [|fuel IH]; intros b [|child level] Hf; cbn [write_parents]; try (by cbn; lia); [by simpl in Hf; lia|].
  set (all := child :: level) in *. assert (Hl : 1 <= zlen all) by (unfold all; rewrite zlen_cons; pose proof (zlen_nonneg level); lia).
  pose proof (group_count_pos _ Hl) as Hg. set (k := Z.to_nat (group_count (zlen all))).
  assert (Hk : length (take k all) = k) by (rewrite length_take; unfold k, zlen in *; lia). unfold allocate.
  eapply ends_bind; [apply writeTableInterior_ends, allocated_valid|]. intros b1 [H1 H2]. rewrite length_app in H1. simpl in H1.
  destruct (last (take k all)) as [c|] eqn:El; [|apply last_None in El; rewrite El in H2; simpl in H2; lia].
  eapply ends_bind; [apply IH; rewrite length_drop; unfold k; lia|]. intros [b2 next] [H3 H4]. cbn [fst snd] in *.
  rewrite length_drop in H4. unfold zlen in *. cbn [ends fst snd length]. lia.
Qed.

Lemma raise_levels_ends fuel b level : (length level <= fuel)%nat -> ends (grown_fst b) (raise_levels options fuel b level).
Proof.
  revert b level. induction fuel as [|fuel IH]; intros b level Hf; cbn [raise_levels]; (branch; [|exact (Nat.le_refl _)]).
  { unfold zlen in *. lia. }
  eapply ends_bind; [by apply write_parents_ends|]. intros [b1 next] [H1 H2]. cbn [fst snd] in *.
  eapply ends_impl; [apply IH; unfold zlen in *; lia|]. intros [b2 next'] H3. cbn [fst] in *. lia.
Qed.

Lemma check_rowids_ends rows previous : ends (fun _ => True) (check_rowids rows previous).
Proof.
  revert previous. induction rows as [|row rows IH]; intros previous; cbn [check_rowids]; [done|]. destruct (row_RowID row); [|done].
  branch; [done|]. eapply ends_bind; [apply IH|done].
Qed.

Lemma buildTable_ends b root rows schema : valid b root -> ends (grown b) (buildTable options b root rows schema).
Proof.
  intros Hv. unfold buildTable. eapply ends_bind; [apply check_rowids_ends|]. intros rs _. cbv zeta. destruct rs as [|[rowid values] [|r rs]].
  - eapply ends_impl; [by apply writeBtreePage_ends|]. cbn. lia.
  - eapply ends_bind; [apply tableLeafCell_ends|]. intros [b1 cell] H1. cbn [fst] in H1.
    eapply ends_impl; [apply writeBtreePage_ends; by eapply valid_mono|]. cbn. lia.
  - eapply ends_bind; [apply write_leaves_ends|]. intros [b1 level] H1. cbn [fst] in H1.
    eapply ends_bind; [by apply raise_levels_ends|]. intros [b2 level2] H2. cbn [fst] in H2.
    eapply ends_impl; [apply writeTableInterior_ends; eapply valid_mono; [exact Hv|lia]|]. intros b3 [H3 _]. lia.
Qed.

(** ** Indexes are balanced

    With [q] one more than the capacity, a subtree of height [h] that is not
    the root is given at least half of [q ^ (h + 1)] records and separators,
    so that every page has records for its children. *)

Lemma index_cells_ends rows b : ends (grown_fst b) (index_cells options b rows).
Proof.
  revert b. induction rows as [|row rows IH]; intros b; cbn [index_cells]; [exact (Nat.le_refl _)|].
  eapply ends_bind; [apply indexCell_ends|]. intros [b1 cell] H1. eapply ends_bind; [apply IH|]. intros [b2 cells] H2. cbn [ends fst] in *. lia.
Qed.

(** A fair share. *)
Lemma index_children_ends node n b number rows remaining cells m :
  (forall b child rows, valid b child -> m <= zlen rows + 1 -> ends (grown b) (node b child rows)) ->
  1 <= m -> (1 <= n)%nat -> remaining = zlen rows - Z.of_nat n + 1 -> Z.of_nat n * m <= zlen rows + 1 -> valid b number ->
  ends (grown b) (index_children options node n b number rows remaining cells).
Proof.
  intros Hnode Hm. revert b rows remaining cells. induction n as [|n IH]; intros b rows remaining cells Hn Hrem Hshare Hv; [lia|].
  cbn [index_children]. unfold allocate. set (count := Z.quot remaining (Z.of_nat (S n))).
  destruct (share_bounds (zlen rows + 1) (Z.of_nat (S n)) m) as (S1 & S2 & S3); [lia|done|done|].
  replace (zlen rows + 1 - Z.of_nat (S n)) with remaining in S3 by lia. fold count in S3.
  set (share := (zlen rows + 1) / Z.of_nat (S n)) in *. assert (Hcr : 0 <= count <= zlen rows) by nia.
  replace ((count <? 0) || (zlen rows <? count)) with false by lia.
  assert (Htake : zlen (take (Z.to_nat count) rows) = count) by (unfold zlen in *; rewrite length_take; lia).
  eapply ends_bind; [apply Hnode; [apply allocated_valid|lia]|]. intros b1 H1. rewrite length_app in H1. simpl in H1.
  destruct n as [|n]; [eapply ends_impl; [apply writeBtreePage_ends; eapply valid_mono; [exact Hv|lia]|cbn; lia]|].
  assert (Hdrop : zlen (drop (Z.to_nat count) rows) = zlen rows - count) by (unfold zlen in *; rewrite length_drop; lia).
  destruct (drop (Z.to_nat count) rows) as [|row rest]; [rewrite zlen_nil in Hdrop; nia|]. rewrite zlen_cons in Hdrop.
  eapply ends_bind; [apply indexCell_ends|]. intros [b2 payload] H2. cbn [fst] in H2.
  eapply ends_impl; [apply IH; [lia|lia|nia|eapply valid_mono; [exact Hv|lia]]|]. cbv beta. lia.
Qed.

Lemma buildIndexNode_ends h b number rows capacity (root : bool) :
  2 <= capacity -> valid b number ->
  match h with
  | O => True
  | S h' => if root then maximum_child h' capacity + 1 < zlen rows + 1
            else (capacity + 1) * (maximum_child h' capacity + 1) / 2 <= zlen rows + 1
  end ->
  ends (grown b) (buildIndexNode options h b number rows capacity root).
Proof.
  intros Hc. revert b number rows root. induction h as [|h IH]; intros b number rows root Hv Ha; cbn [buildIndexNode].
  { eapply ends_bind; [apply index_cells_ends|]. intros [b1 cells] H1. cbn [fst] in H1.
    eapply ends_impl; [apply writeBtreePage_ends; by eapply valid_mono|]. cbn. lia. }
  cbv zeta. set (Q := maximum_child h capacity + 1) in *.
  assert (HQ : 3 <= Q).
  { unfold Q. rewrite maximum_child_pow. rewrite Z.pow_add_r, Z.pow_1_r by lia. pose proof (Z.pow_pos_nonneg (capacity + 1) (Z.of_nat h)). nia. }
  replace (zlen rows + 1 + maximum_child h capacity) with (zlen rows + 1 + Q - 1) by (unfold Q; lia).
  destruct (index_split (zlen rows + 1) Q (capacity + 1) root ltac:(lia) HQ Ha) as (Hk & Hlow & Hhalf & _).
  set (k := if negb root then _ else _) in *.
  apply (index_children_ends _ _ _ _ _ _ _ (Q / 2)); [|lia|lia|lia|lia|done].
  intros b1 child rows1 Hv1 Hr1. apply IH; [done|]. destruct h as [|h]; [done|]. unfold Q in Hr1. cbn [maximum_child] in Hr1.
  etransitivity; [|exact Hr1]. apply Z.div_le_mono; lia.
Qed.

Lemma maximum_cell_ends rows m : 0 <= m -> ends (fun r => 0 <= r) (maximum_cell options rows m).
Proof.
  revert m. induction rows as [|row rows IH]; intros m Hm; cbn [maximum_cell]; [done|]. destruct (row_RowID row); [done|].
  eapply (ends_bind (fun _ => True)); [|intros width _; apply IH; lia]. unfold indexCellSize. eapply ends_bind; [apply encodeRecord_ends|done].
Qed.

Lemma buildIndex_ends b root rows : valid b root -> zlen rows <= MaxInt64 -> ends (grown b) (buildIndex options b root rows).
Proof.
  intros Hv Hn. unfold buildIndex. eapply ends_bind; [by apply maximum_cell_ends|]. intros width Hw. cbv zeta. branch; [done|].
  set (capacity := (ps - 12) / (width + 6)) in *. assert (Hc : 2 <= capacity) by lia.
  destruct (index_height_ok 64 0 capacity (zlen rows)) as (h & Eh & _ & Hh); [done|done|lia|].
  cbn [maximum_child] in Eh. rewrite Eh. cbn [res_bind]. apply buildIndexNode_ends; [done|done|]. destruct h as [|h]; [done|]. cbn [Nat.add] in Hh. lia.
Qed.

(** ** Objects *)

Lemma prepare_ends objects b seen :
  ends (fun r => (length b <= length r.1)%nat /\
          Forall (fun p => (rooted (bd_definition p) = true -> valid r.1 (bd_root p)) /\ ob_Rows (bd_definition p) ∈ ob_Rows <$> objects) r.2)
    (prepare options objects b seen).
Proof.
  revert b seen. induction objects as [|o objects IH]; intros b seen; cbn [prepare]; [split; [exact (Nat.le_refl _)|constructor]|].
  branch; [done|]. branch; [done|]. cbv zeta. fold (rooted o).
  eapply (ends_bind (fun r => (length b <= length r.1)%nat /\ (rooted o = true -> valid r.1 r.2))).
  { destruct (rooted o); [split; cbn [fst allocate]; [rewrite length_app; lia|intros _; apply allocated_valid]|].
    branch; [|done]. branch; [done|]. by split. }
  intros [b1 root] [H1 H2]. cbn [fst snd] in *. eapply ends_bind; [apply IH|]. intros [b2 prepared] [H3 H4]. cbn [ends fst snd] in *.
  split; [lia|]. constructor.
  - split; [|rewrite fmap_cons; by left]. intros Hr. eapply valid_mono; [by apply H2|done].
  - eapply Forall_impl; [exact H4|]. intros p [Hp1 Hp2]. split; [done|]. rewrite fmap_cons. by right.
Qed.

Lemma build_objects_ends prepared b :
  Forall (fun p => (rooted (bd_definition p) = true -> valid b (bd_root p)) /\ zlen (ob_Rows (bd_definition p)) <= MaxInt64) prepared ->
  ends (grown b) (build_objects options b prepared).
Proof.
  revert b. induction prepared as [|p prepared IH]; intros b Hp; cbn [build_objects]; [exact (Nat.le_refl _)|].
  apply Forall_cons in Hp as [[Hv Hn] Hp]. unfold rooted in Hv.
  eapply (ends_wrap (grown b)).
  { destruct (is_table _); [by apply buildTable_ends, Hv|]. destruct (is_index _); [apply buildIndex_ends; [by apply Hv|done]|exact (Nat.le_refl _)]. }
  intros b1 H1. eapply ends_impl; [apply IH|]; [|cbn; lia]. eapply Forall_impl; [exact Hp|]. intros o [Hv' Hn']. split; [|done].
  intros Hr. eapply valid_mono; [by apply Hv'|done].
Qed.

Lemma build_pages_ends objects :
  Forall (fun o => zlen (ob_Rows o) <= MaxInt64) objects -> ends (fun _ => True) (build_pages options objects).
Proof.
  intros Hn. unfold build_pages, allocate. eapply ends_bind; [apply prepare_ends|]. intros [b prepared] [H1 H2]. cbn [fst snd app length] in *.
  eapply ends_bind; [apply build_objects_ends|].
  { eapply Forall_impl; [exact H2|]. intros p [Hp1 Hp2]. split; [done|]. apply list_elem_of_fmap in Hp2 as (o & -> & Ho).
    by apply (proj1 (Forall_forall _ _) Hn). }
  intros b2 H3. cbv beta in H3. eapply ends_wrap; [apply buildTable_ends, first_valid; lia|]. intros b3 H4. cbv beta in H4. branch; [done|].
  unfold writeHeader. eapply ends_bind; [apply builder_page_ends, first_valid; lia|done].
Qed.
End building.


