(* ===== verification/SqliteFits.v ===== *)
(** The writer of package [sqlite] succeeds on valid objects: whatever their
    rows, the cells it makes fit their pages, and its indexes are balanced. *)

From S2P Require Import Prelude GoLib Storage Block GoPath SqliteRecord SqliteBuild SqliteRead SqliteTree SqliteWrite SqliteFile SqliteTotal.
From stdpp Require Import base numbers list gmap sets strings.

Open Scope Z_scope.
Open Scope trex_scope.

(** ** Results without errors *)

Definition yields {A} (P : A -> Prop) (r : res A) : Prop :=
  match r with Ok a => P a | Err _ => False end.

Lemma yields_bind {A C} (P : A -> Prop) (Q : C -> Prop) r k :
  yields P r -> (forall a, r = Ok a -> P a -> yields Q (k a)) -> yields Q (res_bind r k).
Proof. destruct r; cbn; auto. Qed.

Lemma yields_wrap {A C} (P : A -> Prop) (Q : C -> Prop) r k m :
  yields P r -> (forall a, P a -> yields Q (k a)) -> yields Q (match r with Ok a => k a | Err e => Err (Wrapf m e) end).
Proof. destruct r; cbn; auto. Qed.

Lemma yields_impl {A} (P Q : A -> Prop) r : yields P r -> (forall a, P a -> Q a) -> yields Q r.
Proof. destruct r; cbn; auto. Qed.

Lemma yields_Ok {A} (P : A -> Prop) r : yields P r -> exists a, r = Ok a /\ P a.
Proof. destruct r; cbn; [eauto|done]. Qed.

(** ** Records *)

(** The Go values that SQLite can hold. *)
Definition encodable (v : sqlvalue) : Prop :=
  match v with
  | VUint n => n <= MaxInt64
  | VOther => False
  | _ => True
  end.

Lemma encodeRecord_yields values encoding : Forall encodable values -> yields (fun _ => True) (encodeRecord values encoding).
Proof.
  intros Hv. unfold encodeRecord. assert (Hf : forall serials body, yields (fun _ => True) (encode_fields values encoding serials body)).
  { induction Hv as [|v values Hv _ IH]; intros serials body; cbn [encode_fields]; [done|].
    eapply (yields_wrap (fun _ => True)); [|intros [serial field] _; apply IH]. destruct v; cbn [encodeField encodable] in *; try done.
    by replace (MaxInt64 <? n) with false by lia. }
  eapply yields_bind; [apply Hf|]. intros [serials body] _ _. destruct (header_size_ok (zlen serials) (zlen_nonneg _)) as (h & -> & _). done.
Qed.

Lemma varint_small v : 0 <= v < 2 ^ 21 -> zlen (encodeVarint v) <= 3.
Proof.
  intros Hv. unfold encodeVarint. cbn [varint_size]. rewrite !Z.shiftl_1_l. change (2 ^ (7 * 1)) with 128.
  change (2 ^ (7 * (1 + 1))) with 16384. change (2 ^ (7 * (1 + 1 + 1))) with 2097152.
  destruct (v <? 128); [|destruct (v <? 16384); [|replace (v <? 2097152) with true by lia]]; rewrite varint_groups_app, zlen_app, zlen_groups;
    change (zlen [Z.land v 0x7f]) with 1; lia.
Qed.

(** The bytes of some cells. *)
Definition cells_size (cells : list bytes) : Z := foldr (fun c acc => zlen c + acc) 0 cells.

Lemma cells_size_nonneg cells : 0 <= cells_size cells.
Proof. induction cells as [|c cells IH]; [done|]. cbn [cells_size foldr]. fold (cells_size cells). pose proof (zlen_nonneg c). lia. Qed.

Lemma cells_size_app a b : cells_size (a ++ b) = cells_size a + cells_size b.
Proof. induction a as [|c a IH]; [done|]. cbn [cells_size foldr app]. fold (cells_size (a ++ b)). fold (cells_size a). lia. Qed.

Lemma cells_size_bound cells m : Forall (fun c => zlen c <= m) cells -> cells_size cells <= zlen cells * m.
Proof.
  induction 1 as [|c cells Hc _ IH]; [done|]. cbn [cells_size foldr]. fold (cells_size cells). rewrite zlen_cons. lia.
Qed.

Section fits.
Context (options : BuildOptions).
Notation ps := (bo_PageSize options).
Notation encoding := (bo_Encoding options).
Hypothesis Hps : 512 <= ps <= 65536.

(** The pages after an operation. *)
Definition onward (b b' : list bytes) : Prop := (length b <= length b')%nat /\ sized options b'.

Lemma onward_trans b b1 b2 : onward b b1 -> onward b1 b2 -> onward b b2.
Proof. intros [? ?] [? ?]. split; [lia|done]. Qed.

Lemma allocate_onward b : sized options b -> onward b (b ++ [zeros ps]).
Proof.
  intros Hb. split; [rewrite length_app; lia|]. apply sized_app. split; [done|]. apply Forall_singleton, zlen_zeros. lia.
Qed.

Lemma write_cells_yields cells page pointers count i content :
  pointers + count * 2 + cells_size cells <= content -> yields (fun _ => True) (write_cells cells page pointers count i content).
Proof.
  revert page i content. induction cells as [|c cells IH]; intros page i content H; cbn [write_cells]; [done|].
  cbn [cells_size foldr] in H. fold (cells_size cells) in H. pose proof (cells_size_nonneg cells).
  replace (content - zlen c <? pointers + count * 2) with false by lia. apply IH. lia.
Qed.

Lemma builder_page_yields b n : valid b n -> sized options b -> yields (fun p => zlen p = ps) (builder_page b n).
Proof.
  intros [H1 H2] Hb. unfold builder_page, index. replace (u32 (n - 1) <? 0) with false by lia.
  destruct (lookup_lt_is_Some_2 b (Z.to_nat (u32 (n - 1)))) as [p E]; [unfold zlen in H2; lia|]. rewrite E. by eapply sized_lookup.
Qed.

Lemma writeBtreePage_yields b n hdr t r cells :
  sized options b -> valid b n -> hdr = 0 \/ hdr = 100 -> Forall (fun c => 0 < zlen c) cells ->
  hdr + header_length t + zlen cells * 2 + cells_size cells <= ps ->
  yields (fun b' => length b' = length b /\ sized options b') (writeBtreePage options b n hdr t r cells).
Proof.
  intros Hb Hv Hh Hne Hfit. assert (Hy : yields (fun _ => True) (writeBtreePage options b n hdr t r cells)).
  { unfold writeBtreePage. eapply yields_bind; [by apply builder_page_yields|]. intros page _ Hp. cbv beta in Hp. cbv zeta. fold (interior t). fold (header_length t).
    eapply (yields_bind (fun _ => True)); [|by intros [? ?]]. apply write_cells_yields.
    assert (L0 : zlen (take (Z.to_nat hdr) page ++ zeros (zlen page - hdr)) = ps).
    { rewrite zlen_app, zlen_zeros by lia. unfold zlen in *. rewrite length_take. lia. }
    destruct (interior t); [rewrite zlen_splice by (rewrite ?zlen_be_bytes; lia)|]; lia. }
  apply yields_Ok in Hy as (b' & E & _). rewrite E. cbn [yields].
  destruct (writeBtreePage_node options Hps b n hdr t r cells b' E Hb Hh Hne) as (page & -> & Hp & _).
  split; [apply set_page_length|]. by apply Forall_insert.
Qed.

(** ** Cells *)

Lemma overflow_loop_yields fuel b first previous data :
  sized options b -> (length data <= fuel)%nat -> (previous <> 0 -> valid b previous) ->
  yields (fun r => onward b r.1) (overflow_loop options fuel b first previous data).
Proof.
  revert b first previous data. induction fuel as [|fuel IH]; intros b first previous data Hb Hf Hv; cbn [overflow_loop].
  { destruct data; [|simpl in Hf; lia]. split; [exact (Nat.le_refl _)|done]. }
  destruct (Z.eqb_spec (zlen data) 0) as [|Hd]; [split; [exact (Nat.le_refl _)|done]|]. unfold allocate.
  pose proof (allocate_onward b Hb) as [Hl1 Hb1]. set (b1 := b ++ [zeros ps]) in *. set (number := u32 (zlen b + 1)).
  assert (Hn : valid b1 number) by apply allocated_valid. pose proof (fun v => zlen_be_bytes 4 v) as Lb. change (Z.of_nat 4) with 4 in Lb.
  eapply (yields_bind (fun b2 => length b2 = length b1 /\ sized options b2)).
  { destruct (Z.eqb_spec previous 0) as [|Hp]; [done|]. cbn [negb].
    eapply yields_bind; [apply builder_page_yields; [eapply valid_mono; [by apply Hv|done]|done]|].
    intros page _ Hpl. cbv beta in Hpl. split; [apply set_page_length|]. apply Forall_insert; [done|]. rewrite zlen_splice; rewrite ?Lb; lia. }
  intros b2 _ [Hl2 Hb2]. assert (Hn2 : valid b2 number) by (eapply valid_mono; [exact Hn|lia]).
  eapply yields_bind; [by apply builder_page_yields|]. intros page _ Hpl. cbv beta in Hpl. set (count := Z.to_nat (Z.min (zlen data) (ps - 4))).
  assert (Hb3 : sized options (builder_set_page b2 number (splice page 4 (take count data)))).
  { apply Forall_insert; [done|]. rewrite zlen_splice; [done|lia|]. unfold count, zlen in *. rewrite length_take. lia. }
  eapply yields_impl; [apply IH; [exact Hb3| |]|].
  - rewrite length_drop. unfold count, zlen in *. lia.
  - intros _. eapply valid_mono; [exact Hn2|]. by rewrite set_page_length.
  - intros [b3 f] [H1 H2]. cbn [fst] in *. rewrite set_page_length in H1. split; [cbn [fst]; lia|done].
Qed.

Lemma payloadCell_yields b prefix payload tableLeaf : sized options b ->
  let local := local_payload ps (zlen payload) tableLeaf in
  yields (fun r => onward b r.1 /\ zlen r.2 = zlen prefix + local + (if negb (local =? zlen payload) then 4 else 0))
    (payloadCell options b prefix payload tableLeaf).
Proof.
  intros Hb local. assert (Hl : 0 <= local <= zlen payload).
  { apply local_payload_bound; [done|apply zlen_nonneg]. }
  assert (Ht : zlen (take (Z.to_nat local) payload) = local) by (unfold zlen in *; rewrite length_take; lia).
  unfold payloadCell. fold local. cbv zeta. destruct (Z.eqb_spec local (zlen payload)) as [E|E]; cbn [negb].
  - split; [split; [exact (Nat.le_refl _)|done]|]. cbn [snd]. rewrite zlen_app. lia.
  - eapply yields_bind; [by apply overflow_loop_yields|]. intros [b' first] _ Ho. split; [done|]. cbn [snd].
    rewrite !zlen_app, zlen_be_bytes. lia.
Qed.

Lemma tableLeafCell_yields b rowid values : sized options b -> Forall encodable values ->
  yields (fun r => onward b r.1 /\ 0 < zlen r.2 <= ps - 13) (tableLeafCell options b rowid values).
Proof.
  intros Hb Hv. unfold tableLeafCell. eapply yields_bind; [by apply encodeRecord_yields|]. intros payload _ _.
  eapply yields_impl; [by apply payloadCell_yields|]. intros [b' cell] [Ho Hc]. cbn [fst snd] in *. split; [done|].
  pose proof (zlen_nonneg payload) as Hp. pose proof (encodeVarint_length (zlen payload) Hp).
  pose proof (encodeVarint_length (u64 rowid) ltac:(unfold u64; apply Z.mod_pos_bound; lia)). rewrite zlen_app in Hc.
  destruct (local_payload_bound ps (zlen payload) true Hps Hp) as [Hl Hl'].
  destruct (Z.eqb_spec (local_payload ps (zlen payload) true) (zlen payload)) as [E|E]; cbn [negb] in Hc.
  - assert (zlen payload <= ps - 35).
    { unfold local_payload in E. destruct (Z.ltb_spec (ps - 35) (zlen payload)); [|lia].
      pose proof (Z.mod_pos_bound (zlen payload - ((ps - 12) * 32 / 255 - 23)) (ps - 4) ltac:(lia)).
      assert ((ps - 12) * 32 / 255 - 23 <= ps - 35) by (Z.to_euclidean_division_equations; lia).
      destruct (Z.ltb_spec (ps - 35) ((ps - 12) * 32 / 255 - 23 + (zlen payload - ((ps - 12) * 32 / 255 - 23)) mod (ps - 4))); lia. }
    pose proof (varint_small (zlen payload) ltac:(lia)). lia.
  - specialize (Hl' E). lia.
Qed.

Lemma indexCell_yields b row width : sized options b -> indexCellSize options row = Ok width ->
  yields (fun r => onward b r.1 /\ 0 < zlen r.2 /\ zlen r.2 = width) (indexCell options b row).
Proof.
  intros Hb Hw. unfold indexCellSize in Hw. unfold indexCell. destruct (encodeRecord (row_Values row) encoding) as [payload|]; [|done].
  cbn [res_bind] in *. injection Hw as <-. eapply yields_impl; [by apply payloadCell_yields|]. intros [b' cell] [Ho Hc]. cbn [fst snd] in *.
  pose proof (zlen_nonneg payload) as Hp. pose proof (encodeVarint_length (zlen payload) Hp).
  destruct (local_payload_bound ps (zlen payload) false Hps Hp) as [Hl _].
  split; [done|]. split; [|lia]. destruct (negb _); lia.
Qed.

(** ** Tables *)

Lemma valid_onward b b' n : valid b n -> onward b b' -> valid b' n.
Proof. intros Hv [Hl _]. by eapply valid_mono. Qed.

Lemma write_leaves_yields rows b : sized options b -> Forall (fun r => Forall encodable r.2) rows ->
  yields (fun r => onward b r.1 /\ length r.2 = length rows) (write_leaves options b rows).
Proof.
  intros Hb Hr. revert b Hb. induction Hr as [|[rowid values] rows Hv _ IH]; intros b Hb; cbn [write_leaves].
  { split; [split; [exact (Nat.le_refl _)|done]|done]. }
  unfold allocate. pose proof (allocate_onward b Hb) as Ho. eapply yields_bind; [apply tableLeafCell_yields; [apply Ho|done]|].
  intros [b1 cell] _ [Ho1 Hc]. cbn [fst snd] in *.
  eapply yields_bind; [apply writeBtreePage_yields; [apply Ho1|eapply valid_onward; [apply allocated_valid|done]|by left|apply Forall_singleton; lia|]|].
  { change (header_length 0x0d) with 8. change (zlen [cell]) with 1. cbn [cells_size foldr]. lia. }
  intros b2 _ [H1 H2]. eapply yields_bind; [by apply IH|]. intros [b3 level] _ [Ho3 Hl]. cbn [yields fst snd length] in *.
  split; [|by rewrite Hl]. destruct Ho as [? _], Ho1 as [? _], Ho3 as [? ?]. split; [lia|done].
Qed.

Lemma writeTableInterior_yields b n hdr children :
  sized options b -> valid b n -> hdr = 0 \/ hdr = 100 -> (2 <= length children <= 20)%nat ->
  yields (fun b' => length b' = length b /\ sized options b') (writeTableInterior options b n hdr children).
Proof.
  intros Hb Hv Hh Hc. unfold writeTableInterior. replace (zlen children <? 2) with false by (unfold zlen; lia).
  destruct (last children) as [c|] eqn:El; [|apply last_None in El as ->; simpl in Hc; lia].
  set (cells := _ <$> take (length children - 1) children).
  assert (Hcells : Forall (fun c => 0 < zlen c <= 13) cells).
  { apply Forall_fmap, Forall_true. intros x. change (0 < zlen (be_bytes 4 (bp_number x) ++ encodeVarint (u64 (bp_last x))) <= 13).
    rewrite zlen_app, zlen_be_bytes. pose proof (encodeVarint_length (u64 (bp_last x)) ltac:(unfold u64; apply Z.mod_pos_bound; lia)). lia. }
  assert (Hl : zlen cells <= 19) by (unfold cells, zlen; rewrite length_fmap, length_take; lia).
  assert (Ht : cells_size cells <= zlen cells * 13) by (apply cells_size_bound; eapply Forall_impl; [exact Hcells|cbv beta; lia]).
  apply writeBtreePage_yields; [done|done|done|eapply Forall_impl; [exact Hcells|cbv beta; lia]|]. change (header_length 0x05) with 12. lia.
Qed.

Lemma group_count_range n : 3 <= n -> 3 <= group_count n <= Z.min 20 n /\ (n - group_count n = 0 \/ 3 <= n - group_count n).
Proof. intros. unfold group_count. repeat case_match; lia. Qed.

Lemma write_parents_yields fuel b level :
  sized options b -> (length level <= fuel)%nat -> length level = 0%nat \/ (3 <= length level)%nat ->
  yields (fun r => onward b r.1 /\ (2 * length r.2 <= length level)%nat /\ ((1 <= length level)%nat -> (1 <= length r.2)%nat) /\
            ((20 < length level)%nat -> (2 <= length r.2)%nat)) (write_parents options fuel b level).
Proof.
  revert b level. induction fuel as [|fuel IH]; intros b [|child level] Hb Hf Hn; cbn [write_parents].
  1, 3: split; [split; [exact (Nat.le_refl _)|done]|cbn [snd length]; lia].
  { simpl in Hf. lia. }
  set (all := child :: level) in *. assert (Hl : 3 <= zlen all) by (unfold zlen; destruct Hn; [done|lia]).
  destruct (group_count_range _ Hl) as [Hg Hrest]. set (k := Z.to_nat (group_count (zlen all))).
  assert (Hk : length (take k all) = k) by (rewrite length_take; unfold k, zlen in *; lia). unfold allocate.
  pose proof (allocate_onward b Hb) as Ho.
  eapply yields_bind; [apply writeTableInterior_yields; [apply Ho|apply allocated_valid|by left|unfold k in *; lia]|]. intros b1 _ [H1 H2].
  destruct (last (take k all)) as [c|] eqn:El; [|apply last_None in El; rewrite El in Hk; simpl in Hk; unfold k in Hk; lia].
  assert (Hd : length (drop k all) = (length all - k)%nat) by apply length_drop.
  eapply yields_bind; [apply IH; [done|unfold k, zlen in *; lia|unfold k, zlen in *; lia]|]. intros [b2 next] _ ([H3 H4] & H5 & H6 & _).
  cbn [yields fst snd] in *. rewrite Hd in *. destruct Ho as [Ho _]. split; [split; [cbn [fst]; lia|done]|]. cbn [length] in *. unfold k, zlen in *. lia.
Qed.

Lemma raise_levels_yields fuel b level :
  sized options b -> (length level <= fuel)%nat -> (2 <= length level)%nat ->
  yields (fun r => onward b r.1 /\ (2 <= length r.2 <= 20)%nat) (raise_levels options fuel b level).
Proof.
  revert b level. induction fuel as [|fuel IH]; intros b level Hb Hf Hn; cbn [raise_levels]; [lia|].
  destruct (Z.ltb_spec 20 (zlen level)) as [Hl|Hl].
  2: { split; [split; [exact (Nat.le_refl _)|done]|]. cbn [snd]. unfold zlen in Hl. lia. }
  unfold zlen in Hl. eapply yields_bind; [apply write_parents_yields; [done|done|lia]|]. intros [b1 next] _ (Ho & H2 & _ & H4). cbn [fst snd] in *.
  eapply yields_impl; [apply IH; [apply Ho|lia|lia]|]. intros [b2 next'] [Ho2 H5]. split; [by eapply onward_trans|done].
Qed.

(** Row identifiers there and increasing. *)
Fixpoint increasing (rows : list Row) (previous : option Z) : Prop :=
  match rows with
  | [] => True
  | row :: rows => exists id, row_RowID row = Some id /\ match previous with Some p => p < id | None => True end /\ increasing rows (Some id)
  end.

Lemma check_rowids_yields rows previous :
  increasing rows previous -> yields (fun _ => True) (check_rowids rows previous).
Proof.
  revert previous. induction rows as [|row rows IH]; intros previous Hi; cbn [check_rowids]; [done|].
  destruct Hi as (id & -> & Hp & Hi). replace (match previous with Some p => id <=? p | None => false end) with false by (destruct previous; lia).
  eapply yields_bind; [by apply IH|done].
Qed.

Definition table_rows_ok (rows : list Row) : Prop := increasing rows None /\ Forall (fun row => Forall encodable (row_Values row)) rows.

(** The bytes a row takes in a leaf of a table. *)
Definition leaf_size (rowid : Z) (payload : bytes) : Z :=
  let local := local_payload ps (zlen payload) true in
  zlen (encodeVarint (zlen payload)) + zlen (encodeVarint (u64 rowid)) + local + (if negb (local =? zlen payload) then 4 else 0).

(** A single row of the schema shares page 1 with the header of the file, its
    own header and its pointer. *)
Definition schema_fits (rows : list Row) : Prop :=
  forall rowid values payload, rows = [MkRow (Some rowid) values] -> encodeRecord values encoding = Ok payload ->
    100 + 8 + 2 + leaf_size rowid payload <= ps.

Lemma buildTable_yields b root rows schema :
  sized options b -> valid b root -> table_rows_ok rows -> (schema = true -> schema_fits rows) ->
  yields (onward b) (buildTable options b root rows schema).
Proof.
  intros Hb Hv [Hi He] Hs. unfold buildTable. eapply yields_bind; [by apply check_rowids_yields|]. intros rs Ers _. cbv zeta.
  apply check_rowids_ok in Ers. subst rows. rewrite Forall_fmap in He. set (hdr := if schema then 100 else 0).
  assert (Hh : hdr = 0 \/ hdr = 100) by (unfold hdr; destruct schema; lia).
  assert (Hdone : forall b1 r, onward b b1 -> yields (fun b' => length b' = length b1 /\ sized options b') r -> yields (onward b) r).
  { intros b1 r [Ho _] Hr. eapply yields_impl; [exact Hr|]. intros b' [? ?]. split; [lia|done]. }
  assert (Ho0 : onward b b) by (split; [exact (Nat.le_refl _)|done]). destruct rs as [|[rowid values] [|r2 rs]].
  - apply (Hdone b); [done|]. apply writeBtreePage_yields; [done|done|done|constructor|]. change (hdr + 8 + 0 * 2 + 0 <= ps). lia.
  - inversion He as [|? ? Hv1 _]; subst. eapply yields_bind; [by apply tableLeafCell_yields|]. intros [b1 cell] Ec [Ho Hc]. cbn [fst snd] in *.
    apply (Hdone b1); [done|]. apply writeBtreePage_yields; [apply Ho|by eapply valid_onward|done|apply Forall_singleton; lia|].
    change (header_length 0x0d) with 8. change (zlen [cell]) with 1. cbn [cells_size foldr]. unfold hdr. destruct schema; [|lia].
    unfold tableLeafCell in Ec. cbn [fst snd] in Hv1. destruct (encodeRecord values encoding) as [payload|] eqn:Ep; [|done]. cbn [res_bind] in Ec.
    specialize (Hs eq_refl rowid values payload eq_refl Ep). unfold leaf_size in Hs. cbv zeta in Hs.
    pose proof (payloadCell_yields b (encodeVarint (zlen payload) ++ encodeVarint (u64 rowid)) payload true Hb) as Hy. rewrite Ec in Hy.
    destruct Hy as [_ Hy]. cbn [snd] in Hy. rewrite zlen_app in Hy. lia.
  - eapply yields_bind; [by apply write_leaves_yields|]. intros [b1 level] _ [Ho1 Hl1]. cbn [fst snd length] in *.
    eapply yields_bind; [apply raise_levels_yields; [apply Ho1|done|lia]|]. intros [b2 level2] _ [Ho2 Hl2]. cbn [fst snd] in *.
    apply (Hdone b2); [by eapply onward_trans|]. apply writeTableInterior_yields; [apply Ho2| |done|done].
    eapply valid_onward; [exact Hv|]. by eapply onward_trans.
Qed.

(** ** Indexes *)

Section index.
Context (capacity width : Z).
Hypothesis Hcapacity : 2 <= capacity.
Hypothesis Hwidth : 0 <= width.
Hypothesis Hroom : capacity * (width + 6) <= ps - 12.

Definition narrow (row : Row) : Prop := exists w, indexCellSize options row = Ok w /\ w <= width.

Lemma index_cells_yields rows b : sized options b -> Forall narrow rows ->
  yields (fun r => onward b r.1 /\ length r.2 = length rows /\ Forall (fun c => 0 < zlen c <= width) r.2) (index_cells options b rows).
Proof.
  intros Hb Hr. revert b Hb. induction Hr as [|row rows (w & Hw & Hle) _ IH]; intros b Hb; cbn [index_cells].
  { split; [split; [exact (Nat.le_refl _)|done]|]. split; [done|constructor]. }
  eapply yields_bind; [by apply indexCell_yields|]. intros [b1 cell] _ (Ho & Hc1 & Hc2). cbn [fst snd] in *.
  eapply yields_bind; [apply IH, Ho|]. intros [b2 cells] _ (Ho2 & Hl & Hcs). cbn [yields fst snd length] in *.
  split; [by eapply onward_trans|]. split; [by rewrite Hl|]. constructor; [lia|done].
Qed.

Lemma share_upper a n M : 1 <= n -> 0 <= a -> a <= n * M -> a / n <= M /\ a - a / n <= (n - 1) * M.
Proof.
  intros Hn Ha H. split; [apply Z.div_le_upper_bound; lia|].
  pose proof (Z.mul_succ_div_gt a n ltac:(lia)). pose proof (Z.mul_div_le a n ltac:(lia)).
  destruct (Z.le_gt_cases (a / n) (M - 1)); [nia|]. assert (a / n <= M) by (apply Z.div_le_upper_bound; lia). nia.
Qed.

Lemma index_children_yields node n b number rows remaining cells m M :
  (forall b child rows, sized options b -> valid b child -> Forall narrow rows -> m <= zlen rows + 1 <= M -> yields (onward b) (node b child rows)) ->
  1 <= m -> (1 <= n)%nat -> remaining = zlen rows - Z.of_nat n + 1 -> Z.of_nat n * m <= zlen rows + 1 <= Z.of_nat n * M ->
  sized options b -> valid b number -> Forall narrow rows -> Forall (fun c => 0 < zlen c <= width + 4) cells ->
  zlen cells + Z.of_nat n <= capacity + 1 ->
  yields (onward b) (index_children options node n b number rows remaining cells).
Proof.
  intros Hnode Hm. revert b rows remaining cells.
  induction n as [|n IH]; intros b rows remaining cells Hn Hrem Hshare Hb Hv Hrows Hcells Hlen; [lia|].
  cbn [index_children]. unfold allocate. set (count := Z.quot remaining (Z.of_nat (S n))).
  destruct (share_bounds (zlen rows + 1) (Z.of_nat (S n)) m) as (S1 & S2 & S3); [lia|done|lia|].
  destruct (share_upper (zlen rows + 1) (Z.of_nat (S n)) M) as (U1 & U2); [lia|pose proof (zlen_nonneg rows); lia|lia|].
  replace (zlen rows + 1 - Z.of_nat (S n)) with remaining in S3 by lia. fold count in S3.
  set (share := (zlen rows + 1) / Z.of_nat (S n)) in *. assert (Hcr : 0 <= count <= zlen rows) by nia.
  replace ((count <? 0) || (zlen rows <? count)) with false by lia.
  assert (Htake : zlen (take (Z.to_nat count) rows) = count) by (unfold zlen in *; rewrite length_take; lia).
  pose proof (allocate_onward b Hb) as Ho. set (child := u32 (zlen b + 1)).
  eapply yields_bind; [apply Hnode; [apply Ho|apply allocated_valid|by apply Forall_take|lia]|]. intros b1 _ Ho1.
  pose proof (onward_trans _ _ _ Ho Ho1) as Hb1. destruct n as [|n].
  - eapply yields_impl; [apply writeBtreePage_yields; [apply Ho1|by eapply valid_onward|by left|eapply Forall_impl; [exact Hcells|cbv beta; lia]|]|].
    + change (header_length 0x02) with 12. assert (cells_size cells <= zlen cells * (width + 4)).
      { apply cells_size_bound. eapply Forall_impl; [exact Hcells|cbv beta; lia]. }
      pose proof (zlen_nonneg cells). nia.
    + intros b2 [H1 H2]. destruct Hb1 as [? _]. split; [lia|done].
  - assert (Hdrop : zlen (drop (Z.to_nat count) rows) = zlen rows - count) by (unfold zlen in *; rewrite length_drop; lia).
    assert (Hrest : Forall narrow (drop (Z.to_nat count) rows)) by (by apply Forall_drop).
    destruct (drop (Z.to_nat count) rows) as [|row rest]; [rewrite zlen_nil in Hdrop; nia|]. rewrite zlen_cons in Hdrop.
    apply Forall_cons in Hrest as [(w & Hw & Hle) Hrest].
    eapply yields_bind; [by apply indexCell_yields; [apply Ho1|]|]. intros [b2 payload] _ (Ho2 & Hp1 & Hp2). cbn [fst snd] in *.
    pose proof (onward_trans _ _ _ Hb1 Ho2) as Hb2.
    eapply yields_impl; [apply IH; [lia|lia|nia|apply Ho2|by eapply valid_onward|done| |]|].
    + apply Forall_app. split; [done|]. apply Forall_singleton. rewrite zlen_app, zlen_be_bytes. lia.
    + rewrite zlen_app, zlen_cons, zlen_nil. lia.
    + intros b3 Hb3. by eapply onward_trans.
Qed.

Lemma buildIndexNode_yields h b number rows (root : bool) :
  sized options b -> valid b number -> Forall narrow rows -> zlen rows <= maximum_child h capacity ->
  match h with
  | O => True
  | S h' => if root then maximum_child h' capacity + 1 < zlen rows + 1
            else (capacity + 1) * (maximum_child h' capacity + 1) / 2 <= zlen rows + 1
  end ->
  yields (onward b) (buildIndexNode options h b number rows capacity root).
Proof.
  revert b number rows root. induction h as [|h IH]; intros b number rows root Hb Hv Hrows Hup Ha; cbn [buildIndexNode].
  { cbn [maximum_child] in Hup. eapply yields_bind; [by apply index_cells_yields|]. intros [b1 cells] _ (Ho & Hl & Hc). cbn [fst snd] in *.
    eapply yields_impl; [apply writeBtreePage_yields; [apply Ho|by eapply valid_onward|by left|eapply Forall_impl; [exact Hc|cbv beta; lia]|]|].
    - change (header_length 0x0a) with 8. assert (cells_size cells <= zlen cells * width) by (apply cells_size_bound; eapply Forall_impl; [exact Hc|cbv beta; lia]).
      pose proof (zlen_nonneg cells). assert (zlen cells <= capacity) by (unfold zlen in *; lia). nia.
    - intros b2 [H1 H2]. destruct Ho as [? _]. split; [lia|done]. }
  cbv zeta. cbn [maximum_child] in Hup. set (Q := maximum_child h capacity + 1) in *.
  assert (HQ : 3 <= Q).
  { unfold Q. rewrite maximum_child_pow. rewrite Z.pow_add_r, Z.pow_1_r by lia. pose proof (Z.pow_pos_nonneg (capacity + 1) (Z.of_nat h)). nia. }
  replace (zlen rows + 1 + maximum_child h capacity) with (zlen rows + 1 + Q - 1) by (unfold Q; lia).
  destruct (index_split (zlen rows + 1) Q (capacity + 1) root ltac:(lia) HQ Ha) as (Hk & Hlow & Hhalf & Hhigh & Hkq).
  set (k := if negb root then _ else _) in *. specialize (Hkq ltac:(lia)).
  apply (index_children_yields _ _ _ _ _ _ _ (Q / 2) Q); [|lia|lia|lia|lia|done|done|done|constructor|rewrite zlen_nil; lia].
  intros b1 child rows1 Hb1 Hv1 Hrows1 Hr1. apply IH; [done|done|done|unfold Q in Hr1; lia|]. destruct h as [|h]; [done|].
  unfold Q in Hr1. cbn [maximum_child] in Hr1. etransitivity; [|exact (proj1 Hr1)]. apply Z.div_le_mono; lia.
Qed.
End index.

Definition index_rows (rows : list Row) : Prop :=
  Forall (fun row => row_RowID row = None /\ Forall encodable (row_Values row)) rows /\ zlen rows <= MaxInt64.

(** No cell of an index is wider than this, so that two always fit a page. *)
Definition widest : Z := (ps - 12) * 64 / 255 - 10.

Lemma indexCellSize_yields row : Forall encodable (row_Values row) -> yields (fun w => 0 <= w <= widest) (indexCellSize options row).
Proof.
  intros Hv. unfold indexCellSize. eapply yields_bind; [by apply encodeRecord_yields|]. intros payload _ _. cbv zeta. cbn [yields].
  pose proof (zlen_nonneg payload) as Hp. pose proof (encodeVarint_length (zlen payload) Hp).
  destruct (local_payload_bound ps (zlen payload) false Hps Hp) as [Hl _].
  assert (local_payload ps (zlen payload) false <= (ps - 12) * 64 / 255 - 23); [|unfold widest; destruct (negb _); lia].
  unfold local_payload. destruct (Z.ltb_spec ((ps - 12) * 64 / 255 - 23) (zlen payload)); [|lia].
  destruct (Z.ltb_spec ((ps - 12) * 64 / 255 - 23) ((ps - 12) * 32 / 255 - 23 + (zlen payload - ((ps - 12) * 32 / 255 - 23)) mod (ps - 4))); [|lia].
  Z.to_euclidean_division_equations; lia.
Qed.

Lemma maximum_cell_yields rows m : 0 <= m <= widest -> Forall (fun row => row_RowID row = None /\ Forall encodable (row_Values row)) rows ->
  yields (fun r => m <= r <= widest /\ Forall (narrow r) rows) (maximum_cell options rows m).
Proof.
  intros Hm Hr. revert m Hm. induction Hr as [|row rows [Hid Hv] _ IH]; intros m Hm; cbn [maximum_cell]; [by split; [lia|constructor]|].
  rewrite Hid. eapply yields_bind; [by apply indexCellSize_yields|]. intros w Hw Hwide. cbv beta in Hwide.
  eapply yields_impl; [apply IH; lia|]. intros r [Hle Hn]. cbv beta. split; [lia|]. constructor; [|done]. exists w. split; [done|lia].
Qed.

Lemma buildIndex_yields b root rows :
  sized options b -> valid b root -> index_rows rows -> yields (onward b) (buildIndex options b root rows).
Proof.
  intros Hb Hv [Hr Hn]. unfold buildIndex.
  assert (Hwide : 0 <= widest /\ 2 * (widest + 6) <= ps - 12) by (unfold widest; Z.to_euclidean_division_equations; lia).
  eapply yields_bind; [apply maximum_cell_yields; [lia|done]|]. intros width _ [Hw Hrows]. cbv zeta. set (capacity := (ps - 12) / (width + 6)).
  assert (Hc : 2 <= capacity) by (apply Z.div_le_lower_bound; lia). replace (capacity <? 2) with false by lia.
  assert (Hroom : capacity * (width + 6) <= ps - 12) by (pose proof (Z.mul_div_le (ps - 12) (width + 6) ltac:(lia)); fold capacity in H; lia).
  destruct (index_height_ok 64 0 capacity (zlen rows)) as (h & Eh & Hup & Hlow); [done|done|lia|].
  cbn [maximum_child Nat.add] in Eh, Hup, Hlow. rewrite Eh. cbn [res_bind].
  apply (buildIndexNode_yields capacity width); [done|lia|done|done|done|done|done|]. destruct h as [|h]; [done|]. lia.
Qed.

(** ** Objects *)

Definition object_valid (o : Object) : Prop :=
  ob_Name o <> [] /\
  (ob_Type o = gostr "table" /\ table_rows_ok (ob_Rows o) \/ ob_Type o = gostr "index" /\ index_rows (ob_Rows o) \/
   (ob_Type o = gostr "view" \/ ob_Type o = gostr "trigger") /\ ob_Rows o = []).

(** The root page a valid object gets. *)
Definition root_of (o : Object) (b : list bytes) : Z := if rooted o then u32 (zlen b + 1) else 0.

Definition prepared_valid (b : list bytes) (p : buildObject) : Prop :=
  object_valid (bd_definition p) /\ (rooted (bd_definition p) = true -> valid b (bd_root p)).

Lemma prepare_cons o objects b seen :
  object_valid o -> ob_Name o ∉ seen ->
  prepare options (o :: objects) b seen =
  res_bind (prepare options objects (if rooted o then b ++ [zeros ps] else b) (ob_Name o :: seen))
    (fun r => Ok (r.1, MkBuildObject (named o) (root_of o b) :: r.2)).
Proof.
  intros [Hname Hkind] Hseen. cbn [prepare]. rewrite (bool_decide_false (ob_Name o = [])), (bool_decide_false (ob_Name o ∈ seen)) by done.
  rewrite bool_decide_false by (destruct Hkind as [[-> _]|[[-> _]|[[-> | ->] _]]]; done). cbn [orb]. cbv zeta. fold (rooted o) (named o).
  unfold root_of. destruct (rooted o) eqn:Er.
  - cbn [res_bind allocate]. destruct (prepare _ _ _ _) as [[]|]; done.
  - assert (bool_decide (ob_Type o = gostr "view") || bool_decide (ob_Type o = gostr "trigger") = true /\ ob_Rows o = []) as [-> ->].
    { unfold rooted, is_table, is_index in Er. destruct Hkind as [[E _]|[[E _]|[[E|E] ->]]]; rewrite E in *; done. }
    change (negb (zlen [] =? 0)) with false. cbn [res_bind]. destruct (prepare _ _ _ _) as [[]|]; done.
Qed.

Lemma object_valid_named o : object_valid o -> object_valid (named o).
Proof. done. Qed.

Lemma prepare_yields objects b seen :
  sized options b -> Forall object_valid objects -> NoDup (ob_Name <$> objects) -> (forall o, o ∈ objects -> ob_Name o ∉ seen) ->
  yields (fun r => onward b r.1 /\ Forall (prepared_valid r.1) r.2 /\ length r.2 = length objects /\
            (forall o, objects = [o] -> r.2 = [MkBuildObject (named o) (root_of o b)])) (prepare options objects b seen).
Proof.
  intros Hb Ho. revert b seen Hb. induction Ho as [|o objects Ho _ IH]; intros b seen Hb Hnd Hseen.
  { split; [split; [exact (Nat.le_refl _)|done]|]. by repeat constructor. }
  rewrite fmap_cons in Hnd. apply NoDup_cons in Hnd as [Hnew Hnd]. rewrite prepare_cons by (done || apply Hseen; by left).
  set (b1 := if rooted o then b ++ [zeros ps] else b).
  assert (H1 : onward b b1 /\ (rooted o = true -> valid b1 (root_of o b))).
  { unfold b1, root_of. destruct (rooted o); [split; [by apply allocate_onward|intros _; apply allocated_valid]|].
    split; [split; [exact (Nat.le_refl _)|done]|done]. }
  destruct H1 as [H1 H2]. eapply yields_bind; [apply IH; [apply H1|done|]|].
  { intros o' Ho'. rewrite not_elem_of_cons. split; [|apply Hseen; by right]. intros E. apply Hnew. rewrite <- E. by apply list_elem_of_fmap_2. }
  intros [b2 prepared] _ (H3 & H4 & H5 & _). cbn [yields fst snd length] in *. split; [by eapply onward_trans|]. split; [|split; [by rewrite H5|]].
  - constructor; [|done]. split; [exact Ho|]. intros Hr. eapply valid_onward; [by apply H2|done].
  - intros o' E. injection E as -> ->. destruct prepared; [done|discriminate].
Qed.

Lemma build_objects_yields prepared b :
  sized options b -> Forall (prepared_valid b) prepared -> yields (onward b) (build_objects options b prepared).
Proof.
  revert b. induction prepared as [|p prepared IH]; intros b Hb Hp; cbn [build_objects]; [split; [exact (Nat.le_refl _)|done]|].
  apply Forall_cons in Hp as [[[_ Hkind] Hv] Hp]. cbv zeta. eapply (yields_wrap (onward b)).
  { unfold rooted, is_table, is_index in *.
    destruct Hkind as [[E Hr]|[[E Hr]|[[E|E] _]]]; rewrite E in *; cbn [bool_decide orb decide] in *.
    - by apply buildTable_yields; [|apply Hv| |].
    - apply buildIndex_yields; [done|by apply Hv|done].
    - split; [exact (Nat.le_refl _)|done].
    - split; [exact (Nat.le_refl _)|done]. }
  intros b1 H1. eapply yields_impl; [apply IH; [apply H1|]|intros b2 H2; by eapply onward_trans].
  eapply Forall_impl; [exact Hp|]. intros q [Hq1 Hq2]. split; [done|]. intros Hr. eapply valid_onward; [by apply Hq2|done].
Qed.

(** ** Databases *)

Lemma schema_rows_valid prepared : table_rows_ok (schema_rows prepared).
Proof.
  split; [|unfold schema_rows; apply Forall_forall; intros row Hrow; apply elem_of_lookup_imap in Hrow as (i & p & -> & _); by repeat constructor].
  unfold schema_rows. change (fun i object => MkRow (Some (Z.of_nat i + 1)) (schema_values object))
    with (fun i object => MkRow (Some (Z.of_nat (0 + i) + 1)) (schema_values object)).
  assert (Hlow : forall previous : option Z, match previous with Some q => q < Z.of_nat 0 + 1 | None => True end ->
    increasing (imap (fun i object => MkRow (Some (Z.of_nat (0 + i) + 1)) (schema_values object)) prepared) previous); [|by apply Hlow].
  generalize O at 1 2 as k. induction prepared as [|p prepared IH]; intros k previous Hk; [done|]. cbn [imap increasing].
  exists (Z.of_nat (k + 0) + 1). split; [done|]. split; [destruct previous; [lia|done]|].
  rewrite (imap_ext _ (fun i o => MkRow (Some (Z.of_nat (S k + i) + 1)) (schema_values o))); [apply (IH (S k)); lia|].
  intros i o _. cbn. do 3 f_equal. lia.
Qed.

(** The objects that SQLite can hold; a single one must leave its schema row
    room on page 1. *)
Definition buildable (objects : list Object) : Prop :=
  NoDup (ob_Name <$> objects) /\ Forall object_valid objects /\
  forall o payload, objects = [o] ->
    encodeRecord (schema_values (MkBuildObject (named o) (if rooted o then 2 else 0))) encoding = Ok payload ->
    100 + 8 + 2 + leaf_size 1 payload <= ps.

Definition too_many_pages : error := Errorf "sqlite: generated page count %d exceeds limit".

Lemma build_pages_succeeds objects e : buildable objects -> build_pages options objects = Err e -> e = too_many_pages.
Proof.
  intros (Hnd & Hv & Hs) He. unfold build_pages, allocate in He. set (b0 := [] ++ [zeros ps]) in *.
  assert (Hb0 : sized options b0) by (apply Forall_singleton, zlen_zeros; lia).
  destruct (yields_Ok _ _ (prepare_yields objects b0 [] Hb0 Hv Hnd (fun o _ => not_elem_of_nil _))) as ([b1 prepared] & E1 & Ho1 & Hp & Hl & Hone).
  rewrite E1 in He. cbn [res_bind fst snd] in *.
  destruct (yields_Ok _ _ (build_objects_yields prepared b1 (proj2 Ho1) Hp)) as (b2 & E2 & Ho2). rewrite E2 in He. cbn [res_bind] in He.
  assert (Hfits : schema_fits (schema_rows prepared)).
  { intros rowid values payload Hrow Henc. destruct objects as [|o [|]]; destruct prepared as [|p [|]]; try done.
    specialize (Hone o eq_refl). injection Hone as ->. injection Hrow as <- <-. by apply (Hs o). }
  assert (Hv2 : valid b2 1) by (apply first_valid; destruct Ho1 as [Hl1 _], Ho2 as [Hl2 _]; simpl in Hl1; lia).
  destruct (yields_Ok _ _ (buildTable_yields b2 1 _ true (proj2 Ho2) Hv2 (schema_rows_valid prepared) (fun _ => Hfits))) as (b3 & E3 & Ho3).
  rewrite E3 in He. destruct (maximumPages <? zlen b3); [by injection He as <-|].
  unfold writeHeader in He. revert He. by destruct (yields_Ok _ _ (builder_page_yields b3 1 (valid_onward _ _ _ Hv2 Ho3) (proj2 Ho3))) as (page & -> & _).
Qed.
End fits.

(** The options [Build] takes, defaults filled in. *)
Definition options_valid (options : BuildOptions) : Prop :=
  512 <= bo_PageSize options <= 65536 /\ Z.land (bo_PageSize options) (bo_PageSize options - 1) = 0 /\ 1 <= bo_Encoding options <= 3 /\
  0 <= bo_UserVersion options < 2 ^ 32 /\ 0 <= bo_ApplicationID options < 2 ^ 32.


Definition example_objects : list Object :=
  [MkObject (gostr "table") (gostr "t") [] (gostr "CREATE TABLE t(a, b)")
     [MkRow (Some (-3)) [VInt 300; VBlob (zeros 700)]; MkRow (Some 1) [VBool true; VText (gostr "x")]];
   MkObject (gostr "index") (gostr "i") (gostr "t") [] [MkRow None [VInt 300; VInt (-3)]];
   MkObject (gostr "view") (gostr "v") [] [] []].

Lemma example_ok : Forall (object_ok (with_defaults (MkBuildOptions 512 2 7 0))) example_objects.
Proof.
  assert (Hb : forall s, forallb (fun b => (0 <=? b) && (b <? 256)) s = true -> bytes_ok s).
  { intros s Hs. apply Forall_forall. intros x Hx. rewrite forallb_forall in Hs. apply list_elem_of_In, Hs in Hx. unfold byte_ok. lia. }
  assert (Hr : forall values n, encodeRecord values 2 = Ok n -> zlen n <= 2 ^ 30 -> Forall value_ok values ->
    row_ok (with_defaults (MkBuildOptions 512 2 7 0)) values).
  { intros values n E Hn Hv. split; [done|]. intros payload Hp. change (bo_Encoding (with_defaults (MkBuildOptions 512 2 7 0))) with 2 in Hp. congruence. }
  assert (Ht : forall a b c d, forallb (fun s => forallb (fun b => (0 <=? b) && (b <? 256)) s) [a; b; c; d] = true ->
    Forall bytes_ok [a; b; c; d]).
  { intros a b c d. cbn [forallb]. rewrite !andb_true_iff. intros (? & ? & ? & ? & _). by repeat (apply Forall_cons; split; [by apply Hb|]). }
  assert (Hlim : forall r : res bytes, match r with Ok n => zlen n <=? 2 ^ 30 | Err _ => false end = true -> exists n, r = Ok n /\ zlen n <= 2 ^ 30).
  { intros [n|] Hn; [|done]. exists n. split; [done|lia]. }
  assert (Hrow : forall id values, match encodeRecord values 2 with Ok n => zlen n <=? 2 ^ 30 | Err _ => false end = true ->
    match id with Some id => id_ok id | None => True end -> Forall value_ok values ->
    table_row_ok (with_defaults (MkBuildOptions 512 2 7 0)) (MkRow id values)).
  { intros id values Hn Hid Hv. destruct (Hlim _ Hn) as (n & E & Hl). split; [done|]. by apply (Hr values n). }
  constructor; [|constructor; [|constructor; [|constructor]]]; (split; [|split; [apply Ht; vm_compute; reflexivity|vm_compute; discriminate]]).
  - constructor; [|constructor; [|constructor]].
    + apply Hrow; [vm_compute; reflexivity|unfold id_ok; lia|]. constructor; [cbn; lia|]. constructor; [by apply Hb|constructor].
    + apply Hrow; [vm_compute; reflexivity|unfold id_ok; lia|]. constructor; [done|]. constructor; [by apply Hb|constructor].
  - constructor; [|constructor]. apply Hrow; [vm_compute; reflexivity|done|]. repeat (constructor; [cbn; lia|]). constructor.
  - constructor.
Qed.

